(* ===== verification/_CoqProject ===== *)
-Q . S2P
Prelude.v
Histories.v
JsString.v
JsMap.v
JsNumber.v
JsValue.v
Errors.v
Utf8.v
TextDecoder.v
Uri.v
JsRegex.v
Http.v
Ulid.v
RateLimit.v
Retry.v
KvInterface.v
SqliteKv.v
CircuitBreaker.v
TenantGuard.v
Permissions.v
SqliteQueue.v
QueueConsumer.v
Packager.v
HealthCheck.v
Deployment.v
Router.v
Cron.v
IpBlocker.v
OperationCounter.v
KillEnforcer.v
Snapshot.v
SnapshotCache.v
Config.v
UsageCollector.v
ArchiveSchema.v
StateBackup.v
BackupRestore.v
ApiKeys.v
AuthMiddleware.v
SnapshotDistribution.v
ControlServer.v
ControlInstances.v
ControlSafety.v
RuntimeServer.v
RuntimeSafety.v
FailStatic.v
DataPlane.v
Gateway.v
EgressProxy.v
Secrets.v
Redactor.v
WorkerSupervisor.v
Shutdown.v
ResilientProvider.v
LocalBindings.v
LocalIsolation.v
LocalSafety.v
DenoKv.v
DenoKvList.v
DenoTtl.v
SdkHelpers.v
MutateSafety.v
SdkClient.v
SdkWrapper.v
LocalFs.v
LocalFsSafety.v
LocalFsRefinement.v
LocalFsObjects.v
PresignedUrls.v
DeployAnalyzer.v
AnalyzerSafety.v
DenoMemory.v
SdkSafety.v
DenoKvSafety.v
