(* ===== verification/Prelude.v ===== *)
(** * RailFog: a verification library (root file)

    RailFog runs Functions of many tenants.  A developer deploys an artifact to the
    control plane, which checks it, stores it, runs the health gate, and moves the
    active pointer of the function to the new revision.  It publishes, per project,
    a versioned snapshot of routes and active functions.  Runtime daemons poll the
    snapshots, keep serving the last one when the control plane is away, match
    requests to functions, load the code by its content address, and run it in an
    isolation provider, which hands the function a context with key-value, object
    and queue bindings and its secrets.  A gateway in front limits rates and forwards
    requests; an egress proxy guards what functions may connect to; workers take
    queue messages to functions.  The development models these parts as executable
    definitions translated from the TypeScript sources (paths are relative to the
    repository's root), and proves what makes them correct.

    ** Conventions

    A function that may throw returns a [result]; a method of an object with mutable
    fields is an [stm], a state transformer, which does not roll back when it throws.
    An [async] method that may interleave with others is split where it awaits: into
    operations that a step relation or an [exec] function interleaves
    (Deployment, SnapshotCache, ApiKeys, WorkerSupervisor, EgressProxy,
    LocalIsolation, UsageCollector, Shutdown), or as a program over the operations of
    its provider (DenoKv, SdkHelpers, SdkWrapper).  A string is a list of UTF-16 code
    units, a [Map] a list of entries in insertion order, a number a rational rounded
    to binary64 after every operation (no overflow to infinity in arithmetic), or an
    integer where the program keeps to safe integers; a JSON value is [jsval].  The
    clock and random bytes are arguments.

    ** Files

    Foundations.  Prelude: results, state transformers, loops, lists, tactics, the
    hint database [railfog].  Histories: visible histories and simulation.  JsString,
    JsMap, JsNumber, JsValue, JsRegex: the language's strings, maps, numbers, data and
    regular expressions.  Utf8, TextDecoder, Uri: text encodings.  Errors:
    packages/errors/mod.ts.  Ulid: packages/core/id/ulid.ts.  Http: requests,
    responses, URLs and the services reached by [fetch].

    Providers and primitives.  KvInterface: primitives/kv/kv-provider.ts, with the
    laws a provider promises, the versioned map as their abstract specification, and
    the timed map.  SqliteKv: providers/kv/sqlite-provider.ts.  DenoKv, DenoKvList,
    DenoTtl, DenoMemory, DenoKvSafety: providers/kv/deno-deploy-provider.ts.
    SqliteQueue: providers/queues/sqlite-queue-provider.ts.  LocalFs, LocalFsSafety,
    LocalFsRefinement, LocalFsObjects, PresignedUrls:
    providers/objects/local-fs-provider.ts.  TenantGuard:
    providers/guard/tenant-guard.ts.  ResilientProvider:
    providers/resilient/resilient-provider.ts.

    Policies.  RateLimit: packages/policy/rate-limiter.ts and
    apps/gateway/rate-limiter.ts.  Retry, CircuitBreaker, Permissions, Secrets:
    packages/policy/retry.ts, circuit-breaker.ts, permission-resolver.ts and
    secret-store.ts (with runtime/loader/secret-injector.ts).  Redactor:
    packages/logging/secret-redactor.ts.  UsageCollector:
    packages/metrics/usage-collector.ts.  Config: packages/config.  Packager:
    packages/core/artifact/packager.ts and content addressing.  DeployAnalyzer,
    AnalyzerSafety: packages/core/diagnostics/deploy-analyzer.ts.  ArchiveSchema:
    packages/core/backup/archive-schema.ts.  ApiKeys, AuthMiddleware: packages/auth.

    Control plane.  HealthCheck, Deployment: apps/api/health-checker.ts and
    deployment-service.ts.  StateBackup, BackupRestore:
    apps/api/state-backup-service.ts.  SnapshotDistribution, ControlServer,
    ControlInstances, ControlSafety: apps/api/control-server.ts.  Snapshot:
    packages/protocol/snapshot.ts.

    Data plane.  Router, Cron, SnapshotCache, OperationCounter, KillEnforcer,
    Shutdown, IpBlocker, EgressProxy: the files of the same subject under runtime/.
    LocalBindings, LocalIsolation, LocalSafety:
    runtime/sandbox/local-isolation.ts.  RuntimeServer, RuntimeSafety, FailStatic:
    apps/runtime/runtime-server.ts.  DataPlane: daemon and control plane together.
    Gateway: apps/gateway/gateway-server.ts, in front of the daemon.  QueueConsumer,
    WorkerSupervisor: apps/worker.

    SDK.  SdkHelpers, MutateSafety: sdk/typescript/helpers.ts.  SdkClient, SdkWrapper,
    SdkSafety: sdk/typescript/client.ts and wrapper.ts.

    ** What the theorems show

    End to end: what was deployed is what the daemon runs after its next poll
    ([DataPlane.deployed_runs]); the control plane is not on the path of a request
    ([FailStatic.fail_static]); what runs and under which headers
    ([RuntimeSafety.invocation_authentic], [Gateway.gateway_to_daemon]); bounds on
    state and call depth ([runtime_invariant], [call_depth_bounded]).

    Refinements and equivalences: the SQLite and the Deno KV provider implement one
    versioned map, also under interleaving and with times to live
    ([sqlite_kv_refines], [deno_history_atomic], [provider_parity]); [mutate] loses no
    update ([mutate_atomic]); files are a map ([local_fs_refines]); secrets are a map
    ([secrets_refine]); the router is nested functions ([router_onion]); the RPC
    client and the handler are inverse ([rpc_through_handle]).

    Isolation: of directories, tenants' keys, stores, imports and egress
    ([local_fs_confined], [guarded_kv_isolated], [stores_confined], [warm_reuse],
    [import_confined], [egress_confined], [request_touches_one_project],
    [unauthenticated_reads_only]).

    State machines over interleavings: cutover, revocation, snapshot tags and caches,
    the breaker, invocations, workers, shutdown ([cutover_newest_wins],
    [revocation_final], [snapshot_tags_sound], [cache_fail_static],
    [breaker_lifecycle], [invocation_lifecycle], [supervisor_acknowledges],
    [supervisor_drains], [shutdown_coordinated], [idempotent_call]).

    Queues lose nothing and bury poison messages ([queue_no_loss],
    [poison_message_to_dlq]).  Bounds and budgets: [check_throughput],
    [invocation_budgets].  Formats: [backup_roundtrip], [cron_fires],
    [validated_snapshot_typed], [redaction_complete].

    Lemmas and theorems outside these show single behaviours, among them the
    deviations from the documents, each by a concrete run.

    ** Fuel

    Recursion that is not structural has fuel, with a theorem that there is enough:
    [SdkWrapper.router_next] the number of middlewares; [JsRegex.exec_all] one more
    than the length of the text; the loops over pages of a listing one more than the
    number of entries ([export_kv_spec], [export_objects_spec]); redirects are
    followed twenty times, as the Fetch standard has it.  Loops that retry on
    conflicts are run against an interface ([kvprog], [bprog]) where each try is a
    step, so that a run may be infinite.

    ** Parameters and hypotheses

    Code outside the repository is a parameter with its documented behaviour as laws:
    hashing and base64 ([Hashing], [HashingLaws]), ciphers ([Crypto], [CryptoLaws]),
    JSON text ([JsonParser], [JsonText], [JsonArray], [ContentCodec] and their laws),
    numbers as text ([NumberText]), [URLPattern], the parsing of URLs and locations,
    the DNS, the paths of @std/path ([PathOps], [PathLaws], [PathJoin],
    [joins_under], [joins_files]), Deno KV ([DenoKv], [DenoKvLaws], [DenoKvListing]),
    object providers ([ObjectFrame], [ObjectLaws]), relative paths and
    [localeCompare] of the analyzer, the evaluation of a module ([Environment]), and
    the daemons seen from another one ([Peer]).  Each has a concrete instance on which
    the witnesses run.  Theorems that need more say so in their comments; the
    assumptions that hold throughout are: host names of the egress proxy are ASCII,
    the control plane's URL is an origin, stream errors of [LocalIsolation] carry no
    text, times to live of [DenoTtl] are whole seconds with one reading of the clock
    between two awaits, Deno KV drops entries only after they have expired, the local
    file system has no links and is never full.

    ** Not modelled

    Requests of one daemon do not interleave with each other (their effects on shared
    state are single steps), except where a file says so.  Sockets, timers' wiring,
    consoles and the choice of providers at start-up are left out; so are the command
    line, the development server, subprocess and microVM isolation (whose mechanism is
    the operating system's), the remote providers (Redis, PostgreSQL, Cloudflare),
    which speak to servers that are not in the repository, the exporter of traces, the
    cost calculator, the HTML pages, installation scripts and test doubles. *)

From stdpp Require Export base tactics option list numbers gmap.
From Stdlib Require Export ZArith Lia Bool.

Declare Scope railfog_scope.
Delimit Scope railfog_scope with rf.

(** ** Results of fallible code

    A JavaScript function that may throw (or an [async] one whose promise may
    reject) returns a [result E A]: [Ok a] is a normal completion and [Err e]
    carries the thrown error. *)

Inductive result (E A : Type) : Type :=
| Ok (a : A)
| Err (e : E).
Arguments Ok {E A} a.
Arguments Err {E A} e.

#[export] Instance result_ret E : MRet (result E) := λ A a, Ok a.
#[export] Instance result_bind E : MBind (result E) := λ A B f m,
  match m with Ok a => f a | Err e => Err e end.
#[export] Instance result_fmap E : FMap (result E) := λ A B f m,
  match m with Ok a => Ok (f a) | Err e => Err e end.
#[export] Instance result_eq_dec E A `{EqDecision E, EqDecision A} :
  EqDecision (result E A).
Proof. solve_decision. Defined.

(** [if (cond) throw e;] *)
Definition throw_if {E} (cond : bool) (e : E) : result E unit :=
  if cond then Err e else Ok tt.

(** A [for (const x of xs) { f(x); }] loop whose body may throw. *)
Fixpoint for_each {E A} (f : A → result E unit) (xs : list A) : result E unit :=
  match xs with
  | [] => Ok tt
  | x :: xs => f x ≫= λ _, for_each f xs
  end.

(** [xs.map(f)] with a callback that may throw, in order. *)
Fixpoint map_result {E A B} (f : A → result E B) (xs : list A)
    : result E (list B) :=
  match xs with
  | [] => Ok []
  | x :: xs => f x ≫= λ y, map_result f xs ≫= λ ys, Ok (y :: ys)
  end.

Definition is_ok {E A} (r : result E A) : bool :=
  match r with Ok _ => true | Err _ => false end.

(** ** Stateful code

    A method of an object with mutable fields: it maps the object's state to a
    new state and a result.  Throwing does not roll the state back. *)

Definition stm (S E A : Type) : Type := S → S * result E A.

Section stm.
Context {S E : Type}.

Definition st_ret {A} (a : A) : stm S E A := λ s, (s, Ok a).
Definition st_throw {A} (e : E) : stm S E A := λ s, (s, Err e).
Definition st_bind {A B} (m : stm S E A) (f : A → stm S E B) : stm S E B :=
  λ s, match m s with
       | (s', Ok a) => f a s'
       | (s', Err e) => (s', Err e)
       end.
Definition st_get : stm S E S := λ s, (s, Ok s).
Definition st_modify (f : S → S) : stm S E unit := λ s, (f s, Ok tt).
Definition st_lift {A} (r : result E A) : stm S E A := λ s, (s, r).
(** [try { r = await m } catch (e) { ... }]: the code goes on with the outcome. *)
Definition st_try {A} (m : stm S E A) : stm S E (result E A) := λ s, let '(s', r) := m s in (s', Ok r).
End stm.

Notation "x <~ m ;; k" := (st_bind m (λ x, k))
  (at level 100, m at next level, right associativity) : railfog_scope.
Notation "m ;;~ k" := (st_bind m (λ _, k))
  (at level 100, k at level 200, right associativity) : railfog_scope.

(** [for (const x of xs) { await f(x); }] over an object with state *)
Fixpoint st_for_each {S E A} (f : A → stm S E unit) (xs : list A) : stm S E unit :=
  match xs with
  | [] => st_ret tt
  | x :: xs => st_bind (f x) (λ _, st_for_each f xs)
  end.

(** ** Facts about results *)

Section result_facts.
Context {E : Type}.

Lemma bind_Ok {A B} (m : result E A) (f : A → result E B) b :
  (m ≫= f) = Ok b ↔ ∃ a, m = Ok a ∧ f a = Ok b.
Proof. destruct m; naive_solver. Qed.

Lemma bind_Err {A B} (m : result E A) (f : A → result E B) e :
  (m ≫= f) = Err e ↔ m = Err e ∨ ∃ a, m = Ok a ∧ f a = Err e.
Proof. destruct m; naive_solver. Qed.

Lemma Ok_inj {A} (a b : A) : Ok (E := E) a = Ok b → a = b.
Proof. by intros [= ->]. Qed.

Lemma throw_if_Ok (c : bool) (e : E) u : throw_if c e = Ok u ↔ c = false.
Proof. destruct c, u; naive_solver. Qed.

Lemma throw_if_Err (c : bool) (e e' : E) :
  throw_if c e = Err e' ↔ c = true ∧ e = e'.
Proof. destruct c; naive_solver. Qed.

Lemma for_each_Ok {A} (f : A → result E unit) xs u :
  for_each f xs = Ok u ↔ Forall (λ x, f x = Ok tt) xs.
Proof.
  destruct u. induction xs as [|x xs IH]; simpl.
  - split; auto.
  - rewrite bind_Ok, Forall_cons, <-IH. split.
    + by intros ([] & ? & ?).
    + intros [??]; eauto.
Qed.

(** *** Loops with state *)

Lemma st_for_each_inv {S A} (I : S → Prop) (f : A → stm S E unit) xs s :
  (∀ x s, x ∈ xs → I s → I (f x s).1) → I s → I (st_for_each f xs s).1.
Proof.
  revert s. induction xs as [|x xs IH]; intros s Hf Hs; [done|]. cbn. unfold st_bind.
  pose proof (Hf x s ltac:(by left) Hs) as Hx. destruct (f x s) as [s' [[]|e]]; [|done].
  apply IH; [|done]. intros y s'' Hy. apply Hf. by right.
Qed.

Lemma st_for_each_app_Ok {S A} (f : A → stm S E unit) xs ys s s' :
  st_for_each f (xs ++ ys) s = (s', Ok tt) ↔
  ∃ s1, st_for_each f xs s = (s1, Ok tt) ∧ st_for_each f ys s1 = (s', Ok tt).
Proof.
  revert s. induction xs as [|x xs IH]; intros s; cbn.
  - split; [intros H; by exists s|by intros (s1 & [= <-] & H)].
  - unfold st_bind at 1 2. destruct (f x s) as [s0 [[]|e]]; [apply IH|naive_solver].
Qed.

Lemma st_for_each_cons_Ok {S A} (f : A → stm S E unit) x xs s s' :
  st_for_each f (x :: xs) s = (s', Ok tt) ↔
  ∃ s1, f x s = (s1, Ok tt) ∧ st_for_each f xs s1 = (s', Ok tt).
Proof. cbn. unfold st_bind. destruct (f x s) as [s0 [[]|e]]; naive_solver. Qed.

Lemma st_bind_Ok {S A B} (m : stm S E A) (f : A → stm S E B) s s' b :
  st_bind m f s = (s', Ok b) ↔ ∃ s1 a, m s = (s1, Ok a) ∧ f a s1 = (s', Ok b).
Proof. unfold st_bind. destruct (m s) as [s1 [a|e]]; naive_solver. Qed.

Lemma st_lift_Ok {S A} (r : result E A) (s s' : S) a : st_lift r s = (s', Ok a) ↔ s' = s ∧ r = Ok a.
Proof. unfold st_lift. naive_solver. Qed.

(** [I] is preserved by [m], whether it completes or throws. *)
Definition st_keeps {S A} (I : S → Prop) (m : stm S E A) : Prop := ∀ s, I s → I (m s).1.

Lemma keeps_ret {S A} (I : S → Prop) (a : A) : st_keeps I (st_ret a).
Proof. by intros s. Qed.
Lemma keeps_throw {S A} (I : S → Prop) e : st_keeps I (st_throw (A := A) e).
Proof. by intros s. Qed.
Lemma keeps_lift {S A} (I : S → Prop) (r : result E A) : st_keeps I (st_lift r).
Proof. by intros s. Qed.
Lemma keeps_bind {S A B} (I : S → Prop) (m : stm S E A) (f : A → stm S E B) :
  st_keeps I m → (∀ a, st_keeps I (f a)) → st_keeps I (st_bind m f).
Proof.
  intros Hm Hf s Hs. unfold st_bind. specialize (Hm s Hs).
  destruct (m s) as [s1 [a|e]]; [by apply Hf|done].
Qed.
Lemma keeps_lift_bind {S A B} (I : S → Prop) (r : result E A) (f : A → stm S E B) :
  (∀ a, r = Ok a → st_keeps I (f a)) → st_keeps I (st_bind (st_lift r) f).
Proof. intros Hf s Hs. unfold st_bind, st_lift. destruct r as [a|e]; [by apply Hf|done]. Qed.
Lemma keeps_try {S A} (I : S → Prop) (m : stm S E A) : st_keeps I m → st_keeps I (st_try m).
Proof. intros Hm s Hs. specialize (Hm s Hs). unfold st_try. by destruct (m s). Qed.
Lemma keeps_modify {S} (I : S → Prop) (f : S → S) : (∀ s, I s → I (f s)) → st_keeps I (st_modify f).
Proof. intros Hf s. apply Hf. Qed.
Lemma keeps_get {S} (I : S → Prop) : st_keeps I st_get.
Proof. by intros s. Qed.
Lemma keeps_for_each {S A} (I : S → Prop) (f : A → stm S E unit) xs :
  (∀ x, x ∈ xs → st_keeps I (f x)) → st_keeps I (st_for_each f xs).
Proof. intros Hf s. apply st_for_each_inv. intros x s' Hx. by apply Hf. Qed.

(** A loop whose body always succeeds, under an invariant *)
Lemma st_for_each_total {S A} (I : S → Prop) (f : A → stm S E unit) xs s :
  (∀ x s, x ∈ xs → I s → ∃ s', f x s = (s', Ok tt) ∧ I s') → I s →
  ∃ s', st_for_each f xs s = (s', Ok tt) ∧ I s'.
Proof.
  revert s. induction xs as [|x xs IH]; intros s Hf Hs; [by exists s|].
  destruct (Hf x s ltac:(by left) Hs) as (s1 & Hx & H1).
  destruct (IH s1) as (s2 & H2 & Hi); [intros y s0 Hy; apply Hf; by right|done|].
  exists s2. split; [|done]. apply st_for_each_cons_Ok. by exists s1.
Qed.

(** Checks that throw the same error are one check. *)
Lemma throw_if_bind (a b : bool) (e : E) :
  (throw_if a e ≫= λ _, throw_if b e) = throw_if (a || b) e.
Proof. by destruct a. Qed.

Lemma throw_if_then {B} (a b : bool) (e : E) (m : result E B) :
  (throw_if a e ≫= λ _, throw_if b e ≫= λ _, m) = (throw_if (a || b) e ≫= λ _, m).
Proof. by destruct a. Qed.

Lemma for_each_throw {A} (f : A → result E unit) (test : A → bool) (e : E) xs :
  (∀ x, f x = throw_if (test x) e) → for_each f xs = throw_if (existsb test xs) e.
Proof. intros Hf. induction xs as [|x xs IH]; cbn; [done|]. by rewrite Hf, IH, throw_if_bind. Qed.

(** The first element whose body throws decides the loop's error. *)
Lemma for_each_Err {A} (f : A → result E unit) xs e :
  for_each f xs = Err e ↔
  ∃ pre x post, xs = pre ++ x :: post ∧ Forall (λ y, f y = Ok tt) pre ∧ f x = Err e.
Proof.
  induction xs as [|x xs IH]; simpl.
  - split; [done|]. by intros ([|] & ? & ? & ? & _).
  - rewrite bind_Err. split.
    + intros [?|([] & ? & Hxs)].
      * exists [], x, xs. auto.
      * apply IH in Hxs as (pre & y & post & -> & ? & ?).
        exists (x :: pre), y, post. auto.
    + intros ([|x' pre] & y & post & ? & Hpre & Hy); simplify_eq/=; [auto|].
      apply Forall_cons in Hpre as [??]. right. exists tt. split; [done|].
      apply IH. eauto 10.
Qed.

Lemma map_result_Ok {A B} (f : A → result E B) xs ys :
  map_result f xs = Ok ys ↔ Forall2 (λ x y, f x = Ok y) xs ys.
Proof.
  revert ys. induction xs as [|x xs IH]; intros ys; simpl.
  - split; [intros [= <-]; constructor | by inversion 1].
  - rewrite bind_Ok. setoid_rewrite bind_Ok. split.
    + intros (y & ? & ys' & ?%IH & [= <-]). by constructor.
    + inversion 1; subst. eexists; split; [done|]. eexists; split; [|done]. by apply IH.
Qed.
End result_facts.

Create HintDb railfog.
#[export] Hint Resolve keeps_ret keeps_throw keeps_lift keeps_get : railfog.
#[export] Hint Rewrite @bind_Ok @throw_if_Ok @for_each_Ok : railfog.

(** Breaks a hypothesis [H : body = Ok x] into the successful completion of
    every step of the body. *)
Ltac inv_ok H :=
  repeat match type of H with
  | (_ ≫= _) = Ok _ =>
      let a := fresh "a" in let Ha := fresh "Hok" in
      apply bind_Ok in H as (a & Ha & H); try (inv_ok Ha); try (destruct a; [])
  | throw_if _ _ = Ok _ => apply throw_if_Ok in H
  | mret _ = Ok _ => injection H as H
  | Ok _ = Ok _ => injection H as H
  | Err _ = Ok _ => discriminate H
  end.

(** Case analysis on every boolean test in the goal or the hypotheses. *)
Ltac split_ifs :=
  repeat (match goal with
  | |- context [if ?b then _ else _] => destruct b eqn:?
  | H : context [if ?b then _ else _] |- _ => destruct b eqn:?
  end; simplify_eq/=).

(** Boolean comparisons on [Z] as propositions. *)
Ltac zbool :=
  repeat match goal with
  | H : (_ || _)%bool = true |- _ => apply orb_true_iff in H
  | H : (_ || _)%bool = false |- _ => apply orb_false_iff in H; destruct H
  | H : (_ && _)%bool = true |- _ => apply andb_true_iff in H; destruct H
  | H : (_ && _)%bool = false |- _ => apply andb_false_iff in H
  | H : negb _ = true |- _ => apply negb_true_iff in H
  | H : negb _ = false |- _ => apply negb_false_iff in H
  | H : (_ <? _)%Z = true |- _ => apply Z.ltb_lt in H
  | H : (_ <? _)%Z = false |- _ => apply Z.ltb_ge in H
  | H : (_ <=? _)%Z = true |- _ => apply Z.leb_le in H
  | H : (_ <=? _)%Z = false |- _ => apply Z.leb_gt in H
  | H : (_ =? _)%Z = true |- _ => apply Z.eqb_eq in H
  | H : (_ =? _)%Z = false |- _ => apply Z.eqb_neq in H
  | H : (_ >? _)%Z = _ |- _ => rewrite Z.gtb_ltb in H
  | H : (_ >=? _)%Z = _ |- _ => rewrite Z.geb_leb in H
  end.

(** ** Reachability: the reflexive transitive closure of a step relation, with
    the induction principle the invariants use. *)
Section reach.
Context {S : Type} (step : S → S → Prop).

Lemma invariant_rtc (I : S → Prop) :
  (∀ s s', I s → step s s' → I s') → ∀ s s', I s → rtc step s s' → I s'.
Proof. intros Hstep s s' HI Hr. induction Hr; eauto. Qed.
End reach.

(** ** Lists *)

Lemma Forall_filter_iff {A} (P Q : A → Prop) `{!∀ x, Decision (P x)} l :
  Forall Q l → Forall Q (filter P l).
Proof.
  intros HQ. apply Forall_forall. intros x [??]%list_elem_of_filter.
  by eapply Forall_forall in HQ.
Qed.

Lemma existsb_true_iff {A} (f : A → bool) l :
  existsb f l = true ↔ ∃ x, x ∈ l ∧ f x = true.
Proof.
  rewrite existsb_exists. split; intros (x & ? & ?); exists x;
    by rewrite list_elem_of_In in *.
Qed.

Lemma forallb_true_iff {A} (f : A → bool) l :
  forallb f l = true ↔ ∀ x, x ∈ l → f x = true.
Proof.
  rewrite forallb_forall. split; intros H x Hx; apply H; by apply list_elem_of_In.
Qed.

Lemma existsb_false_iff {A} (f : A → bool) l :
  existsb f l = false ↔ Forall (λ x, f x = false) l.
Proof.
  induction l as [|x l IH]; cbn; [by split; constructor|].
  by rewrite orb_false_iff, Forall_cons, IH.
Qed.

Lemma filter_all {A} (P : A → Prop) `{!∀ x, Decision (P x)} l : Forall P l → filter P l = l.
Proof.
  induction 1; [done|]. rewrite filter_cons, decide_True by done. by f_equal.
Qed.

Lemma filter_none {A} (P : A → Prop) `{!∀ x, Decision (P x)} l :
  Forall (λ x, ¬ P x) l → filter P l = [].
Proof. induction 1; [done|]. by rewrite filter_cons, decide_False. Qed.

Lemma filter_ext_elem {A} (P Q : A → Prop) `{!∀ x, Decision (P x), !∀ x, Decision (Q x)} l :
  Forall (λ x, P x ↔ Q x) l → filter P l = filter Q l.
Proof.
  induction 1 as [|x l Hx _ IH]; [done|]. rewrite !filter_cons, IH.
  repeat case_decide; tauto.
Qed.

Lemma Forall2_impl_in {A B} (P Q : A → B → Prop) l k :
  Forall2 P l k → (∀ x y, x ∈ l → P x y → Q x y) → Forall2 Q l k.
Proof.
  induction 1 as [|x y l k Hxy _ IH]; intros H; constructor.
  - apply H; [left|done].
  - apply IH. intros x' y' Hx'. apply H. by right.
Qed.

Lemma Forall2_elem_r {A B} (P : A → B → Prop) l k y :
  Forall2 P l k → y ∈ k → ∃ x, x ∈ l ∧ P x y.
Proof.
  induction 1 as [|x' y' l k Hxy _ IH]; intros Hin; [by apply elem_of_nil in Hin|].
  apply elem_of_cons in Hin as [->|Hin].
  - exists x'. split; [left|done].
  - destruct (IH Hin) as (x & ? & ?). exists x. split; [by right|done].
Qed.

Lemma Forall2_elem_l {A B} (P : A → B → Prop) l k x :
  Forall2 P l k → x ∈ l → ∃ y, y ∈ k ∧ P x y.
Proof. intros H%Forall2_flip Hin. exact (Forall2_elem_r (flip P) k l x H Hin). Qed.

(** Elements with distinct images under [f] are determined by them. *)
Lemma NoDup_fmap_elem {A B} (f : A → B) l x y :
  NoDup (f <$> l) → x ∈ l → y ∈ l → f x = f y → x = y.
Proof.
  intros Hnd (i & Hi)%list_elem_of_lookup (j & Hj)%list_elem_of_lookup Hf.
  assert (i = j) as ->; [|congruence]. apply (NoDup_lookup (f <$> l) i j (f x)); [done|..].
  - by rewrite list_lookup_fmap, Hi.
  - rewrite list_lookup_fmap, Hj. cbn. by rewrite Hf.
Qed.

Lemma omap_nil_elem {A B} (f : A → option B) l : (∀ x, x ∈ l → f x = None) → omap f l = [].
Proof.
  induction l as [|x l IH]; intros H; [done|]. cbn. rewrite H by left. apply IH.
  intros y Hy. apply H. by right.
Qed.

(** ** Integers *)

Section integers.
Local Open Scope Z_scope.

(** Concatenation of bit fields *)
Lemma lor_shiftl_add a b k :
  0 <= k → 0 <= a → 0 <= b < 2 ^ k → Z.lor (Z.shiftl a k) b = a * 2 ^ k + b.
Proof.
  intros Hk Ha Hb. rewrite <-Z.shiftl_mul_pow2 by lia. symmetry.
  rewrite <-Z.lxor_lor; [apply Z.add_nocarry_lxor|]; apply Z.bits_inj'; intros n Hn;
    rewrite Z.land_spec, Z.bits_0; destruct (Z.lt_ge_cases n k);
    [by rewrite Z.shiftl_spec_low| |by rewrite Z.shiftl_spec_low|];
    (destruct (Z.eq_dec b 0) as [->|]; [by rewrite Z.bits_0, andb_false_r|]);
    rewrite (Z.bits_above_log2 b); rewrite ?andb_false_r; try done; try lia;
    apply Z.lt_le_trans with k; try done; apply Z.log2_lt_pow2; lia.
Qed.
End integers.
