(* ===== verification/Histories.v ===== *)
(** * Histories

    Transition systems some of whose steps are visible, the sequences of visible
    steps of their runs, and the simulation argument that every history of one
    system is a history of another. *)

From S2P Require Import Prelude.

Definition option_list {A} (o : option A) : list A := match o with Some x => [x] | None => [] end.

(** The sequence of the visible steps of a run *)
Inductive history {S E : Type} (step : S → option E → S → Prop) : S → list E → S → Prop :=
| history_nil s : history step s [] s
| history_silent s s' s'' es : step s None s' → history step s' es s'' → history step s es s''
| history_visible s s' s'' e es : step s (Some e) s' → history step s' es s'' → history step s (e :: es) s''.

Lemma history_app {S E} (step : S → option E → S → Prop) s es s' es' s'' :
  history step s es s' → history step s' es' s'' → history step s (es ++ es') s''.
Proof.
  induction 1; intros Hh; cbn; [done|eapply history_silent|eapply history_visible]; eauto.
Qed.

(** The visible steps of one system are those of another that simulates it. *)
Lemma history_simulation {S T E} (step : S → option E → S → Prop) (step' : T → option E → T → Prop)
    (R : S → T → Prop) (ok : E → Prop) :
  (∀ s o s' t, step s o s' → R s t → (∀ e, o = Some e → ok e) →
     ∃ t', history step' t (option_list o) t' ∧ R s' t') →
  ∀ s es s' t, history step s es s' → R s t → Forall ok es → ∃ t', history step' t es t' ∧ R s' t'.
Proof.
  intros Hsim s es s' t Hh. revert t.
  induction Hh as [s|s s1 s2 es Hst Hh IH|s s1 s2 e es Hst Hh IH]; intros t HR Hok.
  - exists t. split; [constructor|done].
  - destruct (Hsim _ _ _ _ Hst HR) as (t1 & Ht & HR'); [done|].
    destruct (IH t1 HR' Hok) as (t' & ? & ?). exists t'. split; [|done]. by apply (history_app _ _ [] t1).
  - apply Forall_cons in Hok as [He Hok].
    destruct (Hsim _ _ _ _ Hst HR) as (t1 & Ht & HR'); [by intros ? [= <-]|].
    destruct (IH t1 HR' Hok) as (t' & ? & ?). exists t'. split; [|done]. by apply (history_app _ _ [e] t1).
Qed.
