(* ===== verification/JsString.v ===== *)
(** * JavaScript strings

    A JavaScript string is a sequence of UTF-16 code units: [jstr] is a list of
    integers in [0, 65535].  This file defines the [String.prototype] methods the
    program uses, as executable functions, with the lemmas that give their
    meaning. *)

From S2P Require Import Prelude.
From Stdlib Require Import Sorted.
From Stdlib Require Ascii String.
Export String.StringSyntax Ascii.AsciiSyntax.
Delimit Scope string_scope with string.
Delimit Scope char_scope with char.

Open Scope Z_scope.

Abbreviation jstr := (list Z) (only parsing).

(** String literals of the source, all ASCII. *)
Definition js (s : String.string) : jstr :=
  (λ a, Z.of_N (Ascii.N_of_ascii a)) <$> String.list_ascii_of_string s.
Arguments js s%_string.

(** The character literals used in the definitions. *)
Abbreviation chr a := (Z.of_N (Ascii.N_of_ascii a%char)) (only parsing).

Definition jstr_eqb (a b : jstr) : bool := bool_decide (a = b).

(** [s.startsWith(p)] *)
Fixpoint starts_with (s p : jstr) {struct p} : bool :=
  match p, s with
  | [], _ => true
  | _ :: _, [] => false
  | c :: p, d :: s => (c =? d) && starts_with s p
  end.

(** [s.endsWith(p)] *)
Definition ends_with (s p : jstr) : bool := starts_with (rev s) (rev p).

(** [s.includes(t)] *)
Fixpoint includes (s t : jstr) : bool :=
  starts_with s t ||
  match s with [] => false | _ :: s => includes s t end.

(** [s.indexOf(t)], [None] for -1 *)
Fixpoint index_of (s t : jstr) : option nat :=
  if starts_with s t then Some 0%nat
  else match s with [] => None | _ :: s => S <$> index_of s t end.

(** [s.slice(n)] for [n >= 0] *)
Definition slice_from (n : nat) (s : jstr) : jstr := drop n s.

(** [s.split(c)] for a one-unit separator: never empty, [s = pieces.join(c)] *)
Fixpoint split_on (c : Z) (s : jstr) : list jstr :=
  match s with
  | [] => [[]]
  | d :: s =>
      if d =? c then [] :: split_on c s
      else match split_on c s with
           | [] => [[d]]
           | p :: ps => (d :: p) :: ps
           end
  end.

(** [parts.join(sep)] *)
Fixpoint str_join (sep : jstr) (ps : list jstr) : jstr :=
  match ps with
  | [] => []
  | [p] => p
  | p :: ps => p ++ sep ++ str_join sep ps
  end.

(** White space and line terminators, as [String.prototype.trim] and the [\s]
    regular expression class use them (ECMA-262 WhiteSpace, LineTerminator). *)
Definition is_space (c : Z) : bool :=
  ((9 <=? c) && (c <=? 13)) || (c =? 32) || (c =? 160) || (c =? 5760) ||
  ((8192 <=? c) && (c <=? 8202)) || (c =? 8232) || (c =? 8233) ||
  (c =? 8239) || (c =? 8287) || (c =? 12288) || (c =? 65279).

Fixpoint trim_start (s : jstr) : jstr :=
  match s with
  | [] => []
  | c :: s' => if is_space c then trim_start s' else s
  end.
Definition trim_end (s : jstr) : jstr := rev (trim_start (rev s)).

(** [s.trim()] *)
Definition trim (s : jstr) : jstr := trim_end (trim_start s).

(** [s.toLowerCase()], for the purpose of comparing the result with ASCII text:
    ASCII letters are lowered; U+212A (KELVIN SIGN) lowers to [k] and U+0130 to
    [i] followed by U+0307; no other code unit lowers to ASCII. *)
Definition to_lower_unit (c : Z) : jstr :=
  if (65 <=? c) && (c <=? 90) then [c + 32]
  else if c =? 8490 then [107]
  else if c =? 304 then [105; 775]
  else [c].
Definition to_lower (s : jstr) : jstr := flat_map to_lower_unit s.

Definition is_digit (c : Z) : bool := (48 <=? c) && (c <=? 57).
Definition is_upper (c : Z) : bool := (65 <=? c) && (c <=? 90).
Definition is_lower (c : Z) : bool := (97 <=? c) && (c <=? 122).

(** [a < b] and [a <= b] on strings: lexicographic on code units. *)
Fixpoint str_ltb (a b : jstr) : bool :=
  match a, b with
  | [], [] => false
  | [], _ :: _ => true
  | _ :: _, [] => false
  | c :: a, d :: b => (c <? d) || ((c =? d) && str_ltb a b)
  end.
Definition str_leb (a b : jstr) : bool := negb (str_ltb b a).

(** Decimal rendering of a non-negative integer, [String(n)]. *)
Fixpoint digits_fuel (fuel : nat) (n : Z) (acc : jstr) : jstr :=
  match fuel with
  | O => acc
  | S fuel =>
      let acc := (48 + n mod 10) :: acc in
      if n / 10 =? 0 then acc else digits_fuel fuel (n / 10) acc
  end.
Definition string_of_nat (n : Z) : jstr :=
  digits_fuel (S (Z.to_nat (Z.log2 (Z.max 1 n)))) n [].
Arguments string_of_nat : simpl never.

(** [parseInt(s, 10)]: optional white space and sign, then the longest run of
    digits; [None] is NaN. *)
Fixpoint digits_prefix (s : jstr) : jstr :=
  match s with
  | [] => []
  | c :: s => if is_digit c then c :: digits_prefix s else []
  end.
Definition num_of_digits (ds : jstr) : Z :=
  fold_left (λ acc c, acc * 10 + (c - 48)) ds 0.
Definition parse_int10 (s : jstr) : option Z :=
  let s := trim_start s in
  let '(sign, s) :=
    match s with
    | c :: s' => if c =? chr "-" then (-1, s') else if c =? chr "+" then (1, s') else (1, s)
    | [] => (1, [])
    end in
  match digits_prefix s with
  | [] => None
  | ds => Some (sign * num_of_digits ds)
  end.

(** ** Meaning of the predicates *)

Lemma jstr_eqb_eq a b : jstr_eqb a b = true ↔ a = b.
Proof. apply bool_decide_eq_true. Qed.
Lemma jstr_eqb_refl a : jstr_eqb a a = true.
Proof. by apply jstr_eqb_eq. Qed.
Lemma jstr_eqb_neq a b : jstr_eqb a b = false ↔ a ≠ b.
Proof. apply bool_decide_eq_false. Qed.

Lemma starts_with_spec s p : starts_with s p = true ↔ ∃ r, s = p ++ r.
Proof.
  revert s. induction p as [|c p IH]; intros [|d s]; simpl.
  - split; [by exists []|done].
  - split; [by exists (d :: s)|done].
  - split; [done|]. by intros [r ?].
  - rewrite andb_true_iff, Z.eqb_eq, IH. split.
    + intros [-> [r ->]]. by exists r.
    + intros [r [= -> ->]]. split; [done|]. by exists r.
Qed.

Lemma starts_with_app p r : starts_with (p ++ r) p = true.
Proof. apply starts_with_spec. eauto. Qed.

Lemma starts_with_refl p : starts_with p p = true.
Proof. apply starts_with_spec. exists []. by rewrite app_nil_r. Qed.

Lemma ends_with_spec s p : ends_with s p = true ↔ ∃ r, s = r ++ p.
Proof.
  unfold ends_with. rewrite starts_with_spec. split.
  - intros [r Hr]. exists (rev r). rewrite <-(rev_involutive s), Hr.
    by rewrite rev_app_distr, rev_involutive.
  - intros [r ->]. exists (rev r). apply rev_app_distr.
Qed.

Lemma includes_spec s t : includes s t = true ↔ ∃ a b, s = a ++ t ++ b.
Proof.
  induction s as [|c s IH]; simpl; rewrite orb_true_iff, starts_with_spec.
  - split.
    + intros [[r Hr]|?]; [|done]. exists [], r. done.
    + intros ([|] & b & Hb); [eauto|done].
  - rewrite IH. split.
    + intros [[r Hr]|(a & b & ->)]; [exists [], r | exists (c :: a), b]; done.
    + intros ([|d a] & b & Hb); simplify_eq/=; eauto.
Qed.

Lemma includes_app_l s1 s2 t : includes s1 t = true → includes (s1 ++ s2) t = true.
Proof. rewrite !includes_spec. intros (a & b & ->). exists a, (b ++ s2). by rewrite !app_assoc. Qed.
Lemma includes_app_r s1 s2 t : includes s2 t = true → includes (s1 ++ s2) t = true.
Proof. rewrite !includes_spec. intros (a & b & ->). exists (s1 ++ a), b. by rewrite !app_assoc. Qed.

(** A one-character search is membership. *)
Lemma includes_singleton s c : includes s [c] = true ↔ c ∈ s.
Proof.
  rewrite includes_spec. split.
  - intros (a & b & ->). set_solver.
  - intros (a & b & ->)%list_elem_of_split. eauto.
Qed.
Lemma includes_singleton_false s c : includes s [c] = false ↔ c ∉ s.
Proof. rewrite <-includes_singleton, <-not_true_iff_false. done. Qed.

Lemma split_on_not_nil c s : split_on c s ≠ [].
Proof. destruct s as [|d s]; simpl; [done|]. destruct (d =? c); [done|]. by case_match. Qed.

Lemma split_on_join c s : str_join [c] (split_on c s) = s.
Proof.
  induction s as [|d s IH]; simpl; [done|].
  pose proof (split_on_not_nil c s) as Hne.
  destruct (Z.eqb_spec d c) as [->|].
  - destruct (split_on c s); [done|]. simpl in *. by rewrite IH.
  - destruct (split_on c s) as [|p ps]; [done|]. destruct ps; simpl in *; by rewrite <-IH.
Qed.

Lemma split_on_no_sep c s : Forall (λ p, c ∉ p) (split_on c s).
Proof.
  induction s as [|d s IH]; simpl.
  - repeat constructor. set_solver.
  - destruct (Z.eqb_spec d c) as [->|]; [constructor; [set_solver|done]|].
    destruct (split_on c s) as [|p ps]; [repeat constructor; set_solver|].
    inversion_clear IH. constructor; [set_solver|done].
Qed.

(** Splitting a joined list of separator-free pieces gives the pieces back. *)
Lemma split_on_app c p s :
  c ∉ p → split_on c (p ++ c :: s) = p :: split_on c s.
Proof.
  induction p as [|d p IH]; intros Hp; simpl.
  - by rewrite Z.eqb_refl.
  - rewrite IH by set_solver. destruct (Z.eqb_spec d c); [set_solver|done].
Qed.

Lemma trim_start_suffix s : ∃ l, s = l ++ trim_start s ∧ Forall (λ c, is_space c = true) l.
Proof.
  induction s as [|c s (l & Hl & Hf)]; simpl; [by exists []|].
  destruct (is_space c) eqn:E; [|by exists []].
  exists (c :: l). split; [by rewrite <-app_comm_cons, <-Hl | by constructor].
Qed.

Lemma trim_start_idem s : trim_start (trim_start s) = trim_start s.
Proof.
  induction s as [|c s IH]; simpl; [done|].
  destruct (is_space c) eqn:E; [done|]. simpl. by rewrite E.
Qed.

Lemma trim_start_nil_iff s : trim_start s = [] ↔ Forall (λ c, is_space c = true) s.
Proof.
  induction s as [|c s IH]; simpl; [by split|].
  rewrite Forall_cons. destruct (is_space c); naive_solver.
Qed.

Lemma trim_nil_iff s : trim s = [] ↔ Forall (λ c, is_space c = true) s.
Proof.
  unfold trim, trim_end. split.
  - intros H. apply trim_start_nil_iff.
    destruct (trim_start s) as [|c r] eqn:E; [done|].
    assert (trim_start (rev (c :: r)) = []) as Hr.
    { rewrite <-(rev_involutive (trim_start _)), H. done. }
    apply trim_start_nil_iff in Hr.
    assert (is_space c = true) as Hc.
    { eapply Forall_forall in Hr; [exact Hr|]. apply list_elem_of_In, in_rev.
      rewrite rev_involutive. by left. }
    pose proof (trim_start_idem s) as Hi. rewrite E in Hi. simpl in Hi.
    rewrite Hc in Hi. destruct (trim_start_suffix r) as (l & Hl & _).
    apply (f_equal length) in Hl, Hi. rewrite length_app in Hl. simpl in Hi. lia.
  - intros H%trim_start_nil_iff. by rewrite H.
Qed.

(** ** The order on strings *)

Lemma str_ltb_irrefl a : str_ltb a a = false.
Proof.
  induction a as [|c a IH]; simpl; [done|]. by rewrite Z.ltb_irrefl, Z.eqb_refl, IH.
Qed.

Lemma str_ltb_trans a b c : str_ltb a b = true → str_ltb b c = true → str_ltb a c = true.
Proof.
  revert b c. induction a as [|x a IH]; intros [|y b] [|z c]; simpl; try done.
  rewrite !orb_true_iff, !andb_true_iff, !Z.ltb_lt, !Z.eqb_eq.
  intros [?|[??]] [?|[??]]; [left; lia..|right; split; [lia|eauto]].
Qed.

Lemma str_ltb_total a b : str_ltb a b = false → str_ltb b a = false → a = b.
Proof.
  revert b. induction a as [|x a IH]; intros [|y b]; simpl; try done.
  rewrite !orb_false_iff, !andb_false_iff, !Z.ltb_ge, !Z.eqb_neq.
  intros [? [?|?]] [? [?|?]]; try lia. f_equal; [lia|eauto].
Qed.

Lemma str_leb_refl a : str_leb a a = true.
Proof. unfold str_leb. by rewrite str_ltb_irrefl. Qed.

(** Same-length prefixes decide the order. *)
Lemma str_ltb_app_l p a b : str_ltb (p ++ a) (p ++ b) = str_ltb a b.
Proof. induction p as [|c p IH]; simpl; [done|]. by rewrite Z.ltb_irrefl, Z.eqb_refl, IH. Qed.

Lemma str_ltb_app_lt p q a b :
  length p = length q → str_ltb p q = true → str_ltb (p ++ a) (q ++ b) = true.
Proof.
  revert q. induction p as [|c p IH]; intros [|d q]; simpl; try done.
  intros [= Hl]. rewrite !orb_true_iff, !andb_true_iff. naive_solver.
Qed.

#[export] Hint Resolve starts_with_app starts_with_refl jstr_eqb_refl str_leb_refl
  str_ltb_irrefl : railfog.

(** [s.toUpperCase()], for the purpose of comparing the result with ASCII text:
    the code units below are those whose upper case is ASCII. *)
Definition to_upper_unit (c : Z) : jstr :=
  if (97 <=? c) && (c <=? 122) then [c - 32]
  else if c =? 0x131 then [73]
  else if c =? 0x17F then [83]
  else if c =? 0xDF then [83; 83]
  else if c =? 0xFB00 then [70; 70]
  else if c =? 0xFB01 then [70; 73]
  else if c =? 0xFB02 then [70; 76]
  else if c =? 0xFB03 then [70; 70; 73]
  else if c =? 0xFB04 then [70; 70; 76]
  else if (c =? 0xFB05) || (c =? 0xFB06) then [83; 84]
  else [c].
Definition to_upper (s : jstr) : jstr := flat_map to_upper_unit s.

Lemma str_ltb_le_trans a b c : str_ltb a b = true → str_leb b c = true → str_ltb a c = true.
Proof.
  unfold str_leb. rewrite negb_true_iff. intros Hab Hcb. destruct (str_ltb b c) eqn:E.
  - by eapply str_ltb_trans.
  - by rewrite <-(str_ltb_total b c).
Qed.

Lemma str_leb_trans a b c : str_leb a b = true → str_leb b c = true → str_leb a c = true.
Proof.
  unfold str_leb at 1 3. rewrite !negb_true_iff. intros Hab Hbc. apply not_true_iff_false. intros Hca.
  unfold str_leb in Hbc. apply negb_true_iff in Hbc.
  enough (str_ltb c b = true) by congruence. apply (str_ltb_le_trans c a b); [done|].
  unfold str_leb. by rewrite Hab.
Qed.

Lemma str_ltb_leb a b : str_ltb a b = true → str_leb a b = true.
Proof.
  intros H. unfold str_leb. apply negb_true_iff, not_true_iff_false. intros H'.
  pose proof (str_ltb_trans _ _ _ H H') as Hirr. by rewrite str_ltb_irrefl in Hirr.
Qed.

(** ** Numerals *)

Lemma digits_prefix_all ds rest :
  forallb is_digit ds = true →
  match rest with [] => True | c :: _ => is_digit c = false end →
  digits_prefix (ds ++ rest) = ds.
Proof.
  intros Hds Hrest. induction ds as [|c ds IH]; cbn in *.
  - destruct rest as [|c rest]; [done|]. cbn. by rewrite Hrest.
  - apply andb_true_iff in Hds as [-> Hds]. by rewrite IH.
Qed.

Lemma num_of_digits_app l c : num_of_digits (l ++ [c]) = num_of_digits l * 10 + (c - 48).
Proof. unfold num_of_digits. by rewrite fold_left_app. Qed.

Lemma digits_fuel_spec fuel n acc :
  0 <= n < 10 ^ Z.of_nat fuel → (0 < fuel)%nat →
  ∃ ds, digits_fuel fuel n acc = ds ++ acc ∧ ds ≠ [] ∧ forallb is_digit ds = true ∧
    num_of_digits ds = n.
Proof.
  revert n acc. induction fuel as [|fuel IH]; intros n acc Hn Hf; [lia|]. cbn [digits_fuel].
  assert (0 <= n mod 10 < 10) as Hm by (apply Z.mod_pos_bound; lia).
  assert (is_digit (48 + n mod 10) = true) as Hd.
  { unfold is_digit. apply andb_true_iff. rewrite !Z.leb_le. lia. }
  pose proof (Z.div_mod n 10 ltac:(lia)) as Hdm.
  destruct (Z.eqb_spec (n / 10) 0) as [E|E].
  - exists [48 + n mod 10]. split_and!; [done|done|cbn; by rewrite Hd|].
    unfold num_of_digits. cbn. lia.
  - rewrite Nat2Z.inj_succ, Z.pow_succ_r in Hn by lia.
    destruct fuel as [|fuel]; [cbn in Hn; exfalso; apply E; apply Z.div_small; lia|].
    destruct (IH (n / 10) ((48 + n mod 10) :: acc)) as (ds & -> & Hne & Hall & Hnum).
    + split; [apply Z.div_pos; lia|apply Z.div_lt_upper_bound; lia].
    + lia.
    + exists (ds ++ [48 + n mod 10]). split_and!; [by rewrite <-app_assoc|by destruct ds| |].
      * rewrite forallb_app, Hall. cbn. by rewrite Hd.
      * rewrite num_of_digits_app, Hnum. lia.
Qed.

(** [String(n)] is a non-empty run of digits that denotes [n]. *)
Lemma string_of_nat_spec n : 0 <= n →
  string_of_nat n ≠ [] ∧ forallb is_digit (string_of_nat n) = true ∧ num_of_digits (string_of_nat n) = n.
Proof.
  intros Hn. unfold string_of_nat.
  destruct (digits_fuel_spec (S (Z.to_nat (Z.log2 (Z.max 1 n)))) n []) as (ds & -> & ?).
  - split; [done|]. rewrite Nat2Z.inj_succ, Z2Nat.id by apply Z.log2_nonneg.
    pose proof (Z.log2_spec (Z.max 1 n) ltac:(lia)) as [_ Hlt].
    apply Z.le_lt_trans with (Z.max 1 n); [lia|]. apply Z.lt_le_trans with (1 := Hlt).
    apply Z.pow_le_mono_l. lia.
  - lia.
  - by rewrite app_nil_r.
Qed.

Lemma is_digit_not_space c : is_digit c = true → is_space c = false.
Proof.
  unfold is_digit, is_space. rewrite andb_true_iff, !Z.leb_le. intros [? ?].
  repeat (apply orb_false_iff; split); try apply andb_false_iff;
    rewrite ?Z.leb_gt, ?Z.eqb_neq; lia.
Qed.

(** [parseInt(digits + rest, 10)] *)
Lemma parse_int10_digits ds rest :
  ds ≠ [] → forallb is_digit ds = true →
  match rest with [] => True | c :: _ => is_digit c = false end →
  parse_int10 (ds ++ rest) = Some (num_of_digits ds).
Proof.
  intros Hne Hds Hrest. destruct ds as [|d ds]; [done|].
  pose proof Hds as Hds'. cbn in Hds'. apply andb_true_iff in Hds' as [Hd _].
  unfold parse_int10. cbn [app trim_start]. rewrite (is_digit_not_space d Hd).
  assert (d =? chr "-" = false ∧ d =? chr "+" = false) as [-> ->].
  { unfold is_digit in Hd. apply andb_true_iff in Hd as [?%Z.leb_le ?%Z.leb_le].
    rewrite !Z.eqb_neq. cbn. lia. }
  change (d :: ds ++ rest) with ((d :: ds) ++ rest). rewrite digits_prefix_all by done.
  f_equal. lia.
Qed.

Lemma parse_int10_string_of_nat n : 0 <= n → parse_int10 (string_of_nat n) = Some n.
Proof.
  intros Hn. destruct (string_of_nat_spec n Hn) as (Hne & Hd & Hnum).
  rewrite <-(app_nil_r (string_of_nat n)). rewrite parse_int10_digits by done. by rewrite Hnum.
Qed.

Lemma to_lower_app a b : to_lower (a ++ b) = to_lower a ++ to_lower b.
Proof. apply flat_map_app. Qed.

Lemma to_lower_digits ds : forallb is_digit ds = true → to_lower ds = ds.
Proof.
  induction ds as [|d ds IH]; [done|]. cbn [forallb]. rewrite andb_true_iff. intros [Hd Hds].
  change (to_lower (d :: ds)) with (to_lower_unit d ++ to_lower ds). rewrite IH by done. unfold to_lower_unit. unfold is_digit in Hd.
  apply andb_true_iff in Hd as [?%Z.leb_le ?%Z.leb_le].
  destruct (Z.leb_spec 65 d); [lia|]. cbn. destruct (Z.eqb_spec d 8490); [lia|].
  destruct (Z.eqb_spec d 304); [lia|]. done.
Qed.

Lemma split_on_none c s : c ∉ s → split_on c s = [s].
Proof.
  induction s as [|d s IH]; intros Hc; [done|]. cbn. rewrite IH by set_solver.
  destruct (Z.eqb_spec d c) as [->|]; [set_solver|done].
Qed.

(** Splitting what [join] put together *)
Lemma split_on_str_join c ps : ps ≠ [] → Forall (λ p, c ∉ p) ps → split_on c (str_join [c] ps) = ps.
Proof.
  induction ps as [|p ps IH]; intros Hne Hall; [done|]. apply Forall_cons in Hall as [Hp Hps].
  destruct ps as [|q ps]; [by apply split_on_none|].
  change (str_join [c] (p :: q :: ps)) with (p ++ c :: str_join [c] (q :: ps)).
  rewrite split_on_app by done. by rewrite IH.
Qed.

Lemma index_of_char c p s : c ∉ p → index_of (p ++ c :: s) [c] = Some (length p).
Proof.
  intros Hp. induction p as [|d p IH]; cbn [app index_of starts_with]; [by rewrite Z.eqb_refl|].
  apply not_elem_of_cons in Hp as [Hd Hp]. rewrite (proj2 (Z.eqb_neq c d)) by done. cbn [andb]. by rewrite IH.
Qed.

(** ** Text without white space *)

Definition no_space (s : jstr) : Prop := Forall (λ c, is_space c = false) s.

Lemma trim_start_id s : match s with [] => True | c :: _ => is_space c = false end → trim_start s = s.
Proof. destruct s as [|c s]; [done|]. cbn. by intros ->. Qed.

Lemma trim_id f s l :
  no_space f → f ≠ [] → no_space l → l ≠ [] → trim (f ++ s ++ l) = f ++ s ++ l.
Proof.
  intros Hf Hfne Hl Hlne. unfold trim, trim_end. rewrite (trim_start_id (f ++ s ++ l)).
  - rewrite trim_start_id; [apply rev_involutive|]. rewrite app_assoc, rev_app_distr.
    destruct (rev l) as [|c r] eqn:E; [apply (f_equal (@rev Z)) in E; by rewrite rev_involutive in E|].
    cbn. eapply Forall_forall in Hl; [exact Hl|]. apply list_elem_of_In, in_rev. rewrite E. by left.
  - destruct f as [|c f]; [done|]. cbn. by apply Forall_cons in Hf as [? _].
Qed.

(** ** Sorting and replacing *)

(** [strings.sort()]: insertion sort has the same result, since equal strings are
    indistinguishable. *)
Fixpoint insert_sorted (s : jstr) (l : list jstr) : list jstr :=
  match l with
  | [] => [s]
  | x :: l' => if str_leb s x then s :: l else x :: insert_sorted s l'
  end.
Definition sort_strings (l : list jstr) : list jstr := foldr insert_sorted [] l.

Lemma insert_sorted_perm s l : insert_sorted s l ≡ₚ s :: l.
Proof.
  induction l as [|x l IH]; [done|]. cbn [insert_sorted].
  destruct (str_leb s x); [done|]. rewrite IH. apply Permutation_swap.
Qed.

Lemma sort_strings_perm l : sort_strings l ≡ₚ l.
Proof. induction l as [|s l IH]; [done|]. cbn. by rewrite insert_sorted_perm, IH. Qed.

(** Sorting a list without duplicates gives it in strictly ascending order. *)
Definition ascending (l : list jstr) : Prop := StronglySorted (λ a b, str_ltb a b = true) l.

Lemma insert_sorted_ascending s l : s ∉ l → ascending l → ascending (insert_sorted s l).
Proof.
  unfold ascending. induction l as [|x l IH]; cbn [insert_sorted]; intros Hs Hl; [by repeat constructor|].
  apply not_elem_of_cons in Hs as [Hne Hs]. apply StronglySorted_inv in Hl as [Hl Hx].
  destruct (str_leb s x) eqn:E.
  - assert (str_ltb s x = true) as Hlt.
    { unfold str_leb in E. apply negb_true_iff in E. destruct (str_ltb s x) eqn:E'; [done|].
      destruct Hne. by apply str_ltb_total. }
    constructor; [by constructor|]. constructor; [done|].
    eapply Forall_impl; [exact Hx|]. intros y Hy. by eapply str_ltb_trans.
  - constructor; [by apply IH|]. apply Forall_forall. intros y Hy. rewrite insert_sorted_perm in Hy.
    apply elem_of_cons in Hy as [->|Hy]; [unfold str_leb in E; by apply negb_false_iff in E|].
    rewrite Forall_forall in Hx. by apply Hx.
Qed.

Lemma sort_strings_ascending l : NoDup l → ascending (sort_strings l).
Proof.
  induction 1 as [|s l Hs _ IH]; cbn; [constructor|]. apply insert_sorted_ascending; [|done].
  by rewrite sort_strings_perm.
Qed.

(** [s.replaceAll(pat, rep)] for a [pat] that is not empty: the leftmost match,
    then on after it; [skip] units of a match are still to be passed over. *)
Fixpoint replace_from (pat rep : jstr) (skip : nat) (s : jstr) : jstr :=
  match s with
  | [] => []
  | c :: s' =>
      match skip with
      | S skip => replace_from pat rep skip s'
      | O =>
          if starts_with s pat then rep ++ replace_from pat rep (length pat - 1) s'
          else c :: replace_from pat rep O s'
      end
  end.
Definition replace_all (s pat rep : jstr) : jstr := replace_from pat rep O s.

(** [s.replace(/\/+$/, "")] *)
Fixpoint drop_slashes (s : jstr) : jstr :=
  match s with c :: rest => if c =? chr "/" then drop_slashes rest else s | [] => [] end.
Definition strip_slashes (s : jstr) : jstr := rev (drop_slashes (rev s)).
