(* ===== verification/JsMap.v ===== *)
(** * JavaScript [Map] and [Set]

    A [Map] iterates in insertion order: [set] on a present key keeps its place,
    [set] on a new key appends, [delete] removes.  [jsmap K V] is the list of
    entries in that order; a [Set] is the list of its elements. *)

From S2P Require Import Prelude.

Abbreviation jsmap K V := (list (K * V)) (only parsing).

Section jsmap.
Context {K V : Type} `{EqDecision K}.
Implicit Types (m : jsmap K V) (k : K) (v : V).

Fixpoint map_get m k : option V :=
  match m with
  | [] => None
  | (k', v) :: m => if decide (k = k') then Some v else map_get m k
  end.

Definition map_has m k : bool := match map_get m k with Some _ => true | None => false end.

Fixpoint map_set m k v : jsmap K V :=
  match m with
  | [] => [(k, v)]
  | (k', v') :: m =>
      if decide (k = k') then (k', v) :: m else (k', v') :: map_set m k v
  end.

Definition map_delete m k : jsmap K V := filter (λ e, e.1 ≠ k) m.

Definition map_keys m : list K := m.*1.
Definition map_values m : list V := m.*2.

(** A [Map] holds at most one entry per key. *)
Definition map_wf m : Prop := NoDup (map_keys m).

Lemma map_get_set_eq m k v : map_get (map_set m k v) k = Some v.
Proof.
  induction m as [|[k' v'] m IH]; simpl; [by rewrite decide_True|].
  destruct (decide (k = k')) as [->|]; simpl; [by rewrite decide_True|].
  by rewrite decide_False.
Qed.

Lemma map_get_set_ne m k k' v : k ≠ k' → map_get (map_set m k v) k' = map_get m k'.
Proof.
  intros Hne. induction m as [|[k0 v0] m IH]; simpl; [by rewrite decide_False|].
  destruct (decide (k = k0)) as [->|]; simpl; [by rewrite !decide_False by congruence|].
  by rewrite IH.
Qed.

Lemma map_get_set m k k' v :
  map_get (map_set m k v) k' = if decide (k = k') then Some v else map_get m k'.
Proof.
  case_decide; subst; [apply map_get_set_eq|by apply map_get_set_ne].
Qed.

Lemma map_get_delete_eq m k : map_get (map_delete m k) k = None.
Proof.
  induction m as [|[k' v'] m IH]; simpl; [done|].
  unfold map_delete in *. rewrite filter_cons. case_decide; simpl in *; [|done].
  by rewrite decide_False by congruence.
Qed.

Lemma map_get_delete_ne m k k' : k ≠ k' → map_get (map_delete m k) k' = map_get m k'.
Proof.
  intros Hne. induction m as [|[k0 v0] m IH]; simpl; [done|].
  unfold map_delete in *. rewrite filter_cons. case_decide as Hd; simpl in *.
  - by rewrite IH.
  - destruct (decide (k0 = k)); [subst|done]. by rewrite decide_False by congruence.
Qed.

Lemma map_get_elem m k v : map_get m k = Some v → (k, v) ∈ m.
Proof.
  induction m as [|[k' v'] m IH]; simpl; [done|].
  case_decide; intros; simplify_eq; set_solver.
Qed.

Lemma elem_map_get m k v : map_wf m → (k, v) ∈ m → map_get m k = Some v.
Proof.
  unfold map_wf, map_keys. induction m as [|[k' v'] m IH]; simpl; [set_solver|].
  intros [Hn Hd]%NoDup_cons [?|Hin]%elem_of_cons; simplify_eq; [by rewrite decide_True|].
  rewrite decide_False; [auto|]. intros ->. apply Hn.
  apply list_elem_of_fmap. by exists (k', v).
Qed.

Lemma map_get_None m k : map_get m k = None ↔ k ∉ map_keys m.
Proof.
  unfold map_keys. induction m as [|[k' v'] m IH]; simpl; [set_solver|].
  case_decide; set_solver.
Qed.

Lemma map_keys_set m k v :
  map_keys (map_set m k v) = if decide (k ∈ map_keys m) then map_keys m else map_keys m ++ [k].
Proof.
  induction m as [|[k' v'] m IH]; simpl; [done|].
  destruct (decide (k = k')) as [->|]; simpl; [by rewrite decide_True by set_solver|].
  rewrite IH. destruct (decide (k ∈ map_keys m)).
  - by rewrite decide_True by set_solver.
  - by rewrite decide_False by set_solver.
Qed.

Lemma map_set_wf m k v : map_wf m → map_wf (map_set m k v).
Proof.
  unfold map_wf. rewrite map_keys_set. case_decide; [done|]. intros.
  apply NoDup_app. split_and!; [done|set_solver|apply NoDup_singleton].
Qed.

Lemma map_delete_keys m k : map_keys (map_delete m k) = filter (λ k', k' ≠ k) (map_keys m).
Proof.
  unfold map_delete. induction m as [|[k' v'] m IH]; [done|].
  rewrite filter_cons. cbn [map_keys fmap list_fmap fst]. rewrite filter_cons.
  destruct (decide (k' ≠ k)); [|exact IH]. cbn. f_equal. exact IH.
Qed.

Lemma map_delete_wf m k : map_wf m → map_wf (map_delete m k).
Proof. unfold map_wf. rewrite map_delete_keys. apply NoDup_filter. Qed.

Lemma map_empty_wf : map_wf [].
Proof. constructor. Qed.

Lemma elem_map_set m k v k' v' :
  (k', v') ∈ map_set m k v → (k' = k ∧ v' = v) ∨ (k', v') ∈ m.
Proof.
  induction m as [|[k0 v0] m IH]; simpl; [set_solver|].
  case_decide; set_solver.
Qed.

Lemma Forall_map_set (P : K * V → Prop) m k v : Forall P m → P (k, v) → Forall P (map_set m k v).
Proof.
  rewrite !Forall_forall. intros Hm Hv [k' v'] [[-> ->]|Hin]%elem_map_set; [done|by apply Hm].
Qed.

Lemma elem_map_delete m k e : e ∈ map_delete m k ↔ e ∈ m ∧ e.1 ≠ k.
Proof. unfold map_delete. rewrite list_elem_of_filter. naive_solver. Qed.

Lemma map_delete_middle m1 m2 k v :
  map_wf (m1 ++ (k, v) :: m2) → map_delete (m1 ++ (k, v) :: m2) k = m1 ++ m2.
Proof.
  unfold map_wf, map_keys. rewrite fmap_app, fmap_cons. cbn [fst].
  intros (_ & Hs & [Hk _]%NoDup_cons)%NoDup_app.
  unfold map_delete. rewrite filter_app, filter_cons, decide_False by (cbn; auto).
  f_equal; apply filter_all, Forall_forall; intros e He Heq.
  - apply (Hs e.1); [by apply list_elem_of_fmap_2|]. rewrite Heq. left.
  - apply Hk. rewrite <-Heq. by apply list_elem_of_fmap_2.
Qed.

Lemma map_wf_middle m1 m2 k v : map_wf (m1 ++ (k, v) :: m2) → map_wf (m1 ++ m2).
Proof.
  unfold map_wf, map_keys. rewrite !fmap_app, fmap_cons.
  intros (? & Hs & [_ ?]%NoDup_cons)%NoDup_app. apply NoDup_app.
  split_and!; [done| |done]. intros k' Hk' Hin. apply (Hs k' Hk'). by right.
Qed.

Lemma filter_map_wf (P : K * V → Prop) `{!∀ e, Decision (P e)} m :
  map_wf m → map_wf (filter P m).
Proof.
  unfold map_wf, map_keys. intros Hm. apply (sublist_NoDup _ _ Hm).
  apply fmap_sublist, sublist_filter.
Qed.

(** Lookup after keeping the entries whose value satisfies a test. *)
(** Keys deleted in turn *)
Lemma map_get_fold_delete ks m k :
  map_get (fold_left map_delete ks m) k = if decide (k ∈ ks) then None else map_get m k.
Proof.
  revert m. induction ks as [|k0 ks IH]; intros m; cbn.
  { rewrite decide_False; [done|]. by apply not_elem_of_nil. }
  rewrite IH. destruct (decide (k ∈ ks)) as [Hin|Hout].
  - rewrite decide_True; [done|]. by right.
  - destruct (decide (k = k0)) as [->|Hne].
    + rewrite decide_True by left. apply map_get_delete_eq.
    + rewrite decide_False by set_solver. by apply map_get_delete_ne.
Qed.

(** A filter that keeps every entry of a key *)
Lemma map_get_filter_kept (P : K * V → Prop) `{!∀ e, Decision (P e)} m k :
  (∀ v, P (k, v)) → map_get (filter P m) k = map_get m k.
Proof.
  intros Hk. induction m as [|[k' v'] m IH]; [done|]. rewrite filter_cons.
  destruct (decide (P (k', v'))) as [Hp|Hp]; cbn [map_get]; (destruct (decide (k = k')) as [->|]; [|done]).
  - done.
  - by destruct (Hp (Hk v')).
Qed.

Lemma map_get_filter (P : K * V → Prop) `{!∀ e, Decision (P e)} m k :
  map_wf m →
  map_get (filter P m) k =
    match map_get m k with
    | Some v => if decide (P (k, v)) then Some v else None
    | None => None
    end.
Proof.
  intros Hwf. destruct (map_get m k) as [v|] eqn:E.
  - case_decide as HP.
    + apply elem_map_get; [by apply filter_map_wf|].
      apply list_elem_of_filter. split; [done|by apply map_get_elem].
    + destruct (map_get (filter P m) k) as [v'|] eqn:E'; [|done].
      apply map_get_elem, list_elem_of_filter in E' as [HP' Hin].
      apply (elem_map_get m) in Hin; [|done]. by simplify_eq.
  - apply map_get_None. apply map_get_None in E. intros Hin. apply E.
    unfold map_keys in *. apply list_elem_of_fmap in Hin as (e & -> & [_ Hin]%list_elem_of_filter).
    by apply list_elem_of_fmap_2.
Qed.
End jsmap.

(** [Array.from(new Set(xs))]: the distinct elements in order of first
    occurrence. *)
Section jsset.
Context {A : Type} `{EqDecision A}.

Definition set_add (s : list A) (x : A) : list A :=
  if decide (x ∈ s) then s else s ++ [x].
Definition set_of_list (xs : list A) : list A := fold_left set_add xs [].

Lemma elem_set_add s x y : y ∈ set_add s x ↔ y ∈ s ∨ y = x.
Proof. unfold set_add. case_decide; set_solver. Qed.

Lemma elem_fold_set_add xs s x : x ∈ fold_left set_add xs s ↔ x ∈ s ∨ x ∈ xs.
Proof.
  revert s. induction xs as [|y xs IH]; intros s; simpl; [set_solver|].
  rewrite IH, elem_set_add. set_solver.
Qed.

Lemma elem_set_of_list xs x : x ∈ set_of_list xs ↔ x ∈ xs.
Proof. unfold set_of_list. rewrite elem_fold_set_add. set_solver. Qed.

Lemma set_add_NoDup s x : NoDup s → NoDup (set_add s x).
Proof.
  unfold set_add. case_decide; [done|]. intros. apply NoDup_app.
  split_and!; [done|set_solver|apply NoDup_singleton].
Qed.

Lemma set_of_list_NoDup xs : NoDup (set_of_list xs).
Proof.
  unfold set_of_list. assert (NoDup (@nil A)) as Hnil by constructor.
  revert Hnil. generalize (@nil A). induction xs; simpl; eauto using set_add_NoDup.
Qed.
End jsset.

(** Changing the values of a [Map] commutes with its operations. *)
Section jsmap_map_values.
Context {K V W : Type} `{EqDecision K} (f : V → W).
Implicit Types (m : jsmap K V) (k : K) (v : V).

Definition on_values (m : jsmap K V) : jsmap K W := (λ e, (e.1, f e.2)) <$> m.

Lemma map_get_on_values m k : map_get (on_values m) k = f <$> map_get m k.
Proof. induction m as [|[k' v] m IH]; simpl; [done|]. by case_decide. Qed.

Lemma map_set_on_values m k v : map_set (on_values m) k (f v) = on_values (map_set m k v).
Proof.
  induction m as [|[k' v'] m IH]; simpl; [done|]. case_decide; [done|]. cbn. by f_equal.
Qed.

Lemma map_delete_on_values m k : map_delete (on_values m) k = on_values (map_delete m k).
Proof.
  induction m as [|[k' v'] m IH]; [done|]. unfold map_delete, on_values in *.
  rewrite fmap_cons, !filter_cons. cbn. case_decide; [|done]. cbn. by f_equal.
Qed.
End jsmap_map_values.

#[export] Hint Resolve map_set_wf map_delete_wf map_empty_wf : railfog.

(** [new Map(entries)] *)
Section map_of_entries.
Context {K V : Type} `{EqDecision K}.
Implicit Types (m : jsmap K V).

Definition map_of_entries (l : list (K * V)) : jsmap K V :=
  fold_left (λ m e, map_set m e.1 e.2) l [].

Lemma map_set_new m k v : k ∉ map_keys m → map_set m k v = m ++ [(k, v)].
Proof.
  unfold map_keys. induction m as [|[k' v'] m IH]; intros Hk; [done|]. cbn in *.
  rewrite decide_False by set_solver. rewrite IH by set_solver. done.
Qed.

(** A well-formed [Map] is rebuilt from its entries. *)
Lemma map_of_entries_wf m : map_wf m → map_of_entries m = m.
Proof.
  unfold map_of_entries. intros Hwf. change m with ([] ++ m) at 2. change m with ([] ++ m) in Hwf.
  revert Hwf. generalize (@nil (K * V)). induction m as [|[k v] m IH]; intros m0 Hwf; cbn; [by rewrite app_nil_r|].
  rewrite map_set_new.
  - rewrite IH; by rewrite <-app_assoc.
  - unfold map_wf, map_keys in *. rewrite fmap_app in Hwf.
    apply NoDup_app in Hwf as (_ & Hd & _). intros Hin. apply (Hd _ Hin). left.
Qed.

Lemma map_delete_None m k : map_get m k = None → map_delete m k = m.
Proof.
  intros Hk%map_get_None. unfold map_delete. apply filter_all, Forall_forall.
  intros e He Heq. apply Hk. rewrite <-Heq. by apply list_elem_of_fmap_2.
Qed.
End map_of_entries.

(** Keeping and changing some entries *)
Section map_omap.
Context {K V W : Type} `{EqDecision K} (g : K → V → option W).
Implicit Types (m : jsmap K V).

Definition omap_entries m : jsmap K W := omap (λ e, (λ v, (e.1, v)) <$> g e.1 e.2) m.

Lemma omap_entries_keys m k : k ∈ map_keys (omap_entries m) → k ∈ map_keys m.
Proof.
  unfold map_keys, omap_entries. intros ([k' w] & -> & ([k0 v] & Hin & Hg)%list_elem_of_omap)%list_elem_of_fmap.
  apply fmap_Some in Hg as (w' & _ & [= -> ->]). by apply (list_elem_of_fmap_2 fst _ (k0, v)).
Qed.

Lemma omap_entries_wf m : map_wf m → map_wf (omap_entries m).
Proof.
  unfold map_wf. induction m as [|[k v] m IH]; [done|]. unfold map_keys, omap_entries in *. cbn.
  intros [Hk Hm]%NoDup_cons. destruct (g k v) as [w|]; [|by apply IH]. cbn. apply NoDup_cons. split; [|by apply IH].
  intros Hin. apply Hk. by apply (omap_entries_keys m).
Qed.

Lemma map_get_omap m k : map_wf m → map_get (omap_entries m) k = map_get m k ≫= g k.
Proof.
  unfold map_wf. induction m as [|[k' v] m IH]; [done|]. unfold map_keys. cbn [fmap list_fmap fst].
  intros [Hk Hm]%NoDup_cons. cbn [map_get]. specialize (IH Hm).
  change (omap_entries ((k', v) :: m)) with
    (match (λ w, (k', w)) <$> g k' v with Some e => e :: omap_entries m | None => omap_entries m end).
  destruct (decide (k = k')) as [->|Hne]; cbn [mbind option_bind].
  - destruct (g k' v) as [w|]; cbn [fmap option_fmap option_map]; [by cbn; rewrite decide_True|].
    apply map_get_None. intros Hin%omap_entries_keys. done.
  - rewrite <-IH. destruct (g k' v); cbn [fmap option_fmap option_map]; [|done]. cbn. by rewrite decide_False.
Qed.
End map_omap.
