(* ===== verification/JsNumber.v ===== *)
(** * JavaScript numbers

    A finite JavaScript number is a rational [Q]; an arithmetic operation of the
    source is the exact operation followed by [rnd], round-to-nearest-even to 53
    significant bits (IEEE-754 binary64).  The exponent range is not bounded:
    overflow to infinity and gradual underflow are outside the model.

    Timestamps, counters and other integers that stay below 2^53 are [Z]: every
    operation on them is exact ([rnd_int]). *)

From S2P Require Import Prelude.
From Stdlib Require Import QArith Qround Qabs Lqa Psatz.

Open Scope Z_scope.

(** ** Rounding to the nearest integer, ties to even *)

Definition rne (q : Q) : Z :=
  let f := Qfloor q in
  let d := (q - inject_Z f)%Q in
  match Qcompare d (1 # 2) with
  | Lt => f
  | Gt => f + 1
  | Eq => if Z.even f then f else f + 1
  end.

(** [2^k] for an integer [k] *)
Definition pow2 (k : Z) : Q :=
  if 0 <=? k then inject_Z (2 ^ k) else (/ inject_Z (2 ^ (- k)))%Q.

(** The binade of [q > 0]: [pow2 (expo q) <= q < pow2 (expo q + 1)]. *)
Definition expo (q : Q) : Z :=
  let e := Z.log2 (Qnum q) - Z.log2 (Z.pos (Qden q)) in
  if Qle_bool (pow2 e) q then e else e - 1.

(** Rounding of a positive number to 53 significant bits. *)
Definition rnd_pos (q : Q) : Q :=
  let k := expo q - 52 in
  (inject_Z (rne (q / pow2 k)) * pow2 k)%Q.

Definition rnd (q : Q) : Q :=
  match Z.compare (Qnum q) 0 with
  | Eq => 0%Q
  | Gt => Qred (rnd_pos q)
  | Lt => Qred (- rnd_pos (- q))%Q
  end.

(** ** The operators *)

Definition fadd (a b : Q) : Q := rnd (a + b).
Definition fsub (a b : Q) : Q := rnd (a - b).
Definition fmul (a b : Q) : Q := rnd (a * b).
Definition fdiv (a b : Q) : Q := rnd (a / b).

Definition qmin (a b : Q) : Q := if Qle_bool a b then a else b.
Definition qmax (a b : Q) : Q := if Qle_bool a b then b else a.
Definition q_ltb (a b : Q) : bool := negb (Qle_bool b a).

(** [Math.round]: to the nearest integer, ties upwards. *)
Definition math_round (q : Q) : Z := Qfloor (q + (1 # 2)).

(** The [number] type with its non-finite values, for code that tests them. *)
Inductive jsnum :=
| NaN
| Inf (negative : bool)
| Fin (q : Q).

(** [Number.isFinite] *)
Definition num_is_finite (x : jsnum) : bool :=
  match x with Fin _ => true | _ => false end.
(** [Number.isInteger] *)
Definition num_is_integer (x : jsnum) : bool :=
  match x with Fin q => Qeq_bool q (inject_Z (Qfloor q)) | _ => false end.
(** [Number.isSafeInteger] *)
Definition num_is_safe_integer (x : jsnum) : bool :=
  match x with
  | Fin q => Qeq_bool q (inject_Z (Qfloor q)) && (Z.abs (Qfloor q) <=? 2 ^ 53 - 1)
  | _ => false
  end.

(** [x < q], [x <= q], [x >= q] and [x > q] against a finite literal; every comparison with
    NaN is false. *)
Definition num_ltb (x : jsnum) (q : Q) : bool :=
  match x with NaN => false | Inf neg => neg | Fin p => q_ltb p q end.
Definition num_leb (x : jsnum) (q : Q) : bool :=
  match x with NaN => false | Inf neg => neg | Fin p => Qle_bool p q end.
Definition num_gtb (x : jsnum) (q : Q) : bool :=
  match x with NaN => false | Inf neg => negb neg | Fin p => q_ltb q p end.
Definition num_geb (x : jsnum) (q : Q) : bool :=
  match x with NaN => false | Inf neg => negb neg | Fin p => Qle_bool q p end.

(** ** Facts *)

Lemma q_ltb_lt a b : q_ltb a b = true ↔ (a < b)%Q.
Proof.
  unfold q_ltb. rewrite negb_true_iff, <-not_true_iff_false, Qle_bool_iff.
  split; [apply Qnot_le_lt|apply Qlt_not_le].
Qed.
Lemma q_ltb_ge a b : q_ltb a b = false ↔ (b <= a)%Q.
Proof. unfold q_ltb. by rewrite negb_false_iff, Qle_bool_iff. Qed.
Lemma Qle_bool_false a b : Qle_bool a b = false ↔ (b < a)%Q.
Proof.
  rewrite <-not_true_iff_false, Qle_bool_iff.
  split; [apply Qnot_le_lt|apply Qlt_not_le].
Qed.

Lemma qmin_le_l a b : (qmin a b <= a)%Q.
Proof.
  unfold qmin. destruct (Qle_bool a b) eqn:E; [lra|]. apply Qle_bool_false in E. lra.
Qed.
Lemma qmin_le_r a b : (qmin a b <= b)%Q.
Proof. unfold qmin. destruct (Qle_bool a b) eqn:E; [by apply Qle_bool_iff|lra]. Qed.
Lemma qmin_glb a b c : (c <= a → c <= b → c <= qmin a b)%Q.
Proof. unfold qmin. by destruct (Qle_bool a b). Qed.
Lemma qmax_ge_l a b : (a <= qmax a b)%Q.
Proof. unfold qmax. destruct (Qle_bool a b) eqn:E; [by apply Qle_bool_iff|lra]. Qed.
Lemma qmax_ge_r a b : (b <= qmax a b)%Q.
Proof. unfold qmax. destruct (Qle_bool a b) eqn:E; [lra|]. apply Qle_bool_false in E. lra. Qed.
Lemma qmax_lub a b c : (a <= c → b <= c → qmax a b <= c)%Q.
Proof. unfold qmax. by destruct (Qle_bool a b). Qed.

(** *** [rne] *)

Lemma Qfloor_bounds q : (inject_Z (Qfloor q) <= q /\ q < inject_Z (Qfloor q) + 1)%Q.
Proof.
  split; [apply Qfloor_le|]. pose proof (Qlt_floor q) as H.
  by rewrite inject_Z_plus in H.
Qed.

Lemma Qfloor_unique q z : (inject_Z z <= q)%Q → (q < inject_Z z + 1)%Q → Qfloor q = z.
Proof.
  intros H1 H2. pose proof (Qfloor_bounds q) as [H3 H4].
  assert (inject_Z z < inject_Z (Qfloor q) + 1)%Q as Ha by lra.
  assert (inject_Z (Qfloor q) < inject_Z z + 1)%Q as Hb by lra.
  change 1%Q with (inject_Z 1) in *. rewrite <-inject_Z_plus in Ha, Hb.
  rewrite <-Zlt_Qlt in Ha, Hb. lia.
Qed.

Lemma rne_bounds q : (q - (1 # 2) <= inject_Z (rne q) /\ inject_Z (rne q) <= q + (1 # 2))%Q.
Proof.
  pose proof (Qfloor_bounds q) as [H1 H2]. unfold rne.
  destruct (Qcompare _ _) eqn:E.
  - apply Qeq_alt in E. destruct (Z.even _); [|rewrite inject_Z_plus]; change (inject_Z 1) with 1%Q; lra.
  - apply Qlt_alt in E. lra.
  - apply Qgt_alt in E. rewrite inject_Z_plus; change (inject_Z 1) with 1%Q; lra.
Qed.

Lemma rne_floor q : Qfloor q ≤ rne q ≤ Qfloor q + 1.
Proof. unfold rne. destruct (Qcompare _ _); [destruct (Z.even _)|..]; lia. Qed.

#[export] Instance rne_proper : Proper (Qeq ==> eq) rne.
Proof.
  intros a b Hab. unfold rne. rewrite (Qfloor_comp _ _ Hab).
  assert (Qcompare (a - inject_Z (Qfloor b)) (1 # 2) =
          Qcompare (b - inject_Z (Qfloor b)) (1 # 2)) as ->; [|done].
  by rewrite Hab.
Qed.

Lemma rne_mono a b : (a <= b)%Q → rne a ≤ rne b.
Proof.
  intros Hab. pose proof (Qfloor_resp_le _ _ Hab) as Hf.
  apply Z.le_lteq in Hf as [Hf|Hf].
  - pose proof (rne_floor a). pose proof (rne_floor b). lia.
  - unfold rne. rewrite Hf. set (f := Qfloor b) in *.
    destruct (Qcompare (a - _) _) eqn:E1; destruct (Qcompare (b - _) _) eqn:E2;
      try (apply Qeq_alt in E1 || apply Qlt_alt in E1 || apply Qgt_alt in E1);
      try (apply Qeq_alt in E2 || apply Qlt_alt in E2 || apply Qgt_alt in E2);
      try destruct (Z.even f); try lia; exfalso; lra.
Qed.

Lemma rne_int z : rne (inject_Z z) = z.
Proof.
  unfold rne. rewrite Qfloor_Z.
  assert (Qcompare (inject_Z z - inject_Z z) (1 # 2) = Lt) as ->; [|done].
  rewrite <-Qlt_alt. lra.
Qed.

(** *** Powers of two *)

Lemma pow2_pos k : (0 < pow2 k)%Q.
Proof.
  unfold pow2. destruct (Z.leb_spec 0 k).
  - change 0%Q with (inject_Z 0). rewrite <-Zlt_Qlt. lia.
  - apply Qinv_lt_0_compat. change 0%Q with (inject_Z 0). rewrite <-Zlt_Qlt. lia.
Qed.

Lemma pow2_add a b : (pow2 (a + b) == pow2 a * pow2 b)%Q.
Proof.
  assert (∀ n : Z, 0 ≤ n → ¬ (inject_Z (2 ^ n) == 0)%Q) as Hnz.
  { intros n Hn. intros H. change 0%Q with (inject_Z 0) in H. apply (proj1 (inject_Z_injective _ _)) in H.
    lia. }
  assert (∀ x y z : Z, 0 ≤ y → 0 ≤ z → x = y + z →
    (inject_Z (2 ^ x) == inject_Z (2 ^ y) * inject_Z (2 ^ z))%Q) as Hsplit.
  { intros x y z ?? ->. by rewrite Z.pow_add_r, inject_Z_mult. }
  unfold pow2.
  destruct (Z.leb_spec 0 a), (Z.leb_spec 0 b), (Z.leb_spec 0 (a + b)); try lia.
  - by rewrite <-inject_Z_mult, Z.pow_add_r.
  - rewrite (Hsplit a (a + b) (- b)) by lia. field. apply Hnz. lia.
  - rewrite (Hsplit (- b) a (- (a + b))) by lia. field. split; apply Hnz; lia.
  - rewrite (Hsplit b (a + b) (- a)) by lia. field. apply Hnz. lia.
  - rewrite (Hsplit (- a) b (- (a + b))) by lia. field. split; apply Hnz; lia.
  - rewrite (Hsplit (- (a + b)) (- a) (- b)) by lia. field. split; apply Hnz; lia.
Qed.

Lemma pow2_int k : 0 ≤ k → pow2 k = inject_Z (2 ^ k).
Proof. intros. unfold pow2. by rewrite (proj2 (Z.leb_le 0 k)). Qed.

Lemma pow2_mono a b : a ≤ b → (pow2 a <= pow2 b)%Q.
Proof.
  intros Hab. replace b with (a + (b - a)) by lia. rewrite pow2_add.
  rewrite (pow2_int (b - a)) by lia.
  assert (1 <= inject_Z (2 ^ (b - a)))%Q.
  { change 1%Q with (inject_Z 1). rewrite <-Zle_Qle. lia. }
  pose proof (pow2_pos a). nra.
Qed.

Lemma pow2_sub a b : (pow2 (a - b) == pow2 a / pow2 b)%Q.
Proof.
  assert (pow2 a == pow2 (a - b) * pow2 b)%Q as ->.
  { rewrite <-pow2_add. by replace (a - b + b) with a by lia. }
  field. pose proof (pow2_pos b). lra.
Qed.

Lemma pow2_lt_inv a b : (pow2 a < pow2 b)%Q → a < b.
Proof.
  intros H. destruct (Z.lt_ge_cases a b) as [|Hge]; [done|].
  pose proof (pow2_mono _ _ Hge). lra.
Qed.

(** *** The binade of a positive number *)

Lemma expo_spec q : (0 < q)%Q → (pow2 (expo q) <= q /\ q < pow2 (expo q + 1))%Q.
Proof.
  intros Hq. destruct q as [n d]. unfold expo. cbn [Qnum Qden].
  assert (0 < n) as Hn by (unfold Qlt in Hq; simpl in Hq; lia).
  pose proof (Z.log2_spec n Hn) as [Hn1 Hn2].
  pose proof (Z.log2_spec (Z.pos d) eq_refl) as [Hd1 Hd2].
  set (ln := Z.log2 n) in *. set (ld := Z.log2 (Z.pos d)) in *.
  assert (0 ≤ ln) by apply Z.log2_nonneg. assert (0 ≤ ld) by apply Z.log2_nonneg.
  assert (n # d == inject_Z n / inject_Z (Z.pos d))%Q as Heq by apply Qmake_Qdiv.
  assert (0 < inject_Z (Z.pos d))%Q as Hdpos by (change 0%Q with (inject_Z 0); rewrite <-Zlt_Qlt; lia).
  rewrite Zle_Qle in Hn1, Hd1. rewrite Zlt_Qlt in Hn2, Hd2.
  rewrite <-Z.add_1_r, <-pow2_int in Hn2 by lia. rewrite <-Z.add_1_r, <-pow2_int in Hd2 by lia.
  rewrite <-pow2_int in Hn1 by lia. rewrite <-pow2_int in Hd1 by lia.
  assert (n # d < pow2 (ln - ld + 1))%Q as Hup.
  { rewrite Heq. apply Qlt_shift_div_r; [done|].
    replace (ln - ld + 1) with ((ln + 1) - ld) by lia. rewrite pow2_sub.
    pose proof (pow2_pos ld). pose proof (pow2_pos (ln + 1)).
    apply Qlt_le_trans with (pow2 (ln + 1)); [done|].
    apply Qle_trans with (pow2 (ln + 1) / pow2 ld * pow2 ld)%Q.
    - assert (pow2 (ln + 1) / pow2 ld * pow2 ld == pow2 (ln + 1))%Q as -> by (field; lra). lra.
    - apply Qmult_le_l; [|done]. apply Qlt_shift_div_l; lra. }
  assert (pow2 (ln - ld - 1) <= n # d)%Q as Hlo.
  { rewrite Heq. apply Qle_shift_div_l; [done|].
    replace (ln - ld - 1) with (ln - (ld + 1)) by lia. rewrite pow2_sub.
    pose proof (pow2_pos (ld + 1)). pose proof (pow2_pos ln).
    apply Qle_trans with (pow2 ln / pow2 (ld + 1) * pow2 (ld + 1))%Q.
    - apply Qmult_le_l; [apply Qlt_shift_div_l; lra|lra].
    - assert (pow2 ln / pow2 (ld + 1) * pow2 (ld + 1) == pow2 ln)%Q as -> by (field; lra). lra. }
  destruct (Qle_bool (pow2 (ln - ld)) (n # d)) eqn:E.
  - apply Qle_bool_iff in E. done.
  - apply Qle_bool_false in E. split; [done|]. by replace (ln - ld - 1 + 1) with (ln - ld) by lia.
Qed.

Lemma expo_mono a b : (0 < a)%Q → (a <= b)%Q → expo a ≤ expo b.
Proof.
  intros Ha Hab. pose proof (expo_spec a Ha). pose proof (expo_spec b ltac:(lra)).
  assert (expo a < expo b + 1); [|lia]. apply pow2_lt_inv. lra.
Qed.

(** *** Rounding of positive numbers *)

Lemma div_pow2_le a b k : (a <= b)%Q → (a / pow2 k <= b / pow2 k)%Q.
Proof. intros. apply Qmult_le_compat_r; [done|]. apply Qinv_le_0_compat. pose proof (pow2_pos k). lra. Qed.

Lemma rnd_pos_upper q : (0 < q)%Q → (rnd_pos q <= pow2 (expo q + 1))%Q.
Proof.
  intros Hq. destruct (expo_spec q Hq) as [_ Hup]. unfold rnd_pos. cbv zeta.
  set (e := expo q) in *. pose proof (pow2_pos (e - 52)) as Hk.
  assert (q / pow2 (e - 52) <= inject_Z (2 ^ 53))%Q as Hd.
  { rewrite <-pow2_int by lia. replace 53 with ((e + 1) - (e - 52)) by lia. rewrite (pow2_sub (e + 1)).
    apply div_pow2_le. lra. }
  apply rne_mono in Hd. rewrite rne_int, Zle_Qle, <-pow2_int in Hd by lia.
  replace (e + 1) with (53 + (e - 52)) by lia. rewrite pow2_add.
  apply Qmult_le_compat_r; lra.
Qed.

Lemma rnd_pos_lower q : (0 < q)%Q → (pow2 (expo q) <= rnd_pos q)%Q.
Proof.
  intros Hq. destruct (expo_spec q Hq) as [Hlo _]. unfold rnd_pos. cbv zeta.
  set (e := expo q) in *. pose proof (pow2_pos (e - 52)) as Hk.
  assert (inject_Z (2 ^ 52) <= q / pow2 (e - 52))%Q as Hd.
  { rewrite <-pow2_int by lia. replace 52 with (e - (e - 52)) at 1 by lia. rewrite (pow2_sub e).
    by apply div_pow2_le. }
  apply rne_mono in Hd. rewrite rne_int, Zle_Qle, <-pow2_int in Hd by lia.
  replace e with (52 + (e - 52)) at 1 by lia. rewrite pow2_add.
  apply Qmult_le_compat_r; lra.
Qed.

Lemma rnd_pos_pos q : (0 < q)%Q → (0 < rnd_pos q)%Q.
Proof. intros Hq. pose proof (rnd_pos_lower q Hq). pose proof (pow2_pos (expo q)). lra. Qed.

Lemma rnd_pos_mono a b : (0 < a)%Q → (a <= b)%Q → (rnd_pos a <= rnd_pos b)%Q.
Proof.
  intros Ha Hab. pose proof (expo_mono _ _ Ha Hab) as He.
  apply Z.le_lteq in He as [He|He].
  - pose proof (rnd_pos_upper a Ha). pose proof (rnd_pos_lower b ltac:(lra)).
    pose proof (pow2_mono (expo a + 1) (expo b) ltac:(lia)). lra.
  - unfold rnd_pos. cbv zeta. rewrite He. pose proof (pow2_pos (expo b - 52)).
    apply Qmult_le_compat_r; [|lra]. rewrite <-Zle_Qle. apply rne_mono, div_pow2_le, Hab.
Qed.

(** A number with a 53-bit significand is not changed. *)
Lemma rnd_pos_exact q m : (0 < q)%Q → (q == inject_Z m * pow2 (expo q - 52))%Q → (rnd_pos q == q)%Q.
Proof.
  intros Hq Hm. unfold rnd_pos. cbv zeta. pose proof (pow2_pos (expo q - 52)).
  assert (q / pow2 (expo q - 52) == inject_Z m)%Q as ->; [|by rewrite rne_int].
  rewrite Hm at 1. field. lra.
Qed.

(** Half a unit in the last place, relative to the number: 2^-53. *)
Definition eps : Q := 1 # 9007199254740992.

Lemma rnd_pos_err q : (0 < q)%Q →
  (q * (1 - eps) <= rnd_pos q /\ rnd_pos q <= q * (1 + eps))%Q.
Proof.
  intros Hq. destruct (expo_spec q Hq) as [Hlo _]. unfold rnd_pos. cbv zeta.
  set (e := expo q) in *. pose proof (pow2_pos (e - 52)) as Hk.
  pose proof (rne_bounds (q / pow2 (e - 52))) as [H1 H2].
  assert (q / pow2 (e - 52) * pow2 (e - 52) == q)%Q as Hmul by (field; lra).
  assert (pow2 (e - 52) == pow2 e * (1 # 4503599627370496))%Q as Hp.
  { replace (e - 52) with (e + (- 52)) by lia. rewrite pow2_add. reflexivity. }
  assert (pow2 (e - 52) * (1 # 2) <= q * eps)%Q as Hulp.
  { rewrite Hp. unfold eps. lra. }
  split; nra.
Qed.

(** ** Facts about [rnd] *)

Lemma rnd_zero q : (q == 0)%Q → rnd q = 0%Q.
Proof.
  intros H. unfold rnd. assert (Qnum q = 0) as ->; [|done].
  unfold Qeq in H. simpl in H. lia.
Qed.
Lemma rnd_of_pos q : (0 < q)%Q → (rnd q == rnd_pos q)%Q.
Proof.
  intros H. unfold rnd. assert (0 < Qnum q) as Hp by (unfold Qlt in H; simpl in H; lia).
  destruct (Z.compare_spec (Qnum q) 0); try lia. apply Qred_correct.
Qed.
Lemma rnd_of_neg q : (q < 0)%Q → (rnd q == - rnd_pos (- q))%Q.
Proof.
  intros H. unfold rnd. assert (Qnum q < 0) as Hp by (unfold Qlt in H; simpl in H; lia).
  destruct (Z.compare_spec (Qnum q) 0); try lia. apply Qred_correct.
Qed.

Lemma rnd_sign q : (0 <= q → 0 <= rnd q)%Q.
Proof.
  intros H. apply Qle_lteq in H as [H|H].
  - rewrite rnd_of_pos by done. pose proof (rnd_pos_pos q H). lra.
  - rewrite rnd_zero by (by symmetry). lra.
Qed.

Lemma rnd_mono a b : (a <= b)%Q → (rnd a <= rnd b)%Q.
Proof.
  intros Hab. destruct (Q_dec 0 a) as [[Ha|Ha]|Ha].
  - rewrite !rnd_of_pos by lra. by apply rnd_pos_mono.
  - destruct (Q_dec 0 b) as [[Hb|Hb]|Hb].
    + rewrite (rnd_of_neg a), (rnd_of_pos b) by lra.
      pose proof (rnd_pos_pos b Hb). pose proof (rnd_pos_pos (- a) ltac:(lra)). lra.
    + rewrite !rnd_of_neg by lra. pose proof (rnd_pos_mono (- b) (- a) ltac:(lra) ltac:(lra)). lra.
    + rewrite (rnd_of_neg a), (rnd_zero b) by lra. pose proof (rnd_pos_pos (- a) ltac:(lra)). lra.
  - rewrite (rnd_zero a) by lra. apply rnd_sign. lra.
Qed.

#[export] Instance rnd_proper : Proper (Qeq ==> Qeq) rnd.
Proof. intros a b Hab. apply Qle_antisym; apply rnd_mono; lra. Qed.

Lemma rnd_err_up q : (0 <= q)%Q → (rnd q <= q * (1 + eps))%Q.
Proof.
  intros H. apply Qle_lteq in H as [H|H].
  - rewrite rnd_of_pos by done. by apply rnd_pos_err.
  - rewrite rnd_zero, <-H by (by symmetry). unfold eps. lra.
Qed.
Lemma rnd_err_low q : (0 <= q)%Q → (q * (1 - eps) <= rnd q)%Q.
Proof.
  intros H. apply Qle_lteq in H as [H|H].
  - rewrite rnd_of_pos by done. by apply rnd_pos_err.
  - rewrite rnd_zero, <-H by (by symmetry). lra.
Qed.

(** Integers up to 2^53 are represented exactly. *)
Lemma rnd_int z : 0 ≤ z ≤ 2 ^ 53 → (rnd (inject_Z z) == inject_Z z)%Q.
Proof.
  intros [H0 Hz]. apply Z.le_lteq in H0 as [H0|<-]; [|by rewrite rnd_zero].
  assert (0 < inject_Z z)%Q as Hq by (change 0%Q with (inject_Z 0); by rewrite <-Zlt_Qlt).
  rewrite rnd_of_pos by done. destruct (expo_spec _ Hq) as [Hlo Hup].
  set (e := expo (inject_Z z)) in *.
  destruct (Z.le_gt_cases e 52) as [He|He].
  - apply (rnd_pos_exact _ (z * 2 ^ (52 - e))); [done|]. fold e.
    rewrite inject_Z_mult, <-pow2_int, <-Qmult_assoc, <-pow2_add by lia.
    replace (52 - e + (e - 52)) with 0 by lia. change (pow2 0) with 1%Q. lra.
  - assert (e = 53) as He'.
    { assert (e < 54); [|lia]. apply pow2_lt_inv. rewrite Zle_Qle, <-pow2_int in Hz by lia.
      pose proof (pow2_mono 53 54 ltac:(lia)). assert (pow2 54 == 2 * pow2 53)%Q by reflexivity.
      pose proof (pow2_pos 53). lra. }
    apply (rnd_pos_exact _ (2 ^ 52)); [done|]. fold e. rewrite He' in *.
    rewrite pow2_int, <-Zle_Qle in Hlo by lia. assert (z = 2 ^ 53) as -> by lia. reflexivity.
Qed.

Lemma rnd_one : (rnd 1 == 1)%Q.
Proof. apply (rnd_int 1). lia. Qed.
Lemma rnd_le_one q : (q <= 1 → rnd q <= 1)%Q.
Proof. intros H%rnd_mono. pose proof rnd_one. lra. Qed.
Lemma rnd_ge_one q : (1 <= q → 1 <= rnd q)%Q.
Proof. intros H%rnd_mono. pose proof rnd_one. lra. Qed.
Lemma rnd_gt_zero q : (0 < q → 0 < rnd q)%Q.
Proof. intros. rewrite rnd_of_pos by done. by apply rnd_pos_pos. Qed.

Lemma math_round_nonneg q : (0 <= q)%Q → 0 ≤ math_round q.
Proof.
  intros H. unfold math_round. change 0 with (Qfloor 0). apply Qfloor_resp_le. lra.
Qed.
Lemma math_round_mono a b : (a <= b)%Q → math_round a ≤ math_round b.
Proof. intros. apply Qfloor_resp_le. lra. Qed.

Lemma inject_Z_nonneg z : 0 ≤ z → (0 <= inject_Z z)%Q.
Proof. intros. change 0%Q with (inject_Z 0). by rewrite <-Zle_Qle. Qed.

#[export] Hint Resolve rnd_sign rnd_mono math_round_nonneg math_round_mono inject_Z_nonneg : railfog.
