(* ===== verification/JsValue.v ===== *)
(** * JavaScript values of unknown type

    The values that validation code receives as [unknown]: JSON data and
    [undefined].  An object is the list of its own enumerable entries. *)

From S2P Require Import Prelude JsString JsMap JsNumber.
From Stdlib Require Import QArith.

Open Scope Z_scope.

Inductive jsval :=
| JUndef
| JNull
| JBool (b : bool)
| JNum (n : jsnum)
| JStr (s : jstr)
| JArr (xs : list jsval)
| JObj (entries : list (jstr * jsval)).

(** [v.name], for a [v] that is not [null] or [undefined]; the properties the
    code reads are never those of [Array.prototype] or [String.prototype]. *)
Definition prop (v : jsval) (name : jstr) : jsval :=
  match v with
  | JObj entries => match map_get entries name with Some x => x | None => JUndef end
  | _ => JUndef
  end.

(** [typeof v === "object" && v !== null] *)
Definition is_object (v : jsval) : bool :=
  match v with JArr _ | JObj _ => true | _ => false end.

(** [typeof v === "string"], and the string *)
Definition as_str (v : jsval) : option jstr := match v with JStr s => Some s | _ => None end.

(** [!v] is [negb (truthy v)]. *)
Definition truthy (v : jsval) : bool :=
  match v with
  | JUndef | JNull => false
  | JBool b => b
  | JNum NaN => false
  | JNum (Fin q) => negb (Qle_bool q 0 && Qle_bool 0 q)
  | JNum (Inf _) => true
  | JStr s => match s with [] => false | _ => true end
  | JArr _ | JObj _ => true
  end.

Definition is_undefined (v : jsval) : bool := match v with JUndef => true | _ => false end.
Definition is_null (v : jsval) : bool := match v with JNull => true | _ => false end.

Lemma as_str_Some v s : as_str v = Some s ↔ v = JStr s.
Proof. destruct v; naive_solver. Qed.

#[export] Instance JStr_inj : Inj (=) (=) JStr.
Proof. by intros s1 s2 [= ->]. Qed.

(** [Array.isArray(v)] *)
Definition is_array (v : jsval) : bool := match v with JArr _ => true | _ => false end.

(** ** Objects under construction

    The own keys of an object are enumerated with the array indices first, in
    ascending order, then the other strings in order of insertion. *)

(** The array index a key is the canonical numeral of *)
Definition key_index (k : jstr) : option Z :=
  match parse_int10 k with
  | Some n => if jstr_eqb (string_of_nat n) k && (n <? 2 ^ 32 - 1) then Some n else None
  | None => None
  end.

(** A new key [k] comes before [k']. *)
Definition key_before (k k' : jstr) : bool :=
  match key_index k, key_index k' with
  | Some i, Some j => i <? j
  | Some _, None => true
  | None, _ => false
  end.

Section objects.
Context {V : Type}.
Implicit Types (o : list (jstr * V)) (k : jstr) (v : V).

Fixpoint obj_insert o k v : list (jstr * V) :=
  match o with
  | [] => [(k, v)]
  | (k', v') :: o' => if key_before k k' then (k, v) :: o else (k', v') :: obj_insert o' k v
  end.

Definition PROTO : jstr := Eval vm_compute in js "__proto__".

(** [obj[k] = v] on an object literal, for a [v] that is an object: the key
    [__proto__] replaces the prototype and adds no entry. *)
Definition obj_set o k v : list (jstr * V) :=
  if jstr_eqb k (PROTO) then o
  else if map_has o k then map_set o k v else obj_insert o k v.

Lemma map_get_obj_insert o k v k' :
  map_get o k = None → map_get (obj_insert o k v) k' = if decide (k' = k) then Some v else map_get o k'.
Proof.
  induction o as [|[k0 v0] o IH]; cbn; [done|].
  destruct (decide (k = k0)) as [|Hne]; [done|]. intros Ho.
  destruct (key_before k k0); cbn; [by case_decide|].
  rewrite IH by done. repeat case_decide; by simplify_eq.
Qed.

Lemma map_get_obj_set o k v k' :
  k ≠ PROTO →
  map_get (obj_set o k v) k' = if decide (k' = k) then Some v else map_get o k'.
Proof.
  intros Hk%jstr_eqb_neq. unfold obj_set. rewrite Hk. unfold map_has.
  destruct (map_get o k) eqn:E; [|by apply map_get_obj_insert].
  rewrite map_get_set. repeat case_decide; by simplify_eq.
Qed.

Lemma elem_obj_insert o k v e : e ∈ obj_insert o k v ↔ e = (k, v) ∨ e ∈ o.
Proof.
  induction o as [|[k' v'] o IH]; cbn; [set_solver|]. destruct (key_before k k'); set_solver.
Qed.

Lemma obj_insert_wf o k v : map_get o k = None → map_wf o → map_wf (obj_insert o k v).
Proof.
  unfold map_wf, map_keys. intros Hk%map_get_None. unfold map_keys in Hk.
  induction o as [|[k' v'] o IH]; cbn in *; intros Ho; [by repeat constructor; set_solver|].
  apply not_elem_of_cons in Hk as [Hne Hk]. apply NoDup_cons in Ho as [Hk' Ho].
  destruct (key_before k k'); cbn; apply NoDup_cons.
  - split; [set_solver|by apply NoDup_cons].
  - split; [|by apply IH]. intros (e & -> & [->|Hin]%elem_obj_insert)%list_elem_of_fmap; [done|].
    apply Hk'. by apply list_elem_of_fmap_2.
Qed.

Lemma obj_set_wf o k v : map_wf o → map_wf (obj_set o k v).
Proof.
  intros Ho. unfold obj_set, map_has. destruct (jstr_eqb _ _); [done|].
  destruct (map_get o k) eqn:E; [by apply map_set_wf|by apply obj_insert_wf].
Qed.

(** The object built by [for (const [k, v] of entries) obj[k] = v] *)
Definition obj_build (es : list (jstr * V)) : list (jstr * V) :=
  fold_left (λ o e, obj_set o e.1 e.2) es [].

Lemma map_get_obj_fold es o k :
  map_wf es → k ∈ map_keys es → k ≠ PROTO →
  map_get (fold_left (λ o e, obj_set o e.1 e.2) es o) k = map_get es k.
Proof.
  unfold map_wf, map_keys. revert o. induction es as [|[k' v'] es IH]; cbn; intros o Hwf Hin Hk; [set_solver|].
  apply NoDup_cons in Hwf as [Hk' Hwf]. destruct (decide (k = k')) as [->|Hne].
  - assert (∀ o', map_get (fold_left (λ o e, obj_set o e.1 e.2) es o') k' = map_get o' k') as ->.
    { clear -Hk'. induction es as [|[k v] es IH]; intros o'; cbn in *; [done|].
      rewrite IH by set_solver. destruct (decide (k = PROTO)) as [->|]; [by unfold obj_set; rewrite jstr_eqb_refl|].
      rewrite map_get_obj_set by done. rewrite decide_False by set_solver. done. }
    rewrite map_get_obj_set by done. by rewrite decide_True.
  - apply IH; [done|set_solver|done].
Qed.

Lemma map_get_obj_build es k :
  map_wf es → k ≠ PROTO → map_get (obj_build es) k = map_get es k.
Proof.
  intros Hwf Hk. unfold obj_build. destruct (decide (k ∈ map_keys es)) as [Hin|Hout].
  { by apply map_get_obj_fold. }
  rewrite (proj2 (map_get_None es k)) by done.
  assert (∀ o, map_get o k = None → map_get (fold_left (λ o e, obj_set o e.1 e.2) es o) k = None) as H; [|by apply H].
  clear Hwf. unfold map_keys in Hout. induction es as [|[k' v'] es IH]; intros o Ho; cbn in *; [exact Ho|].
  apply IH; [set_solver|]. destruct (decide (k' = PROTO)) as [->|]; [by unfold obj_set; rewrite jstr_eqb_refl|].
  rewrite map_get_obj_set by done. rewrite decide_False by set_solver. done.
Qed.

Lemma obj_build_wf es : map_wf (obj_build es).
Proof.
  unfold obj_build. assert (∀ o : list (jstr * V), map_wf o → map_wf (fold_left (λ o e, obj_set o e.1 e.2) es o)) as H.
  { induction es; cbn; eauto using obj_set_wf. }
  apply H, map_empty_wf.
Qed.

Lemma elem_obj_set o k v e : e ∈ obj_set o k v → e = (k, v) ∨ e ∈ o.
Proof.
  unfold obj_set. destruct (jstr_eqb _ _), (map_has o k); [by auto|by auto| |].
  - destruct e as [k' v']. intros [[-> ->]|?]%elem_map_set; auto.
  - intros ?%elem_obj_insert. done.
Qed.

Lemma elem_obj_build es e : e ∈ obj_build es → e ∈ es.
Proof.
  unfold obj_build. assert (∀ o, e ∈ fold_left (λ o e, obj_set o e.1 e.2) es o → e ∈ es ∨ e ∈ o) as H.
  { induction es as [|[k v] es IH]; cbn; intros o He; [by right|].
    apply IH in He as [?|[->|?]%elem_obj_set]; [left; by right|left; by left|by right]. }
  intros [?|Hn]%H; [done|by apply elem_of_nil in Hn].
Qed.

Lemma obj_build_no_proto es : map_get (obj_build es) PROTO = None.
Proof.
  unfold obj_build. assert (∀ o : list (jstr * V), map_get o PROTO = None →
    map_get (fold_left (λ o e, obj_set o e.1 e.2) es o) PROTO = None) as H; [|by apply H].
  induction es as [|[k v] es IH]; cbn; intros o Ho; [done|]. apply IH.
  destruct (decide (k = PROTO)) as [->|Hk]; [by unfold obj_set; rewrite jstr_eqb_refl|].
  rewrite map_get_obj_set by done. by rewrite decide_False.
Qed.

Lemma elem_obj_build_iff es e : map_wf es → e ∈ obj_build es ↔ e ∈ es ∧ e.1 ≠ PROTO.
Proof.
  intros Hwf. split.
  - intros Hin. split; [by apply elem_obj_build|]. destruct e as [k v]. cbn. intros ->.
    apply (elem_map_get _ _ _ (obj_build_wf es)) in Hin. by rewrite obj_build_no_proto in Hin.
  - destruct e as [k v]. cbn. intros [Hin Hk]. apply map_get_elem. rewrite map_get_obj_build by done.
    by apply elem_map_get.
Qed.
End objects.

(** ** JSON

    [JSON.parse(JSON.stringify(v))] for a [v] whose [stringify] is a text: a
    property that is [undefined] is left out, an [undefined] element and a
    number that is not finite become [null]. *)

Definition json_num (n : jsnum) : jsval := match n with Fin q => JNum (Fin q) | _ => JNull end.

Fixpoint json_value (v : jsval) : jsval :=
  match v with
  | JNum n => json_num n
  | JArr xs => JArr (map (λ x, match json_value x with JUndef => JNull | y => y end) xs)
  | JObj entries =>
      JObj (flat_map (λ e, match e with (k, x) => match json_value x with JUndef => [] | y => [(k, y)] end end)
                     entries)
  | v => v
  end.

(** The keys of every object are distinct. *)
Fixpoint val_wf (v : jsval) : Prop :=
  match v with
  | JArr xs => fold_right (λ x P, val_wf x ∧ P) True xs
  | JObj entries =>
      map_wf entries ∧ fold_right (λ e P, match e with (k, x) => val_wf x end ∧ P) True entries
  | _ => True
  end.

(** [(k, json_value x)], unless that is [undefined] *)
Definition json_entry (e : jstr * jsval) : list (jstr * jsval) :=
  match e with (k, x) => match json_value x with JUndef => [] | y => [(k, y)] end end.

Lemma json_value_undef v : json_value v = JUndef ↔ v = JUndef.
Proof. destruct v as [| | |[]| | |]; cbn; naive_solver. Qed.

Lemma json_value_entries entries k :
  map_wf entries →
  match map_get (flat_map json_entry entries) k with Some x => x | None => JUndef end =
  json_value (match map_get entries k with Some x => x | None => JUndef end).
Proof.
  induction entries as [|[k' x] entries IH]; [done|]. unfold map_wf, map_keys in *. cbn [fmap list_fmap fst].
  intros [Hk' Hwf]%NoDup_cons. cbn [flat_map map_get]. destruct (decide (k = k')) as [->|Hne].
  - unfold json_entry at 1. destruct (json_value x) eqn:E; cbn [app map_get]; try by rewrite decide_True.
    rewrite IH by done. by rewrite (proj2 (map_get_None entries k') Hk').
  - rewrite <-IH by done. unfold json_entry at 1. destruct (json_value x); cbn; try done; by rewrite decide_False.
Qed.

Lemma prop_json v k : val_wf v → prop (json_value v) k = json_value (prop v k).
Proof.
  destruct v as [| | |[]| | |entries]; try done. intros [Hwf _]. by apply json_value_entries.
Qed.

Lemma val_wf_elem entries k x : val_wf (JObj entries) → (k, x) ∈ entries → val_wf x.
Proof.
  cbn. intros [_ H]. induction entries as [|[k' x'] entries IH]; [set_solver|].
  cbn in H. destruct H as [Hx H]. intros [?|?]%elem_of_cons; [by simplify_eq|by apply IH].
Qed.

Lemma val_wf_prop v k : val_wf v → val_wf (prop v k).
Proof.
  destruct v as [| | | | | |entries]; try done. intros Hv. cbn [prop].
  destruct (map_get entries k) as [x|] eqn:E; [|done]. by eapply val_wf_elem, map_get_elem.
Qed.

Lemma elem_json_entries entries k y :
  (k, y) ∈ flat_map json_entry entries ↔ ∃ x, (k, x) ∈ entries ∧ y = json_value x ∧ x ≠ JUndef.
Proof.
  induction entries as [|[k' x'] entries IH]; cbn [flat_map]; [set_solver|].
  rewrite elem_of_app, IH. unfold json_entry at 1. setoid_rewrite elem_of_cons.
  pose proof (json_value_undef x') as Hu. split.
  - intros [Hin|(x & Hx & -> & Hn)]; [|naive_solver]. exists x'.
    destruct (json_value x') eqn:E; try (apply list_elem_of_singleton in Hin; simplify_eq);
      [by apply elem_of_nil in Hin|..]; (split_and!; [by left|done|intros ->; done]).
  - intros (x & [?|Hx] & -> & Hn); simplify_eq; [|naive_solver].
    left. destruct (json_value x'); try (by apply list_elem_of_singleton). destruct Hn. by apply Hu.
Qed.

Lemma val_wf_array xs x : val_wf (JArr xs) → x ∈ xs → val_wf x.
Proof.
  cbn. induction xs as [|y xs IH]; [set_solver|]. intros [Hy H] [->|?]%elem_of_cons; [done|by apply IH].
Qed.
