(* ===== verification/Errors.v ===== *)
(** * The error taxonomy of [packages/errors/mod.ts]

    [RailFogErrorCode] is the exhaustive code table (PLAT-12).  An error class
    of the source is identified by its code; the message of a thrown error is
    diagnostic text and is kept only where an operation's result contains it.
    [exn] adds the built-in exceptions the modelled code can raise. *)

From S2P Require Import Prelude JsString.

Inductive RailFogErrorCode :=
| RESOURCE_NOT_FOUND
| PERMISSION_DENIED
| VALIDATION_FAILED
| RATE_LIMITED
| CALL_DEPTH_EXCEEDED
| TIMEOUT
| PAYLOAD_TOO_LARGE
| CONFLICT
| UNAVAILABLE
| INTERNAL.

#[export] Instance RailFogErrorCode_eq_dec : EqDecision RailFogErrorCode.
Proof. solve_decision. Defined.

(** The string value of a code. *)
Definition code_string (c : RailFogErrorCode) : jstr :=
  match c with
  | RESOURCE_NOT_FOUND => js "RESOURCE_NOT_FOUND"
  | PERMISSION_DENIED => js "PERMISSION_DENIED"
  | VALIDATION_FAILED => js "VALIDATION_FAILED"
  | RATE_LIMITED => js "RATE_LIMITED"
  | CALL_DEPTH_EXCEEDED => js "CALL_DEPTH_EXCEEDED"
  | TIMEOUT => js "TIMEOUT"
  | PAYLOAD_TOO_LARGE => js "PAYLOAD_TOO_LARGE"
  | CONFLICT => js "CONFLICT"
  | UNAVAILABLE => js "UNAVAILABLE"
  | INTERNAL => js "INTERNAL"
  end.

(** [abstract class RailFogError] *)
Record RailFogError := {
  err_code : RailFogErrorCode;
  err_message : jstr;
  err_requestId : option jstr
}.

(** [{ error: { code, message, request_id? } }] *)
Record ErrorBody := {
  body_code : jstr;
  body_message : jstr;
  body_request_id : option jstr
}.

Definition toErrorResponseBody (err : RailFogError) : ErrorBody :=
  {| body_code := code_string (err_code err);
     body_message := err_message err;
     body_request_id := err_requestId err |}.

Definition statusFromErrorCode (c : RailFogErrorCode) : Z :=
  match c with
  | RESOURCE_NOT_FOUND => 404
  | PERMISSION_DENIED => 403
  | VALIDATION_FAILED => 400
  | RATE_LIMITED | CALL_DEPTH_EXCEEDED => 429
  | TIMEOUT => 504
  | PAYLOAD_TOO_LARGE => 413
  | CONFLICT => 409
  | UNAVAILABLE => 503
  | INTERNAL => 500
  end.

(** What modelled code can throw: a RailFog error or a built-in exception. *)
Inductive exn :=
| RF (c : RailFogErrorCode)
| PlainError
| RangeError
| URIError
| TypeError.

#[export] Instance exn_eq_dec : EqDecision exn.
Proof. solve_decision. Defined.

Abbreviation ResourceNotFoundError := (RF RESOURCE_NOT_FOUND).
Abbreviation PermissionDeniedError := (RF PERMISSION_DENIED).
Abbreviation ValidationFailedError := (RF VALIDATION_FAILED).
Abbreviation RateLimitedError := (RF RATE_LIMITED).
Abbreviation CallDepthExceededError := (RF CALL_DEPTH_EXCEEDED).
Abbreviation TimeoutError := (RF TIMEOUT).
Abbreviation PayloadTooLargeError := (RF PAYLOAD_TOO_LARGE).
Abbreviation ConflictError := (RF CONFLICT).
Abbreviation UnavailableError := (RF UNAVAILABLE).
Abbreviation InternalError := (RF INTERNAL).

(** The code strings identify the codes. *)
#[export] Instance code_string_inj : Inj (=) (=) code_string.
Proof. intros [] []; vm_compute; congruence. Qed.
