(* ===== verification/Utf8.v ===== *)
(** * UTF-8 and percent encoding

    The encodings the program takes from its platform's standard library:
    iteration of a string by code points, [TextEncoder.encode] and
    [encodeURIComponent], with their lengths and their injectivity. *)

From S2P Require Import Prelude JsString Errors.

Open Scope Z_scope.

Definition is_high (c : Z) : bool := (0xD800 <=? c) && (c <=? 0xDBFF).
Definition is_low (c : Z) : bool := (0xDC00 <=? c) && (c <=? 0xDFFF).
Definition is_surrogate (c : Z) : bool := (0xD800 <=? c) && (c <=? 0xDFFF).

(** The code points of a string, [for (const ch of s)]: a surrogate pair is one
    code point, a lone surrogate stands for itself. *)
Fixpoint code_points (s : jstr) : list Z :=
  match s with
  | [] => []
  | h :: s1 =>
      match s1 with
      | l :: s2 =>
          if is_high h && is_low l
          then (0x10000 + (h - 0xD800) * 1024 + (l - 0xDC00)) :: code_points s2
          else h :: code_points s1
      | [] => [h]
      end
  end.

(** The code units of a code point. *)
Definition units (cp : Z) : jstr :=
  if cp <? 0x10000 then [cp]
  else [0xD800 + (cp - 0x10000) / 1024; 0xDC00 + (cp - 0x10000) mod 1024].

(** The UTF-8 bytes of a code point. *)
Definition utf8 (cp : Z) : list Z :=
  if cp <? 0x80 then [cp]
  else if cp <? 0x800 then [192 + cp / 64; 128 + cp mod 64]
  else if cp <? 0x10000 then [224 + cp / 4096; 128 + (cp / 64) mod 64; 128 + cp mod 64]
  else [240 + cp / 262144; 128 + (cp / 4096) mod 64; 128 + (cp / 64) mod 64; 128 + cp mod 64].

(** [new TextEncoder().encode(s)]: a lone surrogate becomes U+FFFD. *)
Definition text_encode (s : jstr) : list Z :=
  flat_map (λ cp, utf8 (if is_surrogate cp then 0xFFFD else cp)) (code_points s).

Definition utf8_length (s : jstr) : Z := Z.of_nat (length (text_encode s)).

(** [encodeURIComponent]: letters, digits and [-_.!~*'()] stay. *)
Definition uri_unreserved (c : Z) : bool :=
  is_digit c || is_upper c || is_lower c ||
  bool_decide (c ∈ [45; 95; 46; 33; 126; 42; 39; 40; 41]).

Definition hex_upper (d : Z) : Z := if d <? 10 then 48 + d else 55 + d.
Definition pct (b : Z) : jstr := [chr "%"; hex_upper (b / 16); hex_upper (b mod 16)].
Definition enc_cp (cp : Z) : jstr := if uri_unreserved cp then [cp] else flat_map pct (utf8 cp).

Definition encodeURIComponent (s : jstr) : result exn jstr :=
  if existsb is_surrogate (code_points s) then Err URIError
  else Ok (flat_map enc_cp (code_points s)).

(** A JavaScript string: every unit is 16 bits wide. *)
Definition jstr_wf (s : jstr) : Prop := Forall (λ c, 0 ≤ c < 0x10000) s.

(** A Unicode scalar value. *)
Definition scalar (cp : Z) : Prop := 0 ≤ cp < 0x110000 ∧ is_surrogate cp = false.

(** ** Facts *)

Lemma code_points_cons2 h l s :
  code_points (h :: l :: s) =
  if is_high h && is_low l
  then (0x10000 + (h - 0xD800) * 1024 + (l - 0xDC00)) :: code_points s
  else h :: code_points (l :: s).
Proof. reflexivity. Qed.

Lemma code_points_units s : jstr_wf s → flat_map units (code_points s) = s.
Proof.
  unfold jstr_wf. remember (length s) as n eqn:Hn. assert (length s ≤ n)%nat as Hle by lia.
  clear Hn. revert s Hle. induction n as [|n IH]; intros [|h [|l s]] Hle Hwf; cbn [length] in Hle;
    try lia; try done.
  - cbn. unfold units. apply Forall_cons in Hwf as [? _].
    by rewrite (proj2 (Z.ltb_lt _ _)) by lia.
  - rewrite code_points_cons2. apply Forall_cons in Hwf as [Hh Hwf].
    pose proof Hwf as [Hl Hwf2]%Forall_cons.
    destruct (is_high h && is_low l) eqn:E; cbn [flat_map].
    + rewrite IH by (done || lia). unfold is_high, is_low in E. zbool. unfold units.
      rewrite (proj2 (Z.ltb_ge _ _)) by lia.
      set (x := (h - 55296) * 1024 + (l - 56320)).
      replace (65536 + (h - 55296) * 1024 + (l - 56320) - 65536) with x by lia.
      replace (x / 1024) with (h - 55296) by (subst x; Z.div_mod_to_equations; lia).
      replace (x mod 1024) with (l - 56320) by (subst x; Z.div_mod_to_equations; lia).
      cbn. f_equal; [lia|f_equal; lia].
    + rewrite IH by (done || cbn; lia). unfold units.
      by rewrite (proj2 (Z.ltb_lt _ _)) by lia.
Qed.

Lemma code_points_inj s1 s2 :
  jstr_wf s1 → jstr_wf s2 → code_points s1 = code_points s2 → s1 = s2.
Proof.
  intros H1 H2 H. rewrite <-(code_points_units s1), <-(code_points_units s2) by done. by rewrite H.
Qed.

Lemma code_points_range s : jstr_wf s → Forall (λ cp, 0 ≤ cp < 0x110000) (code_points s).
Proof.
  unfold jstr_wf. remember (length s) as n eqn:Hn. assert (length s ≤ n)%nat as Hle by lia.
  clear Hn. revert s Hle. induction n as [|n IH]; intros [|h [|l s]] Hle Hwf; cbn [length] in Hle;
    try lia; try by constructor.
  - apply Forall_cons in Hwf as [? _]. cbn. repeat constructor; lia.
  - rewrite code_points_cons2. apply Forall_cons in Hwf as [Hh Hwf].
    pose proof Hwf as [Hl Hwf2]%Forall_cons.
    destruct (is_high h && is_low l) eqn:E; constructor; try (apply IH; [cbn in *; lia|done]); [|lia].
    unfold is_high, is_low in E. zbool. lia.
Qed.

(** Every byte of the UTF-8 form is below 256 and its head tells its length. *)
Lemma utf8_bytes cp : 0 ≤ cp < 0x110000 → Forall (λ b, 0 ≤ b < 256) (utf8 cp).
Proof.
  intros H. unfold utf8. split_ifs; zbool; repeat constructor; Z.div_mod_to_equations; lia.
Qed.

Lemma utf8_app_inj c1 c2 r1 r2 :
  0 ≤ c1 < 0x110000 → 0 ≤ c2 < 0x110000 → utf8 c1 ++ r1 = utf8 c2 ++ r2 → c1 = c2 ∧ r1 = r2.
Proof.
  intros H1 H2. unfold utf8. split_ifs; zbool; cbn [app]; intros; simplify_eq;
    (split; [|done]) || exfalso; Z.div_mod_to_equations; lia.
Qed.

Lemma utf8_length_pos cp : (1 ≤ length (utf8 cp) ≤ 4)%nat.
Proof. unfold utf8. split_ifs; cbn; lia. Qed.

Lemma hex_upper_inj a b : 0 ≤ a < 16 → 0 ≤ b < 16 → hex_upper a = hex_upper b → a = b.
Proof. intros ??. unfold hex_upper. split_ifs; zbool; lia. Qed.

Lemma pct_inj a b : 0 ≤ a < 256 → 0 ≤ b < 256 → pct a = pct b → a = b.
Proof.
  intros ?? [= H1 H2]. apply hex_upper_inj in H1, H2; Z.div_mod_to_equations; lia.
Qed.

(** A percent-encoded byte string determines the bytes. *)
Lemma pct_flat_app_inj bs1 bs2 r1 r2 :
  Forall (λ b, 0 ≤ b < 256) bs1 → Forall (λ b, 0 ≤ b < 256) bs2 →
  flat_map pct bs1 ++ r1 = flat_map pct bs2 ++ r2 → length bs1 = length bs2 → bs1 = bs2 ∧ r1 = r2.
Proof.
  revert bs2. induction bs1 as [|b1 bs1 IH]; intros [|b2 bs2] H1 H2 Heq Hlen; cbn in *; try done.
  apply Forall_cons in H1 as [Hb1 H1]. apply Forall_cons in H2 as [Hb2 H2].
  injection Heq as Ha Hb Hr. assert (b1 = b2) as -> by (apply pct_inj; [done..|]; unfold pct; congruence).
  destruct (IH bs2 H1 H2 Hr ltac:(lia)) as [-> ->]. done.
Qed.

Lemma utf8_head_len c1 c2 :
  0 ≤ c1 < 0x110000 → 0 ≤ c2 < 0x110000 → head (utf8 c1) = head (utf8 c2) →
  length (utf8 c1) = length (utf8 c2).
Proof.
  intros H1 H2. unfold utf8. split_ifs; zbool; cbn; intros; simplify_eq; try done;
    exfalso; Z.div_mod_to_equations; lia.
Qed.

Lemma uri_unreserved_range c : uri_unreserved c = true → 33 ≤ c ≤ 126 ∧ c ≠ 37 ∧ c ≠ 47 ∧ c ≠ 59 ∧ c ≠ 61.
Proof.
  unfold uri_unreserved, is_digit, is_upper, is_lower. rewrite !orb_true_iff, bool_decide_eq_true.
  intros [[[?|?]|?]|Hin]; zbool; [lia..|].
  repeat (apply elem_of_cons in Hin as [->|Hin]; [lia|]). by apply elem_of_nil in Hin.
Qed.

Lemma enc_cp_app_inj c1 c2 r1 r2 :
  0 ≤ c1 < 0x110000 → 0 ≤ c2 < 0x110000 → enc_cp c1 ++ r1 = enc_cp c2 ++ r2 → c1 = c2 ∧ r1 = r2.
Proof.
  intros H1 H2. unfold enc_cp.
  pose proof (utf8_length_pos c1). pose proof (utf8_length_pos c2).
  destruct (uri_unreserved c1) eqn:E1, (uri_unreserved c2) eqn:E2; cbn [app]; intros Heq.
  - by simplify_eq.
  - apply uri_unreserved_range in E1. destruct (utf8 c2); cbn in *; [lia|]. simplify_eq. lia.
  - apply uri_unreserved_range in E2. destruct (utf8 c1); cbn in *; [lia|]. simplify_eq. lia.
  - pose proof (utf8_bytes c1 H1) as B1. pose proof (utf8_bytes c2 H2) as B2.
    assert (head (utf8 c1) = head (utf8 c2)) as Hh.
    { destruct (utf8 c1) as [|b1 u1], (utf8 c2) as [|b2 u2]; cbn in *; try lia.
      apply Forall_cons in B1 as [? _]. apply Forall_cons in B2 as [? _].
      f_equal. apply pct_inj; [done..|]. unfold pct. congruence. }
    apply utf8_head_len in Hh; [|done..].
    destruct (pct_flat_app_inj _ _ _ _ B1 B2 Heq Hh) as [Hu ->].
    split; [|done]. apply (utf8_app_inj c1 c2 [] []); [done..|]. by rewrite Hu.
Qed.

(** Encoded text is printable ASCII without [/], [;] and [=]. *)
Definition uri_char (c : Z) : Prop := 33 ≤ c ≤ 126 ∧ c ≠ 47 ∧ c ≠ 59 ∧ c ≠ 61.

Lemma enc_cp_chars cp : 0 ≤ cp < 0x110000 → Forall uri_char (enc_cp cp).
Proof.
  intros H. unfold enc_cp. destruct (uri_unreserved cp) eqn:E.
  - apply uri_unreserved_range in E. repeat constructor; lia.
  - pose proof (utf8_bytes cp H) as Hb. induction Hb as [|b bs Hb _ IH]; [constructor|].
    cbn [flat_map pct app]. repeat constructor; try done; unfold hex_upper; split_ifs; zbool;
      Z.div_mod_to_equations; lia.
Qed.

Lemma flat_enc_inj cs1 cs2 :
  Forall (λ cp, 0 ≤ cp < 0x110000) cs1 → Forall (λ cp, 0 ≤ cp < 0x110000) cs2 →
  flat_map enc_cp cs1 = flat_map enc_cp cs2 → cs1 = cs2.
Proof.
  assert (∀ c r, enc_cp c ++ r ≠ []) as Hne.
  { intros c r. unfold enc_cp. pose proof (utf8_length_pos c).
    destruct (uri_unreserved c); [done|]. by destruct (utf8 c); cbn in *; [lia|]. }
  intros H1. revert cs2. induction H1 as [|c1 cs1 Hc1 _ IH]; intros [|c2 cs2] H2 Heq; cbn in *.
  - done.
  - symmetry in Heq. by apply Hne in Heq.
  - by apply Hne in Heq.
  - apply Forall_cons in H2 as [Hc2 H2]. apply enc_cp_app_inj in Heq as [-> Heq]; [|done..].
    f_equal. by apply IH.
Qed.

Lemma encodeURIComponent_inj s1 s2 e :
  jstr_wf s1 → jstr_wf s2 → encodeURIComponent s1 = Ok e → encodeURIComponent s2 = Ok e → s1 = s2.
Proof.
  unfold encodeURIComponent. intros H1 H2.
  destruct (existsb _ (code_points s1)), (existsb _ (code_points s2)); try done.
  intros [= He1] [= He2]. apply code_points_inj; [done..|].
  apply flat_enc_inj; [by apply code_points_range..|congruence].
Qed.

Lemma encodeURIComponent_chars s e :
  jstr_wf s → encodeURIComponent s = Ok e → Forall uri_char e.
Proof.
  unfold encodeURIComponent. intros Hs%code_points_range.
  destruct (existsb _ _); [done|]. intros [= <-].
  induction Hs as [|c cs Hc _ IH]; [constructor|]. cbn. apply Forall_app; split; [by apply enc_cp_chars|].
  exact IH.
Qed.

(** Characters below 128 are code points. *)
Lemma code_points_ascii s : Forall (λ c, 0 ≤ c < 128) s → code_points s = s.
Proof.
  induction s as [|h s IH]; [done|]. intros [Hh Hs]%Forall_cons. destruct s as [|l s]; [done|].
  cbn [code_points]. assert (is_high h = false) as -> by (unfold is_high; lia).
  cbn [andb]. f_equal. by apply IH.
Qed.
