(* ===== verification/TextDecoder.v ===== *)
(** * The UTF-8 decoder

    [new TextDecoder().decode(bytes)] as the Encoding Standard defines it: bytes
    that are not well-formed UTF-8 become U+FFFD and a leading byte-order mark is
    dropped.  On the encoding of a string without lone surrogates and without a
    byte-order mark it is the inverse of [TextEncoder]. *)

From S2P Require Import Prelude JsString Errors Utf8.

Open Scope Z_scope.

(** The decoder's state: the continuation bytes still needed, the code point so
    far, and the range of the next byte *)
Record decoder := { needed : nat; partial : Z; lower_bound : Z; upper_bound : Z }.

Definition idle : decoder := {| needed := 0; partial := 0; lower_bound := 0x80; upper_bound := 0xBF |}.

(** A byte where no continuation byte is needed *)
Definition lead_byte (b : Z) : list Z * decoder :=
  if b <? 0x80 then ([b], idle)
  else if (0xC2 <=? b) && (b <=? 0xDF) then
    ([], {| needed := 1; partial := b - 0xC0; lower_bound := 0x80; upper_bound := 0xBF |})
  else if (0xE0 <=? b) && (b <=? 0xEF) then
    ([], {| needed := 2; partial := b - 0xE0;
            lower_bound := if b =? 0xE0 then 0xA0 else 0x80;
            upper_bound := if b =? 0xED then 0x9F else 0xBF |})
  else if (0xF0 <=? b) && (b <=? 0xF4) then
    ([], {| needed := 3; partial := b - 0xF0;
            lower_bound := if b =? 0xF0 then 0x90 else 0x80;
            upper_bound := if b =? 0xF4 then 0x8F else 0xBF |})
  else ([0xFFFD], idle).

(** One byte: the code points it yields and the next state *)
Definition decode_byte (d : decoder) (b : Z) : list Z * decoder :=
  match needed d with
  | O => lead_byte b
  | S n =>
      if (lower_bound d <=? b) && (b <=? upper_bound d) then
        let cp := partial d * 64 + (b - 0x80) in
        match n with
        | O => ([cp], idle)
        | S _ => ([], {| needed := n; partial := cp; lower_bound := 0x80; upper_bound := 0xBF |})
        end
      else let '(cps, d') := lead_byte b in (0xFFFD :: cps, d')
  end.

(** The whole input; an unfinished sequence at the end is one U+FFFD. *)
Fixpoint decode_bytes (d : decoder) (bs : list Z) : list Z :=
  match bs with
  | [] => match needed d with O => [] | S _ => [0xFFFD] end
  | b :: bs => let '(cps, d') := decode_byte d b in cps ++ decode_bytes d' bs
  end.

Definition BOM : Z := 0xFEFF.

Definition drop_bom (cps : list Z) : list Z :=
  match cps with c :: rest => if c =? BOM then rest else cps | [] => [] end.

Definition text_decode (bs : list Z) : jstr := flat_map units (drop_bom (decode_bytes idle bs)).

(** ** The inverse of the encoder *)

Lemma decode_byte_next n cp lo hi b :
  lo <= b <= hi → decode_byte {| needed := S n; partial := cp; lower_bound := lo; upper_bound := hi |} b =
  match n with
  | O => ([cp * 64 + (b - 0x80)], idle)
  | S _ => ([], {| needed := n; partial := cp * 64 + (b - 0x80); lower_bound := 0x80; upper_bound := 0xBF |})
  end.
Proof. intros H. unfold decode_byte; cbn. by rewrite !(proj2 (Z.leb_le _ _)) by lia. Qed.

Lemma lead_byte_1 b : b < 0x80 → lead_byte b = ([b], idle).
Proof. intros H. unfold lead_byte. by rewrite (proj2 (Z.ltb_lt _ _)) by lia. Qed.

Lemma lead_byte_2 b : 0xC2 <= b <= 0xDF →
  lead_byte b = ([], {| needed := 1; partial := b - 0xC0; lower_bound := 0x80; upper_bound := 0xBF |}).
Proof.
  intros H. unfold lead_byte. rewrite (proj2 (Z.ltb_ge _ _)), !(proj2 (Z.leb_le _ _)) by lia. done.
Qed.

Lemma lead_byte_3 b : 0xE0 <= b <= 0xEF →
  lead_byte b = ([], {| needed := 2; partial := b - 0xE0; lower_bound := if b =? 0xE0 then 0xA0 else 0x80;
                        upper_bound := if b =? 0xED then 0x9F else 0xBF |}).
Proof.
  intros H. unfold lead_byte.
  rewrite (proj2 (Z.ltb_ge _ _)), (proj2 (Z.leb_gt b 0xDF)), andb_false_r, !(proj2 (Z.leb_le _ _)) by lia. done.
Qed.

Lemma lead_byte_4 b : 0xF0 <= b <= 0xF4 →
  lead_byte b = ([], {| needed := 3; partial := b - 0xF0; lower_bound := if b =? 0xF0 then 0x90 else 0x80;
                        upper_bound := if b =? 0xF4 then 0x8F else 0xBF |}).
Proof.
  intros H. unfold lead_byte.
  rewrite (proj2 (Z.ltb_ge _ _)), (proj2 (Z.leb_gt b 0xDF)), (proj2 (Z.leb_gt b 0xEF)), !andb_false_r,
    !(proj2 (Z.leb_le _ _)) by lia. done.
Qed.

Lemma decode_bytes_cons d b bs :
  decode_bytes d (b :: bs) = (decode_byte d b).1 ++ decode_bytes (decode_byte d b).2 bs.
Proof. cbn. by destruct (decode_byte d b). Qed.

Lemma decode_byte_idle b : decode_byte idle b = lead_byte b.
Proof. done. Qed.

(** One scalar value *)
Lemma decode_utf8 cp bs : scalar cp → decode_bytes idle (utf8 cp ++ bs) = cp :: decode_bytes idle bs.
Proof.
  intros [Hr Hs]. unfold is_surrogate in Hs. unfold utf8.
  destruct (Z.ltb_spec cp 0x80); [|destruct (Z.ltb_spec cp 0x800); [|destruct (Z.ltb_spec cp 0x10000)]];
    cbn [app]; rewrite decode_bytes_cons, decode_byte_idle.
  - by rewrite lead_byte_1.
  - rewrite lead_byte_2 by (Z.div_mod_to_equations; lia). cbn [fst snd app].
    rewrite decode_bytes_cons, decode_byte_next by (Z.div_mod_to_equations; lia). cbn [fst snd app].
    f_equal. Z.div_mod_to_equations; lia.
  - apply andb_false_iff in Hs. rewrite !Z.leb_gt in Hs.
    rewrite lead_byte_3 by (Z.div_mod_to_equations; lia). cbn [fst snd app].
    rewrite decode_bytes_cons, decode_byte_next
      by (destruct (Z.eqb_spec (224 + cp / 4096) 224), (Z.eqb_spec (224 + cp / 4096) 237); Z.div_mod_to_equations; lia).
    cbn [fst snd app].
    rewrite decode_bytes_cons, decode_byte_next by (Z.div_mod_to_equations; lia). cbn [fst snd app].
    f_equal. Z.div_mod_to_equations; lia.
  - rewrite lead_byte_4 by (Z.div_mod_to_equations; lia). cbn [fst snd app].
    rewrite decode_bytes_cons, decode_byte_next
      by (destruct (Z.eqb_spec (240 + cp / 262144) 240), (Z.eqb_spec (240 + cp / 262144) 244); Z.div_mod_to_equations; lia).
    cbn [fst snd app].
    rewrite decode_bytes_cons, decode_byte_next by (Z.div_mod_to_equations; lia). cbn [fst snd app].
    rewrite decode_bytes_cons, decode_byte_next by (Z.div_mod_to_equations; lia). cbn [fst snd app].
    f_equal. Z.div_mod_to_equations; lia.
Qed.

(** A string that survives the way through UTF-8: no lone surrogate, and no
    byte-order mark in front *)
Definition utf8_safe (s : jstr) : Prop := Forall scalar (code_points s) ∧ head (code_points s) ≠ Some BOM.

Lemma decode_scalars cps bs :
  Forall scalar cps → decode_bytes idle (flat_map utf8 cps ++ bs) = cps ++ decode_bytes idle bs.
Proof.
  induction 1 as [|cp cps Hcp _ IH]; [done|]. cbn [flat_map]. rewrite <-app_assoc, decode_utf8, IH by done. done.
Qed.

Lemma text_encode_scalars s : Forall scalar (code_points s) → text_encode s = flat_map utf8 (code_points s).
Proof.
  intros H. unfold text_encode. induction H as [|cp cps [_ Hs] _ IH]; [done|]. cbn. by rewrite Hs, IH.
Qed.

Lemma text_roundtrip s : jstr_wf s → utf8_safe s → text_decode (text_encode s) = s.
Proof.
  intros Hwf [Hs Hb]. unfold text_decode. rewrite text_encode_scalars by done.
  pose proof (decode_scalars (code_points s) [] Hs) as E. rewrite !app_nil_r in E. rewrite E.
  rewrite <-(code_points_units s Hwf) at 2. f_equal. destruct (code_points s) as [|c cps]; [done|].
  cbn. destruct (Z.eqb_spec c BOM) as [->|]; [|done]. by cbn in Hb.
Qed.

(** ASCII text stands for itself. *)
Lemma decode_ascii bs : Forall (λ b, 0 <= b < 0x80) bs → decode_bytes idle bs = bs.
Proof.
  induction 1 as [|b bs Hb _ IH]; [done|]. rewrite decode_bytes_cons, decode_byte_idle, lead_byte_1 by lia.
  cbn [fst snd app]. by rewrite IH.
Qed.
