(* ===== verification/Uri.v ===== *)
(** * Percent decoding

    [decodeURIComponent] as ECMA-262 defines it: well-formed percent-encoded
    UTF-8 is decoded, everything else that starts with [%] is a [URIError].  It
    undoes [encodeURIComponent]. *)

From S2P Require Import Prelude JsString Errors Utf8.

Open Scope Z_scope.

Definition hex_digit_value (c : Z) : option Z :=
  if is_digit c then Some (c - 48)
  else if (65 <=? c) && (c <=? 70) then Some (c - 55)
  else if (97 <=? c) && (c <=? 102) then Some (c - 87)
  else None.

(** The byte of an escape [%XX] at the start of a string, and the rest *)
Definition pct_byte (s : jstr) : option (Z * jstr) :=
  match s with
  | c :: a :: b :: rest =>
      if c =? chr "%" then
        match hex_digit_value a, hex_digit_value b with
        | Some x, Some y => Some (16 * x + y, rest)
        | _, _ => None
        end
      else None
  | _ => None
  end.

(** [n] escapes of continuation bytes; their payload is appended to [acc]. *)
Fixpoint continuation (n : nat) (acc : Z) (s : jstr) : option (Z * jstr) :=
  match n with
  | O => Some (acc, s)
  | S n =>
      match pct_byte s with
      | Some (b, rest) =>
          if (0x80 <=? b) && (b <=? 0xBF) then continuation n (acc * 64 + (b - 0x80)) rest else None
      | None => None
      end
  end.

(** The number of continuation bytes of a leading byte, the bits it carries and
    the least code point of that length *)
Definition leading (b : Z) : option (nat * Z * Z) :=
  if b <? 0x80 then Some (0%nat, b, 0)
  else if (0xC0 <=? b) && (b <=? 0xDF) then Some (1%nat, b - 0xC0, 0x80)
  else if (0xE0 <=? b) && (b <=? 0xEF) then Some (2%nat, b - 0xE0, 0x800)
  else if (0xF0 <=? b) && (b <=? 0xF7) then Some (3%nat, b - 0xF0, 0x10000)
  else None.

(** One step: the decoded units and the rest; [None] is a [URIError]. *)
Definition decode_one (s : jstr) : option (jstr * jstr) :=
  match s with
  | [] => None
  | c :: rest =>
      if c =? chr "%" then
        match pct_byte s with
        | None => None
        | Some (b, rest) =>
            match leading b with
            | None => None
            | Some (n, bits, least) =>
                match continuation n bits rest with
                | None => None
                | Some (cp, rest) =>
                    if (least <=? cp) && (cp <? 0x110000) && negb (is_surrogate cp)
                    then Some (units cp, rest) else None
                end
            end
        end
      else Some ([c], rest)
  end.

(** Each step consumes a unit: the length of the string is fuel enough. *)
Fixpoint decode_loop (fuel : nat) (s : jstr) : option jstr :=
  match s with
  | [] => Some []
  | _ :: _ =>
      match fuel with
      | 0%nat => None
      | S fuel => decode_one s ≫= λ '(u, rest), app u <$> decode_loop fuel rest
      end
  end.

Definition decodeURIComponent (s : jstr) : result exn jstr :=
  match decode_loop (length s) s with Some t => Ok t | None => Err URIError end.

(** ** Fuel *)

Lemma pct_byte_shorter s b rest : pct_byte s = Some (b, rest) → (length rest < length s)%nat.
Proof.
  destruct s as [|c [|a [|d s]]]; try done. cbn [pct_byte]. destruct (_ =? _); [|done].
  destruct (hex_digit_value a), (hex_digit_value d); try done. intros [= _ <-]. cbn. lia.
Qed.

Lemma continuation_shorter n : ∀ acc s cp rest,
  continuation n acc s = Some (cp, rest) → (length rest <= length s)%nat.
Proof.
  induction n as [|n IH]; intros acc s cp rest; cbn [continuation]; [by intros [= _ <-]|].
  destruct (pct_byte s) as [[b s']|] eqn:E; [|done]. apply pct_byte_shorter in E.
  destruct (_ && _); [|done]. intros H%IH. lia.
Qed.

Lemma decode_one_shorter s u rest : decode_one s = Some (u, rest) → (length rest < length s)%nat.
Proof.
  destruct s as [|c s]; [done|]. cbn [decode_one]. destruct (_ =? _); [|intros [= _ <-]; cbn; lia].
  destruct (pct_byte (c :: s)) as [[b s']|] eqn:E; [|done]. apply pct_byte_shorter in E.
  destruct (leading b) as [[[n bits] least]|]; [|done].
  destruct (continuation n bits s') as [[cp s'']|] eqn:Ec; [|done]. apply continuation_shorter in Ec.
  destruct (_ && _); [|done]. intros [= _ <-]. lia.
Qed.

Lemma decode_loop_enough fuel : ∀ s, (length s <= fuel)%nat → decode_loop fuel s = decode_loop (length s) s.
Proof.
  induction fuel as [fuel IH] using (well_founded_induction Nat.lt_wf_0). intros [|c s] Hle; [by destruct fuel|].
  destruct fuel as [|fuel]; [cbn in Hle; lia|]. cbn [decode_loop length].
  destruct (decode_one (c :: s)) as [[u rest]|] eqn:E; [|done]. apply decode_one_shorter in E. cbn in E, Hle |- *.
  rewrite (IH fuel) by lia. destruct (decide (length s = fuel)) as [->|]; [by rewrite (IH fuel) by lia|].
  by rewrite (IH (length s)) by lia.
Qed.

Lemma decode_loop_step u s rest : decode_one s = Some (u, rest) →
  decode_loop (length s) s = app u <$> decode_loop (length rest) rest.
Proof.
  intros E. pose proof (decode_one_shorter _ _ _ E) as Hl. destruct s as [|c s]; [done|].
  cbn [decode_loop length]. rewrite E. cbn [mbind option_bind]. f_equal. apply decode_loop_enough. cbn in Hl. lia.
Qed.

(** ** Decoding what was encoded *)

Lemma hex_digit_value_upper d : 0 ≤ d < 16 → hex_digit_value (hex_upper d) = Some d.
Proof.
  intros Hd. unfold hex_upper, hex_digit_value, is_digit. split_ifs; zbool; try lia; f_equal; lia.
Qed.

Lemma pct_byte_pct b s : 0 ≤ b < 256 → pct_byte (pct b ++ s) = Some (b, s).
Proof.
  intros Hb. unfold pct. cbn [app pct_byte]. rewrite Z.eqb_refl, !hex_digit_value_upper
    by (Z.div_mod_to_equations; lia). do 2 f_equal. Z.div_mod_to_equations; lia.
Qed.

Lemma decode_one_pct b s : 0 ≤ b < 256 →
  decode_one (pct b ++ s) =
    match leading b with
    | Some (n, bits, least) =>
        match continuation n bits s with
        | Some (cp, rest) =>
            if (least <=? cp) && (cp <? 0x110000) && negb (is_surrogate cp) then Some (units cp, rest) else None
        | None => None
        end
    | None => None
    end.
Proof.
  intros Hb. pose proof (pct_byte_pct b s Hb) as Hp. unfold decode_one.
  destruct (pct b ++ s) as [|c r] eqn:E; [done|]. rewrite Hp.
  assert (c = chr "%") as -> by (unfold pct in E; cbn [app] in E; by injection E).
  by rewrite Z.eqb_refl.
Qed.

Lemma continuation_pct n acc d s : 0 ≤ d < 64 →
  continuation (S n) acc (pct (128 + d) ++ s) = continuation n (acc * 64 + d) s.
Proof.
  intros Hd. cbn [continuation]. rewrite pct_byte_pct by lia.
  rewrite (proj2 (Z.leb_le _ _)), (proj2 (Z.leb_le _ _)) by lia. cbn [andb]. f_equal. lia.
Qed.

Lemma leading_two x : 0 ≤ x < 32 → leading (192 + x) = Some (1%nat, x, 0x80).
Proof. intros Hx. unfold leading. split_ifs; zbool; try lia. do 3 f_equal. lia. Qed.
Lemma leading_three x : 0 ≤ x < 16 → leading (224 + x) = Some (2%nat, x, 0x800).
Proof. intros Hx. unfold leading. split_ifs; zbool; try lia. do 3 f_equal. lia. Qed.
Lemma leading_four x : 0 ≤ x < 8 → leading (240 + x) = Some (3%nat, x, 0x10000).
Proof. intros Hx. unfold leading. split_ifs; zbool; try lia. do 3 f_equal. lia. Qed.

Lemma mod_64 x : 0 ≤ x mod 64 < 64.
Proof. by apply Z.mod_pos_bound. Qed.

Lemma decode_one_utf8 cp s : scalar cp → decode_one (flat_map pct (utf8 cp) ++ s) = Some (units cp, s).
Proof.
  intros [Hr Hs]. pose proof (utf8_bytes cp Hr) as Hb. unfold utf8 in *.
  assert (∀ least cp', cp' = cp → least ≤ cp →
    (if (least <=? cp') && (cp' <? 0x110000) && negb (is_surrogate cp') then Some (units cp', s) else None) =
    Some (units cp, s)) as Hfin.
  { intros least ? -> Hl. by rewrite (proj2 (Z.leb_le _ _)), (proj2 (Z.ltb_lt _ _)), Hs by lia. }
  destruct (Z.ltb_spec cp 0x80); [|destruct (Z.ltb_spec cp 0x800); [|destruct (Z.ltb_spec cp 0x10000)]];
    rewrite !Forall_cons in Hb; destruct_and!; cbn [flat_map]; rewrite ?app_nil_r, <-?app_assoc;
    rewrite decode_one_pct by done.
  - unfold leading. rewrite (proj2 (Z.ltb_lt _ _)) by lia. cbn [continuation]. apply Hfin; lia.
  - rewrite leading_two by (Z.div_mod_to_equations; lia). rewrite continuation_pct by apply mod_64. cbn [continuation].
    apply Hfin; [|lia]. Z.div_mod_to_equations; lia.
  - rewrite leading_three by (Z.div_mod_to_equations; lia). rewrite !continuation_pct by apply mod_64. cbn [continuation].
    apply Hfin; [|lia]. Z.div_mod_to_equations; lia.
  - rewrite leading_four by (Z.div_mod_to_equations; lia). rewrite !continuation_pct by apply mod_64. cbn [continuation].
    apply Hfin; [|lia]. Z.div_mod_to_equations; lia.
Qed.

Lemma decode_one_enc cp s : scalar cp → decode_one (enc_cp cp ++ s) = Some (units cp, s).
Proof.
  intros Hc. unfold enc_cp. destruct (uri_unreserved cp) eqn:E; [|by apply decode_one_utf8].
  apply uri_unreserved_range in E as (? & ? & _). cbn [app decode_one]. unfold units.
  assert (cp =? chr "%" = false) as -> by (apply Z.eqb_neq; done).
  by rewrite (proj2 (Z.ltb_lt _ _)) by lia.
Qed.

Lemma decodeURIComponent_encode s e :
  jstr_wf s → encodeURIComponent s = Ok e → decodeURIComponent e = Ok s.
Proof.
  unfold encodeURIComponent, decodeURIComponent. intros Hwf.
  destruct (existsb _ _) eqn:Es; [done|]. intros [= <-].
  assert (decode_loop (length (flat_map enc_cp (code_points s))) (flat_map enc_cp (code_points s)) =
          Some (flat_map units (code_points s))) as ->; [|by rewrite code_points_units].
  pose proof (code_points_range s Hwf) as Hr. apply existsb_false_iff in Es.
  assert (Forall scalar (code_points s)) as Hc by (by apply Forall_and).
  clear -Hc. induction Hc as [|cp cs Hcp _ IH]; [done|]. cbn [flat_map].
  rewrite (decode_loop_step (units cp) _ (flat_map enc_cp cs)) by by apply decode_one_enc. by rewrite IH.
Qed.

Lemma decodeURIComponent_nonempty s t : s ≠ [] → decodeURIComponent s = Ok t → t ≠ [].
Proof.
  unfold decodeURIComponent. destruct s as [|c s]; [done|]. intros _. cbn [length decode_loop].
  destruct (decode_one (c :: s)) as [[u rest]|] eqn:E; [|done]. cbn [mbind option_bind].
  destruct (decode_loop (length s) rest) as [t'|]; [|done]. cbn [fmap option_fmap option_map]. intros [= <-].
  assert (u ≠ []) as Hu; [|by destruct u].
  cbn [decode_one] in E. destruct (_ =? _); [|by injection E as <- _].
  destruct (pct_byte (c :: s)) as [[b r]|]; [|done]. destruct (leading b) as [[[n bits] least]|]; [|done].
  destruct (continuation n bits r) as [[cp r']|]; [|done]. destruct (_ && _); [|done].
  injection E as <- _. unfold units. by destruct (_ <? _).
Qed.
