(* ===== verification/JsRegex.v ===== *)
(** * Regular expressions as JavaScript runs them

    A matcher with backtracking, in the continuation style of the language's
    standard, for the constructs that the program uses: classes, sequences,
    alternatives, greedy repetition, groups, references to groups, [\b], [^] and [$].
    A repetition does not clear the groups inside it; no expression of the program
    has a group there.  [matches] is the relation that the matcher searches, and
    [exec_all] the loop over [exec] of a global expression. *)

From S2P Require Import Prelude JsString.

Open Scope Z_scope.
Open Scope railfog_scope.

Inductive regex :=
| RChar (p : Z → bool)
| REmpty
| RSeq (r1 r2 : regex)
| RAlt (r1 r2 : regex)
| RStar (r : regex)
| RGroup (n : nat) (r : regex)
| RBackref (n : nat)
| RBoundary
| RStart
| REnd.

(** [r+], [r?] and a text, up to the case of its letters if [i] *)
Definition RPlus (r : regex) : regex := RSeq r (RStar r).
Definition ROpt (r : regex) : regex := RAlt r REmpty.
(** [Canonicalize] of the flag [i] *)
Definition canonicalize (c : Z) : Z :=
  match to_upper [c] with [d] => if (128 <=? c) && (d <? 128) then c else d | _ => c end.
Definition same_char (i : bool) (c d : Z) : bool :=
  if i then canonicalize c =? canonicalize d else c =? d.
Definition RText (i : bool) (s : jstr) : regex := foldr (λ c r, RSeq (RChar (same_char i c)) r) REmpty s.
(** One of the characters of a text *)
Definition one_of (s : jstr) (c : Z) : bool := existsb (Z.eqb c) s.
(** [\w] *)
Definition is_word (c : Z) : bool := is_digit c || is_upper c || is_lower c || (c =? chr "_").

(** A place in a text: the character before it, the text after it, and what the
    groups have captured *)
Record spot := { before : option Z; rest : jstr; captured : list (nat * jstr) }.

Definition word_before (s : spot) : bool := match before s with Some c => is_word c | None => false end.
Definition word_after (s : spot) : bool := match rest s with c :: _ => is_word c | [] => false end.

(** [k] characters further *)
Definition advance (k : nat) (s : spot) : spot :=
  {| before := match last (take k (rest s)) with Some c => Some c | None => before s end;
     rest := drop k (rest s); captured := captured s |}.
Definition capture (n : nat) (text : jstr) (s : spot) : spot :=
  {| before := before s; rest := rest s; captured := (n, text) :: captured s |}.
(** The text of a group; a group that took no part is empty. *)
Definition group_text (n : nat) (s : spot) : jstr :=
  default [] ((λ e, e.2) <$> List.find (λ e, Nat.eqb e.1 n) (captured s)).
(** The text between two places *)
Definition between (s s' : spot) : jstr := take (length (rest s) - length (rest s')) (rest s).

Section matcher.
Context {A : Type}.

(** One repetition, and the next ones while they get on *)
Fixpoint star_loop (body : (spot → option A) → spot → option A) (k : spot → option A) (fuel : nat) (s : spot) : option A :=
  match fuel with
  | O => k s
  | S fuel =>
      match body (λ s', if (length (rest s') <? length (rest s))%nat then star_loop body k fuel s' else None) s with
      | Some x => Some x
      | None => k s
      end
  end.

Fixpoint run (r : regex) (k : spot → option A) (s : spot) : option A :=
  match r with
  | RChar p => match rest s with c :: _ => if p c then k (advance 1 s) else None | [] => None end
  | REmpty => k s
  | RSeq r1 r2 => run r1 (run r2 k) s
  | RAlt r1 r2 => match run r1 k s with Some x => Some x | None => run r2 k s end
  | RStar r => star_loop (run r) k (length (rest s)) s
  | RGroup n r => run r (λ s', k (capture n (between s s') s')) s
  | RBackref n =>
      let text := group_text n s in
      if starts_with (rest s) text then k (advance (length text) s) else None
  | RBoundary => if xorb (word_before s) (word_after s) then k s else None
  | RStart => match before s with None => k s | Some _ => None end
  | REnd => match rest s with [] => k s | _ => None end
  end.
End matcher.

(** ** What it searches *)

Inductive matches : regex → spot → spot → Prop :=
| m_char p s c t : rest s = c :: t → p c = true → matches (RChar p) s (advance 1 s)
| m_empty s : matches REmpty s s
| m_seq r1 r2 s s1 s2 : matches r1 s s1 → matches r2 s1 s2 → matches (RSeq r1 r2) s s2
| m_alt_l r1 r2 s s' : matches r1 s s' → matches (RAlt r1 r2) s s'
| m_alt_r r1 r2 s s' : matches r2 s s' → matches (RAlt r1 r2) s s'
| m_star_nil r s : matches (RStar r) s s
| m_star_cons r s s1 s2 : matches r s s1 → (length (rest s1) < length (rest s))%nat →
    matches (RStar r) s1 s2 → matches (RStar r) s s2
| m_group n r s s' : matches r s s' → matches (RGroup n r) s (capture n (between s s') s')
| m_backref n s : starts_with (rest s) (group_text n s) = true →
    matches (RBackref n) s (advance (length (group_text n s)) s)
| m_boundary s : word_before s ≠ word_after s → matches RBoundary s s
| m_start s : before s = None → matches RStart s s
| m_end s : rest s = [] → matches REnd s s.

Lemma star_loop_sound {A} (body : (spot → option A) → spot → option A) r k :
  (∀ k s x, body k s = Some x → ∃ s', matches r s s' ∧ k s' = Some x) →
  ∀ fuel s x, star_loop body k fuel s = Some x → ∃ s', matches (RStar r) s s' ∧ k s' = Some x.
Proof.
  intros Hbody. induction fuel as [|fuel IH]; intros s x; cbn [star_loop]; [exists s; split; [constructor|done]|].
  destruct (body _ s) as [y|] eqn:E; [|exists s; split; [constructor|done]].
  intros [= <-]. apply Hbody in E as (s1 & H1 & Hk). destruct (Nat.ltb_spec (length (rest s1)) (length (rest s))); [|done].
  apply IH in Hk as (s2 & H2 & Hk). exists s2. split; [by eapply m_star_cons|done].
Qed.

(** What the matcher finds is a match. *)
Lemma run_sound {A} r : ∀ (k : spot → option A) s x, run r k s = Some x → ∃ s', matches r s s' ∧ k s' = Some x.
Proof.
  induction r as [p| |r1 IH1 r2 IH2|r1 IH1 r2 IH2|r IH|n r IH|n| | |]; intros k s x; cbn [run].
  - destruct (rest s) as [|c t] eqn:E; [done|]. destruct (p c) eqn:Ep; [|done]. eauto using m_char.
  - eauto using m_empty.
  - intros (s1 & H1 & (s2 & H2 & Hk)%IH2)%IH1. eauto using m_seq.
  - destruct (run r1 k s) eqn:E.
    + intros [= <-]. apply IH1 in E as (s' & ? & ?). eauto using m_alt_l.
    + intros (s' & ? & ?)%IH2. eauto using m_alt_r.
  - by apply star_loop_sound.
  - intros (s' & ? & ?)%IH. eauto using m_group.
  - destruct (starts_with _ _) eqn:E; [|done]. eauto using m_backref.
  - destruct (xorb _ _) eqn:E; [|done]. eexists. split; [|done]. constructor.
    by destruct (word_before s), (word_after s).
  - destruct (before s) eqn:E; [done|]. eauto using m_start.
  - destruct (rest s) eqn:E; [|done]. eauto using m_end.
Qed.

(** Where there is a match, the matcher finds one (not always the same). *)
Lemma run_complete_strong {A} r s s' : matches r s s' → ∀ k : spot → option A, is_Some (k s') →
  is_Some (run r k s) ∧
  match r with RStar r => ∀ fuel, (length (rest s) <= fuel)%nat → is_Some (star_loop (run r) k fuel s) | _ => True end.
Proof.
  assert (∀ (body : (spot → option A) → spot → option A) (k : spot → option A) fuel s, is_Some (k s) → is_Some (star_loop body k fuel s)) as Hstop.
  { intros body k fuel s0 Hk. destruct fuel; [done|]. cbn [star_loop]. by destruct (body _ s0). }
  induction 1 as [p s c t E Ep|s|r1 r2 s s1 s2 _ IH1 _ IH2|r1 r2 s s' _ IH|r1 r2 s s' _ IH|r s|r s s1 s2 _ IH1 Hlt _ IH2|n r s s' _ IH
                 |n s E|s E|s E|s E]; intros k Hk; cbn [run]; try (split; [|done]).
  - by rewrite E, Ep.
  - done.
  - by apply IH1, IH2.
  - destruct (proj1 (IH k Hk)) as [x ->]. done.
  - destruct (run r1 k s); [done|]. by apply IH.
  - by split; [|intros fuel _]; apply Hstop.
  - assert (∀ fuel, (length (rest s) <= fuel)%nat → is_Some (star_loop (run r) k fuel s)) as H; [|split; [by apply H|done]].
    intros [|fuel] Hfuel; [lia|]. cbn [star_loop].
    destruct (IH1 (λ s', if (length (rest s') <? length (rest s))%nat then star_loop (run r) k fuel s' else None)) as [[x ->] _]; [|done].
    rewrite (proj2 (Nat.ltb_lt _ _)) by done. apply IH2; [done|lia].
  - by apply IH.
  - by rewrite E.
  - by destruct (word_before s), (word_after s).
  - by rewrite E.
  - by rewrite E.
Qed.

Lemma run_complete {A} r s s' (k : spot → option A) : matches r s s' → is_Some (k s') → is_Some (run r k s).
Proof. intros H Hk. by apply (run_complete_strong r s s' H). Qed.

(** A match covers a part of the text and moves the place behind it. *)
Definition behind (w : jstr) (prev : option Z) : option Z := match last w with Some c => Some c | None => prev end.

Lemma behind_app w1 w2 prev : behind (w1 ++ w2) prev = behind w2 (behind w1 prev).
Proof. unfold behind. rewrite last_app. by destruct (last w2). Qed.

Lemma matches_span r s s' : matches r s s' → ∃ w, rest s = w ++ rest s' ∧ before s' = behind w (before s).
Proof.
  assert (∀ k s, ∃ w, rest s = w ++ rest (advance k s) ∧ before (advance k s) = behind w (before s)) as Hadv.
  { intros k s0. exists (take k (rest s0)). cbn [advance rest before]. by rewrite take_drop. }
  assert (∀ s : spot, ∃ w, rest s = w ++ rest s ∧ before s = behind w (before s)) as Hrefl by (intros s0; by exists []).
  assert (∀ s s1 s2, (∃ w, rest s = w ++ rest s1 ∧ before s1 = behind w (before s)) →
    (∃ w, rest s1 = w ++ rest s2 ∧ before s2 = behind w (before s1)) → ∃ w, rest s = w ++ rest s2 ∧ before s2 = behind w (before s)) as Htrans.
  { intros s0 s1 s2 (w1 & E1 & B1) (w2 & E2 & B2). exists (w1 ++ w2). by rewrite behind_app, <-B1, <-B2, E1, E2, app_assoc. }
  induction 1; eauto.
Qed.

Lemma between_span s s' w : rest s = w ++ rest s' → between s s' = w.
Proof. intros E. unfold between. rewrite E, length_app. replace (_ - _)%nat with (length w) by lia. by rewrite take_app_length. Qed.

(** ** [exec] *)

(** The place behind [pre] *)
Definition spot_at (prev : option Z) (pre post : jstr) : spot :=
  {| before := behind pre prev; rest := post; captured := [] |}.

(** The first place from which there is a match: its start and its end *)
Fixpoint exec (r : regex) (prev : option Z) (text : jstr) : option (spot * spot) :=
  let s := {| before := prev; rest := text; captured := [] |} in
  match run r Some s with
  | Some s' => Some (s, s')
  | None => match text with [] => None | c :: t => exec r (Some c) t end
  end.

(** [regex.test(text)] *)
Definition regex_test (r : regex) (text : jstr) : bool := match exec r None text with Some _ => true | None => false end.

(** [while ((m = regex.exec(text)) !== null)], for a global expression whose matches
    are not empty: each search starts where the last match has ended. *)
Fixpoint exec_loop (fuel : nat) (r : regex) (prev : option Z) (text : jstr) : list (spot * spot) :=
  match fuel with
  | O => []
  | S fuel =>
      match exec r prev text with
      | None => []
      | Some (s, s') => (s, s') :: exec_loop fuel r (before s') (rest s')
      end
  end.
Definition exec_all (r : regex) (text : jstr) : list (spot * spot) := exec_loop (S (length text)) r None text.

Lemma exec_Some r prev text s s' : exec r prev text = Some (s, s') →
  matches r s s' ∧ ∃ pre post, text = pre ++ post ∧ s = spot_at prev pre post ∧
  ∀ pre' post' e, text = pre' ++ post' → (length pre' < length pre)%nat → ¬ matches r (spot_at prev pre' post') e.
Proof.
  revert prev. induction text as [|c text IH]; intros prev; cbn [exec];
    (destruct (run r Some _) as [e|] eqn:E;
      [intros [= <- <-]; apply run_sound in E as (e' & Hm & [= ->]); split; [done|];
       eexists [], _; split_and!; [done|done|cbn; lia]|]); [done|].
  intros (Hm & pre & post & -> & -> & Hno)%IH. split; [done|]. exists (c :: pre), post. split_and!; [done| |].
  - unfold spot_at. by rewrite (behind_app [c] pre).
  - intros [|c' pre'] post' e Heq Hlt He.
    + destruct (run_complete r _ e Some He) as [x Hx]; [done|]. cbn in Heq. subst post'. cbn in Hx, E. unfold spot_at in Hx.
      change (behind [] prev) with prev in Hx. by rewrite E in Hx.
    + injection Heq as <- Heq. apply (Hno pre' post' e Heq); [cbn in Hlt; lia|].
      unfold spot_at in *. by rewrite (behind_app [c] pre') in He.
Qed.

Lemma exec_None r prev text pre post e : exec r prev text = None → text = pre ++ post → ¬ matches r (spot_at prev pre post) e.
Proof.
  revert prev pre. induction text as [|c text IH]; intros prev pre; cbn [exec];
    (destruct (run r Some _) as [e'|] eqn:E; [done|]); intros Hn Heq He.
  - symmetry in Heq. apply app_nil in Heq as [-> ->]. destruct (run_complete r _ e Some He) as [x Hx]; [done|].
    unfold spot_at in Hx. change (behind [] prev) with prev in Hx. by rewrite E in Hx.
  - destruct pre as [|c' pre].
    + cbn in Heq. subst post. destruct (run_complete r _ e Some He) as [x Hx]; [done|].
      unfold spot_at in Hx. change (behind [] prev) with prev in Hx. by rewrite E in Hx.
    + injection Heq as <- Heq. apply (IH (Some c) pre Hn Heq). unfold spot_at in *. by rewrite (behind_app [c] pre) in He.
Qed.

(** Every match of the loop is one at some place of the text. *)
Lemma exec_loop_sound r fuel : ∀ prev text s s', (s, s') ∈ exec_loop fuel r prev text →
  matches r s s' ∧ ∃ p q, text = p ++ q ∧ s = spot_at prev p q.
Proof.
  induction fuel as [|fuel IH]; intros prev text s s' Hin; cbn [exec_loop] in Hin; [by apply elem_of_nil in Hin|].
  destruct (exec r prev text) as [[a b]|] eqn:E; [|by apply elem_of_nil in Hin].
  destruct (exec_Some r prev text a b E) as (Hm & p & q & Hpq & Ha & _).
  apply elem_of_cons in Hin as [[= -> ->]|Hin]; [eauto 6|].
  apply IH in Hin as (Hm' & p' & q' & E1 & E2). split; [done|].
  destruct (matches_span r a b Hm) as (w & Hw & Hb). rewrite Ha in Hw, Hb. cbn [spot_at rest before] in Hw, Hb.
  exists (p ++ w ++ p'), q'. split; [by rewrite Hpq, Hw, E1, <-!app_assoc|].
  rewrite E2, Hb. unfold spot_at. by rewrite !behind_app.
Qed.

(** The loop over the matches covers every place at which there is one: an earlier
    or the same match starts there or before and ends behind it. *)
Lemma exec_loop_covers r : (∀ s s', matches r s s' → (length (rest s') < length (rest s))%nat) →
  ∀ fuel prev text pre post e, (length text < fuel)%nat → text = pre ++ post → matches r (spot_at prev pre post) e →
  ∃ p q s s', text = p ++ q ∧ s = spot_at prev p q ∧ (s, s') ∈ exec_loop fuel r prev text ∧ matches r s s' ∧
    (length p <= length pre)%nat ∧ (length (rest s') < length post)%nat.
Proof.
  intros Hne. induction fuel as [|fuel IH]; intros prev text pre post e Hfuel Heq He; [lia|]. cbn [exec_loop].
  destruct (exec r prev text) as [[s s']|] eqn:E; [|by destruct (exec_None r prev text pre post e E Heq)].
  destruct (exec_Some r prev text s s' E) as (Hm & p & q & Hpq & Hs & Hno).
  assert (length p <= length pre)%nat as Hle.
  { destruct (Nat.le_gt_cases (length p) (length pre)) as [|Hlt]; [done|]. by destruct (Hno pre post e Heq Hlt). }
  pose proof (Hne s s' Hm) as Hlt. assert (rest s = q) as Hq by by rewrite Hs.
  destruct (Nat.le_gt_cases (length post) (length (rest s'))) as [Hgo|Hin].
  - destruct (matches_span r s s' Hm) as (w & Hw & Hb). rewrite Hq in Hw.
    assert (length text = length p + length w + length (rest s'))%nat as Hl by (rewrite Hpq, Hw, !length_app; lia).
    assert (length text = length pre + length post)%nat as Hl' by (rewrite Heq, length_app; lia).
    assert (∃ pre', pre = (p ++ w) ++ pre' ∧ rest s' = pre' ++ post) as (pre' & Hpre & Hpost).
    { rewrite Heq, Hw, app_assoc in Hpq. apply app_eq_inv in Hpq as [(k & E1 & E2)|(k & E1 & E2)].
      - exists k. by rewrite E1, E2.
      - exists []. apply (f_equal length) in E2 as El. rewrite length_app in El. destruct k; [|cbn in El; lia].
        cbn [app] in E2. rewrite E1, E2, !app_nil_r. done. }
    destruct (IH (before s') (rest s') pre' post e) as (p2 & q2 & t & t' & H1 & H2 & H3 & H4 & H5 & H6).
    + rewrite Hq, Hw, length_app in Hlt. lia.
    + done.
    + unfold spot_at in *. rewrite Hpre, !behind_app in He. by rewrite Hb, Hs.
    + exists (p ++ w ++ p2), q2, t, t'. split_and!; [| |by right|done| |done].
      * rewrite Hpq, Hw, H1. by rewrite <-!app_assoc.
      * rewrite H2. unfold spot_at. rewrite Hb, Hs. cbn [before spot_at]. by rewrite !behind_app.
      * rewrite Hpre, !length_app. lia.
  - exists p, q, s, s'. split_and!; [done|done|by left|done|done|done].
Qed.

(** ** Lengths *)

(** An expression that cannot match the empty text *)
Fixpoint consumes (r : regex) : bool :=
  match r with
  | RChar _ => true
  | RSeq r1 r2 => consumes r1 || consumes r2
  | RAlt r1 r2 => consumes r1 && consumes r2
  | RGroup _ r => consumes r
  | _ => false
  end.

Lemma consumes_spec r s s' : matches r s s' → consumes r = true → (length (rest s') < length (rest s))%nat.
Proof.
  induction 1 as [p s c t E Ep|s|r1 r2 s s1 s2 H1 IH1 H2 IH2|r1 r2 s s' _ IH|r1 r2 s s' _ IH|r s|r s s1 s2 _ IH1 Hlt _ IH2|n r s s' _ IH
                 |n s E|s E|s E|s E]; cbn [consumes]; try done.
  - intros _. cbn [advance rest]. rewrite E. cbn. rewrite drop_0. lia.
  - destruct (matches_span _ _ _ H1) as (w1 & E1 & _), (matches_span _ _ _ H2) as (w2 & E2 & _).
    assert (length (rest s1) <= length (rest s))%nat by (rewrite E1, length_app; lia).
    assert (length (rest s2) <= length (rest s1))%nat by (rewrite E2, length_app; lia).
    intros [Hc|Hc]%orb_true_iff; [specialize (IH1 Hc)|specialize (IH2 Hc)]; lia.
  - intros [Hc _]%andb_true_iff. by apply IH.
  - intros [_ Hc]%andb_true_iff. by apply IH.
Qed.

(** The matches of a global expression *)
Theorem exec_all_covers r text pre post e : consumes r = true → text = pre ++ post → matches r (spot_at None pre post) e →
  ∃ p q s', text = p ++ q ∧ (spot_at None p q, s') ∈ exec_all r text ∧ matches r (spot_at None p q) s' ∧
    (length p <= length pre)%nat ∧ (length (rest s') < length post)%nat.
Proof.
  intros Hc Heq He. destruct (exec_loop_covers r (λ s s' H, consumes_spec r s s' H Hc) (S (length text)) None text pre post e)
    as (p & q & s & s' & H1 & -> & H3 & H4 & H5 & H6); [lia|done|done|]. eauto 10.
Qed.
