(* ===== verification/Http.v ===== *)
(** * HTTP messages between the daemons

    The parts of a [Request], a [Response] and a [URL] that the gateway and the
    runtime daemon read and write, and the services they reach with [fetch].
    Header names are in lower case, as [Headers] keeps them. *)

From S2P Require Import Prelude JsString JsMap JsNumber JsValue Errors.
From Stdlib Require Import QArith.

Open Scope Z_scope.
Open Scope railfog_scope.

Abbreviation Headers := (jsmap jstr jstr).

(** The URL by its origin (for a request to a peer, the peer's base URL), its
    host, its path, its query and the query's parameters *)
Record HttpRequest := {
  h_method : jstr;
  h_origin : jstr;
  h_host : jstr;
  h_pathname : jstr;
  h_search : jstr;
  h_query : jsmap jstr jstr;
  h_headers : Headers;
  h_body : option (list Z)
}.

(** The content of a response: nothing, bytes, or the text [JSON.stringify(v)] *)
Inductive Content :=
| NoContent
| Bytes (bs : list Z)
| JsonOf (v : jsval).

Record HttpResponse := { p_status : Z; p_headers : Headers; p_content : Content }.

(** [req.headers.get(name)] *)
Definition get_header (req : HttpRequest) (name : jstr) : option jstr := map_get (h_headers req) name.

(** [a || b], on header values: [null] and the empty string are falsy. *)
Definition or_header (a : option jstr) (b : jstr) : jstr :=
  match a with Some ((_ :: _) as s) => s | _ => b end.

(** JSON texts and UTF-8 on the way between values and bytes *)
Class ContentCodec := { bytes_json : list Z → result exn jsval; json_bytes : jsval → list Z }.

(** [await res.json()], which reads a text back, and [await res.arrayBuffer()] *)
Definition read_json `{ContentCodec} (c : Content) : result exn jsval :=
  match c with JsonOf v => Ok (json_value v) | Bytes bs => bytes_json bs | NoContent => Err PlainError end.
Definition read_bytes `{ContentCodec} (c : Content) : list Z :=
  match c with JsonOf v => json_bytes v | Bytes bs => bs | NoContent => [] end.

(** A service behind [fetch], with its state; a rejected promise is an error. *)
Class Peer (C : Type) := fetch : HttpRequest → stm C exn HttpResponse.

(** [GET base/path] without a body *)
Definition get_request (base path : jstr) (headers : Headers) : HttpRequest :=
  {| h_method := js "GET"; h_origin := base; h_host := []; h_pathname := path; h_search := [];
     h_query := []; h_headers := headers; h_body := None |}.

(** The headers of a JSON response with its request id *)
Definition json_headers (requestId : jstr) : Headers :=
  [(js "content-type", js "application/json"); (js "x-request-id", requestId); (js "request-id", requestId)].

(** [{ error: { code, message, request_id, ... } }] *)
Definition error_content (code message requestId : jstr) (more : list (jstr * jsval)) : Content :=
  JsonOf (JObj [(js "error", JObj ([(js "code", JStr code); (js "message", JStr message);
                                    (js "request_id", JStr requestId)] ++ more))]).

(** [new Response(body, { status })] throws on a status outside 200 to 599. *)
Definition new_Response (status : Z) (headers : Headers) (c : Content) : result exn HttpResponse :=
  if (200 <=? status) && (status <=? 599)
  then Ok {| p_status := status; p_headers := headers; p_content := c |}
  else Err RangeError.

(** Paths that belong to the control plane *)
Definition under (pathname base : jstr) : bool :=
  jstr_eqb pathname base || starts_with pathname (base ++ js "/").
Definition CONTROL_PATHS : list jstr := Eval vm_compute in
  [js "/login"; js "/deploy"; js "/rollback"; js "/export"; js "/import"; js "/v1"].
Definition isControlPlanePath (pathname : jstr) : bool := existsb (under pathname) CONTROL_PATHS.

(** ** Header lists *)

Lemma map_get_fold_set {V} (l : jsmap jstr V) : ∀ h k,
  map_get (fold_left (λ h e, map_set h e.1 e.2) l h) k =
  match map_get (rev l) k with Some v => Some v | None => map_get h k end.
Proof.
  induction l as [|[k0 v0] l IH] using rev_ind; intros h k; [done|].
  rewrite fold_left_app, rev_app_distr. cbn [fold_left rev app map_get fst snd]. rewrite map_get_set, IH.
  by repeat case_decide; simplify_eq.
Qed.
