(* ===== verification/Ulid.v ===== *)
(** * ULID generation: [packages/core/id/ulid.ts]

    [generateUlid] takes the timestamp and the 10 random bytes that the source
    obtains from its injectable [now] and [random] arguments. *)

From S2P Require Import Prelude JsString.

Open Scope Z_scope.

Definition ENCODING : jstr := js "0123456789ABCDEFGHJKMNPQRSTVWXYZ".

(** [ENCODING[i]] *)
Definition enc (i : Z) : Z := nth (Z.to_nat i) ENCODING 0.

(** The loop [for (let i = 0; i < 10; i++)]: it prepends the low five bits. *)
Fixpoint timeLoop (n : nat) (t : Z) (timeChars : jstr) : jstr :=
  match n with
  | O => timeChars
  | S n => timeLoop n (t / 32) (enc (t mod 32) :: timeChars)
  end.

(** Five bytes to eight characters.  A missing array element is [undefined],
    which the bit operators read as 0. *)
Definition quintet (b0 b1 b2 b3 b4 : Z) : jstr :=
  [ enc (Z.land (Z.shiftr b0 3) 31);
    enc (Z.lor (Z.shiftl (Z.land b0 7) 2) (Z.shiftr b1 6));
    enc (Z.land (Z.shiftr b1 1) 31);
    enc (Z.lor (Z.shiftl (Z.land b1 1) 4) (Z.shiftr b2 4));
    enc (Z.lor (Z.shiftl (Z.land b2 15) 1) (Z.shiftr b3 7));
    enc (Z.land (Z.shiftr b3 2) 31);
    enc (Z.lor (Z.shiftl (Z.land b3 3) 3) (Z.shiftr b4 5));
    enc (Z.land b4 31) ].

Definition byte_at (bytes : list Z) (i : nat) : Z := nth i bytes 0.

Definition generateUlid (now : Z) (bytes : list Z) : jstr :=
  timeLoop 10 now [] ++
  (quintet (byte_at bytes 0) (byte_at bytes 1) (byte_at bytes 2)
           (byte_at bytes 3) (byte_at bytes 4) ++
   quintet (byte_at bytes 5) (byte_at bytes 6) (byte_at bytes 7)
           (byte_at bytes 8) (byte_at bytes 9)).

(** [[0-9A-HJKMNP-TV-Z]] *)
Definition ulid_char (c : Z) : bool :=
  ((48 <=? c) && (c <=? 57)) || ((65 <=? c) && (c <=? 72)) ||
  ((74 <=? c) && (c <=? 75)) || ((77 <=? c) && (c <=? 78)) ||
  ((80 <=? c) && (c <=? 84)) || ((86 <=? c) && (c <=? 90)).

(** [ULID_REGEX.test(value)] *)
Definition isValidUlid (value : jstr) : bool :=
  (Z.of_nat (length value) =? 26) && forallb ulid_char value.

(** ** Specification side: the value a ULID denotes *)

(** The digit a character denotes: its position in the alphabet. *)
Definition digit (c : Z) : Z :=
  match list_find (λ d, d = c) ENCODING with Some (i, _) => Z.of_nat i | None => 0 end.
Definition decode (s : jstr) : Z := fold_left (λ acc c, 32 * acc + digit c) s 0.

(** The big-endian value of a byte sequence. *)
Definition be_value (bytes : list Z) : Z := fold_left (λ acc b, 256 * acc + b) bytes 0.

Definition is_byte (b : Z) : Prop := 0 <= b < 256.

(** ** The alphabet *)

(** A property of the 32 digits is checked digit by digit. *)
Lemma forall_digits (P : Z → bool) :
  forallb P (Z.of_nat <$> seq 0 32) = true → ∀ i, 0 <= i < 32 → P i = true.
Proof.
  rewrite forallb_true_iff. intros H i Hi. apply H, list_elem_of_fmap.
  exists (Z.to_nat i). split; [lia|]. apply elem_of_seq. lia.
Qed.

Lemma digit_enc i : 0 <= i < 32 → digit (enc i) = i.
Proof.
  intros Hi. apply Z.eqb_eq. revert i Hi.
  apply (forall_digits (λ i, digit (enc i) =? i)). reflexivity.
Qed.

Lemma enc_char i : 0 <= i < 32 → ulid_char (enc i) = true.
Proof. revert i. apply (forall_digits (λ i, ulid_char (enc i))). reflexivity. Qed.

Lemma enc_mono i j : 0 <= i < 32 → 0 <= j < 32 → i < j → enc i < enc j.
Proof.
  intros Hi Hj Hij. apply Z.ltb_lt.
  assert (∀ i, 0 <= i < 32 → forallb (λ j, negb (i <? j) || (enc i <? enc j))
            (Z.of_nat <$> seq 0 32) = true) as H.
  { apply forall_digits. reflexivity. }
  specialize (H i Hi). pose proof (forall_digits _ H j Hj) as Hb.
  apply orb_true_iff in Hb as [Hb|Hb]; [|done].
  apply negb_true_iff, Z.ltb_ge in Hb. lia.
Qed.

(** ** The timestamp part *)

Lemma timeLoop_acc n t acc : timeLoop n t acc = timeLoop n t [] ++ acc.
Proof.
  revert t acc. induction n as [|n IH]; intros t acc; simpl; [done|].
  rewrite IH, (IH _ [_]). by rewrite <-app_assoc.
Qed.

Lemma timeLoop_S n t : timeLoop (S n) t [] = timeLoop n (t / 32) [] ++ [enc (t mod 32)].
Proof. simpl. apply timeLoop_acc. Qed.

Lemma timeLoop_length n t : length (timeLoop n t []) = n.
Proof.
  revert t. induction n as [|n IH]; intros t; [done|].
  rewrite timeLoop_S, length_app, IH. simpl. lia.
Qed.

Lemma timeLoop_chars n t : forallb ulid_char (timeLoop n t []) = true.
Proof.
  revert t. induction n as [|n IH]; intros t; [done|].
  rewrite timeLoop_S, forallb_app, IH. simpl. rewrite enc_char; [done|].
  apply Z.mod_pos_bound. lia.
Qed.

Lemma decode_app s c : decode (s ++ [c]) = 32 * decode s + digit c.
Proof. unfold decode. by rewrite fold_left_app. Qed.

Lemma timeLoop_decode n t : 0 <= t < 32 ^ Z.of_nat n → decode (timeLoop n t []) = t.
Proof.
  revert t. induction n as [|n IH]; intros t Ht; [unfold decode; simpl in *; lia|].
  rewrite timeLoop_S, decode_app.
  rewrite Nat2Z.inj_succ, Z.pow_succ_r in Ht by lia.
  assert (0 <= t mod 32 < 32) by (apply Z.mod_pos_bound; lia).
  rewrite digit_enc by lia. rewrite IH by (split; [apply Z.div_pos; lia|apply Z.div_lt_upper_bound; lia]).
  pose proof (Z.div_mod t 32). lia.
Qed.

Lemma timeLoop_lt n t1 t2 :
  0 <= t1 → t1 < t2 → t2 < 32 ^ Z.of_nat n →
  str_ltb (timeLoop n t1 []) (timeLoop n t2 []) = true.
Proof.
  revert t1 t2. induction n as [|n IH]; intros t1 t2 H1 Hlt H2; [simpl in *; lia|].
  rewrite !timeLoop_S. rewrite Nat2Z.inj_succ, Z.pow_succ_r in H2 by lia.
  pose proof (Z.div_mod t1 32 ltac:(lia)). pose proof (Z.div_mod t2 32 ltac:(lia)).
  pose proof (Z.mod_pos_bound t1 32 ltac:(lia)). pose proof (Z.mod_pos_bound t2 32 ltac:(lia)).
  assert (t1 / 32 <= t2 / 32) as Hd by (apply Z.div_le_mono; lia).
  apply Z.le_lteq in Hd as [Hd|Hd].
  - apply str_ltb_app_lt; [by rewrite !timeLoop_length|]. apply IH; [apply Z.div_pos; lia|lia|].
    apply Z.div_lt_upper_bound; lia.
  - rewrite Hd, str_ltb_app_l. simpl.
    rewrite (proj2 (Z.ltb_lt _ _)); [done|]. apply enc_mono; lia.
Qed.

(** ** The randomness part *)

(** Every character of a quintet as a quotient and remainder. *)
Lemma quintet_digits b0 b1 b2 b3 b4 :
  is_byte b0 → is_byte b1 → is_byte b2 → is_byte b3 → is_byte b4 →
  quintet b0 b1 b2 b3 b4 =
  enc <$> [b0 / 8; b0 mod 8 * 4 + b1 / 64; (b1 / 2) mod 32; b1 mod 2 * 16 + b2 / 16;
           b2 mod 16 * 2 + b3 / 128; (b3 / 4) mod 32; b3 mod 4 * 8 + b4 / 32; b4 mod 32].
Proof.
  unfold is_byte. intros H0 H1 H2 H3 H4. unfold quintet. cbn [fmap list_fmap].
  change 31 with (Z.ones 5). change (Z.land b0 7) with (Z.land b0 (Z.ones 3)).
  change (Z.land b1 1) with (Z.land b1 (Z.ones 1)).
  change (Z.land b2 15) with (Z.land b2 (Z.ones 4)).
  change (Z.land b3 3) with (Z.land b3 (Z.ones 2)).
  rewrite !Z.land_ones, !Z.shiftr_div_pow2 by lia.
  rewrite (Z.mod_small (b0 / 2 ^ 3)) by (change (2 ^ 3) with 8; change (2 ^ 5) with 32;
    Z.div_mod_to_equations; lia).
  rewrite !lor_shiftl_add;
    try (apply Z.mod_pos_bound; lia); try lia;
    try (split; [apply Z.div_pos; lia|]);
    try (match goal with |- _ / 2 ^ ?a < 2 ^ ?b => apply Z.div_lt_upper_bound; lia end).
  reflexivity.
Qed.

Lemma quintet_range b0 b1 b2 b3 b4 :
  is_byte b0 → is_byte b1 → is_byte b2 → is_byte b3 → is_byte b4 →
  Forall (λ i, 0 <= i < 32)
    [b0 / 8; b0 mod 8 * 4 + b1 / 64; (b1 / 2) mod 32; b1 mod 2 * 16 + b2 / 16;
     b2 mod 16 * 2 + b3 / 128; (b3 / 4) mod 32; b3 mod 4 * 8 + b4 / 32; b4 mod 32].
Proof.
  unfold is_byte. intros. repeat constructor; Z.div_mod_to_equations; lia.
Qed.

Lemma forallb_enc l : Forall (λ i, 0 <= i < 32) l → forallb ulid_char (enc <$> l) = true.
Proof. induction 1; simpl; [done|]. by rewrite enc_char. Qed.

Lemma decode_enc l acc : Forall (λ i, 0 <= i < 32) l →
  fold_left (λ acc c, 32 * acc + digit c) (enc <$> l) acc =
  fold_left (λ acc i, 32 * acc + i) l acc.
Proof.
  intros Hl. revert acc. induction Hl as [|i l Hi Hl IH]; intros acc; simpl; [done|].
  by rewrite digit_enc, IH.
Qed.

Lemma byte_at_byte bytes i : Forall is_byte bytes → is_byte (byte_at bytes i).
Proof.
  intros Hb. unfold byte_at. destruct (nth_in_or_default i bytes 0) as [Hin| ->].
  - eapply Forall_forall in Hb; [exact Hb|]. by apply list_elem_of_In.
  - unfold is_byte. lia.
Qed.

(** Five bytes are one 40-bit number: eight base-32 digits of it. *)
Lemma quintet_decode b0 b1 b2 b3 b4 acc :
  is_byte b0 → is_byte b1 → is_byte b2 → is_byte b3 → is_byte b4 →
  fold_left (λ acc c, 32 * acc + digit c) (quintet b0 b1 b2 b3 b4) acc =
  fold_left (λ acc b, 256 * acc + b) [b0; b1; b2; b3; b4] acc.
Proof.
  intros H0 H1 H2 H3 H4. rewrite quintet_digits by done.
  rewrite decode_enc by (by apply quintet_range).
  unfold is_byte in *. cbn [fold_left]. Z.div_mod_to_equations. lia.
Qed.

Lemma fold_left_shift (n : Z) (l : list Z) a :
  fold_left (λ acc b, n * acc + b) l a =
  a * n ^ Z.of_nat (length l) + fold_left (λ acc b, n * acc + b) l 0.
Proof.
  revert a. induction l as [|b l IH]; intros a; simpl; [lia|].
  rewrite IH, (IH (n * 0 + b)), Nat2Z.inj_succ, Z.pow_succ_r by lia. ring.
Qed.

Lemma decode_from s l :
  decode (s ++ l) = fold_left (λ acc c, 32 * acc + digit c) l (decode s).
Proof. apply fold_left_app. Qed.

Lemma ten_bytes (bytes : list Z) : length bytes = 10%nat →
  [byte_at bytes 0; byte_at bytes 1; byte_at bytes 2; byte_at bytes 3; byte_at bytes 4] ++
  [byte_at bytes 5; byte_at bytes 6; byte_at bytes 7; byte_at bytes 8; byte_at bytes 9] = bytes.
Proof. intros H. do 11 (destruct bytes; try discriminate). reflexivity. Qed.

Lemma generateUlid_valid now bytes : Forall is_byte bytes → isValidUlid (generateUlid now bytes) = true.
Proof.
  intros Hb. pose proof (λ i, byte_at_byte bytes i Hb) as Hi. unfold isValidUlid, generateUlid.
  rewrite length_app, timeLoop_length. rewrite !forallb_app, timeLoop_chars, !quintet_digits by done.
  by rewrite !forallb_enc by (by apply quintet_range).
Qed.

(** encoding and decoding are inverse: the 26 characters are valid Crockford
    base 32 and denote the 48-bit (here: up to 50-bit) timestamp followed by the
    80 random bits, so no timestamp or random bit is lost. *)
Theorem generateUlid_roundtrip now bytes :
  0 <= now < 2 ^ 50 → length bytes = 10%nat → Forall is_byte bytes →
  isValidUlid (generateUlid now bytes) = true ∧
  decode (generateUlid now bytes) = now * 2 ^ 80 + be_value bytes.
Proof.
  intros Hnow Hlen Hb. pose proof (λ i, byte_at_byte bytes i Hb) as Hi.
  split; [by apply generateUlid_valid|].
  - unfold generateUlid. rewrite decode_from, timeLoop_decode by (change (32 ^ Z.of_nat 10) with (2 ^ 50); lia).
    rewrite fold_left_app, !quintet_decode by done.
    rewrite <-fold_left_app, fold_left_shift. unfold be_value.
    rewrite (ten_bytes bytes Hlen), Hlen. reflexivity.
Qed.

Lemma generateUlid_roundtrip_witness :
  isValidUlid (generateUlid 1700000000000 [1; 2; 3; 4; 5; 6; 7; 8; 9; 255]) = true ∧
  decode (generateUlid 1700000000000 [1; 2; 3; 4; 5; 6; 7; 8; 9; 255]) =
  1700000000000 * 2 ^ 80 + be_value [1; 2; 3; 4; 5; 6; 7; 8; 9; 255].
Proof.
  apply generateUlid_roundtrip; [lia|reflexivity|].
  repeat constructor; unfold is_byte; lia.
Defined.

(** String order is creation order: a ULID made at a later millisecond is
    greater, whatever the random bytes are (PLAT-14, relied upon by the
    deployment cutover). *)
Theorem generateUlid_monotone t1 t2 bytes1 bytes2 :
  0 <= t1 → t1 < t2 → t2 < 2 ^ 50 →
  str_ltb (generateUlid t1 bytes1) (generateUlid t2 bytes2) = true.
Proof.
  intros H1 Hlt H2. unfold generateUlid.
  apply str_ltb_app_lt; [by rewrite !timeLoop_length|]. apply timeLoop_lt; try done.
Qed.

Lemma generateUlid_monotone_witness :
  str_ltb (generateUlid 31 [255; 255]) (generateUlid 32 []) = true.
Proof. apply generateUlid_monotone; lia. Defined.
