(* ===== verification/RateLimit.v ===== *)
(** * Token bucket rate limiting (PLAT-9)

    Two classes of the source implement the same algorithm:
    [TokenBucketLimiter] of [packages/policy/rate-limiter.ts] (section [policy],
    with per-function concurrency counters) and [MultiTenantRateLimiter] of
    [apps/gateway/rate-limiter.ts] (section [gateway]).  Token amounts are binary64
    numbers: every operation is rounded ([JsNumber.rnd]). *)

From S2P Require Import Prelude JsString JsMap JsNumber Errors.
From Stdlib Require Import QArith Qround Lqa.

Open Scope Z_scope.

(** ** Data shared by the two limiters *)

Inductive RateLimitScope := ip | identity | project.

#[export] Instance RateLimitScope_eq_dec : EqDecision RateLimitScope.
Proof. solve_decision. Defined.

Definition scope_string (s : RateLimitScope) : jstr :=
  match s with ip => js "ip" | identity => js "identity" | project => js "project" end.

(** [`${scope}:${key}`] *)
Definition bucketKey (scope : RateLimitScope) (key : jstr) : jstr :=
  scope_string scope ++ js ":" ++ key.

Record RateLimitTierConfig := { rate : Q; burst : Q }.

Definition MILLISECONDS_PER_SECOND : Q := 1000.

(** [Math.max(0, (now - last) / 1000)] *)
Definition deltaSec (now last : Z) : Q :=
  qmax 0 (fdiv (inject_Z (now - last)) MILLISECONDS_PER_SECOND).

(** [Math.min(burst, tokens + rate * deltaSec)] *)
Definition refill (cfg : RateLimitTierConfig) (tokens : Q) (now last : Z) : Q :=
  qmin (burst cfg) (fadd tokens (fmul (rate cfg) (deltaSec now last))).

(** ** [packages/policy/rate-limiter.ts] *)

Definition RATE_LIMIT_TIERS (s : RateLimitScope) : RateLimitTierConfig :=
  match s with
  | ip => {| rate := 10; burst := 20 |}
  | identity => {| rate := 50; burst := 100 |}
  | project => {| rate := 200; burst := 400 |}
  end.

Record TokenBucketState := { tokens : Q; lastReplenishedAt : Z }.

Record RateLimitResult := {
  allowed : bool;
  remaining : Z;
  retryAfterSeconds : option Z
}.

Record ConcurrencyResult := { c_allowed : bool; c_active : Z }.

Record TokenBucketLimiter := {
  buckets : jsmap jstr TokenBucketState;
  concurrencyCounts : jsmap jstr Z
}.

Definition newTokenBucketLimiter : TokenBucketLimiter :=
  {| buckets := []; concurrencyCounts := [] |}.

Definition set_bucket (l : TokenBucketLimiter) (k : jstr) (b : TokenBucketState) :=
  {| buckets := map_set (buckets l) k b; concurrencyCounts := concurrencyCounts l |}.

(** [consume(key, scope)], [now] being [this.nowProvider()] *)
Definition consume (l : TokenBucketLimiter) (key : jstr) (scope : RateLimitScope) (now : Z)
    : TokenBucketLimiter * RateLimitResult :=
  let tier := RATE_LIMIT_TIERS scope in
  let k := bucketKey scope key in
  let t :=
    match map_get (buckets l) k with
    | None => burst tier
    | Some b => refill tier (tokens b) now (lastReplenishedAt b)
    end in
  if Qle_bool 1 t then
    let t := fsub t 1 in
    (set_bucket l k {| tokens := t; lastReplenishedAt := now |},
     {| allowed := true; remaining := Qfloor t; retryAfterSeconds := None |})
  else
    (set_bucket l k {| tokens := t; lastReplenishedAt := now |},
     {| allowed := false; remaining := Z.max 0 (Qfloor t);
        retryAfterSeconds := Some (Qceiling (fdiv (fsub 1 t) (rate tier))) |}).

Definition getOr (d : Z) (m : jsmap jstr Z) (k : jstr) : Z :=
  match map_get m k with Some v => v | None => d end.

Definition acquireConcurrency (l : TokenBucketLimiter) (fnKey : jstr) (maxConcurrency : Z)
    : TokenBucketLimiter * ConcurrencyResult :=
  let currentActive := getOr 0 (concurrencyCounts l) fnKey in
  if currentActive <? maxConcurrency then
    let newActive := currentActive + 1 in
    ({| buckets := buckets l;
        concurrencyCounts := map_set (concurrencyCounts l) fnKey newActive |},
     {| c_allowed := true; c_active := newActive |})
  else (l, {| c_allowed := false; c_active := currentActive |}).

Definition releaseConcurrency (l : TokenBucketLimiter) (fnKey : jstr) : TokenBucketLimiter :=
  let currentActive := getOr 0 (concurrencyCounts l) fnKey in
  {| buckets := buckets l;
     concurrencyCounts :=
       if 1 <? currentActive
       then map_set (concurrencyCounts l) fnKey (currentActive - 1)
       else map_delete (concurrencyCounts l) fnKey |}.

(** The pruning loop over [buckets.entries()]: [idle] is the loop's test. *)
Definition prune_loop {B} (idle : B → bool) (m : jsmap jstr B) : jsmap jstr B * Z :=
  fold_left (λ st e, if idle e.2 then (map_delete st.1 e.1, st.2 + 1) else st) m (m, 0).

Definition policy_prune (l : TokenBucketLimiter) (maxIdleMs now : Z) : TokenBucketLimiter * Z :=
  let '(bs, n) := prune_loop (λ b, maxIdleMs <? now - lastReplenishedAt b) (buckets l) in
  ({| buckets := bs; concurrencyCounts := concurrencyCounts l |}, n).

(** [formatRateLimitRejection]: the status, the body and the [Retry-After]
    header. *)
Definition formatRateLimitRejection (retryAfter : Z) (requestId : option jstr)
    : Z * ErrorBody * jstr :=
  let error := {| err_code := RATE_LIMITED; err_message := js "Rate limit exceeded";
                  err_requestId := requestId |} in
  (429, toErrorResponseBody error, string_of_nat retryAfter).

(** ** [apps/gateway/rate-limiter.ts] *)

Record RateLimitDecision := {
  d_allowed : bool;
  d_remaining : Z;
  d_limit : Q;
  d_resetMs : Z;
  d_retryAfterSeconds : option Z
}.

Definition DEFAULT_RATE_LIMITS (s : RateLimitScope) : RateLimitTierConfig :=
  match s with
  | ip => {| rate := 10; burst := 20 |}
  | identity => {| rate := 50; burst := 100 |}
  | project => {| rate := 200; burst := 400 |}
  end.

Record RateLimitBucketState := { g_tokens : Q; lastRefillTime : Z; lastAccessTime : Z }.

Record MultiTenantRateLimiter := {
  configs : RateLimitScope → RateLimitTierConfig;
  g_buckets : jsmap jstr RateLimitBucketState
}.

(** The constructor: each scope's override, or the default. *)
Definition newMultiTenantRateLimiter
    (customConfigs : RateLimitScope → option RateLimitTierConfig) : MultiTenantRateLimiter :=
  {| configs := λ s, match customConfigs s with Some c => c | None => DEFAULT_RATE_LIMITS s end;
     g_buckets := [] |}.

Definition TOKEN_COST_PER_REQUEST : Q := 1.

(** [Math.ceil(Math.max(0, (burst - tokens) / rate) * 1000)] *)
Definition resetMs (cfg : RateLimitTierConfig) (tokens : Q) : Z :=
  Qceiling (fmul (qmax 0 (fdiv (fsub (burst cfg) tokens) (rate cfg))) MILLISECONDS_PER_SECOND).

(** [check(scope, key, now)] *)
Definition check (l : MultiTenantRateLimiter) (scope : RateLimitScope) (key : jstr) (now : Z)
    : MultiTenantRateLimiter * RateLimitDecision :=
  let cfg := configs l scope in
  let k := bucketKey scope key in
  let t :=
    match map_get (g_buckets l) k with
    | None => burst cfg
    | Some b => refill cfg (g_tokens b) now (lastRefillTime b)
    end in
  let store t :=
    {| configs := configs l;
       g_buckets := map_set (g_buckets l) k
         {| g_tokens := t; lastRefillTime := now; lastAccessTime := now |} |} in
  if Qle_bool TOKEN_COST_PER_REQUEST t then
    let t := fsub t TOKEN_COST_PER_REQUEST in
    (store t,
     {| d_allowed := true; d_remaining := Qfloor t; d_limit := burst cfg;
        d_resetMs := resetMs cfg t; d_retryAfterSeconds := None |})
  else
    (store t,
     {| d_allowed := false; d_remaining := 0; d_limit := burst cfg;
        d_resetMs := resetMs cfg t;
        d_retryAfterSeconds :=
          Some (Qceiling (fdiv (fsub TOKEN_COST_PER_REQUEST t) (rate cfg))) |}).

Definition reset (l : MultiTenantRateLimiter) (scope : RateLimitScope) (key : jstr)
    : MultiTenantRateLimiter :=
  {| configs := configs l; g_buckets := map_delete (g_buckets l) (bucketKey scope key) |}.

Definition gateway_prune (l : MultiTenantRateLimiter) (maxIdleMs now : Z)
    : MultiTenantRateLimiter * Z :=
  let '(bs, n) := prune_loop (λ b, maxIdleMs <? now - lastAccessTime b) (g_buckets l) in
  ({| configs := configs l; g_buckets := bs |}, n).

(** ** Bucket keys *)

Lemma bucketKey_inj s1 k1 s2 k2 : bucketKey s1 k1 = bucketKey s2 k2 → s1 = s2 ∧ k1 = k2.
Proof. destruct s1, s2; unfold bucketKey; vm_compute; intros; simplify_eq; done. Qed.

Lemma bucketKey_ne s1 k1 s2 k2 : (s1, k1) ≠ (s2, k2) → bucketKey s1 k1 ≠ bucketKey s2 k2.
Proof. intros Hne [-> ->]%bucketKey_inj. done. Qed.

(** ** The arithmetic of one bucket *)

(** A configuration with a burst of at least one request, an integer that
    binary64 represents, and a positive rate (a rate of 0 makes the divisions of
    the source infinite). *)
Record cfg_ok (cfg : RateLimitTierConfig) : Prop := {
  burst_int : ∃ z : Z, burst cfg = inject_Z z ∧ 1 ≤ z ≤ 2 ^ 53;
  rate_pos : (0 < rate cfg)%Q
}.

Lemma rate_nonneg cfg : cfg_ok cfg → (0 <= rate cfg)%Q.
Proof. intros [_ H]. lra. Qed.

Lemma cfg_burst_ge1 cfg : cfg_ok cfg → (1 <= burst cfg)%Q.
Proof.
  intros [(z & -> & Hz) _]. change 1%Q with (inject_Z 1). rewrite <-Zle_Qle. lia.
Qed.

Lemma cfg_burst_rnd cfg : cfg_ok cfg → (rnd (burst cfg) == burst cfg)%Q.
Proof. intros [(z & -> & Hz) _]. apply rnd_int. lia. Qed.

Lemma default_cfg_ok s : cfg_ok (DEFAULT_RATE_LIMITS s).
Proof.
  destruct s; split; [exists 20|easy|exists 100|easy|exists 400|easy]; split; done.
Qed.

Lemma deltaSec_nonneg now last : (0 <= deltaSec now last)%Q.
Proof. apply qmax_ge_l. Qed.

Lemma refill_nonneg cfg t now last :
  cfg_ok cfg → (0 <= t → 0 <= refill cfg t now last)%Q.
Proof.
  intros Hok Ht. pose proof (cfg_burst_ge1 _ Hok). pose proof (rate_nonneg _ Hok).
  apply qmin_glb; [lra|]. apply rnd_sign.
  pose proof (deltaSec_nonneg now last).
  assert (0 <= fmul (rate cfg) (deltaSec now last))%Q; [apply rnd_sign; nra|lra].
Qed.

Lemma refill_le_burst cfg t now last : (refill cfg t now last <= burst cfg)%Q.
Proof. apply qmin_le_l. Qed.

Lemma take_bounds cfg t :
  cfg_ok cfg → (1 <= t → t <= burst cfg → 0 <= fsub t 1 /\ fsub t 1 <= burst cfg)%Q.
Proof.
  intros Hok H1 Hb. split; [apply rnd_sign; lra|].
  rewrite <-(cfg_burst_rnd _ Hok). apply rnd_mono. lra.
Qed.

(** Refilling after [now - last >= 0] ms adds at most the exact amount, up to
    the rounding of three operations. *)
Lemma refill_upper cfg t now last :
  cfg_ok cfg → (0 <= t)%Q → last ≤ now →
  (refill cfg t now last <=
   t + rate cfg * (inject_Z (now - last) / 1000) * (1 + eps) * (1 + eps) + eps * burst cfg)%Q.
Proof.
  intros Hok Ht Hle. pose proof (rate_nonneg _ Hok) as Hr.
  pose proof (cfg_burst_ge1 _ Hok) as Hb. assert (0 < eps)%Q as He by reflexivity.
  assert (0 <= inject_Z (now - last) / 1000)%Q as Hd.
  { apply Qle_shift_div_l; [reflexivity|]. pose proof (inject_Z_nonneg (now - last)). lra || (assert (0 <= inject_Z (now - last))%Q by (apply inject_Z_nonneg; lia); lra). }
  set (d := (inject_Z (now - last) / 1000)%Q) in *.
  assert (deltaSec now last <= d * (1 + eps))%Q as Hds.
  { apply qmax_lub; [nra|]. by apply rnd_err_up. }
  pose proof (deltaSec_nonneg now last) as Hd0.
  assert (fmul (rate cfg) (deltaSec now last) <= rate cfg * d * (1 + eps) * (1 + eps))%Q as Hm.
  { unfold fmul. apply Qle_trans with (rate cfg * deltaSec now last * (1 + eps))%Q.
    - apply rnd_err_up. nra.
    - assert (rate cfg * deltaSec now last <= rate cfg * d * (1 + eps))%Q; nra. }
  assert (0 <= fmul (rate cfg) (deltaSec now last))%Q as Hm0 by (apply rnd_sign; nra).
  set (m := fmul _ _) in *. unfold refill. fold m.
  destruct (Qlt_le_dec (burst cfg) (t + m)) as [Hlt|Hge].
  - pose proof (qmin_le_l (burst cfg) (fadd t m)). nra.
  - pose proof (qmin_le_r (burst cfg) (fadd t m)).
    assert (fadd t m <= (t + m) * (1 + eps))%Q by (apply rnd_err_up; lra). nra.
Qed.

(** Taking a token lowers the balance by one, up to one rounding. *)
Lemma take_upper cfg t :
  cfg_ok cfg → (1 <= t → t <= burst cfg → fsub t 1 + 1 <= t + eps * burst cfg)%Q.
Proof.
  intros Hok H1 Hb. assert (0 < eps)%Q by reflexivity.
  assert (fsub t 1 <= (t - 1) * (1 + eps))%Q by (apply rnd_err_up; lra). nra.
Qed.

(** *** The buckets of [MultiTenantRateLimiter] *)

Definition bucket_ok (cfg : RateLimitTierConfig) (b : RateLimitBucketState) : Prop :=
  (0 <= g_tokens b)%Q ∧ (g_tokens b <= burst cfg)%Q ∧ lastAccessTime b = lastRefillTime b.

(** The balance [check] finds before it decides. *)
Definition balance (l : MultiTenantRateLimiter) (s : RateLimitScope) (key : jstr) (now : Z) : Q :=
  match map_get (g_buckets l) (bucketKey s key) with
  | None => burst (configs l s)
  | Some b => refill (configs l s) (g_tokens b) now (lastRefillTime b)
  end.

Definition limiter_ok (l : MultiTenantRateLimiter) : Prop :=
  (∀ s, cfg_ok (configs l s)) ∧ map_wf (g_buckets l) ∧
  ∀ s k b, map_get (g_buckets l) (bucketKey s k) = Some b → bucket_ok (configs l s) b.

(** What [check] does, on both branches. *)
Lemma check_spec l s k now :
  let t := balance l s k now in
  let spent := if Qle_bool 1 t then fsub t 1 else t in
  g_buckets (check l s k now).1 =
    map_set (g_buckets l) (bucketKey s k)
      {| g_tokens := spent; lastRefillTime := now; lastAccessTime := now |} ∧
  configs (check l s k now).1 = configs l ∧
  d_allowed (check l s k now).2 = Qle_bool 1 t ∧
  (Qle_bool 1 t = false →
   d_retryAfterSeconds (check l s k now).2 = Some (Qceiling (fdiv (fsub 1 t) (rate (configs l s))))).
Proof.
  cbv zeta. unfold check. fold (balance l s k now). unfold TOKEN_COST_PER_REQUEST.
  by destruct (Qle_bool 1 _).
Qed.

Lemma balance_bounds l s k now :
  limiter_ok l → (0 <= balance l s k now /\ balance l s k now <= burst (configs l s))%Q.
Proof.
  intros (Hc & _ & Hb). unfold balance. pose proof (cfg_burst_ge1 _ (Hc s)).
  destruct (map_get _ _) eqn:E; [|lra].
  destruct (Hb _ _ _ E) as (? & ? & _). split; [by apply refill_nonneg|apply refill_le_burst].
Qed.

(** [prune_loop] keeps the entries that are not idle and counts the others. *)
Lemma prune_loop_spec {B} (idle : B → bool) (m : jsmap jstr B) :
  map_wf m →
  prune_loop idle m =
    (filter (λ e : jstr * B, idle e.2 = false) m, Z.of_nat (length (filter (λ e : jstr * B, idle e.2 = true) m))).
Proof.
  intros Hwf. unfold prune_loop.
  assert (∀ todo seen n, map_wf (seen ++ todo) →
    fold_left (λ st e, if idle e.2 then (map_delete st.1 e.1, st.2 + 1) else st) todo
      (seen ++ todo, n) =
    (seen ++ filter (λ e : jstr * B, idle e.2 = false) todo,
     n + Z.of_nat (length (filter (λ e : jstr * B, idle e.2 = true) todo)))) as Hgen.
  { clear. induction todo as [|[k b] todo IH]; intros seen n Hwf; cbn [fold_left].
    - by rewrite Z.add_0_r.
    - rewrite !filter_cons. cbn [fst snd]. destruct (idle b) eqn:E.
      + rewrite decide_False, decide_True by done.
        rewrite map_delete_middle by done. apply map_wf_middle in Hwf.
        rewrite IH by done. cbn [length]. f_equal. lia.
      + rewrite decide_True, decide_False by congruence.
        change (seen ++ (k, b) :: todo) with (seen ++ [(k, b)] ++ todo) in *.
        rewrite app_assoc in *. rewrite IH by done. by rewrite <-app_assoc. }
  exact (Hgen m [] 0 Hwf).
Qed.

(** ** Traces of calls on one limiter *)

(** A call on the gateway limiter; [GPrune maxIdleMs]. *)
Inductive gop :=
| GCheck (s : RateLimitScope) (key : jstr)
| GReset (s : RateLimitScope) (key : jstr)
| GPrune (maxIdleMs : Z).

Definition gstep (l : MultiTenantRateLimiter) (now : Z) (op : gop)
    : MultiTenantRateLimiter * option RateLimitDecision :=
  match op with
  | GCheck s key => let '(l', d) := check l s key now in (l', Some d)
  | GReset s key => (reset l s key, None)
  | GPrune idle => ((gateway_prune l idle now).1, None)
  end.

(** Does the call check, and does it admit, a request of [(s, key)]? *)
Definition is_check (s : RateLimitScope) (key : jstr) (op : gop) : bool :=
  match op with GCheck s' key' => bool_decide ((s', key') = (s, key)) | _ => false end.
Definition admits (s : RateLimitScope) (key : jstr) (op : gop) (d : option RateLimitDecision) : bool :=
  is_check s key op && match d with Some d => d_allowed d | None => false end.

(** Runs a trace; returns the number of requests of [(s, key)] checked and
    admitted. *)
Fixpoint count_admitted (l : MultiTenantRateLimiter) (s : RateLimitScope) (key : jstr)
    (ops : list (Z * gop)) : Z * Z :=
  match ops with
  | [] => (0, 0)
  | (now, op) :: ops =>
      let '(l', d) := gstep l now op in
      let '(n, a) := count_admitted l' s key ops in
      (n + Z.b2z (is_check s key op), a + Z.b2z (admits s key op d))
  end.

(** Time does not go back, starting from [t]. *)
Fixpoint ordered_from (t : Z) (ops : list (Z * gop)) : Prop :=
  match ops with [] => True | (now, _) :: ops => t ≤ now ∧ ordered_from now ops end.
Fixpoint end_time (t : Z) (ops : list (Z * gop)) : Z :=
  match ops with [] => t | (now, _) :: ops => end_time now ops end.

(** The calls a bound on [(s, key)] allows: it is not reset, and buckets are
    pruned only once they have had time to fill. *)
Definition op_allowed (cfg : RateLimitTierConfig) (s : RateLimitScope) (key : jstr)
    (op : gop) : Prop :=
  match op with
  | GCheck _ _ => True
  | GReset s' key' => (s', key') ≠ (s, key)
  | GPrune idle => (burst cfg * 1000 <= rate cfg * inject_Z idle)%Q
  end.

(** The refill of [ms] milliseconds, with the rounding of its operations. *)
Definition accrual (cfg : RateLimitTierConfig) (ms : Z) : Q :=
  (rate cfg * (inject_Z ms / 1000) * (1 + eps) * (1 + eps))%Q.

Section throughput.
Context (s : RateLimitScope) (key : jstr) (cfg : RateLimitTierConfig) (Hok : cfg_ok cfg).

(** [c] bounds the admissions still possible at time [t]: the balance plus
    what accrues until then. *)
Definition credit (l : MultiTenantRateLimiter) (t : Z) (c : Q) : Prop :=
  configs l s = cfg ∧ map_wf (g_buckets l) ∧
  match map_get (g_buckets l) (bucketKey s key) with
  | None => (burst cfg <= c)%Q
  | Some b => bucket_ok cfg b ∧ lastRefillTime b ≤ t ∧
      (g_tokens b + accrual cfg (t - lastRefillTime b) <= c)%Q
  end.

Lemma accrual_plus a b : (accrual cfg (a + b) == accrual cfg a + accrual cfg b)%Q.
Proof. unfold accrual. rewrite inject_Z_plus. field. Qed.

Lemma accrual_nonneg ms : 0 ≤ ms → (0 <= accrual cfg ms)%Q.
Proof.
  intros H%inject_Z_nonneg. pose proof (rate_nonneg _ Hok). unfold accrual, eps.
  assert (0 <= rate cfg * (inject_Z ms / 1000))%Q; [|lra].
  apply Qmult_le_0_compat; [done|]. apply Qle_shift_div_l; [reflexivity|lra].
Qed.

Lemma credit_wait l t t' c : credit l t c → t ≤ t' → credit l t' (c + accrual cfg (t' - t)).
Proof.
  intros (Hc & Hwf & Hb) Hle. split_and!; [done..|].
  pose proof (accrual_nonneg (t' - t) ltac:(lia)) as Ha.
  destruct (map_get _ _) as [b|]; [|lra]. destruct Hb as (? & ? & Hb). split_and!; [done|lia|].
  replace (t' - lastRefillTime b) with ((t - lastRefillTime b) + (t' - t)) by lia.
  rewrite accrual_plus. lra.
Qed.

Lemma credit_balance l t c :
  credit l t c → (0 <= balance l s key t /\ balance l s key t <= burst cfg /\
                  balance l s key t <= c + eps * burst cfg)%Q.
Proof.
  intros (Hc & Hwf & Hb). unfold balance. rewrite Hc.
  pose proof (cfg_burst_ge1 _ Hok). assert (0 < eps)%Q by reflexivity.
  destruct (map_get _ _) as [b|]; [|split_and!; nra].
  destruct Hb as ((? & ? & _) & Ht & Hb). split_and!.
  - by apply refill_nonneg.
  - apply refill_le_burst.
  - pose proof (refill_upper cfg (g_tokens b) t (lastRefillTime b) Hok) as Hr.
    unfold accrual in Hb. specialize (Hr ltac:(done) Ht). lra.
Qed.

(** Another key's check does not touch the bucket. *)
Lemma credit_other l t c s' key' :
  credit l t c → (s', key') ≠ (s, key) → credit (check l s' key' t).1 t c.
Proof.
  intros (Hc & Hwf & Hb) Hne. destruct (check_spec l s' key' t) as (Hs & Hcf & _ & _).
  unfold credit. rewrite Hs, Hcf, map_get_set_ne by by apply bucketKey_ne.
  split_and!; [done|by apply map_set_wf|done].
Qed.

Lemma credit_check l t c :
  credit l t c →
  credit (check l s key t).1 t
    (c - inject_Z (Z.b2z (d_allowed (check l s key t).2)) + 2 * eps * burst cfg).
Proof.
  intros Hcr. pose proof (credit_balance _ _ _ Hcr) as (H0 & H1 & H2).
  destruct Hcr as (Hc & Hwf & _). destruct (check_spec l s key t) as (Hs & Hcf & Hd & _).
  unfold credit. rewrite Hs, Hcf, Hd, map_get_set_eq. split; [done|]. split; [by apply map_set_wf|].
  pose proof (cfg_burst_ge1 _ Hok). assert (0 < eps)%Q by reflexivity.
  cbn [g_tokens lastRefillTime]. unfold bucket_ok. cbn. rewrite Z.sub_diag.
  assert (accrual cfg 0 == 0)%Q as -> by (unfold accrual; field).
  set (tok := balance _ _ _ _) in *. destruct (Qle_bool 1 tok) eqn:E.
  - apply Qle_bool_iff in E. pose proof (take_bounds cfg tok Hok E H1).
    pose proof (take_upper cfg tok Hok E H1). split_and!; try lra; try lia.
    change (inject_Z (Z.b2z true)) with 1%Q. lra.
  - split_and!; try lra; try lia; try nra. change (inject_Z (Z.b2z false)) with 0%Q. nra.
Qed.

Lemma credit_prune l t c idle :
  credit l t c → (burst cfg * 1000 <= rate cfg * inject_Z idle)%Q →
  credit (gateway_prune l idle t).1 t c.
Proof.
  intros (Hc & Hwf & Hb) Hidle. unfold gateway_prune. rewrite prune_loop_spec by done.
  unfold credit. cbn [fst configs g_buckets]. split; [done|].
  split; [by apply filter_map_wf|]. rewrite map_get_filter by done.
  destruct (map_get _ _) as [b|] eqn:E; [|done]. case_decide as Hd; [done|].
  cbn [snd] in Hd. apply not_false_is_true in Hd. zbool.
  destruct Hb as ((Hb0 & _ & Hla) & Ht & Hb). rewrite Hla in Hd.
  apply Qle_trans with (accrual cfg (t - lastRefillTime b)); [|lra].
  pose proof (rate_nonneg _ Hok). unfold accrual.
  assert (inject_Z idle <= inject_Z (t - lastRefillTime b))%Q by (rewrite <-Zle_Qle; lia).
  set (x := inject_Z (t - lastRefillTime b)) in *.
  assert (burst cfg <= rate cfg * (x / 1000))%Q as Hx.
  { assert (rate cfg * (x / 1000) == rate cfg * x / 1000)%Q as -> by field.
    apply Qle_shift_div_l; [reflexivity|]. nra. }
  pose proof (cfg_burst_ge1 _ Hok). unfold eps. nra.
Qed.

Lemma credit_step l t t' c op :
  credit l t c → t ≤ t' → op_allowed cfg s key op →
  let r := gstep l t' op in
  credit r.1 t' (c + accrual cfg (t' - t) - inject_Z (Z.b2z (admits s key op r.2)) +
                 inject_Z (Z.b2z (is_check s key op)) * (2 * eps * burst cfg)).
Proof.
  intros Hcr Hle Hop. apply (credit_wait _ _ t') in Hcr; [|done].
  set (c' := (c + _)%Q) in *. clearbody c'. cbv zeta.
  assert (credit (gstep l t' op).1 t' c' → admits s key op (gstep l t' op).2 = false →
    is_check s key op = false → credit (gstep l t' op).1 t'
     (c' - inject_Z (Z.b2z (admits s key op (gstep l t' op).2)) +
      inject_Z (Z.b2z (is_check s key op)) * (2 * eps * burst cfg)))%Q as Hskip.
  { intros (? & ? & H) -> ->. split_and!; [done..|].
    change (inject_Z (Z.b2z false)) with 0%Q. destruct (map_get _ _); [|lra].
    destruct H as (? & ? & ?). split_and!; [done..|lra]. }
  destruct op as [s' key'|s' key'|idle].
  - unfold is_check, admits, is_check in *. cbn [gstep] in *.
    destruct (decide ((s', key') = (s, key))) as [[= -> ->]|Hne].
    + pose proof (credit_check _ _ _ Hcr) as Hk. rewrite bool_decide_true by done.
      destruct (check l s key t') as [l' d]. cbn in *.
      destruct Hk as (? & ? & H). split_and!; [done..|]. change (inject_Z 1) with 1%Q.
      destruct (map_get _ _); [|lra]. destruct H as (? & ? & ?). split_and!; [done..|lra].
    + pose proof (credit_other _ _ _ _ _ Hcr Hne). rewrite bool_decide_false in * by done.
      destruct (check l s' key' t') as [l' d]. by apply Hskip.
  - apply Hskip; [|done..]. cbn. destruct Hcr as (? & ? & H). split_and!; [done|by apply map_delete_wf|].
    cbn [reset g_buckets]. by rewrite map_get_delete_ne by by apply bucketKey_ne.
  - apply Hskip; [|done..]. by apply credit_prune.
Qed.

Lemma credit_nonneg l t c : credit l t c → (0 <= c)%Q.
Proof.
  intros (_ & _ & Hb). pose proof (cfg_burst_ge1 _ Hok).
  destruct (map_get _ _) as [b|]; [|lra]. destruct Hb as ((? & _) & ? & ?).
  pose proof (accrual_nonneg (t - lastRefillTime b) ltac:(lia)). lra.
Qed.

Lemma count_admitted_bound ops : ∀ l t c,
  credit l t c → ordered_from t ops → Forall (λ e, op_allowed cfg s key e.2) ops →
  (inject_Z (count_admitted l s key ops).2 <=
   c + accrual cfg (end_time t ops - t) +
   inject_Z (count_admitted l s key ops).1 * (2 * eps * burst cfg))%Q.
Proof.
  induction ops as [|[t' op] ops IH]; intros l t c Hcr Hord Hall.
  - cbn. rewrite Z.sub_diag. pose proof (credit_nonneg _ _ _ Hcr).
    assert (accrual cfg 0 == 0)%Q as -> by (unfold accrual; field).
    change (inject_Z 0) with 0%Q. lra.
  - destruct Hord as [Hle Hord]. apply Forall_cons in Hall as [Hop Hall]. cbn in Hop.
    pose proof (credit_step _ _ _ _ _ Hcr Hle Hop) as Hs. cbn [count_admitted end_time].
    destruct (gstep l t' op) as [l' d]. cbn [fst snd] in Hs.
    specialize (IH _ _ _ Hs Hord Hall).
    destruct (count_admitted l' s key ops) as [n a]. cbn [fst snd] in *.
    replace (end_time t' ops - t) with ((t' - t) + (end_time t' ops - t')) by lia.
    rewrite accrual_plus, !inject_Z_plus. lra.
Qed.
End throughput.

(** C7: Whatever the interleaving of checks of any scope and key, resets of other
    keys and prunings (of buckets idle long enough to be full again), with a
    clock that does not go back, the requests of one (scope, key) that a fresh
    [MultiTenantRateLimiter] admits over [T] ms are at most
    [burst + rate * T/1000], up to the rounding of the float operations: one
    tenant's traffic never buys another one tokens, and pruning leaks none. *)
Theorem check_throughput customConfigs s key cfg ops t0 :
  configs (newMultiTenantRateLimiter customConfigs) s = cfg → cfg_ok cfg →
  ordered_from t0 ops → Forall (λ e, op_allowed cfg s key e.2) ops →
  let '(n, admitted) := count_admitted (newMultiTenantRateLimiter customConfigs) s key ops in
  (inject_Z admitted <=
   burst cfg + rate cfg * (inject_Z (end_time t0 ops - t0) / 1000) * (1 + eps) * (1 + eps) +
   inject_Z n * (2 * eps * burst cfg))%Q.
Proof.
  intros Hc Hok Hord Hall.
  assert (credit s key cfg (newMultiTenantRateLimiter customConfigs) t0 (burst cfg)) as Hcr.
  { split_and!; [done|apply map_empty_wf|]. simpl. lra. }
  pose proof (count_admitted_bound s key cfg Hok ops _ _ _ Hcr Hord Hall) as H.
  by destruct (count_admitted _ s key ops) as [n a].
Qed.

(** Twenty-five simultaneous requests from one address and one from another,
    then one more a second later. *)
Definition burst_trace : list (Z * gop) :=
  repeat (5000, GCheck ip (js "1.2.3.4")) 25 ++
  [(5000, GCheck ip (js "9.9.9.9")); (5500, GPrune 60000); (6000, GCheck ip (js "1.2.3.4"))].

Theorem check_throughput_witness :
  count_admitted (newMultiTenantRateLimiter (λ _, None)) ip (js "1.2.3.4") burst_trace = (26, 21) ∧
  (inject_Z 21 <= 20 + 10 * (inject_Z (6000 - 5000) / 1000) * (1 + eps) * (1 + eps) +
                  inject_Z 26 * (2 * eps * 20))%Q.
Proof.
  assert (count_admitted (newMultiTenantRateLimiter (λ _, None)) ip (js "1.2.3.4") burst_trace
          = (26, 21)) as E by (vm_compute; reflexivity).
  split; [exact E|].
  pose proof (check_throughput (λ _, None) ip (js "1.2.3.4") (DEFAULT_RATE_LIMITS ip) burst_trace
    5000 eq_refl (default_cfg_ok ip)) as H.
  rewrite E in H. apply H; vm_compute.
  - repeat split; discriminate.
  - repeat constructor; vm_compute; discriminate.
Defined.

(** ** The limiter's invariant and the promise of [Retry-After] *)

Lemma check_preserves l s k now : limiter_ok l → limiter_ok (check l s k now).1.
Proof.
  intros Hl. pose proof (balance_bounds l s k now Hl) as [H0 H1].
  destruct Hl as (Hc & Hwf & Hb). destruct (check_spec l s k now) as (Hs & Hcf & _).
  split_and!; rewrite ?Hcf, ?Hs; [done|by apply map_set_wf|].
  intros s' k' b. destruct (decide ((s', k') = (s, k))) as [[= -> ->]|Hne].
  - rewrite map_get_set_eq. intros [= <-]. unfold bucket_ok. cbn.
    destruct (Qle_bool 1 _) eqn:E; [apply Qle_bool_iff in E|done].
    destruct (take_bounds _ _ (Hc s) E H1). done.
  - rewrite map_get_set_ne by by apply bucketKey_ne. apply Hb.
Qed.

(** The wait that a rejection announces is one second at any rate of at least
    one request per second. *)
Lemma retry_after_one cfg t :
  (1 <= rate cfg)%Q → (0 <= t)%Q → (t < 1)%Q →
  Qceiling (fdiv (fsub 1 t) (rate cfg)) = 1.
Proof.
  intros Hr H0 H1.
  assert (0 < fsub 1 t)%Q as Hp by (apply rnd_gt_zero; lra).
  assert (fsub 1 t <= 1)%Q as Hp1 by (apply rnd_le_one; lra).
  assert (0 < fsub 1 t / rate cfg)%Q as Hd by (apply Qlt_shift_div_l; lra).
  assert (fsub 1 t / rate cfg <= 1)%Q as Hd1 by (apply Qle_shift_div_r; lra).
  assert (0 < fdiv (fsub 1 t) (rate cfg))%Q as He by by apply rnd_gt_zero.
  assert (fdiv (fsub 1 t) (rate cfg) <= 1)%Q as He1 by by apply rnd_le_one.
  unfold Qceiling. pose proof (Qfloor_unique (- fdiv (fsub 1 t) (rate cfg)) (-1)) as Hf.
  rewrite Hf; [done|..]; change (inject_Z (-1)) with (-1)%Q; lra.
Qed.

(** After a second, a bucket of such a rate holds a token. *)
Lemma refill_one_second cfg t now last :
  cfg_ok cfg → (1 <= rate cfg)%Q → (0 <= t)%Q → last + 1000 ≤ now →
  (1 <= refill cfg t now last)%Q.
Proof.
  intros Hok Hr Ht Hle. pose proof (cfg_burst_ge1 _ Hok) as Hb.
  assert (inject_Z 1000 <= inject_Z (now - last))%Q as Hn by (rewrite <-Zle_Qle; lia).
  change (inject_Z 1000) with 1000%Q in Hn.
  assert (1 <= deltaSec now last)%Q as Hd.
  { unfold deltaSec. eapply Qle_trans; [|apply qmax_ge_r]. apply rnd_ge_one.
    apply Qle_shift_div_l; [reflexivity|]. unfold MILLISECONDS_PER_SECOND. lra. }
  apply qmin_glb; [done|]. apply rnd_ge_one.
  assert (1 <= fmul (rate cfg) (deltaSec now last))%Q; [apply rnd_ge_one; nra|lra].
Qed.

(** A rejected request is told to wait one second ([Retry-After] at every
    rate of at least 1/s), and the promise is kept: if no other request spends
    the bucket's tokens in between, a retry made after that wait is admitted. *)
Theorem retry_after_sound l s k now now' :
  limiter_ok l → (1 <= rate (configs l s))%Q →
  let '(l1, d1) := check l s k now in
  d_allowed d1 = false →
  d_retryAfterSeconds d1 = Some 1 ∧
  (now + 1000 * 1 ≤ now' → d_allowed (check l1 s k now').2 = true).
Proof.
  intros Hl Hr. pose proof (balance_bounds l s k now Hl) as [H0 H1].
  pose proof (check_preserves l s k now Hl) as Hl1.
  destruct (check_spec l s k now) as (Hs & Hcf & Hd & Hra).
  destruct (check l s k now) as [l1 d1]. cbn [fst snd] in *. intros Hrej. rewrite Hd in Hrej.
  specialize (Hra Hrej). rewrite Hrej in Hs. apply Qle_bool_false in Hrej. split.
  - rewrite Hra. f_equal. by apply retry_after_one.
  - intros Hle. destruct (check_spec l1 s k now') as (_ & _ & -> & _).
    apply Qle_bool_iff. unfold balance. rewrite Hs, map_get_set_eq, Hcf. cbn [g_tokens lastRefillTime].
    destruct Hl as (Hc & _). apply refill_one_second; [apply Hc|done|done|lia].
Qed.

(** The limiter after [n] requests of one key at time 0. *)
Definition after_requests (n : nat) : MultiTenantRateLimiter :=
  Nat.iter n (λ l, (check l ip (js "a") 0).1) (newMultiTenantRateLimiter (λ _, None)).

Lemma newMultiTenantRateLimiter_ok : limiter_ok (newMultiTenantRateLimiter (λ _, None)).
Proof. split_and!; [apply default_cfg_ok|apply map_empty_wf|done]. Qed.

Lemma after_requests_ok n : limiter_ok (after_requests n).
Proof.
  induction n as [|n IH]; [apply newMultiTenantRateLimiter_ok|]. by apply check_preserves.
Qed.

Theorem retry_after_sound_witness :
  let l := after_requests 20 in
  d_allowed (check l ip (js "a") 0).2 = false ∧
  d_retryAfterSeconds (check l ip (js "a") 0).2 = Some 1 ∧
  d_allowed (check (check l ip (js "a") 0).1 ip (js "a") 1000).2 = true.
Proof.
  assert (d_allowed (check (after_requests 20) ip (js "a") 0).2 = false) as E
    by (vm_compute; reflexivity).
  assert (1 <= rate (configs (after_requests 20) ip))%Q as Hr by (vm_compute; discriminate).
  pose proof (retry_after_sound (after_requests 20) ip (js "a") 0 1000 (after_requests_ok 20) Hr) as H.
  cbv zeta. destruct (check (after_requests 20) ip (js "a") 0) as [l1 d1]. cbn [fst snd] in *.
  split; [exact E|]. destruct (H E) as [H1 H2]. split; [exact H1|apply H2]. lia.
Defined.

(** ** The two limiters make the same decisions *)

(** The bucket of [TokenBucketLimiter] that a gateway bucket stands for. *)
Definition abs_bucket (b : RateLimitBucketState) : TokenBucketState :=
  {| tokens := g_tokens b; lastReplenishedAt := lastRefillTime b |}.

(** The gateway limiter [g] under the default tiers simulates [p]. *)
Definition simulates (g : MultiTenantRateLimiter) (p : TokenBucketLimiter) : Prop :=
  buckets p = on_values abs_bucket (g_buckets g) ∧
  configs g = DEFAULT_RATE_LIMITS ∧ limiter_ok g ∧
  Forall (λ e, lastAccessTime e.2 = lastRefillTime e.2) (g_buckets g).

(** What both report of a request. *)
Definition decision_of (d : RateLimitDecision) : RateLimitResult :=
  {| allowed := d_allowed d; remaining := d_remaining d;
     retryAfterSeconds := d_retryAfterSeconds d |}.

(** Calls that both limiters have: checks and prunings. *)
Inductive pop := PConsume (s : RateLimitScope) (key : jstr) | PPrune (maxIdleMs : Z).

Definition policy_step (p : TokenBucketLimiter) (now : Z) (op : pop)
    : TokenBucketLimiter * (RateLimitResult + Z) :=
  match op with
  | PConsume s key => let '(p', r) := consume p key s now in (p', inl r)
  | PPrune idle => let '(p', n) := policy_prune p idle now in (p', inr n)
  end.
Definition gateway_step (g : MultiTenantRateLimiter) (now : Z) (op : pop)
    : MultiTenantRateLimiter * (RateLimitResult + Z) :=
  match op with
  | PConsume s key => let '(g', d) := check g s key now in (g', inl (decision_of d))
  | PPrune idle => let '(g', n) := gateway_prune g idle now in (g', inr n)
  end.

Fixpoint run_calls {L} (step : L → Z → pop → L * (RateLimitResult + Z)) (l : L)
    (ops : list (Z * pop)) : list (RateLimitResult + Z) :=
  match ops with
  | [] => []
  | (now, op) :: ops => let '(l', r) := step l now op in r :: run_calls step l' ops
  end.

Lemma tiers_default s : RATE_LIMIT_TIERS s = DEFAULT_RATE_LIMITS s.
Proof. by destruct s. Qed.

Lemma floor_unit t : (0 <= t)%Q → (t < 1)%Q → Z.max 0 (Qfloor t) = 0.
Proof.
  intros H0 H1. rewrite (Qfloor_unique t 0); [done|..]; change (inject_Z 0) with 0%Q; lra.
Qed.

Lemma simulates_set g p k b :
  simulates g p → limiter_ok {| configs := configs g; g_buckets := map_set (g_buckets g) k b |} →
  lastAccessTime b = lastRefillTime b →
  simulates {| configs := configs g; g_buckets := map_set (g_buckets g) k b |}
    (set_bucket p k (abs_bucket b)).
Proof.
  intros (Hp & Hc & Hok & Hla) Hok' Hb. split_and!; [|done|done|].
  - cbn [set_bucket buckets g_buckets]. by rewrite Hp, map_set_on_values.
  - apply Forall_forall. intros [k' b'] [[-> ->]|Hin]%elem_map_set; [done|].
    by eapply Forall_forall in Hla.
Qed.

Lemma consume_simulation g p s key now :
  simulates g p →
  let '(p', r) := consume p key s now in
  let '(g', d) := check g s key now in
  simulates g' p' ∧ r = decision_of d.
Proof.
  intros Hsim. pose proof Hsim as (Hp & Hc & Hok & Hla).
  pose proof (check_preserves g s key now Hok) as Hok'.
  pose proof (balance_bounds g s key now Hok) as [H0 H1].
  unfold consume, check, decision_of in *.
  rewrite tiers_default, Hp, map_get_on_values. fold (balance g s key now).
  assert (match abs_bucket <$> map_get (g_buckets g) (bucketKey s key) with
          | Some b => refill (DEFAULT_RATE_LIMITS s) (tokens b) now (lastReplenishedAt b)
          | None => burst (DEFAULT_RATE_LIMITS s)
          end = balance g s key now) as ->.
  { unfold balance. rewrite Hc. by destruct (map_get _ _). }
  fold (balance g s key now) in Hok'. unfold TOKEN_COST_PER_REQUEST in *.
  set (t := balance g s key now) in *.
  destruct (Qle_bool 1 t) eqn:E.
  - split; [|done]. by apply (simulates_set g p _ {| g_tokens := _; lastRefillTime := _; lastAccessTime := _ |}).
  - split; [by apply (simulates_set g p _ {| g_tokens := _; lastRefillTime := _; lastAccessTime := _ |})|].
    apply Qle_bool_false in E. by rewrite floor_unit, Hc.
Qed.

Lemma filter_on_values (P : jstr * TokenBucketState → Prop) `{!∀ e, Decision (P e)}
    (m : jsmap jstr RateLimitBucketState) :
  filter P (on_values abs_bucket m) = on_values abs_bucket (filter (λ e, P (e.1, abs_bucket e.2)) m).
Proof.
  induction m as [|e m IH]; [done|]. unfold on_values in *.
  rewrite fmap_cons, !filter_cons, IH. by case_decide.
Qed.

Lemma limiter_ok_filter g (P : jstr * RateLimitBucketState → Prop) `{!∀ e, Decision (P e)} :
  limiter_ok g → limiter_ok {| configs := configs g; g_buckets := filter P (g_buckets g) |}.
Proof.
  intros (Hc & Hwf & Hb). split_and!; [done|by apply filter_map_wf|]. cbn. intros s k b.
  rewrite map_get_filter by done. destruct (map_get _ _) eqn:E; [|done].
  case_decide; [|done]. intros [= <-]. by eapply Hb.
Qed.

Lemma prune_simulation g p idle now :
  simulates g p →
  let '(p', n) := policy_prune p idle now in
  let '(g', m) := gateway_prune g idle now in
  simulates g' p' ∧ n = m.
Proof.
  intros (Hp & Hc & Hok & Hla). unfold policy_prune, gateway_prune.
  assert (∀ x, filter (λ e : jstr * RateLimitBucketState,
              (idle <? now - lastReplenishedAt (abs_bucket e.2)) = x) (g_buckets g) =
            filter (λ e, (idle <? now - lastAccessTime e.2) = x) (g_buckets g)) as Hf.
  { intros x. apply filter_ext_elem. eapply Forall_impl; [exact Hla|]. cbn. intros e ->. done. }
  pose proof Hok as (_ & Hwf & _).
  rewrite (prune_loop_spec _ (g_buckets g)) by done. rewrite Hp, prune_loop_spec.
  - rewrite !filter_on_values. cbn [fst snd]. rewrite !Hf. split.
    + split_and!; [done|done|by apply limiter_ok_filter|by apply Forall_filter_iff].
    + unfold on_values. by rewrite length_fmap.
  - unfold map_wf, map_keys, on_values. rewrite <-list_fmap_compose. exact Hwf.
Qed.

(** [TokenBucketLimiter] (the policy package) and [MultiTenantRateLimiter]
    (the gateway) with its default tiers are the same algorithm: over any trace
    of requests and prunings, from the fresh objects, each call returns the same
    admission, the same remaining count, the same [Retry-After] and the same
    number of pruned buckets. *)
Theorem limiters_equivalent ops :
  run_calls policy_step newTokenBucketLimiter ops =
  run_calls gateway_step (newMultiTenantRateLimiter (λ _, None)) ops.
Proof.
  assert (simulates (newMultiTenantRateLimiter (λ _, None)) newTokenBucketLimiter) as Hsim.
  { split_and!; [done|done|apply newMultiTenantRateLimiter_ok|constructor]. }
  revert Hsim. generalize (newMultiTenantRateLimiter (λ _, None)) as g, newTokenBucketLimiter as p.
  induction ops as [|[now op] ops IH]; intros g p Hsim; simpl; [done|].
  destruct op as [s key|idle]; simpl.
  - pose proof (consume_simulation g p s key now Hsim) as Hs.
    destruct (consume _ _ _ _) as [p' r], (check _ _ _ _) as [g' d].
    destruct Hs as [Hs ->]. by rewrite (IH g' p').
  - pose proof (prune_simulation g p idle now Hsim) as Hs.
    destruct (policy_prune _ _ _) as [p' n], (gateway_prune _ _ _) as [g' m].
    destruct Hs as [Hs ->]. by rewrite (IH g' p').
Qed.

(** ** Concurrency slots *)

Inductive cop := Acquire (fnKey : jstr) | Release (fnKey : jstr).

(** Runs acquisitions (with the limit [limit fnKey]) and releases; [held] is the
    number of granted and not yet returned slots of each key, as the callers
    see them.  A caller releases only a slot it holds. *)
Definition concurrency_step (limit : jstr → Z) (l : TokenBucketLimiter) (held : jstr → Z) (op : cop)
    : TokenBucketLimiter * (jstr → Z) :=
  match op with
  | Acquire k =>
      let '(l', r) := acquireConcurrency l k (limit k) in
      (l', if c_allowed r then λ k', if decide (k = k') then held k + 1 else held k' else held)
  | Release k =>
      (releaseConcurrency l k, λ k', if decide (k = k') then held k - 1 else held k')
  end.

(** The states that callers who release only what they hold can reach. *)
Inductive slots (limit : jstr → Z) : TokenBucketLimiter → (jstr → Z) → Prop :=
| slots_init l : concurrencyCounts l = [] → slots limit l (λ _, 0)
| slots_acquire l held k :
    slots limit l held →
    slots limit (concurrency_step limit l held (Acquire k)).1
                (concurrency_step limit l held (Acquire k)).2
| slots_release l held k :
    slots limit l held → 0 < held k →
    slots limit (concurrency_step limit l held (Release k)).1
                (concurrency_step limit l held (Release k)).2.

Lemma getOr_set m k k' v :
  getOr 0 (map_set m k v) k' = if decide (k = k') then v else getOr 0 m k'.
Proof. unfold getOr. rewrite map_get_set. by case_decide. Qed.

Lemma getOr_delete m k k' :
  getOr 0 (map_delete m k) k' = if decide (k = k') then 0 else getOr 0 m k'.
Proof.
  unfold getOr. case_decide; subst; [by rewrite map_get_delete_eq|by rewrite map_get_delete_ne].
Qed.

(** The concurrency counters of [TokenBucketLimiter] are exact: for callers
    that release only what they were granted, the counter of every function is
    the number of slots it holds, never negative and never above the limit, and
    a function that holds none occupies no map entry (no leak). *)
Theorem concurrency_exact limit l held :
  slots limit l held → (∀ k, 0 ≤ limit k) →
  ∀ k, getOr 0 (concurrencyCounts l) k = held k ∧ 0 ≤ held k ≤ limit k ∧
       (held k = 0 ↔ map_get (concurrencyCounts l) k = None).
Proof.
  intros Hs Hlim.
  assert (∀ k, getOr 0 (concurrencyCounts l) k = held k ∧ 0 ≤ held k ≤ limit k ∧
               map_get (concurrencyCounts l) k ≠ Some 0) as H.
  { induction Hs as [l He|l held k Hs IH|l held k Hs IH Hk]; intros k'.
    - rewrite He. cbn. specialize (Hlim k'). by split_and!.
    - pose proof (IH k') as (H1 & H2 & H3). pose proof (IH k) as (H4 & H5 & _). cbn.
      unfold acquireConcurrency. rewrite H4. destruct (Z.ltb_spec (held k) (limit k)); [|done]. cbn.
      rewrite getOr_set, map_get_set. destruct (decide (k = k')); [subst|done].
      split_and!; [done|lia..|]. intros [=]. lia.
    - pose proof (IH k') as (H1 & H2 & H3). pose proof (IH k) as (H4 & H5 & _). cbn.
      rewrite H4. destruct (Z.ltb_spec 1 (held k)).
      + rewrite getOr_set, map_get_set. destruct (decide (k = k')); [subst|done].
        split_and!; [done|lia..|]. intros [=]. lia.
      + rewrite getOr_delete. destruct (decide (k = k')); [subst|by rewrite map_get_delete_ne].
        rewrite map_get_delete_eq. split_and!; [lia..|done]. }
  intros k. destruct (H k) as (H1 & H2 & H3). split_and!; [done|lia..|].
  unfold getOr in H1. destruct (map_get _ _) as [v|]; split; intros Hz; simplify_eq; try done.
  congruence.
Qed.

Theorem concurrency_exact_witness :
  let run := fold_left (λ st op, concurrency_step (λ _, 2) st.1 st.2 op)
    [Acquire (js "f"); Acquire (js "f"); Acquire (js "f"); Release (js "f")]
    (newTokenBucketLimiter, λ _, 0) in
  run.2 (js "f") = 1 ∧ getOr 0 (concurrencyCounts run.1) (js "f") = 1 ∧
  map_get (concurrencyCounts run.1) (js "g") = None.
Proof.
  set (run := fold_left _ _ _). cbv zeta.
  assert (slots (λ _, 2) run.1 run.2) as Hs.
  { unfold run. cbn [fold_left].
    apply slots_release; [do 3 apply slots_acquire; by apply slots_init|vm_compute; reflexivity]. }
  assert (run.2 (js "f") = 1) as E by (vm_compute; reflexivity).
  pose proof (concurrency_exact (λ _, 2) run.1 run.2 Hs ltac:(lia)) as H.
  split; [exact E|]. split; [rewrite <-E; apply H|apply (H (js "g")); vm_compute; reflexivity].
Defined.
