(* ===== verification/Retry.v ===== *)
(** * Retries with decorrelated jitter ([packages/policy/retry.ts], Q-5) *)

From S2P Require Import Prelude JsString JsNumber.
From Stdlib Require Import QArith Lqa.

Open Scope Z_scope.

Definition DEFAULT_BASE_MS : Q := 100.
Definition DEFAULT_CAP_MS : Q := 20000.
Definition DEFAULT_MAX_ATTEMPTS : Z := 5.
Definition JITTER_MULTIPLIER : Q := 3.
Definition IDEMPOTENCY_KEY_HEADER : jstr := js "idempotency-key".

(** [RetryPolicyOptions] after the defaults.  [randomUniform n] is the random
    number generator as the [n]-th attempt finds it; [shouldRetry] is absent or a
    predicate of the error and the attempt. *)
Record RetryPolicyOptions (E : Type) := {
  baseMs : Q;
  capMs : Q;
  maxAttempts : Z;
  randomUniform : Z → Q → Q → Q;
  shouldRetry : option (E → Z → bool)
}.
Arguments baseMs {E}.
Arguments capMs {E}.
Arguments maxAttempts {E}.
Arguments randomUniform {E}.
Arguments shouldRetry {E}.

Record RetryState := { attempt : Z; lastSleepMs : Q }.

(** [Math.random() * (max - min) + min], [u] being [Math.random()] *)
Definition defaultRandomUniform (u min max : Q) : Q := fadd (fmul u (fsub max min)) min.

(** [calculateNextSleep(state, options)] *)
Definition calculateNextSleep {E} (state : RetryState) (options : RetryPolicyOptions E) : Q :=
  if attempt state =? 0 then baseMs options
  else
    let upperRange := qmax (baseMs options) (fmul (lastSleepMs state) JITTER_MULTIPLIER) in
    let jitteredSleep := randomUniform options (attempt state) (baseMs options) upperRange in
    qmin (capMs options) jitteredSleep.

(** The request headers: a [Headers] object, of which the code uses [get], or
    the entries of a plain record. *)
Inductive request_headers :=
| NoHeaders
| HeadersObject (get : jstr → option jstr)
| HeadersRecord (entries : list (jstr * jstr)).

Fixpoint find_idempotency_key (entries : list (jstr * jstr)) : bool :=
  match entries with
  | [] => false
  | (k, value) :: entries =>
      if jstr_eqb (to_lower k) IDEMPOTENCY_KEY_HEADER
      then bool_decide (trim value ≠ [])
      else find_idempotency_key entries
  end.

Definition hasValidIdempotencyKey (headers : request_headers) : bool :=
  match headers with
  | NoHeaders => false
  | HeadersObject get =>
      match get IDEMPOTENCY_KEY_HEADER with
      | Some value => bool_decide (trim value ≠ [])
      | None => false
      end
  | HeadersRecord entries => find_idempotency_key entries
  end.

Definition isIdempotentRetryAllowed (method : jstr) (headers : request_headers) : bool :=
  let normalizedMethod := to_upper (trim method) in
  if jstr_eqb normalizedMethod (js "GET") || jstr_eqb normalizedMethod (js "HEAD") then true
  else hasValidIdempotencyKey headers.

(** [withRetry(operation, options)]: the loop from [attempt]; [operation n] is
    what the [n]-th attempt gives.  Returns the outcome and the delays slept,
    [None] when the fuel is spent. *)
Fixpoint withRetry_loop {E A} (fuel : nat) (operation : Z → result E A)
    (options : RetryPolicyOptions E) (attempt : Z) (lastSleepMs : Q) : option (result E A * list Q) :=
  match fuel with
  | O => None
  | S fuel =>
      match operation attempt with
      | Ok a => Some (Ok a, [])
      | Err error =>
          if match shouldRetry options with Some f => negb (f error attempt) | None => false end
          then Some (Err error, [])
          else if maxAttempts options <=? attempt + 1 then Some (Err error, [])
          else
            let sleepMs :=
              calculateNextSleep {| attempt := attempt; lastSleepMs := lastSleepMs |} options in
            match withRetry_loop fuel operation options (attempt + 1) sleepMs with
            | Some (r, sleeps) => Some (r, sleepMs :: sleeps)
            | None => None
            end
      end
  end.

Definition withRetry {E A} (fuel : nat) (operation : Z → result E A)
    (options : RetryPolicyOptions E) : option (result E A * list Q) :=
  withRetry_loop fuel operation options 0 0.

(** ** Facts *)

(** The generator stays in the range it is given. *)
Definition uniform_ok {E} (options : RetryPolicyOptions E) : Prop :=
  ∀ n lo hi, (lo <= hi)%Q →
    (lo <= randomUniform options n lo hi /\ randomUniform options n lo hi <= hi)%Q.

Lemma next_sleep_bounds {E} (options : RetryPolicyOptions E) st :
  uniform_ok options → (baseMs options <= capMs options)%Q →
  (baseMs options <= calculateNextSleep st options /\
   calculateNextSleep st options <= capMs options)%Q.
Proof.
  intros Hu Hb. unfold calculateNextSleep. destruct (attempt st =? 0); [split; [lra|done]|].
  set (up := qmax _ _). destruct (Hu (attempt st) (baseMs options) up) as [H1 H2]; [apply qmax_ge_l|].
  split; [by apply qmin_glb|apply qmin_le_l].
Qed.

(** Does the loop go on after the failure [e] of attempt [n]? *)
Definition goes_on {E} (options : RetryPolicyOptions E) (e : E) (n : Z) : bool :=
  match shouldRetry options with Some f => f e n | None => true end &&
  (n + 1 <? maxAttempts options).

Lemma withRetry_loop_spec {E A} fuel (operation : Z → result E A) options n last :
  uniform_ok options → (baseMs options <= capMs options)%Q →
  Z.max 1 (maxAttempts options - n) ≤ Z.of_nat fuel →
  ∃ k r sleeps,
    withRetry_loop fuel operation options n last = Some (r, sleeps) ∧
    0 ≤ k < Z.max 1 (maxAttempts options - n) ∧
    r = operation (n + k) ∧ Z.of_nat (length sleeps) = k ∧
    (∀ i, 0 ≤ i < k → ∃ e, operation (n + i) = Err e ∧ goes_on options e (n + i) = true) ∧
    (∀ e, r = Err e → goes_on options e (n + k) = false) ∧
    Forall (λ s, baseMs options <= s /\ s <= capMs options)%Q sleeps.
Proof.
  intros Hu Hb. revert n last. induction fuel as [|fuel IH]; intros n last Hfuel; [lia|].
  cbn [withRetry_loop]. destruct (operation n) as [a|e] eqn:Eo.
  { exists 0, (Ok a), []. rewrite Z.add_0_r. split_and!; try done; try (intros; lia); constructor. }
  assert (∀ b, goes_on options e n = false → b = true →
    ∃ k r sleeps, (if b then Some (@Err E A e, @nil Q) else None) = Some (r, sleeps) ∧
    0 ≤ k < Z.max 1 (maxAttempts options - n) ∧
    r = operation (n + k) ∧ Z.of_nat (length sleeps) = k ∧
    (∀ i, 0 ≤ i < k → ∃ e, operation (n + i) = Err e ∧ goes_on options e (n + i) = true) ∧
    (∀ e, r = Err e → goes_on options e (n + k) = false) ∧
    Forall (λ s, baseMs options <= s /\ s <= capMs options)%Q sleeps) as Hstop.
  { intros b Hg ->. exists 0, (Err e), []. rewrite Z.add_0_r, Eo.
    split_and!; try done; try (intros; lia). by intros e' [= <-]. }
  destruct (match shouldRetry options with Some f => negb (f e n) | None => false end) eqn:Es.
  { apply (Hstop true); [|done]. unfold goes_on. destruct (shouldRetry options); [|done].
    by rewrite negb_true_iff in Es; rewrite Es. }
  destruct (maxAttempts options <=? n + 1) eqn:Em.
  { apply (Hstop true); [|done]. unfold goes_on. zbool. rewrite (proj2 (Z.ltb_ge _ _)) by lia.
    apply andb_false_r. }
  zbool. set (s := calculateNextSleep _ options).
  assert (goes_on options e n = true) as Hg.
  { unfold goes_on. rewrite (proj2 (Z.ltb_lt _ _)), andb_true_r by lia.
    destruct (shouldRetry options); [by rewrite negb_false_iff in Es|done]. }
  destruct (IH (n + 1) s ltac:(lia)) as (k & r & sleeps & Hw & Hk & Hr & Hlen & Hi & He & Hs).
  exists (k + 1), r, (s :: sleeps). rewrite Hw.
  replace (n + (k + 1)) with (n + 1 + k) by lia.
  split_and!; try done; try lia; [cbn [length]; lia| |].
  - intros i Hik. destruct (decide (i = 0)) as [->|].
    + rewrite Z.add_0_r. eauto.
    + destruct (Hi (i - 1) ltac:(lia)) as (e' & H1 & H2). exists e'.
      by replace (n + 1 + (i - 1)) with (n + i) in * by lia.
  - constructor; [by apply next_sleep_bounds|done].
Qed.

(** [withRetry] always ends, after at most [maxAttempts] attempts (one, if
    [maxAttempts] is not positive): it returns the outcome of the first attempt
    [k] that succeeds, whose error [shouldRetry] rejects, or that is the last
    allowed one; exactly the [k] attempts before it failed with a retryable
    error, and each was followed by one delay between [baseMs] and [capMs]. *)
Theorem withRetry_spec {E A} (operation : Z → result E A) options :
  uniform_ok options → (baseMs options <= capMs options)%Q →
  ∃ k r sleeps,
    withRetry (Z.to_nat (Z.max 1 (maxAttempts options))) operation options = Some (r, sleeps) ∧
    0 ≤ k < Z.max 1 (maxAttempts options) ∧
    r = operation k ∧ Z.of_nat (length sleeps) = k ∧
    (∀ i, 0 ≤ i < k → ∃ e, operation i = Err e ∧ goes_on options e i = true) ∧
    (∀ e, r = Err e → goes_on options e k = false) ∧
    Forall (λ s, baseMs options <= s /\ s <= capMs options)%Q sleeps.
Proof.
  intros Hu Hb. unfold withRetry.
  destruct (withRetry_loop_spec (Z.to_nat (Z.max 1 (maxAttempts options))) operation options 0 0 Hu Hb)
    as (k & r & sleeps & H1 & H2 & H3 & H4 & H5 & H6 & H7); [lia|].
  rewrite Z.sub_0_r in H2. exists k, r, sleeps. repeat (split; [assumption|]). exact H7.
Qed.

(** Three attempts of which the last succeeds; the generator picks the upper
    end. *)
Definition demo_retry : RetryPolicyOptions unit :=
  {| baseMs := 100; capMs := 20000; maxAttempts := 5; randomUniform := λ _ _ hi, hi;
     shouldRetry := None |}.

Theorem withRetry_spec_witness :
  withRetry 5 (λ n, if n <? 2 then Err tt else Ok n) demo_retry = Some (Ok 2, [100; 300]%Q) ∧
  ∃ k r sleeps, withRetry 5 (λ n, if n <? 2 then Err tt else Ok n) demo_retry = Some (r, sleeps) ∧
    r = (if k <? 2 then Err tt else Ok k) ∧
    Forall (λ s, 100 <= s /\ s <= 20000)%Q sleeps.
Proof.
  split; [vm_compute; reflexivity|].
  destruct (withRetry_spec (λ n, if n <? 2 then Err tt else Ok n) demo_retry)
    as (k & r & sleeps & H1 & _ & H3 & _ & _ & _ & H7).
  - intros n lo hi H. split; [exact H|apply Qle_refl].
  - vm_compute. discriminate.
  - exists k, r, sleeps. split; [exact H1|]. split; [exact H3|exact H7].
Defined.
