(* ===== verification/KvInterface.v ===== *)
(** * The key-value store interface ([primitives/kv/kv-provider.ts])

    [KvStore] is the [KVProvider] interface as far as its clients use it; the
    class [KvLaws] states what a provider promises them: optimistic concurrency
    control over versioned entries.  The circuit breaker and the tenant guard
    are verified against it, the SQLite provider ([SqliteKv]) discharges it. *)

From S2P Require Import Prelude JsString JsMap Errors.

Open Scope Z_scope.

Definition key : Type := list jstr.

#[export] Instance key_eq_dec : EqDecision key := _.

(** [{ ok: boolean; version?: number }] *)
Record CommitResult := { cr_ok : bool; cr_version : option Z }.

(** [check(key, expectedVersion)] *)
Record kv_check := { ck_key : key; ck_expectedVersion : Z }.

(** [set(key, value)] and [delete(key)] of the atomic builder. *)
Inductive kv_mutation (V : Type) :=
| MSet (k : key) (v : V)
| MDelete (k : key).
Arguments MSet {V} k v.
Arguments MDelete {V} k.

Definition mutation_key {V} (m : kv_mutation V) : key :=
  match m with MSet k _ => k | MDelete k => k end.

(** A page of [list(prefix, { limit, cursor })] *)
Record ListPage (V : Type) := { page_keys : list (key * V); page_cursor : option jstr }.
Arguments Build_ListPage {V}.
Arguments page_keys {V}.
Arguments page_cursor {V}.

(** The provider's operations; [S] is the provider's state, [None] is [null]. *)
Class KvStore (S V : Type) := {
  kv_get : key → stm S exn (option V);
  kv_set : key → V → option Z → stm S exn unit;
  kv_delete : key → stm S exn unit;
  kv_commit : list kv_check → list (kv_mutation V) → stm S exn CommitResult
}.

Class KvLister (S V : Type) := {
  kv_list : key → option Z → option jstr → stm S exn (ListPage V)
}.

(** ** The abstract store

    What a client may rely on: a partial map from keys to a value and its
    version; the version of an absent key is 0. *)
Section abstract_store.
Context {V : Type}.
Implicit Types (m : key → option (V * Z)).

Definition version_of (e : option (V * Z)) : Z := match e with Some (_, n) => n | None => 0 end.

(** One mutation: a set increments the key's version. *)
Definition apply_mutation m (mu : kv_mutation V) : key → option (V * Z) :=
  match mu with
  | MSet k v => λ k', if decide (k' = k) then Some (v, version_of (m k) + 1) else m k'
  | MDelete k => λ k', if decide (k' = k) then None else m k'
  end.

Definition apply_mutations m (mus : list (kv_mutation V)) : key → option (V * Z) :=
  fold_left apply_mutation mus m.

(** The highest version a set of the transaction produced, 0 if it has none. *)
Fixpoint highest_version m (mus : list (kv_mutation V)) (h : Z) : Z :=
  match mus with
  | [] => h
  | mu :: mus =>
      let m' := apply_mutation m mu in
      highest_version m' mus
        match mu with MSet k _ => Z.max h (version_of (m' k)) | MDelete _ => h end
  end.

Definition checks_hold m (cs : list kv_check) : bool :=
  forallb (λ c, version_of (m (ck_key c)) =? ck_expectedVersion c) cs.

Lemma apply_mutations_other m mus k :
  k ∉ mutation_key <$> mus → apply_mutations m mus k = m k.
Proof.
  unfold apply_mutations. revert m. induction mus as [|mu mus IH]; intros m Hk; [done|].
  cbn [fold_left fmap list_fmap] in *. rewrite IH by set_solver.
  destruct mu; cbn in *; by rewrite decide_False by set_solver.
Qed.

Lemma apply_mutation_ext m1 m2 mu : (∀ k, m1 k = m2 k) → ∀ k, apply_mutation m1 mu k = apply_mutation m2 mu k.
Proof. intros H k. destruct mu; cbn; case_decide; rewrite ?H; done. Qed.

Lemma highest_version_ext (m1 m2 : key → option (V * Z)) mus h :
  (∀ k, k ∈ mutation_key <$> mus → m1 k = m2 k) →
  highest_version m1 mus h = highest_version m2 mus h.
Proof.
  revert m1 m2 h. induction mus as [|mu mus IH]; intros m1 m2 h H; [done|].
  cbn [fmap list_fmap] in H. cbn. assert (m1 (mutation_key mu) = m2 (mutation_key mu)) as He
    by (apply H; left). destruct mu as [k v|k]; cbn in *.
  - rewrite !decide_True by done. cbn. rewrite He. apply IH. intros k' Hk'.
    case_decide; [done|]. apply H. by right.
  - apply IH. intros k' Hk'. case_decide; [done|]. apply H. by right.
Qed.

Lemma apply_mutations_ext m1 m2 mus : (∀ k, m1 k = m2 k) → ∀ k, apply_mutations m1 mus k = apply_mutations m2 mus k.
Proof.
  unfold apply_mutations. revert m1 m2. induction mus as [|mu mus IH]; intros m1 m2 E k; [apply E|].
  cbn. apply IH. by apply apply_mutation_ext.
Qed.

Lemma checks_hold_ext m1 m2 cs : (∀ k, m1 k = m2 k) → checks_hold m1 cs = checks_hold m2 cs.
Proof. intros E. unfold checks_hold. induction cs as [|c cs IH]; [done|]. cbn. by rewrite E, IH. Qed.

(** *** Calls of the interface, one after the other *)

Inductive kv_call :=
| CGet (k : key)
| CSet (k : key) (v : V)
| CDelete (k : key)
| CCommit (cs : list kv_check) (mus : list (kv_mutation V)).

Inductive kv_reply := RValue (v : option V) | RDone | RCommit (r : CommitResult).

(** The specification: a map from keys to values with a version counter. *)
Definition spec_call (m : key → option (V * Z)) (c : kv_call) : (key → option (V * Z)) * kv_reply :=
  match c with
  | CGet k => (m, RValue (fst <$> m k))
  | CSet k v => (apply_mutation m (MSet k v), RDone)
  | CDelete k => (apply_mutation m (MDelete k), RDone)
  | CCommit cs mus =>
      if checks_hold m cs then
        let h := highest_version m mus 0 in
        (apply_mutations m mus,
         RCommit {| cr_ok := true; cr_version := if 0 <? h then Some h else None |})
      else (m, RCommit {| cr_ok := false; cr_version := None |})
  end.

Fixpoint run_spec m (cs : list (Z * kv_call)) : list (result exn kv_reply) :=
  match cs with
  | [] => []
  | (_, c) :: cs => let '(m, r) := spec_call m c in Ok r :: run_spec m cs
  end.

Lemma spec_call_ext m1 m2 c : (∀ k, m1 k = m2 k) →
  (spec_call m1 c).2 = (spec_call m2 c).2 ∧ ∀ k, (spec_call m1 c).1 k = (spec_call m2 c).1 k.
Proof.
  intros E. destruct c as [k|k v|k|cs mus]; cbn [spec_call fst snd].
  - by rewrite E.
  - split; [done|]. by apply apply_mutation_ext.
  - split; [done|]. by apply apply_mutation_ext.
  - rewrite (checks_hold_ext m1 m2) by done. destruct (checks_hold m2 cs); [|done]. cbn [fst snd].
    rewrite (highest_version_ext m1 m2) by auto. split; [done|]. by apply apply_mutations_ext.
Qed.

Lemma run_spec_ext m1 m2 cs : (∀ k, m1 k = m2 k) → run_spec m1 cs = run_spec m2 cs.
Proof.
  revert m1 m2. induction cs as [|[t c] cs IH]; intros m1 m2 E; [done|]. cbn.
  destruct (spec_call_ext m1 m2 c E) as [Hr Hm].
  destruct (spec_call m1 c), (spec_call m2 c). cbn in Hr, Hm. subst. by rewrite (IH _ _ Hm).
Qed.
(** *** Times to live

    A [set] with a time to live gives the key an expiry time.  An expired entry
    reads as absent, but its version goes on: it starts again at 1 only when the
    entry has been removed, by a [get] or a commit that came across it. *)

Inductive timed_call := Plain (c : kv_call) | SetTtl (k : key) (v : V) (ttl : Z).

Record cell := { c_value : V; c_version : Z; c_expires : option Z }.
Implicit Types (tm : key → option cell).

Definition dead (now : Z) (c : cell) : bool :=
  match c_expires c with Some t => t <=? now | None => false end.
(** What can be read at a time *)
Definition live (now : Z) tm : key → option (V * Z) := λ k,
  match tm k with Some c => if dead now c then None else Some (c_value c, c_version c) | None => None end.
Definition put tm k v (e : option Z) : key → option cell := λ k',
  if decide (k' = k)
  then Some {| c_value := v; c_version := match tm k with Some c => c_version c + 1 | None => 1 end;
               c_expires := e |}
  else tm k'.
Definition drop_key tm k : key → option cell := λ k', if decide (k' = k) then None else tm k'.
(** The entries that have not expired *)
Definition purge (now : Z) tm : key → option cell := λ k,
  match tm k with Some c => if dead now c then None else Some c | None => None end.
Definition put_mutation tm (mu : kv_mutation V) : key → option cell :=
  match mu with MSet k v => put tm k v None | MDelete k => drop_key tm k end.
Definition put_mutations tm (mus : list (kv_mutation V)) : key → option cell := fold_left put_mutation mus tm.

(** A call at a time *)
Definition timed_step (now : Z) tm (c : timed_call) : (key → option cell) * kv_reply :=
  match c with
  | Plain (CGet k) =>
      (match tm k with Some c => if dead now c then drop_key tm k else tm | None => tm end,
       RValue (fst <$> live now tm k))
  | Plain (CSet k v) => (put tm k v None, RDone)
  | SetTtl k v ttl => (put tm k v (Some (now + ttl * 1000)), RDone)
  | Plain (CDelete k) => (drop_key tm k, RDone)
  | Plain (CCommit cs mus) =>
      if checks_hold (live now tm) cs then
        let h := highest_version (live now tm) mus 0 in
        (put_mutations (purge now tm) mus,
         RCommit {| cr_ok := true; cr_version := if 0 <? h then Some h else None |})
      else (tm, RCommit {| cr_ok := false; cr_version := None |})
  end.

Fixpoint run_timed tm (cs : list (Z * timed_call)) : list (result exn kv_reply) :=
  match cs with
  | [] => []
  | (now, c) :: cs => let '(tm, r) := timed_step now tm c in Ok r :: run_timed tm cs
  end.

(** Entries without an expiry time *)
Definition everlasting tm : Prop := ∀ k c, tm k = Some c → c_expires c = None.

Lemma live_everlasting now tm k :
  (∀ c, tm k = Some c → c_expires c = None) → live now tm k = (λ c, (c_value c, c_version c)) <$> tm k.
Proof.
  intros He. unfold live, dead. destruct (tm k) as [c|] eqn:E; [|done]. by rewrite (He c).
Qed.

Lemma live_purge now tm k : live now (purge now tm) k = live now tm k.
Proof. unfold live, purge. destruct (tm k) as [c|]; [|done]. by destruct (dead now c) eqn:E; rewrite ?E. Qed.

Lemma purged_live now tm k c : purge now tm k = Some c → dead now c = false.
Proof. unfold purge. destruct (tm k) as [c'|]; [|done]. destruct (dead now c') eqn:E; [done|]. by intros [= <-]. Qed.

(** A mutation of entries that are all live is a mutation of the versioned map. *)
Lemma live_put_mutation now tm mu :
  (∀ k c, tm k = Some c → dead now c = false) →
  (∀ k, live now (put_mutation tm mu) k = apply_mutation (live now tm) mu k) ∧
  ∀ k c, put_mutation tm mu k = Some c → dead now c = false.
Proof.
  intros Hl. destruct mu as [k0 v|k0]; cbn; unfold put, drop_key; split; intros k.
  - unfold live at 1. case_decide as Hk; [|done]. cbn. unfold live.
    destruct (tm k0) as [c|] eqn:E; [|done]. by rewrite (Hl k0 c E).
  - intros c. case_decide; [by intros [= <-]|apply Hl].
  - unfold live at 1. by case_decide.
  - intros c. case_decide; [done|apply Hl].
Qed.

Lemma live_put_mutations now tm mus :
  (∀ k c, tm k = Some c → dead now c = false) →
  ∀ k, live now (put_mutations tm mus) k = apply_mutations (live now tm) mus k.
Proof.
  unfold put_mutations, apply_mutations.
  revert tm. induction mus as [|mu mus IH]; intros tm Hl k; [done|]. cbn [fold_left].
  destruct (live_put_mutation now tm mu Hl) as [Hm Hl']. rewrite IH by done. by apply (apply_mutations_ext _ _ mus).
Qed.

Lemma put_mutations_other tm mus k :
  Forall (λ mu, k ≠ mutation_key mu) mus → put_mutations tm mus k = tm k.
Proof.
  unfold put_mutations. intros Hmus. revert tm. induction Hmus as [|mu mus Hk _ IH]; intros tm; [done|].
  cbn. rewrite IH. destruct mu; cbn in *; unfold put, drop_key; by rewrite decide_False.
Qed.

Lemma everlasting_put_mutations tm mus : everlasting tm → everlasting (put_mutations tm mus).
Proof.
  unfold put_mutations. revert tm. induction mus as [|mu mus IH]; intros tm Ht; [done|]. cbn. apply IH.
  intros k c. destruct mu; cbn; unfold put, drop_key; case_decide; try done; [by intros [= <-]|apply Ht..].
Qed.

(** Without times to live it is the versioned map. *)
Lemma timed_plain now tm c m :
  everlasting tm → (∀ k, live now tm k = m k) →
  (timed_step now tm (Plain c)).2 = (spec_call m c).2 ∧
  everlasting (timed_step now tm (Plain c)).1 ∧
  ∀ k now', live now' (timed_step now tm (Plain c)).1 k = (spec_call m c).1 k.
Proof.
  intros He Hm.
  assert (∀ tm', everlasting tm' → ∀ k now', live now' tm' k = live now tm' k) as Hnow
    by (intros tm' He' k now'; by rewrite !live_everlasting by apply He').
  assert (∀ k c, tm k = Some c → dead now c = false) as Hl
    by (intros k c' Hc; unfold dead; by rewrite (He k c' Hc)).
  destruct c as [k|k v|k|cs mus]; cbn [timed_step spec_call fst snd].
  - rewrite Hm. destruct (tm k) as [c|] eqn:E; [rewrite (Hl k c E)|];
      (split_and!; [done..|]; intros k' now'; by rewrite Hnow).
  - destruct (live_put_mutation now tm (MSet k v) Hl) as [Hp _]. cbn [put_mutation] in Hp.
    assert (everlasting (put tm k v None)) as He'
      by (intros k' c; unfold put; case_decide; [by intros [= <-]|apply He]).
    split_and!; [done..|]. intros k' now'. rewrite Hnow, Hp by done. by apply apply_mutation_ext.
  - destruct (live_put_mutation now tm (MDelete k) Hl) as [Hp _]. cbn [put_mutation] in Hp.
    assert (everlasting (drop_key tm k)) as He' by (intros k' c; unfold drop_key; case_decide; [done|apply He]).
    split_and!; [done..|]. intros k' now'. rewrite Hnow, Hp by done. by apply apply_mutation_ext.
  - rewrite (checks_hold_ext _ m) by done. destruct (checks_hold m cs); cbn [fst snd];
      [|split_and!; [done..|]; intros k now'; by rewrite Hnow].
    rewrite (highest_version_ext _ m) by auto.
    assert (everlasting (purge now tm)) as Hp.
    { intros k c. unfold purge. destruct (tm k) as [c'|] eqn:E; [|done]. rewrite (Hl k c' E).
      intros [= <-]. by eapply He. }
    split_and!; [done|by apply everlasting_put_mutations|]. intros k now'.
    rewrite Hnow by (by apply everlasting_put_mutations). rewrite live_put_mutations by apply purged_live.
    apply apply_mutations_ext. intros k'. by rewrite live_purge.
Qed.

Lemma run_timed_plain cs tm m :
  everlasting tm → (∀ k now, live now tm k = m k) →
  run_timed tm ((λ c, (c.1, Plain c.2)) <$> cs) = run_spec m cs.
Proof.
  revert tm m. induction cs as [|[now c] cs IH]; intros tm m He Hm; [done|].
  cbn [fmap list_fmap run_timed run_spec fst snd].
  destruct (timed_plain now tm c m He) as (Hr & He' & Hm'); [auto|].
  destruct (timed_step now tm (Plain c)) as [tm' r], (spec_call m c) as [m' r']. cbn [fst snd] in *.
  subst r'. f_equal. apply IH; [done|]. intros k now'. apply Hm'.
Qed.
End abstract_store.
Arguments kv_call : clear implicits.
Arguments kv_reply : clear implicits.
Arguments timed_call : clear implicits.
Arguments cell : clear implicits.

(** ** The promise *)
Class KvLaws (S V : Type) `{KvStore S V} := {
  (** the provider's own invariant *)
  kv_inv : S → Prop;
  (** the live entry of a key *)
  kv_entry : S → key → option (V * Z);
  (** the keys that are lists of JavaScript strings *)
  kv_wf : key → Prop;
  (** the keys the provider accepts *)
  kv_valid : key → Prop;
  kv_valid_wf k : kv_valid k → kv_wf k;
  kv_version_pos s k v n : kv_inv s → kv_entry s k = Some (v, n) → 1 ≤ n;
  kv_get_spec s k :
    kv_inv s → kv_valid k →
    ∃ s', kv_get k s = (s', Ok (fst <$> kv_entry s k)) ∧ kv_inv s' ∧
          ∀ k', kv_valid k' → kv_entry s' k' = kv_entry s k';
  kv_commit_spec s cs mus :
    kv_inv s →
    Forall (λ c, kv_valid (ck_key c)) cs → Forall (λ mu, kv_valid (mutation_key mu)) mus →
    ∃ s', kv_inv s' ∧
      if checks_hold (kv_entry s) cs then
        let h := highest_version (kv_entry s) mus 0 in
        kv_commit cs mus s =
          (s', Ok {| cr_ok := true; cr_version := if 0 <? h then Some h else None |}) ∧
        ∀ k', kv_valid k' → kv_entry s' k' = apply_mutations (kv_entry s) mus k'
      else
        kv_commit cs mus s = (s', Ok {| cr_ok := false; cr_version := None |}) ∧
        ∀ k', kv_valid k' → kv_entry s' k' = kv_entry s k';
  (** an operation, successful or not, leaves every other key alone *)
  kv_frame s k' :
    kv_inv s → kv_wf k' →
    (∀ k, kv_wf k → kv_inv (kv_get k s).1 ∧ kv_entry (kv_get k s).1 k' = kv_entry s k') ∧
    (∀ k v ttl, kv_wf k → k' ≠ k →
       kv_inv (kv_set k v ttl s).1 ∧ kv_entry (kv_set k v ttl s).1 k' = kv_entry s k') ∧
    (∀ k, kv_wf k → k' ≠ k →
       kv_inv (kv_delete k s).1 ∧ kv_entry (kv_delete k s).1 k' = kv_entry s k') ∧
    (∀ cs mus, Forall (λ mu, kv_wf (mutation_key mu) ∧ k' ≠ mutation_key mu) mus →
       kv_inv (kv_commit cs mus s).1 ∧ kv_entry (kv_commit cs mus s).1 k' = kv_entry s k')
}.

(** A [set] of an accepted key, with a positive time to live if any, succeeds and
    is visible at once. *)
Class KvSetLaws (S V : Type) `{KvLaws S V} := {
  kv_set_inv s k v ttl : kv_inv s → kv_wf k → kv_inv (kv_set k v ttl s).1;
  kv_set_spec s k v ttl :
    kv_inv s → kv_valid k → (∀ t, ttl = Some t → 0 < t) →
    ∃ s' n, kv_set k v ttl s = (s', Ok tt) ∧ kv_inv s' ∧ kv_entry s' k = Some (v, n)
}.

(** Pages: [kv_listing s prefix] is the sequence that [list] walks through, and a
    cursor stands for a position in it.  Every entry of the sequence is live, and
    every live entry below the prefix occurs; entries elsewhere may occur (see
    [SqliteKv.sqlite_list_leaks]). *)
Class KvListLaws (S V : Type) `{KvLaws S V, !KvLister S V} := {
  kv_list_inv : S → Prop;
  kv_listing : S → key → list (key * V);
  kv_at : S → key → option jstr → nat → Prop;
  kv_at_start s prefix : kv_at s prefix None 0;
  kv_list_spec s prefix limit cursor n :
    kv_list_inv s → kv_valid prefix → 0 < limit ≤ 1000 → kv_at s prefix cursor n →
    ∃ c, kv_list prefix (Some limit) cursor s =
           (s, Ok {| page_keys := take (Z.to_nat limit) (drop n (kv_listing s prefix));
                     page_cursor := c |}) ∧
         match c with
         | None => (length (kv_listing s prefix) <= n + Z.to_nat limit)%nat
         | Some _ => (n + Z.to_nat limit < length (kv_listing s prefix))%nat ∧
                     kv_at s prefix c (n + Z.to_nat limit)
         end;
  kv_listing_NoDup s prefix : kv_list_inv s → NoDup (kv_listing s prefix).*1;
  kv_listing_sound s prefix k v :
    kv_list_inv s → kv_valid prefix → (k, v) ∈ kv_listing s prefix →
    kv_wf k ∧ ∃ n, kv_entry s k = Some (v, n);
  kv_listing_complete s prefix rest v n :
    kv_list_inv s → kv_valid prefix → kv_wf (prefix ++ rest) →
    kv_entry s (prefix ++ rest) = Some (v, n) → (prefix ++ rest, v) ∈ kv_listing s prefix
}.
