(* ===== verification/SqliteKv.v ===== *)
(** * The SQLite key-value provider ([providers/kv/sqlite-provider.ts])

    The table [kv_entries] is a finite map from [key_path], its primary key, to
    the other columns; a statement is the table transformation its SQL text
    describes.  [value_json] holds the JSON value itself: [JSON.parse] after
    [JSON.stringify] is the identity on JSON values.  [Date.now()] is the clock
    of the state. *)

From S2P Require Import Prelude JsString JsMap Errors Utf8 KvInterface.
From stdpp Require Import sorting.

Open Scope Z_scope.
Open Scope railfog_scope.

(** ** Keys *)

Definition MAX_SEGMENTS : nat := 32.
Definition MAX_KEY_BYTES : Z := 512.

(** [validateKey(key)] *)
Definition validateKey (k : key) : result exn unit :=
  throw_if (MAX_SEGMENTS <? length k)%nat ValidationFailedError ≫= λ _,
  let byteLength := fold_left (λ sum seg, sum + utf8_length seg) k 0 in
  throw_if (MAX_KEY_BYTES <? byteLength) ValidationFailedError.

(** [encodeKeyPath(key)] *)
Definition encodeKeyPath (k : key) : result exn jstr :=
  match k with
  | [] => Ok []
  | _ => map_result encodeURIComponent k ≫= λ segs, Ok (str_join (js "/") segs ++ js "/")
  end.

(** ** The table *)

Record kv_row (V : Type) :=
  { key_json : key; value_json : V; version : Z; expires_at : option Z }.
Arguments key_json {V}.
Arguments value_json {V}.
Arguments version {V}.
Arguments expires_at {V}.

Abbreviation kv_table V := (gmap (list Z) (kv_row V)).

Record kv_db (V : Type) := { clock : Z; kv_entries : kv_table V }.
Arguments clock {V}.
Arguments kv_entries {V}.

Section provider.
Context {V : Type}.

Definition set_entries (t : (kv_table V)) (d : kv_db V) : kv_db V := {| clock := clock d; kv_entries := t |}.

(** [row.expires_at !== null && row.expires_at <= now] *)
Definition expired (now : Z) (r : (kv_row V)) : bool :=
  match expires_at r with Some t => t <=? now | None => false end.

(** [get(key)] *)
Definition sqlite_get (k : key) : stm (kv_db V) exn (option V) :=
  st_lift (validateKey k) ;;~
  keyPath <~ st_lift (encodeKeyPath k) ;;
  d <~ st_get ;;
  match kv_entries d !! keyPath with
  | None => st_ret None
  | Some row =>
      if expired (clock d) row
      then st_modify (set_entries (delete keyPath (kv_entries d))) ;;~ st_ret None
      else st_ret (Some (value_json row))
  end.

(** [INSERT ... ON CONFLICT(key_path) DO UPDATE SET ...]: [version] starts at 1
    or is incremented; [key_json] is not among the updated columns. *)
Definition upsert (keyPath : jstr) (k : key) (v : V) (expiresAt : option Z) (t : (kv_table V)) : (kv_table V) :=
  <[keyPath :=
      match t !! keyPath with
      | None => {| key_json := k; value_json := v; version := 1; expires_at := expiresAt |}
      | Some r => {| key_json := key_json r; value_json := v; version := version r + 1;
                     expires_at := expiresAt |}
      end]> t.

(** [set(key, value, { ttl })] *)
Definition sqlite_set (k : key) (v : V) (ttl : option Z) : stm (kv_db V) exn unit :=
  st_lift (validateKey k) ;;~
  keyPath <~ st_lift (encodeKeyPath k) ;;
  d <~ st_get ;;
  let expiresAt := (λ s, clock d + s * 1000) <$> ttl in
  st_modify (set_entries (upsert keyPath k v expiresAt (kv_entries d))).

(** [delete(key)] *)
Definition sqlite_delete (k : key) : stm (kv_db V) exn unit :=
  st_lift (validateKey k) ;;~
  keyPath <~ st_lift (encodeKeyPath k) ;;
  st_modify (λ d, set_entries (delete keyPath (kv_entries d)) d).

(** *** [commit()] *)

(** [DELETE FROM kv_entries WHERE expires_at IS NOT NULL AND expires_at <= ?] *)
Definition delete_expired (now : Z) (t : (kv_table V)) : (kv_table V) :=
  filter (λ e, expired now e.2 = false) t.

Definition current_version (now : Z) (row : option (kv_row V)) : Z :=
  match row with
  | Some r => if negb (expired now r) then version r else 0
  | None => 0
  end.

(** The loop over [this.checks]: [Ok false] is a mismatch. *)
Fixpoint run_checks (now : Z) (t : (kv_table V)) (cs : list kv_check) : result exn bool :=
  match cs with
  | [] => Ok true
  | c :: cs =>
      encodeKeyPath (ck_key c) ≫= λ keyPath,
      if current_version now (t !! keyPath) =? ck_expectedVersion c
      then run_checks now t cs
      else Ok false
  end.

(** The loop over [this.mutations]; [highest] is [highestNewVersion]. *)
Fixpoint run_mutations (t : (kv_table V)) (mus : list (kv_mutation V)) (highest : Z)
    : result exn ((kv_table V) * Z) :=
  match mus with
  | [] => Ok (t, highest)
  | MSet k v :: mus =>
      encodeKeyPath k ≫= λ keyPath,
      let t := upsert keyPath k v None t in
      let newVersion := match t !! keyPath with Some r => version r | None => 0 end in
      run_mutations t mus (Z.max highest newVersion)
  | MDelete k :: mus =>
      encodeKeyPath k ≫= λ keyPath, run_mutations (delete keyPath t) mus highest
  end.

(** The transaction: an error rolls it back and is thrown again. *)
Definition sqlite_commit (cs : list kv_check) (mus : list (kv_mutation V))
    : stm (kv_db V) exn CommitResult :=
  st_lift (for_each (λ m, validateKey (mutation_key m)) mus) ;;~
  λ d,
    let now := clock d in
    let t := delete_expired now (kv_entries d) in
    match run_checks now t cs with
    | Err e => (d, Err e)
    | Ok false => (d, Ok {| cr_ok := false; cr_version := None |})
    | Ok true =>
        match run_mutations t mus 0 with
        | Err e => (d, Err e)
        | Ok (t, highest) =>
            (set_entries t d,
             Ok {| cr_ok := true; cr_version := if 0 <? highest then Some highest else None |})
        end
    end.

#[export] Instance sqlite_kv_store : KvStore (kv_db V) V := {
  kv_get := sqlite_get;
  kv_set := sqlite_set;
  kv_delete := sqlite_delete;
  kv_commit := sqlite_commit
}.

(** *** [list(prefix, { limit, cursor })] *)

(** ASCII case folding, as [LIKE] compares characters. *)
Definition like_fold (c : Z) : Z := if is_upper c then c + 32 else c.

(** [text LIKE pattern] of SQL: [%] matches any sequence, [_] any character; the
    comparison is case-insensitive on ASCII letters. *)
Fixpoint sql_like (pattern text : jstr) : bool :=
  match pattern with
  | [] => match text with [] => true | _ => false end
  | c :: pattern' =>
      if c =? chr "%" then
        (fix any_suffix text :=
           sql_like pattern' text ||
           match text with [] => false | _ :: text => any_suffix text end) text
      else
        match text with
        | [] => false
        | d :: text => ((c =? chr "_") || (like_fold c =? like_fold d)) && sql_like pattern' text
        end
  end.

(** The rows in the order of their [key_path], compared as text. *)
Definition path_le (a b : jstr * (kv_row V)) : Prop := str_leb a.1 b.1 = true.
#[export] Instance path_le_dec a b : Decision (path_le a b).
Proof. unfold path_le. apply _. Defined.
Definition sorted_rows (t : (kv_table V)) : list (jstr * (kv_row V)) := merge_sort path_le (map_to_list t).

Definition list_limit (limit : option Z) : Z :=
  match limit with
  | Some n => if 0 <? n then Z.min n 1000 else 100
  | None => 100
  end.

(** The [WHERE] clause without the cursor. *)
Definition list_matches (prefixPath : jstr) (now : Z) (e : jstr * (kv_row V)) : bool :=
  sql_like (prefixPath ++ js "%") e.1 && negb (expired now e.2).

(** [btoa] and [atob] are the platform's base64 functions. *)
Definition sqlite_list (btoa : jstr → jstr) (atob : jstr → result exn jstr)
    (prefix : key) (limit : option Z) (cursor : option jstr) : stm (kv_db V) exn (ListPage V) :=
  let limit := list_limit limit in
  prefixPath <~ st_lift (encodeKeyPath prefix) ;;
  after <~ st_lift
    match cursor with
    | Some ((_ :: _) as c) => atob c ≫= λ decodedCursor, Ok (Some decodedCursor)
    | _ => Ok None
    end ;;
  d <~ st_get ;;
  let rows :=
    take (Z.to_nat (limit + 1))
      (filter (λ e, list_matches prefixPath (clock d) e &&
                    match after with Some c => str_ltb c e.1 | None => true end = true)
        (sorted_rows (kv_entries d))) in
  let hasMore := (Z.to_nat limit <? length rows)%nat in
  let results := if hasMore then take (Z.to_nat limit) rows else rows in
  st_ret {| page_keys := (λ e, (key_json e.2, value_json e.2)) <$> results;
            page_cursor :=
              if hasMore then (λ e, btoa e.1) <$> last results else None |}.

(** A client that follows the cursor to the end. *)
Fixpoint list_all btoa atob (fuel : nat) (prefix : key) (limit : option Z) (cursor : option jstr)
    : stm (kv_db V) exn (list (key * V)) :=
  match fuel with
  | O => st_throw PlainError
  | S fuel =>
      page <~ sqlite_list btoa atob prefix limit cursor ;;
      match page_cursor page with
      | Some ((_ :: _) as c) =>
          rest <~ list_all btoa atob fuel prefix limit (Some c) ;;
          st_ret (page_keys page ++ rest)
      | _ => st_ret (page_keys page)
      end
  end.
End provider.

(** ** Key paths *)

Lemma map_result_forall {E A B} (f : A → result E B) (P : A → Prop) (Q : B → Prop) xs ys :
  (∀ x y, P x → f x = Ok y → Q y) → Forall P xs → map_result f xs = Ok ys → Forall Q ys.
Proof.
  intros H HP Hm%map_result_Ok. induction Hm; [constructor|].
  apply Forall_cons in HP as [? ?]. constructor; eauto.
Qed.

(** The path is the concatenation of the encoded segments, each ended by [/]. *)
Lemma join_slash segs :
  segs ≠ [] → str_join (js "/") segs ++ js "/" = flat_map (λ s, s ++ js "/") segs.
Proof.
  induction segs as [|s segs IH]; [done|]. intros _. destruct segs as [|s' segs].
  - cbn. by rewrite app_nil_r.
  - change (str_join (js "/") (s :: s' :: segs)) with (s ++ js "/" ++ str_join (js "/") (s' :: segs)).
    cbn [flat_map] in *. rewrite <-IH by done. by rewrite <-!app_assoc.
Qed.

Lemma encodeKeyPath_Ok k p :
  encodeKeyPath k = Ok p ↔
  ∃ segs, map_result encodeURIComponent k = Ok segs ∧ p = flat_map (λ s, s ++ js "/") segs.
Proof.
  destruct k as [|s k].
  - cbn. split; [intros [= <-]; by exists []|]. by intros (? & [= <-] & ->).
  - unfold encodeKeyPath. rewrite bind_Ok. split.
    + intros (segs & Hs & [= <-]). exists segs. split; [done|]. apply join_slash.
      intros ->. apply map_result_Ok in Hs. by inversion Hs.
    + intros (segs & Hs & ->). exists segs. split; [done|]. rewrite join_slash; [done|].
      intros ->. apply map_result_Ok in Hs. by inversion Hs.
Qed.

Lemma slash_split (a b ra rb : jstr) :
  chr "/" ∉ a → chr "/" ∉ b → a ++ chr "/" :: ra = b ++ chr "/" :: rb → a = b ∧ ra = rb.
Proof.
  revert b. induction a as [|x a IH]; intros [|y b] Ha Hb Heq; [by injection Heq as ->|injection Heq as Hx Heq..].
  - subst. destruct Hb. left.
  - subst. destruct Ha. left.
  - apply not_elem_of_cons in Ha as [_ Ha]. apply not_elem_of_cons in Hb as [_ Hb].
    destruct (IH b Ha Hb Heq) as [-> ->]. by subst.
Qed.

Lemma uri_char_no_slash s : Forall uri_char s → chr "/" ∉ s.
Proof. intros H Hin. eapply Forall_forall in H; [|exact Hin]. by destruct H as (_ & H & _). Qed.

Lemma flat_slash_prefix (ps ks : list jstr) :
  Forall (λ s, chr "/" ∉ s) ps → Forall (λ s, chr "/" ∉ s) ks →
  starts_with (flat_map (λ s, s ++ js "/") ks) (flat_map (λ s, s ++ js "/") ps) = true ↔
  ps `prefix_of` ks.
Proof.
  rewrite starts_with_spec. intros Hps. revert ks.
  induction Hps as [|p ps Hp Hps IH]; intros ks Hks.
  - split; [intros; apply prefix_nil|]. eauto.
  - destruct Hks as [|k ks Hk Hks]; cbn [flat_map].
    + split; [intros [r Hr]; by destruct p|]. intros [? ?]. done.
    + split.
      * intros [r Hr]. rewrite <-!app_assoc in Hr. apply slash_split in Hr as [-> Hr]; [|done..].
        apply prefix_cons. apply IH; [done|]. by exists r.
      * intros Hpre. apply prefix_cons_inv_1 in Hpre as Hkp. apply prefix_cons_inv_2 in Hpre.
        apply IH in Hpre as [r Hr]; [|done]. exists r. rewrite Hkp, Hr. by rewrite <-!app_assoc.
Qed.

(** The keys with text in every segment that UTF-16 and UTF-8 can hold. *)
Definition key_wf (k : key) : Prop := Forall jstr_wf k.

Lemma encoded_segs_prefix p k ps ks :
  key_wf p → key_wf k →
  map_result encodeURIComponent p = Ok ps → map_result encodeURIComponent k = Ok ks →
  ps `prefix_of` ks ↔ p `prefix_of` k.
Proof.
  intros Hp Hk Hps%map_result_Ok Hks%map_result_Ok. revert k ks Hk Hks.
  induction Hps as [|s e p ps He Hps IH]; intros k ks Hk Hks.
  - split; intros; apply prefix_nil.
  - apply Forall_cons in Hp as [Hs Hp]. destruct Hks as [|s' e' k ks He' Hks].
    + split; by intros [? ?].
    + apply Forall_cons in Hk as [Hs' Hk]. split; intros Hpre.
      * pose proof (prefix_cons_inv_1 _ _ _ _ Hpre); subst.
        apply prefix_cons_inv_2 in Hpre.
        assert (s = s') as -> by by eapply encodeURIComponent_inj.
        apply prefix_cons. by eapply IH.
      * pose proof (prefix_cons_inv_1 _ _ _ _ Hpre); subst.
        apply prefix_cons_inv_2 in Hpre. assert (e = e') as -> by congruence.
        apply prefix_cons. by eapply IH.
Qed.

Lemma map_encode_no_slash k segs :
  key_wf k → map_result encodeURIComponent k = Ok segs → Forall (λ s, chr "/" ∉ s) segs.
Proof.
  intros Hk. apply (map_result_forall encodeURIComponent jstr_wf); [|done].
  intros s e Hs He. eapply uri_char_no_slash, encodeURIComponent_chars; eauto.
Qed.

(** Key paths are a faithful index: the path of [p] is a prefix of the path of
    [k] exactly when [p] is a prefix of [k] segment by segment (a segment that
    contains [/], [%] or any Unicode text never reaches into its neighbour);
    in particular two keys with the same path are the same key. *)
Theorem encodeKeyPath_prefix p k pp pk :
  key_wf p → key_wf k → encodeKeyPath p = Ok pp → encodeKeyPath k = Ok pk →
  (starts_with pk pp = true ↔ p `prefix_of` k) ∧ (pp = pk ↔ p = k).
Proof.
  intros Hp Hk (ps & Hps & ->)%encodeKeyPath_Ok (ks & Hks & ->)%encodeKeyPath_Ok.
  pose proof (map_encode_no_slash _ _ Hp Hps). pose proof (map_encode_no_slash _ _ Hk Hks).
  rewrite flat_slash_prefix by done. rewrite (encoded_segs_prefix p k) by done. split; [done|].
  split; [|congruence]. intros Heq.
  assert (p `prefix_of` k) as H1.
  { apply (encoded_segs_prefix p k ps ks); [done..|]. apply flat_slash_prefix; [done..|].
    rewrite Heq. apply starts_with_refl. }
  assert (k `prefix_of` p) as H2.
  { apply (encoded_segs_prefix k p ks ps); [done..|]. apply flat_slash_prefix; [done..|].
    rewrite Heq. apply starts_with_refl. }
  by apply (anti_symm prefix).
Qed.

Theorem encodeKeyPath_prefix_witness :
  encodeKeyPath [js "a b"; [0xD83D; 0xDE00]] = Ok (js "a%20b/%F0%9F%98%80/") ∧
  (starts_with (js "a%20b/%F0%9F%98%80/") (js "a%20b/") = true ↔
   [js "a b"] `prefix_of` [js "a b"; [0xD83D; 0xDE00]]).
Proof.
  assert (encodeKeyPath [js "a b"; [0xD83D; 0xDE00]] = Ok (js "a%20b/%F0%9F%98%80/")) as E
    by (vm_compute; reflexivity).
  split; [exact E|].
  apply (encodeKeyPath_prefix [js "a b"] [js "a b"; [0xD83D; 0xDE00]]).
  - repeat constructor; vm_compute; discriminate.
  - repeat constructor; vm_compute; discriminate.
  - vm_compute. reflexivity.
  - exact E.
Defined.

Lemma encodeKeyPath_inj k1 k2 p :
  key_wf k1 → key_wf k2 → encodeKeyPath k1 = Ok p → encodeKeyPath k2 = Ok p → k1 = k2.
Proof.
  intros H1 H2 (s1 & Hs1 & ->)%encodeKeyPath_Ok (s2 & Hs2 & Heq)%encodeKeyPath_Ok.
  pose proof (map_encode_no_slash _ _ H1 Hs1). pose proof (map_encode_no_slash _ _ H2 Hs2).
  apply (anti_symm prefix).
  - apply (encoded_segs_prefix k1 k2 s1 s2); [done..|]. apply flat_slash_prefix; [done..|].
    rewrite Heq. apply starts_with_refl.
  - apply (encoded_segs_prefix k2 k1 s2 s1); [done..|]. apply flat_slash_prefix; [done..|].
    rewrite Heq. apply starts_with_refl.
Qed.

(** ** The provider implements the interface *)

Section laws.
Context {V : Type}.
Implicit Types (d : kv_db V) (t : kv_table V).

Definition entry_at (now : Z) t (k : key) : option (V * Z) :=
  match encodeKeyPath k with
  | Err _ => None
  | Ok p =>
      match t !! p with
      | Some r => if expired now r then None else Some (value_json r, version r)
      | None => None
      end
  end.

Definition sqlite_entry d : key → option (V * Z) := entry_at (clock d) (kv_entries d).

Definition sqlite_valid (k : key) : Prop :=
  key_wf k ∧ validateKey k = Ok tt ∧ ∃ p, encodeKeyPath k = Ok p.

Definition versions_ok t : Prop := map_Forall (λ _ r, 1 ≤ version r) t.
Definition sqlite_inv d : Prop := versions_ok (kv_entries d).

(** No row has expired: what the transaction's first statement establishes. *)
Definition unexpired (now : Z) t : Prop := map_Forall (λ _ r, expired now r = false) t.

Lemma versions_ok_delete_expired now t : versions_ok t → versions_ok (delete_expired now t).
Proof. intros Hv p r [Hr _]%map_lookup_filter_Some. by eapply Hv. Qed.

Lemma versions_ok_upsert t p k v e : versions_ok t → versions_ok (upsert p k v e t).
Proof.
  intros H. apply map_Forall_insert_2; [|done].
  destruct (t !! p) as [r|] eqn:E; cbn; [|lia]. specialize (H _ _ E). cbn in H. lia.
Qed.

Lemma delete_expired_unexpired now t : unexpired now (delete_expired now t).
Proof. by intros p r [_ ?]%map_lookup_filter_Some. Qed.

Lemma delete_expired_entry now t k : entry_at now (delete_expired now t) k = entry_at now t k.
Proof.
  unfold entry_at. destruct (encodeKeyPath k) as [p|]; [|done].
  unfold delete_expired. rewrite map_lookup_filter.
  destruct (t !! p) as [r|]; [|done]. cbn. case_guard as Hg; [done|]. cbn in *.
  by destruct (expired now r).
Qed.

Lemma current_version_entry now t k p :
  encodeKeyPath k = Ok p → current_version now (t !! p) = version_of (entry_at now t k).
Proof.
  intros Hp. unfold entry_at, current_version. rewrite Hp. destruct (t !! p); [|done].
  by destruct (expired now _).
Qed.

Lemma run_checks_spec now t cs :
  Forall (λ c, sqlite_valid (ck_key c)) cs →
  run_checks now t cs = Ok (checks_hold (entry_at now t) cs).
Proof.
  induction 1 as [|c cs (_ & _ & p & Hp) _ IH]; [done|].
  cbn. rewrite Hp. cbn. rewrite (current_version_entry _ _ (ck_key c)) by done.
  by destruct (_ =? _).
Qed.

Lemma upsert_entry now t k v p k' :
  key_wf k → key_wf k' → encodeKeyPath k = Ok p → unexpired now t →
  entry_at now (upsert p k v None t) k' = apply_mutation (entry_at now t) (MSet k v) k'.
Proof.
  intros Hk Hk' Hp Hu. cbn. unfold entry_at at 1. destruct (encodeKeyPath k') as [p'|] eqn:Hp'.
  - destruct (decide (k' = k)) as [->|Hne].
    + assert (p' = p) as -> by congruence. unfold upsert. rewrite lookup_insert_eq.
      unfold entry_at. rewrite Hp. destruct (t !! p) as [r|] eqn:Er; [|done].
      rewrite (Hu _ _ Er). done.
    + assert (p' ≠ p) by (intros ->; apply Hne; by eapply encodeKeyPath_inj).
      unfold upsert. rewrite lookup_insert_ne by done. unfold entry_at. by rewrite Hp'.
  - rewrite decide_False by congruence. unfold entry_at. by rewrite Hp'.
Qed.

Lemma delete_entry now t k p k' :
  key_wf k → key_wf k' → encodeKeyPath k = Ok p →
  entry_at now (delete p t) k' = apply_mutation (V:=V) (entry_at now t) (MDelete k) k'.
Proof.
  intros Hk Hk' Hp. cbn. unfold entry_at at 1. destruct (encodeKeyPath k') as [p'|] eqn:Hp'.
  - destruct (decide (k' = k)) as [->|Hne].
    + assert (p' = p) as -> by congruence. by rewrite lookup_delete_eq.
    + assert (p' ≠ p) by (intros ->; apply Hne; by eapply encodeKeyPath_inj).
      rewrite lookup_delete_ne by done. unfold entry_at. by rewrite Hp'.
  - rewrite decide_False by congruence. unfold entry_at. by rewrite Hp'.
Qed.

Lemma unexpired_upsert now t p k v : unexpired now t → unexpired now (upsert p k v None t).
Proof. intros H. apply map_Forall_insert_2; [by destruct (t !! p)|done]. Qed.

Lemma run_mutations_spec now t mus h :
  Forall (λ mu, sqlite_valid (mutation_key mu)) mus → unexpired now t → versions_ok t →
  ∃ t', run_mutations t mus h = Ok (t', highest_version (entry_at now t) mus h) ∧
        versions_ok t' ∧
        ∀ k', sqlite_valid k' → entry_at now t' k' = apply_mutations (entry_at now t) mus k'.
Proof.
  intros Hmus. revert t h. induction Hmus as [|mu mus (Hwf & _ & p & Hp) Hmus IH]; intros t h Hu Hv.
  - by exists t.
  - assert (∀ t1, (∀ k', key_wf k' → entry_at now t1 k' = apply_mutation (entry_at now t) mu k') →
        ∀ h', highest_version (entry_at now t1) mus h' =
              highest_version (apply_mutation (entry_at now t) mu) mus h' ∧
        ∀ k', sqlite_valid k' → apply_mutations (entry_at now t1) mus k' =
              apply_mutations (apply_mutation (entry_at now t) mu) mus k') as Hext.
    { intros t1 H1 h'. split.
      - apply highest_version_ext. intros k Hk. apply H1.
        apply list_elem_of_fmap in Hk as (m & -> & Hm). eapply Forall_forall in Hmus; [|done].
        by destruct Hmus.
      - clear IH h Hu Hv Hp p Hwf h'. intros k' (Hk' & _). revert H1.
        generalize (entry_at now t1) (apply_mutation (entry_at now t) mu).
        induction Hmus as [|mu' mus (Hw & _) _ IH]; intros m1 m2 Hm; [by apply Hm|].
        cbn. apply IH. intros k1 Hk1. destruct mu'; cbn in *; rewrite !Hm by done; done. }
    destruct mu as [k v|k]; cbn in Hwf, Hp; cbn [run_mutations]; rewrite Hp; cbn [mbind result_bind].
    + set (t1 := upsert p k v None t).
      assert (∀ k', key_wf k' → entry_at now t1 k' = apply_mutation (entry_at now t) (MSet k v) k') as H1
        by (intros; by apply upsert_entry).
      destruct (IH t1 (Z.max h (version_of (entry_at now t1 k)))) as (t' & Hr & Hv' & He);
        [by apply unexpired_upsert|by apply versions_ok_upsert|].
      exists t'. assert (match t1 !! p with Some r => version r | None => 0 end =
                         version_of (entry_at now t1 k)) as ->.
      { unfold entry_at. rewrite Hp. unfold t1, upsert. rewrite lookup_insert_eq. by destruct (t !! p). }
      rewrite Hr. destruct (Hext t1 H1 (Z.max h (version_of (entry_at now t1 k)))) as [-> Ha].
      split; [|split; [done|]].
      * cbn [highest_version]. by rewrite H1.
      * intros k' Hk'. by rewrite He, Ha.
    + assert (∀ k', key_wf k' → entry_at now (delete p t) k' =
        apply_mutation (entry_at now t) (MDelete k) k') as H1 by (intros; by apply delete_entry).
      destruct (IH (delete p t) h) as (t' & Hr & Hv' & He);
        [by apply map_Forall_delete|by apply map_Forall_delete|].
      exists t'. rewrite Hr. destruct (Hext _ H1 h) as [-> Ha].
      split_and!; [done..|]. intros k' Hk'. by rewrite He, Ha.
Qed.

(** *** The operations against the abstract map *)

Lemma sqlite_get_spec d k :
  sqlite_valid k →
  ∃ d', sqlite_get k d = (d', Ok (fst <$> sqlite_entry d k)) ∧
        (sqlite_inv d → sqlite_inv d') ∧
        ∀ k', sqlite_valid k' → sqlite_entry d' k' = sqlite_entry d k'.
Proof.
  intros (Hwf & Hv & p & Hp). unfold sqlite_get, st_bind, st_lift, st_get, st_modify, st_ret.
  rewrite Hv, Hp. unfold sqlite_entry at 1, entry_at. rewrite Hp.
  destruct (kv_entries d !! p) as [r|] eqn:Er; [|by exists d].
  destruct (expired (clock d) r) eqn:Ex; [|by exists d].
  eexists. split; [done|]. split; [intros Hi; by apply map_Forall_delete|].
  intros k' (Hwf' & _). unfold sqlite_entry. cbn [set_entries clock kv_entries].
  rewrite (delete_entry _ _ k) by done. cbn. case_decide; [subst|done].
  unfold entry_at. by rewrite Hp, Er, Ex.
Qed.

Lemma validate_mutations (mus : list (kv_mutation V)) :
  Forall (λ mu, sqlite_valid (mutation_key mu)) mus →
  for_each (λ m, validateKey (mutation_key m)) mus = Ok tt.
Proof. intros H. apply for_each_Ok. eapply Forall_impl; [exact H|]. by intros mu (_ & ? & _). Qed.

(** A transaction of the SQLite provider is an optimistic compare-and-swap on
    the abstract versioned map: it commits exactly when every checked key has
    the expected version (an absent or expired key has version 0), then applies
    all mutations in order, each set raising its key's version by one, and
    reports the highest new version; otherwise it reports a conflict and every
    key keeps its value and version.  No other key changes in either case. *)
Lemma sqlite_commit_spec d cs mus :
  sqlite_inv d →
  Forall (λ c, sqlite_valid (ck_key c)) cs → Forall (λ mu, sqlite_valid (mutation_key mu)) mus →
  ∃ d', sqlite_inv d' ∧ clock d' = clock d ∧
    if checks_hold (sqlite_entry d) cs then
      let h := highest_version (sqlite_entry d) mus 0 in
      sqlite_commit cs mus d =
        (d', Ok {| cr_ok := true; cr_version := if 0 <? h then Some h else None |}) ∧
      ∀ k', sqlite_valid k' → sqlite_entry d' k' = apply_mutations (sqlite_entry d) mus k'
    else sqlite_commit cs mus d = (d', Ok {| cr_ok := false; cr_version := None |}) ∧ d' = d.
Proof.
  intros Hi Hcs Hmus. unfold sqlite_commit, st_bind, st_lift.
  rewrite validate_mutations by done. set (t := delete_expired (clock d) (kv_entries d)).
  rewrite run_checks_spec by done.
  assert (∀ k, entry_at (clock d) t k = sqlite_entry d k) as He by (intros; apply delete_expired_entry).
  assert (checks_hold (entry_at (clock d) t) cs = checks_hold (sqlite_entry d) cs) as ->
    by by apply checks_hold_ext.
  destruct (checks_hold _ _); [|by exists d].
  destruct (run_mutations_spec (clock d) t mus 0) as (t' & -> & Hv & Ha);
    [done|apply delete_expired_unexpired|by apply versions_ok_delete_expired|].
  rewrite (highest_version_ext _ (sqlite_entry d)) by (intros; apply He).
  eexists. split; [|split]; [| |split; [done|]]; [done..|].
  intros k' Hk'. unfold sqlite_entry at 1. cbn [set_entries clock kv_entries]. rewrite Ha by done.
  by apply apply_mutations_ext.
Qed.

Lemma sqlite_entry_version d k v n : sqlite_inv d → sqlite_entry d k = Some (v, n) → 1 ≤ n.
Proof.
  intros Hi. unfold sqlite_entry, entry_at. destruct (encodeKeyPath k); [|done].
  destruct (_ !! _) as [r|] eqn:E; [|done]. destruct (expired _ _); [done|]. intros [= _ <-].
  by eapply Hi.
Qed.

(** *** Frames: the keys an operation does not name *)

Lemma entry_at_delete_row now t k k' p :
  key_wf k → key_wf k' → k' ≠ k → encodeKeyPath k = Ok p →
  entry_at now (delete p t) k' = entry_at now t k'.
Proof.
  intros Hk Hk' Hne Hp. rewrite (delete_entry now t k p k' Hk Hk' Hp). cbn. by rewrite decide_False.
Qed.

Lemma entry_at_upsert_other now t k k' p v e :
  key_wf k → key_wf k' → k' ≠ k → encodeKeyPath k = Ok p →
  entry_at now (upsert p k v e t) k' = entry_at now t k'.
Proof.
  intros Hk Hk' Hne Hp. unfold entry_at. destruct (encodeKeyPath k') as [p'|] eqn:Hp'; [|done].
  assert (p' ≠ p) by (intros ->; apply Hne; by eapply encodeKeyPath_inj).
  unfold upsert. by rewrite lookup_insert_ne.
Qed.

Lemma sqlite_get_frame d k k' :
  sqlite_inv d → key_wf k → key_wf k' →
  sqlite_inv (sqlite_get k d).1 ∧ sqlite_entry (sqlite_get k d).1 k' = sqlite_entry d k'.
Proof.
  intros Hi Hk Hk'. unfold sqlite_get, st_bind, st_lift, st_get, st_modify, st_ret.
  destruct (validateKey k); [|done]. destruct (encodeKeyPath k) as [p|] eqn:Hp; [|done].
  destruct (kv_entries d !! p) as [r|] eqn:Er; [|done].
  destruct (expired (clock d) r) eqn:Ex; [|done]. cbn [fst]. split; [by apply map_Forall_delete|].
  unfold sqlite_entry. cbn [set_entries clock kv_entries].
  destruct (decide (k' = k)) as [->|Hne]; [|by apply (entry_at_delete_row _ _ k)].
  unfold entry_at. by rewrite Hp, lookup_delete_eq, Er, Ex.
Qed.

Lemma sqlite_set_frame d k v ttl k' :
  sqlite_inv d → key_wf k → key_wf k' → k' ≠ k →
  sqlite_inv (sqlite_set k v ttl d).1 ∧ sqlite_entry (sqlite_set k v ttl d).1 k' = sqlite_entry d k'.
Proof.
  intros Hi Hk Hk' Hne. unfold sqlite_set, st_bind, st_lift, st_get, st_modify.
  destruct (validateKey k); [|done]. destruct (encodeKeyPath k) as [p|] eqn:Hp; [|done].
  cbn [fst]. split; [by apply versions_ok_upsert|]. by apply (entry_at_upsert_other _ _ k).
Qed.

Lemma sqlite_delete_frame d k k' :
  sqlite_inv d → key_wf k → key_wf k' → k' ≠ k →
  sqlite_inv (sqlite_delete k d).1 ∧ sqlite_entry (sqlite_delete k d).1 k' = sqlite_entry d k'.
Proof.
  intros Hi Hk Hk' Hne. unfold sqlite_delete, st_bind, st_lift, st_modify.
  destruct (validateKey k); [|done]. destruct (encodeKeyPath k) as [p|] eqn:Hp; [|done].
  cbn [fst]. split; [by apply map_Forall_delete|]. by apply (entry_at_delete_row _ _ k).
Qed.

Lemma run_mutations_frame now t mus h t' h' k' :
  versions_ok t → key_wf k' →
  Forall (λ mu, key_wf (mutation_key mu) ∧ k' ≠ mutation_key mu) mus →
  run_mutations t mus h = Ok (t', h') →
  versions_ok t' ∧ entry_at now t' k' = entry_at now t k'.
Proof.
  intros Hv Hk' Hmus. revert t h Hv. induction Hmus as [|mu mus [Hk Hne] _ IH]; intros t h Hv Hr.
  - by injection Hr as <- _.
  - destruct mu as [k v|k]; cbn in Hk, Hne; apply bind_Ok in Hr as (p & Hp & Hr).
    + apply IH in Hr as [Hv' He]; [|by apply versions_ok_upsert].
      split; [done|]. rewrite He. by apply (entry_at_upsert_other _ _ k).
    + apply IH in Hr as [Hv' He]; [|by apply map_Forall_delete].
      split; [done|]. rewrite He. by apply (entry_at_delete_row _ _ k).
Qed.

Lemma sqlite_commit_frame d cs mus k' :
  sqlite_inv d → key_wf k' →
  Forall (λ mu, key_wf (mutation_key mu) ∧ k' ≠ mutation_key mu) mus →
  sqlite_inv (sqlite_commit cs mus d).1 ∧ sqlite_entry (sqlite_commit cs mus d).1 k' = sqlite_entry d k'.
Proof.
  intros Hi Hk' Hmus. unfold sqlite_commit, st_bind, st_lift.
  destruct (for_each _ _); [|done]. destruct (run_checks _ _ _) as [[]|]; [|done..].
  destruct (run_mutations _ _ _) as [[t' h']|] eqn:Hr; [|done]. cbn [fst].
  eapply (run_mutations_frame (clock d)) in Hr as [Hv He];
    [|by apply versions_ok_delete_expired|exact Hk'|exact Hmus].
  split; [exact Hv|]. unfold sqlite_entry. cbn [set_entries clock kv_entries].
  rewrite He. apply delete_expired_entry.
Qed.

#[export] Instance sqlite_kv_laws : KvLaws (kv_db V) V.
Proof.
  refine {| kv_inv := sqlite_inv; kv_entry := sqlite_entry; kv_wf := key_wf;
            kv_valid := sqlite_valid |}.
  - by intros k [? _].
  - exact sqlite_entry_version.
  - intros d k Hi Hk. destruct (sqlite_get_spec d k Hk) as (d' & ? & ? & ?). exists d'. auto.
  - intros d cs mus Hi Hcs Hmus.
    destruct (sqlite_commit_spec d cs mus Hi Hcs Hmus) as (d' & Hi' & _ & H). exists d'.
    split; [done|]. destruct (checks_hold _ _); [done|]. destruct H as [H ->]. done.
  - intros d k' Hi Hk'. split_and!; intros.
    + by apply sqlite_get_frame.
    + by apply sqlite_set_frame.
    + by apply sqlite_delete_frame.
    + by apply sqlite_commit_frame.
Defined.

(** *** Traces *)

Definition call_valid (c : kv_call V) : Prop :=
  match c with
  | CGet k | CSet k _ | CDelete k => sqlite_valid k
  | CCommit cs mus => Forall (λ c, sqlite_valid (ck_key c)) cs ∧
                      Forall (λ mu, sqlite_valid (mutation_key mu)) mus
  end.

(** The provider, called when the clock shows [now]. *)
Definition sqlite_call (now : Z) (c : kv_call V) (d : kv_db V) : kv_db V * result exn (kv_reply V) :=
  let d := {| clock := now; kv_entries := kv_entries d |} in
  match c with
  | CGet k => let '(d, r) := sqlite_get k d in (d, RValue <$> r)
  | CSet k v => let '(d, r) := sqlite_set k v None d in (d, (λ _, RDone) <$> r)
  | CDelete k => let '(d, r) := sqlite_delete k d in (d, (λ _, RDone) <$> r)
  | CCommit cs mus => let '(d, r) := sqlite_commit cs mus d in (d, RCommit <$> r)
  end.

Lemma highest_checks_ext (m1 m2 : key → option (V * Z)) cs mus :
  (∀ k, sqlite_valid k → m1 k = m2 k) →
  Forall (λ c, sqlite_valid (ck_key c)) cs → Forall (λ mu, sqlite_valid (mutation_key mu)) mus →
  checks_hold m1 cs = checks_hold m2 cs ∧
  highest_version m1 mus 0 = highest_version m2 mus 0 ∧
  ∀ k, sqlite_valid k → apply_mutations m1 mus k = apply_mutations m2 mus k.
Proof.
  intros Hm Hcs Hmus. split_and!.
  - unfold checks_hold. induction Hcs; cbn; [done|]. by rewrite Hm, IHHcs.
  - apply highest_version_ext. intros k (mu & -> & Hmu)%list_elem_of_fmap. apply Hm.
    by eapply Forall_forall in Hmus.
  - clear Hcs. revert m1 m2 Hm. induction Hmus as [|mu mus Hv _ IH]; intros m1 m2 Hm k Hk; [by apply Hm|].
    cbn. apply IH; [|done]. intros k' Hk'. destruct mu; cbn in *; by rewrite !Hm.
Qed.

End laws.

(** ** Times to live *)

Section timed.
Context {V : Type}.
Implicit Types (d : kv_db V) (t : kv_table V).

Definition timed_valid (c : timed_call V) : Prop :=
  match c with Plain c => call_valid c | SetTtl k _ _ => sqlite_valid k end.

(** The provider, called when the clock shows [now] *)
Definition sqlite_timed_call (now : Z) (c : timed_call V) d : kv_db V * result exn (kv_reply V) :=
  match c with
  | Plain c => sqlite_call now c d
  | SetTtl k v ttl =>
      let '(d, r) := sqlite_set k v (Some ttl) {| clock := now; kv_entries := kv_entries d |} in
      (d, (λ _, RDone) <$> r)
  end.

Fixpoint run_sqlite_timed d (cs : list (Z * timed_call V)) : list (result exn (kv_reply V)) :=
  match cs with
  | [] => []
  | (now, c) :: cs => let '(d, r) := sqlite_timed_call now c d in r :: run_sqlite_timed d cs
  end.

Definition row_cell (r : kv_row V) : cell V :=
  {| c_value := value_json r; c_version := version r; c_expires := expires_at r |}.
Definition cell_at t (k : key) : option (cell V) :=
  match encodeKeyPath k with Ok p => row_cell <$> t !! p | Err _ => None end.

(** The tables that hold the map [tm] *)
Definition stores t (tm : key → option (cell V)) : Prop :=
  versions_ok t ∧ ∀ k, sqlite_valid k → cell_at t k = tm k.

Lemma stores_live now t tm k :
  stores t tm → sqlite_valid k → entry_at now t k = live now tm k.
Proof.
  intros [_ Hs] Hk. unfold live. rewrite <-Hs by done. unfold entry_at, cell_at.
  destruct (encodeKeyPath k) as [p|]; [|done]. destruct (t !! p) as [r|]; [|done]. cbn.
  unfold expired, dead. cbn. by destruct (expires_at r).
Qed.

Lemma cell_upsert t p k v e k' :
  key_wf k → key_wf k' → encodeKeyPath k = Ok p →
  cell_at (upsert p k v e t) k' = put (cell_at t) k v e k'.
Proof.
  intros Hk Hk' Hp. unfold put. unfold cell_at at 1. destruct (encodeKeyPath k') as [p'|] eqn:Hp'.
  - destruct (decide (k' = k)) as [->|Hne].
    + assert (p' = p) as -> by congruence. unfold upsert. rewrite lookup_insert_eq.
      unfold cell_at. rewrite Hp. by destruct (t !! p).
    + assert (p' ≠ p) by (intros ->; apply Hne; by eapply encodeKeyPath_inj).
      unfold upsert. rewrite lookup_insert_ne by done. unfold cell_at. by rewrite Hp'.
  - rewrite decide_False by congruence. unfold cell_at. by rewrite Hp'.
Qed.

Lemma cell_delete t p k k' :
  key_wf k → key_wf k' → encodeKeyPath k = Ok p →
  cell_at (delete p t) k' = drop_key (cell_at t) k k'.
Proof.
  intros Hk Hk' Hp. unfold drop_key. unfold cell_at at 1. destruct (encodeKeyPath k') as [p'|] eqn:Hp'.
  - destruct (decide (k' = k)) as [->|Hne].
    + assert (p' = p) as -> by congruence. by rewrite lookup_delete_eq.
    + assert (p' ≠ p) by (intros ->; apply Hne; by eapply encodeKeyPath_inj).
      rewrite lookup_delete_ne by done. unfold cell_at. by rewrite Hp'.
  - rewrite decide_False by congruence. unfold cell_at. by rewrite Hp'.
Qed.

Lemma stores_upsert t tm p k v e :
  sqlite_valid k → encodeKeyPath k = Ok p → stores t tm → stores (upsert p k v e t) (put tm k v e).
Proof.
  intros Hk Hp [Hv Hs]. split; [by apply versions_ok_upsert|]. intros k' Hk'.
  rewrite (cell_upsert t p k) by (apply Hk || apply Hk' || done). unfold put. by rewrite !Hs.
Qed.

Lemma stores_delete t tm p k :
  sqlite_valid k → encodeKeyPath k = Ok p → stores t tm → stores (delete p t) (drop_key tm k).
Proof.
  intros Hk Hp [Hv Hs]. split; [by apply map_Forall_delete|]. intros k' Hk'.
  rewrite (cell_delete t p k) by (apply Hk || apply Hk' || done). unfold drop_key. by rewrite !Hs.
Qed.

Lemma stores_purge now t tm : stores t tm → stores (delete_expired now t) (purge now tm).
Proof.
  intros [Hv Hs]. split; [by apply versions_ok_delete_expired|]. intros k Hk. unfold purge.
  rewrite <-Hs by done. unfold cell_at. destruct (encodeKeyPath k) as [p|]; [|done].
  unfold delete_expired. rewrite map_lookup_filter. destruct (t !! p) as [r|]; [|done]. cbn.
  assert (dead now (row_cell r) = expired now r) as ->
    by (unfold dead, expired; cbn; by destruct (expires_at r)).
  case_guard as Hg; cbn in *; by destruct (expired now r).
Qed.

Lemma stores_mutations t tm mus h t' h' :
  Forall (λ mu, sqlite_valid (mutation_key mu)) mus → stores t tm →
  run_mutations t mus h = Ok (t', h') → stores t' (put_mutations tm mus).
Proof.
  unfold put_mutations. intros Hmus. revert t tm h.
  induction Hmus as [|[k v|k] mus Hk _ IH]; intros t tm h Hs Hr; [by injection Hr as <- _|..];
    cbn in Hk; apply bind_Ok in Hr as (p & Hp & Hr); eapply IH; [|exact Hr| |exact Hr].
  - by apply stores_upsert.
  - by apply stores_delete.
Qed.

Lemma sqlite_timed_simulates now c d tm :
  stores (kv_entries d) tm → timed_valid c →
  ∃ d', sqlite_timed_call now c d = (d', Ok (timed_step now tm c).2) ∧
        stores (kv_entries d') (timed_step now tm c).1.
Proof.
  intros Hs Hc. destruct c as [[k|k v|k|cs mus]|k v ttl]; cbn [timed_valid call_valid] in Hc;
    cbn [sqlite_timed_call sqlite_call timed_step fst snd];
    [pose proof Hc as (Hwf & Hv & p & Hp)..| |pose proof Hc as (Hwf & Hv & p & Hp)].
  - unfold sqlite_get, st_bind, st_lift, st_get, st_modify, st_ret. rewrite Hv, Hp. cbn [clock kv_entries].
    unfold live. rewrite <-(proj2 Hs) by done. unfold cell_at. rewrite Hp.
    destruct (kv_entries d !! p) as [r|]; cbn [fmap option_fmap option_map]; [|by eexists].
    assert (dead now (row_cell r) = expired now r) as ->
      by (unfold dead, expired; cbn; by destruct (expires_at r)).
    destruct (expired now r); eexists; (split; [done|]); [by apply stores_delete|done].
  - unfold sqlite_set, st_bind, st_lift, st_get, st_modify. rewrite Hv, Hp. eexists. split; [done|].
    by apply stores_upsert.
  - unfold sqlite_delete, st_bind, st_lift, st_modify. rewrite Hv, Hp. eexists. split; [done|].
    by apply stores_delete.
  - destruct Hc as [Hcs Hmus]. unfold sqlite_commit, st_bind, st_lift. rewrite validate_mutations by done.
    cbn [clock kv_entries]. set (t := delete_expired now (kv_entries d)).
    pose proof (stores_purge now _ _ Hs) as Hs'. fold t in Hs'.
    assert (∀ k, sqlite_valid k → entry_at now t k = live now tm k) as He.
    { intros k Hk. by rewrite (stores_live now t (purge now tm)), live_purge. }
    rewrite run_checks_spec by done.
    destruct (highest_checks_ext _ _ cs mus He Hcs Hmus) as (-> & Hh & _).
    destruct (checks_hold (live now tm) cs); cbn [fst snd]; [|by eexists].
    destruct (run_mutations_spec now t mus 0) as (t' & Hr & _); [done|apply delete_expired_unexpired|apply Hs'|].
    rewrite Hr, Hh. eexists. split; [done|]. by eapply stores_mutations.
  - unfold sqlite_set, st_bind, st_lift, st_get, st_modify. rewrite Hv, Hp. eexists. split; [done|].
    by apply stores_upsert.
Qed.

(** From any database that holds a map, a sequence of calls answers as the map. *)
Lemma run_sqlite_stores (cs : list (Z * timed_call V)) d tm :
  stores (kv_entries d) tm → Forall (λ c, timed_valid c.2) cs → run_sqlite_timed d cs = run_timed tm cs.
Proof.
  intros Hs Hcs. revert d tm Hs. induction Hcs as [|[now c] cs Hc _ IH]; intros d tm Hs; [done|].
  cbn [run_sqlite_timed run_timed]. destruct (sqlite_timed_simulates now c d tm Hs Hc) as (d' & -> & Hs').
  destruct (timed_step now tm c) as [tm' r]. cbn [fst snd] in *. by rewrite (IH d' tm').
Qed.

Lemma empty_stores : stores (∅ : kv_table V) (λ _, None).
Proof.
  split; [apply map_Forall_empty|]. intros k _. unfold cell_at. by destruct (encodeKeyPath k).
Qed.
End timed.

(** C8: The SQLite provider refines its specification: starting from an empty
    database, any sequence of [get], [set], [set] with a time to live, [delete]
    and atomic commits (with any checks and mutations, at any times) on valid keys
    returns exactly what the timed map of [KvInterface] returns: a key that was
    set with a time to live reads as its value until that time and as absent from
    then on; a commit succeeds exactly when every checked key is at the expected
    version (0 when absent or expired), applies all its mutations or none, raises
    the version of a key by one per set and reports the highest new version.
    Without times to live that is the map from keys to (value, version); with
    them, the version of an expired entry goes on at the next [set] unless a [get]
    or a commit has removed the entry in between. *)
Theorem sqlite_kv_refines {V} (cs : list (Z * timed_call V)) t0 :
  Forall (λ c, timed_valid c.2) cs →
  run_sqlite_timed {| clock := t0; kv_entries := ∅ |} cs = run_timed (λ _, None) cs ∧
  (∀ plain, cs = (λ c, (c.1, Plain c.2)) <$> plain →
    run_sqlite_timed {| clock := t0; kv_entries := ∅ |} cs = run_spec (λ _, None) plain).
Proof.
  intros Hcs. pose proof (run_sqlite_stores cs {| clock := t0; kv_entries := ∅ |} _ empty_stores Hcs) as H.
  split; [exact H|]. intros plain ->. rewrite H. by apply run_timed_plain.
Qed.

(** Two clients that read the same version race: the second commit conflicts.
    Another key expires, and is set again. *)
Definition race : list (Z * timed_call Z) :=
  let k := [js "app"; js "n"] in let s := [js "x"] in
  [(1, Plain (CSet k 10)); (1, SetTtl s 7 2); (2, Plain (CGet k)); (2000, Plain (CGet s));
   (2001, Plain (CSet s 8)); (2001, Plain (CCommit [{| ck_key := s; ck_expectedVersion := 2 |}] []));
   (3, Plain (CCommit [{| ck_key := k; ck_expectedVersion := 1 |}] [MSet k 11]));
   (3, Plain (CCommit [{| ck_key := k; ck_expectedVersion := 1 |}] [MSet k 12; MDelete s]));
   (4, Plain (CGet k))].

Theorem sqlite_kv_refines_witness :
  run_sqlite_timed {| clock := 0; kv_entries := ∅ |} race = run_timed (λ _, None) race ∧
  run_timed (λ _, None) race =
    [Ok RDone; Ok RDone; Ok (RValue (Some 10)); Ok (RValue (Some 7)); Ok RDone;
     Ok (RCommit {| cr_ok := true; cr_version := None |});
     Ok (RCommit {| cr_ok := true; cr_version := Some 2 |});
     Ok (RCommit {| cr_ok := false; cr_version := None |}); Ok (RValue (Some 11))].
Proof.
  split; [|vm_compute; reflexivity]. apply sqlite_kv_refines.
  assert (sqlite_valid [js "app"; js "n"]) as H1.
  { split; [|split; [vm_compute; reflexivity|eexists; vm_compute; reflexivity]].
    repeat constructor; vm_compute; discriminate. }
  assert (sqlite_valid [js "x"]) as H2.
  { split; [|split; [vm_compute; reflexivity|eexists; vm_compute; reflexivity]].
    repeat constructor; vm_compute; discriminate. }
  unfold race. cbv zeta.
  repeat first [exact H1 | exact H2 | apply Forall_nil_2 | apply Forall_cons_2 | progress cbn | split].
Defined.

(** What [get] of an expired key changes: the version starts again. *)
Lemma expired_versions (get_it : bool) :
  let k := [js "k"] in
  run_sqlite_timed {| clock := 0; kv_entries := ∅ |}
    ([(0, SetTtl k 1 1)] ++ (if get_it then [(1000, Plain (CGet k))] else []) ++
     [(1001, Plain (CSet k 2));
      (1002, Plain (CCommit [{| ck_key := k; ck_expectedVersion := 2 |}] [MSet k 3]))]) =
  [Ok RDone] ++ (if get_it then [Ok (RValue None)] else []) ++
  [Ok RDone; Ok (RCommit (if get_it then {| cr_ok := false; cr_version := None |}
                          else {| cr_ok := true; cr_version := Some 3 |}))].
Proof. destruct get_it; vm_compute; reflexivity. Qed.

(** ** Listing *)

Lemma like_percent r : sql_like (js "%") r = true.
Proof. induction r as [|c r IH]; [done|]. exact IH. Qed.

Lemma like_wildcard p s :
  sql_like (37 :: p) s =
  sql_like p s || match s with [] => false | _ :: s => sql_like (37 :: p) s end.
Proof. by destruct s. Qed.

Lemma like_char c p s :
  c ≠ 37 →
  sql_like (c :: p) s =
  match s with
  | [] => false
  | d :: s => ((c =? 95) || (like_fold c =? like_fold d)) && sql_like p s
  end.
Proof. intros H%Z.eqb_neq. cbn [sql_like]. change (chr "%") with 37. by rewrite H. Qed.

(** A text that starts with [p] matches the pattern [p%]. *)
Lemma sql_like_prefix p r : sql_like (p ++ js "%") (p ++ r) = true.
Proof.
  induction p as [|c p IH]; [apply like_percent|].
  rewrite <-!app_comm_cons. destruct (Z.eq_dec c 37) as [->|Hc].
  - rewrite like_wildcard. apply orb_true_iff. right.
    destruct (p ++ r) as [|d s]; rewrite like_wildcard, IH; done.
  - rewrite like_char, Z.eqb_refl, orb_true_r by done. exact IH.
Qed.

(** Without wildcards and letters in [p], [p%] matches only such texts. *)
Lemma sql_like_exact p s :
  Forall (λ c, c ≠ 37 ∧ c ≠ 95 ∧ is_upper c = false ∧ is_lower c = false) p →
  sql_like (p ++ js "%") s = starts_with s p.
Proof.
  intros Hp. revert s. induction Hp as [|c p (H1 & H2 & H3 & H4) Hp IH]; intros s.
  - by rewrite like_percent.
  - rewrite <-app_comm_cons, like_char, (proj2 (Z.eqb_neq c 95)) by done.
    destruct s as [|d s]; [done|]. rewrite IH. cbn [starts_with orb]. f_equal.
    unfold like_fold. rewrite H3. destruct (is_upper d) eqn:Ed; [|done].
    unfold is_upper, is_lower in *. apply not_true_iff_false in H3, H4.
    rewrite andb_true_iff, !Z.leb_le in H3, H4. zbool.
    rewrite (proj2 (Z.eqb_neq c d)) by lia. apply Z.eqb_neq. lia.
Qed.

Section listing.
Context {V : Type} (btoa : jstr → jstr) (atob : jstr → result exn jstr).
Hypothesis atob_btoa : ∀ s, Forall (λ c, 0 ≤ c < 256) s → atob (btoa s) = Ok s.
Hypothesis btoa_nonempty : ∀ s, s ≠ [] → btoa s ≠ [].
Implicit Types (t : kv_table V) (rows : list (jstr * kv_row V)).

(** Strictly increasing paths. *)
Definition path_sorted rows : Prop := StronglySorted (λ a b, str_ltb a.1 b.1 = true) rows.

Lemma sorted_rows_sorted t : path_sorted (sorted_rows t).
Proof.
  unfold path_sorted, sorted_rows.
  assert (Transitive (@path_le V)) as Htr.
  { intros a b c. unfold path_le, str_leb. rewrite !negb_true_iff. intros H1 H2.
    destruct (str_ltb c.1 a.1) eqn:E; [|done].
    destruct (str_ltb a.1 b.1) eqn:E2.
    - assert (str_ltb c.1 b.1 = true) by by eapply str_ltb_trans. congruence.
    - assert (a.1 = b.1) as Heq by by apply str_ltb_total. congruence. }
  assert (Total (@path_le V)) as Htot.
  { intros a b. unfold path_le, str_leb. rewrite !negb_true_iff.
    destruct (str_ltb b.1 a.1) eqn:E; [right|by left].
    destruct (str_ltb a.1 b.1) eqn:E2; [|done].
    pose proof (str_ltb_trans _ _ _ E E2) as H. by rewrite str_ltb_irrefl in H. }
  pose proof (StronglySorted_merge_sort (@path_le V) (map_to_list t)) as Hs.
  pose proof (merge_sort_Permutation (@path_le V) (map_to_list t)) as Hp.
  pose proof (NoDup_fst_map_to_list t) as Hnd. rewrite <-Hp in Hnd.
  revert Hs Hnd. clear Hp. generalize (merge_sort path_le (map_to_list t)) as l.
  induction 1 as [|e l Hl IH Hall]; cbn; intros Hnd; [constructor|].
  apply NoDup_cons in Hnd as [Hn Hnd]. constructor; [by apply IH|].
  apply Forall_forall. intros e' He'. eapply Forall_forall in Hall; [|exact He'].
  unfold path_le, str_leb in Hall. rewrite negb_true_iff in Hall.
  destruct (str_ltb e.1 e'.1) eqn:E; [done|].
  destruct Hn. rewrite (str_ltb_total _ _ E Hall). by apply list_elem_of_fmap_2.
Qed.

Lemma path_sorted_filter (P : jstr * kv_row V → Prop) `{!∀ e, Decision (P e)} rows :
  path_sorted rows → path_sorted (filter P rows).
Proof.
  induction 1 as [|e l _ IH Hall]; [constructor|]. rewrite filter_cons.
  case_decide; [|done]. constructor; [done|]. by apply Forall_filter_iff.
Qed.

(** The rows after the [n]th are those with a path beyond its path. *)
Lemma filter_after_drop rows n e :
  path_sorted rows → rows !! n = Some e →
  filter (λ x : jstr * kv_row V, str_ltb e.1 x.1 = true) rows = drop (S n) rows.
Proof.
  intros Hs. revert n. induction Hs as [|x l Hl IH Hall]; intros n Hn; [done|].
  rewrite filter_cons. destruct n as [|n]; cbn in Hn.
  - injection Hn as ->. rewrite decide_False by (rewrite str_ltb_irrefl; done). cbn. rewrite drop_0.
    by apply filter_all.
  - rewrite decide_False.
    + by rewrite (IH n) by done.
    + assert (str_ltb x.1 e.1 = true) as Hx.
      { eapply Forall_forall in Hall; [exact Hall|]. by eapply list_elem_of_lookup_2. }
      intros H. pose proof (str_ltb_trans _ _ _ H Hx) as Hc. by rewrite str_ltb_irrefl in Hc.
Qed.

(** The matching rows beyond the cursor. *)
Definition rows_after (after : option jstr) rows : list (jstr * kv_row V) :=
  filter (λ e, match after with Some c => str_ltb c e.1 | None => true end = true) rows.

Definition matching (d : kv_db V) (prefixPath : jstr) : list (jstr * kv_row V) :=
  filter (λ e, list_matches prefixPath (clock d) e = true) (sorted_rows (kv_entries d)).

Definition listed (rows : list (jstr * kv_row V)) : list (key * V) :=
  (λ e, (key_json e.2, value_json e.2)) <$> rows.

Lemma list_limit_pos limit : 1 ≤ list_limit limit.
Proof. unfold list_limit. destruct limit; [|lia]. destruct (0 <? z) eqn:E; zbool; lia. Qed.

Lemma sqlite_list_page d prefix pp limit cursor after :
  encodeKeyPath prefix = Ok pp →
  (match cursor with
   | Some ((_ :: _) as c) => atob c ≫= λ c, Ok (Some c)
   | _ => Ok None
   end = Ok after) →
  let n := Z.to_nat (list_limit limit) in
  let rows := rows_after after (matching d pp) in
  sqlite_list btoa atob prefix limit cursor d =
    (d, Ok {| page_keys := listed (take n rows);
              page_cursor := if (n <? length rows)%nat
                             then (λ e, btoa e.1) <$> last (take n rows) else None |}).
Proof.
  intros Hpp Hafter. cbv zeta. unfold sqlite_list, st_bind, st_lift, st_get, st_ret.
  rewrite Hpp, Hafter. f_equal. f_equal. pose proof (list_limit_pos limit) as Hl.
  set (rows := rows_after after (matching d pp)).
  assert (filter (λ e, list_matches pp (clock d) e &&
            match after with Some c => str_ltb c e.1 | None => true end = true)
            (sorted_rows (kv_entries d)) = rows) as ->.
  { unfold rows, rows_after, matching. rewrite list_filter_filter. apply filter_ext_elem.
    apply Forall_forall. intros e _. rewrite andb_true_iff. tauto. }
  set (n := Z.to_nat (list_limit limit)).
  replace (Z.to_nat (list_limit limit + 1)) with (S n) by lia.
  rewrite length_take. destruct (Nat.ltb_spec n (length rows)) as [H|H].
  - rewrite (proj2 (Nat.ltb_lt n (S n `min` length rows))) by lia.
    rewrite take_take. by replace (n `min` S n)%nat with n by lia.
  - rewrite (proj2 (Nat.ltb_ge n (S n `min` length rows))) by lia.
    by rewrite !(take_ge rows) by lia.
Qed.

Lemma rows_after_from d pp k e :
  matching d pp !! k = Some e →
  rows_after (Some e.1) (matching d pp) = drop (S k) (matching d pp).
Proof.
  intros He. unfold rows_after. apply filter_after_drop; [|done].
  apply path_sorted_filter, sorted_rows_sorted.
Qed.

Lemma list_all_from d prefix pp limit :
  encodeKeyPath prefix = Ok pp →
  Forall (λ e, e.1 ≠ [] ∧ Forall (λ c, 0 ≤ c < 256) e.1) (matching d pp) →
  ∀ fuel cursor after k,
    (match cursor with
     | Some ((_ :: _) as c) => atob c ≫= λ c, Ok (Some c)
     | _ => Ok None
     end = Ok after) →
    rows_after after (matching d pp) = drop k (matching d pp) →
    (length (matching d pp) - k < fuel)%nat →
    list_all btoa atob fuel prefix limit cursor d = (d, Ok (listed (drop k (matching d pp)))).
Proof.
  intros Hpp Hpaths. set (M := matching d pp) in *. pose proof (list_limit_pos limit) as Hl.
  induction fuel as [|fuel IH]; intros cursor after k Hc Hafter Hfuel; [lia|].
  cbn [list_all]. unfold st_bind at 1. erewrite sqlite_list_page by done. cbv zeta.
  fold M. rewrite Hafter. set (n := Z.to_nat (list_limit limit)) in *.
  cbn [page_cursor page_keys]. rewrite length_drop.
  destruct (Nat.ltb_spec n (length M - k)) as [Hn|Hn].
  - destruct (lookup_lt_is_Some_2 M (k + (n - 1))) as [e He]; [lia|].
    assert (last (take n (drop k M)) = Some e) as ->.
    { rewrite last_lookup, length_take, length_drop, lookup_take_lt by lia.
      rewrite lookup_drop. rewrite <-He. f_equal. lia. }
    pose proof Hpaths as Hp. eapply Forall_lookup_1 in Hp as [Hne Hasc]; [|exact He].
    pose proof (btoa_nonempty e.1 Hne) as Hb. cbn [fmap option_fmap option_map fst].
    destruct (btoa e.1) as [|c cs] eqn:Eb; [done|].
    unfold st_bind at 1. cbn [option_map]. rewrite (IH (Some (c :: cs)) (Some e.1) (k + n)%nat).
    + unfold st_ret. f_equal. f_equal. unfold listed. rewrite <-fmap_app. f_equal.
      rewrite <-drop_drop. apply take_drop.
    + cbn. by rewrite <-Eb, atob_btoa.
    + pose proof (rows_after_from d pp _ e He) as Hr. fold M in Hr. rewrite Hr. f_equal. lia.
    + lia.
  - rewrite take_ge by (rewrite length_drop; lia). done.
Qed.

(** The paths of the table are those of its keys. *)
Definition paths_ok t : Prop :=
  map_Forall (λ p r, key_wf (key_json r) ∧ encodeKeyPath (key_json r) = Ok p) t.

Lemma encodeKeyPath_ascii k p : key_wf k → encodeKeyPath k = Ok p → Forall (λ c, 33 ≤ c ≤ 126) p.
Proof.
  intros Hk (segs & Hs & ->)%encodeKeyPath_Ok.
  assert (Forall (Forall uri_char) segs) as Hall.
  { eapply map_result_forall; [apply encodeURIComponent_chars|exact Hk|exact Hs]. }
  clear Hs. induction Hall as [|s segs Hs _ IH]; [constructor|]. cbn.
  apply Forall_app; split; [|done]. apply Forall_app; split; [|repeat constructor; done].
  eapply Forall_impl; [exact Hs|]. unfold uri_char. lia.
Qed.

Lemma elem_matching d pp p r :
  (p, r) ∈ matching d pp ↔
  kv_entries d !! p = Some r ∧ expired (clock d) r = false ∧ sql_like (pp ++ js "%") p = true.
Proof.
  unfold matching, list_matches, sorted_rows. rewrite list_elem_of_filter. cbn [fst snd].
  rewrite merge_sort_Permutation, elem_of_map_to_list, andb_true_iff, negb_true_iff. tauto.
Qed.

Lemma matching_listed d pp k v :
  paths_ok (kv_entries d) → key_wf k →
  (k, v) ∈ listed (matching d pp) ↔
  ∃ p n, encodeKeyPath k = Ok p ∧ sqlite_entry d k = Some (v, n) ∧ sql_like (pp ++ js "%") p = true.
Proof.
  intros Hok Hk. unfold listed. rewrite list_elem_of_fmap. split.
  - intros ([p r] & [= -> ->] & (Hr & Hx & Hlike)%elem_matching). cbn in *.
    destruct (Hok _ _ Hr) as [_ Hp]. exists p, (version r). split_and!; [done| |done].
    unfold sqlite_entry, entry_at. by rewrite Hp, Hr, Hx.
  - intros (p & n & Hp & He & Hlike). unfold sqlite_entry, entry_at in He. rewrite Hp in He.
    destruct (kv_entries d !! p) as [r|] eqn:Hr; [|done].
    destruct (expired (clock d) r) eqn:Hx; [done|]. injection He as <- <-.
    exists (p, r). destruct (Hok _ _ Hr) as [Hkr Hp']. split.
    + cbn. f_equal. by eapply encodeKeyPath_inj.
    + by apply elem_matching.
Qed.

Lemma matching_NoDup d pp : paths_ok (kv_entries d) → NoDup (listed (matching d pp)).*1.
Proof.
  intros Hok. unfold listed. rewrite <-list_fmap_compose.
  assert (path_sorted (matching d pp)) as Hs by apply path_sorted_filter, sorted_rows_sorted.
  assert (Forall (λ e, encodeKeyPath (key_json e.2) = Ok e.1) (matching d pp)) as Hp.
  { apply Forall_forall. intros [p r] (Hr & _)%elem_matching. by destruct (Hok _ _ Hr). }
  induction Hs as [|e l Hl IH Hall]; cbn; [constructor|].
  apply Forall_cons in Hp as [He Hp]. constructor; [|by apply IH].
  intros (e' & Heq & Hin)%list_elem_of_fmap. cbn in Heq.
  eapply Forall_forall in Hall; [|exact Hin]. eapply Forall_forall in Hp; [|exact Hin].
  rewrite <-Heq, He in Hp. injection Hp as Hp. rewrite Hp, str_ltb_irrefl in Hall. done.
Qed.

Lemma encoded_below prefix rest pp p :
  key_wf prefix → key_wf (prefix ++ rest) → encodeKeyPath prefix = Ok pp →
  encodeKeyPath (prefix ++ rest) = Ok p → starts_with p pp = true.
Proof.
  intros Hwf Hk Hpp Hp.
  destruct (proj1 (encodeKeyPath_Ok prefix pp) Hpp) as (ps & Hps & ->).
  destruct (proj1 (encodeKeyPath_Ok _ p) Hp) as (ks & Hks & ->).
  apply flat_slash_prefix; [apply (map_encode_no_slash prefix); done|
    apply (map_encode_no_slash (prefix ++ rest)); done|].
  apply (encoded_segs_prefix prefix (prefix ++ rest)); try done. by exists rest.
Qed.

Lemma length_matching d pp : (length (matching d pp) ≤ size (kv_entries d))%nat.
Proof.
  unfold matching. etransitivity; [apply length_filter|].
  unfold sorted_rows. by rewrite merge_sort_Permutation, length_map_to_list.
Qed.

(** Following the cursors of [list(prefix)] to the end, whatever the page
    size, terminates and returns every live entry under the prefix exactly once
    and no deleted or expired one; and when the prefix has no letters and no
    character that is percent-encoded, it returns nothing outside the prefix. *)
Theorem sqlite_list_complete d prefix pp limit :
  paths_ok (kv_entries d) → kv_entries d !! [] = None →
  key_wf prefix → encodeKeyPath prefix = Ok pp →
  ∃ items,
    list_all btoa atob (S (size (kv_entries d))) prefix limit None d = (d, Ok items) ∧
    NoDup items.*1 ∧
    ∀ k v, sqlite_valid k →
      ((∃ n, sqlite_entry d k = Some (v, n)) → prefix `prefix_of` k → (k, v) ∈ items) ∧
      ((k, v) ∈ items → (∃ n, sqlite_entry d k = Some (v, n)) ∧
         (Forall (λ c, c ≠ 37 ∧ c ≠ 95 ∧ is_upper c = false ∧ is_lower c = false) pp →
          prefix `prefix_of` k)).
Proof.
  intros Hok Hnil Hwf Hpp. exists (listed (matching d pp)). split_and!.
  - rewrite <-(drop_0 (matching d pp)). apply (list_all_from d prefix pp limit Hpp) with (after := None).
    + apply Forall_forall. intros [p r] (Hr & _)%elem_matching. cbn. split; [congruence|].
      destruct (Hok _ _ Hr) as [Hk Hp]. eapply Forall_impl; [by eapply encodeKeyPath_ascii|]. cbn. lia.
    + done.
    + rewrite drop_0. unfold rows_after. by apply filter_all, Forall_true.
    + pose proof (length_matching d pp). lia.
  - by apply matching_NoDup.
  - intros k v (Hk & _ & p & Hp). rewrite matching_listed by done. split.
    + intros [n Hn] [rest ->]. exists p, n. split_and!; [done..|].
      pose proof (encoded_below prefix rest pp p Hwf Hk Hpp Hp) as [r ->]%starts_with_spec.
      apply sql_like_prefix.
    + intros (p' & n & Hp' & Hn & Hlike). assert (p' = p) as -> by congruence.
      split; [by exists n|]. intros Hsafe. rewrite sql_like_exact in Hlike by done.
      destruct (proj1 (encodeKeyPath_Ok prefix pp) Hpp) as (ps & Hps & ->).
      destruct (proj1 (encodeKeyPath_Ok k p) Hp) as (ks & Hks & ->).
      apply flat_slash_prefix in Hlike; [|apply (map_encode_no_slash prefix); done|
        apply (map_encode_no_slash k); done].
      by apply (encoded_segs_prefix prefix k ps ks).
Qed.
End listing.

(** *** The promises of [KvInterface] about [set] and [list] *)

#[export] Instance sqlite_kv_set_laws {V} : KvSetLaws (kv_db V) V.
Proof.
  constructor.
  { intros d k v ttl Hi _. unfold kv_set, sqlite_kv_store, sqlite_set, st_bind, st_lift, st_get, st_modify.
    destruct (validateKey k); [|done]. destruct (encodeKeyPath k); [|done].
    by apply (versions_ok_upsert (kv_entries d)). }
  intros d k v ttl Hi (Hwf & Hv & p & Hp) Httl.
  set (e := (λ s, clock d + s * 1000) <$> ttl).
  assert (∀ r : kv_row V, expires_at r = e → expired (clock d) r = false) as He.
  { intros r Hr. unfold expired. rewrite Hr. unfold e. destruct ttl as [s|]; [|done]. cbn.
    specialize (Httl s eq_refl). lia. }
  eexists _, (match kv_entries d !! p with Some r => version r + 1 | None => 1 end). split; [|split].
  - cbn. unfold sqlite_set, st_bind, st_lift, st_get, st_modify. rewrite Hv, Hp. reflexivity.
  - apply (versions_ok_upsert (kv_entries d) p k v e Hi).
  - cbn. unfold sqlite_entry, entry_at. rewrite Hp. cbn [set_entries clock kv_entries].
    unfold upsert. rewrite lookup_insert_eq. fold e. rewrite He by (by destruct (kv_entries d !! p)).
    f_equal. by destruct (kv_entries d !! p).
Defined.

Section lister.
Context {V : Type} (btoa : jstr → jstr) (atob : jstr → result exn jstr).
Hypothesis atob_btoa : ∀ s, Forall (λ c, 0 ≤ c < 256) s → atob (btoa s) = Ok s.
Hypothesis btoa_nonempty : ∀ s, s ≠ [] → btoa s ≠ [].
Implicit Types d : kv_db V.

Definition sqlite_kv_lister : KvLister (kv_db V) V := {| kv_list := sqlite_list btoa atob |}.

Definition sqlite_list_inv d : Prop := paths_ok (kv_entries d) ∧ kv_entries d !! [] = None.
Definition sqlite_listing d (prefix : key) : list (key * V) :=
  match encodeKeyPath prefix with Ok pp => listed (matching d pp) | Err _ => [] end.
(** A cursor is the encoded path of the last row of the page before. *)
Definition sqlite_at d (prefix : key) (cursor : option jstr) (n : nat) : Prop :=
  ∀ pp, encodeKeyPath prefix = Ok pp → ∃ after,
    match cursor with
    | Some ((_ :: _) as c) => atob c ≫= λ c, Ok (Some c)
    | _ => Ok None
    end = Ok after ∧ rows_after after (matching d pp) = drop n (matching d pp).

Lemma matching_path_facts d pp : sqlite_list_inv d →
  Forall (λ e, e.1 ≠ [] ∧ Forall (λ c, 0 ≤ c < 256) e.1) (matching d pp).
Proof.
  intros [Hok Hnil]. apply Forall_forall. intros [p r] (Hr & _)%elem_matching. cbn. split; [congruence|].
  destruct (Hok _ _ Hr) as [Hk Hp]. eapply Forall_impl; [by eapply encodeKeyPath_ascii|]. cbn. lia.
Qed.

Lemma sqlite_list_step d prefix limit cursor n :
  sqlite_list_inv d → sqlite_valid prefix → 0 < limit ≤ 1000 → sqlite_at d prefix cursor n →
  ∃ c, sqlite_list btoa atob prefix (Some limit) cursor d =
         (d, Ok {| page_keys := take (Z.to_nat limit) (drop n (sqlite_listing d prefix)); page_cursor := c |}) ∧
       match c with
       | None => (length (sqlite_listing d prefix) <= n + Z.to_nat limit)%nat
       | Some _ => (n + Z.to_nat limit < length (sqlite_listing d prefix))%nat ∧
                   sqlite_at d prefix c (n + Z.to_nat limit)
       end.
Proof.
  intros Hinv (_ & _ & pp & Hpp) Hlim Hat. destruct (Hat pp Hpp) as (after & Hc & Hafter).
  unfold sqlite_listing. rewrite Hpp. unfold listed. rewrite length_fmap, <-fmap_drop, <-fmap_take.
  pose proof (sqlite_list_page btoa atob d prefix pp (Some limit) cursor after Hpp Hc) as Hp.
  cbv zeta in Hp. rewrite Hafter in Hp.
  assert (list_limit (Some limit) = limit) as Hll by (cbn; destruct (Z.ltb_spec 0 limit); lia).
  rewrite Hll, length_drop in Hp. set (m := Z.to_nat limit) in *. rewrite Hp.
  eexists. split; [reflexivity|].
  destruct (Nat.ltb_spec m (length (matching d pp) - n)) as [Hn|Hn]; [|lia].
  destruct (lookup_lt_is_Some_2 (matching d pp) (n + (m - 1))) as [e He]; [lia|].
  assert (last (take m (drop n (matching d pp))) = Some e) as ->.
  { rewrite last_lookup, length_take, length_drop, lookup_take_lt by lia.
    rewrite lookup_drop. rewrite <-He. f_equal. lia. }
  cbn [fmap option_fmap option_map]. split; [lia|].
  intros pp' Hpp'. assert (pp' = pp) as -> by congruence.
  pose proof (matching_path_facts d pp Hinv) as Hf. eapply Forall_lookup_1 in Hf as [Hne Hasc]; [|exact He].
  exists (Some e.1). pose proof (btoa_nonempty e.1 Hne) as Hb.
  destruct (btoa e.1) as [|c cs] eqn:Eb; [done|]. rewrite <-Eb, atob_btoa by done. split; [done|].
  rewrite (rows_after_from d pp _ e He). f_equal. lia.
Qed.

Definition sqlite_kv_list_laws : KvListLaws (KvLister0 := sqlite_kv_lister) (kv_db V) V.
Proof.
  refine {| kv_list_inv := sqlite_list_inv; kv_listing := sqlite_listing; kv_at := sqlite_at |}.
  - intros d prefix pp Hpp. exists None. split; [done|]. unfold rows_after. rewrite drop_0.
    by apply filter_all, Forall_true.
  - apply sqlite_list_step.
  - intros d prefix [Hok _]. unfold sqlite_listing. destruct (encodeKeyPath prefix); [|constructor].
    by apply matching_NoDup.
  - intros d prefix k v [Hok Hnil] (Hwf & _ & pp & Hpp) Hin. unfold sqlite_listing in Hin. rewrite Hpp in Hin.
    assert (key_wf k) as Hk.
    { unfold listed in Hin. apply list_elem_of_fmap in Hin as ([p r] & [= -> ->] & (Hr & _)%elem_matching).
      by destruct (Hok _ _ Hr). }
    split; [done|]. apply matching_listed in Hin as (p & n & _ & Hn & _); [by exists n|done..].
  - intros d prefix rest v n [Hok Hnil] (Hwf & _ & pp & Hpp) Hk Hn. unfold sqlite_listing. rewrite Hpp.
    assert (∃ p, encodeKeyPath (prefix ++ rest) = Ok p) as [p Hp].
    { change (entry_at (clock d) (kv_entries d) (prefix ++ rest) = Some (v, n)) in Hn. unfold entry_at in Hn.
      destruct (encodeKeyPath (prefix ++ rest)) as [p|]; [|done]. exists p. reflexivity. }
    apply (matching_listed d pp); [done..|]. exists p, n. split; [done|]. split; [exact Hn|].
    pose proof (encoded_below prefix rest pp p Hwf Hk Hpp Hp) as [r ->]%starts_with_spec.
    apply sql_like_prefix.
Defined.
End lister.

(** Two keys below [kv/1] and one beside it; pages of one entry.  With the
    identity for [btoa] and [atob]. *)
Definition listing_db : kv_db Z :=
  let at_ k v := {| key_json := k; value_json := v; version := 1; expires_at := None |} in
  {| clock := 0;
     kv_entries :=
       <[js "1/a/" := at_ [js "1"; js "a"] 10]>
       (<[js "1/b/" := at_ [js "1"; js "b"] 20]>
       (<[js "11/a/" := at_ [js "11"; js "a"] 30]> ∅)) |}.

Theorem sqlite_list_complete_witness :
  ∃ items,
    list_all (λ s, s) Ok 4 [js "1"] (Some 1) None listing_db = (listing_db, Ok items) ∧
    items = [([js "1"; js "a"], 10); ([js "1"; js "b"], 20)] ∧ NoDup items.*1 ∧
    (([js "11"; js "a"], 30) ∈ items → [js "1"] `prefix_of` [js "11"; js "a"]).
Proof.
  assert (list_all (λ s, s) Ok 4 [js "1"] (Some 1) None listing_db =
          (listing_db, Ok [([js "1"; js "a"], 10); ([js "1"; js "b"], 20)])) as E
    by (vm_compute; reflexivity).
  assert (paths_ok (kv_entries listing_db)) as Hok.
  { repeat (apply map_Forall_insert_2; [split; [repeat constructor; vm_compute; discriminate|
      vm_compute; reflexivity]|]). apply map_Forall_empty. }
  destruct (sqlite_list_complete (λ s, s) Ok (λ _ _, eq_refl) (λ _ H, H) listing_db [js "1"]
    (js "1/") (Some 1) Hok) as (items & Hi & Hnd & Hall); try reflexivity.
  { repeat constructor; vm_compute; discriminate. }
  change (S (size (kv_entries listing_db))) with 4%nat in Hi. rewrite E in Hi.
  exists items. injection Hi as <-. split; [exact E|]. split; [reflexivity|]. split; [exact Hnd|].
  intros Hin. apply (Hall [js "11"; js "a"] 30); [|exact Hin|].
  - split; [|split; [vm_compute; reflexivity|eexists; vm_compute; reflexivity]].
    repeat constructor; vm_compute; discriminate.
  - repeat constructor; vm_compute; discriminate.
Defined.

(** [list] is not confined to its prefix: [LIKE] matches letters in either
    case, and the [_] of a segment or the [%] of a percent-encoded character acts
    as a wildcard.  Listing [app_1] (or [App], or [a b]) returns the entry of
    another application. *)
Theorem sqlite_list_leaks :
  ∃ (d : kv_db Z) prefix k v cursor,
    paths_ok (kv_entries d) ∧ ¬ prefix `prefix_of` k ∧
    sqlite_list (λ s, s) Ok prefix None None d =
      (d, Ok {| page_keys := [(k, v)]; page_cursor := cursor |}).
Proof.
  exists {| clock := 0; kv_entries := <[js "appX1/secret/" :=
    {| key_json := [js "appX1"; js "secret"]; value_json := 7; version := 1; expires_at := None |}]> ∅ |}.
  exists [js "app_1"], [js "appX1"; js "secret"], 7, None. split_and!.
  - apply map_Forall_insert_2; [split; [repeat constructor; vm_compute; discriminate|
      vm_compute; reflexivity]|apply map_Forall_empty].
  - intros H. by apply prefix_cons_inv_1 in H.
  - vm_compute. reflexivity.
Qed.
