(* ===== verification/CircuitBreaker.v ===== *)
(** * The circuit breaker ([packages/policy/circuit-breaker.ts])

    A state machine Closed / Open / Half-Open kept under one key of a versioned
    store and changed by compare-and-swap.  Everything is proved against the
    interface [KvLaws], for any provider that implements it. *)

From S2P Require Import Prelude JsString Errors KvInterface SqliteKv.

Open Scope Z_scope.
Open Scope railfog_scope.

Definition DEFAULT_FAILURE_THRESHOLD : Z := 5.
Definition DEFAULT_COOLDOWN_MS : Z := 30000.
Definition DEFAULT_HALF_OPEN_SUCCESS_THRESHOLD : Z := 2.

Inductive CircuitState := Closed | Open | HalfOpen.

#[export] Instance CircuitState_eq_dec : EqDecision CircuitState.
Proof. solve_decision. Defined.

(** [options] after the defaults; the clock is an argument of the operations. *)
Record BreakerConfig := {
  failureThreshold : Z;
  cooldownMs : Z;
  halfOpenSuccessThreshold : Z
}.

Record CircuitBreakerOptions := {
  opt_failureThreshold : option Z;
  opt_cooldownMs : option Z;
  opt_halfOpenSuccessThreshold : option Z
}.

Definition or_default {A} (d : A) (o : option A) : A := match o with Some x => x | None => d end.

Definition createCircuitBreaker (options : CircuitBreakerOptions) : BreakerConfig :=
  {| failureThreshold := or_default DEFAULT_FAILURE_THRESHOLD (opt_failureThreshold options);
     cooldownMs := or_default DEFAULT_COOLDOWN_MS (opt_cooldownMs options);
     halfOpenSuccessThreshold :=
       or_default DEFAULT_HALF_OPEN_SUCCESS_THRESHOLD (opt_halfOpenSuccessThreshold options) |}.

(** [Omit<CircuitBreakerStateRecord, "version">] *)
Record Mutation := {
  m_state : CircuitState;
  m_consecutiveFailures : Z;
  m_consecutiveSuccesses : Z;
  m_lastStateChangeEpochMs : Z
}.

(** [CircuitBreakerStateRecord] *)
Record StateRecord := { fields : Mutation; rec_version : Z }.

Abbreviation state r := (m_state (fields r)).
Abbreviation consecutiveFailures r := (m_consecutiveFailures (fields r)).
Abbreviation consecutiveSuccesses r := (m_consecutiveSuccesses (fields r)).
Abbreviation lastStateChangeEpochMs r := (m_lastStateChangeEpochMs (fields r)).

(** A value found under the key: an object seen as a
    [Partial<CircuitBreakerStateRecord>], or anything that is not an object. *)
Inductive stored_value :=
| NotAnObject
| PartialRecord (st : option CircuitState) (fails succs last ver : option Z).

Definition stored (r : StateRecord) : stored_value :=
  PartialRecord (Some (state r)) (Some (consecutiveFailures r)) (Some (consecutiveSuccesses r))
    (Some (lastStateChangeEpochMs r)) (Some (rec_version r)).

Definition initial : Mutation :=
  {| m_state := Closed; m_consecutiveFailures := 0; m_consecutiveSuccesses := 0;
     m_lastStateChangeEpochMs := 0 |}.

(** The body of [getState] after [kv.get] *)
Definition parse_state (raw : option stored_value) : StateRecord :=
  match raw with
  | None | Some NotAnObject => {| fields := initial; rec_version := 0 |}
  | Some (PartialRecord st fails succs last ver) =>
      {| fields := {| m_state := or_default Closed st;
                      m_consecutiveFailures := or_default 0 fails;
                      m_consecutiveSuccesses := or_default 0 succs;
                      m_lastStateChangeEpochMs := or_default 0 last |};
         rec_version := or_default 0 ver |}
  end.

(** ** The mutators: [None] is [null], nothing to write *)

(** [a === b] *)
Definition is_state (a b : CircuitState) : bool :=
  match a, b with
  | Closed, Closed | Open, Open | HalfOpen, HalfOpen => true
  | _, _ => false
  end.

(** the callback of [recordSuccess(stateBeforeOp)] *)
Definition success_mutator (cfg : BreakerConfig) (now : Z) (before : CircuitState)
    (latest : StateRecord) : option Mutation :=
  if is_state (state latest) HalfOpen || is_state before Open || is_state before HalfOpen then
    let currentSuccesses := if is_state (state latest) HalfOpen then consecutiveSuccesses latest else 0 in
    let nextSuccesses := currentSuccesses + 1 in
    if halfOpenSuccessThreshold cfg <=? nextSuccesses then
      Some {| m_state := Closed; m_consecutiveFailures := 0; m_consecutiveSuccesses := 0;
              m_lastStateChangeEpochMs := now |}
    else
      Some {| m_state := HalfOpen; m_consecutiveFailures := 0;
              m_consecutiveSuccesses := nextSuccesses;
              m_lastStateChangeEpochMs :=
                if is_state (state latest) HalfOpen then lastStateChangeEpochMs latest else now |}
  else if is_state (state latest) Closed then
    if 0 <? consecutiveFailures latest then
      Some {| m_state := Closed; m_consecutiveFailures := 0; m_consecutiveSuccesses := 0;
              m_lastStateChangeEpochMs := lastStateChangeEpochMs latest |}
    else None
  else None.

(** the callback of [recordFailure(stateBeforeOp)] *)
Definition failure_mutator (cfg : BreakerConfig) (now : Z) (before : CircuitState)
    (latest : StateRecord) : option Mutation :=
  if is_state (state latest) HalfOpen || is_state before Open || is_state before HalfOpen then
    Some {| m_state := Open; m_consecutiveFailures := failureThreshold cfg;
            m_consecutiveSuccesses := 0; m_lastStateChangeEpochMs := now |}
  else if is_state (state latest) Open then None
  else
    let nextFailures := consecutiveFailures latest + 1 in
    if failureThreshold cfg <=? nextFailures then
      Some {| m_state := Open; m_consecutiveFailures := nextFailures;
              m_consecutiveSuccesses := 0; m_lastStateChangeEpochMs := now |}
    else
      Some {| m_state := Closed; m_consecutiveFailures := nextFailures;
              m_consecutiveSuccesses := 0;
              m_lastStateChangeEpochMs := lastStateChangeEpochMs latest |}.

(** the callback of [reset()] *)
Definition reset_mutator (now : Z) (_ : StateRecord) : option Mutation :=
  Some {| m_state := Closed; m_consecutiveFailures := 0; m_consecutiveSuccesses := 0;
          m_lastStateChangeEpochMs := now |}.

(** [execute]'s test for failing fast *)
Definition fails_fast (cfg : BreakerConfig) (now : Z) (current : StateRecord) : bool :=
  is_state (state current) Open && (now - lastStateChangeEpochMs current <? cooldownMs cfg).

(** A computation that throws, or whose loop has not ended within the fuel.  The
    operation under the breaker throws values of a type [E] of which the breaker
    knows only how its own exceptions are seen in it. *)
Inductive run_error (E : Type) := Thrown (e : E) | OutOfFuel.
Arguments Thrown {E} e.
Arguments OutOfFuel {E}.

Class FromExn (E : Type) := from_exn : exn → E.
#[export] Instance exn_from_exn : FromExn exn := λ e, e.

Section breaker.
Context {S : Type} `{KvLaws S stored_value} (circuitKey : key).
Implicit Types (s : S).

Definition thrown {E A} (m : stm S E A) : stm S (run_error E) A :=
  λ s, match m s with (s, Ok a) => (s, Ok a) | (s, Err e) => (s, Err (Thrown e)) end.

(** An exception of the breaker's own code, seen as a thrown value *)
Definition own {E A} `{FromExn E} (m : stm S (run_error exn) A) : stm S (run_error E) A :=
  λ s, match m s with
       | (s, Ok a) => (s, Ok a)
       | (s, Err (Thrown e)) => (s, Err (Thrown (from_exn e)))
       | (s, Err OutOfFuel) => (s, Err OutOfFuel)
       end.

Definition getState : stm S (run_error exn) StateRecord :=
  raw <~ thrown (kv_get circuitKey) ;; st_ret (parse_state raw).

(** [{ ...mutation, version: current.version + 1 }] and its commit *)
Definition next_record (current : StateRecord) (m : Mutation) : StateRecord :=
  {| fields := m; rec_version := rec_version current + 1 |}.

Definition commit_next (current : StateRecord) (m : Mutation) : stm S (run_error exn) CommitResult :=
  thrown (kv_commit [{| ck_key := circuitKey; ck_expectedVersion := rec_version current |}]
                    [MSet circuitKey (stored (next_record current m))]).

(** [mutateState(mutator)]: [interfere n] is what other clients do to the store
    between the read and the commit of the loop's [n]-th round. *)
Fixpoint mutateState (interfere : nat → S → S) (fuel : nat)
    (mutator : StateRecord → option Mutation) : stm S (run_error exn) StateRecord :=
  match fuel with
  | O => st_throw OutOfFuel
  | Datatypes.S fuel =>
      current <~ getState ;;
      match mutator current with
      | None => st_ret current
      | Some mutation =>
          st_modify (interfere fuel) ;;~
          commitResult <~ commit_next current mutation ;;
          if cr_ok commitResult then
            st_ret {| fields := mutation;
                      rec_version := or_default (rec_version (next_record current mutation))
                                       (cr_version commitResult) |}
          else mutateState interfere fuel mutator
      end
  end.

Definition no_interference : nat → S → S := λ _ s, s.

(** [execute(operation)]; [now0] is the clock at its start, [now1] at its end. *)
Definition execute {E A} `{FromExn E} (cfg : BreakerConfig) (fuel : nat) (now0 now1 : Z)
    (operation : stm S E A) : stm S (run_error E) A :=
  current <~ own getState ;;
  if fails_fast cfg now0 current then st_throw (Thrown (from_exn UnavailableError))
  else
    let stateBeforeOp := state current in
    λ s,
      let attempt :=
        (result <~ thrown operation ;;
         own (mutateState no_interference fuel (success_mutator cfg now1 stateBeforeOp)) ;;~
         st_ret result) s in
      match attempt with
      | (s, Ok result) => (s, Ok result)
      | (s, Err OutOfFuel) => (s, Err OutOfFuel)
      | (s, Err (Thrown e)) =>
          (own (mutateState no_interference fuel (failure_mutator cfg now1 stateBeforeOp)) ;;~
           st_throw (Thrown e)) s
      end.

(** [reset()] *)
Definition breaker_reset (fuel : nat) (now : Z) : stm S (run_error exn) unit :=
  mutateState no_interference fuel (reset_mutator now) ;;~ st_ret tt.
End breaker.

(** ** The record of a store *)

Section facts.
Context {S : Type} `{KvLaws S stored_value} (circuitKey : key) (Hkey : kv_valid circuitKey).
Implicit Types (s : S).

Definition breaker_record s : StateRecord := parse_state (fst <$> kv_entry s circuitKey).

(** The stored record carries the version of its entry: what every commit of a
    breaker establishes. *)
Definition synced s : Prop :=
  kv_inv s ∧
  match kv_entry s circuitKey with
  | None => True
  | Some (v, n) => ∃ m, v = stored {| fields := m; rec_version := n |}
  end.

Lemma synced_version s : synced s → rec_version (breaker_record s) = version_of (kv_entry s circuitKey).
Proof.
  unfold breaker_record. intros [_ Hs]. destruct (kv_entry s circuitKey) as [[v n]|]; [|done].
  by destruct Hs as [m ->].
Qed.

Lemma parse_stored m n : parse_state (Some (stored {| fields := m; rec_version := n |})) =
  {| fields := m; rec_version := n |}.
Proof. by destruct m. Qed.

Lemma breaker_record_entry s s' :
  kv_entry s' circuitKey = kv_entry s circuitKey → breaker_record s' = breaker_record s.
Proof. unfold breaker_record. by intros ->. Qed.

Lemma getState_spec s :
  synced s →
  ∃ s', getState circuitKey s = (s', Ok (breaker_record s)) ∧ synced s' ∧
        ∀ k, kv_valid k → kv_entry s' k = kv_entry s k.
Proof.
  intros [Hi Hs]. destruct (kv_get_spec s circuitKey Hi Hkey) as (s' & Hg & Hi' & He).
  exists s'. unfold getState, st_bind, thrown. rewrite Hg. split; [done|]. split; [|done].
  split; [done|]. by rewrite He.
Qed.

(** A commit succeeds exactly when the record has not been written since it was
    read, and then replaces it. *)
Lemma commit_next_spec s cur m :
  synced s →
  ∃ s' r, commit_next circuitKey cur m s = (s', Ok r) ∧ synced s' ∧
    (∀ k, kv_valid k → k ≠ circuitKey → kv_entry s' k = kv_entry s k) ∧
    if rec_version cur =? rec_version (breaker_record s) then
      r = {| cr_ok := true; cr_version := Some (rec_version cur + 1) |} ∧
      breaker_record s' = next_record cur m
    else r = {| cr_ok := false; cr_version := None |} ∧ breaker_record s' = breaker_record s.
Proof.
  intros Hs. pose proof (synced_version s Hs) as Hv. destruct Hs as [Hi Hs].
  destruct (kv_commit_spec s [{| ck_key := circuitKey; ck_expectedVersion := rec_version cur |}]
    [MSet circuitKey (stored (next_record cur m))] Hi) as (s' & Hi' & Hc); [by repeat constructor..|].
  unfold commit_next, thrown, checks_hold in *. cbn [forallb ck_key ck_expectedVersion] in Hc.
  rewrite andb_true_r, Z.eqb_sym, <-Hv in Hc. exists s'. destruct (_ =? _) eqn:E.
  - zbool. destruct Hc as [-> He]. eexists. split; [done|].
    assert (0 <= rec_version cur).
    { rewrite E, Hv. destruct (kv_entry s circuitKey) as [[v n]|] eqn:En; cbn; [|lia].
      apply kv_version_pos in En; [lia|done]. }
    assert (kv_entry s' circuitKey = Some (stored (next_record cur m), rec_version cur + 1)) as Hk.
    { rewrite He by done. cbn. rewrite decide_True by done. by rewrite E, Hv. }
    split; [|split; [|split]].
    + split; [done|]. rewrite Hk. by exists m.
    + intros k Hk' Hne. rewrite He by done. cbn. by rewrite decide_False.
    + cbn. rewrite decide_True by done. cbn. rewrite <-Hv, <-E.
      rewrite Z.max_r by lia. by rewrite (proj2 (Z.ltb_lt _ _)) by lia.
    + unfold breaker_record. rewrite Hk. cbn [fmap option_fmap option_map fst]. apply parse_stored.
  - destruct Hc as [-> He]. eexists. split; [done|]. split; [|split; [|split]].
    + split; [done|]. by rewrite He.
    + intros k Hk' _. by apply He.
    + done.
    + apply breaker_record_entry. by apply He.
Qed.

(** ** Interleaved clients

    [Ready f] is a [mutateState(f)] before its read, [Pending f cur m] one that
    has read [cur] and computed [m = f cur]; [Done b] has returned, having
    written iff [b].  [history] is the mutators whose commit succeeded, in
    order. *)
Definition mutator : Type := StateRecord → option Mutation.

Inductive client :=
| Ready (f : mutator)
| Pending (f : mutator) (cur : StateRecord) (m : Mutation)
| Done (wrote : bool).

Record world := { store : S; clients : list client; history : list mutator }.

(** The mutators the breaker's methods run. *)
Inductive breaker_mutator (cfg : BreakerConfig) : mutator → Prop :=
| bm_success now before : breaker_mutator cfg (success_mutator cfg now before)
| bm_failure now before : breaker_mutator cfg (failure_mutator cfg now before)
| bm_reset now : breaker_mutator cfg (reset_mutator now).

Inductive world_step (cfg : BreakerConfig) : world → world → Prop :=
| step_call s cl h f :
    breaker_mutator cfg f →
    world_step cfg {| store := s; clients := cl; history := h |}
      {| store := s; clients := cl ++ [Ready f]; history := h |}
| step_read s cl h i f s' cur :
    cl !! i = Some (Ready f) → getState circuitKey s = (s', Ok cur) →
    world_step cfg {| store := s; clients := cl; history := h |}
      {| store := s';
         clients := <[i := match f cur with Some m => Pending f cur m | None => Done false end]> cl;
         history := h |}
| step_commit s cl h i f cur m s' r :
    cl !! i = Some (Pending f cur m) → commit_next circuitKey cur m s = (s', Ok r) →
    world_step cfg {| store := s; clients := cl; history := h |}
      {| store := s'; clients := <[i := if cr_ok r then Done true else Ready f]> cl;
         history := if cr_ok r then h ++ [f] else h |}
| step_other s cl h s' :
    kv_inv s' → kv_entry s' circuitKey = kv_entry s circuitKey →
    world_step cfg {| store := s; clients := cl; history := h |}
      {| store := s'; clients := cl; history := h |}.

(** One mutator applied atomically. *)
Definition apply_mutator (r : StateRecord) (f : mutator) : StateRecord :=
  match f r with Some m => next_record r m | None => r end.
Definition replay (h : list mutator) : StateRecord :=
  fold_left apply_mutator h {| fields := initial; rec_version := 0 |}.

(** The states the breaker can be in. *)
Definition record_ok (cfg : BreakerConfig) (r : StateRecord) : Prop :=
  match state r with
  | Closed => 0 ≤ consecutiveFailures r < failureThreshold cfg ∧ consecutiveSuccesses r = 0
  | Open => failureThreshold cfg ≤ consecutiveFailures r ∧ consecutiveSuccesses r = 0
  | HalfOpen => consecutiveFailures r = 0 ∧
                1 ≤ consecutiveSuccesses r < halfOpenSuccessThreshold cfg
  end.

Lemma mutator_ok cfg f r m :
  0 < failureThreshold cfg → breaker_mutator cfg f → record_ok cfg r → f r = Some m →
  record_ok cfg (next_record r m).
Proof.
  intros Hf Hm Hr Heq. destruct r as [[st cf cs ls] ver]. unfold record_ok in *.
  destruct Hm as [now before|now before|now]; [destruct st, before..|];
    unfold success_mutator, failure_mutator, reset_mutator in Heq; cbn in *; split_ifs; simplify_eq/=; zbool;
    lia.
Qed.

Lemma replay_snoc h f : replay (h ++ [f]) = apply_mutator (replay h) f.
Proof. unfold replay. by rewrite fold_left_app. Qed.

Lemma rec_version_replay h :
  (∀ h1 f h2, h = h1 ++ f :: h2 → is_Some (f (replay h1))) → rec_version (replay h) = Z.of_nat (length h).
Proof.
  induction h as [|f h IH] using rev_ind; [done|]. intros Hall.
  rewrite replay_snoc, length_app. unfold apply_mutator.
  destruct (Hall h f [] eq_refl) as [m ->]. cbn. rewrite IH; [lia|].
  intros h1 f' h2 ->. apply (Hall h1 f' (h2 ++ [f])). by rewrite <-app_assoc.
Qed.

Definition wrote (c : client) : bool := match c with Done b => b | _ => false end.

(** What a client knows: its read is the record after some prefix of the
    history. *)
Definition client_ok (cfg : BreakerConfig) (h : list mutator) (c : client) : Prop :=
  match c with
  | Ready f => breaker_mutator cfg f
  | Pending f cur m =>
      breaker_mutator cfg f ∧ f cur = Some m ∧
      ∃ h1 h2, h = h1 ++ h2 ∧ cur = replay h1 ∧ rec_version cur = Z.of_nat (length h1)
  | Done _ => True
  end.

Definition world_ok (cfg : BreakerConfig) (w : world) : Prop :=
  synced (store w) ∧ breaker_record (store w) = replay (history w) ∧
  rec_version (replay (history w)) = Z.of_nat (length (history w)) ∧
  Forall (client_ok cfg (history w)) (clients w) ∧
  record_ok cfg (replay (history w)) ∧
  length (filter (λ c, wrote c = true) (clients w)) = length (history w).

Lemma client_ok_extend cfg h f c : client_ok cfg h c → client_ok cfg (h ++ [f]) c.
Proof.
  destruct c as [f'|f' cur m|b]; cbn; [done| |done].
  intros (? & ? & h1 & h2 & -> & ? & ?). split_and!; [done..|].
  exists h1, (h2 ++ [f]). by rewrite <-app_assoc.
Qed.

Lemma filter_wrote_insert (cl : list client) i c c' :
  cl !! i = Some c → wrote c = false →
  length (filter (λ c, wrote c = true) (<[i := c']> cl)) =
  (length (filter (λ c, wrote c = true) cl) + if wrote c' then 1 else 0)%nat.
Proof.
  intros Hi Hc. rewrite <-(take_drop_middle cl i c) at 2 by done.
  rewrite insert_take_drop by by eapply lookup_lt_Some.
  rewrite !filter_app, !filter_cons, !length_app. rewrite (decide_False _ _ (P := wrote c = true)) by congruence.
  destruct (wrote c'); [rewrite decide_True|rewrite decide_False]; cbn; try done; lia.
Qed.

Lemma world_step_ok cfg w w' :
  0 < failureThreshold cfg → world_ok cfg w → world_step cfg w w' → world_ok cfg w'.
Proof.
  intros Hth (Hs & Hr & Hv & Hcl & Hok & Hw) Hstep.
  destruct Hstep as [s cl h f Hf|s cl h i f s' cur Hi Hg|s cl h i f cur m s' r Hi Hc|s cl h s' Hi' He];
    cbn [store clients history] in *.
  - split_and!; try done.
    + apply Forall_app; split; [done|by repeat constructor].
    + cbn. rewrite filter_app, filter_cons, decide_False by done. by rewrite app_nil_r.
  - destruct (getState_spec s Hs) as (s1 & Hg' & Hs1 & He). rewrite Hg in Hg'. simplify_eq.
    assert (breaker_record s1 = breaker_record s) as Hr1 by (apply breaker_record_entry, He, Hkey).
    pose proof Hcl as Hf. eapply Forall_lookup_1 in Hf; [|exact Hi]. cbn in Hf.
    split_and!; cbn [store clients history]; try done; [congruence| |].
    + apply Forall_insert; [done|]. destruct (f (breaker_record s)) as [m|] eqn:Em; [|done].
      split_and!; [done..|]. exists h, []. rewrite app_nil_r. split_and!; [done..|]. congruence.
    + erewrite filter_wrote_insert by done. destruct (f _); cbn; lia.
  - destruct (commit_next_spec s cur m Hs) as (s1 & r1 & Hc' & Hs1 & _ & He).
    rewrite Hc in Hc'. simplify_eq.
    pose proof Hcl as Hp. eapply Forall_lookup_1 in Hp; [|exact Hi].
    destruct Hp as (Hf & Hm & h1 & h2 & -> & -> & Hv1).
    rewrite Hr, Hv1, Hv, length_app in He. destruct (_ =? _) eqn:E.
    + destruct He as [-> He]. zbool. assert (h2 = []) as -> by (destruct h2; [done|cbn in *; lia]).
      rewrite app_nil_r in *. cbn [cr_ok].
      assert (replay (h1 ++ [f]) = next_record (replay h1) m) as Hrep
        by (rewrite replay_snoc; unfold apply_mutator; by rewrite Hm).
      split_and!; cbn [store clients history]; try done; [congruence|rewrite Hrep, length_app; cbn; lia| | |].
      * apply Forall_insert; [|done]. eapply Forall_impl; [exact Hcl|]. intros; by apply client_ok_extend.
      * rewrite Hrep. by eapply mutator_ok.
      * erewrite filter_wrote_insert by done. cbn. rewrite length_app. cbn. lia.
    + destruct He as [-> He]. cbn [cr_ok].
      split_and!; cbn [store clients history]; try done; [|].
      * by apply Forall_insert.
      * erewrite filter_wrote_insert by done. cbn. lia.
  - split_and!; cbn [store clients history]; try done.
    + destruct Hs as [_ Hs]. split; [done|]. by rewrite He.
    + rewrite <-Hr. by apply breaker_record_entry.
Qed.

(** No lost update: for any number of clients whose [mutateState] calls
    interleave in any way (each read and each commit is one step; other keys may
    change at any time), the record under the key is always the result of
    applying the committed mutators one after the other, its version counts
    them, every call that reports having written is exactly one of them, and the
    record satisfies the breaker's state invariant. *)
Theorem breaker_linearizable cfg s0 w :
  0 < failureThreshold cfg → synced s0 → kv_entry s0 circuitKey = None →
  rtc (world_step cfg) {| store := s0; clients := []; history := [] |} w →
  breaker_record (store w) = replay (history w) ∧
  rec_version (breaker_record (store w)) = Z.of_nat (length (history w)) ∧
  length (filter (λ c, wrote c = true) (clients w)) = length (history w) ∧
  record_ok cfg (breaker_record (store w)).
Proof.
  intros Hth Hs He Hr.
  assert (world_ok cfg {| store := s0; clients := []; history := [] |}) as H0'.
  { split_and!; cbn [store clients history]; try done.
    unfold breaker_record. by rewrite He. }
  apply (invariant_rtc _ (world_ok cfg)) in Hr; [|intros w1 w2 Hw1 Hstep; by eapply world_step_ok|done].
  destruct Hr as (_ & Hrec & Hv & _ & Hok & Hw). by rewrite Hrec.
Qed.

(** ** The retry loop *)

(** One undisturbed round writes. *)
Lemma mutate_round s f interfere fuel :
  synced s → (∀ s', interfere fuel s' = s') →
  ∃ s', mutateState circuitKey interfere (Datatypes.S fuel) f s =
          (s', Ok (apply_mutator (breaker_record s) f)) ∧
        synced s' ∧ breaker_record s' = apply_mutator (breaker_record s) f ∧
        ∀ k, kv_valid k → k ≠ circuitKey → kv_entry s' k = kv_entry s k.
Proof.
  intros Hs Hint. destruct (getState_spec s Hs) as (s1 & Hg & Hs1 & He1).
  assert (breaker_record s1 = breaker_record s) as Hr1 by (apply breaker_record_entry, He1, Hkey).
  cbn [mutateState]. unfold st_bind at 1. rewrite Hg. unfold apply_mutator.
  destruct (f (breaker_record s)) as [m|].
  - unfold st_bind, st_modify. rewrite Hint.
    destruct (commit_next_spec s1 (breaker_record s) m Hs1) as (s2 & r & Hc & Hs2 & He2 & Hr2).
    rewrite Hc. rewrite Hr1, Z.eqb_refl in Hr2. destruct Hr2 as [-> Hr2]. exists s2.
    split_and!; [done|done|done|]. intros k Hk Hne. by rewrite He2, He1.
  - exists s1. split_and!; [done|done|done|]. intros k Hk _. by apply He1.
Qed.

(** The compare-and-swap loop of [mutateState] ends: whatever valid records
    other clients commit between its reads and its writes in the early rounds,
    it returns as soon as one of its rounds is not disturbed, having applied its
    mutator to the record of that moment. *)
Theorem mutateState_terminates s f interfere undisturbed fuel :
  synced s →
  (∀ n s', synced s' → synced (interfere n s')) →
  (∀ n s', (n < undisturbed)%nat → interfere n s' = s') →
  (1 ≤ undisturbed ≤ fuel)%nat →
  ∃ s' r, mutateState circuitKey interfere fuel f s = (s', Ok r) ∧ synced s' ∧
    (f r = None ∨ ∃ m prev, r = next_record prev m ∧ f prev = Some m ∧ breaker_record s' = r).
Proof.
  intros Hs Hsync Hquiet Hn. revert s Hs. induction fuel as [|fuel IH]; intros s Hs; [lia|].
  destruct (decide (fuel < undisturbed)%nat) as [Hq|Hq].
  - destruct (mutate_round s f interfere fuel Hs (λ s', Hquiet fuel s' Hq)) as (s' & Hm & Hs' & Hr & _).
    eexists s', _. split; [done|]. split; [done|]. unfold apply_mutator in *.
    destruct (f (breaker_record s)) as [m|] eqn:E; [|by left]. right. by exists m, (breaker_record s).
  - destruct (getState_spec s Hs) as (s1 & Hg & Hs1 & He1). cbn [mutateState].
    unfold st_bind at 1. rewrite Hg. destruct (f (breaker_record s)) as [m|] eqn:E.
    + unfold st_bind, st_modify.
      destruct (commit_next_spec (interfere fuel s1) (breaker_record s) m (Hsync _ _ Hs1))
        as (s2 & r & Hc & Hs2 & He2 & Hr2).
      rewrite Hc. destruct (rec_version _ =? _) eqn:Ev.
      * destruct Hr2 as [-> Hr2]. eexists s2, _. split; [done|]. split; [done|]. right.
        exists m, (breaker_record s). split_and!; [done|done|]. by rewrite Hr2.
      * destruct Hr2 as [-> Hr2]. cbn [cr_ok]. apply IH; [lia|done].
    + eexists s1, _. split; [done|]. split; [done|]. by left.
Qed.

(** The loop has no way out of a key that holds a value other than an object
    (a number, say): [getState] then reports version 0 while the store's version
    is at least 1, so that every commit conflicts and [mutateState], hence
    [reset] and the recording of a failed call, retry for ever. *)
Theorem mutateState_livelock s n f m fuel :
  kv_inv s → kv_entry s circuitKey = Some (NotAnObject, n) →
  f {| fields := initial; rec_version := 0 |} = Some m →
  (mutateState circuitKey no_interference fuel f s).2 = Err OutOfFuel.
Proof.
  intros Hi He Hf. revert s Hi He. induction fuel as [|fuel IH]; intros s Hi He; [done|].
  destruct (kv_get_spec s circuitKey Hi Hkey) as (s1 & Hg & Hi1 & He1).
  cbn [mutateState]. unfold getState, thrown, st_bind at 1 2. rewrite Hg, He.
  cbn [fmap option_fmap option_map fst parse_state st_ret]. rewrite Hf.
  unfold st_bind at 1, st_modify, no_interference. unfold st_bind, commit_next, thrown.
  destruct (kv_commit_spec s1 [{| ck_key := circuitKey; ck_expectedVersion := 0 |}]
    [MSet circuitKey (stored (next_record {| fields := initial; rec_version := 0 |} m))] Hi1)
    as (s2 & Hi2 & Hc); [by repeat constructor..|].
  unfold checks_hold in Hc. cbn [forallb ck_key ck_expectedVersion] in Hc.
  rewrite He1, He in Hc by done. cbn [version_of] in Hc.
  assert (1 ≤ n) as Hn by by apply (kv_version_pos s circuitKey NotAnObject n).
  rewrite (proj2 (Z.eqb_neq n 0)) in Hc by lia. cbn [andb] in Hc. destruct Hc as [Hc He2].
  cbn [rec_version]. rewrite Hc. cbn [cr_ok]. apply IH; [done|]. by rewrite He2, He1.
Qed.

(** ** Calls one after the other *)

(** The effect of [execute] on the record. *)
Definition execute_effect {A} (cfg : BreakerConfig) (now0 now1 : Z) (r : result exn A)
    (rec : StateRecord) : StateRecord :=
  if fails_fast cfg now0 rec then rec
  else apply_mutator rec
         match r with
         | Ok _ => success_mutator cfg now1 (state rec)
         | Err _ => failure_mutator cfg now1 (state rec)
         end.

(** An operation that leaves the record alone. *)
Definition leaves_record {E A} (operation : stm S E A) : Prop :=
  ∀ s, synced s → synced (operation s).1 ∧ breaker_record (operation s).1 = breaker_record s.

Lemma own_getState_spec {E} `{FromExn E} s :
  synced s →
  ∃ s', own (E:=E) (getState circuitKey) s = (s', Ok (breaker_record s)) ∧
        getState circuitKey s = (s', Ok (breaker_record s)) ∧ synced s' ∧
        breaker_record s' = breaker_record s.
Proof.
  intros Hs. destruct (getState_spec s Hs) as (s1 & Hg & Hs1 & He1). exists s1. unfold own.
  rewrite Hg. split_and!; [done..|]. apply breaker_record_entry, He1, Hkey.
Qed.

Lemma own_mutate_round {E} `{FromExn E} s f fuel :
  synced s →
  ∃ s' r, own (E:=E) (mutateState circuitKey no_interference (Datatypes.S fuel) f) s = (s', Ok r) ∧
        mutateState circuitKey no_interference (Datatypes.S fuel) f s = (s', Ok r) ∧
        synced s' ∧ breaker_record s' = apply_mutator (breaker_record s) f.
Proof.
  intros Hs.
  destruct (mutate_round s f no_interference fuel Hs (λ _, eq_refl)) as (s2 & Hm & Hs2 & Hr2 & _).
  unfold own. rewrite Hm. eauto 10.
Qed.

(** The operation runs once, in the state [s1] that reading the record leaves,
    unless the breaker fails fast. *)
Lemma execute_runs {E A} `{FromExn E} cfg fuel now0 now1 (operation : stm S E A) s :
  synced s → leaves_record operation →
  ∃ s1 s2,
    getState circuitKey s = (s1, Ok (breaker_record s)) ∧ synced s2 ∧
    if fails_fast cfg now0 (breaker_record s) then
      execute circuitKey cfg (Datatypes.S fuel) now0 now1 operation s =
        (s1, Err (Thrown (from_exn UnavailableError))) ∧ s2 = s1 ∧
      breaker_record s2 = breaker_record s
    else
      let f := match (operation s1).2 with
               | Ok _ => success_mutator cfg now1 (state (breaker_record s))
               | Err _ => failure_mutator cfg now1 (state (breaker_record s))
               end in
      execute circuitKey cfg (Datatypes.S fuel) now0 now1 operation s =
        (s2, match (operation s1).2 with Ok a => Ok a | Err e => Err (Thrown e) end) ∧
      (∃ r, mutateState circuitKey no_interference (Datatypes.S fuel) f (operation s1).1 = (s2, Ok r)) ∧
      breaker_record s2 = apply_mutator (breaker_record s) f.
Proof.
  intros Hs Hop. destruct (own_getState_spec (E:=E) s Hs) as (s1 & Ho & Hg & Hs1 & Hr1).
  destruct (Hop s1 Hs1) as [Hso Hro].
  exists s1. unfold execute, thrown, st_bind. rewrite Ho.
  destruct (fails_fast _ _ _); [by exists s1|].
  destruct (operation s1) as [so [a|e]] eqn:Eo; cbn [fst snd] in *.
  - destruct (own_mutate_round (E:=E) so (success_mutator cfg now1 (state (breaker_record s))) fuel Hso)
      as (s2 & r & Hm & Hm' & Hs2 & Hr2).
    rewrite Hm. exists s2. split_and!; [done|done|done|by exists r|]. by rewrite Hr2, Hro, Hr1.
  - destruct (own_mutate_round (E:=E) so (failure_mutator cfg now1 (state (breaker_record s))) fuel Hso)
      as (s2 & r & Hm & Hm' & Hs2 & Hr2).
    rewrite Hm. exists s2. split_and!; [done|done|done|by exists r|]. by rewrite Hr2, Hro, Hr1.
Qed.

(** An operation that may do anything to the store but leaves the record alone, and
    that always returns, or always throws *)
Definition ends (ok : bool) (operation : stm S exn unit) : Prop :=
  leaves_record operation ∧ ∀ s, synced s → is_ok (operation s).2 = ok.

(** While the breaker fails fast the operation is not run at all: the store is the
    one that reading the record leaves. *)
Lemma execute_fast {A} cfg fuel now0 now1 (operation : stm S exn A) s :
  synced s → fails_fast cfg now0 (breaker_record s) = true →
  execute circuitKey cfg fuel now0 now1 operation s = ((getState circuitKey s).1, Err (Thrown UnavailableError)).
Proof.
  intros Hs Hf. destruct (own_getState_spec (E:=exn) s Hs) as (s1 & Ho & Hg & _).
  unfold execute, st_bind. rewrite Ho, Hf, Hg. done.
Qed.

Lemma execute_spec cfg fuel now0 now1 operation (r : result exn unit) s :
  synced s → ends (is_ok r) operation →
  let s' := (execute circuitKey cfg (Datatypes.S fuel) now0 now1 operation s).1 in
  synced s' ∧ breaker_record s' = execute_effect cfg now0 now1 r (breaker_record s).
Proof.
  intros Hs [Hop Hr]. destruct (execute_runs cfg fuel now0 now1 operation s Hs Hop) as (s1 & s2 & Hg & Hs2 & Hx).
  unfold execute_effect. destruct (fails_fast _ _ _).
  - destruct Hx as (-> & <- & Hx). done.
  - destruct Hx as (-> & _ & Hx). cbn [fst]. split; [done|]. rewrite Hx.
    destruct (getState_spec s Hs) as (s1' & Hg' & Hs1 & _). rewrite Hg in Hg'. injection Hg' as <-.
    specialize (Hr s1 Hs1). destruct (operation s1).2, r; done.
Qed.

(** A sequence of calls, each with its time and its operation *)
Fixpoint run_calls (cfg : BreakerConfig) (calls : list (Z * stm S exn unit)) s
    : S * list (result (run_error exn) unit) :=
  match calls with
  | [] => (s, [])
  | (now, operation) :: calls =>
      let '(s, out) := execute circuitKey cfg 1 now now operation s in
      let '(s, outs) := run_calls cfg calls s in
      (s, out :: outs)
  end.

Definition effects (cfg : BreakerConfig) (calls : list (Z * result exn unit)) (r : StateRecord) : StateRecord :=
  fold_left (λ r c, execute_effect cfg c.1 c.1 c.2 r) calls r.

(** Calls that all return, or all throw, at the given times *)
Definition calls_at (ok : bool) (calls : list (Z * stm S exn unit)) (ts : list Z) : Prop :=
  calls.*1 = ts ∧ Forall (λ c, ends ok c.2) calls.

Lemma run_calls_effects cfg (r : result exn unit) calls ts s :
  synced s → calls_at (is_ok r) calls ts →
  synced (run_calls cfg calls s).1 ∧
  breaker_record (run_calls cfg calls s).1 = effects cfg ((λ t, (t, r)) <$> ts) (breaker_record s).
Proof.
  intros Hs [<- Hops]. revert s Hs. induction Hops as [|[now op] calls Hop _ IH]; intros s Hs; [done|].
  destruct (execute_spec cfg 0 now now op r s Hs Hop) as [Hs' Hr]. cbn [run_calls].
  destruct (execute circuitKey cfg 1 now now op s) as [s' out]. cbn [fst] in Hs', Hr.
  destruct (IH s' Hs') as [H1 H2]. destruct (run_calls cfg calls s') as [s'' outs].
  cbn [fst] in *. split; [done|]. rewrite H2, Hr. done.
Qed.

Definition failed_calls (ts : list Z) : list (Z * result exn unit) := (λ t, (t, Err PlainError)) <$> ts.
Definition good_calls (ts : list Z) : list (Z * result exn unit) := (λ t, (t, Ok tt)) <$> ts.

Lemma effects_app cfg c1 c2 r : effects cfg (c1 ++ c2) r = effects cfg c2 (effects cfg c1 r).
Proof. apply fold_left_app. Qed.

Lemma effects_fail cfg t ts r :
  effects cfg (failed_calls (t :: ts)) r =
  effects cfg (failed_calls ts) (execute_effect (A:=unit) cfg t t (Err PlainError) r).
Proof. done. Qed.
Lemma effects_good cfg t ts r :
  effects cfg (good_calls (t :: ts)) r =
  effects cfg (good_calls ts) (execute_effect cfg t t (Ok tt) r).
Proof. done. Qed.

Lemma closed_failures cfg ts r :
  state r = Closed → consecutiveFailures r + Z.of_nat (length ts) < failureThreshold cfg →
  effects cfg (failed_calls ts) r =
    {| fields := {| m_state := Closed;
                    m_consecutiveFailures := consecutiveFailures r + Z.of_nat (length ts);
                    m_consecutiveSuccesses := if bool_decide (ts = []) then consecutiveSuccesses r else 0;
                    m_lastStateChangeEpochMs := lastStateChangeEpochMs r |};
       rec_version := rec_version r + Z.of_nat (length ts) |}.
Proof.
  revert r. induction ts as [|t ts IH]; intros [[st cf cs ls] v] Hst Hlt;
    cbn [fields m_state m_consecutiveFailures length] in *; subst; [cbn; by rewrite !Z.add_0_r|].
  rewrite effects_fail. unfold execute_effect, fails_fast, apply_mutator, failure_mutator. cbn.
  rewrite (proj2 (Z.leb_gt _ _)) by lia. rewrite IH by (done || cbn; lia).
  cbn. f_equal; [f_equal; [lia|by case_bool_decide]|lia].
Qed.

Lemma trip cfg ts t r :
  state r = Closed → 0 ≤ consecutiveFailures r →
  consecutiveFailures r + Z.of_nat (length ts) + 1 = failureThreshold cfg →
  effects cfg (failed_calls (ts ++ [t])) r =
    {| fields := {| m_state := Open; m_consecutiveFailures := failureThreshold cfg;
                    m_consecutiveSuccesses := 0; m_lastStateChangeEpochMs := t |};
       rec_version := rec_version r + Z.of_nat (length ts) + 1 |}.
Proof.
  intros Hst H0' Hlen. unfold failed_calls. rewrite fmap_app. rewrite effects_app.
  rewrite (closed_failures cfg ts) by (done || lia). unfold effects. cbn.
  unfold execute_effect, fails_fast, apply_mutator, failure_mutator, next_record. cbn.
  rewrite (proj2 (Z.leb_le _ _)) by lia. cbn. f_equal. f_equal. lia.
Qed.

Lemma half_open_successes cfg ts r :
  state r = HalfOpen → consecutiveSuccesses r + Z.of_nat (length ts) < halfOpenSuccessThreshold cfg →
  state (effects cfg (good_calls ts) r) = HalfOpen ∧
  consecutiveSuccesses (effects cfg (good_calls ts) r) = consecutiveSuccesses r + Z.of_nat (length ts).
Proof.
  revert r. induction ts as [|t ts IH]; intros [[st cf cs ls] v] Hst Hlt;
    cbn [fields m_state m_consecutiveSuccesses length] in *; subst; [cbn; split; [done|lia]|].
  rewrite effects_good. unfold execute_effect, fails_fast, apply_mutator, success_mutator. cbn.
  rewrite (proj2 (Z.leb_gt _ _)) by lia.
  set (r1 := next_record _ _). destruct (IH r1) as [H1 H2]; [done|cbn; lia|].
  split; [exact H1|]. etransitivity; [exact H2|]. cbn. lia.
Qed.

Lemma recovery cfg ts t r :
  state r = Open → Z.of_nat (length ts) + 1 = halfOpenSuccessThreshold cfg →
  Forall (λ u, cooldownMs cfg ≤ u - lastStateChangeEpochMs r) (ts ++ [t]) →
  fields (effects cfg (good_calls (ts ++ [t])) r) =
    {| m_state := Closed; m_consecutiveFailures := 0; m_consecutiveSuccesses := 0;
       m_lastStateChangeEpochMs := t |}.
Proof.
  destruct r as [[st cf cs ls] v]. cbn. intros -> Hlen Hall.
  destruct ts as [|u ts].
  - apply Forall_cons in Hall as [Ht _]. cbn [app length] in *. rewrite effects_good.
    unfold execute_effect, fails_fast, apply_mutator, success_mutator. cbn.
    rewrite (proj2 (Z.ltb_ge _ _)) by lia. cbn. by rewrite (proj2 (Z.leb_le _ 1)) by lia.
  - cbn [app length] in *. apply Forall_cons in Hall as [Hu _]. rewrite effects_good.
    unfold execute_effect, fails_fast, apply_mutator, success_mutator. cbn.
    rewrite (proj2 (Z.ltb_ge _ _)) by lia. cbn. rewrite (proj2 (Z.leb_gt _ 1)) by lia.
    set (r1 := next_record _ _). unfold good_calls. rewrite fmap_app, effects_app.
    fold (good_calls ts).
    destruct (half_open_successes cfg ts r1) as [H1 H2]; [done|cbn; lia|].
    destruct (effects cfg (good_calls ts) r1) as [[st' cf' cs' ls'] v']. cbn in *. subst.
    unfold execute_effect, fails_fast, apply_mutator, success_mutator. cbn.
    by rewrite (proj2 (Z.leb_le _ _)) by lia.
Qed.

(** C26: The life cycle of the breaker, for operations that may do anything to the
    store, the breaker's own record apart.  From a fresh key, [failureThreshold]
    failing calls in a row open it (and no fewer); while it is open and the
    cooldown has not elapsed, every call throws [UnavailableError] and its
    operation, whatever it is, is not run: the store is the one that reading the
    record leaves, with every entry as it was; after the cooldown,
    [halfOpenSuccessThreshold] successful calls in a row close it and reset the
    counters, and a first failing call opens it again for a whole cooldown. *)
Theorem breaker_lifecycle cfg s calls op ts t :
  1 ≤ failureThreshold cfg → synced s → kv_entry s circuitKey = None →
  calls_at false calls ts → ends false op →
  Z.of_nat (length (ts ++ [t])) = failureThreshold cfg →
  state (breaker_record (run_calls cfg calls s).1) = Closed ∧
  let open_store := (run_calls cfg (calls ++ [(t, op)]) s).1 in
  synced open_store ∧
  fields (breaker_record open_store) =
    {| m_state := Open; m_consecutiveFailures := failureThreshold cfg;
       m_consecutiveSuccesses := 0; m_lastStateChangeEpochMs := t |} ∧
  (∀ A now fuel (operation : stm S exn A), now - t < cooldownMs cfg →
     execute circuitKey cfg fuel now now operation open_store =
       ((getState circuitKey open_store).1, Err (Thrown UnavailableError)) ∧
     ∀ k, kv_valid k → kv_entry (getState circuitKey open_store).1 k = kv_entry open_store k) ∧
  (∀ good us u, calls_at true good (us ++ [u]) → Z.of_nat (length (us ++ [u])) = halfOpenSuccessThreshold cfg →
     Forall (λ v, cooldownMs cfg ≤ v - t) (us ++ [u]) →
     fields (breaker_record (run_calls cfg good open_store).1) =
       {| m_state := Closed; m_consecutiveFailures := 0; m_consecutiveSuccesses := 0;
          m_lastStateChangeEpochMs := u |}) ∧
  (∀ u bad, ends false bad → cooldownMs cfg ≤ u - t →
     fields (breaker_record (run_calls cfg [(u, bad)] open_store).1) =
       {| m_state := Open; m_consecutiveFailures := failureThreshold cfg;
          m_consecutiveSuccesses := 0; m_lastStateChangeEpochMs := u |}).
Proof.
  intros Hth Hs He Hcalls Hop Hlen. rewrite length_app in Hlen. cbn [length] in Hlen.
  assert (breaker_record s = {| fields := initial; rec_version := 0 |}) as Hr0
    by (unfold breaker_record; by rewrite He).
  split.
  { destruct (run_calls_effects cfg (Err PlainError) calls ts s Hs Hcalls) as [_ ->].
    change ((λ t, (t, Err PlainError)) <$> ts) with (failed_calls ts).
    rewrite Hr0, closed_failures by (done || cbn; lia). done. }
  destruct (run_calls_effects cfg (Err PlainError) (calls ++ [(t, op)]) (ts ++ [t]) s Hs) as [Hs1 Hr1].
  { destruct Hcalls as [<- Hall]. split; [by rewrite fmap_app|]. apply Forall_app. split; [done|by apply Forall_singleton]. }
  change ((λ t, (t, Err PlainError)) <$> (ts ++ [t])) with (failed_calls (ts ++ [t])) in Hr1.
  rewrite Hr0, trip in Hr1 by (done || cbn; lia). cbv zeta.
  set (s1 := (run_calls cfg (calls ++ [(t, op)]) s).1) in *.
  split; [exact Hs1|]. split; [by rewrite Hr1|]. split; [|split].
  - intros A now fuel operation Hnow. split.
    + apply execute_fast; [done|]. unfold fails_fast. rewrite Hr1. cbn. by rewrite (proj2 (Z.ltb_lt _ _)) by lia.
    + destruct (getState_spec s1 Hs1) as (s2 & Hg & _ & He2). by rewrite Hg.
  - intros good us u Hgood Hlen' Hall.
    destruct (run_calls_effects cfg (Ok tt) good (us ++ [u]) s1 Hs1 Hgood) as [_ ->].
    rewrite length_app in Hlen'. cbn [length] in Hlen'.
    apply recovery; [by rewrite Hr1|lia|]. rewrite Hr1. exact Hall.
  - intros u bad Hbad Hu. destruct (run_calls_effects cfg (Err PlainError) [(u, bad)] [u] s1 Hs1) as [_ ->].
    { split; [done|by apply Forall_singleton]. }
    rewrite Hr1. cbn. unfold execute_effect, fails_fast, apply_mutator, failure_mutator. cbn.
    by rewrite (proj2 (Z.ltb_ge _ _)) by lia.
Qed.
End facts.

(** ** A breaker on the SQLite provider *)

Definition demo_key : key := [js "circuit"; js "billing"].
Definition demo_cfg : BreakerConfig :=
  {| failureThreshold := 2; cooldownMs := 30000; halfOpenSuccessThreshold := 2 |}.
Definition demo_store : kv_db stored_value := {| clock := 0; kv_entries := ∅ |}.

Lemma demo_key_valid : kv_valid (S := kv_db stored_value) (V := stored_value) demo_key.
Proof.
  split; [|split; [vm_compute; reflexivity|eexists; vm_compute; reflexivity]].
  repeat constructor; vm_compute; discriminate.
Defined.

Lemma demo_synced : synced demo_key demo_store.
Proof. split; [apply map_Forall_empty|vm_compute; exact I]. Defined.

(** Two clients read the fresh record; one commits, the other conflicts. *)
Theorem breaker_linearizable_witness :
  ∃ w : world,
    rtc (world_step demo_key demo_cfg) {| store := demo_store; clients := []; history := [] |} w ∧
    length (history w) = 1%nat ∧
    rec_version (breaker_record demo_key (store w)) = 1.
Proof.
  set (f := failure_mutator demo_cfg 5 Closed). set (s1 := (getState demo_key demo_store).1).
  set (cur := {| fields := initial; rec_version := 0 |}).
  set (m := {| m_state := Closed; m_consecutiveFailures := 1; m_consecutiveSuccesses := 0;
               m_lastStateChangeEpochMs := 0 |}).
  set (s2 := (commit_next demo_key cur m s1).1).
  set (w := {| store := s2; clients := [Done true; Ready f]; history := [f] |} : world).
  assert (rtc (world_step demo_key demo_cfg)
    {| store := demo_store; clients := []; history := [] |} w) as Hr.
  { eapply rtc_l; [apply (step_call _ _ _ _ _ f); constructor|].
    eapply rtc_l; [apply (step_call _ _ _ _ _ f); constructor|].
    eapply rtc_l; [apply (step_read _ _ _ _ _ 0 f s1 cur); reflexivity|].
    eapply rtc_l; [apply (step_read _ _ _ _ _ 1 f s1 cur); reflexivity|].
    eapply rtc_l; [apply (step_commit _ _ _ _ _ 0 f cur m s2 {| cr_ok := true; cr_version := Some 1 |});
      vm_compute; reflexivity|].
    eapply rtc_l; [apply (step_commit _ _ _ _ _ 1 f cur m s2 {| cr_ok := false; cr_version := None |});
      vm_compute; reflexivity|].
    apply rtc_refl. }
  exists w. split; [exact Hr|]. split; [reflexivity|].
  destruct (breaker_linearizable demo_key demo_key_valid demo_cfg demo_store w) as (_ & Hv & _);
    [vm_compute; reflexivity|exact demo_synced|vm_compute; reflexivity|exact Hr|exact Hv].
Defined.

Theorem mutateState_terminates_witness :
  ∃ s' r,
    mutateState demo_key no_interference 1 (reset_mutator 7) demo_store = (s', Ok r) ∧
    synced demo_key s'.
Proof.
  destruct (mutateState_terminates demo_key demo_key_valid demo_store (reset_mutator 7)
    no_interference 1 1 demo_synced (λ _ _ H, H) (λ _ _ _, eq_refl) ltac:(lia))
    as (s' & r & H1 & H2 & _).
  exists s', r. split; [exact H1|exact H2].
Defined.

Theorem mutateState_livelock_witness :
  (mutateState demo_key no_interference 100 (reset_mutator 7)
    (sqlite_set demo_key NotAnObject None demo_store).1).2 = Err OutOfFuel.
Proof.
  apply (mutateState_livelock demo_key demo_key_valid _ 1 _
    {| m_state := Closed; m_consecutiveFailures := 0; m_consecutiveSuccesses := 0;
       m_lastStateChangeEpochMs := 7 |}).
  - apply map_Forall_insert_2; [vm_compute; discriminate|apply map_Forall_empty].
  - vm_compute. reflexivity.
  - reflexivity.
Defined.

(** An operation that counts its runs in another entry, and then ends with [r] *)
Definition counter_key : key := [js "billing"; js "calls"].
Definition counted (r : result exn unit) : stm (kv_db stored_value) exn unit := λ d,
  ((sqlite_set counter_key (PartialRecord None (Some 1) None None None) None d).1, r).

Lemma counter_key_valid : sqlite_valid counter_key.
Proof.
  split; [|split; [vm_compute; reflexivity|eexists; vm_compute; reflexivity]].
  repeat constructor; vm_compute; discriminate.
Qed.

Lemma counted_ends r : ends demo_key (is_ok r) (counted r).
Proof.
  split; [|done]. intros s [Hi Hs]. cbn [counted fst].
  destruct (sqlite_set_frame s counter_key (PartialRecord None (Some 1) None None None) None demo_key Hi)
    as [Hi' He]; [apply counter_key_valid|apply demo_key_valid|intros E; apply (f_equal (λ k : key, k !! 0%nat)) in E;
      vm_compute in E; discriminate|].
  split; [split; [exact Hi'|]|apply breaker_record_entry; exact He].
  change (kv_entry (S := kv_db stored_value)) with (@sqlite_entry stored_value) in *. by rewrite He.
Qed.

Theorem breaker_lifecycle_witness :
  let bad := counted (Err PlainError) in let good := counted (Ok tt) in
  let open_store := (run_calls demo_key demo_cfg [(10, bad); (20, bad)] demo_store).1 in
  execute demo_key demo_cfg 1 500 500 good open_store =
    ((getState demo_key open_store).1, Err (Thrown UnavailableError)) ∧
  fields (breaker_record demo_key
    (run_calls demo_key demo_cfg [(30020, good); (30030, good)] open_store).1) =
    {| m_state := Closed; m_consecutiveFailures := 0; m_consecutiveSuccesses := 0;
       m_lastStateChangeEpochMs := 30030 |}.
Proof.
  intros bad good. pose proof (counted_ends (Err PlainError)) as Hbad. pose proof (counted_ends (Ok tt)) as Hgood.
  destruct (breaker_lifecycle demo_key demo_key_valid demo_cfg demo_store [(10, bad)] bad [10] 20)
    as (_ & H); [vm_compute; discriminate|exact demo_synced|vm_compute; reflexivity|
                 split; [reflexivity|apply Forall_singleton; exact Hbad]|exact Hbad|reflexivity|].
  cbv zeta in *. destruct H as (_ & _ & Hfast & Hrec & _). split.
  - apply (Hfast unit 500 1%nat good). vm_compute. reflexivity.
  - apply (Hrec [(30020, good); (30030, good)] [30020] 30030).
    + split; [reflexivity|]. apply Forall_cons; split; [exact Hgood|apply Forall_singleton; exact Hgood].
    + reflexivity.
    + repeat constructor; vm_compute; discriminate.
Defined.
