(* ===== verification/TenantGuard.v ===== *)
(** * The tenant guard ([providers/guard/tenant-guard.ts], PLAT-7)

    Every operation of a guarded provider first checks that its key belongs to
    the tenant the guard was built for, then delegates.  The isolation theorems
    are proved for any key-value provider that satisfies [KvLaws]. *)

From S2P Require Import Prelude JsString JsValue Errors KvInterface SqliteKv.

Open Scope Z_scope.
Open Scope railfog_scope.

Record TenantContext := { orgId : jstr; projectId : jstr }.

(** The test shared by identifiers and segments: traversal, slashes, a null byte
    or an encoded traversal. *)
Definition has_traversal (s : jstr) : bool :=
  includes s (js "..") || includes s (js "/") || includes s (js "\") || includes s [0] ||
  includes (to_lower s) (js "%2e%2e").

(** [isInvalid] of [normalizeTenantContext] *)
Definition invalid_tenant_id (id : jstr) : bool :=
  jstr_eqb id (js ".") || jstr_eqb id (js "..") || has_traversal id.

Definition normalizeTenantContext (tenant : jsval) : result exn TenantContext :=
  throw_if (negb (is_object tenant)) ValidationFailedError ≫= λ _,
  match as_str (prop tenant (js "orgId")), as_str (prop tenant (js "projectId")) with
  | Some org, Some project =>
      throw_if (jstr_eqb (trim org) [] || jstr_eqb (trim project) []) ValidationFailedError ≫= λ _,
      throw_if (negb (jstr_eqb org (trim org)) || negb (jstr_eqb project (trim project)))
        ValidationFailedError ≫= λ _,
      throw_if (invalid_tenant_id org || invalid_tenant_id project) ValidationFailedError ≫= λ _,
      Ok {| orgId := org; projectId := project |}
  | _, _ => Err ValidationFailedError
  end.

(** [assertValidSegment(segment)] on a string *)
Definition assertValidSegment (segment : jstr) : result exn unit :=
  throw_if (jstr_eqb segment []) PermissionDeniedError ≫= λ _,
  throw_if (jstr_eqb segment (js ".") || jstr_eqb segment (js "..") || has_traversal segment)
    PermissionDeniedError.

(** The copying loop of [sanitizeKvKey]: every segment a non-empty string *)
Definition copy_segment (seg : jsval) : result exn jstr :=
  match seg with
  | JStr ((_ :: _) as s) => Ok s
  | _ => Err PermissionDeniedError
  end.

Definition sanitizeKvKey (k : jsval) (tenant : TenantContext) : result exn key :=
  match k with
  | JArr segs =>
      throw_if (length segs <? 2)%nat PermissionDeniedError ≫= λ _,
      map_result copy_segment segs ≫= λ safeKey,
      throw_if (negb (jstr_eqb (nth 0 safeKey []) (orgId tenant)) ||
                negb (jstr_eqb (nth 1 safeKey []) (projectId tenant))) PermissionDeniedError ≫= λ _,
      for_each assertValidSegment safeKey ≫= λ _,
      Ok safeKey
  | _ => Err PermissionDeniedError
  end.

(** [sanitizeKvPrefix] is the same code with other messages. *)
Definition sanitizeKvPrefix (prefix : jsval) (tenant : TenantContext) : result exn key :=
  sanitizeKvKey prefix tenant.

(** [`${tenant.orgId}/${tenant.projectId}/`] *)
Definition object_prefix (tenant : TenantContext) : jstr :=
  orgId tenant ++ js "/" ++ projectId tenant ++ js "/".

Definition object_forbidden (s : jstr) : bool :=
  includes s (js "..") || includes s (js "\") || includes s [0] ||
  includes (to_lower s) (js "%2e%2e").

Definition assertValidObjectKey (key : jsval) (tenant : TenantContext) : result exn unit :=
  match key with
  | JStr key =>
      throw_if (negb (starts_with key (object_prefix tenant))) PermissionDeniedError ≫= λ _,
      throw_if (object_forbidden key) PermissionDeniedError ≫= λ _,
      let remainder := slice_from (length (object_prefix tenant)) key in
      throw_if (jstr_eqb remainder []) PermissionDeniedError ≫= λ _,
      for_each (λ seg,
        throw_if (jstr_eqb seg (js ".") || jstr_eqb seg (js "..") || jstr_eqb seg [])
          PermissionDeniedError) (split_on (chr "/") remainder)
  | _ => Err PermissionDeniedError
  end.

Definition assertValidObjectListPrefix (prefix : jsval) (tenant : TenantContext) : result exn unit :=
  match prefix with
  | JStr prefix =>
      throw_if (negb (starts_with prefix (object_prefix tenant))) PermissionDeniedError ≫= λ _,
      throw_if (object_forbidden prefix) PermissionDeniedError ≫= λ _,
      for_each (λ seg,
        throw_if (jstr_eqb seg (js ".") || jstr_eqb seg (js "..")) PermissionDeniedError)
        (split_on (chr "/") prefix)
  | _ => Err PermissionDeniedError
  end.

(** [`${tenant.orgId}_${tenant.projectId}_`] *)
Definition queue_prefix (tenant : TenantContext) : jstr :=
  orgId tenant ++ js "_" ++ projectId tenant ++ js "_".

Definition assertValidQueueName (name : jsval) (tenant : TenantContext) : result exn unit :=
  match name with
  | JStr name =>
      throw_if (jstr_eqb (trim name) []) PermissionDeniedError ≫= λ _,
      throw_if (negb (starts_with name (queue_prefix tenant))) PermissionDeniedError ≫= λ _,
      throw_if (has_traversal name) PermissionDeniedError ≫= λ _,
      let resourcePart := slice_from (length (queue_prefix tenant)) name in
      throw_if (jstr_eqb resourcePart []) PermissionDeniedError
  | _ => Err PermissionDeniedError
  end.

(** ** Guarded providers *)

(** The calls on an atomic builder before its [commit] *)
Inductive builder_call (V : Type) :=
| BCheck (key : jsval) (expectedVersion : Z)
| BSet (key : jsval) (value : V)
| BDelete (key : jsval).
Arguments BCheck {V}.
Arguments BSet {V}.
Arguments BDelete {V}.

Section guarded_kv.
Context {S V : Type} `{KvStore S V}.

(** The underlying builder: what it has been told so far. *)
Definition builder : Type := list kv_check * list (kv_mutation V).

(** [GuardedKVAtomicBuilder]'s [check], [set] and [delete] *)
Definition guarded_builder_call (tenant : TenantContext) (b : builder) (c : builder_call V)
    : result exn builder :=
  match c with
  | BCheck k n =>
      sanitizeKvKey k tenant ≫= λ safeKey,
      Ok (b.1 ++ [{| ck_key := safeKey; ck_expectedVersion := n |}], b.2)
  | BSet k v => sanitizeKvKey k tenant ≫= λ safeKey, Ok (b.1, b.2 ++ [MSet safeKey v])
  | BDelete k => sanitizeKvKey k tenant ≫= λ safeKey, Ok (b.1, b.2 ++ [MDelete safeKey])
  end.

Fixpoint guarded_build (tenant : TenantContext) (b : builder) (cs : list (builder_call V))
    : result exn builder :=
  match cs with
  | [] => Ok b
  | c :: cs => guarded_builder_call tenant b c ≫= λ b, guarded_build tenant b cs
  end.

(** [GuardedKVProvider]'s operations *)
Definition guarded_get (tenant : TenantContext) (k : jsval) : stm S exn (option V) :=
  safeKey <~ st_lift (sanitizeKvKey k tenant) ;; kv_get safeKey.
Definition guarded_set (tenant : TenantContext) (k : jsval) (v : V) (ttl : option Z) : stm S exn unit :=
  safeKey <~ st_lift (sanitizeKvKey k tenant) ;; kv_set safeKey v ttl.
Definition guarded_delete (tenant : TenantContext) (k : jsval) : stm S exn unit :=
  safeKey <~ st_lift (sanitizeKvKey k tenant) ;; kv_delete safeKey.
Definition guarded_atomic (tenant : TenantContext) (cs : list (builder_call V)) : stm S exn CommitResult :=
  b <~ st_lift (guarded_build tenant ([], []) cs) ;; kv_commit b.1 b.2.
End guarded_kv.

(** [GuardedKVProvider.list] for an underlying [list] *)
Definition guarded_list {S L : Type} (underlying : key → stm S exn L)
    (tenant : TenantContext) (prefix : jsval) : stm S exn L :=
  safePrefix <~ st_lift (sanitizeKvPrefix prefix tenant) ;; underlying safePrefix.

(** [GuardedObjectProvider]: every method checks its key ([list] its prefix) and
    delegates; [op] stands for the method and its other arguments. *)
Inductive object_method := OPut | OGet | ODelete | OHead | OList | OPresign | OCreateMultipartUpload.

Definition guarded_object {S A R : Type} (underlying : object_method → jsval → A → stm S exn R)
    (tenant : TenantContext) (m : object_method) (key : jsval) (args : A) : stm S exn R :=
  st_lift match m with
          | OList => assertValidObjectListPrefix key tenant
          | _ => assertValidObjectKey key tenant
          end ;;~
  underlying m key args.

(** [assertCurrentQueueName()]: [boundQueueName] and the name the underlying
    provider carries ([queueName ?? queueId]), [JUndef] when absent *)
Definition assertCurrentQueueName (boundQueueName underlyingName : jsval) (tenant : TenantContext)
    : result exn unit :=
  (if is_undefined boundQueueName then Ok tt else assertValidQueueName boundQueueName tenant) ≫= λ _,
  (if is_undefined underlyingName then Ok tt else assertValidQueueName underlyingName tenant) ≫= λ _,
  throw_if (is_undefined boundQueueName && is_undefined underlyingName) PermissionDeniedError.

(** [GuardedQueueProvider]: each of [send], [sendBatch], [receive] and [ack] *)
Definition guarded_queue {S A R : Type} (underlying : A → stm S exn R)
    (boundQueueName underlyingName : jsval) (tenant : TenantContext) (args : A) : stm S exn R :=
  st_lift (assertCurrentQueueName boundQueueName underlyingName tenant) ;;~ underlying args.

(** ** What the guard accepts *)

(** A tenant context that [normalizeTenantContext] has produced. *)
Definition tenant_ok (t : TenantContext) : Prop := ∃ v, normalizeTenantContext v = Ok t.

Lemma has_traversal_slash s : has_traversal s = false → chr "/" ∉ s.
Proof.
  unfold has_traversal. rewrite !orb_false_iff. intros [[[[_ H] _] _] _].
  by apply includes_singleton_false.
Qed.

Lemma tenant_ok_no_slash t : tenant_ok t → chr "/" ∉ orgId t ∧ chr "/" ∉ projectId t.
Proof.
  intros [v Hv]. unfold normalizeTenantContext in Hv. apply bind_Ok in Hv as (_ & _ & Hv).
  destruct (as_str _) as [org|]; [|done]. destruct (as_str _) as [project|]; [|done].
  apply bind_Ok in Hv as (_ & _ & Hv). apply bind_Ok in Hv as (_ & _ & Hv).
  apply bind_Ok in Hv as (u & Hi%throw_if_Ok & [= <-]). cbn.
  apply orb_false_iff in Hi as [H1 H2]. unfold invalid_tenant_id in *.
  apply orb_false_iff in H1 as [_ H1]. apply orb_false_iff in H2 as [_ H2].
  split; by apply has_traversal_slash.
Qed.

Lemma copy_segment_Ok v s : copy_segment v = Ok s ↔ v = JStr s ∧ s ≠ [].
Proof. destruct v as [| | | |[|c s']| |]; cbn; naive_solver. Qed.

(** The keys a guard lets through. *)
Lemma sanitizeKvKey_spec k t safe :
  sanitizeKvKey k t = Ok safe →
  k = JArr (JStr <$> safe) ∧ ∃ rest, safe = orgId t :: projectId t :: rest ∧
  Forall (λ s, s ≠ [] ∧ has_traversal s = false) safe.
Proof.
  destruct k as [| | | | |segs|]; try done. cbn. intros Hk.
  apply bind_Ok in Hk as (u & Hlen%throw_if_Ok & Hk).
  apply bind_Ok in Hk as (safe' & Hsafe%map_result_Ok & Hk).
  apply bind_Ok in Hk as (u' & Hids%throw_if_Ok & Hk).
  apply bind_Ok in Hk as (u'' & Hsegs%for_each_Ok & [= <-]).
  apply orb_false_iff in Hids as [H1 H2]. apply negb_false_iff, jstr_eqb_eq in H1, H2.
  assert (segs = JStr <$> safe') as ->.
  { clear -Hsafe. induction Hsafe as [|v s segs safe Hs _ IH]; [done|].
    apply copy_segment_Ok in Hs as [-> _]. cbn. by f_equal. }
  split; [done|]. rewrite length_fmap in Hlen. apply Nat.leb_gt in Hlen.
  destruct safe' as [|s1 [|s2 rest]]; cbn in Hlen; try lia. cbn in H1, H2. subst.
  exists rest. split; [done|]. eapply Forall_impl; [exact Hsegs|]. cbn. intros s Hs.
  apply bind_Ok in Hs as (u1 & He%throw_if_Ok & Hs%throw_if_Ok).
  apply jstr_eqb_neq in He. split; [done|]. by apply orb_false_iff in Hs as [_ ?].
Qed.

Lemma object_prefix_split t rest :
  tenant_ok t → split_on (chr "/") (object_prefix t ++ rest) = orgId t :: projectId t :: split_on (chr "/") rest.
Proof.
  intros [Ho Hp]%tenant_ok_no_slash. unfold object_prefix. change (js "/") with [chr "/"].
  rewrite <-!app_assoc. cbn [app]. rewrite split_on_app by done. f_equal. by rewrite split_on_app.
Qed.

(** Object keys are confined to their tenant: a key the guard of a tenant lets
    through is [org/project/seg/.../seg] with at least one segment, every one of
    them non-empty and none of them [.] or [..], contains no [..], backslash,
    null byte or encoded traversal, and is refused by the guard of every other
    tenant. *)
Theorem object_key_confined t key :
  tenant_ok t → assertValidObjectKey key t = Ok tt →
  ∃ name segs,
    key = JStr name ∧ split_on (chr "/") name = orgId t :: projectId t :: segs ∧ segs ≠ [] ∧
    Forall (λ s, s ≠ [] ∧ s ≠ js "." ∧ s ≠ js "..") segs ∧ object_forbidden name = false ∧
    ∀ t', tenant_ok t' → t' ≠ t → assertValidObjectKey key t' = Err PermissionDeniedError.
Proof.
  intros Ht Hkey. destruct key as [| | | |name| |]; try done. cbn in Hkey.
  apply bind_Ok in Hkey as (u1 & Hpre%throw_if_Ok & Hkey). apply negb_false_iff in Hpre.
  apply bind_Ok in Hkey as (u2 & Hforb%throw_if_Ok & Hkey).
  apply bind_Ok in Hkey as (u3 & Hne%throw_if_Ok & Hsegs%for_each_Ok).
  apply starts_with_spec in Hpre as [rest ->]. unfold slice_from in *. rewrite drop_app_length in *.
  exists (object_prefix t ++ rest), (split_on (chr "/") rest). split; [done|].
  rewrite object_prefix_split by done. split; [done|]. split; [apply split_on_not_nil|].
  split; [|split; [done|]].
  - eapply Forall_impl; [exact Hsegs|]. cbn. intros s Hs%throw_if_Ok.
    apply orb_false_iff in Hs as [[H1 H2]%orb_false_iff H3].
    apply jstr_eqb_neq in H1, H2, H3. done.
  - intros t' Ht' Hdiff. cbn. destruct (starts_with (object_prefix t ++ rest) (object_prefix t')) eqn:E; [|done].
    exfalso. apply starts_with_spec in E as [rest' E]. apply (f_equal (split_on (chr "/"))) in E.
    rewrite !object_prefix_split in E by done. injection E as H1 H2 _.
    apply Hdiff. destruct t, t'; cbn in *; by subst.
Qed.

Definition tenant_acme : TenantContext := {| orgId := js "acme"; projectId := js "shop" |}.
Definition tenant_of (org project : jstr) : jsval :=
  JObj [(js "orgId", JStr org); (js "projectId", JStr project)].

Theorem object_key_confined_witness :
  assertValidObjectKey (JStr (js "acme/shop/img/logo.png")) tenant_acme = Ok tt ∧
  assertValidObjectKey (JStr (js "acme/shop/img/logo.png"))
    {| orgId := js "acme"; projectId := js "sho" |} = Err PermissionDeniedError.
Proof.
  assert (tenant_ok tenant_acme) as Ht
    by (exists (tenant_of (js "acme") (js "shop")); vm_compute; reflexivity).
  assert (assertValidObjectKey (JStr (js "acme/shop/img/logo.png")) tenant_acme = Ok tt) as E
    by (vm_compute; reflexivity).
  split; [exact E|].
  destruct (object_key_confined tenant_acme _ Ht E) as (name & segs & _ & _ & _ & _ & _ & H).
  apply H; [exists (tenant_of (js "acme") (js "sho")); vm_compute; reflexivity|discriminate].
Defined.

(** Queue names are not confined: the prefix [org_project_] does not determine
    the tenant, since identifiers may contain [_].  Two different tenants that
    [normalizeTenantContext] accepts share every queue name of either. *)
Theorem queue_name_collision :
  ∃ t1 t2 name, t1 ≠ t2 ∧ tenant_ok t1 ∧ tenant_ok t2 ∧
    assertValidQueueName (JStr name) t1 = Ok tt ∧ assertValidQueueName (JStr name) t2 = Ok tt ∧
    ∀ n, assertValidQueueName n t1 = assertValidQueueName n t2.
Proof.
  exists {| orgId := js "acme"; projectId := js "eu_shop" |},
         {| orgId := js "acme_eu"; projectId := js "shop" |}, (js "acme_eu_shop_orders").
  split_and!; [discriminate|exists (tenant_of (js "acme") (js "eu_shop")); vm_compute; reflexivity|
    exists (tenant_of (js "acme_eu") (js "shop")); vm_compute; reflexivity|vm_compute; reflexivity..|].
  intros n. unfold assertValidQueueName.
  assert (queue_prefix {| orgId := js "acme"; projectId := js "eu_shop" |} =
          queue_prefix {| orgId := js "acme_eu"; projectId := js "shop" |}) as -> by (vm_compute; reflexivity).
  done.
Qed.

(** ** Isolation of guarded key-value providers *)

Section isolation.
Context {S V : Type} `{KvLaws S V}.

Inductive guarded_op :=
| GGet (k : jsval)
| GSet (k : jsval) (v : V) (ttl : option Z)
| GDelete (k : jsval)
| GAtomic (cs : list (builder_call V)).

(** The store after a call on the tenant's guarded provider. *)
Definition guarded_step (t : TenantContext) (op : guarded_op) (s : S) : S :=
  match op with
  | GGet k => (guarded_get t k s).1
  | GSet k v ttl => (guarded_set t k v ttl s).1
  | GDelete k => (guarded_delete t k s).1
  | GAtomic cs => (guarded_atomic t cs s).1
  end.

Definition builder_key (c : builder_call V) : jsval :=
  match c with BCheck k _ | BSet k _ | BDelete k => k end.
Definition op_keys (op : guarded_op) : list jsval :=
  match op with GGet k | GSet k _ _ | GDelete k => [k] | GAtomic cs => builder_key <$> cs end.

(** Arrays of strings among the arguments are arrays of JavaScript strings. *)
Definition js_key (k : jsval) : Prop := ∀ segs, k = JArr (JStr <$> segs) → kv_wf segs.

(** The keys that belong to a tenant. *)
Definition tenant_key (t : TenantContext) (k : key) : Prop := ∃ rest, k = orgId t :: projectId t :: rest.

Lemma tenant_key_disjoint t1 t2 k1 k2 : t1 ≠ t2 → tenant_key t1 k1 → tenant_key t2 k2 → k2 ≠ k1.
Proof.
  intros Hne [r1 ->] [r2 ->] [= Ho Hp _]. apply Hne. destruct t1, t2; cbn in *. by subst.
Qed.

Lemma sanitize_tenant_key t k safe :
  js_key k → sanitizeKvKey k t = Ok safe → tenant_key t safe ∧ kv_wf safe.
Proof.
  intros Hk (-> & rest & -> & _)%sanitizeKvKey_spec. split; [by exists rest|by apply Hk].
Qed.

Lemma guarded_build_keys t cs : ∀ b b',
  Forall js_key (builder_key <$> cs) →
  Forall (λ mu, kv_wf (mutation_key mu) ∧ tenant_key t (mutation_key mu)) b.2 →
  guarded_build t b cs = Ok b' →
  Forall (λ mu, kv_wf (mutation_key mu) ∧ tenant_key t (mutation_key mu)) b'.2.
Proof.
  induction cs as [|c cs IH]; intros b b' Hcs Hb Hr; [by injection Hr as <-|].
  apply Forall_cons in Hcs as [Hc Hcs]. cbn in Hr. apply bind_Ok in Hr as (b1 & Hb1 & Hr).
  apply (IH b1 b'); [done| |done]. clear Hr IH.
  destruct c as [k n|k v|k]; cbn in *; apply bind_Ok in Hb1 as (safe & Hs & [= <-]); cbn; [done|..];
    destruct (sanitize_tenant_key t k safe Hc Hs); apply Forall_app; split; try done;
    by apply Forall_singleton.
Qed.

Lemma guarded_step_frame t1 t2 op s k2 :
  t1 ≠ t2 → kv_inv s → Forall js_key (op_keys op) → kv_wf k2 → tenant_key t2 k2 →
  kv_inv (guarded_step t1 op s) ∧ kv_entry (guarded_step t1 op s) k2 = kv_entry s k2.
Proof.
  intros Hne Hi Hop Hwf Hk2. destruct (kv_frame s k2 Hi Hwf) as (Hget & Hset & Hdel & Hcom).
  assert (∀ k safe, js_key k → sanitizeKvKey k t1 = Ok safe → kv_wf safe ∧ k2 ≠ safe) as Hsafe.
  { intros k safe Hk Hs. destruct (sanitize_tenant_key t1 k safe Hk Hs) as [H1 H2].
    split; [done|]. by eapply tenant_key_disjoint. }
  destruct op as [k|k v ttl|k|cs]; cbn [guarded_step op_keys] in *.
  - rewrite Forall_singleton in Hop. unfold guarded_get, st_bind, st_lift.
    destruct (sanitizeKvKey k t1) as [safe|] eqn:Es; [|done].
    destruct (Hsafe k safe Hop Es) as [? _]. by apply Hget.
  - rewrite Forall_singleton in Hop. unfold guarded_set, st_bind, st_lift.
    destruct (sanitizeKvKey k t1) as [safe|] eqn:Es; [|done].
    destruct (Hsafe k safe Hop Es) as [? ?]. by apply Hset.
  - rewrite Forall_singleton in Hop. unfold guarded_delete, st_bind, st_lift.
    destruct (sanitizeKvKey k t1) as [safe|] eqn:Es; [|done].
    destruct (Hsafe k safe Hop Es) as [? ?]. by apply Hdel.
  - unfold guarded_atomic, st_bind, st_lift.
    destruct (guarded_build t1 ([], []) cs) as [b|] eqn:Eb; [|done].
    apply Hcom. pose proof (guarded_build_keys t1 cs ([], []) b Hop (Forall_nil_2 _) Eb) as Hb.
    eapply Forall_impl; [exact Hb|]. intros mu [? ?]. split; [done|]. by eapply tenant_key_disjoint.
Qed.

(** C16: Tenant isolation of the key-value store: whatever sequence of guarded
    [get], [set], [delete] and atomic transactions one tenant runs (with any
    arguments, malformed ones included), every entry of every other tenant keeps
    its value and its version. *)
Theorem guarded_kv_isolated t1 t2 ops s k2 :
  t1 ≠ t2 → kv_inv s → Forall (λ op, Forall js_key (op_keys op)) ops →
  kv_wf k2 → tenant_key t2 k2 →
  kv_entry (fold_left (λ s op, guarded_step t1 op s) ops s) k2 = kv_entry s k2.
Proof.
  intros Hne Hi Hops Hwf Hk2. revert s Hi. induction Hops as [|op ops Hop _ IH]; intros s Hi; [done|].
  cbn [fold_left]. destruct (guarded_step_frame t1 t2 op s k2 Hne Hi Hop Hwf Hk2) as [Hi' <-].
  by apply IH.
Qed.
End isolation.

(** The attempts of [acme/shop] on a store that holds an entry of [acme/blog]. *)
Theorem guarded_kv_isolated_witness :
  let blog := [js "acme"; js "blog"; js "post"] in
  let db := (sqlite_set blog 1 None {| clock := 0; kv_entries := ∅ |}).1 in
  let ops := [GSet (JArr (JStr <$> blog)) 2 None; GDelete (JArr (JStr <$> blog));
              GSet (JArr (JStr <$> [js "acme"; js "shop"; js "x"])) 3 None;
              GAtomic [BDelete (JArr (JStr <$> blog))]] in
  kv_entry (fold_left (λ s op, guarded_step tenant_acme op s) ops db) blog = Some (1, 1).
Proof.
  cbv zeta.
  assert (∀ segs, key_wf segs → js_key (S := kv_db Z) (V := Z) (JArr (JStr <$> segs))) as Hjs.
  { intros segs Hs segs' [= Heq]. apply (inj (fmap JStr)) in Heq. subst. exact Hs. }
  rewrite (guarded_kv_isolated tenant_acme {| orgId := js "acme"; projectId := js "blog" |}).
  - vm_compute. reflexivity.
  - discriminate.
  - apply map_Forall_insert_2; [vm_compute; discriminate|apply map_Forall_empty].
  - repeat (apply Forall_cons_2; [apply Forall_singleton, Hjs; repeat constructor; vm_compute; discriminate|]).
    apply Forall_nil_2.
  - repeat constructor; vm_compute; discriminate.
  - by exists [js "post"].
Defined.
