(* ===== verification/Permissions.v ===== *)
(** * Capability injection ([packages/policy/permission-resolver.ts], PLAT-6, PLAT-7)

    [resolvePermissions] turns declared capabilities into bindings that prepend
    the physical prefix [org/project/resource].  A key-value binding is its
    prefix, an object binding its string prefix; the methods are functions of
    it. *)

From S2P Require Import Prelude JsString JsValue Errors KvInterface SqliteKv TenantGuard.

Open Scope Z_scope.
Open Scope railfog_scope.

Record DeclaredPermissions := {
  kv : option (list jstr);
  state : option (list jstr);
  objects : option (list jstr);
  data : option (list jstr);
  queues : option (list jstr);
  signal : option (list jstr);
  network : option (list jstr);
  secrets : option (list jstr)
}.

Record NormalizedCapabilities := {
  n_kv : option (list jstr);
  n_objects : option (list jstr);
  n_queues : option (list jstr);
  n_network : option (list jstr);
  n_secrets : option (list jstr)
}.

Definition both_declared (a b : option (list jstr)) : bool :=
  match a, b with Some _, Some _ => true | _, _ => false end.
Definition alias_or (alias primitive : option (list jstr)) : option (list jstr) :=
  match alias with Some x => Some x | None => primitive end.

Definition normalizeDeclaredCapabilities (declared : DeclaredPermissions)
    : result exn NormalizedCapabilities :=
  throw_if (both_declared (kv declared) (state declared)) ValidationFailedError ≫= λ _,
  throw_if (both_declared (objects declared) (data declared)) ValidationFailedError ≫= λ _,
  throw_if (both_declared (queues declared) (signal declared)) ValidationFailedError ≫= λ _,
  Ok {| n_kv := alias_or (state declared) (kv declared);
        n_objects := alias_or (data declared) (objects declared);
        n_queues := alias_or (signal declared) (queues declared);
        n_network := network declared;
        n_secrets := secrets declared |}.

(** Path traversal characters and null bytes *)
Definition forbidden_identifier (id : jstr) : bool :=
  includes id (js "..") || includes id (js "/") || includes id (js "\") || includes id [0].

Definition validateIdentifier (id : jstr) : result exn unit :=
  throw_if (jstr_eqb id [] || jstr_eqb (trim id) []) ValidationFailedError ≫= λ _,
  throw_if (forbidden_identifier id) ValidationFailedError.

(** [ResolvedBindings]: the KV binding's prefix, the object binding's prefix,
    and whether there is a queue binding. *)
Record ResolvedBindings := {
  b_kv : option key;
  b_objects : option jstr;
  b_queues : bool
}.

(** At most one resource of a kind, validated. *)
Definition resolve_one (names : option (list jstr)) : result exn (option jstr) :=
  match names with
  | None | Some [] => Ok None
  | Some [resName] => validateIdentifier resName ≫= λ _, Ok (Some resName)
  | Some _ => Err ValidationFailedError
  end.

Definition resolvePermissions (declared : DeclaredPermissions) (orgId projectId : jstr)
    : result exn ResolvedBindings :=
  throw_if (jstr_eqb orgId [] || jstr_eqb projectId []) ValidationFailedError ≫= λ _,
  throw_if (forbidden_identifier orgId) ValidationFailedError ≫= λ _,
  throw_if (forbidden_identifier projectId) ValidationFailedError ≫= λ _,
  normalizeDeclaredCapabilities declared ≫= λ normalized,
  resolve_one (n_kv normalized) ≫= λ kvName,
  resolve_one (n_objects normalized) ≫= λ objectsName,
  resolve_one (n_queues normalized) ≫= λ queuesName,
  Ok {| b_kv := (λ resName, [orgId; projectId; resName]) <$> kvName;
        b_objects := (λ resName, orgId ++ js "/" ++ projectId ++ js "/" ++ resName ++ js "/")
                       <$> objectsName;
        b_queues := match queuesName with Some _ => true | None => false end |}.

(** ** The key-value binding *)

Section kv_binding.
Context {S V : Type} `{KvStore S V}.

Definition binding_get (prefix : key) (k : key) : stm S exn (option V) := kv_get (prefix ++ k).
Definition binding_set (prefix : key) (k : key) (v : V) (ttl : option Z) : stm S exn unit :=
  kv_set (prefix ++ k) v ttl.
Definition binding_delete (prefix : key) (k : key) : stm S exn unit := kv_delete (prefix ++ k).

(** The atomic binding: calls on the binding become calls on the provider's
    builder. *)
Definition prefix_check (prefix : key) (c : kv_check) : kv_check :=
  {| ck_key := prefix ++ ck_key c; ck_expectedVersion := ck_expectedVersion c |}.
Definition prefix_mutation (prefix : key) (mu : kv_mutation V) : kv_mutation V :=
  match mu with MSet k v => MSet (prefix ++ k) v | MDelete k => MDelete (prefix ++ k) end.
Definition binding_atomic (prefix : key) (cs : list kv_check) (mus : list (kv_mutation V))
    : stm S exn CommitResult :=
  kv_commit (prefix_check prefix <$> cs) (prefix_mutation prefix <$> mus).

(** [list]: the provider's page with the prefix cut from each key; [entries]
    carries the same items with version 1 where the provider gives none. *)
Record BindingPage := {
  bp_keys : list (key * V);
  bp_entries : list (key * V * Z);
  bp_cursor : option jstr
}.

Definition binding_list (underlying : key → option Z → option jstr → stm S exn (ListPage V))
    (prefix queryPrefix : key) (limit : option Z) (cursor : option jstr) : stm S exn BindingPage :=
  res <~ underlying (prefix ++ queryPrefix) limit cursor ;;
  let mappedKeys := (λ item, (drop (length prefix) item.1, item.2)) <$> page_keys res in
  st_ret {| bp_keys := mappedKeys;
            bp_entries := (λ item, (item.1, item.2, 1)) <$> mappedKeys;
            bp_cursor := page_cursor res |}.
End kv_binding.

(** ** The object binding *)

Definition validateObjectKey (k : jstr) : result exn unit :=
  throw_if (starts_with k (js "/") || includes k (js "..") || includes k (js "\"))
    ValidationFailedError.

(** [put], [get], [delete], [head], [presign] and [createMultipartUpload] *)
Definition binding_object {S A R : Type} (underlying : object_method → jstr → A → stm S exn R)
    (prefix : jstr) (m : object_method) (k : jstr) (args : A) : stm S exn R :=
  st_lift (validateObjectKey k) ;;~ underlying m (prefix ++ k) args.

(** [list]; a cursor is a string, empty when the field is absent or falsy. *)
Definition binding_object_list {S : Type}
    (underlying : jstr → option Z → jstr → stm S exn (list jstr * jstr))
    (prefix queryPrefix : jstr) (limit : option Z) (cursor : jstr) : stm S exn (list jstr * jstr) :=
  st_lift (validateObjectKey queryPrefix) ;;~
  let providerCursor :=
    match cursor with
    | [] => []
    | _ => if starts_with cursor prefix then cursor else prefix ++ cursor
    end in
  res <~ underlying (prefix ++ queryPrefix) limit providerCursor ;;
  let nextCursor :=
    if negb (jstr_eqb res.2 []) && starts_with res.2 prefix
    then slice_from (length prefix) res.2 else res.2 in
  st_ret (slice_from (length prefix) <$> filter (λ k, starts_with k prefix = true) res.1, nextCursor).

(** ** What a resolution grants *)

Lemma forbidden_slash id : forbidden_identifier id = false → chr "/" ∉ id.
Proof.
  unfold forbidden_identifier. rewrite !orb_false_iff. intros [[[_ H] _] _].
  by apply includes_singleton_false.
Qed.

Lemma resolve_one_Ok names o :
  resolve_one names = Ok o → ∀ n, o = Some n → n ≠ [] ∧ chr "/" ∉ n.
Proof.
  destruct names as [[|n0 [|n1 ns]]|]; cbn; try (by intros [= <-]); try done.
  intros H n ->. apply bind_Ok in H as (u & Hv & [= <-]).
  apply bind_Ok in Hv as (u1 & He%throw_if_Ok & Hf%throw_if_Ok).
  apply orb_false_iff in He as [He%jstr_eqb_neq _]. split; [done|]. by apply forbidden_slash.
Qed.

Lemma resolvePermissions_spec d org project b :
  resolvePermissions d org project = Ok b →
  chr "/" ∉ org ∧ chr "/" ∉ project ∧
  (∀ pre, b_kv b = Some pre → ∃ res, pre = [org; project; res]) ∧
  (∀ pre, b_objects b = Some pre → ∃ res, res ≠ [] ∧ chr "/" ∉ res ∧
     pre = org ++ js "/" ++ project ++ js "/" ++ res ++ js "/").
Proof.
  unfold resolvePermissions. intros Hr.
  apply bind_Ok in Hr as (u1 & _ & Hr). apply bind_Ok in Hr as (u2 & Ho%throw_if_Ok & Hr).
  apply bind_Ok in Hr as (u3 & Hp%throw_if_Ok & Hr). apply bind_Ok in Hr as (n & _ & Hr).
  apply bind_Ok in Hr as (k1 & Hk1 & Hr). apply bind_Ok in Hr as (k2 & Hk2 & Hr).
  apply bind_Ok in Hr as (k3 & _ & [= <-]). split_and!; [by apply forbidden_slash..| |]; cbn.
  - intros pre Hpre. destruct k1 as [res|]; [|done]. injection Hpre as <-. by exists res.
  - intros pre Hpre. destruct k2 as [res|]; [|done]. injection Hpre as <-.
    exists res. by destruct (resolve_one_Ok _ _ Hk2 res eq_refl).
Qed.

(** Calls on a key-value binding. *)
Inductive binding_call (V : Type) :=
| KGet (k : key)
| KSet (k : key) (v : V) (ttl : option Z)
| KDelete (k : key)
| KAtomic (cs : list kv_check) (mus : list (kv_mutation V)).
Arguments KGet {V}.
Arguments KSet {V}.
Arguments KDelete {V}.
Arguments KAtomic {V}.

Section isolation.
Context {S V : Type} `{KvLaws S V}.

Definition binding_step (prefix : key) (c : binding_call V) (s : S) : S :=
  match c with
  | KGet k => (binding_get prefix k s).1
  | KSet k v ttl => (binding_set prefix k v ttl s).1
  | KDelete k => (binding_delete prefix k s).1
  | KAtomic cs mus => (binding_atomic prefix cs mus s).1
  end.

(** The keys of a call, prefixed, are lists of JavaScript strings. *)
Definition call_wf (prefix : key) (c : binding_call V) : Prop :=
  match c with
  | KGet k | KSet k _ _ | KDelete k => kv_wf (prefix ++ k)
  | KAtomic _ mus => Forall (λ mu, kv_wf (prefix ++ mutation_key mu)) mus
  end.

Lemma binding_step_frame prefix c s k' :
  kv_inv s → call_wf prefix c → kv_wf k' → (∀ k, k' ≠ prefix ++ k) →
  kv_inv (binding_step prefix c s) ∧ kv_entry (binding_step prefix c s) k' = kv_entry s k'.
Proof.
  intros Hi Hc Hwf Hne. destruct (kv_frame s k' Hi Hwf) as (Hget & Hset & Hdel & Hcom).
  destruct c as [k|k v ttl|k|cs mus]; cbn in *; [by apply Hget|by apply Hset|by apply Hdel|].
  apply Hcom. apply Forall_fmap. eapply Forall_impl; [exact Hc|].
  intros [k v|k] Hk; cbn; split; try exact Hk; apply Hne.
Qed.

(** Bindings are isolated by construction: take two Functions whose
    permissions were resolved for different organisations, projects or
    resources.  No sequence of [get], [set], [delete] and atomic calls on the
    key-value binding of one changes an entry of the other's, and no object key
    of one, whatever string it is, denotes the same physical object as a key of
    the other. *)
Theorem bindings_isolated d1 d2 org1 org2 proj1 proj2 b1 b2 :
  resolvePermissions d1 org1 proj1 = Ok b1 → resolvePermissions d2 org2 proj2 = Ok b2 →
  (∀ pre1 pre2 calls s k2,
     b_kv b1 = Some pre1 → b_kv b2 = Some pre2 → pre1 ≠ pre2 →
     kv_inv s → Forall (call_wf pre1) calls → kv_wf (pre2 ++ k2) →
     kv_entry (fold_left (λ s c, binding_step pre1 c s) calls s) (pre2 ++ k2) = kv_entry s (pre2 ++ k2)) ∧
  (∀ pre1 pre2 k1 k2,
     b_objects b1 = Some pre1 → b_objects b2 = Some pre2 → pre1 ≠ pre2 → pre1 ++ k1 ≠ pre2 ++ k2).
Proof.
  intros (Ho1 & Hp1 & Hkv1 & Hob1)%resolvePermissions_spec (Ho2 & Hp2 & Hkv2 & Hob2)%resolvePermissions_spec.
  split.
  - intros pre1 pre2 calls s k2 H1 H2 Hne Hi Hcalls Hwf.
    destruct (Hkv1 _ H1) as [r1 ->]. destruct (Hkv2 _ H2) as [r2 ->].
    revert s Hi. induction Hcalls as [|c calls Hc _ IH]; intros s Hi; [done|]. cbn [fold_left].
    destruct (binding_step_frame [org1; proj1; r1] c s ([org2; proj2; r2] ++ k2) Hi Hc Hwf) as [Hi' <-].
    + intros k. cbn. intros [= -> -> -> ->]. by apply Hne.
    + by apply IH.
  - intros pre1 pre2 k1 k2 H1 H2 Hne Heq.
    destruct (Hob1 _ H1) as (r1 & _ & Hr1 & ->). destruct (Hob2 _ H2) as (r2 & _ & Hr2 & ->).
    apply Hne. change (js "/") with [chr "/"] in *. rewrite <-!app_assoc in Heq. cbn [app] in Heq.
    apply slash_split in Heq as [-> Heq]; [|done..].
    apply slash_split in Heq as [-> Heq]; [|done..].
    by apply slash_split in Heq as [-> _].
Qed.
End isolation.

Definition declare_kv (names : list jstr) : DeclaredPermissions :=
  {| kv := None; state := Some names; objects := None; data := None; queues := None;
     signal := None; network := None; secrets := None |}.

Theorem bindings_isolated_witness :
  let k2 := [js "acme"; js "shop"; js "carts"] ++ [js "1"] in
  let db := (sqlite_set k2 5 None {| clock := 0; kv_entries := ∅ |}).1 in
  kv_entry (fold_left (λ s c, binding_step [js "acme"; js "shop"; js "orders"] c s)
    [KSet [js "1"] 6 None; KDelete [js "carts"; js "1"]] db) k2 = Some (5, 1).
Proof.
  cbv zeta. destruct (bindings_isolated (S := kv_db Z) (V := Z) (declare_kv [js "orders"])
    (declare_kv [js "carts"]) (js "acme") (js "acme") (js "shop") (js "shop")
    {| b_kv := Some [js "acme"; js "shop"; js "orders"]; b_objects := None; b_queues := false |}
    {| b_kv := Some [js "acme"; js "shop"; js "carts"]; b_objects := None; b_queues := false |})
    as [H _]; [vm_compute; reflexivity|vm_compute; reflexivity|].
  rewrite (H [js "acme"; js "shop"; js "orders"] [js "acme"; js "shop"; js "carts"]).
  - vm_compute. reflexivity.
  - reflexivity.
  - reflexivity.
  - discriminate.
  - apply map_Forall_insert_2; [vm_compute; discriminate|apply map_Forall_empty].
  - repeat constructor; vm_compute; discriminate.
  - repeat constructor; vm_compute; discriminate.
Defined.
