(* ===== verification/SqliteQueue.v ===== *)
(** * The SQLite queue provider ([providers/queues/sqlite-queue-provider.ts])

    The table [messages] is the list of its rows; each statement is the list
    transformation its SQL text describes.  Where [ORDER BY visible_after LIMIT 1]
    leaves a tie open the first row of the list is taken; the theorems hold for
    every order of the rows.  Times are JavaScript numbers. *)

From S2P Require Import Prelude JsString JsNumber Errors Utf8.
From stdpp Require Import sorting.
From Stdlib Require Import QArith Lqa.

Open Scope Z_scope.
Open Scope railfog_scope.

Definition defaultVisibilityTimeoutMs : Q := 30000.
Definition maxReceives : Z := 5.
Definition MAX_DELAY_SECONDS : Q := 900.
Definition MAX_PAYLOAD_SIZE_BYTES : Z := 128 * 1024.

(** [Math.min(Math.max(options?.retentionDays ?? 4, 1), 14)] *)
Definition clamp_retention (retentionDays : option Q) : Q :=
  qmin (qmax (match retentionDays with Some d => d | None => 4 end) 1) 14.

Record queue_row (V : Type) := {
  q_id : jstr;
  q_body : V;
  q_attempts : Z;
  visible_after : Q;
  is_dlq : bool;
  q_expires_at : option Q
}.
Arguments q_id {V}.
Arguments q_body {V}.
Arguments q_attempts {V}.
Arguments visible_after {V}.
Arguments is_dlq {V}.
Arguments q_expires_at {V}.

(** [QueueMessage] *)
Record QueueMessage (V : Type) := { msg_id : jstr; msg_body : V; msg_attempts : Z }.
Arguments msg_id {V}.
Arguments msg_body {V}.
Arguments msg_attempts {V}.

(** The provider's fields: the table and [retentionDays]. *)
Record queue_db (V : Type) := { messages : list (queue_row V); retentionDays : Q }.
Arguments messages {V}.
Arguments retentionDays {V}.

Section queue.
Context {V : Type} (JSON_stringify : V → jstr).
Implicit Types (rows : list (queue_row V)) (d : queue_db V).

Definition newSQLiteQueueProvider (retention : option Q) : queue_db V :=
  {| messages := []; retentionDays := clamp_retention retention |}.

Definition set_messages rows d : queue_db V :=
  {| messages := rows; retentionDays := retentionDays d |}.

(** [DELETE FROM messages WHERE expires_at IS NOT NULL AND expires_at <= ?] *)
Definition row_expired (now : Z) (r : queue_row V) : bool :=
  match q_expires_at r with Some t => Qle_bool t (inject_Z now) | None => false end.
Definition purgeExpired (now : Z) rows : list (queue_row V) :=
  filter (λ r, row_expired now r = false) rows.

(** The test on [opts.delay] *)
Definition delay_invalid (delay : jsnum) : bool :=
  negb (num_is_finite delay) || num_ltb delay 0 || num_gtb delay MAX_DELAY_SECONDS.

(** [send(body, { delay })]; [id] is the generated ULID. *)
Definition send (id : jstr) (now : Z) (body : V) (delay : option jsnum) : stm (queue_db V) exn jstr :=
  st_lift (throw_if match delay with Some x => delay_invalid x | None => false end
             ValidationFailedError) ;;~
  st_lift (throw_if (MAX_PAYLOAD_SIZE_BYTES <? utf8_length (JSON_stringify body))
             PayloadTooLargeError) ;;~
  λ d,
    let delayMs := match delay with Some (Fin x) => fmul x 1000 | _ => 0%Q end in
    let visibleAfter := fadd (inject_Z now) delayMs in
    let expiresAt :=
      fadd (inject_Z now) (fmul (fmul (fmul (retentionDays d) 24) 3600) 1000) in
    (set_messages
       (messages d ++
        [{| q_id := id; q_body := body; q_attempts := 0; visible_after := visibleAfter;
            is_dlq := false; q_expires_at := Some expiresAt |}]) d,
     Ok id).

(** [sendBatch(bodies)]: the first rejected body stops it; earlier ones stay. *)
Fixpoint sendBatch (bodies : list (jstr * Z * V)) : stm (queue_db V) exn (list jstr) :=
  match bodies with
  | [] => st_ret []
  | (id, now, body) :: bodies =>
      r <~ send id now body None ;;
      rs <~ sendBatch bodies ;;
      st_ret (r :: rs)
  end.

(** The row an inner [SELECT id ... ORDER BY visible_after ASC LIMIT 1] finds. *)
Fixpoint first_visible (P : queue_row V → bool) rows : option (queue_row V) :=
  match rows with
  | [] => None
  | r :: rows =>
      match first_visible P rows with
      | Some r' => if P r && Qle_bool (visible_after r) (visible_after r') then Some r else Some r'
      | None => if P r then Some r else None
      end
  end.

(** [UPDATE messages SET ... WHERE id = ?] *)
Definition update_row (id : jstr) (f : queue_row V → queue_row V) rows : list (queue_row V) :=
  (λ r, if decide (q_id r = id) then f r else r) <$> rows.

Definition receivable (now : Z) (r : queue_row V) : bool :=
  Qle_bool (visible_after r) (inject_Z now) && negb (is_dlq r).

(** [SET attempts = attempts + 1, visible_after = ?] *)
Definition take_row (nextVisible : Q) (r : queue_row V) : queue_row V :=
  {| q_id := q_id r; q_body := q_body r; q_attempts := q_attempts r + 1;
     visible_after := nextVisible; is_dlq := is_dlq r; q_expires_at := q_expires_at r |}.

(** [SET is_dlq = 1, visible_after = 0] *)
Definition bury_row (r : queue_row V) : queue_row V :=
  {| q_id := q_id r; q_body := q_body r; q_attempts := q_attempts r;
     visible_after := 0; is_dlq := true; q_expires_at := q_expires_at r |}.

(** The [while (true)] loop of [receive]; [clock n] is [Date.now()] when [n]
    rounds of fuel are left.  [None] is fuel exhaustion. *)
Fixpoint receive_loop (clock : nat → Z) (visibilityTimeoutMs : Q) (fuel : nat) rows
    : option (list (queue_row V) * option (QueueMessage V)) :=
  match fuel with
  | O => None
  | S fuel =>
      let now := clock fuel in
      let rows := purgeExpired now rows in
      let nextVisible := fadd (inject_Z now) visibilityTimeoutMs in
      match first_visible (receivable now) rows with
      | None => Some (rows, None)
      | Some r =>
          let rows := update_row (q_id r) (take_row nextVisible) rows in
          let attempts := q_attempts r + 1 in
          if maxReceives <? attempts
          then receive_loop clock visibilityTimeoutMs fuel (update_row (q_id r) bury_row rows)
          else Some (rows, Some {| msg_id := q_id r; msg_body := q_body r; msg_attempts := attempts |})
      end
  end.

(** Each round that continues moves a message to the dead letters, so that a
    round per message and one more are enough. *)
Definition receive (clock : nat → Z) (visibilityTimeoutMs : option Q) d
    : option (queue_db V * option (QueueMessage V)) :=
  let timeout := match visibilityTimeoutMs with Some t => t | None => defaultVisibilityTimeoutMs end in
  match receive_loop clock timeout (S (length (messages d))) (messages d) with
  | Some (rows, m) => Some (set_messages rows d, m)
  | None => None
  end.

(** [ack(id)] *)
Definition ack (id : jstr) d : queue_db V :=
  set_messages (filter (λ r, q_id r ≠ id) (messages d)) d.

(** [receiveDlq()]; [deadLetter.send] is a no-op of the source. *)
Definition dlq_receivable (now : Z) (r : queue_row V) : bool :=
  is_dlq r && Qle_bool (visible_after r) (inject_Z now).

Definition receiveDlq (now : Z) d : queue_db V * option (QueueMessage V) :=
  let rows := purgeExpired now (messages d) in
  match first_visible (dlq_receivable now) rows with
  | None => (set_messages rows d, None)
  | Some r =>
      let nextVisible := fadd (inject_Z now) defaultVisibilityTimeoutMs in
      (set_messages
         (update_row (q_id r)
            (λ r, {| q_id := q_id r; q_body := q_body r; q_attempts := q_attempts r;
                     visible_after := nextVisible; is_dlq := is_dlq r;
                     q_expires_at := q_expires_at r |}) rows) d,
       Some {| msg_id := q_id r; msg_body := q_body r; msg_attempts := q_attempts r |})
  end.

(** ** Selection *)

Lemma first_visible_elem P rows r :
  first_visible P rows = Some r →
  r ∈ rows ∧ P r = true ∧ ∀ r', r' ∈ rows → P r' = true → (visible_after r <= visible_after r')%Q.
Proof.
  revert r. induction rows as [|r0 rows IH]; intros r; [done|]. cbn.
  destruct (first_visible P rows) as [r1|] eqn:E.
  - destruct (IH r1 eq_refl) as (H1 & H2 & H3). destruct (P r0 && _) eqn:Eb.
    + apply andb_true_iff in Eb as [Hp Hle%Qle_bool_iff]. intros [= <-].
      split_and!; [left|done|]. intros r' [->|Hin]%elem_of_cons Hr'; [lra|].
      specialize (H3 _ Hin Hr'). lra.
    + intros [= <-]. split_and!; [by right|done|]. intros r' [->|Hin]%elem_of_cons Hr'; [|auto].
      rewrite Hr' in Eb. cbn in Eb. apply Qle_bool_false in Eb. lra.
  - destruct (P r0) eqn:Ep; [|done]. intros [= <-]. split_and!; [left|done|].
    intros r' [->|Hin]%elem_of_cons Hr'; [lra|]. clear IH Ep.
    exfalso. revert E. induction rows as [|r2 rows IH]; [set_solver|]. cbn.
    apply elem_of_cons in Hin as [->|Hin].
    + destruct (first_visible P rows); [destruct (P r2 && _); done|]. by rewrite Hr'.
    + destruct (first_visible P rows); [destruct (P r2 && _); done|]. by intros; apply IH.
Qed.

Lemma first_visible_None P rows :
  first_visible P rows = None ↔ ∀ r, r ∈ rows → P r = false.
Proof.
  induction rows as [|r0 rows IH]; cbn; [set_solver|].
  destruct (first_visible P rows) as [r1|] eqn:E.
  - destruct (first_visible_elem _ _ _ E) as (Hin & Hp & _).
    split; [destruct (P r0 && _); done|]. intros H. rewrite (H r1) in Hp; [done|by right].
  - destruct (P r0) eqn:Ep; split; try done.
    + intros H. rewrite (H r0) in Ep; [done|left].
    + intros _ r [->|Hin]%elem_of_cons; [done|]. by apply IH.
Qed.

(** ** The receive loop *)

Lemma elem_update_row id f rows r' :
  r' ∈ update_row id f rows ↔ ∃ r, r ∈ rows ∧ r' = if decide (q_id r = id) then f r else r.
Proof. unfold update_row. rewrite list_elem_of_fmap. naive_solver. Qed.

Lemma update_row_ids id f rows :
  (∀ r, q_id (f r) = q_id r) → q_id <$> update_row id f rows = q_id <$> rows.
Proof.
  intros Hf. unfold update_row. rewrite <-list_fmap_compose. apply list_fmap_ext. intros i r _.
  cbn. by case_decide.
Qed.

(** The number of messages that are not dead letters. *)
Definition live_count rows : nat := length (filter (λ r, is_dlq r = false) rows).

Lemma live_count_le rows : (live_count rows ≤ length rows)%nat.
Proof. apply length_filter. Qed.

Lemma live_count_purge now rows : (live_count (purgeExpired now rows) ≤ live_count rows)%nat.
Proof.
  unfold live_count, purgeExpired. rewrite list_filter_filter.
  induction rows as [|r rows IH]; [done|]. rewrite !filter_cons.
  repeat case_decide; cbn; try lia; tauto.
Qed.

Lemma live_count_update id f rows r0 :
  r0 ∈ rows → q_id r0 = id → is_dlq r0 = false → (∀ r, is_dlq (f r) = true) →
  (live_count (update_row id f rows) < live_count rows)%nat.
Proof.
  intros Hin Hid Hd Hf. apply list_elem_of_split in Hin as (l1 & l2 & ->).
  unfold live_count, update_row.
  assert (∀ l, (length (filter (λ r, is_dlq r = false)
    ((λ r, if decide (q_id r = id) then f r else r) <$> l)) ≤
    length (filter (λ r, is_dlq r = false) l))%nat) as Hle.
  { induction l as [|r l IH]; [done|]. rewrite fmap_cons, !filter_cons.
    destruct (decide (q_id r = id)) as [Hr|Hr].
    - rewrite (decide_False (P := is_dlq (f r) = false)) by by rewrite Hf.
      case_decide; cbn; lia.
    - case_decide; cbn; lia. }
  rewrite fmap_app, fmap_cons, !filter_app, !filter_cons, !length_app.
  rewrite (decide_True (P := q_id r0 = id)) by done.
  rewrite (decide_False (P := is_dlq (f r0) = false)) by by rewrite Hf.
  rewrite decide_True by done. cbn. pose proof (Hle l1). pose proof (Hle l2). lia.
Qed.

(** Burying after taking is one update. *)
Lemma update_row_twice id f g rows :
  (∀ r, q_id (f r) = q_id r) →
  update_row id g (update_row id f rows) = update_row id (λ r, g (f r)) rows.
Proof.
  intros Hf. unfold update_row. rewrite <-list_fmap_compose. apply list_fmap_ext. intros i r _.
  cbn. destruct (decide (q_id r = id)); [by rewrite Hf, decide_True|by rewrite decide_False].
Qed.

(** [receive] always returns, whatever the clock does between the rounds of
    its loop: a round that does not return moves one message to the dead letters,
    so a round per message and one more suffice. *)
Theorem receive_terminates clock timeout d : is_Some (receive clock timeout d).
Proof.
  unfold receive. set (v := match timeout with Some t => t | None => _ end).
  assert (∀ fuel rows, (live_count rows < fuel)%nat → is_Some (receive_loop clock v fuel rows)) as H.
  { induction fuel as [|fuel IH]; intros rows Hlt; [lia|]. cbn.
    destruct (first_visible _ _) as [r|] eqn:E; [|by eexists].
    destruct (maxReceives <? _); [|by eexists]. apply IH.
    destruct (first_visible_elem _ _ _ E) as (Hin & Hp & _).
    apply andb_true_iff in Hp as [_ Hd%negb_true_iff].
    rewrite update_row_twice by done.
    pose proof (live_count_purge (clock fuel) rows).
    pose proof (live_count_update (q_id r) (λ r, bury_row (take_row (fadd (inject_Z (clock fuel)) v) r))
      _ r Hin eq_refl Hd (λ _, eq_refl)). lia. }
  destruct (H (S (length (messages d))) (messages d)) as [[rows m] ->]; [|by eexists].
  pose proof (live_count_le (messages d)). lia.
Qed.

(** What a receive at [now] does to a row. *)
Inductive received (now : Z) (nextVisible : Q) (m : option (QueueMessage V)) (r : queue_row V)
    : queue_row V → Prop :=
| rc_kept :
    (∀ msg, m = Some msg → msg_id msg ≠ q_id r) → received now nextVisible m r r
| rc_buried :
    receivable now r = true → maxReceives ≤ q_attempts r →
    (∀ msg, m = Some msg → msg_id msg ≠ q_id r) →
    received now nextVisible m r (bury_row (take_row nextVisible r))
| rc_taken :
    receivable now r = true → q_attempts r < maxReceives →
    m = Some {| msg_id := q_id r; msg_body := q_body r; msg_attempts := q_attempts r + 1 |} →
    received now nextVisible m r (take_row nextVisible r).

Lemma received_id now nv m r r' : received now nv m r r' → q_id r' = q_id r ∧ q_body r' = q_body r ∧
  q_expires_at r' = q_expires_at r.
Proof. by destruct 1. Qed.

Lemma purge_update now id f rows :
  (∀ r, q_expires_at (f r) = q_expires_at r) →
  purgeExpired now (update_row id f (purgeExpired now rows)) = update_row id f (purgeExpired now rows).
Proof.
  intros Hf. apply filter_all, Forall_forall. intros r' (r & Hr & ->)%elem_update_row.
  apply list_elem_of_filter in Hr as [Hr _]. unfold row_expired in *. case_decide; by rewrite ?Hf.
Qed.

(** The loop at a fixed time. *)
Lemma receive_loop_spec now v fuel rows rows' m :
  NoDup (q_id <$> rows) →
  receive_loop (λ _, now) v fuel rows = Some (rows', m) →
  Forall2 (received now (fadd (inject_Z now) v) m) (purgeExpired now rows) rows' ∧
  (∀ msg, m = Some msg → ∃ r, r ∈ purgeExpired now rows ∧ q_id r = msg_id msg) ∧
  (m = None → ∀ r, r ∈ rows' → receivable now r = false).
Proof.
  set (nv := fadd (inject_Z now) v). revert rows. induction fuel as [|fuel IH]; intros rows Hnd; [done|].
  cbn. fold nv. set (P := purgeExpired now rows).
  assert (NoDup (q_id <$> P)) as HndP.
  { eapply sublist_NoDup; [exact Hnd|]. apply fmap_sublist, sublist_filter. }
  assert (∀ r1 r2, r1 ∈ P → r2 ∈ P → q_id r1 = q_id r2 → r1 = r2) as Huniq.
  { intros r1 r2 H1 H2. by apply (NoDup_fmap_elem q_id P). }
  destruct (first_visible _ P) as [r0|] eqn:E.
  - destruct (first_visible_elem _ _ _ E) as (Hin & Hp & _).
    destruct (maxReceives <? q_attempts r0 + 1) eqn:Ea.
    + rewrite update_row_twice by done. set (f := λ r, bury_row (take_row nv r)). intros Hl.
      assert (purgeExpired now (update_row (q_id r0) f P) = update_row (q_id r0) f P) as Hpu
        by by apply purge_update.
      apply IH in Hl as (H2 & Hm & Hnone); [|by rewrite update_row_ids].
      rewrite Hpu in *. unfold update_row in H2. rewrite Forall2_fmap_l in H2. split_and!; [| |done].
      * eapply Forall2_impl_in; [exact H2|]. cbn. intros r r' Hr Hrc. case_decide as Hid; [|done].
        assert (r = r0) as -> by by apply Huniq.
        inversion Hrc as [Hmsg|Hbad|Hbad].
        -- apply rc_buried; [done|zbool; lia|exact Hmsg].
        -- unfold receivable in Hbad. cbn in Hbad. by rewrite andb_false_r in Hbad.
        -- unfold receivable in Hbad. cbn in Hbad. by rewrite andb_false_r in Hbad.
      * intros msg Hmsg. destruct (Hm msg Hmsg) as (r & (r1 & Hr1 & ->)%elem_update_row & Hid).
        exists r1. split; [done|]. by case_decide.
    + intros [= <- <-]. split_and!.
      * unfold update_row. rewrite Forall2_fmap_r. apply Forall2_same_length_lookup_2; [done|].
        intros i r r' Hi Hi'. simplify_eq. cbn. apply list_elem_of_lookup_2 in Hi.
        case_decide as Hid.
        -- assert (r = r0) as -> by by apply Huniq. apply rc_taken; [done|zbool; lia|done].
        -- apply rc_kept. intros msg [= <-]. cbn. congruence.
      * intros msg [= <-]. by exists r0.
      * done.
  - intros [= <- <-]. split_and!; [|done|].
    + apply Forall_Forall2_diag, Forall_true. intros r. by apply rc_kept.
    + intros _. by apply first_visible_None.
Qed.

(** ** Traces of calls on one provider *)

Inductive qevent :=
| Sent (id : jstr) (body : V) (at_ : Z)
| Delivered (id : jstr) (body : V) (attempts : Z) (at_ : Z) (until : Q)
| Acked (id : jstr).
Implicit Types (log : list qevent).

Inductive qop :=
| OpSend (id : jstr) (body : V) (delay : option jsnum)
| OpReceive (timeout : option Q)
| OpAck (id : jstr)
| OpReceiveDlq.

Definition timeout_or_default (timeout : option Q) : Q :=
  match timeout with Some t => t | None => defaultVisibilityTimeoutMs end.

(** A call at time [now] and what it lets its callers observe. *)
Definition qstep d (now : Z) (op : qop) : queue_db V * list qevent :=
  match op with
  | OpSend id body delay =>
      match send id now body delay d with
      | (d, Ok _) => (d, [Sent id body now])
      | (d, Err _) => (d, [])
      end
  | OpReceive timeout =>
      match receive (λ _, now) timeout d with
      | Some (d, Some m) =>
          (d, [Delivered (msg_id m) (msg_body m) (msg_attempts m) now
                 (fadd (inject_Z now) (timeout_or_default timeout))])
      | Some (d, None) => (d, [])
      | None => (d, [])
      end
  | OpAck id => (ack id d, [Acked id])
  | OpReceiveDlq => ((receiveDlq now d).1, [])
  end.

(** Generated ids are new; visibility timeouts are not negative. *)
Definition op_ok (log : list qevent) (op : qop) : Prop :=
  match op with
  | OpSend id _ _ => ∀ b t, Sent id b t ∉ log
  | OpReceive timeout => (0 <= timeout_or_default timeout)%Q
  | _ => True
  end.

(** The states and histories a provider reaches, at non-decreasing times. *)
Inductive queue_reach (retention : option Q) : Z → queue_db V → list qevent → Prop :=
| qr_init t : 0 ≤ t → queue_reach retention t (newSQLiteQueueProvider retention) []
| qr_step t d log now op :
    queue_reach retention t d log → t ≤ now ≤ 2 ^ 53 → op_ok log op →
    queue_reach retention now (qstep d now op).1 (log ++ (qstep d now op).2).

(** The deliveries of a message: attempt number, time, end of invisibility. *)
Definition deliveries (id : jstr) (log : list qevent) : list (Z * Z * Q) :=
  omap (λ e, match e with
             | Delivered id' _ n t u => if decide (id' = id) then Some (n, t, u) else None
             | _ => None
             end) log.

Definition expiry (retention : option Q) (at_ : Z) : Q :=
  fadd (inject_Z at_) (fmul (fmul (fmul (clamp_retention retention) 24) 3600) 1000).

(** Deliveries are numbered from 1 and never overlap. *)
Definition deliveries_ok (ds : list (Z * Z * Q)) : Prop :=
  Z.of_nat (length ds) ≤ maxReceives ∧
  (λ e, e.1.1) <$> ds = seqZ 1 (Z.of_nat (length ds)) ∧
  StronglySorted (λ e e' : Z * Z * Q, e.2 <= inject_Z e'.1.2)%Q ds.

(** What holds of a row, given the history. *)
Definition row_ok (retention : option Q) (log : list qevent) (r : queue_row V) : Prop :=
  (∃ t, Sent (q_id r) (q_body r) t ∈ log ∧ q_expires_at r = Some (expiry retention t)) ∧
  let n := Z.of_nat (length (deliveries (q_id r) log)) in
  if is_dlq r then n = maxReceives
  else q_attempts r = n ∧ Forall (λ e, e.2 <= visible_after r)%Q (deliveries (q_id r) log).

Definition queue_inv (retention : option Q) (t : Z) d (log : list qevent) : Prop :=
  0 ≤ t ∧ retentionDays d = clamp_retention retention ∧
  NoDup (q_id <$> messages d) ∧
  (∀ r, r ∈ messages d → row_ok retention log r) ∧
  (∀ id, deliveries_ok (deliveries id log)) ∧
  (∀ id b n t' u, Delivered id b n t' u ∈ log → ∃ t0, Sent id b t0 ∈ log) ∧
  (∀ id b b' t1 t2, Sent id b t1 ∈ log → Sent id b' t2 ∈ log → b = b' ∧ t1 = t2) ∧
  (∀ id b t', Sent id b t' ∈ log → Acked id ∉ log →
     (inject_Z t < expiry retention t')%Q → ∃ r, r ∈ messages d ∧ q_id r = id ∧ q_body r = b).

Lemma deliveries_app id l1 l2 : deliveries id (l1 ++ l2) = deliveries id l1 ++ deliveries id l2.
Proof. apply omap_app. Qed.

Lemma deliveries_unsent id log :
  (∀ id b n t u, Delivered id b n t u ∈ log → ∃ t0, Sent id b t0 ∈ log) →
  (∀ b t, Sent id b t ∉ log) → deliveries id log = [].
Proof.
  intros H Hn. unfold deliveries. apply omap_nil_elem. intros e He. destruct e as [|id' b n t u|]; try done.
  case_decide; [subst|done]. destruct (H _ _ _ _ _ He) as [t0 Ht]. by apply Hn in Ht.
Qed.

Lemma row_ok_mono retention log es r :
  (∀ e, e ∈ es → match e with Delivered id _ _ _ _ => id ≠ q_id r | _ => True end) →
  row_ok retention log r → row_ok retention (log ++ es) r.
Proof.
  intros Hes [(t & Ht & He) Hr]. split.
  - exists t. split; [|done]. apply elem_of_app. by left.
  - rewrite deliveries_app.
    assert (deliveries (q_id r) es = []) as ->; [|by rewrite app_nil_r].
    unfold deliveries. apply omap_nil_elem. intros e Hin. specialize (Hes e Hin).
    destruct e; try done. by case_decide.
Qed.

Lemma purge_row now rows r : r ∈ purgeExpired now rows ↔ r ∈ rows ∧ row_expired now r = false.
Proof. unfold purgeExpired. rewrite list_elem_of_filter. tauto. Qed.

Lemma purge_NoDup now rows : NoDup (q_id <$> rows) → NoDup (q_id <$> purgeExpired now rows).
Proof. intros H. eapply sublist_NoDup; [exact H|]. apply fmap_sublist, sublist_filter. Qed.

(** A message that has not reached its expiry survives the purge. *)
Lemma purge_keeps retention now rows r t0 :
  r ∈ rows → q_expires_at r = Some (expiry retention t0) →
  (inject_Z now < expiry retention t0)%Q → r ∈ purgeExpired now rows.
Proof.
  intros Hr He Hlt. apply purge_row. split; [done|]. unfold row_expired. rewrite He.
  by apply Qle_bool_false.
Qed.

Lemma deliveries_snoc_other id log e :
  match e with Delivered id' _ _ _ _ => id' ≠ id | _ => True end →
  deliveries id (log ++ [e]) = deliveries id log.
Proof.
  intros He. rewrite deliveries_app. assert (deliveries id [e] = []) as ->; [|by rewrite app_nil_r].
  apply omap_nil_elem. intros e' ->%list_elem_of_singleton. destruct e; try done. by case_decide.
Qed.

(** Histories in which nothing is delivered keep the facts about deliveries. *)
Lemma inv_log retention t d log now rows es :
  queue_inv retention t d log → t ≤ now →
  NoDup (q_id <$> rows) →
  (∀ r, r ∈ rows → row_ok retention (log ++ es) r) →
  (∀ e, e ∈ es → ∃ id, e = Acked id ∧ ∀ r, r ∈ messages d → q_id r ≠ id → r ∈ rows) →
  (es = [] → ∀ r t0, r ∈ messages d → q_expires_at r = Some (expiry retention t0) →
     (inject_Z now < expiry retention t0)%Q → ∃ r', r' ∈ rows ∧ q_id r' = q_id r ∧ q_body r' = q_body r) →
  queue_inv retention now (set_messages rows d) (log ++ es).
Proof.
  intros (Ht & Hret & Hnd & Hrows & Hdel & Hds & Hsu & Hkeep) Hle Hnd' Hrows' Hes Hnil.
  assert (∀ e, e ∈ es → ∃ id, e = Acked id) as Hack by (intros e He; destruct (Hes e He) as (id & -> & _); eauto).
  assert (∀ id b t, Sent id b t ∈ log ++ es → Sent id b t ∈ log) as Hs.
  { intros id b t1 [?|Hin]%elem_of_app; [done|]. by destruct (Hack _ Hin). }
  split_and!; [lia|done|done|done| | | |].
  - intros id. rewrite deliveries_app. assert (deliveries id es = []) as ->; [|by rewrite app_nil_r].
    apply omap_nil_elem. intros e He. by destruct (Hack e He) as [? ->].
  - intros id b n t' u [Hin|Hin]%elem_of_app; [|by destruct (Hack _ Hin)].
    destruct (Hds _ _ _ _ _ Hin) as [t0 ?]. exists t0. apply elem_of_app. by left.
  - intros id b b' t1 t2 H1%Hs H2%Hs. by eapply Hsu.
  - intros id b t1 H1%Hs Hna Hlt.
    assert (inject_Z t < expiry retention t1)%Q as Hlt'.
    { eapply Qle_lt_trans; [|exact Hlt]. by rewrite <-Zle_Qle. }
    destruct (Hkeep id b t1 H1) as (r & Hr & Hid & Hb);
      [intros H; apply Hna, elem_of_app; by left|done|]. subst id b.
    destruct es as [|e es].
    + destruct (Hrows r Hr) as [(t0 & Ht0 & He) _]. apply (Hnil eq_refl r t0); [done|done|].
      destruct (Hsu _ _ _ _ _ Ht0 H1) as [_ ->]. done.
    + destruct (Hes e) as (id & -> & Hk); [left|]. exists r. split; [|done].
      apply Hk; [done|]. intros Hid. apply Hna, elem_of_app. right. rewrite Hid. left.
Qed.

Lemma inv_send retention t d log now id body delay :
  queue_inv retention t d log → t ≤ now → (∀ b t, Sent id b t ∉ log) →
  queue_inv retention now (qstep d now (OpSend id body delay)).1
    (log ++ (qstep d now (OpSend id body delay)).2).
Proof.
  intros Hinv Hle Hfresh.
  assert (queue_inv retention now d (log ++ [])) as Hsame.
  { pose proof Hinv as (_ & Hret & Hnd & Hrows & _). destruct d as [rows ret].
    apply (inv_log retention t {| messages := rows; retentionDays := ret |} log now rows []);
      [done|done|done| | |]; cbn in *.
    - rewrite app_nil_r. done.
    - intros e He. by apply elem_of_nil in He.
    - intros _ r t0 Hr _ _. by exists r. }
  cbn [qstep]. unfold send, st_bind, st_lift, throw_if.
  destruct (match delay with Some x => delay_invalid x | None => false end); [exact Hsame|].
  destruct (MAX_PAYLOAD_SIZE_BYTES <? _); [exact Hsame|]. clear Hsame. cbn [fst snd].
  destruct Hinv as (Ht & Hret & Hnd & Hrows & Hdel & Hds & Hsu & Hkeep).
  set (row := {| q_id := id |}).
  assert (∀ r, r ∈ messages d → q_id r ≠ id) as Hne.
  { intros r Hr <-. destruct (Hrows r Hr) as [(t0 & Ht0 & _) _]. by apply Hfresh in Ht0. }
  split_and!; [lia|done| | | | | |]; cbn [set_messages messages].
  - rewrite fmap_app. apply NoDup_app. split_and!; [done| |apply NoDup_singleton].
    intros x (r & -> & Hr)%list_elem_of_fmap Hx%list_elem_of_singleton. by apply (Hne r).
  - intros r [Hr| ->%list_elem_of_singleton]%elem_of_app.
    + apply row_ok_mono; [|by apply Hrows]. by intros e ->%list_elem_of_singleton.
    + split.
      * exists now. split; [apply elem_of_app; right; left|]. unfold row. cbn. by rewrite Hret.
      * cbn. rewrite deliveries_snoc_other by done. rewrite deliveries_unsent by done. by split.
  - intros id'. by rewrite deliveries_snoc_other.
  - intros id' b n t' u [Hin|Hin%list_elem_of_singleton]%elem_of_app; [|done].
    destruct (Hds _ _ _ _ _ Hin) as [t0 ?]. exists t0. apply elem_of_app. by left.
  - intros id' b b' t1 t2 [H1|H1%list_elem_of_singleton]%elem_of_app
      [H2|H2%list_elem_of_singleton]%elem_of_app; simplify_eq; try done.
    + by eapply Hsu.
    + by apply Hfresh in H1.
    + by apply Hfresh in H2.
  - intros id' b t1 [H1|H1%list_elem_of_singleton]%elem_of_app Hna Hlt.
    + destruct (Hkeep id' b t1 H1) as (r & Hr & ? & ?);
        [intros H; apply Hna, elem_of_app; by left| |].
      * eapply Qle_lt_trans; [|exact Hlt]. by rewrite <-Zle_Qle.
      * exists r. split; [|done]. apply elem_of_app. by left.
    + simplify_eq. exists row. split; [|done]. apply elem_of_app. right. left.
Qed.

Lemma inv_ack retention t d log now id :
  queue_inv retention t d log → t ≤ now →
  queue_inv retention now (ack id d) (log ++ [Acked id]).
Proof.
  intros Hinv Hle. pose proof Hinv as (_ & _ & Hnd & Hrows & _). unfold ack.
  apply (inv_log retention t d log now _ [Acked id]); [done|done| | | |done].
  - eapply sublist_NoDup; [exact Hnd|]. apply fmap_sublist, sublist_filter.
  - intros r [_ Hr]%list_elem_of_filter. apply row_ok_mono; [|by apply Hrows].
    by intros e ->%list_elem_of_singleton.
  - intros e ->%list_elem_of_singleton. exists id. split; [done|].
    intros r Hr Hne. by apply list_elem_of_filter.
Qed.

Lemma inv_dlq retention t d log now :
  queue_inv retention t d log → t ≤ now → queue_inv retention now (receiveDlq now d).1 (log ++ []).
Proof.
  intros Hinv Hle. pose proof Hinv as (_ & _ & Hnd & Hrows & _). unfold receiveDlq.
  pose proof (purge_NoDup now _ Hnd) as HndP.
  destruct (first_visible _ _) as [r0|] eqn:E; cbn [fst].
  - destruct (first_visible_elem _ _ _ E) as (Hin & Hp & _). apply andb_true_iff in Hp as [Hd _].
    set (f := λ r, _). apply (inv_log retention t d log now _ []); [done|done| | | |].
    + by rewrite update_row_ids.
    + intros r' (r & [Hr _]%purge_row & ->)%elem_update_row. rewrite app_nil_r.
      case_decide as Hid; [|by apply Hrows].
      assert (r = r0) as ->.
      { apply purge_row in Hin as [Hin _]. by apply (NoDup_fmap_elem q_id (messages d)). }
      destruct (Hrows r0) as [Hs Hr']; [by apply purge_row in Hin as [Hin _]|].
      split; [exact Hs|]. cbn. rewrite Hd in *. exact Hr'.
    + intros e He. by apply elem_of_nil in He.
    + intros _ r t0 Hr He Hlt. eexists. split.
      * apply elem_update_row. exists r. split; [by eapply purge_keeps|reflexivity].
      * by case_decide.
  - apply (inv_log retention t d log now _ []); [done|done|done| | |].
    + intros r [Hr _]%purge_row. rewrite app_nil_r. by apply Hrows.
    + intros e He. by apply elem_of_nil in He.
    + intros _ r t0 Hr He Hlt. exists r. split; [by eapply purge_keeps|done].
Qed.

Lemma StronglySorted_snoc {A} (R : A → A → Prop) l x :
  StronglySorted R l → Forall (λ y, R y x) l → StronglySorted R (l ++ [x]).
Proof.
  induction 1 as [|y l Hl IH Hy]; intros Hall; cbn; [repeat constructor|].
  apply Forall_cons in Hall as [Hyx Hall]. constructor; [by apply IH|].
  apply Forall_app; split; [done|by repeat constructor].
Qed.

Lemma delivery_extends ds n now nv :
  deliveries_ok ds → n = Z.of_nat (length ds) → n < maxReceives →
  Forall (λ e, e.2 <= inject_Z now)%Q ds → deliveries_ok (ds ++ [(n + 1, now, nv)]).
Proof.
  intros (_ & Hseq & Hs) -> Hn Hall. unfold deliveries_ok. rewrite length_app. cbn [length].
  split_and!; [lia| |by apply StronglySorted_snoc].
  rewrite fmap_app, Hseq. cbn.
  replace (Z.of_nat (length ds + 1)) with (Z.of_nat (length ds) + 1) by lia.
  rewrite seqZ_app by lia. f_equal.
  change (seqZ (1 + Z.of_nat (length ds)) 1) with [0 + (1 + Z.of_nat (length ds))]. f_equal. lia.
Qed.

Lemma next_visible_ge now v : 0 ≤ now ≤ 2 ^ 53 → (0 <= v)%Q → (inject_Z now <= fadd (inject_Z now) v)%Q.
Proof.
  intros Hn Hv. pose proof (rnd_int now Hn) as Hr. unfold fadd.
  apply Qle_trans with (rnd (inject_Z now)); [lra|]. apply rnd_mono. lra.
Qed.

(** What a receive shows its caller. *)
Definition delivery_event (now : Z) (nv : Q) (m : option (QueueMessage V)) : list qevent :=
  match m with
  | Some x => [Delivered (msg_id x) (msg_body x) (msg_attempts x) now nv]
  | None => []
  end.

Lemma delivery_event_other now nv m id log :
  (∀ x, m = Some x → msg_id x ≠ id) →
  deliveries id (log ++ delivery_event now nv m) = deliveries id log.
Proof.
  intros Hm. destruct m as [x|]; cbn; [|by rewrite app_nil_r].
  apply deliveries_snoc_other. by apply Hm.
Qed.

(** A row after a receive, given the deliveries so far. *)
Lemma received_row_ok retention log now nv m r r' :
  row_ok retention log r → deliveries_ok (deliveries (q_id r) log) →
  received now nv m r r' → (inject_Z now <= nv)%Q →
  row_ok retention (log ++ delivery_event now nv m) r'.
Proof.
  intros [(t0 & Ht0 & He) Hrow] (Hmax & _ & _) Hrc Hnv.
  assert (∃ t, Sent (q_id r) (q_body r) t ∈ log ++ delivery_event now nv m ∧
               q_expires_at r = Some (expiry retention t)) as Hsent.
  { exists t0. split; [|done]. apply elem_of_app. by left. }
  destruct Hrc as [Hm|Hr Ha Hm|Hr Ha Hm].
  - split; [exact Hsent|]. by rewrite delivery_event_other.
  - split; [exact Hsent|]. cbn [bury_row take_row is_dlq q_id]. rewrite delivery_event_other by done.
    apply andb_true_iff in Hr as [_ Hd%negb_true_iff]. rewrite Hd in Hrow. destruct Hrow as [Hn _]. lia.
  - split; [exact Hsent|]. apply andb_true_iff in Hr as [Hvis%Qle_bool_iff Hd%negb_true_iff].
    cbn [take_row is_dlq q_id q_attempts visible_after]. rewrite Hd in *. destruct Hrow as [Hn Hall].
    rewrite Hm, deliveries_app. cbn. rewrite decide_True by done. rewrite length_app. cbn.
    split; [lia|]. apply Forall_app; split; [|apply Forall_singleton, Qle_refl].
    eapply Forall_impl; [exact Hall|]. cbn. intros e Hle. lra.
Qed.

Lemma receive_rows now timeout d d' m :
  NoDup (q_id <$> messages d) →
  receive (λ _, now) timeout d = Some (d', m) →
  ∃ rows', d' = set_messages rows' d ∧
    let nv := fadd (inject_Z now) (timeout_or_default timeout) in
    Forall2 (received now nv m) (purgeExpired now (messages d)) rows' ∧
    (∀ msg, m = Some msg → ∃ r, r ∈ purgeExpired now (messages d) ∧ q_id r = msg_id msg) ∧
    (m = None → ∀ r, r ∈ rows' → receivable now r = false).
Proof.
  intros Hnd. unfold receive. fold (timeout_or_default timeout).
  destruct (receive_loop _ _ _ _) as [[rows' m']|] eqn:E; [|done]. intros [= <- <-].
  exists rows'. split; [done|]. by apply receive_loop_spec in E.
Qed.

Lemma received_ids now nv m rows rows' :
  Forall2 (received now nv m) rows rows' → q_id <$> rows' = q_id <$> rows.
Proof.
  induction 1 as [|r r' rows rows' H _ IH]; [done|]. cbn. destruct (received_id _ _ _ _ _ H) as [-> _].
  by rewrite IH.
Qed.

(** The row that was delivered. *)
Lemma received_taken now nv msg rows rows' :
  Forall2 (received now nv (Some msg)) rows rows' →
  (∃ r, r ∈ rows ∧ q_id r = msg_id msg) →
  ∃ r, r ∈ rows ∧ receivable now r = true ∧ q_attempts r < maxReceives ∧
       msg = {| msg_id := q_id r; msg_body := q_body r; msg_attempts := q_attempts r + 1 |}.
Proof.
  intros H2 (r & Hr & Hid). destruct (Forall2_elem_l _ _ _ _ H2 Hr) as (r' & _ & Hrc).
  destruct Hrc as [Hm|? ? Hm|Hv Ha [= ->]].
  - by destruct (Hm _ eq_refl).
  - by destruct (Hm _ eq_refl).
  - exists r. by split_and!.
Qed.

Lemma inv_receive retention t d log now timeout :
  queue_inv retention t d log → t ≤ now ≤ 2 ^ 53 → (0 <= timeout_or_default timeout)%Q →
  queue_inv retention now (qstep d now (OpReceive timeout)).1
    (log ++ (qstep d now (OpReceive timeout)).2).
Proof.
  intros (Ht & Hret & Hnd & Hrows & Hdel & Hds & Hsu & Hkeep) Hle Hv. cbn [qstep].
  pose proof (next_visible_ge now (timeout_or_default timeout) ltac:(lia) Hv) as Hnv.
  destruct (receive_terminates (λ _, now) timeout d) as [[d' m] Hrec].
  destruct (receive_rows now timeout d d' m Hnd Hrec) as (rows' & -> & H2 & Hm & _).
  cbv zeta in H2. set (nv := fadd (inject_Z now) (timeout_or_default timeout)) in *.
  set (es := delivery_event now nv m).
  rewrite Hrec. assert (match m with
    | Some m => (set_messages rows' d, [Delivered (msg_id m) (msg_body m) (msg_attempts m) now nv])
    | None => (set_messages rows' d, [])
    end = (set_messages rows' d, es)) as -> by by destruct m. cbn [fst snd].
  assert (∀ id b t, Sent id b t ∈ log ++ es → Sent id b t ∈ log) as Hs.
  { intros id b t1 [?|Hin]%elem_of_app; [done|]. unfold es in Hin. destruct m; [|by apply elem_of_nil in Hin].
    by apply list_elem_of_singleton in Hin. }
  split_and!; [lia|done| | | | | |]; cbn [set_messages messages].
  - rewrite (received_ids _ _ _ _ _ H2). by apply purge_NoDup.
  - intros r' Hr'. destruct (Forall2_elem_r _ _ _ _ H2 Hr') as (r & [Hr _]%purge_row & Hrc).
    apply (received_row_ok retention log now nv m r); [by apply Hrows|apply Hdel|done|done].
  - intros id. rewrite deliveries_app. unfold es. destruct m as [msg|]; [|by rewrite app_nil_r].
    destruct (received_taken _ _ _ _ _ H2 (Hm _ eq_refl)) as (r & [Hr _]%purge_row & Hvis & Ha & ->).
    cbn. case_decide as Hid; [|by rewrite app_nil_r]. subst id.
    destruct (Hrows r Hr) as [_ Hn]. apply andb_true_iff in Hvis as [Hvis%Qle_bool_iff Hd%negb_true_iff].
    rewrite Hd in Hn. destruct Hn as [Hn Hall]. apply delivery_extends; [done|done|done|].
    eapply Forall_impl; [exact Hall|]. cbn. intros e He. lra.
  - intros id b n t' u [Hin|Hin]%elem_of_app.
    + destruct (Hds _ _ _ _ _ Hin) as [t0 ?]. exists t0. apply elem_of_app. by left.
    + unfold es in Hin. destruct m as [msg|]; [|by apply elem_of_nil in Hin].
      apply list_elem_of_singleton in Hin. injection Hin as -> -> _ _ _.
      destruct (received_taken _ _ _ _ _ H2 (Hm _ eq_refl)) as (r & [Hr _]%purge_row & _ & _ & ->).
      destruct (Hrows r Hr) as [(t0 & Ht0 & _) _]. exists t0. apply elem_of_app. by left.
  - intros id b b' t1 t2 H1%Hs H3%Hs. by eapply Hsu.
  - intros id b t1 H1%Hs Hna Hlt.
    destruct (Hkeep id b t1 H1) as (r & Hr & Hid & Hb).
    + intros H. apply Hna, elem_of_app. by left.
    + eapply Qle_lt_trans; [|exact Hlt]. rewrite <-Zle_Qle. lia.
    + destruct (Hrows r Hr) as [(t0 & Ht0 & He) _].
      assert (r ∈ purgeExpired now (messages d)) as Hrp.
      { apply (purge_keeps retention now _ r t0 Hr He). subst. by destruct (Hsu _ _ _ _ _ Ht0 H1) as [_ ->]. }
      destruct (Forall2_elem_l _ _ _ _ H2 Hrp) as (r' & Hr' & Hrc).
      destruct (received_id _ _ _ _ _ Hrc) as (Hi & Hbo & _). exists r'. by rewrite Hi, Hbo.
Qed.

Lemma reach_inv retention t d log : queue_reach retention t d log → queue_inv retention t d log.
Proof.
  induction 1 as [t Ht|t d log now op Hr IH Hle Hop].
  - split_and!; [done|done|apply NoDup_nil_2| | | | |]; cbn [newSQLiteQueueProvider messages].
    + intros r Hr. by apply elem_of_nil in Hr.
    + intros id. split_and!; [done|done|constructor].
    + intros ????? H. by apply elem_of_nil in H.
    + intros ????? H. by apply elem_of_nil in H.
    + intros ??? H. by apply elem_of_nil in H.
  - destruct op as [id body delay|timeout|id|].
    + by apply (inv_send retention t); [|lia|].
    + by apply (inv_receive retention t).
    + by apply (inv_ack retention t); [|lia].
    + by apply (inv_dlq retention t); [|lia].
Qed.

(** At-least-once delivery with bounded, non-overlapping redelivery.  Over any
    sequence of [send], [receive], [ack] and dead letter reads (distinct message
    ids, a clock that does not go back, visibility timeouts that are not
    negative), every message is delivered with the body it was sent with, at most
    5 times, with attempt numbers 1, 2, 3, ..., and never again before the
    visibility timeout of its previous delivery has passed. *)
Theorem queue_delivery retention t d log id :
  queue_reach retention t d log →
  let ds := deliveries id log in
  Z.of_nat (length ds) ≤ 5 ∧
  (λ e, e.1.1) <$> ds = seqZ 1 (Z.of_nat (length ds)) ∧
  StronglySorted (λ e e' : Z * Z * Q, e.2 <= inject_Z e'.1.2)%Q ds ∧
  ∀ b n t' u, Delivered id b n t' u ∈ log → ∃ t0, Sent id b t0 ∈ log.
Proof.
  intros (_ & _ & _ & _ & Hdel & Hds & _)%reach_inv. destruct (Hdel id) as (H1 & H2 & H3).
  split_and!; [exact H1|exact H2|exact H3|]. intros b n t' u. apply Hds.
Qed.

(** C21: No message is lost: one that was sent and not acknowledged, and whose
    retention period has not passed, is still in the table with its body - either
    ready to be received when its visibility timeout ends, after fewer than 5
    deliveries or exactly 5, or a dead letter, which it becomes only after
    exactly 5 deliveries.  And [receive] returns nothing only when no stored
    message is visible. *)
Theorem queue_no_loss retention t d log :
  queue_reach retention t d log →
  (∀ id b t', Sent id b t' ∈ log → Acked id ∉ log →
     (inject_Z t < expiry retention t')%Q →
     ∃ r, r ∈ messages d ∧ q_id r = id ∧ q_body r = b ∧
       let n := Z.of_nat (length (deliveries id log)) in
       if is_dlq r then n = 5 else q_attempts r = n ∧ n ≤ 5) ∧
  (∀ now timeout d',
     receive (λ _, now) timeout d = Some (d', None) →
     ∀ r, r ∈ messages d' → is_dlq r = true ∨ (inject_Z now < visible_after r)%Q).
Proof.
  intros (_ & _ & Hnd & Hrows & Hdel & _ & _ & Hkeep)%reach_inv. split.
  - intros id b t' Hs Hna Hlt. destruct (Hkeep id b t' Hs Hna Hlt) as (r & Hr & Hid & Hb).
    exists r. split_and!; [done..|]. destruct (Hrows r Hr) as [_ Hn]. rewrite Hid in Hn.
    destruct (Hdel id) as [Hmax _]. cbv zeta. destruct (is_dlq r); [exact Hn|]. by destruct Hn.
  - intros now timeout d' Hrec r Hr.
    destruct (receive_rows now timeout d d' None Hnd Hrec) as (rows' & -> & _ & _ & Hnone).
    specialize (Hnone eq_refl r Hr). apply andb_false_iff in Hnone as [H|H].
    + right. by apply Qle_bool_false.
    + left. by apply negb_false_iff in H.
Qed.
End queue.
Arguments qevent : clear implicits.
Arguments qop : clear implicits.

(** One message, received twice and then acknowledged. *)
Definition demo_queue : list (Z * qop Z) :=
  [(0, OpSend (js "m1") 7 None); (1000, OpReceive None); (2000, OpReceive None);
   (31000, OpReceive (Some 10%Q))].
Definition run_queue (ops : list (Z * qop Z)) : queue_db Z * list (qevent Z) :=
  fold_left (λ st op, ((qstep (λ _, []) st.1 op.1 op.2).1,
                     st.2 ++ (qstep (λ _, []) st.1 op.1 op.2).2)) ops
    (newSQLiteQueueProvider None, []).

Lemma demo_queue_reach : queue_reach (λ _, []) None 31000 (run_queue demo_queue).1 (run_queue demo_queue).2.
Proof.
  unfold run_queue, demo_queue. cbn [fold_left fst snd].
  apply (qr_step _ None 2000); [|lia|vm_compute; discriminate].
  apply (qr_step _ None 1000); [|lia|vm_compute; discriminate].
  apply (qr_step _ None 0); [|lia|vm_compute; discriminate].
  apply (qr_step _ None 0); [|lia|intros b t H; by apply elem_of_nil in H].
  by apply qr_init.
Qed.

Theorem queue_delivery_witness :
  deliveries (js "m1") (run_queue demo_queue).2 = [(1, 1000, 31000%Q); (2, 31000, 31010%Q)] ∧
  StronglySorted (λ e e' : Z * Z * Q, e.2 <= inject_Z e'.1.2)%Q
    (deliveries (js "m1") (run_queue demo_queue).2).
Proof.
  split; [vm_compute; reflexivity|].
  destruct (queue_delivery (λ _, []) None 31000 _ _ (js "m1") demo_queue_reach) as (_ & _ & H & _).
  exact H.
Defined.

Theorem queue_no_loss_witness :
  ∃ r, r ∈ messages (run_queue demo_queue).1 ∧ q_id r = js "m1" ∧ q_body r = 7.
Proof.
  destruct (queue_no_loss (λ _, []) None 31000 _ _ demo_queue_reach) as [H _].
  destruct (H (js "m1") 7 0) as (r & H1 & H2 & H3 & _).
  - vm_compute. left.
  - intros Hin. vm_compute in Hin. repeat (apply elem_of_cons in Hin as [Hin|Hin]; [discriminate Hin|]).
    by apply elem_of_nil in Hin.
  - vm_compute. reflexivity.
  - exists r. split; [exact H1|split; [exact H2|exact H3]].
Defined.
