(* ===== verification/QueueConsumer.v ===== *)
(** * The queue workers ([apps/worker/queue-consumer.ts])

    [QueueConsumerWorker] polls at a fixed interval, [ResilientQueueConsumerWorker]
    with decorrelated jitter.  Both dispatch one message per round to a Function
    and drive the redelivery state machine; the provider is a record of
    operations over a shared world. *)

From S2P Require Import Prelude JsString JsNumber Errors Utf8 Retry SqliteQueue.
From stdpp Require Import sorting.
From Stdlib Require Import QArith Lqa.

Open Scope Z_scope.
Open Scope railfog_scope.

Definition DEFAULT_VISIBILITY_TIMEOUT_MS : Q := 30000.
Definition DEFAULT_MAX_RECEIVES : Z := 5.
Definition DEFAULT_POLL_INTERVAL_MS : Q := 100.

(** [QueueProvider], as far as the workers use it. *)
Record QueueProvider (S V : Type) := {
  qp_receive : Q → stm S exn (option (QueueMessage V));
  qp_send : V → stm S exn jstr;
  qp_ack : jstr → stm S exn unit
}.
Arguments qp_receive {S V}.
Arguments qp_send {S V}.
Arguments qp_ack {S V}.

(** [QueueConsumerOptions] after the defaults *)
Record ConsumerOptions (S V : Type) := {
  targetFunctionName : jstr;
  co_visibilityTimeoutMs : Q;
  co_maxReceives : Z;
  dlqProvider : option (QueueProvider S V)
}.
Arguments targetFunctionName {S V}.
Arguments co_visibilityTimeoutMs {S V}.
Arguments co_maxReceives {S V}.
Arguments dlqProvider {S V}.

Definition newConsumerOptions {S V} (fn : jstr) (visibility : option Q) (max : option Z)
    (dlq : option (QueueProvider S V)) : ConsumerOptions S V :=
  {| targetFunctionName := fn;
     co_visibilityTimeoutMs := match visibility with Some v => v | None => DEFAULT_VISIBILITY_TIMEOUT_MS end;
     co_maxReceives := match max with Some m => m | None => DEFAULT_MAX_RECEIVES end;
     dlqProvider := dlq |}.

Section worker.
Context {S V : Type} (queueProvider : QueueProvider S V)
  (invokeFunction : jstr → QueueMessage V → stm S exn unit) (options : ConsumerOptions S V).

(** [try { await m } catch {}] *)
Definition try_ignore {A} (m : stm S exn A) : S → S := λ s, (m s).1.

(** What both workers do with a received message: invoke, then acknowledge, or
    on an error with exhausted attempts send to the DLQ and acknowledge.  The
    first boolean is the result, the second whether the final [ack] succeeded. *)
Definition dispatch (message : QueueMessage V) (s : S) : S * bool :=
  match invokeFunction (targetFunctionName options) message s with
  | (s, Err _) =>
      if co_maxReceives options <=? msg_attempts message then
        let s := match dlqProvider options with
                 | Some dlq => try_ignore (qp_send dlq (msg_body message)) s
                 | None => s
                 end in
        (try_ignore (qp_ack queueProvider (msg_id message)) s, false)
      else (s, false)
  | (s, Ok _) =>
      match qp_ack queueProvider (msg_id message) s with
      | (s, Ok _) => (s, true)
      | (s, Err _) => (s, false)
      end
  end.

(** [QueueConsumerWorker.processNext()] *)
Definition processNext (s : S) : S * bool :=
  match qp_receive queueProvider (co_visibilityTimeoutMs options) s with
  | (s, Err _) => (s, false)
  | (s, Ok None) => (s, false)
  | (s, Ok (Some message)) => dispatch message s
  end.

(** ** [ResilientQueueConsumerWorker] *)

Record ResilientWorker := { consecutiveEmptyPolls : Z; w_lastSleepMs : Q }.

Definition newResilientWorker : ResilientWorker :=
  {| consecutiveEmptyPolls := 0; w_lastSleepMs := 0 |}.

Definition empty_poll (w : ResilientWorker) : ResilientWorker :=
  {| consecutiveEmptyPolls := consecutiveEmptyPolls w + 1; w_lastSleepMs := w_lastSleepMs w |}.

(** [ResilientQueueConsumerWorker.processNext()] *)
Definition resilientProcessNext (w : ResilientWorker) (s : S) : ResilientWorker * S * bool :=
  match qp_receive queueProvider (co_visibilityTimeoutMs options) s with
  | (s, Err _) => (empty_poll w, s, false)
  | (s, Ok None) => (empty_poll w, s, false)
  | (s, Ok (Some message)) =>
      let '(s, processed) := dispatch message s in
      (if processed then newResilientWorker else w, s, processed)
  end.

(** One round of [runLoop()]: the delay it sleeps, if any. *)
Definition resilientRound {E} (retryPolicy : RetryPolicyOptions E) (w : ResilientWorker) (s : S)
    : ResilientWorker * S * option Q :=
  let '(w, s, processed) := resilientProcessNext w s in
  if processed then (w, s, None)
  else
    let attempt := Z.max 0 (consecutiveEmptyPolls w - 1) in
    let sleepMs :=
      calculateNextSleep {| attempt := attempt; lastSleepMs := w_lastSleepMs w |} retryPolicy in
    ({| consecutiveEmptyPolls := consecutiveEmptyPolls w; w_lastSleepMs := sleepMs |}, s,
     Some sleepMs).

(** One round of the plain [runLoop()]. *)
Definition plainRound (pollIntervalMs : Q) (s : S) : S * option Q :=
  let '(s, processed) := processNext s in
  (s, if processed then None else Some pollIntervalMs).

(** [n] rounds and the delays between them. *)
Fixpoint resilientLoop {E} (retryPolicy : RetryPolicyOptions E) (rounds : nat)
    (w : ResilientWorker) (s : S) : ResilientWorker * S * list Q :=
  match rounds with
  | O => (w, s, [])
  | Datatypes.S rounds =>
      let '(w, s, slept) := resilientRound retryPolicy w s in
      let '(w, s, delays) := resilientLoop retryPolicy rounds w s in
      (w, s, match slept with Some d => d :: delays | None => delays end)
  end.

(** The state of a worker with a policy: its last delay is one it may sleep. *)
Definition worker_ok {E} (retryPolicy : RetryPolicyOptions E) (w : ResilientWorker) : Prop :=
  0 ≤ consecutiveEmptyPolls w ∧
  (w_lastSleepMs w == 0 \/ baseMs retryPolicy <= w_lastSleepMs w <= capMs retryPolicy)%Q.

Lemma resilientProcessNext_ok {E} (retryPolicy : RetryPolicyOptions E) w s :
  worker_ok retryPolicy w → worker_ok retryPolicy (resilientProcessNext w s).1.1.
Proof.
  intros [Hw Hs]. unfold resilientProcessNext.
  destruct (qp_receive _ _ _) as [s' [[message|]|]].
  - destruct (dispatch message s') as [s'' []]; cbn; split; try done; by left.
  - split; [cbn; lia|done].
  - split; [cbn; lia|done].
Qed.

(** The polling delays of the resilient worker stay within the policy's
    bounds: however the provider and the Function behave, each round either
    processes a message, sleeps nothing and resets the backoff, or sleeps between
    [baseMs] and [capMs]. *)
Theorem resilient_backoff {E} (retryPolicy : RetryPolicyOptions E) rounds w s :
  uniform_ok retryPolicy → (baseMs retryPolicy <= capMs retryPolicy)%Q → worker_ok retryPolicy w →
  let '(w', _, delays) := resilientLoop retryPolicy rounds w s in
  worker_ok retryPolicy w' ∧
  (length delays ≤ rounds)%nat ∧
  Forall (λ d, baseMs retryPolicy <= d /\ d <= capMs retryPolicy)%Q delays.
Proof.
  intros Hu Hb. revert w s. induction rounds as [|rounds IH]; intros w s Hw; [by split_and!|].
  cbn [resilientLoop]. unfold resilientRound.
  pose proof (resilientProcessNext_ok retryPolicy w s Hw) as Hw1.
  destruct (resilientProcessNext w s) as [[w1 s1] processed]. cbn [fst] in Hw1. destruct processed.
  - specialize (IH w1 s1 Hw1). destruct (resilientLoop retryPolicy rounds w1 s1) as [[w2 s2] delays].
    destruct IH as (H1 & H2 & H3). split_and!; [done|lia|done].
  - set (sleepMs := calculateNextSleep _ _).
    assert (baseMs retryPolicy <= sleepMs /\ sleepMs <= capMs retryPolicy)%Q as Hsl by by apply next_sleep_bounds.
    set (w' := {| consecutiveEmptyPolls := _ |}).
    assert (worker_ok retryPolicy w') as Hw'.
    { destruct Hw1 as [? _]. split; [done|]. right. exact Hsl. }
    specialize (IH w' s1 Hw'). destruct (resilientLoop retryPolicy rounds w' s1) as [[w2 s2] delays].
    destruct IH as (H1 & H2 & H3). split_and!; [done|cbn; lia|by constructor].
Qed.
End worker.

(** ** A worker between two SQLite queues

    The world holds the source queue, the dead letter queue given as
    [dlqProvider], the clock, the supply of generated ids and the record of the
    Function's invocations. *)

Section sqlite_world.
Context {V : Type} (JSON_stringify : V → jstr).

Record queue_world := {
  source : queue_db V;
  dlq : queue_db V;
  w_clock : Z;
  id_supply : nat → jstr;
  ids_used : nat;
  invocations : list (Z * V)
}.

Definition source_provider : QueueProvider queue_world V := {|
  qp_receive timeout w :=
    match receive (λ _, w_clock w) (Some timeout) (source w) with
    | Some (d, m) =>
        ({| source := d; dlq := dlq w; w_clock := w_clock w; id_supply := id_supply w;
            ids_used := ids_used w; invocations := invocations w |}, Ok m)
    | None => (w, Err PlainError)
    end;
  qp_send _ w := (w, Err PlainError);
  qp_ack id w :=
    ({| source := ack id (source w); dlq := dlq w; w_clock := w_clock w;
        id_supply := id_supply w; ids_used := ids_used w; invocations := invocations w |}, Ok tt)
|}.

Definition dlq_provider : QueueProvider queue_world V := {|
  qp_receive _ w := (w, Err PlainError);
  qp_send body w :=
    let '(d, r) := send JSON_stringify (id_supply w (ids_used w)) (w_clock w) body None (dlq w) in
    ({| source := source w; dlq := d; w_clock := w_clock w; id_supply := id_supply w;
        ids_used := S (ids_used w); invocations := invocations w |}, r);
  qp_ack _ w := (w, Err PlainError)
|}.

(** A Function that records its invocation and throws. *)
Definition failing_function (_ : jstr) (m : QueueMessage V) : stm queue_world exn unit := λ w,
  ({| source := source w; dlq := dlq w; w_clock := w_clock w; id_supply := id_supply w;
      ids_used := ids_used w; invocations := invocations w ++ [(msg_attempts m, msg_body m)] |},
   Err PlainError).

Definition at_time (now : Z) (w : queue_world) : queue_world :=
  {| source := source w; dlq := dlq w; w_clock := now; id_supply := id_supply w;
     ids_used := ids_used w; invocations := invocations w |}.

(** Rounds of the plain worker at the given times. *)
Definition rounds_at (options : ConsumerOptions queue_world V) (times : list Z) (w : queue_world)
    : queue_world :=
  fold_left (λ w now, (processNext source_provider failing_function options (at_time now w)).1) times w.

Definition poison_row (id : jstr) (body : V) (attempts : Z) (visible : Q) (expires : Q) : queue_row V :=
  {| q_id := id; q_body := body; q_attempts := attempts; visible_after := visible;
     is_dlq := false; q_expires_at := Some expires |}.

(** Rows that no round at the given times touches: other messages, in flight, delayed
    or dead letters, that do not expire meanwhile *)
Definition asleep (id : jstr) (times : list Z) (r : queue_row V) : Prop :=
  q_id r ≠ id ∧ Forall (λ now, receivable now r = false ∧ row_expired now r = false) times.

Lemma asleep_cons id now times rs :
  Forall (asleep id (now :: times)) rs →
  Forall (asleep id times) rs ∧ Forall (λ r, q_id r ≠ id ∧ receivable now r = false ∧ row_expired now r = false) rs.
Proof.
  intros Hrs. split; (eapply Forall_impl; [exact Hrs|]); intros r [Hid Ht]; apply Forall_cons in Ht as [Hn Ht];
    by split.
Qed.

(** Only the row in the middle is receivable. *)
Lemma first_visible_middle now l1 (p : queue_row V) l2 :
  receivable now p = true → Forall (λ r, receivable now r = false) (l1 ++ l2) →
  first_visible (receivable now) (l1 ++ p :: l2) = Some p.
Proof.
  intros Hp Hrs. destruct (first_visible _ _) as [r|] eqn:E.
  - apply first_visible_elem in E as (Hin & Hr & _). rewrite elem_of_app, elem_of_cons in Hin.
    assert (r = p ∨ r ∈ l1 ++ l2) as [->|Hin'] by (rewrite elem_of_app; tauto); [done|].
    eapply Forall_forall in Hrs; [|exact Hin']. cbn in Hrs. congruence.
  - rewrite first_visible_None in E. rewrite E in Hp; [done|]. apply elem_of_app. right. left.
Qed.

Lemma update_row_middle id f l1 (p : queue_row V) l2 :
  q_id p = id → Forall (λ r, q_id r ≠ id) (l1 ++ l2) →
  update_row id f (l1 ++ p :: l2) = l1 ++ f p :: l2.
Proof.
  intros Hp [H1 H2]%Forall_app. unfold update_row. rewrite fmap_app, fmap_cons, decide_True by done.
  assert (∀ l, Forall (λ r : queue_row V, q_id r ≠ id) l → (λ r, if decide (q_id r = id) then f r else r) <$> l = l) as Hl
    by (intros l; induction 1; cbn; [done|]; rewrite decide_False by done; by f_equal).
  by rewrite !Hl.
Qed.

Lemma purge_all now (rows : list (queue_row V)) : Forall (λ r, row_expired now r = false) rows → purgeExpired now rows = rows.
Proof. intros Hr. by apply filter_all. Qed.

(** One round on a queue whose other messages sleep. *)
Lemma poison_round options id body a visible expires now l1 l2 w :
  dlqProvider options = Some dlq_provider →
  messages (source w) = l1 ++ poison_row id body a visible expires :: l2 →
  Forall (λ r, q_id r ≠ id ∧ receivable now r = false ∧ row_expired now r = false) (l1 ++ l2) →
  (visible <= inject_Z now)%Q → (inject_Z now < expires)%Q → a + 1 ≤ maxReceives →
  utf8_length (JSON_stringify body) ≤ MAX_PAYLOAD_SIZE_BYTES →
  let w' := (processNext source_provider failing_function options (at_time now w)).1 in
  invocations w' = invocations w ++ [(a + 1, body)] ∧
  if co_maxReceives options <=? a + 1 then
    messages (source w') = l1 ++ l2 ∧
    q_body <$> messages (dlq w') = (q_body <$> messages (dlq w)) ++ [body]
  else
    messages (source w') =
      l1 ++ poison_row id body (a + 1) (fadd (inject_Z now) (co_visibilityTimeoutMs options)) expires :: l2 ∧
    dlq w' = dlq w.
Proof.
  intros Hdlq Hrows Hrest Hvis Hexp Ha Hsize. cbv zeta. unfold processNext. cbn [qp_receive source_provider].
  unfold receive. cbn [at_time source w_clock]. rewrite Hrows. cbn [receive_loop].
  assert (Forall (λ r : queue_row V, q_id r ≠ id) (l1 ++ l2)) as Hids by (eapply Forall_impl; [exact Hrest|]; by intros r (? & _)).
  rewrite purge_all.
  2:{ apply Forall_app in Hrest as [Hr1 Hr2]. apply Forall_app. split; [|constructor].
      - eapply Forall_impl; [exact Hr1|]. by intros r (_ & _ & ?).
      - unfold row_expired. cbn. by apply Qle_bool_false.
      - eapply Forall_impl; [exact Hr2|]. by intros r (_ & _ & ?). }
  rewrite first_visible_middle.
  2:{ unfold receivable. cbn [poison_row visible_after is_dlq]. by rewrite (proj2 (Qle_bool_iff _ _)). }
  2:{ eapply Forall_impl; [exact Hrest|]. by intros r (_ & ? & _). }
  cbn [poison_row q_attempts q_id q_body]. rewrite (proj2 (Z.ltb_ge maxReceives (a + 1))) by lia.
  rewrite update_row_middle by done.
  unfold dispatch, failing_function, take_row. cbn [q_id q_body q_attempts is_dlq q_expires_at invocations w_clock source dlq
    id_supply ids_used msg_attempts msg_body msg_id].
  destruct (co_maxReceives options <=? a + 1); [|done].
  rewrite Hdlq. unfold try_ignore. cbn [qp_send dlq_provider qp_ack source_provider].
  cbn [source dlq w_clock id_supply ids_used invocations set_messages messages].
  unfold send, st_bind, st_lift, throw_if. rewrite (proj2 (Z.ltb_ge _ _)) by lia.
  cbn [fst source dlq w_clock id_supply ids_used invocations set_messages messages].
  split; [done|]. split; [|by rewrite fmap_app].
  unfold ack. cbn [messages set_messages]. apply Forall_app in Hids as [H1 H2].
  rewrite filter_app, filter_cons, decide_False by (cbn; auto). by rewrite !filter_all.
Qed.

(** The times of the rounds: each after the visibility timeout of the previous
    one, all before the message expires. *)
Fixpoint spaced_times (timeout visible expires : Q) (times : list Z) : Prop :=
  match times with
  | [] => True
  | now :: times =>
      (visible <= inject_Z now)%Q ∧ (inject_Z now < expires)%Q ∧
      spaced_times timeout (fadd (inject_Z now) timeout) expires times
  end.

Lemma poison_rounds options id body expires l1 l2 times : ∀ a visible w,
  dlqProvider options = Some dlq_provider →
  messages (source w) = l1 ++ poison_row id body a visible expires :: l2 →
  Forall (asleep id times) (l1 ++ l2) →
  utf8_length (JSON_stringify body) ≤ MAX_PAYLOAD_SIZE_BYTES →
  0 ≤ a → a + Z.of_nat (length times) = co_maxReceives options → co_maxReceives options ≤ maxReceives →
  times ≠ [] → spaced_times (co_visibilityTimeoutMs options) visible expires times →
  let w' := rounds_at options times w in
  invocations w' = invocations w ++ ((λ n, (n, body)) <$> seqZ (a + 1) (Z.of_nat (length times))) ∧
  messages (source w') = l1 ++ l2 ∧
  q_body <$> messages (dlq w') = (q_body <$> messages (dlq w)) ++ [body].
Proof.
  induction times as [|now times IH]; intros a visible w Hdlq Hrows Hrest Hsize Ha Hlen Hmax Hne Hsp; [done|].
  destruct Hsp as (Hvis & Hexp & Hsp). apply asleep_cons in Hrest as [Hrest Hnow].
  cbn [length] in *. cbn [rounds_at fold_left].
  destruct (poison_round options id body a visible expires now l1 l2 w) as [Hinv Hr]; [done..|lia|done|].
  set (w1 := (processNext source_provider failing_function options (at_time now w)).1) in *.
  rewrite seqZ_cons by lia. destruct times as [|now' times].
  - cbn [length] in *. rewrite (proj2 (Z.leb_le _ _)) in Hr by lia. cbv zeta. cbn [fold_left].
    destruct Hr as [H1 H2]. split_and!; [|done|done]. rewrite Hinv.
    replace (Z.pred (Z.of_nat 1)) with 0 by lia. done.
  - rewrite (proj2 (Z.leb_gt _ _)) in Hr by (cbn [length] in *; lia). destruct Hr as [H1 H2].
    destruct (IH (a + 1) _ w1 Hdlq H1 Hrest Hsize) as (I1 & I2 & I3); [lia|cbn [length] in *; lia|done|done|exact Hsp|].
    split_and!; [|exact I2|].
    + unfold rounds_at in I1. rewrite I1, Hinv, <-app_assoc. cbn [fmap list_fmap app].
      do 3 f_equal. f_equal; cbn [length]; lia.
    + unfold rounds_at in I3. by rewrite I3, H2.
Qed.

(** C22: The redelivery state machine end to end, with SQLite queues on both sides:
    a message whose Function always fails is invoked exactly [maxReceives] times
    (at most the provider's 5), with attempt numbers 1, 2, ..., and is then found
    exactly once more than before, with its body, in the dead letter queue and no
    longer in the source queue, whose other rows are exactly as before - provided
    the rounds come after each visibility timeout and before the message expires,
    and that the other messages of the source queue are in flight, delayed or dead
    letters and do not expire while the rounds go on (so that no round takes one
    of them instead). *)
Theorem poison_message_to_dlq options id body visible expires l1 l2 times w :
  dlqProvider options = Some dlq_provider →
  messages (source w) = l1 ++ poison_row id body 0 visible expires :: l2 →
  Forall (asleep id times) (l1 ++ l2) →
  utf8_length (JSON_stringify body) ≤ MAX_PAYLOAD_SIZE_BYTES →
  Z.of_nat (length times) = co_maxReceives options → 1 ≤ co_maxReceives options ≤ maxReceives →
  spaced_times (co_visibilityTimeoutMs options) visible expires times →
  let w' := rounds_at options times w in
  invocations w' = invocations w ++ ((λ n, (n, body)) <$> seqZ 1 (co_maxReceives options)) ∧
  messages (source w') = l1 ++ l2 ∧
  q_body <$> messages (dlq w') = (q_body <$> messages (dlq w)) ++ [body].
Proof.
  intros Hdlq Hrows Hrest Hsize Hlen Hmax Hsp.
  destruct (poison_rounds options id body expires l1 l2 times 0 visible w Hdlq Hrows Hrest Hsize)
    as (H1 & H2 & H3); [lia|lia|lia| |done|].
  { intros ->. cbn in Hlen. lia. }
  cbv zeta. rewrite H1, H2, H3, Hlen. done.
Qed.
End sqlite_world.

Definition poison_options : ConsumerOptions (queue_world (V := Z)) Z :=
  newConsumerOptions (js "billing") None (Some 3) (Some (dlq_provider (λ _, js "{}"))).
(** Around the message that fails: a dead letter, and a message that is in flight *)
Definition buried_row : queue_row Z :=
  {| q_id := js "m0"; q_body := 5; q_attempts := 6; visible_after := 0; is_dlq := true; q_expires_at := Some 345600000%Q |}.
Definition poison_world : queue_world (V := Z) :=
  {| source := set_messages [buried_row; poison_row (js "m1") 7 0 0 345600000; poison_row (js "m2") 8 1 90000 345600000]
                 (newSQLiteQueueProvider None);
     dlq := newSQLiteQueueProvider None; w_clock := 0; id_supply := λ _, js "d1"; ids_used := 0;
     invocations := [] |}.

Theorem poison_message_to_dlq_witness :
  invocations (rounds_at poison_options [0; 30000; 70000] poison_world) = [(1, 7); (2, 7); (3, 7)] ∧
  messages (source (rounds_at poison_options [0; 30000; 70000] poison_world)) =
    [buried_row; poison_row (js "m2") 8 1 90000 345600000].
Proof.
  destruct (poison_message_to_dlq (λ _, js "{}") poison_options (js "m1") 7 0 345600000
    [buried_row] [poison_row (js "m2") 8 1 90000 345600000] [0; 30000; 70000] poison_world) as (H1 & H2 & _); try reflexivity.
  - repeat constructor; vm_compute; discriminate.
  - vm_compute. discriminate.
  - vm_compute. split; discriminate.
  - vm_compute. repeat split; discriminate.
  - split; [exact H1|exact H2].
Defined.

Definition demo_policy : RetryPolicyOptions unit :=
  {| baseMs := 100; capMs := 20000; maxAttempts := 5; randomUniform := λ _ _ hi, hi;
     shouldRetry := None |}.

(** Polls of an empty queue back off: 100, 300, 900 ms. *)
Theorem resilient_backoff_witness :
  let run := resilientLoop source_provider (failing_function (V := Z)) poison_options demo_policy 3
    newResilientWorker
    {| source := newSQLiteQueueProvider None; dlq := newSQLiteQueueProvider None; w_clock := 0;
       id_supply := λ _, []; ids_used := 0; invocations := [] |} in
  run.2 = [100; 300; 900]%Q ∧ Forall (λ d, 100 <= d /\ d <= 20000)%Q run.2.
Proof.
  set (w0 := {| source := newSQLiteQueueProvider None |}).
  pose proof (resilient_backoff source_provider (failing_function (V := Z)) poison_options demo_policy 3
    newResilientWorker w0) as H.
  cbv zeta. split; [vm_compute; reflexivity|].
  destruct (resilientLoop _ _ _ _ _ _ _) as [[w' s'] delays]. apply H.
  - intros n lo hi Hle. split; [exact Hle|apply Qle_refl].
  - vm_compute. discriminate.
  - split; [vm_compute; discriminate|left; reflexivity].
Defined.
