(* ===== verification/Packager.v ===== *)
(** * Content addressing and packaging
    ([packages/core/crypto/content-address.ts], [packages/core/artifact/packager.ts])

    SHA-256 and the hex and base64 encoders are functions of the platform and of
    the standard library of Deno: the class [Hashing] names them.  [HashingLaws]
    states the documented shape of a SHA-256 digest in lower-case hex. *)

From S2P Require Import Prelude JsString JsNumber JsValue Errors Permissions.
From Stdlib Require Import QArith.

Open Scope Z_scope.

Class Hashing := {
  sha256 : list Z → list Z;
  encodeHex : list Z → jstr;
  encodeBase64 : list Z → jstr
}.

Definition is_hex_lower (c : Z) : bool := is_digit c || ((97 <=? c) && (c <=? 102)).

Class HashingLaws `{Hashing} := {
  hex_digest_length data : length (encodeHex (sha256 data)) = 64%nat;
  hex_digest_chars data : forallb is_hex_lower (encodeHex (sha256 data)) = true
}.

(** ** Typed arrays *)

(** A [Uint8Array] is a view of an [ArrayBuffer]. *)
Record Uint8Array := {
  buffer : list Z;
  byteOffset : nat;
  byteLength : nat
}.

(** The bytes of a view *)
Definition view_bytes (a : Uint8Array) : list Z := take (byteLength a) (drop (byteOffset a) (buffer a)).

(** A view lies within its buffer. *)
Definition view_wf (a : Uint8Array) : Prop := (byteOffset a + byteLength a <= length (buffer a))%nat.

Section hashing.
Context `{Hashing}.

Definition computeArtifactId (data : Uint8Array) : jstr :=
  js "sha256:" ++ encodeHex (sha256 (view_bytes data)).
Definition computeIntegrity (data : Uint8Array) : jstr :=
  js "sha256-" ++ encodeBase64 (sha256 (view_bytes data)).
End hashing.

(** ** The manifest *)

Record ManifestPermissions := {
  mp_kv : option (list jstr);
  mp_objects : option (list jstr);
  mp_queues : option (list jstr);
  mp_secrets : option (list jstr);
  mp_network : option (list jstr)
}.

Record Limits := { cpu_ms : jsnum; timeout_ms : jsnum; memory_mb : jsnum }.

Record Manifest := {
  runtime : jstr;
  runtimeVersion : jstr;
  m_entrypoint : jstr;
  m_integrity : jstr;
  permissions : ManifestPermissions;
  limits : Limits;
  lockfile : option jstr
}.

(** The manifest as the JavaScript object it is *)
Definition scope_entry (scope : jstr) (ids : option (list jstr)) : list (jstr * jsval) :=
  match ids with Some ids => [(scope, JArr (map JStr ids))] | None => [] end.

Definition permissions_value (p : ManifestPermissions) : jsval :=
  JObj (scope_entry (js "kv") (mp_kv p) ++ scope_entry (js "objects") (mp_objects p) ++
        scope_entry (js "queues") (mp_queues p) ++ scope_entry (js "secrets") (mp_secrets p) ++
        scope_entry (js "network") (mp_network p)).

Definition manifest_value (m : Manifest) : jsval :=
  JObj [(js "runtime", JStr (runtime m)); (js "runtimeVersion", JStr (runtimeVersion m));
        (js "entrypoint", JStr (m_entrypoint m)); (js "integrity", JStr (m_integrity m));
        (js "permissions", permissions_value (permissions m));
        (js "limits", JObj [(js "cpu_ms", JNum (cpu_ms (limits m))); (js "timeout_ms", JNum (timeout_ms (limits m)));
                            (js "memory_mb", JNum (memory_mb (limits m)))]);
        (js "dependencies", JObj match lockfile m with Some l => [(js "lockfile", JStr l)] | None => [] end)].

(** The manifest is passed on as a value: the services do not look into it. *)
Record PackagedArtifact := {
  a_id : jstr;
  a_integrity : jstr;
  a_bytes : Uint8Array;
  a_manifest : jsval
}.

(** [options.limits]: [None] for an absent field *)
Record LimitOptions := {
  o_cpu_ms : option jsnum;
  o_timeout_ms : option jsnum;
  o_memory_mb : option jsnum
}.

(** [options]; the permissions have the fields of [DeclaredPermissions]. *)
Record PackageOptions := {
  o_permissions : option DeclaredPermissions;
  o_limits : option LimitOptions;
  o_lockfileBytes : option Uint8Array
}.

Definition no_options : PackageOptions :=
  {| o_permissions := None; o_limits := None; o_lockfileBytes := None |}.

Definition validatePermissionIdentifier (id : jstr) : result exn unit :=
  throw_if (jstr_eqb id [] || jstr_eqb (trim id) []) ValidationFailedError ≫= λ _,
  throw_if (includes id (js "..") || includes id (js "/") || includes id (js "\") ||
            includes id [0]) ValidationFailedError.

(** [limit !== undefined && limit <= 0] *)
Definition limit_not_positive (limit : option jsnum) : bool :=
  match limit with Some n => num_leb n 0 | None => false end.

(** The loop over one kind of identifiers *)
Definition normalize_ids (ids : option (list jstr)) : result exn (option (list jstr)) :=
  match ids with
  | None => Ok None
  | Some ids => for_each validatePermissionIdentifier ids ≫= λ _, Ok (Some ids)
  end.

(** The block [if (options?.permissions)]: normalised kv, objects and queues *)
Definition normalize_permissions (p : DeclaredPermissions)
    : result exn (option (list jstr) * option (list jstr) * option (list jstr)) :=
  throw_if (both_declared (kv p) (state p)) ValidationFailedError ≫= λ _,
  throw_if (both_declared (objects p) (data p)) ValidationFailedError ≫= λ _,
  throw_if (both_declared (queues p) (signal p)) ValidationFailedError ≫= λ _,
  normalize_ids (alias_or (state p) (kv p)) ≫= λ normalizedKv,
  normalize_ids (alias_or (data p) (objects p)) ≫= λ normalizedObjects,
  normalize_ids (alias_or (signal p) (queues p)) ≫= λ normalizedQueues,
  Ok (normalizedKv, normalizedObjects, normalizedQueues).

Definition check_limits (l : option LimitOptions) : result exn unit :=
  match l with
  | None => Ok tt
  | Some l =>
      throw_if (limit_not_positive (o_cpu_ms l)) ValidationFailedError ≫= λ _,
      throw_if (limit_not_positive (o_timeout_ms l)) ValidationFailedError ≫= λ _,
      throw_if (limit_not_positive (o_memory_mb l)) ValidationFailedError
  end.

Definition limit_or (l : option LimitOptions) (field : LimitOptions → option jsnum) (dflt : Z) : jsnum :=
  match l ≫= field with Some n => n | None => Fin (inject_Z dflt) end.

Section packager.
Context `{Hashing}.

Definition lockfile_integrity (bytes : option Uint8Array) : result exn (option jstr) :=
  match bytes with
  | None => Ok None
  | Some b =>
      throw_if (byteLength b =? 0)%nat ValidationFailedError ≫= λ _, Ok (Some (computeIntegrity b))
  end.

(** [codeBytes] is [None] when the argument is [null] or [undefined]. *)
Definition packageFunctionArtifact (entrypoint : jstr) (codeBytes : option Uint8Array)
    (options : PackageOptions) : result exn PackagedArtifact :=
  throw_if (jstr_eqb entrypoint [] || jstr_eqb (trim entrypoint) []) ValidationFailedError ≫= λ _,
  match codeBytes with
  | None => Err ValidationFailedError
  | Some codeBytes =>
      throw_if (byteLength codeBytes =? 0)%nat ValidationFailedError ≫= λ _,
      check_limits (o_limits options) ≫= λ _,
      match o_permissions options with
      | None => Ok (None, None, None)
      | Some p => normalize_permissions p
      end ≫= λ '(normalizedKv, normalizedObjects, normalizedQueues),
      let id := computeArtifactId codeBytes in
      let integrity := computeIntegrity codeBytes in
      lockfile_integrity (o_lockfileBytes options) ≫= λ lockfileIntegrity,
      let manifest :=
        {| runtime := js "railfog-deno";
           runtimeVersion := js "1.0";
           m_entrypoint := trim entrypoint;
           m_integrity := integrity;
           permissions :=
             {| mp_kv := normalizedKv;
                mp_objects := normalizedObjects;
                mp_queues := normalizedQueues;
                mp_secrets := o_permissions options ≫= secrets;
                mp_network := o_permissions options ≫= network |};
           limits :=
             {| cpu_ms := limit_or (o_limits options) o_cpu_ms 200;
                timeout_ms := limit_or (o_limits options) o_timeout_ms 30000;
                memory_mb := limit_or (o_limits options) o_memory_mb 128 |};
           lockfile := lockfileIntegrity |} in
      Ok {| a_id := id; a_integrity := integrity; a_bytes := codeBytes; a_manifest := manifest_value manifest |}
  end.
End packager.

(** ** What the packager guarantees *)

Definition valid_identifier (id : jstr) : Prop :=
  trim id ≠ [] ∧ forbidden_identifier id = false.

Lemma validatePermissionIdentifier_Ok id u :
  validatePermissionIdentifier id = Ok u ↔ valid_identifier id.
Proof.
  unfold validatePermissionIdentifier, valid_identifier, forbidden_identifier.
  rewrite bind_Ok. split.
  - intros (_ & [_ Ht]%throw_if_Ok%orb_false_iff & Hf%throw_if_Ok).
    by apply jstr_eqb_neq in Ht.
  - intros [Ht Hf]. exists tt. split; apply throw_if_Ok; [|done]. apply orb_false_iff.
    split; apply jstr_eqb_neq; [|done]. by intros ->.
Qed.

(** The two validators, of the packager and of the permission resolver, agree. *)
Lemma validateIdentifier_agrees id : validatePermissionIdentifier id = validateIdentifier id.
Proof. reflexivity. Qed.

Lemma normalize_ids_Ok ids ids' :
  normalize_ids ids = Ok ids' ↔ ids' = ids ∧ ∀ l, ids = Some l → Forall valid_identifier l.
Proof.
  destruct ids as [l|]; cbn; [|split; [by intros [= <-]|by intros [-> _]]].
  rewrite bind_Ok. setoid_rewrite for_each_Ok. split.
  - intros (_ & Hl & [= <-]). split; [done|]. intros l' [= <-].
    eapply Forall_impl; [exact Hl|]. intros id. apply validatePermissionIdentifier_Ok.
  - intros [-> Hl]. exists tt. split; [|done]. eapply Forall_impl; [by apply Hl|].
    intros id. apply validatePermissionIdentifier_Ok.
Qed.

Lemma limit_or_positive l field dflt :
  limit_not_positive (l ≫= field) = false → 0 < dflt → num_leb (limit_or l field dflt) 0 = false.
Proof.
  unfold limit_or. destruct (l ≫= field); cbn; [done|]. intros _ Hd.
  apply Qle_bool_false. change 0%Q with (inject_Z 0). by rewrite <-Zlt_Qlt.
Qed.

Lemma check_limits_Ok l u : check_limits l = Ok u →
  limit_not_positive (l ≫= o_cpu_ms) = false ∧ limit_not_positive (l ≫= o_timeout_ms) = false ∧
  limit_not_positive (l ≫= o_memory_mb) = false.
Proof.
  destruct l as [l|]; cbn; [|done]. intros (_ & H1%throw_if_Ok & Hl)%bind_Ok.
  apply bind_Ok in Hl as (_ & H2%throw_if_Ok & H3%throw_if_Ok). done.
Qed.
