(* ===== verification/HealthCheck.v ===== *)
(** * The deployment health gate ([apps/api/health-checker.ts], PLAT-3)

    [executeHealthCheck] reads the clock and calls [fetchFn] in a fixed order;
    [now n] is the value of its [n]-th [Date.now()] and [fetch k] the outcome of
    its [k]-th probe, abort by the probe timeout included.  The result comes
    with the list of the delays slept. *)

From S2P Require Import Prelude JsString.

Open Scope Z_scope.

Record HealthProbeOptions := {
  probeUrl : jstr;
  consecutiveSuccessesRequired : option Z;
  totalTimeoutMs : option Z;
  probeIntervalMs : option Z;
  probeTimeoutMs : option Z
}.

Record HealthCheckResult := {
  passed : bool;
  consecutiveSuccesses : Z;
  probesAttempted : Z;
  elapsedMs : Z;
  lastStatusCode : option Z;
  lastError : option jstr
}.

Definition DEFAULT_CONSECUTIVE_SUCCESSES_REQUIRED : Z := 3.
Definition DEFAULT_TOTAL_TIMEOUT_MS : Z := 30000.
Definition DEFAULT_PROBE_INTERVAL_MS : Z := 1000.

(** What [fetchFn] does: a response, or a rejection with an error's [name],
    [message] and string form. *)
Inductive fetch_outcome :=
| Responds (status : Z)
| Rejects (err_name err_message err_string : jstr).

(** [success], [lastStatusCode] and [lastError] after the [try] of one probe *)
Definition probe_result (o : fetch_outcome) : bool * option Z * option jstr :=
  match o with
  | Responds status => (status =? 200, Some status, None)
  | Rejects name message text =>
      let lastError := match message with [] => text | _ => message end in
      (false, None, Some (if jstr_eqb name (js "AbortError") then js "Timeout" else lastError))
  end.

Section health_check.
Context (now : nat → Z) (fetch : nat → fetch_outcome).

(** The wait before the next attempt *)
Definition sleep_time (interval deadline loopStart reading1 reading2 : Z) : Z :=
  let elapsedInLoop := reading1 - loopStart in
  let remainingInterval := interval - elapsedInLoop in
  let timeLeftBeforeTotalTimeout := deadline - reading2 in
  Z.max 0 (Z.min remainingInterval timeLeftBeforeTotalTimeout).

(** The [while] loop, entered with [n] clock readings taken and [k] probes sent *)
Fixpoint probe_loop (fuel : nat) (required interval startTime deadline : Z) (n k : nat)
    (consecutive : Z) (status : option Z) (error : option jstr) (sleeps : list Z)
    : option (HealthCheckResult * list Z) :=
  match fuel with
  | O => None
  | S fuel =>
      if now n <? deadline then
        let loopStartTime := now (n + 1)%nat in
        let '(success, status, error) := probe_result (fetch k) in
        let consecutive := if success then consecutive + 1 else 0 in
        if success && (required <=? consecutive) then
          Some ({| passed := true;
                   consecutiveSuccesses := consecutive;
                   probesAttempted := Z.of_nat (S k);
                   elapsedMs := now (n + 2)%nat - startTime;
                   lastStatusCode := status;
                   lastError := error |}, sleeps)
        else
          let sleepTime := sleep_time interval deadline loopStartTime (now (n + 2)%nat) (now (n + 3)%nat) in
          let sleeps := if 0 <? sleepTime then sleeps ++ [sleepTime] else sleeps in
          probe_loop fuel required interval startTime deadline (n + 4) (S k) consecutive status error sleeps
      else
        Some ({| passed := false;
                 consecutiveSuccesses := consecutive;
                 probesAttempted := Z.of_nat k;
                 elapsedMs := now (n + 1)%nat - startTime;
                 lastStatusCode := status;
                 lastError := error |}, sleeps)
  end.

Definition required_of (options : HealthProbeOptions) : Z :=
  default DEFAULT_CONSECUTIVE_SUCCESSES_REQUIRED (consecutiveSuccessesRequired options).
Definition deadline_of (options : HealthProbeOptions) : Z :=
  now 0%nat + default DEFAULT_TOTAL_TIMEOUT_MS (totalTimeoutMs options).

Definition executeHealthCheck (fuel : nat) (options : HealthProbeOptions)
    : option (HealthCheckResult * list Z) :=
  let startTime := now 0%nat in
  let totalDeadline := deadline_of options in
  probe_loop fuel (required_of options) (default DEFAULT_PROBE_INTERVAL_MS (probeIntervalMs options))
    startTime totalDeadline 1 0 0 None None [].

(** ** The gate's meaning *)

(** The clock reading that admits the [k]-th probe *)
Definition admits (k : nat) : Z := now (1 + 4 * k)%nat.

Definition is_200 (k : nat) : bool := (probe_result (fetch k)).1.1.

(** The number of consecutive 200 responses just before probe [k] *)
Fixpoint streak (k : nat) : nat :=
  match k with O => 0%nat | S k => if is_200 k then S (streak k) else 0%nat end.

(** The probes up to and including [k] end with enough 200 responses: at least
    [required] of them, and at least one. *)
Definition gate (required : Z) (k : nat) : Prop :=
  ∃ w, required ≤ Z.of_nat w ∧ (1 ≤ w ≤ S k)%nat ∧
       ∀ j, (S k - w ≤ j ≤ k)%nat → fetch j = Responds 200.

Lemma is_200_spec k : is_200 k = true ↔ fetch k = Responds 200.
Proof.
  unfold is_200. destruct (fetch k); cbn; [rewrite Z.eqb_eq; naive_solver|done].
Qed.

Lemma streak_le k : (streak k ≤ k)%nat.
Proof. induction k; simpl; [lia|]. destruct (is_200 k); lia. Qed.

Lemma streak_window k j : (k - streak k ≤ j < k)%nat → is_200 j = true.
Proof.
  induction k as [|k IH]; simpl; [lia|]. destruct (is_200 k) eqn:E; [|lia].
  intros ?. destruct (decide (j = k)) as [->|]; [done|]. apply IH. pose proof (streak_le k). lia.
Qed.

Lemma streak_max k w : (w ≤ k)%nat → (∀ j, (k - w ≤ j < k)%nat → is_200 j = true) → (w ≤ streak k)%nat.
Proof.
  revert w. induction k as [|k IH]; intros w Hw Hall; simpl; [lia|].
  destruct w as [|w]; [lia|]. rewrite Hall by lia. apply le_n_S, IH; [lia|].
  intros j Hj. apply Hall. lia.
Qed.

Lemma gate_streak required k :
  gate required k ↔ is_200 k = true ∧ required ≤ Z.of_nat (streak (S k)).
Proof.
  unfold gate. setoid_rewrite <-is_200_spec. split.
  - intros (w & Hr & Hw & Hall). split; [apply Hall; lia|].
    enough (w ≤ streak (S k))%nat by lia. apply streak_max; [lia|]. intros j ?. apply Hall. lia.
  - intros [Hk Hr]. exists (streak (S k)). pose proof (streak_le (S k)).
    split_and!; [done|simpl; rewrite Hk; lia|done|]. intros j ?. apply (streak_window (S k)). lia.
Qed.

(** What a run of the loop from probe [k] establishes *)
Definition loop_post (required startTime deadline : Z) (k : nat) (r : HealthCheckResult) : Prop :=
  ∃ m, probesAttempted r = Z.of_nat m ∧ (k ≤ m)%nat ∧
    (∀ j, (k ≤ j < m)%nat → admits j < deadline) ∧
    (∀ j, (k ≤ j)%nat → (S j < m)%nat → ¬ gate required j) ∧
    if passed r then ∃ j, m = S j ∧ (k ≤ j)%nat ∧ gate required j ∧
      elapsedMs r = now (1 + 4 * j + 2)%nat - startTime
    else deadline ≤ admits m ∧ (∀ j, (k ≤ j < m)%nat → ¬ gate required j) ∧
      elapsedMs r = now (1 + 4 * m + 1)%nat - startTime.

Lemma probe_loop_spec fuel required interval startTime deadline k :
  ∀ status error sleeps r sleeps',
  probe_loop fuel required interval startTime deadline (1 + 4 * k) k (Z.of_nat (streak k))
    status error sleeps = Some (r, sleeps') →
  loop_post required startTime deadline k r.
Proof.
  revert k. induction fuel as [|fuel IH]; intros k status error sleeps r sleeps' Hr; [done|].
  cbn [probe_loop] in Hr. fold (admits k) in Hr. destruct (Z.ltb_spec (admits k) deadline) as [Ha|Ha].
  - pose proof (gate_streak required k) as Hg. unfold is_200 in Hg.
    destruct (probe_result (fetch k)) as [[success st] er] eqn:E. cbn [fst snd] in *.
    assert (Z.of_nat (streak (S k)) = if success then Z.of_nat (streak k) + 1 else 0) as Hs.
    { cbn [streak]. unfold is_200. rewrite E. cbn. destruct success; lia. }
    rewrite <-Hs in Hr. destruct (success && (required <=? _)) eqn:Ec.
    + apply andb_true_iff in Ec as [-> Hreq%Z.leb_le]. injection Hr as <- <-. exists (S k). cbn [probesAttempted passed elapsedMs].
      split_and!; [done|lia| |lia|].
      * intros j ?. by replace j with k by lia.
      * exists k. split_and!; [done..|by apply Hg|done].
    + assert (¬ gate required k) as Hng.
      { rewrite Hg. intros [-> Hle%Z.leb_le]. by rewrite Hle in Ec. }
      replace (1 + 4 * k + 4)%nat with (1 + 4 * S k)%nat in Hr by lia.
      apply IH in Hr as (m & Hm & Hle & Hadm & Hno & Hres). exists m.
      assert (∀ (P : nat → Prop), P k → ∀ j, (k ≤ j)%nat → ((S k ≤ j)%nat → P j) → P j) as Hsplit.
      { intros P Hk j Hj HP. destruct (decide (j = k)) as [->|]; [done|]. apply HP. lia. }
      split_and!; [done|lia| | |].
      * intros j [Hj ?]. apply (Hsplit (λ j, admits j < deadline)); [done..|]. intros. apply Hadm. lia.
      * intros j Hj ?. apply (Hsplit (λ j, ¬ gate required j)); [done..|]. intros. by apply Hno.
      * destruct (passed r).
        -- destruct Hres as (j & ? & ? & ? & ?). exists j. split_and!; [done|lia|done..].
        -- destruct Hres as (? & Hng' & ?). split_and!; [done| |done]. intros j [Hj ?].
           apply (Hsplit (λ j, ¬ gate required j)); [done..|]. intros. apply Hng'. lia.
  - injection Hr as <- <-. exists k. cbn [probesAttempted passed elapsedMs]. split_and!; [done|lia..|done|lia|done].
Qed.

Lemma probe_loop_total fuel required interval startTime deadline k N :
  (∀ n, (N ≤ n)%nat → deadline ≤ now n) → (N ≤ k + fuel)%nat → (0 < fuel)%nat →
  ∀ consecutive status error sleeps, is_Some
    (probe_loop fuel required interval startTime deadline (1 + 4 * k) k consecutive status error sleeps).
Proof.
  intros HN. revert k. induction fuel as [|fuel IH]; intros k Hf Hpos consecutive status error sleeps; [lia|].
  cbn [probe_loop]. destruct (Z.ltb_spec (now (1 + 4 * k)%nat) deadline) as [Ha|]; [|eauto].
  destruct (probe_result _) as [[success st] er]. destruct (success && _); [eauto|].
  replace (1 + 4 * k + 4)%nat with (1 + 4 * S k)%nat by lia.
  assert (1 + 4 * k < N)%nat as Hk by (destruct (decide (N ≤ 1 + 4 * k)%nat) as [Hle|]; [apply HN in Hle|]; lia).
  apply IH; lia.
Qed.

(** The health gate of PLAT-3: with a clock that eventually passes the
    deadline the check returns, and it passes exactly when some probe that was
    admitted before the deadline completes a run of [required] consecutive 200
    responses (3 by default); it stops at the first such probe, and it fails only
    once the deadline has passed with no such run. *)
Theorem health_gate options N :
  (∀ n, (N ≤ n)%nat → deadline_of options ≤ now n) →
  ∃ r sleeps, executeHealthCheck (S N) options = Some (r, sleeps) ∧
    ∃ m, probesAttempted r = Z.of_nat m ∧
      (∀ j, (j < m)%nat → admits j < deadline_of options) ∧
      (∀ j, (S j < m)%nat → ¬ gate (required_of options) j) ∧
      if passed r then ∃ j, m = S j ∧ gate (required_of options) j
      else deadline_of options ≤ admits m ∧ (∀ j, (j < m)%nat → ¬ gate (required_of options) j).
Proof.
  intros HN. destruct (probe_loop_total (S N) (required_of options)
    (default DEFAULT_PROBE_INTERVAL_MS (probeIntervalMs options)) (now 0%nat) (deadline_of options) 0 N HN
    ltac:(lia) ltac:(lia) 0 None None []) as [[r sleeps] E].
  exists r, sleeps. split; [exact E|].
  apply (probe_loop_spec _ _ _ _ _ 0) in E as (m & Hm & _ & Hadm & Hno & Hres). exists m.
  split_and!; [done|intros; apply Hadm; lia|intros; by apply Hno; [lia|]|].
  destruct (passed r).
  - destruct Hres as (j & ? & _ & ? & _). by exists j.
  - destruct Hres as (? & Hg & _). split; [done|]. intros. apply Hg. lia.
Qed.
End health_check.

(** A clock that advances by a second per reading, and a target that answers
    503 once and 200 from then on. *)
Definition second_clock (n : nat) : Z := 1000 * Z.of_nat n.
Definition warm_up (k : nat) : fetch_outcome := match k with O => Responds 503 | _ => Responds 200 end.
Definition default_options : HealthProbeOptions :=
  {| probeUrl := js "http://localhost/_health"; consecutiveSuccessesRequired := None;
     totalTimeoutMs := None; probeIntervalMs := None; probeTimeoutMs := None |}.

Theorem health_gate_witness :
  ∃ r sleeps, executeHealthCheck second_clock warm_up 31 default_options = Some (r, sleeps) ∧
    passed r = true ∧ probesAttempted r = 4.
Proof.
  destruct (health_gate second_clock warm_up default_options 30) as (r & sleeps & E & _).
  - intros n Hn. unfold deadline_of, second_clock, default_options, DEFAULT_TOTAL_TIMEOUT_MS. cbn. lia.
  - exists r, sleeps. split; [exact E|]. vm_compute in E. injection E as <- <-. done.
Defined.

(** The deadline bounds the start of the last probe, not its response: a target
    that answers within the probe timeout (4.9 seconds each), with 200 from the
    fifth probe on, passes after 34.3 seconds. *)
Definition slow_clock (n : nat) : Z := 4900 * Z.of_nat ((n + 1) / 4).
Definition slow_warm_up (k : nat) : fetch_outcome := if (k <? 4)%nat then Responds 503 else Responds 200.
Lemma health_check_passes_late :
  ∃ r sleeps, executeHealthCheck slow_clock slow_warm_up 8 default_options = Some (r, sleeps) ∧
    passed r = true ∧ elapsedMs r = 34300 ∧ DEFAULT_TOTAL_TIMEOUT_MS < elapsedMs r.
Proof. eexists _, _. split; [vm_compute; reflexivity|]. split_and!; vm_compute; reflexivity. Qed.
