(* ===== verification/Deployment.v ===== *)
(** * The deployment pipeline ([apps/api/deployment-service.ts], PLAT-3, FN-3)

    [DeploymentService] is the state of the service; an [async] method is split
    where it awaits: [deploy] is [deploy_begin] (validation, identifier),
    storage, the health gate and [deploy_finish] (record, cutover), and other
    calls run in between.  [world] adds the deployments in flight and the
    snapshot file; [exec] runs one event on it. *)

From S2P Require Import Prelude JsString JsMap JsValue Errors Ulid Permissions Packager HealthCheck.

Open Scope Z_scope.
Open Scope railfog_scope.

Inductive RevisionState := Created | Building | Ready | Deployed | Failed | Suspended.

#[export] Instance RevisionState_eq_dec : EqDecision RevisionState.
Proof. solve_decision. Defined.

Record RevisionRecord := {
  r_id : jstr;
  r_project : jstr;
  r_functionName : jstr;
  r_artifactId : jstr;
  r_integrity : jstr;
  r_state : RevisionState;
  r_createdAt : Z;
  r_manifest : jsval
}.

Record DeploymentResult := {
  dr_revisionId : jstr;
  dr_state : RevisionState;
  dr_active : bool
}.

(** The fields of a declared route and of a project's metadata that are read; a
    value that was not checked can be of any type. *)
Record route := { pattern : jsval; function : jsval }.
Record ProjectMetadata := { environment : option jstr; domains : option (list jsval) }.

(** The four [Map]s of the service *)
Record tables := {
  revisions : jsmap jstr (jsmap jstr (jsmap jstr RevisionRecord));
  activePointers : jsmap jstr (jsmap jstr jstr);
  projectRoutes : jsmap jstr (list route);
  projectMetadata : jsmap jstr ProjectMetadata
}.

(** [chain] counts the callbacks of [persistChain] that have not started. *)
Record DeploymentService := {
  tbl : tables;
  lastTimestamp : Z;
  hasPersistencePath : bool;
  persistQueued : bool;
  chain : nat
}.

Definition empty_tables : tables :=
  {| revisions := []; activePointers := []; projectRoutes := []; projectMetadata := [] |}.

(** ** Tables *)

(** [map.get(k) ?? new Map()], the inner map a setter writes to *)
Definition get_or_new {V} (m : jsmap jstr (jsmap jstr V)) (k : jstr) : jsmap jstr V :=
  default [] (map_get m k).

Definition getActivePointer (t : tables) (project functionName : jstr) : option jstr :=
  map_get (activePointers t) project ≫= λ fnMap, map_get fnMap functionName.

Definition setActivePointer (project functionName revisionId : jstr) (t : tables) : tables :=
  {| revisions := revisions t;
     activePointers :=
       map_set (activePointers t) project
         (map_set (get_or_new (activePointers t) project) functionName revisionId);
     projectRoutes := projectRoutes t;
     projectMetadata := projectMetadata t |}.

Definition saveRevisionRecord (project functionName : jstr) (revision : RevisionRecord) (t : tables) : tables :=
  let fnMap := get_or_new (revisions t) project in
  let revMap := get_or_new fnMap functionName in
  {| revisions :=
       map_set (revisions t) project
         (map_set fnMap functionName (map_set revMap (r_id revision) revision));
     activePointers := activePointers t;
     projectRoutes := projectRoutes t;
     projectMetadata := projectMetadata t |}.

Definition getRevision (t : tables) (project functionName revisionId : jstr) : option RevisionRecord :=
  map_get (revisions t) project ≫= λ fnMap, map_get fnMap functionName ≫= λ revMap,
  map_get revMap revisionId.

(** [!activeRevisionId] holds for the empty string too. *)
Definition getActiveRevision (t : tables) (project functionName : jstr) : option RevisionRecord :=
  match getActivePointer t project functionName with
  | None | Some [] => None
  | Some ((_ :: _) as activeRevisionId) => getRevision t project functionName activeRevisionId
  end.

Definition listFunctions (t : tables) (project : jstr) : list jstr :=
  match map_get (revisions t) project with None => [] | Some fnMap => map_keys fnMap end.

Definition listRevisions (t : tables) (project functionName : jstr) : list RevisionRecord :=
  match map_get (revisions t) project ≫= λ fnMap, map_get fnMap functionName with
  | None => []
  | Some revMap => map_values revMap
  end.

Definition getProjectRoutes (t : tables) (project : jstr) : option (list route) :=
  map_get (projectRoutes t) project.
Definition getProjectMetadata (t : tables) (project : jstr) : option ProjectMetadata :=
  map_get (projectMetadata t) project.

Definition listProjects (t : tables) : list jstr :=
  sort_strings (set_of_list (map_keys (revisions t) ++ map_keys (activePointers t) ++
                             map_keys (projectRoutes t))).

(** ** Methods of the service *)

Definition on_tables (f : tables → tables) (s : DeploymentService) : DeploymentService :=
  {| tbl := f (tbl s); lastTimestamp := lastTimestamp s; hasPersistencePath := hasPersistencePath s;
     persistQueued := persistQueued s; chain := chain s |}.

Definition schedulePersist (s : DeploymentService) : DeploymentService :=
  if hasPersistencePath s then
    {| tbl := tbl s; lastTimestamp := lastTimestamp s; hasPersistencePath := true;
       persistQueued := true; chain := S (chain s) |}
  else s.

Definition nextMonotonicTimestamp (now : Z) : stm DeploymentService exn Z := λ s,
  let ts := if now <=? lastTimestamp s then lastTimestamp s + 1 else now in
  ({| tbl := tbl s; lastTimestamp := ts; hasPersistencePath := hasPersistencePath s;
      persistQueued := persistQueued s; chain := chain s |}, Ok ts).

(** [ARTIFACT_ID_REGEX.test(id)] *)
Definition artifact_id_valid (id : jstr) : bool :=
  starts_with id (js "sha256:") && (length id =? 71)%nat && forallb is_hex_lower (slice_from 7 id).

Definition REQUIRED_HEALTHY_PROBES : nat := 3.
Definition REVISION_ID_PREFIX : jstr := js "rev_".
Definition ARTIFACT_STORAGE_PREFIX : jstr := js "artifacts/".

(** [deploy] up to the storage call: [now] and [bytes] are the clock and the
    randomness the identifier uses. *)
Definition deploy_begin `{Hashing} (project functionName : jstr) (artifact : PackagedArtifact)
    (now : Z) (bytes : list Z) : stm DeploymentService exn RevisionRecord :=
  st_lift (throw_if (negb (artifact_id_valid (a_id artifact))) ValidationFailedError) ;;~
  let computedId := computeArtifactId (a_bytes artifact) in
  let computedIntegrity := computeIntegrity (a_bytes artifact) in
  st_lift (throw_if (negb (jstr_eqb (a_id artifact) computedId) ||
                     negb (jstr_eqb (a_integrity artifact) computedIntegrity)) ValidationFailedError) ;;~
  createdAt <~ nextMonotonicTimestamp now ;;
  let ulid := generateUlid createdAt bytes in
  st_ret {| r_id := REVISION_ID_PREFIX ++ ulid;
            r_project := project;
            r_functionName := functionName;
            r_artifactId := a_id artifact;
            r_integrity := a_integrity artifact;
            r_state := Building;
            r_createdAt := createdAt;
            r_manifest := a_manifest artifact |}.

Definition with_state (st : RevisionState) (r : RevisionRecord) : RevisionRecord :=
  {| r_id := r_id r; r_project := r_project r; r_functionName := r_functionName r;
     r_artifactId := r_artifactId r; r_integrity := r_integrity r; r_state := st;
     r_createdAt := r_createdAt r; r_manifest := r_manifest r |}.

(** [artifactBuffer]: the buffer of the view, or a copy of the viewed part *)
Definition artifactBuffer (a : Uint8Array) : list Z :=
  if (byteOffset a =? 0)%nat && (byteLength a =? length (buffer a))%nat then buffer a
  else take (byteOffset a + byteLength a - byteOffset a) (drop (byteOffset a) (buffer a)).

(** The [healthCheck] argument: absent, a callback with the outcomes of its
    calls, or probe options with the clock readings and the responses. *)
Inductive health_check :=
| NoHealthCheck
| Callback (probe : nat → result exn jsval)
| ProbeUrl (options : HealthProbeOptions) (now : nat → Z) (fetch : nat → fetch_outcome).

(** The loop over the probes of a callback: only [true] passes. *)
Fixpoint callback_probes (probe : nat → result exn jsval) (i remaining : nat) : bool :=
  match remaining with
  | O => true
  | S remaining =>
      match probe i with
      | Ok (JBool true) => callback_probes probe (S i) remaining
      | _ => false
      end
  end.

(** The value of [healthy] after the gate; [fuel] bounds the URL probes. *)
Definition run_health_check (fuel : nat) (h : health_check) : option bool :=
  match h with
  | NoHealthCheck => Some (callback_probes (λ _, Ok (JBool true)) 0 REQUIRED_HEALTHY_PROBES)
  | Callback probe => Some (callback_probes probe 0 REQUIRED_HEALTHY_PROBES)
  | ProbeUrl options now fetch => (λ r, passed r.1) <$> executeHealthCheck now fetch fuel options
  end.

(** [!currentActiveId || currentActiveId <= revisionId] *)
Definition not_superseded (currentActiveId : option jstr) (revisionId : jstr) : bool :=
  match currentActiveId with
  | None | Some [] => true
  | Some ((_ :: _) as current) => str_leb current revisionId
  end.

(** The rest of [deploy], after the gate *)
Definition deploy_finish (revision : RevisionRecord) (healthy : bool) (s : DeploymentService)
    : DeploymentService * DeploymentResult :=
  let project := r_project revision in
  let functionName := r_functionName revision in
  if healthy then
    let s := on_tables (saveRevisionRecord project functionName (with_state Deployed revision)) s in
    let active := not_superseded (getActivePointer (tbl s) project functionName) (r_id revision) in
    let s := if active then on_tables (setActivePointer project functionName (r_id revision)) s else s in
    (schedulePersist s,
     {| dr_revisionId := r_id revision; dr_state := Deployed; dr_active := active |})
  else
    let s := on_tables (saveRevisionRecord project functionName (with_state Failed revision)) s in
    (schedulePersist s,
     {| dr_revisionId := r_id revision; dr_state := Failed; dr_active := false |}).

(** The whole method when nothing else runs in between, over a storage with
    operation [put]; [None] when the URL probes need more fuel. *)
Definition deploy `{Hashing} {O : Type} (put : jstr → list Z → stm O exn unit) (fuel : nat)
    (project functionName : jstr) (artifact : PackagedArtifact) (h : health_check)
    (now : Z) (bytes : list Z) (s : DeploymentService) (o : O)
    : option (DeploymentService * O * result exn DeploymentResult) :=
  match deploy_begin project functionName artifact now bytes s with
  | (s, Err e) => Some (s, o, Err e)
  | (s, Ok revision) =>
      match put (ARTIFACT_STORAGE_PREFIX ++ a_id artifact) (artifactBuffer (a_bytes artifact)) o with
      | (o, Err e) => Some (s, o, Err e)
      | (o, Ok _) =>
          (λ healthy, let '(s, r) := deploy_finish (with_state Ready revision) healthy s in (s, o, Ok r))
            <$> run_health_check fuel h
      end
  end.

Definition rollback (project functionName targetRevisionId : jstr)
    : stm DeploymentService exn (jstr * jstr) := λ s,
  match getRevision (tbl s) project functionName targetRevisionId with
  | None => (s, Err ResourceNotFoundError)
  | Some revision =>
      if decide (r_state revision ≠ Deployed) then (s, Err ValidationFailedError)
      else
        let previousRevisionId := default [] (getActivePointer (tbl s) project functionName) in
        let s := on_tables (setActivePointer project functionName targetRevisionId) s in
        (schedulePersist s, Ok (previousRevisionId, targetRevisionId))
  end.

(** [{ ...revision, project, functionName }] *)
Definition relocate (project functionName : jstr) (r : RevisionRecord) : RevisionRecord :=
  {| r_id := r_id r; r_project := project; r_functionName := functionName;
     r_artifactId := r_artifactId r; r_integrity := r_integrity r; r_state := r_state r;
     r_createdAt := r_createdAt r; r_manifest := r_manifest r |}.

Definition restoreRevision (project functionName : jstr) (revision : RevisionRecord) (isActive : bool)
    : stm DeploymentService exn unit := λ s,
  let activate s :=
    if isActive
    then schedulePersist (on_tables (setActivePointer project functionName (r_id revision)) s)
    else s in
  match getRevision (tbl s) project functionName (r_id revision) with
  | Some existing =>
      if jstr_eqb (r_artifactId existing) (r_artifactId revision) then (activate s, Ok tt)
      else (s, Err ConflictError)
  | None =>
      (activate (on_tables (saveRevisionRecord project functionName
                              (relocate project functionName revision)) s), Ok tt)
  end.

Definition setProjectRoutes (project : jstr) (routes : list route) (s : DeploymentService)
    : DeploymentService :=
  schedulePersist (on_tables (λ t,
    {| revisions := revisions t; activePointers := activePointers t;
       projectRoutes := map_set (projectRoutes t) project routes;
       projectMetadata := projectMetadata t |}) s).

Definition setProjectMetadata (project : jstr) (meta : ProjectMetadata) (s : DeploymentService)
    : DeploymentService :=
  schedulePersist (on_tables (λ t,
    {| revisions := revisions t; activePointers := activePointers t;
       projectRoutes := projectRoutes t;
       projectMetadata := map_set (projectMetadata t) project meta |}) s).

Definition deleteProject (project : jstr) (s : DeploymentService) : DeploymentService * bool :=
  let t := tbl s in
  let had := map_has (revisions t) project || map_has (activePointers t) project ||
             map_has (projectRoutes t) project || map_has (projectMetadata t) project in
  let s := on_tables (λ t,
    {| revisions := map_delete (revisions t) project;
       activePointers := map_delete (activePointers t) project;
       projectRoutes := map_delete (projectRoutes t) project;
       projectMetadata := map_delete (projectMetadata t) project |}) s in
  (if had then schedulePersist s else s, had).

(** ** Persistence *)

(** The snapshot object: [Map]s as arrays of entries, records as arrays of values *)
Record snapshot := {
  s_revisions : list (jstr * list (jstr * list RevisionRecord));
  s_activePointers : list (jstr * list (jstr * jstr));
  s_projectRoutes : list (jstr * list route);
  s_projectMetadata : list (jstr * ProjectMetadata)
}.

Definition take_snapshot (t : tables) : snapshot :=
  {| s_revisions := on_values (on_values map_values) (revisions t);
     s_activePointers := activePointers t;
     s_projectRoutes := projectRoutes t;
     s_projectMetadata := projectMetadata t |}.

(** A field of the parsed file: absent or [null], an array of entries, or a
    value that cannot be iterated. *)
Inductive section (A : Type) := Absent | Entries (l : list A) | NotIterable.
Arguments Absent {A}.
Arguments Entries {A} l.
Arguments NotIterable {A}.

Inductive state_file :=
| NotFound
| BlankFile
| BadJson
| Parsed (p_revisions : section (jstr * list (jstr * list RevisionRecord)))
         (p_activePointers : section (jstr * list (jstr * jstr)))
         (p_projectRoutes : section (jstr * list route))
         (p_projectMetadata : section (jstr * ProjectMetadata)).

Definition file_of_snapshot (s : snapshot) : state_file :=
  Parsed (Entries (s_revisions s)) (Entries (s_activePointers s))
         (Entries (s_projectRoutes s)) (Entries (s_projectMetadata s)).

(** [for (const e of section ?? []) set(e)]: [None] when the loop throws *)
Definition load_section {A B} (f : B → A → B) (sec : section A) (m : B) : option B :=
  match sec with
  | Absent => Some m
  | Entries l => Some (fold_left f l m)
  | NotIterable => None
  end.

Definition load_revisions (m : jsmap jstr (jsmap jstr (jsmap jstr RevisionRecord)))
    (e : jstr * list (jstr * list RevisionRecord)) :=
  let outer := map_of_entries (on_values (λ records, map_of_entries ((λ r, (r_id r, r)) <$> records)) e.2) in
  map_set m e.1 outer.
Definition load_pointers (m : jsmap jstr (jsmap jstr jstr)) (e : jstr * list (jstr * jstr)) :=
  map_set m e.1 (map_of_entries e.2).
Definition load_plain {V} (m : jsmap jstr V) (e : jstr * V) := map_set m e.1 e.2.

(** [#hydrate]: an exception ends the loading and is caught; what was loaded
    before it stays. *)
Definition hydrate (file : state_file) : tables :=
  match file with
  | NotFound | BlankFile | BadJson => empty_tables
  | Parsed revs ptrs routes meta =>
      match load_section load_revisions revs [] with
      | None => empty_tables
      | Some r =>
          match load_section load_pointers ptrs [] with
          | None => {| revisions := r; activePointers := []; projectRoutes := []; projectMetadata := [] |}
          | Some p =>
              match load_section load_plain routes [] with
              | None => {| revisions := r; activePointers := p; projectRoutes := []; projectMetadata := [] |}
              | Some rt =>
                  {| revisions := r; activePointers := p; projectRoutes := rt;
                     projectMetadata := default [] (load_section load_plain meta []) |}
              end
          end
      end
  end.

(** The constructor: hydration when there is a path *)
Definition new_service (persistencePath : option state_file) : DeploymentService :=
  {| tbl := match persistencePath with Some file => hydrate file | None => empty_tables end;
     lastTimestamp := 0;
     hasPersistencePath := match persistencePath with Some _ => true | None => false end;
     persistQueued := false;
     chain := 0 |}.

(** ** Interleavings *)

(** [inflight]: deployments between [deploy_begin] and [deploy_finish];
    [writing]: the snapshot being written; [disk]: the renamed file. *)
Record world := {
  svc : DeploymentService;
  inflight : list RevisionRecord;
  writing : option snapshot;
  disk : option snapshot
}.

Definition with_svc (w : world) (s : DeploymentService) : world :=
  {| svc := s; inflight := inflight w; writing := writing w; disk := disk w |}.
Definition with_inflight (w : world) (l : list RevisionRecord) : world :=
  {| svc := svc w; inflight := l; writing := writing w; disk := disk w |}.

(** The callback of [persistChain] starts: it takes the snapshot unless an
    earlier callback already covered the request. *)
Definition persist_start (w : world) : world :=
  match writing w, chain (svc w) with
  | None, S n =>
      let s := svc w in
      {| svc := {| tbl := tbl s; lastTimestamp := lastTimestamp s;
                   hasPersistencePath := hasPersistencePath s; persistQueued := false; chain := n |};
         inflight := inflight w;
         writing := if persistQueued s then Some (take_snapshot (tbl s)) else None;
         disk := disk w |}
  | _, _ => w
  end.

(** The write and the rename complete, or one of them fails. *)
Definition persist_end (ok : bool) (w : world) : world :=
  match writing w with
  | Some snap => {| svc := svc w; inflight := inflight w; writing := None;
                    disk := if ok then Some snap else disk w |}
  | None => w
  end.

Inductive event :=
| EBegin (project functionName : jstr) (artifact : PackagedArtifact) (now : Z) (bytes : list Z)
| EFinish (i : nat) (healthy : bool)
| EAbort (i : nat)
| ERollback (project functionName targetRevisionId : jstr)
| ERestore (project functionName : jstr) (revision : RevisionRecord) (isActive : bool)
| ESetRoutes (project : jstr) (routes : list route)
| ESetMetadata (project : jstr) (meta : ProjectMetadata)
| EDelete (project : jstr)
| EPersistStart
| EPersistEnd (ok : bool).

Section events.
Context `{Hashing}.

Definition exec (w : world) (e : event) : world :=
  match e with
  | EBegin project fn artifact now bytes =>
      match deploy_begin project fn artifact now bytes (svc w) with
      | (s, Ok revision) => with_inflight (with_svc w s) (inflight w ++ [revision])
      | (s, Err _) => with_svc w s
      end
  | EFinish i healthy =>
      match inflight w !! i with
      | Some revision =>
          with_inflight (with_svc w (deploy_finish (with_state Ready revision) healthy (svc w)).1)
                        (delete i (inflight w))
      | None => w
      end
  | EAbort i => with_inflight w (delete i (inflight w))
  | ERollback project fn target => with_svc w (rollback project fn target (svc w)).1
  | ERestore project fn r isActive => with_svc w (restoreRevision project fn r isActive (svc w)).1
  | ESetRoutes project routes => with_svc w (setProjectRoutes project routes (svc w))
  | ESetMetadata project meta => with_svc w (setProjectMetadata project meta (svc w))
  | EDelete project => with_svc w (deleteProject project (svc w)).1
  | EPersistStart => persist_start w
  | EPersistEnd ok => persist_end ok w
  end.

(** Runs all of whose events satisfy [P] in the world they meet *)
Inductive run (P : world → event → Prop) : world → world → Prop :=
| run_nil w : run P w w
| run_snoc w w' e : run P w w' → P w' e → run P w (exec w' e).

Lemma run_invariant (P : world → event → Prop) (I : world → Prop) w w' :
  (∀ w e, I w → P w e → I (exec w e)) → I w → run P w w' → I w'.
Proof. intros Hstep HI Hr. induction Hr; eauto. Qed.
End events.

(** ** Lookups after updates *)

Lemma nested_get_set {V} (m : jsmap jstr (jsmap jstr V)) p f v p' f' :
  (map_get (map_set m p (map_set (get_or_new m p) f v)) p' ≫= λ fnMap, map_get fnMap f') =
  if decide (p = p' ∧ f = f') then Some v else map_get m p' ≫= λ fnMap, map_get fnMap f'.
Proof.
  rewrite map_get_set. destruct (decide (p = p')) as [->|Hp]; cbn.
  - rewrite map_get_set. unfold get_or_new. destruct (decide (f = f')) as [->|Hf].
    + by rewrite decide_True.
    + rewrite decide_False by tauto. by destruct (map_get m p').
  - by rewrite decide_False by tauto.
Qed.

Lemma getActivePointer_set p f c t p' f' :
  getActivePointer (setActivePointer p f c t) p' f' =
  if decide (p = p' ∧ f = f') then Some c else getActivePointer t p' f'.
Proof. apply nested_get_set. Qed.

Lemma getRevision_save p f r t p' f' i :
  getRevision (saveRevisionRecord p f r t) p' f' i =
  if decide (p = p' ∧ f = f' ∧ r_id r = i) then Some r else getRevision t p' f' i.
Proof.
  unfold getRevision, saveRevisionRecord. cbn.
  pose proof (nested_get_set (revisions t) p f (map_set (get_or_new (get_or_new (revisions t) p) f) (r_id r) r) p' f') as Hn.
  destruct (decide (p = p' ∧ f = f')) as [[-> ->]|Hpf].
  - destruct (map_get (map_set _ _ _) p') as [m|] eqn:E; [|done]. cbn in Hn |- *. rewrite Hn. cbn.
    rewrite map_get_set. destruct (decide (r_id r = i)) as [->|].
    + by rewrite decide_True.
    + rewrite decide_False by tauto. unfold get_or_new.
      destruct (map_get (revisions t) p') as [m'|]; [|done]. cbn. by destruct (map_get m' f').
  - rewrite (decide_False (P := p = p' ∧ f = f' ∧ r_id r = i)) by tauto.
    destruct (map_get (map_set _ _ _) p') as [m|]; cbn in Hn |- *; [rewrite Hn|];
      destruct (map_get (revisions t) p') as [m'|]; cbn in *; try done; by rewrite <-Hn.
Qed.

Lemma getRevision_setActivePointer p f c t p' f' i :
  getRevision (setActivePointer p f c t) p' f' i = getRevision t p' f' i.
Proof. done. Qed.
Lemma getActivePointer_save p f r t p' f' :
  getActivePointer (saveRevisionRecord p f r t) p' f' = getActivePointer t p' f'.
Proof. done. Qed.

Lemma map_get_delete {V} (m : jsmap jstr V) p p' :
  map_get (map_delete m p) p' = if decide (p = p') then None else map_get m p'.
Proof. case_decide; subst; [apply map_get_delete_eq|by apply map_get_delete_ne]. Qed.

Lemma tbl_schedulePersist s : tbl (schedulePersist s) = tbl s.
Proof. unfold schedulePersist. by destruct (hasPersistencePath s). Qed.
Lemma lastTimestamp_schedulePersist s : lastTimestamp (schedulePersist s) = lastTimestamp s.
Proof. unfold schedulePersist. by destruct (hasPersistencePath s). Qed.

(** ** The invariant of reachable states *)

(** An identifier this process (or an earlier one with the same clock) made at
    or before [ts] *)
Definition stamped (ts : Z) (i : jstr) : Prop :=
  ∃ t bytes, 0 <= t <= ts ∧ i = REVISION_ID_PREFIX ++ generateUlid t bytes.

Record good (ts : Z) (fl : list jstr) (t : tables) : Prop := {
  good_clock : 0 <= ts < 2 ^ 50;
  good_stored p f i r : getRevision t p f i = Some r → stamped ts i ∧ r_id r = i;
  good_inflight : Forall (stamped ts) fl;
  good_nodup : NoDup fl;
  good_fresh i : i ∈ fl → ∀ p f, getRevision t p f i = None;
  good_active p f c : getActivePointer t p f = Some c →
    ∃ r, getRevision t p f c = Some r ∧ r_state r = Deployed
}.

Lemma stamped_mono ts ts' i : ts <= ts' → stamped ts i → stamped ts' i.
Proof. intros Hle (t & b & ? & ->). exists t, b. split; [lia|done]. Qed.

Lemma stamped_lt ts ts' bytes i :
  stamped ts i → ts < ts' → ts' < 2 ^ 50 →
  str_ltb i (REVISION_ID_PREFIX ++ generateUlid ts' bytes) = true.
Proof.
  intros (t & b & Ht & ->) Hlt Hb. rewrite str_ltb_app_l. unfold generateUlid.
  apply str_ltb_app_lt; [by rewrite !timeLoop_length|]. apply timeLoop_lt; try lia.
Qed.

Lemma stamped_ne ts ts' bytes i :
  stamped ts i → ts < ts' → ts' < 2 ^ 50 → i ≠ REVISION_ID_PREFIX ++ generateUlid ts' bytes.
Proof.
  intros Hi Hlt Hb ->. pose proof (stamped_lt _ _ bytes _ Hi Hlt Hb) as H.
  by rewrite str_ltb_irrefl in H.
Qed.

Lemma stamped_not_nil ts i : stamped ts i → i ≠ [].
Proof. by intros (t & b & _ & ->). Qed.

Lemma good_tick ts ts' bytes fl t :
  good ts fl t → ts < ts' → ts' < 2 ^ 50 →
  good ts' (fl ++ [REVISION_ID_PREFIX ++ generateUlid ts' bytes]) t.
Proof.
  intros [Hc Hs Hf Hn Hfr Ha] Hlt Hb.
  split; [lia| | | | |done].
  - intros p f i r Hr. destruct (Hs p f i r Hr). split; [|done]. by apply (stamped_mono ts); [lia|].
  - apply Forall_app. split; [eapply Forall_impl; [exact Hf|]; intros i; apply stamped_mono; lia|].
    apply Forall_singleton. exists ts', bytes. split; [lia|done].
  - apply NoDup_app. split_and!; [done| |apply NoDup_singleton].
    intros i Hi ->%list_elem_of_singleton. eapply Forall_forall in Hf; [|exact Hi].
    by eapply stamped_ne.
  - intros i [Hi| ->%list_elem_of_singleton]%elem_of_app p f; [by apply Hfr|].
    destruct (getRevision t p f _) as [r|] eqn:E; [|done]. destruct (Hs _ _ _ _ E) as [Hst _].
    exfalso. by eapply stamped_ne.
Qed.

Lemma good_later ts ts' fl t : good ts fl t → ts <= ts' < 2 ^ 50 → good ts' fl t.
Proof.
  intros [Hc Hs Hf Hn Hfr Ha] Hle. split; [lia| | |done..].
  - intros p f i r Hr. destruct (Hs p f i r Hr). split; [|done]. by apply (stamped_mono ts); [lia|].
  - eapply Forall_impl; [exact Hf|]. intros i. apply stamped_mono. lia.
Qed.

Lemma good_save ts fl t p f r :
  good ts fl t → stamped ts (r_id r) → r_id r ∉ fl → getRevision t p f (r_id r) = None →
  good ts fl (saveRevisionRecord p f r t).
Proof.
  intros [Hc Hs Hf Hn Hfr Ha] Hst Hnf Hnew. split; [done| |done|done| |].
  - intros p' f' i r'. rewrite getRevision_save. case_decide as Hd; [|by apply Hs].
    intros [= <-]. destruct Hd as (_ & _ & <-). done.
  - intros i Hi p' f'. rewrite getRevision_save, decide_False; [by apply Hfr|].
    intros (_ & _ & <-). done.
  - intros p' f' c Hc'. destruct (Ha p' f' c Hc') as (r' & Hr' & ?). exists r'. split; [|done].
    rewrite getRevision_save, decide_False; [done|]. intros (-> & -> & <-). congruence.
Qed.

Lemma good_point ts fl t p f c r :
  good ts fl t → getRevision t p f c = Some r → r_state r = Deployed →
  good ts fl (setActivePointer p f c t).
Proof.
  intros [Hc Hs Hf Hn Hfr Ha] Hr Hd. split; try done.
  intros p' f' c'. rewrite getActivePointer_set. case_decide as E; [|by apply Ha].
  destruct E as [<- <-]. intros [= <-]. by exists r.
Qed.

Lemma good_drop ts fl t i : good ts fl t → good ts (delete i fl) t.
Proof.
  intros [Hc Hs Hf Hn Hfr Ha]. assert (sublist (delete i fl) fl) as Hsub by apply sublist_delete.
  split; try done.
  - by apply Forall_delete.
  - by eapply sublist_NoDup.
  - intros j Hj. apply Hfr. by eapply elem_of_sublist.
Qed.

Lemma good_same ts fl t t' :
  revisions t' = revisions t → activePointers t' = activePointers t → good ts fl t → good ts fl t'.
Proof.
  intros Hr Hp [Hc Hs Hf Hn Hfr Ha].
  split; try done; unfold getRevision, getActivePointer in *; rewrite ?Hr, ?Hp; done.
Qed.

Definition delete_tables (project : jstr) (t : tables) : tables :=
  {| revisions := map_delete (revisions t) project;
     activePointers := map_delete (activePointers t) project;
     projectRoutes := map_delete (projectRoutes t) project;
     projectMetadata := map_delete (projectMetadata t) project |}.

Lemma getRevision_delete p t p' f i :
  getRevision (delete_tables p t) p' f i = if decide (p = p') then None else getRevision t p' f i.
Proof. unfold getRevision. cbn. rewrite map_get_delete. by case_decide. Qed.
Lemma getActivePointer_delete p t p' f :
  getActivePointer (delete_tables p t) p' f = if decide (p = p') then None else getActivePointer t p' f.
Proof. unfold getActivePointer. cbn. rewrite map_get_delete. by case_decide. Qed.

Lemma good_delete ts fl t p : good ts fl t → good ts fl (delete_tables p t).
Proof.
  intros [Hc Hs Hf Hn Hfr Ha]. split; try done.
  - intros p' f i r. rewrite getRevision_delete. case_decide; [done|]. apply Hs.
  - intros i Hi p' f. rewrite getRevision_delete. case_decide; [done|]. by apply Hfr.
  - intros p' f c. rewrite getActivePointer_delete. case_decide as E; [done|]. intros Hc'.
    rewrite getRevision_delete, decide_False by done. by apply Ha.
Qed.

(** ** What the methods do to the tables *)

Definition finish_tables (r : RevisionRecord) (healthy : bool) (t : tables) : tables :=
  let p := r_project r in
  let f := r_functionName r in
  if healthy then
    let t' := saveRevisionRecord p f (with_state Deployed r) t in
    if not_superseded (getActivePointer t p f) (r_id r) then setActivePointer p f (r_id r) t' else t'
  else saveRevisionRecord p f (with_state Failed r) t.

Lemma deploy_finish_tables r healthy s :
  tbl (deploy_finish r healthy s).1 = finish_tables r healthy (tbl s) ∧
  lastTimestamp (deploy_finish r healthy s).1 = lastTimestamp s.
Proof.
  unfold deploy_finish, finish_tables. destruct healthy; cbn;
    rewrite ?tbl_schedulePersist, ?lastTimestamp_schedulePersist, ?getActivePointer_save; [|done].
  by destruct (not_superseded _ _).
Qed.

Definition restore_tables (p f : jstr) (r : RevisionRecord) (isActive : bool) (t : tables) : tables :=
  let t' := match getRevision t p f (r_id r) with
            | Some _ => t
            | None => saveRevisionRecord p f (relocate p f r) t
            end in
  if isActive then setActivePointer p f (r_id r) t' else t'.

Lemma restore_effect p f r isActive s :
  lastTimestamp (restoreRevision p f r isActive s).1 = lastTimestamp s ∧
  (tbl (restoreRevision p f r isActive s).1 = tbl s ∨
   tbl (restoreRevision p f r isActive s).1 = restore_tables p f r isActive (tbl s)).
Proof.
  unfold restoreRevision, restore_tables. destruct (getRevision _ _ _ _) as [ex|];
    [destruct (jstr_eqb _ _)|]; destruct isActive; cbn;
    rewrite ?tbl_schedulePersist, ?lastTimestamp_schedulePersist; auto.
Qed.

Lemma rollback_effect p f target s :
  lastTimestamp (rollback p f target s).1 = lastTimestamp s ∧
  (tbl (rollback p f target s).1 = tbl s ∨
   ∃ r, getRevision (tbl s) p f target = Some r ∧ r_state r = Deployed ∧
     tbl (rollback p f target s).1 = setActivePointer p f target (tbl s)).
Proof.
  unfold rollback. destruct (getRevision _ _ _ _) as [r|] eqn:E; [|auto].
  destruct (decide (r_state r ≠ Deployed)) as [|Hd%dec_stable]; [auto|]. cbn.
  rewrite tbl_schedulePersist, lastTimestamp_schedulePersist. eauto 10.
Qed.

Lemma deleteProject_tables p s :
  tbl (deleteProject p s).1 = delete_tables p (tbl s) ∧
  lastTimestamp (deleteProject p s).1 = lastTimestamp s.
Proof.
  unfold deleteProject. cbn. destruct (_ || _ || _ || _);
    by rewrite ?tbl_schedulePersist, ?lastTimestamp_schedulePersist.
Qed.

Lemma deploy_begin_effect `{Hashing} p f a now bytes s :
  (∃ e, deploy_begin p f a now bytes s = (s, Err e)) ∨
  ∃ s' r ts, deploy_begin p f a now bytes s = (s', Ok r) ∧ tbl s' = tbl s ∧
    lastTimestamp s' = ts ∧ lastTimestamp s < ts ∧ (ts = lastTimestamp s + 1 ∨ ts = now) ∧
    r_id r = REVISION_ID_PREFIX ++ generateUlid ts bytes ∧ r_project r = p ∧ r_functionName r = f.
Proof.
  unfold deploy_begin, st_bind, st_lift.
  destruct (throw_if _ _) as [u|e]; [|eauto]. destruct (throw_if _ _) as [u'|e]; [|eauto].
  right. unfold nextMonotonicTimestamp. eexists _, _, _. split; [reflexivity|]. split; [reflexivity|].
  split; [reflexivity|]. cbn. destruct (Z.leb_spec now (lastTimestamp s)); split_and!; auto; lia.
Qed.

(** The invariant of a world *)
Definition world_good (w : world) : Prop :=
  good (lastTimestamp (svc w)) (r_id <$> inflight w) (tbl (svc w)).

(** What the environment must respect: the clock is within 48 bits (ULID range:
    50), a restored revision carries an identifier of the past, is not one of a
    deployment in flight, and is activated only if Deployed. *)
Definition event_ok (w : world) (e : event) : Prop :=
  match e with
  | EBegin _ _ _ now _ => 0 <= now < 2 ^ 50 ∧ lastTimestamp (svc w) < 2 ^ 50 - 1
  | ERestore p f r isActive =>
      stamped (lastTimestamp (svc w)) (r_id r) ∧ r_id r ∉ r_id <$> inflight w ∧
      (isActive = true →
       r_state (default r (getRevision (tbl (svc w)) p f (r_id r))) = Deployed)
  | _ => True
  end.

Lemma good_finish ts fl t i r healthy :
  good ts fl t → fl !! i = Some (r_id r) → good ts (delete i fl) (finish_tables r healthy t).
Proof.
  intros Hg Hi. assert (r_id r ∈ fl) as Hin by (by eapply list_elem_of_lookup_2).
  assert (r_id r ∉ delete i fl) as Hout.
  { intros Hin'. pose proof (good_nodup _ _ _ Hg) as Hnd. rewrite <-(take_drop_middle fl i _ Hi) in Hnd.
    rewrite (delete_take_drop fl i) in Hin'. apply NoDup_app in Hnd as (_ & H1 & [H2 _]%NoDup_cons).
    apply elem_of_app in Hin' as [Hin'|Hin']; [|done]. apply (H1 _ Hin'). left. }
  assert (stamped ts (r_id r)) as Hst.
  { pose proof (good_inflight _ _ _ Hg) as Hf. by eapply Forall_forall in Hf. }
  assert (∀ st, good ts (delete i fl)
    (saveRevisionRecord (r_project r) (r_functionName r) (with_state st r) t)) as Hsave.
  { intros st. apply good_save; [by apply good_drop|done..|]. by apply (good_fresh _ _ _ Hg). }
  unfold finish_tables. destruct healthy; [|apply Hsave]. destruct (not_superseded _ _); [|apply Hsave].
  apply (good_point _ _ _ _ _ _ (with_state Deployed r)); [apply Hsave| |done].
  by rewrite getRevision_save, decide_True.
Qed.

Lemma good_restore ts fl t p f r isActive :
  good ts fl t → stamped ts (r_id r) → r_id r ∉ fl →
  (isActive = true → r_state (default r (getRevision t p f (r_id r))) = Deployed) →
  good ts fl (restore_tables p f r isActive t).
Proof.
  intros Hg Hst Hfl Hact. unfold restore_tables. destruct (getRevision t p f (r_id r)) as [ex|] eqn:E.
  - destruct isActive; [|done]. by eapply good_point, Hact.
  - assert (good ts fl (saveRevisionRecord p f (relocate p f r) t)) as Hsave by (by apply good_save).
    destruct isActive; [|done]. apply (good_point _ _ _ _ _ _ (relocate p f r)); [done| |by apply Hact].
    by rewrite getRevision_save, decide_True.
Qed.

(** Projections of updated worlds *)
Ltac wcbn := cbn [with_inflight with_svc inflight svc writing disk].

Lemma exec_good `{Hashing} w e : world_good w → event_ok w e → world_good (exec w e).
Proof.
  unfold world_good. intros Hg He. destruct e as [p f a now bytes|i healthy|i|p f c|p f r act|p rs|p m|p| |ok];
    cbn [exec event_ok] in *.
  - destruct (deploy_begin_effect p f a now bytes (svc w)) as
      [[e ->]|(s' & r & ts & -> & Ht & Hts & Hlt & Hor & Hid & _)]; [done|]. wcbn.
    rewrite Ht, Hts, fmap_app. cbn. rewrite Hid. apply (good_tick (lastTimestamp (svc w))); [done|lia|lia].
  - destruct (inflight w !! i) as [r|] eqn:Hi; [|done]. wcbn.
    destruct (deploy_finish_tables (with_state Ready r) healthy (svc w)) as [-> ->].
    rewrite list_fmap_delete. apply good_finish; [done|]. by rewrite list_lookup_fmap, Hi.
  - wcbn. rewrite list_fmap_delete. by apply good_drop.
  - wcbn. destruct (rollback_effect p f c (svc w)) as [-> [->|(r & Hr & Hd & ->)]]; [done|].
    by eapply good_point.
  - destruct He as (Hst & Hfl & Hact). wcbn. destruct (restore_effect p f r act (svc w)) as [-> [->| ->]]; [done|].
    by apply good_restore.
  - wcbn. unfold setProjectRoutes. rewrite tbl_schedulePersist, lastTimestamp_schedulePersist. by apply (good_same _ _ (tbl (svc w))).
  - wcbn. unfold setProjectMetadata. rewrite tbl_schedulePersist, lastTimestamp_schedulePersist. by apply (good_same _ _ (tbl (svc w))).
  - wcbn. destruct (deleteProject_tables p (svc w)) as [-> ->]. by apply good_delete.
  - unfold persist_start. destruct (writing w), (chain (svc w)); done.
  - unfold persist_end. by destruct (writing w).
Qed.

Lemma getRevision_finish r healthy t p f i :
  getRevision (finish_tables r healthy t) p f i =
  if decide (r_project r = p ∧ r_functionName r = f ∧ r_id r = i)
  then Some (with_state (if healthy then Deployed else Failed) r) else getRevision t p f i.
Proof.
  unfold finish_tables. destruct healthy; [destruct (not_superseded _ _)|];
    rewrite ?getRevision_setActivePointer, getRevision_save; done.
Qed.

Lemma getActivePointer_finish r healthy t p f :
  getActivePointer (finish_tables r healthy t) p f =
  if decide (r_project r = p ∧ r_functionName r = f) then
    if healthy && not_superseded (getActivePointer t p f) (r_id r) then Some (r_id r)
    else getActivePointer t p f
  else getActivePointer t p f.
Proof.
  unfold finish_tables. destruct healthy; cbn [andb]; [|rewrite getActivePointer_save; by case_decide].
  destruct (decide (r_project r = p ∧ r_functionName r = f)) as [[<- <-]|Hne].
  - destruct (not_superseded _ _); [|done]. rewrite getActivePointer_set. by rewrite decide_True.
  - destruct (not_superseded _ _); [|done]. rewrite getActivePointer_set. by rewrite decide_False.
Qed.

Lemma getRevision_restore p f r isActive t p' f' i :
  getRevision (restore_tables p f r isActive t) p' f' i =
  match getRevision t p f (r_id r) with
  | Some _ => getRevision t p' f' i
  | None => if decide (p = p' ∧ f = f' ∧ r_id r = i) then Some (relocate p f r)
            else getRevision t p' f' i
  end.
Proof.
  unfold restore_tables. destruct (getRevision t p f (r_id r)), isActive;
    rewrite ?getRevision_setActivePointer, ?getRevision_save; done.
Qed.

Lemma getActivePointer_restore p f r isActive t p' f' :
  (p', f') ≠ (p, f) →
  getActivePointer (restore_tables p f r isActive t) p' f' = getActivePointer t p' f'.
Proof.
  intros Hne. unfold restore_tables. destruct (getRevision t p f (r_id r)), isActive;
    rewrite ?getActivePointer_set, ?decide_False by (intros [-> ->]; done); done.
Qed.

(** ** Cutover *)

(** Every Deployed revision of the function is at most the active one. *)
Definition newest (t : tables) (p f : jstr) : Prop :=
  ∀ i r, getRevision t p f i = Some r → r_state r = Deployed →
  ∃ c, getActivePointer t p f = Some c ∧ str_leb i c = true.

Lemma newest_finish ts fl t r healthy p f :
  good ts fl t → newest t p f → newest (finish_tables r healthy t) p f.
Proof.
  intros Hg Hn i r' Hr Hd. rewrite getRevision_finish in Hr. rewrite getActivePointer_finish.
  destruct (decide (r_project r = p ∧ r_functionName r = f)) as [[<- <-]|Hne].
  2:{ rewrite decide_False in Hr by tauto. by apply (Hn i r'). }
  assert (i = r_id r ∧ healthy = true ∨ getRevision t (r_project r) (r_functionName r) i = Some r') as Hcase.
  { case_decide as E; [left|by right]. destruct E as (_ & _ & <-). injection Hr as <-.
    split; [done|]. by destruct healthy. }
  destruct healthy; cbn [andb]; [|destruct Hcase as [[_ ?]|Hr']; [done|by apply (Hn i r')]].
  destruct (getActivePointer t (r_project r) (r_functionName r)) as [c|] eqn:Ec.
  - destruct (good_active _ _ _ Hg _ _ _ Ec) as (rc & Hrc & _).
    destruct (good_stored _ _ _ Hg _ _ _ _ Hrc) as [Hst%stamped_not_nil _].
    destruct c as [|c0 c]; [done|]. cbn [not_superseded].
    destruct (str_leb (c0 :: c) (r_id r)) eqn:El.
    + exists (r_id r). split; [done|]. destruct Hcase as [[-> _]|Hr']; [apply str_leb_refl|].
      destruct (Hn i r' Hr' Hd) as (c' & Hc' & Hle). assert (c' = c0 :: c) as -> by congruence.
      by eapply str_leb_trans.
    + exists (c0 :: c). split; [done|]. destruct Hcase as [[-> _]|Hr'].
      * apply str_ltb_leb. unfold str_leb in El. by apply negb_false_iff in El.
      * destruct (Hn i r' Hr' Hd) as (c' & Hc' & Hle). by assert (c' = c0 :: c) as -> by congruence.
  - cbn [not_superseded]. exists (r_id r). split; [done|]. destruct Hcase as [[-> _]|Hr']; [apply str_leb_refl|].
    destruct (Hn i r' Hr' Hd) as (c' & Hc' & _). congruence.
Qed.

(** Events other than rollbacks and restores of the function *)
Definition pipeline_event (p f : jstr) (w : world) (e : event) : Prop :=
  event_ok w e ∧
  match e with
  | ERollback p' f' _ | ERestore p' f' _ _ => (p, f) ≠ (p', f')
  | _ => True
  end.

Lemma newest_lookups t t' p f :
  (∀ i, getRevision t' p f i = getRevision t p f i) → getActivePointer t' p f = getActivePointer t p f →
  newest t p f → newest t' p f.
Proof. intros Hr Hp Hn i r. rewrite Hr, Hp. apply Hn. Qed.

Lemma exec_newest `{Hashing} p f w e :
  world_good w → pipeline_event p f w e → newest (tbl (svc w)) p f → newest (tbl (svc (exec w e))) p f.
Proof.
  intros Hg [He Hpe] Hn.
  destruct e as [p' f' a now bytes|i healthy|i|p' f' c|p' f' r act|p' rs|p' m|p'| |ok]; cbn [exec] in *.
  - destruct (deploy_begin_effect p' f' a now bytes (svc w)) as
      [[e ->]|(s' & r & ts & -> & Ht & _)]; [done|]. wcbn. by rewrite Ht.
  - destruct (inflight w !! i) as [r|] eqn:Hi; [|done]. wcbn.
    destruct (deploy_finish_tables (with_state Ready r) healthy (svc w)) as [-> _].
    by eapply newest_finish.
  - done.
  - wcbn. destruct (rollback_effect p' f' c (svc w)) as [_ [->|(r & _ & _ & ->)]]; [done|].
    apply (newest_lookups (tbl (svc w))); [done| |done]. rewrite getActivePointer_set, decide_False; [done|].
    by intros [-> ->].
  - wcbn. destruct (restore_effect p' f' r act (svc w)) as [_ [->| ->]]; [done|].
    apply (newest_lookups (tbl (svc w))); [|by apply getActivePointer_restore|done].
    intros i. rewrite getRevision_restore. destruct (getRevision _ p' f' _); [done|].
    rewrite decide_False; [done|]. by intros (-> & -> & _).
  - wcbn. unfold setProjectRoutes. by rewrite tbl_schedulePersist.
  - wcbn. unfold setProjectMetadata. by rewrite tbl_schedulePersist.
  - wcbn. destruct (deleteProject_tables p' (svc w)) as [-> _]. intros i r.
    rewrite getRevision_delete, getActivePointer_delete. case_decide; [done|]. apply Hn.
  - unfold persist_start. by destruct (writing w), (chain (svc w)).
  - unfold persist_end. by destruct (writing w).
Qed.

(** A process that starts without a state file *)
Definition initial (file : option state_file) : world :=
  {| svc := new_service file; inflight := []; writing := None; disk := None |}.
Definition fresh_start (file : option state_file) : Prop := file = None ∨ file = Some NotFound.

Lemma initial_good file : fresh_start file → world_good (initial file).
Proof. intros [-> | ->]; split; try done; try constructor; unfold lastTimestamp; cbn; lia. Qed.

(** C31: Cutover: however deployments of a function overlap (starts, failures,
    health gates and completions in any order, next to any activity on other
    functions and projects), the active revision is the newest one among those
    that passed their gate: a deployment that started earlier but finished later
    never replaces it, and with no pointer no revision is Deployed. *)
Theorem cutover_newest_wins `{Hashing} file w p f :
  fresh_start file → run (pipeline_event p f) (initial file) w →
  match getActivePointer (tbl (svc w)) p f with
  | None => ∀ i r, getRevision (tbl (svc w)) p f i = Some r → r_state r ≠ Deployed
  | Some c =>
      (∃ r, getRevision (tbl (svc w)) p f c = Some r ∧ r_state r = Deployed) ∧
      ∀ i r, getRevision (tbl (svc w)) p f i = Some r → r_state r = Deployed → str_leb i c = true
  end.
Proof.
  intros Hf Hrun.
  assert (world_good w ∧ newest (tbl (svc w)) p f) as [Hg Hn].
  { revert Hrun. apply run_invariant with (I := λ w, world_good w ∧ newest (tbl (svc w)) p f).
    - intros w1 e [Hg Hn] Hpe. split; [by apply exec_good; [|apply Hpe]|by apply exec_newest].
    - split; [by apply initial_good|]. destruct Hf as [-> | ->]; by intros i r. }
  destruct (getActivePointer _ p f) as [c|] eqn:Ec.
  - split; [by apply (good_active _ _ _ Hg)|]. intros i r Hr Hd.
    destruct (Hn i r Hr Hd) as (c' & Hc' & ?). by simplify_eq.
  - intros i r Hr Hd. destruct (Hn i r Hr Hd) as (c' & Hc' & _). congruence.
Qed.

(** A concrete hash for the runs below: the bytes themselves, padded. *)
#[local] Instance toy_hashing : Hashing :=
  {| sha256 := λ data, take 32 (data ++ replicate 32 0);
     encodeHex := flat_map (λ b, [48 + b mod 10; 48 + b mod 10]);
     encodeBase64 := λ data, data |}.

Definition some_code : Uint8Array := {| buffer := [7; 7; 1; 2; 3; 7]; byteOffset := 2; byteLength := 3 |}.
Definition some_artifact : PackagedArtifact :=
  match packageFunctionArtifact (js "main.ts") (Some some_code) no_options with
  | Ok a => a
  | Err _ => {| a_id := []; a_integrity := []; a_bytes := some_code;
                a_manifest := JUndef |}
  end.

(** Two deployments of [web] overlap: the second finishes first. *)
Definition overlapping : list event :=
  [EBegin (js "shop") (js "web") some_artifact 5 []; EBegin (js "shop") (js "web") some_artifact 5 [];
   EFinish 1 true; EFinish 0 true].

(** A list of events whose conditions hold along the way is a run. *)
Fixpoint events_ok (P : world → event → Prop) (w : world) (evs : list event) : Prop :=
  match evs with [] => True | e :: evs => P w e ∧ events_ok P (exec w e) evs end.

Lemma run_events P evs w0 w :
  run P w0 w → events_ok P w evs → run P w0 (fold_left exec evs w).
Proof.
  revert w. induction evs as [|e evs IH]; intros w Hr Hok; [done|]. destruct Hok as [He Hok].
  apply IH; [by constructor|done].
Qed.

Theorem cutover_newest_wins_witness :
  let w := fold_left exec overlapping (initial None) in
  getActivePointer (tbl (svc w)) (js "shop") (js "web") = Some (js "rev_" ++ generateUlid 6 []) ∧
  ∀ i r, getRevision (tbl (svc w)) (js "shop") (js "web") i = Some r →
    r_state r = Deployed → str_leb i (js "rev_" ++ generateUlid 6 []) = true.
Proof.
  cbv zeta. set (w := fold_left exec overlapping (initial None)).
  assert (getActivePointer (tbl (svc w)) (js "shop") (js "web") =
    Some (js "rev_" ++ generateUlid 6 [])) as E by (vm_compute; reflexivity).
  split; [exact E|].
  assert (run (pipeline_event (js "shop") (js "web")) (initial None) w) as Hr.
  { apply run_events; [constructor|]. vm_compute. split_and!; done. }
  pose proof (cutover_newest_wins None w (js "shop") (js "web") (or_introl eq_refl) Hr) as H.
  rewrite E in H. apply H.
Defined.

(** ** The active revision and immutability *)

Lemma exec_stable `{Hashing} p f i r w e :
  world_good w → event_ok w e → e ≠ EDelete p →
  getRevision (tbl (svc w)) p f i = Some r → getRevision (tbl (svc (exec w e))) p f i = Some r.
Proof.
  intros Hg He Hne Hr.
  destruct e as [p' f' a now bytes|k healthy|k|p' f' c|p' f' r' act|p' rs|p' m|p'| |ok];
    cbn [exec] in *; try done.
  - destruct (deploy_begin_effect p' f' a now bytes (svc w)) as
      [[e ->]|(s' & r' & ts & -> & Ht & _)]; [done|]. wcbn. by rewrite Ht.
  - destruct (inflight w !! k) as [r'|] eqn:Hk; [|done]. wcbn.
    destruct (deploy_finish_tables (with_state Ready r') healthy (svc w)) as [-> _].
    rewrite getRevision_finish, decide_False; [done|]. cbn. intros (<- & <- & <-).
    rewrite (good_fresh _ _ _ Hg (r_id r')) in Hr; [done|].
    apply list_elem_of_fmap_2. by eapply list_elem_of_lookup_2.
  - wcbn. destruct (rollback_effect p' f' c (svc w)) as [_ [->|(r' & _ & _ & ->)]]; done.
  - wcbn. destruct (restore_effect p' f' r' act (svc w)) as [_ [->| ->]]; [done|].
    rewrite getRevision_restore. destruct (getRevision _ p' f' _) eqn:E; [done|].
    rewrite decide_False; [done|]. intros (-> & -> & <-). congruence.
  - wcbn. unfold setProjectRoutes. by rewrite tbl_schedulePersist.
  - wcbn. unfold setProjectMetadata. by rewrite tbl_schedulePersist.
  - wcbn. destruct (deleteProject_tables p' (svc w)) as [-> _].
    rewrite getRevision_delete, decide_False; [done|]. by intros ->.
  - unfold persist_start. by destruct (writing w), (chain (svc w)).
  - unfold persist_end. by destruct (writing w).
Qed.

Lemma run_good `{Hashing} file w : fresh_start file → run event_ok (initial file) w → world_good w.
Proof.
  intros Hf. apply run_invariant with (I := world_good); [intros; by apply exec_good|by apply initial_good].
Qed.

(** Only Deployed revisions serve traffic, and revisions are immutable
    (FN-3, PLAT-3): in every reachable state, rollbacks and restores included,
    an active pointer names a record of that project and function in state
    Deployed, which is what [getActiveRevision] returns; and a recorded revision
    stays as it is for as long as its project is not deleted. *)
Theorem active_is_deployed `{Hashing} file w p f :
  fresh_start file → run event_ok (initial file) w →
  (∀ c, getActivePointer (tbl (svc w)) p f = Some c →
    ∃ r, getActiveRevision (tbl (svc w)) p f = Some r ∧ r_id r = c ∧ r_state r = Deployed) ∧
  ∀ w' i r, run (λ w e, event_ok w e ∧ e ≠ EDelete p) w w' →
    getRevision (tbl (svc w)) p f i = Some r → getRevision (tbl (svc w')) p f i = Some r.
Proof.
  intros Hf Hrun. pose proof (run_good file w Hf Hrun) as Hg. split.
  - intros c Hc. destruct (good_active _ _ _ Hg p f c Hc) as (r & Hr & Hd). exists r.
    destruct (good_stored _ _ _ Hg _ _ _ _ Hr) as [Hst%stamped_not_nil Hid]. split; [|done].
    unfold getActiveRevision. rewrite Hc. by destruct c.
  - intros w' i r Hrun' Hr.
    assert (world_good w' ∧ getRevision (tbl (svc w')) p f i = Some r) as [_ ?]; [|done].
    revert Hrun'. apply run_invariant with
      (I := λ w, world_good w ∧ getRevision (tbl (svc w)) p f i = Some r); [|done].
    intros w1 e [Hg1 Hr1] [He Hne]. split; [by apply exec_good|by apply exec_stable].
Qed.

(** After the overlap, a rollback to the older revision *)
Theorem active_is_deployed_witness :
  let w := fold_left exec (overlapping ++ [ERollback (js "shop") (js "web") (js "rev_" ++ generateUlid 5 [])])
             (initial None) in
  ∃ r, getActiveRevision (tbl (svc w)) (js "shop") (js "web") = Some r ∧ r_state r = Deployed ∧
    r_id r = js "rev_" ++ generateUlid 5 [].
Proof.
  cbv zeta. set (evs := overlapping ++ _). set (w := fold_left exec evs (initial None)).
  assert (run event_ok (initial None) w) as Hr.
  { apply run_events; [constructor|]. vm_compute. split_and!; done. }
  destruct (active_is_deployed None w (js "shop") (js "web") (or_introl eq_refl) Hr) as [Ha _].
  destruct (Ha (js "rev_" ++ generateUlid 5 [])) as (r & ? & ? & ?); [vm_compute; reflexivity|].
  exists r. split; [assumption|]. split; assumption.
Defined.

(** [restoreRevision] activates without looking at the state: a Failed record
    becomes the active revision. *)
Lemma restore_activates_failed (p f : jstr) (r : RevisionRecord) (s : DeploymentService) :
  getRevision (tbl s) p f (r_id r) = None → r_state r = Failed → r_id r ≠ [] →
  getActiveRevision (tbl (restoreRevision p f r true s).1) p f = Some (relocate p f r).
Proof.
  intros Hr Hst Hid. unfold restoreRevision, getActiveRevision. rewrite Hr. cbn.
  rewrite tbl_schedulePersist. cbn [on_tables tbl].
  rewrite getActivePointer_set, decide_True by done. destruct (r_id r) as [|c i] eqn:E; [done|].
  by rewrite getRevision_setActivePointer, getRevision_save, decide_True.
Qed.

(** ** One deployment, start to end *)

Lemma artifactBuffer_view a : view_wf a → artifactBuffer a = view_bytes a.
Proof.
  unfold artifactBuffer, view_bytes, view_wf. intros Hwf. destruct (_ && _) eqn:E.
  - apply andb_true_iff in E as [->%Nat.eqb_eq ->%Nat.eqb_eq]. by rewrite drop_0, firstn_all.
  - f_equal. lia.
Qed.

Lemma computeArtifactId_valid `{HashingLaws} a : artifact_id_valid (computeArtifactId a) = true.
Proof.
  unfold artifact_id_valid, computeArtifactId. rewrite starts_with_app, length_app, hex_digest_length.
  pose proof (drop_app_length (js "sha256:") (encodeHex (sha256 (view_bytes a)))) as Hd.
  change (length (js "sha256:")) with 7%nat in *. unfold slice_from. by rewrite Hd, hex_digest_chars.
Qed.

Lemma packaged_identity `{Hashing} entrypoint code options a :
  packageFunctionArtifact entrypoint (Some code) options = Ok a →
  a_id a = computeArtifactId code ∧ a_integrity a = computeIntegrity code ∧ a_bytes a = code.
Proof.
  unfold packageFunctionArtifact. intros Ha.
  apply bind_Ok in Ha as (? & _ & Ha). apply bind_Ok in Ha as (? & _ & Ha).
  apply bind_Ok in Ha as (? & _ & Ha). apply bind_Ok in Ha as ([[kv objs] qs] & _ & Ha).
  apply bind_Ok in Ha as (? & _ & Ha). by injection Ha as <-.
Qed.

Lemma deploy_begin_packaged `{HashingLaws} entrypoint code options a p f now bytes s :
  packageFunctionArtifact entrypoint (Some code) options = Ok a →
  ∃ s' r, deploy_begin p f a now bytes s = (s', Ok r) ∧ tbl s' = tbl s ∧
    r_project r = p ∧ r_functionName r = f ∧ r_manifest r = a_manifest a ∧
    r_artifactId r = computeArtifactId code.
Proof.
  intros (Hid & Hint & Hb)%packaged_identity. unfold deploy_begin, st_bind, st_lift.
  rewrite Hid, computeArtifactId_valid, Hint, Hb, !jstr_eqb_refl. cbn.
  eexists _, _. split; [reflexivity|]. cbn. done.
Qed.

(** A packaged function deploys: the artifact that the packager returns passes
    the service's format, content-address and integrity checks; exactly the code
    bytes are stored under [artifacts/sha256:...]; the revision is recorded with
    the packaged manifest, as Deployed or Failed as the gate decides; it becomes
    active exactly when the result says so; and a failed gate changes no active
    pointer at all. *)
Theorem deploy_packaged `{HashingLaws} {O : Type} (put : jstr → list Z → stm O exn unit) fuel
    entrypoint code options a p f h now bytes s (o o' : O) healthy :
  packageFunctionArtifact entrypoint (Some code) options = Ok a → view_wf code →
  put (ARTIFACT_STORAGE_PREFIX ++ computeArtifactId code) (view_bytes code) o = (o', Ok tt) →
  run_health_check fuel h = Some healthy →
  ∃ s' res rev, deploy put fuel p f a h now bytes s o = Some (s', o', Ok res) ∧
    dr_state res = (if healthy then Deployed else Failed) ∧
    getRevision (tbl s') p f (dr_revisionId res) = Some rev ∧
    r_state rev = dr_state res ∧ r_manifest rev = a_manifest a ∧ r_artifactId rev = a_id a ∧
    (dr_active res = true → getActivePointer (tbl s') p f = Some (dr_revisionId res)) ∧
    (dr_active res = false → ∀ p' f', getActivePointer (tbl s') p' f' = getActivePointer (tbl s) p' f') ∧
    (healthy = false → dr_active res = false).
Proof.
  intros Ha Hwf Hput Hh. pose proof Ha as (Hid & _ & Hb)%packaged_identity.
  destruct (deploy_begin_packaged _ _ _ _ p f now bytes s Ha) as (s1 & r & Hr & Ht & Hp & Hf & Hm & Hart).
  unfold deploy. rewrite Hr, Hid, Hb, artifactBuffer_view, Hput, Hh by done. cbn.
  destruct (deploy_finish_tables (with_state Ready r) healthy s1) as [Hfin _].
  pose proof (getRevision_finish (with_state Ready r) healthy (tbl s1) p f (r_id r)) as Hget.
  rewrite decide_True in Hget by done. rewrite <-Hfin in Hget.
  pose proof (getActivePointer_finish (with_state Ready r) healthy (tbl s1)) as Hptr. rewrite <-Hfin in Hptr.
  destruct (deploy_finish (with_state Ready r) healthy s1) as [s' res] eqn:Edf. cbn [fst] in *.
  exists s', res, (with_state (if healthy then Deployed else Failed) (with_state Ready r)). split; [done|].
  unfold deploy_finish in Edf. cbn [with_state r_project r_functionName r_id] in *.
  destruct healthy; injection Edf as _ <-; cbn [dr_state dr_revisionId dr_active]; split_and!; try done.
  - rewrite getActivePointer_save. intros Hact. rewrite Hptr, decide_True by done. cbn [andb].
    rewrite Hp, Hf in Hact. by rewrite Hact.
  - rewrite getActivePointer_save. intros Hact p' f'. rewrite Hptr, <-Ht. cbn [andb]. case_decide as E; [|done].
    destruct E as [<- <-]. by rewrite Hact.
  - intros _ p' f'. rewrite Hptr, Ht. by case_decide.
Qed.

Lemma toy_hex (l : list Z) :
  length (encodeHex l) = (2 * length l)%nat ∧ forallb is_hex_lower (encodeHex l) = true.
Proof.
  cbn [encodeHex toy_hashing]. induction l as [|b l [IH1 IH2]]; [done|]. cbn. rewrite IH1, IH2.
  assert (is_hex_lower (48 + b mod 10) = true) as ->; [|split; [lia|done]].
  unfold is_hex_lower, is_digit. pose proof (Z.mod_pos_bound b 10).
  apply orb_true_iff. left. apply andb_true_iff. rewrite !Z.leb_le. lia.
Qed.

#[local] Instance toy_hashing_laws : HashingLaws.
Proof.
  split; intros data; [|apply toy_hex]. rewrite (proj1 (toy_hex _)). cbn [sha256 toy_hashing].
  rewrite length_take, length_app, length_replicate. lia.
Qed.

(** A storage that remembers what was put. *)
Theorem deploy_packaged_witness :
  ∃ s' res, deploy (λ k d, λ o, (o ++ [(k, d)], Ok tt)) 0 (js "shop") (js "web") some_artifact
      NoHealthCheck 5 [] (new_service None) [] =
    Some (s', [(js "artifacts/" ++ computeArtifactId some_code, [1; 2; 3])], Ok res) ∧
    dr_state res = Deployed ∧ dr_active res = true.
Proof.
  destruct (deploy_packaged (λ k d, λ o, (o ++ [(k, d)], Ok tt)) 0 (js "main.ts") some_code no_options
    some_artifact (js "shop") (js "web") NoHealthCheck 5 [] (new_service None) []
    [(js "artifacts/" ++ computeArtifactId some_code, [1; 2; 3])] true) as (s' & res & rev & E & Hst & _);
    [reflexivity|unfold view_wf; cbn; lia|reflexivity|reflexivity|].
  exists s', res. split; [exact E|]. split; [exact Hst|].
  vm_compute in E. injection E as _ <-. reflexivity.
Defined.

(** ** Persistence *)

(** Tables as the service builds them: no duplicate keys, and every record under
    its own identifier. *)
Definition revs_wf (m : jsmap jstr RevisionRecord) : Prop :=
  map_wf m ∧ Forall (λ e, r_id e.2 = e.1) m.
Record tables_wf (t : tables) : Prop := {
  twf_revisions : map_wf (revisions t) ∧
    Forall (λ e, map_wf e.2 ∧ Forall (λ e, revs_wf e.2) e.2) (revisions t);
  twf_pointers : map_wf (activePointers t) ∧ Forall (λ e, map_wf e.2) (activePointers t);
  twf_routes : map_wf (projectRoutes t);
  twf_metadata : map_wf (projectMetadata t)
}.

(** Loading a section of entries from the empty map *)
Lemma load_fold {V W} (load : jsmap jstr W → jstr * V → jsmap jstr W) (f : V → W) (l : list (jstr * V)) :
  (∀ m e, load m e = map_set m e.1 (f e.2)) →
  fold_left load l [] = map_of_entries (on_values f l).
Proof.
  intros Hf. unfold map_of_entries. generalize (@nil (jstr * W)).
  induction l as [|e l IH]; intros m; [done|]. cbn. by rewrite IH, Hf.
Qed.

Lemma on_values_id {V} (f : V → V) (m : jsmap jstr V) : Forall (λ e, f e.2 = e.2) m → on_values f m = m.
Proof.
  unfold on_values. induction 1 as [|[k v] m Hv _ IH]; [done|]. cbn [fst snd] in Hv.
  rewrite fmap_cons, IH. cbn [fst snd]. by rewrite Hv.
Qed.

Lemma on_values_keys {V W} (f : V → W) (m : jsmap jstr V) : map_keys (on_values f m) = map_keys m.
Proof. unfold map_keys, on_values. by rewrite <-list_fmap_compose. Qed.

Lemma on_values_compose {U V W} (f : U → V) (g : V → W) (m : jsmap jstr U) :
  on_values g (on_values f m) = on_values (λ v, g (f v)) m.
Proof. unfold on_values. by rewrite <-list_fmap_compose. Qed.

Lemma rebuild {V} (f : V → V) (m : jsmap jstr V) :
  map_wf m → Forall (λ e, f e.2 = e.2) m → map_of_entries (on_values f m) = m.
Proof. intros Hwf Hf. rewrite on_values_id by done. by apply map_of_entries_wf. Qed.

Lemma revs_rebuild (m : jsmap jstr RevisionRecord) :
  revs_wf m → map_of_entries ((λ r, (r_id r, r)) <$> map_values m) = m.
Proof.
  intros [Hwf Hid]. replace ((λ r, (r_id r, r)) <$> map_values m) with m; [by apply map_of_entries_wf|].
  unfold map_values. rewrite <-list_fmap_compose. symmetry. clear Hwf.
  induction Hid as [|[i r] m Hi _ IH]; [done|]. cbn [fst snd] in Hi.
  rewrite fmap_cons, IH. cbn. by rewrite Hi.
Qed.

Lemma hydrate_snapshot t : tables_wf t → hydrate (file_of_snapshot (take_snapshot t)) = t.
Proof.
  intros [[Hr Hrs] [Hp Hps] Hrt Hm]. unfold hydrate, file_of_snapshot, take_snapshot.
  cbn [s_revisions s_activePointers s_projectRoutes s_projectMetadata load_section].
  rewrite (load_fold load_revisions (λ l, map_of_entries
    (on_values (λ records, map_of_entries ((λ r, (r_id r, r)) <$> records)) l))) by done.
  rewrite (load_fold load_pointers map_of_entries), !(load_fold load_plain id) by done.
  rewrite on_values_compose, rebuild; [|done|].
  - rewrite rebuild; [|done|by eapply Forall_impl; [exact Hps|]; intros e; apply map_of_entries_wf].
    rewrite !rebuild by (done || by apply Forall_true). by destruct t.
  - eapply Forall_impl; [exact Hrs|]. intros [p m] [Hwf Hin]. cbn [fst snd] in *. rewrite on_values_compose.
    apply rebuild; [done|]. eapply Forall_impl; [exact Hin|]. intros [f rm]. apply revs_rebuild.
Qed.

Lemma get_or_new_prop {V} (Q : jsmap jstr V → Prop) (m : jsmap jstr (jsmap jstr V)) k :
  Forall (λ e, Q e.2) m → Q [] → Q (get_or_new m k).
Proof.
  intros Hm Hnil. unfold get_or_new. destruct (map_get m k) as [v|] eqn:E; [|done].
  apply map_get_elem in E. by apply (proj1 (Forall_forall _ _) Hm (k, v)).
Qed.

Lemma nested_set_wf {V} (Q : jstr * V → Prop) (m : jsmap jstr (jsmap jstr V)) p f v :
  map_wf m ∧ Forall (λ e, map_wf e.2 ∧ Forall Q e.2) m → Q (f, v) →
  map_wf (map_set m p (map_set (get_or_new m p) f v)) ∧
  Forall (λ e, map_wf e.2 ∧ Forall Q e.2) (map_set m p (map_set (get_or_new m p) f v)).
Proof.
  intros [Hwf Hin] Hv. split; [by apply map_set_wf|]. apply Forall_map_set; [done|]. cbn.
  destruct (get_or_new_prop (λ m, map_wf m ∧ Forall Q m) m p Hin) as [Hw Hf]; [split; constructor|].
  split; [by apply map_set_wf|by apply Forall_map_set].
Qed.

Lemma save_tables_wf p f r t : tables_wf t → tables_wf (saveRevisionRecord p f r t).
Proof.
  intros [Hr Hp Hrt Hm]. split; try done. cbn.
  apply (nested_set_wf (λ e, revs_wf e.2)); [done|]. cbn.
  assert (map_wf (get_or_new (revisions t) p) ∧ Forall (λ e, revs_wf e.2) (get_or_new (revisions t) p)) as [_ Hfm].
  { apply (get_or_new_prop (λ m, map_wf m ∧ Forall (λ e, revs_wf e.2) m)); [apply Hr|split; constructor]. }
  assert (revs_wf (get_or_new (get_or_new (revisions t) p) f)) as [Hw Hf].
  { apply (get_or_new_prop revs_wf); [done|split; constructor]. }
  split; [by apply map_set_wf|by apply Forall_map_set].
Qed.

Lemma point_tables_wf p f c t : tables_wf t → tables_wf (setActivePointer p f c t).
Proof.
  intros [Hr [Hp Hps] Hrt Hm]. split; try done. cbn.
  destruct (nested_set_wf (λ _, True) (activePointers t) p f c) as [Hw Hf]; [|done|].
  - split; [done|]. eapply Forall_impl; [exact Hps|]. intros e He. split; [done|by apply Forall_true].
  - split; [done|]. eapply Forall_impl; [exact Hf|]. by intros e [? _].
Qed.

Lemma delete_tables_wf p t : tables_wf t → tables_wf (delete_tables p t).
Proof.
  intros [[Hr Hrs] [Hp Hps] Hrt Hm].
  split; cbn; [split| split| |]; try (by apply map_delete_wf); by apply Forall_filter_iff.
Qed.

Lemma finish_tables_wf r healthy t : tables_wf t → tables_wf (finish_tables r healthy t).
Proof.
  intros Ht. unfold finish_tables. destruct healthy; [destruct (not_superseded _ _)|];
    repeat (apply point_tables_wf || apply save_tables_wf); done.
Qed.

Lemma restore_tables_wf p f r isActive t : tables_wf t → tables_wf (restore_tables p f r isActive t).
Proof.
  intros Ht. unfold restore_tables. destruct isActive, (getRevision _ _ _ _);
    repeat (apply point_tables_wf || apply save_tables_wf); done.
Qed.

(** *** The snapshot file follows the tables *)

(** A method that changes the tables schedules a write. *)
Definition scheduled (s s' : DeploymentService) : Prop :=
  hasPersistencePath s' = hasPersistencePath s ∧
  ((tbl s' = tbl s ∧ persistQueued s' = persistQueued s ∧ chain s' = chain s) ∨
   (persistQueued s' = true ∧ (0 < chain s')%nat)).

Lemma schedulePersist_scheduled f s :
  hasPersistencePath s = true → scheduled s (schedulePersist (on_tables f s)).
Proof. unfold schedulePersist, scheduled. intros H. cbn. rewrite H. cbn. split; [done|right; lia]. Qed.

Lemma scheduled_refl s : scheduled s s.
Proof. split; [done|by left]. Qed.

(** Write failures, and restores that do not activate, are excluded. *)
Definition persist_event (w : world) (e : event) : Prop :=
  match e with
  | EPersistEnd ok => ok = true
  | ERestore _ _ _ isActive => isActive = true
  | _ => True
  end.

Definition plain_event (e : event) : Prop :=
  match e with EPersistStart | EPersistEnd _ => False | _ => True end.

Lemma exec_scheduled `{Hashing} w e :
  hasPersistencePath (svc w) = true → persist_event w e → plain_event e →
  scheduled (svc w) (svc (exec w e)) ∧ writing (exec w e) = writing w ∧ disk (exec w e) = disk w.
Proof.
  intros Hp He Hpl.
  destruct e as [p f a now bytes|i healthy|i|p f c|p f r act|p rs|p m|p| |ok]; cbn [exec] in *; try done.
  - unfold deploy_begin, st_bind, st_lift. destruct (throw_if _ _); [|split; [apply scheduled_refl|done]].
    destruct (throw_if _ _); [|split; [apply scheduled_refl|done]]. wcbn. split; [|done]. split; [done|by left].
  - destruct (inflight w !! i) as [r|]; [|split; [apply scheduled_refl|done]]. wcbn. split; [|done].
    unfold deploy_finish. destruct healthy; [destruct (not_superseded _ _)|]; cbn [fst].
    + by apply (schedulePersist_scheduled (λ t, setActivePointer (r_project r) (r_functionName r) (r_id r)
        (saveRevisionRecord (r_project r) (r_functionName r) (with_state Deployed (with_state Ready r)) t))).
    + by apply schedulePersist_scheduled.
    + by apply schedulePersist_scheduled.
  - split; [apply scheduled_refl|done].
  - wcbn. split; [|done]. unfold rollback. destruct (getRevision _ _ _ _); [|apply scheduled_refl].
    destruct (decide _); [apply scheduled_refl|]. by apply schedulePersist_scheduled.
  - wcbn. split; [|done]. cbn in He. subst act. unfold restoreRevision.
    destruct (getRevision _ _ _ _); [destruct (jstr_eqb _ _)|]; cbn [fst].
    + by apply schedulePersist_scheduled.
    + apply scheduled_refl.
    + by apply (schedulePersist_scheduled (λ t, setActivePointer p f (r_id r) (saveRevisionRecord p f (relocate p f r) t))).
  - wcbn. split; [|done]. by apply schedulePersist_scheduled.
  - wcbn. split; [|done]. by apply schedulePersist_scheduled.
  - wcbn. split; [|done]. unfold deleteProject. cbn [fst].
    destruct (_ || _ || _ || _) eqn:E; [by apply schedulePersist_scheduled|].
    split; [done|left]. split; [|done]. cbn. unfold map_has in E. zbool.
    repeat match goal with H : match map_get ?m p with _ => _ end = false |- _ =>
      destruct (map_get m p) eqn:?; [done|clear H] end.
    rewrite !map_delete_None by done. by destruct (tbl (svc w)).
Qed.

Lemma exec_tables_wf `{Hashing} w e : tables_wf (tbl (svc w)) → tables_wf (tbl (svc (exec w e))).
Proof.
  intros Ht. destruct e as [p f a now bytes|i healthy|i|p f c|p f r act|p rs|p m|p| |ok]; cbn [exec].
  - destruct (deploy_begin_effect p f a now bytes (svc w)) as [[e ->]|(s' & r' & ts & -> & Hs & _)]; [done|].
    wcbn. by rewrite Hs.
  - destruct (inflight w !! i) as [r|]; [|done]. wcbn.
    destruct (deploy_finish_tables (with_state Ready r) healthy (svc w)) as [-> _]. by apply finish_tables_wf.
  - done.
  - wcbn. destruct (rollback_effect p f c (svc w)) as [_ [->|(r & _ & _ & ->)]]; [done|by apply point_tables_wf].
  - wcbn. destruct (restore_effect p f r act (svc w)) as [_ [->| ->]]; [done|by apply restore_tables_wf].
  - wcbn. unfold setProjectRoutes. rewrite tbl_schedulePersist. destruct Ht; split; cbn; auto with railfog.
  - wcbn. unfold setProjectMetadata. rewrite tbl_schedulePersist. destruct Ht; split; cbn; auto with railfog.
  - wcbn. destruct (deleteProject_tables p (svc w)) as [-> _]. by apply delete_tables_wf.
  - unfold persist_start. by destruct (writing w), (chain (svc w)).
  - unfold persist_end. by destruct (writing w).
Qed.

(** What [#hydrate] would load from the file now *)
Definition file_now (w : world) : state_file :=
  match disk w with Some snap => file_of_snapshot snap | None => NotFound end.

Record synced (w : world) : Prop := {
  sync_path : hasPersistencePath (svc w) = true;
  sync_wf : tables_wf (tbl (svc w));
  sync_chain : persistQueued (svc w) = true → (0 < chain (svc w))%nat;
  sync_file : persistQueued (svc w) = false →
    match writing w with
    | Some snap => snap = take_snapshot (tbl (svc w))
    | None => hydrate (file_now w) = tbl (svc w)
    end
}.

Lemma exec_synced `{Hashing} w e : synced w → persist_event w e → synced (exec w e).
Proof.
  intros [Hp Hwf Hc Hf] He.
  assert (plain_event e → synced (exec w e)) as Hplain.
  { intros Hpl. destruct (exec_scheduled w e Hp He Hpl) as [[Hp' Hs] [Hw Hd]].
    split; [by rewrite Hp'|by apply exec_tables_wf| |];
      (destruct Hs as [(Ht & Hq & Hch)|[Hq Hch]]; [rewrite Hq|rewrite Hq; done]).
    - by rewrite Hch.
    - unfold file_now in *. by rewrite Hw, Hd, Ht. }
  destruct e as [| | | | | | | | |ok]; try by apply Hplain.
  - cbn [exec]. unfold persist_start. destruct (writing w) as [snap|] eqn:Ew; [by split; rewrite ?Ew|].
    destruct (chain (svc w)) as [|n] eqn:Ec; [by split; rewrite ?Ec, ?Ew|].
    split; cbn; try done. intros _. destruct (persistQueued (svc w)) eqn:Eq; [done|]. by apply Hf.
  - cbn in He. subst ok. cbn [exec]. unfold persist_end.
    destruct (writing w) as [snap|] eqn:Ew; [|by split; rewrite ?Ew].
    split; cbn; try done. intros Hq. rewrite (Hf Hq). by apply hydrate_snapshot.
Qed.

(** Durability: whatever methods ran and however their writes were queued,
    coalesced and interleaved with further calls, once the persistence queue has
    drained (and no write failed) a restart from the state file finds exactly the
    current revisions, pointers, routes and metadata. *)
Theorem persistence_durable `{Hashing} w :
  run persist_event (initial (Some NotFound)) w →
  chain (svc w) = 0%nat → writing w = None →
  tbl (new_service (Some (file_now w))) = tbl (svc w).
Proof.
  intros Hrun Hc Hw. assert (synced w) as [_ _ Hch Hf].
  { revert Hrun. apply run_invariant with (I := synced); [intros; by apply exec_synced|].
    split; try done. split; try (split; constructor); constructor. }
  rewrite Hw in Hf. cbn. apply Hf. destruct (persistQueued (svc w)); [|done]. specialize (Hch eq_refl). lia.
Qed.

(** The overlapping deployments; the first callback writes while the second
    deployment finishes. *)
Theorem persistence_durable_witness :
  let w := fold_left exec
    [EBegin (js "shop") (js "web") some_artifact 5 []; EBegin (js "shop") (js "web") some_artifact 5 [];
     EFinish 1 true; EPersistStart; EFinish 0 true; EPersistEnd true; EPersistStart; EPersistEnd true]
    (initial (Some NotFound)) in
  tbl (new_service (Some (file_now w))) = tbl (svc w) ∧
  length (listRevisions (tbl (svc w)) (js "shop") (js "web")) = 2%nat.
Proof.
  cbv zeta. split; [|vm_compute; reflexivity]. apply persistence_durable; [|vm_compute; reflexivity..].
  apply run_events; [constructor|]. vm_compute. split_and!; done.
Defined.

(** A restore that does not activate is not written. *)
Lemma restore_inactive_not_persisted p f r s :
  persistQueued (restoreRevision p f r false s).1 = persistQueued s ∧
  chain (restoreRevision p f r false s).1 = chain s.
Proof. unfold restoreRevision. destruct (getRevision _ _ _ _); [by destruct (jstr_eqb _ _)|done]. Qed.

(** A state file whose revisions load but whose pointers cannot be iterated
    leaves the revisions in place: the service does not start empty. *)
Lemma hydrate_keeps_partial_state r project rest :
  map_keys (revisions (hydrate (Parsed (Entries ((project, r) :: rest)) NotIterable Absent Absent))) ≠ [].
Proof.
  assert (∀ m, map_keys m ≠ [] → map_keys (fold_left load_revisions rest m) ≠ []) as Hl.
  { induction rest as [|e rest IH]; intros m Hm; [done|]. cbn [fold_left]. apply IH. unfold load_revisions.
    rewrite map_keys_set. case_decide; [done|]. by destruct (map_keys m). }
  apply (Hl (load_revisions [] (project, r))). done.
Qed.
