(* ===== verification/Router.v ===== *)
(** * Route matching ([runtime/router/route-matcher.ts], PLAT-11)

    [URLPattern] is the platform's: its constructor (which may throw) and its
    [test] against the origin [http://railfog.internal] are parameters.  The
    module-level cache of compiled patterns is the state. *)

From S2P Require Import Prelude JsString JsMap Errors.

Open Scope Z_scope.
Open Scope railfog_scope.

Record RouteConfig := { route_pattern : jstr; route_function : jstr }.

Definition LITERAL_SEGMENT_WEIGHT : Z := 2.
Definition WILDCARD_OR_NAMED_SEGMENT_WEIGHT : Z := 1.
Definition MAX_PATTERN_CACHE_SIZE : nat := 1000.

Definition isWildcardOrNamedSegment (segment : jstr) : bool :=
  includes segment (js "*") || includes segment (js ":") ||
  includes segment (js "(") || includes segment (js "{").

Definition segments_of (pattern : jstr) : list jstr :=
  filter (λ segment, segment ≠ []) (split_on (chr "/") pattern).

Definition specificityScore (pattern : jstr) : Z :=
  fold_left (λ score segment,
    if isWildcardOrNamedSegment segment then score + WILDCARD_OR_NAMED_SEGMENT_WEIGHT
    else score + LITERAL_SEGMENT_WEIGHT) (segments_of pattern) 0.

Definition normalizedPattern (route : RouteConfig) : jstr :=
  if starts_with (route_pattern route) (js "/") then route_pattern route
  else js "/" ++ route_pattern route.

Section router.
Context {P : Type} (new_URLPattern : jstr → result exn P) (test : P → jstr → bool).

Definition cache := jsmap jstr P.

Definition getCompiledPattern (pat : jstr) : stm cache exn P := λ c,
  match map_get c pat with
  | Some p => (c, Ok p)
  | None =>
      let c := if (MAX_PATTERN_CACHE_SIZE <=? length c)%nat then [] else c in
      match new_URLPattern pat with
      | Err e => (c, Err e)
      | Ok p => (map_set c pat p, Ok p)
      end
  end.

(** The loop over the routes, with [winningRoute] and [highestScore] *)
Fixpoint match_loop (routes : list RouteConfig) (path : jstr) (winningRoute : option RouteConfig)
    (highestScore : Z) : stm cache exn (option RouteConfig) :=
  match routes with
  | [] => st_ret winningRoute
  | route :: routes =>
      urlPattern <~ getCompiledPattern (normalizedPattern route) ;;
      let score := specificityScore (route_pattern route) in
      if test urlPattern path && (highestScore <? score)
      then match_loop routes path (Some route) score
      else match_loop routes path winningRoute highestScore
  end.

Definition matchRoute (routes : list RouteConfig) (path : jstr) : stm cache exn (option RouteConfig) :=
  match_loop routes path None (-1).

(** ** Correctness *)

Definition matches (path : jstr) (route : RouteConfig) : Prop :=
  ∃ p, new_URLPattern (normalizedPattern route) = Ok p ∧ test p path = true.
Definition score (route : RouteConfig) : Z := specificityScore (route_pattern route).

(** The cache holds compiled patterns under their own text, and is bounded. *)
Definition cache_ok (c : cache) : Prop :=
  (∀ k p, map_get c k = Some p → new_URLPattern k = Ok p) ∧ (length c <= MAX_PATTERN_CACHE_SIZE)%nat.

Lemma specificityScore_nonneg pattern : 0 <= specificityScore pattern.
Proof.
  unfold specificityScore.
  match goal with |- 0 <= fold_left ?f _ 0 =>
    assert (∀ (l : list jstr) z, 0 <= z → 0 <= fold_left f l z) as H; [|by apply H] end.
  induction l as [|s l IH]; intros z Hz; [done|]. cbn [fold_left].
  apply IH. unfold WILDCARD_OR_NAMED_SEGMENT_WEIGHT, LITERAL_SEGMENT_WEIGHT.
  destruct (isWildcardOrNamedSegment s); lia.
Qed.

Lemma length_map_set (c : cache) k p : map_get c k = None → length (map_set c k p) = S (length c).
Proof.
  induction c as [|[k' p'] c IH]; [done|]. cbn. case_decide; [done|]. intros Hc. cbn. by rewrite IH.
Qed.

Lemma getCompiledPattern_spec pat c :
  cache_ok c → cache_ok (getCompiledPattern pat c).1 ∧
  (getCompiledPattern pat c).2 = new_URLPattern pat.
Proof.
  intros [Hc Hl]. unfold getCompiledPattern. destruct (map_get c pat) as [p|] eqn:E.
  { by rewrite (Hc _ _ E). }
  assert (∃ c', (if (MAX_PATTERN_CACHE_SIZE <=? length c)%nat then [] else c) = c' ∧
    (∀ k p, map_get c' k = Some p → new_URLPattern k = Ok p) ∧ map_get c' pat = None ∧
    (length c' < MAX_PATTERN_CACHE_SIZE)%nat) as (c' & -> & Hc' & Hn & Hl').
  { eexists. split; [reflexivity|]. destruct (Nat.leb_spec MAX_PATTERN_CACHE_SIZE (length c)).
    - split_and!; [done|done|]. cbn. unfold MAX_PATTERN_CACHE_SIZE. lia.
    - done. }
  destruct (new_URLPattern pat) as [p|e] eqn:En; cbn; (split; [|done]).
  - split; [|rewrite length_map_set by done; lia]. intros k q. rewrite map_get_set.
    case_decide; [|by apply Hc']. intros [= <-]. by subst.
  - split; [done|lia].
Qed.

(** The best route so far is [w], with score [h], among [pre]. *)
Definition best (path : jstr) (pre : list RouteConfig) (w : option RouteConfig) (h : Z) : Prop :=
  match w with
  | None => h = -1 ∧ ∀ r, r ∈ pre → ¬ matches path r
  | Some w => h = score w ∧ ∃ before after, pre = before ++ w :: after ∧ matches path w ∧
      (∀ r, r ∈ before → matches path r → score r < score w) ∧
      (∀ r, r ∈ after → matches path r → score r <= score w)
  end.

Lemma best_skip path pre w h route :
  best path pre w h → (matches path route → score route <= h) → best path (pre ++ [route]) w h.
Proof.
  intros Hb Hr. pose proof (specificityScore_nonneg (route_pattern route)) as Hs. destruct w as [w|]; cbn in *.
  - destruct Hb as [-> (before & after & -> & Hm & H1 & H2)]. split; [done|].
    exists before, (after ++ [route]). rewrite <-app_assoc. split_and!; [done..|].
    intros r [Hin| ->%list_elem_of_singleton]%elem_of_app; [by apply H2|done].
  - destruct Hb as [-> Hn]. split; [done|].
    intros r [Hin| ->%list_elem_of_singleton]%elem_of_app Hm; [by eapply Hn|].
    specialize (Hr Hm). unfold score in Hr. lia.
Qed.

Lemma best_take path pre w h route :
  best path pre w h → matches path route → h < score route →
  best path (pre ++ [route]) (Some route) (score route).
Proof.
  intros Hb Hm Hlt. split; [done|]. exists pre, []. split_and!; [done|done| |intros r Hr; by apply elem_of_nil in Hr].
  intros r Hr Hmr. destruct w as [w|]; cbn in Hb.
  - destruct Hb as [-> (before & after & -> & _ & H1 & H2)].
    apply elem_of_app in Hr as [Hr|[->|Hr]%elem_of_cons]; [specialize (H1 r Hr Hmr)| |specialize (H2 r Hr Hmr)]; lia.
  - destruct Hb as [_ Hn]. exfalso. by eapply Hn.
Qed.

Lemma match_loop_spec path routes : ∀ pre w h c,
  cache_ok c → best path pre w h →
  cache_ok (match_loop routes path w h c).1 ∧
  match (match_loop routes path w h c).2 with
  | Ok w' => ∃ h', best path (pre ++ routes) w' h'
  | Err e => ∃ route, route ∈ routes ∧ new_URLPattern (normalizedPattern route) = Err e
  end.
Proof.
  induction routes as [|route routes IH]; intros pre w h c Hc Hb.
  { cbn. split; [done|]. exists h. by rewrite app_nil_r. }
  cbn [match_loop]. unfold st_bind.
  destruct (getCompiledPattern_spec (normalizedPattern route) c Hc) as [Hc' Hr].
  destruct (getCompiledPattern (normalizedPattern route) c) as [c' r]. cbn [fst snd] in *. subst r.
  destruct (new_URLPattern (normalizedPattern route)) as [p|e] eqn:En.
  2:{ split; [done|]. exists route. split; [left|done]. }
  assert (∀ w' h', best path (pre ++ [route]) w' h' →
    cache_ok (match_loop routes path w' h' c').1 ∧
    match (match_loop routes path w' h' c').2 with
    | Ok w' => ∃ h', best path (pre ++ route :: routes) w' h'
    | Err e => ∃ route', route' ∈ route :: routes ∧ new_URLPattern (normalizedPattern route') = Err e
    end) as Hnext.
  { intros w' h' Hb'. destruct (IH (pre ++ [route]) w' h' c' Hc' Hb') as [H1 H2]. split; [done|].
    destruct (match_loop routes path w' h' c').2.
    - by rewrite <-app_assoc in H2.
    - destruct H2 as (r & ? & ?). exists r. split; [by right|done]. }
  destruct (test p path && (h <? specificityScore (route_pattern route))) eqn:Et; apply Hnext.
  - apply andb_true_iff in Et as [Ht Hh%Z.ltb_lt]. eapply best_take; [done|by exists p|done].
  - eapply best_skip; [done|]. intros (p' & Hp' & Ht). assert (p' = p) as -> by congruence.
    rewrite Ht in Et. by apply Z.ltb_ge in Et.
Qed.

(** Routing is deterministic and independent of the pattern cache (PLAT-11):
    [matchRoute] returns the first declared route of the highest specificity
    among those that match, and [null] exactly when none matches; it throws only
    the error of an invalid pattern; and the cache stays correct and within 1000
    entries. *)
Theorem matchRoute_spec routes path c :
  cache_ok c →
  cache_ok (matchRoute routes path c).1 ∧
  match (matchRoute routes path c).2 with
  | Ok None => ∀ r, r ∈ routes → ¬ matches path r
  | Ok (Some w) => ∃ before after, routes = before ++ w :: after ∧ matches path w ∧
      (∀ r, r ∈ before → matches path r → score r < score w) ∧
      (∀ r, r ∈ after → matches path r → score r <= score w)
  | Err e => ∃ r, r ∈ routes ∧ new_URLPattern (normalizedPattern r) = Err e
  end.
Proof.
  intros Hc. destruct (match_loop_spec path routes [] None (-1) c Hc) as [Hc' H].
  { split; [done|]. intros r Hr. by apply elem_of_nil in Hr. }
  split; [exact Hc'|]. unfold matchRoute. destruct (match_loop routes path None (-1) c).2 as [[w|]|e]; [|by destruct H as (h & _ & H)|done].
  destruct H as (h & _ & H). exact H.
Qed.
End router.

(** A matcher for literal paths and a trailing [*]. *)
Definition star_pattern (p : jstr) (path : jstr) : bool :=
  if ends_with p (js "*") then starts_with path (take (length p - 1) p) else jstr_eqb p path.

Theorem matchRoute_spec_witness :
  let routes := [{| route_pattern := js "/api/*"; route_function := js "any" |};
                 {| route_pattern := js "api/users"; route_function := js "users" |}] in
  (matchRoute Ok star_pattern routes (js "/api/users") []).2 =
    Ok (Some {| route_pattern := js "api/users"; route_function := js "users" |}) ∧
  cache_ok Ok (matchRoute Ok star_pattern routes (js "/api/users") []).1.
Proof.
  cbv zeta. split; [vm_compute; reflexivity|]. apply matchRoute_spec. split; [done|]. cbn. unfold MAX_PATTERN_CACHE_SIZE. lia.
Defined.
