(* ===== verification/Cron.v ===== *)
(** * Cron schedules ([runtime/lifecycle/cron-matcher.ts], FN-2)

    [parseField] turns a field into the set of its values, [compileCron] an
    expression into a matcher.  The specification is the grammar of standard
    fields ([cron_part]) with its printer and its meaning. *)

From S2P Require Import Prelude JsString JsMap Errors.

Open Scope Z_scope.

(** [for (let v = start; v <= end; v += step) values.add(v)]: [fuel] bounds the
    number of turns. *)
Fixpoint add_range (fuel : nat) (v end_ step : Z) (values : list Z) : list Z :=
  match fuel with
  | O => values
  | S fuel => if v <=? end_ then add_range fuel (v + step) end_ step (set_add values v) else values
  end.

(** [const [a, b] = s.split(sep)] *)
Definition split_pair (sep : Z) (s : jstr) : jstr * option jstr :=
  match split_on sep s with
  | [] => ([], None)
  | [a] => (a, None)
  | a :: b :: _ => (a, Some b)
  end.

Definition parse_range (rangePart : jstr) (min max : Z) : result exn (Z * Z) :=
  if jstr_eqb rangePart (js "*") then Ok (min, max)
  else
    let '(startStr, endStr) := split_pair (chr "-") rangePart in
    match parse_int10 startStr with
    | None => Err PlainError
    | Some start =>
        match endStr with
        | None => Ok (start, start)
        | Some endStr =>
            match parse_int10 endStr with None => Err PlainError | Some end_ => Ok (start, end_) end
        end
    end.

Definition parse_part (part : jstr) (min max : Z) (values : list Z) : result exn (list Z) :=
  let '(rangePart, stepPart) := split_pair (chr "/") (to_lower part) in
  let step := match stepPart with Some s => parse_int10 s | None => Some 1 end in
  match step with
  | None => Err PlainError
  | Some step =>
      throw_if (step <? 1) PlainError ≫= λ _,
      parse_range rangePart min max ≫= λ '(start, end_),
      throw_if ((start <? min) || (max <? end_) || (end_ <? start)) PlainError ≫= λ _,
      Ok (add_range (Z.to_nat (end_ - start + 1)) start end_ step values)
  end.

Fixpoint parse_parts (parts : list jstr) (min max : Z) (values : list Z) : result exn (list Z) :=
  match parts with
  | [] => Ok values
  | part :: parts => parse_part part min max values ≫= λ values, parse_parts parts min max values
  end.

Definition parseField (field : jstr) (min max : Z) : result exn (list Z) :=
  parse_parts (split_on (chr ",") field) min max [].

(** The local-time fields of a [Date] the matcher reads *)
Record Date := {
  getMinutes : Z; getHours : Z; getDate : Z; getMonth : Z; getDay : Z
}.

Record CronExpression := {
  minutes : list Z; hours : list Z; daysOfMonth : list Z; months : list Z; daysOfWeek : list Z;
  domRestricted : bool; dowRestricted : bool
}.

(** [s.split(/\s+/)] for a string without outer white space *)
Fixpoint words (s cur : jstr) : list jstr :=
  match s with
  | [] => match cur with [] => [] | _ => [cur] end
  | c :: s =>
      if is_space c then match cur with [] => words s [] | _ => cur :: words s [] end
      else words s (cur ++ [c])
  end.
Definition split_spaces (s : jstr) : list jstr := match words s [] with [] => [[]] | ws => ws end.

Definition compileCron (expression : jstr) : result exn CronExpression :=
  match split_spaces (trim expression) with
  | [f0; f1; f2; f3; f4] =>
      parseField f0 0 59 ≫= λ minutes,
      parseField f1 0 23 ≫= λ hours,
      parseField f2 1 31 ≫= λ daysOfMonth,
      parseField f3 1 12 ≫= λ months,
      parseField f4 0 6 ≫= λ daysOfWeek,
      Ok {| minutes := minutes; hours := hours; daysOfMonth := daysOfMonth; months := months;
            daysOfWeek := daysOfWeek;
            domRestricted := negb (jstr_eqb f2 (js "*"));
            dowRestricted := negb (jstr_eqb f4 (js "*")) |}
  | _ => Err PlainError
  end.

Definition has (values : list Z) (v : Z) : bool := bool_decide (v ∈ values).

Definition matches (c : CronExpression) (date : Date) : bool :=
  if negb (has (minutes c) (getMinutes date)) then false
  else if negb (has (hours c) (getHours date)) then false
  else if negb (has (months c) (getMonth date + 1)) then false
  else
    let domMatch := has (daysOfMonth c) (getDate date) in
    let dowMatch := has (daysOfWeek c) (getDay date) in
    if domRestricted c && dowRestricted c then domMatch || dowMatch
    else if domRestricted c then domMatch
    else if dowRestricted c then dowMatch
    else true.

(** ** The standard grammar *)

(** ["*"] or ["*/n"]; ["a"], ["a-b"], ["a/n"] or ["a-b/n"] *)
Inductive cron_part :=
| Every (step : option Z)
| Range (lo : Z) (hi : option Z) (step : option Z).

Definition print_step (step : option Z) : jstr :=
  match step with None => [] | Some n => js "/" ++ string_of_nat n end.
Definition print_part (p : cron_part) : jstr :=
  match p with
  | Every step => js "*" ++ print_step step
  | Range lo hi step =>
      string_of_nat lo ++ match hi with None => [] | Some hi => js "-" ++ string_of_nat hi end ++
      print_step step
  end.
Definition print_field (ps : list cron_part) : jstr := str_join (js ",") (print_part <$> ps).

Definition step_of (step : option Z) : Z := default 1 step.
Definition valid_part (min max : Z) (p : cron_part) : Prop :=
  match p with
  | Every step => 1 <= step_of step
  | Range lo hi step => min <= lo ∧ lo <= default lo hi ∧ default lo hi <= max ∧ 1 <= step_of step
  end.
Definition denotes (min max : Z) (p : cron_part) (v : Z) : Prop :=
  match p with
  | Every step => min <= v <= max ∧ (v - min) mod step_of step = 0
  | Range lo hi step => lo <= v <= default lo hi ∧ (v - lo) mod step_of step = 0
  end.

(** ** Ranges *)

Lemma add_range_spec fuel v end_ step values x :
  1 <= step → end_ - v < Z.of_nat fuel →
  x ∈ add_range fuel v end_ step values ↔
  x ∈ values ∨ v <= x <= end_ ∧ (x - v) mod step = 0.
Proof.
  intros Hs. revert v values. induction fuel as [|fuel IH]; intros v values Hf; cbn [add_range].
  - split; [by left|]. intros [?|[? _]]; [done|lia].
  - destruct (Z.leb_spec v end_) as [Hv|Hv].
    + rewrite IH by lia. rewrite elem_set_add. split.
      * intros [[?| ->]|[Hx Hm]]; [by left|right|right].
        -- split; [lia|]. by rewrite Z.sub_diag, Z.mod_0_l by lia.
        -- split; [lia|]. replace (x - v) with (x - (v + step) + 1 * step) by lia.
           by rewrite Z.mod_add by lia.
      * intros [?|[Hx Hm]]; [by left; left|]. destruct (Z.eq_dec x v) as [->|Hne]; [by left; right|].
        right. replace (x - v) with (x - (v + step) + 1 * step) in Hm by lia.
        rewrite Z.mod_add in Hm by lia. split; [|done].
        apply Z.mod_divide in Hm as [k Hk]; [|lia]. assert (-1 < k) by nia. nia.
    + split; [by left|]. intros [?|[? _]]; [done|lia].
Qed.

(** ** Parsing what the grammar prints *)

Definition plain_chars (s : jstr) : Prop := Forall (λ c, is_digit c = true ∨ c = chr "-" ∨ c = chr "*" ∨ c = chr "/") s.

Lemma digits_plain ds : forallb is_digit ds = true → plain_chars ds.
Proof. intros H. apply Forall_forall. intros c Hc. left. by eapply forallb_true_iff in H. Qed.

Lemma digits_avoid ds c : forallb is_digit ds = true → is_digit c = false → c ∉ ds.
Proof. intros H Hc Hin. eapply forallb_true_iff in H; [|exact Hin]. congruence. Qed.

Lemma string_of_nat_digits n : 0 <= n → forallb is_digit (string_of_nat n) = true.
Proof. intros. by apply string_of_nat_spec. Qed.

Lemma string_of_nat_avoid n c : 0 <= n → is_digit c = false → c ∉ string_of_nat n.
Proof. intros Hn Hc. by apply digits_avoid; [apply string_of_nat_digits|]. Qed.

Lemma plain_to_lower s : plain_chars s → to_lower s = s.
Proof.
  induction 1 as [|c s Hc _ IH]; [done|]. change (to_lower (c :: s)) with (to_lower_unit c ++ to_lower s).
  rewrite IH. destruct Hc as [Hd|[->|[->| ->]]]; try done.
  pose proof (to_lower_digits [c]) as H. cbn in H. rewrite Hd in H. specialize (H eq_refl).
  rewrite app_nil_r in H. by rewrite H.
Qed.

Lemma plain_avoid s c : plain_chars s → is_digit c = false → c ≠ chr "-" → c ≠ chr "*" → c ≠ chr "/" → c ∉ s.
Proof.
  intros Hs ???? Hin. eapply Forall_forall in Hs; [|exact Hin]. destruct Hs as [?|[?|[?|?]]]; congruence.
Qed.

Lemma print_step_plain step : 1 <= step_of step → plain_chars (print_step step).
Proof.
  destruct step as [n|]; cbn; intros; [|constructor]. constructor; [auto|].
  apply digits_plain, string_of_nat_digits. lia.
Qed.

Lemma print_part_plain min max p : 0 <= min → valid_part min max p → plain_chars (print_part p).
Proof.
  intros Hmin. destruct p as [step|lo hi step]; cbn [valid_part print_part].
  - intros Hs. constructor; [auto|]. by apply print_step_plain.
  - intros (? & ? & ? & Hs). unfold plain_chars. rewrite !Forall_app.
    split_and!; [apply digits_plain, string_of_nat_digits; lia| |by apply print_step_plain].
    destruct hi as [hi|]; [|constructor]. constructor; [auto|]. cbn in *.
    apply digits_plain, string_of_nat_digits. lia.
Qed.

(** The range part and the step part come apart at the slash. *)
Lemma split_step range step :
  chr "/" ∉ range → 1 <= step_of step →
  split_pair (chr "/") (range ++ print_step step) = (range, string_of_nat <$> step).
Proof.
  intros Hr Hs. unfold split_pair. destruct step as [n|]; cbn in *.
  - rewrite split_on_app by done. rewrite split_on_none; [done|]. by apply string_of_nat_avoid; [lia|].
  - rewrite app_nil_r. by rewrite split_on_none.
Qed.

Lemma parse_range_print lo hi min max :
  0 <= lo → lo <= default lo hi →
  parse_range (string_of_nat lo ++ match hi with None => [] | Some hi => js "-" ++ string_of_nat hi end) min max
  = Ok (lo, default lo hi).
Proof.
  intros Hlo Hhi. unfold parse_range. destruct (string_of_nat_spec lo Hlo) as (Hne & Hd & _).
  rewrite (proj2 (jstr_eqb_neq _ _)).
  2:{ destruct (string_of_nat lo) as [|d ds]; [done|]. intros [= -> _]. by cbn in Hd. }
  unfold split_pair. destruct hi as [hi|]; cbn in *.
  - rewrite split_on_app by (by apply string_of_nat_avoid).
    rewrite split_on_none by (by apply string_of_nat_avoid; [lia|]).
    by rewrite !parse_int10_string_of_nat by lia.
  - rewrite app_nil_r, split_on_none by (by apply string_of_nat_avoid).
    by rewrite parse_int10_string_of_nat.
Qed.

Lemma parse_part_print min max p values :
  0 <= min → min <= max → valid_part min max p →
  ∃ values', parse_part (print_part p) min max values = Ok values' ∧
    ∀ x, x ∈ values' ↔ x ∈ values ∨ denotes min max p x.
Proof.
  intros Hmin Hmm Hv. unfold parse_part. rewrite (plain_to_lower _ (print_part_plain _ _ _ Hmin Hv)).
  assert (∀ start end_ step, 1 <= step_of step → min <= start <= end_ → end_ <= max →
    (match (match string_of_nat <$> step with Some s => parse_int10 s | None => Some 1 end) with
     | None => Err PlainError
     | Some st => throw_if (st <? 1) PlainError ≫= λ _, Ok (start, end_) ≫= λ '(start, end_),
         throw_if ((start <? min) || (max <? end_) || (end_ <? start)) PlainError ≫= λ _,
         Ok (add_range (Z.to_nat (end_ - start + 1)) start end_ st values)
     end) = Ok (add_range (Z.to_nat (end_ - start + 1)) start end_ (step_of step) values)) as Hrun.
  { intros start end_ step Hs Hse Hmx.
    assert (match string_of_nat <$> step with Some s => parse_int10 s | None => Some 1 end = Some (step_of step)) as ->.
    { destruct step as [n|]; cbn in *; [|done]. apply parse_int10_string_of_nat. lia. }
    rewrite (proj2 (Z.ltb_ge _ _)) by lia. cbn.
    rewrite (proj2 (Z.ltb_ge start _)), (proj2 (Z.ltb_ge max _)), (proj2 (Z.ltb_ge end_ _)) by lia. done. }
  destruct p as [step|lo hi step]; cbn [print_part valid_part denotes] in *.
  - rewrite split_step; [|set_solver|done]. eexists. split; [apply (Hrun min max); lia|].
    intros x. apply add_range_spec; lia.
  - destruct Hv as (? & ? & ? & ?). rewrite app_assoc.
    rewrite split_step; [|..|done].
    + rewrite parse_range_print by lia. eexists. split; [apply (Hrun lo (default lo hi)); lia|].
      intros x. apply add_range_spec; lia.
    + intros [Hin|Hin]%elem_of_app; [revert Hin; by apply string_of_nat_avoid; [lia|]|].
      destruct hi as [hi|]; [|by apply elem_of_nil in Hin]. cbn in *.
      apply elem_of_cons in Hin as [?|Hin]; [done|]. revert Hin. by apply string_of_nat_avoid; [lia|].
Qed.

Lemma parse_parts_print min max ps : ∀ values,
  0 <= min → min <= max → Forall (valid_part min max) ps →
  ∃ values', parse_parts (print_part <$> ps) min max values = Ok values' ∧
    ∀ x, x ∈ values' ↔ x ∈ values ∨ Exists (λ p, denotes min max p x) ps.
Proof.
  induction ps as [|p ps IH]; intros values Hmin Hmm Hps.
  { exists values. split; [done|]. intros x. rewrite Exists_nil. tauto. }
  apply Forall_cons in Hps as [Hp Hps].
  destruct (parse_part_print min max p values Hmin Hmm Hp) as (v1 & Hv1 & H1).
  destruct (IH v1 Hmin Hmm Hps) as (v2 & Hv2 & H2). exists v2. split.
  - rewrite fmap_cons. cbn [parse_parts]. by rewrite Hv1.
  - intros x. rewrite H2, H1, Exists_cons. tauto.
Qed.

Lemma parseField_print min max ps :
  0 <= min → min <= max → ps ≠ [] → Forall (valid_part min max) ps →
  ∃ values, parseField (print_field ps) min max = Ok values ∧
    ∀ x, has values x = true ↔ Exists (λ p, denotes min max p x) ps.
Proof.
  intros Hmin Hmm Hne Hps. unfold parseField, print_field.
  change (js ",") with [chr ","]. rewrite split_on_str_join.
  - destruct (parse_parts_print min max ps [] Hmin Hmm Hps) as (values & Hv & Hx).
    exists values. split; [done|]. intros x. unfold has. rewrite bool_decide_eq_true, Hx. set_solver.
  - by destruct ps.
  - rewrite Forall_fmap. eapply Forall_impl; [exact Hps|]. intros p Hp.
    apply (plain_avoid (print_part p)); try done. by eapply print_part_plain.
Qed.

(** ** Splitting the expression *)

Lemma words_field f rest cur :
  no_space f → cur ++ f ≠ [] → words (f ++ 32 :: rest) cur = (cur ++ f) :: words rest [].
Proof.
  revert cur. induction f as [|c f IH]; intros cur Hf Hne; cbn.
  - rewrite app_nil_r in *. by destruct cur.
  - apply Forall_cons in Hf as [-> Hf]. rewrite IH; [|done|].
    + by rewrite <-app_assoc.
    + rewrite <-app_assoc. by destruct cur.
Qed.

Lemma words_last f cur : no_space f → cur ++ f ≠ [] → words f cur = [cur ++ f].
Proof.
  revert cur. induction f as [|c f IH]; intros cur Hf Hne; cbn.
  - rewrite app_nil_r in *. by destruct cur.
  - apply Forall_cons in Hf as [-> Hf]. rewrite IH; [|done|].
    + by rewrite <-app_assoc.
    + rewrite <-app_assoc. by destruct cur.
Qed.

Lemma split_five f0 f1 f2 f3 f4 :
  Forall (λ f, no_space f ∧ f ≠ []) [f0; f1; f2; f3; f4] →
  split_spaces (trim (str_join (js " ") [f0; f1; f2; f3; f4])) = [f0; f1; f2; f3; f4].
Proof.
  rewrite !Forall_cons. intros ([??] & [??] & [??] & [??] & [??] & _).
  change (str_join (js " ") [f0; f1; f2; f3; f4]) with
    (f0 ++ 32 :: f1 ++ 32 :: f2 ++ 32 :: f3 ++ 32 :: f4).
  replace (f0 ++ 32 :: f1 ++ 32 :: f2 ++ 32 :: f3 ++ 32 :: f4) with
    (f0 ++ (32 :: f1 ++ 32 :: f2 ++ 32 :: f3 ++ [32]) ++ f4)
    by (cbn; do 3 (rewrite <-!app_assoc; cbn); by rewrite <-?app_assoc).
  rewrite trim_id by done.
  replace (f0 ++ (32 :: f1 ++ 32 :: f2 ++ 32 :: f3 ++ [32]) ++ f4) with
    (f0 ++ 32 :: f1 ++ 32 :: f2 ++ 32 :: f3 ++ 32 :: f4)
    by (cbn; do 3 (rewrite <-!app_assoc; cbn); by rewrite <-?app_assoc).
  unfold split_spaces. by rewrite !words_field, words_last by done.
Qed.

Lemma plain_no_space s : plain_chars s → no_space s.
Proof.
  intros Hs. eapply Forall_impl; [exact Hs|]. intros c [Hd|[->|[->| ->]]]; try done.
  by apply is_digit_not_space.
Qed.

Lemma print_part_not_nil min max p : 0 <= min → valid_part min max p → print_part p ≠ [].
Proof.
  destruct p as [step|lo hi step]; cbn; [done|]. intros Hmin Hv E.
  apply app_eq_nil in E as [E _]. revert E. apply string_of_nat_spec. lia.
Qed.

Lemma print_field_shape min max ps :
  0 <= min → ps ≠ [] → Forall (valid_part min max) ps →
  no_space (print_field ps) ∧ print_field ps ≠ [].
Proof.
  intros Hmin Hne Hps. unfold print_field. induction Hps as [|p ps Hp Hps IH]; [done|].
  pose proof (plain_no_space _ (print_part_plain min max p Hmin Hp)) as Hns.
  pose proof (print_part_not_nil min max p Hmin Hp) as Hn.
  destruct ps as [|q ps]; [done|].
  change (str_join (js ",") (print_part <$> p :: q :: ps)) with
    (print_part p ++ js "," ++ str_join (js ",") (print_part <$> q :: ps)).
  destruct (IH ltac:(done)) as [H1 _]. split; [|by destruct (print_part p)].
  unfold no_space in *. rewrite !Forall_app. split_and!; [done|by repeat constructor|done].
Qed.

(** A field written as a bare [*] does not restrict the day. *)
Lemma star_field min max ps :
  0 <= min → ps ≠ [] → Forall (valid_part min max) ps →
  print_field ps = js "*" ↔ ps = [Every None].
Proof.
  intros Hmin Hne Hps. split; [|by intros ->]. destruct Hps as [|p ps Hp Hps]; [done|].
  unfold print_field. intros E. destruct p as [[n|]|lo hi step]; cbn in Hp.
  - exfalso. by destruct ps.
  - destruct ps as [|q ps]; [done|]. exfalso. done.
  - exfalso. destruct (string_of_nat_spec lo ltac:(lia)) as (Hn & Hd & _).
    assert (∃ rest, str_join (js ",") (print_part <$> Range lo hi step :: ps) = string_of_nat lo ++ rest) as [rest Hrest].
    { destruct ps as [|q ps]; cbn [fmap list_fmap str_join print_part]; [by eexists|]. rewrite <-!app_assoc. by eexists. }
    rewrite Hrest in E. destruct (string_of_nat lo) as [|d ds]; [done|]. injection E as -> _. done.
Qed.

(** When a standard schedule fires *)
Definition fires (ms hs doms mons dows : list cron_part) (d : Date) : Prop :=
  Exists (λ p, denotes 0 59 p (getMinutes d)) ms ∧
  Exists (λ p, denotes 0 23 p (getHours d)) hs ∧
  Exists (λ p, denotes 1 12 p (getMonth d + 1)) mons ∧
  let dom := Exists (λ p, denotes 1 31 p (getDate d)) doms in
  let dow := Exists (λ p, denotes 0 6 p (getDay d)) dows in
  (doms = [Every None] ∧ dows = [Every None] ∨
   doms ≠ [Every None] ∧ dows = [Every None] ∧ dom ∨
   doms = [Every None] ∧ dows ≠ [Every None] ∧ dow ∨
   doms ≠ [Every None] ∧ dows ≠ [Every None] ∧ (dom ∨ dow)).

(** C37: Every standard five-field expression (lists of [*], [*/n], [a], [a-b],
    [a/n] and [a-b/n] within the field's range) compiles, and the matcher fires
    at exactly the minutes the expression denotes; when both day fields are
    restricted, either of them suffices. *)
Theorem cron_fires ms hs doms mons dows d :
  ms ≠ [] → hs ≠ [] → doms ≠ [] → mons ≠ [] → dows ≠ [] →
  Forall (valid_part 0 59) ms → Forall (valid_part 0 23) hs → Forall (valid_part 1 31) doms →
  Forall (valid_part 1 12) mons → Forall (valid_part 0 6) dows →
  ∃ c, compileCron (str_join (js " ") (print_field <$> [ms; hs; doms; mons; dows])) = Ok c ∧
    (matches c d = true ↔ fires ms hs doms mons dows d).
Proof.
  intros N0 N1 N2 N3 N4 V0 V1 V2 V3 V4. unfold compileCron. cbn [fmap list_fmap].
  pose proof (print_field_shape 0 59 ms ltac:(done) N0 V0). pose proof (print_field_shape 0 23 hs ltac:(done) N1 V1).
  pose proof (print_field_shape 1 31 doms ltac:(done) N2 V2). pose proof (print_field_shape 1 12 mons ltac:(done) N3 V3).
  pose proof (print_field_shape 0 6 dows ltac:(done) N4 V4).
  rewrite split_five by (by repeat apply Forall_cons_2).
  destruct (parseField_print 0 59 ms) as (s0 & -> & P0); [done..|].
  destruct (parseField_print 0 23 hs) as (s1 & -> & P1); [done..|].
  destruct (parseField_print 1 31 doms) as (s2 & -> & P2); [done..|].
  destruct (parseField_print 1 12 mons) as (s3 & -> & P3); [done..|].
  destruct (parseField_print 0 6 dows) as (s4 & -> & P4); [done..|].
  eexists. split; [reflexivity|]. unfold matches, fires.
  cbn [minutes hours months daysOfMonth daysOfWeek domRestricted dowRestricted].
  rewrite <-P0, <-P1, <-P2, <-P3, <-P4.
  pose proof (star_field 1 31 doms ltac:(done) N2 V2) as S2. pose proof (star_field 0 6 dows ltac:(done) N4 V4) as S4.
  destruct (has s0 _), (has s1 _), (has s3 _); cbn [negb]; try (split; [done|]; by intros (? & ? & ? & _)).
  rewrite <-jstr_eqb_eq in S2, S4.
  destruct (jstr_eqb (print_field doms) (js "*")), (jstr_eqb (print_field dows) (js "*")); cbn;
    rewrite ?orb_true_iff; intuition congruence.
Qed.

(** Every five minutes of office hours, on the 1st or on Fridays *)
Theorem cron_fires_witness :
  ∃ c, compileCron (js "*/5 9-17 1 * 5") = Ok c ∧
    (matches c {| getMinutes := 35; getHours := 9; getDate := 14; getMonth := 2; getDay := 5 |} = true ↔
     fires [Every (Some 5)] [Range 9 (Some 17) None] [Range 1 None None] [Every None] [Range 5 None None]
       {| getMinutes := 35; getHours := 9; getDate := 14; getMonth := 2; getDay := 5 |}).
Proof.
  apply (cron_fires [Every (Some 5)] [Range 9 (Some 17) None] [Range 1 None None] [Every None] [Range 5 None None]);
    try discriminate; repeat constructor; cbn; lia.
Defined.

(** Text outside the grammar is accepted as well: [parseInt] reads a prefix, and
    further pieces after a second [-] or [/] are dropped. *)
Lemma cron_accepts_malformed :
  is_ok (compileCron (js "5abc 1-2-3 */2/x * *")) = true.
Proof. vm_compute. reflexivity. Qed.
