(* ===== verification/IpBlocker.v ===== *)
(** * Egress address blocking ([runtime/sandbox/egress-ip-blocker.ts], PLAT-5)

    A [bigint] is an integer.  [parseInt(part, 8)] goes through a [number], so
    the octal branch rounds to 53 bits and can overflow to [Infinity], which
    [BigInt] refuses with a [RangeError].  The DNS resolver is a parameter. *)

From S2P Require Import Prelude JsString JsNumber Errors.
From Stdlib Require Import QArith Qround.

Open Scope Z_scope.

Record Cidr := { network : Z; mask : Z }.

Inductive ParsedIp := Ipv4 (value : Z) | Ipv6 (value : Z).

Definition MANDATORY_BLOCKED_IPV4_CIDRS : list jstr :=
  [ js "169.254.0.0/16"; js "10.0.0.0/8"; js "172.16.0.0/12"; js "192.168.0.0/16";
    js "127.0.0.0/8"; js "0.0.0.0/8"; js "100.64.0.0/10"; js "224.0.0.0/4"; js "240.0.0.0/4" ].
Definition MANDATORY_BLOCKED_IPV6_CIDRS : list jstr :=
  [ js "fd00:ec2::/8"; js "fc00::/7"; js "::1/128"; js "fe80::/10"; js "ff00::/8"; js "::/128" ].

Definition BITS_IPV4 : Z := 32.
Definition BITS_IPV6 : Z := 128.
Definition IPV4_MAX : Z := 4294967295.

(** ** Numerals *)

Definition is_hex (c : Z) : bool :=
  is_digit c || ((97 <=? c) && (c <=? 102)) || ((65 <=? c) && (c <=? 70)).
Definition is_octal (c : Z) : bool := (48 <=? c) && (c <=? 55).
Definition hex_value (c : Z) : Z :=
  if is_digit c then c - 48 else if 97 <=? c then c - 87 else c - 55.

(** The value of a run of digits in a radix *)
Definition num_in (radix : Z) (digit : Z → Z) (ds : jstr) : Z :=
  fold_left (λ acc c, acc * radix + digit c) ds 0.

(** [/^[class]+$/.test(s)] *)
Definition all_in (class : Z → bool) (s : jstr) : bool := negb (jstr_eqb s []) && forallb class s.

(** [BigInt(parseInt(part, 8))] for octal digits of value [n]: from
    [2^1024 - 2^970] on, the nearest number is [Infinity]. *)
Definition bigint_of_number (n : Z) : result exn Z :=
  if 2 ^ 1024 - 2 ^ 970 <=? n then Err RangeError
  else Ok (Qfloor (rnd (inject_Z n))).

(** ** IPv4 *)

Definition parse_ipv4_part (part : jstr) : result exn (option Z) :=
  match part with
  | [] => Ok None
  | _ =>
      if starts_with part (js "0x") || starts_with part (js "0X") then
        let hexDigits := slice_from 2 part in
        Ok (if all_in is_hex hexDigits then Some (num_in 16 hex_value hexDigits) else None)
      else if starts_with part (js "0") && (1 <? length part)%nat then
        let octalDigits := slice_from 1 part in
        if all_in is_octal octalDigits
        then bigint_of_number (num_in 8 (λ c, c - 48) part) ≫= λ val, Ok (Some val)
        else Ok None
      else Ok (if all_in is_digit part then Some (num_of_digits part) else None)
  end.

(** The loop over the parts; [None]: [return null] *)
Fixpoint parse_ipv4_parts (parts : list jstr) : result exn (option (list Z)) :=
  match parts with
  | [] => Ok (Some [])
  | part :: parts =>
      parse_ipv4_part part ≫= λ v,
      match v with
      | None => Ok None
      | Some v => parse_ipv4_parts parts ≫= λ vs, Ok (option_map (cons v) vs)
      end
  end.

Definition combine_ipv4 (parsedParts : list Z) : option Z :=
  match parsedParts with
  | [p0; p1; p2; p3] =>
      if (255 <? p0) || (255 <? p1) || (255 <? p2) || (255 <? p3) then None
      else Some (Z.lor (Z.lor (Z.lor (Z.shiftl p0 24) (Z.shiftl p1 16)) (Z.shiftl p2 8)) p3)
  | [p0; p1; p2] =>
      if (255 <? p0) || (255 <? p1) || (65535 <? p2) then None
      else Some (Z.lor (Z.lor (Z.shiftl p0 24) (Z.shiftl p1 16)) p2)
  | [p0; p1] =>
      if (255 <? p0) || (16777215 <? p1) then None
      else Some (Z.lor (Z.shiftl p0 24) p1)
  | [p0] => if IPV4_MAX <? p0 then None else Some p0
  | _ => None
  end.

Definition parseIPv4 (input : jstr) : result exn (option Z) :=
  let trimmed := trim input in
  match trimmed with
  | [] => Ok None
  | _ =>
      let parts := split_on (chr ".") trimmed in
      if (length parts <? 1)%nat || (4 <? length parts)%nat then Ok None
      else parse_ipv4_parts parts ≫= λ vs,
           Ok (match vs with None => None | Some parsedParts => combine_ipv4 parsedParts end)
  end.

(** ** IPv6 *)

(** [s.lastIndexOf(c)] as the text before and after the last [c] *)
Fixpoint split_last (c : Z) (s : jstr) : option (jstr * jstr) :=
  match s with
  | [] => None
  | d :: s =>
      match split_last c s with
      | Some (l, r) => Some (d :: l, r)
      | None => if d =? c then Some ([], s) else None
      end
  end.

(** [n.toString(16)] for [0 <= n < 65536] *)
Definition hex_digit (d : Z) : Z := if d <? 10 then 48 + d else 87 + d.
Fixpoint hex_fuel (fuel : nat) (n : Z) (acc : jstr) : jstr :=
  match fuel with
  | O => acc
  | S fuel =>
      let acc := hex_digit (n mod 16) :: acc in
      if n / 16 =? 0 then acc else hex_fuel fuel (n / 16) acc
  end.
Definition to_hex (n : Z) : jstr := hex_fuel 4 n [].

(** A trailing dotted part becomes two hextets. *)
Definition expand_dotted (str : jstr) : result exn (option jstr) :=
  match split_last (chr ":") str with
  | None => Ok None
  | Some (front, tail) =>
      if includes tail (js ".") then
        parseIPv4 tail ≫= λ v4Val,
        Ok (option_map (λ v4Val, front ++ js ":" ++ to_hex (Z.land (Z.shiftr v4Val 16) 65535) ++ js ":" ++
                                 to_hex (Z.land v4Val 65535)) v4Val)
      else Ok (Some str)
  end.

(** [part ? part.split(":") : []] *)
Definition hextets_of (part : jstr) : list jstr :=
  match part with [] => [] | _ => split_on (chr ":") part end.

(** The eight hextets, [::] expanded *)
Definition full_hextets (str : jstr) : option (list jstr) :=
  match index_of str (js "::") with
  | Some doubleColonIndex =>
      let leftPart := take doubleColonIndex str in
      let rightPart := drop (doubleColonIndex + 2) str in
      if includes rightPart (js "::") then None
      else
        let leftHextets := hextets_of leftPart in
        let rightHextets := hextets_of rightPart in
        let totalSpecified := (length leftHextets + length rightHextets)%nat in
        if (7 <? totalSpecified)%nat then None
        else Some (leftHextets ++ replicate (8 - totalSpecified) (js "0") ++ rightHextets)
  | None =>
      let fullHextets := split_on (chr ":") str in
      if (length fullHextets =? 8)%nat then Some fullHextets else None
  end.

Fixpoint combine_hextets (hextets : list jstr) (bigintVal : Z) : option Z :=
  match hextets with
  | [] => Some bigintVal
  | hextet :: hextets =>
      if all_in is_hex hextet && (length hextet <=? 4)%nat
      then combine_hextets hextets (Z.lor (Z.shiftl bigintVal 16) (num_in 16 hex_value hextet))
      else None
  end.

Definition parseIPv6 (input : jstr) : result exn (option Z) :=
  let str := trim input in
  match str with
  | [] => Ok None
  | _ =>
      expand_dotted str ≫= λ expanded,
      Ok (match expanded with
          | None => None
          | Some str =>
              match full_hextets str with
              | None => None
              | Some fullHextets => combine_hextets fullHextets 0
              end
          end)
  end.

(** ** Ranges *)

(** The address and the prefix text of a CIDR *)
Definition split_cidr (cidr : jstr) (dflt : jstr) : jstr * jstr :=
  match index_of cidr (js "/") with
  | None => (cidr, dflt)
  | Some slashIdx => (take slashIdx cidr, drop (slashIdx + 1) cidr)
  end.

Definition prefix_mask (bits prefixLen : Z) : Z :=
  if prefixLen =? 0 then 0
  else Z.shiftl (Z.shiftl 1 prefixLen - 1) (bits - prefixLen).

Definition parseIpv4Cidr (cidr : jstr) : result exn Cidr :=
  let '(ipStr, prefixStr) := split_cidr cidr (js "32") in
  match parse_int10 prefixStr with
  | None => Err PlainError
  | Some prefixLen =>
      throw_if ((prefixLen <? 0) || (32 <? prefixLen)) PlainError ≫= λ _,
      parseIPv4 ipStr ≫= λ ipVal,
      match ipVal with
      | None => Err PlainError
      | Some ipVal =>
          let mask := if prefixLen =? 0 then 0 else Z.land (prefix_mask BITS_IPV4 prefixLen) IPV4_MAX in
          Ok {| network := Z.land ipVal mask; mask := mask |}
      end
  end.

Definition parseIpv6Cidr (cidr : jstr) : result exn Cidr :=
  let '(ipStr, prefixStr) := split_cidr cidr (js "128") in
  match parse_int10 prefixStr with
  | None => Err PlainError
  | Some prefixLen =>
      throw_if ((prefixLen <? 0) || (128 <? prefixLen)) PlainError ≫= λ _,
      parseIPv6 ipStr ≫= λ ipVal,
      match ipVal with
      | None => Err PlainError
      | Some ipVal =>
          let mask := prefix_mask BITS_IPV6 prefixLen in
          Ok {| network := Z.land ipVal mask; mask := mask |}
      end
  end.

(** ** Destinations *)

(** [:digits] to the end, or nothing *)
Definition is_port_suffix (s : jstr) : bool :=
  match s with
  | [] => true
  | c :: s => (c =? chr ":") && all_in is_digit s
  end.

(** The text up to the first [c], and after it *)
Fixpoint split_first (c : Z) (s : jstr) : option (jstr * jstr) :=
  match s with
  | [] => None
  | d :: s =>
      if d =? c then Some ([], s)
      else match split_first c s with Some (l, r) => Some (d :: l, r) | None => None end
  end.

(** [/^\[([^\]]+)\](?::\d+)?$/] and [/^([^:]+):(\d+)$/] *)
Definition bracket_match (trimmed : jstr) : option jstr :=
  match trimmed with
  | c :: rest =>
      if c =? chr "[" then
        match split_first (chr "]") rest with
        | Some ((_ :: _) as inner, suffix) => if is_port_suffix suffix then Some inner else None
        | _ => None
        end
      else None
  | [] => None
  end.
Definition port_match (trimmed : jstr) : option jstr :=
  match split_first (chr ":") trimmed with
  | Some ((_ :: _) as host, port) => if all_in is_digit port then Some host else None
  | _ => None
  end.

Definition stripPortAndBrackets (input : jstr) : jstr :=
  let trimmed := trim input in
  match bracket_match trimmed with
  | Some inner => inner
  | None => match port_match trimmed with Some host => host | None => trimmed end
  end.

Definition tryParseIp (input : jstr) : result exn (option ParsedIp) :=
  let clean := stripPortAndBrackets input in
  if includes clean (js ":") then parseIPv6 clean ≫= λ v6, Ok (option_map Ipv6 v6)
  else parseIPv4 clean ≫= λ v4, Ok (option_map Ipv4 v4).

(** ** The blocker *)

Record EgressIpBlocker := {
  ipv4BlockedRanges : list Cidr;
  ipv6BlockedRanges : list Cidr
}.

Definition add_ranges (parse : jstr → result exn Cidr) (cidrs : list jstr) (ranges : list Cidr)
    : result exn (list Cidr) :=
  map_result parse cidrs ≫= λ cs, Ok (ranges ++ cs).

(** The loop over [options.additionalBlockedRanges] *)
Fixpoint add_additional (cidrs : list jstr) (b : EgressIpBlocker) : result exn EgressIpBlocker :=
  match cidrs with
  | [] => Ok b
  | cidr :: cidrs =>
      if includes cidr (js ":") then
        parseIpv6Cidr cidr ≫= λ c,
        add_additional cidrs {| ipv4BlockedRanges := ipv4BlockedRanges b;
                                ipv6BlockedRanges := ipv6BlockedRanges b ++ [c] |}
      else
        parseIpv4Cidr cidr ≫= λ c,
        add_additional cidrs {| ipv4BlockedRanges := ipv4BlockedRanges b ++ [c];
                                ipv6BlockedRanges := ipv6BlockedRanges b |}
  end.

Definition new_blocker (additionalBlockedRanges : option (list jstr)) : result exn EgressIpBlocker :=
  add_ranges parseIpv4Cidr MANDATORY_BLOCKED_IPV4_CIDRS [] ≫= λ v4,
  add_ranges parseIpv6Cidr MANDATORY_BLOCKED_IPV6_CIDRS [] ≫= λ v6,
  let b := {| ipv4BlockedRanges := v4; ipv6BlockedRanges := v6 |} in
  match additionalBlockedRanges with None => Ok b | Some cidrs => add_additional cidrs b end.

Definition in_cidr (v : Z) (c : Cidr) : bool := Z.land v (mask c) =? network c.

Definition isIpv4Blocked (b : EgressIpBlocker) (v4Val : Z) : bool :=
  existsb (in_cidr v4Val) (ipv4BlockedRanges b).
Definition isIpv6Blocked (b : EgressIpBlocker) (v6Val : Z) : bool :=
  existsb (in_cidr v6Val) (ipv6BlockedRanges b).

Definition isIpBlocked (b : EgressIpBlocker) (ip : jstr) : result exn bool :=
  tryParseIp ip ≫= λ parsed,
  match parsed with
  | None => Ok true
  | Some (Ipv4 value) => Ok (isIpv4Blocked b value)
  | Some (Ipv6 v6Val) =>
      Ok (if Z.shiftr v6Val 32 =? 65535 then isIpv4Blocked b (Z.land v6Val IPV4_MAX)
          else if (Z.shiftr v6Val 32 =? 0) && (1 <? v6Val) then isIpv4Blocked b (Z.land v6Val IPV4_MAX)
          else isIpv6Blocked b v6Val)
  end.

Record IpBlockResult := { blocked : bool; ip : jstr; reason : option jstr }.

(** The loop over the resolved addresses *)
Fixpoint check_resolved (b : EgressIpBlocker) (ips : list jstr) (first : jstr) : result exn IpBlockResult :=
  match ips with
  | [] => Ok {| blocked := false; ip := first; reason := None |}
  | resolvedIp :: ips =>
      isIpBlocked b resolvedIp ≫= λ bl : bool,
      if bl then Ok {| blocked := true; ip := resolvedIp;
                       reason := Some (js "Destination resolved to blocked IP " ++ resolvedIp) |}
      else check_resolved b ips first
  end.

Definition validateDestination (dnsResolver : jstr → result exn (list jstr)) (b : EgressIpBlocker)
    (hostOrIp : jstr) : result exn IpBlockResult :=
  let target := stripPortAndBrackets hostOrIp in
  tryParseIp target ≫= λ parsed,
  match parsed with
  | Some _ => 
      isIpBlocked b target ≫= λ bl : bool,
      Ok {| blocked := bl; ip := target;
            reason := if bl then Some (js "Destination IP " ++ target ++ js " is in a blocked range") else None |}
  | None =>
      dnsResolver target ≫= λ ips,
      match ips with
      | [] => Ok {| blocked := true; ip := target; reason := Some (js "No IP addresses resolved") |}
      | first :: _ => check_resolved b ips first
      end
  end.

(** ** Numbers and their ranges *)

Definition ip4 (a b c d : Z) : Z := a * 2 ^ 24 + b * 2 ^ 16 + c * 2 ^ 8 + d.

Lemma num_in_nonneg radix digit ds :
  0 <= radix → (∀ c, c ∈ ds → 0 <= digit c) → 0 <= num_in radix digit ds.
Proof.
  intros Hr Hd. unfold num_in. assert (∀ acc, 0 <= acc → 0 <= fold_left (λ acc c, acc * radix + digit c) ds acc) as H;
    [|by apply H].
  induction ds as [|c ds IH]; intros acc Hacc; [done|]. cbn. apply IH.
  - intros c' Hc'. apply Hd. by right.
  - pose proof (Hd c ltac:(left)). nia.
Qed.

Lemma num_in_bound radix digit ds :
  0 < radix → (∀ c, c ∈ ds → 0 <= digit c < radix) → num_in radix digit ds < radix ^ Z.of_nat (length ds).
Proof.
  intros Hr Hd. unfold num_in.
  assert (∀ acc, fold_left (λ acc c, acc * radix + digit c) ds acc < (acc + 1) * radix ^ Z.of_nat (length ds)) as H.
  { induction ds as [|c ds IH]; intros acc; cbn [fold_left length]; [lia|].
    rewrite Nat2Z.inj_succ, Z.pow_succ_r by lia.
    assert (∀ c', c' ∈ ds → 0 <= digit c' < radix) as Hd' by (intros c' ?; apply Hd; by right).
    specialize (IH Hd' (acc * radix + digit c)). pose proof (Hd c ltac:(left)).
    assert (0 < radix ^ Z.of_nat (length ds)) by (apply Z.pow_pos_nonneg; lia). nia. }
  specialize (H 0). lia.
Qed.

Lemma hex_value_range c : is_hex c = true → 0 <= hex_value c < 16.
Proof.
  unfold is_hex, hex_value, is_digit. rewrite !orb_true_iff, !andb_true_iff, !Z.leb_le.
  destruct (Z.leb_spec 48 c), (Z.leb_spec c 57), (Z.leb_spec 97 c); cbn; lia.
Qed.

Lemma all_in_elem class s c : all_in class s = true → c ∈ s → class c = true.
Proof.
  unfold all_in. rewrite andb_true_iff. intros [_ H] Hc. by eapply forallb_true_iff in H.
Qed.

Lemma num_of_digits_num_in ds : num_of_digits ds = num_in 10 (λ c, c - 48) ds.
Proof. reflexivity. Qed.

Lemma is_digit_range c : is_digit c = true → 0 <= c - 48 < 10.
Proof. unfold is_digit. rewrite andb_true_iff, !Z.leb_le. lia. Qed.
Lemma is_octal_range c : is_octal c = true → 0 <= c - 48 < 8.
Proof. unfold is_octal. rewrite andb_true_iff, !Z.leb_le. lia. Qed.

(** Up to 2^53 the octal branch is exact. *)
Lemma bigint_of_number_exact n : 0 <= n <= 2 ^ 53 → bigint_of_number n = Ok n.
Proof.
  intros Hn. unfold bigint_of_number. rewrite (proj2 (Z.leb_gt _ _)) by (cbn; lia).
  by rewrite (Qfloor_comp _ _ (rnd_int n Hn)), Qfloor_Z.
Qed.

Lemma bigint_of_number_nonneg n v : 0 <= n → bigint_of_number n = Ok v → 0 <= v.
Proof.
  unfold bigint_of_number. intros Hn. destruct (_ <=? _); [done|]. intros [= <-].
  change 0 with (Qfloor 0). apply Qfloor_resp_le, rnd_sign. by apply inject_Z_nonneg.
Qed.

Lemma parse_ipv4_part_nonneg part v : parse_ipv4_part part = Ok (Some v) → 0 <= v.
Proof.
  unfold parse_ipv4_part. destruct part as [|c part]; [done|]. destruct (_ || _).
  - destruct (all_in is_hex _) eqn:E; [|done]. intros [= <-]. apply num_in_nonneg; [lia|].
    intros d Hd. apply hex_value_range. by eapply all_in_elem.
  - destruct (_ && _) eqn:E0.
    + apply andb_true_iff in E0 as [Hs%starts_with_spec _]. destruct Hs as [r [= -> ->]].
      destruct (all_in is_octal _) eqn:E; [|done]. intros Hv.
      apply bind_Ok in Hv as (n & Hv & [= <-]). eapply bigint_of_number_nonneg; [|exact Hv].
      apply num_in_nonneg; [lia|]. intros d [->|Hd]%elem_of_cons; [done|].
      apply is_octal_range. by eapply all_in_elem.
    + destruct (all_in is_digit _) eqn:E; [|done]. intros [= <-]. rewrite num_of_digits_num_in.
      apply num_in_nonneg; [lia|]. intros d Hd. apply is_digit_range. by eapply all_in_elem.
Qed.

Lemma parse_ipv4_parts_nonneg parts vs : parse_ipv4_parts parts = Ok (Some vs) → Forall (λ v, 0 <= v) vs.
Proof.
  revert vs. induction parts as [|part parts IH]; intros vs Hr; cbn in Hr; [by injection Hr as <-|].
  apply bind_Ok in Hr as ([v|] & Hv & Hr); [|done]. apply bind_Ok in Hr as ([vs'|] & Hvs & Hr); [|done].
  injection Hr as <-. constructor; [by eapply parse_ipv4_part_nonneg|by apply IH].
Qed.

(** The value of the parts, as [inet_aton] defines it *)
Definition aton (vs : list Z) : option Z :=
  match vs with
  | [a; b; c; d] => if decide (a < 256 ∧ b < 256 ∧ c < 256 ∧ d < 256) then Some (ip4 a b c d) else None
  | [a; b; c] => if decide (a < 256 ∧ b < 256 ∧ c < 2 ^ 16) then Some (ip4 a b 0 c) else None
  | [a; b] => if decide (a < 256 ∧ b < 2 ^ 24) then Some (ip4 a 0 0 b) else None
  | [a] => if decide (a < 2 ^ 32) then Some a else None
  | _ => None
  end.

Lemma combine_aton vs : Forall (λ v, 0 <= v) vs → combine_ipv4 vs = aton vs.
Proof.
  unfold combine_ipv4, aton, ip4, IPV4_MAX.
  destruct vs as [|a [|b [|c [|d [|e vs]]]]]; rewrite ?Forall_cons; intros Hv; destruct_and?; try done;
    repeat match goal with |- context [?x <? ?y] => destruct (Z.ltb_spec x y) end; cbn [orb];
    (case_decide; [|exfalso; lia] || (rewrite decide_False by lia; done)); f_equal.
  - rewrite lor_shiftl_add by lia. lia.
  - rewrite (lor_shiftl_add a (Z.shiftl b 16)) by (rewrite ?Z.shiftl_mul_pow2; lia).
    rewrite Z.shiftl_mul_pow2 by lia.
    replace (a * 2 ^ 24 + b * 2 ^ 16) with (Z.shiftl (a * 2 ^ 8 + b) 16) by (rewrite Z.shiftl_mul_pow2; lia).
    rewrite lor_shiftl_add by lia. rewrite ?Z.shiftl_mul_pow2 by lia. lia.
  - rewrite (lor_shiftl_add a (Z.shiftl b 16)) by (rewrite ?Z.shiftl_mul_pow2; lia).
    rewrite !(Z.shiftl_mul_pow2 b) by lia.
    replace (a * 2 ^ 24 + b * 2 ^ 16) with (Z.shiftl (a * 2 ^ 8 + b) 16) by (rewrite Z.shiftl_mul_pow2; lia).
    rewrite (lor_shiftl_add _ (Z.shiftl c 8)) by (rewrite ?Z.shiftl_mul_pow2; lia).
    rewrite Z.shiftl_mul_pow2 by lia.
    replace ((a * 2 ^ 8 + b) * 2 ^ 16 + c * 2 ^ 8) with (Z.shiftl (a * 2 ^ 16 + b * 2 ^ 8 + c) 8)
      by (rewrite Z.shiftl_mul_pow2; lia).
    rewrite lor_shiftl_add by lia. rewrite ?Z.shiftl_mul_pow2 by lia. lia.
Qed.

Lemma parseIPv4_range s v : parseIPv4 s = Ok (Some v) → 0 <= v < 2 ^ 32.
Proof.
  unfold parseIPv4. destruct (trim s) as [|c t]; [done|]. destruct (_ || _); [done|].
  intros ([vs|] & Hvs & [= Hv])%bind_Ok. apply parse_ipv4_parts_nonneg in Hvs.
  rewrite combine_aton in Hv by done. unfold aton, ip4 in Hv.
  destruct vs as [|a [|b [|d [|e [|f vs]]]]]; try done;
    rewrite !Forall_cons in Hvs; case_decide; try done; injection Hv as <-; lia.
Qed.

Lemma combine_hextets_range hs : ∀ acc v,
  0 <= acc → combine_hextets hs acc = Some v → 0 <= v < (acc + 1) * 65536 ^ Z.of_nat (length hs).
Proof.
  induction hs as [|h hs IH]; intros acc v Hacc; [intros [= <-]; cbn; lia|]. cbn [combine_hextets length].
  destruct (all_in is_hex h && (length h <=? 4)%nat) eqn:E; [|done].
  apply andb_true_iff in E as [Hh Hl%Nat.leb_le]. intros Hv.
  assert (0 <= num_in 16 hex_value h < 65536) as Hn.
  { assert (∀ c, c ∈ h → 0 <= hex_value c < 16) as Hr by (intros c ?; apply hex_value_range; by eapply all_in_elem).
    split; [apply num_in_nonneg; [lia|]; intros c Hc; by apply Hr|].
    pose proof (num_in_bound 16 hex_value h ltac:(lia) Hr) as Hb.
    assert (16 ^ Z.of_nat (length h) <= 16 ^ 4) by (apply Z.pow_le_mono_r; lia). lia. }
  rewrite (lor_shiftl_add _ _ 16) in Hv by lia. apply IH in Hv; [|lia].
  rewrite Nat2Z.inj_succ, Z.pow_succ_r by lia.
  assert (0 < 65536 ^ Z.of_nat (length hs)) by (apply Z.pow_pos_nonneg; lia). nia.
Qed.

Lemma full_hextets_length str hs : full_hextets str = Some hs → length hs = 8%nat.
Proof.
  unfold full_hextets. destruct (index_of _ _) as [i|].
  - destruct (includes _ _); [done|]. destruct (Nat.ltb_spec 7 (length (hextets_of (take i str)) +
      length (hextets_of (drop (i + 2) str)))); [done|]. intros [= <-].
    rewrite !length_app, length_replicate. lia.
  - destruct (Nat.eqb_spec (length (split_on (chr ":") str)) 8); [|done]. by intros [= <-].
Qed.

Lemma parseIPv6_range s v : parseIPv6 s = Ok (Some v) → 0 <= v < 2 ^ 128.
Proof.
  unfold parseIPv6. destruct (trim s) as [|c t]; [done|].
  intros ([str|] & _ & [= Hv])%bind_Ok.
  destruct (full_hextets str) as [hs|] eqn:E; [|done]. apply full_hextets_length in E.
  apply combine_hextets_range in Hv; [|lia]. rewrite E in Hv. change (2 ^ 128) with (65536 ^ Z.of_nat 8). lia.
Qed.

(** ** Spellings *)

(** The ways [inet_aton] lets a part be written: decimal, octal and hexadecimal *)
Inductive spells : jstr → Z → Prop :=
| spells_dec ds : all_in is_digit ds = true → (starts_with ds (js "0") = true → length ds = 1%nat) →
    spells ds (num_of_digits ds)
| spells_oct ds : all_in is_octal ds = true → spells (js "0" ++ ds) (num_in 8 (λ c, c - 48) ds)
| spells_hex x ds : x = js "0x" ∨ x = js "0X" → all_in is_hex ds = true →
    spells (x ++ ds) (num_in 16 hex_value ds).

Lemma all_in_not_nil class s : all_in class s = true → s ≠ [].
Proof. unfold all_in. by destruct s. Qed.

Lemma starts_with_hex s : starts_with s (js "0x") || starts_with s (js "0X") = true →
  ∃ r, s = js "0x" ++ r ∨ s = js "0X" ++ r.
Proof. rewrite orb_true_iff, !starts_with_spec. intros [[r ->]|[r ->]]; eauto. Qed.

Lemma parse_part_spells s v : spells s v → v <= 2 ^ 53 → parse_ipv4_part s = Ok (Some v).
Proof.
  intros Hs Hv. destruct Hs as [ds Hds H0|ds Hds|x ds Hx Hds].
  - pose proof (all_in_not_nil _ _ Hds) as Hne. unfold parse_ipv4_part. destruct ds as [|d ds]; [done|].
    destruct (starts_with _ _ || starts_with _ _) eqn:Ex.
    { apply starts_with_hex in Ex as [r [E|E]]; rewrite E in Hds; unfold all_in in Hds; by cbn in Hds. }
    destruct (starts_with (d :: ds) (js "0") && _) eqn:E0; [|by rewrite Hds].
    apply andb_true_iff in E0 as [E0 Hl%Nat.ltb_lt]. rewrite H0 in Hl by done. lia.
  - pose proof (all_in_not_nil _ _ Hds) as Hne. unfold parse_ipv4_part. cbn [app js].
    change (js "0" ++ ds) with (48 :: ds).
    destruct (starts_with _ _ || starts_with _ _) eqn:Ex.
    { apply starts_with_hex in Ex as [r [[= E]|[= E]]]; rewrite E in Hds; unfold all_in in Hds; by cbn in Hds. }
    assert (starts_with (48 :: ds) (js "0") && (1 <? length (48%Z :: ds))%nat = true) as ->.
    { apply andb_true_iff. split; [done|]. apply Nat.ltb_lt. destruct ds; [done|]. cbn. lia. }
    change (slice_from 1 (48 :: ds)) with ds. rewrite Hds.
    change (num_in 8 (λ c, c - 48) (48 :: ds)) with (num_in 8 (λ c, c - 48) ds).
    rewrite bigint_of_number_exact; [done|]. split; [|done]. apply num_in_nonneg; [lia|].
    intros c Hc. apply is_octal_range. by eapply all_in_elem.
  - assert (∀ c, parse_ipv4_part (48 :: c :: ds) =
      if starts_with (48 :: c :: ds) (js "0x") || starts_with (48 :: c :: ds) (js "0X")
      then Ok (if all_in is_hex ds then Some (num_in 16 hex_value ds) else None)
      else parse_ipv4_part (48 :: c :: ds)) as Heq.
    { intros c. unfold parse_ipv4_part. by destruct (_ || _). }
    destruct Hx as [-> | ->]; [change (js "0x" ++ ds) with (48 :: 120 :: ds)|
      change (js "0X" ++ ds) with (48 :: 88 :: ds)]; by rewrite Heq, Hds.
Qed.

Lemma parse_parts_spells parts vs :
  Forall2 spells parts vs → Forall (λ v, v <= 2 ^ 53) vs → parse_ipv4_parts parts = Ok (Some vs).
Proof.
  induction 1 as [|s v parts vs Hs _ IH]; intros Hv; [done|]. apply Forall_cons in Hv as [Hv Hvs].
  cbn. rewrite (parse_part_spells s v Hs Hv). cbn. by rewrite IH.
Qed.

(** The characters of a spelling *)
Lemma spells_chars s v c : spells s v → c ∈ s → is_hex c = true ∨ c = chr "x" ∨ c = chr "X".
Proof.
  assert (∀ ds class, all_in class ds = true → (∀ c, class c = true → is_hex c = true) → c ∈ ds → is_hex c = true) as Hall.
  { intros ds class Hds Hc Hin. apply Hc. by eapply all_in_elem. }
  assert (∀ c, is_digit c = true → is_hex c = true) as Hdig by (intros d Hd; unfold is_hex; by rewrite Hd).
  assert (∀ c, is_octal c = true → is_hex c = true) as Hoct.
  { intros d Hd. apply Hdig. apply is_octal_range in Hd. unfold is_digit. apply andb_true_iff. rewrite !Z.leb_le. lia. }
  destruct 1 as [ds Hds _|ds Hds|x ds Hx Hds]; intros Hin.
  - left. by eapply Hall.
  - apply elem_of_app in Hin as [->%list_elem_of_singleton|Hin]; [by left|left; by eapply Hall].
  - apply elem_of_app in Hin as [Hin|Hin]; [|left; by eapply Hall].
    destruct Hx as [-> | ->]; apply elem_of_cons in Hin as [->| ->%list_elem_of_singleton]; auto.
Qed.

Lemma spells_not_nil s v : spells s v → s ≠ [].
Proof.
  destruct 1 as [ds Hds _|ds Hds|x ds Hx Hds]; [by eapply all_in_not_nil|done|].
  by destruct Hx as [-> | ->].
Qed.

(** Characters of a host made of spellings: no colon, bracket or space *)
Definition host_char (c : Z) : Prop := is_hex c = true ∨ c = chr "x" ∨ c = chr "X" ∨ c = chr ".".

Lemma host_char_not c : host_char c → is_space c = false ∧ c ≠ chr ":" ∧ c ≠ chr "[".
Proof.
  intros [Hh|[->|[->| ->]]]; [|done..]. apply hex_value_range in Hh as Hv.
  unfold is_hex, is_digit, is_space in *.
  rewrite !orb_true_iff, !andb_true_iff, !Z.leb_le in Hh. split_and!; [|cbn; lia..].
  repeat (apply orb_false_iff; split); try apply andb_false_iff; rewrite ?Z.leb_gt, ?Z.eqb_neq; lia.
Qed.

Lemma join_host parts vs :
  Forall2 spells parts vs → Forall host_char (str_join (js ".") parts).
Proof.
  induction 1 as [|s v parts vs Hs Hrest IH]; [constructor|].
  assert (Forall host_char s) as Hsc.
  { apply Forall_forall. intros c Hc. destruct (spells_chars s v c Hs Hc) as [?|[?|?]]; unfold host_char; auto. }
  destruct parts as [|q parts]; [done|].
  change (str_join (js ".") (s :: q :: parts)) with (s ++ js "." ++ str_join (js ".") (q :: parts)).
  rewrite !Forall_app. split_and!; [done| |done].
  apply (Forall_singleton host_char (chr ".")). unfold host_char. auto.
Qed.

Lemma join_not_nil parts vs : Forall2 spells parts vs → parts ≠ [] → str_join (js ".") parts ≠ [].
Proof.
  intros [|s v parts' vs' Hs _] Hne; [done|]. apply spells_not_nil in Hs. destruct parts' as [|q parts']; [done|].
  cbn. by destruct s.
Qed.

Lemma host_no_space s : Forall host_char s → no_space s.
Proof. intros H. eapply Forall_impl; [exact H|]. intros c Hc. by apply host_char_not in Hc as [? _]. Qed.

Lemma trim_no_space s : no_space s → trim s = s.
Proof.
  intros Hs. destruct s as [|c s]; [done|]. apply Forall_cons in Hs as [Hc Hs].
  destruct s as [|d s] using rev_ind; [|clear IHs].
  { unfold trim, trim_end. cbn. rewrite Hc. cbn. by rewrite Hc. }
  apply Forall_app in Hs as [_ Hd]. change (c :: s ++ [d]) with ([c] ++ s ++ [d]).
  apply trim_id; [by constructor|done|done|done].
Qed.

Lemma split_first_app c l r : c ∉ l → split_first c (l ++ c :: r) = Some (l, r).
Proof.
  induction l as [|d l IH]; intros Hl; cbn; [by rewrite Z.eqb_refl|].
  destruct (Z.eqb_spec d c) as [->|]; [set_solver|]. rewrite IH; [done|set_solver].
Qed.
Lemma split_first_none c s : c ∉ s → split_first c s = None.
Proof.
  induction s as [|d s IH]; intros Hs; cbn; [done|]. destruct (Z.eqb_spec d c) as [->|]; [set_solver|].
  rewrite IH; [done|set_solver].
Qed.

(** A port, or none *)
Definition print_port (port : option jstr) : jstr :=
  match port with None => [] | Some ds => js ":" ++ ds end.

Lemma strip_host host port :
  Forall host_char host → host ≠ [] → (∀ ds, port = Some ds → all_in is_digit ds = true) →
  stripPortAndBrackets (host ++ print_port port) = host.
Proof.
  intros Hh Hne Hp.
  assert (chr ":" ∉ host) as Hcolon.
  { intros Hin. eapply Forall_forall in Hh; [|exact Hin]. by apply host_char_not in Hh as (_ & ? & _). }
  assert (no_space (host ++ print_port port)) as Hns.
  { apply Forall_app. split; [by apply host_no_space|]. destruct port as [ds|]; [|constructor].
    constructor; [done|]. apply Forall_forall. intros c Hc. apply is_digit_not_space.
    eapply all_in_elem; [by apply Hp|done]. }
  unfold stripPortAndBrackets. rewrite trim_no_space by done.
  assert (bracket_match (host ++ print_port port) = None) as ->.
  { destruct host as [|c host]; [done|]. apply Forall_cons in Hh as [Hc _]. apply host_char_not in Hc as (_ & _ & Hc).
    unfold bracket_match. cbn [app]. by rewrite (proj2 (Z.eqb_neq _ _) Hc). }
  unfold port_match. destruct port as [ds|]; cbn [print_port].
  - change (js ":" ++ ds) with (chr ":" :: ds). rewrite split_first_app by done.
    destruct host; [done|]. by rewrite (Hp ds eq_refl).
  - rewrite app_nil_r, split_first_none by done. done.
Qed.

(** Every way [inet_aton] accepts to write an IPv4 address (one to four parts,
    each in decimal, octal or hexadecimal, with or without a port) is recognised
    with the value it denotes, so no alternative spelling of an address escapes
    the range check. *)
Theorem inet_aton_spellings parts vs v port :
  Forall2 spells parts vs → aton vs = Some v → Forall (λ v, 0 <= v <= 2 ^ 53) vs →
  (∀ ds, port = Some ds → all_in is_digit ds = true) →
  tryParseIp (str_join (js ".") parts ++ print_port port) = Ok (Some (Ipv4 v)).
Proof.
  intros Hsp Hat Hvs Hport. pose proof (join_host _ _ Hsp) as Hh.
  assert (parts ≠ [] ∧ (length parts <= 4)%nat) as [Hne Hlen].
  { rewrite (Forall2_length _ _ _ Hsp). split; [by intros ->; inversion Hsp; subst|].
    by destruct vs as [|? [|? [|? [|? [|? ?]]]]]; cbn in *; try lia. }
  pose proof (join_not_nil _ _ Hsp Hne) as Hjne.
  unfold tryParseIp. rewrite strip_host by done.
  assert (includes (str_join (js ".") parts) (js ":") = false) as ->.
  { apply includes_singleton_false. intros Hin. eapply Forall_forall in Hh; [|exact Hin].
    by apply host_char_not in Hh as (_ & ? & _). }
  unfold parseIPv4. rewrite trim_no_space by (by apply host_no_space).
  destruct (str_join (js ".") parts) as [|c t] eqn:Ej; [done|]. rewrite <-Ej.
  change (js ".") with [chr "."] in *. rewrite split_on_str_join; [|done|].
  - rewrite (proj2 (Nat.ltb_ge (length parts) 1)) by (destruct parts; [done|cbn; lia]).
    rewrite (proj2 (Nat.ltb_ge 4 (length parts))) by lia. cbn [orb].
    rewrite (parse_parts_spells parts vs); [|done|eapply Forall_impl; [exact Hvs|]; cbn; lia]. cbn.
    rewrite combine_aton by (eapply Forall_impl; [exact Hvs|]; cbn; lia). by rewrite Hat.
  - clear -Hsp. induction Hsp as [|s v parts vs Hs _ IH]; constructor; [|done].
    intros Hin. destruct (spells_chars s v _ Hs Hin) as [H|[H|H]]; by vm_compute in H.
Qed.

(** The loopback address as [0x7f.1:80] *)
Theorem inet_aton_spellings_witness : tryParseIp (js "0x7f.1:80") = Ok (Some (Ipv4 (ip4 127 0 0 1))).
Proof.
  apply (inet_aton_spellings [js "0x7f"; js "1"] [127; 1] (ip4 127 0 0 1) (Some (js "80"))).
  - constructor; [apply (spells_hex (js "0x") (js "7f")); [by left|vm_compute; reflexivity]|].
    constructor; [|constructor]. apply (spells_dec (js "1")); [vm_compute; reflexivity|vm_compute; reflexivity].
  - vm_compute. reflexivity.
  - repeat constructor; lia.
  - intros ds [= <-]. vm_compute. reflexivity.
Defined.

(** ** The blocked ranges as intervals *)

Lemma in_cidr_interval v h p n :
  0 <= h → 0 <= p → 0 <= v < 2 ^ (h + p) →
  in_cidr v {| network := n * 2 ^ h; mask := Z.shiftl (Z.ones p) h |} = true ↔
  n * 2 ^ h <= v < (n + 1) * 2 ^ h.
Proof.
  intros Hh Hp Hv. assert (0 < 2 ^ h) as Hpow by (apply Z.pow_pos_nonneg; lia).
  assert (Z.land v (Z.shiftl (Z.ones p) h) = v / 2 ^ h * 2 ^ h) as E.
  { rewrite <-Z.shiftl_mul_pow2, <-Z.shiftr_div_pow2 by done.
    assert (Z.shiftr v h = Z.land (Z.shiftr v h) (Z.ones p)) as ->.
    { rewrite Z.land_ones by done. symmetry. apply Z.mod_small. rewrite Z.shiftr_div_pow2 by done.
      split; [apply Z.div_pos; lia|]. apply Z.div_lt_upper_bound; [lia|]. rewrite <-Z.pow_add_r by done. lia. }
    rewrite Z.shiftl_land. apply Z.bits_inj'. intros i Hi. rewrite !Z.land_spec.
    destruct (Z.lt_ge_cases i h); [by rewrite !Z.shiftl_spec_low, !andb_false_r|].
    rewrite !Z.shiftl_spec, Z.shiftr_spec by lia. by replace (i - h + h) with i by lia. }
  unfold in_cidr. cbn [mask network]. rewrite E, Z.eqb_eq.
  pose proof (Z.div_mod v (2 ^ h) ltac:(lia)). pose proof (Z.mod_pos_bound v (2 ^ h) Hpow). split.
  - intros Heq. apply Z.mul_reg_r in Heq; [|lia]. nia.
  - intros Hi. f_equal. assert (n <= v / 2 ^ h) by (apply Z.div_le_lower_bound; lia).
    assert (v / 2 ^ h < n + 1) by (apply Z.div_lt_upper_bound; lia). lia.
Qed.

Definition within (lo hi v : Z) : Prop := lo <= v <= hi.

(** The mandatory ranges of PLAT-5 *)
Definition private4 (v : Z) : Prop :=
  within (ip4 169 254 0 0) (ip4 169 254 255 255) v ∨ within (ip4 10 0 0 0) (ip4 10 255 255 255) v ∨
  within (ip4 172 16 0 0) (ip4 172 31 255 255) v ∨ within (ip4 192 168 0 0) (ip4 192 168 255 255) v ∨
  within (ip4 127 0 0 0) (ip4 127 255 255 255) v ∨ within 0 (ip4 0 255 255 255) v ∨
  within (ip4 100 64 0 0) (ip4 100 127 255 255) v ∨ within (ip4 224 0 0 0) (ip4 255 255 255 255) v.

(** [fc00::/7], [fe80::/10], [ff00::/8], [::1] and [::] *)
Definition private6 (v : Z) : Prop :=
  within (0xfc00 * 2 ^ 112) (0xfe00 * 2 ^ 112 - 1) v ∨ within (0xfe80 * 2 ^ 112) (0xfec0 * 2 ^ 112 - 1) v ∨
  0xff00 * 2 ^ 112 <= v ∨ v = 1 ∨ v = 0.

Definition default_ranges : EgressIpBlocker :=
  match new_blocker None with Ok b => b | Err _ => {| ipv4BlockedRanges := []; ipv6BlockedRanges := [] |} end.

(** An address in the ranges of a blocker that extends the default ones *)
Definition extends (b : EgressIpBlocker) : Prop :=
  ∃ l4 l6, ipv4BlockedRanges b = ipv4BlockedRanges default_ranges ++ l4 ∧
           ipv6BlockedRanges b = ipv6BlockedRanges default_ranges ++ l6.

Lemma add_additional_extends cidrs : ∀ b b', extends b → add_additional cidrs b = Ok b' → extends b'.
Proof.
  induction cidrs as [|cidr cidrs IH]; intros b b' Hb Hr; cbn in Hr; [by injection Hr as <-|].
  destruct Hb as (l4 & l6 & H4 & H6).
  destruct (includes _ _); apply bind_Ok in Hr as (c & _ & Hr); apply IH in Hr; try done.
  - exists l4, (l6 ++ [c]). cbn. by rewrite H4, H6, <-app_assoc.
  - exists (l4 ++ [c]), l6. cbn. by rewrite H4, H6, <-app_assoc.
Qed.

Lemma new_blocker_extends extra b : new_blocker extra = Ok b → extends b.
Proof.
  unfold new_blocker.
  assert (add_ranges parseIpv4Cidr MANDATORY_BLOCKED_IPV4_CIDRS [] = Ok (ipv4BlockedRanges default_ranges)) as ->
    by (vm_compute; reflexivity).
  assert (add_ranges parseIpv6Cidr MANDATORY_BLOCKED_IPV6_CIDRS [] = Ok (ipv6BlockedRanges default_ranges)) as ->
    by (vm_compute; reflexivity).
  change (match extra with
    | Some cidrs => add_additional cidrs {| ipv4BlockedRanges := ipv4BlockedRanges default_ranges;
                                            ipv6BlockedRanges := ipv6BlockedRanges default_ranges |}
    | None => Ok {| ipv4BlockedRanges := ipv4BlockedRanges default_ranges;
                    ipv6BlockedRanges := ipv6BlockedRanges default_ranges |}
    end = Ok b → extends b).
  assert (extends {| ipv4BlockedRanges := ipv4BlockedRanges default_ranges;
                     ipv6BlockedRanges := ipv6BlockedRanges default_ranges |}) as Hd
    by (exists [], []; by rewrite !app_nil_r).
  destruct extra as [cidrs|]; [by apply add_additional_extends|by intros [= <-]].
Qed.

Lemma existsb_false {A} (f : A → bool) l : existsb f l = false → ∀ x, x ∈ l → f x = false.
Proof.
  intros H x Hx. apply not_true_iff_false. intros Hf.
  assert (existsb f l = true) by (apply existsb_true_iff; eauto). congruence.
Qed.

Lemma unblocked4 b v : extends b → 0 <= v < 2 ^ 32 → isIpv4Blocked b v = false → ¬ private4 v.
Proof.
  intros (l4 & _ & H4 & _) Hv Hb. unfold isIpv4Blocked in Hb. rewrite H4, existsb_app in Hb.
  apply orb_false_iff in Hb as [Hb _]. pose proof (existsb_false _ _ Hb) as H. clear Hb H4.
  assert (∀ n h p, In {| network := n * 2 ^ h; mask := Z.shiftl (Z.ones p) h |} (ipv4BlockedRanges default_ranges) →
    0 <= h → 0 <= p → h + p = 32 → ¬ (n * 2 ^ h <= v < (n + 1) * 2 ^ h)) as Hr.
  { intros n h p Hin Hh Hp Hhp Hi. apply (in_cidr_interval v h p) in Hi; [|lia|lia|by rewrite Hhp].
    apply list_elem_of_In, H in Hin. congruence. }
  unfold private4, within, ip4.
  pose proof (Hr 43518 16 16 ltac:(vm_compute; tauto) ltac:(lia) ltac:(lia) ltac:(lia)).
  pose proof (Hr 10 24 8 ltac:(vm_compute; tauto) ltac:(lia) ltac:(lia) ltac:(lia)).
  pose proof (Hr 2753 20 12 ltac:(vm_compute; tauto) ltac:(lia) ltac:(lia) ltac:(lia)).
  pose proof (Hr 49320 16 16 ltac:(vm_compute; tauto) ltac:(lia) ltac:(lia) ltac:(lia)).
  pose proof (Hr 127 24 8 ltac:(vm_compute; tauto) ltac:(lia) ltac:(lia) ltac:(lia)).
  pose proof (Hr 0 24 8 ltac:(vm_compute; tauto) ltac:(lia) ltac:(lia) ltac:(lia)).
  pose proof (Hr 401 22 10 ltac:(vm_compute; tauto) ltac:(lia) ltac:(lia) ltac:(lia)).
  pose proof (Hr 14 28 4 ltac:(vm_compute; tauto) ltac:(lia) ltac:(lia) ltac:(lia)).
  pose proof (Hr 15 28 4 ltac:(vm_compute; tauto) ltac:(lia) ltac:(lia) ltac:(lia)).
  lia.
Qed.

Lemma unblocked6 b v : extends b → 0 <= v < 2 ^ 128 → isIpv6Blocked b v = false → ¬ private6 v.
Proof.
  intros (_ & l6 & _ & H6) Hv Hb. unfold isIpv6Blocked in Hb. rewrite H6, existsb_app in Hb.
  apply orb_false_iff in Hb as [Hb _]. pose proof (existsb_false _ _ Hb) as H. clear Hb H6.
  assert (∀ n h p, In {| network := n * 2 ^ h; mask := Z.shiftl (Z.ones p) h |} (ipv6BlockedRanges default_ranges) →
    0 <= h → 0 <= p → h + p = 128 → ¬ (n * 2 ^ h <= v < (n + 1) * 2 ^ h)) as Hr.
  { intros n h p Hin Hh Hp Hhp Hi. apply (in_cidr_interval v h p) in Hi; [|lia|lia|by rewrite Hhp].
    apply list_elem_of_In, H in Hin. congruence. }
  unfold private6, within.
  pose proof (Hr 126 121 7 ltac:(vm_compute; tauto) ltac:(lia) ltac:(lia) ltac:(lia)).
  pose proof (Hr 1018 118 10 ltac:(vm_compute; tauto) ltac:(lia) ltac:(lia) ltac:(lia)).
  pose proof (Hr 255 120 8 ltac:(vm_compute; tauto) ltac:(lia) ltac:(lia) ltac:(lia)).
  pose proof (Hr 1 0 128 ltac:(vm_compute; tauto) ltac:(lia) ltac:(lia) ltac:(lia)).
  pose proof (Hr 0 0 128 ltac:(vm_compute; tauto) ltac:(lia) ltac:(lia) ltac:(lia)).
  lia.
Qed.

(** An address that may be contacted: outside the private ranges; an IPv6
    address that embeds an IPv4 one (mapped or compatible) by the latter. *)
Definition public (p : ParsedIp) : Prop :=
  match p with
  | Ipv4 v => ¬ private4 v
  | Ipv6 v =>
      if decide (v / 2 ^ 32 = 65535 ∨ v / 2 ^ 32 = 0 ∧ 1 < v) then ¬ private4 (v mod 2 ^ 32)
      else ¬ private6 v
  end.

Lemma unblocked_public b s : extends b → isIpBlocked b s = Ok false →
  ∃ p, tryParseIp s = Ok (Some p) ∧ public p.
Proof.
  intros Hb Hs. unfold isIpBlocked in Hs. apply bind_Ok in Hs as ([p|] & Hp & Hs); [|done].
  exists p. split; [done|]. unfold tryParseIp in Hp. destruct (includes _ _).
  - apply bind_Ok in Hp as ([v|] & Hv & [= <-]). apply parseIPv6_range in Hv. apply Ok_inj in Hs.
    rewrite !Z.shiftr_div_pow2 in Hs by lia.
    assert (Z.land v IPV4_MAX = v mod 2 ^ 32) as El by (by apply (Z.land_ones v 32)).
    pose proof (Z.mod_pos_bound v (2 ^ 32) ltac:(lia)). unfold public.
    destruct (Z.eqb_spec (v / 2 ^ 32) 65535) as [E1|E1].
    { rewrite decide_True by (by left). rewrite <-El in *. by apply (unblocked4 b). }
    destruct (Z.eqb_spec (v / 2 ^ 32) 0) as [E2|E2], (Z.ltb_spec 1 v) as [E3|E3]; cbn [andb] in Hs;
      [rewrite decide_True by (by right); rewrite <-El in *; by apply (unblocked4 b)|
       rewrite decide_False by lia; by apply (unblocked6 b)..].
  - apply bind_Ok in Hp as ([v|] & Hv & [= <-]). apply parseIPv4_range in Hv. apply Ok_inj in Hs.
    by apply (unblocked4 b).
Qed.

Lemma check_resolved_unblocked b ips first r :
  check_resolved b ips first = Ok r → blocked r = false →
  ip r = first ∧ ∀ i, i ∈ ips → isIpBlocked b i = Ok false.
Proof.
  induction ips as [|i ips IH]; cbn; [intros [= <-] _; split; [done|]; intros i Hi; by apply elem_of_nil in Hi|].
  intros (bl & Hbl & Hr)%bind_Ok Hf. destruct bl; [by injection Hr as <-|].
  destruct (IH Hr Hf) as [? Hips]. split; [done|]. by intros j [->|Hj]%elem_of_cons; [|apply Hips].
Qed.

(** The address that an admitted destination is connected to *)
Lemma validated_public dnsResolver extra b hostOrIp r :
  new_blocker extra = Ok b → validateDestination dnsResolver b hostOrIp = Ok r → blocked r = false →
  ∃ p, tryParseIp (ip r) = Ok (Some p) ∧ public p.
Proof.
  intros Hb%new_blocker_extends Hr Hf. unfold validateDestination in Hr.
  apply bind_Ok in Hr as ([p|] & Hp & Hr).
  - apply bind_Ok in Hr as (bl & Hbl & [= <-]). cbn in *. subst bl. by apply (unblocked_public b).
  - apply bind_Ok in Hr as ([|first ips] & Hips & Hr); [by injection Hr as <-|].
    apply check_resolved_unblocked in Hr as [-> Hall]; [|done]. apply (unblocked_public b); [done|].
    apply Hall. left.
Qed.

(** No egress to private addresses (PLAT-5): whatever extra ranges are
    configured and whatever the DNS answers, a destination is admitted only if it
    is a literal address outside every mandatory range, or a name all of whose
    resolved addresses are; the address returned for the connection is one of
    those checked, so a second resolution is never needed. *)
Theorem egress_allowed_public dnsResolver extra b hostOrIp r :
  new_blocker extra = Ok b → validateDestination dnsResolver b hostOrIp = Ok r → blocked r = false →
  (∃ p, tryParseIp (stripPortAndBrackets hostOrIp) = Ok (Some p) ∧ public p ∧
     ip r = stripPortAndBrackets hostOrIp) ∨
  (∃ ips, dnsResolver (stripPortAndBrackets hostOrIp) = Ok ips ∧ ip r ∈ ips ∧
     ∀ i, i ∈ ips → ∃ p, tryParseIp i = Ok (Some p) ∧ public p).
Proof.
  intros Hb%new_blocker_extends Hr Hf. unfold validateDestination in Hr.
  apply bind_Ok in Hr as ([p|] & Hp & Hr).
  - left. apply bind_Ok in Hr as (bl & Hbl & [= <-]). cbn in Hf. subst bl.
    destruct (unblocked_public b _ Hb Hbl) as (p' & Hp' & Hpub). exists p'. by split_and!.
  - right. apply bind_Ok in Hr as (ips & Hips & Hr). exists ips. split; [done|].
    destruct ips as [|first ips]; [by injection Hr as <-|].
    apply check_resolved_unblocked in Hr as [-> Hall]; [|done]. split; [left|].
    intros i Hi. apply (unblocked_public b); [done|by apply Hall].
Qed.

(** A rebinding name: one public and one private answer. *)
Definition rebinding_dns (host : jstr) : result exn (list jstr) :=
  Ok (if jstr_eqb host (js "good.example") then [js "93.184.216.34"; js "2606:2800:220:1::1"]
      else [js "93.184.216.34"; js "::ffff:10.0.0.1"]).

Theorem egress_allowed_public_witness :
  (∃ ips, rebinding_dns (js "good.example") = Ok ips ∧ js "93.184.216.34" ∈ ips ∧
     ∀ i, i ∈ ips → ∃ p, tryParseIp i = Ok (Some p) ∧ public p) ∧
  validateDestination rebinding_dns default_ranges (js "evil.example:443") =
    Ok {| blocked := true; ip := js "::ffff:10.0.0.1";
          reason := Some (js "Destination resolved to blocked IP ::ffff:10.0.0.1") |}.
Proof.
  split; [|vm_compute; reflexivity].
  assert (new_blocker None = Ok default_ranges) as Hb by (vm_compute; reflexivity).
  destruct (egress_allowed_public rebinding_dns None default_ranges (js "good.example:443")
    {| blocked := false; ip := js "93.184.216.34"; reason := None |} Hb) as [(p & Hp & _)|H];
    [vm_compute; reflexivity|reflexivity|vm_compute in Hp; discriminate|exact H].
Defined.

(** An octal part of 400 digits makes the check throw instead of answering. *)
Lemma long_octal_throws :
  isIpBlocked default_ranges (js "0" ++ replicate 400 (chr "7")) = Err RangeError.
Proof. vm_compute. reflexivity. Qed.
