(* ===== verification/OperationCounter.v ===== *)
(** * Per-invocation budgets ([runtime/limits/operation-counter.ts], FN-5, FN-7)

    [InvocationTracker] is the tracker's state; each method is a state
    transformer.  Limits are integers. *)

From S2P Require Import Prelude JsString Errors Utf8.

Open Scope Z_scope.
Open Scope railfog_scope.

Definition DEFAULT_MAX_KV_OPS : Z := 1000.
Definition DEFAULT_MAX_OBJECT_OPS : Z := 100.
Definition DEFAULT_MAX_QUEUE_OPS : Z := 100.
Definition DEFAULT_MAX_LOG_BYTES : Z := 64000.
Definition DEFAULT_MAX_CALL_DEPTH : Z := 8.
Definition LOG_TRUNCATED_MARKER : jstr := js "[LOG_TRUNCATED]".

Record InvocationOperationLimits := {
  l_maxKvOps : option Z;
  l_maxObjectOps : option Z;
  l_maxQueueOps : option Z;
  l_maxLogBytes : option Z;
  l_maxCallDepth : option Z
}.

Record InvocationTracker := {
  maxKvOps : Z; maxObjectOps : Z; maxQueueOps : Z; maxLogBytes : Z; maxCallDepth : Z;
  kvOps : Z; objectOps : Z; queueOps : Z;
  currentLogBytes : Z;
  logTruncated : bool
}.

Definition createInvocationTracker (limits : option InvocationOperationLimits) : InvocationTracker :=
  {| maxKvOps := default DEFAULT_MAX_KV_OPS (limits ≫= l_maxKvOps);
     maxObjectOps := default DEFAULT_MAX_OBJECT_OPS (limits ≫= l_maxObjectOps);
     maxQueueOps := default DEFAULT_MAX_QUEUE_OPS (limits ≫= l_maxQueueOps);
     maxLogBytes := default DEFAULT_MAX_LOG_BYTES (limits ≫= l_maxLogBytes);
     maxCallDepth := default DEFAULT_MAX_CALL_DEPTH (limits ≫= l_maxCallDepth);
     kvOps := 0; objectOps := 0; queueOps := 0; currentLogBytes := 0; logTruncated := false |}.

(** ** Truncation *)

(** [sliceEnd]: [mid], or one less when the cut would follow a high surrogate *)
Definition slice_end (candidate : jstr) (mid : Z) : Z :=
  if (0 <? mid) && (mid <? Z.of_nat (length candidate)) then
    if is_high (nth (Z.to_nat (mid - 1)) candidate 0) then mid - 1 else mid
  else mid.

(** The binary search over [low..high]; [fuel] bounds its turns. *)
Fixpoint truncate_loop (fuel : nat) (candidate : jstr) (maxBytes low high best : Z) : Z :=
  match fuel with
  | O => best
  | S fuel =>
      if low <=? high then
        let mid := Z.shiftr (low + high) 1 in
        let sliceEnd := slice_end candidate mid in
        let byteLength := utf8_length (take (Z.to_nat sliceEnd) candidate) in
        if byteLength <=? maxBytes
        then truncate_loop fuel candidate maxBytes (mid + 1) high (if best <? sliceEnd then sliceEnd else best)
        else truncate_loop fuel candidate maxBytes low (sliceEnd - 1) best
      else best
  end.

Definition truncateToUtf8Bytes (str : jstr) (maxBytes : Z) : jstr :=
  if maxBytes <=? 0 then []
  else
    let candidate := take (Z.to_nat maxBytes) str in
    if utf8_length candidate <=? maxBytes then candidate
    else
      let len := Z.of_nat (length candidate) in
      take (Z.to_nat (truncate_loop (length candidate + 2) candidate maxBytes 0 len 0)) candidate.

(** ** The methods *)

Definition with_counts (t : InvocationTracker) (kv objects queue logBytes : Z) (truncated : bool)
    : InvocationTracker :=
  {| maxKvOps := maxKvOps t; maxObjectOps := maxObjectOps t; maxQueueOps := maxQueueOps t;
     maxLogBytes := maxLogBytes t; maxCallDepth := maxCallDepth t;
     kvOps := kv; objectOps := objects; queueOps := queue;
     currentLogBytes := logBytes; logTruncated := truncated |}.

Definition recordKvOp : stm InvocationTracker exn unit := λ t,
  if maxKvOps t <=? kvOps t then (t, Err RateLimitedError)
  else (with_counts t (kvOps t + 1) (objectOps t) (queueOps t) (currentLogBytes t) (logTruncated t), Ok tt).

Definition recordObjectOp : stm InvocationTracker exn unit := λ t,
  if maxObjectOps t <=? objectOps t then (t, Err RateLimitedError)
  else (with_counts t (kvOps t) (objectOps t + 1) (queueOps t) (currentLogBytes t) (logTruncated t), Ok tt).

Definition recordQueueOp : stm InvocationTracker exn unit := λ t,
  if maxQueueOps t <=? queueOps t then (t, Err RateLimitedError)
  else (with_counts t (kvOps t) (objectOps t) (queueOps t + 1) (currentLogBytes t) (logTruncated t), Ok tt).

(** [{ output, truncated }] *)
Definition appendLog (chunk : jstr) (t : InvocationTracker) : InvocationTracker * (jstr * bool) :=
  if logTruncated t then (t, ([], true))
  else
    let chunkBytes := utf8_length chunk in
    if currentLogBytes t + chunkBytes <=? maxLogBytes t then
      (with_counts t (kvOps t) (objectOps t) (queueOps t) (currentLogBytes t + chunkBytes) false, (chunk, false))
    else
      let remainingCapacity := maxLogBytes t - currentLogBytes t in
      let validSlice := truncateToUtf8Bytes chunk remainingCapacity in
      (with_counts t (kvOps t) (objectOps t) (queueOps t) (maxLogBytes t) true,
       (validSlice ++ LOG_TRUNCATED_MARKER, true)).

(** [/^\d+$/] *)
Definition depth_header_valid (s : jstr) : bool := negb (jstr_eqb s []) && forallb is_digit s.

Definition checkCallDepth (currentDepthHeader : option jstr) (t : InvocationTracker) : result exn Z :=
  match currentDepthHeader with
  | None | Some [] => Ok 1
  | Some ((_ :: _) as header) =>
      throw_if (negb (depth_header_valid header)) ValidationFailedError ≫= λ _,
      let depth := num_of_digits header in
      let nextHop := depth + 1 in
      throw_if (maxCallDepth t <? nextHop) CallDepthExceededError ≫= λ _, Ok nextHop
  end.

(** ** UTF-8 lengths of prefixes *)

Lemma utf8_length_code_points cps :
  length (flat_map (λ cp, utf8 (if is_surrogate cp then 0xFFFD else cp)) cps) =
  sum_list_with (λ cp, length (utf8 (if is_surrogate cp then 0xFFFD else cp))) cps.
Proof. induction cps as [|cp cps IH]; [done|]. cbn. by rewrite length_app, IH. Qed.

Definition cp_bytes (cp : Z) : nat := length (utf8 (if is_surrogate cp then 0xFFFD else cp)).

Lemma utf8_length_sum s : utf8_length s = Z.of_nat (sum_list_with cp_bytes (code_points s)).
Proof. unfold utf8_length, text_encode. by rewrite utf8_length_code_points. Qed.

Lemma cp_bytes_pos cp : (1 <= cp_bytes cp)%nat.
Proof. apply utf8_length_pos. Qed.

Lemma cp_bytes_unit c : 0 <= c < 0x10000 → (cp_bytes c <= 3)%nat.
Proof.
  intros Hc. unfold cp_bytes, utf8. destruct (is_surrogate c); [cbn; lia|].
  destruct (c <? 0x80); [cbn; lia|]. destruct (c <? 0x800); [cbn; lia|].
  rewrite (proj2 (Z.ltb_lt _ _)) by lia. cbn. lia.
Qed.

Lemma pair_bytes h l : is_high h && is_low l = true →
  cp_bytes (0x10000 + (h - 0xD800) * 1024 + (l - 0xDC00)) = 4%nat.
Proof.
  unfold is_high, is_low. intros E. zbool. unfold cp_bytes, utf8, is_surrogate.
  rewrite (proj2 (andb_false_iff _ _)) by (right; apply Z.leb_gt; lia).
  rewrite !(proj2 (Z.ltb_ge _ _)) by lia. done.
Qed.

Definition bytes (s : jstr) : nat := sum_list_with cp_bytes (code_points s).

Lemma bytes_cons h s : (∀ l s', s = l :: s' → is_high h && is_low l = false) →
  bytes (h :: s) = (cp_bytes h + bytes s)%nat.
Proof.
  intros Hp. unfold bytes. destruct s as [|l s]; [cbn; lia|].
  rewrite code_points_cons2, (Hp l s eq_refl). done.
Qed.

Lemma bytes_pair h l s : is_high h && is_low l = true → bytes (h :: l :: s) = (4 + bytes s)%nat.
Proof.
  intros E. unfold bytes. rewrite code_points_cons2, E. cbn [sum_list_with]. by rewrite pair_bytes.
Qed.

(** A property of a string by its first character: empty, a pair, or a unit *)
Lemma jstr_char_ind (P : jstr → Prop) :
  P [] →
  (∀ h l s, is_high h && is_low l = true → P s → P (h :: l :: s)) →
  (∀ h s, (∀ l s', s = l :: s' → is_high h && is_low l = false) → P s → P (h :: s)) →
  ∀ s, P s.
Proof.
  intros H0 H2 H1 s. remember (length s) as n eqn:Hn. assert (length s <= n)%nat as Hle by lia. clear Hn.
  revert s Hle. induction n as [|n IH]; intros [|h [|l s]] Hle; cbn [length] in Hle; try lia; try done.
  - apply H1; [done|done].
  - destruct (is_high h && is_low l) eqn:E.
    + apply H2; [done|]. apply IH. lia.
    + apply H1; [by intros ? ? [= <- <-]|]. apply IH. cbn. lia.
Qed.

Lemma bytes_take_step s : ∀ k, jstr_wf s → (bytes (take k s) <= bytes (take (S k) s))%nat.
Proof.
  induction s as [|h l s E IH|h s E IH] using jstr_char_ind; intros k Hwf; [by rewrite !take_nil|..].
  - destruct k as [|[|k]]; cbn [take].
    + cbn. lia.
    + rewrite bytes_pair by done. rewrite bytes_cons by done. apply Forall_cons in Hwf as [Hh _].
      pose proof (cp_bytes_unit h Hh). unfold bytes at 1. cbn. lia.
    + rewrite !bytes_pair by done. apply Forall_cons in Hwf as [_ [_ Hwf]%Forall_cons].
      specialize (IH k Hwf). cbn [take] in IH. lia.
  - apply Forall_cons in Hwf as [_ Hwf]. destruct k as [|k]; [cbn; lia|]. cbn [take].
    assert (∀ j l s', take j s = l :: s' → is_high h && is_low l = false) as Ht.
    { intros j l s' Hj. destruct s as [|d s]; [by rewrite take_nil in Hj|]. destruct j; [done|].
      injection Hj as <- _. by eapply E. }
    rewrite (bytes_cons h (take k s)) by apply Ht.
    change (match s with [] => [] | a :: l => a :: take k l end) with (take (S k) s).
    rewrite (bytes_cons h (take (S k) s)) by apply Ht. specialize (IH k Hwf). lia.
Qed.

Lemma bytes_take_mono s j k : jstr_wf s → (j <= k)%nat → (bytes (take j s) <= bytes (take k s))%nat.
Proof. intros Hwf. induction 1 as [|k Hle IH]; [done|]. pose proof (bytes_take_step s k Hwf). lia. Qed.

Lemma bytes_length s : jstr_wf s → (length s <= bytes s)%nat.
Proof.
  induction s as [|h l s E IH|h s E IH] using jstr_char_ind; intros Hwf; [done|..].
  - apply Forall_cons in Hwf as [_ [_ Hwf]%Forall_cons]. rewrite bytes_pair by done. cbn. specialize (IH Hwf). lia.
  - apply Forall_cons in Hwf as [_ Hwf]. rewrite bytes_cons by done. cbn. specialize (IH Hwf).
    pose proof (cp_bytes_pos h). lia.
Qed.

Lemma utf8_length_bytes s : utf8_length s = Z.of_nat (bytes s).
Proof. apply utf8_length_sum. Qed.

(** ** The search finds the longest prefix *)

(** A cut at [k] does not follow a high surrogate. *)
Definition cut_ok (s : jstr) (k : nat) : Prop :=
  k = 0%nat ∨ k = length s ∨ is_high (nth (k - 1) s 0) = false.

Lemma slice_end_range s mid :
  0 <= mid <= Z.of_nat (length s) → mid - 1 <= slice_end s mid <= mid ∧ 0 <= slice_end s mid.
Proof.
  intros Hm. unfold slice_end. destruct (Z.ltb_spec 0 mid); cbn [andb]; [|lia].
  destruct (mid <? _); [|lia]. destruct (is_high _); lia.
Qed.

(** No admissible cut lies strictly between [slice_end s mid] and [mid]. *)
Lemma slice_end_cut s mid k :
  0 <= mid <= Z.of_nat (length s) → cut_ok s k → Z.of_nat k <= mid → Z.of_nat k <= slice_end s mid.
Proof.
  intros Hm Hk Hle. unfold slice_end. destruct (Z.ltb_spec 0 mid); cbn [andb]; [|lia].
  destruct (Z.ltb_spec mid (Z.of_nat (length s))); [|lia].
  destruct (is_high (nth (Z.to_nat (mid - 1)) s 0)) eqn:E; [|lia].
  destruct (Z.eq_dec (Z.of_nat k) mid) as [<-|]; [|lia]. destruct Hk as [->|[->|Hk]]; [lia..|].
  replace (Z.to_nat (Z.of_nat k - 1)) with (k - 1)%nat in E by lia. congruence.
Qed.

Section search.
Context (s : jstr) (max : Z) (Hwf : jstr_wf s).
Let len := Z.of_nat (length s).
Let fits (k : Z) : Prop := utf8_length (take (Z.to_nat k) s) <= max.

Lemma fits_mono j k : 0 <= j <= k → fits k → fits j.
Proof.
  intros Hjk. unfold fits. rewrite !utf8_length_bytes. pose proof (bytes_take_mono s (Z.to_nat j) (Z.to_nat k) Hwf ltac:(lia)). lia.
Qed.

Lemma truncate_loop_spec fuel : ∀ low high best,
  0 <= low → high <= len → 0 <= best <= len → fits best → high - low + 1 < Z.of_nat fuel →
  (∀ k, cut_ok s k → Z.of_nat k < low → Z.of_nat k <= best) →
  (∀ k, cut_ok s k → high < Z.of_nat k <= len → ¬ fits (Z.of_nat k)) →
  (best = 0 ∨ ∃ mid, 0 < mid <= len ∧ best = slice_end s mid) →
  let r := truncate_loop fuel s max low high best in
  0 <= r <= len ∧ fits r ∧ (∀ k, cut_ok s k → Z.of_nat k <= len → fits (Z.of_nat k) → Z.of_nat k <= r) ∧
  (r = 0 ∨ ∃ mid, 0 < mid <= len ∧ r = slice_end s mid).
Proof.
  cbv zeta. induction fuel as [|fuel IH]; intros low high best Hlow Hhigh Hbest Hfit Hfuel Hlo Hhi Hse;
    (assert (high < low → ∀ k, cut_ok s k → Z.of_nat k <= len → fits (Z.of_nat k) → Z.of_nat k <= best) as Hend
      by (intros Hgt k Hk Hkl Hfk; destruct (Z.lt_ge_cases (Z.of_nat k) low); [by apply Hlo|];
          exfalso; apply (Hhi k); [done|lia|done]));
    [cbn [truncate_loop]; split_and!; [lia|lia|done|apply Hend; cbn in Hfuel; lia|done]|].
  cbn [truncate_loop]. destruct (Z.leb_spec low high) as [Hle|Hgt].
  - set (mid := Z.shiftr (low + high) 1).
    assert (mid = (low + high) / 2) as Hmid by (unfold mid; by rewrite Z.shiftr_div_pow2).
    assert (low <= mid <= high) as Hm by (rewrite Hmid; Z.div_mod_to_equations; lia). clear Hmid.
    pose proof (slice_end_range s mid ltac:(fold len; lia)) as [Hr1 Hr2].
    destruct (Z.leb_spec (utf8_length (take (Z.to_nat (slice_end s mid)) s)) max) as [Hf|Hf].
    + apply IH; try lia.
      * destruct (Z.ltb_spec best (slice_end s mid)); lia.
      * by destruct (best <? slice_end s mid).
      * intros k Hk Hkm. assert (Z.of_nat k <= slice_end s mid) by (apply slice_end_cut; [fold len; lia|done|lia]).
        destruct (Z.ltb_spec best (slice_end s mid)); lia.
      * done.
      * destruct (Z.ltb_spec best (slice_end s mid)); [|done]. right. exists mid. lia.
    + apply IH; try lia; try done. intros k Hk Hkh. destruct (Z.le_gt_cases (Z.of_nat k) high) as [Hkl|Hkg].
      * intros Hfk. assert (fits (slice_end s mid)) as Hx by (apply (fits_mono _ (Z.of_nat k)); [lia|done]).
        unfold fits in Hx. lia.
      * apply Hhi; [done|lia].
  - split_and!; [lia|lia|done|by apply Hend|done].
Qed.
End search.

(** No lone surrogate *)
Definition well_paired (s : jstr) : Prop := existsb is_surrogate (code_points s) = false.

Lemma well_paired_take s : ∀ k, well_paired s → cut_ok s k → well_paired (take k s).
Proof.
  unfold well_paired. induction s as [|h l s E IH|h s E IH] using jstr_char_ind; intros k Hw Hk; [by rewrite take_nil|..].
  - rewrite code_points_cons2, E in Hw. cbn [existsb] in Hw. apply orb_false_iff in Hw as [Hp Hw].
    destruct k as [|[|k]]; [done| |].
    + destruct Hk as [?|[?|Hk]]; [done..|]. cbn in Hk. apply andb_true_iff in E as [E _]. congruence.
    + cbn [take]. rewrite code_points_cons2, E. cbn [existsb]. rewrite Hp. apply IH; [done|].
      destruct Hk as [?|[Hk|Hk]]; [done|right; left; cbn in Hk; lia|].
      destruct k as [|k]; [by left|]. right; right. cbn in Hk |- *. by rewrite Nat.sub_0_r in *.
  - destruct k as [|k]; [done|]. cbn [take].
    assert (is_surrogate h = false ∧ existsb is_surrogate (code_points s) = false) as [Hh Hs].
    { destruct s as [|l s]; [cbn in Hw; by rewrite orb_false_r in Hw|].
      rewrite code_points_cons2, (E l s eq_refl) in Hw. cbn [existsb] in Hw. by apply orb_false_iff in Hw. }
    assert (is_high h = false) as Hnh.
    { unfold is_surrogate, is_high in *. apply andb_false_iff in Hh. apply andb_false_iff.
      destruct Hh as [Hh|Hh]; [by left|right]. apply Z.leb_gt in Hh. apply Z.leb_gt. lia. }
    assert (code_points (h :: take k s) = h :: code_points (take k s)) as ->.
    { destruct (take k s) as [|d t]; [done|]. rewrite code_points_cons2, Hnh. done. }
    cbn [existsb]. rewrite Hh. apply IH; [done|].
    destruct Hk as [?|[Hk|Hk]]; [done|right; left; cbn in Hk; lia|].
    destruct k as [|k]; [by left|]. right; right. cbn in Hk |- *. by rewrite Nat.sub_0_r in *.
Qed.

(** No two high surrogates in a row *)
Definition no_double_high (s : jstr) : Prop :=
  ∀ k, (S k < length s)%nat → is_high (nth (S k) s 0) = true → is_high (nth k s 0) = false.

Lemma surrogate_high c : is_surrogate c = false → is_high c = false.
Proof.
  unfold is_surrogate, is_high. rewrite !andb_false_iff, !Z.leb_gt. lia.
Qed.

Lemma well_paired_cons h s :
  (∀ l s', s = l :: s' → is_high h && is_low l = false) → well_paired (h :: s) →
  is_surrogate h = false ∧ well_paired s.
Proof.
  unfold well_paired. intros E Hw. destruct s as [|l s]; [cbn in Hw; by rewrite orb_false_r in Hw|].
  rewrite code_points_cons2, (E l s eq_refl) in Hw. cbn [existsb] in Hw. by apply orb_false_iff in Hw.
Qed.

Lemma well_paired_no_double s : well_paired s → no_double_high s.
Proof.
  unfold no_double_high. induction s as [|h l s E IH|h s E IH] using jstr_char_ind;
    intros Hw k Hk Hh; [cbn in Hk; lia|..].
  - unfold well_paired in Hw. rewrite code_points_cons2, E in Hw. cbn [existsb] in Hw.
    apply orb_false_iff in Hw as [_ Hw]. apply andb_true_iff in E as [_ E]. unfold is_high, is_low in *.
    destruct k as [|[|k]]; cbn [nth] in *.
    + zbool. lia.
    + apply andb_false_iff. right. apply Z.leb_gt. zbool. lia.
    + apply IH; [done|cbn in Hk; lia|done].
  - apply well_paired_cons in Hw as [Hs Hw]; [|done].
    destruct k as [|k]; cbn [nth] in *; [by apply surrogate_high|]. apply IH; [done|cbn in Hk; lia|done].
Qed.

Lemma no_double_take s n : no_double_high s → no_double_high (take n s).
Proof.
  intros Hs k Hk Hh. rewrite length_take in Hk.
  assert (∀ i, (i < n `min` length s)%nat → nth i (take n s) 0 = nth i s 0) as Hn.
  { intros i Hi. rewrite <-(take_drop n s) at 2. rewrite app_nth1; [done|]. rewrite length_take. lia. }
  rewrite Hn in * by lia. apply Hs; [lia|done].
Qed.

(** A cut chosen by [slice_end] does not split a pair. *)
Lemma slice_end_ok s mid :
  no_double_high s → 0 < mid <= Z.of_nat (length s) → cut_ok s (Z.to_nat (slice_end s mid)).
Proof.
  intros Hw Hm. unfold slice_end. rewrite (proj2 (Z.ltb_lt 0 mid)) by lia. cbn [andb].
  destruct (Z.ltb_spec mid (Z.of_nat (length s))) as [Hl|Hl]; [|right; left; lia].
  destruct (is_high (nth (Z.to_nat (mid - 1)) s 0)) eqn:E.
  - destruct (Z.eq_dec mid 1) as [->|Hne]; [left; lia|]. right; right.
    replace (Z.to_nat (mid - 1) - 1)%nat with (Z.to_nat (mid - 2)) by lia.
    replace (Z.to_nat (mid - 1)) with (S (Z.to_nat (mid - 2))) in E by lia.
    apply Hw; [lia|done].
  - right; right. by replace (Z.to_nat mid - 1)%nat with (Z.to_nat (mid - 1)) by lia.
Qed.

Lemma cut_ok_take s n k : (k <= n)%nat → (n < length s)%nat → cut_ok s k → cut_ok (take n s) k.
Proof.
  intros Hk Hn [->|[->|Hc]]; [by left|lia|]. destruct (decide (k = 0%nat)) as [->|]; [by left|].
  right; right. rewrite <-Hc. f_equal. rewrite <-(take_drop n s) at 2. rewrite app_nth1; [done|].
  rewrite length_take. lia.
Qed.

Lemma cut_ok_untake s n k : (k < length (take n s))%nat → cut_ok (take n s) k → cut_ok s k.
Proof.
  intros Hk [->|[->|Hc]]; [by left|lia|]. destruct (decide (k = 0%nat)) as [->|]; [by left|].
  right; right. rewrite <-Hc. f_equal. rewrite <-(take_drop n s) at 1. rewrite app_nth1; [done|lia].
Qed.

(** Units that take one byte each are not surrogates. *)
Lemma one_byte_units t : ∀ i, bytes t = length t → jstr_wf t → (i < length t)%nat → is_high (nth i t 0) = false.
Proof.
  induction t as [|h l t E IH|h t E IH] using jstr_char_ind; intros i Hb Hwf Hi; [cbn in Hi; lia|..].
  - rewrite bytes_pair in Hb by done. apply Forall_cons in Hwf as [_ [_ Hwf]%Forall_cons].
    pose proof (bytes_length t Hwf). cbn in Hb. lia.
  - rewrite bytes_cons in Hb by done. apply Forall_cons in Hwf as [_ Hwf]. pose proof (bytes_length t Hwf).
    cbn in Hb. pose proof (cp_bytes_pos h). destruct i as [|i]; cbn [nth].
    + destruct (is_high h) eqn:Eh; [|done]. exfalso.
      assert (cp_bytes h = 3%nat) as H3; [|lia]. unfold cp_bytes.
      assert (is_surrogate h = true) as ->; [|done]. unfold is_high, is_surrogate in *. zbool.
      apply andb_true_iff. rewrite !Z.leb_le. lia.
    + apply IH; [lia|done|cbn in Hi; lia].
Qed.

Lemma take_bytes_length s k max :
  jstr_wf s → (k <= length s)%nat → utf8_length (take k s) <= max → (k <= Z.to_nat max)%nat.
Proof.
  intros Hwf Hk. rewrite utf8_length_bytes. pose proof (bytes_length (take k s) (Forall_take _ _ _ Hwf)) as Hb.
  rewrite length_take in Hb. lia.
Qed.

(** The longest prefix of [s] within [max] bytes that does not split a character *)
Definition longest_prefix (s : jstr) (max : Z) (n : nat) : Prop :=
  (n <= length s)%nat ∧ utf8_length (take n s) <= Z.max 0 max ∧
  (∀ k, cut_ok s k → (k <= length s)%nat → utf8_length (take k s) <= max → (k <= n)%nat) ∧
  (well_paired s → well_paired (take n s)).

(** The first [max] units fit: they are all ASCII, or the whole string. *)
Lemma longest_candidate s max :
  jstr_wf s → 0 < max → utf8_length (take (Z.to_nat max) s) <= max →
  longest_prefix s max (Z.to_nat max `min` length s).
Proof.
  intros Hwf Hm Hf. assert (take (Z.to_nat max `min` length s) s = take (Z.to_nat max) s) as E.
  { destruct (Nat.le_gt_cases (length s) (Z.to_nat max)).
    - by rewrite Nat.min_r, firstn_all, take_ge.
    - by rewrite Nat.min_l by lia. }
  unfold longest_prefix. rewrite E. split_and!; [lia|lia| |].
  - intros k _ Hk Hkf. pose proof (take_bytes_length s k max Hwf Hk Hkf). lia.
  - intros Hw. destruct (Nat.le_gt_cases (length s) (Z.to_nat max)) as [Hl|Hl]; [by rewrite take_ge|].
    apply well_paired_take; [done|]. right; right.
    assert (jstr_wf (take (Z.to_nat max) s)) as Hcwf by (by apply Forall_take).
    assert (length (take (Z.to_nat max) s) = Z.to_nat max) as Hlen by (rewrite length_take; lia).
    rewrite <-(take_drop (Z.to_nat max) s), app_nth1 by lia. apply one_byte_units; [|done|lia].
    pose proof (bytes_length _ Hcwf). rewrite utf8_length_bytes in Hf. lia.
Qed.

(** The search among the first [max] units *)
Lemma longest_search s max r :
  jstr_wf s → 0 < max → max < utf8_length (take (Z.to_nat max) s) →
  let c := take (Z.to_nat max) s in
  let len := Z.of_nat (length c) in
  0 <= r <= len → utf8_length (take (Z.to_nat r) c) <= max →
  (∀ k, cut_ok c k → Z.of_nat k <= len → utf8_length (take (Z.to_nat (Z.of_nat k)) c) <= max → Z.of_nat k <= r) →
  (r = 0 ∨ ∃ mid, 0 < mid <= len ∧ r = slice_end c mid) →
  take (Z.to_nat r) c = take (Z.to_nat r) s ∧ longest_prefix s max (Z.to_nat r).
Proof.
  intros Hwf Hm Hf c len Hr Hfit Hmax Hse.
  assert (length c <= length s)%nat as Hcl by (unfold c; rewrite length_take; lia).
  assert (∀ k, (k <= length c)%nat → take k c = take k s) as Ht.
  { intros k Hk. unfold c in *. rewrite take_take. f_equal. rewrite length_take in Hk. lia. }
  assert (r < len) as Hlt.
  { destruct (Z.eq_dec r len) as [->|]; [|lia]. exfalso. unfold len in Hfit. rewrite Nat2Z.id, firstn_all in Hfit.
    unfold c in Hfit. lia. }
  rewrite Ht in * by lia. split; [done|]. split_and!; [lia|lia| |].
  - intros k Hk Hks Hkf. pose proof (take_bytes_length s k max Hwf Hks Hkf) as Hkm.
    assert (k < length c)%nat as Hkc.
    { destruct (decide (k = length c)) as [->|]; [|unfold c in *; rewrite length_take in *; lia].
      exfalso. rewrite <-Ht, firstn_all in Hkf by lia. unfold c in Hkf. lia. }
    assert (Z.of_nat k <= r); [|lia]. apply Hmax; [|lia|by rewrite Nat2Z.id, Ht by lia].
    destruct (Nat.le_gt_cases (length s) (Z.to_nat max)) as [Hl|Hl].
    + unfold c. by rewrite take_ge.
    + by apply cut_ok_take.
  - intros Hw. apply well_paired_take; [done|]. destruct Hse as [->|(mid & Hmid & Er)]; [by left|].
    apply (cut_ok_untake s (Z.to_nat max)); [fold c; lia|]. fold c. rewrite Er.
    apply slice_end_ok; [by apply no_double_take, well_paired_no_double|done].
Qed.

Lemma truncate_spec s max : jstr_wf s →
  ∃ n, truncateToUtf8Bytes s max = take n s ∧ longest_prefix s max n.
Proof.
  intros Hwf. unfold truncateToUtf8Bytes. destruct (Z.leb_spec max 0) as [Hm|Hm].
  { exists 0%nat. split; [done|]. split_and!; [lia|rewrite utf8_length_bytes; change (bytes (take 0 s)) with 0%nat; lia| |done].
    intros k _ Hk Hkf. pose proof (take_bytes_length s k max Hwf Hk Hkf). lia. }
  destruct (Z.leb_spec (utf8_length (take (Z.to_nat max) s)) max) as [Hf|Hf].
  - exists (Z.to_nat max `min` length s)%nat. split; [|by apply longest_candidate].
    destruct (Nat.le_gt_cases (length s) (Z.to_nat max)).
    + by rewrite Nat.min_r, firstn_all, take_ge.
    + by rewrite Nat.min_l by lia.
  - set (c := take (Z.to_nat max) s) in *. assert (jstr_wf c) as Hcwf by (by apply Forall_take).
    pose proof (truncate_loop_spec c max Hcwf (length c + 2) 0 (Z.of_nat (length c)) 0) as Hloop. cbv zeta in Hloop.
    destruct Hloop as (Hr & Hfit & Hmax & Hse);
      [lia|lia|lia|rewrite utf8_length_bytes; change (bytes (take (Z.to_nat 0) c)) with 0%nat; lia|lia|intros; lia|intros; lia|by left|].
    exists (Z.to_nat (truncate_loop (length c + 2) c max 0 (Z.of_nat (length c)) 0)). by apply longest_search.
Qed.

(** ** Budgets over a whole invocation *)

Inductive tracker_call := KvOp | ObjectOp | QueueOp | Log (chunk : jstr).
Inductive tracker_reply := Counted (ok : bool) | Logged (output : jstr).

#[export] Instance tracker_reply_eq_dec : EqDecision tracker_reply.
Proof. solve_decision. Defined.

Definition tracker_step (t : InvocationTracker) (c : tracker_call) : InvocationTracker * tracker_reply :=
  let count (m : stm InvocationTracker exn unit) := let '(t, r) := m t in (t, Counted (is_ok r)) in
  match c with
  | KvOp => count recordKvOp
  | ObjectOp => count recordObjectOp
  | QueueOp => count recordQueueOp
  | Log chunk => let '(t, (output, _)) := appendLog chunk t in (t, Logged output)
  end.

(** The calls of an invocation with their replies *)
Fixpoint tracker_run (t : InvocationTracker) (cs : list tracker_call)
    : InvocationTracker * list (tracker_call * tracker_reply) :=
  match cs with
  | [] => (t, [])
  | c :: cs =>
      let '(t, r) := tracker_step t c in
      let '(t, rs) := tracker_run t cs in (t, (c, r) :: rs)
  end.

(** How many calls of a kind there were, and how many were granted *)
Definition is_kind (kind c : tracker_call) : bool :=
  match kind, c with KvOp, KvOp | ObjectOp, ObjectOp | QueueOp, QueueOp => true | _, _ => false end.
Definition asked (kind : tracker_call) (cs : list tracker_call) : Z :=
  Z.of_nat (length (filter (λ c, is_kind kind c = true) cs)).
Definition granted (kind : tracker_call) (rs : list (tracker_call * tracker_reply)) : Z :=
  Z.of_nat (length (filter (λ e, is_kind kind e.1 = true ∧ e.2 = Counted true) rs)).

Definition chunks_of (cs : list tracker_call) : list jstr :=
  omap (λ c, match c with Log chunk => Some chunk | _ => None end) cs.
Definition outputs_of (rs : list (tracker_call * tracker_reply)) : list jstr :=
  omap (λ e, match e.2 with Logged output => Some output | _ => None end) rs.
Definition total_bytes (chunks : list jstr) : Z := foldr (λ c n, utf8_length c + n) 0 chunks.

(** The counter and the limit of a kind *)
Definition counter (kind : tracker_call) (t : InvocationTracker) : Z :=
  match kind with KvOp => kvOps t | ObjectOp => objectOps t | QueueOp => queueOps t | Log _ => 0 end.
Definition limit (kind : tracker_call) (t : InvocationTracker) : Z :=
  match kind with KvOp => maxKvOps t | ObjectOp => maxObjectOps t | QueueOp => maxQueueOps t | Log _ => 0 end.

Lemma appendLog_counters kind chunk t :
  counter kind (appendLog chunk t).1 = counter kind t ∧ limit kind (appendLog chunk t).1 = limit kind t.
Proof.
  unfold appendLog. destruct (logTruncated t); [done|]. destruct (_ <=? _); by destruct kind.
Qed.

Lemma tracker_step_count kind c t :
  let '(t', r) := tracker_step t c in
  limit kind t' = limit kind t ∧
  (if is_kind kind c then
     if limit kind t <=? counter kind t then counter kind t' = counter kind t ∧ r = Counted false
     else counter kind t' = counter kind t + 1 ∧ r = Counted true
   else counter kind t' = counter kind t).
Proof.
  destruct c as [| | |chunk]; cbn [tracker_step];
    [unfold recordKvOp|unfold recordObjectOp|unfold recordQueueOp|].
  1-3: destruct kind; cbn [is_kind counter limit]; destruct (_ <=? _); cbn; done.
  pose proof (appendLog_counters kind chunk t) as [H1 H2].
  destruct (appendLog chunk t) as [t' [output tr]]. cbn in *. by destruct kind.
Qed.

Lemma granted_spec kind cs : ∀ t, counter kind t <= Z.max (counter kind t) (limit kind t) →
  granted kind (tracker_run t cs).2 =
  Z.min (asked kind cs) (Z.max 0 (limit kind t - counter kind t)).
Proof.
  induction cs as [|c cs IH]; intros t _; [unfold asked, granted; cbn; lia|]. cbn [tracker_run].
  pose proof (tracker_step_count kind c t) as Hs. destruct (tracker_step t c) as [t1 r].
  destruct Hs as [Hl Hc]. specialize (IH t1 ltac:(lia)).
  destruct (tracker_run t1 cs) as [t2 rs]. cbn [snd] in *. rewrite Hl in IH.
  unfold asked, granted in *. rewrite !filter_cons. cbn [fst snd].
  destruct (is_kind kind c) eqn:Ek.
  - rewrite (decide_True (P := true = true)) by done. cbn [length].
    destruct (Z.leb_spec (limit kind t) (counter kind t)); destruct Hc as [Hc ->].
    + rewrite decide_False by (by intros [_ ?]). rewrite IH, Hc. lia.
    + rewrite decide_True by done. cbn [length]. rewrite Nat2Z.inj_succ, IH, Hc. lia.
  - rewrite decide_False by (by intros [? _]). rewrite (decide_False (P := false = true)) by done.
    by rewrite IH, Hc.
Qed.

(** After truncation nothing more is logged. *)
Lemma run_truncated cs : ∀ t, logTruncated t = true →
  outputs_of (tracker_run t cs).2 = replicate (length (chunks_of cs)) [].
Proof.
  induction cs as [|c cs IH]; intros t Ht; [done|]. cbn [tracker_run].
  assert (∃ t', (tracker_step t c).1 = t' ∧ logTruncated t' = true ∧
    (∀ chunk, c = Log chunk → (tracker_step t c).2 = Logged []) ∧
    ((∀ chunk, c ≠ Log chunk) → ∃ ok, (tracker_step t c).2 = Counted ok)) as (t' & E1 & Ht' & Hlog & Hcnt).
  { destruct c as [| | |chunk]; cbn [tracker_step];
      [unfold recordKvOp|unfold recordObjectOp|unfold recordQueueOp|].
    1-3: destruct (_ <=? _); eexists; split_and!; try reflexivity; try done; eauto.
    unfold appendLog. rewrite Ht. eexists. split_and!; try reflexivity; try done.
    intros Hn. by destruct (Hn chunk). }
  specialize (IH t' Ht'). destruct (tracker_step t c) as [t1 r]. cbn [fst snd] in *. subst t1.
  destruct (tracker_run t' cs) as [t2 rs]. cbn [snd] in *.
  destruct c as [| | |chunk]; try (destruct (Hcnt ltac:(done)) as [ok ->]; exact IH).
  rewrite (Hlog chunk eq_refl). cbn. by f_equal.
Qed.

(** What is logged: every chunk while the budget lasts, then the longest prefix
    that fits with the marker, then nothing. *)
Definition log_result (max : Z) (chunks outputs : list jstr) : Prop :=
  ∃ pre post, chunks = pre ++ post ∧ (pre = [] ∨ total_bytes pre <= max) ∧
    match post with
    | [] => outputs = pre
    | chunk :: rest => max < total_bytes pre + utf8_length chunk ∧
        ∃ n, longest_prefix chunk (max - total_bytes pre) n ∧
          outputs = pre ++ (take n chunk ++ LOG_TRUNCATED_MARKER) :: replicate (length rest) []
    end.

Lemma total_bytes_cons c cs : total_bytes (c :: cs) = utf8_length c + total_bytes cs.
Proof. reflexivity. Qed.

Lemma log_result_cons max chunk chunks outputs :
  utf8_length chunk <= max → log_result (max - utf8_length chunk) chunks outputs →
  log_result max (chunk :: chunks) (chunk :: outputs).
Proof.
  intros Hle (pre & post & -> & Hpre & Hpost). exists (chunk :: pre), post. split; [done|]. split.
  - right. rewrite total_bytes_cons. destruct Hpre as [->|?]; [change (total_bytes []) with 0|]; lia.
  - rewrite total_bytes_cons. destruct post as [|c rest]; [by rewrite Hpost|]. destruct Hpost as (Hlt & n & Hn & ->).
    split; [lia|]. exists n. split; [|done].
    by replace (max - (utf8_length chunk + total_bytes pre)) with (max - utf8_length chunk - total_bytes pre) by lia.
Qed.

(** The rest of a run after a call that logs nothing *)
Ltac run_on IH Ht Hwf :=
  cbn [is_ok];
  match goal with |- context [tracker_run ?t' ?cs] =>
    specialize (IH t' Ht Hwf); destruct (tracker_run t' cs); exact IH end.

Lemma run_log cs : ∀ t, logTruncated t = false → Forall jstr_wf (chunks_of cs) →
  log_result (maxLogBytes t - currentLogBytes t) (chunks_of cs) (outputs_of (tracker_run t cs).2).
Proof.
  induction cs as [|c cs IH]; intros t Ht Hwf; [exists [], []; by auto|]. cbn [tracker_run].
  destruct c as [| | |chunk]; cbn [tracker_step].
  - unfold recordKvOp. destruct (maxKvOps t <=? kvOps t); run_on IH Ht Hwf.
  - unfold recordObjectOp. destruct (maxObjectOps t <=? objectOps t); run_on IH Ht Hwf.
  - unfold recordQueueOp. destruct (maxQueueOps t <=? queueOps t); run_on IH Ht Hwf.
  - cbn in Hwf. apply Forall_cons in Hwf as [Hc Hwf]. unfold appendLog. rewrite Ht.
    destruct (Z.leb_spec (currentLogBytes t + utf8_length chunk) (maxLogBytes t)) as [Hle|Hgt].
    + match goal with |- context [tracker_run ?t' cs] => specialize (IH t' eq_refl Hwf);
        destruct (tracker_run t' cs) as [t2 rs] end.
      cbn [maxLogBytes currentLogBytes with_counts snd] in IH.
      apply log_result_cons; [lia|].
      by replace (maxLogBytes t - currentLogBytes t - utf8_length chunk) with
        (maxLogBytes t - (currentLogBytes t + utf8_length chunk)) by lia.
    + match goal with |- context [tracker_run ?t' cs] => pose proof (run_truncated cs t' eq_refl) as Hr;
        destruct (tracker_run t' cs) as [t2 rs] end.
      destruct (truncate_spec chunk (maxLogBytes t - currentLogBytes t) Hc) as (n & -> & Hn).
      exists [], (chunk :: chunks_of cs). split; [done|]. split; [by left|].
      change (total_bytes []) with 0. split; [lia|]. exists n. rewrite Z.sub_0_r. split; [done|]. cbn [snd] in Hr |- *. by rewrite <-Hr.
Qed.

(** A chain of [n + 1] calls, each passing [String(depth)] of the previous one *)
Fixpoint hops (t : InvocationTracker) (n : nat) : result exn Z :=
  match n with
  | O => checkCallDepth None t
  | S n => hops t n ≫= λ depth, checkCallDepth (Some (string_of_nat depth)) t
  end.

Lemma checkCallDepth_number t d : 0 <= d →
  checkCallDepth (Some (string_of_nat d)) t =
  if maxCallDepth t <? d + 1 then Err CallDepthExceededError else Ok (d + 1).
Proof.
  intros Hd. destruct (string_of_nat_spec d Hd) as (Hne & Hdig & Hnum). unfold checkCallDepth.
  destruct (string_of_nat d) as [|c s] eqn:E; [done|]. unfold depth_header_valid.
  rewrite Hdig, Hnum, (proj2 (jstr_eqb_neq _ _)) by done. cbn. by destruct (_ <? _).
Qed.

Lemma hops_spec t n :
  hops t n = if (Z.of_nat n =? 0) || (Z.of_nat n + 1 <=? maxCallDepth t) then Ok (Z.of_nat n + 1)
             else Err CallDepthExceededError.
Proof.
  induction n as [|n IH]; [done|]. cbn [hops]. rewrite IH.
  destruct (Z.eqb_spec (Z.of_nat n) 0), (Z.eqb_spec (Z.of_nat (S n)) 0), (Z.leb_spec (Z.of_nat n + 1) (maxCallDepth t)),
    (Z.leb_spec (Z.of_nat (S n) + 1) (maxCallDepth t)); cbn [orb]; try lia; try done;
    cbn [mbind result_bind]; rewrite checkCallDepth_number by lia;
    destruct (Z.ltb_spec (maxCallDepth t) (Z.of_nat n + 1 + 1)); try lia; try done; f_equal; lia.
Qed.

(** C38: The budgets of one invocation (FN-5, FN-7): whatever calls a function makes
    in whatever order, exactly the first [max] operations of each kind are
    granted; the log keeps every chunk within the byte budget, then the longest
    prefix of the next chunk that fits and splits no character, with the marker,
    and nothing afterwards; and a chain of nested calls is refused from the hop
    after the maximal depth on. *)
Theorem invocation_budgets limits cs :
  let t := createInvocationTracker limits in
  Forall jstr_wf (chunks_of cs) →
  (∀ kind, (∀ chunk, kind ≠ Log chunk) →
    granted kind (tracker_run t cs).2 = Z.min (asked kind cs) (Z.max 0 (limit kind t))) ∧
  log_result (maxLogBytes t) (chunks_of cs) (outputs_of (tracker_run t cs).2) ∧
  ∀ n, hops t n = if (Z.of_nat n =? 0) || (Z.of_nat n + 1 <=? maxCallDepth t) then Ok (Z.of_nat n + 1)
                  else Err CallDepthExceededError.
Proof.
  cbv zeta. intros Hwf. split_and!.
  - intros kind Hk. rewrite granted_spec by lia.
    assert (counter kind (createInvocationTracker limits) = 0) as -> by (by destruct kind). by rewrite Z.sub_0_r.
  - pose proof (run_log cs (createInvocationTracker limits) eq_refl Hwf) as H.
    cbn [currentLogBytes createInvocationTracker] in H. by rewrite Z.sub_0_r in H.
  - apply hops_spec.
Qed.

(** A budget of 5 bytes cut before the 4-byte character; two operations allowed. *)
Definition small_limits : InvocationOperationLimits :=
  {| l_maxKvOps := Some 2; l_maxObjectOps := None; l_maxQueueOps := None; l_maxLogBytes := Some 5;
     l_maxCallDepth := None |}.
Definition busy_calls : list tracker_call :=
  [KvOp; Log (js "ab"); KvOp; KvOp; Log [chr "c"; 0xD83D; 0xDE00; chr "d"]; Log (js "e")].

Theorem invocation_budgets_witness :
  let t := createInvocationTracker (Some small_limits) in
  granted KvOp (tracker_run t busy_calls).2 = 2 ∧
  outputs_of (tracker_run t busy_calls).2 = [js "ab"; js "c[LOG_TRUNCATED]"; []] ∧
  log_result 5 (chunks_of busy_calls) (outputs_of (tracker_run t busy_calls).2).
Proof.
  cbv zeta. destruct (invocation_budgets (Some small_limits) busy_calls) as (Hg & Hl & _).
  { repeat constructor; vm_compute; discriminate. }
  split; [|split; [vm_compute; reflexivity|exact Hl]].
  rewrite Hg by discriminate. vm_compute. reflexivity.
Defined.
