(* ===== verification/KillEnforcer.v ===== *)
(** * Kill switches and payload limits ([runtime/limits/kill-enforcer.ts], FN-5)

    A stream is the sequence of what its reader's [read()] calls yield; the end
    of the list is [done].  The effects on the stream (how many reads, cancelled
    or not) are part of the results. *)

From S2P Require Import Prelude JsString JsNumber JsValue Errors.
From Stdlib Require Import QArith.

Open Scope Z_scope.

Definition DEFAULT_MAX_REQUEST_BODY_BYTES : Z := 10 * 1024 * 1024.
Definition DEFAULT_MAX_RESPONSE_BODY_BYTES : Z := 10 * 1024 * 1024.
Definition DEFAULT_MAX_STREAMED_BYTES : Z := 512 * 1024 * 1024.

(** Option values as they arrive, of any type; [JUndef] when absent *)
Record ResourceKillOptions := {
  o_timeoutMs : jsval;
  o_cpuMs : jsval;
  o_maxRequestBodyBytes : jsval;
  o_maxResponseBodyBytes : jsval;
  o_maxStreamedBytes : jsval
}.

(** The limits are numbers above zero, possibly [Infinity]. *)
Record KillEnforcer := {
  timeoutMs : jsnum;
  cpuMs : jsnum;
  maxRequestBodyBytes : jsnum;
  maxResponseBodyBytes : jsnum;
  maxStreamedBytes : jsnum
}.

(** [typeof v !== "number" || Number.isNaN(v) || v <= 0] *)
Definition not_positive (v : jsval) : bool :=
  match v with
  | JNum NaN => true
  | JNum n => num_leb n 0
  | _ => true
  end.

Definition as_num (v : jsval) : jsnum := match v with JNum n => n | _ => NaN end.
(** [v ?? dflt] for a value that is a number or [undefined] *)
Definition num_or (v : jsval) (dflt : Z) : jsnum :=
  match v with JUndef | JNull => Fin (inject_Z dflt) | _ => as_num v end.

Definition createKillEnforcer (options : ResourceKillOptions) : result exn KillEnforcer :=
  throw_if (not_positive (o_timeoutMs options)) ValidationFailedError ≫= λ _,
  throw_if (not_positive (o_cpuMs options)) ValidationFailedError ≫= λ _,
  throw_if (negb (is_undefined (o_maxRequestBodyBytes options)) &&
            not_positive (o_maxRequestBodyBytes options)) ValidationFailedError ≫= λ _,
  throw_if (negb (is_undefined (o_maxResponseBodyBytes options)) &&
            not_positive (o_maxResponseBodyBytes options)) ValidationFailedError ≫= λ _,
  throw_if (negb (is_undefined (o_maxStreamedBytes options)) &&
            not_positive (o_maxStreamedBytes options)) ValidationFailedError ≫= λ _,
  Ok {| timeoutMs := as_num (o_timeoutMs options);
        cpuMs := as_num (o_cpuMs options);
        maxRequestBodyBytes := num_or (o_maxRequestBodyBytes options) DEFAULT_MAX_REQUEST_BODY_BYTES;
        maxResponseBodyBytes := num_or (o_maxResponseBodyBytes options) DEFAULT_MAX_RESPONSE_BODY_BYTES;
        maxStreamedBytes := num_or (o_maxStreamedBytes options) DEFAULT_MAX_STREAMED_BYTES |}.

(** [n > limit] for a byte count [n] *)
Definition exceeds (n : Z) (limit : jsnum) : bool := num_ltb limit (inject_Z n).

(** ** Streams *)

(** What one [read()] that is not [done] yields: a chunk, no value, or a
    rejection. *)
Inductive read_event := RChunk (bytes : list Z) | RNoValue | RError (e : exn).

Record byte_stream := { locked : bool; reads : list read_event }.

(** How a stream was left: the number of reads, and whether it was cancelled *)
Record stream_use := { read_calls : nat; cancelled : bool }.
Definition untouched : stream_use := {| read_calls := 0; cancelled := false |}.

(** The reading loop, then the concatenation of the chunks *)
Fixpoint read_body (limit : jsnum) (events : list read_event) (chunks : list (list Z)) (totalBytes : Z)
    (n : nat) : result exn (list Z) * stream_use :=
  match events with
  | [] => (Ok (concat chunks), {| read_calls := S n; cancelled := false |})
  | RNoValue :: events => read_body limit events chunks totalBytes (S n)
  | RError e :: _ => (Err e, {| read_calls := S n; cancelled := false |})
  | RChunk value :: events =>
      let totalBytes := totalBytes + Z.of_nat (length value) in
      if exceeds totalBytes limit
      then (Err PayloadTooLargeError, {| read_calls := S n; cancelled := true |})
      else read_body limit events (chunks ++ [value]) totalBytes (S n)
  end.

(** [typeof n !== "number" || isNaN(n) || !isInteger(n) || n < 0] *)
Definition bad_content_length (v : jsval) : bool :=
  match v with
  | JNum n => negb (num_is_integer n) || num_ltb n 0
  | _ => true
  end.
(** [contentLength > limit] for an integer *)
Definition length_exceeds (v : jsval) (limit : jsnum) : bool :=
  match v with JNum (Fin q) => num_ltb limit q | _ => false end.

Definition validateRequestBody (k : KillEnforcer) (contentLength : jsval) (bodyStream : option byte_stream)
    : result exn (list Z) * stream_use :=
  if negb (is_undefined contentLength) && bad_content_length contentLength then
    (Err ValidationFailedError, untouched)
  else if negb (is_undefined contentLength) && length_exceeds contentLength (maxRequestBodyBytes k) then
    (Err PayloadTooLargeError,
     {| read_calls := 0; cancelled := match bodyStream with Some s => negb (locked s) | None => false end |})
  else
    match bodyStream with
    | None => (Ok [], untouched)
    | Some s =>
        if locked s then (Err TypeError, untouched)
        else read_body (maxRequestBodyBytes k) (reads s) [] 0 0
    end.

(** ** Response streams *)

(** What [pull] does to the wrapped stream's controller *)
Inductive controller_event := Enqueue (bytes : list Z) | Close | Errored (e : exn).

(** One [pull]: the read it takes ([None]: [done]), and the count of emitted
    bytes.  A read without value makes [value.byteLength] throw. *)
Definition pull (maxStreamed : jsnum) (read : option read_event) (emittedBytes : Z)
    : Z * controller_event :=
  match read with
  | None => (emittedBytes, Close)
  | Some (RError e) => (emittedBytes, Errored e)
  | Some RNoValue => (emittedBytes, Errored TypeError)
  | Some (RChunk value) =>
      let emittedBytes := emittedBytes + Z.of_nat (length value) in
      if exceeds emittedBytes maxStreamed then (emittedBytes, Errored PayloadTooLargeError)
      else (emittedBytes, Enqueue value)
  end.

(** The pulls of a consumer that reads to the end: a closed or errored stream is
    not pulled again. *)
Fixpoint pulls (maxStreamed : jsnum) (events : list read_event) (emittedBytes : Z)
    : list (list Z) * controller_event :=
  match events with
  | [] => ([], (pull maxStreamed None emittedBytes).2)
  | e :: events =>
      match pull maxStreamed (Some e) emittedBytes with
      | (emittedBytes, Enqueue value) =>
          let '(out, final) := pulls maxStreamed events emittedBytes in (value :: out, final)
      | (_, final) => ([], final)
      end
  end.

Definition wrapResponseStream (k : KillEnforcer) (stream : list read_event)
    : list (list Z) * controller_event := pulls (maxStreamedBytes k) stream 0.

(** ** CPU and wall clock *)

(** [cpuTimeMs >= this.cpuMs] with neither NaN *)
Definition num_ge (a b : jsnum) : bool :=
  match a, b with
  | Fin p, Fin q => Qle_bool q p
  | Inf false, _ => true
  | Fin _, Inf neg => neg
  | _, _ => false
  end.

Definition checkCpuLimit (k : KillEnforcer) (cpuTimeMs : jsval) : result exn unit :=
  match cpuTimeMs with
  | JNum NaN => Err ValidationFailedError
  | JNum n =>
      throw_if (num_ltb n 0) ValidationFailedError ≫= λ _,
      throw_if (num_ge n (cpuMs k)) TimeoutError
  | _ => Err ValidationFailedError
  end.

(** [createAbortController]: whether the timer is pending, and the signal's
    reason once aborted *)
Record abort_state := { timer_pending : bool; aborted : option exn }.
Definition armed : abort_state := {| timer_pending := true; aborted := None |}.
(** The timer's callback, which the platform runs only while it is pending *)
Definition timer_fires (s : abort_state) : abort_state :=
  if timer_pending s then {| timer_pending := false; aborted := Some TimeoutError |} else s.
Definition cleanup (s : abort_state) : abort_state :=
  {| timer_pending := false; aborted := aborted s |}.

(** ** Limits hold *)

Definition chunk_bytes (events : list read_event) : list (list Z) :=
  omap (λ e, match e with RChunk b => Some b | _ => None end) events.
Definition size (chunks : list (list Z)) : Z := Z.of_nat (length (concat chunks)).

(** [n] bytes are allowed by a limit. *)
Definition within_limit (n : Z) (limit : jsnum) : Prop := exceeds n limit = false.

Lemma exceeds_mono n m limit : n <= m → exceeds n limit = true → exceeds m limit = true.
Proof.
  intros Hnm. unfold exceeds, num_ltb. destruct limit as [|neg|q]; [done|done|].
  rewrite !q_ltb_lt. rewrite Zle_Qle in Hnm. intros. by eapply Qlt_le_trans.
Qed.

Lemma within_mono n m limit : n <= m → within_limit m limit → within_limit n limit.
Proof.
  unfold within_limit. intros Hnm Hm. apply not_true_iff_false. intros Hn.
  apply (exceeds_mono n m) in Hn; [congruence|done].
Qed.

Lemma size_app a b : size (a ++ b) = size a + size b.
Proof. unfold size. rewrite concat_app, length_app. lia. Qed.
Lemma size_one b : size [b] = Z.of_nat (length b).
Proof. unfold size. cbn. by rewrite app_nil_r. Qed.
Lemma size_nonneg a : 0 <= size a.
Proof. unfold size. lia. Qed.

Lemma read_body_ok limit events : ∀ chunks n,
  Forall (λ e, ∀ x, e ≠ RError x) events → within_limit (size chunks) limit →
  (read_body limit events chunks (size chunks) n).1 =
  if exceeds (size (chunks ++ chunk_bytes events)) limit then Err PayloadTooLargeError
  else Ok (concat (chunks ++ chunk_bytes events)).
Proof.
  induction events as [|e events IH]; intros chunks n He Hw; cbn [read_body chunk_bytes omap list_omap].
  { rewrite app_nil_r. by rewrite Hw. }
  apply Forall_cons in He as [He Hes]. destruct e as [b| |x]; [|by apply IH|by destruct (He x)].
  rewrite <-size_one, <-size_app. change (omap _ events) with (chunk_bytes events).
  destruct (exceeds (size (chunks ++ [b])) limit) eqn:E.
  - rewrite (exceeds_mono (size (chunks ++ [b])) _ limit); [done| |done].
    change (b :: chunk_bytes events) with ([b] ++ chunk_bytes events).
    rewrite !size_app. pose proof (size_nonneg (chunk_bytes events)). lia.
  - rewrite IH by done. by rewrite <-app_assoc.
Qed.

(** However a read goes wrong, no more than the limit is buffered and the reads
    stop at the first chunk that exceeds it. *)
Lemma read_body_bounded limit events : ∀ chunks total n body use,
  read_body limit events chunks total n = (Ok body, use) → total = size chunks →
  within_limit (size chunks) limit → within_limit (Z.of_nat (length body)) limit.
Proof.
  induction events as [|e events IH]; intros chunks total n body use Hr Ht Hw; cbn in Hr.
  - injection Hr as <- _. exact Hw.
  - destruct e as [b| |x]; [|by eapply IH|done]. destruct (exceeds _ _) eqn:E; [done|].
    eapply IH; [exact Hr|..].
    + rewrite size_app, size_one. lia.
    + rewrite size_app, size_one. subst total. exact E.
Qed.

Lemma pulls_bounded limit events : ∀ emitted,
  within_limit emitted limit →
  let '(out, final) := pulls limit events emitted in
  within_limit (emitted + size out) limit ∧ out `prefix_of` chunk_bytes events ∧
  (final = Close → out = chunk_bytes events) ∧
  (Forall (λ e, ∃ b, e = RChunk b) events →
   if exceeds (emitted + size (chunk_bytes events)) limit then final = Errored PayloadTooLargeError
   else final = Close).
Proof.
  induction events as [|e events IH]; intros emitted Hw; cbn [pulls pull chunk_bytes omap list_omap].
  { cbn [snd]. unfold size. cbn. rewrite Z.add_0_r. split_and!; [done|by exists []|done|]. by rewrite Hw. }
  change (omap _ events) with (chunk_bytes events).
  destruct e as [b| |x].
  - destruct (exceeds (emitted + Z.of_nat (length b)) limit) eqn:E.
    + unfold size at 1. cbn [concat length Z.of_nat]. rewrite Z.add_0_r.
      split_and!; [done|by exists (b :: chunk_bytes events)|done|]. intros _.
      rewrite (exceeds_mono (emitted + Z.of_nat (length b))); [done| |done].
      change (b :: chunk_bytes events) with ([b] ++ chunk_bytes events). rewrite size_app, size_one.
      pose proof (size_nonneg (chunk_bytes events)). lia.
    + specialize (IH _ E). destruct (pulls limit events _) as [out final]. destruct IH as (H1 & H2 & H3 & H4).
      change (b :: out) with ([b] ++ out). change (b :: chunk_bytes events) with ([b] ++ chunk_bytes events).
      rewrite !size_app, !size_one, !Z.add_assoc. split_and!; [done|by apply prefix_app|intros Hc; by rewrite H3|].
      intros Hall. apply H4. by apply Forall_cons in Hall as [_ ?].
  - unfold size at 1. cbn [concat length Z.of_nat]. rewrite Z.add_0_r.
    split_and!; [done|apply prefix_nil|done|]. intros [(b & ?) _]%Forall_cons. done.
  - unfold size at 1. cbn [concat length Z.of_nat]. rewrite Z.add_0_r.
    split_and!; [done|apply prefix_nil|done|]. intros [(b & ?) _]%Forall_cons. done.
Qed.

Lemma created_limits options k : createKillEnforcer options = Ok k →
  within_limit 0 (maxRequestBodyBytes k) ∧ within_limit 0 (maxStreamedBytes k).
Proof.
  unfold createKillEnforcer.
  intros (? & _ & (? & _ & (? & H1%throw_if_Ok & (? & _ & (? & H2%throw_if_Ok & [= <-])%bind_Ok)%bind_Ok)%bind_Ok)%bind_Ok)%bind_Ok.
  cbn [maxRequestBodyBytes maxStreamedBytes].
  assert (∀ v dflt, negb (is_undefined v) && not_positive v = false → 0 < dflt → within_limit 0 (num_or v dflt)) as H.
  { intros v dflt Hv Hd. unfold within_limit, exceeds, num_ltb. destruct v as [| | |n| | |]; cbn in Hv |- *; try done.
    - apply q_ltb_ge. rewrite <-Zle_Qle. lia.
    - destruct n as [|neg|q]; [done|done|]. cbn in Hv. apply Qle_bool_false in Hv. apply q_ltb_ge.
      change (inject_Z 0) with 0%Q. by apply Qlt_le_weak. }
  split; by apply H.
Qed.

(** Payload limits (FN-5): an enforcer that could be created never returns a
    request body above its limit, whatever the stream does, and accepts exactly
    the bodies within it, unchanged; and a wrapped response emits a prefix of the
    source's chunks that stays within the streaming limit, closing normally
    exactly when the whole source does. *)
Theorem payload_limits options k contentLength s :
  createKillEnforcer options = Ok k →
  (∀ body use, validateRequestBody k contentLength s = (Ok body, use) →
    within_limit (Z.of_nat (length body)) (maxRequestBodyBytes k)) ∧
  (∀ st, s = Some st → locked st = false → Forall (λ e, ∀ x, e ≠ RError x) (reads st) →
    (validateRequestBody k JUndef s).1 =
    if exceeds (size (chunk_bytes (reads st))) (maxRequestBodyBytes k) then Err PayloadTooLargeError
    else Ok (concat (chunk_bytes (reads st)))) ∧
  ∀ stream, let '(out, final) := wrapResponseStream k stream in
    within_limit (size out) (maxStreamedBytes k) ∧ out `prefix_of` chunk_bytes stream ∧
    (final = Close → out = chunk_bytes stream) ∧
    (Forall (λ e, ∃ b, e = RChunk b) stream →
     if exceeds (size (chunk_bytes stream)) (maxStreamedBytes k) then final = Errored PayloadTooLargeError
     else final = Close).
Proof.
  intros Hk%created_limits. destruct Hk as [Hreq Hstr]. split_and!.
  - intros body use Hv. unfold validateRequestBody in Hv. destruct (_ && _); [done|].
    destruct (_ && _); [done|]. destruct s as [st|]; [|injection Hv as <- _; exact Hreq].
    destruct (locked st); [done|]. eapply (read_body_bounded _ _ [] 0); [exact Hv|done|exact Hreq].
  - intros st -> Hl He. unfold validateRequestBody. cbn [is_undefined negb andb]. rewrite Hl.
    by apply (read_body_ok _ _ [] 0).
  - intros stream. pose proof (pulls_bounded (maxStreamedBytes k) stream 0 Hstr) as H.
    unfold wrapResponseStream. destruct (pulls _ stream 0) as [out final]. exact H.
Qed.

Definition tiny_options : ResourceKillOptions :=
  {| o_timeoutMs := JNum (Fin 1000); o_cpuMs := JNum (Fin 200); o_maxRequestBodyBytes := JNum (Fin 4);
     o_maxResponseBodyBytes := JUndef; o_maxStreamedBytes := JNum (Fin 3) |}.

Theorem payload_limits_witness :
  ∃ k, createKillEnforcer tiny_options = Ok k ∧
    validateRequestBody k JUndef (Some {| locked := false; reads := [RChunk [1; 2]; RChunk [3; 4; 5]; RChunk [6]] |}) =
      (Err PayloadTooLargeError, {| read_calls := 2; cancelled := true |}) ∧
    within_limit (size (wrapResponseStream k [RChunk [1; 2]; RChunk [3; 4]]).1) (maxStreamedBytes k).
Proof.
  eexists. split; [reflexivity|]. split; [vm_compute; reflexivity|].
  destruct (payload_limits tiny_options _ JUndef None eq_refl) as (_ & _ & H).
  specialize (H [RChunk [1; 2]; RChunk [3; 4]]). destruct (wrapResponseStream _ _) as [out final]. apply H.
Defined.

(** After [cleanup] the deadline cannot abort the invocation. *)
Lemma cleanup_disarms s : timer_fires (cleanup s) = cleanup s.
Proof. reflexivity. Qed.
