(* ===== verification/Snapshot.v ===== *)
(** * Routing snapshots ([packages/protocol/snapshot.ts], PLAT-8)

    What the control plane publishes and the data plane consumes.  A snapshot is
    JSON data, a [jsval]; freezing it is the identity here, since values of the
    model cannot be changed. *)

From S2P Require Import Prelude JsString JsMap JsNumber JsValue Errors Utf8 Ulid Packager Deployment.
From Stdlib Require Import QArith.

Open Scope Z_scope.
Open Scope railfog_scope.

Definition SNAPSHOT_ID_PREFIX : jstr := js "snap_".
Definition DEFAULT_LIMIT_CPU_MS : Z := 200.
Definition DEFAULT_LIMIT_TIMEOUT_MS : Z := 30000.
Definition DEFAULT_LIMIT_MEMORY_MB : Z := 128.

(** [SNAPSHOT_ID_REGEX.test(s)]: the part after the prefix is the pattern of a
    ULID. *)
Definition snapshot_id_ok (s : jstr) : bool :=
  starts_with s SNAPSHOT_ID_PREFIX && isValidUlid (slice_from 5 s).

(** ** Validation *)

(** [typeof v !== "object" || v === null || Array.isArray(v)] *)
Definition not_plain_object (v : jsval) : bool := negb (is_object v) || is_array v.

(** [typeof v !== "string" || v.trim() === ""] *)
Definition not_text (v : jsval) : bool :=
  match v with JStr s => jstr_eqb (trim s) [] | _ => true end.
Definition is_string (v : jsval) : bool := match v with JStr _ => true | _ => false end.

(** [!Array.isArray(v) || !v.every((item) => typeof item === "string")] *)
Definition not_strings (v : jsval) : bool :=
  match v with JArr xs => negb (forallb is_string xs) | _ => true end.
(** [v !== undefined && (...)] *)
Definition bad_scope (v : jsval) : bool := negb (is_undefined v) && not_strings v.

(** [typeof v !== "number" || !Number.isFinite(v)] *)
Definition not_finite (v : jsval) : bool :=
  match v with JNum n => negb (num_is_finite n) | _ => true end.

(** [typeof v !== "number" || !Number.isSafeInteger(v) || v <= 0] *)
Definition bad_version (v : jsval) : bool :=
  match v with JNum n => negb (num_is_safe_integer n) || num_leb n 0 | _ => true end.

Definition bad_snapshot_id (v : jsval) : bool :=
  match v with JStr s => negb (snapshot_id_ok s) | _ => true end.

Definition bad_route (route : jsval) : bool :=
  negb (is_object route) || negb (is_string (prop route (js "pattern"))) ||
  negb (is_string (prop route (js "function"))).

(** The body of the loop over the functions *)
Definition validate_function (fnVal : jsval) : result exn unit :=
  throw_if (not_plain_object fnVal) ValidationFailedError ≫= λ _,
  throw_if (not_text (prop fnVal (js "functionName"))) ValidationFailedError ≫= λ _,
  throw_if (not_text (prop fnVal (js "revisionId"))) ValidationFailedError ≫= λ _,
  throw_if (not_text (prop fnVal (js "artifactId"))) ValidationFailedError ≫= λ _,
  throw_if (not_plain_object (prop fnVal (js "permissions"))) ValidationFailedError ≫= λ _,
  let perms := prop fnVal (js "permissions") in
  throw_if (bad_scope (prop perms (js "kv"))) ValidationFailedError ≫= λ _,
  throw_if (bad_scope (prop perms (js "objects"))) ValidationFailedError ≫= λ _,
  throw_if (bad_scope (prop perms (js "queues"))) ValidationFailedError ≫= λ _,
  for_each (λ scope, throw_if (bad_scope (prop perms scope)) ValidationFailedError)
           [js "secrets"; js "network"] ≫= λ _,
  throw_if (not_plain_object (prop fnVal (js "limits"))) ValidationFailedError ≫= λ _,
  let limits := prop fnVal (js "limits") in
  throw_if (not_finite (prop limits (js "cpu_ms")) || not_finite (prop limits (js "timeout_ms")) ||
            not_finite (prop limits (js "memory_mb"))) ValidationFailedError.

Definition elements (v : jsval) : list jsval := match v with JArr xs => xs | _ => [] end.
(** [Object.entries(v)] of an object that is not an array *)
Definition object_entries (v : jsval) : list (jstr * jsval) :=
  match v with JObj entries => entries | _ => [] end.

Definition validateRoutingSnapshot (data : jsval) : result exn jsval :=
  throw_if (not_plain_object data) ValidationFailedError ≫= λ _,
  throw_if (bad_snapshot_id (prop data (js "snapshotId"))) ValidationFailedError ≫= λ _,
  throw_if (bad_version (prop data (js "version"))) ValidationFailedError ≫= λ _,
  throw_if (negb (is_array (prop data (js "routes")))) ValidationFailedError ≫= λ _,
  for_each (λ route, throw_if (bad_route route) ValidationFailedError)
           (elements (prop data (js "routes"))) ≫= λ _,
  throw_if (not_plain_object (prop data (js "functions"))) ValidationFailedError ≫= λ _,
  for_each (λ e, validate_function e.2) (object_entries (prop data (js "functions"))) ≫= λ _,
  throw_if (not_finite (prop data (js "generatedAt"))) ValidationFailedError ≫= λ _,
  Ok data.

(** ** Creation *)

(** The fields of a [RevisionRecord] that are read; the manifest may have
    fields its type does not declare. *)
Record ActiveRevision := {
  ar_id : jstr;
  ar_functionName : jstr;
  ar_artifactId : jstr;
  ar_manifest : jsval
}.

(** [[...v]] *)
Definition spread (v : jsval) : result exn jsval :=
  match v with
  | JArr xs => Ok (JArr xs)
  | JStr s => Ok (JArr (map (λ cp, JStr (units cp)) (code_points s)))
  | _ => Err TypeError
  end.

(** [if (perms?.scope) permissions.scope = [...perms.scope];] *)
Definition copy_scope (manifestPerms : jsval) (scope : jstr) : result exn (list (jstr * jsval)) :=
  let v := prop manifestPerms scope in
  if truthy v then spread v ≫= λ copy, Ok [(scope, copy)] else Ok [].

(** [v ?? dflt] *)
Definition nullish_or (v dflt : jsval) : jsval := match v with JUndef | JNull => dflt | _ => v end.

Definition SCOPES : list jstr := [js "kv"; js "objects"; js "queues"; js "secrets"; js "network"].

Definition limit_or_default (manifestLimits : jsval) (name : jstr) (dflt : Z) : jsval :=
  nullish_or (prop manifestLimits name) (JNum (Fin (inject_Z dflt))).

Definition function_snapshot (rev : ActiveRevision) : result exn jsval :=
  let manifestPerms := prop (ar_manifest rev) (js "permissions") in
  map_result (copy_scope manifestPerms) SCOPES ≫= λ permissions,
  let manifestLimits := prop (ar_manifest rev) (js "limits") in
  Ok (JObj
    [(js "functionName", JStr (ar_functionName rev));
     (js "revisionId", JStr (ar_id rev));
     (js "artifactId", JStr (ar_artifactId rev));
     (js "permissions", JObj (concat permissions));
     (js "limits", JObj
       [(js "cpu_ms", limit_or_default manifestLimits (js "cpu_ms") DEFAULT_LIMIT_CPU_MS);
        (js "timeout_ms", limit_or_default manifestLimits (js "timeout_ms") DEFAULT_LIMIT_TIMEOUT_MS);
        (js "memory_mb", limit_or_default manifestLimits (js "memory_mb") DEFAULT_LIMIT_MEMORY_MB);
        (js "rate", prop manifestLimits (js "rate"));
        (js "burst", prop manifestLimits (js "burst"))]);
     (js "auth", prop (ar_manifest rev) (js "auth"));
     (js "triggers", prop (ar_manifest rev) (js "triggers"))]).

Definition route_value (r : route) : jsval :=
  JObj [(js "pattern", pattern r); (js "function", function r)].

Definition opt_value (v : option jsval) : jsval := default JUndef v.

(** The state is [currentVersion]; [now] and [bytes] are what [generateUlid]
    reads, [generatedAt] is the second reading of the clock. *)
Definition createSnapshot (routes : list route) (activeRevisions : list (jstr * ActiveRevision))
    (metadata : option ProjectMetadata) (now : Z) (bytes : list Z) (generatedAt : Z)
    : stm Z exn jsval := λ currentVersion,
  let currentVersion := currentVersion + 1 in
  (currentVersion,
   map_result (λ e, function_snapshot e.2 ≫= λ f, Ok (e.1, f)) activeRevisions ≫= λ functions,
   Ok (JObj
     [(js "snapshotId", JStr (SNAPSHOT_ID_PREFIX ++ generateUlid now bytes));
      (js "version", JNum (Fin (inject_Z currentVersion)));
      (js "routes", JArr (map route_value routes));
      (js "functions", JObj (obj_build functions));
      (js "generatedAt", JNum (Fin (inject_Z generatedAt)));
      (js "environment", opt_value (JStr <$> (metadata ≫= environment)));
      (js "domains", opt_value (JArr <$> (metadata ≫= domains)))])).

(** ** The types validation establishes *)

Definition text (v : jsval) : Prop := ∃ s, v = JStr s ∧ trim s ≠ [].
Definition string_list (v : jsval) : Prop := ∃ ss, v = JArr (map JStr ss).
Definition finite_number (v : jsval) : Prop := ∃ q, v = JNum (Fin q).
Definition plain_object (v : jsval) : Prop := ∃ entries, v = JObj entries.

(** What the validation of a function establishes *)
Record ValidFunction (v : jsval) : Prop := {
  fs_object : plain_object v;
  fs_names : Forall (λ name, text (prop v name)) [js "functionName"; js "revisionId"; js "artifactId"];
  fs_permissions : plain_object (prop v (js "permissions"));
  fs_scopes : Forall (λ scope, prop (prop v (js "permissions")) scope = JUndef ∨
                               string_list (prop (prop v (js "permissions")) scope)) SCOPES;
  fs_limits : plain_object (prop v (js "limits"));
  fs_limit_values : Forall (λ name, finite_number (prop (prop v (js "limits")) name))
                           [js "cpu_ms"; js "timeout_ms"; js "memory_mb"]
}.

Definition Route (v : jsval) : Prop :=
  ∃ p f, prop v (js "pattern") = JStr p ∧ prop v (js "function") = JStr f.

(** What the validation of a snapshot establishes *)
Record ValidSnapshot (v : jsval) : Prop := {
  rs_object : plain_object v;
  rs_id : ∃ ulid, prop v (js "snapshotId") = JStr (SNAPSHOT_ID_PREFIX ++ ulid) ∧ isValidUlid ulid = true;
  rs_version : ∃ q n, prop v (js "version") = JNum (Fin q) ∧ (q == inject_Z n)%Q ∧ 0 < n <= 2 ^ 53 - 1;
  rs_routes : ∃ routes, prop v (js "routes") = JArr routes ∧ Forall Route routes;
  rs_functions : ∃ functions, prop v (js "functions") = JObj functions ∧
                              Forall (λ e, ValidFunction e.2) functions;
  rs_generatedAt : finite_number (prop v (js "generatedAt"))
}.

(** The interfaces of the source, as predicates on JSON data *)
Definition optional (P : jsval → Prop) (v : jsval) : Prop := v = JUndef ∨ P v.
Definition any_string (v : jsval) : Prop := ∃ s, v = JStr s.
Definition any_number (v : jsval) : Prop := ∃ n, v = JNum n.
Definition auth_mode (v : jsval) : Prop := v = JStr (js "bearer") ∨ v = JStr (js "none").
Definition triggers_type (v : jsval) : Prop :=
  plain_object v ∧
  Forall (λ name, optional any_string (prop v name)) [js "http"; js "queue"; js "schedule"; js "webhook"].

Record FunctionSnapshot (v : jsval) : Prop := {
  fi_object : plain_object v;
  fi_names : Forall (λ name, any_string (prop v name)) [js "functionName"; js "revisionId"; js "artifactId"];
  fi_permissions : plain_object (prop v (js "permissions"));
  fi_scopes : Forall (λ scope, optional string_list (prop (prop v (js "permissions")) scope)) SCOPES;
  fi_limits : plain_object (prop v (js "limits"));
  fi_limit_values : Forall (λ name, any_number (prop (prop v (js "limits")) name))
                           [js "cpu_ms"; js "timeout_ms"; js "memory_mb"];
  fi_rate_limits : Forall (λ name, optional any_number (prop (prop v (js "limits")) name)) [js "rate"; js "burst"];
  fi_auth : optional auth_mode (prop v (js "auth"));
  fi_triggers : optional triggers_type (prop v (js "triggers"))
}.

Record RoutingSnapshot (v : jsval) : Prop := {
  ri_object : plain_object v;
  ri_id : any_string (prop v (js "snapshotId"));
  ri_version : any_number (prop v (js "version"));
  ri_routes : ∃ routes, prop v (js "routes") = JArr routes ∧ Forall Route routes;
  ri_functions : ∃ functions, prop v (js "functions") = JObj functions ∧
                              Forall (λ e, FunctionSnapshot e.2) functions;
  ri_generatedAt : any_number (prop v (js "generatedAt"));
  ri_environment : optional any_string (prop v (js "environment"));
  ri_domains : optional string_list (prop v (js "domains"))
}.

(** The fields that the validation does not look at *)
Definition unchecked_function (v : jsval) : Prop :=
  Forall (λ name, optional any_number (prop (prop v (js "limits")) name)) [js "rate"; js "burst"] ∧
  optional auth_mode (prop v (js "auth")) ∧ optional triggers_type (prop v (js "triggers")).
Definition unchecked_fields (v : jsval) : Prop :=
  Forall (λ e, unchecked_function e.2) (object_entries (prop v (js "functions"))) ∧
  optional any_string (prop v (js "environment")) ∧ optional string_list (prop v (js "domains")).

(** The checks as one test *)
Definition bad_function (v : jsval) : bool :=
  not_plain_object v || (not_text (prop v (js "functionName")) || (not_text (prop v (js "revisionId")) ||
  (not_text (prop v (js "artifactId")) || (not_plain_object (prop v (js "permissions")) ||
  (bad_scope (prop (prop v (js "permissions")) (js "kv")) ||
  (bad_scope (prop (prop v (js "permissions")) (js "objects")) ||
  (bad_scope (prop (prop v (js "permissions")) (js "queues")) ||
  (existsb (λ scope, bad_scope (prop (prop v (js "permissions")) scope)) [js "secrets"; js "network"] ||
  (not_plain_object (prop v (js "limits")) ||
  (not_finite (prop (prop v (js "limits")) (js "cpu_ms")) ||
   not_finite (prop (prop v (js "limits")) (js "timeout_ms")) ||
   not_finite (prop (prop v (js "limits")) (js "memory_mb")))))))))))).

Definition bad_snapshot (v : jsval) : bool :=
  not_plain_object v || (bad_snapshot_id (prop v (js "snapshotId")) ||
  (bad_version (prop v (js "version")) || (negb (is_array (prop v (js "routes"))) ||
  (existsb bad_route (elements (prop v (js "routes"))) || (not_plain_object (prop v (js "functions")) ||
  (existsb (λ e, bad_function e.2) (object_entries (prop v (js "functions"))) ||
   not_finite (prop v (js "generatedAt")))))))).

Lemma validate_function_test v : validate_function v = throw_if (bad_function v) ValidationFailedError.
Proof.
  unfold validate_function, bad_function. rewrite <-!throw_if_bind.
  by erewrite for_each_throw by done.
Qed.

Lemma validate_test v :
  validateRoutingSnapshot v = if bad_snapshot v then Err ValidationFailedError else Ok v.
Proof.
  unfold validateRoutingSnapshot, bad_snapshot. rewrite (for_each_throw _ bad_route ValidationFailedError) by done.
  rewrite (for_each_throw _ (λ e, bad_function e.2) ValidationFailedError) by (intros; apply validate_function_test).
  rewrite !throw_if_then. rewrite <-!orb_assoc. by destruct (_ || _).
Qed.

(** *** Each test decides its type *)

Lemma not_plain_object_spec v : not_plain_object v = false ↔ plain_object v.
Proof. unfold plain_object. destruct v; cbn; split; try done; try (by intros [? ?]); eauto. Qed.

Lemma not_text_spec v : not_text v = false ↔ text v.
Proof.
  unfold text. destruct v; cbn; split; try done; try (by intros (? & ? & _)); rewrite ?jstr_eqb_neq; eauto.
  by intros (s' & [= ->] & ?).
Qed.

Lemma is_string_spec v : is_string v = true ↔ ∃ s, v = JStr s.
Proof. destruct v; cbn; split; try done; try (by intros [? ?]); eauto. Qed.

Lemma not_strings_spec v : not_strings v = false ↔ string_list v.
Proof.
  unfold string_list. destruct v as [| | | | |xs|]; cbn; split; try done; try (by intros [? ?]).
  - intros H%negb_false_iff. induction xs as [|x xs IH]; [by exists []|]. cbn in H.
    apply andb_true_iff in H as [(s & ->)%is_string_spec (ss & [= ->])%IH]. by exists (s :: ss).
  - intros (ss & [= ->]). apply negb_false_iff. by induction ss.
Qed.

Lemma bad_scope_spec v : bad_scope v = false ↔ v = JUndef ∨ string_list v.
Proof.
  unfold bad_scope. rewrite andb_false_iff, not_strings_spec.
  destruct v; cbn; naive_solver.
Qed.

Lemma not_finite_spec v : not_finite v = false ↔ finite_number v.
Proof. unfold finite_number. destruct v as [| | |[]| | |]; cbn; split; try done; try (by intros [? ?]); eauto. Qed.

Lemma bad_version_spec v :
  bad_version v = false ↔ ∃ q n, v = JNum (Fin q) ∧ (q == inject_Z n)%Q ∧ 0 < n <= 2 ^ 53 - 1.
Proof.
  destruct v as [| | |[| |q]| | |]; cbn [bad_version num_is_safe_integer num_leb]; split; try done;
    try (by intros (? & ? & ? & _)); cbn; try done.
  - rewrite orb_false_iff, negb_false_iff, andb_true_iff, Qeq_bool_iff.
    intros [[Hq Ha] Hp%Qle_bool_false]. rewrite Hq in Hp. change 0%Q with (inject_Z 0) in Hp. rewrite <-Zlt_Qlt in Hp.
    exists q, (Qround.Qfloor q). split_and!; [done|done|done|]. apply Z.leb_le in Ha. lia.
  - intros (q' & n & [= <-] & Hq & Hn).
    assert (Qround.Qfloor q = n) as Hf.
    { apply Qfloor_unique; rewrite Hq; [apply Qle_refl|]. change 1%Q with (inject_Z 1). rewrite <-inject_Z_plus, <-Zlt_Qlt. lia. }
    rewrite orb_false_iff, negb_false_iff, andb_true_iff, Qeq_bool_iff, Hf.
    split_and!; [done|apply Z.leb_le; lia|]. apply Qle_bool_false. rewrite Hq.
    change 0%Q with (inject_Z 0). rewrite <-Zlt_Qlt. lia.
Qed.

Lemma bad_snapshot_id_spec v :
  bad_snapshot_id v = false ↔ ∃ ulid, v = JStr (SNAPSHOT_ID_PREFIX ++ ulid) ∧ isValidUlid ulid = true.
Proof.
  destruct v as [| | | |s| |]; cbn [bad_snapshot_id]; split; try done; try (by intros (? & ? & _)).
  - unfold snapshot_id_ok. rewrite negb_false_iff, andb_true_iff.
    intros [(ulid & ->)%starts_with_spec H]. by exists ulid.
  - intros (ulid & ->%(inj JStr) & H). unfold snapshot_id_ok. rewrite starts_with_app.
    change (slice_from 5 (SNAPSHOT_ID_PREFIX ++ ulid)) with ulid. by rewrite H.
Qed.

Lemma bad_route_spec v : bad_route v = false ↔ Route v.
Proof.
  unfold bad_route, Route. rewrite !orb_false_iff, !negb_false_iff, !is_string_spec.
  split; [intros [[_ (p & ?)] (f & ?)]; eauto|]. intros (p & f & Hp & Hf).
  split_and!; eauto. destruct v; try done.
Qed.

Lemma bad_function_spec v : bad_function v = false ↔ ValidFunction v.
Proof.
  unfold bad_function. rewrite !orb_false_iff, existsb_false_iff, !not_plain_object_spec, !not_text_spec,
    !bad_scope_spec, !not_finite_spec, !Forall_cons, !bad_scope_spec.
  split.
  - intros. destruct_and!. split; [done| |done| |done|]; unfold SCOPES; by repeat (apply Forall_cons; split).
  - intros [Ho Hn Hp Hs Hl Hv]. unfold SCOPES in Hs. rewrite !Forall_cons in Hn, Hs, Hv.
    rewrite !Forall_cons in Hs. destruct_and!.
    split_and!; try done; by repeat (apply Forall_cons; split).
Qed.

Lemma bad_snapshot_spec v : bad_snapshot v = false ↔ ValidSnapshot v.
Proof.
  unfold bad_snapshot. rewrite !orb_false_iff, !existsb_false_iff, !not_plain_object_spec,
    bad_snapshot_id_spec, bad_version_spec, not_finite_spec, negb_false_iff.
  rewrite (Forall_iff _ _ Route) by apply bad_route_spec.
  rewrite (Forall_iff _ _ (λ e, ValidFunction e.2)) by (intros; apply bad_function_spec).
  split.
  - intros (Ho & Hi & Hv & Ha & Hr & (fs & Ef) & Hf & Hg). rewrite Ef in Hf. split; try done; [|by exists fs].
    destruct (prop v (js "routes")); try done. eauto.
  - intros [Ho Hi Hv (rs & Er & Hr) (fs & Ef & Hf) Hg]. rewrite Er, Ef. split_and!; try done. by eexists.
Qed.

Lemma validated_snapshot data snapshot :
  validateRoutingSnapshot data = Ok snapshot → snapshot = data ∧ ValidSnapshot data.
Proof.
  rewrite validate_test. pose proof (bad_snapshot_spec data) as H. destruct (bad_snapshot data); [done|].
  intros [= <-]. by split; [|apply H].
Qed.

Lemma validated_ok data : ValidSnapshot data → validateRoutingSnapshot data = Ok data.
Proof. rewrite validate_test. intros H%bad_snapshot_spec. by rewrite H. Qed.

Lemma valid_function_type v : ValidFunction v → (FunctionSnapshot v ↔ unchecked_function v).
Proof.
  intros [Ho Hn Hp Hs Hl Hv]. split; [by intros [_ _ _ _ _ _ Hr Ha Ht]|]. intros (Hr & Ha & Ht).
  split; [done| |done|exact Hs|done| |done..].
  - eapply Forall_impl; [exact Hn|]. intros name (t & -> & _). by exists t.
  - eapply Forall_impl; [exact Hv|]. intros name (q & ->). by exists (Fin q).
Qed.

Lemma valid_snapshot_type v : ValidSnapshot v → (RoutingSnapshot v ↔ unchecked_fields v).
Proof.
  intros [Ho (ulid & Hi & _) (q & n & Hv & _) Hr (fs & Hf & Hfs) (g & Hg)]. unfold unchecked_fields. rewrite Hf.
  split.
  - intros [_ _ _ _ (fs' & Hf' & Hfs') _ He Hd]. split; [|done]. assert (fs' = fs) as -> by congruence.
    cbn [object_entries]. rewrite Forall_forall in *. intros e Hin. apply valid_function_type; auto.
  - intros (Hu & He & Hd). cbn [object_entries] in Hu.
    split; [done|by eexists|by eexists|done| |by eexists|done..].
    exists fs. split; [done|]. rewrite Forall_forall in *. intros e Hin. apply valid_function_type; auto.
Qed.

(** C39: What snapshot validation establishes, exactly.  [validateRoutingSnapshot]
    returns the payload, unchanged, exactly when it has a ULID identifier, a
    positive safe-integer version, routes of strings, a finite timestamp, and
    functions with non-blank names, scopes of strings and finite limits; every
    other payload is rejected with VALIDATION_FAILED.  A payload that passes has
    the type [RoutingSnapshot] that the function declares exactly when the fields
    that are not looked at have theirs: the environment and the domains, and each
    function's rate, burst, authentication mode and triggers. *)
Theorem validated_snapshot_typed data :
  (∀ snapshot, validateRoutingSnapshot data = Ok snapshot ↔ snapshot = data ∧ ValidSnapshot data) ∧
  (∀ e, validateRoutingSnapshot data = Err e ↔ e = ValidationFailedError ∧ ¬ ValidSnapshot data) ∧
  (∀ snapshot, validateRoutingSnapshot data = Ok snapshot → (RoutingSnapshot snapshot ↔ unchecked_fields snapshot)).
Proof.
  split_and!; [| |by intros snapshot [-> Hv]%validated_snapshot; apply valid_snapshot_type];
    rewrite validate_test; pose proof (bad_snapshot_spec data) as H; destruct (bad_snapshot data); naive_solver.
Qed.

(** A payload that passes and does not have the type: its domain is a number. *)
Definition odd_domains : jsval :=
  JObj [(js "snapshotId", JStr (js "snap_01ARZ3NDEKTSV4RRFFQ69G5FAV")); (js "version", JNum (Fin 1));
        (js "routes", JArr []); (js "functions", JObj []); (js "generatedAt", JNum (Fin 0));
        (js "domains", JArr [JNum (Fin 5)])].

Lemma domains_unchecked : validateRoutingSnapshot odd_domains = Ok odd_domains ∧ ¬ RoutingSnapshot odd_domains.
Proof.
  split; [vm_compute; reflexivity|]. intros [_ _ _ _ _ _ _ [Hd|(ss & Hd)]].
  - change (prop odd_domains (js "domains")) with (JArr [JNum (Fin 5)]) in Hd. done.
  - change (prop odd_domains (js "domains")) with (JArr [JNum (Fin 5)]) in Hd. by destruct ss as [|s1 ss].
Qed.

(** ** Snapshots of deployed revisions *)

(** A [RevisionRecord] as [createSnapshot] receives it *)
Definition active_revision (r : RevisionRecord) : ActiveRevision :=
  {| ar_id := r_id r; ar_functionName := r_functionName r; ar_artifactId := r_artifactId r;
     ar_manifest := r_manifest r |}.

(** The scopes and the limits that the manifest of a revision declares *)
Definition declared_scope (r : RevisionRecord) (scope : jstr) : jsval :=
  prop (prop (r_manifest r) (js "permissions")) scope.
Definition declared_limit (r : RevisionRecord) (name : jstr) (dflt : Z) : jsval :=
  limit_or_default (prop (r_manifest r) (js "limits")) name dflt.

(** The scopes can be copied: each is absent or iterable. *)
Definition copyable (r : RevisionRecord) : bool :=
  forallb (λ scope, let v := declared_scope r scope in negb (truthy v) || is_array v || is_string v) SCOPES.

Definition scope_copy (r : RevisionRecord) (scope : jstr) : list (jstr * jsval) :=
  match copy_scope (prop (r_manifest r) (js "permissions")) scope with Ok l => l | Err _ => [] end.

(** What the data plane accepts of a revision *)
Definition servable (r : RevisionRecord) : bool :=
  negb (jstr_eqb (trim (r_functionName r)) []) && negb (jstr_eqb (trim (r_id r)) []) &&
  negb (jstr_eqb (trim (r_artifactId r)) []) &&
  forallb (λ scope, let v := declared_scope r scope in negb (truthy v) || negb (not_strings v) || is_string v) SCOPES &&
  (negb (not_finite (declared_limit r (js "cpu_ms") DEFAULT_LIMIT_CPU_MS)) &&
   negb (not_finite (declared_limit r (js "timeout_ms") DEFAULT_LIMIT_TIMEOUT_MS)) &&
   negb (not_finite (declared_limit r (js "memory_mb") DEFAULT_LIMIT_MEMORY_MB))).

(** The metadata of a function in the snapshot *)
Definition function_metadata (r : RevisionRecord) : jsval :=
  JObj [(js "functionName", JStr (r_functionName r)); (js "revisionId", JStr (r_id r));
        (js "artifactId", JStr (r_artifactId r));
        (js "permissions", JObj (concat (scope_copy r <$> SCOPES)));
        (js "limits", JObj [(js "cpu_ms", declared_limit r (js "cpu_ms") DEFAULT_LIMIT_CPU_MS);
                            (js "timeout_ms", declared_limit r (js "timeout_ms") DEFAULT_LIMIT_TIMEOUT_MS);
                            (js "memory_mb", declared_limit r (js "memory_mb") DEFAULT_LIMIT_MEMORY_MB);
                            (js "rate", prop (prop (r_manifest r) (js "limits")) (js "rate"));
                            (js "burst", prop (prop (r_manifest r) (js "limits")) (js "burst"))]);
        (js "auth", prop (r_manifest r) (js "auth")); (js "triggers", prop (r_manifest r) (js "triggers"))].

Lemma strings_are_strings ids : not_strings (JArr (map JStr ids)) = false.
Proof. cbn. apply negb_false_iff. by induction ids. Qed.

(** A scope's copy: none or one entry, which is good exactly when the scope is *)
Lemma copy_scope_spec perms scope :
  let v := prop perms scope in
  copy_scope perms scope = Err TypeError ∧ negb (truthy v) || is_array v || is_string v = false ∨
  negb (truthy v) || is_array v || is_string v = true ∧
  (copy_scope perms scope = Ok [] ∧ negb (truthy v) || negb (not_strings v) || is_string v = true ∨
   ∃ c, copy_scope perms scope = Ok [(scope, c)] ∧
        bad_scope c = negb (negb (truthy v) || negb (not_strings v) || is_string v)).
Proof.
  cbv zeta. unfold copy_scope. destruct (prop perms scope) as [| |b|n|s|xs|es]; try (right; split; [done|by left]).
  - destruct b; [left; done|right; split; [done|by left]].
  - destruct (truthy (JNum n)) eqn:E; [left; done|right; split; [done|by left]].
  - destruct s as [|c s]; [right; split; [done|by left]|]. right. split; [done|]. right. eexists. split; [done|].
    unfold bad_scope. rewrite <-(map_map (λ cp, units cp) JStr), strings_are_strings. done.
  - right. split; [done|]. right. exists (JArr xs). split; [done|]. unfold bad_scope.
    cbn [is_undefined negb andb truthy orb is_string]. by rewrite orb_false_r, negb_involutive.
  - left. done.
Qed.

Lemma copy_scopes r l :
  map_result (copy_scope (prop (r_manifest r) (js "permissions"))) l =
  if forallb (λ scope, let v := declared_scope r scope in negb (truthy v) || is_array v || is_string v) l
  then Ok (scope_copy r <$> l) else Err TypeError.
Proof.
  induction l as [|scope l IH]; [done|]. cbn [map_result forallb fmap list_fmap]. rewrite IH.
  assert (scope_copy r scope = match copy_scope (prop (r_manifest r) (js "permissions")) scope with
                               | Ok l => l | Err _ => [] end) as -> by done.
  unfold declared_scope. cbv zeta.
  destruct (copy_scope_spec (prop (r_manifest r) (js "permissions")) scope)
    as [[-> Ht]|[Ht [[-> _]|(c & -> & _)]]]; cbv zeta in Ht; rewrite Ht; [done|by destruct (forallb _ l)..].
Qed.

Lemma function_snapshot_active r :
  function_snapshot (active_revision r) = if copyable r then Ok (function_metadata r) else Err TypeError.
Proof.
  unfold function_snapshot, active_revision. cbn [ar_manifest]. rewrite copy_scopes.
  change (forallb _ SCOPES) with (copyable r). by destruct (copyable r).
Qed.

(** The scopes of the metadata are the copies. *)
Lemma metadata_scopes r : copyable r = true →
  Forall (λ scope, bad_scope (prop (JObj (concat (scope_copy r <$> SCOPES))) scope) =
     negb (let v := declared_scope r scope in negb (truthy v) || negb (not_strings v) || is_string v)) SCOPES.
Proof.
  unfold copyable. rewrite forallb_true_iff. intros Hc.
  assert (∀ scope, scope ∈ SCOPES → ∃ o : option jsval,
    scope_copy r scope = match o with Some c => [(scope, c)] | None => [] end ∧
    bad_scope (default JUndef o) =
      negb (let v := declared_scope r scope in negb (truthy v) || negb (not_strings v) || is_string v)) as Hs.
  { intros scope Hin. specialize (Hc scope Hin). unfold scope_copy, declared_scope in *. cbv zeta in *.
    destruct (copy_scope_spec (prop (r_manifest r) (js "permissions")) scope)
      as [[_ Hb]|[_ [[-> Hb]|(c & -> & Hb)]]]; [congruence| |].
    - exists None. by rewrite Hb.
    - by exists (Some c). }
  unfold SCOPES in *.
  destruct (Hs (js "kv")) as (o1 & E1 & B1); [set_solver|]. destruct (Hs (js "objects")) as (o2 & E2 & B2); [set_solver|].
  destruct (Hs (js "queues")) as (o3 & E3 & B3); [set_solver|]. destruct (Hs (js "secrets")) as (o4 & E4 & B4); [set_solver|].
  destruct (Hs (js "network")) as (o5 & E5 & B5); [set_solver|].
  cbn [fmap list_fmap]. rewrite E1, E2, E3, E4, E5, !Forall_cons. rewrite <-B1, <-B2, <-B3, <-B4, <-B5.
  destruct o1, o2, o3, o4, o5; split_and!; (apply Forall_nil_2 || reflexivity).
Qed.

Lemma bad_function_metadata r : copyable r = true → bad_function (function_metadata r) = negb (servable r).
Proof.
  intros Hs%metadata_scopes. unfold servable, SCOPES in *. rewrite !Forall_cons in Hs. cbn [forallb].
  destruct Hs as (S1 & S2 & S3 & S4 & S5 & _). set (perms := JObj (concat _)) in *.
  change (bad_function (function_metadata r)) with
    (jstr_eqb (trim (r_functionName r)) [] || (jstr_eqb (trim (r_id r)) [] ||
     (jstr_eqb (trim (r_artifactId r)) [] || (false || (bad_scope (prop perms (js "kv")) ||
     (bad_scope (prop perms (js "objects")) || (bad_scope (prop perms (js "queues")) ||
     ((bad_scope (prop perms (js "secrets")) || (bad_scope (prop perms (js "network")) || false)) ||
     (false || (not_finite (declared_limit r (js "cpu_ms") DEFAULT_LIMIT_CPU_MS) ||
                not_finite (declared_limit r (js "timeout_ms") DEFAULT_LIMIT_TIMEOUT_MS) ||
                not_finite (declared_limit r (js "memory_mb") DEFAULT_LIMIT_MEMORY_MB))))))))))).
  rewrite S1, S2, S3, S4, S5. cbv zeta. rewrite !negb_andb, !negb_involutive. cbn [orb].
  by rewrite !orb_false_r, <-!orb_assoc.
Qed.

(** The manifests that packaging makes can always be copied, and are served
    unless a limit is infinite. *)
Lemma packaged_servable r m : r_manifest r = manifest_value m →
  copyable r = true ∧
  servable r =
    (negb (jstr_eqb (trim (r_functionName r)) []) && negb (jstr_eqb (trim (r_id r)) []) &&
     negb (jstr_eqb (trim (r_artifactId r)) []) &&
     (num_is_finite (cpu_ms (limits m)) && num_is_finite (timeout_ms (limits m)) &&
      num_is_finite (memory_mb (limits m)))).
Proof.
  intros Hm. assert (∀ scope, scope ∈ SCOPES → ∃ o : option (list jstr),
    declared_scope r scope = match o with Some ids => JArr (map JStr ids) | None => JUndef end) as Hs.
  { intros scope Hin. unfold declared_scope. rewrite Hm. destruct m as [? ? ? ? [k o q s n] ? ?].
    repeat (apply elem_of_cons in Hin as [->|Hin]); [exists k|exists o|exists q|exists s|exists n|by apply elem_of_nil in Hin];
      destruct k, o, q, s, n; reflexivity. }
  split.
  - unfold copyable. apply forallb_true_iff. intros scope ([ids|] & ->)%Hs; [by cbn|done].
  - unfold servable. rewrite (proj2 (forallb_true_iff _ SCOPES)), andb_true_r.
    + f_equal. unfold declared_limit. rewrite Hm. destruct m as [? ? ? ? ? [[] [] []] ?]; reflexivity.
    + intros scope ([ids|] & ->)%Hs; [|done]. by rewrite strings_are_strings.
Qed.

(** The keys of the record of active revisions that become entries *)
Definition published (revs : list (jstr * RevisionRecord)) : list (jstr * RevisionRecord) :=
  filter (λ e, e.1 ≠ PROTO) revs.

Definition on_revisions (revs : list (jstr * RevisionRecord)) : list (jstr * ActiveRevision) :=
  map (λ e, (e.1, active_revision e.2)) revs.

Lemma on_revisions_functions revs :
  map_result (λ e, function_snapshot e.2 ≫= λ f, Ok (e.1, f)) (on_revisions revs) =
  if forallb (λ e, copyable e.2) revs then Ok (on_values function_metadata revs) else Err TypeError.
Proof.
  unfold on_revisions, on_values. induction revs as [|[k r] revs IH]; [done|]. cbn [map map_result forallb fst snd].
  rewrite function_snapshot_active, IH. destruct (copyable r); [|done]. by destruct (forallb _ revs).
Qed.

Lemma on_values_wf {V W} (f : V → W) (m : jsmap jstr V) : map_wf m → map_wf (on_values f m).
Proof. unfold map_wf, map_keys, on_values. by rewrite <-list_fmap_compose. Qed.

Lemma existsb_published revs : map_wf revs → forallb (λ e, copyable e.2) revs = true →
  existsb (λ e, bad_function e.2) (obj_build (on_values function_metadata revs)) =
  negb (forallb (λ e, servable e.2) (published revs)).
Proof.
  intros Hwf Hc. rewrite forallb_true_iff in Hc.
  apply eq_true_iff_eq. rewrite negb_true_iff, <-not_true_iff_false, existsb_true_iff, forallb_true_iff.
  split.
  - intros ([k v] & [Hin Hk]%elem_obj_build_iff & Hb) Hall; [|by apply on_values_wf]. cbn [fst snd] in Hk, Hb.
    apply list_elem_of_fmap in Hin as ([k' r] & [= -> ->] & Hin). cbn [fst snd] in Hb, Hk.
    specialize (Hall (k', r)). cbn [snd] in Hall. rewrite bad_function_metadata, Hall in Hb; [done| |by apply (Hc (k', r))].
    by apply list_elem_of_filter.
  - intros Hn. destruct (existsb (λ e : jstr * RevisionRecord, negb (servable e.2)) (published revs)) eqn:E.
    + apply existsb_true_iff in E as ([k r] & [Hk Hin]%list_elem_of_filter & Hs). cbn [fst snd] in Hk, Hs.
      exists (k, function_metadata r). split; [|cbn [snd]; rewrite bad_function_metadata; [done|by apply (Hc (k, r))]].
      apply elem_obj_build_iff; [by apply on_values_wf|]. split; [|done].
      apply list_elem_of_fmap. by exists (k, r).
    + destruct Hn. intros e He. apply existsb_false_iff in E. apply negb_false_iff.
      by eapply Forall_forall in E.
Qed.

Lemma safe_version n : 0 < n <= 2 ^ 53 - 1 → bad_version (JNum (Fin (inject_Z n))) = false.
Proof. intros Hn. apply bad_version_spec. by exists (inject_Z n), n. Qed.

Lemma good_id now bytes : Forall is_byte bytes →
  bad_snapshot_id (JStr (SNAPSHOT_ID_PREFIX ++ generateUlid now bytes)) = false.
Proof.
  intros Hb. apply bad_snapshot_id_spec. eexists. split; [done|]. by apply generateUlid_valid.
Qed.

(** The snapshot [createSnapshot] makes of revisions that can be copied *)
Definition revision_snapshot (routes : list route) (revs : list (jstr * RevisionRecord))
    (metadata : option ProjectMetadata) (version now : Z) (bytes : list Z) (generatedAt : Z) : jsval :=
  JObj
    [(js "snapshotId", JStr (SNAPSHOT_ID_PREFIX ++ generateUlid now bytes));
     (js "version", JNum (Fin (inject_Z version)));
     (js "routes", JArr (map route_value routes));
     (js "functions", JObj (obj_build (on_values function_metadata revs)));
     (js "generatedAt", JNum (Fin (inject_Z generatedAt)));
     (js "environment", opt_value (JStr <$> (metadata ≫= environment)));
     (js "domains", opt_value (JArr <$> (metadata ≫= domains)))].

Lemma createSnapshot_revisions routes revs metadata now bytes generatedAt v :
  createSnapshot routes (on_revisions revs) metadata now bytes generatedAt v =
    (v + 1, if forallb (λ e, copyable e.2) revs
            then Ok (revision_snapshot routes revs metadata (v + 1) now bytes generatedAt) else Err TypeError).
Proof. unfold createSnapshot. rewrite on_revisions_functions. by destruct (forallb _ _). Qed.

Lemma revision_snapshot_functions routes revs metadata v now bytes generatedAt name :
  map_wf revs → name ≠ PROTO →
  map_get (object_entries (prop (revision_snapshot routes revs metadata v now bytes generatedAt) (js "functions"))) name =
    function_metadata <$> map_get revs name.
Proof.
  intros Hwf Hn. change (object_entries _) with (obj_build (on_values function_metadata revs)).
  rewrite map_get_obj_build by (try apply on_values_wf; done). apply map_get_on_values.
Qed.

(** A declared route of strings *)
Definition good_route (r : route) : bool := is_string (pattern r) && is_string (function r).

Lemma good_routes routes : existsb bad_route (map route_value routes) = negb (forallb good_route routes).
Proof.
  induction routes as [|r routes IH]; [done|]. cbn [map existsb forallb]. rewrite IH, negb_andb. f_equal.
  unfold good_route. rewrite negb_andb. reflexivity.
Qed.

(** Publishing (PLAT-8): [createSnapshot] numbers its snapshots
    consecutively, also when it fails, which it does exactly when a manifest
    declares a scope that is not iterable; what it makes of the active revisions
    holds, under each function's name, the identifiers, scopes and limits of its
    revision, and the data plane accepts it exactly when the routes are strings
    and every revision has non-blank names, scopes of strings and finite limits,
    so that a single revision with an infinite limit (which packaging admits)
    makes the whole snapshot rejected. *)
Theorem created_snapshot_valid routes revs metadata v now bytes generatedAt :
  map_wf revs → 0 <= v < 2 ^ 53 - 1 → Forall is_byte bytes →
  let '(v', r) := createSnapshot routes (on_revisions revs) metadata now bytes generatedAt v in
  v' = v + 1 ∧
  if forallb (λ e, copyable e.2) revs then
    ∃ s, r = Ok s ∧
      prop s (js "version") = JNum (Fin (inject_Z v')) ∧
      (∀ name, name ≠ PROTO →
        map_get (object_entries (prop s (js "functions"))) name = function_metadata <$> map_get revs name) ∧
      validateRoutingSnapshot s =
        if forallb good_route routes && forallb (λ e, servable e.2) (published revs)
        then Ok s else Err ValidationFailedError
  else r = Err TypeError.
Proof.
  intros Hwf Hv Hb. rewrite createSnapshot_revisions. split; [done|].
  destruct (forallb (λ e, copyable e.2) revs) eqn:Hc; [|done].
  eexists. split; [reflexivity|]. split; [reflexivity|].
  split; [intros name; by apply revision_snapshot_functions|].
  rewrite validate_test. match goal with |- context [bad_snapshot ?s] =>
    change (bad_snapshot s) with
    (bad_snapshot_id (JStr (SNAPSHOT_ID_PREFIX ++ generateUlid now bytes)) ||
     (bad_version (JNum (Fin (inject_Z (v + 1)))) || (false || (existsb bad_route (map route_value routes) ||
     (false || (existsb (λ e, bad_function e.2) (obj_build (on_values function_metadata revs)) || false)))))) end.
  rewrite good_id, safe_version, good_routes, existsb_published by (done || lia). cbn [orb].
  rewrite orb_false_r, <-negb_andb. by destruct (_ && _).
Qed.

Definition demo_revision (name : jstr) (timeout : jsnum) : RevisionRecord :=
  {| r_id := js "rev_1"; r_project := js "shop"; r_functionName := name; r_artifactId := js "sha256:00";
     r_integrity := js "sha256-0"; r_state := Deployed; r_createdAt := 1700000000000;
     r_manifest :=
       manifest_value {| runtime := js "railfog-deno"; runtimeVersion := js "1.0"; m_entrypoint := js "main.ts";
          m_integrity := js "sha256-0";
          permissions := {| mp_kv := Some [js "carts"]; mp_objects := None; mp_queues := None;
                            mp_secrets := None; mp_network := None |};
          limits := {| cpu_ms := Fin 200; timeout_ms := timeout; memory_mb := Fin 128 |};
          lockfile := None |} |}.

Definition demo_revisions : list (jstr * RevisionRecord) :=
  [(js "cart", demo_revision (js "cart") (Fin 30000)); (js "slow", demo_revision (js "slow") (Inf false))].

Definition demo_bytes : list Z := [1; 2; 3; 4; 5; 6; 7; 8; 9; 10].

Lemma created_snapshot_valid_witness :
  ∃ s, (createSnapshot [] (on_revisions demo_revisions) None 1700000000000 demo_bytes 1700000000001 0).2 = Ok s ∧
       validateRoutingSnapshot s = Err ValidationFailedError.
Proof.
  pose proof (created_snapshot_valid [] demo_revisions None 0 1700000000000 demo_bytes 1700000000001) as H.
  destruct (createSnapshot _ _ _ _ _ _ 0) as [v' r]. destruct H as (_ & Hr).
  - unfold map_wf, map_keys. apply (bool_decide_unpack _). vm_compute. exact I.
  - lia.
  - repeat constructor; unfold is_byte; lia.
  - change (forallb _ demo_revisions) with true in Hr. destruct Hr as (s & -> & _ & _ & Hs).
    exists s. split; [reflexivity|]. rewrite Hs. vm_compute. reflexivity.
Defined.
