(* ===== verification/SnapshotCache.v ===== *)
(** * Fail-static snapshot caches
    ([runtime/snapshot/snapshot-cache.ts], [runtime/snapshot/disk-snapshot-cache.ts], PLAT-8)

    A cache, the refreshes in flight and the cache file.  A refresh is split
    where it awaits: the fetch, and for the disk cache the creation of the
    directory, the two parts of a file write, the rename and the cleanup.
    [exec] runs one event; events of different refreshes interleave freely.
    The polling interval is the schedule of [ETick] events. *)

From S2P Require Import Prelude JsString JsMap JsNumber JsValue Errors Snapshot.
From Stdlib Require Import QArith.

Open Scope Z_scope.

(** ** The cache in memory *)

Record SnapshotCache := {
  latestSnapshot : option jsval;
  timerId : bool;
  isPolling : bool
}.

Definition new_cache (initialSnapshot : option jsval) : SnapshotCache :=
  {| latestSnapshot := initialSnapshot; timerId := false; isPolling := false |}.

Definition set_latest (s : option jsval) (c : SnapshotCache) : SnapshotCache :=
  {| latestSnapshot := s; timerId := timerId c; isPolling := isPolling c |}.
Definition set_timer (b : bool) (c : SnapshotCache) : SnapshotCache :=
  {| latestSnapshot := latestSnapshot c; timerId := b; isPolling := isPolling c |}.
Definition set_polling (b : bool) (c : SnapshotCache) : SnapshotCache :=
  {| latestSnapshot := latestSnapshot c; timerId := timerId c; isPolling := b |}.

Definition getLatestSnapshot (c : SnapshotCache) : option jsval := latestSnapshot c.

(** [v.version > w.version] *)
Definition newer (v w : jsval) : bool :=
  match prop v (js "version"), prop w (js "version") with
  | JNum (Fin a), JNum (Fin b) => q_ltb b a
  | _, _ => false
  end.

(** [!this.latestSnapshot || validated.version > this.latestSnapshot.version] *)
Definition adopts (c : SnapshotCache) (validated : jsval) : bool :=
  match latestSnapshot c with None => true | Some latest => newer validated latest end.

(** The continuation of [forceRefresh] once the fetch has settled: the new
    cache, and the snapshot if it was adopted *)
Definition refresh (raw : result exn jsval) : stm SnapshotCache exn (option jsval) := λ c,
  match raw ≫= validateRoutingSnapshot with
  | Err e => (c, Err e)
  | Ok validated =>
      if adopts c validated
      then (set_latest (Some validated) c, Ok (Some validated))
      else (c, Ok None)
  end.

(** ** Files

    [tmp] and [main] are the names [cacheFilePath.tmp] and [cacheFilePath];
    they point to files, whose contents a writer reaches by its descriptor even
    after a rename. *)

(** The text [JSON.parse] reads as a value, or one it rejects *)
Inductive content := Json (v : jsval) | Broken.

Record files := { tmp : option nat; main : option nat; inodes : list content }.

(** [writeTextFile] opens and truncates, then writes *)
Definition open_tmp (f : files) : files * nat :=
  match tmp f with
  | Some fd => ({| tmp := tmp f; main := main f; inodes := <[fd := Broken]> (inodes f) |}, fd)
  | None =>
      let fd := length (inodes f) in
      ({| tmp := Some fd; main := main f; inodes := inodes f ++ [Broken] |}, fd)
  end.
Definition write_fd (fd : nat) (v : jsval) (f : files) : files :=
  {| tmp := tmp f; main := main f; inodes := <[fd := Json v]> (inodes f) |}.
(** [None]: there is no temporary file. *)
Definition rename_tmp (f : files) : option files :=
  match tmp f with
  | Some fd => Some {| tmp := None; main := Some fd; inodes := inodes f |}
  | None => None
  end.
Definition remove_tmp (f : files) : files := {| tmp := None; main := main f; inodes := inodes f |}.

(** [createDiskSnapshotCache]: what it recovers from the file *)
Definition recover (f : files) : option jsval :=
  match main f ≫= λ fd, inodes f !! fd with
  | Some (Json parsed) =>
      match validateRoutingSnapshot parsed with Ok s => Some s | Err _ => None end
  | _ => None
  end.
Definition createDiskSnapshotCache (f : files) : SnapshotCache := new_cache (recover f).

(** ** Refreshes in flight *)

Inductive stage :=
| Fetching
| MakingDir (s : jsval)
| Opening (s : jsval)
| Writing (s : jsval) (fd : nat)
| Renaming (s : jsval)
| CleaningUp
| Settled.

(** [waiting]: the refresh of a background poll whose race is undecided *)
Record task := { waiting : bool; at_stage : stage }.

Record world := { cache : SnapshotCache; disk : files; tasks : list task }.

Definition with_cache (c : SnapshotCache) (w : world) : world :=
  {| cache := c; disk := disk w; tasks := tasks w |}.
Definition with_disk (f : files) (w : world) : world :=
  {| cache := cache w; disk := f; tasks := tasks w |}.
Definition with_tasks (ts : list task) (w : world) : world :=
  {| cache := cache w; disk := disk w; tasks := ts |}.

Definition spawn (background : bool) (w : world) : world :=
  with_tasks (tasks w ++ [{| waiting := background; at_stage := Fetching |}]) w.

(** [pollBackground], until its first await *)
Definition pollBackground (w : world) : world :=
  if isPolling (cache w) then w else spawn true (with_cache (set_polling true (cache w)) w).

(** Its [finally] block *)
Definition poll_finally (w : world) : world := with_cache (set_polling false (cache w)) w.

Definition start (w : world) : world :=
  if timerId (cache w) then w
  else pollBackground (with_cache (set_timer true (cache w)) w).
Definition stop (w : world) : world :=
  if timerId (cache w) then with_cache (set_timer false (cache w)) w else w.

(** Refresh [i] goes to another stage; when it settles, a poll that still waits
    for it ends. *)
Definition goto (i : nat) (t : task) (s : stage) (w : world) : world :=
  let w := with_tasks (<[i := {| waiting := waiting t; at_stage := s |}]> (tasks w)) w in
  match s with
  | Settled =>
      if waiting t
      then poll_finally (with_tasks (<[i := {| waiting := false; at_stage := Settled |}]> (tasks w)) w)
      else w
  | _ => w
  end.

(** The poll's timeout fires: its race is decided, the refresh goes on. *)
Definition give_up_poll (w : world) : world :=
  if isPolling (cache w) then
    poll_finally (with_tasks ((λ t, {| waiting := false; at_stage := at_stage t |}) <$> tasks w) w)
  else w.

Inductive event :=
| EStart | EStop | ETick | EPollTimeout | EForceRefresh
| EFetched (i : nat) (raw : result exn jsval)
| EMadeDir (i : nat) (ok : bool)
| EOpened (i : nat) (ok : bool)
| EWrote (i : nat) (ok : bool)
| ERenamed (i : nat) (ok : bool)
| ECleaned (i : nat) (ok : bool).

(** [forceRefresh] of the memory cache, and of the disk cache, where it resumes
    after the fetch *)
Definition memory_fetched (i : nat) (t : task) (raw : result exn jsval) (w : world) : world :=
  goto i t Settled (with_cache (refresh raw (cache w)).1 w).
Definition disk_fetched (i : nat) (t : task) (raw : result exn jsval) (w : world) : world :=
  let '(c, r) := refresh raw (cache w) in
  goto i t match r with Ok (Some validated) => MakingDir validated | _ => Settled end (with_cache c w).

(** [persistToDisk], where it resumes *)
Definition persist_step (i : nat) (t : task) (e : event) (w : world) : world :=
  match at_stage t, e with
  | MakingDir s, EMadeDir _ ok => goto i t (if ok then Opening s else Settled) w
  | Opening s, EOpened _ ok =>
      if ok then let '(f, fd) := open_tmp (disk w) in goto i t (Writing s fd) (with_disk f w)
      else goto i t CleaningUp w
  | Writing s fd, EWrote _ ok =>
      if ok then goto i t (Renaming s) (with_disk (write_fd fd (json_value s) (disk w)) w)
      else goto i t CleaningUp w
  | Renaming s, ERenamed _ ok =>
      match (if ok then rename_tmp (disk w) else None) with
      | Some f => goto i t Settled (with_disk f w)
      | None => goto i t CleaningUp w
      end
  | CleaningUp, ECleaned _ ok =>
      goto i t Settled (if ok then with_disk (remove_tmp (disk w)) w else w)
  | _, _ => w
  end.

Definition event_task (e : event) : option nat :=
  match e with
  | EFetched i _ | EMadeDir i _ | EOpened i _ | EWrote i _ | ERenamed i _ | ECleaned i _ => Some i
  | _ => None
  end.

(** One event; an event for a refresh that is not at that point changes
    nothing. [durable] tells the disk cache from the memory cache. *)
Definition exec (durable : bool) (w : world) (e : event) : world :=
  match e with
  | EStart => start w
  | EStop => stop w
  | ETick => if timerId (cache w) then pollBackground w else w
  | EPollTimeout => give_up_poll w
  | EForceRefresh => spawn false w
  | _ =>
      match event_task e ≫= λ i, tasks w !! i with
      | None => w
      | Some t =>
          let i := default 0%nat (event_task e) in
          match at_stage t, e with
          | Fetching, EFetched _ raw => if durable then disk_fetched i t raw w else memory_fetched i t raw w
          | _, _ => persist_step i t e w
          end
      end
  end.

Definition run (durable : bool) (w : world) (es : list event) : world := fold_left (exec durable) es w.

(** A cold start *)
Definition boot (f : files) : world := {| cache := createDiskSnapshotCache f; disk := f; tasks := [] |}.

(** ** A snapshot survives the disk *)

Lemma text_json v : text v → json_value v = v.
Proof. by intros (s & -> & _). Qed.
Lemma finite_json v : finite_number v → json_value v = v.
Proof. by intros (q & ->). Qed.
Lemma string_list_json v : string_list v → json_value v = v.
Proof. intros (ss & ->). cbn. f_equal. induction ss as [|s ss IH]; cbn; [done|]. by f_equal. Qed.
Lemma plain_object_json v : plain_object v → plain_object (json_value v).
Proof. intros (es & ->). by eexists. Qed.

Lemma FunctionSnapshot_json v : val_wf v → ValidFunction v → ValidFunction (json_value v).
Proof.
  intros Hwf [Ho Hn Hp Hs Hl Hv].
  assert (∀ a b, prop (prop (json_value v) a) b = json_value (prop (prop v a) b)) as H2.
  { intros a b. rewrite prop_json by done. apply prop_json. by apply val_wf_prop. }
  split; rewrite ?prop_json by done; try by apply plain_object_json.
  - eapply Forall_impl; [exact Hn|]. intros name Ht. by rewrite prop_json, text_json.
  - eapply Forall_impl; [exact Hs|]. intros scope Ht. rewrite prop_json by (by apply val_wf_prop).
    destruct Ht as [->|Ht]; [by left|]. right. by rewrite string_list_json.
  - eapply Forall_impl; [exact Hv|]. intros name Ht. rewrite prop_json by (by apply val_wf_prop).
    by rewrite finite_json.
Qed.

Lemma Route_json v : val_wf v → Route v → Route (json_value v).
Proof.
  intros Hwf (p & f & Hp & Hf). exists p, f. by rewrite !prop_json, Hp, Hf.
Qed.

Lemma RoutingSnapshot_json v : val_wf v → ValidSnapshot v → ValidSnapshot (json_value v).
Proof.
  intros Hwf [Ho Hi Hv (rs & Er & Hr) (fs & Ef & Hf) Hg].
  pose proof (val_wf_prop _ (js "routes") Hwf) as Wr. rewrite Er in Wr.
  pose proof (val_wf_prop _ (js "functions") Hwf) as Wf. rewrite Ef in Wf.
  split; [by apply plain_object_json|..]; rewrite prop_json by done.
  - destruct Hi as (u & -> & Hu). by exists u.
  - destruct Hv as (q & n & -> & Hq). by exists q, n.
  - rewrite Er. exists (map (λ x, match json_value x with JUndef => JNull | y => y end) rs).
    split; [reflexivity|]. apply Forall_forall. intros y Hy.
    apply list_elem_of_In, in_map_iff in Hy as (x & <- & Hx%list_elem_of_In).
    eapply Forall_forall in Hr as Hx'; [|exact Hx]. apply (val_wf_array _ x) in Wr; [|done].
    assert (x ≠ JUndef) as Hn by (intros ->; by destruct Hx' as (? & ? & ? & _)).
    apply Route_json in Hx'; [|done]. pose proof (json_value_undef x) as Hu.
    destruct (json_value x); try exact Hx'; try (destruct Hn; by apply Hu).
  - rewrite Ef. exists (flat_map json_entry fs). split; [reflexivity|]. apply Forall_forall. intros [k y] Hy.
    apply elem_json_entries in Hy as (x & Hx & -> & _). cbn.
    apply FunctionSnapshot_json; [by eapply val_wf_elem|]. eapply Forall_forall in Hf; [|exact Hx]. exact Hf.
  - by rewrite finite_json.
Qed.

Lemma validate_typed v s : validateRoutingSnapshot v = Ok s → s = v ∧ ValidSnapshot v.
Proof.
  rewrite validate_test. pose proof (bad_snapshot_spec v) as H.
  destruct (bad_snapshot v); [done|]. intros [= ->]. split; [done|by apply H].
Qed.
Lemma typed_validates v : ValidSnapshot v → validateRoutingSnapshot v = Ok v.
Proof. intros H%bad_snapshot_spec. by rewrite validate_test, H. Qed.

(** ** Versions only grow *)

Lemma newer_trans a b c : newer a b = true → newer b c = true → newer a c = true.
Proof.
  unfold newer. destruct (prop a (js "version")) as [| | |[]| | |],
    (prop b (js "version")) as [| | |[]| | |], (prop c (js "version")) as [| | |[]| | |]; try done. rewrite !q_ltb_lt. intros. by eapply Qlt_trans.
Qed.

(** A later content of the cache *)
Definition supersedes (new old : option jsval) : Prop :=
  match old with
  | None => True
  | Some s => ∃ s', new = Some s' ∧ (s' = s ∨ newer s' s = true)
  end.

Lemma supersedes_refl o : supersedes o o.
Proof. destruct o as [s|]; cbn; eauto. Qed.
Lemma supersedes_trans a b c : supersedes a b → supersedes b c → supersedes a c.
Proof.
  destruct c as [s|]; [|done]. cbn. intros Ha (s' & -> & Hs'). destruct Ha as (s'' & -> & Hs'').
  eexists. split; [done|]. destruct Hs' as [->|Hs'], Hs'' as [->|Hs'']; auto. right. by eapply newer_trans.
Qed.

Lemma refresh_supersedes raw c : supersedes (latestSnapshot (refresh raw c).1) (latestSnapshot c).
Proof.
  unfold refresh, adopts. destruct (raw ≫= _) as [v|e]; [|apply supersedes_refl].
  destruct (latestSnapshot c) as [l|] eqn:E; cbn; [|done].
  destruct (newer v l) eqn:En; cbn; rewrite ?E; eauto.
Qed.

Definition latest (w : world) : option jsval := latestSnapshot (cache w).
Definition polls (w : world) : nat := length (filter (λ t, waiting t = true) (tasks w)).

(** What every event preserves: the cached snapshot is valid, and exactly the
    undecided poll holds the lock. *)
Record world_ok (w : world) : Prop := {
  ok_latest s : latest w = Some s → ValidSnapshot s;
  ok_lock : polls w = if isPolling (cache w) then 1%nat else 0%nat;
  ok_waiting i t : tasks w !! i = Some t → at_stage t = Settled → waiting t = false
}.

(** *** Moves preserve them *)

Lemma insert_waiting ts i t t' :
  ts !! i = Some t → waiting t' = waiting t →
  length (filter (λ t, waiting t = true) (<[i := t']> ts)) = length (filter (λ t, waiting t = true) ts).
Proof.
  revert i. induction ts as [|t0 ts IH]; intros [|i] Hi Hw; try done.
  - cbn in Hi. injection Hi as ->. change (<[0%nat:=t']> (t :: ts)) with (t' :: ts). rewrite !filter_cons, Hw. by case_decide.
  - cbn in Hi. change (<[S i:=t']> (t0 :: ts)) with (t0 :: <[i:=t']> ts).
    rewrite !filter_cons. case_decide; cbn [length]; by rewrite (IH i).
Qed.

Lemma insert_not_waiting ts i t t' :
  ts !! i = Some t → waiting t = true → waiting t' = false →
  S (length (filter (λ t, waiting t = true) (<[i := t']> ts))) = length (filter (λ t, waiting t = true) ts).
Proof.
  revert i. induction ts as [|t0 ts IH]; intros [|i] Hi Hw Hw'; try done.
  - cbn in Hi. injection Hi as ->. change (<[0%nat:=t']> (t :: ts)) with (t' :: ts). rewrite !filter_cons.
    rewrite (decide_True _ _ Hw), decide_False by congruence. done.
  - cbn in Hi. change (<[S i:=t']> (t0 :: ts)) with (t0 :: <[i:=t']> ts).
    rewrite !filter_cons. case_decide; cbn [length]; by rewrite <-(IH i).
Qed.

Lemma goto_ok i t s w :
  world_ok w → tasks w !! i = Some t → world_ok (goto i t s w).
Proof.
  intros [Hl Hp Hs] Hi. assert (∀ b st, insert (M := list task) i {| waiting := b; at_stage := st |} (tasks w) !! i =
    Some {| waiting := b; at_stage := st |}) as Hii.
  { intros. apply list_lookup_insert_eq. by eapply lookup_lt_Some. }
  assert (∀ st, st ≠ Settled ∨ waiting t = false →
    world_ok (with_tasks (<[i := {| waiting := waiting t; at_stage := st |}]> (tasks w)) w)) as Hmove.
  { intros st Hst. split; [done|etrans; [by apply (insert_waiting _ _ t)|exact Hp]|]. cbn [with_tasks tasks]. intros j t'.
    destruct (decide (i = j)) as [<-|Hne].
    - rewrite Hii. intros [= <-]. cbn. intros ->. by destruct Hst.
    - rewrite list_lookup_insert_ne by done. apply Hs. }
  unfold goto. destruct s; try (apply Hmove; by left).
  destruct (waiting t) eqn:Ew; [|apply Hmove; by right].
  split; cbn; [done| |].
  - unfold polls in *. cbn. rewrite list_insert_insert_eq.
    apply (insert_not_waiting _ i t {| waiting := false; at_stage := Settled |}) in Hi; [|done..].
    destruct (isPolling (cache w)); lia.
  - intros j t'. rewrite list_insert_insert_eq. destruct (decide (i = j)) as [<-|Hne].
    + rewrite Hii. by intros [= <-].
    + rewrite list_lookup_insert_ne by done. apply Hs.
Qed.

Lemma with_cache_ok c w : world_ok w →
  (∀ s, latestSnapshot c = Some s → ValidSnapshot s) → isPolling c = isPolling (cache w) →
  world_ok (with_cache c w).
Proof. intros [Hl Hp Hs] Hc Hpoll. split; [done|cbn; by rewrite Hpoll|done]. Qed.

Lemma with_disk_ok f w : world_ok w → world_ok (with_disk f w).
Proof. by intros [Hl Hp Hs]. Qed.

Lemma refresh_polling raw c : isPolling (refresh raw c).1 = isPolling c.
Proof. unfold refresh. destruct (raw ≫= _); [|done]. by destruct (adopts c _). Qed.

Lemma refresh_valid raw c :
  (∀ s, latestSnapshot c = Some s → ValidSnapshot s) →
  ∀ s, latestSnapshot (refresh raw c).1 = Some s → ValidSnapshot s.
Proof.
  intros Hc s. unfold refresh. destruct (raw ≫= _) as [v|] eqn:E; [|apply Hc].
  apply bind_Ok in E as (r & _ & [-> Hr]%validate_typed).
  destruct (adopts c _); cbn; [by intros [= <-]|apply Hc].
Qed.

Lemma refresh_ok raw w : world_ok w → world_ok (with_cache (refresh raw (cache w)).1 w).
Proof.
  intros Hw. apply with_cache_ok; [done| |apply refresh_polling]. apply refresh_valid, ok_latest, Hw.
Qed.

Lemma spawn_ok w : world_ok w → world_ok (spawn false w).
Proof.
  intros [Hl Hp Hs]. split; [done| |].
  - etrans; [|exact Hp]. unfold polls, spawn. cbn [tasks with_tasks]. rewrite filter_app, length_app.
    apply Nat.add_0_r.
  - intros i t [Hi|[_ Hi]]%lookup_app_Some; [by apply (Hs i)|].
    apply list_lookup_singleton_Some in Hi as [_ <-]. done.
Qed.

Lemma pollBackground_ok w : world_ok w → world_ok (pollBackground w).
Proof.
  unfold pollBackground. destruct (isPolling (cache w)) eqn:E; [done|]. intros [Hl Hp Hs]. rewrite E in Hp.
  split; [done| |].
  - unfold polls, spawn in *. cbn [tasks with_tasks with_cache]. rewrite filter_app, length_app, Hp. reflexivity.
  - intros i t [Hi|[_ Hi]]%lookup_app_Some; [by apply (Hs i)|].
    apply list_lookup_singleton_Some in Hi as [_ <-]. done.
Qed.

Lemma give_up_poll_ok w : world_ok w → world_ok (give_up_poll w).
Proof.
  unfold give_up_poll. destruct (isPolling (cache w)) eqn:E; [|done]. intros [Hl Hp Hs].
  split; [done| |].
  - unfold polls. cbn. rewrite filter_none; [done|]. apply Forall_forall. intros t Ht.
    apply list_elem_of_fmap in Ht as (t' & -> & _). done.
  - intros i t. cbn. rewrite list_lookup_fmap. destruct (tasks w !! i); [|done]. by intros [= <-].
Qed.

Lemma persist_step_ok i t e w : world_ok w → tasks w !! i = Some t → world_ok (persist_step i t e w).
Proof.
  intros Hw Hi. pose proof (λ s f, goto_ok i t s (with_disk f w) (with_disk_ok f w Hw) Hi) as Hgd.
  pose proof (λ s, goto_ok i t s w Hw Hi) as Hg. unfold persist_step.
  destruct (at_stage t), e; try done; try (destruct ok; [|apply Hg]); try apply Hg; try apply Hgd.
  - unfold open_tmp. destruct (tmp (disk w)); apply Hgd.
  - destruct (rename_tmp (disk w)); [apply Hgd|apply Hg].
Qed.

Lemma exec_ok durable e w : world_ok w → world_ok (exec durable w e).
Proof.
  intros Hw. assert (∀ b, world_ok (with_cache (set_timer b (cache w)) w)) as Ht
    by (intros b; apply with_cache_ok; [done|apply Hw|done]).
  assert (∀ i t, tasks w !! i = Some t → ∀ raw s, world_ok (goto i t s (with_cache (refresh raw (cache w)).1 w))) as Hr
    by (intros i t Hi raw s; apply goto_ok; [by apply refresh_ok|exact Hi]).
  destruct e; cbn [exec event_task mbind option_bind]; try by apply spawn_ok.
  6-10: destruct (tasks w !! i) as [t|] eqn:Hi; [|done]; destruct (at_stage t); by apply persist_step_ok.
  - unfold start. destruct (timerId (cache w)); [done|]. by apply pollBackground_ok.
  - unfold stop. by destruct (timerId (cache w)).
  - destruct (timerId (cache w)); [by apply pollBackground_ok|done].
  - by apply give_up_poll_ok.
  - destruct (tasks w !! i) as [t|] eqn:Hi; [|done]. cbn [default from_option].
    destruct (at_stage t); [|by apply persist_step_ok..].
    destruct durable; [|by apply Hr]. unfold disk_fetched.
    specialize (Hr i t Hi raw). destruct (refresh raw (cache w)) as [c r]. apply Hr.
Qed.

Lemma goto_latest i t s w : latest (goto i t s w) = latest w.
Proof. unfold goto. destruct s; try done. by destruct (waiting t). Qed.

Lemma persist_step_latest i t e w : latest (persist_step i t e w) = latest w.
Proof.
  unfold persist_step. destruct (at_stage t), e; try done; try (destruct ok); try by rewrite goto_latest.
  - destruct (open_tmp (disk w)). by rewrite goto_latest.
  - destruct (rename_tmp (disk w)); by rewrite goto_latest.
Qed.

Lemma exec_latest durable e w : supersedes (latest (exec durable w e)) (latest w).
Proof.
  assert (∀ i t, supersedes (latest (persist_step i t e w)) (latest w)) as Hp.
  { intros. rewrite persist_step_latest. apply supersedes_refl. }
  destruct e; cbn [exec event_task mbind option_bind]; try apply supersedes_refl.
  6-10: destruct (tasks w !! i) as [t|]; [|apply supersedes_refl]; destruct (at_stage t); apply Hp.
  - unfold start, pollBackground. destruct (timerId (cache w)), (isPolling (cache w)) eqn:E; cbn; rewrite ?E; apply supersedes_refl.
  - unfold stop. destruct (timerId (cache w)); apply supersedes_refl.
  - unfold pollBackground. destruct (timerId (cache w)), (isPolling (cache w)) eqn:E; cbn; rewrite ?E; apply supersedes_refl.
  - unfold give_up_poll. destruct (isPolling (cache w)); apply supersedes_refl.
  - destruct (tasks w !! i) as [t|]; [|apply supersedes_refl]. destruct (at_stage t); [|apply Hp..].
    pose proof (refresh_supersedes raw (cache w)) as Hr. destruct durable.
    + unfold disk_fetched. destruct (refresh raw (cache w)) as [c r]. by rewrite goto_latest.
    + unfold memory_fetched. by rewrite goto_latest.
Qed.

Lemma run_app durable w es1 es2 : run durable w (es1 ++ es2) = run durable (run durable w es1) es2.
Proof. apply fold_left_app. Qed.

Lemma run_ok durable es w : world_ok w → world_ok (run durable w es).
Proof. revert w. induction es as [|e es IH]; intros w Hw; [done|]. by apply IH, exec_ok. Qed.

Lemma run_latest durable es w : supersedes (latest (run durable w es)) (latest w).
Proof.
  revert w. induction es as [|e es IH]; intros w; [apply supersedes_refl|].
  eapply supersedes_trans; [apply IH|apply exec_latest].
Qed.

Lemma boot_ok f : world_ok (boot f).
Proof.
  split; [|done|done]. intros s. unfold latest, boot, createDiskSnapshotCache, new_cache, recover. cbn.
  destruct (main f ≫= _) as [[v|]|]; [|done..]. destruct (validateRoutingSnapshot v) eqn:E; [|done].
  intros [= <-]. by apply validate_typed in E as [-> ?].
Qed.

(** A timer that runs always gets through to a newer snapshot: whatever hangs,
    the poll's timeout frees the lock, the next tick fetches. *)
Lemma poll_recovers durable w fresh :
  world_ok w → timerId (cache w) = true → ValidSnapshot fresh →
  match latest w with None => true | Some l => newer fresh l end = true →
  latest (run durable w [EPollTimeout; ETick; EFetched (length (tasks w)) (Ok fresh)]) = Some fresh.
Proof.
  intros Hw Ht Hf Hn. unfold run. cbn [fold_left exec].
  assert (∃ w', give_up_poll w = w' ∧ isPolling (cache w') = false ∧ timerId (cache w') = true ∧
    latest w' = latest w ∧ length (tasks w') = length (tasks w)) as (w' & -> & Hp & Ht' & Hl & Hlen).
  { eexists. split; [reflexivity|]. unfold give_up_poll. destruct (isPolling (cache w)) eqn:E; [|done].
    split_and!; [done|done|done|]. apply length_fmap. }
  rewrite Ht'. unfold pollBackground. rewrite Hp. cbn [event_task mbind option_bind].
  unfold spawn at 1. cbn [with_tasks tasks with_cache]. rewrite <-Hlen.
  rewrite lookup_app_r, Nat.sub_diag by lia. cbn [lookup list_lookup at_stage default from_option].
  rewrite <-Hl in Hn. clear Hlen.
  assert (∀ w0, cache w0 = set_polling true (cache w') →
    adopts (cache w0) fresh = true) as Ha by (intros w0 ->; exact Hn).
  destruct durable; unfold disk_fetched, memory_fetched, refresh; cbn [mbind result_bind];
    rewrite (typed_validates _ Hf), Ha by done; by rewrite goto_latest.
Qed.

(** C40: Fail static (PLAT-8): through any interleaving of polls, timeouts, failed
    or invalid fetches, file errors, starts and stops, a cache never loses its
    snapshot: it holds a valid one and only replaces it by one with a greater
    version; at most one background poll is undecided; and nothing wedges the
    polling: from every reachable state with the timer on, the timeout, the next
    tick and a successful fetch bring in the newer snapshot. *)
Theorem cache_fail_static durable f es1 es2 :
  let w1 := run durable (boot f) es1 in
  let w2 := run durable (boot f) (es1 ++ es2) in
  supersedes (latest w2) (latest w1) ∧
  (∀ s, latest w2 = Some s → ValidSnapshot s) ∧
  (polls w2 <= 1)%nat ∧
  ∀ fresh, timerId (cache w2) = true → ValidSnapshot fresh →
    adopts (cache w2) fresh = true →
    latest (run durable w2 [EPollTimeout; ETick; EFetched (length (tasks w2)) (Ok fresh)]) = Some fresh.
Proof.
  intros w1 w2. pose proof (run_ok durable (es1 ++ es2) _ (boot_ok f)) as Hw. fold w2 in Hw.
  split_and!.
  - unfold w2. rewrite run_app. apply run_latest.
  - apply Hw.
  - rewrite (ok_lock _ Hw). destruct (isPolling (cache w2)); lia.
  - intros fresh Ht Hf Ha. by apply poll_recovers.
Qed.

(** ** Recovery from the cache file *)

(** The refresh is between its adoption of a snapshot and the end of
    [persistToDisk]. *)
Definition persisting (t : task) : bool :=
  match at_stage t with Fetching | Settled => false | _ => true end.

(** No two refreshes persist at the same time. *)
Definition serial (w : world) : Prop :=
  ∀ i j t u, tasks w !! i = Some t → tasks w !! j = Some u →
    persisting t = true → persisting u = true → i = j.

(** Fetched data are JSON: the keys of an object are distinct. *)
Definition event_wf (e : event) : Prop :=
  match e with EFetched _ (Ok raw) => val_wf raw | _ => True end.

(** The snapshot an event moves to the cache file *)
Definition published_by (w : world) (e : event) : option jsval :=
  match e with
  | ERenamed i true =>
      match at_stage <$> tasks w !! i, tmp (disk w) with
      | Some (Renaming s), Some _ => Some s
      | _, _ => None
      end
  | _ => None
  end.

Fixpoint last_published (w : world) (es : list event) : option jsval :=
  match es with
  | [] => None
  | e :: es =>
      match last_published (exec true w e) es with Some s => Some s | None => published_by w e end
  end.

Fixpoint always_serial (w : world) (es : list event) : Prop :=
  serial w ∧ match es with [] => True | e :: es => always_serial (exec true w e) es end.

Record files_wf (f : files) : Prop := {
  main_exists fd : main f = Some fd → (fd < length (inodes f))%nat;
  tmp_exists fd : tmp f = Some fd → (fd < length (inodes f))%nat;
  tmp_not_main fd : tmp f = Some fd → main f ≠ Some fd
}.

Definition adopted (l : option jsval) (s : jsval) : Prop :=
  val_wf s ∧ ValidSnapshot s ∧ supersedes l (Some s).

(** What the temporary file holds at each stage *)
Definition stage_ok (f : files) (l : option jsval) (s : stage) : Prop :=
  match s with
  | MakingDir s | Opening s => adopted l s
  | Writing s fd => adopted l s ∧ tmp f = Some fd
  | Renaming s => adopted l s ∧ ∃ fd, tmp f = Some fd ∧ inodes f !! fd = Some (Json (json_value s))
  | _ => True
  end.

Record disk_ok (w : world) : Prop := {
  ok_files : files_wf (disk w);
  ok_stages i t : tasks w !! i = Some t → stage_ok (disk w) (latest w) (at_stage t)
}.

Lemma adopted_later l l' s : supersedes l' l → adopted l s → adopted l' s.
Proof. intros Hl (? & ? & ?). split_and!; [done|done|]. by eapply supersedes_trans. Qed.

Lemma stage_ok_later f l l' s : supersedes l' l → stage_ok f l s → stage_ok f l' s.
Proof. intros Hl. destruct s; cbn; try done; intros; destruct_and?; split_and?; eauto using adopted_later. Qed.

Lemma open_tmp_spec f f' fd : files_wf f → open_tmp f = (f', fd) →
  files_wf f' ∧ tmp f' = Some fd ∧ recover f' = recover f.
Proof.
  intros [Hm Ht Hn]. unfold open_tmp, recover. destruct (tmp f) as [fd'|] eqn:E; intros [= <- <-]; cbn.
  - split_and!; [split; cbn; intros; rewrite ?length_insert; eauto|done|].
    destruct (main f) as [fdm|] eqn:Em; [|done]. cbn. rewrite list_lookup_insert_ne; [done|].
    intros ->. by apply (Hn fdm).
  - split_and!; [split; cbn; intros fd; rewrite ?length_app; cbn|done|].
    + intros ?%Hm. lia.
    + intros [= <-]. lia.
    + intros [= <-] Hc%Hm. lia.
    + destruct (main f) as [fdm|] eqn:Em; [|done]. cbn. rewrite lookup_app_l; [done|]. by apply Hm.
Qed.

Lemma write_fd_spec f fd v : files_wf f → tmp f = Some fd →
  files_wf (write_fd fd v f) ∧ inodes (write_fd fd v f) !! fd = Some (Json v) ∧
  recover (write_fd fd v f) = recover f.
Proof.
  intros [Hm Ht Hn] E. unfold recover. cbn. split_and!.
  - split; cbn; intros; rewrite ?length_insert; eauto.
  - apply list_lookup_insert_eq. by apply Ht.
  - destruct (main f) as [fdm|] eqn:Em; [|done]. cbn. rewrite list_lookup_insert_ne; [done|].
    intros ->. by apply (Hn fdm).
Qed.

Lemma rename_tmp_spec f fd s : files_wf f → tmp f = Some fd →
  inodes f !! fd = Some (Json (json_value s)) → val_wf s → ValidSnapshot s →
  ∃ f', rename_tmp f = Some f' ∧ files_wf f' ∧ recover f' = Some (json_value s).
Proof.
  intros [Hm Ht Hn] E Hi Hwf Hs. unfold rename_tmp. rewrite E. eexists. split; [reflexivity|]. split.
  - split; cbn; [|done|done]. intros fd' [= <-]. by apply Ht.
  - unfold recover. cbn. rewrite Hi, typed_validates; [done|]. by apply RoutingSnapshot_json.
Qed.

Lemma remove_tmp_spec f : files_wf f → files_wf (remove_tmp f) ∧ recover (remove_tmp f) = recover f.
Proof. intros [Hm Ht Hn]. split; [by split|done]. Qed.

Lemma goto_tasks i t s w j u :
  tasks (goto i t s w) !! j = Some u → (j = i ∧ at_stage u = s) ∨ (j ≠ i ∧ tasks w !! j = Some u).
Proof.
  intros Hj. assert (∃ b, tasks (goto i t s w) = <[i := {| waiting := b; at_stage := s |}]> (tasks w)) as (b & Hb).
  { unfold goto. destruct s; try by eexists. destruct (waiting t) eqn:E; cbn.
    - rewrite list_insert_insert_eq. by eexists.
    - by eexists. }
  rewrite Hb in Hj. apply list_lookup_insert_Some in Hj as [(-> & <- & _)|[Hne Hj]]; auto.
Qed.

Lemma goto_disk i t s w : disk (goto i t s w) = disk w.
Proof. unfold goto. destruct s; try done. by destruct (waiting t). Qed.

Lemma others_idle w i t : serial w → tasks w !! i = Some t → persisting t = true →
  ∀ f l j u, j ≠ i → tasks w !! j = Some u → stage_ok f l (at_stage u).
Proof.
  intros Hs Hi Hp f l j u Hne Hj. destruct (persisting u) eqn:E; [by destruct (Hne (Hs j i u t Hj Hi E Hp))|].
  unfold persisting in E. by destruct (at_stage u).
Qed.

(** The refresh that persists moves, and the files with it. *)
Lemma persist_goto w i t s f :
  serial w → tasks w !! i = Some t → persisting t = true → files_wf f → stage_ok f (latest w) s →
  disk_ok (goto i t s (with_disk f w)) ∧ recover (disk (goto i t s (with_disk f w))) = recover f.
Proof.
  intros Hser Hi Hp Hf Hs. rewrite goto_disk. split; [|done].
  split; rewrite goto_disk; [done|]. rewrite goto_latest.
  intros j u [[-> ->]|[Hne Hj]]%goto_tasks; [done|]. by eapply (others_idle w i t).
Qed.

Lemma persist_step_disk w i t e :
  disk_ok w → serial w → tasks w !! i = Some t → persisting t = true → event_task e = Some i →
  disk_ok (persist_step i t e w) ∧
  recover (disk (persist_step i t e w)) =
    match published_by w e with Some s => Some (json_value s) | None => recover (disk w) end.
Proof.
  intros Hw Hser Hi Hp He. pose proof (ok_stages _ Hw i t Hi) as Ht. pose proof (ok_files _ Hw) as Hf.
  pose proof (λ f s, persist_goto w i t s f Hser Hi Hp) as Hgo.
  pose proof (λ s, Hgo (disk w) s Hf) as Hstay.
  change (∀ s, stage_ok (disk w) (latest w) s → disk_ok (goto i t s w) ∧ recover (disk (goto i t s w)) = recover (disk w)) in Hstay.
  unfold persist_step, published_by. destruct e; try discriminate He; injection He as ->; try rewrite Hi;
    cbn [fmap option_fmap option_map]; destruct (at_stage t) as [|s|s|s fd|s| |] eqn:Es; try (by destruct ok); try done; cbn [stage_ok] in Ht.
  - destruct ok; by apply Hstay.
  - destruct ok; [|by apply Hstay]. destruct (open_tmp (disk w)) as [f fd] eqn:Eo.
    apply open_tmp_spec in Eo as (? & ? & <-); [|done]. by apply Hgo.
  - destruct ok; [|by apply Hstay]. destruct Ht as [Ha Ht].
    destruct (write_fd_spec (disk w) fd (json_value s) Hf Ht) as (? & ? & <-). apply Hgo; [done|].
    split; [done|]. by exists fd.
  - destruct Ht as [(Hwf & Hs & Hsup) (fd & Hfd & Hj)]. rewrite Hfd. destruct ok; [|by apply Hstay].
    destruct (rename_tmp_spec _ _ _ Hf Hfd Hj Hwf Hs) as (f & -> & Hf' & <-). by apply Hgo.
  - destruct ok; [|by apply Hstay]. destruct (remove_tmp_spec _ Hf) as [? <-]. by apply Hgo.
Qed.

(** Nothing is written: stages stay or are new fetches. *)
Lemma same_disk w w' :
  disk_ok w → disk w' = disk w → supersedes (latest w') (latest w) →
  (∀ i t', tasks w' !! i = Some t' →
    at_stage t' = Fetching ∨ ∃ t, tasks w !! i = Some t ∧ at_stage t' = at_stage t) →
  disk_ok w'.
Proof.
  intros [Hf Hs] Hd Hl Ht. split; rewrite Hd; [done|]. intros i t' Hi.
  destruct (Ht i t' Hi) as [->|(t & Hti & ->)]; [done|]. eapply stage_ok_later; [exact Hl|by apply (Hs i)].
Qed.

Lemma spawn_tasks b w i t' :
  tasks (spawn b w) !! i = Some t' → at_stage t' = Fetching ∨ tasks w !! i = Some t'.
Proof.
  intros [?|[_ Hi]]%lookup_app_Some; [by right|].
  apply list_lookup_singleton_Some in Hi as [_ <-]. by left.
Qed.

Lemma pollBackground_disk w : disk_ok w → disk_ok (pollBackground w) ∧ disk (pollBackground w) = disk w.
Proof.
  intros Hw. unfold pollBackground. destruct (isPolling (cache w)); [done|]. split; [|done].
  eapply same_disk; [exact Hw|done|apply supersedes_refl|].
  intros i t' [?|?]%spawn_tasks; eauto.
Qed.

Lemma fetched_disk w i t raw :
  disk_ok w → tasks w !! i = Some t → event_wf (EFetched i raw) →
  disk_ok (disk_fetched i t raw w) ∧ disk (disk_fetched i t raw w) = disk w.
Proof.
  intros Hw Hi Hwf. unfold disk_fetched. pose proof (refresh_supersedes raw (cache w)) as Hsup.
  assert (match (refresh raw (cache w)).2 with
          | Ok (Some v) => adopted (latestSnapshot (refresh raw (cache w)).1) v | _ => True end) as Ha.
  { unfold refresh. destruct raw as [raw|]; [|done]. cbn [mbind result_bind].
    destruct (validateRoutingSnapshot raw) as [v|] eqn:E; [|done]. apply validate_typed in E as [-> Hs].
    destruct (adopts _ _); [|done]. split_and!; [done|done|]. cbn. by exists raw; auto. }
  destruct (refresh raw (cache w)) as [c r]. cbn [fst snd] in *. rewrite goto_disk. split; [|done].
  split; rewrite goto_disk; [by apply Hw|]. rewrite goto_latest.
  intros j u [[-> ->]|[_ Hj]]%goto_tasks.
  - destruct r as [[v|]|]; [exact Ha|done|done].
  - eapply stage_ok_later; [exact Hsup|]. by apply (ok_stages _ Hw j).
Qed.

Lemma idle_step i t e w : persisting t = false → persist_step i t e w = w.
Proof. unfold persisting, persist_step. by destruct (at_stage t). Qed.

Lemma idle_published w i t e : event_task e = Some i → tasks w !! i = Some t → persisting t = false →
  published_by w e = None.
Proof.
  unfold persisting, published_by. destruct e; try done. intros [= ->] -> Hp. cbn.
  destruct ok; [|done]. by destruct (at_stage t).
Qed.

Lemma exec_disk w e :
  disk_ok w → serial w → event_wf e →
  disk_ok (exec true w e) ∧
  recover (disk (exec true w e)) =
    match published_by w e with Some s => Some (json_value s) | None => recover (disk w) end.
Proof.
  intros Hw Hser Hwf.
  assert (∀ i t, event_task e = Some i → tasks w !! i = Some t →
    disk_ok (persist_step i t e w) ∧ recover (disk (persist_step i t e w)) =
    match published_by w e with Some s => Some (json_value s) | None => recover (disk w) end) as Hstep.
  { intros i t He Hi. destruct (persisting t) eqn:Hp; [by apply persist_step_disk|].
    by rewrite idle_step, (idle_published w i t). }
  assert (∀ i, event_task e = Some i → tasks w !! i = None → published_by w e = None) as Hnone.
  { intros i He Hi. destruct e; try done. injection He as ->. cbn. rewrite Hi. by destruct ok. }
  destruct e; cbn [exec event_task mbind option_bind] in *.
  6-11: destruct (tasks w !! i) as [t|] eqn:Hi; [|by rewrite (Hnone i)]; cbn [default from_option id];
    specialize (Hstep i t eq_refl Hi).
  7-11: destruct (at_stage t); exact Hstep.
  - unfold start. destruct (timerId (cache w)); [done|].
    destruct (pollBackground_disk (with_cache (set_timer true (cache w)) w)) as [? ->]; [|done].
    eapply same_disk; [exact Hw|done|apply supersedes_refl|]. cbn. eauto.
  - unfold stop. destruct (timerId (cache w)); [|done]. split; [|done].
    eapply same_disk; [exact Hw|done|apply supersedes_refl|]. cbn. eauto.
  - destruct (timerId (cache w)); [|done]. by destruct (pollBackground_disk w Hw) as [? ->].
  - unfold give_up_poll. destruct (isPolling (cache w)); [|done]. split; [|done].
    eapply same_disk; [exact Hw|done|apply supersedes_refl|]. intros i t'. cbn. rewrite list_lookup_fmap.
    destruct (tasks w !! i) as [t|]; [|done]. intros [= <-]. right. by exists t.
  - split; [|done]. eapply same_disk; [exact Hw|done|apply supersedes_refl|].
    intros i t' [?|?]%spawn_tasks; eauto.
  - destruct (at_stage t); try exact Hstep. by destruct (fetched_disk w i t raw Hw Hi Hwf) as [? ->].
Qed.

Lemma run_disk es : ∀ w,
  disk_ok w → always_serial w es → Forall event_wf es →
  disk_ok (run true w es) ∧
  recover (disk (run true w es)) =
    match last_published w es with Some s => Some (json_value s) | None => recover (disk w) end.
Proof.
  induction es as [|e es IH]; intros w Hw Hser Hwf; [done|].
  destruct Hser as [Hser Hsers]. apply Forall_cons in Hwf as [He Hes].
  destruct (exec_disk w e Hw Hser He) as [Hw' Hr]. destruct (IH _ Hw' Hsers Hes) as [Hw'' Hr'].
  split; [exact Hw''|]. cbn [last_published]. change (run true w (e :: es)) with (run true (exec true w e) es).
  rewrite Hr'. destruct (last_published _ es); [done|exact Hr].
Qed.

Lemma published_adopted w e s : disk_ok w → published_by w e = Some s → adopted (latest w) s.
Proof.
  intros Hw. unfold published_by. destruct e; try done. destruct ok; [|done].
  destruct (tasks w !! i) as [t|] eqn:Hi; [|done]. cbn. pose proof (ok_stages _ Hw i t Hi) as Ht.
  destruct (at_stage t); try done. destruct (tmp (disk w)); [|done]. intros [= <-]. by destruct Ht.
Qed.

Lemma last_published_adopted es : ∀ w s,
  disk_ok w → always_serial w es → Forall event_wf es → last_published w es = Some s →
  adopted (latest (run true w es)) s.
Proof.
  induction es as [|e es IH]; intros w s Hw Hser Hwf Hs; [done|].
  destruct Hser as [Hser Hsers]. apply Forall_cons in Hwf as [He Hes].
  destruct (exec_disk w e Hw Hser He) as [Hw' _]. cbn [last_published] in Hs.
  change (run true w (e :: es)) with (run true (exec true w e) es).
  destruct (last_published (exec true w e) es) as [s'|] eqn:E; [injection Hs as ->; by apply IH|].
  eapply adopted_later; [|by apply (published_adopted w e)].
  eapply supersedes_trans; [apply run_latest|apply exec_latest].
Qed.

Lemma boot_disk f : files_wf f → disk_ok (boot f).
Proof. intros Hf. split; [exact Hf|]. intros i t. cbn. done. Qed.

(** Crash recovery (PLAT-8): when refreshes persist one at a time, a cold
    start after a crash at any point, in the middle of a write or after a failed
    one, recovers exactly the last snapshot whose rename succeeded (what JSON
    keeps of it, which is valid again), or what was there before; and the cache
    in memory was never behind it. *)
Theorem disk_recovery f es :
  files_wf f → always_serial (boot f) es → Forall event_wf es →
  let w := run true (boot f) es in
  latest (boot (disk w)) =
    match last_published (boot f) es with Some s => Some (json_value s) | None => recover f end ∧
  ∀ s, last_published (boot f) es = Some s →
    ValidSnapshot (json_value s) ∧ supersedes (latest w) (Some s).
Proof.
  intros Hf Hser Hwf w. pose proof (boot_disk f Hf) as Hb. split.
  - destruct (run_disk es (boot f) Hb Hser Hwf) as [_ Hr]. exact Hr.
  - intros s Hs. destruct (last_published_adopted es _ s Hb Hser Hwf Hs) as (? & ? & ?).
    split; [by apply RoutingSnapshot_json|done].
Qed.

(** ** Example runs *)

Definition no_files : files := {| tmp := None; main := None; inodes := [] |}.

Definition snapshot_v (n : Z) : jsval :=
  default JUndef match (createSnapshot [] (on_revisions [(js "cart", demo_revision (js "cart") (Fin 30000))]) None
    1700000000000 demo_bytes 1700000000001 (n - 1)).2 with Ok s => Some s | Err _ => None end.

(** A poll persists version 1; the write of version 2 is cut off by the crash. *)
Definition crash_run : list event :=
  [EStart; EFetched 0 (Ok (snapshot_v 1)); EMadeDir 0 true; EOpened 0 true; EWrote 0 true; ERenamed 0 true;
   ETick; EFetched 1 (Ok (snapshot_v 2)); EMadeDir 1 true; EOpened 1 true].

(** Two refreshes persist at the same time: version 2 is written, then version 1
    over it, although the memory keeps version 2. *)
Definition overlapping_run : list event :=
  [EForceRefresh; EForceRefresh; EFetched 0 (Ok (snapshot_v 1)); EFetched 1 (Ok (snapshot_v 2));
   EMadeDir 1 true; EOpened 1 true; EWrote 1 true; ERenamed 1 true;
   EMadeDir 0 true; EOpened 0 true; EWrote 0 true; ERenamed 0 true].

Lemma overlapping_persists_regress :
  latest (run true (boot no_files) overlapping_run) = Some (snapshot_v 2) ∧
  latest (boot (disk (run true (boot no_files) overlapping_run))) = Some (json_value (snapshot_v 1)).
Proof. split; vm_compute; reflexivity. Qed.

Lemma cache_fail_static_witness :
  latest (run true (run true (boot no_files) [EStart; EFetched 0 (Ok (snapshot_v 1))])
    [EPollTimeout; ETick; EFetched 1 (Ok (snapshot_v 2))]) = Some (snapshot_v 2).
Proof.
  apply (cache_fail_static true no_files [EStart] [EFetched 0 (Ok (snapshot_v 1))]).
  - vm_compute. reflexivity.
  - apply bad_snapshot_spec. vm_compute. reflexivity.
  - vm_compute. reflexivity.
Defined.

(** One refresh at a time, decided *)
Definition serial_b (w : world) : bool := (length (filter (λ t, persisting t = true) (tasks w)) <=? 1)%nat.

Fixpoint always_serial_b (w : world) (es : list event) : bool :=
  serial_b w && match es with [] => true | e :: es => always_serial_b (exec true w e) es end.

Lemma filter_unique {A} (P : A → Prop) `{!∀ x, Decision (P x)} l i j x y :
  (length (filter P l) <= 1)%nat → l !! i = Some x → l !! j = Some y → P x → P y → i = j.
Proof.
  assert (∀ (l : list A) i x, l !! i = Some x → P x → (0 < length (filter P l))%nat) as Hpos.
  { intros l' i' x' Hi Hx. apply list_elem_of_lookup_2 in Hi.
    assert (x' ∈ filter P l') as Hin by (by apply list_elem_of_filter).
    destruct (filter P l'); [by apply elem_of_nil in Hin|cbn; lia]. }
  revert i j. induction l as [|z l IH]; intros [|i] [|j] Hl Hi Hj Hx Hy; try done.
  - cbn in Hi, Hj. injection Hi as ->. rewrite filter_cons, decide_True in Hl by done. cbn in Hl.
    pose proof (Hpos l j y Hj Hy). lia.
  - cbn in Hi, Hj. injection Hj as ->. rewrite filter_cons, decide_True in Hl by done. cbn in Hl.
    pose proof (Hpos l i x Hi Hx). lia.
  - f_equal. apply IH; [|done..]. rewrite filter_cons in Hl. case_decide; cbn in Hl; lia.
Qed.

Lemma always_serial_spec es : ∀ w, always_serial_b w es = true → always_serial w es.
Proof.
  induction es as [|e es IH]; intros w [Hs%Nat.leb_le H]%andb_true_iff; cbn [always_serial];
    (split; [intros i j t u Hi Hj Ht Hu; by eapply (filter_unique (λ t, persisting t = true))|]);
    [done|by apply IH].
Qed.

Lemma snapshot_v_wf n : val_wf (snapshot_v n).
Proof. vm_compute. repeat split; repeat constructor; set_solver. Qed.

Lemma disk_recovery_witness :
  latest (boot (disk (run true (boot no_files) crash_run))) = Some (json_value (snapshot_v 1)).
Proof.
  destruct (disk_recovery no_files crash_run) as [H _].
  - by split.
  - apply always_serial_spec. vm_compute. reflexivity.
  - repeat (apply Forall_cons; split); try exact I; [apply snapshot_v_wf|apply snapshot_v_wf|apply Forall_nil_2].
  - rewrite H. vm_compute. reflexivity.
Defined.
