(* ===== verification/Config.v ===== *)
(** * Project configuration ([packages/config/parser.ts], PLAT-18, FN-5)

    Validation of the configuration table and its normalisation.  The TOML
    parser is a parameter. *)

From S2P Require Import Prelude JsString JsMap JsNumber JsValue Errors.
From Stdlib Require Import QArith.

Open Scope Z_scope.

Definition MAX_MEMORY_MB : Z := 1024.
Definition MAX_TIMEOUT_MS : Z := 900000.

Record FunctionLimitsConfig := {
  cpuMs : option jsnum;
  timeoutMs : option jsnum;
  memoryMb : option jsnum;
  concurrency : option jsnum
}.

Record FunctionPermissionsConfig := {
  c_kv : option (list jstr);
  c_objects : option (list jstr);
  c_queues : option (list jstr);
  c_network : option (list jstr);
  c_secrets : option (list jstr)
}.

Record FunctionTriggersConfig := {
  http : option jstr;
  queue : option jstr;
  schedule : option jstr;
  webhook : option jstr
}.

Record FunctionConfig := {
  entrypoint : jstr;
  f_triggers : option FunctionTriggersConfig;
  f_limits : option FunctionLimitsConfig;
  f_permissions : option FunctionPermissionsConfig
}.

Record ProjectConfig := { id : jstr; orgId : jstr; name : option jstr }.

Inductive consistency_level := Strong | Eventual.
Record QueueConfig := { maxDeliveryAttempts : option jsnum; retryBackoffMs : option jsnum }.

Record RailFogConfig := {
  project : ProjectConfig;
  functions : list (jstr * FunctionConfig);
  kv_config : option (list (jstr * option consistency_level));
  objects_config : option (list (jstr * option bool));
  queues_config : option (list (jstr * QueueConfig))
}.

(** Every diagnostic has severity [error] and code [VALIDATION_FAILED]. *)
Record ConfigDiagnostic := { path : jstr; message : jstr }.

Record ConfigValidationResult := {
  valid : bool;
  config : option RailFogConfig;
  diagnostics : list ConfigDiagnostic
}.

Definition diag (p m : jstr) : ConfigDiagnostic := {| path := p; message := m |}.
(** [if (cond) diagnostics.push(d)] *)
Definition push_if (cond : bool) (d : ConfigDiagnostic) : list ConfigDiagnostic := if cond then [d] else [].

(** [Object.entries(v)] of an object *)
Definition js_entries (v : jsval) : list (jstr * jsval) :=
  match v with
  | JObj entries => entries
  | JArr xs => imap (λ i x, (string_of_nat (Z.of_nat i), x)) xs
  | _ => []
  end.

(** [typeof v === "string" && v.trim().length > 0 ? v.trim() : ...] *)
Definition trimmed (v : jsval) : option jstr :=
  match v with
  | JStr s => if jstr_eqb (trim s) [] then None else Some (trim s)
  | _ => None
  end.
Definition first_text (v : jsval) (k1 k2 : jstr) : option jstr :=
  match trimmed (prop v k1) with Some s => Some s | None => trimmed (prop v k2) end.

Definition as_number (v : jsval) : option jsnum := match v with JNum n => Some n | _ => None end.
Definition first_number (v : jsval) (k1 k2 : jstr) : option jsnum :=
  match as_number (prop v k1) with Some n => Some n | None => as_number (prop v k2) end.

(** ** The project *)

Definition validate_project (rawProject : jsval) : list ConfigDiagnostic * option ProjectConfig :=
  if negb (is_object rawProject) then
    ([diag (js "project") (js "Missing project configuration table");
      diag (js "project.id") (js "Missing required property project.id");
      diag (js "project.orgId") (js "Missing required property project.orgId")], None)
  else
    let id := first_text rawProject (js "id") (js "name") in
    let orgId := first_text rawProject (js "orgId") (js "org_id") in
    (push_if (bool_decide (id = None))
       (diag (js "project.id") (js "Missing required property project.id")) ++
     push_if (bool_decide (orgId = None))
       (diag (js "project.orgId") (js "Missing required property project.orgId")),
     match id, orgId with
     | Some id, Some orgId => Some {| id := id; orgId := orgId; name := as_str (prop rawProject (js "name")) |}
     | _, _ => None
     end).

(** ** A function *)

(** [n !== undefined && n <= 0], and with an upper limit *)
Definition not_positive (n : option jsnum) : bool :=
  match n with Some n => num_leb n 0 | None => false end.
Definition out_of_range (n : option jsnum) (max : Z) : bool :=
  match n with Some n => num_leb n 0 || num_gtb n (inject_Z max) | None => false end.

Definition fn_path (fnName suffix : jstr) : jstr := js "functions." ++ fnName ++ suffix.

Definition validate_limits (fnName : jstr) (rawLimits : jsval)
    : list ConfigDiagnostic * option FunctionLimitsConfig :=
  if is_object rawLimits then
    let cpuMs := first_number rawLimits (js "cpuMs") (js "cpu_ms") in
    let timeoutMs := first_number rawLimits (js "timeoutMs") (js "timeout_ms") in
    let memoryMb := first_number rawLimits (js "memoryMb") (js "memory_mb") in
    let concurrency := as_number (prop rawLimits (js "concurrency")) in
    (push_if (not_positive cpuMs)
       (diag (fn_path fnName (js ".limits.cpuMs"))
             (js "cpuMs must be a positive number for function " ++ fnName)) ++
     push_if (out_of_range timeoutMs MAX_TIMEOUT_MS)
       (diag (fn_path fnName (js ".limits.timeoutMs"))
             (js "timeoutMs must be between 1 and " ++ string_of_nat MAX_TIMEOUT_MS ++
              js " ms for function " ++ fnName)) ++
     push_if (out_of_range memoryMb MAX_MEMORY_MB)
       (diag (fn_path fnName (js ".limits.memoryMb"))
             (js "memoryMb must be between 1 and " ++ string_of_nat MAX_MEMORY_MB ++
              js " MB for function " ++ fnName)) ++
     push_if (not_positive concurrency)
       (diag (fn_path fnName (js ".limits.concurrency"))
             (js "concurrency must be a positive number for function " ++ fnName)),
     Some {| cpuMs := cpuMs; timeoutMs := timeoutMs; memoryMb := memoryMb; concurrency := concurrency |})
  else ([], None).

(** A string, or a boolean as [String(b)] *)
Definition text_or_bool (v : jsval) : option jstr :=
  match v with
  | JStr s => Some s
  | JBool b => Some (if b then js "true" else js "false")
  | _ => None
  end.

Definition validate_triggers (rawTriggers : jsval) : option FunctionTriggersConfig :=
  if is_object rawTriggers then
    Some {| http := text_or_bool (prop rawTriggers (js "http"));
            queue := as_str (prop rawTriggers (js "queue"));
            schedule := as_str (prop rawTriggers (js "schedule"));
            webhook := text_or_bool (prop rawTriggers (js "webhook")) |}
  else None.

(** [Array.isArray(v) ? v.filter((item) => typeof item === "string") : undefined] *)
Definition string_items (v : jsval) : option (list jstr) :=
  match v with JArr xs => Some (omap as_str xs) | _ => None end.

Definition validate_permissions (rawPerms : jsval) : option FunctionPermissionsConfig :=
  if is_object rawPerms then
    Some {| c_kv := string_items (prop rawPerms (js "kv"));
            c_objects := string_items (prop rawPerms (js "objects"));
            c_queues := string_items (prop rawPerms (js "queues"));
            c_network := string_items (prop rawPerms (js "network"));
            c_secrets := string_items (prop rawPerms (js "secrets")) |}
  else None.

(** The body of the loop: the diagnostics, and the entry if there is one *)
Definition validate_function (fnName : jstr) (rawFn : jsval)
    : list ConfigDiagnostic * option FunctionConfig :=
  if negb (is_object rawFn) then
    ([diag (fn_path fnName []) (js "Function " ++ fnName ++ js " configuration must be an object")], None)
  else
    let entrypoint := first_text rawFn (js "entrypoint") (js "entry") in
    let '(limitDiagnostics, limitsConfig) := validate_limits fnName (prop rawFn (js "limits")) in
    (push_if (bool_decide (entrypoint = None))
       (diag (fn_path fnName (js ".entrypoint"))
             (js "Missing required property entrypoint for function " ++ fnName)) ++ limitDiagnostics,
     (λ entrypoint,
        {| entrypoint := entrypoint;
           f_limits := limitsConfig;
           f_triggers := validate_triggers (prop rawFn (js "triggers"));
           f_permissions := validate_permissions (prop rawFn (js "permissions")) |}) <$> entrypoint).

(** A loop over entries that collects diagnostics and sets the keys of an object *)
Definition collect {A} (body : jstr → jsval → list ConfigDiagnostic * option A) (entries : list (jstr * jsval))
    : list ConfigDiagnostic * list (jstr * A) :=
  (concat (map (λ e, (body e.1 e.2).1) entries),
   obj_build (omap_entries (λ k x, (body k x).2) entries)).

Definition validate_functions (rawFunctions : jsval) : list ConfigDiagnostic * list (jstr * FunctionConfig) :=
  if negb (is_object rawFunctions) then
    ([diag (js "functions") (js "Missing functions definition table")], [])
  else
    let functionEntries := js_entries rawFunctions in
    let '(ds, fns) := collect validate_function functionEntries in
    (push_if (bool_decide (length functionEntries = 0%nat))
       (diag (js "functions") (js "At least one function must be declared")) ++ ds, fns).

(** ** Resources *)

Definition as_consistency (v : jsval) : option consistency_level :=
  match v with
  | JStr s => if jstr_eqb s (js "strong") then Some Strong
              else if jstr_eqb s (js "eventual") then Some Eventual else None
  | _ => None
  end.

Definition validate_kv (kvName : jstr) (rawKv : jsval)
    : list ConfigDiagnostic * option (option consistency_level) :=
  if is_object rawKv then
    let consistency := prop rawKv (js "consistency") in
    (push_if (negb (is_undefined consistency) && bool_decide (as_consistency consistency = None))
       (diag (js "kv." ++ kvName ++ js ".consistency")
             (js "consistency must be 'strong' or 'eventual' for kv namespace " ++ kvName)),
     Some (as_consistency consistency))
  else ([], None).

Definition as_bool (v : jsval) : option bool := match v with JBool b => Some b | _ => None end.

Definition validate_objects (rawStore : jsval) : list ConfigDiagnostic * option (option bool) :=
  ([], if is_object rawStore then Some (as_bool (prop rawStore (js "public"))) else None).

Definition validate_queues (rawQ : jsval) : list ConfigDiagnostic * option QueueConfig :=
  ([], if is_object rawQ then
         Some {| maxDeliveryAttempts := first_number rawQ (js "maxDeliveryAttempts") (js "max_receives");
                 retryBackoffMs := first_number rawQ (js "retryBackoffMs") (js "retry_backoff_ms") |}
       else None).

(** An optional table *)
Definition validate_table {A} (body : jstr → jsval → list ConfigDiagnostic * option A) (table : jsval)
    : list ConfigDiagnostic * option (list (jstr * A)) :=
  if is_object table then let '(ds, o) := collect body (js_entries table) in (ds, Some o) else ([], None).

Definition invalid (ds : list ConfigDiagnostic) : ConfigValidationResult :=
  {| valid := false; config := None; diagnostics := ds |}.

Definition validateRailFogConfig (raw : jsval) : ConfigValidationResult :=
  if negb (is_object raw) then invalid [diag [] (js "Configuration must be an object")]
  else
    let '(projectDiagnostics, projectConfig) := validate_project (prop raw (js "project")) in
    let '(functionDiagnostics, functionsConfig) := validate_functions (prop raw (js "functions")) in
    let '(kvDiagnostics, kvConfig) := validate_table validate_kv (prop raw (js "kv")) in
    let '(_, objectsConfig) := validate_table (λ _, validate_objects) (prop raw (js "objects")) in
    let '(_, queuesConfig) := validate_table (λ _, validate_queues) (prop raw (js "queues")) in
    let diagnostics := projectDiagnostics ++ functionDiagnostics ++ kvDiagnostics in
    match bool_decide (length diagnostics = 0%nat), projectConfig with
    | true, Some projectConfig =>
        {| valid := true;
           config := Some {| project := projectConfig; functions := functionsConfig; kv_config := kvConfig;
                             objects_config := objectsConfig; queues_config := queuesConfig |};
           diagnostics := diagnostics |}
    | _, _ => invalid diagnostics
    end.

Section toml.
Context (parse : jstr → result exn jsval) (error_text : exn → jstr).

Definition parseRailFogConfig (tomlContent : jstr) : ConfigValidationResult :=
  match parse tomlContent with
  | Ok raw => validateRailFogConfig raw
  | Err err => invalid [diag (js "toml") (js "Invalid TOML syntax: " ++ error_text err)]
  end.
End toml.

(** ** What a valid configuration is *)

(** A number an accepted limit can be: comparisons with [NaN] are false, so
    [NaN] passes the range checks. *)
Definition in_range (n : option jsnum) (max : option Z) : Prop :=
  match n with
  | None | Some NaN => True
  | Some (Inf negative) => negative = false ∧ max = None
  | Some (Fin q) => (0 < q)%Q ∧ match max with Some max => (q <= inject_Z max)%Q | None => True end
  end.

Definition limits_ok (l : FunctionLimitsConfig) : Prop :=
  in_range (cpuMs l) None ∧ in_range (timeoutMs l) (Some MAX_TIMEOUT_MS) ∧
  in_range (memoryMb l) (Some MAX_MEMORY_MB) ∧ in_range (concurrency l) None.

(** A string without white space at its ends, and not empty *)
Definition name_ok (s : jstr) : Prop := s ≠ [] ∧ ∃ s0, s = trim s0.

Definition function_ok (f : FunctionConfig) : Prop :=
  name_ok (entrypoint f) ∧ match f_limits f with Some l => limits_ok l | None => True end.

Definition config_ok (c : RailFogConfig) : Prop :=
  name_ok (id (project c)) ∧ name_ok (orgId (project c)) ∧
  Forall (λ e, function_ok e.2) (functions c).

(** What the table must declare *)
Definition declares_function (rawFn : jsval) : Prop :=
  is_object rawFn = true ∧
  (∃ e, first_text rawFn (js "entrypoint") (js "entry") = Some e) ∧
  ∀ l, (validate_limits [] (prop rawFn (js "limits"))).2 = Some l → limits_ok l.

Definition declares (raw : jsval) : Prop :=
  is_object raw = true ∧
  is_object (prop raw (js "project")) = true ∧
  (∃ id, first_text (prop raw (js "project")) (js "id") (js "name") = Some id) ∧
  (∃ org, first_text (prop raw (js "project")) (js "orgId") (js "org_id") = Some org) ∧
  is_object (prop raw (js "functions")) = true ∧
  js_entries (prop raw (js "functions")) ≠ [] ∧
  Forall (λ e, declares_function e.2) (js_entries (prop raw (js "functions"))) ∧
  (is_object (prop raw (js "kv")) = true →
   Forall (λ e, is_object e.2 = true →
                prop e.2 (js "consistency") = JUndef ∨ as_consistency (prop e.2 (js "consistency")) ≠ None)
          (js_entries (prop raw (js "kv")))).

Lemma push_if_nil c d : push_if c d = [] ↔ c = false.
Proof. by destruct c. Qed.

Lemma collect_nil {A} (body : jstr → jsval → list ConfigDiagnostic * option A) entries :
  (collect body entries).1 = [] ↔ Forall (λ e, (body e.1 e.2).1 = []) entries.
Proof.
  cbn. induction entries as [|e entries IH]; cbn; [done|].
  by rewrite app_nil, Forall_cons, IH.
Qed.

Lemma not_positive_spec n : not_positive n = false ↔ in_range n None.
Proof.
  destruct n as [[|neg|q]|]; cbn; try done.
  - naive_solver.
  - rewrite Qle_bool_false. naive_solver.
Qed.

Lemma out_of_range_spec n max : out_of_range n max = false ↔ in_range n (Some max).
Proof.
  destruct n as [[|neg|q]|]; cbn; try done.
  - destruct neg; naive_solver.
  - by rewrite orb_false_iff, Qle_bool_false, q_ltb_ge.
Qed.

Lemma trimmed_ok v s : trimmed v = Some s → name_ok s.
Proof.
  unfold trimmed, name_ok. destruct v as [| | | |t| |]; try done.
  destruct (jstr_eqb (trim t) []) eqn:E; [done|]. intros [= <-]. apply jstr_eqb_neq in E. eauto.
Qed.

Lemma first_text_ok v k1 k2 s : first_text v k1 k2 = Some s → name_ok s.
Proof.
  unfold first_text. destruct (trimmed (prop v k1)) eqn:E; [intros [= <-]|]; by eapply trimmed_ok.
Qed.

Lemma validate_limits_spec fnName v :
  (validate_limits fnName v).2 = (validate_limits [] v).2 ∧
  ((validate_limits fnName v).1 = [] ↔ ∀ l, (validate_limits [] v).2 = Some l → limits_ok l).
Proof.
  unfold validate_limits. destruct (is_object v); cbn [fst snd]; split; try done.
  rewrite !app_nil, !push_if_nil, !not_positive_spec, !out_of_range_spec. split.
  - intros H l [= <-]. exact H.
  - intros H. exact (H _ eq_refl).
Qed.

Lemma bool_decide_none {A} `{EqDecision A} (o : option A) :
  bool_decide (o = None) = false ↔ ∃ x, o = Some x.
Proof. rewrite bool_decide_eq_false. destruct o; naive_solver. Qed.

Lemma validate_function_spec fnName v :
  (validate_function fnName v).1 = [] ↔ declares_function v.
Proof.
  unfold validate_function, declares_function. destruct (is_object v); cbn [negb]; [|by split; [|intros [? _]]].
  destruct (validate_limits_spec fnName (prop v (js "limits"))) as [_ Hl].
  destruct (validate_limits fnName _) as [ds l]. cbn [fst snd] in *.
  rewrite app_nil, push_if_nil, Hl, bool_decide_none. naive_solver.
Qed.

Lemma validate_function_typed fnName v f :
  declares_function v → (validate_function fnName v).2 = Some f → function_ok f.
Proof.
  intros (Ho & [e He] & Hl). unfold validate_function. rewrite Ho, He. cbn [negb].
  destruct (validate_limits_spec fnName (prop v (js "limits"))) as [Heq _].
  destruct (validate_limits fnName _) as [ds l]. cbn [fst snd fmap option_fmap option_map] in *. intros [= <-].
  split; [by eapply first_text_ok|]. cbn. rewrite Heq. destruct (validate_limits [] _).2; [by apply Hl|done].
Qed.

Lemma validate_kv_spec k v :
  (validate_kv k v).1 = [] ↔
  (is_object v = true → prop v (js "consistency") = JUndef ∨ as_consistency (prop v (js "consistency")) ≠ None).
Proof.
  unfold validate_kv. destruct (is_object v); [|by split]. cbn [fst].
  rewrite push_if_nil, andb_false_iff, negb_false_iff, bool_decide_eq_false.
  destruct (prop v _); naive_solver.
Qed.

Lemma validate_project_spec v :
  (validate_project v).1 = [] ↔
  is_object v = true ∧ (∃ id, first_text v (js "id") (js "name") = Some id) ∧
  (∃ org, first_text v (js "orgId") (js "org_id") = Some org).
Proof.
  unfold validate_project. destruct (is_object v); cbn [negb]; [|by split; [|intros [? _]]]. cbn [fst].
  rewrite app_nil, !push_if_nil, !bool_decide_none. naive_solver.
Qed.

Lemma validate_project_typed v :
  (validate_project v).1 = [] →
  ∃ p, (validate_project v).2 = Some p ∧ name_ok (id p) ∧ name_ok (orgId p).
Proof.
  intros H. apply validate_project_spec in H as (Ho & [i Hi] & [o Hor]). unfold validate_project.
  rewrite Ho, Hi, Hor. cbn. eexists. split; [reflexivity|]. cbn.
  split; by eapply first_text_ok.
Qed.

Lemma validate_functions_spec v :
  (validate_functions v).1 = [] ↔
  is_object v = true ∧ js_entries v ≠ [] ∧ Forall (λ e, declares_function e.2) (js_entries v).
Proof.
  unfold validate_functions. destruct (is_object v); cbn [negb]; [|by split; [|intros [? _]]].
  destruct (collect validate_function (js_entries v)) as [ds fns] eqn:E. cbn [fst].
  assert (ds = [] ↔ Forall (λ e, declares_function e.2) (js_entries v)) as Hds.
  { change ds with (ds, fns).1. rewrite <-E, collect_nil. apply Forall_iff. intros e. apply validate_function_spec. }
  rewrite app_nil, push_if_nil, Hds, bool_decide_eq_false.
  destruct (js_entries v); cbn; naive_solver.
Qed.

Lemma validate_functions_typed v :
  (validate_functions v).1 = [] →
  Forall (λ e, function_ok e.2) (validate_functions v).2 ∧
  (map_wf (js_entries v) → ∀ k, k ≠ PROTO →
    map_get (validate_functions v).2 k = map_get (js_entries v) k ≫= λ f, (validate_function k f).2).
Proof.
  intros H. apply validate_functions_spec in H as (Ho & _ & Hd). unfold validate_functions. rewrite Ho.
  cbn [negb collect snd]. split.
  - apply Forall_forall. intros e He%elem_obj_build. apply list_elem_of_omap in He as ([k f] & Hin & Hf).
    cbn [fst snd] in Hf. destruct ((validate_function k f).2) as [fc|] eqn:E; [|done]. injection Hf as <-. cbn.
    eapply validate_function_typed; [|exact E]. eapply Forall_forall in Hd; [|exact Hin]. exact Hd.
  - intros Hwf k Hk. rewrite map_get_obj_build by (try apply omap_entries_wf; done). by apply map_get_omap.
Qed.

Lemma validate_table_nil {A} (body : jstr → jsval → list ConfigDiagnostic * option A) table :
  (validate_table body table).1 = [] ↔
  (is_object table = true → Forall (λ e, (body e.1 e.2).1 = []) (js_entries table)).
Proof.
  unfold validate_table. destruct (is_object table); [|by split]. rewrite <-collect_nil.
  destruct (collect body (js_entries table)) as [ds o]. cbn. naive_solver.
Qed.

Lemma diagnostics_nil raw :
  (is_object raw = true ∧
   (validate_project (prop raw (js "project"))).1 ++ (validate_functions (prop raw (js "functions"))).1 ++
   (validate_table validate_kv (prop raw (js "kv"))).1 = []) ↔ declares raw.
Proof.
  unfold declares. rewrite !app_nil, validate_project_spec, validate_functions_spec, validate_table_nil.
  setoid_rewrite (Forall_iff _ _ _ (λ e, validate_kv_spec e.1 e.2)). naive_solver.
Qed.

(** Configuration (PLAT-18, FN-5): a table is accepted exactly when it declares
    a project, at least one function, and for each function an entrypoint and
    limits in range; an accepted configuration has trimmed, non-empty names,
    limits that are positive and below their ceilings (or [NaN], which the
    comparisons let pass), and an entry for every declared function; a rejected
    table gives diagnostics and no configuration. *)
Theorem config_validation raw :
  let r := validateRailFogConfig raw in
  (valid r = true ↔ declares raw) ∧
  (valid r = true → diagnostics r = [] ∧ ∃ c, config r = Some c ∧ config_ok c ∧
    (map_wf (js_entries (prop raw (js "functions"))) → ∀ k, k ≠ PROTO →
      map_get (functions c) k =
      map_get (js_entries (prop raw (js "functions"))) k ≫= λ f, (validate_function k f).2)) ∧
  (valid r = false → diagnostics r ≠ [] ∧ config r = None).
Proof.
  cbv zeta. rewrite <-(diagnostics_nil raw). unfold validateRailFogConfig.
  destruct (is_object raw); cbn [negb]; [|by split_and!; [split; [|intros [? _]]| |]].
  pose proof (validate_project_typed (prop raw (js "project"))) as Hp.
  pose proof (validate_functions_typed (prop raw (js "functions"))) as Hf.
  destruct (validate_project _) as [pd p], (validate_functions _) as [fd fns], (validate_table validate_kv _) as [kd kvs],
    (validate_table (λ _, validate_objects) _) as [? os], (validate_table (λ _, validate_queues) _) as [? qs].
  cbn [fst snd] in *. destruct (pd ++ fd ++ kd) as [|d ds] eqn:E.
  - apply app_nil in E as [-> [-> ->]%app_nil]. destruct (Hp eq_refl) as (pc & -> & Hi & Ho).
    destruct (Hf eq_refl) as [Hok Hget]. cbn. split_and!; [done| |done]. intros _. split; [done|].
    eexists. split; [reflexivity|]. by split.
  - cbn. split_and!; [split; [done|intros [_ ?]; done]|done|done].
Qed.

Definition demo_table (timeout : jsnum) : jsval :=
  JObj [(js "project", JObj [(js "id", JStr (js " shop ")); (js "org_id", JStr (js "acme"))]);
        (js "functions", JObj [(js "cart", JObj [(js "entry", JStr (js "main.ts"));
                                                 (js "limits", JObj [(js "timeout_ms", JNum timeout)])])])].

(** The range checks let [NaN] pass: [timeout_ms = nan] is accepted. *)
Lemma config_accepts_nan :
  valid (validateRailFogConfig (demo_table NaN)) = true ∧
  valid (validateRailFogConfig (demo_table (Fin 900001))) = false.
Proof. by split. Qed.

Lemma config_validation_witness :
  ∃ c, config (validateRailFogConfig (demo_table (Fin 5000))) = Some c ∧ config_ok c ∧ id (project c) = js "shop".
Proof.
  destruct (config_validation (demo_table (Fin 5000))) as (_ & H & _).
  destruct (H eq_refl) as (_ & c & Hc & Hok & _). exists c. split; [exact Hc|]. split; [exact Hok|].
  injection Hc as <-. vm_compute. reflexivity.
Defined.
