(* ===== verification/UsageCollector.v ===== *)
(** * Usage accounting ([packages/metrics/usage-collector.ts], PLAT-13)

    The collector as a state whose events interleave: calls of its methods, the
    interval timer, and the settling of the promises [onFlush] returned.  What
    each call of [onFlush] does (return, throw, return a promise) is part of the
    event that makes it; [delivered] logs the batches it was given. *)

From S2P Require Import Prelude JsString JsNumber Errors.
From Stdlib Require Import QArith.

Open Scope Z_scope.

Definition DEFAULT_MAX_BUFFER_SIZE : Z := 10000.
Definition DEFAULT_FLUSH_BATCH_SIZE : Z := 500.
Definition DEFAULT_FLUSH_INTERVAL_MS : Z := 5000.

Inductive UsageMetricType :=
| FunctionInvocation | FunctionError | FunctionDuration | FunctionCpu | FunctionMemory
| KvRead | KvWrite | ObjectRead | ObjectWrite
| QueueSent | QueueProcessed | QueueFailed | QueueRetry.

Record UsageRecord := {
  timestamp : Z;
  u_project : jstr;
  u_functionName : jstr;
  revisionId : jstr;
  metric : UsageMetricType;
  u_value : jsnum
}.

Record UsageCollectorOptions := {
  o_maxBufferSize : option jsnum;
  o_flushBatchSize : option jsnum;
  o_flushIntervalMs : option jsnum;
  o_onFlush : bool
}.

(** Where [dispose] waits: for its own flush, for the promises in flight, or
    done, with its outcome *)
Inductive dispose_stage := NotDisposing | WaitFlush (p : nat) | WaitAll (ps : list nat) | Disposed (ok : bool).

(** A promise is the number of the [onFlush] call that returned it. *)
Record UsageCollector := {
  maxBufferSize : jsnum;
  flushBatchSize : jsnum;
  onFlush : bool;
  buffer : list UsageRecord;
  droppedCount : Z;
  disposed : bool;
  timerId : bool;
  inFlightFlushes : list nat;
  disposing : dispose_stage;
  delivered : list (list UsageRecord)
}.

Definition or_default (n : option jsnum) (dflt : Z) : jsnum := default (Fin (inject_Z dflt)) n.

Definition createUsageCollector (options : UsageCollectorOptions) : UsageCollector :=
  {| maxBufferSize := or_default (o_maxBufferSize options) DEFAULT_MAX_BUFFER_SIZE;
     flushBatchSize := or_default (o_flushBatchSize options) DEFAULT_FLUSH_BATCH_SIZE;
     onFlush := o_onFlush options;
     buffer := [];
     droppedCount := 0;
     disposed := false;
     timerId := num_gtb (or_default (o_flushIntervalMs options) DEFAULT_FLUSH_INTERVAL_MS) 0;
     inFlightFlushes := [];
     disposing := NotDisposing;
     delivered := [] |}.

(** ** Parts of the state *)

Definition with_buffer (b : list UsageRecord) (c : UsageCollector) : UsageCollector :=
  {| maxBufferSize := maxBufferSize c; flushBatchSize := flushBatchSize c; onFlush := onFlush c;
     buffer := b; droppedCount := droppedCount c; disposed := disposed c; timerId := timerId c;
     inFlightFlushes := inFlightFlushes c; disposing := disposing c; delivered := delivered c |}.
Definition with_dropped (n : Z) (c : UsageCollector) : UsageCollector :=
  {| maxBufferSize := maxBufferSize c; flushBatchSize := flushBatchSize c; onFlush := onFlush c;
     buffer := buffer c; droppedCount := n; disposed := disposed c; timerId := timerId c;
     inFlightFlushes := inFlightFlushes c; disposing := disposing c; delivered := delivered c |}.
Definition with_flushes (ps : list nat) (log : list (list UsageRecord)) (c : UsageCollector) : UsageCollector :=
  {| maxBufferSize := maxBufferSize c; flushBatchSize := flushBatchSize c; onFlush := onFlush c;
     buffer := buffer c; droppedCount := droppedCount c; disposed := disposed c; timerId := timerId c;
     inFlightFlushes := ps; disposing := disposing c; delivered := log |}.
Definition with_dispose (d : bool) (t : bool) (s : dispose_stage) (c : UsageCollector) : UsageCollector :=
  {| maxBufferSize := maxBufferSize c; flushBatchSize := flushBatchSize c; onFlush := onFlush c;
     buffer := buffer c; droppedCount := droppedCount c; disposed := d; timerId := t;
     inFlightFlushes := inFlightFlushes c; disposing := s; delivered := delivered c |}.

Definition buffer_length (c : UsageCollector) : Z := Z.of_nat (length (buffer c)).

(** ** Methods *)

(** What a call of [onFlush] does *)
Inductive flush_outcome := Returns | Throws | Promised.

Definition drain (c : UsageCollector) : UsageCollector * list UsageRecord := (with_buffer [] c, buffer c).

(** [if (batch.length > 0 && this.onFlush) this.onFlush(batch)]: the promise, if
    one is returned, and whether the call threw *)
Definition call_onFlush (batch : list UsageRecord) (o : flush_outcome) (c : UsageCollector)
    : UsageCollector * option nat * bool :=
  match batch with
  | [] => (c, None, false)
  | _ =>
      if onFlush c then
        let p := length (delivered c) in
        let log := delivered c ++ [batch] in
        match o with
        | Returns => (with_flushes (inFlightFlushes c) log c, None, false)
        | Throws => (with_flushes (inFlightFlushes c) log c, None, true)
        | Promised => (with_flushes (inFlightFlushes c ++ [p]) log c, Some p, false)
        end
      else (c, None, false)
  end.

(** The rejection of the promise and the exception are swallowed. *)
Definition triggerFlush (o : flush_outcome) (c : UsageCollector) : UsageCollector :=
  let '(c, batch) := drain c in (call_onFlush batch o c).1.1.

Definition record (r : UsageRecord) (o : flush_outcome) (c : UsageCollector) : UsageCollector :=
  if disposed c then with_dropped (droppedCount c + 1) c
  else if num_leb (maxBufferSize c) (inject_Z (buffer_length c)) then with_dropped (droppedCount c + 1) c
  else
    let c := with_buffer (buffer c ++ [r]) c in
    if num_leb (flushBatchSize c) (inject_Z (buffer_length c)) then triggerFlush o c else c.

(** The callback of the interval *)
Definition tick (o : flush_outcome) (c : UsageCollector) : UsageCollector :=
  if timerId c && (0 <? buffer_length c) then triggerFlush o c else c.

(** [flush()]: the batch it resolves to, once the promise [Some p] has settled;
    [None] when [onFlush] threw *)
Definition flush (o : flush_outcome) (c : UsageCollector) : UsageCollector * option nat * option (list UsageRecord) :=
  let '(c, batch) := drain c in
  let '(c, p, threw) := call_onFlush batch o c in
  (c, p, if threw then None else Some batch).

(** [dispose()] after its flush: it waits for the promises that are in flight
    now. *)
Definition dispose_wait (c : UsageCollector) : UsageCollector :=
  with_dispose true false (match inFlightFlushes c with [] => Disposed true | ps => WaitAll ps end) c.

Definition dispose (o : flush_outcome) (c : UsageCollector) : UsageCollector :=
  if disposed c then c
  else
    let c := with_dispose true false (disposing c) c in
    let '(c, p, batch) := flush o c in
    match batch, p with
    | None, _ => with_dispose true false (Disposed false) c
    | Some _, Some p => with_dispose true false (WaitFlush p) c
    | Some _, None => dispose_wait c
    end.

(** Promise [p] settles: it leaves the set, and [dispose] goes on. *)
Definition settle (p : nat) (ok : bool) (c : UsageCollector) : UsageCollector :=
  let c := with_flushes (filter (λ q, q ≠ p) (inFlightFlushes c)) (delivered c) c in
  match disposing c with
  | WaitFlush q =>
      if decide (q = p) then
        if ok then dispose_wait c else with_dispose true false (Disposed false) c
      else c
  | WaitAll ps =>
      if decide (p ∈ ps) then
        if ok then
          match filter (λ q, q ≠ p) ps with
          | [] => with_dispose true false (Disposed true) c
          | ps => with_dispose true false (WaitAll ps) c
          end
        else with_dispose true false (Disposed false) c
      else c
  | _ => c
  end.

Inductive event :=
| ERecord (r : UsageRecord) (o : flush_outcome)
| ETick (o : flush_outcome)
| EFlush (o : flush_outcome)
| EDispose (o : flush_outcome)
| ESettle (p : nat) (ok : bool).

Definition exec (c : UsageCollector) (e : event) : UsageCollector :=
  match e with
  | ERecord r o => record r o c
  | ETick o => tick o c
  | EFlush o => (flush o c).1.1
  | EDispose o => dispose o c
  | ESettle p ok => if decide (p ∈ inFlightFlushes c) then settle p ok c else c
  end.

Definition run (c : UsageCollector) (es : list event) : UsageCollector := fold_left exec es c.

(** ** Accounting *)

(** Whether [record] accepts *)
Definition accepts (c : UsageCollector) : bool :=
  negb (disposed c) && negb (num_leb (maxBufferSize c) (inject_Z (buffer_length c))).

(** The records accepted and the number of records refused along a run *)
Fixpoint accepted (c : UsageCollector) (es : list event) : list UsageRecord :=
  match es with
  | [] => []
  | e :: es =>
      match e with ERecord r _ => if accepts c then [r] else [] | _ => [] end ++ accepted (exec c e) es
  end.
Definition record_events (es : list event) : Z :=
  Z.of_nat (length (filter (λ e, match e with ERecord _ _ => true | _ => false end = true) es)).

(** What every event preserves *)
Record collector_ok (c : UsageCollector) : Prop := {
  ok_disposed : disposed c = true → buffer c = [] ∧ disposing c ≠ NotDisposing;
  ok_disposing : disposing c ≠ NotDisposing → disposed c = true;
  ok_stage : match disposing c with
             | WaitFlush p => p ∈ inFlightFlushes c
             | WaitAll ps => ps ≠ [] ∧ ps ⊆ inFlightFlushes c
             | _ => True
             end;
  ok_bound m : maxBufferSize c = Fin m → buffer c ≠ [] → (inject_Z (buffer_length c) < m + 1)%Q;
  ok_batch m : flushBatchSize c = Fin m → buffer c ≠ [] → (inject_Z (buffer_length c) < m)%Q
}.

(** The fields a flush does not touch *)
Definition same_setup (c c' : UsageCollector) : Prop :=
  maxBufferSize c' = maxBufferSize c ∧ flushBatchSize c' = flushBatchSize c ∧ onFlush c' = onFlush c ∧
  droppedCount c' = droppedCount c.

Lemma call_onFlush_spec batch o c :
  let '(c', p, threw) := call_onFlush batch o c in
  same_setup c c' ∧ buffer c' = buffer c ∧ disposed c' = disposed c ∧ timerId c' = timerId c ∧
  disposing c' = disposing c ∧ inFlightFlushes c ⊆ inFlightFlushes c' ∧
  match p with Some p => p ∈ inFlightFlushes c' | None => True end ∧
  (onFlush c = true → concat (delivered c') = concat (delivered c) ++ batch).
Proof.
  unfold call_onFlush, same_setup. destruct batch as [|r batch].
  { split_and!; try done. intros _. by rewrite app_nil_r. }
  destruct (onFlush c) eqn:Eo; [|by split_and!].
  destruct o; cbn; split_and!; try done; try set_solver; intros _;
    rewrite concat_app; cbn; by rewrite app_nil_r.
Qed.

(** A drain hands the buffer over. *)
Lemma flush_spec o c :
  let c' := (flush o c).1.1 in
  same_setup c c' ∧ buffer c' = [] ∧ disposed c' = disposed c ∧ timerId c' = timerId c ∧
  disposing c' = disposing c ∧ inFlightFlushes c ⊆ inFlightFlushes c' ∧
  match (flush o c).1.2 with Some p => p ∈ inFlightFlushes c' | None => True end ∧
  (onFlush c = true → concat (delivered c') = concat (delivered c) ++ buffer c).
Proof.
  unfold flush, drain. pose proof (call_onFlush_spec (buffer c) o (with_buffer [] c)) as H.
  destruct (call_onFlush _ _ _) as [[c' p] threw]. cbn in *. exact H.
Qed.

Lemma triggerFlush_flush o c : triggerFlush o c = (flush o c).1.1.
Proof. unfold triggerFlush, flush. destruct (drain c) as [c0 b]. by destruct (call_onFlush b o c0) as [[? ?] ?]. Qed.

(** A drained collector keeps its invariant. *)
Lemma drained_ok c c' :
  collector_ok c → same_setup c c' → buffer c' = [] → disposed c' = disposed c → disposing c' = disposing c →
  inFlightFlushes c ⊆ inFlightFlushes c' → collector_ok c'.
Proof.
  intros [Hd Hg Hs Hb Hf] (? & ? & ? & ?) Hbuf Hdis Hst Hin. split; rewrite ?Hbuf; try done.
  - rewrite Hdis, Hst. intros Hc. split; [done|]. by apply Hd.
  - by rewrite Hdis, Hst.
  - rewrite Hst. destruct (disposing c); set_solver.
Qed.

Lemma flush_ok o c : collector_ok c → collector_ok (flush o c).1.1.
Proof. intros Hc. destruct (flush_spec o c) as (? & ? & ? & ? & ? & ? & _). by apply (drained_ok c). Qed.

Lemma num_leb_false_fin (m : Q) z : num_leb (Fin m) (inject_Z z) = false → (inject_Z z < m)%Q.
Proof. intros H. by apply Qle_bool_false. Qed.

Lemma record_ok r o c : collector_ok c → collector_ok (record r o c).
Proof.
  intros Hc. unfold record.
  assert (∀ n, collector_ok (with_dropped n c)) as Hdrop by (intros n; destruct Hc; by split).
  destruct (disposed c) eqn:Ed; [apply Hdrop|]. destruct (num_leb (maxBufferSize c) _) eqn:Em; [apply Hdrop|].
  set (c1 := with_buffer (buffer c ++ [r]) c). destruct (num_leb (flushBatchSize c1) _) eqn:Ef.
  - rewrite triggerFlush_flush. destruct (flush_spec o c1) as (Hss & ? & ? & ? & ? & ? & _).
    apply (drained_ok c); try done.
  - destruct Hc as [Hd Hg Hs Hb Hf]. split; [cbn; congruence|exact Hg|exact Hs| |].
    + intros m Hm _. cbn in Hm. rewrite Hm in Em. apply num_leb_false_fin in Em. unfold buffer_length in *. cbn.
      rewrite length_app, Nat2Z.inj_add, inject_Z_plus. cbn [length]. by apply Qplus_lt_l.
    + intros m Hm _. rewrite Hm in Ef. by apply num_leb_false_fin in Ef.
Qed.

Lemma dispose_wait_ok c : collector_ok c → buffer c = [] → collector_ok (dispose_wait c).
Proof.
  intros [Hd Hg Hs Hb Hf] Hbuf. unfold dispose_wait. split; cbn; try done; [|by destruct (inFlightFlushes c)].
  intros _. split; [done|]. by destruct (inFlightFlushes c).
Qed.

Lemma with_dispose_ok c t s :
  collector_ok c → buffer c = [] → s ≠ NotDisposing →
  match s with WaitFlush p => p ∈ inFlightFlushes c | WaitAll ps => ps ≠ [] ∧ ps ⊆ inFlightFlushes c | _ => True end →
  collector_ok (with_dispose true t s c).
Proof. intros [Hd Hg Hs Hb Hf] Hbuf Hn Hst. by split. Qed.

Lemma dispose_ok o c : collector_ok c → collector_ok (dispose o c).
Proof.
  intros Hc. unfold dispose. destruct (disposed c) eqn:Ed; [done|].
  set (c1 := with_dispose true false (disposing c) c). 
  destruct (flush_spec o c1) as (Hss & Hbuf & _ & _ & Hst & Hin & Hp & _).
  destruct (flush o c1) as [[c2 p] batch]. cbn [fst snd] in *.
  assert (∀ s, s ≠ NotDisposing →
    match s with WaitFlush p => p ∈ inFlightFlushes c2 | WaitAll ps => ps ≠ [] ∧ ps ⊆ inFlightFlushes c2 | _ => True end →
    collector_ok (with_dispose true false s c2)) as Hok.
  { intros s Hn Hs. destruct Hss as (? & ? & ? & ?). by split; cbn; rewrite ?Hbuf. }
  destruct batch as [b|]; [|by apply Hok]. destruct p as [p|]; [by apply Hok|].
  unfold dispose_wait. apply Hok; by destruct (inFlightFlushes c2).
Qed.

Lemma elem_filter_ne (p : nat) (ps : list nat) q : q ∈ filter (λ q, q ≠ p) ps ↔ q ≠ p ∧ q ∈ ps.
Proof. by rewrite list_elem_of_filter. Qed.

Lemma settle_ok p ok c : collector_ok c → collector_ok (settle p ok c).
Proof.
  intros [Hd Hg Hs Hb Hf]. unfold settle. set (ps := filter _ _). set (c1 := with_flushes ps (delivered c) c).
  change (disposing c1) with (disposing c).
  assert (∀ s, disposing c ≠ NotDisposing → s ≠ NotDisposing →
    match s with WaitFlush p => p ∈ ps | WaitAll qs => qs ≠ [] ∧ qs ⊆ ps | _ => True end →
    collector_ok (with_dispose true false s c1)) as Hok.
  { intros s Hn Hs' Hst. split; cbn; try done. intros _. split; [|done]. by apply Hd, Hg. }
  assert ((match disposing c with WaitFlush p => p ∈ ps | WaitAll qs => qs ≠ [] ∧ qs ⊆ ps | _ => True end) →
    collector_ok c1) as Hstay by (intros Hst; by split).
  destruct (disposing c) as [|q|qs|r] eqn:Est.
  - by apply Hstay.
  - destruct (decide (q = p)) as [->|Hne].
    + destruct ok; [|by apply Hok]. unfold dispose_wait. apply Hok; [done|by destruct (inFlightFlushes c1)|].
      change (inFlightFlushes c1) with ps. by destruct ps.
    + apply Hstay. by apply elem_filter_ne.
  - destruct Hs as [Hne Hsub]. destruct (decide (p ∈ qs)) as [Hin|Hout].
    + destruct ok; [|by apply Hok]. destruct (filter (λ q, q ≠ p) qs) as [|q' qs'] eqn:E; [by apply Hok|].
      apply Hok; [done..|]. split; [done|]. rewrite <-E. intros q (? & ?)%elem_filter_ne.
      apply elem_filter_ne. split; [done|by apply Hsub].
    + apply Hstay. split; [done|]. intros q Hq. apply elem_filter_ne. split; [by intros ->|by apply Hsub].
  - by apply Hstay.
Qed.

Lemma collector_exec_ok c e : collector_ok c → collector_ok (exec c e).
Proof.
  intros Hc. destruct e as [r o|o|o|o|p ok]; cbn [exec].
  - by apply record_ok.
  - unfold tick. destruct (_ && _); [|done]. rewrite triggerFlush_flush. by apply flush_ok.
  - by apply flush_ok.
  - by apply dispose_ok.
  - destruct (decide _); [by apply settle_ok|done].
Qed.

Lemma collector_run_ok es : ∀ c, collector_ok c → collector_ok (run c es).
Proof. induction es as [|e es IH]; intros c Hc; [done|]. by apply IH, collector_exec_ok. Qed.

Lemma create_ok options : collector_ok (createUsageCollector options).
Proof. by split. Qed.

(** *** Accounting *)

(** A step hands records on in order. *)
Definition handed (c c' : UsageCollector) (new : list UsageRecord) : Prop :=
  onFlush c' = onFlush c ∧
  (onFlush c = true → concat (delivered c') ++ buffer c' = (concat (delivered c) ++ buffer c) ++ new).

Lemma handed_flush o c : handed c (flush o c).1.1 [].
Proof.
  destruct (flush_spec o c) as ((_ & _ & Ho & _) & Hb & _ & _ & _ & _ & _ & Hd).
  split; [exact Ho|]. intros H. by rewrite (Hd H), Hb, !app_nil_r.
Qed.

Lemma handed_id c c' : onFlush c' = onFlush c → delivered c' = delivered c → buffer c' = buffer c → handed c c' [].
Proof. intros Ho Hd Hb. split; [done|]. intros _. by rewrite Hd, Hb, app_nil_r. Qed.

Lemma handed_dispose o c : handed c (dispose o c) [].
Proof.
  unfold dispose. destruct (disposed c); [by apply handed_id|].
  set (c1 := with_dispose true false (disposing c) c).
  pose proof (handed_flush o c1) as Hf. destruct (flush o c1) as [[c2 p] batch]. cbn [fst] in Hf.
  destruct batch; [destruct p|]; exact Hf.
Qed.

Lemma handed_record r o c : handed c (record r o c) (if accepts c then [r] else []).
Proof.
  unfold record, accepts. destruct (disposed c); [by apply handed_id|].
  destruct (num_leb (maxBufferSize c) _); cbn [negb andb]; [by apply handed_id|].
  set (c1 := with_buffer (buffer c ++ [r]) c).
  assert (handed c c1 [r]) as H1 by (split; [done|]; intros _; cbn; by rewrite app_assoc).
  destruct (num_leb (flushBatchSize c1) _); [|exact H1].
  rewrite triggerFlush_flush. destruct (handed_flush o c1) as [Ho Hd]. destruct H1 as [Ho1 Hd1].
  split; [congruence|]. intros H. rewrite Hd by congruence. by rewrite Hd1, app_nil_r.
Qed.

Lemma handed_settle p ok c : handed c (settle p ok c) [].
Proof.
  unfold settle. apply handed_id; repeat (case_match; try done).
Qed.

Lemma handed_exec c e :
  handed c (exec c e) match e with ERecord r _ => if accepts c then [r] else [] | _ => [] end.
Proof.
  destruct e as [r o|o|o|o|p ok]; cbn [exec].
  - apply handed_record.
  - unfold tick. destruct (_ && _); [|by apply handed_id]. rewrite triggerFlush_flush. apply handed_flush.
  - apply handed_flush.
  - apply handed_dispose.
  - destruct (decide _); [apply handed_settle|by apply handed_id].
Qed.

Lemma run_handed es : ∀ c, handed c (run c es) (accepted c es).
Proof.
  induction es as [|e es IH]; intros c; [by apply handed_id|].
  destruct (handed_exec c e) as [Ho Hd], (IH (exec c e)) as [Ho' Hd']. split; [etrans; [exact Ho'|exact Ho]|].
  intros H. cbn [accepted]. change (run c (e :: es)) with (run (exec c e) es).
  rewrite Hd' by congruence. by rewrite Hd, <-app_assoc.
Qed.

Lemma dispose_dropped o c : droppedCount (dispose o c) = droppedCount c.
Proof.
  unfold dispose. destruct (disposed c); [done|].
  pose proof (flush_spec o (with_dispose true false (disposing c) c)) as ((_ & _ & _ & Hd) & _).
  destruct (flush o _) as [[c2 p] batch]. destruct batch; [destruct p|]; exact Hd.
Qed.

Lemma settle_dropped p ok c : droppedCount (settle p ok c) = droppedCount c.
Proof. unfold settle. repeat (case_match; try done). Qed.

Lemma record_dropped r o c :
  droppedCount (record r o c) + Z.of_nat (length (if accepts c then [r] else [])) = droppedCount c + 1.
Proof.
  unfold record, accepts. destruct (disposed c); [cbn; lia|].
  destruct (num_leb (maxBufferSize c) _); cbn [negb andb]; [cbn; lia|].
  destruct (num_leb (flushBatchSize _) _); [|cbn; lia]. rewrite triggerFlush_flush.
  destruct (flush_spec o (with_buffer (buffer c ++ [r]) c)) as ((_ & _ & _ & ->) & _). cbn. lia.
Qed.

Lemma exec_dropped c e :
  droppedCount (exec c e) +
    Z.of_nat (length match e with ERecord r _ => if accepts c then [r] else [] | _ => [] end) =
  droppedCount c + match e with ERecord _ _ => 1 | _ => 0 end.
Proof.
  destruct e as [r o|o|o|o|p ok]; cbn [exec].
  - apply record_dropped.
  - unfold tick. destruct (_ && _); [|cbn; lia]. rewrite triggerFlush_flush.
    destruct (flush_spec o c) as ((_ & _ & _ & ->) & _). cbn. lia.
  - destruct (flush_spec o c) as ((_ & _ & _ & ->) & _). cbn. lia.
  - rewrite dispose_dropped. cbn. lia.
  - destruct (decide _); [rewrite settle_dropped|]; cbn; lia.
Qed.

Lemma run_dropped es : ∀ c,
  droppedCount (run c es) + Z.of_nat (length (accepted c es)) = droppedCount c + record_events es.
Proof.
  induction es as [|e es IH]; intros c; [change (record_events []) with 0; cbn; lia|].
  change (run c (e :: es)) with (run (exec c e) es). cbn [accepted].
  rewrite length_app, Nat2Z.inj_add. specialize (IH (exec c e)). pose proof (exec_dropped c e) as He.
  unfold record_events in *. rewrite filter_cons. destruct e; cbn [length decide decide_rel]; case_decide; try done;
    cbn [length] in *; lia.
Qed.

Lemma exec_max c e : maxBufferSize (exec c e) = maxBufferSize c.
Proof.
  destruct e as [r o|o|o|o|p ok]; cbn [exec].
  - unfold record. repeat case_match; try done. rewrite triggerFlush_flush.
    by destruct (flush_spec o (with_buffer (buffer c ++ [r]) c)) as ((-> & _) & _).
  - unfold tick. case_match; [|done]. rewrite triggerFlush_flush. by destruct (flush_spec o c) as ((-> & _) & _).
  - by destruct (flush_spec o c) as ((-> & _) & _).
  - unfold dispose. case_match; [done|].
    destruct (flush_spec o (with_dispose true false (disposing c) c)) as ((Hm & _) & _).
    destruct (flush o _) as [[c2 q] b]. destruct b; [destruct q|]; exact Hm.
  - case_match; [|done]. unfold settle. repeat (case_match; try done).
Qed.

Lemma run_max es : ∀ c, maxBufferSize (run c es) = maxBufferSize c.
Proof. induction es as [|e es IH]; intros c; [done|]. etrans; [apply IH|apply exec_max]. Qed.

(** *** Disposal completes *)

Definition settle_all (ps : list nat) (ok : nat → bool) : list event := map (λ p, ESettle p (ok p)) ps.

Lemma exec_settle_inflight p ok c q :
  q ∈ inFlightFlushes (exec c (ESettle p ok)) → q ≠ p ∧ q ∈ inFlightFlushes c.
Proof.
  cbn [exec]. destruct (decide (p ∈ inFlightFlushes c)) as [Hin|Hout].
  - assert (inFlightFlushes (settle p ok c) = filter (λ q, q ≠ p) (inFlightFlushes c)) as ->
      by (unfold settle; repeat (case_match; try done)).
    by intros ?%elem_filter_ne.
  - intros Hq. split; [by intros ->|done].
Qed.

Lemma settle_all_inflight ps ok : ∀ c q,
  q ∈ inFlightFlushes (run c (settle_all ps ok)) → q ∉ ps ∧ q ∈ inFlightFlushes c.
Proof.
  induction ps as [|p ps IH]; intros c q; cbn; [by split; [apply not_elem_of_nil|]|].
  intros [Hq Hc]%IH. apply exec_settle_inflight in Hc as [Hne Hc].
  split; [by apply not_elem_of_cons|done].
Qed.

Lemma exec_disposed c e : disposed c = true → disposed (exec c e) = true.
Proof.
  intros Hd. destruct e as [r o|o|o|o|p ok]; cbn [exec].
  - unfold record. by rewrite Hd.
  - unfold tick. destruct (_ && _); [|done]. rewrite triggerFlush_flush.
    by destruct (flush_spec o c) as (_ & _ & -> & _).
  - by destruct (flush_spec o c) as (_ & _ & -> & _).
  - unfold dispose. by rewrite Hd.
  - destruct (decide _); [|done]. unfold settle. repeat (case_match; try done).
Qed.

Lemma run_disposed es : ∀ c, disposed c = true → disposed (run c es) = true.
Proof. induction es as [|e es IH]; intros c Hd; [done|]. by apply IH, exec_disposed. Qed.

(** Usage accounting (PLAT-13): with an [onFlush] callback every accepted
    record is handed to it exactly once, in order, or is still in the buffer;
    every refused one is counted as dropped; the buffer stays below its bound and
    below a batch; and a disposed collector holds nothing back and its [dispose]
    completes once the promises in flight settle, however they do. *)
Theorem usage_conservation options es :
  o_onFlush options = true →
  let c0 := createUsageCollector options in
  let c := run c0 es in
  concat (delivered c) ++ buffer c = accepted c0 es ∧
  droppedCount c + Z.of_nat (length (accepted c0 es)) = record_events es ∧
  (∀ m, maxBufferSize c0 = Fin m → buffer c ≠ [] → (inject_Z (buffer_length c) < m + 1)%Q) ∧
  (disposed c = true →
   concat (delivered c) = accepted c0 es ∧
   ∀ ok, ∃ res, disposing (run c (settle_all (inFlightFlushes c) ok)) = Disposed res).
Proof.
  intros Hon c0 c. pose proof (collector_run_ok es c0 (create_ok options)) as Hc. fold c in Hc.
  destruct (run_handed es c0) as [_ Hh]. specialize (Hh Hon). fold c in Hh.
  change (concat (delivered c) ++ buffer c = accepted c0 es) in Hh.
  pose proof (run_max es c0 : maxBufferSize c = _) as Hmax.
  split_and!.
  - exact Hh.
  - pose proof (run_dropped es c0) as Hd. cbn in Hd. exact Hd.
  - intros m Hm. rewrite <-Hmax in Hm. by apply (ok_bound _ Hc).
  - intros Hdis. split; [by rewrite <-Hh, (proj1 (ok_disposed _ Hc Hdis)), app_nil_r|].
    intros ok. set (c' := run c _). pose proof (collector_run_ok (settle_all (inFlightFlushes c) ok) c Hc) as Hc'. fold c' in Hc'.
    assert (disposed c' = true) as Hd' by (by apply run_disposed).
    assert (∀ q, q ∉ inFlightFlushes c') as Hnone by (by intros q [? ?]%settle_all_inflight).
    destruct (ok_disposed _ Hc' Hd') as [_ Hst]. pose proof (ok_stage _ Hc') as Hs.
    destruct (disposing c') as [|q|[|q qs]|res]; [done|by destruct (Hnone q)|by destruct Hs| |by exists res].
    destruct Hs as [_ Hs]. destruct (Hnone q). apply Hs. left.
Qed.

Definition small_collector : UsageCollectorOptions :=
  {| o_maxBufferSize := Some (Fin 3); o_flushBatchSize := Some (Fin 2); o_flushIntervalMs := None; o_onFlush := true |}.

Definition usage_of (n : Z) : UsageRecord :=
  {| timestamp := n; u_project := js "shop"; u_functionName := js "cart"; revisionId := js "rev_1";
     metric := KvRead; u_value := Fin 1 |}.

(** Two batches in flight when the collector is disposed *)
Definition busy_collector : list event :=
  [ERecord (usage_of 1) Returns; ERecord (usage_of 2) Promised; ERecord (usage_of 3) Returns;
   ETick Throws; ERecord (usage_of 4) Returns; EDispose Promised; ERecord (usage_of 5) Returns].

Lemma usage_conservation_witness :
  let c := run (createUsageCollector small_collector) busy_collector in
  concat (delivered c) = [usage_of 1; usage_of 2; usage_of 3; usage_of 4] ∧ droppedCount c = 1 ∧
  inFlightFlushes c = [0%nat; 2%nat] ∧
  ∃ res, disposing (run c (settle_all (inFlightFlushes c) (λ _, true))) = Disposed res.
Proof.
  destruct (usage_conservation small_collector busy_collector eq_refl) as (_ & _ & _ & H).
  destruct (H eq_refl) as [Hd Hs]. split; [exact Hd|]. split; [reflexivity|]. split; [reflexivity|]. apply Hs.
Defined.

(** Without [onFlush], a full batch is drained and lost, and not counted. *)
Lemma no_callback_loses :
  let c := run (createUsageCollector {| o_maxBufferSize := None; o_flushBatchSize := Some (Fin 2);
                                        o_flushIntervalMs := None; o_onFlush := false |})
             [ERecord (usage_of 1) Returns; ERecord (usage_of 2) Returns] in
  buffer c = [] ∧ delivered c = [] ∧ droppedCount c = 0.
Proof. by split_and!. Qed.
