(* ===== verification/ArchiveSchema.v ===== *)
(** * The backup archive ([packages/core/backup/archive-schema.ts], ADR-0002)

    The archive as typed records with the JSON value they are, and the
    validation of unknown payloads against the schema. *)

From S2P Require Import Prelude JsString JsMap JsNumber JsValue Errors Ulid Packager Deployment Snapshot.
From Stdlib Require Import QArith.

Open Scope Z_scope.

Definition ARCHIVE_SCHEMA_VERSION : Z := 1.
Definition MAX_QUEUE_RETENTION_DAYS : Z := 14.

(** ** The format of identifiers *)

(** [/^bak_[ULID]{26}$/], [/^rev_[ULID]{26}$/] *)
Definition backup_id_ok (s : jstr) : bool := starts_with s (js "bak_") && isValidUlid (slice_from 4 s).
Definition revision_id_ok (s : jstr) : bool := starts_with s (js "rev_") && isValidUlid (slice_from 4 s).

(** [/^[0-9a-f]{64}$/] and the same after [sha256:] *)
Definition sha256_hex_ok (s : jstr) : bool := (length s =? 64)%nat && forallb is_hex_lower s.
Definition artifact_id_ok (s : jstr) : bool := starts_with s (js "sha256:") && sha256_hex_ok (slice_from 7 s).

(** [[A-Za-z0-9+/=]] and the formats made of it *)
Definition is_base64 (c : Z) : bool :=
  is_upper c || is_lower c || is_digit c || (c =? chr "+") || (c =? chr "/") || (c =? chr "=").
Definition base64_ok (s : jstr) : bool := negb (jstr_eqb s []) && forallb is_base64 s.
Definition integrity_ok (s : jstr) : bool := starts_with s (js "sha256-") && base64_ok (slice_from 7 s).

(** ** Records *)

Record BackupRevisionRecord := {
  br_id : jstr;
  br_artifactId : jstr;
  br_integrity : jstr;
  br_state : RevisionState;
  br_createdAt : Z;
  br_manifest : jsval
}.

Record BackupFunctionRecord := {
  bf_name : jstr;
  bf_activeRevisionId : option jstr;
  bf_revisions : list BackupRevisionRecord
}.

(** [ttl]: in whole seconds, as [KVProvider.set] takes it *)
Record BackupKvEntry := {
  bk_namespace : jstr;
  bk_key : list jstr;
  bk_value : jsval;
  bk_ttl : option Z;
  bk_version : Z
}.

Record BackupObjectRecord := {
  bo_store : jstr;
  bo_key : jstr;
  bo_sizeBytes : Z;
  bo_sha256 : jstr;
  bo_integrity : jstr;
  bo_dataBase64 : option jstr
}.

Record BackupQueueRecord := {
  bq_name : jstr;
  bq_visibilityTimeoutMs : Q;
  bq_maxReceives : Q;
  bq_retentionDays : Q;
  bq_dlqQueueName : option jstr
}.

Record StateBackupArchive := {
  backupId : jstr;
  createdAt : Z;
  a_orgId : jstr;
  a_projectId : jstr;
  a_name : jstr;
  a_functions : list BackupFunctionRecord;
  a_kv : list BackupKvEntry;
  a_objects : list BackupObjectRecord;
  a_queues : list BackupQueueRecord
}.

(** ** Validation *)

(** [typeof v !== "string" || v.length === 0] *)
Definition not_nonempty (v : jsval) : bool :=
  match v with JStr s => jstr_eqb s [] | _ => true end.
(** [typeof v !== "string" || !regex.test(v)] *)
Definition not_matching (regex : jstr → bool) (v : jsval) : bool :=
  match v with JStr s => negb (regex s) | _ => true end.
(** [typeof v !== "number" || !Number.isFinite(v) || v <= 0] *)
Definition not_positive_number (v : jsval) : bool :=
  match v with JNum n => negb (num_is_finite n) || num_leb n 0 | _ => true end.
(** [typeof v !== "number" || !Number.isInteger(v) || v < 0] *)
Definition not_natural (v : jsval) : bool :=
  match v with JNum n => negb (num_is_integer n) || num_ltb n 0 | _ => true end.
(** ["k" in v], for an own property *)
Definition has_prop (v : jsval) (k : jstr) : bool := map_has (object_entries v) k.

(** [isRecord(value)] *)
Definition isRecord (v : jsval) : bool := negb (not_plain_object v).

Definition VALID_REVISION_STATES : list jstr := [js "Deployed"; js "Failed"; js "Ready"].
Definition valid_state (s : jstr) : bool := bool_decide (s ∈ VALID_REVISION_STATES).

Definition validateProject (project : jsval) : result exn unit :=
  throw_if (negb (isRecord project)) ValidationFailedError ≫= λ _,
  throw_if (not_nonempty (prop project (js "orgId"))) ValidationFailedError ≫= λ _,
  throw_if (not_nonempty (prop project (js "projectId"))) ValidationFailedError ≫= λ _,
  throw_if (not_nonempty (prop project (js "name"))) ValidationFailedError.

Definition validateRevision (rev : jsval) : result exn unit :=
  throw_if (negb (isRecord rev)) ValidationFailedError ≫= λ _,
  throw_if (not_matching revision_id_ok (prop rev (js "id"))) ValidationFailedError ≫= λ _,
  throw_if (not_matching artifact_id_ok (prop rev (js "artifactId"))) ValidationFailedError ≫= λ _,
  throw_if (not_matching integrity_ok (prop rev (js "integrity"))) ValidationFailedError ≫= λ _,
  throw_if (not_matching valid_state (prop rev (js "state"))) ValidationFailedError ≫= λ _,
  throw_if (not_finite (prop rev (js "createdAt"))) ValidationFailedError ≫= λ _,
  throw_if (is_undefined (prop rev (js "manifest"))) ValidationFailedError.

(** [revisionIds], once every revision has passed *)
Definition revision_ids (revisions : list jsval) : list jstr := omap (λ rev, as_str (prop rev (js "id"))) revisions.

Definition bad_active (active : jsval) (revisions : list jsval) : bool :=
  negb (is_null active) &&
  match active with
  | JStr s => negb (revision_id_ok s) || negb (bool_decide (s ∈ revision_ids revisions))
  | _ => true
  end.

Definition validateFunctionRecord (fn : jsval) : result exn unit :=
  throw_if (negb (isRecord fn)) ValidationFailedError ≫= λ _,
  throw_if (not_nonempty (prop fn (js "name"))) ValidationFailedError ≫= λ _,
  throw_if (negb (is_array (prop fn (js "revisions")))) ValidationFailedError ≫= λ _,
  for_each validateRevision (elements (prop fn (js "revisions"))) ≫= λ _,
  throw_if (bad_active (prop fn (js "activeRevisionId")) (elements (prop fn (js "revisions"))))
           ValidationFailedError.

(** [if (!Array.isArray(v)) throw ...; for (const x of v) ...] *)
Definition validateArray (body : jsval → result exn unit) (v : jsval) : result exn unit :=
  throw_if (negb (is_array v)) ValidationFailedError ≫= λ _, for_each body (elements v).

Definition validateFunctions : jsval → result exn unit := validateArray validateFunctionRecord.

Definition bad_key (v : jsval) : bool :=
  match v with
  | JArr [] => true
  | JArr segments => existsb not_nonempty segments
  | _ => true
  end.

Definition validateKvEntry (entry : jsval) : result exn unit :=
  throw_if (negb (isRecord entry)) ValidationFailedError ≫= λ _,
  throw_if (not_nonempty (prop entry (js "namespace"))) ValidationFailedError ≫= λ _,
  throw_if (bad_key (prop entry (js "key"))) ValidationFailedError ≫= λ _,
  throw_if (negb (has_prop entry (js "value"))) ValidationFailedError ≫= λ _,
  throw_if (negb (is_undefined (prop entry (js "ttl"))) && not_positive_number (prop entry (js "ttl")))
           ValidationFailedError ≫= λ _,
  throw_if (not_natural (prop entry (js "version"))) ValidationFailedError.

Definition validateKvEntries : jsval → result exn unit := validateArray validateKvEntry.

Definition validateObject (obj : jsval) : result exn unit :=
  throw_if (negb (isRecord obj)) ValidationFailedError ≫= λ _,
  throw_if (not_nonempty (prop obj (js "store"))) ValidationFailedError ≫= λ _,
  throw_if (not_nonempty (prop obj (js "key"))) ValidationFailedError ≫= λ _,
  throw_if (not_natural (prop obj (js "sizeBytes"))) ValidationFailedError ≫= λ _,
  throw_if (not_matching sha256_hex_ok (prop obj (js "sha256"))) ValidationFailedError ≫= λ _,
  throw_if (not_matching integrity_ok (prop obj (js "integrity"))) ValidationFailedError ≫= λ _,
  throw_if (negb (is_undefined (prop obj (js "dataBase64"))) &&
            not_matching base64_ok (prop obj (js "dataBase64"))) ValidationFailedError.

Definition validateObjects : jsval → result exn unit := validateArray validateObject.

Definition validateQueue (q : jsval) : result exn unit :=
  throw_if (negb (isRecord q)) ValidationFailedError ≫= λ _,
  throw_if (not_nonempty (prop q (js "name"))) ValidationFailedError ≫= λ _,
  throw_if (not_positive_number (prop q (js "visibilityTimeoutMs"))) ValidationFailedError ≫= λ _,
  throw_if (not_positive_number (prop q (js "maxReceives"))) ValidationFailedError ≫= λ _,
  throw_if (not_positive_number (prop q (js "retentionDays")) ||
            match prop q (js "retentionDays") with
            | JNum n => num_gtb n (inject_Z MAX_QUEUE_RETENTION_DAYS) | _ => false end)
           ValidationFailedError ≫= λ _,
  throw_if (negb (is_undefined (prop q (js "dlqQueueName"))) && not_nonempty (prop q (js "dlqQueueName")))
           ValidationFailedError.

Definition validateQueues : jsval → result exn unit := validateArray validateQueue.

(** [raw.version !== ARCHIVE_SCHEMA_VERSION] *)
Definition bad_archive_version (v : jsval) : bool :=
  match v with JNum (Fin q) => negb (Qeq_bool q (inject_Z ARCHIVE_SCHEMA_VERSION)) | _ => true end.

Definition validateBackupArchive (raw : jsval) : result exn jsval :=
  throw_if (negb (isRecord raw)) ValidationFailedError ≫= λ _,
  throw_if (bad_archive_version (prop raw (js "version"))) ValidationFailedError ≫= λ _,
  throw_if (not_matching backup_id_ok (prop raw (js "backupId"))) ValidationFailedError ≫= λ _,
  throw_if (not_finite (prop raw (js "createdAt"))) ValidationFailedError ≫= λ _,
  validateProject (prop raw (js "project")) ≫= λ _,
  validateFunctions (prop raw (js "functions")) ≫= λ _,
  validateKvEntries (prop raw (js "kv")) ≫= λ _,
  validateObjects (prop raw (js "objects")) ≫= λ _,
  validateQueues (prop raw (js "queues")) ≫= λ _,
  Ok raw.

(** ** The JSON of an archive *)

Definition num_value (q : Q) : jsval := JNum (Fin q).
Definition opt_field (k : jstr) (v : option jsval) : list (jstr * jsval) :=
  match v with Some x => [(k, x)] | None => [] end.

Definition state_string (s : RevisionState) : jstr :=
  match s with
  | Created => js "Created" | Building => js "Building" | Ready => js "Ready"
  | Deployed => js "Deployed" | Failed => js "Failed" | Suspended => js "Suspended"
  end.

Definition revision_value (r : BackupRevisionRecord) : jsval :=
  JObj [(js "id", JStr (br_id r)); (js "artifactId", JStr (br_artifactId r));
        (js "integrity", JStr (br_integrity r)); (js "state", JStr (state_string (br_state r)));
        (js "createdAt", num_value (inject_Z (br_createdAt r))); (js "manifest", br_manifest r)].

Definition function_value (f : BackupFunctionRecord) : jsval :=
  JObj [(js "name", JStr (bf_name f));
        (js "activeRevisionId", match bf_activeRevisionId f with Some i => JStr i | None => JNull end);
        (js "revisions", JArr (map revision_value (bf_revisions f)))].

Definition kv_value (e : BackupKvEntry) : jsval :=
  JObj ([(js "namespace", JStr (bk_namespace e)); (js "key", JArr (map JStr (bk_key e)));
         (js "value", bk_value e)] ++ opt_field (js "ttl") ((λ t, num_value (inject_Z t)) <$> bk_ttl e) ++
        [(js "version", num_value (inject_Z (bk_version e)))]).

Definition object_value (o : BackupObjectRecord) : jsval :=
  JObj ([(js "store", JStr (bo_store o)); (js "key", JStr (bo_key o));
         (js "sizeBytes", num_value (inject_Z (bo_sizeBytes o))); (js "sha256", JStr (bo_sha256 o));
         (js "integrity", JStr (bo_integrity o))] ++ opt_field (js "dataBase64") (JStr <$> bo_dataBase64 o)).

Definition queue_value (q : BackupQueueRecord) : jsval :=
  JObj ([(js "name", JStr (bq_name q)); (js "visibilityTimeoutMs", num_value (bq_visibilityTimeoutMs q));
         (js "maxReceives", num_value (bq_maxReceives q)); (js "retentionDays", num_value (bq_retentionDays q))] ++
        opt_field (js "dlqQueueName") (JStr <$> bq_dlqQueueName q)).

Definition archive_value (a : StateBackupArchive) : jsval :=
  JObj [(js "version", num_value (inject_Z ARCHIVE_SCHEMA_VERSION));
        (js "backupId", JStr (backupId a));
        (js "createdAt", num_value (inject_Z (createdAt a)));
        (js "project", JObj [(js "orgId", JStr (a_orgId a)); (js "projectId", JStr (a_projectId a));
                             (js "name", JStr (a_name a))]);
        (js "functions", JArr (map function_value (a_functions a)));
        (js "kv", JArr (map kv_value (a_kv a)));
        (js "objects", JArr (map object_value (a_objects a)));
        (js "queues", JArr (map queue_value (a_queues a)))].

(** ** What validation accepts of a typed archive *)

Definition nonempty (s : jstr) : bool := negb (jstr_eqb s []).

Definition revision_ok (r : BackupRevisionRecord) : bool :=
  revision_id_ok (br_id r) && artifact_id_ok (br_artifactId r) && integrity_ok (br_integrity r) &&
  valid_state (state_string (br_state r)) && negb (is_undefined (br_manifest r)).

Definition function_ok (f : BackupFunctionRecord) : bool :=
  nonempty (bf_name f) && forallb revision_ok (bf_revisions f) &&
  match bf_activeRevisionId f with
  | Some i => revision_id_ok i && bool_decide (i ∈ br_id <$> bf_revisions f)
  | None => true
  end.

Definition kv_ok (e : BackupKvEntry) : bool :=
  nonempty (bk_namespace e) && negb (bool_decide (bk_key e = [])) && forallb nonempty (bk_key e) &&
  match bk_ttl e with Some t => 0 <? t | None => true end && (0 <=? bk_version e).

Definition object_ok (o : BackupObjectRecord) : bool :=
  nonempty (bo_store o) && nonempty (bo_key o) && (0 <=? bo_sizeBytes o) && sha256_hex_ok (bo_sha256 o) &&
  integrity_ok (bo_integrity o) && match bo_dataBase64 o with Some d => base64_ok d | None => true end.

Definition queue_ok (q : BackupQueueRecord) : bool :=
  nonempty (bq_name q) && q_ltb 0 (bq_visibilityTimeoutMs q) && q_ltb 0 (bq_maxReceives q) &&
  (q_ltb 0 (bq_retentionDays q) && Qle_bool (bq_retentionDays q) (inject_Z MAX_QUEUE_RETENTION_DAYS)) &&
  match bq_dlqQueueName q with Some n => nonempty n | None => true end.

Definition archive_ok (a : StateBackupArchive) : bool :=
  backup_id_ok (backupId a) && (nonempty (a_orgId a) && nonempty (a_projectId a) && nonempty (a_name a)) &&
  forallb function_ok (a_functions a) && forallb kv_ok (a_kv a) && forallb object_ok (a_objects a) &&
  forallb queue_ok (a_queues a).

(** Every check throws the same error: a validator is a test. *)
Lemma for_each_map {A} (f : jsval → result exn unit) (v : A → jsval) (ok : A → bool) xs :
  (∀ x, f (v x) = throw_if (negb (ok x)) ValidationFailedError) →
  for_each f (map v xs) = throw_if (negb (forallb ok xs)) ValidationFailedError.
Proof.
  intros Hf. induction xs as [|x xs IH]; [done|]. cbn [map for_each forallb].
  by rewrite Hf, IH, throw_if_bind, negb_andb.
Qed.

Lemma validateArray_map {A} (f : jsval → result exn unit) (v : A → jsval) (ok : A → bool) xs :
  (∀ x, f (v x) = throw_if (negb (ok x)) ValidationFailedError) →
  validateArray f (JArr (map v xs)) = throw_if (negb (forallb ok xs)) ValidationFailedError.
Proof. apply for_each_map. Qed.

Ltac test_chain :=
  rewrite ?throw_if_bind; f_equal; rewrite ?negb_andb, ?negb_involutive, <-?orb_assoc; try reflexivity.

Lemma q_not_positive q : not_positive_number (num_value q) = negb (q_ltb 0 q).
Proof. unfold not_positive_number, num_value, q_ltb. cbn. by rewrite negb_involutive. Qed.

Lemma z_not_positive z : not_positive_number (num_value (inject_Z z)) = negb (0 <? z).
Proof.
  rewrite q_not_positive. f_equal. apply eq_true_iff_eq. rewrite q_ltb_lt, Z.ltb_lt.
  change 0%Q with (inject_Z 0). by rewrite <-Zlt_Qlt.
Qed.

Lemma z_not_natural z : not_natural (num_value (inject_Z z)) = negb (0 <=? z).
Proof.
  unfold not_natural, num_value. cbn [num_is_integer num_ltb]. rewrite Qround.Qfloor_Z.
  rewrite (proj2 (Qeq_bool_iff _ _)) by reflexivity. cbn [negb orb].
  apply eq_true_iff_eq. rewrite q_ltb_lt, negb_true_iff, Z.leb_gt. change 0%Q with (inject_Z 0).
  by rewrite <-Zlt_Qlt.
Qed.

Lemma validateRevision_typed r :
  validateRevision (revision_value r) = throw_if (negb (revision_ok r)) ValidationFailedError.
Proof.
  change (validateRevision (revision_value r)) with
    (throw_if false ValidationFailedError ≫= λ _ : unit,
     throw_if (negb (revision_id_ok (br_id r))) ValidationFailedError ≫= λ _,
     throw_if (negb (artifact_id_ok (br_artifactId r))) ValidationFailedError ≫= λ _,
     throw_if (negb (integrity_ok (br_integrity r))) ValidationFailedError ≫= λ _,
     throw_if (negb (valid_state (state_string (br_state r)))) ValidationFailedError ≫= λ _,
     throw_if false ValidationFailedError ≫= λ _,
     throw_if (is_undefined (br_manifest r)) ValidationFailedError).
  rewrite !throw_if_bind. cbn [orb]. unfold revision_ok. test_chain.
Qed.

Lemma revision_ids_typed rs : revision_ids (map revision_value rs) = br_id <$> rs.
Proof. unfold revision_ids. induction rs as [|r rs IH]; [done|]. cbn [map omap list_omap]. by rewrite IH. Qed.

Lemma validateFunctionRecord_typed f :
  validateFunctionRecord (function_value f) = throw_if (negb (function_ok f)) ValidationFailedError.
Proof.
  set (active := match bf_activeRevisionId f with Some i => JStr i | None => JNull end).
  change (validateFunctionRecord (function_value f)) with
    (throw_if false ValidationFailedError ≫= λ _ : unit,
     throw_if (jstr_eqb (bf_name f) []) ValidationFailedError ≫= λ _,
     throw_if false ValidationFailedError ≫= λ _,
     for_each validateRevision (map revision_value (bf_revisions f)) ≫= λ _,
     throw_if (bad_active active (map revision_value (bf_revisions f))) ValidationFailedError).
  rewrite (for_each_map _ _ revision_ok) by apply validateRevision_typed.
  rewrite !throw_if_bind. cbn [orb]. unfold function_ok, bad_active, nonempty, active.
  rewrite ?revision_ids_typed. f_equal.
  destruct (bf_activeRevisionId f) as [i|]; cbn [is_null negb andb];
    destruct (jstr_eqb _ _), (forallb _ _); cbn [orb andb negb]; try reflexivity.
  by rewrite negb_andb.
Qed.

Lemma validateKvEntry_typed e :
  validateKvEntry (kv_value e) = throw_if (negb (kv_ok e)) ValidationFailedError.
Proof.
  destruct e as [ns k v ttl n].
  assert (bad_key (JArr (map JStr k)) = bool_decide (k = []) || negb (forallb nonempty k)) as Hk.
  { destruct k as [|s k]; [done|]. rewrite bool_decide_false by done. cbn [map bad_key orb].
    change (existsb not_nonempty (map JStr (s :: k)) = negb (forallb nonempty (s :: k))).
    generalize (s :: k) as l. induction l as [|s' l IH]; [done|]. cbn [map existsb forallb]. rewrite IH.
    unfold nonempty at 2. rewrite negb_andb. by rewrite negb_involutive. }
  set (t := match ttl with Some t => num_value (inject_Z t) | None => JUndef end).
  assert (validateKvEntry (kv_value (Build_BackupKvEntry ns k v ttl n)) =
    (throw_if false ValidationFailedError ≫= λ _ : unit,
     throw_if (jstr_eqb ns []) ValidationFailedError ≫= λ _,
     throw_if (bad_key (JArr (map JStr k))) ValidationFailedError ≫= λ _,
     throw_if false ValidationFailedError ≫= λ _,
     throw_if (negb (is_undefined t) && not_positive_number t) ValidationFailedError ≫= λ _,
     throw_if (not_natural (num_value (inject_Z n))) ValidationFailedError)) as ->
    by (unfold t; destruct ttl; reflexivity).
  rewrite Hk, z_not_natural. rewrite !throw_if_bind. cbn [orb]. unfold kv_ok, nonempty, t.
  cbn [bk_namespace bk_key bk_ttl bk_version]. destruct ttl; cbn [is_undefined negb andb num_value];
    rewrite ?z_not_positive, ?andb_true_r; test_chain.
Qed.

Lemma validateObject_typed o :
  validateObject (object_value o) = throw_if (negb (object_ok o)) ValidationFailedError.
Proof.
  destruct o as [st k sz sha i d]. set (t := match d with Some d => JStr d | None => JUndef end).
  assert (validateObject (object_value (Build_BackupObjectRecord st k sz sha i d)) =
    (throw_if false ValidationFailedError ≫= λ _ : unit,
     throw_if (jstr_eqb st []) ValidationFailedError ≫= λ _,
     throw_if (jstr_eqb k []) ValidationFailedError ≫= λ _,
     throw_if (not_natural (num_value (inject_Z sz))) ValidationFailedError ≫= λ _,
     throw_if (negb (sha256_hex_ok sha)) ValidationFailedError ≫= λ _,
     throw_if (negb (integrity_ok i)) ValidationFailedError ≫= λ _,
     throw_if (negb (is_undefined t) && not_matching base64_ok t) ValidationFailedError)) as ->
    by (unfold t; destruct d; reflexivity).
  rewrite z_not_natural, !throw_if_bind. cbn [orb]. unfold object_ok, nonempty, t.
  cbn [bo_store bo_key bo_sizeBytes bo_sha256 bo_integrity bo_dataBase64].
  destruct d; cbn [is_undefined negb andb not_matching]; rewrite ?andb_true_r, ?orb_false_r; test_chain.
Qed.

Lemma validateQueue_typed q :
  validateQueue (queue_value q) = throw_if (negb (queue_ok q)) ValidationFailedError.
Proof.
  destruct q as [n v m r d]. set (t := match d with Some d => JStr d | None => JUndef end).
  assert (validateQueue (queue_value (Build_BackupQueueRecord n v m r d)) =
    (throw_if false ValidationFailedError ≫= λ _ : unit,
     throw_if (jstr_eqb n []) ValidationFailedError ≫= λ _,
     throw_if (not_positive_number (num_value v)) ValidationFailedError ≫= λ _,
     throw_if (not_positive_number (num_value m)) ValidationFailedError ≫= λ _,
     throw_if (not_positive_number (num_value r) || q_ltb (inject_Z MAX_QUEUE_RETENTION_DAYS) r)
              ValidationFailedError ≫= λ _,
     throw_if (negb (is_undefined t) && not_nonempty t) ValidationFailedError)) as ->
    by (unfold t; destruct d; reflexivity).
  rewrite !q_not_positive, !throw_if_bind. cbn [orb]. unfold queue_ok, nonempty, t, q_ltb.
  cbn [bq_name bq_visibilityTimeoutMs bq_maxReceives bq_retentionDays bq_dlqQueueName].
  destruct d; cbn [is_undefined negb andb not_nonempty]; rewrite ?andb_true_r, ?orb_false_r; test_chain.
Qed.

Lemma validate_archive_typed a :
  validateBackupArchive (archive_value a) =
    if archive_ok a then Ok (archive_value a) else Err ValidationFailedError.
Proof.
  change (validateBackupArchive (archive_value a)) with
    (throw_if false ValidationFailedError ≫= λ _ : unit,
     throw_if false ValidationFailedError ≫= λ _,
     throw_if (negb (backup_id_ok (backupId a))) ValidationFailedError ≫= λ _,
     throw_if false ValidationFailedError ≫= λ _,
     (throw_if false ValidationFailedError ≫= λ _ : unit,
      throw_if (jstr_eqb (a_orgId a) []) ValidationFailedError ≫= λ _,
      throw_if (jstr_eqb (a_projectId a) []) ValidationFailedError ≫= λ _,
      throw_if (jstr_eqb (a_name a) []) ValidationFailedError) ≫= λ _,
     validateArray validateFunctionRecord (JArr (map function_value (a_functions a))) ≫= λ _,
     validateArray validateKvEntry (JArr (map kv_value (a_kv a))) ≫= λ _,
     validateArray validateObject (JArr (map object_value (a_objects a))) ≫= λ _,
     validateArray validateQueue (JArr (map queue_value (a_queues a))) ≫= λ _,
     Ok (archive_value a)).
  rewrite (validateArray_map _ _ function_ok) by apply validateFunctionRecord_typed.
  rewrite (validateArray_map _ _ kv_ok) by apply validateKvEntry_typed.
  rewrite (validateArray_map _ _ object_ok) by apply validateObject_typed.
  rewrite (validateArray_map _ _ queue_ok) by apply validateQueue_typed.
  rewrite !throw_if_bind. rewrite !throw_if_then. cbn [orb]. unfold archive_ok, nonempty.
  rewrite <-!orb_assoc.
  destruct (backup_id_ok _), (jstr_eqb (a_orgId a) _), (jstr_eqb (a_projectId a) _), (jstr_eqb (a_name a) _),
    (forallb function_ok _), (forallb kv_ok _), (forallb object_ok _), (forallb queue_ok _); reflexivity.
Qed.
