(* ===== verification/StateBackup.v ===== *)
(** * State backup and disaster recovery ([apps/api/state-backup-service.ts], ADR-0002)

    Export of a project into an archive and restore of an archive into a target
    project, over the deployment service, a key-value provider and an object
    provider.  The two providers are abstract ([KvStore], [KvLister] and
    [ObjectStore], with the laws of [KvInterface], and [ObjectFrame] or
    [ObjectLaws]); the methods run without interleaving with other clients. *)

From S2P Require Import Prelude JsString JsMap JsNumber JsValue Errors Utf8 Ulid KvInterface SqliteKv.
From S2P Require Import Packager Deployment ArchiveSchema.

Open Scope Z_scope.
Open Scope railfog_scope.

(** ** The object provider *)

(** A [ReadableStream]: the values its reads deliver, then the end or an error. *)
Record stream := { reads : list (option (list Z)); failure : option exn }.

Class ObjectStore (Ob : Type) := {
  obj_put : jstr → list Z → stm Ob exn unit;
  obj_get : jstr → stm Ob exn (option stream);
  obj_list : jstr → Z → option jstr → stm Ob exn (list jstr * option jstr)
}.

Definition MAX_INLINE_OBJECT_BYTES : Z := 256 * 1024.

(** [out.set(chunk, offset)] *)
Definition set_at (out : list Z) (offset : nat) (chunk : list Z) : list Z :=
  take offset out ++ chunk ++ drop (offset + length chunk) out.

(** [for (const chunk of chunks) { out.set(chunk, offset); offset += chunk.length }] *)
Fixpoint copy_chunks (out : list Z) (offset : nat) (chunks : list (list Z)) : list Z :=
  match chunks with
  | [] => out
  | chunk :: chunks => copy_chunks (set_at out offset chunk) (offset + length chunk) chunks
  end.

Definition streamToBytes (s : stream) : result exn (list Z) :=
  let chunks := omap id (reads s) in
  match failure s with
  | Some e => Err e
  | None =>
      let totalLength := foldr (λ chunk acc, acc + length chunk)%nat 0%nat (rev chunks) in
      Ok (copy_chunks (replicate totalLength 0) 0 chunks)
  end.

(** ** Validation *)

Definition validateIdentifier (id : jstr) : result exn unit :=
  throw_if (jstr_eqb (trim id) []) ValidationFailedError ≫= λ _,
  let trimmed := trim id in
  let lower := to_lower trimmed in
  throw_if (includes trimmed (js "/") || includes trimmed (js "\") || includes trimmed [0] ||
            includes trimmed (js "..") || includes trimmed (js ":") || includes lower (js "%2e%2e"))
           ValidationFailedError ≫= λ _,
  for_each (λ code, throw_if ((code <=? 0x1f) || (code =? 0x7f)) ValidationFailedError) trimmed.

Definition hasPathTraversal (segment : jstr) : bool :=
  includes segment (js "..") || includes segment (js "\") || includes segment [0] ||
  includes (to_lower segment) (js "%2e%2e").

(** ** The service *)

Record ExportProjectOptions := {
  ex_orgId : jstr;
  ex_projectId : jstr;
  backupStorageKey : option jstr
}.

Record ImportProjectOptions := {
  targetOrgId : jstr;
  targetProjectId : jstr;
  archive : StateBackupArchive;
  overwriteKv : bool
}.

Record ImportProjectResult := {
  restoredRevisions : Z;
  restoredKvKeys : Z;
  restoredObjects : Z;
  restoredQueues : Z
}.

(** The three stores the service works on *)
Record backup_state (K Ob : Type) := { bw_svc : DeploymentService; bw_kv : K; bw_obj : Ob }.
Arguments Build_backup_state {K Ob}.
Arguments bw_svc {K Ob}.
Arguments bw_kv {K Ob}.
Arguments bw_obj {K Ob}.

Section service.
Context `{Hashing}.
Context {K Ob : Type} `{KvStore K jsval, !KvLister K jsval, ObjectStore Ob}.
(** [decodeBase64] of @std/encoding, and [JSON.stringify(archive, null, 2)] *)
Context (decodeBase64 : jstr → result exn (list Z)) (stringify : jsval → jstr).

Local Abbreviation W := (backup_state K Ob).

Definition on_svc {A} (m : stm DeploymentService exn A) : stm W exn A := λ w,
  let '(s, r) := m (bw_svc w) in (Build_backup_state s (bw_kv w) (bw_obj w), r).
Definition on_kv {A} (m : stm K exn A) : stm W exn A := λ w,
  let '(k, r) := m (bw_kv w) in (Build_backup_state (bw_svc w) k (bw_obj w), r).
Definition on_obj {A} (m : stm Ob exn A) : stm W exn A := λ w,
  let '(o, r) := m (bw_obj w) in (Build_backup_state (bw_svc w) (bw_kv w) o, r).

(** *** Export *)

Definition backup_revision (rev : RevisionRecord) : BackupRevisionRecord :=
  {| br_id := r_id rev; br_artifactId := r_artifactId rev; br_integrity := r_integrity rev;
     br_state := r_state rev; br_createdAt := r_createdAt rev; br_manifest := r_manifest rev |}.

Definition export_functions (s : DeploymentService) (projectId : jstr) : list BackupFunctionRecord :=
  (λ fnName,
     {| bf_name := fnName;
        bf_activeRevisionId := getActivePointer (tbl s) projectId fnName;
        bf_revisions := backup_revision <$> listRevisions (tbl s) projectId fnName |})
    <$> listFunctions (tbl s) projectId.

(** The body of the loop over a page of entries: keys of four segments or more *)
Definition kv_record (item : key * jsval) : option BackupKvEntry :=
  match item.1 with
  | _ :: _ :: namespace :: ((_ :: _) as k) =>
      Some {| bk_namespace := namespace; bk_key := k; bk_value := item.2; bk_ttl := None; bk_version := 1 |}
  | _ => None
  end.

(** [do { ... } while (kvCursor !== undefined)]; [None] when [fuel] pages are
    not enough. *)
Fixpoint export_kv (fuel : nat) (prefix : key) (kvCursor : option jstr) (kvEntries : list BackupKvEntry)
    (k : K) : option (K * result exn (list BackupKvEntry)) :=
  match fuel with
  | O => None
  | S fuel =>
      match kv_list prefix (Some 1000) kvCursor k with
      | (k, Err e) => Some (k, Err e)
      | (k, Ok page) =>
          let kvEntries := kvEntries ++ omap kv_record (page_keys page) in
          match page_cursor page with
          | None => Some (k, Ok kvEntries)
          | Some c => export_kv fuel prefix (Some c) kvEntries k
          end
      end
  end.

Definition artifact_key (sha : jstr) : jstr := js "artifacts/" ++ sha.

(** The body of the loop over a page of object keys *)
Definition export_object (objPrefix fullKey : jstr) : stm Ob exn (option BackupObjectRecord) :=
  if negb (starts_with fullKey objPrefix) then st_ret None
  else
    let rel := slice_from (length objPrefix) fullKey in
    match index_of rel (js "/") with
    | None => st_ret None
    | Some slashIdx =>
        let store := take slashIdx rel in
        let callerKey := slice_from (slashIdx + 1) rel in
        s <~ obj_get fullKey ;;
        match s with
        | None => st_ret None
        | Some s =>
            bytes <~ st_lift (streamToBytes s) ;;
            let hashBytes := sha256 bytes in
            let sha := encodeHex hashBytes in
            let integrity := js "sha256-" ++ encodeBase64 hashBytes in
            let sizeBytes := Z.of_nat (length bytes) in
            let record data :=
              {| bo_store := store; bo_key := callerKey; bo_sizeBytes := sizeBytes; bo_sha256 := sha;
                 bo_integrity := integrity; bo_dataBase64 := data |} in
            if sizeBytes <? MAX_INLINE_OBJECT_BYTES then st_ret (Some (record (Some (encodeBase64 bytes))))
            else obj_put (artifact_key sha) bytes ;;~ st_ret (Some (record None))
        end
    end.

Fixpoint export_page (objPrefix : jstr) (keys : list jstr) (objectRecords : list BackupObjectRecord)
    : stm Ob exn (list BackupObjectRecord) :=
  match keys with
  | [] => st_ret objectRecords
  | fullKey :: keys =>
      r <~ export_object objPrefix fullKey ;;
      export_page objPrefix keys (objectRecords ++ match r with Some r => [r] | None => [] end)
  end.

Fixpoint export_objects (fuel : nat) (objPrefix : jstr) (objCursor : option jstr)
    (objectRecords : list BackupObjectRecord) (o : Ob) : option (Ob * result exn (list BackupObjectRecord)) :=
  match fuel with
  | O => None
  | S fuel =>
      match obj_list objPrefix 1000 objCursor o with
      | (o, Err e) => Some (o, Err e)
      | (o, Ok (keys, cursor)) =>
          match export_page objPrefix keys objectRecords o with
          | (o, Err e) => Some (o, Err e)
          | (o, Ok objectRecords) =>
              match cursor with
              | None => Some (o, Ok objectRecords)
              | Some c => export_objects fuel objPrefix (Some c) objectRecords o
              end
          end
      end
  end.

Definition bad_storage_key (customKey : jstr) : bool :=
  starts_with customKey (js "/") || includes customKey (js "..") || includes customKey (js "\") ||
  includes customKey [0] || negb (jstr_eqb (trim customKey) customKey).

(** The archive of what the loops gathered; [now] and [bytes] are the clock and
    the randomness of the identifier, [now'] the second reading of the clock. *)
Definition archivePayload (options : ExportProjectOptions) (now : Z) (bytes : list Z) (now' : Z)
    (functions : list BackupFunctionRecord) (kvEntries : list BackupKvEntry)
    (objectRecords : list BackupObjectRecord) : StateBackupArchive :=
  {| backupId := js "bak_" ++ generateUlid now bytes;
     createdAt := now';
     a_orgId := ex_orgId options;
     a_projectId := ex_projectId options;
     a_name := ex_projectId options;
     a_functions := functions;
     a_kv := kvEntries;
     a_objects := objectRecords;
     a_queues := [] |}.

(** Steps 4 and 5: validation and storage of the archive *)
Definition store_archive (options : ExportProjectOptions) (a : StateBackupArchive)
    : stm Ob exn StateBackupArchive :=
  validated <~ st_lift (validateBackupArchive (archive_value a)) ;;
  st_lift
    (throw_if match backupStorageKey options with Some k => bad_storage_key k | None => false end
              ValidationFailedError) ;;~
  let storageKey := match backupStorageKey options with
                    | Some k => k | None => js "backups/" ++ backupId a ++ js ".json" end in
  obj_put storageKey (text_encode (stringify validated)) ;;~ st_ret a.

Definition object_prefix (orgId projectId : jstr) : jstr := orgId ++ js "/" ++ projectId ++ js "/".

Definition exportProject (fuel : nat) (options : ExportProjectOptions) (now : Z) (bytes : list Z) (now' : Z)
    (w : W) : option (W * result exn StateBackupArchive) :=
  match validateIdentifier (ex_orgId options) ≫= λ _, validateIdentifier (ex_projectId options) with
  | Err e => Some (w, Err e)
  | Ok _ =>
      let functions := export_functions (bw_svc w) (ex_projectId options) in
      match export_kv fuel [ex_orgId options; ex_projectId options] None [] (bw_kv w) with
      | None => None
      | Some (k, Err e) => Some (Build_backup_state (bw_svc w) k (bw_obj w), Err e)
      | Some (k, Ok kvEntries) =>
          match export_objects fuel (object_prefix (ex_orgId options) (ex_projectId options)) None []
                  (bw_obj w) with
          | None => None
          | Some (o, Err e) => Some (Build_backup_state (bw_svc w) k o, Err e)
          | Some (o, Ok objectRecords) =>
              let a := archivePayload options now bytes now' functions kvEntries objectRecords in
              let '(o, r) := store_archive options a o in
              Some (Build_backup_state (bw_svc w) k o, r)
          end
      end
  end.

(** *** Import *)

Section import.
Variable options : ImportProjectOptions.

(** The nested loops over the functions and their revisions, as one loop *)
Definition revision_pairs (a : StateBackupArchive) : list (BackupFunctionRecord * BackupRevisionRecord) :=
  flat_map (λ fn, (λ rev, (fn, rev)) <$> bf_revisions fn) (a_functions a).

Definition target_key (entry : BackupKvEntry) : key :=
  targetOrgId options :: targetProjectId options :: bk_namespace entry :: bk_key entry.

Definition target_object (obj : BackupObjectRecord) : jstr :=
  object_prefix (targetOrgId options) (targetProjectId options) ++ bo_store obj ++ js "/" ++ bo_key obj.

Definition check_kv_path (entry : BackupKvEntry) : result exn unit :=
  throw_if (hasPathTraversal (bk_namespace entry)) ValidationFailedError ≫= λ _,
  for_each (λ seg, throw_if (hasPathTraversal seg) ValidationFailedError) (bk_key entry).

Definition check_object_path (obj : BackupObjectRecord) : result exn unit :=
  throw_if (hasPathTraversal (bo_store obj) || includes (bo_store obj) (js "/") ||
            includes (bo_store obj) (js "\")) ValidationFailedError ≫= λ _,
  throw_if (hasPathTraversal (bo_key obj) || starts_with (bo_key obj) (js "/") ||
            starts_with (bo_key obj) (js "\")) ValidationFailedError.

(** Large objects must be in content-addressed storage. *)
Definition check_large_object (obj : BackupObjectRecord) : stm W exn unit :=
  match bo_dataBase64 obj with
  | Some _ => st_ret tt
  | None =>
      s <~ on_obj (obj_get (artifact_key (bo_sha256 obj))) ;;
      match s with None => st_throw ValidationFailedError | Some _ => st_ret tt end
  end.

Definition check_revision (task : BackupFunctionRecord * BackupRevisionRecord) : stm W exn unit := λ w,
  let '(fn, rev) := task in
  match getRevision (tbl (bw_svc w)) (targetProjectId options) (bf_name fn) (br_id rev) with
  | Some existing =>
      (w, throw_if (negb (jstr_eqb (r_artifactId existing) (br_artifactId rev))) ConflictError)
  | None => (w, Ok tt)
  end.

Fixpoint check_overwrite (seenKeys : list jstr) (entries : list BackupKvEntry) : stm W exn unit :=
  match entries with
  | [] => st_ret tt
  | entry :: entries =>
      let keyStr := str_join (js "/") (target_key entry) in
      st_lift (throw_if (bool_decide (keyStr ∈ seenKeys)) ConflictError) ;;~
      existingVal <~ on_kv (kv_get (target_key entry)) ;;
      st_lift (throw_if match existingVal with Some _ => true | None => false end ConflictError) ;;~
      check_overwrite (set_add seenKeys keyStr) entries
  end.

(** Everything before the first write *)
Definition import_prechecks : stm W exn StateBackupArchive :=
  st_lift (validateIdentifier (targetOrgId options) ≫= λ _, validateIdentifier (targetProjectId options)) ;;~
  let a := archive options in
  st_lift (validateBackupArchive (archive_value a)) ;;~
  st_lift (validateIdentifier (a_orgId a) ≫= λ _, validateIdentifier (a_projectId a)) ;;~
  st_lift (for_each check_kv_path (a_kv a)) ;;~
  st_lift (for_each check_object_path (a_objects a)) ;;~
  st_for_each check_large_object (a_objects a) ;;~
  st_for_each check_revision (revision_pairs a) ;;~
  (if overwriteKv options then st_ret tt else check_overwrite [] (a_kv a)) ;;~
  st_ret a.

Definition restored_record (fn : BackupFunctionRecord) (rev : BackupRevisionRecord) : RevisionRecord :=
  {| r_id := br_id rev; r_project := targetProjectId options; r_functionName := bf_name fn;
     r_artifactId := br_artifactId rev; r_integrity := br_integrity rev; r_state := br_state rev;
     r_createdAt := br_createdAt rev; r_manifest := br_manifest rev |}.

Definition restore_revision (task : BackupFunctionRecord * BackupRevisionRecord) : stm W exn unit :=
  let '(fn, rev) := task in
  let isActive := bool_decide (bf_activeRevisionId fn = Some (br_id rev)) in
  on_svc (restoreRevision (targetProjectId options) (bf_name fn) (restored_record fn rev) isActive).

Definition restore_entry (entry : BackupKvEntry) : stm W exn unit :=
  on_kv (kv_set (target_key entry) (bk_value entry) (bk_ttl entry)).

Definition restore_object (obj : BackupObjectRecord) : stm W exn unit :=
  match bo_dataBase64 obj with
  | Some data =>
      decodedBytes <~ st_lift (decodeBase64 data) ;;
      st_lift (throw_if (negb (jstr_eqb (encodeHex (sha256 decodedBytes)) (bo_sha256 obj)))
                        ValidationFailedError) ;;~
      on_obj (obj_put (target_object obj) decodedBytes)
  | None =>
      s <~ on_obj (obj_get (artifact_key (bo_sha256 obj))) ;;
      match s with
      | None => st_throw ValidationFailedError
      | Some s =>
          bytes <~ st_lift (streamToBytes s) ;;
          st_lift (throw_if (negb (jstr_eqb (encodeHex (sha256 bytes)) (bo_sha256 obj)))
                            ValidationFailedError) ;;~
          on_obj (obj_put (target_object obj) bytes)
      end
  end.

(** The three loops; a counter that is incremented in every iteration is the
    length of the list. *)
Definition restore (a : StateBackupArchive) : stm W exn ImportProjectResult :=
  st_for_each restore_revision (revision_pairs a) ;;~
  st_for_each restore_entry (a_kv a) ;;~
  st_for_each restore_object (a_objects a) ;;~
  st_ret {| restoredRevisions := Z.of_nat (length (revision_pairs a));
            restoredKvKeys := Z.of_nat (length (a_kv a));
            restoredObjects := Z.of_nat (length (a_objects a));
            restoredQueues := Z.of_nat (length (a_queues a)) |}.

Definition importProject : stm W exn ImportProjectResult :=
  a <~ import_prechecks ;; restore a.
End import.
End service.

(** ** Laws of an object provider *)

(** What a put may change.  [obj_names k] are the names on the way to the object
    that the key [k] denotes, [None] for a key that is refused; different keys may
    denote one object.  Below a key without [..] there are only keys of objects
    below its object.  [get] only reads. *)
Class ObjectFrame (Ob : Type) `{ObjectStore Ob} := {
  obj_content : Ob → jstr → option (list Z);
  obj_names : jstr → option (list jstr);
  obj_get_pure o k : (obj_get k o).1 = o;
  obj_put_other o k b k' : obj_names k' ≠ obj_names k → obj_content (obj_put k b o).1 k' = obj_content o k';
  obj_names_below a b :
    a ≠ [] → starts_with a (js "/") = false → includes a (js "..") = false → includes b (js "..") = false →
    ∃ p, obj_names a = Some p ∧ ∀ q, obj_names (a ++ js "/" ++ b) = Some q → p `prefix_of` q
}.

(** A provider that tells different keys apart.  [obj_listing o prefix] is the
    sequence of keys that [list] walks through, in pages; a cursor stands for a
    position in it. *)
Class ObjectLaws (Ob : Type) `{ObjectFrame Ob} := {
  obj_listing : Ob → jstr → list jstr;
  obj_at : Ob → jstr → option jstr → nat → Prop;
  obj_names_inj k k' : obj_names k = obj_names k' → k = k';
  obj_get_None o k : (obj_get k o).2 = Ok None → obj_content o k = None;
  obj_get_Some o k s :
    (obj_get k o).2 = Ok (Some s) → failure s = None → obj_content o k = Some (concat (omap id (reads s)));
  obj_put_spec o k b : (obj_put k b o).2 = Ok tt → obj_content (obj_put k b o).1 k = Some b;
  obj_put_listing o k b prefix :
    starts_with k prefix = false →
    obj_listing (obj_put k b o).1 prefix = obj_listing o prefix ∧
    ∀ c n, obj_at o prefix c n → obj_at (obj_put k b o).1 prefix c n;
  obj_at_start o prefix : obj_at o prefix None 0;
  obj_list_spec o prefix limit cursor n :
    0 < limit ≤ 1000 → obj_at o prefix cursor n →
    ∃ c, obj_list prefix limit cursor o =
           (o, Ok (take (Z.to_nat limit) (drop n (obj_listing o prefix)), c)) ∧
         match c with
         | None => (length (obj_listing o prefix) <= n + Z.to_nat limit)%nat
         | Some _ => (n + Z.to_nat limit < length (obj_listing o prefix))%nat ∧
                     obj_at o prefix c (n + Z.to_nat limit)
         end;
  obj_listing_NoDup o prefix : NoDup (obj_listing o prefix);
  obj_listing_spec o prefix k :
    k ∈ obj_listing o prefix ↔ starts_with k prefix = true ∧ is_Some (obj_content o k)
}.

(** A provider without failures *)
Class ReliableObjects (Ob : Type) `{ObjectLaws Ob} := {
  obj_put_ok o k b : (obj_put k b o).2 = Ok tt;
  obj_get_ok o k : ∃ r, (obj_get k o).2 = Ok r ∧ ∀ s, r = Some s → failure s = None
}.

(** ** Tenant isolation of a restore *)

(** The deployments of every project but [p] *)
Definition same_projects_but (p : jstr) (t t' : tables) : Prop :=
  (∀ p' f i, p' ≠ p → getRevision t' p' f i = getRevision t p' f i) ∧
  (∀ p' f, p' ≠ p → getActivePointer t' p' f = getActivePointer t p' f) ∧
  projectRoutes t' = projectRoutes t ∧ projectMetadata t' = projectMetadata t.

Lemma restoreRevision_same p f r isActive s :
  same_projects_but p (tbl s) (tbl (restoreRevision p f r isActive s).1).
Proof.
  destruct (restore_effect p f r isActive s) as [_ [-> | ->]]; [done|]. split_and!.
  - intros p' f' i Hne. rewrite getRevision_restore. destruct (getRevision _ p f _); [done|].
    by rewrite decide_False by naive_solver.
  - intros p' f' Hne. apply getActivePointer_restore. by intros [= -> _].
  - unfold restore_tables. by destruct isActive, (getRevision _ _ _ _).
  - unfold restore_tables. by destruct isActive, (getRevision _ _ _ _).
Qed.

(** *** Two dots in a row *)
Lemma dots_sep a e b : e ≠ chr "." → includes (a ++ e :: b) (js "..") = includes a (js "..") || includes b (js "..").
Proof.
  intros He. change (js "..") with [chr "."; chr "."]. induction a as [|c a IH]; cbn [app includes].
  - assert (starts_with (e :: b) [chr "."; chr "."] = false) as ->; [|done].
    cbn [starts_with]. destruct (Z.eqb_spec (chr ".") e); [by destruct He|done].
  - rewrite IH, orb_assoc. do 2 f_equal. cbn [starts_with]. f_equal. destruct a as [|d a]; [|done].
    cbn [app starts_with]. by destruct (Z.eqb_spec (chr ".") e); [destruct He|].
Qed.

Lemma dots_app a b : chr "." ∉ a ∨ chr "." ∉ b → includes (a ++ b) (js "..") = true →
  includes a (js "..") = true ∨ includes b (js "..") = true.
Proof.
  intros Hab (x & y & Heq)%includes_spec. change (js "..") with [chr "."; chr "."] in *.
  revert x Heq. induction a as [|c a IH]; intros x Heq; cbn [app] in Heq.
  - right. apply includes_spec. by exists x, y.
  - destruct x as [|d x]; cbn [app] in Heq.
    + injection Heq as -> Heq. destruct Hab as [Ha|Hb]; [by destruct Ha; left|].
      destruct a as [|d a]; [cbn in Heq; subst b; by destruct Hb; left|]. injection Heq as -> _.
      left. apply includes_spec. by exists [], a.
    + injection Heq as -> Heq. destruct (IH ltac:(set_solver) x Heq) as [H|H]; [left|by right].
      change (d :: a) with ([d] ++ a). by apply includes_app_r.
Qed.

Lemma trim_parts i : ∃ l r, i = l ++ trim i ++ r ∧ Forall (λ c, is_space c = true) l ∧ Forall (λ c, is_space c = true) r.
Proof.
  destruct (trim_start_suffix i) as (l & Hl & Hsl). destruct (trim_start_suffix (rev (trim_start i))) as (r & Hr & Hsr).
  exists l, (rev r). split_and!; [|done|by apply Forall_rev].
  rewrite Hl at 1. f_equal. unfold trim, trim_end. rewrite <-(rev_involutive (trim_start i)) at 1. rewrite Hr at 1.
  by rewrite rev_app_distr.
Qed.

Lemma identifier_ok i : validateIdentifier i = Ok tt → i ≠ [] ∧ chr "/" ∉ i ∧ includes i (js "..") = false.
Proof.
  unfold validateIdentifier. intros (_ & H1%throw_if_Ok & (_ & H2%throw_if_Ok & _)%bind_Ok)%bind_Ok.
  rewrite !orb_false_iff in H2. destruct H2 as (((((H2 & _) & _) & H3) & _) & _).
  assert (∀ c l, is_space c = false → Forall (λ c, is_space c = true) l → c ∉ l) as Hsp.
  { intros c l Hc Hl Hin. rewrite Forall_forall in Hl. rewrite (Hl c Hin) in Hc. done. }
  destruct (trim_parts i) as (l & r & Hi & Hl & Hr). split_and!; [by intros ->| |].
  - rewrite Hi, !not_elem_of_app. split_and!; [by apply Hsp| |by apply Hsp].
    by apply includes_singleton_false.
  - rewrite Hi. apply not_true_iff_false. intros [H|[H|H]%dots_app]%dots_app; [..|right; by apply Hsp|left; by apply Hsp].
    + apply includes_spec in H as (x & y & ->). by apply Forall_app in Hl as [_ [? _]%Forall_cons].
    + congruence.
    + apply includes_spec in H as (x & y & ->). by apply Forall_app in Hr as [_ [? _]%Forall_cons].
Qed.

Section confinement.
Context `{Hashing}.
Context {K Ob : Type} `{KvSetLaws K jsval, !KvLister K jsval, ObjectFrame Ob}.
Context (decodeBase64 : jstr → result exn (list Z)).
Variable options : ImportProjectOptions.
Implicit Types w : backup_state K Ob.

(** The keys of the archive are lists of JavaScript strings for the provider. *)
Definition entries_wf : Prop := Forall (λ e, kv_wf (target_key options e)) (a_kv (archive options)).

(** The directory of the target tenant: what its prefix denotes *)
Definition target_dir : option (list jstr) := obj_names (targetOrgId options ++ js "/" ++ targetProjectId options).

(** The key denotes an object that is not in that directory. *)
Definition elsewhere (k : jstr) : Prop :=
  ∃ d p, target_dir = Some d ∧ obj_names k = Some p ∧ ¬ d `prefix_of` p.

(** What the restore may change, compared with the state [w0] before it *)
Record confined w0 w : Prop := {
  conf_inv : kv_inv (bw_kv w);
  conf_kv k : kv_wf k → ¬ [targetOrgId options; targetProjectId options] `prefix_of` k →
    kv_entry (bw_kv w) k = kv_entry (bw_kv w0) k;
  conf_objects k : elsewhere k → obj_content (bw_obj w) k = obj_content (bw_obj w0) k;
  conf_projects : same_projects_but (targetProjectId options) (tbl (bw_svc w0)) (tbl (bw_svc w))
}.

(** What the checks before the first write leave as it is: everything *)
Record untouched w0 w : Prop := {
  unt_inv : kv_inv (bw_kv w);
  unt_kv k : kv_wf k → kv_entry (bw_kv w) k = kv_entry (bw_kv w0) k;
  unt_objects : bw_obj w = bw_obj w0;
  unt_svc : bw_svc w = bw_svc w0
}.

Lemma keeps_obj_get w0 k : st_keeps (untouched w0) (on_obj (K := K) (obj_get k)).
Proof.
  intros [s kv o] [Hi Hk Ho Hs]. unfold on_obj. cbn in *. pose proof (obj_get_pure o k) as Hp.
  destruct (obj_get k o) as [o' r]. cbn in Hp. subst o'. by split.
Qed.

Lemma keeps_kv_get w0 k : kv_wf k → st_keeps (untouched w0) (on_kv (Ob := Ob) (kv_get k)).
Proof.
  intros Hwf [s kv o] [Hi Hk Ho Hs]. unfold on_kv. cbn in *.
  assert (∀ k', kv_wf k' → kv_inv (kv_get k kv).1 ∧ kv_entry (kv_get k kv).1 k' = kv_entry kv k') as Hf.
  { intros k' Hk'. by apply (kv_frame kv k' Hi Hk'). }
  destruct (kv_get k kv) as [kv' r]. cbn in *. split; cbn; [by apply (Hf k)| |done..].
  intros k' Hk'. destruct (Hf k' Hk') as [_ ->]. by apply Hk.
Qed.

Lemma keeps_check_large w0 obj : st_keeps (untouched w0) (check_large_object (K := K) obj).
Proof.
  unfold check_large_object. destruct (bo_dataBase64 obj); [apply keeps_ret|].
  apply keeps_bind; [apply keeps_obj_get|]. intros []; auto with railfog.
Qed.

Lemma keeps_check_revision w0 task :
  st_keeps (untouched w0) (check_revision options (K := K) (Ob := Ob) task).
Proof. intros w Hw. unfold check_revision. destruct task as [fn rev]. by destruct (getRevision _ _ _ _). Qed.

Lemma keeps_check_overwrite w0 seen entries :
  Forall (λ e, kv_wf (target_key options e)) entries →
  st_keeps (untouched w0) (check_overwrite options (Ob := Ob) seen entries).
Proof.
  intros He. revert seen. induction He as [|e entries Hwf _ IH]; intros seen; [apply keeps_ret|].
  cbn [check_overwrite]. apply keeps_bind; [apply keeps_lift|]. intros _.
  apply keeps_bind; [by apply keeps_kv_get|]. intros v.
  apply keeps_bind; [apply keeps_lift|]. intros _. apply IH.
Qed.

(** The checks change nothing, whatever they find. *)
Lemma keeps_prechecks w0 : entries_wf → st_keeps (untouched w0) (import_prechecks options (Ob := Ob)).
Proof.
  intros Hwf. unfold import_prechecks.
  do 5 (apply keeps_bind; [apply keeps_lift|intros _]).
  apply keeps_bind; [|intros _; apply keeps_bind; [|intros _; apply keeps_bind; [|intros _; apply keeps_ret]]].
  - apply keeps_for_each. intros obj _. apply keeps_check_large.
  - apply keeps_for_each. intros task _. apply keeps_check_revision.
  - destruct (overwriteKv options); [apply keeps_ret|]. by apply keeps_check_overwrite.
Qed.

Lemma untouched_confined w0 w : untouched w0 w → confined w0 w.
Proof. intros [Hi Hk Ho Hs]. split; [done|auto|by rewrite Ho|by rewrite Hs]. Qed.

Lemma same_projects_trans p t1 t2 t3 :
  same_projects_but p t1 t2 → same_projects_but p t2 t3 → same_projects_but p t1 t3.
Proof.
  intros (E1 & E2 & E3 & E4) (G1 & G2 & G3 & G4). split_and!; [|by intros; rewrite G2, E2|congruence..].
  intros. by rewrite G1, E1.
Qed.

Lemma keeps_restore_revision w0 task :
  st_keeps (confined w0) (restore_revision options (K := K) (Ob := Ob) task).
Proof.
  destruct task as [fn rev]. intros [s kv o] [Hi Hk Ho Hs]. unfold restore_revision, on_svc. cbn in *.
  match goal with |- context [restoreRevision ?p ?f ?r ?a s] => pose proof (restoreRevision_same p f r a s) as Hr end.
  destruct (restoreRevision _ _ _ _ _) as [s' r]. cbn in *. split; try done.
  by eapply same_projects_trans.
Qed.

Lemma keeps_restore_entry w0 e :
  kv_wf (target_key options e) → st_keeps (confined w0) (restore_entry options (Ob := Ob) e).
Proof.
  intros Hwf [s kv o] [Hi Hk Ho Hs]. unfold restore_entry, on_kv. cbn in *.
  pose proof (kv_set_inv kv (target_key options e) (bk_value e) (bk_ttl e) Hi Hwf) as Hi'.
  assert (∀ k', kv_wf k' → k' ≠ target_key options e →
    kv_entry (kv_set (target_key options e) (bk_value e) (bk_ttl e) kv).1 k' = kv_entry kv k') as Hf.
  { intros k' Hk' Hne. by apply (kv_frame kv k' Hi Hk'). }
  destruct (kv_set _ _ _ kv) as [kv' r]. cbn in *. split; try done. cbn. intros k Hwk Hout.
  rewrite Hf; [by apply Hk|done|]. intros ->. apply Hout. by eexists.
Qed.

Lemma target_object_prefix obj :
  starts_with (target_object options obj) (object_prefix (targetOrgId options) (targetProjectId options)) = true.
Proof. apply starts_with_app. Qed.

(** The checks of the identifiers and of the objects' paths *)
Definition ids_ok : Prop :=
  (validateIdentifier (targetOrgId options) ≫= λ _, validateIdentifier (targetProjectId options)) = Ok tt.

(** Objects are restored into the target's directory. *)
Lemma target_object_inside obj k : ids_ok → check_object_path obj = Ok tt → elsewhere k →
  obj_names k ≠ obj_names (target_object options obj).
Proof.
  intros ([] & (Ho & Hos & Hod)%identifier_ok & (Hp & Hps & Hpd)%identifier_ok)%bind_Ok Hobj (d & p & Hd & Hk & Hout) Heq.
  unfold check_object_path in Hobj. apply bind_Ok in Hobj as (_ & Hs%throw_if_Ok & Hb%throw_if_Ok).
  unfold hasPathTraversal in Hs, Hb. rewrite !orb_false_iff in Hs, Hb.
  destruct Hs as (((((Hs & _) & _) & _) & _) & _), Hb as (((((Hb & _) & _) & _) & _) & _).
  assert (chr "/" ≠ chr ".") as Hne by done.
  destruct (obj_names_below (targetOrgId options ++ js "/" ++ targetProjectId options)
    (bo_store obj ++ js "/" ++ bo_key obj)) as (d' & Hd' & Hbelow).
  - by destruct (targetOrgId options).
  - destruct (targetOrgId options) as [|c org]; [done|]. cbn. rewrite andb_true_r. apply Z.eqb_neq. intros <-.
    destruct Hos. by left.
  - change (js "/") with [chr "/"]. cbn [app]. by rewrite dots_sep, Hod, Hpd.
  - change (js "/") with [chr "/"]. cbn [app]. by rewrite dots_sep, Hs, Hb.
  - unfold target_dir in Hd. rewrite Hd in Hd'. injection Hd' as <-. apply Hout, Hbelow.
    rewrite <-Hk, Heq. unfold target_object, object_prefix. by rewrite <-!app_assoc.
Qed.

Lemma keeps_put w0 obj b : ids_ok → check_object_path obj = Ok tt →
  st_keeps (confined w0) (on_obj (K := K) (obj_put (target_object options obj) b)).
Proof.
  intros Hids Hobj [s kv o] [Hi Hk Ho Hs]. unfold on_obj. cbn in *.
  pose proof (obj_put_other o (target_object options obj) b) as Hp.
  destruct (obj_put _ _ o) as [o' r]. cbn in *. split; try done. cbn. intros k Hout.
  rewrite Hp; [by apply Ho|by apply target_object_inside].
Qed.

Lemma keeps_get_confined w0 k : st_keeps (confined w0) (on_obj (K := K) (obj_get k)).
Proof.
  intros [s kv o] Hw. unfold on_obj. cbn in *. pose proof (obj_get_pure o k) as Hp.
  destruct (obj_get k o) as [o' r]. cbn in Hp. by subst o'.
Qed.

Lemma keeps_restore_object w0 obj : ids_ok → check_object_path obj = Ok tt →
  st_keeps (confined w0) (restore_object decodeBase64 options (K := K) obj).
Proof.
  intros Hids Hobj. unfold restore_object. destruct (bo_dataBase64 obj) as [data|].
  - apply keeps_bind; [apply keeps_lift|intros b]. apply keeps_bind; [apply keeps_lift|intros _]. by apply keeps_put.
  - apply keeps_bind; [apply keeps_get_confined|intros [s|]; [|apply keeps_throw]].
    apply keeps_bind; [apply keeps_lift|intros b]. apply keeps_bind; [apply keeps_lift|intros _]. by apply keeps_put.
Qed.

Lemma keeps_restore w0 : entries_wf → ids_ok → Forall (λ obj, check_object_path obj = Ok tt) (a_objects (archive options)) →
  st_keeps (confined w0) (restore decodeBase64 options (K := K) (Ob := Ob) (archive options)).
Proof.
  intros Hwf Hids Hobjs. unfold restore.
  apply keeps_bind; [|intros _; apply keeps_bind; [|intros _; apply keeps_bind; [|intros _; apply keeps_ret]]].
  - apply keeps_for_each. intros task _. apply keeps_restore_revision.
  - apply keeps_for_each. intros e He. apply keeps_restore_entry. by eapply Forall_forall in Hwf.
  - apply keeps_for_each. intros obj Hobj. apply keeps_restore_object; [done|].
    rewrite Forall_forall in Hobjs. by apply Hobjs.
Qed.

Lemma prechecks_archive w w' a : import_prechecks options w = (w', Ok a) →
  a = archive options ∧ ids_ok ∧ Forall (λ obj, check_object_path obj = Ok tt) (a_objects a).
Proof.
  unfold import_prechecks. rewrite st_bind_Ok. intros (? & [] & [_ Hids]%st_lift_Ok & Hp).
  do 3 (apply st_bind_Ok in Hp as (? & ? & _ & Hp)).
  apply st_bind_Ok in Hp as (? & [] & [_ Hobjs]%st_lift_Ok & Hp).
  do 3 (apply st_bind_Ok in Hp as (? & ? & _ & Hp)). injection Hp as _ <-.
  split_and!; [done|exact Hids|]. by apply for_each_Ok in Hobjs.
Qed.

End confinement.
