(* ===== verification/BackupRestore.v ===== *)
(** * Export followed by import ([apps/api/state-backup-service.ts])

    What an export gathers, what an import leaves behind, and the round trip of
    a project through an archive. *)

From S2P Require Import Prelude JsString JsMap JsNumber JsValue Errors Utf8 Ulid KvInterface SqliteKv.
From S2P Require Import Packager Deployment ArchiveSchema StateBackup.

Open Scope Z_scope.
Open Scope railfog_scope.

(** ** Loops that write distinct keys *)

Lemma for_each_writes {S E X Y} (key_of : X → Y) (I : S → Prop) (wrote : S → X → Prop)
    (f : X → stm S E unit) xs s :
  (∀ x s, x ∈ xs → I s → ∃ s', f x s = (s', Ok tt) ∧ I s' ∧ wrote s' x ∧
     ∀ y, y ∈ xs → key_of y ≠ key_of x → wrote s y → wrote s' y) →
  NoDup (key_of <$> xs) → I s →
  ∃ s', st_for_each f xs s = (s', Ok tt) ∧ I s' ∧ ∀ x, x ∈ xs → wrote s' x.
Proof.
  intros Hf Hnd Hs.
  assert (∀ done todo s, xs = done ++ todo → I s → (∀ x, x ∈ done → wrote s x) →
    ∃ s', st_for_each f todo s = (s', Ok tt) ∧ I s' ∧ ∀ x, x ∈ xs → wrote s' x) as Hgen.
  { intros dn todo. revert dn. induction todo as [|x todo IH]; intros dn s0 Hxs H0 Hdn.
    { exists s0. rewrite app_nil_r in Hxs. subst dn. done. }
    destruct (Hf x s0 ltac:(rewrite Hxs; set_solver) H0) as (s1 & Hx & H1 & Hw & Hkeep).
    destruct (IH (dn ++ [x]) s1) as (s' & Hr & H' & Hall); [by rewrite <-app_assoc|done| |].
    - intros y [Hy|Hy%list_elem_of_singleton]%elem_of_app; [|by subst].
      apply Hkeep; [rewrite Hxs; set_solver| |by apply Hdn].
      intros Heq. rewrite Hxs, fmap_app, fmap_cons in Hnd. apply NoDup_app in Hnd as (_ & Hn & _).
      apply (Hn (key_of y)); [by apply list_elem_of_fmap_2|rewrite Heq; by left].
    - exists s'. split; [|done]. apply st_for_each_cons_Ok. by exists s1. }
  apply (Hgen [] xs s); [done|done|set_solver].
Qed.

(** ** Listing a project's functions *)

Section tables.
Context (t : tables) (p : jstr).
Hypothesis Hwf : tables_wf t.

Lemma project_wf fnMap : map_get (revisions t) p = Some fnMap → map_wf fnMap ∧ Forall (λ e, revs_wf e.2) fnMap.
Proof.
  intros Hm%map_get_elem. destruct Hwf as [[_ Hr] _ _ _].
  exact (proj1 (Forall_forall _ _) Hr (p, fnMap) Hm).
Qed.

Lemma listFunctions_NoDup : NoDup (listFunctions t p).
Proof.
  unfold listFunctions. destruct (map_get (revisions t) p) eqn:E; [|constructor].
  by apply project_wf in E as [? _].
Qed.

Lemma listFunctions_elem f i r : getRevision t p f i = Some r → f ∈ listFunctions t p.
Proof.
  unfold getRevision, listFunctions. destruct (map_get (revisions t) p) as [m|]; [|done]. cbn.
  destruct (map_get m f) as [rm|] eqn:E; [|done]. intros _. apply map_get_elem in E.
  by apply (list_elem_of_fmap_2 fst) in E.
Qed.

Lemma function_wf f rm :
  (map_get (revisions t) p ≫= λ fnMap, map_get fnMap f) = Some rm → revs_wf rm.
Proof.
  destruct (map_get (revisions t) p) as [m|] eqn:E; [|done]. cbn. intros Hf%map_get_elem.
  apply project_wf in E as [_ Hm].
  exact (proj1 (Forall_forall _ _) Hm (f, rm) Hf).
Qed.

Lemma listRevisions_elem f r : r ∈ listRevisions t p f ↔ getRevision t p f (r_id r) = Some r.
Proof.
  unfold listRevisions, getRevision. pose proof (function_wf f) as Hrm.
  destruct (map_get (revisions t) p) as [m|]; cbn in *; [|set_solver].
  destruct (map_get m f) as [rm|]; cbn in *; [|set_solver].
  destruct (Hrm rm eq_refl) as [Hnd Hids]. unfold map_values. split.
  - intros ([i r'] & -> & Hin)%list_elem_of_fmap. cbn in *. apply elem_map_get; [done|].
    pose proof (proj1 (Forall_forall _ _) Hids (i, r') Hin) as Hid. cbn in Hid. by subst i.
  - intros Hr%map_get_elem. by apply (list_elem_of_fmap_2 snd) in Hr.
Qed.

Lemma listRevisions_NoDup f : NoDup (r_id <$> listRevisions t p f).
Proof.
  unfold listRevisions. pose proof (function_wf f) as Hrm.
  destruct (map_get (revisions t) p ≫= _) as [rm|]; [|constructor].
  destruct (Hrm rm eq_refl) as [Hnd Hids]. unfold map_values. rewrite <-list_fmap_compose.
  assert ((r_id ∘ snd) <$> rm = map_keys rm) as ->; [|done].
  unfold map_keys. clear Hrm Hnd. induction Hids as [|e rm He _ IH]; [done|]. by rewrite !fmap_cons, IH, <-He.
Qed.

(** The identifiers of a function's records are those it is looked up by. *)
Lemma getRevision_id f i r : getRevision t p f i = Some r → r_id r = i.
Proof.
  unfold getRevision. pose proof (function_wf f) as Hrm.
  destruct (map_get (revisions t) p) as [m|]; cbn in *; [|done].
  destruct (map_get m f) as [rm|]; cbn in *; [|done]. intros Hi%map_get_elem.
  destruct (Hrm rm eq_refl) as [_ Hids].
  exact (proj1 (Forall_forall _ _) Hids (i, r) Hi).
Qed.
End tables.

(** The exported functions: one record per name, one per revision of it *)
Lemma export_functions_names s p : bf_name <$> export_functions s p = listFunctions (tbl s) p.
Proof. unfold export_functions. rewrite <-list_fmap_compose. apply list_fmap_id. Qed.

Lemma export_functions_elem s p fn :
  fn ∈ export_functions s p → bf_activeRevisionId fn = getActivePointer (tbl s) p (bf_name fn) ∧
    bf_revisions fn = backup_revision <$> listRevisions (tbl s) p (bf_name fn).
Proof. by intros (f & -> & _)%list_elem_of_fmap. Qed.

Lemma export_functions_of s p f : f ∈ listFunctions (tbl s) p → ∃ fn, fn ∈ export_functions s p ∧ bf_name fn = f.
Proof.
  rewrite <-export_functions_names. intros (fn & -> & Hfn)%list_elem_of_fmap. by exists fn.
Qed.

Lemma elem_revision_pairs a fn rev : (fn, rev) ∈ revision_pairs a ↔ fn ∈ a_functions a ∧ rev ∈ bf_revisions fn.
Proof.
  unfold revision_pairs. generalize (a_functions a) as l. intros l.
  induction l as [|f l IH]; cbn; [set_solver|]. rewrite elem_of_app, IH, list_elem_of_fmap. set_solver.
Qed.

Definition pair_key (task : BackupFunctionRecord * BackupRevisionRecord) : jstr * jstr :=
  (bf_name task.1, br_id task.2).

Lemma export_pairs_NoDup s p a :
  tables_wf (tbl s) → a_functions a = export_functions s p → NoDup (pair_key <$> revision_pairs a).
Proof.
  intros Hwf Ha. unfold revision_pairs. rewrite Ha. unfold export_functions.
  pose proof (listFunctions_NoDup (tbl s) p Hwf) as Hnd. revert Hnd.
  generalize (listFunctions (tbl s) p) as fs. intros fs. induction fs as [|f fs IH]; intros Hnd; [constructor|].
  apply NoDup_cons in Hnd as [Hf Hnd]. cbn [fmap list_fmap flat_map]. rewrite fmap_app.
  apply NoDup_app. split_and!; [| |by apply IH].
  - cbn [bf_revisions]. rewrite <-!list_fmap_compose.
    pose proof (listRevisions_NoDup (tbl s) p Hwf f) as Hr.
    apply (NoDup_fmap_2 (λ i, (f, i))) in Hr. by rewrite <-list_fmap_compose in Hr.
  - cbn [bf_revisions]. intros [f' i] ([? ?] & [= -> ->] & Hin)%list_elem_of_fmap.
    apply list_elem_of_fmap in Hin as (? & [= -> ->] & _). cbn. intros Hin.
    apply list_elem_of_fmap in Hin as ([fn rev] & [= Hn _] & Hin).
    apply Hf. cbn in Hn. clear -Hin Hn. induction fs as [|g fs IH]; cbn in Hin; [set_solver|].
    apply elem_of_app in Hin as [Hin|Hin]; [|right; by apply IH].
    apply list_elem_of_fmap in Hin as (? & [= -> _] & _). cbn in Hn. subst. by left.
Qed.

(** ** Slashes *)

Definition slashes (s : jstr) : nat := length (filter (λ c, c = chr "/") s).

Lemma slashes_app a b : slashes (a ++ b) = (slashes a + slashes b)%nat.
Proof. unfold slashes. by rewrite filter_app, length_app. Qed.

Lemma slashes_none s : chr "/" ∉ s → slashes s = 0%nat.
Proof.
  intros Hs. unfold slashes. rewrite filter_none; [done|].
  apply Forall_forall. intros c Hc ->. done.
Qed.

Lemma object_prefix_slashes org project k :
  starts_with k (object_prefix org project) = true → (2 <= slashes k)%nat.
Proof.
  intros [r ->]%starts_with_spec. unfold object_prefix. rewrite !slashes_app.
  change (slashes (js "/")) with 1%nat. lia.
Qed.

Lemma hex_no_slash s : forallb is_hex_lower s = true → chr "/" ∉ s.
Proof. rewrite forallb_forall. intros Hs Hin%list_elem_of_In%Hs. vm_compute in Hin. done. Qed.

Lemma artifact_key_slashes sha : forallb is_hex_lower sha = true → slashes (artifact_key sha) = 1%nat.
Proof. intros Hs%hex_no_slash. unfold artifact_key. rewrite slashes_app, (slashes_none sha) by done. done. Qed.

Lemma target_object_slashes options obj : (2 <= slashes (target_object options obj))%nat.
Proof. eapply object_prefix_slashes, target_object_prefix. Qed.

Lemma slash_free s : chr "/" ∉ s → ∀ rest, index_of (s ++ js "/" ++ rest) (js "/") = Some (length s).
Proof.
  intros Hs rest. by apply index_of_char.
Qed.

(** ** Export *)

Lemma copy_chunks_spec done cs n :
  n = length (concat cs) →
  copy_chunks (done ++ replicate n 0) (length done) cs = done ++ concat cs.
Proof.
  revert done n. induction cs as [|c cs IH]; intros dn n ->; cbn [copy_chunks concat]; [done|].
  rewrite length_app. assert (set_at (dn ++ replicate (length c + length (concat cs)) 0) (length dn) c =
    (dn ++ c) ++ replicate (length (concat cs)) 0) as ->.
  { unfold set_at. rewrite take_app_length, drop_app_ge by lia.
    replace (length dn + length c - length dn)%nat with (length c) by lia.
    rewrite drop_replicate. replace (length c + length (concat cs) - length c)%nat with (length (concat cs)) by lia.
    by rewrite app_assoc. }
  rewrite <-length_app, (IH (dn ++ c)) by done. by rewrite <-app_assoc.
Qed.

(** The chunks are joined, whatever their number and sizes. *)
Lemma streamToBytes_spec s : failure s = None → streamToBytes s = Ok (concat (omap id (reads s))).
Proof.
  intros Hf. unfold streamToBytes. rewrite Hf. f_equal.
  apply (copy_chunks_spec []). generalize (omap id (reads s)) as cs. intros cs.
  rewrite fold_left_rev_right. assert (∀ n, fold_left (λ y x, y + length x)%nat cs n = n + length (concat cs))%nat as ->.
  { induction cs as [|c cs IH]; intros n; cbn; [lia|]. rewrite IH, length_app. lia. }
  done.
Qed.

Section export.
Context `{HashingLaws}.
Context {K Ob : Type} `{KvListLaws K jsval, ReliableObjects Ob}.

Lemma obj_read (o : Ob) k :
  match obj_content o k with
  | Some b => ∃ s, obj_get k o = (o, Ok (Some s)) ∧ streamToBytes s = Ok b
  | None => obj_get k o = (o, Ok None)
  end.
Proof.
  pose proof (obj_get_pure o k) as Hp. pose proof (obj_get_None o k) as Hn. pose proof (obj_get_Some o k) as Hs.
  destruct (obj_get_ok o k) as ([s|] & Hr & Hf); destruct (obj_get k o) as [o' r]; cbn in *; subst.
  - specialize (Hf s eq_refl). rewrite (Hs s eq_refl Hf). exists s. split; [done|]. by apply streamToBytes_spec.
  - by rewrite Hn.
Qed.

Lemma obj_write (o : Ob) k b : ∃ o', obj_put k b o = (o', Ok tt) ∧ obj_content o' k = Some b ∧
  ∀ k', k' ≠ k → obj_content o' k' = obj_content o k'.
Proof.
  pose proof (obj_put_ok o k b) as Ho. pose proof (obj_put_spec o k b Ho) as Hs.
  assert (∀ k', k' ≠ k → obj_content (obj_put k b o).1 k' = obj_content o k') as Hf.
  { intros k' Hne. apply obj_put_other. by intros ?%obj_names_inj. }
  destruct (obj_put k b o) as [o' r]. cbn in *. subst r. by exists o'.
Qed.

Lemma export_kv_spec prefix k :
  kv_list_inv k → kv_valid prefix →
  ∀ fuel cursor acc n, kv_at k prefix cursor n → (length (kv_listing k prefix) - n < fuel)%nat →
  export_kv fuel prefix cursor acc k = Some (k, Ok (acc ++ omap kv_record (drop n (kv_listing k prefix)))).
Proof.
  intros Hi Hv. induction fuel as [|fuel IH]; intros cursor acc n Hat Hf; [lia|]. cbn [export_kv].
  destruct (kv_list_spec k prefix 1000 cursor n Hi Hv ltac:(lia) Hat) as (c & -> & Hc). cbn [page_keys page_cursor].
  set (m := Z.to_nat 1000) in *. assert (0 < m)%nat by (unfold m; lia).
  destruct c as [c|].
  - destruct Hc as [Hlen Hat']. rewrite (IH _ _ (n + m)%nat Hat') by lia. do 3 f_equal.
    rewrite <-app_assoc. f_equal. rewrite <-omap_app. f_equal. rewrite <-drop_drop. apply take_drop.
  - by rewrite take_ge by (rewrite length_drop; lia).
Qed.

(** The record of an object *)
Definition object_record (objPrefix fullKey : jstr) (bytes : list Z) : option BackupObjectRecord :=
  let rel := slice_from (length objPrefix) fullKey in
  (λ slashIdx,
     {| bo_store := take slashIdx rel; bo_key := slice_from (slashIdx + 1) rel;
        bo_sizeBytes := Z.of_nat (length bytes); bo_sha256 := encodeHex (sha256 bytes);
        bo_integrity := js "sha256-" ++ encodeBase64 (sha256 bytes);
        bo_dataBase64 := if Z.of_nat (length bytes) <? MAX_INLINE_OBJECT_BYTES
                         then Some (encodeBase64 bytes) else None |}) <$> index_of rel (js "/").

Definition sha_of (bytes : list Z) : jstr := encodeHex (sha256 bytes).

(** Content-addressed storage holds the large objects of [rs]. *)
Definition payloads_stored (rs : list BackupObjectRecord) (o : Ob) : Prop :=
  ∀ r, r ∈ rs → bo_dataBase64 r = None →
  ∃ b, obj_content o (artifact_key (bo_sha256 r)) = Some b ∧ sha_of b = bo_sha256 r.

(** [o] differs from [o0] by objects in content-addressed storage only. *)
Record archived (o0 o : Ob) (prefix : jstr) (rs : list BackupObjectRecord) : Prop := {
  arc_content k : slashes k ≠ 1%nat → obj_content o k = obj_content o0 k;
  arc_listing : obj_listing o prefix = obj_listing o0 prefix;
  arc_large : payloads_stored rs o
}.

Lemma artifact_not_below org project sha :
  forallb is_hex_lower sha = true → starts_with (artifact_key sha) (object_prefix org project) = false.
Proof.
  intros Hs%artifact_key_slashes. destruct (starts_with _ _) eqn:E; [|done].
  apply object_prefix_slashes in E. lia.
Qed.

Lemma artifact_key_inj a b : artifact_key a = artifact_key b → a = b.
Proof. unfold artifact_key. apply app_inv_head. Qed.

Lemma export_object_spec org project o0 rs (o : Ob) k b :
  let prefix := object_prefix org project in
  archived o0 o prefix rs → starts_with k prefix = true → obj_content o0 k = Some b →
  ∃ o', export_object prefix k o = (o', Ok (object_record prefix k b)) ∧
        archived o0 o' prefix (rs ++ option_list (object_record prefix k b)) ∧
        ∀ c n, obj_at o prefix c n → obj_at o' prefix c n.
Proof.
  intros prefix Harc Hk Hb. pose proof (object_prefix_slashes _ _ _ Hk) as Hsl.
  rewrite <-(arc_content _ _ _ _ Harc) in Hb by lia. pose proof (obj_read o k) as Hr. rewrite Hb in Hr.
  destruct Hr as (s & Hget & Hs). unfold export_object, object_record. rewrite Hk. cbn [negb].
  destruct (index_of _ _) as [i|]; [|exists o; rewrite app_nil_r; done].
  cbn [fmap option_fmap option_map option_list]. unfold st_bind, st_lift, st_ret. rewrite Hget, Hs.
  destruct (Z.ltb_spec (Z.of_nat (length b)) MAX_INLINE_OBJECT_BYTES) as [Hl|Hl].
  - exists o. split; [done|split; [|done]]. destruct Harc as [Hc Hli Hla]. split; [done..|].
    intros r [Hr|Hr%list_elem_of_singleton]%elem_of_app; [by apply Hla|by subst r].
  - pose proof (hex_digest_chars b) as Hhex.
    destruct (obj_write o (artifact_key (sha_of b)) b) as (o' & Hput & Hat & Hother).
    pose proof (obj_put_listing o (artifact_key (sha_of b)) b prefix (artifact_not_below _ _ _ Hhex)) as [Hli Hcur].
    unfold sha_of in *. rewrite Hput in Hli, Hcur |- *. cbn in Hli, Hcur.
    exists o'. split; [done|split; [|done]]. destruct Harc as [Hc Hli0 Hla]. split.
    + intros k' Hk'. rewrite Hother; [by apply Hc|]. intros ->. by rewrite (artifact_key_slashes _ Hhex) in Hk'.
    + by rewrite Hli.
    + intros r [Hr|Hr%list_elem_of_singleton]%elem_of_app Hn; [|subst r; by exists b].
      destruct (decide (bo_sha256 r = encodeHex (sha256 b))) as [Heq|Hne].
      * exists b. split; [by rewrite Heq|by rewrite Heq].
      * destruct (Hla r Hr Hn) as (b' & Hb' & Hsha). exists b'. split; [|done].
        rewrite Hother; [done|]. by intros ?%artifact_key_inj.
Qed.

(** What the export of the objects below [keys] yields *)
Definition object_records (o : Ob) (prefix : jstr) (keys : list jstr) : list BackupObjectRecord :=
  omap (λ k, obj_content o k ≫= object_record prefix k) keys.

Lemma export_page_spec org project o0 keys : 
  let prefix := object_prefix org project in
  Forall (λ k, starts_with k prefix = true ∧ is_Some (obj_content o0 k)) keys →
  ∀ rs (o : Ob), archived o0 o prefix rs →
  ∃ o', export_page prefix keys rs o = (o', Ok (rs ++ object_records o0 prefix keys)) ∧
        archived o0 o' prefix (rs ++ object_records o0 prefix keys) ∧
        ∀ c n, obj_at o prefix c n → obj_at o' prefix c n.
Proof.
  intros prefix. induction 1 as [|k keys [Hk [b Hb]] _ IH]; intros rs o Harc.
  { exists o. cbn. rewrite app_nil_r. done. }
  destruct (export_object_spec org project o0 rs o k b Harc Hk Hb) as (o1 & He & Ha1 & Hat1).
  destruct (IH _ o1 Ha1) as (o2 & Hp & Ha2 & Hat2). exists o2.
  assert (object_records o0 prefix (k :: keys) =
    option_list (object_record prefix k b) ++ object_records o0 prefix keys) as ->.
  { unfold object_records. cbn [omap list_omap]. rewrite Hb. cbn. by destruct (object_record prefix k b). }
  rewrite app_assoc. split_and!; [|done|auto]. cbn [export_page]. unfold st_bind. fold prefix in He. rewrite He.
  fold prefix in Hp. rewrite <-Hp. by destruct (object_record prefix k b).
Qed.

Lemma export_objects_spec org project o0 :
  let prefix := object_prefix org project in
  ∀ fuel cursor rs n (o : Ob), archived o0 o prefix rs → obj_at o prefix cursor n →
  (length (obj_listing o0 prefix) - n < fuel)%nat →
  let rs' := rs ++ object_records o0 prefix (drop n (obj_listing o0 prefix)) in
  ∃ o', export_objects fuel prefix cursor rs o = Some (o', Ok rs') ∧ archived o0 o' prefix rs'.
Proof.
  intros prefix. induction fuel as [|fuel IH]; intros cursor rs n o Harc Hat Hf; [lia|]. cbn [export_objects].
  destruct (obj_list_spec o prefix 1000 cursor n ltac:(lia) Hat) as (c & -> & Hc).
  rewrite (arc_listing _ _ _ _ Harc) in *. set (m := Z.to_nat 1000) in *. assert (0 < m)%nat by (unfold m; lia).
  set (L := obj_listing o0 prefix) in *.
  destruct (export_page_spec org project o0 (take m (drop n L))) with (rs := rs) (o := o) as (o1 & Hp & Ha1 & Hat1);
    [|done|].
  { apply Forall_forall. intros k Hk. apply obj_listing_spec.
    rewrite <-(take_drop n (obj_listing _ _)), <-(take_drop m (drop n _)). rewrite !elem_of_app. tauto. }
  fold prefix in Hp. rewrite Hp. destruct c as [c|].
  - destruct Hc as [Hlen Hat']. destruct (IH (Some c) _ (n + m)%nat o1 Ha1 (Hat1 _ _ Hat')) as (o2 & Hr & Ha2); [lia|].
    exists o2. rewrite <-app_assoc in Hr, Ha2.
    assert (object_records o0 prefix (drop n L) =
      object_records o0 prefix (take m (drop n L)) ++ object_records o0 prefix (drop (n + m) L)) as ->; [|done].
    unfold object_records. rewrite <-omap_app. f_equal. rewrite <-drop_drop. symmetry. apply take_drop.
  - exists o1. rewrite take_ge in Ha1 |- * by (rewrite length_drop; lia). done.
Qed.
End export.

(** ** Import *)

Lemma restoreRevision_ok p f r isActive s :
  (∀ ex, getRevision (tbl s) p f (r_id r) = Some ex → r_artifactId ex = r_artifactId r) →
  ∃ s', restoreRevision p f r isActive s = (s', Ok tt) ∧ tbl s' = restore_tables p f r isActive (tbl s).
Proof.
  intros Hex. unfold restoreRevision, restore_tables. destruct (getRevision _ _ _ _) as [ex|].
  - rewrite (Hex ex eq_refl), jstr_eqb_refl. eexists. split; [reflexivity|].
    destruct isActive; [by rewrite tbl_schedulePersist|done].
  - eexists. split; [reflexivity|]. destruct isActive; [by rewrite tbl_schedulePersist|done].
Qed.

Lemma getActivePointer_restored p f r isActive t p' f' :
  getActivePointer (restore_tables p f r isActive t) p' f' =
  if isActive && bool_decide (p' = p ∧ f' = f) then Some (r_id r) else getActivePointer t p' f'.
Proof.
  unfold restore_tables. destruct (getRevision t p f (r_id r)), isActive;
    rewrite ?getActivePointer_set; cbn [andb]; try done; case_bool_decide as E;
    first [by rewrite decide_True by naive_solver | by rewrite decide_False by naive_solver].
Qed.

Section import.
Context `{HashingLaws}.
Context {K Ob : Type} `{KvSetLaws K jsval, !KvLister K jsval, ReliableObjects Ob}.
Context (decodeBase64 : jstr → result exn (list Z)).
Variable options : ImportProjectOptions.
Implicit Types w : backup_state K Ob.

Local Abbreviation project := (targetProjectId options).

(** An archive that can be restored into [w]: a project without deployments *)
Record importable w : Prop := {
  imp_inv : kv_inv (bw_kv w);
  imp_target : (validateIdentifier (targetOrgId options) ≫= λ _, validateIdentifier project) = Ok tt;
  imp_source : (validateIdentifier (a_orgId (archive options)) ≫= λ _,
                validateIdentifier (a_projectId (archive options))) = Ok tt;
  imp_ok : archive_ok (archive options) = true;
  imp_overwrite : overwriteKv options = true;
  imp_kv_paths : Forall (λ e, check_kv_path e = Ok tt) (a_kv (archive options));
  imp_object_paths : Forall (λ o, check_object_path o = Ok tt) (a_objects (archive options));
  imp_keys : Forall (λ e, kv_valid (target_key options e)) (a_kv (archive options));
  imp_names : NoDup (bf_name <$> a_functions (archive options));
  imp_pairs : NoDup (pair_key <$> revision_pairs (archive options));
  imp_entries : NoDup (target_key options <$> a_kv (archive options));
  imp_objects : NoDup (target_object options <$> a_objects (archive options));
  imp_revisions f i : getRevision (tbl (bw_svc w)) project f i = None;
  imp_pointers f : getActivePointer (tbl (bw_svc w)) project f = None;
  imp_inline obj data : obj ∈ a_objects (archive options) → bo_dataBase64 obj = Some data →
    ∃ b, decodeBase64 data = Ok b ∧ sha_of b = bo_sha256 obj;
  imp_large : payloads_stored (a_objects (archive options)) (bw_obj w)
}.

Lemma archive_ok_parts : archive_ok (archive options) = true →
  forallb kv_ok (a_kv (archive options)) = true ∧ forallb object_ok (a_objects (archive options)) = true ∧
  backup_id_ok (backupId (archive options)) = true.
Proof. unfold archive_ok. rewrite !andb_true_iff. tauto. Qed.

(** *** The checks pass *)

Lemma prechecks_pass w : importable w →
  ∃ w1, import_prechecks options w = (w1, Ok (archive options)) ∧ untouched w w1.
Proof.
  intros Hw. destruct (import_prechecks options w) as [w1 r] eqn:E. exists w1.
  assert (entries_wf options (K := K)) as Hwf.
  { eapply Forall_impl; [apply (imp_keys _ Hw)|]. intros e. apply kv_valid_wf. }
  pose proof (keeps_prechecks options (Ob := Ob) w Hwf w) as Hu. rewrite E in Hu.
  split; [|apply Hu; by destruct Hw]. f_equal.
  assert (st_for_each (check_large_object (K := K)) (a_objects (archive options)) w = (w, Ok tt)) as El.
  { destruct (st_for_each_total (λ w', w' = w) (check_large_object (K := K)) (a_objects (archive options)) w)
      as (w' & Hr & ->); [|done|done].
    intros obj ? Hobj ->. exists w. split; [|done]. unfold check_large_object.
    destruct (bo_dataBase64 obj) as [d|] eqn:Ed; [done|].
    destruct (imp_large _ Hw obj Hobj Ed) as (b & Hb & _).
    pose proof (obj_read (bw_obj w) (artifact_key (bo_sha256 obj))) as Hr. rewrite Hb in Hr.
    destruct Hr as (s & Hget & _). unfold st_bind, on_obj. rewrite Hget. by destruct w. }
  assert (st_for_each (check_revision options (K := K) (Ob := Ob)) (revision_pairs (archive options)) w = (w, Ok tt)) as Er.
  { destruct (st_for_each_total (λ w', w' = w) (check_revision options (K := K) (Ob := Ob))
      (revision_pairs (archive options)) w) as (w' & Hr & ->); [|done|done].
    intros [fn rev] ? _ ->. exists w. unfold check_revision. by rewrite (imp_revisions _ Hw). }
  assert (∀ (A : Type) (f : A → result exn unit) xs, Forall (λ x, f x = Ok tt) xs → for_each f xs = Ok tt) as Hfe.
  { intros A f xs Hf. by apply for_each_Ok. }
  unfold import_prechecks, st_bind, st_lift in E.
  rewrite (imp_target _ Hw), (imp_source _ Hw), validate_archive_typed, (imp_ok _ Hw),
    (Hfe _ _ _ (imp_kv_paths _ Hw)), (Hfe _ _ _ (imp_object_paths _ Hw)), El, Er, (imp_overwrite _ Hw) in E.
  by injection E.
Qed.

(** *** The loops *)

(** The project has nothing but deployments of the archive. *)
Definition only_restored w : Prop :=
  (∀ f i r, getRevision (tbl (bw_svc w)) project f i = Some r →
    ∃ fn rev, (fn, rev) ∈ revision_pairs (archive options) ∧ bf_name fn = f ∧ br_id rev = i ∧
      r = restored_record options fn rev) ∧
  (∀ f c, getActivePointer (tbl (bw_svc w)) project f = Some c →
    ∃ fn, fn ∈ a_functions (archive options) ∧ bf_name fn = f ∧ bf_activeRevisionId fn = Some c).

Record restoring w0 w : Prop := {
  rst_only : only_restored w;
  rst_kv : bw_kv w = bw_kv w0;
  rst_obj : bw_obj w = bw_obj w0
}.

Definition revision_restored w (task : BackupFunctionRecord * BackupRevisionRecord) : Prop :=
  getRevision (tbl (bw_svc w)) project (bf_name task.1) (br_id task.2) =
    Some (restored_record options task.1 task.2) ∧
  (bf_activeRevisionId task.1 = Some (br_id task.2) →
   getActivePointer (tbl (bw_svc w)) project (bf_name task.1) = Some (br_id task.2)).

Lemma restore_revision_step w0 task w :
  NoDup (pair_key <$> revision_pairs (archive options)) → NoDup (bf_name <$> a_functions (archive options)) →
  task ∈ revision_pairs (archive options) → restoring w0 w →
  ∃ w', restore_revision options task w = (w', Ok tt) ∧ restoring w0 w' ∧ revision_restored w' task ∧
    ∀ task', task' ∈ revision_pairs (archive options) → pair_key task' ≠ pair_key task →
      revision_restored w task' → revision_restored w' task'.
Proof.
  intros Hnd Hnames Hin [[Hrev Hptr] Hkv Hobj]. destruct task as [fn rev]. destruct w as [s kv o]. cbn in *.
  set (r := restored_record options fn rev). set (act := bool_decide (bf_activeRevisionId fn = Some (br_id rev))).
  destruct (restoreRevision_ok project (bf_name fn) r act s) as (s' & Hr & Ht).
  { intros ex (fn' & rev' & Hin' & Hf & Hi & ->)%Hrev.
    assert ((fn', rev') = (fn, rev)) as [= -> ->]; [|done].
    eapply NoDup_fmap_elem; [exact Hnd|done..|]. unfold pair_key. cbn. rewrite Hf. f_equal. exact Hi. }
  exists (Build_backup_state s' kv o). unfold restore_revision, on_svc. cbn [bw_svc bw_kv bw_obj].
  fold r act. rewrite Hr. split; [done|]. unfold revision_restored. split; [split; [split|done..]|split]; cbn [bw_svc].
  - intros f i r'. rewrite Ht, getRevision_restore. destruct (getRevision _ _ _ (r_id r)) eqn:E; [apply Hrev|].
    case_decide as Hd; [|apply Hrev]. destruct Hd as (_ & <- & <-). intros [= <-]. by exists fn, rev.
  - intros f c. rewrite Ht, getActivePointer_restored. destruct (act && _) eqn:E; [|apply Hptr].
    apply andb_true_iff in E as [Ha%bool_decide_eq_true [_ ->]%bool_decide_eq_true]. intros [= <-].
    exists fn. split_and!; [|done|done]. by apply elem_revision_pairs in Hin as [? _].
  - cbn [fst snd]. rewrite Ht, getRevision_restore, getActivePointer_restored. split.
    + change (br_id rev) with (r_id r). destruct (getRevision _ _ _ (r_id r)) as [ex|] eqn:E; [|by rewrite decide_True].
      apply Hrev in E as (fn' & rev' & Hin' & Hf & Hi & ->). f_equal.
      assert ((fn', rev') = (fn, rev)) as [= -> ->]; [|done].
      eapply NoDup_fmap_elem; [exact Hnd|done..|]. unfold pair_key. cbn. rewrite Hf. f_equal. exact Hi.
    + intros Ha. assert (act = true) as -> by by apply bool_decide_eq_true. by rewrite bool_decide_eq_true_2.
  - intros [fn' rev'] Hin' Hne [Hr' Hp']. cbn [fst snd] in *.
    rewrite Ht, getRevision_restore, getActivePointer_restored. split.
    + destruct (getRevision _ _ (bf_name fn) (r_id r)); [done|]. rewrite decide_False; [done|].
      intros (_ & Hf & Hi). apply Hne. unfold pair_key. cbn. by rewrite Hf, <-Hi.
    + intros Ha. destruct (act && _) eqn:E; [|by apply Hp']. exfalso. apply Hne.
      apply andb_true_iff in E as [Hact%bool_decide_eq_true [_ Hf]%bool_decide_eq_true].
      assert (fn' = fn) as ->.
      { eapply NoDup_fmap_elem; [exact Hnames| | |done]; by eapply elem_revision_pairs. }
      unfold pair_key. cbn. f_equal. congruence.
Qed.
Record restoring_kv w1 w : Prop := {
  rkv_inv : kv_inv (bw_kv w);
  rkv_svc : bw_svc w = bw_svc w1;
  rkv_obj : bw_obj w = bw_obj w1
}.

Definition entry_restored w (e : BackupKvEntry) : Prop :=
  ∃ n, kv_entry (bw_kv w) (target_key options e) = Some (bk_value e, n).

Lemma restore_entry_step w1 e w :
  Forall (λ e, kv_valid (target_key options e)) (a_kv (archive options)) →
  forallb kv_ok (a_kv (archive options)) = true → e ∈ a_kv (archive options) → restoring_kv w1 w →
  ∃ w', restore_entry options e w = (w', Ok tt) ∧ restoring_kv w1 w' ∧ entry_restored w' e ∧
    ∀ e', e' ∈ a_kv (archive options) → target_key options e' ≠ target_key options e →
      entry_restored w e' → entry_restored w' e'.
Proof.
  intros Hkeys Hok He [Hi Hs Ho]. destruct w as [s kv o]. cbn in *.
  pose proof (proj1 (Forall_forall _ _) Hkeys) as Hv.
  assert (∀ t, bk_ttl e = Some t → 0 < t) as Httl.
  { rewrite forallb_forall in Hok. specialize (Hok e ltac:(by apply list_elem_of_In)).
    unfold kv_ok in Hok. rewrite !andb_true_iff in Hok. intros t Ht. rewrite Ht in Hok. lia. }
  destruct (kv_set_spec kv (target_key options e) (bk_value e) (bk_ttl e) Hi (Hv e He) Httl)
    as (kv' & n & Hset & Hi' & Hn).
  exists (Build_backup_state s kv' o). unfold restore_entry, on_kv. cbn [bw_svc bw_kv bw_obj]. rewrite Hset.
  split_and!; [done|by split|by exists n|]. intros e' He' Hne [n' Hn']. exists n'. cbn [bw_kv] in *.
  assert (kv_wf (target_key options e')) as Hwf by by apply kv_valid_wf, Hv.
  destruct (kv_frame kv (target_key options e') Hi Hwf) as (_ & Hf & _).
  specialize (Hf (target_key options e) (bk_value e) (bk_ttl e) (kv_valid_wf _ (Hv e He)) Hne).
  rewrite Hset in Hf. cbn in Hf. by destruct Hf as [_ ->].
Qed.

Record restoring_objects w2 w : Prop := {
  rob_kv : bw_kv w = bw_kv w2;
  rob_svc : bw_svc w = bw_svc w2;
  rob_payloads k : slashes k = 1%nat → obj_content (bw_obj w) k = obj_content (bw_obj w2) k
}.

Definition object_restored w (obj : BackupObjectRecord) : Prop :=
  ∃ b, obj_content (bw_obj w) (target_object options obj) = Some b ∧ sha_of b = bo_sha256 obj ∧
    ∀ data, bo_dataBase64 obj = Some data → decodeBase64 data = Ok b.

Lemma restore_object_step w2 obj w :
  forallb object_ok (a_objects (archive options)) = true →
  (∀ data, bo_dataBase64 obj = Some data → ∃ b, decodeBase64 data = Ok b ∧ sha_of b = bo_sha256 obj) →
  payloads_stored (a_objects (archive options)) (bw_obj w2) →
  obj ∈ a_objects (archive options) → restoring_objects w2 w →
  ∃ w', restore_object decodeBase64 options obj w = (w', Ok tt) ∧ restoring_objects w2 w' ∧
    object_restored w' obj ∧
    ∀ obj', obj' ∈ a_objects (archive options) → target_object options obj' ≠ target_object options obj →
      object_restored w obj' → object_restored w' obj'.
Proof.
  intros Hok Hinline Hlarge Hobj [Hk Hs Hp]. destruct w as [s kv o]. cbn in *.
  assert (∃ b, sha_of b = bo_sha256 obj ∧ (∀ data, bo_dataBase64 obj = Some data → decodeBase64 data = Ok b) ∧
    restore_object decodeBase64 options obj (Build_backup_state s kv o) =
    on_obj (obj_put (target_object options obj) b) (Build_backup_state s kv o)) as (b & Hsha & Hdec & ->).
  { unfold restore_object. destruct (bo_dataBase64 obj) as [data|] eqn:Ed.
    - destruct (Hinline data eq_refl) as (b & Hd & Hsha). exists b. split_and!; [done|by intros ? [= <-]|].
      unfold st_bind, st_lift. rewrite Hd. change (encodeHex (sha256 b)) with (sha_of b).
      by rewrite Hsha, jstr_eqb_refl.
    - destruct (Hlarge obj Hobj Ed) as (b & Hb & Hsha). exists b. split_and!; [done|done|].
      assert (forallb is_hex_lower (bo_sha256 obj) = true) as Hhex.
      { rewrite forallb_forall in Hok. specialize (Hok obj ltac:(by apply list_elem_of_In)).
        unfold object_ok, sha256_hex_ok in Hok. rewrite !andb_true_iff in Hok. tauto. }
      pose proof (obj_read o (artifact_key (bo_sha256 obj))) as Hr.
      rewrite Hp, Hb in Hr by (by apply artifact_key_slashes). destruct Hr as (st & Hget & Hst).
      unfold st_bind, st_lift, on_obj. cbn [bw_svc bw_kv bw_obj]. rewrite Hget, Hst.
      change (encodeHex (sha256 b)) with (sha_of b). by rewrite Hsha, jstr_eqb_refl. }
  destruct (obj_write o (target_object options obj) b) as (o' & Hput & Hat & Hother).
  exists (Build_backup_state s kv o'). unfold on_obj. cbn [bw_svc bw_kv bw_obj]. rewrite Hput.
  split_and!; [done| | |].
  - split; [done..|]. cbn. intros k Hsl. rewrite Hother; [by apply Hp|].
    intros ->. pose proof (target_object_slashes options obj). lia.
  - by exists b.
  - intros obj' _ Hne (b' & Hb' & ?). exists b'. cbn [bw_obj] in *. rewrite Hother by done. done.
Qed.

(** What a restore into a project without deployments leaves behind *)
Lemma import_restores w :
  importable w →
  ∃ w' res, importProject decodeBase64 options w = (w', Ok res) ∧
    res = {| restoredRevisions := Z.of_nat (length (revision_pairs (archive options)));
             restoredKvKeys := Z.of_nat (length (a_kv (archive options)));
             restoredObjects := Z.of_nat (length (a_objects (archive options)));
             restoredQueues := Z.of_nat (length (a_queues (archive options))) |} ∧
    only_restored w' ∧
    (∀ task, task ∈ revision_pairs (archive options) → revision_restored w' task) ∧
    (∀ e, e ∈ a_kv (archive options) → entry_restored w' e) ∧
    (∀ obj, obj ∈ a_objects (archive options) → object_restored w' obj).
Proof.
  intros Hw. destruct (archive_ok_parts (imp_ok _ Hw)) as (Hkv & Hobj & _).
  destruct (prechecks_pass w Hw) as (w1 & Hpre & [Hi1 _ Ho1 Hs1]).
  destruct (for_each_writes pair_key (restoring w1) revision_restored (restore_revision options)
    (revision_pairs (archive options)) w1) as (w2 & L2 & [Hrev Hkv2 Ho2] & Hall2).
  { intros task w0 Hin Hr. by apply restore_revision_step; try apply Hw. }
  { apply Hw. }
  { split; [|done..]. unfold only_restored. rewrite Hs1.
    split; intros *; by rewrite ?(imp_revisions _ Hw), ?(imp_pointers _ Hw). }
  destruct (for_each_writes (target_key options) (restoring_kv w2) entry_restored (restore_entry options)
    (a_kv (archive options)) w2) as (w3 & L3 & [_ Hs3 Ho3] & Hall3).
  { intros e w0 He Hr. by apply restore_entry_step; try apply Hw. }
  { apply Hw. }
  { split; [by rewrite Hkv2|done..]. }
  destruct (for_each_writes (target_object options) (restoring_objects w3) object_restored
    (restore_object decodeBase64 options) (a_objects (archive options)) w3) as (w4 & L4 & [Hk4 Hs4 _] & Hall4).
  { intros obj w0 Ho Hr. apply restore_object_step; try done.
    - intros data Hd. by apply (imp_inline _ Hw obj data Ho).
    - rewrite Ho3, Ho2, Ho1. apply Hw. }
  { apply Hw. }
  { done. }
  exists w4. eexists. split_and!.
  - unfold importProject, st_bind. rewrite Hpre. unfold restore, st_bind. by rewrite L2, L3, L4.
  - done.
  - unfold only_restored. by rewrite Hs4, Hs3.
  - intros task Ht. unfold revision_restored. rewrite Hs4, Hs3. by apply Hall2.
  - intros e He. unfold entry_restored. rewrite Hk4. by apply Hall3.
  - done.
Qed.
End import.

(** ** The round trip *)

Lemma index_of_split s i :
  index_of s (js "/") = Some i → s = take i s ++ js "/" ++ slice_from (i + 1) s.
Proof.
  revert i. induction s as [|c s IH]; intros i; [done|]. cbn [index_of].
  destruct (starts_with (c :: s) (js "/")) eqn:E.
  - intros [= <-]. apply starts_with_spec in E as [r E]. cbn [take Nat.add]. unfold slice_from. rewrite E. done.
  - destruct (index_of s (js "/")) as [j|]; [|done]. intros [= <-].
    cbn [take Nat.add]. rewrite (IH j eq_refl) at 1. done.
Qed.

Lemma NoDup_fmap_omap {A B C} (f : A → option B) (h : B → C) l :
  NoDup l →
  (∀ x1 x2 y1 y2, x1 ∈ l → x2 ∈ l → f x1 = Some y1 → f x2 = Some y2 → h y1 = h y2 → x1 = x2) →
  NoDup (h <$> omap f l).
Proof.
  induction 1 as [|x l Hx _ IH]; intros Hinj; [constructor|]. cbn [omap list_omap].
  destruct (f x) as [y|] eqn:E; [|apply IH; intros; eapply Hinj; [by right|by right|done..]].
  rewrite fmap_cons. constructor.
  - intros (y' & Hy & (x' & Hx' & Hf)%list_elem_of_omap)%list_elem_of_fmap. apply Hx.
    rewrite (Hinj x x' y y'); [done|by left|by right|done..].
  - apply IH. intros. eapply Hinj; [by right|by right|done..].
Qed.

Lemma kv_record_spec k v e : kv_record (k, v) = Some e ↔
  bk_key e ≠ [] ∧ bk_value e = v ∧ bk_ttl e = None ∧ bk_version e = 1 ∧
  ∃ org project, k = org :: project :: bk_namespace e :: bk_key e.
Proof.
  unfold kv_record. cbn. split.
  - destruct k as [|org [|project [|ns [|s k]]]]; try done. intros [= <-]. cbn. split_and!; [done..|]. by exists org, project.
  - destruct e as [ns' k' v' t n]. cbn. intros (Hne & -> & -> & -> & org & project & ->). by destruct k'.
Qed.

Section roundtrip.
Context `{HashingLaws}.
Context {K Ob : Type} `{KvLaws K jsval, !KvSetLaws K jsval, !KvLister K jsval, !KvListLaws K jsval, ReliableObjects Ob}.
Context (decodeBase64 : jstr → result exn (list Z)) (stringify : jsval → jstr).
Hypothesis decode_encode : ∀ b, Forall is_byte b → decodeBase64 (encodeBase64 b) = Ok b.
Variable eo : ExportProjectOptions.
Variable options : ImportProjectOptions.
Implicit Types w : backup_state K Ob.

Local Abbreviation org := (ex_orgId eo).
Local Abbreviation project := (ex_projectId eo).
Local Abbreviation prefix := (object_prefix org project).

(** A source: its listings are complete (the class's laws) and stay below the
    prefix. *)
Record exportable w : Prop := {
  exp_list : kv_list_inv (bw_kv w);
  exp_prefix : kv_valid [org; project];
  exp_exact k v : (k, v) ∈ kv_listing (bw_kv w) [org; project] → [org; project] `prefix_of` k;
  exp_tables : tables_wf (tbl (bw_svc w));
  exp_bytes k b : obj_content (bw_obj w) k = Some b → Forall is_byte b;
  exp_key : backupStorageKey eo = None
}.

(** The archive of a source *)
Definition archive_of w (now : Z) (bytes : list Z) (now' : Z) : StateBackupArchive :=
  archivePayload eo now bytes now' (export_functions (bw_svc w) project)
    (omap kv_record (kv_listing (bw_kv w) [org; project]))
    (object_records (bw_obj w) prefix (obj_listing (bw_obj w) prefix)).

Lemma backup_key_slashes i : backup_id_ok i = true → slashes (js "backups/" ++ i ++ js ".json") = 1%nat.
Proof.
  unfold backup_id_ok. intros [Hp Hu]%andb_true_iff. rewrite !slashes_app.
  apply starts_with_spec in Hp as [u ->]. change (slice_from 4 (js "bak_" ++ u)) with u in Hu.
  rewrite slashes_app, (slashes_none u); [done|]. unfold isValidUlid in Hu.
  apply andb_true_iff in Hu as [_ Hu]. rewrite forallb_forall in Hu.
  intros Hin%list_elem_of_In%Hu. vm_compute in Hin. done.
Qed.

Lemma object_records_elem o keys r :
  r ∈ object_records o prefix keys ↔ ∃ k b, k ∈ keys ∧ obj_content o k = Some b ∧ object_record prefix k b = Some r.
Proof.
  unfold object_records. rewrite list_elem_of_omap. split.
  - intros (k & Hk & Hr). destruct (obj_content o k) as [b|] eqn:E; [|done]. by exists k, b.
  - intros (k & b & Hk & Hb & Hr). exists k. by rewrite Hb.
Qed.

(** The record of an object determines its key. *)
Lemma object_record_key k b r :
  starts_with k prefix = true → object_record prefix k b = Some r →
  k = prefix ++ bo_store r ++ js "/" ++ bo_key r ∧ bo_sha256 r = sha_of b ∧
  bo_dataBase64 r = if Z.of_nat (length b) <? MAX_INLINE_OBJECT_BYTES then Some (encodeBase64 b) else None.
Proof.
  intros [rel ->]%starts_with_spec. unfold object_record. cbv zeta.
  assert (slice_from (length prefix) (prefix ++ rel) = rel) as -> by apply drop_app_length. destruct (index_of rel (js "/")) as [i|] eqn:Ei; [|by intros [=]].
  cbn [fmap option_fmap option_map]. intros [= <-]. cbn [bo_store bo_key bo_sha256 bo_dataBase64].
  split_and!; [|done..]. f_equal. by apply index_of_split.
Qed.

Lemma records_NoDup w : NoDup (target_object options <$> object_records (bw_obj w) prefix (obj_listing (bw_obj w) prefix)).
Proof.
  apply NoDup_fmap_omap; [apply obj_listing_NoDup|]. intros k1 k2 r1 r2 Hk1 Hk2 E1 E2 Ht.
  apply obj_listing_spec in Hk1 as [Hk1 [b1 Hb1]], Hk2 as [Hk2 [b2 Hb2]]. rewrite Hb1 in E1. rewrite Hb2 in E2.
  cbn in E1, E2. destruct (object_record_key _ _ _ Hk1 E1) as [-> _]. destruct (object_record_key _ _ _ Hk2 E2) as [-> _].
  unfold target_object in Ht. apply app_inv_head in Ht. by rewrite Ht.
Qed.

Lemma entries_NoDup w : exportable w →
  NoDup (target_key options <$> omap kv_record (kv_listing (bw_kv w) [org; project])).
Proof.
  intros Hw. pose proof (kv_listing_NoDup (bw_kv w) [org; project] (exp_list _ Hw)) as Hnd.
  apply NoDup_fmap_omap; [by eapply NoDup_fmap_1|]. intros [k1 v1] [k2 v2] e1 e2 Hi1 Hi2 E1 E2 Ht.
  eapply NoDup_fmap_elem; [exact Hnd|done..|]. cbn.
  apply kv_record_spec in E1 as (_ & _ & _ & _ & o1 & p1 & ->), E2 as (_ & _ & _ & _ & o2 & p2 & ->).
  apply (exp_exact _ Hw) in Hi1 as [r1 [= -> -> _]], Hi2 as [r2 [= -> -> _]].
  unfold target_key in Ht. by injection Ht as -> ->.
Qed.
Lemma validateIdentifier_error i e : validateIdentifier i = Err e → e = ValidationFailedError.
Proof.
  unfold validateIdentifier. intros [[_ <-]%throw_if_Err|(? & _ & [[_ <-]%throw_if_Err|(? & _ & He)]%bind_Err)]%bind_Err;
    [done|done|].
  revert He. generalize (trim i) as s. intros s. induction s as [|c s IH]; [done|]. cbn.
  intros [[_ <-]%throw_if_Err|(? & _ & He)]%bind_Err; [done|by apply IH].
Qed.

(** The export terminates; it fails exactly when the archive is not valid. *)
Lemma export_result fuel now bytes now' w :
  exportable w →
  (length (kv_listing (bw_kv w) [org; project]) < fuel)%nat →
  (length (obj_listing (bw_obj w) prefix) < fuel)%nat →
  (validateIdentifier org ≫= λ _, validateIdentifier project) = Ok tt →
  let a := archive_of w now bytes now' in
  ∃ o, exportProject stringify fuel eo now bytes now' w =
         Some (Build_backup_state (bw_svc w) (bw_kv w) o, if archive_ok a then Ok a else Err ValidationFailedError) ∧
       (archive_ok a = true → payloads_stored (a_objects a) o).
Proof.
  intros Hw Hf1 Hf2 Hids a. unfold exportProject. rewrite Hids.
  rewrite (export_kv_spec [org; project] (bw_kv w) (exp_list _ Hw) (exp_prefix _ Hw) fuel None [] 0%nat)
    by (apply kv_at_start || lia). cbn [app].
  destruct (export_objects_spec org project (bw_obj w) fuel None [] 0%nat (bw_obj w)) as (o & Ho & Harc);
    [|apply obj_at_start|lia|].
  { split; [done..|]. intros r Hr. set_solver. }
  rewrite Ho. cbn [app] in Ho, Harc |- *. rewrite !drop_0. rewrite drop_0 in Harc. fold (archive_of w now bytes now').
  fold a. unfold store_archive. rewrite (exp_key _ Hw), validate_archive_typed.
  destruct (archive_ok a) eqn:Ea; [|exists o; done]. unfold st_bind, st_lift. cbn [throw_if].
  assert (backup_id_ok (backupId a) = true) as Hid by (unfold archive_ok in Ea; rewrite !andb_true_iff in Ea; tauto).
  destruct (obj_write o (js "backups/" ++ backupId a ++ js ".json")
    (text_encode (stringify (archive_value a)))) as (o' & Hput & _ & Hother).
  rewrite Hput. exists o'. split; [done|]. intros _ r Hr Hn.
  destruct (arc_large _ _ _ _ Harc r Hr Hn) as (b & Hb & Hsha). exists b. split; [|done].
  rewrite Hother; [done|]. unfold artifact_key. done.
Qed.

(** A target: a project without deployments and without obstacles for the keys
    of the archive, over the object storage [o] the export left. *)
Record clean_target (a : StateBackupArchive) (o : Ob) w : Prop := {
  ct_inv : kv_inv (bw_kv w);
  ct_objects : bw_obj w = o;
  ct_ids : (validateIdentifier (targetOrgId options) ≫= λ _, validateIdentifier (targetProjectId options)) = Ok tt;
  ct_archive : archive options = a;
  ct_overwrite : overwriteKv options = true;
  ct_kv_paths : Forall (λ e, check_kv_path e = Ok tt) (a_kv a);
  ct_object_paths : Forall (λ o, check_object_path o = Ok tt) (a_objects a);
  ct_keys : Forall (λ e, kv_valid (target_key options e)) (a_kv a);
  ct_revisions f i : getRevision (tbl (bw_svc w)) (targetProjectId options) f i = None;
  ct_pointers f : getActivePointer (tbl (bw_svc w)) (targetProjectId options) f = None
}.

(** The target project is the source project. *)
Record same_contents ws wt : Prop := {
  sc_revisions f i : getRevision (tbl (bw_svc wt)) (targetProjectId options) f i =
    relocate (targetProjectId options) f <$> getRevision (tbl (bw_svc ws)) project f i;
  sc_pointers f : f ∈ listFunctions (tbl (bw_svc ws)) project →
    getActivePointer (tbl (bw_svc wt)) (targetProjectId options) f = getActivePointer (tbl (bw_svc ws)) project f;
  sc_kv ns k v n : k ≠ [] → kv_wf (org :: project :: ns :: k) →
    kv_entry (bw_kv ws) (org :: project :: ns :: k) = Some (v, n) →
    ∃ n', kv_entry (bw_kv wt) (targetOrgId options :: targetProjectId options :: ns :: k) = Some (v, n');
  sc_objects store k b : chr "/" ∉ store →
    obj_content (bw_obj ws) (prefix ++ store ++ js "/" ++ k) = Some b →
    ∃ b', obj_content (bw_obj wt) (object_prefix (targetOrgId options) (targetProjectId options) ++ store ++ js "/" ++ k)
            = Some b' ∧ sha_of b' = sha_of b ∧ (Z.of_nat (length b) < MAX_INLINE_OBJECT_BYTES → b' = b)
}.

Lemma target_importable now bytes now' w o wt :
  let a := archive_of w now bytes now' in
  exportable w → (validateIdentifier org ≫= λ _, validateIdentifier project) = Ok tt →
  archive_ok a = true → payloads_stored (a_objects a) o → clean_target a o wt →
  importable decodeBase64 options wt.
Proof.
  intros a Hw Hids Hok Hpay [Hi Ho Ht Ha Hov Hkp Hop Hk Hr Hp].
  split; rewrite ?Ha; try done.
  - change (a_functions a) with (export_functions (bw_svc w) project). rewrite export_functions_names.
    by apply listFunctions_NoDup, Hw.
  - apply (export_pairs_NoDup (bw_svc w) project); [by apply Hw|done].
  - by apply entries_NoDup.
  - by apply records_NoDup.
  - intros obj data Hobj Hd. apply object_records_elem in Hobj as (k & b & Hk' & Hb & Hrec).
    apply obj_listing_spec in Hk' as [Hk' _]. destruct (object_record_key _ _ _ Hk' Hrec) as (_ & Hsha & Hdata).
    rewrite Hd in Hdata. destruct (_ <? _); [|done]. injection Hdata as ->.
    exists b. split; [|done]. by apply decode_encode, (exp_bytes _ Hw k).
  - by rewrite Ho.
Qed.

Lemma restored_same now bytes now' w wt' :
  let a := archive_of w now bytes now' in
  exportable w → archive options = a → archive_ok a = true →
  only_restored options wt' →
  (∀ task, task ∈ revision_pairs a → revision_restored options wt' task) →
  (∀ e, e ∈ a_kv a → entry_restored options wt' e) →
  (∀ obj, obj ∈ a_objects a → object_restored decodeBase64 options wt' obj) →
  same_contents w wt'.
Proof.
  intros a Hw Ha Hok [Honly Hptr] Hrevs Hkv Hobjs. rewrite Ha in Honly, Hptr.
  pose proof (exp_tables _ Hw) as Ht.
  assert (∀ f i r, getRevision (tbl (bw_svc w)) project f i = Some r → ∃ fn,
    fn ∈ a_functions a ∧ bf_name fn = f ∧ (fn, backup_revision r) ∈ revision_pairs a) as Hpair.
  { intros f i r Hr. destruct (export_functions_of _ _ _ (listFunctions_elem _ _ _ _ _ Hr)) as (fn & Hfn & <-).
    exists fn. split_and!; [done..|]. apply elem_revision_pairs. split; [done|].
    destruct (export_functions_elem _ _ _ Hfn) as [_ ->]. apply list_elem_of_fmap_2. apply listRevisions_elem; [done|].
    by rewrite (getRevision_id _ _ Ht _ _ _ Hr). }
  split.
  - intros f i. destruct (getRevision (tbl (bw_svc w)) project f i) as [r|] eqn:Er.
    + destruct (Hpair f i r Er) as (fn & _ & <- & Hin). destruct (Hrevs _ Hin) as [Hr _].
      cbn in Hr. by rewrite (getRevision_id _ _ Ht _ _ _ Er) in Hr.
    + destruct (getRevision (tbl (bw_svc wt')) _ f i) as [r|] eqn:Er'; [exfalso|done].
      apply Honly in Er' as (fn & rev & Hin & <- & <- & _). apply elem_revision_pairs in Hin as [Hfn Hrev].
      destruct (export_functions_elem _ _ _ Hfn) as [_ Hl]. rewrite Hl in Hrev.
      apply list_elem_of_fmap in Hrev as (r' & -> & Hr'%listRevisions_elem); [|done]. cbn in Er. congruence.
  - intros f (fn & Hfn & <-)%export_functions_of.
    destruct (export_functions_elem _ _ _ Hfn) as [Hact Hl]. rewrite <-Hact.
    destruct (bf_activeRevisionId fn) as [i|] eqn:Ei.
    + assert (function_ok fn = true) as Hfok.
      { unfold archive_ok in Hok. rewrite !andb_true_iff in Hok. destruct Hok as [[[[_ Hfs] _] _] _].
        rewrite forallb_forall in Hfs. by apply Hfs, list_elem_of_In. }
      unfold function_ok in Hfok. rewrite Ei, !andb_true_iff in Hfok.
      destruct Hfok as (_ & _ & (rev & -> & Hrev)%bool_decide_eq_true%list_elem_of_fmap).
      destruct (Hrevs (fn, rev)) as [_ Hp]; [by apply elem_revision_pairs|]. by apply Hp.
    + destruct (getActivePointer (tbl (bw_svc wt')) _ _) as [c|] eqn:Ec; [exfalso|done].
      apply Hptr in Ec as (fn' & Hfn' & Hn & Hc). destruct (export_functions_elem _ _ _ Hfn') as [Hact' _].
      rewrite Hn, <-Hact in Hact'. congruence.
  - intros ns k v n Hne Hwf He.
    pose proof (kv_listing_complete (bw_kv w) [org; project] (ns :: k) v n (exp_list _ Hw) (exp_prefix _ Hw) Hwf He) as Hin.
    destruct (Hkv {| bk_namespace := ns; bk_key := k; bk_value := v; bk_ttl := None; bk_version := 1 |}) as [n' Hn'].
    { apply list_elem_of_omap. exists (org :: project :: ns :: k, v). split; [exact Hin|].
      apply kv_record_spec. split_and!; [done..|]. by exists org, project. }
    by exists n'.
  - intros store k b Hstore Hb.
    set (r := {| bo_store := store; bo_key := k; bo_sizeBytes := Z.of_nat (length b); bo_sha256 := sha_of b;
                 bo_integrity := js "sha256-" ++ encodeBase64 (sha256 b);
                 bo_dataBase64 := if Z.of_nat (length b) <? MAX_INLINE_OBJECT_BYTES
                                  then Some (encodeBase64 b) else None |}).
    destruct (Hobjs r) as (b' & Hb' & Hsha & Hdec).
    { apply object_records_elem. exists (prefix ++ store ++ js "/" ++ k), b. split_and!; [|done|].
      - apply obj_listing_spec. rewrite Hb. split; [apply starts_with_app|done].
      - unfold object_record. cbv zeta.
        assert (slice_from (length prefix) (prefix ++ store ++ js "/" ++ k) = store ++ js "/" ++ k) as -> by apply drop_app_length.
        rewrite slash_free by done. cbn [fmap option_fmap option_map]. unfold r. do 2 f_equal.
        + by rewrite take_app_length.
        + unfold slice_from. rewrite drop_app_ge by lia. replace (length store + 1 - length store)%nat with 1%nat by lia. done. }
    exists b'. split; [exact Hb'|]. split; [done|]. intros Hl.
    cbn [bo_dataBase64 r] in Hdec. rewrite (proj2 (Z.ltb_lt _ _) Hl) in Hdec. specialize (Hdec _ eq_refl).
    rewrite decode_encode in Hdec by by eapply exp_bytes. by injection Hdec.
Qed.

End roundtrip.

(** ** Concrete providers *)

(** Objects in memory; a cursor is the number of keys already listed. *)
Section memory.
Local Abbreviation memory := (jsmap jstr (list Z)).
Implicit Types o : memory.

Definition memory_listing o (p : jstr) : list jstr :=
  filter (λ k, starts_with k p = true) (set_of_list (map_keys o)).

Definition cursor_position (cursor : option jstr) : nat :=
  match cursor with None => 0%nat | Some c => Z.to_nat (default 0 (parse_int10 c)) end.

#[export] Instance memory_objects : ObjectStore memory := {
  obj_put k b := λ o, (map_set o k b, Ok tt);
  obj_get k := λ o, (o, Ok ((λ b, {| reads := [Some b]; failure := None |}) <$> map_get o k));
  obj_list p limit cursor := λ o,
    let n := cursor_position cursor in
    let m := Z.to_nat limit in
    (o, Ok (take m (drop n (memory_listing o p)),
            if (n + m <? length (memory_listing o p))%nat
            then Some (string_of_nat (Z.of_nat (n + m))) else None))
}.

Lemma split_on_sep c a b : split_on c (a ++ c :: b) = split_on c a ++ split_on c b.
Proof.
  induction a as [|d a IH]; cbn [app split_on]; [by rewrite Z.eqb_refl|].
  rewrite IH. destruct (d =? c); [done|]. pose proof (split_on_not_nil c a).
  by destruct (split_on c a).
Qed.

Lemma memory_listing_set o k b p :
  starts_with k p = false → memory_listing (map_set o k b) p = memory_listing o p.
Proof.
  intros Hk. unfold memory_listing. rewrite map_keys_set. case_decide; [done|].
  unfold set_of_list. rewrite fold_left_app. cbn. unfold set_add at 1. case_decide; [done|].
  rewrite filter_app. rewrite (filter_none _ [k]); [by rewrite app_nil_r|].
  repeat constructor. by rewrite Hk.
Qed.

#[export] Instance memory_frame : ObjectFrame memory.
Proof.
  refine {| obj_content := map_get; obj_names k := Some (split_on (chr "/") k) |}; cbn [obj_put obj_get memory_objects fst snd].
  - done.
  - intros o k b k' Hne. apply map_get_set_ne. congruence.
  - intros a b _ _ _ _. eexists. split; [done|]. intros q [= <-]. exists (split_on (chr "/") b). exact (split_on_sep (chr "/") a b).
Defined.

#[export] Instance memory_laws : ObjectLaws memory.
Proof.
  refine {| obj_listing := memory_listing; obj_at _ _ c n := cursor_position c = n |};
    cbn [obj_put obj_get obj_list memory_objects fst snd obj_content memory_frame obj_names].
  - intros k k' Hk. assert (split_on (chr "/") k = split_on (chr "/") k') as E by congruence.
    by rewrite <-(split_on_join (chr "/") k), E, split_on_join.
  - intros o k [= E]. by destruct (map_get o k).
  - intros o k s [= E] _. destruct (map_get o k) as [b|]; [|done]. injection E as <-. cbn. by rewrite app_nil_r.
  - intros o k b _. apply map_get_set_eq.
  - intros o k b p Hk. split; [by apply memory_listing_set|done].
  - done.
  - intros o p limit cursor n _ ->. eexists. split; [done|].
    destruct (Nat.ltb_spec (n + Z.to_nat limit) (length (memory_listing o p))); [|lia].
    split; [lia|]. cbn [cursor_position]. rewrite parse_int10_string_of_nat by lia. apply Nat2Z.id.
  - intros o p. apply NoDup_filter, set_of_list_NoDup.
  - intros o p k. unfold memory_listing. rewrite list_elem_of_filter, elem_set_of_list.
    pose proof (map_get_None o k) as Hn. destruct (map_get o k) eqn:E.
    + split; [by intros [? _]|]. intros [? _]. split; [done|]. apply dec_stable. by intros ?%Hn.
    + split; [intros [_ Hin]; by destruct (proj1 Hn eq_refl)|]. by intros [_ [? ?]].
Defined.

#[export] Instance memory_reliable : ReliableObjects memory.
Proof.
  split; [done|]. intros o k. cbn. eexists. split; [reflexivity|].
  intros s. destruct (map_get o k); [by intros [= <-]|done].
Qed.
End memory.

(** A hash and an encoding that are easy to compute *)
#[local] Instance plain_hashing : Hashing :=
  {| sha256 := λ data, take 32 (data ++ replicate 32 65);
     encodeHex := encodeHex (Hashing := toy_hashing);
     encodeBase64 := λ data, data |}.

#[local] Instance plain_hashing_laws : HashingLaws.
Proof.
  split; intros data; cbn [encodeHex plain_hashing]; [|apply toy_hex].
  rewrite (proj1 (toy_hex _)). cbn [sha256 plain_hashing].
  rewrite length_take, length_app, length_replicate. lia.
Qed.

Definition shop_revision : RevisionRecord :=
  {| r_id := js "rev_01ARZ3NDEKTSV4RRFFQ69G5FAV"; r_project := js "shop"; r_functionName := js "web";
     r_artifactId := js "sha256:" ++ replicate 64 (chr "a"); r_integrity := js "sha256-AAAA";
     r_state := Deployed; r_createdAt := 5; r_manifest := a_manifest some_artifact |}.

Definition shop_tables : tables :=
  setActivePointer (js "shop") (js "web") (r_id shop_revision)
    (saveRevisionRecord (js "shop") (js "web") shop_revision empty_tables).

Definition shop_source : backup_state (kv_db jsval) (jsmap jstr (list Z)) :=
  {| bw_svc := on_tables (λ _, shop_tables) (new_service None);
     bw_kv := (sqlite_set [js "acme"; js "shop"; js "sessions"; js "u1"] (JStr (js "x")) None
                 {| clock := 0; kv_entries := ∅ |}).1;
     bw_obj := [(js "acme/shop/files/readme", js "SGk=")] |}.

Definition shop_export : ExportProjectOptions :=
  {| ex_orgId := js "acme"; ex_projectId := js "shop"; backupStorageKey := None |}.

Definition exported_shop := exportProject (K := kv_db jsval) (KvLister0 := sqlite_kv_lister (λ s, s) Ok)
  (λ _, []) 2 shop_export 5 [] 5 shop_source.

(** Restored into another organisation of the same object storage *)
Definition shop_import : ImportProjectOptions :=
  {| targetOrgId := js "globex"; targetProjectId := js "shop2";
     archive := match exported_shop with
                | Some (_, Ok a) => a
                | _ => archivePayload shop_export 0 [] 0 [] [] []
                end;
     overwriteKv := true |}.

Definition shop_target : backup_state (kv_db jsval) (jsmap jstr (list Z)) :=
  {| bw_svc := new_service None; bw_kv := {| clock := 9; kv_entries := ∅ |};
     bw_obj := match exported_shop with Some (w, _) => bw_obj w | None => [] end |}.

Lemma shop_exportable :
  exportable (KvLister0 := sqlite_kv_lister (λ s, s) Ok)
    (KvListLaws0 := sqlite_kv_list_laws (λ s, s) Ok (λ _ _, eq_refl) (λ _ H, H)) shop_export shop_source.
Proof.
  split.
  - split; [|reflexivity]. apply map_Forall_insert_2; [|apply map_Forall_empty].
    split; [repeat constructor; vm_compute; discriminate|vm_compute; reflexivity].
  - cbn [kv_valid sqlite_kv_laws]. split; [repeat constructor; vm_compute; discriminate|]. split; [done|].
    eexists. vm_compute. reflexivity.
  - intros k v Hin. assert (kv_listing (KvListLaws := sqlite_kv_list_laws (λ s, s) Ok (λ _ _, eq_refl) (λ _ H, H))
      (bw_kv shop_source) [ex_orgId shop_export; ex_projectId shop_export] =
      [([js "acme"; js "shop"; js "sessions"; js "u1"], JStr (js "x"))]) as E by (vm_compute; reflexivity).
    rewrite E in Hin. apply list_elem_of_singleton in Hin as [= -> _]. by exists [js "sessions"; js "u1"].
  - apply point_tables_wf, save_tables_wf. repeat split; constructor.
  - intros k b Hb%map_get_elem. cbn in Hb. apply list_elem_of_singleton in Hb as [= _ ->].
    repeat constructor; vm_compute; discriminate.
  - done.
Qed.

Lemma shop_clean : clean_target (K := kv_db jsval) shop_import (archive shop_import) (bw_obj shop_target) shop_target.
Proof.
  split; try done.
  - vm_compute. repeat constructor.
  - vm_compute. repeat constructor.
  - change (a_kv (archive shop_import)) with [{| bk_namespace := js "sessions"; bk_key := [js "u1"];
      bk_value := JStr (js "x"); bk_ttl := None; bk_version := 1 |}].
    constructor; [|constructor]. cbn [kv_valid sqlite_kv_laws].
    split; [repeat constructor; vm_compute; discriminate|]. split; [done|]. eexists. vm_compute. reflexivity.
Qed.


(** ** Corner cases *)

Definition with_kv (kvs : kv_db jsval) : backup_state (kv_db jsval) (jsmap jstr (list Z)) :=
  {| bw_svc := bw_svc shop_source; bw_kv := kvs; bw_obj := [] |}.

Definition export_from (w : backup_state (kv_db jsval) (jsmap jstr (list Z))) :=
  snd <$> exportProject (K := kv_db jsval) (KvLister0 := sqlite_kv_lister (λ s, s) Ok) (λ _, []) 2 shop_export 5 [] 5 w.

Definition kv_of (entries : list (key * jsval)) : kv_db jsval :=
  fold_left (λ d e, (sqlite_set e.1 e.2 None d).1) entries {| clock := 0; kv_entries := ∅ |}.

(** One empty object makes the export of its project fail. *)
Lemma export_empty_object_fails :
  export_from (Build_backup_state (bw_svc shop_source) (bw_kv shop_source) [(js "acme/shop/files/empty", [])]) =
    Some (Err ValidationFailedError).
Proof. vm_compute. reflexivity. Qed.

(** The entries of a tenant whose name differs in case are in the archive. *)
Lemma export_leaks :
  ∃ a, export_from (with_kv (kv_of [([js "ACME"; js "shop"; js "private"; js "k"], JStr (js "secret"))])) = Some (Ok a) ∧
    bk_value <$> a_kv a = [JStr (js "secret")].
Proof. eexists. vm_compute. split; reflexivity. Qed.

(** A key that is exported but that the import refuses *)
Lemma exported_not_importable :
  ∃ a e, export_from (with_kv (kv_of [([js "acme"; js "shop"; js "docs"; js "a..b"], JNull)])) = Some (Ok a) ∧
    a_kv a = [e] ∧ check_kv_path e = Err ValidationFailedError.
Proof. eexists _, _. vm_compute. split_and!; reflexivity. Qed.

Definition import_with (a : StateBackupArchive) (overwrite : bool) :=
  importProject (K := kv_db jsval) (Ob := jsmap jstr (list Z)) Ok
    {| targetOrgId := js "globex"; targetProjectId := js "shop2"; archive := a; overwriteKv := overwrite |}
    {| bw_svc := new_service None; bw_kv := {| clock := 9; kv_entries := ∅ |}; bw_obj := [] |}.

(** Two different keys that are joined to the same string: without [overwriteKv]
    they are taken for a duplicate, although the target is empty. *)
Definition joined_keys : kv_db jsval :=
  kv_of [([js "acme"; js "shop"; js "docs"; js "a"; js "b"], JNull);
         ([js "acme"; js "shop"; js "docs"; js "a/b"], JNull)].
Definition joined_archive : StateBackupArchive :=
  match export_from (with_kv joined_keys) with Some (Ok a) => a | _ => archive shop_import end.

Lemma import_false_conflict :
  export_from (with_kv joined_keys) = Some (Ok joined_archive) ∧
  (import_with joined_archive false).2 = Err ConflictError ∧ is_ok (import_with joined_archive true).2 = true.
Proof. vm_compute. split_and!; reflexivity. Qed.

(** A restore is not atomic: an inline payload with the wrong digest is found
    after the revisions and the entries have been written. *)
Lemma import_not_atomic :
  let a := archive shop_import in
  let bad := {| bo_store := js "files"; bo_key := js "readme"; bo_sizeBytes := 1; bo_sha256 := replicate 64 (chr "0");
                bo_integrity := js "sha256-AAAA"; bo_dataBase64 := Some (js "SGk=") |} in
  let a' := {| backupId := backupId a; createdAt := createdAt a; a_orgId := a_orgId a; a_projectId := a_projectId a;
               a_name := a_name a; a_functions := a_functions a; a_kv := a_kv a; a_objects := [bad];
               a_queues := [] |} in
  let w' := (import_with a' true).1 in
  (import_with a' true).2 = Err ValidationFailedError ∧
  getActivePointer (tbl (bw_svc w')) (js "shop2") (js "web") = Some (r_id shop_revision) ∧
  sqlite_entry (bw_kv w') [js "globex"; js "shop2"; js "sessions"; js "u1"] = Some (JStr (js "x"), 1).
Proof. vm_compute. split_and!; reflexivity. Qed.

(** ** Tenant isolation *)

Section isolation.
Context `{Hashing}.
Context {K Ob : Type} `{KvSetLaws K jsval, !KvLister K jsval, ObjectFrame Ob}.
Context (decodeBase64 : jstr → result exn (list Z)).
Variable options : ImportProjectOptions.
Implicit Types w : backup_state K Ob.

(** C33: Whatever the archive contains (its keys being lists of JavaScript strings)
    and whether the import completes or throws, it changes no key-value entry
    outside the target tenant's prefix, no object outside the directory that the
    target's prefix [org/project] denotes, and no deployment of another project;
    and when one of the checks before the restore fails, it has changed nothing at
    all.  That holds for every object provider in which a key without [..] below a
    prefix denotes an object below what the prefix denotes, also when several
    keys denote one object: a provider of plain keys and the local file system
    provider are such.  (On a file system the prefix of a project [.] denotes the
    directory of the whole org.) *)
Theorem import_confined w w' r :
  kv_inv (bw_kv w) → entries_wf options (K := K) → importProject decodeBase64 options w = (w', r) →
  confined options w w' ∧ (∀ e, (import_prechecks options w).2 = Err e → r = Err e ∧ untouched w w').
Proof.
  intros Hi Hwf Himp. pose proof (keeps_prechecks options w Hwf w ltac:(done)) as Hu.
  unfold importProject, st_bind in Himp. destruct (import_prechecks options w) as [w1 [a|e]] eqn:E.
  - split; [|done]. apply prechecks_archive in E as (-> & Hids & Hobjs).
    pose proof (keeps_restore decodeBase64 options w Hwf Hids Hobjs w1 (untouched_confined options _ _ Hu)) as Hr.
    by rewrite Himp in Hr.
  - injection Himp as <- <-. split; [by apply untouched_confined|]. by intros e' [= <-].
Qed.
End isolation.

(** The archive over a store that holds an entry of another tenant *)
Theorem import_confined_witness :
  let w := Build_backup_state (new_service None) (kv_of [([js "initech"; js "shop2"; js "a"], JNull)])
             (bw_obj shop_target) in
  let w' := (importProject (K := kv_db jsval) Ok shop_import w).1 in
  is_ok (importProject (K := kv_db jsval) Ok shop_import w).2 = true ∧
  sqlite_entry (bw_kv w') [js "initech"; js "shop2"; js "a"] =
    sqlite_entry (bw_kv w) [js "initech"; js "shop2"; js "a"].
Proof.
  intros w w'. split; [vm_compute; reflexivity|].
  destruct (import_confined (K := kv_db jsval) Ok shop_import w w' (importProject Ok shop_import w).2)
    as [[_ Hk _ _] _].
  - apply map_Forall_insert_2; [vm_compute; discriminate|apply map_Forall_empty].
  - constructor; [|constructor]. repeat constructor; vm_compute; discriminate.
  - apply surjective_pairing.
  - apply (Hk [js "initech"; js "shop2"; js "a"]).
    + repeat constructor; vm_compute; discriminate.
    + intros [l Hl]. discriminate.
Defined.
