(* ===== verification/ApiKeys.v ===== *)
(** * API keys ([packages/auth/store.ts], [packages/auth/token.ts], PLAT-6, PLAT-15)

    The persistent key store with its cache.  A method is a call that advances
    from one provider operation to the next, so that calls interleave; each
    operation completes, or throws with or without its effect.  The providers
    are the maps of their live entries; an entry of the cache has a time at which
    it expires. *)

From S2P Require Import Prelude JsString JsMap JsNumber JsValue Errors Utf8 Ulid KvInterface Packager.

Open Scope Z_scope.

(** ** Tokens *)

(** [b.toString(16).padStart(2, "0")] *)
Definition hex_digit (d : Z) : Z := if d <? 10 then 48 + d else 87 + d.
Definition byte_hex (b : Z) : jstr := [hex_digit (b / 16); hex_digit (b mod 16)].
Definition bytes_hex (bs : list Z) : jstr := flat_map byte_hex bs.

Definition hashApiToken `{Hashing} (rawToken : jstr) : jstr := bytes_hex (sha256 (text_encode rawToken)).

(** ** Records *)

Record StoredApiKeyRecord := {
  ak_id : jstr;
  ak_tokenHash : jstr;
  ak_name : jstr;
  ak_orgId : jstr;
  ak_projectId : option jstr;
  ak_createdAt : jstr
}.

Definition opt_str (o : option jstr) : jsval := match o with Some s => JStr s | None => JUndef end.

(** The record as [createKey] stores it *)
Definition key_record_value (r : StoredApiKeyRecord) : jsval :=
  JObj [(js "id", JStr (ak_id r)); (js "tokenHash", JStr (ak_tokenHash r)); (js "name", JStr (ak_name r));
        (js "orgId", JStr (ak_orgId r)); (js "projectId", opt_str (ak_projectId r));
        (js "createdAt", JStr (ak_createdAt r))].

Definition token_key (h : jstr) : key := [js "_auth"; js "tokens"; h].
Definition id_key (id : jstr) : key := [js "_auth"; js "keys"; id].
Definition org_key (org id : jstr) : key := [js "_auth"; js "orgs"; org; id].
Definition cache_key (h : jstr) : key := [js "auth_cache"; h].

(** [params.projectId?.trim() || undefined] *)
Definition trimmed_or_none (s : option jstr) : option jstr :=
  match trim <$> s with Some ((_ :: _) as t) => Some t | _ => None end.

(** The record and the raw token of [createKey]; [id], [randomBytes] and
    [createdAt] come from the ULID generator, the random source and the clock. *)
Definition new_key `{Hashing} (name org : jstr) (project : option jstr) (id : jstr)
    (randomBytes : list Z) (createdAt : jstr) : jstr * StoredApiKeyRecord :=
  let rawToken := js "rfk_" ++ bytes_hex randomBytes in
  (rawToken,
   {| ak_id := id; ak_tokenHash := hashApiToken rawToken; ak_name := trim name; ak_orgId := trim org;
      ak_projectId := trimmed_or_none project; ak_createdAt := createdAt |}).

(** ** What verification makes of a stored value *)

(** [JSON.parse] of a text *)
Class JsonParser := json_parse : jstr → result exn jsval.

(** The context of a key: [IdentityContext] *)
Definition identity_of (record : jsval) (tokenHash : jstr) : jsval :=
  JObj [(js "callerId", prop record (js "name")); (js "orgId", prop record (js "orgId"));
        (js "projectId", prop record (js "projectId")); (js "tokenHash", JStr tokenHash);
        (js "callerType", JStr (js "token"))].

Section values.
Context `{JsonParser}.

(** [if (typeof v === "string") v = JSON.parse(v)], [None] when it throws *)
Definition parse_if_string (v : jsval) : option jsval :=
  match v with
  | JStr s => match json_parse s with Ok v => Some v | Err _ => None end
  | v => Some v
  end.

(** Step 1: the identity a value of the cache stands for *)
Definition cached_identity (rawCached : jsval) : option jsval :=
  if truthy rawCached then
    let cached := default rawCached (parse_if_string rawCached) in
    if truthy cached && is_object cached && truthy (prop cached (js "callerId")) &&
       truthy (prop cached (js "orgId"))
    then Some cached else None
  else None.

(** Step 2: the identity a value of the primary store stands for *)
Definition stored_identity (tokenHash : jstr) (rawRecord : jsval) : option jsval :=
  if truthy rawRecord then
    match parse_if_string rawRecord ≫= parse_if_string with
    | Some record =>
        if negb (truthy record) || truthy (prop record (js "revokedAt")) then None
        else Some (identity_of record tokenHash)
    | None => None
    end
  else None.
End values.

(** ** Calls *)

Inductive call :=
| VerifyCache (tokenHash : jstr)
| VerifyStorage (tokenHash : jstr)
| VerifyPopulate (tokenHash : jstr) (identity : jsval)
| Verified (tokenHash : option jstr) (identity : option jsval) (at_ : Z)
| CreateToken (rawToken : jstr) (r : StoredApiKeyRecord)
| CreateId (rawToken : jstr) (r : StoredApiKeyRecord)
| CreateOrg (rawToken : jstr) (r : StoredApiKeyRecord)
| Created (rawToken : jstr) (r : StoredApiKeyRecord)
| RevokeFind (keyId : jstr)
| RevokeRead (keyId tokenHash : jstr)
| RevokeWrite (keyId tokenHash : jstr) (record : jsval)
| RevokeIndex (keyId tokenHash : jstr) (record : jsval)
| RevokeEvict (tokenHash : jstr)
| Revoked (found : bool)
| Threw (e : exn).

Record ApiKeyStore := {
  storage : jsmap key jsval;
  cache : option (jsmap key (jsval * Z));
  cacheTtl : Z;
  clock : Z;
  calls : list call
}.

(** How the provider operation of a step ends; [DoneLate] throws although the
    operation took effect. *)
Inductive outcome := Done | Lost | DoneLate.

Definition completes (o : outcome) : bool := match o with Done => true | _ => false end.
Definition takes_effect (o : outcome) : bool := match o with Lost => false | _ => true end.

Definition with_storage (m : jsmap key jsval) (s : ApiKeyStore) : ApiKeyStore :=
  {| storage := m; cache := cache s; cacheTtl := cacheTtl s; clock := clock s; calls := calls s |}.
Definition with_cache (m : jsmap key (jsval * Z)) (s : ApiKeyStore) : ApiKeyStore :=
  {| storage := storage s; cache := match cache s with Some _ => Some m | None => None end;
     cacheTtl := cacheTtl s; clock := clock s; calls := calls s |}.
Definition with_calls (cs : list call) (s : ApiKeyStore) : ApiKeyStore :=
  {| storage := storage s; cache := cache s; cacheTtl := cacheTtl s; clock := clock s; calls := cs |}.
Definition at_clock (t : Z) (s : ApiKeyStore) : ApiKeyStore :=
  {| storage := storage s; cache := cache s; cacheTtl := cacheTtl s; clock := t; calls := calls s |}.

Definition has_cache (s : ApiKeyStore) : bool := match cache s with Some _ => true | None => false end.

(** [storage.get(key)] and [storage.set(key, value)] *)
Definition storage_get (s : ApiKeyStore) (k : key) : jsval := default JNull (map_get (storage s) k).
Definition storage_set (o : outcome) (k : key) (v : jsval) (s : ApiKeyStore) : ApiKeyStore :=
  if takes_effect o then with_storage (map_set (storage s) k v) s else s.

(** The cache's [get], [set(key, value, { ttl })] and [delete] *)
Definition cache_get (s : ApiKeyStore) (k : key) : jsval :=
  match cache s ≫= λ m, map_get m k with
  | Some (v, expires) => if clock s <? expires then v else JNull
  | None => JNull
  end.
Definition cache_set (o : outcome) (k : key) (v : jsval) (s : ApiKeyStore) : ApiKeyStore :=
  if takes_effect o
  then with_cache (map_set (default [] (cache s)) k (v, clock s + cacheTtl s * 1000)) s else s.
Definition cache_delete (o : outcome) (k : key) (s : ApiKeyStore) : ApiKeyStore :=
  if takes_effect o then with_cache (map_delete (default [] (cache s)) k) s else s.

(** [record.revokedAt = iso]; a primitive value throws (so does, in the model, an
    array, which the code would write back without the property). *)
Definition set_revoked (iso : jstr) (record : jsval) : option jsval :=
  match record with
  | JObj entries => Some (JObj (map_set entries (js "revokedAt") (JStr iso)))
  | _ => None
  end.

Section store.
Context `{Hashing, JsonParser}.

(** [verifyRawToken(rawToken)] until its first await *)
Definition verifyRawToken (s : ApiKeyStore) (rawToken : jstr) : call :=
  if jstr_eqb rawToken [] || negb (starts_with rawToken (js "rfk_")) then Verified None None (clock s)
  else VerifyCache (hashApiToken rawToken).

Definition verify_cache (o : outcome) (h : jstr) (s : ApiKeyStore) : ApiKeyStore * call :=
  if has_cache s && completes o then
    match cached_identity (cache_get s (cache_key h)) with
    | Some identity => (s, Verified (Some h) (Some identity) (clock s))
    | None => (s, VerifyStorage h)
    end
  else (s, VerifyStorage h).

Definition verify_storage (o : outcome) (h : jstr) (s : ApiKeyStore) : ApiKeyStore * call :=
  if completes o then
    match stored_identity h (storage_get s (token_key h)) with
    | None => (s, Verified (Some h) None (clock s))
    | Some identity =>
        if has_cache s && truthy (prop identity (js "callerId")) && truthy (prop identity (js "orgId"))
        then (s, VerifyPopulate h identity)
        else (s, Verified (Some h) (Some identity) (clock s))
    end
  else (s, Threw UnavailableError).

Definition verify_populate (o : outcome) (h : jstr) (identity : jsval) (s : ApiKeyStore) : ApiKeyStore * call :=
  (cache_set o (cache_key h) identity s, Verified (Some h) (Some identity) (clock s)).

(** One set of [createKey] *)
Definition create_set (o : outcome) (k : key) (v : jsval) (next : call) (s : ApiKeyStore) : ApiKeyStore * call :=
  (storage_set o k v s, if completes o then next else Threw UnavailableError).

(** [revokeKey(keyId)], up to the first await and after each operation *)
Definition revoke_find (o : outcome) (keyId : jstr) (s : ApiKeyStore) : ApiKeyStore * call :=
  if completes o then
    match storage_get s (id_key keyId) with
    | JStr ((_ :: _) as h) => (s, RevokeRead keyId h)
    | _ => (s, Revoked false)
    end
  else (s, Threw UnavailableError).

Definition revoke_read (o : outcome) (iso keyId h : jstr) (s : ApiKeyStore) : ApiKeyStore * call :=
  if completes o then
    let record := storage_get s (token_key h) in
    if truthy record then
      match set_revoked iso record with
      | Some record => (s, RevokeWrite keyId h record)
      | None => (s, Threw TypeError)
      end
    else (s, Revoked false)
  else (s, Threw UnavailableError).

Definition revoke_write (o : outcome) (keyId h : jstr) (record : jsval) (s : ApiKeyStore) : ApiKeyStore * call :=
  (storage_set o (token_key h) record s,
   if completes o then RevokeIndex keyId h record else Threw UnavailableError).

Definition revoke_index (o : outcome) (keyId h : jstr) (record : jsval) (s : ApiKeyStore) : ApiKeyStore * call :=
  match prop record (js "orgId") with
  | JStr org =>
      (storage_set o (org_key org keyId) record s,
       if completes o then RevokeEvict h else Threw UnavailableError)
  | _ => (s, Threw TypeError)
  end.

(** The eviction: its errors are ignored. *)
Definition revoke_evict (o : outcome) (h : jstr) (s : ApiKeyStore) : ApiKeyStore * call :=
  (if has_cache s then cache_delete o (cache_key h) s else s, Revoked true).

(** The next operation of a call; [iso] is the clock as an ISO string. *)
Definition step_call (o : outcome) (iso : jstr) (c : call) (s : ApiKeyStore) : ApiKeyStore * call :=
  match c with
  | VerifyCache h => verify_cache o h s
  | VerifyStorage h => verify_storage o h s
  | VerifyPopulate h identity => verify_populate o h identity s
  | CreateToken raw r => create_set o (token_key (ak_tokenHash r)) (key_record_value r) (CreateId raw r) s
  | CreateId raw r => create_set o (id_key (ak_id r)) (JStr (ak_tokenHash r)) (CreateOrg raw r) s
  | CreateOrg raw r => create_set o (org_key (ak_orgId r) (ak_id r)) (key_record_value r) (Created raw r) s
  | RevokeFind keyId => revoke_find o keyId s
  | RevokeRead keyId h => revoke_read o iso keyId h s
  | RevokeWrite keyId h record => revoke_write o keyId h record s
  | RevokeIndex keyId h record => revoke_index o keyId h record s
  | RevokeEvict h => revoke_evict o h s
  | Verified _ _ _ | Created _ _ | Revoked _ | Threw _ => (s, c)
  end.

Inductive event :=
| EVerify (rawToken : jstr)
| ECreate (rawToken : jstr) (r : StoredApiKeyRecord)
| ERevoke (keyId : jstr)
| EStep (i : nat) (o : outcome) (iso : jstr)
| EClock (t : Z).

Definition exec (s : ApiKeyStore) (e : event) : ApiKeyStore :=
  match e with
  | EVerify rawToken => with_calls (calls s ++ [verifyRawToken s rawToken]) s
  | ECreate rawToken r => with_calls (calls s ++ [CreateToken rawToken r]) s
  | ERevoke keyId => with_calls (calls s ++ [RevokeFind keyId]) s
  | EStep i o iso =>
      match calls s !! i with
      | Some c => let '(s', c') := step_call o iso c s in with_calls (<[i := c']> (calls s)) s'
      | None => s
      end
  | EClock t => at_clock t s
  end.

Definition run (s : ApiKeyStore) (es : list event) : ApiKeyStore := fold_left exec es s.

(** [hasAnyKeys()] and [listKeys(orgId)], over the provider's listing *)
Definition hasAnyKeys (listing : list (key * jsval)) : bool := (0 <? length (take 1 listing))%nat.

(** [records.sort(...)] by [createdAt], the latest first; the sort is stable.
    [localeCompare] of two ISO strings is the order of their code units. *)
Definition later_first (a b : jsval) : bool :=
  match prop a (js "createdAt"), prop b (js "createdAt") with
  | JStr x, JStr y => str_leb y x
  | _, _ => true
  end.
Fixpoint insert_record (r : jsval) (l : list jsval) : list jsval :=
  match l with
  | [] => [r]
  | x :: l' => if later_first r x then r :: l else x :: insert_record r l'
  end.
Definition listKeys (listing : list (key * jsval)) : list jsval :=
  foldr insert_record []
    (filter (λ v, truthy v && is_object v = true) (take 1000 listing).*2).
End store.

(** ** Keys *)

Lemma token_key_inj a b : token_key a = token_key b → a = b.
Proof. by intros [= ->]. Qed.
Lemma cache_key_inj a b : cache_key a = cache_key b → a = b.
Proof. by intros [= ->]. Qed.
Lemma token_id_key a b : id_key a ≠ token_key b.
Proof. intros H. apply (f_equal (λ k : key, k !! 1%nat)) in H. vm_compute in H. discriminate. Qed.
Lemma token_org_key a b c : org_key a b ≠ token_key c.
Proof. by intros H%(f_equal length). Qed.

(** ** Revocation *)

Section revocation.
Context `{Hashing, JsonParser}.
Implicit Types (s : ApiKeyStore) (h : jstr).

(** The primary store gives no identity for the token. *)
Definition refused (h : jstr) s : Prop := stored_identity h (storage_get s (token_key h)) = None.

(** The cache gives none from time [e] on. *)
Definition expires_by (h : jstr) (e : Z) s : Prop :=
  ∀ m v x, cache s = Some m → map_get m (cache_key h) = Some (v, x) → x <= e.

(** No call in flight is about to write an identity for the token. *)
Definition call_safe (h : jstr) (c : call) : Prop :=
  match c with
  | VerifyPopulate h' _ => h' ≠ h
  | CreateToken _ r => ak_tokenHash r ≠ h
  | RevokeWrite _ h' record => h' = h → stored_identity h record = None
  | _ => True
  end.

(** Nobody creates a key with the same hash, and clocks are not blank. *)
Definition event_safe (h : jstr) (e : event) : Prop :=
  match e with
  | ECreate _ r => ak_tokenHash r ≠ h
  | EStep _ _ iso => iso ≠ []
  | _ => True
  end.

Record closed (h : jstr) (e : Z) s : Prop := {
  cl_refused : refused h s;
  cl_cache : expires_by h e s;
  cl_calls : Forall (call_safe h) (calls s)
}.

(** A step of a call: what it may do to the stores and what it becomes *)
Lemma set_revoked_refused iso h record record' :
  iso ≠ [] → set_revoked iso record = Some record' → stored_identity h record' = None.
Proof.
  intros Hiso Hr. destruct record as [| | | | | |entries]; try done. injection Hr as <-.
  unfold stored_identity. cbn. rewrite map_get_set_eq. by destruct iso.
Qed.

Lemma storage_get_set o k v s k' :
  storage_get (storage_set o k v s) k' = if takes_effect o && bool_decide (k' = k) then v else storage_get s k'.
Proof.
  unfold storage_set, storage_get. destruct (takes_effect o); [|done]. cbn. rewrite map_get_set.
  repeat case_decide; repeat case_bool_decide; by subst.
Qed.

Lemma refused_other o k v s h : token_key h ≠ k → refused h s → refused h (storage_set o k v s).
Proof. intros Hne Hr. unfold refused. rewrite storage_get_set. rewrite bool_decide_eq_false_2 by done. by rewrite andb_false_r. Qed.

Lemma refused_write o h h' v s :
  (h' = h → stored_identity h v = None) → refused h s → refused h (storage_set o (token_key h') v s).
Proof.
  intros Hv Hr. unfold refused. rewrite storage_get_set. destruct (takes_effect o); [|done]. cbn.
  case_bool_decide as E; [|done]. apply Hv. by apply token_key_inj.
Qed.

Lemma expires_set o h h' v e s :
  h' ≠ h → expires_by h e s → expires_by h e (cache_set o (cache_key h') v s).
Proof.
  intros Hne He. unfold cache_set. destruct (takes_effect o); [|done]. unfold expires_by in *. cbn.
  destruct (cache s) as [m|]; [|done]. intros m' v' x [= <-]. cbn.
  rewrite map_get_set_ne by (by intros ?%cache_key_inj). by apply He.
Qed.

Lemma expires_delete o h h' e s : expires_by h e s → expires_by h e (cache_delete o (cache_key h') s).
Proof.
  intros He. unfold cache_delete. destruct (takes_effect o); [|done]. unfold expires_by in *. cbn.
  destruct (cache s) as [m|]; [|done]. intros m' v' x [= <-]. cbn.
  destruct (decide (cache_key h' = cache_key h)) as [->|Hne]; [by rewrite map_get_delete_eq|].
  rewrite map_get_delete_ne by done. by apply He.
Qed.

(** What a single step of a safe call does to a token that is refused *)
Lemma step_closed h e o iso c s :
  iso ≠ [] → refused h s → expires_by h e s → call_safe h c →
  let '(s', c') := step_call o iso c s in
  refused h s' ∧ expires_by h e s' ∧ call_safe h c' ∧ clock s' = clock s ∧
  ∀ id t, c' = Verified (Some h) (Some id) t → c = c' ∨ t < e.
Proof.
  intros Hiso Hr He Hc.
  destruct c as [h'|h'|h' id'| | | | | |k|k h'|k h' rec|k h' rec|h'| |]; cbn [step_call];
    try (split_and!; [done..|intros; by left]).
  - unfold verify_cache. destruct (has_cache s) eqn:Eh, (completes o); cbn [andb]; try done.
    destruct (cached_identity _) as [id|] eqn:Ec; [|done]. split_and!; try done.
    intros id' t [= -> -> <-]. right. unfold cached_identity, cache_get in Ec.
    destruct (cache s) as [m|] eqn:Em; [|done]. cbn in Ec.
    destruct (map_get m (cache_key h)) as [[v x]|] eqn:Eg; [|done].
    specialize (He m v x Em Eg). destruct (Z.ltb_spec (clock s) x); [lia|done].
  - unfold verify_storage. destruct (completes o); [|done].
    destruct (stored_identity h' _) as [id|] eqn:Es; [|done].
    assert (h' ≠ h) as Hne by (intros ->; unfold refused in Hr; congruence).
    destruct (_ && _ && _); split_and!; try done; intros; simplify_eq.
  - unfold verify_populate. split_and!; [|by apply expires_set| | |]; try done.
    + unfold cache_set, refused. by destruct (takes_effect o).
    + unfold cache_set. by destruct (takes_effect o).
    + intros id t [= -> _ _]. done.
  - cbn in Hc. unfold create_set. split_and!; [by apply refused_write|..];
      unfold storage_set; destruct (takes_effect o); try done; destruct (completes o); done.
  - unfold create_set. split_and!; [by apply refused_other; [apply not_eq_sym, token_id_key|]|..];
      unfold storage_set; destruct (takes_effect o); try done; destruct (completes o); done.
  - unfold create_set. split_and!; [by apply refused_other; [apply not_eq_sym, token_org_key|]|..];
      unfold storage_set; destruct (takes_effect o); try done; destruct (completes o); done.
  - unfold revoke_find. destruct (completes o); [|done].
    destruct (storage_get s _) as [| | | |[|]| |]; done.
  - unfold revoke_read. destruct (completes o); [|done]. destruct (truthy _); [|done].
    destruct (set_revoked _ _) as [rec|] eqn:E; [|done]. split_and!; try done.
    intros ->. by eapply set_revoked_refused.
  - unfold revoke_write. split_and!; [by apply refused_write|..];
      unfold storage_set; destruct (takes_effect o); try done; destruct (completes o); done.
  - unfold revoke_index. destruct (prop rec _); try done. split_and!;
      [by apply refused_other; [apply not_eq_sym, token_org_key|]|..];
      unfold storage_set; destruct (takes_effect o); try done; destruct (completes o); done.
  - unfold revoke_evict. destruct (has_cache s) eqn:Eh; [|done]. split_and!; [|by apply expires_delete|..]; try done;
      unfold cache_delete, refused; destruct (takes_effect o); done.
Qed.
(** An acceptance of the token by the call [i] *)
Definition accepted (h : jstr) (i : nat) (t : Z) s : Prop := ∃ id, calls s !! i = Some (Verified (Some h) (Some id) t).

Lemma exec_closed h e s ev :
  closed h e s → event_safe h ev →
  closed h e (exec s ev) ∧ ∀ i t, accepted h i t (exec s ev) → accepted h i t s ∨ t < e.
Proof.
  intros [Hr He Hc] Hev.
  assert (∀ c, call_safe h c → (∀ id t, c ≠ Verified (Some h) (Some id) t) →
    closed h e (with_calls (calls s ++ [c]) s) ∧
    ∀ i t, accepted h i t (with_calls (calls s ++ [c]) s) → accepted h i t s ∨ t < e) as Hnew.
  { intros c Hs Hn. split; [split; [done..|]; apply Forall_app; by repeat constructor|].
    intros i t [id Hi]. left. exists id. cbn in Hi. apply lookup_app_Some in Hi as [?|[_ Hi]]; [done|].
    apply list_lookup_singleton_Some in Hi as [_ Hi]. by destruct (Hn id t). }
  destruct ev as [raw|raw r|k|i o iso|t]; cbn [exec].
  - apply Hnew; unfold verifyRawToken; by destruct (_ || _).
  - by apply Hnew.
  - by apply Hnew.
  - destruct (calls s !! i) as [c|] eqn:Ei; [|by split; [|left]].
    pose proof (step_closed h e o iso c s Hev Hr He) as Hs.
    destruct (step_call o iso c s) as [s' c'].
    destruct Hs as (Hr' & He' & Hc' & _ & Hacc); [by eapply (Forall_lookup_1 _ _ _ _ Hc)|].
    split; [split; [done..|by apply Forall_insert]|]. intros j t [id Hj]. cbn in Hj.
    destruct (decide (i = j)) as [<-|Hne].
    + rewrite list_lookup_insert_eq in Hj by by eapply lookup_lt_Some. injection Hj as ->.
      destruct (Hacc id t eq_refl) as [->|]; [left; by exists id|by right].
    + rewrite list_lookup_insert_ne in Hj by done. left. by exists id.
  - split; [by split|by left].
Qed.

(** Once the token is refused by the primary store and nothing in flight can
    write it back, it is accepted at most until its cache entry expires. *)
Lemma revocation_window h e s evs :
  closed h e s → Forall (event_safe h) evs →
  closed h e (run s evs) ∧ ∀ i t, accepted h i t (run s evs) → accepted h i t s ∨ t < e.
Proof.
  intros Hc Hev. revert s Hc. induction Hev as [|ev evs Hev _ IH]; intros s Hc; [split; [done|by left]|].
  destruct (exec_closed h e s ev Hc Hev) as [Hc' Hacc]. destruct (IH _ Hc') as [Hc'' Hacc'].
  split; [exact Hc''|]. intros i t [Ha|Ha]%Hacc'; [by apply Hacc|by right].
Qed.

Lemma exec_last cs c s o iso s' c' :
  step_call o iso c (with_calls (cs ++ [c]) s) = (s', c') →
  exec (with_calls (cs ++ [c]) s) (EStep (length cs) o iso) = with_calls (cs ++ [c']) s'.
Proof.
  intros Hstep. cbn [exec calls with_calls]. rewrite lookup_app_r, Nat.sub_diag by lia. cbn [lookup list_lookup].
  rewrite Hstep. by rewrite insert_app_r_alt, Nat.sub_diag by lia.
Qed.

(** [revokeKey(keyId)] without interruption, as call [n] *)
Definition revoke_events (n : nat) (keyId iso : jstr) : list event :=
  [ERevoke keyId; EStep n Done iso; EStep n Done iso; EStep n Done iso; EStep n Done iso; EStep n Done iso].

(** *** Revocation among other calls *)

(** What a call may be about to do to the token of [h]: it does not create it
    again, it writes back a revoked record only, and once a revocation is past its
    first write the primary store refuses the token. *)
Definition orderly (h : jstr) s (c : call) : Prop :=
  match c with
  | CreateToken _ r => ak_tokenHash r ≠ h
  | RevokeWrite _ h' record => h' = h → stored_identity h record = None
  | RevokeIndex _ h' _ | RevokeEvict h' => h' = h → refused h s
  | _ => True
  end.

Lemma orderly_later h s s' c : (refused h s → refused h s') → orderly h s c → orderly h s' c.
Proof. destruct c; cbn; auto. Qed.

Lemma step_orderly h o iso c s :
  iso ≠ [] → orderly h s c →
  let '(s', c') := step_call o iso c s in
  (refused h s → refused h s') ∧ orderly h s' c' ∧ calls s' = calls s.
Proof.
  intros Hiso Hc.
  assert (∀ k v, calls (storage_set o k v s) = calls s) as Hcs
    by (intros; unfold storage_set; by destruct (takes_effect o)).
  assert (∀ k m, calls (cache_set o k m s) = calls s ∧ (refused h s → refused h (cache_set o k m s))) as Hca
    by (intros; unfold cache_set, refused; by destruct (takes_effect o)).
  destruct c as [h'|h'|h' id'| |raw r|raw r|raw r| |k|k h'|k h' rec|k h' rec|h'| |]; cbn [step_call];
    try (by split_and!).
  - unfold verify_cache. destruct (_ && _); [|done]. by destruct (cached_identity _).
  - unfold verify_storage. destruct (completes o); [|done]. destruct (stored_identity h' _); [|done].
    by destruct (_ && _ && _).
  - unfold verify_populate. destruct (Hca (cache_key h') id'). done.
  - unfold create_set. cbn in Hc. split_and!; [by apply refused_write|by destruct (completes o)|done].
  - unfold create_set. split_and!; [|by destruct (completes o)|done].
    apply refused_other. apply not_eq_sym, token_id_key.
  - unfold create_set. split_and!; [|by destruct (completes o)|done].
    apply refused_other. apply not_eq_sym, token_org_key.
  - unfold revoke_find. destruct (completes o); [|done]. by destruct (storage_get s _) as [| | | |[|]| |].
  - unfold revoke_read. destruct (completes o); [|done]. destruct (truthy _); [|done].
    destruct (set_revoked _ _) as [rec|] eqn:E; [|done]. split_and!; try done.
    intros ->. by eapply set_revoked_refused.
  - unfold revoke_write. cbn in Hc. split_and!; [by apply refused_write| |done].
    destruct (completes o) eqn:Eo; [|done]. cbn. intros ->. unfold refused. rewrite storage_get_set.
    rewrite bool_decide_eq_true_2 by done. destruct o; try done. by apply Hc.
  - unfold revoke_index. destruct (prop rec _); try done.
    assert (∀ org, refused h s → refused h (storage_set o (org_key org k) rec s)) as Hr
      by (intros; apply refused_other; [apply not_eq_sym, token_org_key|done]).
    split_and!; [apply Hr| |done]. destruct (completes o); [|done]. cbn. intros Hh. by apply Hr, Hc.
  - unfold revoke_evict, cache_delete, refused. destruct (has_cache s); [|done]. by destruct (takes_effect o).
Qed.

Lemma exec_orderly h s ev :
  Forall (orderly h s) (calls s) → event_safe h ev → Forall (orderly h (exec s ev)) (calls (exec s ev)).
Proof.
  intros Hs Hev.
  assert (∀ c, orderly h s c → Forall (orderly h (with_calls (calls s ++ [c]) s)) (calls s ++ [c])) as Hnew
    by (intros c Hc; apply Forall_app; split; [|constructor; [|done]]; done).
  destruct ev as [raw|raw r|k|i o iso|t]; cbn [exec].
  - apply Hnew. unfold verifyRawToken. by destruct (_ || _).
  - by apply Hnew.
  - by apply Hnew.
  - destruct (calls s !! i) as [c|] eqn:Ei; [|done].
    pose proof (step_orderly h o iso c s Hev) as Hstep. destruct (step_call o iso c s) as [s' c'].
    destruct Hstep as (Hr & Hc' & _); [by eapply Forall_lookup_1|].
    apply Forall_insert; [|done]. eapply Forall_impl; [exact Hs|]. intros c0. by apply orderly_later.
  - done.
Qed.

Lemma run_orderly h s evs :
  Forall (orderly h s) (calls s) → Forall (event_safe h) evs → Forall (orderly h (run s evs)) (calls (run s evs)).
Proof.
  intros Hs Hev. revert s Hs. induction Hev as [|ev evs Hev _ IH]; intros s Hs; [done|].
  by apply IH, exec_orderly.
Qed.

(** C20: When [revokeKey] has returned true the token is final.  Let any calls be
    under way, none of which creates the token or is past the read of another
    revocation of it, and let a revocation start; let its operations interleave
    with those of any other calls, which fail or succeed, up to the point where it
    is about to evict the token of hash [h] from the cache.  If the eviction takes
    effect and no verification of that token is then between its read of the
    primary store and its write to the cache, then the call returns true, and
    whatever runs afterwards, in whatever interleaving, with whatever failures and
    at whatever times, no verification that had not accepted the token by then
    accepts it.  If the eviction fails, whose errors are ignored, the same holds
    from the time on at which the cache entry expires.  Throughout, no key with
    the same hash is created, and clocks give non-blank times. *)
Theorem revocation_final s keyId h evs1 o iso evs2 :
  Forall (λ c, match c with
               | CreateToken _ r => ak_tokenHash r ≠ h
               | RevokeWrite _ h' _ | RevokeIndex _ h' _ | RevokeEvict h' => h' ≠ h
               | _ => True end) (calls s) →
  Forall (event_safe h) (evs1 ++ evs2) → iso ≠ [] →
  let n := length (calls s) in
  let s1 := run (exec s (ERevoke keyId)) evs1 in
  calls s1 !! n = Some (RevokeEvict h) → Forall (λ c, ∀ id, c ≠ VerifyPopulate h id) (calls s1) →
  let s2 := exec s1 (EStep n o iso) in
  calls s2 !! n = Some (Revoked true) ∧
  (takes_effect o = true → ∀ i t, accepted h i t (run s2 evs2) → accepted h i t s1) ∧
  (∀ e, expires_by h e s1 → ∀ i t, accepted h i t (run s2 evs2) → accepted h i t s1 ∨ t < e).
Proof.
  intros Hs [Hev1 Hev2]%Forall_app Hiso n s1 Hn Hpop s2.
  assert (Forall (orderly h s1) (calls s1)) as Hord.
  { apply run_orderly; [|done]. cbn. apply Forall_app. split; [|by constructor].
    eapply Forall_impl; [exact Hs|]. intros c Hc. destruct c; cbn in *; try done; by intros ->. }
  assert (refused h s1) as Href by (by eapply (Forall_lookup_1 _ _ _ _ Hord Hn)).
  assert (Forall (call_safe h) (calls s1)) as Hsafe.
  { apply Forall_forall. intros c Hc. eapply Forall_forall in Hord; [|exact Hc].
    eapply Forall_forall in Hpop; [|exact Hc]. destruct c; cbn in *; try done. intros ->. by destruct (Hpop identity). }
  assert (calls s2 = <[n := Revoked true]> (calls s1)) as Hcalls.
  { unfold s2. cbn [exec]. rewrite Hn. cbn [step_call]. unfold revoke_evict, cache_delete.
    destruct (has_cache s1); [|done]. by destruct (takes_effect o). }
  assert (∀ i t, accepted h i t s2 → accepted h i t s1) as Hback.
  { intros i t [id Hi]. exists id. rewrite Hcalls in Hi. apply list_lookup_insert_Some in Hi as [(_ & ? & _)|[_ ?]]; done. }
  assert (∀ e, expires_by h e s2 → ∀ i t, accepted h i t (run s2 evs2) → accepted h i t s1 ∨ t < e) as Hwin.
  { intros e He i t Ha. destruct (revocation_window h e s2 evs2) as [_ Hacc]; [|done|].
    - split; [|done|rewrite Hcalls; by apply Forall_insert].
      unfold s2. cbn [exec]. rewrite Hn. cbn [step_call]. unfold revoke_evict, cache_delete, refused.
      destruct (has_cache s1); [|done]. by destruct (takes_effect o).
    - destruct (Hacc i t Ha) as [Hi|?]; [left; by apply Hback|by right]. }
  split_and!.
  - rewrite Hcalls. apply list_lookup_insert_eq. by eapply lookup_lt_Some.
  - intros Ho i t Ha. destruct (Hwin t) with (i := i) (t := t) as [?|?]; [|done|done|lia].
    intros m v x Hm Hg. unfold s2 in Hm. cbn [exec] in Hm. rewrite Hn in Hm. cbn [step_call] in Hm.
    unfold revoke_evict, has_cache, cache_delete in Hm. rewrite Ho in Hm. cbn in Hm.
    destruct (cache s1) as [m0|] eqn:Em; cbn in Hm; [|by rewrite Em in Hm]. rewrite Em in Hm.
    injection Hm as <-. change (map_get (map_delete m0 (cache_key h)) (cache_key h) = Some (v, x)) in Hg.
    by rewrite map_get_delete_eq in Hg.
  - intros e He. apply Hwin. intros m v x Hm Hg. unfold s2 in Hm. cbn [exec] in Hm. rewrite Hn in Hm.
    cbn [step_call] in Hm. unfold revoke_evict in Hm.
    destruct (has_cache s1); [|by eapply He]. eapply (expires_delete o h h e s1 He); done.
Qed.
End revocation.

(** ** A key's life *)

Section life.
Context `{Hashing, JsonParser}.

(** [createKey] without interruption, as call [n]; then a verification, as call
    [n + 1], which the cache does not answer *)
Definition create_events (n : nat) (raw : jstr) (r : StoredApiKeyRecord) : list event :=
  [ECreate raw r; EStep n Done []; EStep n Done []; EStep n Done []].

Lemma run_create (s : ApiKeyStore) raw r :
  run s (create_events (length (calls s)) raw r) =
  with_calls (calls s ++ [Created raw r])
    (with_storage (map_set (map_set (map_set (storage s) (token_key (ak_tokenHash r)) (key_record_value r))
                                    (id_key (ak_id r)) (JStr (ak_tokenHash r)))
                           (org_key (ak_orgId r) (ak_id r)) (key_record_value r)) s).
Proof.
  unfold run, create_events. cbn [fold_left].
  change (exec s (ECreate raw r)) with (with_calls (calls s ++ [CreateToken raw r]) s).
  erewrite (exec_last (calls s) (CreateToken raw r) _ _ _ _ (CreateId raw r)) by reflexivity.
  erewrite (exec_last (calls s) (CreateId raw r) _ _ _ _ (CreateOrg raw r)) by reflexivity.
  erewrite (exec_last (calls s) (CreateOrg raw r) _ _ _ _ (Created raw r)) by reflexivity.
  by destruct s.
Qed.

Lemma stored_identity_new r : ak_name r ≠ [] → ak_orgId r ≠ [] →
  stored_identity (ak_tokenHash r) (key_record_value r) =
    Some (JObj [(js "callerId", JStr (ak_name r)); (js "orgId", JStr (ak_orgId r));
                (js "projectId", opt_str (ak_projectId r)); (js "tokenHash", JStr (ak_tokenHash r));
                (js "callerType", JStr (js "token"))]).
Proof. reflexivity. Qed.

(** A created token is accepted with the trimmed name and organisation it was
    created with. *)
Lemma created_key_accepted (s : ApiKeyStore) name org project id bytes iso :
  let '(raw, r) := new_key name org project id bytes iso in
  trim name ≠ [] → trim org ≠ [] → cached_identity (cache_get s (cache_key (ak_tokenHash r))) = None →
  let s1 := run s (create_events (length (calls s)) raw r) in
  verifyRawToken s1 raw = VerifyCache (ak_tokenHash r) ∧
  (verify_cache Done (ak_tokenHash r) s1).2 = VerifyStorage (ak_tokenHash r) ∧
  ∃ identity, prop identity (js "callerId") = JStr (trim name) ∧ prop identity (js "orgId") = JStr (trim org) ∧
    (verify_storage Done (ak_tokenHash r) s1).2 =
      if has_cache s then VerifyPopulate (ak_tokenHash r) identity
      else Verified (Some (ak_tokenHash r)) (Some identity) (clock s).
Proof.
  unfold new_key. cbv beta iota zeta. set (raw := js "rfk_" ++ bytes_hex bytes).
  set (r := Build_StoredApiKeyRecord _ _ _ _ _ _). intros Hn Ho Hc. set (s1 := run _ _).
  assert (storage_get s1 (token_key (ak_tokenHash r)) = key_record_value r) as Hg.
  { unfold s1. rewrite run_create. unfold storage_get. cbn [storage with_calls with_storage].
    rewrite !map_get_set_ne, map_get_set_eq by (apply token_org_key || apply token_id_key). done. }
  assert (cache_get s1 = cache_get s ∧ has_cache s1 = has_cache s ∧ clock s1 = clock s) as (Hcg & Hhc & Hck).
  { unfold s1. rewrite run_create. done. }
  split_and!.
  - unfold verifyRawToken, raw. rewrite starts_with_app. done.
  - unfold verify_cache. rewrite Hcg, Hhc. destruct (has_cache s); [|done]. cbn [andb completes]. by rewrite Hc.
  - unfold verify_storage. cbn [completes]. rewrite Hg, stored_identity_new, Hhc, Hck by done.
    set (identity := JObj _). exists identity.
    assert (prop identity (js "callerId") = JStr (trim name)) as Hi1 by reflexivity.
    assert (prop identity (js "orgId") = JStr (trim org)) as Hi2 by reflexivity.
    rewrite Hi1, Hi2. split; [done|]. split; [done|].
    destruct (has_cache s), (trim name), (trim org); done.
Qed.
End life.

(** *** Concrete runs *)

#[local] Instance demo_hashing : Hashing :=
  {| sha256 := λ data, data; encodeHex := λ data, data; encodeBase64 := λ data, data |}.
#[local] Instance demo_parser : JsonParser := λ _, Err TypeError.

Definition demo_key : jstr * StoredApiKeyRecord := new_key (js "ci") (js "acme") None (js "K1") [1; 2] (js "2026").
Definition demo_store : ApiKeyStore :=
  run {| storage := []; cache := Some []; cacheTtl := 300; clock := 1000; calls := [] |}
      (create_events 0 demo_key.1 demo_key.2).

(** A verification, as call [n], that misses the cache: until it is about to
    write the cache, and to the end *)
Definition read_events (n : nat) : list event :=
  [EVerify demo_key.1; EStep n Done (js "2026"); EStep n Done (js "2026")].

(** A revocation with a verification between its steps, which is still accepted;
    the next one is not. *)
Definition until_eviction : list event :=
  let i := js "2027" in
  [EStep 2 Done i; EVerify demo_key.1; EStep 2 Done i; EStep 3 Done i; EStep 2 Done i; EStep 2 Done i].

Theorem revocation_final_witness :
  let h := ak_tokenHash demo_key.2 in
  let s := run demo_store (read_events 1 ++ [EStep 1 Done (js "2026")]) in
  let s1 := run (exec s (ERevoke (js "K1"))) until_eviction in
  accepted h 1 1000 s1 ∧ accepted h 3 1000 s1 ∧
  let s2 := exec s1 (EStep 2 Done (js "2027")) in
  calls s2 !! 2%nat = Some (Revoked true) ∧ ∀ t, ¬ accepted h 4 t (run s2 (read_events 4)).
Proof.
  intros h s s1. split; [eexists; vm_compute; reflexivity|]. split; [eexists; vm_compute; reflexivity|].
  destruct (revocation_final s (js "K1") h until_eviction Done (js "2027") (read_events 4)) as (Hr & Hfin & _).
  - vm_compute. repeat constructor.
  - repeat constructor; vm_compute; discriminate.
  - vm_compute. discriminate.
  - vm_compute. reflexivity.
  - vm_compute. repeat constructor; discriminate.
  - split; [exact Hr|]. intros t Ha. apply (Hfin eq_refl) in Ha as [id Hi]. vm_compute in Hi. discriminate.
Defined.

(** A verification that has read the record before the revocation writes the
    cache after it: the revoked token is accepted for the cache's time to live. *)
Lemma revocation_race :
  let h := ak_tokenHash demo_key.2 in
  let s := run demo_store (read_events 1 ++ revoke_events 2 (js "K1") (js "2027") ++
                           [EStep 1 Done (js "2027"); EClock 300999; EVerify demo_key.1; EStep 3 Done (js "2027")]) in
  calls s !! 2%nat = Some (Revoked true) ∧ accepted h 3 300999 s.
Proof. vm_compute. split; [reflexivity|eexists; reflexivity]. Qed.

(** The eviction fails silently: [revokeKey] returns true and the token is still
    accepted. *)
Lemma eviction_failure_ignored :
  let h := ak_tokenHash demo_key.2 in
  let i := js "2027" in
  let s := run demo_store (read_events 1 ++ [EStep 1 Done i; ERevoke (js "K1"); EStep 2 Done i; EStep 2 Done i;
                           EStep 2 Done i; EStep 2 Done i; EStep 2 Lost i; EVerify demo_key.1; EStep 3 Done i]) in
  calls s !! 2%nat = Some (Revoked true) ∧ accepted h 3 1000 s.
Proof. vm_compute. split; [reflexivity|eexists; reflexivity]. Qed.
