(* ===== verification/AuthMiddleware.v ===== *)
(** * Credentials and the authentication middleware
    ([packages/auth/verifier.ts], [packages/auth/middleware.ts], PLAT-6, PLAT-9, PLAT-15)

    An identity is the value the key store returns ([ApiKeys.identity_of]) or a
    configured one; a request is what the middleware reads of it. *)

From S2P Require Import Prelude JsString JsMap JsNumber JsValue Errors ApiKeys.

Open Scope Z_scope.

(** ** Tokens and rate limit keys *)

Definition ascii_lower (s : jstr) : jstr := map (λ c, if is_upper c then c + 32 else c) s.

(** [authHeader.match(/^Bearer\s+(\S+)$/i)?.[1]]: after the spaces everything up
    to the end is the token. *)
Definition extractBearerToken (authHeader : option jstr) : option jstr :=
  match authHeader with
  | None => None
  | Some header =>
      if jstr_eqb (ascii_lower (take 6 header)) (js "bearer") then
        match drop 6 header with
        | c :: rest =>
            let token := trim_start rest in
            if is_space c && negb (jstr_eqb token []) && forallb (λ c, negb (is_space c)) token
            then Some token else None
        | [] => None
        end
      else None
  end.

Record IdentityContext := {
  callerId : jstr;
  i_orgId : jstr;
  i_projectId : option jstr;
  tokenHash : option jstr;
  callerType : jstr
}.

Inductive limit_scope := ByIp | ByIdentity | ByProject.

Definition deriveRateLimitKey (scope : limit_scope) (context : IdentityContext) (clientIp : option jstr) : jstr :=
  match scope with
  | ByIp => js "ip:" ++ default (js "unknown") clientIp
  | ByIdentity => js "identity:" ++ default (callerId context) (tokenHash context)
  | ByProject => js "project:" ++ default (i_orgId context) (i_projectId context)
  end.

Record AuthRecord := {
  au_tokenHash : jstr;
  au_orgId : jstr;
  au_projectId : option jstr;
  au_name : jstr
}.

Definition record_identity (r : AuthRecord) : IdentityContext :=
  {| callerId := au_name r; i_orgId := au_orgId r; i_projectId := au_projectId r;
     tokenHash := Some (au_tokenHash r); callerType := js "token" |}.

(** [verifyApiToken(token, records)]; an entry may be [null]. *)
Definition verifyApiToken (token : jstr) (records : jsmap jstr (option AuthRecord)) : option IdentityContext :=
  match token with
  | [] => None
  | _ =>
      match map_get records token with
      | Some record => record_identity <$> record
      | None =>
          record_identity <$>
            (list_find (λ r, au_tokenHash r = token) (omap id (map_values records)) ≫= λ p, Some p.2)
      end
  end.

(** [sanitizeIdentityForLogging(context)] *)
Record LoggedIdentity := { log_context : IdentityContext; tokenHashRedacted : bool }.
Definition sanitizeIdentityForLogging (context : IdentityContext) : LoggedIdentity :=
  {| log_context := {| callerId := callerId context; i_orgId := i_orgId context;
                       i_projectId := i_projectId context; tokenHash := None; callerType := callerType context |};
     tokenHashRedacted := match tokenHash context with Some _ => true | None => false end |}.

(** ** The middleware *)

(** The path of the URL and the two headers *)
Record auth_request := {
  q_pathname : jstr;
  q_authorization : option jstr;
  q_api_key : option jstr
}.

(** [createAuthErrorResponse(status, code, message, requestId)] *)
Record auth_error := { e_status : Z; e_code : jstr; e_message : jstr; e_request_id : jstr }.
Definition createAuthErrorResponse (status : Z) (code message requestId : jstr) : auth_error :=
  {| e_status := status; e_code := code; e_message := message; e_request_id := requestId |}.

Inductive AuthResult :=
| Allowed (context : jsval)
| Denied (response : auth_error).

Record AuthMiddlewareOptions := {
  apiKeyStore : option (jstr → result exn (option jsval));
  staticTokens : option (jsmap jstr jsval);
  allowAnonymousPaths : option (list jstr);
  requireMatchingProject : bool
}.

Definition anonymous_identity : jsval :=
  JObj [(js "callerId", JStr (js "anonymous")); (js "orgId", JStr []); (js "callerType", JStr (js "anonymous"))].

(** [if (pathname.length > 1 && pathname.endsWith("/")) pathname = pathname.slice(0, -1)] *)
Definition strip_slash (pathname : jstr) : jstr :=
  if (1 <? length pathname)%nat && ends_with pathname (js "/")
  then take (length pathname - 1) pathname else pathname.

(** The credentials of a request *)
Definition presented_token (req : auth_request) : option jstr :=
  match extractBearerToken (q_authorization req) with
  | Some ((_ :: _) as token) => Some token
  | _ => match q_api_key req with
         | Some header => match trim header with [] => None | token => Some token end
         | None => None
         end
  end.

Fixpoint until_slash (s : jstr) : jstr :=
  match s with [] => [] | c :: s => if c =? chr "/" then [] else c :: until_slash s end.

Definition PROJECTS : jstr := Eval vm_compute in js "/v1/projects/".

(** [pathname.match(/^\/v1\/projects\/([^/]+)/)?.[1]] *)
Definition project_of_path (pathname : jstr) : option jstr :=
  if starts_with pathname PROJECTS then
    match until_slash (slice_from (length PROJECTS) pathname) with [] => None | p => Some p end
  else None.

(** The project boundary: the projects named by the token and by the path, when
    they differ *)
Definition project_mismatch (required : bool) (identity : jsval) (pathname : jstr) : option (jsval * jstr) :=
  if required && truthy (prop identity (js "projectId")) then
    match project_of_path pathname with
    | Some p => match prop identity (js "projectId") with
                | JStr q => if jstr_eqb p q then None else Some (JStr q, p)
                | v => Some (v, p)
                end
    | None => None
    end
  else None.

Definition missing_credentials : jstr := js "Missing authorization credentials (PLAT-6, PLAT-12). Provide Authorization: Bearer <key> or x-api-key header.".
Definition invalid_credentials : jstr := js "Invalid or revoked API key (PLAT-6, PLAT-12).".
(** Only a string can be interpolated here: projects of tokens are strings. *)
Definition scope_message (scoped : jsval) (requested : jstr) : jstr :=
  js "Access denied: API token is scoped to project '" ++ default [] (as_str scoped) ++
  js "' but requested '" ++ requested ++ js "' (PLAT-6).".

Definition deny (message requestId : jstr) : AuthResult :=
  Denied (createAuthErrorResponse 403 (code_string PERMISSION_DENIED) message requestId).

Definition createAuthMiddleware (options : AuthMiddlewareOptions) (req : auth_request) (requestId : jstr) : AuthResult :=
  let anonymousPaths := default [js "/healthz"; js "/login"] (allowAnonymousPaths options) in
  let pathname := strip_slash (q_pathname req) in
  if bool_decide (pathname ∈ anonymousPaths) then Allowed anonymous_identity
  else
    match presented_token req with
    | None => deny missing_credentials requestId
    | Some token =>
        match staticTokens options ≫= λ m, map_get m token with
        | Some context => Allowed context
        | None =>
            match apiKeyStore options with
            | None => deny invalid_credentials requestId
            | Some verifyRawToken =>
                match verifyRawToken token with
                | Ok (Some identity) =>
                    match project_mismatch (requireMatchingProject options) identity pathname with
                    | Some (scoped, requested) => deny (scope_message scoped requested) requestId
                    | None => Allowed identity
                    end
                | _ => deny invalid_credentials requestId
                end
            end
        end
    end.

(** ** What passes *)

(** The identity a request has by its credentials *)
Definition authenticated (options : AuthMiddlewareOptions) (req : auth_request) (context : jsval) : Prop :=
  ∃ token, presented_token req = Some token ∧
    ((staticTokens options ≫= λ m, map_get m token) = Some context ∨
     (staticTokens options ≫= λ m, map_get m token) = None ∧
     ∃ verify, apiKeyStore options = Some verify ∧ verify token = Ok (Some context) ∧
       project_mismatch (requireMatchingProject options) context (strip_slash (q_pathname req)) = None).

Definition anonymous_path (options : AuthMiddlewareOptions) (req : auth_request) : Prop :=
  strip_slash (q_pathname req) ∈ default [js "/healthz"; js "/login"] (allowAnonymousPaths options).

Lemma middleware_allows options req requestId context :
  createAuthMiddleware options req requestId = Allowed context ↔
  (anonymous_path options req ∧ context = anonymous_identity) ∨
  (¬ anonymous_path options req ∧ authenticated options req context).
Proof.
  unfold createAuthMiddleware, anonymous_path, authenticated. case_bool_decide as Ea; [naive_solver|].
  destruct (presented_token req) as [token|]; [|naive_solver].
  set (found := staticTokens options ≫= λ m, map_get m token).
  trans (found = Some context ∨ found = None ∧ ∃ verify, apiKeyStore options = Some verify ∧
    verify token = Ok (Some context) ∧
    project_mismatch (requireMatchingProject options) context (strip_slash (q_pathname req)) = None).
  - destruct found as [c|]; [naive_solver|]. unfold deny.
    destruct (apiKeyStore options) as [verify|]; [|split; [done|intros [?|(_ & v & ? & _)]; done]].
    destruct (verify token) as [[identity|]|e] eqn:Ev;
      [|split; [done|intros [?|(_ & v & ? & ? & _)]; simplify_eq; congruence]..].
    destruct (project_mismatch _ identity _) as [[scoped requested]|] eqn:Ep; split.
    + done.
    + intros [?|(_ & v & Hv0 & Hv & Hp)]; simplify_eq; congruence.
    + intros [= <-]. right. split; [done|]. by exists verify.
    + intros [?|(_ & v & Hv0 & Hv & _)]; simplify_eq; congruence.
  - split.
    + intros Hf. right. split; [done|]. by exists token.
    + intros [[? _]|(_ & t & Ht & Hf)]; [done|]. by simplify_eq.
Qed.

Lemma middleware_denies options req requestId response :
  createAuthMiddleware options req requestId = Denied response →
  e_status response = statusFromErrorCode PERMISSION_DENIED ∧
  e_code response = code_string PERMISSION_DENIED ∧ e_request_id response = requestId.
Proof.
  unfold createAuthMiddleware, deny. intros Hr. destruct (bool_decide _); [done|].
  destruct (presented_token req) as [token|]; [|by injection Hr as <-].
  destruct (staticTokens options ≫= _); [done|].
  destruct (apiKeyStore options) as [verify|]; [|by injection Hr as <-].
  destruct (verify token) as [[identity|]|e]; [|by injection Hr as <-..].
  destruct (project_mismatch _ identity _) as [[scoped requested]|]; [by injection Hr as <-|done].
Qed.

(** The gate is exact: a request passes if and only if its path is declared
    anonymous or it presents a configured token or a token the key store verifies
    (within its project, where that is required); every other request gets the
    status 403 with its own request id, and the answer to a token that is not
    known is the same for all such tokens: it reveals nothing of the token. *)
Theorem auth_gate options req requestId :
  (∀ context, createAuthMiddleware options req requestId = Allowed context ↔
     (anonymous_path options req ∧ context = anonymous_identity) ∨
     (¬ anonymous_path options req ∧ authenticated options req context)) ∧
  (∀ response, createAuthMiddleware options req requestId = Denied response →
     e_status response = statusFromErrorCode PERMISSION_DENIED ∧
     e_code response = code_string PERMISSION_DENIED ∧ e_request_id response = requestId) ∧
  (∀ token, presented_token req = Some token → ¬ anonymous_path options req →
     (staticTokens options ≫= λ m, map_get m token) = None →
     (∀ verify, apiKeyStore options = Some verify → ∀ identity, verify token ≠ Ok (Some identity)) →
     createAuthMiddleware options req requestId = deny invalid_credentials requestId).
Proof.
  split_and!.
  - intros context. apply middleware_allows.
  - intros response. apply middleware_denies.
  - intros token Ht Ha Hs Hv. unfold createAuthMiddleware. rewrite bool_decide_eq_false_2 by done.
    rewrite Ht, Hs. destruct (apiKeyStore options) as [verify|]; [|done].
    specialize (Hv verify eq_refl). destruct (verify token) as [[identity|]|e]; [by destruct (Hv identity)|done..].
Qed.

(** A store that knows one token of the project shop *)
Definition demo_identity : jsval :=
  identity_of (JObj [(js "name", JStr (js "ci")); (js "orgId", JStr (js "acme"));
                     (js "projectId", JStr (js "shop"))]) (js "h").
Definition demo_options : AuthMiddlewareOptions :=
  {| apiKeyStore := Some (λ token, if jstr_eqb token (js "rfk_1") then Ok (Some demo_identity) else Ok None);
     staticTokens := Some [(js "boot", anonymous_identity)];
     allowAnonymousPaths := None; requireMatchingProject := true |}.
Definition demo_request (path bearer : jstr) : auth_request :=
  {| q_pathname := path; q_authorization := Some bearer; q_api_key := None |}.

(** The token passes in its project, and is denied in another one; an unknown
    token gets the common answer. *)
Theorem auth_gate_witness :
  createAuthMiddleware demo_options (demo_request (js "/v1/projects/shop/x") (js "bearer rfk_1")) (js "r")
    = Allowed demo_identity ∧
  (∀ context, createAuthMiddleware demo_options (demo_request (js "/v1/projects/other") (js "Bearer rfk_1")) (js "r")
    ≠ Allowed context) ∧
  createAuthMiddleware demo_options (demo_request (js "/v1/keys") (js "Bearer rfk_2")) (js "r")
    = deny invalid_credentials (js "r").
Proof.
  split_and!.
  - apply (auth_gate demo_options (demo_request (js "/v1/projects/shop/x") (js "bearer rfk_1")) (js "r")).
    right. split; [unfold anonymous_path; apply (bool_decide_unpack _); vm_compute; exact I|].
    exists (js "rfk_1"). split; [vm_compute; reflexivity|]. right. split; [vm_compute; reflexivity|].
    eexists. split; [reflexivity|]. vm_compute. split; reflexivity.
  - intros context Ha. vm_compute in Ha. discriminate.
  - destruct (auth_gate demo_options (demo_request (js "/v1/keys") (js "Bearer rfk_2")) (js "r"))
      as (_ & _ & Hd). apply (Hd (js "rfk_2")).
    + vm_compute; reflexivity.
    + unfold anonymous_path. apply (bool_decide_unpack _). vm_compute. exact I.
    + vm_compute; reflexivity.
    + intros verify [= <-] identity. vm_compute. discriminate.
Defined.
