(* ===== verification/SnapshotDistribution.v ===== *)
(** * Snapshot distribution ([apps/api/control-server.ts], PLAT-8)

    The control plane's cache of routing snapshots: per project, the counter of
    its distributor, the last snapshot and the fingerprint of the active
    revisions it was made of.  [getProjectSnapshot] reads the deployment
    service's tables; entity tags are the versions. *)

From S2P Require Import Prelude JsString JsMap JsNumber JsValue Errors Ulid Packager.
From S2P Require Import Deployment Snapshot SnapshotCache ArchiveSchema.
From Stdlib Require Import QArith.

Open Scope Z_scope.
Open Scope railfog_scope.

(** ** Entity tags *)

Definition QUOTE : Z := 34.

(** [s.replace(/^W\//, "")], [s.replace(/^Q/, "")] and [s.replace(/Q$/, "")]
    where Q is the quote *)
Definition strip_weak (s : jstr) : jstr := if starts_with s (js "W/") then drop 2 s else s.
Definition strip_open (s : jstr) : jstr :=
  match s with c :: rest => if c =? QUOTE then rest else s | [] => [] end.
Definition strip_close (s : jstr) : jstr := rev (strip_open (rev s)).
Definition clean_tag (s : jstr) : jstr := strip_close (strip_open (strip_weak s)).

Definition isEtagMatch (ifNoneMatchHeader currentEtag : jstr) : bool :=
  let cleanCurrent := clean_tag (trim currentEtag) in
  existsb (λ p, let part := trim p in
                jstr_eqb part (js "*") || jstr_eqb (clean_tag part) cleanCurrent)
          (split_on (chr ",") ifNoneMatchHeader).

(** A tag in quotes *)
Definition quoted (s : jstr) : jstr := QUOTE :: s ++ [QUOTE].

(** ** Project snapshots *)

Record ProjectSnapshotState := {
  distributor : Z;
  snapshot : jsval;
  revisionFingerprint : jstr
}.

Local Abbreviation states := (jsmap jstr ProjectSnapshotState).

(** The object [activeRevisions]: functions are visited in sorted order, but the
    entries of an object are enumerated in the order of its keys. *)
Definition active_revisions (t : tables) (projectId : jstr) : list (jstr * RevisionRecord) :=
  obj_build (omap (λ fnName, (λ rev, (fnName, rev)) <$> getActiveRevision t projectId fnName)
                  (sort_strings (listFunctions t projectId))).

Definition fingerprint_entry (e : jstr * RevisionRecord) : jstr :=
  e.1 ++ js ":" ++ r_id e.2 ++ js ":" ++ r_artifactId e.2 ++ js ":" ++ state_string (r_state e.2).
Definition fingerprint (active : list (jstr * RevisionRecord)) : jstr :=
  str_join (js ";") (sort_strings (map fingerprint_entry active)).

Definition default_route (fn : jstr) : route :=
  {| pattern := JStr (js "/" ++ fn); function := JStr fn |}.
Definition project_routes (t : tables) (projectId : jstr) (active : list (jstr * RevisionRecord)) : list route :=
  match getProjectRoutes t projectId with
  | Some ((_ :: _) as declaredRoutes) => declaredRoutes
  | _ => map default_route (sort_strings (map_keys active))
  end.

(** What one call of [createSnapshot] reads of the clock and the random source *)
Record readings := { rd_now : Z; rd_bytes : list Z; rd_generatedAt : Z }.

(** Its active revisions are read without interleaving with other requests. *)
Definition getProjectSnapshot (rd : readings) (t : tables) (projectId : jstr) : stm states exn jsval := λ ss,
  let active := active_revisions t projectId in
  let print := fingerprint active in
  let create d :=
    createSnapshot (project_routes t projectId active) (on_revisions active) (getProjectMetadata t projectId)
      (rd_now rd) (rd_bytes rd) (rd_generatedAt rd) d in
  match map_get ss projectId with
  | None =>
      match create 0 with
      | (d, Ok snap) =>
          (map_set ss projectId {| distributor := d; snapshot := snap; revisionFingerprint := print |}, Ok snap)
      | (_, Err e) => (ss, Err e)
      end
  | Some st =>
      if negb (jstr_eqb (revisionFingerprint st) print) then
        match create (distributor st) with
        | (d, Ok snap) =>
            (map_set ss projectId {| distributor := d; snapshot := snap; revisionFingerprint := print |}, Ok snap)
        | (d, Err e) =>
            (map_set ss projectId {| distributor := d; snapshot := snapshot st;
                                     revisionFingerprint := revisionFingerprint st |}, Err e)
        end
      else (ss, Ok (snapshot st))
  end.

Definition invalidateProjectSnapshot (projectId : jstr) (ss : states) : states :=
  match map_get ss projectId with
  | Some st => map_set ss projectId {| distributor := distributor st; snapshot := snapshot st; revisionFingerprint := [] |}
  | None => ss
  end.

(** [`${snapshot.version}`]: versions are small positive integers. *)
Definition version_text (snap : jsval) : jstr :=
  match prop snap (js "version") with
  | JNum (Fin q) => string_of_nat (Qround.Qfloor q)
  | _ => js "undefined"
  end.

(** ** Tags identify versions *)

Lemma strip_close_app s : strip_close (s ++ [QUOTE]) = s.
Proof. unfold strip_close. rewrite rev_app_distr. cbn [rev app strip_open]. rewrite Z.eqb_refl. apply rev_involutive. Qed.

Lemma clean_quoted s : clean_tag (quoted s) = s.
Proof.
  unfold clean_tag, quoted.
  change (strip_weak (QUOTE :: s ++ [QUOTE])) with (QUOTE :: s ++ [QUOTE]). apply strip_close_app.
Qed.

Lemma clean_weak_quoted s : clean_tag (js "W/" ++ quoted s) = s.
Proof.
  unfold clean_tag. change (strip_weak (js "W/" ++ quoted s)) with (quoted s).
  unfold quoted. apply strip_close_app.
Qed.

Lemma isEtagMatch_quoted v w :
  0 ≤ v → 0 ≤ w → isEtagMatch (quoted (string_of_nat v)) (quoted (string_of_nat w)) = bool_decide (v = w).
Proof.
  intros Hv Hw. destruct (string_of_nat_spec v Hv) as (_ & Dv & Nv). destruct (string_of_nat_spec w Hw) as (_ & _ & Nw).
  assert (∀ s, trim (quoted s) = quoted s) as Ht.
  { intros s. apply (trim_id [QUOTE] s [QUOTE]); done || by repeat constructor. }
  unfold isEtagMatch. rewrite split_on_none.
  - cbn [existsb]. rewrite !Ht, !clean_quoted, orb_false_r. apply eq_true_iff_eq.
    rewrite bool_decide_eq_true, orb_true_iff, !jstr_eqb_eq. split; [|intros ->; by right].
    intros [|E]; [done|]. by rewrite <-Nv, <-Nw, E.
  - unfold quoted. intros [|[Hin|Hin]%elem_of_app]%elem_of_cons; [done| |by apply list_elem_of_singleton in Hin].
    rewrite forallb_true_iff in Dv. specialize (Dv _ Hin). done.
Qed.

(** ** Active revisions *)

Lemma obj_fold_lookup {V} (g : jstr → option V) l o k : k ≠ PROTO →
  map_get (fold_left (λ o e, obj_set o e.1 e.2) (omap (λ fn, (λ v, (fn, v)) <$> g fn) l) o) k =
    if decide (k ∈ l ∧ is_Some (g k)) then g k else map_get o k.
Proof.
  intros Hk. revert o. induction l as [|fn l IH]; intros o.
  { rewrite decide_False by set_solver. done. }
  cbn [omap list_omap]. destruct (g fn) as [v|] eqn:Eg; cbn [fmap option_fmap option_map].
  - cbn [fold_left fst snd]. rewrite IH. destruct (decide (k ∈ l ∧ is_Some (g k))) as [[? ?]|Hn].
    + rewrite decide_True; [done|]. split; [by right|done].
    + destruct (decide (fn = PROTO)) as [->|Hp].
      { unfold obj_set. rewrite jstr_eqb_refl. rewrite decide_False; [done|]. intros [[->|?]%elem_of_cons ?]; tauto. }
      rewrite map_get_obj_set by done. destruct (decide (k = fn)) as [->|Hne].
      * rewrite decide_True; [done|]. split; [by left|]. by rewrite Eg.
      * rewrite decide_False; [done|]. intros [[->|?]%elem_of_cons ?]; tauto.
  - rewrite IH. destruct (decide (k ∈ l ∧ is_Some (g k))) as [[? ?]|Hn].
    + rewrite decide_True; [done|]. split; [by right|done].
    + rewrite decide_False; [done|]. intros [[->|?]%elem_of_cons Hs]; [|tauto]. rewrite Eg in Hs. by destruct Hs.
Qed.

Lemma active_revisions_lookup t p fn : fn ≠ PROTO →
  map_get (active_revisions t p) fn = getActiveRevision t p fn.
Proof.
  intros Hn. unfold active_revisions, obj_build. rewrite obj_fold_lookup by done.
  case_decide as Hd; [done|]. destruct (getActiveRevision t p fn) as [r|] eqn:E; [|done].
  destruct Hd. split; [|done]. rewrite sort_strings_perm. unfold listFunctions.
  unfold getActiveRevision in E. destruct (getActivePointer t p fn) as [[|c i]|]; try done.
  unfold getRevision in E. destruct (map_get (Deployment.revisions t) p) as [m|]; [|done]. cbn [mbind option_bind] in E.
  destruct (map_get m fn) as [rs|] eqn:Em; [|done]. apply map_get_elem in Em.
  by apply (list_elem_of_fmap_2 fst _ (fn, rs)).
Qed.

Lemma active_revisions_wf t p : map_wf (active_revisions t p).
Proof. apply obj_build_wf. Qed.

Lemma fingerprint_nonempty active : active ≠ [] → fingerprint active ≠ [].
Proof.
  intros Ha. unfold fingerprint. assert (sort_strings (map fingerprint_entry active) ≠ []) as Hs.
  { intros E. pose proof (sort_strings_perm (map fingerprint_entry active)) as Hp. rewrite E in Hp.
    apply Permutation_nil_l in Hp. by destruct active. }
  assert (Forall (λ s, s ≠ []) (sort_strings (map fingerprint_entry active))) as Hf.
  { rewrite sort_strings_perm. apply Forall_fmap, Forall_true. intros [k r]. unfold fingerprint_entry. cbn.
    by destruct k. }
  destruct (sort_strings _) as [|s [|s' l]]; [done| |]; apply Forall_cons in Hf as [Hs' _]; cbn; [done|].
  by destruct s.
Qed.

(** ** Versions *)

Definition version_of (snap : jsval) (n : Z) : Prop := prop snap (js "version") = JNum (Fin (inject_Z n)).

Lemma version_of_inj snap n m : version_of snap n → version_of snap m → n = m.
Proof. unfold version_of. intros Hn. rewrite Hn. by intros [= ->]. Qed.

Lemma version_text_of snap n : version_of snap n → version_text snap = string_of_nat n.
Proof. unfold version_of, version_text. intros ->. by rewrite Qround.Qfloor_Z. Qed.

(** The last snapshot's version has been counted. *)
Definition state_ok (st : ProjectSnapshotState) : Prop :=
  ∃ n, version_of (snapshot st) n ∧ 1 ≤ n ≤ distributor st.
Definition states_ok (ss : jsmap jstr ProjectSnapshotState) : Prop :=
  ∀ p st, map_get ss p = Some st → state_ok st.

(** [s'] is [s] or a later snapshot. *)
Definition follows (s s' : jsval) : Prop :=
  s' = s ∨ ∃ n n', version_of s n ∧ version_of s' n' ∧ n < n'.

Lemma follows_trans s1 s2 s3 : follows s1 s2 → follows s2 s3 → follows s1 s3.
Proof.
  intros [->|(n & n' & H1' & H2' & Hlt)] [->|(m & m' & H3' & H4' & Hlt')]; [by left|by right; eauto 6..|].
  right. exists n, m'. rewrite (version_of_inj _ _ _ H2' H3') in Hlt. split_and!; [done..|lia].
Qed.

(** What one call does to the states *)
Definition advances (ss ss' : jsmap jstr ProjectSnapshotState) : Prop :=
  ∀ p st, map_get ss p = Some st → ∃ st', map_get ss' p = Some st' ∧ follows (snapshot st) (snapshot st').

Lemma advances_refl ss : advances ss ss.
Proof. intros p st Hs. exists st. split; [done|by left]. Qed.

Lemma states_ok_set ss p st : states_ok ss → state_ok st → states_ok (map_set ss p st).
Proof. intros Hs Ho q st'. rewrite map_get_set. case_decide; [by intros [= <-]|apply Hs]. Qed.

Lemma advances_set ss p st :
  (∀ st0, map_get ss p = Some st0 → follows (snapshot st0) (snapshot st)) → advances ss (map_set ss p st).
Proof.
  intros Hf q st0 Hq. rewrite map_get_set. destruct (decide (p = q)) as [->|]; [by eauto|].
  exists st0. split; [done|by left].
Qed.

Lemma invalidate_ok p ss :
  states_ok ss → states_ok (invalidateProjectSnapshot p ss) ∧ advances ss (invalidateProjectSnapshot p ss).
Proof.
  intros Hs. unfold invalidateProjectSnapshot. destruct (map_get ss p) as [st|] eqn:E; [|split; [done|apply advances_refl]].
  split; [by apply states_ok_set; [|apply (Hs _ _ E)]|]. apply advances_set. rewrite E. intros ? [= <-]. by left.
Qed.

Definition new_snapshot (rd : readings) (t : tables) (p : jstr) (v : Z) : jsval :=
  let active := active_revisions t p in
  revision_snapshot (project_routes t p active) active (getProjectMetadata t p) v
    (rd_now rd) (rd_bytes rd) (rd_generatedAt rd).

Lemma getProjectSnapshot_spec rd t p ss :
  getProjectSnapshot rd t p ss =
  let print := fingerprint (active_revisions t p) in
  let ok := forallb (λ e, copyable e.2) (active_revisions t p) in
  match map_get ss p with
  | None =>
      if ok then (map_set ss p {| distributor := 1; snapshot := new_snapshot rd t p 1; revisionFingerprint := print |},
                  Ok (new_snapshot rd t p 1))
      else (ss, Err TypeError)
  | Some st =>
      let v := distributor st + 1 in
      if jstr_eqb (revisionFingerprint st) print then (ss, Ok (snapshot st))
      else if ok then (map_set ss p {| distributor := v; snapshot := new_snapshot rd t p v; revisionFingerprint := print |},
                       Ok (new_snapshot rd t p v))
      else (map_set ss p {| distributor := v; snapshot := snapshot st; revisionFingerprint := revisionFingerprint st |},
            Err TypeError)
  end.
Proof.
  unfold getProjectSnapshot, new_snapshot. cbv zeta.
  destruct (map_get ss p) as [st|]; rewrite createSnapshot_revisions; [|by destruct (forallb _ _)].
  destruct (jstr_eqb _ _); [done|]. by destruct (forallb _ _).
Qed.

Lemma getProjectSnapshot_ok rd t p ss ss' r :
  states_ok ss → getProjectSnapshot rd t p ss = (ss', r) →
  states_ok ss' ∧ advances ss ss' ∧
  ∀ snap, r = Ok snap → ∃ st, map_get ss' p = Some st ∧ snapshot st = snap.
Proof.
  intros Hs. rewrite getProjectSnapshot_spec. cbv zeta. set (new := new_snapshot rd t p).
  assert (∀ v print, 0 ≤ v → state_ok {| distributor := v + 1; snapshot := new (v + 1); revisionFingerprint := print |}) as Hok.
  { intros v print ?. exists (v + 1). split; [done|]. cbn. lia. }
  destruct (map_get ss p) as [st|] eqn:E.
  - destruct (Hs _ _ E) as (n & Hn & Hd). destruct (jstr_eqb _ _).
    { intros [= <- <-]. split_and!; [done|apply advances_refl|]. intros snap [= <-]. by exists st. }
    destruct (forallb _ _); intros [= <- <-].
    + split_and!; [apply states_ok_set; [done|apply Hok; lia]| |].
      * apply advances_set. rewrite E. intros ? [= <-]. right. exists n, (distributor st + 1). split_and!; [done..|lia].
      * intros snap [= <-]. eexists. by rewrite map_get_set_eq.
    + split_and!; [apply states_ok_set; [done|exists n; split; [done|cbn; lia]]| |done].
      apply advances_set. rewrite E. intros ? [= <-]. by left.
  - destruct (forallb _ _); intros [= <- <-].
    + split_and!; [apply states_ok_set; [done|by apply (Hok 0)]| |].
      * apply advances_set. by rewrite E.
      * intros snap [= <-]. eexists. by rewrite map_get_set_eq.
    + split_and!; [done|apply advances_refl|done].
Qed.

(** Requests for snapshots against tables that change in between, and
    invalidations *)
Inductive operation :=
| Serve (rd : readings) (t : tables) (projectId : jstr)
| Invalidate (projectId : jstr).

(** The snapshots that were served, with their projects *)
Fixpoint served (ops : list operation) (ss : jsmap jstr ProjectSnapshotState) : list (jstr * jsval) :=
  match ops with
  | [] => []
  | Serve rd t p :: ops =>
      match getProjectSnapshot rd t p ss with
      | (ss, Ok snap) => (p, snap) :: served ops ss
      | (ss, Err _) => served ops ss
      end
  | Invalidate p :: ops => served ops (invalidateProjectSnapshot p ss)
  end.

Lemma served_later ops p s' : ∀ ss st,
  states_ok ss → map_get ss p = Some st → (p, s') ∈ served ops ss →
  follows (snapshot st) s' ∧ ∃ n, version_of s' n ∧ 1 ≤ n.
Proof.
  induction ops as [|[rd t q|q] ops IH]; intros ss st Hs Hp Hin; [by apply elem_of_nil in Hin| |]; cbn [served] in Hin.
  - destruct (getProjectSnapshot rd t q ss) as [ss1 [snap|e]] eqn:E;
      apply getProjectSnapshot_ok in E as (Hs1 & Ha & Hr); try done;
      destruct (Ha _ _ Hp) as (st1 & Hp1 & Hf1).
    + apply elem_of_cons in Hin as [[= <- ->]|Hin].
      * destruct (Hr snap eq_refl) as (st2 & Hp2 & <-). rewrite Hp1 in Hp2. injection Hp2 as <-.
        split; [done|]. destruct (Hs1 _ _ Hp1) as (n & ? & ?). exists n. split; [done|lia].
      * destruct (IH _ _ Hs1 Hp1 Hin) as [? ?]. split; [by eapply follows_trans|done].
    + destruct (IH _ _ Hs1 Hp1 Hin) as [? ?]. split; [by eapply follows_trans|done].
  - destruct (invalidate_ok q ss Hs) as [Hs1 Ha]. destruct (Ha _ _ Hp) as (st1 & Hp1 & Hf1).
    destruct (IH _ _ Hs1 Hp1 Hin) as [? ?]. split; [by eapply follows_trans|done].
Qed.

Lemma served_ordered ops : ∀ ss l1 l2 p s s', states_ok ss →
  served ops ss = l1 ++ (p, s) :: l2 → (p, s') ∈ l2 →
  follows s s' ∧ (∃ n, version_of s n ∧ 1 ≤ n) ∧ ∃ n, version_of s' n ∧ 1 ≤ n.
Proof.
  induction ops as [|[rd t q|q] ops IH]; intros ss l1 l2 p s s' Hs Hl Hin; cbn [served] in Hl.
  - by destruct l1.
  - destruct (getProjectSnapshot rd t q ss) as [ss1 [snap|e]] eqn:E;
      apply getProjectSnapshot_ok in E as (Hs1 & Ha & Hr); try done; [|by eapply IH].
    destruct l1 as [|[q0 s0] l1]; injection Hl as -> -> Hl; [|by eapply IH].
    destruct (Hr _ eq_refl) as (st & Hp & <-). subst l2.
    destruct (served_later _ _ _ _ _ Hs1 Hp Hin) as [Hf Hn]. split_and!; [done| |done].
    destruct (Hs1 _ _ Hp) as (n & ? & ?). exists n. split; [done|lia].
  - apply (invalidate_ok q) in Hs as [Hs _]; eauto.
Qed.

(** C19: Entity tags are sound: from an empty start, whatever the deployments do
    between the requests and however often a project is invalidated, the snapshots
    served for a project have versions that start at 1 or later and never
    decrease, and the tag of an earlier one matches the tag of a later one if and
    only if they are the same snapshot: a 304 answer never hides a change. *)
Theorem snapshot_tags_sound ops l1 l2 p s s' :
  served ops [] = l1 ++ (p, s) :: l2 → (p, s') ∈ l2 →
  (∃ n n', version_of s n ∧ version_of s' n' ∧ 1 ≤ n ≤ n') ∧
  (isEtagMatch (quoted (version_text s)) (quoted (version_text s')) = true ↔ s = s').
Proof.
  intros Hl Hin. destruct (served_ordered ops [] l1 l2 p s s') as (Hf & (n & Hn & Hn1) & (n' & Hn' & Hn1')); [done..|].
  assert (n ≤ n' ∧ (n = n' → s = s')) as [Hle Heq].
  { destruct Hf as [->|(m & m' & Hm & Hm' & Hlt)]; [split; [|done]; rewrite (version_of_inj _ _ _ Hn Hn'); lia|].
    rewrite (version_of_inj _ _ _ Hn Hm), (version_of_inj _ _ _ Hn' Hm'). lia. }
  split; [by exists n, n'|]. rewrite (version_text_of _ _ Hn), (version_text_of _ _ Hn').
  rewrite isEtagMatch_quoted, bool_decide_eq_true by lia. split; [done|]. intros ->. by apply (version_of_inj s').
Qed.

(** ** Publication *)

(** What a mutation publishes: after [invalidateProjectSnapshot], the next
    snapshot of a project with an active revision is made of the revisions that
    are active now: every function maps to its active revision's metadata, the
    version is the next one, and further requests get the same snapshot until a
    deployment changes; it fails exactly when a manifest declares a scope that is
    not iterable. *)
Lemma invalidated_snapshot_fresh rd t p ss :
  active_revisions t p ≠ [] →
  let '(ss', r) := getProjectSnapshot rd t p (invalidateProjectSnapshot p ss) in
  if forallb (λ e, copyable e.2) (active_revisions t p) then
    ∃ snap, r = Ok snap ∧
      version_of snap (match map_get ss p with Some st => distributor st | None => 0 end + 1) ∧
      (∀ fn, fn ≠ PROTO → map_get (object_entries (prop snap (js "functions"))) fn =
                            function_metadata <$> getActiveRevision t p fn) ∧
      ∀ rd', getProjectSnapshot rd' t p ss' = (ss', Ok snap)
  else r = Err TypeError.
Proof.
  intros Ha%fingerprint_nonempty. rewrite getProjectSnapshot_spec. cbv zeta.
  assert (map_get (invalidateProjectSnapshot p ss) p =
    (λ st, {| distributor := distributor st; snapshot := snapshot st; revisionFingerprint := [] |}) <$> map_get ss p) as ->.
  { unfold invalidateProjectSnapshot. destruct (map_get ss p) eqn:E; [by rewrite map_get_set_eq|done]. }
  assert (∀ v ss0,
    let snap := new_snapshot rd t p v in
    let ss' := map_set ss0 p {| distributor := v; snapshot := snap;
                                revisionFingerprint := fingerprint (active_revisions t p) |} in
    version_of snap v ∧
    (∀ fn, fn ≠ PROTO → map_get (object_entries (prop snap (js "functions"))) fn =
                          function_metadata <$> getActiveRevision t p fn) ∧
    ∀ rd', getProjectSnapshot rd' t p ss' = (ss', Ok snap)) as Hnew.
  { intros v ss0 snap ss'. split_and!; [done| |].
    - intros fn Hfn. unfold snap, new_snapshot. cbv zeta.
      rewrite revision_snapshot_functions by (apply active_revisions_wf || done). by rewrite active_revisions_lookup.
    - intros rd'. rewrite getProjectSnapshot_spec. unfold ss' at 1. rewrite map_get_set_eq. cbv zeta.
      cbn [revisionFingerprint snapshot]. by rewrite jstr_eqb_refl. }
  destruct (map_get ss p) as [st|]; cbn [fmap option_fmap option_map revisionFingerprint distributor].
  - rewrite (proj2 (jstr_eqb_neq _ _)) by by apply not_eq_sym. destruct (forallb _ _); [|done].
    eexists. split; [reflexivity|]. apply Hnew.
  - destruct (forallb _ _); [|done]. eexists. split; [reflexivity|]. apply (Hnew 1).
Qed.

(** *** Concrete runs *)

(** The project shop whose function cart has the active revision [r] *)
Definition shop_tables (r : RevisionRecord) : tables :=
  {| revisions := [(js "shop", [(js "cart", [(r_id r, r)])])];
     activePointers := [(js "shop", [(js "cart", r_id r)])]; projectRoutes := []; projectMetadata := [] |}.
Definition cart : RevisionRecord := demo_revision (js "cart") (Fin 30000).
(** A manifest whose key-value scope is a number *)
Definition bad_cart : RevisionRecord :=
  {| r_id := js "rev_2"; r_project := js "shop"; r_functionName := js "cart"; r_artifactId := js "sha256:00";
     r_integrity := js "sha256-0"; r_state := Deployed; r_createdAt := 1700000000001;
     r_manifest := JObj [(js "permissions", JObj [(js "kv", JNum (Fin 5))])] |}.
Definition demo_readings (now : Z) : readings :=
  {| rd_now := now; rd_bytes := demo_bytes; rd_generatedAt := now |}.

Definition serve_twice : list operation :=
  [Serve (demo_readings 1) (shop_tables cart) (js "shop"); Invalidate (js "shop");
   Serve (demo_readings 2) (shop_tables cart) (js "shop")].

Theorem snapshot_tags_sound_witness :
  ∃ s s', served serve_twice [] = [(js "shop", s); (js "shop", s')] ∧ version_of s 1 ∧ version_of s' 2 ∧
    isEtagMatch (quoted (version_text s)) (quoted (version_text s')) = false.
Proof.
  eexists _, _. split; [vm_compute; reflexivity|].
  match goal with |- version_of ?s _ ∧ version_of ?s' _ ∧ _ =>
    destruct (snapshot_tags_sound serve_twice [] [(js "shop", s')] (js "shop") s s') as [_ He] end;
    [vm_compute; reflexivity|by left|].
  split; [reflexivity|]. split; [reflexivity|]. apply not_true_is_false. intros Hm. apply He in Hm. discriminate.
Defined.

(** A control plane that has restarted counts from 1 again: no data plane that
    holds a snapshot adopts the first one it serves. *)
Lemma restart_not_adopted rd t p ss snap c latest n :
  getProjectSnapshot rd t p [] = (ss, Ok snap) →
  latestSnapshot c = Some latest → version_of latest n → 1 ≤ n →
  (refresh (Ok snap) c).1 = c.
Proof.
  rewrite getProjectSnapshot_spec. cbv zeta. cbn [map_get]. destruct (forallb _ _); [|done].
  intros [= _ <-] Hl Hv Hn. unfold refresh. cbn [mbind result_bind].
  destruct (validateRoutingSnapshot _) as [validated|e] eqn:E; [|done].
  rewrite validate_test in E. destruct (bad_snapshot _); [done|]. injection E as <-.
  assert (adopts c (new_snapshot rd t p 1) = false) as ->; [|done].
  unfold adopts. rewrite Hl. unfold newer. rewrite Hv.
  change (prop (new_snapshot rd t p 1) (js "version")) with (JNum (Fin (inject_Z 1))).
  apply not_true_iff_false. rewrite q_ltb_lt. rewrite <-Zlt_Qlt. lia.
Qed.

(** The tags of the first snapshots before and after a restart are the same,
    whatever was deployed in between: a client that holds the one is told that
    nothing has changed. *)
Definition first_served (now : Z) (t : tables) : jsval :=
  match (getProjectSnapshot (demo_readings now) t (js "shop") []).2 with Ok s => s | Err _ => JUndef end.

Lemma restart_same_tag :
  let before := first_served 1 (shop_tables cart) in
  let after := first_served 2 empty_tables in
  prop before (js "functions") ≠ prop after (js "functions") ∧
  isEtagMatch (quoted (version_text before)) (quoted (version_text after)) = true.
Proof. vm_compute. split; [discriminate|reflexivity]. Qed.

(** After a deployment whose snapshot could not be made, the snapshot of the
    deleted project still lists its function. *)
Lemma deleted_project_served :
  let '(ss1, _) := getProjectSnapshot (demo_readings 1) (shop_tables cart) (js "shop") [] in
  let '(ss2, failed) := getProjectSnapshot (demo_readings 2) (shop_tables bad_cart) (js "shop")
                          (invalidateProjectSnapshot (js "shop") ss1) in
  let '(_, stale) := getProjectSnapshot (demo_readings 3) empty_tables (js "shop") ss2 in
  failed = Err TypeError ∧ ∃ snap, stale = Ok snap ∧
    map_get (object_entries (prop snap (js "functions"))) (js "cart") = Some (function_metadata cart).
Proof. vm_compute. split; [reflexivity|]. eexists. split; reflexivity. Qed.
