(* ===== verification/ControlServer.v ===== *)
(** * The control plane daemon ([apps/api/control-server.ts], PLAT-1, PLAT-3, PLAT-6, PLAT-8)

    The request handler of [startControlServer] over the deployment service, the
    backup service, the key store and the snapshot distribution: one function
    per route, in the order in which the handler tries them.  A request is
    handled without interleaving with others.  The key store and the backup
    service are the interfaces [KeyStore] and [BackupService]; that both work on
    one key-value provider is the interface [SharedKv]; the listening
    socket, the fetch of the logs and the text of the login page are not
    modelled. *)

From S2P Require Import Prelude JsString JsMap JsNumber JsValue Errors Utf8 Uri Ulid KvInterface SqliteKv.
From S2P Require Import Packager Deployment Snapshot StateBackup ArchiveSchema ApiKeys AuthMiddleware SnapshotDistribution.
From Stdlib Require Import QArith.

Open Scope Z_scope.
Open Scope railfog_scope.

(** ** Interfaces *)

(** The key store as the server uses it; the cache that a verification fills is
    not part of its state. *)
Class KeyStore (A : Type) := {
  ks_verify : A → jstr → result exn (option jsval);
  ks_hasAnyKeys : A → result exn bool;
  ks_createKey : jsval → jstr → jsval → stm A exn jsval
}.

(** [exportProject({ orgId, projectId })] and
    [importProject({ targetOrgId, targetProjectId, archive, overwriteKv })] *)
Class BackupService (W : Type) := {
  bs_export : jstr → jstr → stm W exn jsval;
  bs_import : jstr → jstr → jsval → bool → stm W exn jsval
}.

(** One key-value provider under the key store and the backups, as [main] sets
    them up: what the other side has written there is what each of them reads
    next.  When the options hold two providers, both functions change nothing. *)
Class SharedKv (K A : Type) := { kv_into_keys : K → A → A; keys_into_kv : A → K → K }.

(** What the backup service promises of the deployments: an export changes none,
    an import those of its target project only *)
Class BackupLaws (K Ob : Type) `{BackupService (backup_state K Ob)} := {
  bs_export_deployments org p w : bw_svc (bs_export org p w).1 = bw_svc w;
  bs_import_deployments org p a overwrite w :
    same_projects_but p (tbl (bw_svc w)) (tbl (bw_svc (bs_import org p a overwrite w).1))
}.

(** [String(n)] and [Number(s)] *)
Class NumberText := { num_text : jsnum → jstr; text_num : jstr → jsnum }.

(** ** Requests and responses *)

Record Request := {
  rq_method : jstr;
  rq_pathname : jstr;
  rq_search : jstr;
  rq_query : jsmap jstr jstr;
  rq_headers : jsmap jstr jstr;
  rq_text : result exn jstr
}.

Definition header (req : Request) (name : jstr) : option jstr := map_get (rq_headers req) name.

Inductive payload :=
| Json (v : jsval)
| JsonText (t : jstr)
| LoginPage (callbackUrl state orgId : option jstr)
| Octets (bytes : list Z)
| ErrorBody (code : jstr)
| NoBody.

Record Response := { rs_status : Z; rs_payload : payload; rs_etag : option jstr; rs_requestId : jstr }.

(** What a request reads of its surroundings: the clock and the random source
    of each identifier, and the data plane's answer to a request for logs
    ([None] when it fails, an error when the URL is not one) *)
Record Env := {
  env_ulid : readings;
  env_deploy : readings;
  env_snapshot : readings;
  env_runtimeUrl : jstr;
  env_fetch : jstr → result exn (option (Z * jstr))
}.

(** [resolveRequestId(req)]: an empty header counts as absent. *)
Definition resolveRequestId (env : Env) (req : Request) : jstr :=
  match header req (js "x-request-id") with
  | Some ((_ :: _) as i) => i
  | _ => match header req (js "request-id") with
         | Some ((_ :: _) as i) => i
         | _ => generateUlid (rd_now (env_ulid env)) (rd_bytes (env_ulid env))
         end
  end.

(** [buildErrorResponse(err, requestId)]; the message is not modelled. *)
Definition buildErrorResponse (err : exn) (requestId : jstr) : Response :=
  let code := match err with RF c => c | _ => INTERNAL end in
  {| rs_status := statusFromErrorCode code; rs_payload := ErrorBody (code_string code);
     rs_etag := None; rs_requestId := requestId |}.

Definition ok_json (requestId : jstr) (v : jsval) : Response :=
  {| rs_status := 200; rs_payload := Json v; rs_etag := None; rs_requestId := requestId |}.

(** [authRes.response] *)
Definition denied (r : auth_error) : Response :=
  {| rs_status := e_status r; rs_payload := ErrorBody (e_code r); rs_etag := None; rs_requestId := e_request_id r |}.

(** ** Paths *)

Inductive action := ASnapshot | ADeploy | ARollback | AExport | AImport | ALogs | ADelete | AUndeploy.
Definition actions : list (jstr * action) := Eval vm_compute in
  [(js "snapshot", ASnapshot); (js "deploy", ADeploy); (js "rollback", ARollback); (js "export", AExport);
   (js "import", AImport); (js "logs", ALogs); (js "delete", ADelete); (js "undeploy", AUndeploy)].

(** [pathname.match(/^\/v1\/projects\/([^/]+)\/(snapshot|...)$/)] *)
Definition projectMatch (pathname : jstr) : option (jstr * action) :=
  if starts_with pathname PROJECTS then
    match split_on (chr "/") (slice_from (length PROJECTS) pathname) with
    | [(_ :: _) as project; name] => pair project <$> map_get actions name
    | _ => None
    end
  else None.

(** [pathname.match(/^\/v1\/projects\/([^/]+)$/)], and for artifacts *)
Definition one_segment (prefix pathname : jstr) : option jstr :=
  if starts_with pathname prefix then
    match split_on (chr "/") (slice_from (length prefix) pathname) with
    | [(_ :: _) as segment] => Some segment
    | _ => None
    end
  else None.
Definition ARTIFACTS : jstr := Eval vm_compute in js "/v1/artifacts/".
Definition directMatch : jstr → option jstr := one_segment PROJECTS.
Definition artifactMatch : jstr → option jstr := one_segment ARTIFACTS.

Definition is_read (req : Request) : bool :=
  jstr_eqb (rq_method req) (js "GET") || jstr_eqb (rq_method req) (js "HEAD").
Definition is_post (req : Request) : bool := jstr_eqb (rq_method req) (js "POST").

(** Reads of the data plane, which need no credentials *)
Definition isDataPlaneRead (req : Request) (pathname : jstr) : bool :=
  is_read req &&
  (ends_with pathname (js "/snapshot") || jstr_eqb pathname (js "/v1/projects") ||
   starts_with pathname ARTIFACTS || ends_with pathname (js "/logs")).

(** Paths of customer functions *)
Definition customer_path (pathname : jstr) : bool :=
  jstr_eqb pathname (js "/invoke") || jstr_eqb pathname (js "/run") || starts_with pathname (js "/api/") ||
  ends_with pathname (js "/invoke") || jstr_eqb pathname (js "/customer-function").

(** [a || b] on strings *)
Definition or_else (a b : jstr) : jstr := match a with [] => b | _ => a end.
(** [typeof v === "string" ? v : ""] *)
Definition string_or_empty (v : jsval) : jstr := default [] (as_str v).
(** [typeof v === "string" && v.trim() !== ""], then [v.trim()] *)
Definition trimmed_text (v : jsval) : option jstr :=
  match trim <$> as_str v with Some ((_ :: _) as t) => Some t | _ => None end.

(** ** Bodies *)

Section bodies.
Context `{JsonParser, NumberText}.

Definition parseJsonBody (req : Request) : result exn jsval :=
  rq_text req ≫= λ text,
  if jstr_eqb (trim text) [] then Ok (JObj [])
  else match json_parse text with
       | Ok (JObj entries) => Ok (JObj entries)
       | _ => Err ValidationFailedError
       end.

(** [String(v)] *)
Fixpoint String_of (v : jsval) : jstr :=
  match v with
  | JUndef => js "undefined"
  | JNull => js "null"
  | JBool true => js "true"
  | JBool false => js "false"
  | JNum n => num_text n
  | JStr s => s
  | JArr xs => str_join (js ",") (map (λ x, match x with JUndef | JNull => [] | _ => String_of x end) xs)
  | JObj _ => js "[object Object]"
  end.

(** The element of a [Uint8Array] that a value is converted to *)
Definition to_number (v : jsval) : jsnum :=
  match v with
  | JUndef => NaN
  | JNull | JBool false => Fin 0
  | JBool true => Fin 1
  | JNum n => n
  | v => text_num (String_of v)
  end.
Definition truncate (q : Q) : Z := if q_ltb q 0 then - Qround.Qfloor (- q) else Qround.Qfloor q.
Definition to_uint8 (v : jsval) : Z :=
  match to_number v with Fin q => truncate q mod 256 | _ => 0 end.

(** [new Uint8Array(elements)] *)
Definition uint8_array (elements : list jsval) : Uint8Array :=
  {| buffer := map to_uint8 elements; byteOffset := 0; byteLength := length elements |}.

Definition artifact_bytes (bytes : jsval) : result exn Uint8Array :=
  match bytes with
  | JArr xs => Ok (uint8_array xs)
  | JObj entries => Ok (uint8_array entries.*2)
  | _ => Err ValidationFailedError
  end.

(** The entries of [{ ...v }] *)
Definition spread_entries (v : jsval) : list (jstr * jsval) :=
  match v with
  | JObj entries => entries
  | JArr xs => imap (λ i x, (string_of_nat (Z.of_nat i), x)) xs
  | JStr s => imap (λ i c, (string_of_nat (Z.of_nat i), JStr [c])) s
  | _ => []
  end.

(** [...(body.field ? { field: body.field } : {})] *)
Definition override (body : jsval) (field : jstr) (entries : list (jstr * jsval)) : list (jstr * jsval) :=
  if truthy (prop body field) then map_set entries field (prop body field) else entries.

Definition deploy_artifact (body : jsval) : result exn PackagedArtifact :=
  let rawArtifact := prop body (js "artifact") in
  throw_if (negb (is_object rawArtifact)) ValidationFailedError ≫= λ _,
  artifact_bytes (prop rawArtifact (js "bytes")) ≫= λ bytes,
  let manifest := override body (js "triggers") (override body (js "limits") (override body (js "auth")
                    (spread_entries (nullish_or (prop rawArtifact (js "manifest")) (JObj []))))) in
  Ok {| a_id := String_of (nullish_or (prop rawArtifact (js "id")) (JStr []));
        a_integrity := String_of (nullish_or (prop rawArtifact (js "integrity")) (JStr []));
        a_bytes := bytes;
        a_manifest := JObj manifest |}.

(** [{ ...r }]: the two fields of a route that are read later *)
Definition body_route (r : jsval) : route := {| pattern := prop r (js "pattern"); function := prop r (js "function") |}.
End bodies.

(** ** The server *)

Record Server (K Ob A : Type) := {
  sv_stores : backup_state K Ob;
  sv_keys : A;
  snapshotStates : jsmap jstr ProjectSnapshotState
}.
Arguments Build_Server {K Ob A}.
Arguments sv_stores {K Ob A}.
Arguments sv_keys {K Ob A}.
Arguments snapshotStates {K Ob A}.

(** [options]: whether there is a key store, and a middleware of the caller's *)
Record Options := {
  hasKeyStore : bool;
  authMiddleware : option (auth_request → jstr → AuthResult)
}.

Definition auth_of (req : Request) : auth_request :=
  {| q_pathname := rq_pathname req; q_authorization := header req (js "authorization");
     q_api_key := header req (js "x-api-key") |}.

Section server.
Context {K Ob A : Type} `{Hashing, JsonParser, NumberText, ObjectStore Ob, KeyStore A, !SharedKv K A}.
Context `{BackupService (backup_state K Ob)}.
Variables (options : Options) (env : Env).

Local Abbreviation S := (Server K Ob A).

Definition on_stores {X} (m : stm (backup_state K Ob) exn X) : stm S exn X := λ s,
  let '(w, r) := m (sv_stores s) in (Build_Server w (sv_keys s) (snapshotStates s), r).
Definition on_deployment {X} (m : stm DeploymentService exn X) : stm S exn X := on_stores (on_svc m).
(** A key that is created is in the key-value provider, an import may write what
    the key store reads. *)
Definition on_keys {X} (m : stm A exn X) : stm S exn X := λ s,
  let '(a, r) := m (sv_keys s) in
  let w := sv_stores s in
  (Build_Server (Build_backup_state (bw_svc w) (keys_into_kv a (bw_kv w)) (bw_obj w)) a (snapshotStates s), r).
Definition on_backup {X} (m : stm (backup_state K Ob) exn X) : stm S exn X := λ s,
  let '(w, r) := m (sv_stores s) in
  (Build_Server w (kv_into_keys (bw_kv w) (sv_keys s)) (snapshotStates s), r).
Definition on_snapshots {X} (m : stm (jsmap jstr ProjectSnapshotState) exn X) : stm S exn X := λ s,
  let '(ss, r) := m (snapshotStates s) in (Build_Server (sv_stores s) (sv_keys s) ss, r).

Definition server_tables (s : S) : tables := tbl (bw_svc (sv_stores s)).

(** [getProjectSnapshot(projectId)] *)
Definition project_snapshot (projectId : jstr) : stm S exn jsval :=
  s <~ st_get ;; on_snapshots (getProjectSnapshot (env_snapshot env) (server_tables s) projectId).

(** [invalidateProjectSnapshot(projectId); await getProjectSnapshot(projectId);] *)
Definition republish (projectId : jstr) : stm S exn unit :=
  on_snapshots (st_modify (invalidateProjectSnapshot projectId)) ;;~
  project_snapshot projectId ;;~ st_ret tt.

(** The middleware in effect *)
Definition middleware (keys : A) : option (auth_request → jstr → AuthResult) :=
  match authMiddleware options with
  | Some f => Some f
  | None =>
      if hasKeyStore options then
        Some (createAuthMiddleware
          {| apiKeyStore := Some (ks_verify keys); staticTokens := None;
             allowAnonymousPaths := Some [js "/healthz"; js "/login"; js "/v1/auth/verify"];
             requireMatchingProject := false |})
      else None
  end.

Section routes.
Variables (req : Request) (pathname requestId : jstr).

Definition allow_methods (allowed : bool) : stm S exn unit :=
  st_lift (throw_if (negb allowed) ValidationFailedError).

Definition handle_healthz : stm S exn Response :=
  allow_methods (is_read req) ;;~
  st_ret (ok_json requestId (JObj [(js "status", JStr (js "ok")); (js "service", JStr (js "railfog-control"));
                                   (js "request_id", JStr requestId)])).

Definition handle_login : stm S exn Response :=
  allow_methods (is_read req) ;;~
  st_ret {| rs_status := 200;
            rs_payload := LoginPage (map_get (rq_query req) (js "callback")) (map_get (rq_query req) (js "state"))
                                    (map_get (rq_query req) (js "orgId"));
            rs_etag := None; rs_requestId := requestId |}.

(** The identity of the caller who creates a key: [None] for the bootstrap *)
Definition key_caller : stm S exn (option jsval + Response) :=
  s <~ st_get ;;
  hasAnyKeys <~ st_lift (ks_hasAnyKeys (sv_keys s)) ;;
  if negb hasAnyKeys then st_ret (inl None)
  else
    match middleware (sv_keys s) with
    | None => st_throw PermissionDeniedError
    | Some auth =>
        match auth (auth_of req) requestId with
        | Denied r => st_ret (inr (denied r))
        | Allowed context => st_ret (inl (Some context))
        end
    end.

(** [requestedProjectId !== callerIdentity.projectId] *)
Definition differs (requested : jstr) (scoped : jsval) : bool :=
  match scoped with JStr p => negb (jstr_eqb requested p) | _ => true end.

Definition create_key (callerIdentity : option jsval) : stm S exn Response :=
  body <~ st_lift (parseJsonBody req) ;;
  let orgId := match callerIdentity with
               | Some identity => prop identity (js "orgId")
               | None => JStr (default (js "default-org") (trimmed_text (prop body (js "orgId"))))
               end in
  let name := default (js "cli-key") (trimmed_text (prop body (js "name"))) in
  let requestedProjectId := trimmed_text (prop body (js "projectId")) in
  let scoped := match callerIdentity with Some identity => prop identity (js "projectId") | None => JUndef end in
  st_lift (throw_if (truthy scoped && match requestedProjectId with Some p => differs p scoped | None => false end)
                    ValidationFailedError) ;;~
  let projectId := nullish_or scoped (match requestedProjectId with Some p => JStr p | None => JUndef end) in
  result <~ on_keys (ks_createKey orgId name projectId) ;;
  st_ret (ok_json requestId (JObj [(js "ok", JBool true); (js "id", prop result (js "id"));
    (js "rawToken", prop result (js "rawToken")); (js "record", prop result (js "record"));
    (js "request_id", JStr requestId)])).

Definition handle_create_key : stm S exn Response :=
  allow_methods (is_post req) ;;~
  st_lift (throw_if (negb (hasKeyStore options)) ValidationFailedError) ;;~
  caller <~ key_caller ;;
  match caller with
  | inr response => st_ret response
  | inl callerIdentity => create_key callerIdentity
  end.

Definition handle_verify : stm S exn Response :=
  if negb (hasKeyStore options) then
    st_ret (ok_json requestId (JObj [(js "ok", JBool true);
      (js "identity", JObj [(js "callerId", JStr (js "anonymous")); (js "orgId", JStr (js "default-org"));
                            (js "callerType", JStr (js "anonymous"))]);
      (js "request_id", JStr requestId)]))
  else
    let token := or_else (default [] (extractBearerToken (header req (js "authorization"))))
                         (default [] (trim <$> header req (js "x-api-key"))) in
    st_lift (throw_if (jstr_eqb token []) PermissionDeniedError) ;;~
    s <~ st_get ;;
    identity <~ st_lift (ks_verify (sv_keys s) token) ;;
    match identity with
    | None => st_throw PermissionDeniedError
    | Some identity =>
        st_ret (ok_json requestId (JObj [(js "ok", JBool true); (js "identity", identity);
                                         (js "request_id", JStr requestId)]))
    end.

Definition handle_projects : stm S exn Response :=
  allow_methods (is_read req) ;;~
  s <~ st_get ;;
  st_ret (ok_json requestId (JObj [(js "ok", JBool true);
    (js "projects", JArr (map JStr (listProjects (server_tables s)))); (js "request_id", JStr requestId)])).

Definition not_modified (etag : jstr) : Response :=
  {| rs_status := 304; rs_payload := NoBody; rs_etag := Some etag; rs_requestId := requestId |}.

(** [ifNoneMatch && isEtagMatch(ifNoneMatch, currentEtag)] *)
Definition unchanged (currentEtag : jstr) : bool :=
  match header req (js "if-none-match") with
  | Some ((_ :: _) as ifNoneMatch) => isEtagMatch ifNoneMatch currentEtag
  | _ => false
  end.

(** [deploymentService.getArtifact(artifactId)]: the object is a stream *)
Definition getArtifact (artifactId : jstr) : stm S exn (option (list Z)) :=
  stream <~ on_stores (on_obj (obj_get (ARTIFACT_STORAGE_PREFIX ++ artifactId))) ;;
  match stream with
  | None => st_ret None
  | Some stream => bytes <~ st_lift (streamToBytes stream) ;; st_ret (Some bytes)
  end.

Definition handle_artifact (segment : jstr) : stm S exn Response :=
  allow_methods (is_read req) ;;~
  artifactId <~ st_lift (decodeURIComponent segment) ;;
  artifactBytes <~ getArtifact artifactId ;;
  match artifactBytes with
  | None => st_throw ResourceNotFoundError
  | Some bytes =>
      let currentEtag := quoted artifactId in
      if unchanged currentEtag then st_ret (not_modified currentEtag)
      else st_ret {| rs_status := 200; rs_payload := Octets bytes; rs_etag := Some currentEtag;
                     rs_requestId := requestId |}
  end.

Definition handle_delete (segment : jstr) : stm S exn Response :=
  projectId <~ st_lift (decodeURIComponent segment) ;;
  deleted <~ on_deployment (λ s, let '(s, d) := deleteProject projectId s in (s, Ok d)) ;;
  st_ret (ok_json requestId (JObj [(js "ok", JBool true); (js "deleted", JBool deleted);
    (js "projectId", JStr projectId); (js "request_id", JStr requestId)])).

Definition handle_logs (segment : jstr) : stm S exn Response :=
  projectId <~ st_lift (decodeURIComponent segment) ;;
  let answer status p := {| rs_status := status; rs_payload := p; rs_etag := None; rs_requestId := requestId |} in
  encoded <~ st_lift (encodeURIComponent projectId) ;;
  fetched <~ st_lift (env_fetch env (strip_slashes (env_runtimeUrl env) ++ js "/v1/projects/" ++ encoded ++ js "/logs" ++ rq_search req)) ;;
  match fetched with
  | Some (status, text) => st_ret (answer status (JsonText text))
  | None => st_ret (answer 200 (Json (JArr [])))
  end.

Definition handle_snapshot (segment : jstr) : stm S exn Response :=
  allow_methods (is_read req) ;;~
  projectId <~ st_lift (decodeURIComponent segment) ;;
  snapshot <~ project_snapshot projectId ;;
  let currentEtag := quoted (version_text snapshot) in
  if unchanged currentEtag then st_ret (not_modified currentEtag)
  else st_ret {| rs_status := 200; rs_payload := Json snapshot; rs_etag := Some currentEtag;
                 rs_requestId := requestId |}.

(** The project of a mutation: of the path, or else the first of the given
    fields of the body that is a non-empty string *)
Definition named_project (segment : option jstr) (others : list jstr) : result exn jstr :=
  match segment with Some p => decodeURIComponent p | None => Ok [] end ≫= λ p,
  let projectId := or_else p (foldr or_else [] others) in
  throw_if (jstr_eqb (trim projectId) []) ValidationFailedError ≫= λ _, Ok projectId.

(** [typeof v !== "string" || v.trim().length === 0] throws, [v.trim()] goes on. *)
Definition required_text (v : jsval) : result exn jstr :=
  match trimmed_text v with Some t => Ok t | None => Err ValidationFailedError end.

(** [deploymentService.deploy(projectId, functionName, artifact)]: without a
    health check the gate needs no fuel. *)
Definition deploy_call (projectId functionName : jstr) (artifact : PackagedArtifact) : stm S exn DeploymentResult :=
  on_stores (λ w,
    match deploy obj_put 0 projectId functionName artifact NoHealthCheck
            (rd_now (env_deploy env)) (rd_bytes (env_deploy env)) (bw_svc w) (bw_obj w) with
    | Some (s, o, r) => (Build_backup_state s (bw_kv w) o, r)
    | None => (w, Err InternalError)
    end).

Definition store_routes (projectId : jstr) (body : jsval) : stm S exn unit :=
  match prop body (js "routes") with
  | JArr rs => on_deployment (st_modify (setProjectRoutes projectId (map body_route rs)))
  | _ => st_ret tt
  end.

Definition store_metadata (projectId : jstr) (body : jsval) : stm S exn unit :=
  let e := prop body (js "environment") in
  let d := prop body (js "domains") in
  if truthy e || truthy d then
    on_deployment (st_modify (setProjectMetadata projectId
      {| environment := as_str e; domains := match d with JArr ds => Some ds | _ => None end |}))
  else st_ret tt.

Definition deploy_result (r : DeploymentResult) : jsval :=
  JObj [(js "revisionId", JStr (dr_revisionId r)); (js "state", JStr (state_string (dr_state r)));
        (js "active", JBool (dr_active r))].

Definition handle_deploy (segment : option jstr) : stm S exn Response :=
  allow_methods (is_post req) ;;~
  body <~ st_lift (parseJsonBody req) ;;
  projectId <~ st_lift (named_project segment [string_or_empty (prop body (js "project"));
                                               string_or_empty (prop body (js "projectId"))]) ;;
  functionName <~ st_lift (required_text (prop body (js "functionName"))) ;;
  artifact <~ st_lift (deploy_artifact body) ;;
  deployResult <~ deploy_call projectId functionName artifact ;;
  store_routes projectId body ;;~
  store_metadata projectId body ;;~
  republish projectId ;;~
  st_ret (ok_json requestId (deploy_result deployResult)).

Definition handle_rollback (segment : option jstr) : stm S exn Response :=
  allow_methods (is_post req) ;;~
  body <~ st_lift (parseJsonBody req) ;;
  projectId <~ st_lift (named_project segment [string_or_empty (prop body (js "project"));
                                               string_or_empty (prop body (js "projectId"))]) ;;
  functionName <~ st_lift (required_text (prop body (js "functionName"))) ;;
  targetRevisionId <~ st_lift (required_text (prop body (js "targetRevisionId"))) ;;
  rollbackResult <~ on_deployment (rollback projectId functionName targetRevisionId) ;;
  republish projectId ;;~
  st_ret (ok_json requestId (JObj [(js "previousRevisionId", JStr rollbackResult.1);
                                   (js "activeRevisionId", JStr rollbackResult.2)])).

(** A query parameter or a header that is absent or empty falls through. *)
Definition text_or_empty (v : option jstr) : jstr := default [] v.

Definition handle_export (segment : option jstr) : stm S exn Response :=
  allow_methods (is_post req || jstr_eqb (rq_method req) (js "GET")) ;;~
  let body := if is_post req then match parseJsonBody req with Ok b => b | Err _ => JObj [] end else JObj [] in
  projectId <~ st_lift (named_project segment [text_or_empty (map_get (rq_query req) (js "projectId"));
                                               string_or_empty (prop body (js "projectId"));
                                               string_or_empty (prop body (js "project"))]) ;;
  let orgId := foldr or_else (js "default-org")
                 [text_or_empty (map_get (rq_query req) (js "orgId")); text_or_empty (header req (js "x-org-id"));
                  string_or_empty (prop body (js "orgId"))] in
  archive <~ on_stores (bs_export orgId projectId) ;;
  st_ret (ok_json requestId archive).

Definition handle_import (segment : option jstr) : stm S exn Response :=
  allow_methods (is_post req) ;;~
  body <~ st_lift (parseJsonBody req) ;;
  projectId <~ st_lift (named_project segment [string_or_empty (prop body (js "targetProjectId"));
                                               string_or_empty (prop body (js "projectId"));
                                               string_or_empty (prop body (js "project"))]) ;;
  st_lift (throw_if (negb (is_object (prop body (js "archive")))) ValidationFailedError) ;;~
  let targetOrgId := foldr or_else (js "default-org")
                       [string_or_empty (prop body (js "targetOrgId"));
                        text_or_empty (map_get (rq_query req) (js "orgId")); text_or_empty (header req (js "x-org-id"));
                        string_or_empty (prop body (js "orgId"))] in
  let overwriteKv := match prop body (js "overwriteKv") with JBool true => true | _ => false end in
  importResult <~ on_backup (bs_import targetOrgId projectId (prop body (js "archive")) overwriteKv) ;;
  republish projectId ;;~
  st_ret (ok_json requestId importResult).

(** The routes behind the authentication gate, in the order of the handler *)
Definition protected_routes : stm S exn Response :=
  if customer_path pathname then st_throw PermissionDeniedError
  else if jstr_eqb pathname (js "/v1/projects") then handle_projects
  else
    match artifactMatch pathname with
    | Some segment => handle_artifact segment
    | None =>
        match projectMatch pathname, directMatch pathname with
        | Some (p, (ADelete | AUndeploy)), _ => handle_delete p
        | None, Some p =>
            if jstr_eqb (rq_method req) (js "DELETE") then handle_delete p else st_throw PermissionDeniedError
        | Some (p, ALogs), _ => handle_logs p
        | Some (p, ASnapshot), _ => handle_snapshot p
        | Some (p, ADeploy), _ => handle_deploy (Some p)
        | Some (p, ARollback), _ => handle_rollback (Some p)
        | Some (p, AExport), _ => handle_export (Some p)
        | Some (p, AImport), _ => handle_import (Some p)
        | None, None =>
            if jstr_eqb pathname (js "/deploy") then handle_deploy None
            else if jstr_eqb pathname (js "/rollback") then handle_rollback None
            else if jstr_eqb pathname (js "/export") then handle_export None
            else if jstr_eqb pathname (js "/import") then handle_import None
            else st_throw PermissionDeniedError
        end
    end.

(** [isDataPlaneRead] requests pass the gate without credentials. *)
Definition gate : stm S exn (option Response) :=
  s <~ st_get ;;
  match middleware (sv_keys s) with
  | Some auth =>
      if isDataPlaneRead req pathname then st_ret None
      else match auth (auth_of req) requestId with
           | Denied r => st_ret (Some (denied r))
           | Allowed _ => st_ret None
           end
  | None => st_ret None
  end.

Definition routes : stm S exn Response :=
  if jstr_eqb pathname (js "/healthz") then handle_healthz
  else if jstr_eqb pathname (js "/login") then handle_login
  else if jstr_eqb pathname (js "/v1/auth/keys") then handle_create_key
  else if jstr_eqb pathname (js "/v1/auth/verify") then handle_verify
  else
    refused <~ gate ;;
    match refused with
    | Some response => st_ret response
    | None => protected_routes
    end.
End routes.

(** The handler: every exception becomes a response. *)
Definition handler (req : Request) (s : S) : S * Response :=
  let requestId := resolveRequestId env req in
  match routes req (strip_slash (rq_pathname req)) requestId s with
  | (s, Ok response) => (s, response)
  | (s, Err e) => (s, buildErrorResponse e requestId)
  end.
End server.
