(* ===== verification/ControlInstances.v ===== *)
(** * The services behind the control plane's interfaces

    [KeyStore] by the API key store, whose calls run to their end without failures
    of the providers, and [BackupService] by the state backup service, with the
    promise that [BackupLaws] makes to the server. *)

From S2P Require Import Prelude JsString JsMap JsNumber JsValue Errors Utf8 Ulid KvInterface SqliteKv.
From S2P Require Import Packager Deployment Snapshot StateBackup ArchiveSchema ApiKeys AuthMiddleware ControlServer.
From Stdlib Require Import QArith.

Open Scope Z_scope.
Open Scope railfog_scope.

(** ** Keys *)

Section keys.
Context `{Hashing, JsonParser}.
(** What [createKey] reads of the ULID generator, the random source and the clock *)
Variables (id : jstr) (randomBytes : list Z) (iso : jstr).

(** A call makes at most five steps. *)
Fixpoint finish (n : nat) (c : call) (s : ApiKeyStore) : ApiKeyStore * call :=
  match n with
  | O => (s, c)
  | S n => let '(s, c) := step_call Done iso c s in finish n c s
  end.

Definition org_listing (s : ApiKeyStore) : list (key * jsval) :=
  filter (λ e, match e.1 with
               | a :: b :: _ => jstr_eqb a (js "_auth") && jstr_eqb b (js "orgs")
               | _ => false end = true) (storage s).

#[export] Instance sequential_keys : KeyStore ApiKeyStore := {
  ks_verify s rawToken :=
    match (finish 5 (verifyRawToken s rawToken) s).2 with
    | Verified _ identity _ => Ok identity
    | Threw e => Err e
    | _ => Err InternalError
    end;
  ks_hasAnyKeys s := Ok (hasAnyKeys (org_listing s));
  ks_createKey orgId name projectId := λ s,
    match orgId with
    | JStr org =>
        let '(raw, r) := new_key name org (as_str projectId) id randomBytes iso in
        match finish 5 (CreateToken raw r) s with
        | (s, Created raw r) =>
            (s, Ok (JObj [(js "id", JStr (ak_id r)); (js "rawToken", JStr raw); (js "record", key_record_value r)]))
        | (s, Threw e) => (s, Err e)
        | (s, _) => (s, Err InternalError)
        end
    | _ => (s, Err TypeError)
    end
}.
End keys.

(** ** One provider for keys and backups

    [main] makes both on one SQLite provider: the key store reads the live rows of
    the table, and the records that the server creates become rows of the table. *)

Definition live_rows (d : kv_db jsval) : list (key * jsval) :=
  (λ e, (key_json e.2, value_json e.2)) <$>
    filter (λ e, expired (SqliteKv.clock d) e.2 = false) (sorted_rows (kv_entries d)).

Definition write_row (d : kv_db jsval) (e : key * jsval) : kv_db jsval :=
  match (sqlite_get e.1 d).2 with Ok (Some _) => d | _ => (sqlite_set e.1 e.2 None d).1 end.

Definition main_kv : SharedKv (kv_db jsval) ApiKeyStore := {|
  kv_into_keys d s := with_storage (live_rows d) s;
  keys_into_kv s d := fold_left write_row (storage s) d
|}.

(** ** Backups *)

Section backup.
Context `{Hashing} {K Ob : Type} `{KvStore K jsval, !KvLister K jsval, ObjectStore Ob}.
Context (decodeBase64 : jstr → result exn (list Z)) (stringify : jsval → jstr).
(** The pages a listing can have, and what the identifier of an export reads *)
Variables (fuel : nat) (now : Z) (bytes : list Z) (now' : Z).
(** [archive as StateBackupArchive] *)
Variable archive_of : jsval → StateBackupArchive.

Definition import_result (r : ImportProjectResult) : jsval :=
  JObj [(js "restoredRevisions", num_value (inject_Z (restoredRevisions r)));
        (js "restoredKvKeys", num_value (inject_Z (restoredKvKeys r)));
        (js "restoredObjects", num_value (inject_Z (restoredObjects r)));
        (js "restoredQueues", num_value (inject_Z (restoredQueues r)))].

#[export] Instance state_backup_service : BackupService (backup_state K Ob) := {
  bs_export org p := λ w,
    match exportProject stringify fuel {| ex_orgId := org; ex_projectId := p; backupStorageKey := None |} now bytes now' w with
    | Some (w, Ok a) => (w, Ok (archive_value a))
    | Some (w, Err e) => (w, Err e)
    | None => (w, Err InternalError)
    end;
  bs_import org p a overwrite := λ w,
    match importProject decodeBase64 {| targetOrgId := org; targetProjectId := p; archive := archive_of a;
                                        overwriteKv := overwrite |} w with
    | (w, Ok r) => (w, Ok (import_result r))
    | (w, Err e) => (w, Err e)
    end
}.

Local Abbreviation W := (backup_state K Ob).

Section import_deployments.
Variables (options : ImportProjectOptions) (w0 : W).

Definition target_only (w : W) : Prop :=
  same_projects_but (targetProjectId options) (tbl (bw_svc w0)) (tbl (bw_svc w)).

Lemma target_kv {X} (m : stm K exn X) : st_keeps target_only (on_kv m).
Proof. intros w Hw. unfold on_kv. by destruct (m _). Qed.
Lemma target_obj {X} (m : stm Ob exn X) : st_keeps target_only (on_obj m).
Proof. intros w Hw. unfold on_obj. by destruct (m _). Qed.

Lemma target_restore f r isActive :
  st_keeps target_only (on_svc (restoreRevision (targetProjectId options) f r isActive)).
Proof.
  intros w Hw. unfold on_svc. pose proof (restoreRevision_same (targetProjectId options) f r isActive (bw_svc w)) as Hr.
  destruct (restoreRevision _ _ _ _ _) as [s x]. by eapply same_projects_trans.
Qed.

Local Hint Resolve target_kv target_obj target_restore : railfog.

Lemma target_check_overwrite entries : ∀ seen, st_keeps target_only (check_overwrite options seen entries).
Proof.
  induction entries as [|e entries IH]; intros seen; [apply keeps_ret|]. cbn [check_overwrite].
  apply keeps_bind; [apply keeps_lift|intros _]. apply keeps_bind; [apply target_kv|intros v].
  apply keeps_bind; [apply keeps_lift|intros _]. apply IH.
Qed.

Lemma target_import : st_keeps target_only (importProject decodeBase64 options).
Proof.
  apply keeps_bind.
  - unfold import_prechecks. do 5 (apply keeps_bind; [apply keeps_lift|intros _]).
    apply keeps_bind; [|intros _; apply keeps_bind; [|intros _; apply keeps_bind; [|intros _; apply keeps_ret]]].
    + apply keeps_for_each. intros obj _. unfold check_large_object. destruct (bo_dataBase64 obj); [apply keeps_ret|].
      apply keeps_bind; [apply target_obj|]. intros []; auto with railfog.
    + apply keeps_for_each. intros [fn rev] _ w Hw. unfold check_revision. by destruct (getRevision _ _ _ _).
    + destruct (overwriteKv options); [apply keeps_ret|apply target_check_overwrite].
  - intros a. unfold restore.
    apply keeps_bind; [|intros _; apply keeps_bind; [|intros _; apply keeps_bind; [|intros _; apply keeps_ret]]];
      apply keeps_for_each; [intros [fn rev] _; apply target_restore|intros e _; apply target_kv|].
    intros obj _. unfold restore_object. destruct (bo_dataBase64 obj).
    + apply keeps_bind; [apply keeps_lift|intros b]. apply keeps_bind; [apply keeps_lift|intros _]. apply target_obj.
    + apply keeps_bind; [apply target_obj|intros [s|]; [|apply keeps_throw]].
      apply keeps_bind; [apply keeps_lift|intros b]. apply keeps_bind; [apply keeps_lift|intros _]. apply target_obj.
Qed.
End import_deployments.

#[export] Instance state_backup_laws : BackupLaws K Ob.
Proof.
  split.
  - intros org p w. cbn [bs_export state_backup_service]. unfold exportProject. cbn [ex_orgId ex_projectId].
    destruct (validateIdentifier org ≫= _); [|done]. destruct (export_kv _ _ _ _ _) as [[k [kvs|e]]|]; [|done..].
    destruct (export_objects _ _ _ _ _) as [[o [objs|e]]|]; [|done..].
    cbv zeta. by destruct (store_archive _ _ _ _) as [o1 [a1|e]].
  - intros org p a overwrite w. cbn [bs_import state_backup_service].
    set (options := Build_ImportProjectOptions _ _ _ _).
    pose proof (target_import options w w ltac:(done)) as Hi. unfold target_only in Hi.
    by destruct (importProject _ options w) as [w' [r|e]].
Qed.
End backup.
