(* ===== verification/ControlSafety.v ===== *)
(** * What requests to the control plane can do

    Authentication: without credentials a request reads at most.  Isolation: a
    request to a project's path touches that project only.  Publication: what was
    deployed is in the next snapshot. *)

From S2P Require Import Prelude JsString JsMap JsNumber JsValue Errors Utf8 Uri Ulid KvInterface SqliteKv.
From S2P Require Import Packager Deployment Snapshot StateBackup ArchiveSchema ApiKeys AuthMiddleware SnapshotDistribution.
From S2P Require Import BackupRestore ControlServer ControlInstances.
From Stdlib Require Import QArith.

Open Scope Z_scope.
Open Scope railfog_scope.

(** ** Paths *)

Lemma projectMatch_inv pathname p a :
  projectMatch pathname = Some (p, a) →
  p ≠ [] ∧ ∃ name, map_get actions name = Some a ∧ pathname = PROJECTS ++ p ++ js "/" ++ name.
Proof.
  unfold projectMatch. destruct (starts_with pathname PROJECTS) eqn:E; [|done].
  apply starts_with_spec in E as [r ->].
  assert (slice_from (length PROJECTS) (PROJECTS ++ r) = r) as -> by apply drop_app_length.
  destruct (split_on (chr "/") r) as [|[|c q] [|name [|? ?]]] eqn:E; try done.
  intros (a' & Ha & [= -> ->])%fmap_Some. split; [done|]. exists name. split; [done|].
  pose proof (split_on_join (chr "/") r) as Hj. rewrite E in Hj. by rewrite <-Hj.
Qed.

Lemma one_segment_inv prefix pathname p :
  one_segment prefix pathname = Some p → p ≠ [] ∧ pathname = prefix ++ p.
Proof.
  unfold one_segment. destruct (starts_with pathname prefix) eqn:E; [|done].
  apply starts_with_spec in E as [r ->].
  assert (slice_from (length prefix) (prefix ++ r) = r) as -> by apply drop_app_length.
  destruct (split_on (chr "/") r) as [|[|c q] [|? ?]] eqn:E; try done. intros [= <-].
  split; [done|]. pose proof (split_on_join (chr "/") r) as Hj. rewrite E in Hj. by rewrite <-Hj.
Qed.

(** A mutation's path is not one that the data plane reads. *)
Lemma mutation_not_read p a name : map_get actions name = Some a →
  ends_with (PROJECTS ++ p ++ js "/" ++ name) (js "/snapshot") ||
  ends_with (PROJECTS ++ p ++ js "/" ++ name) (js "/logs") = true → a = ASnapshot ∨ a = ALogs.
Proof.
  intros Ha%map_get_elem. rewrite app_assoc. generalize (PROJECTS ++ p) as x. intros x.
  repeat (apply elem_of_cons in Ha as [[= -> ->]|Ha]); [by left| | | | |by right| | |by apply elem_of_nil in Ha];
    unfold ends_with; rewrite !rev_app_distr; vm_compute; discriminate.
Qed.

(** ** Reads *)

Section safety.
Context {K Ob A : Type} `{Hashing, JsonParser, NumberText, ObjectLaws Ob, KeyStore A, !SharedKv K A}.
Context `{BackupService (backup_state K Ob)}.
Variables (options : Options) (env : Env).
Implicit Types s : Server K Ob A.

(** Nothing but the cache of snapshots has changed. *)
Definition reads_only s0 s : Prop := sv_stores s = sv_stores s0 ∧ sv_keys s = sv_keys s0.

Lemma reads_snapshots {X} s0 (m : stm _ exn X) : st_keeps (reads_only s0) (on_snapshots (K := K) (Ob := Ob) (A := A) m).
Proof. intros s Hs. unfold on_snapshots. by destruct (m _). Qed.

Lemma reads_project_snapshot s0 p : st_keeps (reads_only s0) (project_snapshot (K := K) (Ob := Ob) (A := A) env p).
Proof. apply keeps_bind; [apply keeps_get|intros s]. apply reads_snapshots. Qed.

Lemma reads_artifact s0 i : st_keeps (reads_only s0) (getArtifact (K := K) (Ob := Ob) (A := A) i).
Proof.
  apply keeps_bind.
  - intros [w a ss] [Hw Ha]. unfold on_stores, on_obj. cbn in *.
    pose proof (obj_get_pure (bw_obj w) (ARTIFACT_STORAGE_PREFIX ++ i)) as Hp.
    destruct (obj_get _ _) as [o r]. cbn in Hp. subst o. split; [|done]. cbn. rewrite <-Hw. by destruct w.
  - intros [st|]; [apply keeps_bind; [apply keeps_lift|intros b]|]; apply keeps_ret.
Qed.

Local Hint Resolve reads_project_snapshot reads_artifact : railfog.

(** Sequences of steps that only read *)
Local Ltac reads :=
  repeat first
    [ done
    | progress auto with railfog
    | apply keeps_bind; [|intros ?]
    | match goal with
      | |- st_keeps _ (if ?b then _ else _) => destruct b
      | |- st_keeps _ (match ?x with _ => _ end) => destruct x
      end ].

Lemma reads_data_plane req requestId pathname s0 :
  isDataPlaneRead req pathname = true →
  st_keeps (reads_only s0) (protected_routes (K := K) (Ob := Ob) (A := A) env req pathname requestId).
Proof.
  unfold isDataPlaneRead. rewrite andb_true_iff. intros [Hm Hp]. unfold protected_routes.
  destruct (customer_path pathname); [reads|].
  destruct (jstr_eqb pathname (js "/v1/projects")) eqn:Ep; [unfold handle_projects, allow_methods; reads|].
  destruct (artifactMatch pathname) as [segment|] eqn:Ea.
  { unfold handle_artifact, allow_methods. reads. }
  assert (starts_with pathname ARTIFACTS = true ∨
    ends_with pathname (js "/snapshot") || ends_with pathname (js "/logs") = true) as Hq.
  { rewrite !orb_true_iff in Hp. rewrite orb_true_iff. destruct Hp as [[[?|Hq]|?]|?]; auto. congruence. }
  destruct (projectMatch pathname) as [[p a]|] eqn:Em.
  { apply projectMatch_inv in Em as (_ & name & Hn & ->).
    destruct Hq as [Hq|Hq]; [exfalso; revert Hq; vm_compute; discriminate|].
    destruct (mutation_not_read p a name Hn Hq) as [-> | ->];
      unfold handle_snapshot, handle_logs, allow_methods; reads. }
  destruct (directMatch pathname) as [p|] eqn:Ed.
  { destruct (jstr_eqb (rq_method req) (js "DELETE")) eqn:E; [|reads].
    apply jstr_eqb_eq in E. unfold is_read in Hm. rewrite E in Hm. vm_compute in Hm. discriminate. }
  repeat match goal with |- context [jstr_eqb pathname ?q] =>
    destruct (jstr_eqb pathname q) eqn:E;
      [apply jstr_eqb_eq in E; subst pathname; exfalso; revert Hq; vm_compute; intros [|]; discriminate|clear E] end.
  reads.
Qed.

(** *** Without credentials *)

(** The key store verifies the token of the request. *)
Definition known_token s (req : Request) : Prop :=
  ∃ token identity, presented_token (auth_of req) = Some token ∧ ks_verify (sv_keys s) token = Ok (Some identity).

(** Requests that need no token *)
Definition open_paths : list jstr :=
  [js "/healthz"; js "/login"; js "/v1/auth/verify"; js "/v1/auth/keys"].
Definition public (req : Request) : Prop :=
  strip_slash (rq_pathname req) ∈ open_paths ∨ isDataPlaneRead req (strip_slash (rq_pathname req)) = true.

(** The creation of the first key *)
Definition bootstrap s (req : Request) : Prop :=
  strip_slash (rq_pathname req) = js "/v1/auth/keys" ∧ ks_hasAnyKeys (sv_keys s) = Ok false.

Lemma unknown_denied s req requestId :
  hasKeyStore options = true → authMiddleware options = None → ¬ known_token s req →
  strip_slash (rq_pathname req) ∉ [js "/healthz"; js "/login"; js "/v1/auth/verify"] →
  ∃ auth r, middleware options (sv_keys s) = Some auth ∧ auth (auth_of req) requestId = Denied r ∧
    e_status r = 403 ∧ e_request_id r = requestId.
Proof.
  intros Hk Ha Hu Hp. unfold middleware. rewrite Ha, Hk.
  set (o := Build_AuthMiddlewareOptions _ _ _ _). exists (createAuthMiddleware o).
  destruct (createAuthMiddleware o (auth_of req) requestId) as [context|r] eqn:E.
  - exfalso. apply middleware_allows in E as [[Hin _]|[_ (token & Ht & [Hs|(_ & verify & Hv & Hid & _)])]].
    + by apply Hp.
    + done.
    + injection Hv as <-. apply Hu. by exists token, context.
  - exists r. apply middleware_denies in E as (Hst & _ & Hid). done.
Qed.

Lemma reads_public req requestId s0 :
  st_keeps (reads_only s0) (handle_healthz (K := K) (Ob := Ob) (A := A) req requestId) ∧
  st_keeps (reads_only s0) (handle_login (K := K) (Ob := Ob) (A := A) req requestId) ∧
  st_keeps (reads_only s0) (handle_verify (K := K) (Ob := Ob) (A := A) options req requestId).
Proof.
  unfold handle_healthz, handle_login, handle_verify, allow_methods. cbv zeta. split_and!; reads.
Qed.

Lemma reads_create_key req requestId s :
  hasKeyStore options = true → authMiddleware options = None → ¬ known_token s req →
  strip_slash (rq_pathname req) = js "/v1/auth/keys" →
  bootstrap s req ∨ reads_only s (handle_create_key (K := K) (Ob := Ob) options req requestId s).1.
Proof.
  intros Hk Ha Hu Hp. destruct (ks_hasAnyKeys (sv_keys s)) as [[]|e] eqn:Ek; [|by left|].
  - right. destruct (unknown_denied s req requestId Hk Ha Hu) as (auth & r & Hm & Hd & _).
    { rewrite Hp. apply (bool_decide_unpack _). vm_compute. exact I. }
    unfold handle_create_key, allow_methods, key_caller, st_bind, st_lift, st_get, throw_if.
    destruct (is_post req); [|done]. rewrite Hk. cbn [negb]. rewrite Ek. cbn [negb]. rewrite Hm, Hd. done.
  - right. unfold handle_create_key, allow_methods, key_caller, st_bind, st_lift, st_get, throw_if.
    destruct (is_post req); [|done]. rewrite Hk. cbn [negb]. by rewrite Ek.
Qed.

(** C17: No credentials, no effects (PLAT-6): unless the key store verifies the
    token that the request presents, no request, whatever its path, method and
    body, changes a deployment, a key, an entry or an object, except that the
    first key can be created while there is none; and every request that is not
    one of the public endpoints or data-plane reads is answered 403 under its own
    request id with the server unchanged. *)
Theorem unauthenticated_reads_only req s :
  hasKeyStore options = true → authMiddleware options = None → ¬ known_token s req →
  let '(s', r) := handler options env req s in
  (bootstrap s req ∨ reads_only s s') ∧
  (¬ public req → s' = s ∧ rs_status r = 403 ∧ rs_requestId r = resolveRequestId env req).
Proof.
  intros Hk Ha Hu. unfold handler. set (requestId := resolveRequestId env req).
  set (path := strip_slash (rq_pathname req)).
  destruct (reads_public req requestId s) as (K1 & K2 & K3).
  assert (∀ m : stm _ exn Response, (bootstrap s req ∨ reads_only s (m s).1) → public req →
    let '(s', r) := match m s with (s, Ok response) => (s, response) | (s, Err e) => (s, buildErrorResponse e requestId) end in
    (bootstrap s req ∨ reads_only s s') ∧
    (¬ public req → s' = s ∧ rs_status r = 403 ∧ rs_requestId r = requestId)) as Hopen.
  { intros m Hr Hp. by destruct (m s) as [s' [r|e]]. }
  assert (∀ q, q ∈ open_paths → path = q → public req) as Hpub by (intros q Hq <-; by left).
  unfold routes.
  destruct (jstr_eqb path (js "/healthz")) eqn:E1.
  { apply jstr_eqb_eq in E1. apply Hopen; [right; by apply K1|]. by eapply Hpub; [|exact E1]; left. }
  destruct (jstr_eqb path (js "/login")) eqn:E2.
  { apply jstr_eqb_eq in E2. apply Hopen; [right; by apply K2|]. by eapply Hpub; [|exact E2]; do 1 right; left. }
  destruct (jstr_eqb path (js "/v1/auth/keys")) eqn:E3.
  { apply jstr_eqb_eq in E3. apply Hopen; [by apply reads_create_key|]. by eapply Hpub; [|exact E3]; do 3 right; left. }
  destruct (jstr_eqb path (js "/v1/auth/verify")) eqn:E4.
  { apply jstr_eqb_eq in E4. apply Hopen; [right; by apply K3|]. by eapply Hpub; [|exact E4]; do 2 right; left. }
  rewrite !jstr_eqb_neq in *.
  destruct (unknown_denied s req requestId Hk Ha Hu) as (auth & r & Hm & Hd & Hst & Hid).
  { fold path. rewrite !not_elem_of_cons. split_and!; try done. apply not_elem_of_nil. }
  destruct (isDataPlaneRead req path) eqn:Er.
  - apply Hopen; [|by right]. right. unfold gate, st_bind, st_get, st_ret. rewrite Hm, Er. by apply reads_data_plane.
  - unfold gate, st_bind, st_get, st_ret. rewrite Hm, Er, Hd. split; [by right|]. intros _. by rewrite <-Hst, <-Hid.
Qed.
End safety.

(** ** Isolation of projects *)

(** The deployments, routes and metadata of every project but [p] *)
Definition other_projects (p : jstr) (t t' : tables) : Prop :=
  (∀ p' f i, p' ≠ p → getRevision t' p' f i = getRevision t p' f i) ∧
  (∀ p' f, p' ≠ p → getActivePointer t' p' f = getActivePointer t p' f) ∧
  (∀ p', p' ≠ p → getProjectRoutes t' p' = getProjectRoutes t p') ∧
  (∀ p', p' ≠ p → getProjectMetadata t' p' = getProjectMetadata t p').

Lemma other_projects_refl p t : other_projects p t t.
Proof. done. Qed.

Lemma other_projects_trans p t1 t2 t3 :
  other_projects p t1 t2 → other_projects p t2 t3 → other_projects p t1 t3.
Proof.
  intros (E1 & E2 & E3 & E4) (G1 & G2 & G3 & G4).
  split_and!; intros; [rewrite G1, E1|rewrite G2, E2|rewrite G3, E3|rewrite G4, E4]; done.
Qed.

Lemma same_projects_other p t t' : same_projects_but p t t' → other_projects p t t'.
Proof.
  intros (E1 & E2 & E3 & E4). unfold other_projects, getProjectRoutes, getProjectMetadata.
  rewrite E3, E4. done.
Qed.

Lemma other_save p f r t : other_projects p t (saveRevisionRecord p f r t).
Proof. split_and!; try done. intros p' f' i Hn. rewrite getRevision_save, decide_False by naive_solver. done. Qed.
Lemma other_point p f i t : other_projects p t (setActivePointer p f i t).
Proof. split_and!; try done. intros p' f' Hn. rewrite getActivePointer_set, decide_False by naive_solver. done. Qed.
Lemma other_delete p t : other_projects p t (delete_tables p t).
Proof.
  split_and!; intros; rewrite ?getRevision_delete, ?getActivePointer_delete, ?decide_False by done; try done;
    unfold getProjectRoutes, getProjectMetadata; cbn; by rewrite map_get_delete, decide_False by done.
Qed.
Lemma other_routes p rs s : other_projects p (tbl s) (tbl (setProjectRoutes p rs s)).
Proof.
  unfold setProjectRoutes. rewrite tbl_schedulePersist. split_and!; try done.
  intros p' Hn. unfold getProjectRoutes. cbn. by rewrite map_get_set_ne.
Qed.
Lemma other_metadata p m s : other_projects p (tbl s) (tbl (setProjectMetadata p m s)).
Proof.
  unfold setProjectMetadata. rewrite tbl_schedulePersist. split_and!; try done.
  intros p' Hn. unfold getProjectMetadata. cbn. by rewrite map_get_set_ne.
Qed.

Lemma other_rollback p f target s : other_projects p (tbl s) (tbl (rollback p f target s).1).
Proof. destruct (rollback_effect p f target s) as [_ [-> |(r & _ & _ & ->)]]; [done|apply other_point]. Qed.

Lemma other_finish r healthy s :
  other_projects (r_project r) (tbl s) (tbl (deploy_finish r healthy s).1).
Proof.
  rewrite (proj1 (deploy_finish_tables r healthy s)). unfold finish_tables.
  destruct healthy; [destruct (not_superseded _ _)|]; try apply other_save.
  eapply other_projects_trans; [apply other_save|apply other_point].
Qed.

Lemma other_deploy `{Hashing} {O : Type} (put : jstr → list Z → stm O exn unit) p f a now bytes s o s' o' r :
  deploy put 0 p f a NoHealthCheck now bytes s o = Some (s', o', r) → other_projects p (tbl s) (tbl s').
Proof.
  unfold deploy. destruct (deploy_begin_effect p f a now bytes s) as [[e ->]|(s1 & rev & ts & -> & Ht & _ & _ & _ & _ & Hp & _)].
  { by intros [= <- _ _]. }
  destruct (put _ _ o) as [o1 [[]|e]]; [|intros [= <- _ _]; by rewrite Ht].
  cbn [run_health_check fmap option_fmap option_map].
  pose proof (other_finish (with_state Ready rev) (callback_probes (λ _, Ok (JBool true)) 0 REQUIRED_HEALTHY_PROBES) s1) as Ho.
  destruct (deploy_finish _ _ s1) as [s2 res]. intros [= <- _ _]. rewrite <-Ht.
  cbn [with_state r_project fst] in Ho. by rewrite <-Hp.
Qed.

Section isolation.
Context {K Ob A : Type} `{Hashing, JsonParser, NumberText, ObjectLaws Ob, KeyStore A, !SharedKv K A, BackupLaws K Ob}.
Variables (options : Options) (env : Env) (p : jstr).
Implicit Types s : Server K Ob A.

(** Only the deployments of [p] have changed; keys have not, unless they may. *)
Definition confined_to (keys_may : bool) s0 s : Prop :=
  other_projects p (server_tables s0) (server_tables s) ∧ (keys_may = false → sv_keys s = sv_keys s0).

Lemma confined_snapshots {X} km s0 (m : stm _ exn X) : st_keeps (confined_to km s0) (on_snapshots (K := K) (Ob := Ob) (A := A) m).
Proof. intros s Hs. unfold on_snapshots. by destruct (m _). Qed.

Lemma confined_stores {X} km s0 (m : stm (backup_state K Ob) exn X) :
  (∀ w, other_projects p (tbl (bw_svc w)) (tbl (bw_svc (m w).1))) →
  st_keeps (confined_to km s0) (on_stores (A := A) m).
Proof.
  intros Hm s [Ho Hk]. unfold on_stores. pose proof (Hm (sv_stores s)) as Hw. destruct (m (sv_stores s)) as [w r].
  split; [|done]. eapply other_projects_trans; [exact Ho|exact Hw].
Qed.

Lemma confined_deployment {X} km s0 (m : stm DeploymentService exn X) :
  (∀ d, other_projects p (tbl d) (tbl (m d).1)) →
  st_keeps (confined_to km s0) (on_deployment (K := K) (Ob := Ob) (A := A) m).
Proof.
  intros Hm. apply confined_stores. intros w. unfold on_svc. specialize (Hm (bw_svc w)).
  by destruct (m (bw_svc w)).
Qed.

Lemma confined_deploy km s0 f a : st_keeps (confined_to km s0) (deploy_call (K := K) (A := A) env p f a).
Proof.
  apply confined_stores. intros w. destruct (deploy _ _ _ _ _ _ _ _ _ _) as [[[d o] r]|] eqn:E; [|done].
  by eapply other_deploy.
Qed.

Lemma confined_routes km s0 body : st_keeps (confined_to km s0) (store_routes (K := K) (Ob := Ob) (A := A) p body).
Proof.
  unfold store_routes. destruct (prop body _); auto with railfog. apply confined_deployment. intros d. apply other_routes.
Qed.

Lemma confined_metadata km s0 body : st_keeps (confined_to km s0) (store_metadata (K := K) (Ob := Ob) (A := A) p body).
Proof.
  unfold store_metadata. cbv zeta. destruct (_ || _); auto with railfog.
  apply confined_deployment. intros d. apply other_metadata.
Qed.

Lemma confined_republish km s0 q : st_keeps (confined_to km s0) (republish (K := K) (Ob := Ob) (A := A) env q).
Proof.
  apply keeps_bind; [apply confined_snapshots|intros _].
  apply keeps_bind; [|intros _; apply keeps_ret].
  apply keeps_bind; [apply keeps_get|intros s; apply confined_snapshots].
Qed.

Lemma confined_rollback km s0 f i :
  st_keeps (confined_to km s0) (on_deployment (K := K) (Ob := Ob) (A := A) (rollback p f i)).
Proof. apply confined_deployment. intros d. apply other_rollback. Qed.

Lemma confined_delete km s0 :
  st_keeps (confined_to km s0) (on_deployment (K := K) (Ob := Ob) (A := A) (λ d, let '(d, b) := deleteProject p d in (d, Ok b))).
Proof.
  apply confined_deployment. intros d. pose proof (proj1 (deleteProject_tables p d)) as Hd.
  destruct (deleteProject p d). cbn in *. rewrite Hd. apply other_delete.
Qed.

Lemma confined_export km s0 org q : st_keeps (confined_to km s0) (on_stores (A := A) (bs_export org q)).
Proof. apply confined_stores. intros w. by rewrite bs_export_deployments. Qed.

(** An import may write keys. *)
Lemma confined_import s0 org a overwrite : st_keeps (confined_to true s0) (on_backup (A := A) (bs_import org p a overwrite)).
Proof.
  intros s [Ho Hk]. unfold on_backup. pose proof (bs_import_deployments org p a overwrite (sv_stores s)) as Hw.
  destruct (bs_import _ _ _ _ (sv_stores s)) as [w r]. split; [|done].
  eapply other_projects_trans; [exact Ho|]. by apply same_projects_other.
Qed.

Lemma named_project_path segment others q :
  decodeURIComponent segment = Ok p → p ≠ [] → named_project (Some segment) others = Ok q → q = p.
Proof.
  unfold named_project. intros -> Hp. cbn [mbind result_bind]. destruct (throw_if _ _); [|done]. intros [= <-].
  by destruct p.
Qed.

Local Hint Resolve confined_snapshots confined_deploy confined_routes confined_metadata confined_republish
  confined_rollback confined_delete confined_export confined_import : railfog.

(** The route of a path that names a project *)
Definition project_route (req : Request) (a : action) (segment requestId : jstr) : stm (Server K Ob A) exn Response :=
  match a with
  | ASnapshot => handle_snapshot env req requestId segment
  | ADeploy => handle_deploy env req requestId (Some segment)
  | ARollback => handle_rollback env req requestId (Some segment)
  | AExport => handle_export req requestId (Some segment)
  | AImport => handle_import env req requestId (Some segment)
  | ALogs => handle_logs env req requestId segment
  | ADelete | AUndeploy => handle_delete requestId segment
  end.

Definition is_import (a : action) : bool := match a with AImport => true | _ => false end.

Lemma confined_route s0 req a segment requestId :
  decodeURIComponent segment = Ok p → p ≠ [] →
  st_keeps (confined_to (is_import a) s0) (project_route req a segment requestId).
Proof.
  intros Hd Hp.
  destruct a; cbn [project_route];
    unfold handle_snapshot, handle_deploy, handle_rollback, handle_export, handle_import, handle_logs, handle_delete,
      allow_methods, project_snapshot; cbv zeta.
  all: repeat first
    [ done
    | progress auto with railfog
    | apply keeps_lift_bind; let q := fresh "q" in let Hq := fresh "Hq" in intros q Hq;
      first [apply named_project_path in Hq; [subst q|done..]
            |rewrite Hd in Hq; apply Ok_inj in Hq; subst q
            |idtac]
    | apply keeps_bind; [|intros ?]
    | match goal with
      | |- st_keeps _ (if ?b then _ else _) => destruct b
      | |- st_keeps _ (match ?x with _ => _ end) => destruct x
      end ].
Qed.

(** The path asks for an import. *)
Definition imports (req : Request) : bool :=
  match projectMatch (strip_slash (rq_pathname req)) with Some (_, a) => is_import a | None => false end.

(** The segment of the path that names a project *)
Definition project_segment (req : Request) : option jstr :=
  let pathname := strip_slash (rq_pathname req) in
  match projectMatch pathname with Some (segment, _) => Some segment | None => directMatch pathname end.

Lemma project_segment_path req segment :
  project_segment req = Some segment →
  segment ≠ [] ∧ ∃ rest, strip_slash (rq_pathname req) = PROJECTS ++ rest.
Proof.
  unfold project_segment. cbv zeta. destruct (projectMatch _) as [[q a]|] eqn:E.
  - intros [= <-]. apply projectMatch_inv in E as (? & name & _ & ->). eauto.
  - unfold directMatch. intros (? & ->)%one_segment_inv. eauto.
Qed.

Lemma confined_protected s0 req requestId segment :
  project_segment req = Some segment → decodeURIComponent segment = Ok p →
  st_keeps (confined_to (imports req) s0)
    (protected_routes (K := K) (Ob := Ob) (A := A) env req (strip_slash (rq_pathname req)) requestId).
Proof.
  intros Hs Hd. destruct (project_segment_path _ _ Hs) as [Hne (rest & Hpath)].
  pose proof (decodeURIComponent_nonempty _ _ Hne Hd) as Hp.
  unfold protected_routes. destruct (customer_path _); [apply keeps_throw|].
  destruct (jstr_eqb _ (js "/v1/projects")).
  { unfold handle_projects, allow_methods. apply keeps_bind; [apply keeps_lift|intros _].
    apply keeps_bind; [apply keeps_get|intros ?]. apply keeps_ret. }
  unfold project_segment in Hs. cbv zeta in Hs. unfold imports.
  destruct (artifactMatch _) as [q|] eqn:Ea.
  { unfold artifactMatch in Ea. apply one_segment_inv in Ea as [_ Ea]. rewrite Hpath in Ea. vm_compute in Ea. discriminate. }
  pose proof (λ a, confined_route s0 req a segment requestId Hd Hp) as Hr.
  destruct (projectMatch _) as [[q a]|].
  - injection Hs as ->. specialize (Hr a). by destruct a.
  - rewrite Hs. destruct (jstr_eqb _ _); [apply (Hr ADelete)|apply keeps_throw].
Qed.
End isolation.

(** ** Publication *)

Lemma deploy_active `{Hashing} {O : Type} (put : jstr → list Z → stm O exn unit) p f a now bytes s o s' o' res :
  deploy put 0 p f a NoHealthCheck now bytes s o = Some (s', o', Ok res) → dr_active res = true →
  artifact_id_valid (a_id a) = true ∧
  (put (ARTIFACT_STORAGE_PREFIX ++ a_id a) (artifactBuffer (a_bytes a)) o) = (o', Ok tt) ∧
  ∃ rev, getActiveRevision (tbl s') p f = Some rev ∧ r_id rev = dr_revisionId res ∧ r_manifest rev = a_manifest a ∧
         r_artifactId rev = a_id a.
Proof.
  unfold deploy. destruct (deploy_begin p f a now bytes s) as [s1 [r|e]] eqn:Eb; [|done].
  assert (r_project r = p ∧ r_functionName r = f ∧ r_id r ≠ [] ∧ r_manifest r = a_manifest a ∧ r_artifactId r = a_id a ∧
    artifact_id_valid (a_id a) = true) as (Hp & Hf & Hi & Hm & Hart & Hvalid).
  { unfold deploy_begin, st_bind, st_lift in Eb. destruct (artifact_id_valid (a_id a)); cbn [negb throw_if] in Eb; [|done]. destruct (throw_if _ _); [|done].
    destruct (nextMonotonicTimestamp now s) as [s2 [ts|e]]; [|done]. injection Eb as _ <-. done. }
  destruct (put _ _ o) as [o1 [[]|e]]; [|done]. cbn [run_health_check fmap option_fmap option_map].
  destruct (deploy_finish_tables (with_state Ready r)
    (callback_probes (λ _, Ok (JBool true)) 0 REQUIRED_HEALTHY_PROBES) s1) as [Ht _].
  assert (dr_active (deploy_finish (with_state Ready r) (callback_probes (λ _, Ok (JBool true)) 0 REQUIRED_HEALTHY_PROBES) s1).2 =
    not_superseded (getActivePointer (tbl s1) p f) (r_id r) ∧
    dr_revisionId (deploy_finish (with_state Ready r) (callback_probes (λ _, Ok (JBool true)) 0 REQUIRED_HEALTHY_PROBES) s1).2 = r_id r)
    as [Ha Hid].
  { rewrite <-Hp, <-Hf. split; reflexivity. }
  destruct (deploy_finish _ _ s1) as [s2 res']. cbn [fst snd] in *. intros [= <- <- <-] Hact.
  rewrite Hact in Ha. split; [done|]. split; [done|]. exists (with_state Deployed r). split; [|split; [by rewrite Hid|done]].
  rewrite Ht. unfold finish_tables. cbn [callback_probes REQUIRED_HEALTHY_PROBES with_state r_project r_functionName r_id].
  rewrite Hp, Hf, <-Ha. unfold getActiveRevision.
  rewrite getActivePointer_set, decide_True by done. destruct (r_id r) as [|c i] eqn:Ei; [done|].
  rewrite getRevision_setActivePointer, getRevision_save, decide_True; [done|]. split_and!; [done..|]. cbn. by rewrite Ei.
Qed.

Section properties.
Context {K Ob A : Type} `{Hashing, JsonParser, NumberText, ObjectLaws Ob, KeyStore A, !SharedKv K A, BackupLaws K Ob}.
Variables (options : Options) (env : Env).
Implicit Types s : Server K Ob A.

(** C18: One request, one project (PLAT-6, PLAT-18): a request to a path that names
    a project changes, whatever it asks for and however it ends, no revision, no
    active pointer, no routes and no metadata of any other project, and, unless it
    asks for an import, no key.  (An import can write keys, when the key store and
    the backups share a provider: [import_writes_keys].) *)
Theorem request_touches_one_project req s segment p :
  project_segment req = Some segment → decodeURIComponent segment = Ok p →
  let '(s', _) := handler options env req s in
  other_projects p (server_tables s) (server_tables s') ∧ (imports req = false → sv_keys s' = sv_keys s).
Proof.
  intros Hs Hd. destruct (project_segment_path _ _ Hs) as [_ (rest & Hpath)].
  assert (st_keeps (confined_to p (imports req) s) (routes (K := K) (Ob := Ob) options env req
    (strip_slash (rq_pathname req)) (resolveRequestId env req))) as Hk.
  { unfold routes.
    repeat match goal with |- context [jstr_eqb ?x ?q] =>
      rewrite (proj2 (jstr_eqb_neq x q)) by (rewrite Hpath; intros E; vm_compute in E; discriminate) end.
    apply keeps_bind; [|intros [r|]; [apply keeps_ret|by eapply confined_protected]].
    unfold gate. apply keeps_bind; [apply keeps_get|intros s1].
    destruct (middleware options _) as [auth|]; [|apply keeps_ret].
    destruct (isDataPlaneRead _ _); [apply keeps_ret|]. destruct (auth _ _); apply keeps_ret. }
  specialize (Hk s ltac:(done)). unfold handler.
  by destruct (routes _ _ _ _ _ s) as [s' [r|e]].
Qed.

Lemma store_keeps_active p body s s' u q f :
  (store_routes p body ;;~ store_metadata p body) s = (s', u) →
  getActiveRevision (server_tables s') q f = getActiveRevision (server_tables s) q f ∧
  snapshotStates s' = snapshotStates s ∧ bw_obj (sv_stores s') = bw_obj (sv_stores s).
Proof.
  intros E. pose (I s' := getActiveRevision (server_tables s') q f = getActiveRevision (server_tables s) q f ∧
    snapshotStates s' = snapshotStates s ∧ bw_obj (sv_stores s') = bw_obj (sv_stores s) : Prop).
  assert (∀ m, (∀ d, revisions (tbl (m d)) = revisions (tbl d) ∧ activePointers (tbl (m d)) = activePointers (tbl d)) →
    st_keeps I (on_deployment (K := K) (Ob := Ob) (A := A) (st_modify m))) as Hm.
  { intros m Hd [w a ss] [H1' H2']. unfold I. cbn in *. split; [|done]. rewrite <-H1'.
    destruct (Hd (bw_svc w)) as [Hr Hp]. unfold getActiveRevision, getActivePointer, getRevision, server_tables. cbn.
    by rewrite Hr, Hp. }
  assert (st_keeps I (store_routes (K := K) (Ob := Ob) (A := A) p body ;;~ store_metadata p body)) as Hk.
  { apply keeps_bind; [|intros _].
    - unfold store_routes. destruct (prop body _); auto with railfog. apply Hm. intros d. unfold setProjectRoutes.
      by rewrite tbl_schedulePersist.
    - unfold store_metadata. cbv zeta. destruct (_ || _); auto with railfog. apply Hm. intros d. unfold setProjectMetadata.
      by rewrite tbl_schedulePersist. }
  specialize (Hk s ltac:(done)). by rewrite E in Hk.
Qed.

(** A snapshot that was published is served again, unchanged. *)
Lemma republish_served p fn rev s s1 :
  fn ≠ PROTO → getActiveRevision (server_tables s) p fn = Some rev → republish env p s = (s1, Ok tt) →
  ∃ snap, sv_stores s1 = sv_stores s ∧ (∀ env', project_snapshot env' p s1 = (s1, Ok snap)) ∧
    map_get (object_entries (prop snap (js "functions"))) fn = Some (function_metadata rev).
Proof.
  intros Hfn Hrev Hpub. unfold republish, project_snapshot in Hpub.
  apply st_bind_Ok in Hpub as (s6 & [] & Hinv & Hpub). apply st_bind_Ok in Hpub as (s7 & snap & Hget & Hpub).
  injection Hpub as <-. apply st_bind_Ok in Hget as (s8 & ? & [= <- <-] & Hget).
  injection Hinv as <-. unfold on_snapshots in Hget.
  cbn [snapshotStates server_tables sv_stores sv_keys] in Hget.
  pose proof (invalidated_snapshot_fresh (env_snapshot env) (server_tables s) p (snapshotStates s)) as Hfresh.
  change (tbl (bw_svc (sv_stores s))) with (server_tables s) in Hget.
  destruct (getProjectSnapshot _ _ _ _) as [ss gr]. injection Hget as <- ->.
  assert (active_revisions (server_tables s) p ≠ []) as Hne.
  { intros E. pose proof (active_revisions_lookup (server_tables s) p fn Hfn) as Hl. rewrite E, Hrev in Hl. done. }
  specialize (Hfresh Hne). destruct (forallb _ _); [|done].
  destruct Hfresh as (snap' & [= <-] & _ & Hfun & Hagain).
  exists snap. split_and!; [done| |by rewrite Hfun, Hrev]. intros env'.
  unfold project_snapshot, st_bind, st_get, on_snapshots. cbn [snapshotStates server_tables sv_stores sv_keys].
  change (tbl (bw_svc (sv_stores s))) with (server_tables s). by rewrite Hagain.
Qed.

(** A deployment that is answered with an active revision: the stored bytes, the
    revision and the snapshot served from then on *)
Lemma deployment_published req requestId segment s s1 r :
  handle_deploy env req requestId segment s = (s1, Ok r) →
  ∃ body p fn a res,
    parseJsonBody req = Ok body ∧
    named_project segment [string_or_empty (prop body (js "project")); string_or_empty (prop body (js "projectId"))] = Ok p ∧
    trimmed_text (prop body (js "functionName")) = Some fn ∧
    deploy_artifact body = Ok a ∧ r = ok_json requestId (deploy_result res) ∧
    (dr_active res = true → fn ≠ PROTO →
      artifact_id_valid (a_id a) = true ∧
      obj_content (bw_obj (sv_stores s1)) (ARTIFACT_STORAGE_PREFIX ++ a_id a) = Some (artifactBuffer (a_bytes a)) ∧
      ∃ rev snap, getActiveRevision (server_tables s1) p fn = Some rev ∧ r_id rev = dr_revisionId res ∧
        r_manifest rev = a_manifest a ∧ r_artifactId rev = a_id a ∧
        (∀ env', project_snapshot env' p s1 = (s1, Ok snap)) ∧
        map_get (object_entries (prop snap (js "functions"))) fn = Some (function_metadata rev)).
Proof.
  unfold handle_deploy, allow_methods. rewrite st_bind_Ok. intros (s0 & [] & [-> _]%st_lift_Ok & E).
  apply st_bind_Ok in E as (s0 & body & [-> Hb]%st_lift_Ok & E).
  apply st_bind_Ok in E as (s0 & p & [-> Hp]%st_lift_Ok & E).
  apply st_bind_Ok in E as (s0 & fn & [-> Hf]%st_lift_Ok & E).
  apply st_bind_Ok in E as (s0 & a & [-> Ha]%st_lift_Ok & E).
  apply st_bind_Ok in E as (s2 & res & Hdep & E).
  apply st_bind_Ok in E as (s3 & [] & Hroutes & E). apply st_bind_Ok in E as (s4 & [] & Hmeta & E).
  apply st_bind_Ok in E as (s5 & [] & Hpub & E). injection E as <- <-.
  exists body, p, fn, a, res. unfold required_text in Hf. destruct (trimmed_text _) as [t|] eqn:Et; [|done].
  injection Hf as ->. split_and!; try done. intros Hact Hfn.
  destruct (store_keeps_active p body s2 s4 (Ok tt) p fn) as (Hgr & _ & Hobj).
  { unfold st_bind. by rewrite Hroutes. }
  unfold deploy_call, on_stores in Hdep.
  destruct (deploy _ _ _ _ _ _ _ _ _ _) as [[[d o] r']|] eqn:Ed; [|done]. injection Hdep as <- ->.
  destruct (deploy_active _ _ _ _ _ _ _ _ _ _ _ Ed Hact) as (Hvalid & Hput & rev & Hrev & Hid & Hm & Hart).
  change (tbl d) with (server_tables (Build_Server (Build_backup_state d (bw_kv (sv_stores s)) o) (sv_keys s) (snapshotStates s))) in Hrev.
  rewrite <-Hgr in Hrev.
  destruct (republish_served p fn rev s4 s5 Hfn Hrev Hpub) as (snap & Hst & Hserved & Hfun).
  split; [done|]. split.
  - rewrite Hst, Hobj. pose proof (obj_put_spec (bw_obj (sv_stores s)) (ARTIFACT_STORAGE_PREFIX ++ a_id a) (artifactBuffer (a_bytes a))) as Hc.
    rewrite Hput in Hc. by apply Hc.
  - exists rev, snap. unfold server_tables. rewrite Hst. done.
Qed.

(** Deployed means served (PLAT-3, PLAT-8): when a deployment is answered with
    an active revision, that revision is the function's active one and carries the
    declared manifest, and from then on a request for the project's snapshot is
    answered 200, without any change, with a snapshot that maps the function to
    this revision, until something changes the project. *)
Theorem deployed_is_served req requestId segment s s1 r :
  handle_deploy env req requestId segment s = (s1, Ok r) →
  ∃ body p fn a res,
    parseJsonBody req = Ok body ∧
    named_project segment [string_or_empty (prop body (js "project")); string_or_empty (prop body (js "projectId"))] = Ok p ∧
    trimmed_text (prop body (js "functionName")) = Some fn ∧
    deploy_artifact body = Ok a ∧ r = ok_json requestId (deploy_result res) ∧
    (dr_active res = true → fn ≠ PROTO → ∃ rev,
      getActiveRevision (server_tables s1) p fn = Some rev ∧ r_id rev = dr_revisionId res ∧
      r_manifest rev = a_manifest a ∧
      ∀ env' req' requestId' segment', is_read req' = true → header req' (js "if-none-match") = None →
        decodeURIComponent segment' = Ok p →
        ∃ snap, handle_snapshot env' req' requestId' segment' s1 =
            (s1, Ok {| rs_status := 200; rs_payload := Json snap; rs_etag := Some (quoted (version_text snap));
                       rs_requestId := requestId' |}) ∧
          map_get (object_entries (prop snap (js "functions"))) fn = Some (function_metadata rev)).
Proof.
  intros (body & p & fn & a & res & Hb & Hp & Hf & Ha & -> & Hs)%deployment_published.
  exists body, p, fn, a, res. split_and!; try done. intros Hact Hfn.
  destruct (Hs Hact Hfn) as (_ & _ & rev & snap & Hrev & Hid & Hm & _ & Hserved & Hfun).
  exists rev. split_and!; [done..|]. intros env' req' requestId' segment' Hread Hnone Hseg.
  exists snap. split; [|done].
  unfold handle_snapshot, allow_methods, st_bind, st_lift. rewrite Hread, Hseg, Hserved. cbn [negb throw_if].
  unfold unchanged. by rewrite Hnone.
Qed.
End properties.

(** ** A small server *)

#[local] Instance demo_hashing : Hashing := toy_hashing.

(** The bytes of the demonstration artifact, and the body that deploys it *)
Definition demo_code : Uint8Array := uint8_array (H0 := {| num_text _ := []; text_num _ := NaN |}) [JNum (Fin 1); JNum (Fin 2)].
Definition deploy_body : jsval :=
  JObj [(js "functionName", JStr (js "web"));
        (js "artifact", JObj [(js "id", JStr (computeArtifactId demo_code));
                              (js "integrity", JStr (computeIntegrity demo_code));
                              (js "bytes", JArr [JNum (Fin 1); JNum (Fin 2)])])].

(** The same with a manifest whose key-value scope is a number *)
Definition bad_body : jsval :=
  JObj [(js "functionName", JStr (js "web"));
        (js "artifact", JObj [(js "id", JStr (computeArtifactId demo_code));
                              (js "integrity", JStr (computeIntegrity demo_code));
                              (js "bytes", JArr [JNum (Fin 1); JNum (Fin 2)]);
                              (js "manifest", JObj [(js "permissions", JObj [(js "kv", JNum (Fin 5))])])])].

(** A body that imports an archive into the organisation _auth *)
Definition import_body : jsval :=
  JObj [(js "archive", JObj []); (js "targetOrgId", JStr (js "_auth")); (js "overwriteKv", JBool true)].

(** The texts that are parsed here, and numbers that are not printed *)
#[local] Instance demo_parser : JsonParser := λ t,
  if jstr_eqb t (js "{deploy}") then Ok deploy_body
  else if jstr_eqb t (js "{bad}") then Ok bad_body
  else if jstr_eqb t (js "{import}") then Ok import_body else Err TypeError.
#[local] Instance demo_numbers : NumberText := {| num_text _ := []; text_num _ := NaN |}.
#[local] Instance demo_keys : KeyStore ApiKeyStore := sequential_keys (js "K2") [3] (js "2027").
(** What every archive is taken for: one key-value entry *)
Definition demo_archive : StateBackupArchive :=
  archivePayload {| ex_orgId := js "acme"; ex_projectId := js "shop"; backupStorageKey := None |} 5 [] 5 []
    [{| bk_namespace := js "sessions"; bk_key := [js "u1"]; bk_value := JStr (js "x"); bk_ttl := None; bk_version := 1 |}]
    [].
#[local] Existing Instance main_kv.
#[local] Instance demo_backup : BackupService (backup_state (kv_db jsval) (jsmap jstr (list Z))) :=
  state_backup_service (KvLister0 := sqlite_kv_lister (λ s, s) Ok) Ok (λ _, []) 2 5 [] 5 (λ _, demo_archive).
#[local] Instance demo_backup_laws : BackupLaws (kv_db jsval) (jsmap jstr (list Z)) := state_backup_laws _ _ _ _ _ _ _.

(** A key of the project blog, and a server with the projects shop and blog *)
Definition blog_key : jstr * StoredApiKeyRecord :=
  new_key (js "ci") (js "acme") (Some (js "blog")) (js "K1") [1; 2] (js "2026").
Definition demo_server : Server (kv_db jsval) (jsmap jstr (list Z)) ApiKeyStore :=
  {| sv_stores :=
       {| bw_svc := on_tables (λ _, setActivePointer (js "blog") (js "cart") (js "rev_1")
                                      (saveRevisionRecord (js "blog") (js "cart") cart (SnapshotDistribution.shop_tables cart)))
                      (new_service None);
          bw_kv := {| SqliteKv.clock := 0; kv_entries := ∅ |}; bw_obj := [] |};
     sv_keys := ApiKeys.run {| storage := []; cache := None; cacheTtl := 300; ApiKeys.clock := 0; calls := [] |}
                  (create_events 0 blog_key.1 blog_key.2);
     snapshotStates := [] |}.
Definition demo_options : Options := {| hasKeyStore := true; authMiddleware := None |}.
Definition demo_env : Env :=
  {| env_ulid := demo_readings 1; env_deploy := demo_readings 1700000000000; env_snapshot := demo_readings 2;
     env_runtimeUrl := js "https://runtime"; env_fetch := λ _, Ok None |}.
Definition request (method path : jstr) (token : option jstr) (body : jstr) : Request :=
  {| rq_method := method; rq_pathname := path; rq_search := []; rq_query := [];
     rq_headers := match token with Some t => [(js "x-api-key", t)] | None => [] end; rq_text := Ok body |}.
Definition demo_handler (req : Request) := handler demo_options demo_env req demo_server.

(** Without a token a project cannot be deleted. *)
Theorem unauthenticated_reads_only_witness :
  let '(s', r) := demo_handler (request (js "DELETE") (js "/v1/projects/shop") None []) in
  s' = demo_server ∧ rs_status r = 403.
Proof.
  pose proof (unauthenticated_reads_only demo_options demo_env
    (request (js "DELETE") (js "/v1/projects/shop") None []) demo_server eq_refl eq_refl) as H.
  unfold demo_handler. destruct (handler _ _ _ _) as [s' r]. destruct H as [_ H].
  - intros (token & identity & Ht & _). vm_compute in Ht. discriminate.
  - destruct H as (-> & -> & _); [|done]. intros [Hin|Hr].
    + revert Hin. apply (bool_decide_unpack _). vm_compute. exact I.
    + vm_compute in Hr. discriminate.
Defined.

Theorem request_touches_one_project_witness :
  let '(s', _) := demo_handler (request (js "DELETE") (js "/v1/projects/shop") (Some blog_key.1) []) in
  getActivePointer (server_tables s') (js "blog") (js "cart") = Some (js "rev_1").
Proof.
  pose proof (request_touches_one_project demo_options demo_env
    (request (js "DELETE") (js "/v1/projects/shop") (Some blog_key.1) []) demo_server (js "shop") (js "shop")) as H.
  unfold demo_handler. destruct (handler _ _ _ _) as [s' r]. destruct H as [(_ & Hp & _) _].
  - vm_compute. reflexivity.
  - vm_compute. reflexivity.
  - rewrite Hp; [vm_compute; reflexivity|vm_compute; discriminate].
Defined.

(** Key records and backups are in one key-value provider, and the organisation of
    an import is the caller's: an import into the project orgs of the organisation
    _auth writes the index of the keys of any organisation, here one with the key
    u1 of the organisation sessions. *)
Lemma import_writes_keys :
  let '(s', r) := demo_handler (request (js "POST") (js "/v1/projects/orgs/import") (Some blog_key.1) (js "{import}")) in
  rs_status r = 200 ∧ map_has (storage (sv_keys demo_server)) (org_key (js "sessions") (js "u1")) = false ∧
  map_has (storage (sv_keys s')) (org_key (js "sessions") (js "u1")) = true.
Proof. vm_compute. split_and!; reflexivity. Qed.

(** A deployment to the project shop and what it reports *)
Definition deploy_request : Request := request (js "POST") (js "/v1/projects/shop/deploy") (Some blog_key.1) (js "{deploy}").
Definition deployed := handle_deploy demo_env deploy_request (js "r") (Some (js "shop")) demo_server.
Definition reported_active (r : result exn Response) : bool :=
  match r with
  | Ok {| rs_payload := ControlServer.Json v |} => truthy (prop v (js "active"))
  | _ => false
  end.

Theorem deployed_is_served_witness :
  ∃ s1 r snap, deployed = (s1, Ok r) ∧
    (handle_snapshot demo_env (request (js "GET") (js "/") None []) (js "r2") (js "shop") s1).1 = s1 ∧
    (∃ r2, (handle_snapshot demo_env (request (js "GET") (js "/") None []) (js "r2") (js "shop") s1).2 = Ok r2 ∧
           rs_payload r2 = ControlServer.Json snap) ∧
    is_Some (map_get (object_entries (prop snap (js "functions"))) (js "web")).
Proof.
  assert (reported_active deployed.2 = true) as Ha by (vm_compute; reflexivity).
  destruct deployed as [s1 [r|e]] eqn:E; [|discriminate]. cbn [snd] in Ha.
  destruct (deployed_is_served demo_env deploy_request (js "r") (Some (js "shop")) demo_server s1 r E)
    as (body & p & fn & a & res & Hb & Hp & Hf & _ & -> & Hs).
  assert (parseJsonBody deploy_request = Ok deploy_body) as Hb' by (vm_compute; reflexivity).
  rewrite Hb in Hb'. apply Ok_inj in Hb' as ->.
  assert (trimmed_text (prop deploy_body (js "functionName")) = Some (js "web")) as Hf' by (vm_compute; reflexivity).
  rewrite Hf in Hf'. injection Hf' as ->.
  assert (named_project (Some (js "shop")) [string_or_empty (prop deploy_body (js "project"));
            string_or_empty (prop deploy_body (js "projectId"))] = Ok (js "shop")) as Hp' by (vm_compute; reflexivity).
  rewrite Hp in Hp'. apply Ok_inj in Hp' as ->.
  destruct Hs as (rev & _ & _ & _ & Hserved).
  { change (truthy (JBool (dr_active res)) = true) in Ha. exact Ha. }
  { vm_compute. discriminate. }
  destruct (Hserved demo_env (request (js "GET") (js "/") None []) (js "r2") (js "shop")) as (snap & Hsn & Hm);
    [vm_compute; reflexivity..|].
  exists s1, (ok_json (js "r") (deploy_result res)), snap. split; [reflexivity|]. rewrite Hsn. split; [reflexivity|].
  split; [eexists; split; reflexivity|]. rewrite Hm. eexists. reflexivity.
Defined.

(** *** What a token can do *)

(** The scope of a token is not checked: the key of the project blog deletes the
    project shop; and a GET request is enough. *)
Lemma any_token_deletes :
  let deleted method path :=
    let '(s', r) := demo_handler (request method path (Some blog_key.1) []) in
    (rs_status r, map_has (Deployment.revisions (server_tables s')) (js "shop")) in
  deleted (js "DELETE") (js "/v1/projects/shop") = (200, false) ∧
  deleted (js "GET") (js "/v1/projects/shop/delete") = (200, false).
Proof. vm_compute. split; reflexivity. Qed.

(** A project name that is not well-formed percent encoding is an internal error,
    not a validation error. *)
Lemma malformed_path_is_internal :
  rs_status (demo_handler (request (js "POST") (js "/v1/projects/%zz/delete") (Some blog_key.1) [])).2 = 500.
Proof. vm_compute. reflexivity. Qed.

(** A deployment whose manifest the snapshot cannot copy is answered 500 although
    it has taken the traffic; the project has no snapshot from then on. *)
Lemma deploy_fails_late :
  let '(s1, r1) := demo_handler (request (js "POST") (js "/v1/projects/shop/deploy") (Some blog_key.1) (js "{bad}")) in
  rs_status r1 = 500 ∧ r_manifest <$> getActiveRevision (server_tables s1) (js "shop") (js "web") =
    Some (prop (prop bad_body (js "artifact")) (js "manifest")) ∧
  rs_status (handler demo_options demo_env (request (js "GET") (js "/v1/projects/shop/snapshot") None []) s1).2 = 500.
Proof. vm_compute. split_and!; reflexivity. Qed.
