(* ===== verification/RuntimeServer.v ===== *)
(** * The runtime daemon ([apps/runtime/runtime-server.ts], PLAT-1, PLAT-8, PLAT-11, FN-6, FN-7)

    The state of [startRuntimeServer] and everything that changes it: the polls
    of the control plane, the cron tickers, the queue dispatcher and the request
    handler.  The control plane is a [Peer], the isolation provider a function
    of the event's surroundings; what the daemon asks of the provider is kept
    as a trace.  An event runs to its end before the next one, except that a
    snapshot request and the handling of its response are separate operations.
    The listening socket, the intervals and the console are not modelled. *)

From S2P Require Import Prelude JsString JsMap JsNumber JsValue Errors Utf8 Uri Http Ulid RateLimit.
From S2P Require Import Packager Router Cron Deployment Snapshot SnapshotCache ApiKeys AuthMiddleware SnapshotDistribution ControlServer.
From Stdlib Require Import QArith.

Open Scope Z_scope.
Open Scope railfog_scope.

(** ** Constants *)

Definition RUNTIME_SERVICE_NAME : jstr := js "railfog-runtime".
Definition MAX_ARTIFACT_CACHE_ENTRIES : nat := 200.
Definition MAX_CALL_DEPTH_CHAINS : Z := 10000.
Definition CALL_DEPTH_MAX : Z := 8.
Definition MAX_LOG_ENTRIES : nat := 1000.
Definition maxRequestBodyBytes : Z := 10 * 1024 * 1024.
Arguments MAX_ARTIFACT_CACHE_ENTRIES : simpl never.
Arguments MAX_CALL_DEPTH_CHAINS : simpl never.
Arguments MAX_LOG_ENTRIES : simpl never.
Arguments maxRequestBodyBytes : simpl never.

(** ** What the isolation provider is given *)

(** [artifact.project], [function], [revision] and [orgId], set when prewarming *)
Record ArtifactOwner := { ow_project : jstr; ow_function : jstr; ow_revision : jsval; ow_orgId : jstr }.

(** The entry point is always [index.ts]. *)
Record Artifact := {
  art_id : jsval;
  art_integrity : jsval;
  art_code : list Z;
  art_permissions : jsval;
  art_owner : option ArtifactOwner
}.

Record Limits := { cpuMs : jsval; timeoutMs : jsval; memoryMb : jsval }.

Record Url := { u_origin : jstr; u_pathname : jstr; u_search : jstr }.

Record InvocationRequest := {
  i_requestId : jstr;
  i_method : jstr;
  i_url : Url;
  i_headers : Headers;
  i_body : option Content
}.

Record ExecutionResult := {
  x_statusCode : Z;
  x_headers : Headers;
  x_body : list Z;
  x_wallClockMs : jsnum
}.

Inductive provider_call :=
| Run (artifact : Artifact) (limits : Limits) (invocation : InvocationRequest)
| Prewarm (artifact : Artifact) (limits : Limits).

(** ** The state *)

Record LogEntry := {
  l_timestamp : jstr;
  l_level : jstr;
  l_project : jstr;
  l_function : jstr;
  l_revision : jsval;
  l_request_id : jstr;
  l_duration_ms : option jsnum;
  l_message : jstr
}.

(** What a cron timer's callback captures *)
Record CronJob := { cj_project : jstr; cj_function : jstr; cj_snapshot : jsval }.

Record Runtime (P : Type) := {
  currentSnapshot : option jsval;
  projectSnapshots : jsmap jstr jsval;
  artifactCache : jsmap jstr (list Z);
  rateLimiter : MultiTenantRateLimiter;
  callDepthChains : jsmap jstr Z;
  logEntries : list LogEntry;
  cronTimers : jsmap jstr CronJob;
  cronMatchers : jsmap jstr (option CronExpression);
  isClosed : bool;
  diskCache : option jsval;
  patternCache : jsmap jstr P
}.
Arguments Build_Runtime {P}.
Arguments currentSnapshot {P}.
Arguments projectSnapshots {P}.
Arguments artifactCache {P}.
Arguments rateLimiter {P}.
Arguments callDepthChains {P}.
Arguments logEntries {P}.
Arguments cronTimers {P}.
Arguments cronMatchers {P}.
Arguments isClosed {P}.
Arguments diskCache {P}.
Arguments patternCache {P}.

Section setters.
Context {P : Type}.
Implicit Types r : Runtime P.

Definition set_snapshots (cur : option jsval) (ps : jsmap jstr jsval) r : Runtime P :=
  Build_Runtime cur ps (artifactCache r) (rateLimiter r) (callDepthChains r) (logEntries r) (cronTimers r)
    (cronMatchers r) (isClosed r) (diskCache r) (patternCache r).
Definition set_artifacts c r : Runtime P :=
  Build_Runtime (currentSnapshot r) (projectSnapshots r) c (rateLimiter r) (callDepthChains r) (logEntries r)
    (cronTimers r) (cronMatchers r) (isClosed r) (diskCache r) (patternCache r).
Definition set_limiter l r : Runtime P :=
  Build_Runtime (currentSnapshot r) (projectSnapshots r) (artifactCache r) l (callDepthChains r) (logEntries r)
    (cronTimers r) (cronMatchers r) (isClosed r) (diskCache r) (patternCache r).
Definition set_chains c r : Runtime P :=
  Build_Runtime (currentSnapshot r) (projectSnapshots r) (artifactCache r) (rateLimiter r) c (logEntries r)
    (cronTimers r) (cronMatchers r) (isClosed r) (diskCache r) (patternCache r).
Definition set_logs l r : Runtime P :=
  Build_Runtime (currentSnapshot r) (projectSnapshots r) (artifactCache r) (rateLimiter r) (callDepthChains r) l
    (cronTimers r) (cronMatchers r) (isClosed r) (diskCache r) (patternCache r).
Definition set_cron ts ms r : Runtime P :=
  Build_Runtime (currentSnapshot r) (projectSnapshots r) (artifactCache r) (rateLimiter r) (callDepthChains r)
    (logEntries r) ts ms (isClosed r) (diskCache r) (patternCache r).
Definition set_disk d r : Runtime P :=
  Build_Runtime (currentSnapshot r) (projectSnapshots r) (artifactCache r) (rateLimiter r) (callDepthChains r)
    (logEntries r) (cronTimers r) (cronMatchers r) (isClosed r) d (patternCache r).
Definition set_patterns c r : Runtime P :=
  Build_Runtime (currentSnapshot r) (projectSnapshots r) (artifactCache r) (rateLimiter r) (callDepthChains r)
    (logEntries r) (cronTimers r) (cronMatchers r) (isClosed r) (diskCache r) c.
End setters.

(** The daemon, the control plane and the calls made to the isolation provider *)
Record World (P C : Type) := { rt : Runtime P; control : C; calls : list provider_call }.
Arguments Build_World {P C}.
Arguments rt {P C}.
Arguments control {P C}.
Arguments calls {P C}.

Record RuntimeServerOptions := {
  controlPlaneUrl : option jstr;
  ro_projectId : jstr;
  ro_orgId : option jstr;
  snapshotDiskCachePath : bool;
  hasPrewarm : bool;
  tempDir : option jstr
}.

(** What an event reads of its surroundings *)
Record RuntimeEnv := {
  e_now : Z;
  e_random : list Z;
  e_timestamp : jstr;
  e_date : Date;
  e_elapsed : jsnum;
  e_run : Artifact → Limits → InvocationRequest → result exn ExecutionResult;
  e_diskWritable : bool;
  e_realPath : jstr → option jstr;
  e_readFile : jstr → result exn (list Z)
}.

(** ** Pure parts *)

(** The routes and the functions of a validated snapshot *)
Definition snapshot_routes (snap : jsval) : list RouteConfig :=
  map (λ r, {| route_pattern := string_or_empty (prop r (js "pattern"));
               route_function := string_or_empty (prop r (js "function")) |})
      (elements (prop snap (js "routes"))).
Definition snapshot_function (snap : jsval) (name : jstr) : option jsval :=
  map_get (object_entries (prop snap (js "functions"))) name.

(** [resolveRequestId(req)] *)
Definition resolveRequestId (env : RuntimeEnv) (req : HttpRequest) : jstr :=
  let fresh := generateUlid (e_now env) (e_random env) in
  match (match get_header req (js "x-request-id") with
         | Some i => Some i
         | None => get_header req (js "request-id")
         end) with
  | Some incomingId => if isValidUlid (trim incomingId) then trim incomingId else fresh
  | None => fresh
  end.

Definition createErrorResponse (status : Z) (code message requestId : jstr) : HttpResponse :=
  {| p_status := status; p_headers := json_headers requestId;
     p_content := error_content code message requestId [] |}.

Definition get_limits (fnSnap : jsval) : Limits :=
  let limits := prop fnSnap (js "limits") in
  {| cpuMs := prop limits (js "cpu_ms"); timeoutMs := prop limits (js "timeout_ms");
     memoryMb := prop limits (js "memory_mb") |}.

Definition default_org (o : RuntimeServerOptions) : jstr := default (js "default-org") (ro_orgId o).

(** [options.controlPlaneUrl] where it is truthy, without its trailing slashes *)
Definition control_base (o : RuntimeServerOptions) : option jstr :=
  match controlPlaneUrl o with Some ((_ :: _) as url) => Some (strip_slashes url) | _ => None end.

(** [parseInt(header ?? "0", 10)], [NaN] and negative numbers counting as 0 *)
Definition inbound_depth (req : HttpRequest) : Z :=
  match parse_int10 (default (js "0") (get_header req (js "x-railfog-call-depth"))) with
  | Some rawDepth => if rawDepth <? 0 then 0 else rawDepth
  | None => 0
  end.

Section runtime_state.
Context {P : Type}.
Implicit Types r : Runtime P.

Definition trackedDepth r (requestId : jstr) (headerDepth : Z) : Z :=
  default headerDepth (map_get (callDepthChains r) requestId).

Definition trackCallDepth (requestId : jstr) (headerDepth : Z) r : Runtime P :=
  let chainDepth := trackedDepth r requestId headerDepth in
  let chains := if MAX_CALL_DEPTH_CHAINS <=? Z.of_nat (length (callDepthChains r)) then []
                else callDepthChains r in
  set_chains (map_set chains requestId (chainDepth + 1)) r.

Definition cacheArtifactCode (artifactId : jstr) (code : list Z) r : Runtime P :=
  let cache := if (MAX_ARTIFACT_CACHE_ENTRIES <=? length (artifactCache r))%nat
               then match map_keys (artifactCache r) with
                    | oldest :: _ => map_delete (artifactCache r) oldest
                    | [] => artifactCache r
                    end
               else artifactCache r in
  set_artifacts (map_set cache artifactId code) r.

Definition recordLogEntry (entry : LogEntry) r : Runtime P :=
  let entries := logEntries r ++ [entry] in
  set_logs (if (MAX_LOG_ENTRIES <? length entries)%nat then tl entries else entries) r.

(** *** Cron schedules *)

Definition timer_key (pId fnName : jstr) : jstr := pId ++ js ":" ++ fnName.

(** [triggers?.schedule ?? fnAny.schedule] *)
Definition schedule_of (fnSnap : jsval) : jsval :=
  nullish_or (prop (prop fnSnap (js "triggers")) (js "schedule")) (prop fnSnap (js "schedule")).
Definition is_cron (fnSnap : jsval) : bool :=
  truthy (schedule_of fnSnap) ||
  match prop fnSnap (js "type") with JStr t => jstr_eqb t (js "cron") | _ => false end.
Definition schedule_expr (fnSnap : jsval) : jstr :=
  match schedule_of fnSnap with JStr s => s | _ => js "* * * * *" end.

Definition start_cron (pId : jstr) (e : jstr * jsval) r : Runtime P :=
  let '(fnName, fnSnap) := e in
  if is_cron fnSnap then
    let timerKey := timer_key pId fnName in
    match compileCron (schedule_expr fnSnap) with
    | Err _ => set_cron (cronTimers r) (map_set (cronMatchers r) timerKey None) r
    | Ok matcher =>
        set_cron (map_set (cronTimers r) timerKey
                    {| cj_project := pId; cj_function := fnName; cj_snapshot := fnSnap |})
                 (map_set (cronMatchers r) timerKey (Some matcher)) r
    end
  else r.

Definition clear_crons (pId : jstr) r : Runtime P :=
  let cleared := filter (λ key, starts_with key (pId ++ js ":") = true) (map_keys (cronTimers r)) in
  set_cron (fold_left map_delete cleared (cronTimers r)) (fold_left map_delete cleared (cronMatchers r)) r.

Definition syncCronSchedules (snapshot : jsval) (pId : jstr) r : Runtime P :=
  fold_left (λ r e, start_cron pId e r) (object_entries (prop snapshot (js "functions"))) (clear_crons pId r).

(** *** Queue targets *)

(** [trg?.queue === queueName || trg?.queue === "default"] *)
Definition queue_trigger (queueName : jstr) (fnSnap : jsval) : bool :=
  match prop (prop fnSnap (js "triggers")) (js "queue") with
  | JStr q => jstr_eqb q queueName || jstr_eqb q (js "default")
  | _ => false
  end.
Definition worker_name (queueName name : jstr) : bool :=
  let n := to_lower name in
  jstr_eqb n (js "worker") || jstr_eqb n (js "queue") || includes n (js "worker") ||
  jstr_eqb n (to_lower queueName).
Definition queue_target (snap : jsval) (queueName : jstr) : option (jstr * jsval) :=
  let functions := object_entries (prop snap (js "functions")) in
  match list_find (λ e, queue_trigger queueName e.2 = true) functions with
  | Some (_, e) => Some e
  | None => snd <$> list_find (λ e, worker_name queueName e.1 = true) functions
  end.

(** *** The project of a request *)

Definition cut_at (c : Z) (s : jstr) : jstr := default [] (head (split_on c s)).

(** [snap.domains && snap.domains.some((d) => d.toLowerCase() === hostname)] *)
Fixpoint some_domain (hostname : jstr) (domains : list jsval) : result exn bool :=
  match domains with
  | [] => Ok false
  | JStr d :: ds => if jstr_eqb (to_lower d) hostname then Ok true else some_domain hostname ds
  | _ :: _ => Err TypeError
  end.
Definition has_domain (hostname : jstr) (snap : jsval) : result exn bool :=
  let domains := prop snap (js "domains") in
  if truthy domains then match domains with JArr ds => some_domain hostname ds | _ => Err TypeError end
  else Ok false.
Fixpoint domain_owner (hostname : jstr) (snaps : jsmap jstr jsval) : result exn (option jstr) :=
  match snaps with
  | [] => Ok None
  | (pId, snap) :: snaps =>
      has_domain hostname snap ≫= λ b, if b : bool then Ok (Some pId) else domain_owner hostname snaps
  end.

Definition subdomain_owner (o : RuntimeServerOptions) (hostname : jstr) r : option jstr :=
  match split_on (chr ".") hostname with
  | (part :: _ :: _ :: _) =>
      let subdomain := to_lower part in
      if map_has (projectSnapshots r) subdomain ||
         (match currentSnapshot r with Some _ => true | None => false end &&
          jstr_eqb (to_lower (ro_projectId o)) subdomain)
      then Some subdomain else None
  | _ => None
  end.

(** [req.headers.get(name)?.trim()], [||] *)
Definition named_project_header (req : HttpRequest) : option jstr :=
  match trim <$> get_header req (js "x-railfog-project") with
  | Some ((_ :: _) as p) => Some p
  | _ => match trim <$> get_header req (js "x-project-id") with
         | Some ((_ :: _) as p) => Some p
         | _ => None
         end
  end.

Definition host_project (o : RuntimeServerOptions) (req : HttpRequest) r : result exn (option jstr) :=
  match named_project_header req with
  | Some p => Ok (Some p)
  | None =>
      let hostHeader := or_header (get_header req (js "host")) (h_host req) in
      let hostname := to_lower (cut_at (chr ":") hostHeader) in
      match hostHeader with
      | [] => Ok None
      | _ => domain_owner hostname (projectSnapshots r) ≫= λ owner,
             match owner with
             | Some ((_ :: _) as pId) => Ok (Some pId)
             | _ => Ok (subdomain_owner o hostname r)
             end
      end
  end.

Definition ENVIRONMENTS : list jstr := Eval vm_compute in [js "staging"; js "production"; js "dev"].

(** One turn of the loop over the candidate projects *)
Definition prefix_project (pathname pId : jstr) : option (jstr * jstr) :=
  let prefixWithEnv := js "/" ++ pId ++ js "/" in
  let rest := slice_from (length prefixWithEnv) pathname in
  let nextSlash := index_of rest (js "/") in
  let firstSeg := match nextSlash with Some n => take n rest | None => rest end in
  if starts_with pathname prefixWithEnv && bool_decide (firstSeg ∈ ENVIRONMENTS)
  then Some (pId, match nextSlash with Some n => slice_from n rest | None => js "/" end)
  else if jstr_eqb pathname (js "/" ++ pId) || starts_with pathname prefixWithEnv
  then Some (pId, or_else (slice_from (length pId + 1) pathname) (js "/"))
  else None.

Fixpoint first_prefix (pathname : jstr) (candidates : list jstr) : option (jstr * jstr) :=
  match candidates with
  | [] => None
  | pId :: pIds => match prefix_project pathname pId with Some x => Some x | None => first_prefix pathname pIds end
  end.

Definition candidateProjects (o : RuntimeServerOptions) r : list jstr :=
  set_of_list ((match ro_projectId o with [] => [] | p => [p] end) ++ map_keys (projectSnapshots r)).

(** [requestedProject] and [lookupPath] *)
Definition requested_project (o : RuntimeServerOptions) (req : HttpRequest) r : result exn (option jstr * jstr) :=
  host_project o req r ≫= λ named,
  match named with
  | Some p => Ok (Some p, h_pathname req)
  | None =>
      match first_prefix (h_pathname req) (candidateProjects o r) with
      | Some (p, path) => Ok (Some p, path)
      | None => Ok (None, h_pathname req)
      end
  end.
End runtime_state.

(** ** Operations *)

Section runtime.
Context {P C : Type} `{!Peer C, !Hashing, !ContentCodec, !NumberText}.
(** [URLPattern] of the platform, and the text of a thrown error *)
Context (new_URLPattern : jstr → result exn P) (url_test : P → jstr → bool) (error_text : exn → jstr).
Variables (options : RuntimeServerOptions) (env : RuntimeEnv).

Local Abbreviation W := (World P C).

Definition on_rt (f : Runtime P → Runtime P) : stm W exn unit :=
  st_modify (λ w, Build_World (f (rt w)) (control w) (calls w)).
Definition get_rt : stm W exn (Runtime P) := λ w, (w, Ok (rt w)).
Definition on_control {X} (m : stm C exn X) : stm W exn X := λ w,
  let '(c, x) := m (control w) in (Build_World (rt w) c (calls w), x).
Definition record_call (c : provider_call) : stm W exn unit :=
  st_modify (λ w, Build_World (rt w) (control w) (calls w ++ [c])).
(** [matchRoute(routes, path)], with the module's cache of patterns *)
Definition match_route (routes : list RouteConfig) (path : jstr) : stm W exn (option RouteConfig) := λ w,
  let '(c, x) := matchRoute new_URLPattern url_test routes path (patternCache (rt w)) in
  (Build_World (set_patterns c (rt w)) (control w) (calls w), x).

(** [options.isolationProvider.run(artifact, limits, invocation)] *)
Definition run_provider (artifact : Artifact) (limits : Limits) (invocation : InvocationRequest)
    : stm W exn ExecutionResult :=
  record_call (Run artifact limits invocation) ;;~
  st_lift (e_run env artifact limits invocation).

(** The code of an artifact: cached, or fetched and cached; a failure is no code. *)
Definition artifact_request (base : jstr) (artifactId : jsval) : result exn HttpRequest :=
  encodeURIComponent (string_or_empty artifactId) ≫= λ i, Ok (get_request base (js "/v1/artifacts/" ++ i) []).
Definition fetch_artifact (base : jstr) (artifactId : jsval) : stm W exn (option (list Z)) :=
  request <~ st_lift (artifact_request base artifactId) ;;
  artRes <~ on_control (fetch request) ;;
  if p_status artRes =? 200 then
    let code := read_bytes (p_content artRes) in
    on_rt (cacheArtifactCode (string_or_empty artifactId) code) ;;~ st_ret (Some code)
  else st_ret None.
Definition load_artifact_code (artifactId : jsval) : stm W exn (list Z) :=
  r <~ get_rt ;;
  match map_get (artifactCache r) (string_or_empty artifactId), control_base options with
  | Some ((_ :: _) as code), _ => st_ret code
  | cached, None => st_ret (default [] cached)
  | cached, Some base =>
      fetched <~ st_try (fetch_artifact base artifactId) ;;
      match fetched with
      | Ok (Some code) => st_ret code
      | _ => st_ret (default [] cached)
      end
  end.

Definition deployed_artifact (fnSnap : jsval) (code : list Z) : Artifact :=
  {| art_id := prop fnSnap (js "artifactId"); art_integrity := prop fnSnap (js "artifactId");
     art_code := code; art_permissions := prop fnSnap (js "permissions"); art_owner := None |}.

(** The headers the runtime gives every invocation *)
Definition invocation_headers (trigger pId fnName : jstr) (fnSnap : jsval) (requestId : jstr) : Headers :=
  [(js "x-railfog-trigger", trigger); (js "x-railfog-project", pId); (js "x-railfog-function", fnName);
   (js "x-railfog-revision", string_or_empty (prop fnSnap (js "revisionId")));
   (js "x-railfog-org", default_org options); (js "x-request-id", requestId); (js "request-id", requestId);
   (js "content-type", js "application/json")].

(** [`${status} (${ms}ms)`] *)
Definition status_text (status : Z) (ms : jsnum) : jstr :=
  num_text (Fin (inject_Z status)) ++ js " (" ++ num_text ms ++ js "ms)".

Definition log_entry (level project function : jstr) (revision : jsval) (requestId : jstr)
    (duration : option jsnum) (message : jstr) : LogEntry :=
  {| l_timestamp := e_timestamp env; l_level := level; l_project := project; l_function := function;
     l_revision := revision; l_request_id := requestId; l_duration_ms := duration; l_message := message |}.

(** *** Cron ticks *)

(** The callback of the timer with this key *)
Definition cron_tick (timerKey : jstr) : stm W exn unit :=
  r <~ get_rt ;;
  match map_get (cronTimers r) timerKey with
  | None => st_ret tt
  | Some job =>
      if isClosed r then st_ret tt
      else match map_get (cronMatchers r) timerKey with
           | Some (Some cron) =>
               if negb (matches cron (e_date env)) then st_ret tt
               else
                 let fnSnap := cj_snapshot job in
                 outcome <~ st_try (
                   code <~ load_artifact_code (prop fnSnap (js "artifactId")) ;;
                   let reqId := generateUlid (e_now env) (e_random env) in
                   res <~ run_provider (deployed_artifact fnSnap code) (get_limits fnSnap)
                     {| i_requestId := reqId; i_method := js "POST";
                        i_url := {| u_origin := js "https://internal.railfog";
                                    u_pathname := js "/cron/" ++ cj_function job; u_search := [] |};
                        i_headers := invocation_headers (js "schedule") (cj_project job) (cj_function job) fnSnap reqId;
                        i_body := Some (JsonOf (JObj [(js "scheduledTime", JNum (Fin (inject_Z (e_now env))))])) |} ;;
                   on_rt (recordLogEntry (log_entry
                     (if 400 <=? x_statusCode res then js "error" else js "info") (cj_project job) (cj_function job)
                     (prop fnSnap (js "revisionId")) reqId (Some (x_wallClockMs res))
                     (js "Cron job [" ++ cj_function job ++ js "] executed -> " ++
                      status_text (x_statusCode res) (x_wallClockMs res))))) ;;
                 st_ret tt
           | _ => st_ret tt
           end
  end.

(** *** Snapshots *)

Definition prewarm_function (pId : jstr) (e : jstr * jsval) : stm W exn unit :=
  let '(fnName, fnSnap) := e in
  code <~ load_artifact_code (prop fnSnap (js "artifactId")) ;;
  record_call (Prewarm
    {| art_id := prop fnSnap (js "artifactId"); art_integrity := prop fnSnap (js "artifactId"); art_code := code;
       art_permissions := JUndef;
       art_owner := Some {| ow_project := pId; ow_function := fnName; ow_revision := prop fnSnap (js "revisionId");
                            ow_orgId := default_org options |} |}
    (get_limits fnSnap)).

Definition prewarmSnapshotFunctions (snapshot : jsval) (pId : jstr) : stm W exn unit :=
  if hasPrewarm options then st_for_each (prewarm_function pId) (object_entries (prop snapshot (js "functions")))
  else st_ret tt.

(** What [fetchSnapshotForProject] reads before it asks *)
Definition existing_snapshot (pId : jstr) (r : Runtime P) : option jsval :=
  if jstr_eqb pId (ro_projectId options) then currentSnapshot r else map_get (projectSnapshots r) pId.

Definition snapshot_request (base pId : jstr) (existing : option jsval) : result exn HttpRequest :=
  encodeURIComponent pId ≫= λ i,
  Ok (get_request base (js "/v1/projects/" ++ i ++ js "/snapshot")
        match existing with
        | Some snap => [(js "if-none-match", quoted (version_text snap))]
        | None => []
        end).

Definition install_snapshot (pId : jstr) (validated : jsval) (r : Runtime P) : Runtime P :=
  let own := jstr_eqb pId (ro_projectId options) in
  let r := set_snapshots (currentSnapshot r) (map_set (projectSnapshots r) pId validated) r in
  let r := syncCronSchedules validated pId r in
  let r := if own then set_snapshots (Some validated) (projectSnapshots r) r else r in
  if own && snapshotDiskCachePath options && e_diskWritable env then set_disk (Some validated) r else r.

(** The handling of the response, with the snapshot known when it was asked for *)
Definition adopt_response (pId : jstr) (existing : option jsval) (res : HttpResponse) : stm W exn (option jsval) :=
  r <~ get_rt ;;
  if isClosed r then st_ret None
  else if p_status res =? 200 then
    payload <~ st_lift (read_json (p_content res)) ;;
    validated <~ st_lift (validateRoutingSnapshot payload) ;;
    if match existing with None => true | Some e => newer validated e end then
      on_rt (install_snapshot pId validated) ;;~
      prewarmSnapshotFunctions validated pId ;;~
      st_ret (Some validated)
    else st_ret None
  else st_ret None.

Definition fetchSnapshotForProject (pId : jstr) : stm W exn (option jsval) :=
  match control_base options with
  | None => st_ret None
  | Some base =>
      r <~ get_rt ;;
      let existing := existing_snapshot pId r in
      outcome <~ st_try (
        request <~ st_lift (snapshot_request base pId existing) ;;
        res <~ on_control (fetch request) ;;
        adopt_response pId existing res) ;;
      st_ret match outcome with Ok validated => validated | Err _ => None end
  end.

(** The projects the control plane lists: those that are strings *)
Definition listed_projects (data : jsval) : option (list jstr) :=
  match prop data (js "projects") with JArr ps => Some (omap as_str ps) | _ => None end.

Definition drop_inactive (active : list jstr) (r : Runtime P) : Runtime P :=
  set_snapshots (currentSnapshot r)
    (filter (λ e, e.1 = ro_projectId options ∨ e.1 ∈ active) (projectSnapshots r)) r.

Definition discover_projects (base : jstr) : stm W exn unit :=
  pRes <~ on_control (fetch (get_request base (js "/v1/projects") [])) ;;
  r <~ get_rt ;;
  if negb (isClosed r) && (p_status pRes =? 200) then
    data <~ st_lift (read_json (p_content pRes)) ;;
    match listed_projects data with
    | Some projects =>
        on_rt (drop_inactive projects) ;;~
        st_for_each (λ p, if jstr_eqb p (ro_projectId options) then st_ret tt
                          else fetchSnapshotForProject p ;;~ st_ret tt) projects
    | None => st_ret tt
    end
  else st_ret tt.

Definition pollControlPlane : stm W exn unit :=
  r <~ get_rt ;;
  if isClosed r then st_ret tt
  else
    fetchSnapshotForProject (ro_projectId options) ;;~
    match control_base options with
    | Some base => st_try (discover_projects base) ;;~ st_ret tt
    | None => st_ret tt
    end.

(** *** Messages of a queue *)

(** [typeof message === "string" ? message : JSON.stringify(message)] *)
Definition message_content (message : jsval) : Content :=
  match message with JStr s => Bytes (text_encode s) | v => JsonOf v end.

Definition dispatch_message (queueName : jstr) (message : jsval) (pId : jstr) (messageId : option jstr)
    : stm W exn unit :=
  r <~ get_rt ;;
  match (match map_get (projectSnapshots r) pId with Some s => Some s | None => currentSnapshot r end) with
  | None => st_ret tt
  | Some snap =>
      match queue_target snap queueName with
      | None | Some ([], _) => st_ret tt
      | Some (fnName, fnSnap) =>
          code <~ load_artifact_code (prop fnSnap (js "artifactId")) ;;
          let reqId := default (generateUlid (e_now env) (e_random env)) messageId in
          res <~ run_provider (deployed_artifact fnSnap code) (get_limits fnSnap)
            {| i_requestId := reqId; i_method := js "POST";
               i_url := {| u_origin := js "https://internal.railfog"; u_pathname := js "/queues/" ++ queueName;
                           u_search := [] |};
               i_headers := map_set (invocation_headers (js "queue") pId fnName fnSnap reqId)
                              (js "x-railfog-message-id") reqId;
               i_body := Some (message_content message) |} ;;
          on_rt (recordLogEntry (log_entry
            (if 400 <=? x_statusCode res then js "error" else js "info") pId fnName
            (prop fnSnap (js "revisionId")) reqId (Some (e_elapsed env))
            (js "Queue worker [" ++ fnName ++ js "] processed message for queue [" ++ queueName ++ js "] -> " ++
             status_text (x_statusCode res) (e_elapsed env))))
      end
  end.
Definition queueDispatcher queueName message pId messageId : stm W exn unit :=
  st_try (dispatch_message queueName message pId messageId) ;;~ st_ret tt.

(** *** Lifecycle *)

(** [close()] and the listener of the abort signal, for what they do to the state *)
Definition close_runtime (r : Runtime P) : Runtime P :=
  Build_Runtime (currentSnapshot r) (projectSnapshots r) (artifactCache r) (rateLimiter r) (callDepthChains r)
    (logEntries r) [] [] true (diskCache r) (patternCache r).

Definition new_runtime (limiter : MultiTenantRateLimiter) (disk : option jsval) (patterns : jsmap jstr P) : Runtime P :=
  Build_Runtime None [] [] limiter [] [] [] [] false disk patterns.

(** The start: the disk cache, then the first poll, unless it takes too long *)
Definition load_snapshot (snapshot : jsval) (r : Runtime P) : Runtime P :=
  syncCronSchedules snapshot (ro_projectId options)
    (set_snapshots (Some snapshot) (map_set (projectSnapshots r) (ro_projectId options) snapshot) r).
Definition load_disk_cache : stm W exn unit :=
  if snapshotDiskCachePath options then
    r <~ get_rt ;;
    match diskCache r with
    | None => st_ret tt
    | Some cached =>
        st_try (
          snapshot <~ st_lift (validateRoutingSnapshot cached) ;;
          on_rt (load_snapshot snapshot) ;;~
          prewarmSnapshotFunctions snapshot (ro_projectId options)) ;;~ st_ret tt
    end
  else st_ret tt.

Definition start (poll_in_time : bool) : stm W exn unit :=
  load_disk_cache ;;~
  match control_base options with
  | Some _ => if poll_in_time then pollControlPlane else st_ret tt
  | None => st_ret tt
  end.

(** *** Requests *)

Definition respond (requestId : jstr) (v : jsval) : HttpResponse :=
  {| p_status := 200; p_headers := json_headers requestId; p_content := JsonOf v |}.

Definition health_response (r : Runtime P) (requestId : jstr) : HttpResponse :=
  respond requestId (JObj
    [(js "status", JStr (js "ok")); (js "service", JStr RUNTIME_SERVICE_NAME);
     (js "snapshotVersion", match currentSnapshot r with
                            | Some s => nullish_or (prop s (js "version")) (JNum (Fin 0))
                            | None => JNum (Fin 0)
                            end);
     (js "request_id", JStr requestId)]).

(** **** Objects on the local disk *)

Definition LOCAL_FS : jstr := Eval vm_compute in js "/local-fs/".
Definition safe_segment (seg : jstr) : bool :=
  negb (jstr_eqb seg []) && negb (jstr_eqb seg (js ".")) && negb (jstr_eqb seg (js "..")) &&
  negb (includes seg (js "\")) && negb (includes seg [0]) && negb (includes (to_lower seg) (js "%2e%2e")).
Definition isSafeObjectPath (objPath : jstr) : bool := forallb safe_segment (split_on (chr "/") objPath).

Definition tenant_root (dir project : jstr) : jstr :=
  dir ++ js "/objects/" ++ default_org options ++ js "/" ++ project.

(** The first candidate project whose file can be read *)
Fixpoint find_object (dir objPath : jstr) (candidates : list jstr) : option (list Z) :=
  match candidates with
  | [] => None
  | candProject :: rest =>
      let tenantRoot := tenant_root dir candProject in
      match e_realPath env (tenantRoot ++ js "/" ++ objPath) with
      | Some ((_ :: _) as resolved) =>
          if starts_with resolved tenantRoot then
            match e_readFile env resolved with
            | Ok data => Some data
            | Err _ => find_object dir objPath rest
            end
          else find_object dir objPath rest
      | _ => find_object dir objPath rest
      end
  end.

Definition handle_object (req : HttpRequest) (requestId : jstr) : stm W exn HttpResponse :=
  objPath <~ st_lift (decodeURIComponent (slice_from (length LOCAL_FS) (h_pathname req))) ;;
  r <~ get_rt ;;
  let candidates := filter (λ p, p ≠ [])
    (default [] (trim <$> get_header req (js "x-railfog-project")) :: ro_projectId options :: map_keys (projectSnapshots r)) in
  let found := match tempDir options with
               | Some ((_ :: _) as dir) => if isSafeObjectPath objPath then find_object dir objPath candidates else None
               | _ => None
               end in
  st_ret match found with
         | Some data => {| p_status := 200; p_headers := [(js "content-type", js "application/octet-stream");
                             (js "x-request-id", requestId); (js "request-id", requestId)]; p_content := Bytes data |}
         | None => createErrorResponse 404 (js "RESOURCE_NOT_FOUND") (js "Object not found: " ++ objPath) requestId
         end.

(** **** Logs *)

Definition log_value (l : LogEntry) : jsval :=
  JObj ([(js "timestamp", JStr (l_timestamp l)); (js "level", JStr (l_level l)); (js "project", JStr (l_project l));
         (js "function", JStr (l_function l)); (js "revision", l_revision l);
         (js "request_id", JStr (l_request_id l))] ++
        match l_duration_ms l with Some d => [(js "duration_ms", JNum d)] | None => [] end ++
        [(js "message", JStr (l_message l))]).

(** [xs.slice(-Math.min(1000, Math.max(1, parseInt(limit))))]; [-NaN] is 0. *)
Definition last_entries {X} (limit : jstr) (xs : list X) : list X :=
  match parse_int10 limit with
  | Some n => drop (length xs - Z.to_nat (Z.min 1000 (Z.max 1 n))) xs
  | None => xs
  end.

Definition is_logs_path (pathname : jstr) : bool :=
  match projectMatch pathname with
  | Some (_, ALogs) => true
  | _ => jstr_eqb pathname (js "/logs") || jstr_eqb pathname (js "/v1/logs")
  end.

Definition handle_runtime_logs (req : HttpRequest) (requestId : jstr) : stm W exn HttpResponse :=
  targetProject <~ st_lift match projectMatch (h_pathname req) with
                           | Some (p, ALogs) => decodeURIComponent p
                           | _ => Ok (default (ro_projectId options) (map_get (h_query req) (js "project")))
                           end ;;
  r <~ get_rt ;;
  let of_project := filter (λ l, targetProject = [] ∨ l_project l = targetProject ∨ targetProject = js "all") (logEntries r) in
  let of_function := match map_get (h_query req) (js "function") with
                     | Some ((_ :: _) as f) => filter (λ l, l_function l = f) of_project
                     | _ => of_project
                     end in
  let of_level := match to_lower <$> map_get (h_query req) (js "level") with
                  | Some ((_ :: _) as v) => filter (λ l, l_level l = v) of_function
                  | _ => of_function
                  end in
  st_ret (respond requestId
    (JArr (map log_value (last_entries (default (js "50") (map_get (h_query req) (js "limit"))) of_level)))).

(** **** The control plane's paths *)

Definition handle_control_path (req : HttpRequest) (requestId : jstr) : stm W exn HttpResponse :=
  match control_base options with
  | Some base =>
      on_control (fetch {| h_method := h_method req; h_origin := base; h_host := []; h_pathname := h_pathname req;
                           h_search := h_search req; h_query := h_query req;
                           h_headers := map_set (map_set (h_headers req) (js "x-request-id") requestId)
                                                (js "request-id") requestId;
                           h_body := h_body req |})
  | None =>
      st_ret (createErrorResponse 404 (js "RESOURCE_NOT_FOUND")
        (js "Endpoint " ++ h_pathname req ++ js " is a Control Plane route. This instance is running railfog-runtime (Data Plane). Please route requests to railfog-control (Port 8081) or configure RAILFOG_CONTROL_URL.")
        requestId)
  end.

(** **** Rate limits *)

(** [rateLimiter.check(scope, key)]: the response to a rejection *)
Definition check_limit (scope : RateLimitScope) (key message requestId : jstr) : stm W exn (option HttpResponse) :=
  r <~ get_rt ;;
  let '(limiter, decision) := check (rateLimiter r) scope key (e_now env) in
  on_rt (set_limiter limiter) ;;~
  st_ret (if d_allowed decision then None
          else
            let retry := default 1 (d_retryAfterSeconds decision) in
            Some {| p_status := 429;
                    p_headers := [(js "content-type", js "application/json");
                                  (js "retry-after", string_of_nat retry);
                                  (js "x-ratelimit-limit", num_text (Fin (d_limit decision)));
                                  (js "x-ratelimit-remaining", string_of_nat (d_remaining decision));
                                  (js "x-request-id", requestId); (js "request-id", requestId)];
                    p_content := error_content (js "RATE_LIMITED") message requestId
                                   [(js "retry_after", JNum (Fin (inject_Z retry)))] |}).

(** Requests the gateway forwards have been charged there. *)
Definition isGatewayForwarded (req : HttpRequest) : bool :=
  match get_header req (js "x-forwarded-by") with
  | Some by_ => jstr_eqb by_ (js "railfog-gateway")
  | None => false
  end.

Definition client_ip (req : HttpRequest) : jstr :=
  or_header (get_header req (js "cf-connecting-ip"))
    (or_header ((λ f, trim (cut_at (chr ",") f)) <$> get_header req (js "x-forwarded-for")) (js "127.0.0.1")).

Definition caller_limits (req : HttpRequest) (requestId : jstr) : stm W exn (option HttpResponse) :=
  if isGatewayForwarded req then st_ret None
  else
    byIp <~ check_limit ip (client_ip req) (js "Rate limit exceeded. Please retry later.") requestId ;;
    match byIp, get_header req (js "authorization") with
    | Some rejected, _ => st_ret (Some rejected)
    | None, Some ((_ :: _) as authHeader) =>
        check_limit identity (hashApiToken authHeader) (js "Rate limit exceeded for token. Please retry later.") requestId
    | None, _ => st_ret None
    end.

(** **** Routing *)

Record Resolution := {
  winningRoute : RouteConfig;
  activeSnapshot : jsval;
  resolvedProjectId : jstr
}.

(** The project snapshots in turn *)
Fixpoint match_any (snaps : jsmap jstr jsval) (path : jstr) : stm W exn (option Resolution) :=
  match snaps with
  | [] => st_ret None
  | (pId, snap) :: snaps =>
      winner <~ match_route (snapshot_routes snap) path ;;
      match winner with
      | Some route => st_ret (Some {| winningRoute := route; activeSnapshot := snap; resolvedProjectId := pId |})
      | None => match_any snaps path
      end
  end.

(** The snapshot of the requested project *)
Definition match_requested (requested : option jstr) (path : jstr) (r : Runtime P) : stm W exn (option Resolution) :=
  match requested with
  | Some ((_ :: _) as p) =>
      match map_get (projectSnapshots r) p with
      | Some snap =>
          winner <~ match_route (snapshot_routes snap) path ;;
          st_ret ((λ route, {| winningRoute := route; activeSnapshot := snap; resolvedProjectId := p |}) <$> winner)
      | None => st_ret None
      end
  | _ => st_ret None
  end.

(** The daemon's own snapshot, under the name of the requested project *)
Definition match_own (requested : option jstr) (path : jstr) (r : Runtime P) : stm W exn (option Resolution) :=
  match currentSnapshot r with
  | Some snap =>
      match snapshot_routes snap with
      | [] => st_ret None
      | routes =>
          winner <~ match_route routes path ;;
          st_ret ((λ route, {| winningRoute := route; activeSnapshot := snap;
                               resolvedProjectId := or_header requested (ro_projectId options) |}) <$> winner)
      end
  | None => st_ret None
  end.

Definition resolve_route (requested : option jstr) (path : jstr) : stm W exn (option Resolution) :=
  r <~ get_rt ;;
  first <~ match_requested requested path r ;;
  match first with
  | Some x => st_ret (Some x)
  | None =>
      second <~ match_own requested path r ;;
      match second with
      | Some x => st_ret (Some x)
      | None => match_any (projectSnapshots r) path
      end
  end.

(** **** Invocation *)

(** [fnSnapshot.auth === "bearer"], and a header that starts with [bearer ] *)
Definition lacks_bearer (fnSnap : jsval) (req : HttpRequest) : bool :=
  match prop fnSnap (js "auth") with
  | JStr a => jstr_eqb a (js "bearer") &&
              negb (starts_with (to_lower (default [] (get_header req (js "authorization")))) (js "bearer "))
  | _ => false
  end.

Definition unauthorized (requestId : jstr) : HttpResponse :=
  {| p_status := 401;
     p_headers := [(js "content-type", js "application/json"); (js "www-authenticate", js "Bearer realm=" ++ quoted (js "RailFog"));
                   (js "x-request-id", requestId); (js "request-id", requestId)];
     p_content := error_content (js "PERMISSION_DENIED")
                    (js "Unauthorized: Missing or invalid Bearer authentication token") requestId [] |}.

Definition too_large (requestId : jstr) : HttpResponse :=
  createErrorResponse 413 (js "PAYLOAD_TOO_LARGE")
    (js "Request body exceeds maximum allowed size of 10485760 bytes") requestId.

(** [parseInt(contentLengthHeader, 10) > maxRequestBodyBytes], or the body itself *)
Definition body_too_large (req : HttpRequest) : bool :=
  match get_header req (js "content-length") with
  | Some ((_ :: _) as l) => match parse_int10 l with Some n => maxRequestBodyBytes <? n | None => false end
  | _ => false
  end || match h_body req with Some b => maxRequestBodyBytes <? Z.of_nat (length b) | None => false end.

(** The request's headers, then the runtime's *)
Definition request_headers (req : HttpRequest) (x : Resolution) (fnSnap : jsval) (depth : Z) (requestId : jstr) : Headers :=
  fold_left (λ h e, map_set h e.1 e.2)
    [(js "x-request-id", requestId); (js "request-id", requestId); (js "x-railfog-project", resolvedProjectId x);
     (js "x-railfog-function", route_function (winningRoute x));
     (js "x-railfog-revision", string_or_empty (prop fnSnap (js "revisionId")));
     (js "x-railfog-org", default_org options); (js "x-railfog-trigger", js "http");
     (js "x-railfog-call-depth", string_of_nat (depth + 1))] (h_headers req).

Definition level_of_status (status : Z) : jstr :=
  if 500 <=? status then js "error" else if 400 <=? status then js "warn" else js "info".

(** The answer of the provider as a response *)
Definition finish_invocation (req : HttpRequest) (path : jstr) (x : Resolution) (fnSnap : jsval) (requestId : jstr)
    (result : ExecutionResult) : stm W exn HttpResponse :=
  let status := x_statusCode result in
  let headers := map_set (map_set (fold_left (λ h e, map_set h (ascii_lower e.1) e.2) (x_headers result) [])
                                  (js "x-request-id") requestId) (js "request-id") requestId in
  on_rt (recordLogEntry (log_entry (level_of_status status) (resolvedProjectId x) (route_function (winningRoute x))
    (prop fnSnap (js "revisionId")) requestId (Some (x_wallClockMs result))
    (h_method req ++ js " " ++ path ++ js " -> " ++ status_text status (x_wallClockMs result)))) ;;~
  st_lift (new_Response status headers
             (if (status =? 204) || (status =? 205) || (status =? 304) then NoContent else Bytes (x_body result))).

Definition invoke (req : HttpRequest) (path : jstr) (x : Resolution) (fnSnap : jsval) (depth : Z) (requestId : jstr)
    : stm W exn HttpResponse :=
  code <~ load_artifact_code (prop fnSnap (js "artifactId")) ;;
  if body_too_large req then st_ret (too_large requestId)
  else
    result <~ run_provider (deployed_artifact fnSnap code) (get_limits fnSnap)
      {| i_requestId := requestId; i_method := h_method req;
         i_url := {| u_origin := h_origin req; u_pathname := path; u_search := h_search req |};
         i_headers := request_headers req x fnSnap depth requestId;
         i_body := Bytes <$> h_body req |} ;;
    finish_invocation req path x fnSnap requestId result.

Definition handle_function (req : HttpRequest) (depth : Z) (requestId : jstr) : stm W exn HttpResponse :=
  rejected <~ caller_limits req requestId ;;
  match rejected with
  | Some response => st_ret response
  | None =>
      r <~ get_rt ;;
      target <~ st_lift (requested_project options req r) ;;
      resolution <~ resolve_route target.1 target.2 ;;
      match resolution with
      | None =>
          st_ret (createErrorResponse 404 (js "RESOURCE_NOT_FOUND") (js "No route matching path: " ++ h_pathname req) requestId)
      | Some x =>
          rejected <~ (if isGatewayForwarded req then st_ret None
                       else check_limit project (resolvedProjectId x)
                              (js "Rate limit exceeded for project. Please retry later.") requestId) ;;
          match rejected, snapshot_function (activeSnapshot x) (route_function (winningRoute x)) with
          | Some response, _ => st_ret response
          | None, None =>
              st_ret (createErrorResponse 404 (js "RESOURCE_NOT_FOUND")
                        (js "Function not found: " ++ route_function (winningRoute x)) requestId)
          | None, Some fnSnap =>
              if lacks_bearer fnSnap req then st_ret (unauthorized requestId)
              else invoke req target.2 x fnSnap depth requestId
          end
      end
  end.

Definition dispatch (req : HttpRequest) (depth : Z) (requestId : jstr) : stm W exn HttpResponse :=
  r <~ get_rt ;;
  if jstr_eqb (h_pathname req) (js "/healthz") then st_ret (health_response r requestId)
  else if starts_with (h_pathname req) LOCAL_FS then handle_object req requestId
  else if is_logs_path (h_pathname req) then handle_runtime_logs req requestId
  else if isControlPlanePath (h_pathname req) then handle_control_path req requestId
  else handle_function req depth requestId.

(** An exception is logged and answered with its message. *)
Definition runtime_handler (req : HttpRequest) : stm W exn HttpResponse :=
  let requestId := resolveRequestId env req in
  r <~ get_rt ;;
  let inboundDepth := inbound_depth req in
  let depth := trackedDepth r requestId inboundDepth in
  if CALL_DEPTH_MAX <=? depth then
    st_ret (createErrorResponse 429 (js "CALL_DEPTH_EXCEEDED") (js "Call depth limit exceeded (maximum 8)") requestId)
  else
    on_rt (trackCallDepth requestId inboundDepth) ;;~
    outcome <~ st_try (dispatch req depth requestId) ;;
    match outcome with
    | Ok response => st_ret response
    | Err e =>
        on_rt (recordLogEntry (log_entry (js "error") (ro_projectId options) (js "runtime") (JStr (js "system"))
                 requestId None (js "INTERNAL: " ++ error_text e))) ;;~
        st_ret (createErrorResponse 500 (js "INTERNAL") (error_text e) requestId)
    end.
End runtime.
