(* ===== verification/RuntimeSafety.v ===== *)
(** * What the runtime daemon guarantees

    Its state stays within bounds and holds validated snapshots only, whatever
    happens; what it asks the isolation provider to run comes from the snapshots
    it holds, under headers a client cannot forge; and the control plane is not
    on the path of a request. *)

From S2P Require Import Prelude JsString JsMap JsNumber JsValue Errors Utf8 Uri Http Ulid RateLimit.
From S2P Require Import Packager Router Cron Deployment Snapshot SnapshotCache ApiKeys AuthMiddleware.
From S2P Require Import SnapshotDistribution ControlServer RuntimeServer.
From Stdlib Require Import QArith.

Open Scope Z_scope.
Open Scope railfog_scope.

(** ** Bounded maps *)

Section bounded.
Context {K V : Type} `{EqDecision K}.
Implicit Types m : jsmap K V.

Lemma length_map_set_le m k v : (length (map_set m k v) <= S (length m))%nat.
Proof. induction m as [|[k' v'] m IH]; cbn; [lia|]. case_decide; cbn; lia. Qed.

Lemma length_delete_first k v m : map_wf ((k, v) :: m) → map_delete ((k, v) :: m) k = m.
Proof. intros Hm. by apply (map_delete_middle [] m k v). Qed.

Lemma length_push {X} (n : nat) (xs : list X) x : (length xs <= n)%nat →
  (length (if (n <? length (xs ++ [x]))%nat then tl (xs ++ [x]) else xs ++ [x]) <= n)%nat.
Proof.
  intros Hl. destruct (Nat.ltb_spec n (length (xs ++ [x]))) as [Hf|Hf]; [|done].
  destruct (xs ++ [x]) as [|y ys] eqn:E; cbn; [lia|].
  assert (length (xs ++ [x]) = length (y :: ys)) as El by by rewrite E.
  rewrite length_app in El. cbn in El. lia.
Qed.

Lemma map_get_rev (m : jsmap K V) k : map_wf m → map_get (rev m) k = map_get m k.
Proof.
  intros Hm. assert (rev m ≡ₚ m) as Hp by by rewrite <-Permutation_rev.
  assert (map_wf (rev m)) as Hr by (unfold map_wf, map_keys in *; by rewrite Hp).
  destruct (map_get m k) as [v|] eqn:E.
  - apply elem_map_get; [done|]. rewrite Hp. by apply map_get_elem.
  - apply map_get_None. apply map_get_None in E. unfold map_keys in *. by rewrite Hp.
Qed.

Lemma elem_fold_delete ks m e : e ∈ fold_left map_delete ks m → e ∈ m.
Proof.
  revert m. induction ks as [|k ks IH]; intros m He; [done|]. cbn in He.
  apply IH, elem_map_delete in He. tauto.
Qed.

Lemma fold_delete_wf ks m : map_wf m → map_wf (fold_left map_delete ks m).
Proof. revert m. induction ks as [|k ks IH]; intros m Hm; [done|]. cbn. by apply IH, map_delete_wf. Qed.
End bounded.

(** ** The invariant of the state *)

Section invariant.
Context {P : Type} (new_URLPattern : jstr → result exn P).

(** A timer belongs to its key, and a matcher under that key is the one compiled
    from the timer's own schedule. *)
Definition cron_ok (timers : jsmap jstr CronJob) (matchers : jsmap jstr (option CronExpression)) : Prop :=
  Forall (λ e, e.1 = timer_key (cj_project e.2) (cj_function e.2) ∧ ValidFunction (cj_snapshot e.2)) timers ∧
  ∀ key job cron, map_get timers key = Some job → map_get matchers key = Some (Some cron) →
    compileCron (schedule_expr (cj_snapshot job)) = Ok cron.

Record runtime_ok (r : Runtime P) : Prop := {
  ok_own s : currentSnapshot r = Some s → ValidSnapshot s;
  ok_projects : map_wf (projectSnapshots r) ∧ Forall (λ e, ValidSnapshot e.2) (projectSnapshots r);
  ok_artifacts : map_wf (artifactCache r) ∧ (length (artifactCache r) <= MAX_ARTIFACT_CACHE_ENTRIES)%nat;
  ok_chains : map_wf (callDepthChains r) ∧ Z.of_nat (length (callDepthChains r)) <= MAX_CALL_DEPTH_CHAINS ∧
              Forall (λ e, 1 <= e.2 <= CALL_DEPTH_MAX) (callDepthChains r);
  ok_logs : (length (logEntries r) <= MAX_LOG_ENTRIES)%nat;
  ok_cron : map_wf (cronTimers r) ∧ map_wf (cronMatchers r) ∧ cron_ok (cronTimers r) (cronMatchers r);
  ok_limits : limiter_ok (rateLimiter r);
  ok_patterns : Router.cache_ok new_URLPattern (patternCache r)
}.

Ltac ok_fields H := destruct H as [Hown Hproj Hart Hch Hlog Hcron Hlim Hpat]; constructor; cbn; try done.

Lemma set_limiter_ok l r : runtime_ok r → limiter_ok l → runtime_ok (set_limiter l r).
Proof. intros H Hl. ok_fields H. Qed.
Lemma set_patterns_ok c r : runtime_ok r → Router.cache_ok new_URLPattern c → runtime_ok (set_patterns c r).
Proof. intros H Hl. ok_fields H. Qed.
Lemma set_disk_ok d r : runtime_ok r → runtime_ok (set_disk d r).
Proof. intros H. ok_fields H. Qed.

Lemma set_snapshots_ok cur ps r : runtime_ok r → (∀ s, cur = Some s → ValidSnapshot s) →
  map_wf ps → Forall (λ e, ValidSnapshot e.2) ps → runtime_ok (set_snapshots cur ps r).
Proof. intros H ???. ok_fields H. Qed.

Lemma cacheArtifactCode_ok i code r : runtime_ok r → runtime_ok (cacheArtifactCode i code r).
Proof.
  intros H. ok_fields H. destruct Hart as [Hwf Hl]. clear -Hwf Hl.
  assert (0 < MAX_ARTIFACT_CACHE_ENTRIES)%nat as Hpos by (unfold MAX_ARTIFACT_CACHE_ENTRIES; lia).
  destruct (Nat.leb_spec MAX_ARTIFACT_CACHE_ENTRIES (length (artifactCache r))) as [Hf|Hf].
  - destruct (artifactCache r) as [|[k v] m]; cbn in Hf; [lia|]. cbn [map_keys fmap list_fmap fst].
    rewrite length_delete_first by done.
    assert (map_wf m) as Hm by (rewrite <-(length_delete_first k v m) by done; by apply map_delete_wf).
    split; [by apply map_set_wf|]. pose proof (length_map_set_le m i code). cbn in *. lia.
  - split; [by apply map_set_wf|]. pose proof (length_map_set_le (artifactCache r) i code). lia.
Qed.

Lemma trackCallDepth_ok requestId d r : runtime_ok r → 0 <= trackedDepth r requestId d < CALL_DEPTH_MAX →
  runtime_ok (trackCallDepth requestId d r).
Proof.
  intros H Hd. ok_fields H. destruct Hch as (Hwf & Hl & Hf). clear -Hwf Hl Hf Hd.
  set (chains := if MAX_CALL_DEPTH_CHAINS <=? Z.of_nat (length (callDepthChains r)) then [] else callDepthChains r).
  assert (map_wf chains ∧ Z.of_nat (length chains) < MAX_CALL_DEPTH_CHAINS ∧
          Forall (λ e, 1 <= e.2 <= CALL_DEPTH_MAX) chains) as (Hw' & Hl' & Hf').
  { subst chains. destruct (Z.leb_spec MAX_CALL_DEPTH_CHAINS (Z.of_nat (length (callDepthChains r)))).
    - split_and!; [constructor|done|constructor].
    - done. }
  pose proof (length_map_set_le chains requestId (trackedDepth r requestId d + 1)).
  split_and!; [by apply map_set_wf|lia|]. apply Forall_map_set; [done|]. cbn. lia.
Qed.

Lemma recordLogEntry_ok l r : runtime_ok r → runtime_ok (recordLogEntry l r).
Proof. intros H. ok_fields H. by apply length_push. Qed.

Lemma start_cron_ok pId e r : runtime_ok r → ValidFunction e.2 → runtime_ok (start_cron pId e r).
Proof.
  destruct e as [fnName fnSnap]. intros H Hf. unfold start_cron.
  destruct (is_cron fnSnap); [|done]. destruct (compileCron (schedule_expr fnSnap)) as [m|err] eqn:Ec.
  - ok_fields H. destruct Hcron as (Ht & Hm & Hj & Hc). split_and!; [by apply map_set_wf..|]. split.
    + by apply Forall_map_set.
    + intros key job cron. rewrite !map_get_set. case_decide; [|by apply Hc]. by intros [= <-] [= <-].
  - ok_fields H. destruct Hcron as (Ht & Hm & Hj & Hc). split_and!; [done|by apply map_set_wf|]. split; [done|].
    intros key job cron Hk. rewrite map_get_set. case_decide; [done|]. by apply Hc.
Qed.

Lemma clear_crons_ok pId r : runtime_ok r → runtime_ok (clear_crons pId r).
Proof.
  intros H. ok_fields H. destruct Hcron as (Ht & Hm & Hj & Hc). set (ks := filter _ _).
  split_and!; [by apply fold_delete_wf..|]. split.
  - rewrite Forall_forall in Hj |- *. intros e He. by eapply Hj, elem_fold_delete.
  - intros key job cron Hk Hcr. apply (Hc key job cron); apply elem_map_get; try done;
      eapply elem_fold_delete, map_get_elem; done.
Qed.

Lemma syncCronSchedules_ok snap pId r : runtime_ok r → ValidSnapshot snap → runtime_ok (syncCronSchedules snap pId r).
Proof.
  intros H [_ _ _ _ (fs & Ef & Hf) _]. unfold syncCronSchedules. rewrite Ef. cbn [object_entries].
  apply (clear_crons_ok pId) in H. revert H. generalize (clear_crons pId r). clear Ef.
  induction Hf as [|e fs He _ IH]; intros r0 H; [done|]. cbn. apply IH. by apply start_cron_ok.
Qed.

Lemma snapshot_function_typed snap name fnSnap :
  ValidSnapshot snap → snapshot_function snap name = Some fnSnap → ValidFunction fnSnap.
Proof.
  intros [_ _ _ _ (fs & Ef & Hf) _]. unfold snapshot_function. rewrite Ef. cbn. intros Hg%map_get_elem.
  rewrite Forall_forall in Hf. exact (Hf _ Hg).
Qed.

Lemma close_runtime_ok r : runtime_ok r → runtime_ok (close_runtime r).
Proof. intros H. ok_fields H. split_and!; [constructor..|]. split; [constructor|done]. Qed.

Lemma new_runtime_ok l d c : limiter_ok l → Router.cache_ok new_URLPattern c → runtime_ok (new_runtime l d c).
Proof.
  intros Hl Hc. assert (map_wf (K := jstr) (V := option CronExpression) []) by constructor.
  assert (∀ X, map_wf (K := jstr) (V := X) []) as Hn by (intros X; apply NoDup_nil_2).
  constructor; cbn; auto with lia; [done|by split_and!|].
  split_and!; [done..|]. by split; [constructor|].
Qed.
End invariant.

(** ** What every operation preserves *)

Section steps.
Context {P C : Type} `{!Peer C, !Hashing, !ContentCodec, !NumberText}.
Context (new_URLPattern : jstr → result exn P) (url_test : P → jstr → bool) (error_text : exn → jstr).
Context (options : RuntimeServerOptions) (env : RuntimeEnv).

(** A property of the state that the pieces of the operations preserve, the
    tracking of call depths apart *)
Record closed (I : Runtime P → Prop) : Prop := {
  cl_patterns r routes path : I r → I (set_patterns (matchRoute new_URLPattern url_test routes path (patternCache r)).1 r);
  cl_limiter r r' scope key now : I r → I r' → I (set_limiter (check (rateLimiter r) scope key now).1 r');
  cl_artifact r i code : I r → I (cacheArtifactCode i code r);
  cl_log r l : I r → I (recordLogEntry l r);
  cl_install r pId v : I r → ValidSnapshot v → I (install_snapshot options env pId v r);
  cl_load r v : I r → ValidSnapshot v → I (load_snapshot options v r);
  cl_drop r active : I r → I (drop_inactive options active r)
}.

Local Abbreviation W := (World P C).
Context (I : Runtime P → Prop) (HI : closed I).
Local Abbreviation kept := (λ w : W, I (rt w)).

Lemma keeps_on_rt f : (∀ r, I r → I (f r)) → st_keeps kept (on_rt f).
Proof. intros Hf. apply keeps_modify. intros w. apply Hf. Qed.

(** What was read of the state has the property. *)
Lemma keeps_get_rt {X} (k : Runtime P → stm W exn X) :
  (∀ r, I r → st_keeps kept (k r)) → st_keeps kept (st_bind get_rt k).
Proof. intros Hk w Hw. apply (Hk (rt w) Hw w Hw). Qed.

Lemma keeps_on_control {X} (m : stm C exn X) : st_keeps kept (on_control m).
Proof. intros w Hw. unfold on_control. by destruct (m _). Qed.

Lemma keeps_record_call c : st_keeps kept (record_call c).
Proof. by apply keeps_modify. Qed.

Lemma keeps_match_route routes path : st_keeps kept (match_route new_URLPattern url_test routes path).
Proof.
  intros w Hw. unfold match_route. pose proof (cl_patterns _ HI (rt w) routes path Hw) as Hm.
  by destruct (matchRoute _ _ _ _ _) as [c x].
Qed.

Lemma keeps_check_limit scope key message requestId : st_keeps kept (check_limit env scope key message requestId).
Proof.
  apply keeps_get_rt. intros r Hr. pose proof (λ r', cl_limiter _ HI r r' scope key (e_now env) Hr) as Hl.
  destruct (check _ _ _ _) as [limiter decision]. apply keeps_bind; [by apply keeps_on_rt|auto with railfog].
Qed.

Local Hint Resolve keeps_on_control keeps_record_call keeps_match_route keeps_check_limit : railfog.

Lemma on_artifact r i code : I r → I (cacheArtifactCode i code r).
Proof. apply (cl_artifact _ HI). Qed.
Lemma on_log r l : I r → I (recordLogEntry l r).
Proof. apply (cl_log _ HI). Qed.
Lemma on_drop r active : I r → I (drop_inactive options active r).
Proof. apply (cl_drop _ HI). Qed.
Local Hint Resolve on_artifact on_log on_drop : railfog.

(** Steps through an operation whose parts preserve the property *)
Local Ltac keeps_step :=
  first
    [ done
    | progress auto with railfog
    | apply keeps_get_rt; intros ? ?
    | apply keeps_bind; [|intros ?]
    | apply keeps_try
    | apply keeps_on_rt; intros ? ?
    | match goal with
      | |- st_keeps _ (if ?b then _ else _) => destruct b
      | |- st_keeps _ (match ?x with _ => _ end) => destruct x
      end ].
Local Ltac keeps_steps := repeat keeps_step.

Lemma keeps_run_provider a l i : st_keeps kept (run_provider env a l i).
Proof. unfold run_provider. keeps_steps. Qed.

Lemma keeps_load_artifact_code i : st_keeps kept (load_artifact_code options i).
Proof. unfold load_artifact_code, fetch_artifact. keeps_steps. Qed.

Local Hint Resolve keeps_run_provider keeps_load_artifact_code : railfog.

Lemma keeps_cron_tick key : st_keeps kept (cron_tick options env key).
Proof. unfold cron_tick. keeps_steps. Qed.

Lemma keeps_prewarm snap pId : st_keeps kept (prewarmSnapshotFunctions options snap pId).
Proof.
  unfold prewarmSnapshotFunctions. keeps_step; [|keeps_steps]. apply keeps_for_each. intros [f s] _. cbn. keeps_steps.
Qed.
Local Hint Resolve keeps_prewarm : railfog.

Lemma keeps_adopt_response pId existing res : st_keeps kept (adopt_response options env pId existing res).
Proof.
  unfold adopt_response. keeps_step. keeps_step; [keeps_steps|]. keeps_step; [|keeps_steps].
  apply keeps_bind; [keeps_steps|intros payload]. apply keeps_lift_bind. intros v [-> Hv]%validated_snapshot.
  keeps_step; [|keeps_steps]. apply keeps_bind; [|intros _; keeps_steps].
  apply keeps_on_rt. intros r' Hr'. by apply (cl_install _ HI).
Qed.
Local Hint Resolve keeps_adopt_response : railfog.

Lemma keeps_fetchSnapshot pId : st_keeps kept (fetchSnapshotForProject options env pId).
Proof. unfold fetchSnapshotForProject. keeps_steps. Qed.
Local Hint Resolve keeps_fetchSnapshot : railfog.

Lemma keeps_poll : st_keeps kept (pollControlPlane options env).
Proof.
  unfold pollControlPlane, discover_projects. keeps_steps. apply keeps_for_each. intros p _. keeps_steps.
Qed.
Local Hint Resolve keeps_poll : railfog.

Lemma keeps_queueDispatcher q m p i : st_keeps kept (queueDispatcher options env q m p i).
Proof. unfold queueDispatcher, dispatch_message. keeps_steps. Qed.

Lemma keeps_start inTime : st_keeps kept (start options env inTime).
Proof.
  unfold start, load_disk_cache. keeps_step; [|keeps_steps]. keeps_step; [|keeps_steps]. keeps_step. keeps_step; [|keeps_steps].
  keeps_step; [|keeps_steps]. keeps_step. apply keeps_lift_bind. intros v [-> Hv]%validated_snapshot.
  keeps_step; [|keeps_steps]. apply keeps_on_rt. intros r' Hr'. by apply (cl_load _ HI).
Qed.

Lemma keeps_match_any snaps path : st_keeps kept (match_any new_URLPattern url_test snaps path).
Proof. induction snaps as [|[p s] snaps IH]; cbn; keeps_steps. Qed.
Local Hint Resolve keeps_match_any : railfog.

Lemma keeps_resolve_route requested path : st_keeps kept (resolve_route new_URLPattern url_test options requested path).
Proof. unfold resolve_route, match_requested, match_own. keeps_steps. Qed.
Local Hint Resolve keeps_resolve_route : railfog.

Lemma keeps_caller_limits req requestId : st_keeps kept (caller_limits env req requestId).
Proof. unfold caller_limits. keeps_steps. Qed.
Local Hint Resolve keeps_caller_limits : railfog.

Lemma keeps_handle_function req depth requestId :
  st_keeps kept (handle_function new_URLPattern url_test options env req depth requestId).
Proof. unfold handle_function, invoke, finish_invocation. keeps_steps. Qed.
Local Hint Resolve keeps_handle_function : railfog.

Lemma keeps_dispatch req depth requestId : st_keeps kept (dispatch new_URLPattern url_test options env req depth requestId).
Proof. unfold dispatch, handle_object, handle_runtime_logs, handle_control_path. keeps_steps. Qed.
Local Hint Resolve keeps_dispatch : railfog.

(** The state once the handler has tracked the depth of a request *)
Definition tracked (req : HttpRequest) (r : Runtime P) : Runtime P :=
  let requestId := resolveRequestId env req in
  if CALL_DEPTH_MAX <=? trackedDepth r requestId (inbound_depth req) then r
  else trackCallDepth requestId (inbound_depth req) r.

Lemma keeps_handler req w :
  I (tracked req (rt w)) → I (rt (runtime_handler new_URLPattern url_test error_text options env req w).1).
Proof.
  unfold tracked, runtime_handler, get_rt. unfold st_bind at 1. cbv beta iota zeta.
  destruct (_ <=? _); [done|]. intros Ht.
  unfold st_bind at 1. unfold on_rt at 1. unfold st_modify. cbv beta iota.
  match goal with |- I (rt (?m ?w1).1) => assert (st_keeps kept m) as Hm; [keeps_steps|by apply (Hm w1)] end.
Qed.
End steps.

(** ** The invariant is preserved *)

Section preserved.
Context {P C : Type} `{!Peer C, !Hashing, !ContentCodec, !NumberText}.
Context (new_URLPattern : jstr → result exn P) (url_test : P → jstr → bool) (error_text : exn → jstr).
Context (options : RuntimeServerOptions) (env : RuntimeEnv).

Definition world_ok (w : World P C) : Prop := runtime_ok new_URLPattern (rt w).

Lemma load_snapshot_ok v r : runtime_ok new_URLPattern r → ValidSnapshot v →
  runtime_ok new_URLPattern (load_snapshot options v r).
Proof.
  intros Hr Hv. destruct (ok_projects _ _ Hr) as [Hw Hp]. apply syncCronSchedules_ok; [|done].
  apply set_snapshots_ok; [done| |by apply map_set_wf|by apply Forall_map_set]. by intros ? [= <-].
Qed.

Lemma install_snapshot_ok pId v r : runtime_ok new_URLPattern r → ValidSnapshot v →
  runtime_ok new_URLPattern (install_snapshot options env pId v r).
Proof.
  intros Hr Hv. unfold install_snapshot. destruct (ok_projects _ _ Hr) as [Hw Hp].
  assert (runtime_ok new_URLPattern (syncCronSchedules v pId
    (set_snapshots (currentSnapshot r) (map_set (projectSnapshots r) pId v) r))) as K1.
  { apply syncCronSchedules_ok; [|done]. apply set_snapshots_ok; [done|apply (ok_own _ _ Hr)|by apply map_set_wf|].
    by apply Forall_map_set. }
  set (r1 := syncCronSchedules _ _ _) in *. clearbody r1.
  assert (runtime_ok new_URLPattern (set_snapshots (Some v) (projectSnapshots r1) r1)) as K2.
  { destruct (ok_projects _ _ K1). apply set_snapshots_ok; try done. by intros ? [= <-]. }
  destruct (jstr_eqb pId (ro_projectId options)); destruct (snapshotDiskCachePath options); destruct (e_diskWritable env);
    cbn; auto using set_disk_ok.
Qed.

Lemma runtime_ok_closed : closed new_URLPattern url_test options env (runtime_ok new_URLPattern).
Proof.
  split.
  - intros r routes path Hr. apply set_patterns_ok; [done|].
    apply (matchRoute_spec new_URLPattern url_test routes path (patternCache r) (ok_patterns _ _ Hr)).
  - intros r r' scope key now Hr Hr'. apply set_limiter_ok; [done|]. by apply check_preserves, (ok_limits _ _ Hr).
  - intros r i code. apply cacheArtifactCode_ok.
  - intros r l. apply recordLogEntry_ok.
  - intros r pId v. apply install_snapshot_ok.
  - intros r v. apply load_snapshot_ok.
  - intros r active Hr. destruct (ok_projects _ _ Hr) as [Hw Hp].
    apply set_snapshots_ok; [done|apply (ok_own _ _ Hr)|by apply filter_map_wf|by apply Forall_filter_iff].
Qed.

(** Call depths are none of the other operations' business. *)
Lemma sync_chains snap pId (r : Runtime P) : callDepthChains (syncCronSchedules snap pId r) = callDepthChains r.
Proof.
  unfold syncCronSchedules. transitivity (callDepthChains (clear_crons pId r)); [|done].
  generalize (clear_crons pId r) as r0. induction (object_entries _) as [|[f s] es IH]; intros r0; [done|]. cbn.
  rewrite IH. destruct (is_cron s); [|done]. by destruct (compileCron _).
Qed.

Lemma chains_closed chains : closed new_URLPattern url_test options env (λ r, callDepthChains r = chains).
Proof.
  split; try done; intros r.
  - intros pId v Hr _. unfold install_snapshot.
    destruct (jstr_eqb _ _ && _ && _), (jstr_eqb _ _); cbn; rewrite sync_chains; done.
  - intros v Hr _. unfold load_snapshot. by rewrite sync_chains.
Qed.

Lemma trackedDepth_nonneg (r : Runtime P) requestId req : runtime_ok new_URLPattern r → 0 <= trackedDepth r requestId (inbound_depth req).
Proof.
  intros Hr. unfold trackedDepth. destruct (map_get (callDepthChains r) requestId) as [d|] eqn:E; cbn.
  - destruct (ok_chains _ _ Hr) as (_ & _ & Hf). rewrite Forall_forall in Hf.
    apply map_get_elem in E. specialize (Hf _ E). cbn in Hf. lia.
  - unfold inbound_depth. destruct (parse_int10 _) as [z|]; [|done]. destruct (Z.ltb_spec z 0); lia.
Qed.

End preserved.

(** ** Reachable states *)

Section reachable.
Context {P C : Type} `{!Peer C, !Hashing, !ContentCodec, !NumberText}.
Context (new_URLPattern : jstr → result exn P) (url_test : P → jstr → bool) (error_text : exn → jstr).
Context (options : RuntimeServerOptions).

(** What can happen to the daemon: a poll, a request, a tick of a timer, a
    message of a queue, the response to an earlier snapshot request, the end of
    the daemon, or anything in the control plane *)
Inductive runtime_event :=
| Poll
| Arrives (req : HttpRequest)
| Tick (timerKey : jstr)
| Message (queueName : jstr) (message : jsval) (pId : jstr) (messageId : option jstr)
| Late (pId : jstr) (existing : option jsval) (res : HttpResponse)
| Closes
| Elsewhere (c : C).

Definition runtime_step (w : World P C) (e : RuntimeEnv * runtime_event) : World P C :=
  let env := e.1 in
  match e.2 with
  | Poll => (pollControlPlane options env w).1
  | Arrives req => (runtime_handler new_URLPattern url_test error_text options env req w).1
  | Tick key => (cron_tick options env key w).1
  | Message q m p i => (queueDispatcher options env q m p i w).1
  | Late p existing res => (adopt_response options env p existing res w).1
  | Closes => Build_World (close_runtime (rt w)) (control w) (calls w)
  | Elsewhere c => Build_World (rt w) c (calls w)
  end.

Definition boot (env : RuntimeEnv) (limiter : MultiTenantRateLimiter) (disk : option jsval) (inTime : bool) (c : C)
    : World P C :=
  (start options env inTime (Build_World (new_runtime limiter disk []) c [])).1.

(** What an event does to the state before the operations that keep a closed
    property *)
Definition event_start (env : RuntimeEnv) (e : runtime_event) (r : Runtime P) : Runtime P :=
  match e with Arrives req => tracked env req r | Closes => close_runtime r | _ => r end.

Lemma runtime_step_keeps (I : Runtime P → Prop) w env e :
  closed new_URLPattern url_test options env I → I (event_start env e (rt w)) → I (rt (runtime_step w (env, e))).
Proof.
  intros HI Hw. destruct e; unfold runtime_step; cbn [fst snd].
  - apply (keeps_poll _ _ _ _ _ HI w Hw).
  - apply (keeps_handler _ _ _ _ _ _ HI req w Hw).
  - apply (keeps_cron_tick _ _ _ _ _ HI timerKey w Hw).
  - apply (keeps_queueDispatcher _ _ _ _ _ HI _ _ _ _ w Hw).
  - apply (keeps_adopt_response _ _ _ _ _ HI _ _ _ w Hw).
  - exact Hw.
  - exact Hw.
Qed.

Lemma tracked_ok env req r : runtime_ok new_URLPattern r → runtime_ok new_URLPattern (tracked env req r).
Proof.
  intros Hr. unfold tracked. cbv zeta.
  destruct (Z.leb_spec CALL_DEPTH_MAX (trackedDepth r (resolveRequestId env req) (inbound_depth req))); [done|].
  apply trackCallDepth_ok; [done|].
  pose proof (trackedDepth_nonneg new_URLPattern r (resolveRequestId env req) req Hr). lia.
Qed.

Lemma runtime_step_ok w e : world_ok new_URLPattern w → world_ok new_URLPattern (runtime_step w e).
Proof.
  intros Hw. destruct e as [env e].
  apply (runtime_step_keeps (runtime_ok new_URLPattern)); [apply runtime_ok_closed|].
  destruct e; [done|by apply tracked_ok|done|done|done|by apply close_runtime_ok|done].
Qed.

Lemma runtime_steps_ok events : ∀ w, world_ok new_URLPattern w → world_ok new_URLPattern (fold_left runtime_step events w).
Proof. induction events as [|e events IH]; intros w Hw; [done|]. by apply IH, runtime_step_ok. Qed.

Lemma boot_runtime_ok env limiter disk inTime c : limiter_ok limiter → world_ok new_URLPattern (boot env limiter disk inTime c).
Proof.
  intros Hl. apply (keeps_start _ _ _ _ _ (runtime_ok_closed new_URLPattern (λ _ _, false) options env)).
  apply new_runtime_ok; [done|]. split; [done|cbn; lia].
Qed.

(** C3: The daemon stays well-formed whatever happens (PLAT-8, PLAT-13, FN-7):
    after a start with any disk cache and any sequence of polls, requests, ticks,
    messages, late responses of the control plane and changes of the control
    plane, every snapshot the daemon holds is one that validation accepts, at
    most 200 artifacts, 1000 log lines and 10000 call chains are kept, every
    chain's depth is from 1 to 8, the limiter's balances are within their bursts,
    the pattern cache is correct, and a cron timer fires on its own function's
    schedule. *)
Theorem runtime_invariant env limiter disk inTime c events :
  limiter_ok limiter →
  runtime_ok new_URLPattern (rt (fold_left runtime_step events (boot env limiter disk inTime c))).
Proof. intros Hl. by apply (runtime_steps_ok events), boot_runtime_ok. Qed.
End reachable.

(** ** What a request has the provider run *)

Section invocations.
Context {P C : Type} `{!Peer C, !Hashing, !ContentCodec, !NumberText}.
Context (new_URLPattern : jstr → result exn P) (url_test : P → jstr → bool) (error_text : exn → jstr).
Context (options : RuntimeServerOptions) (env : RuntimeEnv).

Local Abbreviation W := (World P C).

(** Nothing was run, and the snapshots are the same. *)
Definition quiet (w0 w : W) : Prop :=
  calls w = calls w0 ∧ currentSnapshot (rt w) = currentSnapshot (rt w0) ∧
  projectSnapshots (rt w) = projectSnapshots (rt w0).

Lemma quiet_trans w0 w1 w2 : quiet w0 w1 → quiet w1 w2 → quiet w0 w2.
Proof. intros (? & ? & ?) (? & ? & ?). split_and!; congruence. Qed.

Lemma quiet_on_rt w0 f :
  (∀ r, currentSnapshot (f r) = currentSnapshot r ∧ projectSnapshots (f r) = projectSnapshots r) →
  st_keeps (quiet w0) (on_rt (C := C) f).
Proof. intros Hf w Hw. eapply quiet_trans; [exact Hw|]. split; [done|apply Hf]. Qed.

Lemma quiet_on_control {X} w0 (m : stm C exn X) : st_keeps (quiet w0) (on_control m).
Proof. intros w Hw. unfold on_control. by destruct (m _). Qed.

Lemma quiet_get_rt w0 : st_keeps (quiet w0) get_rt.
Proof. by intros w. Qed.

Lemma quiet_match_route w0 routes path : st_keeps (quiet w0) (match_route (C := C) new_URLPattern url_test routes path).
Proof. intros w Hw. unfold match_route. by destruct (matchRoute _ _ _ _ _). Qed.

Lemma quiet_check_limit w0 scope key message requestId :
  st_keeps (quiet w0) (check_limit (P := P) (C := C) env scope key message requestId).
Proof.
  apply keeps_bind; [apply quiet_get_rt|intros r]. destruct (check _ _ _ _) as [l d].
  apply keeps_bind; [by apply quiet_on_rt|intros _]. apply keeps_ret.
Qed.

Local Hint Resolve quiet_on_control quiet_get_rt quiet_match_route quiet_check_limit : railfog.
Local Ltac quiet_steps :=
  repeat first
    [ done
    | progress auto with railfog
    | apply keeps_bind; [|intros ?]
    | apply keeps_try
    | apply quiet_on_rt
    | match goal with
      | |- st_keeps _ (if ?b then _ else _) => destruct b
      | |- st_keeps _ (match ?x with _ => _ end) => destruct x
      end ].

Lemma quiet_load_artifact_code w0 i : st_keeps (quiet w0) (load_artifact_code (P := P) (C := C) options i).
Proof. unfold load_artifact_code, fetch_artifact. quiet_steps. Qed.

Lemma quiet_match_any w0 snaps path : st_keeps (quiet w0) (match_any (C := C) new_URLPattern url_test snaps path).
Proof. induction snaps as [|[p s] snaps IH]; cbn; quiet_steps. Qed.
Local Hint Resolve quiet_load_artifact_code quiet_match_any : railfog.

Lemma quiet_resolve_route w0 requested path :
  st_keeps (quiet w0) (resolve_route (C := C) new_URLPattern url_test options requested path).
Proof. unfold resolve_route, match_requested, match_own. quiet_steps. Qed.

Lemma quiet_caller_limits w0 req requestId : st_keeps (quiet w0) (caller_limits (P := P) (C := C) env req requestId).
Proof. unfold caller_limits. quiet_steps. Qed.
Local Hint Resolve quiet_resolve_route quiet_caller_limits : railfog.

(** The code of an artifact is what the cache then holds. *)
Lemma load_artifact_code_cached i w w' code :
  load_artifact_code (P := P) (C := C) options i w = (w', Ok code) →
  code = default [] (map_get (artifactCache (rt w')) (string_or_empty i)).
Proof.
  unfold load_artifact_code, get_rt. unfold st_bind at 1. cbv beta iota.
  assert (∀ cached, map_get (artifactCache (rt w)) (string_or_empty i) = cached →
    (w, Ok (E := exn) (default [] cached)) = (w', Ok code) →
    code = default [] (map_get (artifactCache (rt w')) (string_or_empty i))) as Hmiss.
  { intros cached <-. by intros [= <- <-]. }
  assert (∀ cached base, map_get (artifactCache (rt w)) (string_or_empty i) = cached →
    st_bind (st_try (fetch_artifact base i)) (λ fetched, match fetched with
      | Ok (Some code) => st_ret code | _ => st_ret (default [] cached) end) w = (w', Ok code) →
    code = default [] (map_get (artifactCache (rt w')) (string_or_empty i))) as Hfetch.
  { intros cached base Hc. unfold st_try, fetch_artifact. unfold st_bind, st_lift.
    destruct (artifact_request base i) as [q|e]; [|by apply Hmiss].
    unfold on_control. destruct (fetch q (control w)) as [c [res|e]];
      [|intros [= <- <-]; cbn; by rewrite Hc].
    destruct (p_status res =? 200).
    - unfold on_rt, st_modify. cbv beta iota. intros [= <- <-]. cbn [rt]. unfold cacheArtifactCode, set_artifacts.
      cbn [artifactCache]. by rewrite map_get_set_eq.
    - unfold st_ret. intros [= <- <-]. cbn. by rewrite Hc. }
  destruct (map_get (artifactCache (rt w)) (string_or_empty i)) as [[|b bs]|] eqn:Ec;
    destruct (control_base options) as [base|]; try (by apply Hmiss); try (by apply Hfetch).
  all: intros [= <- <-]; by rewrite Ec.
Qed.

(** Where a resolution comes from: a snapshot the daemon holds, of which the
    route is the first of the highest specificity. *)
Definition held (w : W) (snap : jsval) (pId : jstr) : Prop :=
  (currentSnapshot (rt w) = Some snap ∧ pId = ro_projectId options) ∨ (pId, snap) ∈ projectSnapshots (rt w).

(** The owner of the snapshot, or the requested project when the daemon's own
    snapshot serves it *)
Definition serves (w : W) (requested : option jstr) (path : jstr) (x : Resolution) : Prop :=
  ∃ owner, held w (activeSnapshot x) owner ∧
    (resolvedProjectId x = owner ∨
     currentSnapshot (rt w) = Some (activeSnapshot x) ∧ requested = Some (resolvedProjectId x)) ∧
    winningRoute x ∈ snapshot_routes (activeSnapshot x) ∧
    Router.matches new_URLPattern url_test path (winningRoute x) ∧
    ∀ r, r ∈ snapshot_routes (activeSnapshot x) → Router.matches new_URLPattern url_test path r →
         Router.score r <= Router.score (winningRoute x).

Definition patterns_ok (w : W) : Prop := Router.cache_ok new_URLPattern (patternCache (rt w)).

(** The steps of a resolution keep the snapshots and the pattern cache. *)
Lemma match_route_spec routes path w w' route :
  patterns_ok w → match_route new_URLPattern url_test routes path w = (w', Ok route) →
  patterns_ok w' ∧ quiet w w' ∧
  match route with
  | None => True
  | Some winner => winner ∈ routes ∧ Router.matches new_URLPattern url_test path winner ∧
      ∀ r, r ∈ routes → Router.matches new_URLPattern url_test path r → Router.score r <= Router.score winner
  end.
Proof.
  intros Hw. unfold match_route.
  destruct (matchRoute_spec new_URLPattern url_test routes path (patternCache (rt w)) Hw) as [Hc Hm].
  destruct (matchRoute _ _ _ _ _) as [c x]. intros [= <- ->]. split_and!; [exact Hc|done|].
  destruct route as [winner|]; [|done]. cbn in Hm. destruct Hm as (before & after & -> & Hwin & H1m & H2m).
  split_and!; [set_solver|done|]. intros r [Hr|[->|Hr]%elem_of_cons]%elem_of_app Hmr; [|done|].
  - specialize (H1m r Hr Hmr). lia.
  - by apply H2m.
Qed.

Lemma held_serves w snap owner requested path route name :
  held w snap owner →
  name = owner ∨ (currentSnapshot (rt w) = Some snap ∧ requested = Some name) →
  route ∈ snapshot_routes snap ∧ Router.matches new_URLPattern url_test path route ∧
    (∀ r, r ∈ snapshot_routes snap → Router.matches new_URLPattern url_test path r → Router.score r <= Router.score route) →
  serves w requested path {| winningRoute := route; activeSnapshot := snap; resolvedProjectId := name |}.
Proof. intros Hh Hn (? & ? & ?). exists owner. done. Qed.

Lemma match_any_serves requested path w0 snaps : ∀ w w' x,
  (∀ e, e ∈ snaps → e ∈ projectSnapshots (rt w0)) → patterns_ok w →
  match_any new_URLPattern url_test snaps path w = (w', Ok (Some x)) → serves w0 requested path x.
Proof.
  induction snaps as [|[p snap] snaps IH]; intros w w' x Hin Hw; [done|]. cbn.
  intros (w1 & route & Hm & Hk)%st_bind_Ok. apply match_route_spec in Hm as (Hw1 & _ & Hr); [|done].
  destruct route as [route|].
  - injection Hk as _ <-. apply (held_serves _ _ p); [right; apply Hin; left|by left|done].
  - eapply IH; [|exact Hw1|exact Hk]. intros e He. apply Hin. by right.
Qed.

Lemma resolve_route_serves requested path w w' x :
  patterns_ok w → resolve_route new_URLPattern url_test options requested path w = (w', Ok (Some x)) →
  serves w requested path x.
Proof.
  intros Hw. unfold resolve_route, get_rt. unfold st_bind at 1. cbv beta iota.
  intros (w1 & first & Hf & Hk)%st_bind_Ok.
  assert (patterns_ok w1 ∧ match first with Some y => serves w requested path y | None => True end) as [Hw1 Hs1].
  { unfold match_requested in Hf. destruct requested as [[|b bs]|]; try by injection Hf as <- <-.
    destruct (map_get (projectSnapshots (rt w)) (b :: bs)) as [snap|] eqn:Ep; [|by injection Hf as <- <-].
    apply st_bind_Ok in Hf as (w2 & route & Hm & Hf). apply match_route_spec in Hm as (Hw2 & _ & Hr); [|done].
    injection Hf as <- <-. split; [done|]. destruct route as [route|]; [|done]. cbn.
    apply (held_serves _ _ (b :: bs)); [right; by apply map_get_elem|by left|done]. }
  destruct first as [y|]; [by injection Hk as _ <-|].
  apply st_bind_Ok in Hk as (w2 & second & Hf2 & Hk).
  assert (patterns_ok w2 ∧ match second with Some y => serves w requested path y | None => True end) as [Hw2 Hs2].
  { unfold match_own in Hf2. destruct (currentSnapshot (rt w)) as [snap|] eqn:Ec; [|by injection Hf2 as <- <-].
    destruct (snapshot_routes snap) as [|r0 rs] eqn:Er; [by injection Hf2 as <- <-|].
    apply st_bind_Ok in Hf2 as (w3 & route & Hm & Hf2). apply match_route_spec in Hm as (Hw3 & _ & Hr); [|done].
    injection Hf2 as <- <-. split; [done|]. destruct route as [route|]; [|done]. cbn. rewrite <-Er in Hr.
    apply (held_serves _ _ (ro_projectId options)); [by left| |done].
    destruct requested as [[|b bs]|]; [by left|by right|by left]. }
  destruct second as [y|]; [by injection Hk as _ <-|].
  by eapply match_any_serves; [|exact Hw2|exact Hk].
Qed.

(** *** The call of the provider *)

(** The headers only the runtime can set *)
Definition trusted_headers (x : Resolution) (fnSnap : jsval) (depth : Z) (requestId : jstr) : Headers :=
  [(js "x-request-id", requestId); (js "request-id", requestId); (js "x-railfog-project", resolvedProjectId x);
   (js "x-railfog-function", route_function (winningRoute x));
   (js "x-railfog-revision", string_or_empty (prop fnSnap (js "revisionId")));
   (js "x-railfog-org", default_org options); (js "x-railfog-trigger", js "http");
   (js "x-railfog-call-depth", string_of_nat (depth + 1))].

Lemma request_headers_trusted req x fnSnap depth requestId k :
  map_get (request_headers options req x fnSnap depth requestId) k =
  match map_get (trusted_headers x fnSnap depth requestId) k with Some v => Some v | None => get_header req k end.
Proof.
  unfold request_headers. fold (trusted_headers x fnSnap depth requestId). rewrite map_get_fold_set.
  rewrite map_get_rev; [done|]. apply (bool_decide_unpack (NoDup [js "x-request-id"; js "request-id";
    js "x-railfog-project"; js "x-railfog-function"; js "x-railfog-revision"; js "x-railfog-org";
    js "x-railfog-trigger"; js "x-railfog-call-depth"])). vm_compute. exact I.
Qed.

Lemma invoke_calls req path x fnSnap depth requestId w w' r :
  invoke (P := P) (C := C) options env req path x fnSnap depth requestId w = (w', r) →
  calls w' = calls w ∨
  body_too_large req = false ∧
  calls w' = calls w ++ [Run
    (deployed_artifact fnSnap (default [] (map_get (artifactCache (rt w')) (string_or_empty (prop fnSnap (js "artifactId"))))))
    (get_limits fnSnap)
    {| i_requestId := requestId; i_method := h_method req;
       i_url := {| u_origin := h_origin req; u_pathname := path; u_search := h_search req |};
       i_headers := request_headers options req x fnSnap depth requestId;
       i_body := Bytes <$> h_body req |}].
Proof.
  unfold invoke. unfold st_bind at 1.
  pose proof (quiet_load_artifact_code w (prop fnSnap (js "artifactId")) w ltac:(done)) as Hq.
  pose proof (load_artifact_code_cached (prop fnSnap (js "artifactId")) w) as Hl.
  destruct (load_artifact_code _ _ w) as [w1 [code|e]]; [|intros [= <- <-]; left; apply Hq].
  specialize (Hl _ _ eq_refl). destruct Hq as [Hq _]. cbn in Hq.
  destruct (body_too_large req); [intros [= <- <-]; by left|].
  unfold run_provider, record_call, st_modify, st_lift. unfold st_bind. cbv beta iota. cbn [rt control calls].
  destruct (e_run _ _ _ _) as [result|e].
  - unfold finish_invocation, on_rt, st_modify, st_bind, st_lift. cbv beta iota zeta. intros [= <- <-]. right. split; [done|].
    cbn [rt calls]. rewrite Hq. unfold recordLogEntry, set_logs. cbn [artifactCache]. by rewrite Hl.
  - intros [= <- <-]. right. split; [done|]. cbn [rt calls]. by rewrite Hq, Hl.
Qed.

(** *** Requests *)

Lemma requested_project_quiet req w w1 : quiet w w1 →
  requested_project options req (rt w1) = requested_project options req (rt w).
Proof.
  intros (_ & Hc & Hp). unfold requested_project, host_project, subdomain_owner, candidateProjects. by rewrite Hc, Hp.
Qed.

Lemma serves_quiet w w1 requested path x : quiet w w1 → serves w1 requested path x → serves w requested path x.
Proof. intros (_ & Hc & Hp). unfold serves, held. by rewrite Hc, Hp. Qed.

(** What the provider is asked to run for a request *)
Definition authentic (req : HttpRequest) (depth : Z) (requestId : jstr) (w w' : W) : Prop :=
  ∃ requested path x fnSnap inv,
    requested_project options req (rt w) = Ok (requested, path) ∧ serves w requested path x ∧
    snapshot_function (activeSnapshot x) (route_function (winningRoute x)) = Some fnSnap ∧
    lacks_bearer fnSnap req = false ∧ body_too_large req = false ∧
    calls w' = calls w ++ [Run
      (deployed_artifact fnSnap (default [] (map_get (artifactCache (rt w')) (string_or_empty (prop fnSnap (js "artifactId"))))))
      (get_limits fnSnap) inv] ∧
    i_requestId inv = requestId ∧ i_method inv = h_method req ∧ i_body inv = Bytes <$> h_body req ∧
    i_url inv = {| u_origin := h_origin req; u_pathname := path; u_search := h_search req |} ∧
    ∀ k, map_get (i_headers inv) k =
         match map_get (trusted_headers x fnSnap depth requestId) k with Some v => Some v | None => get_header req k end.

Lemma handle_function_calls req depth requestId w w' r :
  world_ok new_URLPattern w →
  handle_function new_URLPattern url_test options env req depth requestId w = (w', r) →
  calls w' = calls w ∨ authentic req depth requestId w w'.
Proof.
  intros Hw. assert (∀ w1 w' (a b : result exn HttpResponse), quiet w w1 → (w1, a) = (w', b) → calls w' = calls w ∨
    authentic req depth requestId w w') as Hquiet by (intros w1 w2 a b Hq [= <- _]; left; apply Hq).
  unfold handle_function. unfold st_bind at 1.
  pose proof (quiet_caller_limits w req requestId w ltac:(done)) as Hq1.
  pose proof (keeps_caller_limits _ _ _ _ _ (runtime_ok_closed new_URLPattern url_test options env) req requestId w Hw) as Hw1.
  destruct (caller_limits env req requestId w) as [w1 [[response|]|e]]; [by apply Hquiet| |by apply Hquiet].
  unfold get_rt. unfold st_bind at 1. cbv beta iota. unfold st_bind at 1, st_lift. rewrite (requested_project_quiet req w w1) by done.
  destruct (requested_project options req (rt w)) as [[requested path]|e] eqn:Er; [|by apply Hquiet]. cbn [fst snd].
  unfold st_bind at 1.
  pose proof (quiet_resolve_route w requested path w1 Hq1) as Hq2.
  pose proof (resolve_route_serves requested path w1) as Hs.
  destruct (resolve_route _ _ _ _ _ w1) as [w2 [[x|]|e]]; [|by apply Hquiet..].
  specialize (Hs _ _ (ok_patterns _ _ Hw1) eq_refl). apply (serves_quiet w) in Hs; [|done].
  unfold st_bind at 1.
  match goal with |- match ?m w2 with _ => _ end = _ → _ =>
    assert (quiet w (m w2).1) as Hq3 by (destruct (isGatewayForwarded req); [done|by apply quiet_check_limit]);
    destruct (m w2) as [w3 [rejected|e]] end; [|by apply Hquiet].
  destruct rejected as [response|]; [by apply Hquiet|].
  destruct (snapshot_function _ _) as [fnSnap|] eqn:Ef; [|by apply Hquiet].
  destruct (lacks_bearer fnSnap req) eqn:El; [by apply Hquiet|].
  intros [Hc|[Hb Hc]]%invoke_calls.
  - left. rewrite Hc. apply Hq3.
  - right. exists requested, path, x, fnSnap. eexists.
    split_and!; [done|done|done|done|done|rewrite Hc; f_equal; apply Hq3|done|done|done|done|].
    intros k. apply request_headers_trusted.
Qed.

Lemma dispatch_calls req depth requestId w w' r :
  world_ok new_URLPattern w →
  dispatch new_URLPattern url_test options env req depth requestId w = (w', r) →
  calls w' = calls w ∨ authentic req depth requestId w w'.
Proof.
  intros Hw. assert (∀ m : stm W exn HttpResponse, st_keeps (quiet w) m → m w = (w', r) →
    calls w' = calls w ∨ authentic req depth requestId w w') as Hquiet.
  { intros m Hm Hr. left. specialize (Hm w ltac:(done)). rewrite Hr in Hm. apply Hm. }
  unfold dispatch, get_rt. unfold st_bind at 1. cbv beta iota.
  destruct (jstr_eqb _ _); [apply Hquiet; quiet_steps|].
  destruct (starts_with _ _); [apply Hquiet; unfold handle_object; quiet_steps|].
  destruct (is_logs_path _); [apply Hquiet; unfold handle_runtime_logs; quiet_steps|].
  destruct (isControlPlanePath _); [apply Hquiet; unfold handle_control_path; quiet_steps|].
  by apply handle_function_calls.
Qed.

(** The whole handler *)
Lemma handler_calls req w w' response :
  world_ok new_URLPattern w →
  runtime_handler new_URLPattern url_test error_text options env req w = (w', response) →
  let requestId := resolveRequestId env req in
  let depth := trackedDepth (rt w) requestId (inbound_depth req) in
  calls w' = calls w ∨ (depth < CALL_DEPTH_MAX ∧ authentic req depth requestId w w').
Proof.
  intros Hw. unfold runtime_handler, get_rt. unfold st_bind at 1. cbv beta iota.
  set (requestId := resolveRequestId env req).
  set (depth := trackedDepth (rt w) requestId (inbound_depth req)).
  destruct (Z.leb_spec CALL_DEPTH_MAX depth) as [|Hd]; [intros [= <- _]; by left|].
  unfold st_bind at 1. unfold on_rt at 1. unfold st_modify. cbv beta iota.
  set (w1 := Build_World (trackCallDepth requestId (inbound_depth req) (rt w)) (control w) (calls w)).
  assert (world_ok new_URLPattern w1) as Hw1.
  { apply trackCallDepth_ok; [done|]. pose proof (trackedDepth_nonneg new_URLPattern (rt w) requestId req Hw). lia. }
  unfold st_bind, st_try. pose proof (dispatch_calls req depth requestId w1) as Hq.
  destruct (dispatch _ _ _ _ _ _ _ w1) as [w2 [r|e]]; intros [= <- _];
    (destruct (Hq _ _ Hw1 eq_refl) as [Hc|Ha]; [by left|right; split; [done|exact Ha]]).
Qed.

End invocations.

(** ** The depth of a chain of calls *)

Section depth.
Context {P C : Type} `{!Peer C, !Hashing, !ContentCodec, !NumberText}.
Context (new_URLPattern : jstr → result exn P) (url_test : P → jstr → bool) (error_text : exn → jstr).
Context (options : RuntimeServerOptions).

Local Abbreviation step := (runtime_step (C := C) new_URLPattern url_test error_text options).

(** How often requests with this id had the provider run something *)
Fixpoint runs_of (requestId : jstr) (w : World P C) (events : list (RuntimeEnv * runtime_event (C := C))) : nat :=
  match events with
  | [] => 0
  | e :: events =>
      (match e.2 with
       | Arrives req => if decide (resolveRequestId e.1 req = requestId) then length (calls (step w e)) - length (calls w) else 0
       | _ => 0
       end + runs_of requestId (step w e) events)%nat
  end.

(** What the chain of a request id can still call *)
Definition budget (requestId : jstr) (r : Runtime P) : Z :=
  match map_get (callDepthChains r) requestId with Some d => CALL_DEPTH_MAX - d | None => CALL_DEPTH_MAX end.

Lemma handler_runs env req w :
  world_ok new_URLPattern w →
  let requestId := resolveRequestId env req in
  Z.of_nat (length (calls (step w (env, Arrives req))) - length (calls w)) <=
  if CALL_DEPTH_MAX <=? trackedDepth (rt w) requestId (inbound_depth req) then 0 else 1.
Proof.
  intros Hw. cbv zeta. unfold runtime_step. cbn [fst snd].
  destruct (handler_calls new_URLPattern url_test error_text options env req w _ _ Hw (surjective_pairing _))
    as [->|(Hd & ? & ? & ? & ? & ? & _ & _ & _ & _ & _ & -> & _)].
  - destruct (_ <=? _); lia.
  - rewrite (proj2 (Z.leb_gt _ _)) by done. rewrite length_app. cbn. lia.
Qed.

Lemma step_chains w env e :
  callDepthChains (rt (step w (env, e))) = callDepthChains (event_start env e (rt w)).
Proof.
  apply (runtime_step_keeps new_URLPattern url_test error_text options
    (λ r, callDepthChains r = callDepthChains (event_start env e (rt w)))); [apply chains_closed|done].
Qed.

(** While the chains are not discarded, a run uses up budget. *)
Lemma tracked_budget env req (r : Runtime P) requestId :
  runtime_ok new_URLPattern r → Z.of_nat (length (callDepthChains r)) < MAX_CALL_DEPTH_CHAINS →
  (length (callDepthChains (tracked env req r)) <= S (length (callDepthChains r)))%nat ∧
  budget requestId (tracked env req r) +
    (if decide (resolveRequestId env req = requestId) then
       if CALL_DEPTH_MAX <=? trackedDepth r requestId (inbound_depth req) then 0 else 1
     else 0) <= budget requestId r.
Proof.
  intros Hr Hl. pose proof (trackedDepth_nonneg new_URLPattern r requestId req Hr) as Hd. revert Hd.
  unfold tracked, trackCallDepth, trackedDepth, budget. cbv zeta.
  rewrite (proj2 (Z.leb_gt MAX_CALL_DEPTH_CHAINS _)) by done. set (i := resolveRequestId env req).
  destruct (Z.leb_spec CALL_DEPTH_MAX (default (inbound_depth req) (map_get (callDepthChains r) i))) as [Hf|Hf]; intros Hd.
  - split; [lia|]. case_decide as Hi; [rewrite <-Hi|lia]. rewrite (proj2 (Z.leb_le _ _)) by done. lia.
  - split; [apply length_map_set_le|]. cbn [callDepthChains set_chains]. rewrite map_get_set.
    case_decide as Hi; [|lia]. subst requestId.
    rewrite (proj2 (Z.leb_gt _ _)) by done. destruct (map_get (callDepthChains r) i); cbn in *; lia.
Qed.

Lemma step_budget w e requestId :
  world_ok new_URLPattern w → Z.of_nat (length (callDepthChains (rt w))) < MAX_CALL_DEPTH_CHAINS →
  (length (callDepthChains (rt (step w e))) <= S (length (callDepthChains (rt w))))%nat ∧
  budget requestId (rt (step w e)) + Z.of_nat (runs_of requestId w [e]) <= budget requestId (rt w).
Proof.
  destruct e as [env e]. intros Hw Hl. unfold budget at 1. rewrite (step_chains w env e). cbn [runs_of fst snd].
  destruct e as [|req| | | | |]; cbn [event_start]; try (unfold budget; cbn; lia).
  destruct (tracked_budget env req (rt w) requestId Hw Hl) as [Hc Hb]. split; [done|].
  pose proof (handler_runs env req w Hw) as Hr. cbv zeta in Hr. unfold budget in Hb at 1.
  case_decide as Hi; [rewrite Hi in Hr|]; lia.
Qed.

Lemma runs_budget requestId events : ∀ w,
  world_ok new_URLPattern w → Z.of_nat (length (callDepthChains (rt w)) + length events) <= MAX_CALL_DEPTH_CHAINS →
  Z.of_nat (runs_of requestId w events) <= budget requestId (rt w) - budget requestId (rt (fold_left step events w)).
Proof.
  induction events as [|e events IH]; intros w Hw Hl; [cbn; lia|].
  cbn [length] in Hl. destruct (step_budget w e requestId Hw) as [Hc Hb]; [lia|].
  specialize (IH (step w e)). pose proof (runtime_step_ok new_URLPattern url_test error_text options w e Hw) as Hw'.
  cbn [runs_of fold_left] in *. specialize (IH Hw' ltac:(lia)). lia.
Qed.

Lemma budget_nonneg requestId (r : Runtime P) : runtime_ok new_URLPattern r → 0 <= budget requestId r <= CALL_DEPTH_MAX.
Proof.
  intros Hr. unfold budget. destruct (map_get _ _) as [d|] eqn:E; [|done].
  destruct (ok_chains _ _ Hr) as (_ & _ & Hf). rewrite Forall_forall in Hf. apply map_get_elem in E.
  specialize (Hf _ E). cbn in Hf. lia.
Qed.

(** C4: A chain of calls has at most 8 invocations (FN-7): however requests, polls,
    ticks, messages and the end of the daemon follow one another after a start,
    the requests that carry one request id have the provider run at most 8
    functions, whatever depth they claim; for as long as the daemon has seen
    fewer events than chains it keeps (10000, when it forgets them all). *)
Theorem call_depth_bounded env limiter disk inTime c events requestId :
  limiter_ok limiter → Z.of_nat (length events) <= MAX_CALL_DEPTH_CHAINS →
  Z.of_nat (runs_of requestId (boot options env limiter disk inTime c) events) <= CALL_DEPTH_MAX.
Proof.
  intros Hlim Hl. pose proof (boot_runtime_ok new_URLPattern options env limiter disk inTime c Hlim) as Hw.
  assert (callDepthChains (rt (boot (P := P) options env limiter disk inTime c)) = []) as Hc
    by by apply (keeps_start _ _ _ _ _ (chains_closed new_URLPattern url_test options env [])).
  pose proof (runs_budget requestId events _ Hw) as Hr. rewrite Hc in Hr. specialize (Hr Hl).
  pose proof (budget_nonneg requestId _ (runtime_steps_ok new_URLPattern url_test error_text options events _ Hw)).
  pose proof (budget_nonneg requestId _ Hw). lia.
Qed.
End depth.

(** *** A concrete daemon *)

#[local] Instance demo_hashing : Hashing :=
  {| sha256 data := firstn 1 data; encodeHex bs := bs; encodeBase64 bs := bs |}.
#[local] Instance demo_codec : ContentCodec := {| bytes_json _ := Err PlainError; json_bytes _ := [] |}.
#[local] Instance demo_number_text : NumberText := {| num_text _ := []; text_num _ := NaN |}.
(** A control plane that cannot be reached *)
#[local] Instance unreachable : Peer unit := λ _ c, (c, Err PlainError).

(** The daemon of the project shop, with a disk cache *)
Definition shop_options : RuntimeServerOptions :=
  {| controlPlaneUrl := Some (js "http://control/"); ro_projectId := js "shop"; ro_orgId := None;
     snapshotDiskCachePath := true; hasPrewarm := false; tempDir := None |}.
Definition echo (a : Artifact) (l : Limits) (i : InvocationRequest) : result exn ExecutionResult :=
  Ok {| x_statusCode := 200; x_headers := []; x_body := js "ok"; x_wallClockMs := Fin 1 |}.
Definition runtime_env (now : Z) : RuntimeEnv :=
  {| e_now := now; e_random := demo_bytes; e_timestamp := [];
     e_date := {| getMinutes := 0; getHours := 0; getDate := 1; getMonth := 0; getDay := 1 |};
     e_elapsed := Fin 1; e_run := echo; e_diskWritable := true; e_realPath := λ _, None;
     e_readFile := λ _, Err PlainError |}.
Definition get_from (host path : jstr) (headers : Headers) : HttpRequest :=
  {| h_method := js "GET"; h_origin := js "http://" ++ host; h_host := host; h_pathname := path; h_search := [];
     h_query := []; h_headers := headers; h_body := None |}.
Definition fresh_limiter : MultiTenantRateLimiter := newMultiTenantRateLimiter (λ _, None).

(** The daemon of shop after a start from its disk cache, without a control plane *)
Definition shop_daemon : World jstr unit :=
  boot shop_options (runtime_env 0) fresh_limiter (Some (first_served 1 (shop_tables cart))) true tt.
Definition shop_handler : HttpRequest → stm (World jstr unit) exn HttpResponse :=
  runtime_handler Ok Router.star_pattern (λ _, []) shop_options (runtime_env 5).

Lemma shop_daemon_ok : world_ok Ok shop_daemon.
Proof. apply boot_runtime_ok. apply newMultiTenantRateLimiter_ok. Qed.

Theorem runtime_invariant_witness :
  runtime_ok Ok (rt (fold_left (runtime_step Ok Router.star_pattern (λ _, []) shop_options)
    [(runtime_env 5, Arrives (get_from (js "shop.test") (js "/cart") [])); (runtime_env 6, Poll); (runtime_env 7, Closes)]
    shop_daemon)).
Proof. apply runtime_invariant. apply newMultiTenantRateLimiter_ok. Defined.

Definition forged_request : HttpRequest :=
  get_from (js "shop.test") (js "/cart")
    [(js "x-railfog-function", js "admin"); (js "x-railfog-revision", js "r0"); (js "x-railfog-org", js "root");
     (js "x-railfog-trigger", js "queue"); (js "x-railfog-project", js "bank"); (js "x-railfog-call-depth", js "3");
     (js "accept", js "text/html")].
Definition forged_served : World jstr unit * result exn HttpResponse := shop_handler forged_request shop_daemon.


(** Nine requests one after the other, each answered before the next, under one
    request id: the ninth is refused. *)
Definition one_id : jstr := js "01ARZ3NDEKTSV4RRFFQ69G5FAV".
Definition repeated : list (RuntimeEnv * runtime_event (C := unit)) :=
  repeat (runtime_env 5, Arrives (get_from (js "shop.test") (js "/cart") [(js "x-request-id", one_id)])) 9.
Definition served_repeatedly : nat :=
  runs_of Ok Router.star_pattern (λ _, []) shop_options one_id shop_daemon repeated.

Theorem call_depth_bounded_witness : served_repeatedly = 8%nat ∧ Z.of_nat served_repeatedly <= CALL_DEPTH_MAX.
Proof.
  split; [vm_compute; reflexivity|].
  apply (call_depth_bounded Ok Router.star_pattern (λ _, []) shop_options (runtime_env 0) fresh_limiter
    (Some (first_served 1 (shop_tables cart))) true tt repeated one_id); [apply newMultiTenantRateLimiter_ok|].
  vm_compute. discriminate.
Defined.
