(* ===== verification/FailStatic.v ===== *)
(** * The control plane is not on the path of a request (PLAT-8)

    Two daemons in the same state, one with a control plane that answers, one
    without: whatever requests, ticks and messages they are given, they answer
    alike and stay alike, as long as the code of the functions they serve is
    cached, and none of them turns to the control plane.  The proof is a small
    relational logic over the operations of [RuntimeServer]. *)

From S2P Require Import Prelude JsString JsMap JsNumber JsValue Errors Utf8 Uri Http Ulid RateLimit.
From S2P Require Import Packager Router Cron Deployment Snapshot SnapshotCache ApiKeys AuthMiddleware.
From S2P Require Import SnapshotDistribution ControlServer RuntimeServer RuntimeSafety.
From Stdlib Require Import QArith.

Open Scope Z_scope.
Open Scope railfog_scope.

(** ** The state the daemons share *)

Section warm.
Context {P : Type}.

(** A function the daemon can be asked to run: one of a snapshot it holds, or of
    a cron timer *)
Definition offered (r : Runtime P) (fnSnap : jsval) : Prop :=
  (∃ snap name, (currentSnapshot r = Some snap ∨ ∃ p, (p, snap) ∈ projectSnapshots r) ∧
                (name, fnSnap) ∈ object_entries (prop snap (js "functions"))) ∨
  (∃ key job, map_get (cronTimers r) key = Some job ∧ cj_snapshot job = fnSnap).

(** Every such function has its code in the cache. *)
Definition warm (r : Runtime P) : Prop := ∀ fnSnap, offered r fnSnap →
  ∃ b bs, map_get (artifactCache r) (string_or_empty (prop fnSnap (js "artifactId"))) = Some (b :: bs).

(** The same snapshots, timers and code *)
Definition alike (r0 r : Runtime P) : Prop :=
  currentSnapshot r = currentSnapshot r0 ∧ projectSnapshots r = projectSnapshots r0 ∧
  cronTimers r = cronTimers r0 ∧ artifactCache r = artifactCache r0.

Lemma alike_warm r0 r : alike r0 r → warm r0 → warm r.
Proof. intros (Hc & Hp & Ht & Ha) Hw f Hf. unfold offered in Hf. rewrite Ha. rewrite Hc, Hp, Ht in Hf. by apply Hw. Qed.

(** A test for it *)
Definition served_functions (r : Runtime P) : list jsval :=
  flat_map (λ snap, map snd (object_entries (prop snap (js "functions"))))
    (option_list (currentSnapshot r) ++ map snd (projectSnapshots r)) ++
  map (λ e, cj_snapshot e.2) (cronTimers r).
Definition is_warm (r : Runtime P) : bool :=
  forallb (λ f, match map_get (artifactCache r) (string_or_empty (prop f (js "artifactId"))) with
                | Some (_ :: _) => true | _ => false end) (served_functions r).

Lemma is_warm_spec r : is_warm r = true → warm r.
Proof.
  unfold is_warm. rewrite forallb_true_iff. intros Hall f Hf.
  assert (f ∈ served_functions r) as Hin.
  { apply elem_of_app. destruct Hf as [(snap & name & Hs & Hn)|(key & job & Hk%map_get_elem & <-)].
    - left. apply list_elem_of_In, in_flat_map. exists snap. rewrite <-!list_elem_of_In. split.
      + apply elem_of_app. destruct Hs as [->|[p Hp]]; [left; by left|right].
        apply (list_elem_of_fmap_2 snd) in Hp. exact Hp.
      + apply (list_elem_of_fmap_2 snd) in Hn. exact Hn.
    - right. apply (list_elem_of_fmap_2 (λ e, cj_snapshot e.2)) in Hk. exact Hk. }
  specialize (Hall f Hin). destruct (map_get _ _) as [[|b bs]|]; try done. by exists b, bs.
Qed.

Lemma alike_trans r0 r1 r2 : alike r0 r1 → alike r1 r2 → alike r0 r2.
Proof. intros (? & ? & ? & ?) (? & ? & ? & ?). split_and!; congruence. Qed.
End warm.

(** ** Two daemons side by side *)

Section agreement.
Context {P C1 C2 : Type} `{!Peer C1, !Peer C2, !Hashing, !ContentCodec, !NumberText}.
Context (new_URLPattern : jstr → result exn P) (url_test : P → jstr → bool) (error_text : exn → jstr).
Context (options : RuntimeServerOptions) (env : RuntimeEnv) (r0 : Runtime P) (Hwarm : warm r0).

Definition same (w1 : World P C1) (w2 : World P C2) : Prop := rt w1 = rt w2 ∧ calls w1 = calls w2.

(** Both do the same, without the control plane; a value they return satisfies [Q]. *)
Definition agree {X} (Q : X → Prop) (m1 : stm (World P C1) exn X) (m2 : stm (World P C2) exn X) : Prop :=
  ∀ w1 w2, same w1 w2 → alike r0 (rt w1) →
    same (m1 w1).1 (m2 w2).1 ∧ alike r0 (rt (m1 w1).1) ∧
    control (m1 w1).1 = control w1 ∧ control (m2 w2).1 = control w2 ∧
    (m1 w1).2 = (m2 w2).2 ∧ ∀ x, (m1 w1).2 = Ok x → Q x.
Local Abbreviation agrees := (agree (λ _, True)).

Lemma agree_ret {X} (Q : X → Prop) x : Q x → agree Q (st_ret x) (st_ret x).
Proof. intros Hx w1 w2 Hs Ha. split_and!; try done. by intros y [= <-]. Qed.

Lemma agree_lift {X} (Q : X → Prop) r : (∀ x, r = Ok x → Q x) → agree Q (st_lift r) (st_lift r).
Proof. intros Hr w1 w2 Hs Ha. by split_and!. Qed.

Lemma agree_bind {X Y} (Q : X → Prop) (R : Y → Prop) m1 m2 k1 k2 :
  agree Q m1 m2 → (∀ x, Q x → agree R (k1 x) (k2 x)) → agree R (st_bind m1 k1) (st_bind m2 k2).
Proof.
  intros Hm Hk w1 w2 Hs Ha. destruct (Hm w1 w2 Hs Ha) as (Hs1 & Ha1 & Hc1 & Hc2 & He & HQ). unfold st_bind.
  destruct (m1 w1) as [w1' [x|e]], (m2 w2) as [w2' y]; cbn in *; subst y; [|by split_and!].
  destruct (Hk x (HQ x eq_refl) w1' w2' Hs1 Ha1) as (? & ? & ? & ? & ? & ?). split_and!; try done; congruence.
Qed.

Lemma agrees_then {X Y} (R : Y → Prop) (m1 m2 : _ → _ * result exn X) k1 k2 :
  agrees m1 m2 → (∀ x, agree R (k1 x) (k2 x)) → agree R (st_bind m1 k1) (st_bind m2 k2).
Proof. intros Hm Hk. apply (agree_bind (λ _, True)); [done|]. intros x _. apply Hk. Qed.

Lemma agree_get {X} (Q : X → Prop) k1 k2 :
  (∀ r, alike r0 r → agree Q (k1 r) (k2 r)) → agree Q (st_bind get_rt k1) (st_bind get_rt k2).
Proof.
  intros Hk w1 w2 Hs Ha. unfold st_bind, get_rt. rewrite <-(proj1 Hs). by apply Hk.
Qed.

Lemma agree_try {X} (Q : X → Prop) m1 m2 : agree Q m1 m2 →
  agree (λ x, match x with Ok x => Q x | Err _ => True end) (st_try m1) (st_try m2).
Proof.
  intros Hm w1 w2 Hs Ha. destruct (Hm w1 w2 Hs Ha) as (? & ? & ? & ? & He & HQ). unfold st_try.
  destruct (m1 w1) as [w1' x], (m2 w2) as [w2' y]; cbn in *; subst y. split_and!; try done.
  intros z [= <-]. by destruct x; [apply HQ|].
Qed.

Lemma agrees_try {X} (m1 m2 : _ → _ * result exn X) : agrees m1 m2 → agrees (st_try m1) (st_try m2).
Proof. intros Hm w1 w2 Hs Ha. destruct (agree_try _ _ _ Hm w1 w2 Hs Ha) as (? & ? & ? & ? & ? & _). by split_and!. Qed.

Lemma agrees_on_rt f : (∀ r, alike r0 r → alike r0 (f r)) → agrees (on_rt f) (on_rt f).
Proof. intros Hf w1 w2 [Hr Hc] Ha. split_and!; [split; cbn; congruence|by apply Hf|done..]. Qed.

Lemma agrees_record_call c : agrees (record_call c) (record_call c).
Proof. intros w1 w2 [Hr Hc] Ha. split_and!; [split; cbn; congruence|done..]. Qed.

(** *** The operations *)

Lemma agrees_match_route routes path :
  agrees (match_route new_URLPattern url_test routes path) (match_route new_URLPattern url_test routes path).
Proof.
  intros w1 w2 [Hr Hc] Ha. unfold match_route. rewrite <-Hr.
  destruct (matchRoute _ _ _ _ _) as [c x]. split_and!; [split; cbn; congruence|done..].
Qed.

Lemma agree_load_artifact_code fnSnap : offered r0 fnSnap →
  agrees (load_artifact_code options (prop fnSnap (js "artifactId")))
         (load_artifact_code options (prop fnSnap (js "artifactId"))).
Proof.
  intros (b & bs & Hc)%Hwarm. unfold load_artifact_code. apply agree_get. intros r (_ & _ & _ & ->). rewrite Hc.
  by apply agree_ret.
Qed.

Lemma agrees_check_limit scope key message requestId :
  agrees (check_limit env scope key message requestId) (check_limit env scope key message requestId).
Proof.
  apply agree_get. intros r Hr. destruct (check _ _ _ _) as [l d].
  apply agrees_then; [by apply agrees_on_rt|intros _]. by apply agree_ret.
Qed.

Lemma agrees_run_provider a l i : agrees (run_provider env a l i) (run_provider env a l i).
Proof. apply agrees_then; [apply agrees_record_call|intros _]. by apply agree_lift. Qed.

Local Hint Resolve agrees_record_call agrees_match_route agree_load_artifact_code agrees_check_limit
  agrees_run_provider : railfog.

Local Ltac agree_step :=
  first
    [ done
    | progress auto with railfog
    | apply agree_ret
    | apply agree_lift
    | apply agree_get; intros ? ?
    | apply agrees_then; [|intros ?]
    | apply agrees_try
    | apply agrees_on_rt; intros ? ?
    | match goal with
      | |- agree _ (if ?b then _ else _) _ => destruct b eqn:?
      | |- agree _ (match ?x with _ => _ end) _ => destruct x eqn:?
      end ].
Local Ltac agree_steps := repeat agree_step.

Lemma agrees_cron_tick key : agrees (cron_tick options env key) (cron_tick options env key).
Proof.
  unfold cron_tick. apply agree_get. intros r Hr. destruct (map_get (cronTimers r) key) as [job|] eqn:Ej; [|agree_steps].
  assert (offered r0 (cj_snapshot job)) as Ho.
  { right. exists key, job. split; [|done]. rewrite <-Ej. f_equal. symmetry. apply Hr. }
  agree_steps.
Qed.

(** A function of a snapshot that is held *)
Lemma held_offered r snap name fnSnap :
  alike r0 r → (currentSnapshot r = Some snap ∨ ∃ p, (p, snap) ∈ projectSnapshots r) →
  (name, fnSnap) ∈ object_entries (prop snap (js "functions")) → offered r0 fnSnap.
Proof. intros (Hc & Hp & _) Hs Hf. left. exists snap, name. rewrite <-Hc, <-Hp. done. Qed.

Lemma queue_target_elem snap q e : queue_target snap q = Some e → e ∈ object_entries (prop snap (js "functions")).
Proof.
  unfold queue_target. destruct (list_find _ _) as [[i x]|] eqn:Ef.
  - intros [= <-]. apply list_find_Some in Ef as (Hl & _). by eapply list_elem_of_lookup_2.
  - intros ([j y] & (Hl & _)%list_find_Some & ->)%fmap_Some. by eapply list_elem_of_lookup_2.
Qed.

Lemma agrees_queueDispatcher q m p i : agrees (queueDispatcher options env q m p i) (queueDispatcher options env q m p i).
Proof.
  unfold queueDispatcher, dispatch_message. apply agrees_then; [|intros _; agree_steps]. apply agrees_try.
  apply agree_get. intros r Hr.
  destruct (match map_get (projectSnapshots r) p with Some s => Some s | None => currentSnapshot r end) as [snap|] eqn:Es;
    [|agree_steps].
  destruct (queue_target snap q) as [[fnName fnSnap]|] eqn:Eq; [|agree_steps].
  assert (offered r0 fnSnap) as Ho.
  { eapply (held_offered r); [done| |by eapply queue_target_elem].
    destruct (map_get (projectSnapshots r) p) as [s|] eqn:Ep; [|by left].
    right. exists p. apply map_get_elem. congruence. }
  agree_steps.
Qed.

(** What a resolution is based on *)
Definition rooted (x : option Resolution) : Prop :=
  match x with
  | Some x => currentSnapshot r0 = Some (activeSnapshot x) ∨ ∃ p, (p, activeSnapshot x) ∈ projectSnapshots r0
  | None => True
  end.

Lemma agree_match_any path snaps : (∀ e, e ∈ snaps → e ∈ projectSnapshots r0) →
  agree rooted (match_any new_URLPattern url_test snaps path) (match_any new_URLPattern url_test snaps path).
Proof.
  induction snaps as [|[p s] snaps IH]; intros Hin; cbn; [by apply agree_ret|].
  apply agrees_then; [apply agrees_match_route|]. intros [route|].
  - apply agree_ret. right. exists p. apply Hin. by left.
  - apply IH. intros e He. apply Hin. by right.
Qed.

Lemma agree_resolve_route requested path :
  agree rooted (resolve_route new_URLPattern url_test options requested path)
               (resolve_route new_URLPattern url_test options requested path).
Proof.
  unfold resolve_route. apply agree_get. intros r (Hc & Hp & _).
  assert (∀ o1 o2 snap, o1 = Some snap ∨ (∃ p, (p, snap) ∈ o2) → o1 = currentSnapshot r0 → o2 = projectSnapshots r0 →
    ∀ route name, rooted ((λ route, {| winningRoute := route; activeSnapshot := snap; resolvedProjectId := name |}) <$> route))
    as Hroot by (intros ? ? ? ? -> -> [route|] name; done).
  apply (agree_bind rooted).
  { unfold match_requested. destruct requested as [[|b bs]|]; [by apply agree_ret| |by apply agree_ret].
    destruct (map_get _ _) as [snap|] eqn:Es; [|by apply agree_ret].
    apply agrees_then; [apply agrees_match_route|intros route]. apply agree_ret.
    apply (Hroot (currentSnapshot r) (projectSnapshots r)); [right; eexists; by apply map_get_elem|done..]. }
  intros [x|] Hx; [by apply agree_ret|]. apply (agree_bind rooted).
  { unfold match_own. destruct (currentSnapshot r) as [snap|] eqn:Es; [|by apply agree_ret].
    destruct (snapshot_routes snap) as [|rt rts]; [by apply agree_ret|].
    apply agrees_then; [apply agrees_match_route|intros route]. apply agree_ret.
    apply (Hroot (Some snap) (projectSnapshots r)); [by left|done..]. }
  intros [x'|] Hx'; [by apply agree_ret|]. apply agree_match_any. by rewrite Hp.
Qed.

Lemma agrees_caller_limits req requestId : agrees (caller_limits env req requestId) (caller_limits env req requestId).
Proof. unfold caller_limits. agree_steps. Qed.
Local Hint Resolve agrees_caller_limits : railfog.

Lemma agrees_invoke req path x fnSnap depth requestId : offered r0 fnSnap →
  agrees (invoke options env req path x fnSnap depth requestId) (invoke options env req path x fnSnap depth requestId).
Proof. intros Ho. unfold invoke, finish_invocation. agree_steps. Qed.

Lemma agrees_handle_function req depth requestId :
  agrees (handle_function new_URLPattern url_test options env req depth requestId)
         (handle_function new_URLPattern url_test options env req depth requestId).
Proof.
  unfold handle_function. agree_step; [agree_steps|]. destruct x as [response|]; [agree_steps|].
  apply agree_get. intros r Hr. agree_step; [agree_steps|].
  apply (agree_bind rooted); [apply agree_resolve_route|]. intros [y|] Hy; [|agree_steps].
  agree_step; [agree_steps|]. destruct x0 as [response|]; [agree_steps|].
  destruct (snapshot_function _ _) as [fnSnap|] eqn:Ef; [|agree_steps].
  destruct (lacks_bearer fnSnap req); [agree_steps|]. apply agrees_invoke.
  left. eexists _, _. split; [exact Hy|]. by apply map_get_elem.
Qed.
Local Hint Resolve agrees_handle_function : railfog.

Lemma agrees_runtime_handler req : isControlPlanePath (h_pathname req) = false →
  agrees (runtime_handler new_URLPattern url_test error_text options env req)
         (runtime_handler new_URLPattern url_test error_text options env req).
Proof.
  intros Hp. unfold runtime_handler, dispatch. rewrite Hp. unfold handle_object, handle_runtime_logs. agree_steps.
Qed.
End agreement.

(** ** An outage *)

(** What a daemon is given besides its polls *)
Inductive data_event :=
| Request (req : HttpRequest)
| Fires (timerKey : jstr)
| Delivers (queueName : jstr) (message : jsval) (pId : jstr) (messageId : option jstr).

Definition not_control (e : data_event) : Prop :=
  match e with Request req => isControlPlanePath (h_pathname req) = false | _ => True end.

Section run.
Context {P C : Type} `{!Peer C, !Hashing, !ContentCodec, !NumberText}.
Context (new_URLPattern : jstr → result exn P) (url_test : P → jstr → bool) (error_text : exn → jstr).
Context (options : RuntimeServerOptions).

(** A step and the answer to a request *)
Definition data_step (env : RuntimeEnv) (e : data_event) (w : World P C) : World P C * option (result exn HttpResponse) :=
  match e with
  | Request req => let '(w', response) := runtime_handler new_URLPattern url_test error_text options env req w in
                   (w', Some response)
  | Fires key => ((cron_tick options env key w).1, None)
  | Delivers q m p i => ((queueDispatcher options env q m p i w).1, None)
  end.

(** The answers to a sequence of events; [None] is a poll of the control plane. *)
Fixpoint run_events (events : list (RuntimeEnv * option data_event)) (w : World P C)
    : World P C * list (result exn HttpResponse) :=
  match events with
  | [] => (w, [])
  | (env, None) :: events => run_events events (pollControlPlane options env w).1
  | (env, Some e) :: events =>
      let '(w1, answer) := data_step env e w in
      let '(w2, answers) := run_events events w1 in
      (w2, match answer with Some r => r :: answers | None => answers end)
  end.

(** A control plane that does not answer *)
Definition down : Prop := ∀ req c, ∃ e, fetch (C := C) req c = (c, Err e).

(** Polls of it change nothing. *)
Lemma poll_down env w : down → (pollControlPlane (P := P) options env w).1 = w.
Proof.
  intros Hd. assert (∀ req w, ∃ e, on_control (P := P) (fetch req) w = (w, Err e)) as Hfetch.
  { intros req [r c cs]. unfold on_control. cbn. destruct (Hd req c) as [e ->]. by exists e. }
  assert (∀ pId, (fetchSnapshotForProject options env pId w).1 = w) as Hf.
  { intros pId. unfold fetchSnapshotForProject, get_rt. destruct (control_base options) as [base|]; [|done].
    unfold st_bind, st_try, st_lift. destruct (snapshot_request _ _ _) as [req|e]; [|done].
    by destruct (Hfetch req w) as [e ->]. }
  unfold pollControlPlane, get_rt. unfold st_bind at 1. cbv beta iota. destruct (isClosed (rt w)); [done|].
  unfold st_bind at 1. specialize (Hf (ro_projectId options)).
  destruct (fetchSnapshotForProject _ _ _ w) as [w' [x|e]]; cbn in Hf; subst w'; [|done].
  destruct (control_base options) as [base|]; [|done]. unfold discover_projects, st_bind, st_try.
  by destruct (Hfetch (get_request base (js "/v1/projects") []) w) as [e ->].
Qed.
End run.

Section outage.
Context {P C1 C2 : Type} `{!Peer C1, !Peer C2, !Hashing, !ContentCodec, !NumberText}.
Context (new_URLPattern : jstr → result exn P) (url_test : P → jstr → bool) (error_text : exn → jstr).
Context (options : RuntimeServerOptions).

Lemma data_step_agree r0 env e (w1 : World P C1) (w2 : World P C2) :
  warm r0 → not_control e → same w1 w2 → alike r0 (rt w1) →
  let s1 := data_step new_URLPattern url_test error_text options env e w1 in
  let s2 := data_step new_URLPattern url_test error_text options env e w2 in
  same s1.1 s2.1 ∧ alike r0 (rt s1.1) ∧ control s1.1 = control w1 ∧ s1.2 = s2.2.
Proof.
  intros Hw Hn Hs Ha. destruct e; cbv zeta; unfold data_step.
  - destruct (agrees_runtime_handler new_URLPattern url_test error_text options env r0 Hw req Hn w1 w2 Hs Ha)
      as (Hs' & Ha' & Hc & _ & He & _).
    destruct (runtime_handler _ _ _ _ _ _ w1) as [? ?], (runtime_handler _ _ _ _ _ _ w2) as [? ?]; cbn in *. by subst.
  - destruct (agrees_cron_tick options env r0 Hw timerKey w1 w2 Hs Ha) as (? & ? & ? & _). done.
  - destruct (agrees_queueDispatcher options env r0 Hw queueName message pId messageId w1 w2 Hs Ha) as (? & ? & ? & _). done.
Qed.

Lemma outage_agree r0 events : warm r0 → down (C := C2) → Forall (λ e, from_option not_control True e.2) events →
  ∀ (w1 : World P C1) (w2 : World P C2), same w1 w2 → alike r0 (rt w1) →
  let s1 := run_events new_URLPattern url_test error_text options (filter (λ e, is_Some e.2) events) w1 in
  let s2 := run_events new_URLPattern url_test error_text options events w2 in
  s1.2 = s2.2 ∧ same s1.1 s2.1 ∧ control s1.1 = control w1.
Proof.
  intros Hw Hd He. cbv zeta. induction He as [|[env [e|]] events Hn _ IH]; intros w1 w2 Hs Ha; [done| |].
  - rewrite filter_cons, decide_True by by eexists. cbn [run_events].
    destruct (data_step_agree r0 env e w1 w2 Hw Hn Hs Ha) as (Hs' & Ha' & Hc & Hr).
    destruct (data_step _ _ _ _ _ e w1) as [w1' x1], (data_step _ _ _ _ _ e w2) as [w2' x2]; cbn in *. subst x2.
    destruct (IH w1' w2' Hs' Ha') as (Hr & Hs'' & Hc').
    destruct (run_events _ _ _ _ _ w1') as [? ?], (run_events _ _ _ _ _ w2') as [? ?]; cbn in *.
    split_and!; [by subst|done|congruence].
  - rewrite filter_cons, decide_False by by intros [? ?]. cbn [run_events]. rewrite poll_down by done. by apply IH.
Qed.

(** C5: Fail-static (PLAT-8): a daemon whose functions have their code cached is
    not affected by the loss of the control plane.  Given the same requests (to
    paths that are not the control plane's), cron ticks and queue messages, a
    daemon with any control plane and one whose control plane does not answer,
    and which goes on polling it, give the same answers, run the same functions
    with the same inputs and end in the same state; the first does not turn to
    its control plane either. *)
Theorem fail_static events (w1 w1' : World P C1) (w2 w2' : World P C2) answers1 answers2 :
  down (C := C2) → same w1 w2 → warm (rt w1) → Forall (λ e, from_option not_control True e.2) events →
  run_events new_URLPattern url_test error_text options (filter (λ e, is_Some e.2) events) w1 = (w1', answers1) →
  run_events new_URLPattern url_test error_text options events w2 = (w2', answers2) →
  answers1 = answers2 ∧ rt w1' = rt w2' ∧ calls w1' = calls w2' ∧ control w1' = control w1.
Proof.
  intros Hd Hs Hw He E1 E2. destruct (outage_agree (rt w1) events Hw Hd He w1 w2 Hs ltac:(done)) as (Ha & [Hr Hc] & Hk).
  rewrite E1, E2 in *. done.
Qed.
End outage.

(** *** A concrete outage *)

#[local] Existing Instances demo_hashing demo_codec demo_number_text unreachable.

(** A control plane that answers everything, and keeps what it was asked *)
#[local] Instance talkative : Peer (list HttpRequest) := λ req asked,
  (asked ++ [req], Ok {| p_status := 200; p_headers := []; p_content := NoContent |}).

Definition cart_function : jsval :=
  Eval vm_compute in default JUndef (head (served_functions (rt shop_daemon))).
(** The daemon of shop with the code of its function *)
Definition warm_shop : Runtime jstr :=
  cacheArtifactCode (string_or_empty (prop cart_function (js "artifactId"))) [1; 2; 3] (rt shop_daemon).
Definition outage : list (RuntimeEnv * option data_event) :=
  [(runtime_env 5, Some (Request (get_from (js "shop.test") (js "/cart") []))); (runtime_env 6, None);
   (runtime_env 7, Some (Delivers (js "default") (JStr (js "hello")) (js "shop") None));
   (runtime_env 8, Some (Request (get_from (js "shop.test") (js "/nowhere") []))); (runtime_env 9, None)].
Definition live_run : World jstr (list HttpRequest) * list (result exn HttpResponse) :=
  run_events Ok Router.star_pattern (λ _, []) shop_options (filter (λ e, is_Some e.2) outage) (Build_World warm_shop [] []).
Definition outage_run : World jstr unit * list (result exn HttpResponse) :=
  run_events Ok Router.star_pattern (λ _, []) shop_options outage (Build_World warm_shop tt []).

Theorem fail_static_witness :
  map (fmap p_status) live_run.2 = [Ok 200; Ok 404] ∧
  live_run.2 = outage_run.2 ∧ rt live_run.1 = rt outage_run.1 ∧
  calls live_run.1 = calls outage_run.1 ∧ control live_run.1 = [].
Proof.
  split; [vm_compute; reflexivity|].
  apply (fail_static Ok Router.star_pattern (λ _, []) shop_options outage
    (Build_World warm_shop [] []) live_run.1 (Build_World warm_shop tt []) outage_run.1 live_run.2 outage_run.2).
  - intros req []. by exists PlainError.
  - done.
  - apply is_warm_spec. vm_compute. reflexivity.
  - repeat constructor.
  - unfold live_run. apply surjective_pairing.
  - unfold outage_run. apply surjective_pairing.
Defined.
