(* ===== verification/DataPlane.v ===== *)
(** * From a deployment to what the daemon runs (PLAT-3, PLAT-8, PLAT-11)

    The control plane as the daemon's [Peer]: a request is handled by
    [ControlServer.handler], a response is what the handler answers.  A function
    that was deployed is in the daemon's snapshot after its next poll, and what
    the daemon then has run for it are the deployed bytes.  URLs are not
    normalised: the base URL of the control plane has no path. *)

From S2P Require Import Prelude JsString JsMap JsNumber JsValue Errors Utf8 Uri Http Ulid RateLimit KvInterface SqliteKv.
From S2P Require Import Packager Router Cron Deployment Snapshot SnapshotCache StateBackup ArchiveSchema.
From S2P Require Import ApiKeys AuthMiddleware SnapshotDistribution BackupRestore ControlServer ControlInstances ControlSafety.
From S2P Require Import RuntimeServer RuntimeSafety.
From Stdlib Require Import QArith.

Open Scope Z_scope.
Open Scope railfog_scope.

(** ** Strings *)

Lemma encode_ascii s : Forall (λ c, 0 ≤ c < 128) s → ∃ e, encodeURIComponent s = Ok e.
Proof.
  intros Hs. unfold encodeURIComponent. rewrite code_points_ascii by done.
  rewrite (proj2 (existsb_false_iff _ _)); [by eexists|]. eapply Forall_impl; [exact Hs|].
  intros c Hc. unfold is_surrogate. cbn in Hc. lia.
Qed.

Lemma artifact_id_ascii i : artifact_id_valid i = true → Forall (λ c, 0 ≤ c < 128) i.
Proof.
  unfold artifact_id_valid. rewrite !andb_true_iff. intros [[(r & ->)%starts_with_spec _] Hr].
  change (slice_from 7 (js "sha256:" ++ r)) with r in Hr. apply Forall_app. split.
  - apply (bool_decide_unpack _). vm_compute. exact I.
  - rewrite forallb_true_iff in Hr. apply Forall_forall. intros c Hc%Hr. unfold is_hex_lower, is_digit in Hc.
    rewrite orb_true_iff, !andb_true_iff, !Z.leb_le in Hc. lia.
Qed.

(** ** Paths *)

Definition snapshot_path (e : jstr) : jstr := js "/v1/projects/" ++ e ++ js "/snapshot".

Lemma snapshot_path_match e : e ≠ [] → chr "/" ∉ e → projectMatch (snapshot_path e) = Some (e, ASnapshot).
Proof.
  intros Hn He. unfold projectMatch, snapshot_path. change (js "/v1/projects/") with PROJECTS.
  rewrite starts_with_app. unfold slice_from. rewrite drop_app_length.
  change (js "/snapshot") with (chr "/" :: js "snapshot").
  rewrite split_on_app by done. rewrite (split_on_none (chr "/") (js "snapshot")).
  - by destruct e.
  - apply (bool_decide_unpack _). vm_compute. exact I.
Qed.

Lemma artifact_path_match e : e ≠ [] → chr "/" ∉ e → artifactMatch (ARTIFACTS ++ e) = Some e.
Proof.
  intros Hn He. unfold artifactMatch, one_segment. rewrite starts_with_app. unfold slice_from. rewrite drop_app_length.
  rewrite split_on_none by done. by destruct e.
Qed.

(** A path whose end is not a slash is left alone. *)
Lemma strip_slash_id p c : c ≠ chr "/" → strip_slash (p ++ [c]) = p ++ [c].
Proof.
  intros Hc. unfold strip_slash. destruct (ends_with (p ++ [c]) (js "/")) eqn:E; [|by rewrite andb_false_r].
  apply ends_with_spec in E as [r E]. change (js "/") with [chr "/"] in E. apply app_inj_tail in E as [_ ->]. done.
Qed.

Lemma strip_slash_app p e : e ≠ [] → ∃ e', strip_slash (p ++ e) = p ++ e'.
Proof.
  intros He. unfold strip_slash. destruct (_ && _); [|by exists e].
  exists (take (length (p ++ e) - 1 - length p) e). rewrite take_app. f_equal. apply take_ge. rewrite length_app.
  destruct e; [done|cbn; lia].
Qed.

(** The endpoints that are not behind the gate *)
Definition public_paths : list jstr := [js "/healthz"; js "/login"; js "/v1/auth/keys"; js "/v1/auth/verify"].
Lemma not_public path : forallb (λ q, negb (jstr_eqb path q)) public_paths = true → path ∉ public_paths.
Proof.
  rewrite forallb_true_iff. intros Hq Hin. specialize (Hq path Hin). by rewrite jstr_eqb_refl in Hq.
Qed.

(** How the control plane reads the path of a snapshot *)
Lemma snapshot_path_reads e :
  customer_path (snapshot_path e) = false ∧ jstr_eqb (snapshot_path e) (js "/v1/projects") = false ∧
  artifactMatch (snapshot_path e) = None ∧ snapshot_path e ∉ public_paths ∧
  strip_slash (snapshot_path e) = snapshot_path e ∧ ends_with (snapshot_path e) (js "/snapshot") = true.
Proof.
  split_and!; [|reflexivity|reflexivity|by apply not_public| |].
  - unfold customer_path, snapshot_path.
    assert (ends_with (js "/v1/projects/" ++ e ++ js "/snapshot") (js "/invoke") = false) as ->; [|reflexivity].
    unfold ends_with. rewrite !rev_app_distr. reflexivity.
  - unfold snapshot_path. change (js "/snapshot") with (js "/snapsho" ++ [chr "t"]). rewrite !app_assoc. by apply strip_slash_id.
  - apply ends_with_spec. exists (js "/v1/projects/" ++ e). unfold snapshot_path. by rewrite app_assoc.
Qed.

(** The path of an artifact *)
Lemma artifact_path_reads i e : artifact_id_valid i = true → encodeURIComponent i = Ok e →
  e ≠ [] ∧ chr "/" ∉ e ∧ customer_path (ARTIFACTS ++ e) = false ∧ strip_slash (ARTIFACTS ++ e) = ARTIFACTS ++ e.
Proof.
  intros Hi He. pose proof (artifact_id_ascii i Hi) as Ha.
  assert (chr "/" ∉ e) as Hs.
  { eapply uri_char_no_slash, encodeURIComponent_chars; [|exact He]. eapply Forall_impl; [exact Ha|]. cbn. lia. }
  assert (∃ e', e = js "sha256%3A" ++ e') as [e' ->].
  { unfold artifact_id_valid in Hi. rewrite !andb_true_iff in Hi. destruct Hi as [[(r & ->)%starts_with_spec _] _].
    unfold encodeURIComponent in He. rewrite code_points_ascii in He by done. destruct (existsb _ _); [done|].
    injection He as <-. by exists (flat_map enc_cp r). }
  split_and!; [done|done| |].
  - unfold customer_path. rewrite !orb_false_iff. split_and!; try reflexivity.
    apply not_true_iff_false. intros (r & E)%ends_with_spec.
    assert (∃ k, js "sha256%3A" ++ e' = k ++ js "/invoke") as (k & Ek).
    { apply app_eq_app in E as (l & [[_ Er]|[_ Er]]); [|by exists l].
      apply (f_equal length) in Er. rewrite !length_app in Er. cbn in Er. lia. }
    apply Hs. rewrite Ek. apply elem_of_app. right. left.
  - destruct (exists_last (l := js "sha256%3A" ++ e')) as (l & c & El); [done|]. rewrite El, app_assoc.
    apply strip_slash_id. intros ->. apply Hs. rewrite El. apply elem_of_app. right. by left.
Qed.

(** ** The control plane behind [fetch] *)

Section peer.
Context {K Ob A : Type} `{!Hashing, !JsonParser, !NumberText, !ObjectStore Ob, !KeyStore A, !SharedKv K A}.
Context `{!BackupService (backup_state K Ob)}.
Context (options : Options) (cenv : ControlServer.Env).
(** [req.text()], and the texts the model of the control plane leaves out *)
Context (text_of : list Z → result exn jstr) (error_message : jstr → jstr)
        (login_page : option jstr → option jstr → option jstr → list Z).

Definition as_request (req : HttpRequest) : Request :=
  {| rq_method := h_method req; rq_pathname := h_pathname req; rq_search := h_search req; rq_query := h_query req;
     rq_headers := h_headers req; rq_text := text_of (default [] (h_body req)) |}.

Definition as_response (r : Response) : HttpResponse :=
  {| p_status := rs_status r;
     p_headers := match rs_etag r with Some e => [(js "etag", e)] | None => [] end ++
                  [(js "x-request-id", rs_requestId r)];
     p_content := match rs_payload r with
                  | ControlServer.Json v => JsonOf v
                  | JsonText t => Bytes (text_encode t)
                  | LoginPage c s o => Bytes (login_page c s o)
                  | Octets bs => Bytes bs
                  | ErrorBody code => error_content code (error_message code) (rs_requestId r) []
                  | NoBody => NoContent
                  end |}.

Definition control_peer : Peer (Server K Ob A) := λ req s,
  let '(s', r) := handler options cenv (as_request req) s in (s', Ok (as_response r)).
End peer.

(** ** What the daemon asks *)

Section requests.
Context {K Ob A : Type} `{!Hashing, !JsonParser, !NumberText, ReliableObjects Ob, !KeyStore A, !SharedKv K A}.
Context `{!BackupService (backup_state K Ob)}.
Context (options : Options) (cenv : ControlServer.Env).
Context (text_of : list Z → result exn jstr) (error_message : jstr → jstr)
        (login_page : option jstr → option jstr → option jstr → list Z).
Implicit Types s : Server K Ob A.

Local Abbreviation ask := (fetch (Peer := control_peer options cenv text_of error_message login_page)).

(** A read of the data plane passes the gate. *)
Lemma get_protected base path path' headers s :
  strip_slash path = path' → path' ∉ public_paths →
  (ends_with path' (js "/snapshot") || jstr_eqb path' (js "/v1/projects") || starts_with path' ARTIFACTS = true) →
  let req := as_request text_of (get_request base path headers) in
  let requestId := ControlServer.resolveRequestId cenv req in
  isDataPlaneRead req path' = true ∧
  handler options cenv req s =
  match protected_routes cenv req path' requestId s with
  | (s, Ok response) => (s, response)
  | (s, Err e) => (s, buildErrorResponse e requestId)
  end.
Proof.
  intros Hs Hp Hr. cbv zeta.
  assert (isDataPlaneRead (as_request text_of (get_request base path headers)) path' = true) as Hread.
  { unfold isDataPlaneRead. rewrite Hr. done. }
  split; [done|]. unfold handler. cbn [rq_pathname as_request get_request h_pathname]. rewrite Hs.
  unfold public_paths in Hp. rewrite !not_elem_of_cons in Hp. destruct Hp as (H1' & H2' & H3' & H4' & _).
  unfold routes. rewrite !(proj2 (jstr_eqb_neq _ _)) by done.
  unfold gate, st_bind, st_get. destruct (middleware options (sv_keys s)) as [auth|]; [|done]. by rewrite Hread.
Qed.

(** What the daemon asks for changes no deployment, object, entry or key. *)
Lemma ask_reads base path headers s :
  path = js "/v1/projects" ∨ (∃ e, path = snapshot_path e) ∨ (∃ e, path = ARTIFACTS ++ e) →
  reads_only s (ask (get_request base path headers) s).1.
Proof.
  intros Hpath. unfold fetch, control_peer.
  assert ((strip_slash path ∉ public_paths ∧ ends_with (strip_slash path) (js "/snapshot") ||
    jstr_eqb (strip_slash path) (js "/v1/projects") || starts_with (strip_slash path) ARTIFACTS = true) ∨
    strip_slash path = js "/v1/artifacts") as [[Hp Hr]|Hs].
  { destruct Hpath as [->|[[e ->]|[e ->]]].
    - left. split; [|reflexivity]. apply (bool_decide_unpack _). vm_compute. exact I.
    - left. destruct (snapshot_path_reads e) as (_ & _ & _ & Hp & -> & ->). done.
    - destruct e as [|c e]; [by right|]. left. destruct (strip_slash_app ARTIFACTS (c :: e)) as [e' ->]; [done|].
      split; [by apply not_public|]. by rewrite starts_with_app, orb_true_r. }
  - destruct (get_protected base path _ headers s eq_refl Hp Hr) as [Hread ->].
    pose proof (reads_data_plane cenv (as_request text_of (get_request base path headers))
      (ControlServer.resolveRequestId cenv (as_request text_of (get_request base path headers))) _ s Hread s ltac:(done)) as Hk.
    by destruct (protected_routes _ _ _ _ s) as [s' [r|e]].
  - unfold handler. cbn [rq_pathname as_request get_request h_pathname]. rewrite Hs.
    unfold routes. rewrite !(proj2 (jstr_eqb_neq _ _)) by (vm_compute; discriminate).
    assert (∀ req requestId, protected_routes (K := K) (Ob := Ob) (A := A) cenv req (js "/v1/artifacts") requestId =
      st_throw PermissionDeniedError) as Hnone by reflexivity.
    assert (isDataPlaneRead (as_request text_of (get_request base path headers)) (js "/v1/artifacts") = false) as Hread
      by reflexivity.
    unfold gate, st_bind, st_get. rewrite Hnone, Hread.
    destruct (middleware options (sv_keys s)) as [auth|]; [|done]. by destruct (auth _ _).
Qed.

(** The snapshot of a project *)
Lemma ask_snapshot base p e headers s s' snap :
  jstr_wf p → p ≠ [] → encodeURIComponent p = Ok e → project_snapshot cenv p s = (s', Ok snap) →
  match map_get headers (js "if-none-match") with
  | Some ((_ :: _) as tag) => isEtagMatch tag (quoted (version_text snap)) = false
  | _ => True
  end →
  ∃ hs, ask (get_request base (snapshot_path e) headers) s = (s', Ok {| p_status := 200; p_headers := hs; p_content := JsonOf snap |}).
Proof.
  intros Hwf Hp He Hsnap Htag.
  assert (e ≠ []) as Hne.
  { intros ->. pose proof (decodeURIComponent_encode p [] Hwf He) as Hd. by injection Hd. }
  assert (chr "/" ∉ e) as Hslash by by eapply uri_char_no_slash, encodeURIComponent_chars.
  destruct (snapshot_path_reads e) as (Hc & Hq & Ha & Hpub & Hstrip & Hend).
  unfold fetch, control_peer. rewrite (proj2 (get_protected base _ _ headers s Hstrip Hpub ltac:(by rewrite Hend))).
  unfold protected_routes. rewrite Hc, Hq, Ha, snapshot_path_match by done.
  unfold handle_snapshot, allow_methods, st_bind, st_lift. cbn [is_read rq_method as_request get_request h_method].
  change (jstr_eqb (js "GET") (js "GET")) with true. cbn [orb negb throw_if].
  rewrite (decodeURIComponent_encode p e), Hsnap by done.
  unfold unchanged, header. cbn [rq_headers as_request get_request h_headers].
  destruct (map_get headers (js "if-none-match")) as [[|c tag]|]; [by eexists| |by eexists].
  rewrite Htag. by eexists.
Qed.

(** The stored bytes of an artifact *)
Lemma ask_artifact base i e s content :
  artifact_id_valid i = true → encodeURIComponent i = Ok e →
  obj_content (bw_obj (sv_stores s)) (ARTIFACT_STORAGE_PREFIX ++ i) = Some content →
  ∃ hs, ask (get_request base (ARTIFACTS ++ e) []) s = (s, Ok {| p_status := 200; p_headers := hs; p_content := Bytes content |}).
Proof.
  intros Hi He Hc. destruct (artifact_path_reads i e Hi He) as (Hne & Hslash & Hcust & Hstrip).
  unfold fetch, control_peer.
  rewrite (proj2 (get_protected base _ _ [] s Hstrip ltac:(by apply not_public)
    ltac:(by rewrite starts_with_app, orb_true_r))).
  unfold protected_routes. rewrite Hcust.
  assert (jstr_eqb (ARTIFACTS ++ e) (js "/v1/projects") = false) as -> by reflexivity.
  rewrite artifact_path_match by done.
  unfold handle_artifact, allow_methods, getArtifact, st_bind, st_lift. cbn [is_read rq_method as_request get_request h_method].
  change (jstr_eqb (js "GET") (js "GET")) with true. cbn [orb negb throw_if].
  rewrite (decodeURIComponent_encode i e) by (done || (eapply Forall_impl; [by apply artifact_id_ascii|cbn; lia])).
  pose proof (obj_read (bw_obj (sv_stores s)) (ARTIFACT_STORAGE_PREFIX ++ i)) as Hr. rewrite Hc in Hr.
  destruct Hr as (stream & Hg & Hb). unfold on_stores, on_obj. rewrite Hg, Hb. eexists.
  unfold unchanged, header. cbn. f_equal. by destruct s as [[] ? ?].
Qed.
End requests.

(** ** A poll *)

Section poll.
Context {K Ob A P : Type} `{!Hashing, !JsonParser, !NumberText, ReliableObjects Ob, !KeyStore A, !SharedKv K A, !ContentCodec}.
Context `{!BackupService (backup_state K Ob)}.
Context (coptions : Options) (cenv : ControlServer.Env).
Context (text_of : list Z → result exn jstr) (error_message : jstr → jstr)
        (login_page : option jstr → option jstr → option jstr → list Z).
Context (options : RuntimeServerOptions) (env : RuntimeEnv).

Local Instance peer : Peer (Server K Ob A) := control_peer coptions cenv text_of error_message login_page.
Local Abbreviation W := (World P (Server K Ob A)).

(** The deployed artifact: its identifier and its stored bytes *)
Context (stores : backup_state K Ob) (i : jstr) (content : list Z).
Context (Hi : artifact_id_valid i = true)
        (Hstored : obj_content (bw_obj stores) (ARTIFACT_STORAGE_PREFIX ++ i) = Some content).

(** The control plane still has it; what the daemon may have of it is the same. *)
Definition faithful (w : W) : Prop :=
  sv_stores (control w) = stores ∧
  ∀ code, map_get (artifactCache (rt w)) i = Some code → code = [] ∨ code = content.

Definition settled (snap : jsval) (w : W) : Prop :=
  currentSnapshot (rt w) = Some snap ∧ map_get (projectSnapshots (rt w)) (ro_projectId options) = Some snap ∧ faithful w.

Lemma cached_code k code (r : Runtime P) c :
  map_get (artifactCache (cacheArtifactCode k code r)) i = Some c →
  (k = i ∧ c = code) ∨ map_get (artifactCache r) i = Some c.
Proof.
  unfold cacheArtifactCode, set_artifacts. cbn [artifactCache]. rewrite map_get_set.
  case_decide as Hk; [intros [= <-]; by left|]. intros Hg. right.
  destruct (_ <=? _)%nat; [|done]. destruct (map_keys (artifactCache r)) as [|oldest ks]; [done|].
  rewrite map_get_delete in Hg. by case_decide.
Qed.

Lemma settled_ask snap base path headers :
  path = js "/v1/projects" ∨ (∃ e, path = snapshot_path e) ∨ (∃ e, path = ARTIFACTS ++ e) →
  st_keeps (settled snap) (on_control (fetch (get_request base path headers))).
Proof.
  intros Hp w (Hc & Hs & Hf & Ha). unfold on_control.
  destruct (ask_reads coptions cenv text_of error_message login_page base path headers (control w) Hp) as [Hr _].
  unfold fetch, peer in *. destruct (control_peer _ _ _ _ _ _ (control w)) as [c x]. cbn in Hr.
  split_and!; cbn; try done. split; cbn; [congruence|done].
Qed.

(** The code that is fetched for the artifact is what is stored. *)
Lemma fetch_artifact_stored base w w' x :
  faithful w → fetch_artifact base (JStr i) w = (w', x) →
  x = Ok (Some content) ∧ w' = Build_World (cacheArtifactCode i content (rt w)) (control w) (calls w).
Proof.
  intros [Hf _]. destruct (encode_ascii i (artifact_id_ascii i Hi)) as [e He].
  assert (artifact_request base (JStr i) = Ok (get_request base (ARTIFACTS ++ e) [])) as Hreq.
  { unfold artifact_request. change (string_or_empty (JStr i)) with i. rewrite He. reflexivity. }
  unfold fetch_artifact, st_bind, st_lift. rewrite Hreq. unfold on_control.
  destruct (ask_artifact coptions cenv text_of error_message login_page base i e (control w) content Hi He) as [hs Hask];
    [by rewrite Hf|].
  unfold fetch, peer in *. rewrite Hask.
  cbn [p_status p_content read_bytes]. unfold on_rt, st_modify, st_ret. cbn. intros [= <- <-]. done.
Qed.

Lemma settled_fetch_artifact snap base k : st_keeps (settled snap) (fetch_artifact base k).
Proof.
  destruct (decide (string_or_empty k = i)) as [Hk|Hk].
  - assert (fetch_artifact base k = fetch_artifact (P := P) base (JStr i)) as -> by (unfold fetch_artifact, artifact_request; by rewrite Hk).
    intros w (Hc & Hs & Hf). destruct (fetch_artifact_stored base w _ _ Hf (surjective_pairing _)) as [_ ->].
    split_and!; [done|done|]. split; [apply Hf|]. cbn. intros code [[_ ->]|Hg]%cached_code; [by right|]. by apply Hf.
  - unfold fetch_artifact. apply keeps_lift_bind. intros req Hreq. apply keeps_bind.
    + unfold artifact_request in Hreq. destruct (encodeURIComponent _) as [e|] eqn:Ee; [|done]. injection Hreq as <-.
      apply settled_ask. right. right. by exists e.
    + intros res. destruct (_ =? _); [|apply keeps_ret]. apply keeps_bind; [|intros _; apply keeps_ret].
      apply keeps_modify. intros w (Hc & Hs & Hf & Ha). split_and!; [done|done|]. split; [done|]. cbn.
      intros code Hg. apply cached_code in Hg as [[? _]|Hg]; [done|]. by apply Ha.
Qed.

Lemma settled_load snap k : st_keeps (settled snap) (load_artifact_code options k).
Proof.
  unfold load_artifact_code. apply keeps_bind; [by intros w|]. intros r.
  assert (∀ cached, st_keeps (settled snap) (st_ret (A := list Z) (E := exn) cached)) as Hret by (intros; apply keeps_ret).
  assert (∀ base cached, st_keeps (settled snap) (st_bind (st_try (fetch_artifact base k)) (λ fetched, match fetched with
    | Ok (Some code) => st_ret code | _ => st_ret (default [] cached) end))) as Hfetch.
  { intros base cached. apply keeps_bind; [apply keeps_try, settled_fetch_artifact|]. intros [[code|]|e]; apply keeps_ret. }
  destruct (map_get _ _) as [[|b bs]|], (control_base options); done.
Qed.

(** Loading the artifact gives the stored bytes. *)
Lemma load_stored w base : faithful w → control_base options = Some base →
  (load_artifact_code options (JStr i) w).2 = Ok content.
Proof.
  intros Hf Hb. unfold load_artifact_code, get_rt. unfold st_bind at 1. cbv beta iota.
  change (string_or_empty (JStr i)) with i.
  assert (∀ cached, (st_bind (st_try (fetch_artifact base (JStr i))) (λ fetched, match fetched with
    | Ok (Some code) => st_ret code | _ => st_ret (default [] cached) end) w).2 = Ok content) as Hfetch.
  { intros cached. unfold st_bind, st_try.
    pose proof (fetch_artifact_stored base w _ _ Hf (surjective_pairing _)) as [Hx _].
    destruct (fetch_artifact base (JStr i) w) as [w' x]. cbn in Hx. by subst x. }
  rewrite Hb. destruct (map_get (artifactCache (rt w)) i) as [[|b bs]|] eqn:Ec; [done| |done].
  destruct Hf as [_ Ha]. destruct (Ha _ Ec) as [|<-]; done.
Qed.

Lemma settled_prewarm snap v q : st_keeps (settled snap) (prewarmSnapshotFunctions options v q).
Proof.
  unfold prewarmSnapshotFunctions. destruct (hasPrewarm options); [|apply keeps_ret].
  apply keeps_for_each. intros [f s] _. unfold prewarm_function. apply keeps_bind; [apply settled_load|].
  intros code. by apply keeps_modify.
Qed.

(** Installing a snapshot *)
Lemma sync_fields snap q (r : Runtime P) :
  let r' := syncCronSchedules snap q r in
  currentSnapshot r' = currentSnapshot r ∧ projectSnapshots r' = projectSnapshots r ∧ artifactCache r' = artifactCache r.
Proof.
  cbv zeta. unfold syncCronSchedules.
  assert (∀ es (r0 : Runtime P), currentSnapshot r0 = currentSnapshot r ∧ projectSnapshots r0 = projectSnapshots r ∧ artifactCache r0 = artifactCache r →
    let r' := fold_left (λ r e, start_cron q e r) es r0 in
    currentSnapshot r' = currentSnapshot r ∧ projectSnapshots r' = projectSnapshots r ∧ artifactCache r' = artifactCache r)
    as H'; [|by apply H'].
  induction es as [|[f s] es IH]; intros r0 Hr0; [done|]. apply IH. unfold start_cron.
  destruct (is_cron s); [|done]. by destruct (compileCron _).
Qed.

Lemma install_other q v snap w : q ≠ ro_projectId options →
  settled snap w → settled snap (Build_World (install_snapshot options env q v (rt w)) (control w) (calls w)).
Proof.
  intros Hq (Hc & Hs & Hf & Ha). unfold install_snapshot. rewrite (proj2 (jstr_eqb_neq _ _)) by done. cbn [andb].
  destruct (sync_fields v q (set_snapshots (currentSnapshot (rt w)) (map_set (projectSnapshots (rt w)) q v) (rt w)))
    as (E1 & E2 & E3).
  split_and!; cbn [rt control].
  - by rewrite E1.
  - rewrite E2. cbn. by rewrite map_get_set, decide_False.
  - split; [done|]. cbn [rt]. rewrite E3. done.
Qed.

Lemma install_own v w : faithful w →
  settled v (Build_World (install_snapshot options env (ro_projectId options) v (rt w)) (control w) (calls w)).
Proof.
  intros [Hf Ha]. unfold install_snapshot. rewrite jstr_eqb_refl. cbn [andb].
  destruct (sync_fields v (ro_projectId options)
    (set_snapshots (currentSnapshot (rt w)) (map_set (projectSnapshots (rt w)) (ro_projectId options) v) (rt w))) as (E1 & E2 & E3).
  destruct (_ && _); (split_and!; [done|cbn; rewrite E2; cbn; by rewrite map_get_set, decide_True|split; [done|cbn; by rewrite E3]]).
Qed.

Lemma settled_adopt snap q existing res : q ≠ ro_projectId options →
  st_keeps (settled snap) (adopt_response options env q existing res).
Proof.
  intros Hq. unfold adopt_response. apply keeps_bind; [by intros w|]. intros r.
  destruct (isClosed r); [apply keeps_ret|]. destruct (_ =? _); [|apply keeps_ret].
  apply keeps_bind; [apply keeps_lift|intros payload]. apply keeps_bind; [apply keeps_lift|intros v].
  destruct (match existing with None => true | Some e => newer v e end); [|apply keeps_ret].
  apply keeps_bind; [apply keeps_modify; intros w; by apply install_other|]. intros _.
  apply keeps_bind; [apply settled_prewarm|intros _; apply keeps_ret].
Qed.

Lemma settled_fetch_other snap q : q ≠ ro_projectId options →
  st_keeps (settled snap) (fetchSnapshotForProject options env q).
Proof.
  intros Hq. unfold fetchSnapshotForProject. destruct (control_base options) as [base|]; [|apply keeps_ret].
  apply keeps_bind; [by intros w|]. intros r.
  apply keeps_bind; [|intros [x|e]; apply keeps_ret]. apply keeps_try.
  apply keeps_lift_bind. intros req Hreq. apply keeps_bind; [|intros res; by apply settled_adopt].
  unfold snapshot_request in Hreq. destruct (encodeURIComponent q) as [e|]; [|done]. injection Hreq as <-.
  apply settled_ask. right. left. by exists e.
Qed.

Lemma settled_discover snap base : st_keeps (settled snap) (discover_projects options env base).
Proof.
  unfold discover_projects. apply keeps_bind; [apply settled_ask; by left|]. intros pRes.
  apply keeps_bind; [by intros w|]. intros r. destruct (_ && _); [|apply keeps_ret].
  apply keeps_bind; [apply keeps_lift|]. intros data. destruct (listed_projects data) as [projects|]; [|apply keeps_ret].
  apply keeps_bind.
  - apply keeps_modify. intros w (Hc & Hs & Hf). split_and!; [done| |done]. cbn. unfold drop_inactive. cbn.
    rewrite map_get_filter_kept; [done|]. intros v. by left.
  - intros _. apply keeps_for_each. intros q _. destruct (jstr_eqb q (ro_projectId options)) eqn:E; [apply keeps_ret|].
    apply keeps_bind; [|intros _; apply keeps_ret]. apply settled_fetch_other. by apply jstr_eqb_neq.
Qed.

(** *** The daemon's own project *)

Lemma version_number v : ValidSnapshot v →
  ∃ q n, prop v (js "version") = JNum (Fin q) ∧ (q == inject_Z n)%Q ∧ 0 < n ∧ version_text v = string_of_nat n.
Proof.
  intros [_ _ (q & n & Hv & Hq & Hn) _ _ _]. exists q, n. split_and!; [done|done|lia|].
  unfold version_text. rewrite Hv. f_equal. rewrite Hq. apply Qround.Qfloor_Z.
Qed.

(** A newer snapshot has another entity tag. *)
Lemma newer_tag v old : ValidSnapshot v → ValidSnapshot old → newer v old = true →
  isEtagMatch (quoted (version_text old)) (quoted (version_text v)) = false.
Proof.
  intros (q & n & Hv & Hq & Hn & ->)%version_number (q' & n' & Hv' & Hq' & Hn' & ->)%version_number.
  unfold newer. rewrite Hv, Hv'. intros Hlt%q_ltb_lt. rewrite Hq, Hq', <-Zlt_Qlt in Hlt.
  rewrite isEtagMatch_quoted by lia. apply bool_decide_eq_false. lia.
Qed.

Lemma newer_json v old : val_wf v → ValidSnapshot v → newer (json_value v) old = newer v old.
Proof.
  intros Hwf (q & n & Hv & _)%version_number. unfold newer. by rewrite prop_json, Hv by done.
Qed.

(** What the control plane serves is adopted, when it is valid and newer. *)
Lemma fetch_own w base e snap :
  control_base options = Some base → isClosed (rt w) = false → faithful w →
  jstr_wf (ro_projectId options) → ro_projectId options ≠ [] → encodeURIComponent (ro_projectId options) = Ok e →
  project_snapshot cenv (ro_projectId options) (control w) = (control w, Ok snap) →
  val_wf snap → ValidSnapshot snap →
  (∀ old, currentSnapshot (rt w) = Some old → ValidSnapshot old ∧ newer snap old = true) →
  settled (json_value snap) (fetchSnapshotForProject options env (ro_projectId options) w).1.
Proof.
  intros Hb Hcl Hf Hwf Hne He Hsnap Hv Hr Hold. unfold fetchSnapshotForProject. rewrite Hb.
  unfold get_rt. unfold st_bind at 1. cbv beta iota. unfold existing_snapshot. rewrite jstr_eqb_refl.
  unfold snapshot_request. rewrite He. cbn [result_bind mbind].
  match goal with |- context [get_request base ?path ?hs] =>
    destruct (ask_snapshot coptions cenv text_of error_message login_page base (ro_projectId options) e hs (control w) (control w) snap)
      as [rhs Hask]; [done|done|done|done| |] end.
  { destruct (currentSnapshot (rt w)) as [old|]; [|done]. destruct (Hold old eq_refl). by apply newer_tag. }
  unfold st_bind, st_try, st_lift. unfold on_control. unfold fetch, peer in *.
  change (js "/v1/projects/" ++ e ++ js "/snapshot") with (snapshot_path e). rewrite Hask.
  unfold adopt_response, get_rt. unfold st_bind at 1. cbv beta iota. cbn [rt]. rewrite Hcl.
  cbn [p_status p_content read_json]. change (200 =? 200) with true. unfold st_bind, st_lift. cbv beta iota.
  assert (validateRoutingSnapshot (json_value snap) = Ok (json_value snap)) as ->.
  { apply validated_ok. by apply RoutingSnapshot_json. }
  assert (match currentSnapshot (rt w) with None => true | Some e0 => newer (json_value snap) e0 end = true) as ->.
  { destruct (currentSnapshot (rt w)) as [old|]; [|done]. rewrite newer_json by done. by apply Hold. }
  unfold on_rt, st_modify. cbv beta iota. cbn [rt control calls].
  match goal with |- context [prewarmSnapshotFunctions ?o ?v ?q ?w1] =>
    pose proof (settled_prewarm (json_value snap) v q w1) as Hpre;
    destruct (prewarmSnapshotFunctions o v q w1) as [w2 [[]|err]] end;
  (apply Hpre; apply (install_own (json_value snap) (Build_World (rt w) (control w) (calls w))); destruct w; exact Hf).
Qed.

Lemma poll_settles w base e snap :
  control_base options = Some base → isClosed (rt w) = false → faithful w →
  jstr_wf (ro_projectId options) → ro_projectId options ≠ [] → encodeURIComponent (ro_projectId options) = Ok e →
  project_snapshot cenv (ro_projectId options) (control w) = (control w, Ok snap) →
  val_wf snap → ValidSnapshot snap →
  (∀ old, currentSnapshot (rt w) = Some old → ValidSnapshot old ∧ newer snap old = true) →
  settled (json_value snap) (pollControlPlane options env w).1.
Proof.
  intros Hb Hcl Hf Hwf Hne He Hsnap Hv Hr Hold.
  pose proof (fetch_own w base e snap Hb Hcl Hf Hwf Hne He Hsnap Hv Hr Hold) as Hs.
  unfold pollControlPlane, get_rt. unfold st_bind at 1. cbv beta iota. rewrite Hcl.
  unfold st_bind at 1. destruct (fetchSnapshotForProject _ _ _ w) as [w1 [x|err]]; [|done]. rewrite Hb.
  apply (keeps_bind (settled (json_value snap))); [apply keeps_try, settled_discover|intros x0; apply keeps_ret|done].
Qed.
End poll.

(** ** From the deployment to the invocation *)

Lemma map_get_json entries k v : map_wf entries → map_get entries k = Some v → v ≠ JUndef →
  map_get (flat_map json_entry entries) k = Some (json_value v).
Proof.
  intros Hwf Hk Hv. pose proof (json_value_entries entries k Hwf) as Hj. rewrite Hk in Hj.
  destruct (map_get (flat_map json_entry entries) k) as [x|]; [by subst|].
  symmetry in Hj. by destruct (Hv (proj1 (json_value_undef v) Hj)).
Qed.

Lemma snapshot_function_json snap name f :
  val_wf snap → snapshot_function snap name = Some f → f ≠ JUndef →
  snapshot_function (json_value snap) name = Some (json_value f) ∧ val_wf f.
Proof.
  intros Hwf Hf Hu. unfold snapshot_function in *. rewrite prop_json by done.
  pose proof (val_wf_prop snap (js "functions") Hwf) as Hfs.
  destruct (prop snap (js "functions")) as [| | |n| | |entries] eqn:E; try done.
  cbn [object_entries] in Hf. split.
  - cbn [json_value object_entries]. apply (map_get_json entries name f); [apply Hfs|done|done].
  - by eapply val_wf_elem, map_get_elem.
Qed.

Section pipeline.
Context {K Ob A P : Type} `{!Hashing, !JsonParser, !NumberText, ReliableObjects Ob, !KeyStore A, !SharedKv K A, !ContentCodec}.
Context `{!BackupService (backup_state K Ob), !BackupLaws K Ob}.
Context (coptions : Options) (cenv : ControlServer.Env).
Context (text_of : list Z → result exn jstr) (error_message : jstr → jstr)
        (login_page : option jstr → option jstr → option jstr → list Z).

Local Instance pipeline_peer : Peer (Server K Ob A) := control_peer coptions cenv text_of error_message login_page.

(** What an invocation of a function has run, when its code can be loaded *)
Lemma invoke_runs (options : RuntimeServerOptions) env req path x fnSnap depth requestId
    (w w' : World P (Server K Ob A)) code r :
  (load_artifact_code options (prop fnSnap (js "artifactId")) w).2 = Ok code → body_too_large req = false →
  invoke options env req path x fnSnap depth requestId w = (w', r) →
  ∃ inv, i_method inv = h_method req ∧ i_body inv = Bytes <$> h_body req ∧
    calls w' = calls w ++ [Run (deployed_artifact fnSnap code) (get_limits fnSnap) inv].
Proof.
  intros Hl Hb. unfold invoke. unfold st_bind at 1.
  pose proof (quiet_load_artifact_code options w (prop fnSnap (js "artifactId")) w ltac:(done)) as [Hq _].
  destruct (load_artifact_code _ _ w) as [w1 y]. cbn in Hl, Hq. subst y. rewrite Hb.
  unfold run_provider, record_call, st_modify, st_lift. unfold st_bind. cbv beta iota. cbn [rt control calls].
  destruct (e_run _ _ _ _) as [result|e].
  - unfold finish_invocation, on_rt, st_modify, st_bind, st_lift. cbv beta iota zeta. intros [= <- <-].
    eexists. split_and!; cycle 2; [cbn; by rewrite Hq|done|done].
  - intros [= <- <-]. eexists. split_and!; cycle 2; [cbn; by rewrite Hq|done|done].
Qed.

(** C1: What is deployed is what runs (PLAT-3, PLAT-8, PLAT-11), from the
    deployment request to the isolation provider: when a deployment is answered
    with an active revision of a function that is not named __proto__, and an
    open daemon of that project polls a reachable control plane whose snapshot of
    the project is valid and of a strictly higher version than the one the daemon
    holds (or the daemon holds none), then the daemon holds that snapshot, with
    the function's new revision, and an HTTP invocation of that metadata in the
    state the poll leaves, with a body within the limit, makes exactly one run:
    of exactly the deployed bytes, under the artifact's identifier, with the
    request's method and body. The daemon's cache is assumed to hold no other
    bytes under that identifier. Nothing is said of invocations after further
    events, such as evictions from the artifact cache while the control plane is
    down, nor of cron ticks and queue messages. *)
Theorem deployed_runs dreq rid segment s s1 response :
  handle_deploy cenv dreq rid segment s = (s1, Ok response) →
  ∃ body p fn a res,
    parseJsonBody dreq = Ok body ∧
    named_project segment [string_or_empty (prop body (js "project")); string_or_empty (prop body (js "projectId"))] = Ok p ∧
    trimmed_text (prop body (js "functionName")) = Some fn ∧
    deploy_artifact body = Ok a ∧ response = ok_json rid (deploy_result res) ∧
    (dr_active res = true → fn ≠ PROTO → ∃ rev snap,
      r_id rev = dr_revisionId res ∧ r_manifest rev = a_manifest a ∧ project_snapshot cenv p s1 = (s1, Ok snap) ∧
      ∀ options env base e (w w1 : World P (Server K Ob A)) x,
        ro_projectId options = p → jstr_wf p → p ≠ [] → encodeURIComponent p = Ok e →
        control_base options = Some base → isClosed (rt w) = false → control w = s1 →
        (∀ code, map_get (artifactCache (rt w)) (a_id a) = Some code → code = [] ∨ code = artifactBuffer (a_bytes a)) →
        val_wf snap → ValidSnapshot snap →
        (∀ old, currentSnapshot (rt w) = Some old → ValidSnapshot old ∧ newer snap old = true) →
        pollControlPlane options env w = (w1, x) →
        currentSnapshot (rt w1) = Some (json_value snap) ∧
        snapshot_function (json_value snap) fn = Some (json_value (function_metadata rev)) ∧
        ∀ env' req path y depth requestId w2 r,
          body_too_large req = false →
          invoke options env' req path y (json_value (function_metadata rev)) depth requestId w1 = (w2, r) →
          ∃ artifact limits inv,
            calls w2 = calls w1 ++ [Run artifact limits inv] ∧ art_id artifact = JStr (a_id a) ∧
            art_code artifact = artifactBuffer (a_bytes a) ∧
            i_method inv = h_method req ∧ i_body inv = Bytes <$> h_body req).
Proof.
  intros (body & p & fn & a & res & Hb & Hp & Hf & Ha & -> & Hs)%deployment_published.
  exists body, p, fn, a, res. split_and!; try done. intros Hact Hfn.
  destruct (Hs Hact Hfn) as (Hvalid & Hobj & rev & snap & _ & Hid & Hm & Hart & Hserved & Hfun).
  exists rev, snap. split_and!; [done|done|apply Hserved|].
  intros options env base e w w1 x Hown Hwf Hne He Hbase Hcl Hcon Hcache Hv Hr Hold Hpoll.
  assert (faithful (P := P) (sv_stores s1) (a_id a) (artifactBuffer (a_bytes a)) w) as Hfaith
    by (split; [by rewrite Hcon|exact Hcache]).
  pose proof (poll_settles coptions cenv text_of error_message login_page options env (sv_stores s1) (a_id a)
    (artifactBuffer (a_bytes a)) Hvalid Hobj w base e snap) as Hset.
  rewrite Hown, Hcon in Hset.
  specialize (Hset Hbase Hcl Hfaith Hwf Hne He (Hserved cenv) Hv Hr Hold).
  change (pollControlPlane options env w) with (pollControlPlane (Peer0 := pipeline_peer) options env w) in Hset.
  unfold peer in Hset. fold pipeline_peer in Hset. rewrite Hpoll in Hset. destruct Hset as (Hcur & _ & Hf1).
  destruct (snapshot_function_json snap fn (function_metadata rev) Hv Hfun) as [Hfj Hwfm]; [done|].
  split_and!; [done|done|].
  intros env' req path y depth requestId w2 r Hbody Hinv.
  assert (prop (json_value (function_metadata rev)) (js "artifactId") = JStr (a_id a)) as Hid'.
  { rewrite prop_json by done. by rewrite <-Hart. }
  eapply invoke_runs in Hinv as (inv & Him & Hib & Hcalls); [|rewrite Hid'; by eapply load_stored|done].
  eexists _, _, inv. split; [exact Hcalls|]. split; [exact Hid'|done].
Qed.
End pipeline.

(** *** A concrete deployment *)

#[local] Existing Instances ControlSafety.demo_hashing demo_parser demo_numbers demo_keys main_kv demo_backup demo_backup_laws demo_codec.
#[local] Instance shop_peer : Peer (Server (kv_db jsval) (jsmap jstr (list Z)) ApiKeyStore) :=
  control_peer ControlSafety.demo_options demo_env (λ _, Ok []) (λ _, []) (λ _ _ _, []).

(** A test for the well-formedness of a value *)
Fixpoint is_val_wf (v : jsval) : bool :=
  match v with
  | JArr xs => forallb is_val_wf xs
  | JObj entries => bool_decide (map_wf entries) && forallb (λ e, is_val_wf e.2) entries
  | _ => true
  end.
Lemma is_val_wf_spec : ∀ v, is_val_wf v = true → val_wf v.
Proof.
  fix IH 1. intros [| | | | |xs|entries]; try done; cbn.
  - induction xs as [|x xs IHxs]; cbn; [done|]. intros [Hx Hxs]%andb_true_iff. split; [by apply IH|by apply IHxs].
  - intros [Hw%bool_decide_eq_true He]%andb_true_iff. split; [done|]. clear Hw.
    induction entries as [|[k x] entries IHe]; cbn in *; [done|]. apply andb_true_iff in He as [Hx He].
    split; [by apply IH|by apply IHe].
Qed.

(** The control plane after the deployment of web, and what it serves *)
Definition after_deploy : Server (kv_db jsval) (jsmap jstr (list Z)) ApiKeyStore := deployed.1.
Definition deploy_answer : result exn Response := deployed.2.
Definition published_shop : jsval :=
  match (project_snapshot demo_env (js "shop") after_deploy).2 with Ok s => s | Err _ => JUndef end.
(** A daemon of shop that polls it, and a request to the new function *)
Definition starting : World jstr (Server (kv_db jsval) (jsmap jstr (list Z)) ApiKeyStore) :=
  Build_World (new_runtime fresh_limiter None []) after_deploy [].
Definition poll_outcome := pollControlPlane shop_options (runtime_env 3) starting.
Definition polled := poll_outcome.1.
Definition run_codes {C} (w : World jstr C) : list (list Z) :=
  omap (λ c, match c with Run a _ _ => Some (art_code a) | Prewarm _ _ => None end) (calls w).
Definition web_served := runtime_handler Ok Router.star_pattern (λ _, []) shop_options (runtime_env 5)
  (get_from (js "shop.test") (js "/web") []) polled.

Theorem deployed_runs_witness :
  run_codes web_served.1 = [[1; 2]] ∧
  currentSnapshot (rt polled) = Some (json_value published_shop) ∧
  is_Some (snapshot_function (json_value published_shop) (js "web")).
Proof.
  split; [vm_compute; reflexivity|].
  pose proof (surjective_pairing deployed : deployed = (after_deploy, deploy_answer)) as E.
  assert (reported_active deploy_answer = true) as Hact by (vm_compute; reflexivity).
  revert E Hact. generalize deploy_answer as answer. intros [r|err] E Hact; [|discriminate].
  destruct (deployed_runs (P := jstr) ControlSafety.demo_options demo_env (λ _, Ok []) (λ _, []) (λ _ _ _, [])
    deploy_request (js "r") (Some (js "shop")) demo_server after_deploy r E)
    as (body & p & fn & a & res & Hb & Hp & Hf & _ & -> & Hs).
  assert (parseJsonBody deploy_request = Ok deploy_body) as Hb' by (vm_compute; reflexivity).
  rewrite Hb in Hb'. apply Ok_inj in Hb' as ->.
  assert (trimmed_text (prop deploy_body (js "functionName")) = Some (js "web")) as Hf' by (vm_compute; reflexivity).
  rewrite Hf in Hf'. injection Hf' as ->.
  assert (named_project (Some (js "shop")) [string_or_empty (prop deploy_body (js "project"));
            string_or_empty (prop deploy_body (js "projectId"))] = Ok (js "shop")) as Hp' by (vm_compute; reflexivity).
  rewrite Hp in Hp'. apply Ok_inj in Hp' as ->.
  destruct Hs as (rev & snap & _ & _ & Hsnap & Hrun).
  { change (truthy (JBool (dr_active res)) = true) in Hact. exact Hact. }
  { vm_compute. discriminate. }
  assert (snap = published_shop) as -> by (unfold published_shop; rewrite Hsnap; reflexivity).
  destruct (Hrun shop_options (runtime_env 3) (js "http://control") (js "shop")
    starting polled poll_outcome.2) as (Hcur & Hfun & _).
  - reflexivity.
  - unfold jstr_wf. apply (bool_decide_unpack _). vm_compute. exact I.
  - discriminate.
  - vm_compute. reflexivity.
  - vm_compute. reflexivity.
  - reflexivity.
  - reflexivity.
  - intros code. discriminate.
  - apply is_val_wf_spec. vm_compute. reflexivity.
  - apply bad_snapshot_spec. vm_compute. reflexivity.
  - discriminate.
  - unfold polled, poll_outcome, shop_peer, pipeline_peer. apply surjective_pairing.
  - split; [exact Hcur|]. rewrite Hfun. eexists. reflexivity.
Defined.
