(* ===== verification/Gateway.v ===== *)
(** * The ingress gateway ([apps/gateway/gateway-server.ts], PLAT-1, PLAT-9, PLAT-12, PLAT-14)

    The request handler of [startGatewayServer]: the request identifier, the
    rate-limit tiers, the choice of the upstream and the forwarded request.  The
    upstream services are one [Peer], addressed by origin.  The parsing of an
    absolute URL is a parameter, and so is that of a [Location], with its query; a
    reference that begins with two slashes is resolved as the platform resolves it.
    [fetch] follows redirects.  The listening socket is not modelled. *)

From S2P Require Import Prelude JsString JsMap JsNumber JsValue Errors Utf8 Uri Http Ulid RateLimit.
From S2P Require Import Packager Router Cron Deployment Snapshot SnapshotCache ApiKeys AuthMiddleware SnapshotDistribution.
From S2P Require Import ControlServer RuntimeServer RuntimeSafety.
From Stdlib Require Import QArith.

Open Scope Z_scope.
Open Scope railfog_scope.

(** ** Constants *)

Definition FALLBACK_CLIENT_IP : jstr := js "127.0.0.1".
Definition DEFAULT_RETRY_AFTER_SECONDS : Z := 1.
Definition PRUNE_INTERVAL_MS : Z := 60000.
Definition DEFAULT_MAX_IDLE_MS : Z := 60000.

Record GatewayOptions := { gw_controlPlaneUrl : jstr; gw_dataPlaneUrl : jstr }.

(** The gateway and the services behind it *)
Record Gateway (U : Type) := { gw_limiter : option MultiTenantRateLimiter; upstream : U }.
Arguments Build_Gateway {U}.
Arguments gw_limiter {U}.
Arguments upstream {U}.

(** What a request reads of its surroundings: the clock, the random source, and
    the address of the peer, when it has one *)
Record GatewayEnv := { ge_now : Z; ge_random : list Z; ge_peer : option jstr }.

(** [resolveRequestId(req)] *)
Definition gateway_request_id (env : GatewayEnv) (req : HttpRequest) : jstr :=
  or_header (get_header req (js "x-request-id"))
    (or_header (get_header req (js "request-id")) (generateUlid (ge_now env) (ge_random env))).

(** ** The upstream *)

Section target.
(** [new URL(s)] for an absolute URL: its origin and its path; and the origin of
    the scheme and an authority *)
Context (parse_URL : jstr → result exn (jstr * jstr)) (with_authority : jstr → jstr → result exn jstr).

(** [path.replace(/\/$/, "")] *)
Definition without_slash (path : jstr) : jstr :=
  match rev path with c :: rest => if c =? chr "/" then rev rest else path | [] => [] end.

(** [new URL(path + search, origin)], for a path that begins with a slash: two
    slashes begin an authority, further slashes are skipped. *)
Definition resolve_reference (path search origin : jstr) : result exn Url :=
  if starts_with path (js "//") then
    let rest := drop_slashes path in
    with_authority origin (cut_at (chr "/") rest) ≫= λ o,
    Ok {| u_origin := o; u_pathname := or_else (drop (length (cut_at (chr "/") rest)) rest) (js "/"); u_search := search |}
  else Ok {| u_origin := origin; u_pathname := path; u_search := search |}.

Definition resolveTargetUrl (options : GatewayOptions) (req : HttpRequest) : result exn Url :=
  parse_URL (if isControlPlanePath (h_pathname req) then gw_controlPlaneUrl options else gw_dataPlaneUrl options) ≫= λ base,
  resolve_reference (without_slash base.2 ++ h_pathname req) (h_search req) base.1.

(** ** Rate limits *)

Section gateway.
Context {U : Type} `{!Peer U, !Hashing}.
Context (resolve_location : jstr → HttpRequest → result exn (Url * jsmap jstr jstr)).
Context (options : GatewayOptions) (env : GatewayEnv).

Definition is_loopback (peer : jstr) : bool :=
  jstr_eqb peer (js "127.0.0.1") || jstr_eqb peer (js "::1") || jstr_eqb peer (js "localhost").

(** The address that the IP tier charges *)
Definition edge_ip (req : HttpRequest) : jstr :=
  let peer := default FALLBACK_CLIENT_IP (ge_peer env) in
  let forwardedIp := (λ f, trim (cut_at (chr ",") f)) <$> get_header req (js "x-forwarded-for") in
  if is_loopback peer then or_header forwardedIp peer else peer.

(** A header that is present and not empty *)
Definition truthy_header (req : HttpRequest) (name : jstr) : option jstr :=
  match get_header req name with Some ((_ :: _) as v) => Some v | _ => None end.

(** The decision, and [true] for the decision that no tier was asked for *)
Definition evaluateRateLimits (req : HttpRequest) (l : MultiTenantRateLimiter)
    : MultiTenantRateLimiter * RateLimitDecision :=
  let unasked := {| d_allowed := true; d_remaining := 1; d_limit := 1; d_resetMs := 0; d_retryAfterSeconds := None |} in
  let authHeader := truthy_header req (js "authorization") in
  let projectId := truthy_header req (js "x-project-id") in
  match authHeader, projectId with
  | None, None => check l ip (edge_ip req) (ge_now env)
  | _, _ =>
      let '(l, byIdentity) :=
        match authHeader with
        | Some h => let '(l, d) := check l identity (hashApiToken h) (ge_now env) in (l, Some d)
        | None => (l, None)
        end in
      match byIdentity, projectId with
      | Some d, None => (l, d)
      | None, None => (l, unasked)
      | Some d, Some p => if d_allowed d then check l project p (ge_now env) else (l, d)
      | None, Some p => check l project p (ge_now env)
      end
  end.

(** ** Forwarding *)

(** Headers a client has no business with *)
Definition STRIPPED : list jstr := Eval vm_compute in
  [js "x-forwarded-by"; js "x-railfog-trigger"; js "x-railfog-call-depth"; js "x-railfog-invocation-id"].

Definition upstreamHeaders (headers : Headers) (requestId : jstr) : Headers :=
  map_set (map_set (map_set (fold_left map_delete STRIPPED headers) (js "x-request-id") requestId)
             (js "request-id") requestId) (js "x-forwarded-by") (js "railfog-gateway").

(** [host] of an origin: what follows the scheme *)
Definition origin_host (origin : jstr) : jstr :=
  match index_of origin (js "://") with Some n => drop (n + 3) origin | None => origin end.

Definition forwarded (req : HttpRequest) (target : Url) (requestId : jstr) : HttpRequest :=
  {| h_method := h_method req; h_origin := u_origin target; h_host := origin_host (u_origin target);
     h_pathname := u_pathname target; h_search := u_search target; h_query := h_query req;
     h_headers := upstreamHeaders (h_headers req) requestId;
     h_body := if jstr_eqb (h_method req) (js "GET") || jstr_eqb (h_method req) (js "HEAD") then None else h_body req |}.

Definition gateway_error (status : Z) (code message requestId : jstr) (more : Headers) : HttpResponse :=
  {| p_status := status; p_headers := fold_left (λ h e, map_set h e.1 e.2) more (json_headers requestId);
     p_content := error_content code message requestId [] |}.

(** The response to the client: what the upstream answered, under the request's
    identifier *)
Definition relayed (res : HttpResponse) (requestId : jstr) : result exn HttpResponse :=
  new_Response (p_status res)
    (map_set (map_set (p_headers res) (js "x-request-id") requestId) (js "request-id") requestId)
    (if (p_status res =? 204) || (p_status res =? 304) then NoContent else p_content res).

Definition upstream_unavailable (requestId : jstr) : HttpResponse :=
  gateway_error 503 (js "UNAVAILABLE") (js "Upstream service unavailable.") requestId [].

(** [fetch] follows redirects, which is its default: the next request, if the answer
    is a redirect, or the error of one that cannot be followed.  The body of a request
    is a stream here, which cannot be sent twice; an answer 303, or 301 and 302 to a
    POST, makes the next one a GET; another origin does not get [authorization]. *)
Definition is_redirect (status : Z) : bool := existsb (Z.eqb status) [301; 302; 303; 307; 308].
Definition BODY_HEADERS : list jstr := Eval vm_compute in
  [js "content-encoding"; js "content-language"; js "content-location"; js "content-type"].
Definition redirected (req : HttpRequest) (res : HttpResponse) : option (result exn HttpRequest) :=
  match map_get (p_headers res) (js "location") with
  | Some location =>
      if is_redirect (p_status res) then
        Some (resolve_location location req ≫= λ next,
          throw_if (negb (p_status res =? 303) && match h_body req with Some _ => true | None => false end) TypeError ≫= λ _,
          let as_get := ((p_status res =? 301) || (p_status res =? 302)) && jstr_eqb (h_method req) (js "POST") ||
                        (p_status res =? 303) && negb (jstr_eqb (h_method req) (js "GET") || jstr_eqb (h_method req) (js "HEAD")) in
          let dropped := (if as_get then BODY_HEADERS else []) ++
                         (if jstr_eqb (u_origin next.1) (h_origin req) then [] else [js "authorization"]) in
          Ok {| h_method := if as_get then js "GET" else h_method req; h_origin := u_origin next.1;
                h_host := origin_host (u_origin next.1); h_pathname := u_pathname next.1; h_search := u_search next.1;
                h_query := next.2; h_headers := fold_left map_delete dropped (h_headers req);
                h_body := if as_get then None else h_body req |})
      else None
  | None => None
  end.

Definition MAX_REDIRECTS : nat := 20.
Fixpoint fetch_follow (redirects : nat) (req : HttpRequest) : stm U exn HttpResponse := λ u,
  match fetch req u with
  | (u, Err e) => (u, Err e)
  | (u, Ok res) =>
      match redirected req res, redirects with
      | None, _ => (u, Ok res)
      | Some (Err e), _ => (u, Err e)
      | Some (Ok _), O => (u, Err TypeError)
      | Some (Ok next), S redirects => fetch_follow redirects next u
      end
  end.

(** [fetch], then the response; an exception of either is a 503. *)
Definition proxyRequest (req : HttpRequest) (target : Url) (requestId : jstr) : stm U exn HttpResponse :=
  outcome <~ st_try (res <~ fetch_follow MAX_REDIRECTS (forwarded req target requestId) ;; st_lift (relayed res requestId)) ;;
  st_ret match outcome with Ok response => response | Err _ => upstream_unavailable requestId end.

Definition rejection (d : RateLimitDecision) (requestId : jstr) : HttpResponse :=
  gateway_error 429 (js "RATE_LIMITED") (js "Rate limit exceeded. Please retry after specified delay.") requestId
    [(js "retry-after", string_of_nat (default DEFAULT_RETRY_AFTER_SECONDS (d_retryAfterSeconds d)))].

(** The decision of the limiter, where there is one *)
Definition limit_request (req : HttpRequest) (l : option MultiTenantRateLimiter)
    : option MultiTenantRateLimiter * option RateLimitDecision :=
  match l with
  | Some l => let '(l, d) := evaluateRateLimits req l in (Some l, if d_allowed d then None else Some d)
  | None => (None, None)
  end.

Definition gateway_handler (req : HttpRequest) : stm (Gateway U) exn HttpResponse := λ g,
  let requestId := gateway_request_id env req in
  match limit_request req (gw_limiter g) with
  | (l, Some d) => (Build_Gateway l (upstream g), Ok (rejection d requestId))
  | (l, None) =>
      match resolveTargetUrl options req with
      | Err e => (Build_Gateway l (upstream g), Err e)
      | Ok target => let '(u, r) := proxyRequest req target requestId (upstream g) in (Build_Gateway l u, r)
      end
  end.

(** The interval that prunes idle buckets *)
Definition prune_tick (g : Gateway U) : Gateway U :=
  Build_Gateway ((λ l, (gateway_prune l DEFAULT_MAX_IDLE_MS (ge_now env)).1) <$> gw_limiter g) (upstream g).
End gateway.
End target.

(** ** Charges *)

Section charges.
Context `{!Hashing} (env : GatewayEnv).

(** The buckets that a request is charged to *)
Definition charged (req : HttpRequest) : list (RateLimitScope * jstr) :=
  match truthy_header req (js "authorization"), truthy_header req (js "x-project-id") with
  | None, None => [(ip, edge_ip env req)]
  | Some h, None => [(identity, hashApiToken h)]
  | None, Some p => [(project, p)]
  | Some h, Some p => [(identity, hashApiToken h); (project, p)]
  end.

Lemma check_other l s k now s' k' : (s', k') ≠ (s, k) →
  balance (check l s k now).1 s' k' now = balance l s' k' now.
Proof.
  intros Hne. destruct (check_spec l s k now) as (Hb & Hc & _). unfold balance.
  rewrite Hb, Hc, map_get_set, decide_False; [done|]. by apply bucketKey_ne, not_eq_sym.
Qed.

Lemma check_buckets l s k now q : q ≠ bucketKey s k →
  map_get (g_buckets (check l s k now).1) q = map_get (g_buckets l) q.
Proof. intros Hq. destruct (check_spec l s k now) as (-> & _). by rewrite map_get_set, decide_False by done. Qed.

(** Every admitted request is paid for (PLAT-9, PLAT-15): a request is charged
    to the bucket of its token's hash, the bucket of the project it names, both,
    or, when it has neither, the bucket of its address, which is the peer's own
    whatever the client claims unless the peer is the local host; it is admitted
    exactly when each of these buckets has a token left, and no other bucket
    changes. *)
Theorem gateway_charges req l l' d :
  evaluateRateLimits env req l = (l', d) →
  (d_allowed d = true ↔
   Forall (λ e, (1 <= balance l e.1 e.2 (ge_now env))%Q) (charged req)) ∧
  (∀ q, q ∉ map (λ e, bucketKey e.1 e.2) (charged req) → map_get (g_buckets l') q = map_get (g_buckets l) q) ∧
  (∀ peer, ge_peer env = Some peer → is_loopback peer = false → edge_ip env req = peer).
Proof.
  intros E. split_and!; [| |by intros peer Hp Hl; unfold edge_ip; rewrite Hp; cbn; rewrite Hl].
  - assert (∀ s k, d_allowed (check l s k (ge_now env)).2 = true ↔ (1 <= balance l s k (ge_now env))%Q) as Hone.
    { intros s k. destruct (check_spec l s k (ge_now env)) as (_ & _ & -> & _). apply Qle_bool_iff. }
    unfold evaluateRateLimits in E. unfold charged.
    destruct (truthy_header req (js "authorization")) as [h|], (truthy_header req (js "x-project-id")) as [p|].
    + pose proof (Hone identity (hashApiToken h)) as H1'.
      pose proof (check_other l identity (hashApiToken h) (ge_now env) project p ltac:(done)) as Hb.
      destruct (check l identity (hashApiToken h) (ge_now env)) as [l1 d1]. cbn [fst snd] in *.
      destruct (d_allowed d1) eqn:Ed.
      * destruct (check_spec l1 project p (ge_now env)) as (_ & _ & Hd & _). rewrite E in Hd. cbn [snd] in Hd.
        rewrite Hd, Hb, Qle_bool_iff, !Forall_cons. cbn [fst snd]. split; [|tauto].
        intros. split_and!; [by apply H1'|done|constructor].
      * injection E as _ <-. rewrite Ed, !Forall_cons. cbn [fst snd]. rewrite <-H1'. naive_solver.
    + pose proof (Hone identity (hashApiToken h)) as H1'.
      destruct (check l identity (hashApiToken h) (ge_now env)) as [l1 d1]. injection E as _ <-. cbn [snd] in H1'.
      rewrite H1', Forall_singleton. done.
    + specialize (Hone project p). rewrite E in Hone. by rewrite Forall_singleton.
    + specialize (Hone ip (edge_ip env req)). rewrite E in Hone. by rewrite Forall_singleton.
  - intros q. unfold evaluateRateLimits in E. unfold charged.
    destruct (truthy_header req (js "authorization")) as [h|], (truthy_header req (js "x-project-id")) as [p|]; cbn [map fst snd];
      rewrite ?not_elem_of_cons; intros Hq.
    + pose proof (check_buckets l identity (hashApiToken h) (ge_now env) q (proj1 Hq)) as H1'.
      destruct (check l identity (hashApiToken h) (ge_now env)) as [l1 d1]. cbn [fst] in H1'.
      destruct (d_allowed d1); [|by injection E as <- _].
      pose proof (check_buckets l1 project p (ge_now env) q ltac:(tauto)) as H2'. rewrite E in H2'. cbn in H2'. congruence.
    + pose proof (check_buckets l identity (hashApiToken h) (ge_now env) q (proj1 Hq)) as H1'.
      destruct (check l identity (hashApiToken h) (ge_now env)) as [l1 d1]. by injection E as <- _.
    + pose proof (check_buckets l project p (ge_now env) q (proj1 Hq)) as H1'. by rewrite E in H1'.
    + pose proof (check_buckets l ip (edge_ip env req) (ge_now env) q (proj1 Hq)) as H1'. by rewrite E in H1'.
Qed.
End charges.

(** ** What reaches the upstream *)

Lemma upstreamHeaders_spec headers requestId k :
  map_get (upstreamHeaders headers requestId) k =
  if decide (k = js "x-forwarded-by") then Some (js "railfog-gateway")
  else if decide (k = js "request-id" ∨ k = js "x-request-id") then Some requestId
  else if decide (k ∈ STRIPPED) then None else map_get headers k.
Proof.
  unfold upstreamHeaders. rewrite !map_get_set, map_get_fold_delete.
  repeat case_decide; try done; naive_solver.
Qed.

Section forwarding.
Context {U : Type} `{!Peer U, !Hashing}.
Context (parse_URL : jstr → result exn (jstr * jstr)) (with_authority : jstr → jstr → result exn jstr).
Context (resolve_location : jstr → HttpRequest → result exn (Url * jsmap jstr jstr)).
Context (options : GatewayOptions) (env : GatewayEnv).

(** Where the gateway forwards to: the origin of the control plane for its paths,
    of the data plane for all others; unless the path begins with two slashes. *)
Lemma target_confined req c cpath d dpath :
  parse_URL (gw_controlPlaneUrl options) = Ok (c, cpath) → parse_URL (gw_dataPlaneUrl options) = Ok (d, dpath) →
  let base := without_slash (if isControlPlanePath (h_pathname req) then cpath else dpath) in
  starts_with (base ++ h_pathname req) (js "//") = false →
  resolveTargetUrl parse_URL with_authority options req =
    Ok {| u_origin := if isControlPlanePath (h_pathname req) then c else d; u_pathname := base ++ h_pathname req;
          u_search := h_search req |}.
Proof.
  intros Hc Hd. cbv zeta. unfold resolveTargetUrl, resolve_reference.
  destruct (isControlPlanePath _); rewrite ?Hc, ?Hd; cbn; by intros ->.
Qed.

(** A path that begins with two slashes names the host that the gateway asks. *)
Lemma open_proxy req d o host rest :
  parse_URL (gw_dataPlaneUrl options) = Ok (d, js "/") → with_authority d host = Ok o →
  isControlPlanePath (h_pathname req) = false → h_pathname req = js "//" ++ host ++ js "/" ++ rest →
  chr "/" ∉ host → host ≠ [] →
  resolveTargetUrl parse_URL with_authority options req =
    Ok {| u_origin := o; u_pathname := js "/" ++ rest; u_search := h_search req |}.
Proof.
  intros Hd Ho Hc Hp Hh Hne. unfold resolveTargetUrl. rewrite Hc, Hd. cbn [mbind result_bind fst snd].
  change (without_slash (js "/")) with (@nil Z). cbn [app]. unfold resolve_reference. rewrite Hp, starts_with_app.
  assert (drop_slashes (js "//" ++ host ++ js "/" ++ rest) = host ++ js "/" ++ rest) as ->.
  { destruct host as [|x host]; [done|]. apply not_elem_of_cons in Hh as [Hx _].
    change (drop_slashes ((x :: host) ++ js "/" ++ rest) = (x :: host) ++ js "/" ++ rest). cbn [app drop_slashes].
    by rewrite (proj2 (Z.eqb_neq x (chr "/"))) by congruence. }
  assert (cut_at (chr "/") (host ++ js "/" ++ rest) = host) as ->.
  { unfold cut_at. change (host ++ js "/" ++ rest) with (host ++ chr "/" :: rest). by rewrite split_on_app. }
  rewrite Ho. cbn. by rewrite drop_app_length.
Qed.

(** The identifier of the request in a response *)
Definition answers_as (requestId : jstr) (res : HttpResponse) : Prop :=
  map_get (p_headers res) (js "x-request-id") = Some requestId ∧ map_get (p_headers res) (js "request-id") = Some requestId.

(** The gateway forwards faithfully or not at all (PLAT-1, PLAT-9, PLAT-12,
    PLAT-14): a request that a rate limit rejects does not reach the upstream and
    is answered 429 with the limiter's delay; any other one reaches it, and
    again for each redirect that is followed, first with its method, its query and its headers, except that the gateway's
    own identifier, request id and forwarding marks replace or remove the
    client's; the client gets the upstream's status, content and headers, or 503
    when the upstream fails; and every answer carries the request's identifier. *)
Theorem gateway_forwards req (g g' : Gateway U) r :
  gateway_handler parse_URL with_authority resolve_location options env req g = (g', r) →
  let requestId := gateway_request_id env req in
  match (limit_request env req (gw_limiter g)).2 with
  | Some d =>
      upstream g' = upstream g ∧ ∃ res, r = Ok res ∧ p_status res = 429 ∧ answers_as requestId res ∧
        map_get (p_headers res) (js "retry-after") =
          Some (string_of_nat (default DEFAULT_RETRY_AFTER_SECONDS (d_retryAfterSeconds d)))
  | None =>
      match resolveTargetUrl parse_URL with_authority options req with
      | Err e => upstream g' = upstream g ∧ r = Err e
      | Ok target =>
          ∃ fwd res,
            upstream g' = (fetch_follow resolve_location MAX_REDIRECTS fwd (upstream g)).1 ∧ r = Ok res ∧ answers_as requestId res ∧
            h_method fwd = h_method req ∧ h_query fwd = h_query req ∧ h_origin fwd = u_origin target ∧
            h_pathname fwd = u_pathname target ∧ h_search fwd = u_search target ∧
            (h_method req ≠ js "GET" → h_method req ≠ js "HEAD" → h_body fwd = h_body req) ∧
            (∀ k, get_header fwd k =
               if decide (k = js "x-forwarded-by") then Some (js "railfog-gateway")
               else if decide (k = js "request-id" ∨ k = js "x-request-id") then Some requestId
               else if decide (k ∈ STRIPPED) then None else get_header req k) ∧
            match (fetch_follow resolve_location MAX_REDIRECTS fwd (upstream g)).2 with
            | Ok answer =>
                if (200 <=? p_status answer) && (p_status answer <=? 599) then
                  p_status res = p_status answer ∧
                  p_content res = (if (p_status answer =? 204) || (p_status answer =? 304) then NoContent else p_content answer) ∧
                  ∀ k, k ≠ js "x-request-id" → k ≠ js "request-id" →
                    map_get (p_headers res) k = map_get (p_headers answer) k
                else p_status res = 503
            | Err _ => p_status res = 503
            end
      end
  end.
Proof.
  intros E. cbv zeta. unfold gateway_handler in E. cbv zeta in E. set (requestId := gateway_request_id env req) in *.
  assert (answers_as requestId (upstream_unavailable requestId)) as Hun by by split.
  destruct (limit_request env req (gw_limiter g)) as [l [d|]]; cbn [snd].
  { injection E as <- <-. split; [done|]. eexists. by split_and!. }
  destruct (resolveTargetUrl _ _ _ _) as [target|e]; [|by injection E as <- <-].
  set (fwd := forwarded req target requestId) in *. unfold proxyRequest in E. fold fwd in E.
  assert (∀ k, get_header fwd k = if decide (k = js "x-forwarded-by") then Some (js "railfog-gateway")
     else if decide (k = js "request-id" ∨ k = js "x-request-id") then Some requestId
     else if decide (k ∈ STRIPPED) then None else get_header req k) as Hh by (intros k; apply upstreamHeaders_spec).
  assert (h_method req ≠ js "GET" → h_method req ≠ js "HEAD" → h_body fwd = h_body req) as Hb.
  { intros H1' H2'. cbn [fwd forwarded h_body]. by rewrite !(proj2 (jstr_eqb_neq _ _)) by done. }
  unfold st_bind, st_try, st_ret, st_lift in E. exists fwd.
  destruct (fetch_follow resolve_location MAX_REDIRECTS fwd (upstream g)) as [u [answer|e]]; [|injection E as <- <-; eexists; by split_and!].
  cbn [fst snd]. unfold relayed, new_Response in E. destruct (_ && _) in E |- *; injection E as <- <-; eexists.
  - split_and!; try done.
    + split; cbn [p_headers]; rewrite !map_get_set; repeat case_decide; done.
    + intros k H1' H2'. cbn [p_headers]. rewrite !map_get_set. repeat case_decide; congruence.
  - by split_and!.
Qed.
End forwarding.

(** ** The gateway in front of the daemon *)

Section composition.
Context {P C E : Type} `{!Peer C, !Peer E, !Hashing, !ContentCodec, !NumberText}.
Context (new_URLPattern : jstr → result exn P) (url_test : P → jstr → bool) (error_text : exn → jstr).
Context (roptions : RuntimeServerOptions) (renv : World P C → RuntimeEnv) (at_daemon : jstr → bool).
Context (parse_URL : jstr → result exn (jstr * jstr)) (with_authority : jstr → jstr → result exn jstr).
Context (resolve_location : jstr → HttpRequest → result exn (Url * jsmap jstr jstr)).
Context (options : GatewayOptions) (env : GatewayEnv).

(** The daemon at its origin, and anything else at the others; what the daemon reads
    of its surroundings may differ from request to request. *)
Local Instance services_peer : Peer (World P C * E) := λ req u,
  if at_daemon (h_origin req) then
    let '(w, r) := runtime_handler new_URLPattern url_test error_text roptions (renv u.1) req u.1 in ((w, u.2), r)
  else let '(e, r) := fetch req u.2 in ((u.1, e), r).

(** The marks of the gateway on what it forwards, and on what it asks after a redirect *)
Definition marked (given : jstr) (q : HttpRequest) : Prop :=
  get_header q (js "x-forwarded-by") = Some (js "railfog-gateway") ∧ get_header q (js "x-request-id") = Some given ∧
  get_header q (js "x-railfog-call-depth") = None ∧ get_header q (js "x-railfog-invocation-id") = None.

Lemma forwarded_marked req target requestId : marked requestId (forwarded req target requestId).
Proof. unfold marked, get_header. cbn [forwarded h_headers]. rewrite !upstreamHeaders_spec. split_and!; reflexivity. Qed.

Lemma redirected_marked given q res next : marked given q → redirected resolve_location q res = Some (Ok next) → marked given next.
Proof.
  unfold redirected. intros (M1 & M2 & M3 & M4). destruct (map_get (p_headers res) (js "location")) as [l|]; [|done].
  destruct (is_redirect _); [|done]. intros [= Hn]. apply bind_Ok in Hn as (u & _ & (? & _ & [= <-])%bind_Ok).
  unfold marked, get_header in *. cbn [h_headers]. rewrite !map_get_fold_delete.
  set (dropped := _ ++ _). assert (∀ k, k ∉ BODY_HEADERS → k ≠ js "authorization" → k ∉ dropped) as Hd.
  { intros k Hk Ha. unfold dropped. rewrite not_elem_of_app. split;
      (match goal with |- _ ∉ (if ?b then _ else _) => destruct b end); try apply not_elem_of_nil; [done|].
    by rewrite list_elem_of_singleton. }
  rewrite !decide_False by (apply Hd; apply (bool_decide_unpack _); vm_compute; exact I). done.
Qed.

Lemma marked_request given q w : marked given q →
  inbound_depth q = 0 ∧
  RuntimeServer.resolveRequestId (renv w) q =
    (if isValidUlid (trim given) then trim given else generateUlid (e_now (renv w)) (e_random (renv w))).
Proof.
  intros (_ & Hr & Hd & _). unfold inbound_depth, RuntimeServer.resolveRequestId, get_header in *. rewrite Hd, Hr. split; [done|].
  by destruct given.
Qed.

(** A function that the daemon had the provider run, and the depth it counted for it *)
Record CountedRun := { cn_depth : Z; cn_artifact : Artifact; cn_limits : Limits; cn_invocation : InvocationRequest }.
Definition run_call (x : CountedRun) : provider_call := Run (cn_artifact x) (cn_limits x) (cn_invocation x).

(** What the gateway and the daemon say about a run, under the id that was given *)
Definition genuine (given : jstr) (x : CountedRun) : Prop :=
  let inv := cn_invocation x in
  0 <= cn_depth x < CALL_DEPTH_MAX ∧
  (∃ w, i_requestId inv = if isValidUlid (trim given) then trim given else generateUlid (e_now (renv w)) (e_random (renv w))) ∧
  map_get (i_headers inv) (js "x-railfog-call-depth") = Some (string_of_nat (cn_depth x + 1)) ∧
  map_get (i_headers inv) (js "x-railfog-trigger") = Some (js "http") ∧
  map_get (i_headers inv) (js "x-request-id") = Some (i_requestId inv) ∧
  map_get (i_headers inv) (js "x-forwarded-by") = Some (js "railfog-gateway") ∧
  map_get (i_headers inv) (js "x-railfog-invocation-id") = None.

(** What the daemon has counted for an id *)
Definition counted (requestId : jstr) (w : World P C) : Z := default 0 (map_get (callDepthChains (rt w)) requestId).
Definition chains (w : World P C) : Z := Z.of_nat (length (callDepthChains (rt w))).

(** Requests of one [fetch]: the runs that they made, in order.  Under a ULID, and
    while the daemon does not discard what it has counted, every run finds the count
    at least one higher than the one before. *)
Definition made (given : jstr) (w : World P C) (runs : list CountedRun) (w' : World P C) (requests : nat) : Prop :=
  calls w' = calls w ++ (run_call <$> runs) ∧ (length runs <= requests)%nat ∧ Forall (genuine given) runs ∧
  (isValidUlid (trim given) = true → chains w + Z.of_nat requests <= MAX_CALL_DEPTH_CHAINS →
   chains w' <= chains w + Z.of_nat requests ∧
   counted (trim given) w + Z.of_nat (length runs) <= counted (trim given) w' ∧
   ∀ k x, runs !! k = Some x → counted (trim given) w + Z.of_nat k <= cn_depth x).

Lemma made_none given w : made given w [] w 0.
Proof. split_and!; [by rewrite app_nil_r|done|constructor|]. cbn. intros _ _. split_and!; [lia|lia|done]. Qed.

Lemma made_app given w1 w2 w3 r1 r2 n1 n2 :
  made given w1 r1 w2 n1 → made given w2 r2 w3 n2 → made given w1 (r1 ++ r2) w3 (n1 + n2).
Proof.
  intros (C1 & L1 & F1 & D1) (C2 & L2 & F2 & D2). unfold made. rewrite length_app, fmap_app. split_and!; [|lia|by apply Forall_app|].
  { by rewrite C2, C1, app_assoc. }
  intros Hv Hc. destruct (D1 Hv ltac:(lia)) as (A1 & B1 & K1). destruct (D2 Hv ltac:(lia)) as (A2 & B2 & K2).
  split_and!; [lia|lia|]. intros k x [Hk|[Hk Hk']]%lookup_app_Some; [by apply K1|]. specialize (K2 _ _ Hk'). lia.
Qed.

(** One request of the gateway to the daemon *)
Lemma daemon_hop given q w w' r :
  world_ok new_URLPattern w → marked given q →
  runtime_handler new_URLPattern url_test error_text roptions (renv w) q w = (w', r) →
  world_ok new_URLPattern w' ∧ ∃ runs, made given w runs w' 1.
Proof.
  intros Hw Hm Hr. set (id := RuntimeServer.resolveRequestId (renv w) q). destruct (marked_request given q w Hm) as [Hd Hid]. fold id in Hid.
  assert (runtime_step new_URLPattern url_test error_text roptions w (renv w, Arrives q) = w') as Hstep.
  { unfold runtime_step. cbn [fst snd]. by rewrite Hr. }
  assert (callDepthChains (rt w') = callDepthChains (event_start (renv w) (Arrives q) (rt w))) as Hch by (rewrite <-Hstep; apply step_chains).
  pose proof (runtime_step_ok new_URLPattern url_test error_text roptions w (renv w, Arrives q) Hw) as Hw'. rewrite Hstep in Hw'.
  pose proof (trackedDepth_nonneg new_URLPattern (rt w) id q Hw) as Hnn.
  assert (trackedDepth (rt w) id (inbound_depth q) = counted id w) as Htr by (unfold trackedDepth, counted; by rewrite Hd).
  assert (chains w + Z.of_nat 1 <= MAX_CALL_DEPTH_CHAINS → chains w' <= chains w + Z.of_nat 1 ∧ counted id w' =
    if CALL_DEPTH_MAX <=? counted id w then counted id w else counted id w + 1) as Hcount.
  { intros Hl. unfold chains, counted at 1. rewrite Hch. cbn [event_start]. unfold tracked, trackCallDepth. cbv zeta. fold id.
    rewrite Htr. unfold chains in Hl. rewrite (proj2 (Z.leb_gt MAX_CALL_DEPTH_CHAINS _)) by lia.
    destruct (CALL_DEPTH_MAX <=? counted id w); [split; [lia|done]|].
    cbn [callDepthChains set_chains]. pose proof (length_map_set_le (callDepthChains (rt w)) id (counted id w + 1)).
    split; [lia|]. by rewrite map_get_set, decide_True. }
  split; [done|].
  destruct (handler_calls new_URLPattern url_test error_text roptions (renv w) q w w' r Hw Hr)
    as [Hc|(Hlt & requested & path & y & fnSnap & inv & _ & _ & _ & _ & _ & Hc & Hi & _ & _ & _ & Hh)].
  - exists []. split_and!; [by rewrite Hc, app_nil_r|cbn; lia|constructor|]. intros Hv Hl. destruct (Hcount Hl) as [Hc1 Hc2].
    rewrite Hv in Hid. rewrite Hid in Hc2. split_and!; [done| |done]. rewrite Hc2. cbn [length]. destruct (Z.leb_spec CALL_DEPTH_MAX (counted (trim given) w)); lia.
  - fold id in Hlt, Hi, Hh. rewrite Htr in Hlt, Hh, Hnn. destruct Hm as (M1 & _ & _ & M4).
    eexists [{| cn_depth := counted id w; cn_invocation := inv |}]. split_and!; [exact Hc|done| |].
    + constructor; [|constructor]. split; [done|]. split; [exists w; cbn; by rewrite Hi|].
      cbn [cn_invocation cn_depth]. rewrite Hi, !Hh. split_and!; try reflexivity; [exact M1|exact M4].
    + intros Hv Hl. destruct (Hcount Hl) as [Hc1 Hc2]. rewrite Hv in Hid. rewrite <-Hid. split_and!; [done| |].
      * rewrite Hc2, (proj2 (Z.leb_gt _ _)) by done. cbn. lia.
      * intros [|k] x; [|done]. cbn. intros [= <-]. cbn. lia.
Qed.

(** How many requests one [fetch] sends *)
Fixpoint requests_sent (redirects : nat) (req : HttpRequest) (u : World P C * E) : nat :=
  match fetch req u with
  | (u, Ok res) =>
      match redirected resolve_location req res, redirects with
      | Some (Ok next), S redirects => S (requests_sent redirects next u)
      | _, _ => 1
      end
  | _ => 1
  end.

Lemma requests_sent_bound n : ∀ q u, (1 <= requests_sent n q u <= S n)%nat.
Proof.
  induction n as [|n IH]; intros q u; cbn [requests_sent]; destruct (fetch q u) as [u1 [res|e]]; try lia;
    destruct (redirected _ q res) as [[next|e]|]; try lia. specialize (IH next u1). lia.
Qed.

Lemma follow_runs given n : ∀ q u u' r,
  world_ok new_URLPattern u.1 → marked given q → fetch_follow resolve_location n q u = (u', r) →
  ∃ runs, made given u.1 runs u'.1 (requests_sent n q u).
Proof.
  assert (∀ q u u1 (res : result exn HttpResponse), world_ok new_URLPattern u.1 → marked given q → fetch q u = (u1, res) →
    world_ok new_URLPattern u1.1 ∧ ∃ runs, made given u.1 runs u1.1 1) as Hone.
  { intros q [w e] u1 res Hw Hm Ef. unfold fetch, services_peer in Ef. cbn [fst snd] in *. destruct (at_daemon _).
    - destruct (runtime_handler _ _ _ _ _ _ w) as [w1 r1] eqn:Er. injection Ef as <- <-. by eapply daemon_hop.
    - destruct (fetch q e) as [e1 r1]. injection Ef as <- <-. cbn [fst]. split; [done|]. exists []. split_and!.
      + by rewrite app_nil_r.
      + cbn. lia.
      + constructor.
      + cbn. intros _ _. split_and!; [lia|lia|done]. }
  induction n as [|n IH]; intros q u u' r Hw Hm Eq; cbn [fetch_follow requests_sent] in *;
    destruct (fetch q u) as [u1 res] eqn:Ef; destruct (Hone q u u1 res Hw Hm Ef) as (Hw1 & runs & Hr);
    (destruct res as [res|e]; [|injection Eq as <- <-; by exists runs]);
    destruct (redirected resolve_location q res) as [[next|e]|] eqn:Ered; try (injection Eq as <- <-; by exists runs).
  destruct (IH next u1 u' r Hw1 (redirected_marked given q res next Hm Ered) Eq) as (runs2 & H2).
  exists (runs ++ runs2). by apply (made_app _ _ u1.1 _ _ _ 1).
Qed.

End composition.

(** *** A concrete gateway *)

#[local] Existing Instances RuntimeSafety.demo_hashing demo_codec demo_number_text unreachable.
#[local] Instance shop_services : Peer (World jstr unit * unit) :=
  services_peer Ok Router.star_pattern (λ _, []) shop_options (λ _, runtime_env 5) (jstr_eqb (js "http://data")).

Definition demo_gateway : Gateway (World jstr unit * unit) := {| gw_limiter := Some fresh_limiter; upstream := (shop_daemon, tt) |}.
Definition gateway_options : GatewayOptions :=
  {| gw_controlPlaneUrl := js "http://control"; gw_dataPlaneUrl := js "http://data" |}.
Definition gateway_env : GatewayEnv := {| ge_now := 5; ge_random := demo_bytes; ge_peer := Some (js "203.0.113.9") |}.
Definition parse_origin (s : jstr) : result exn (jstr * jstr) := Ok (s, js "/").
Definition http_authority (o a : jstr) : result exn jstr := Ok (js "http://" ++ a).
(** A request that claims to be deep in a chain of a queue *)
Definition forged_chain : HttpRequest :=
  get_from (js "shop.test") (js "/cart")
    [(js "x-railfog-call-depth", js "7"); (js "x-railfog-trigger", js "queue");
     (js "x-railfog-invocation-id", js "i"); (js "x-request-id", one_id)].
(** Locations that are paths of the same origin *)
Definition same_origin (location : jstr) (req : HttpRequest) : result exn (Url * jsmap jstr jstr) :=
  Ok ({| u_origin := h_origin req; u_pathname := location; u_search := [] |}, []).
Definition through_gateway : Gateway (World jstr unit * unit) * result exn HttpResponse :=
  gateway_handler parse_origin http_authority same_origin gateway_options gateway_env forged_chain demo_gateway.


(** A function that answers 302 to the cart has the cart run too. *)
Definition redirects (a : Artifact) (l : Limits) (i : InvocationRequest) : result exn ExecutionResult :=
  Ok {| x_statusCode := 302; x_headers := [(js "location", js "/cart")]; x_body := []; x_wallClockMs := Fin 1 |}.
Lemma redirects_run_again :
  let env := λ _, {| e_now := 5; e_random := demo_bytes; e_timestamp := [];
     e_date := {| getMinutes := 0; getHours := 0; getDate := 1; getMonth := 0; getDay := 1 |};
     e_elapsed := Fin 1; e_run := redirects; e_diskWritable := true; e_realPath := λ _, None; e_readFile := λ _, Err PlainError |} in
  length (calls (upstream (gateway_handler (Peer0 := services_peer Ok Router.star_pattern (λ _, []) shop_options env (jstr_eqb (js "http://data")))
    parse_origin http_authority same_origin gateway_options gateway_env forged_chain demo_gateway).1).1) = 8%nat.
Proof. vm_compute. reflexivity. Qed.

Theorem gateway_forwards_witness :
  (p_status <$> through_gateway.2) = Ok 200 ∧ ∃ res, through_gateway.2 = Ok res ∧ answers_as one_id res.
Proof.
  split; [vm_compute; reflexivity|].
  assert (gateway_handler parse_origin http_authority same_origin gateway_options gateway_env forged_chain demo_gateway =
    (through_gateway.1, through_gateway.2)) as E by (unfold through_gateway; apply surjective_pairing).
  revert E. generalize through_gateway.1 as g', through_gateway.2 as r. intros g' r E.
  pose proof (gateway_forwards parse_origin http_authority same_origin gateway_options gateway_env forged_chain demo_gateway g' r E) as H.
  cbv zeta in H.
  assert ((limit_request gateway_env forged_chain (gw_limiter demo_gateway)).2 = None) as El by (vm_compute; reflexivity).
  rewrite El in H.
  destruct (resolveTargetUrl parse_origin http_authority gateway_options forged_chain) as [target|e] eqn:Et;
    [|vm_compute in Et; discriminate].
  destruct H as (fwd & res & _ & Hr & Ha & _). exists res. split; [exact Hr|exact Ha].
Defined.

(** A caller whose address has used up its bucket, with and without a header *)
Definition spent : MultiTenantRateLimiter :=
  Nat.iter 20 (λ l, (check l ip (js "203.0.113.9") 5).1) fresh_limiter.
Definition anonymous : HttpRequest := get_from (js "shop.test") (js "/cart") [(js "x-forwarded-for", js "198.51.100.1")].
Definition anyone (token : jstr) : HttpRequest := get_from (js "shop.test") (js "/cart") [(js "authorization", token)].

Theorem gateway_charges_witness :
  let answer := evaluateRateLimits gateway_env anonymous spent in
  d_allowed answer.2 = false ∧
  (d_allowed answer.2 = true ↔ Forall (λ e, (1 <= balance spent e.1 e.2 5)%Q) (charged gateway_env anonymous)) ∧
  edge_ip gateway_env anonymous = js "203.0.113.9".
Proof.
  cbv zeta. destruct (gateway_charges gateway_env anonymous spent (evaluateRateLimits gateway_env anonymous spent).1
    (evaluateRateLimits gateway_env anonymous spent).2) as (Ha & _ & Hip).
  - apply surjective_pairing.
  - split; [vm_compute; reflexivity|]. split; [exact Ha|]. apply Hip; reflexivity.
Defined.

(** A header that nobody verifies gives the same caller a bucket of its own. *)
Lemma unverified_identity_escapes :
  map (λ t, d_allowed (evaluateRateLimits gateway_env (anyone t) spent).2) [js "a"; js "b"; js "c"] = [true; true; true].
Proof. vm_compute. reflexivity. Qed.
