(* ===== verification/EgressProxy.v ===== *)
(** * The egress proxy ([runtime/sandbox/egress-proxy.ts], PLAT-5, FN-5, FN-6)

    The framing of a proxied request on its socket, the allowlist, and the state
    of the proxy: the registered invocations and their open connections.  A
    request is a task with two waits, the validation of the destination and the
    upstream connection; [egress_step] interleaves the tasks with registrations.
    The parsing of a URL is a parameter, as are the DNS and the upstream.  Host
    names are ASCII. *)

From S2P Require Import Prelude JsString JsMap JsNumber JsValue Errors Utf8 TextDecoder Uri Http IpBlocker ControlServer.
From Stdlib Require Import QArith.

Open Scope Z_scope.
Open Scope railfog_scope.

(** ** Constants *)

Definition DEFAULT_MAX_CONCURRENT_CONNECTIONS : Z := 6.
Definition HTTP_STATUS_FORBIDDEN : Z := 403.
Definition HTTP_STATUS_TOO_MANY_REQUESTS : Z := 429.
Definition HTTP_STATUS_BAD_GATEWAY : Z := 502.
Definition RETRY_AFTER_SECONDS : jstr := js "1".
Definition INVOCATION_ID_HEADER : jstr := js "x-railfog-invocation-id".
Definition MAX_HEADER_BUFFER_SIZE : Z := 65536.

Record InvocationNetworkContext := {
  n_invocationId : jstr;
  n_allowlist : list jstr;
  n_maxConcurrentConnections : option Z
}.

(** ** The allowlist *)

Record ParsedAllowlistEntry := { e_host : jstr; e_port : option jstr }.

(** [/^\[([a-fA-F0-9:]+)\](?::(\d+))?$/] *)
Definition ipv6_bracket_match (trimmed : jstr) : option (jstr * option jstr) :=
  match trimmed with
  | c :: rest =>
      if c =? chr "[" then
        match split_first (chr "]") rest with
        | Some (inner, suffix) =>
            if all_in (λ c, is_hex c || (c =? chr ":")) inner then
              match suffix with
              | [] => Some (inner, None)
              | d :: digits => if (d =? chr ":") && all_in is_digit digits then Some (inner, Some digits) else None
              end
            else None
        | None => None
        end
      else None
  | [] => None
  end.

Definition parseAllowlistEntry (entry : jstr) : ParsedAllowlistEntry :=
  let trimmed := trim entry in
  let plain := {| e_host := to_lower trimmed; e_port := None |} in
  match ipv6_bracket_match trimmed with
  | Some (inner, port) => {| e_host := to_lower inner; e_port := port |}
  | None =>
      match split_last (chr ":") trimmed with
      | Some (hostPart, portPart) =>
          if negb (includes trimmed (js "]")) && negb (includes hostPart (js ":")) && all_in is_digit portPart
          then {| e_host := to_lower hostPart; e_port := Some portPart |}
          else plain
      | None => plain
      end
  end.

Definition normalizeHostname (hostname : jstr) : jstr :=
  if starts_with hostname (js "[") && ends_with hostname (js "]")
  then to_lower (take (length hostname - 2) (drop 1 hostname))
  else to_lower hostname.

(** The parts of a [URL] that the proxy reads *)
Record TargetUrl := {
  url_protocol : jstr;
  url_hostname : jstr;
  url_port : jstr;
  url_host : jstr;
  url_pathname : jstr;
  url_search : jstr
}.

Definition getEffectivePort (url : TargetUrl) : jstr :=
  match url_port url with
  | _ :: _ => url_port url
  | [] =>
      if jstr_eqb (url_protocol url) (js "http:") then js "80"
      else if jstr_eqb (url_protocol url) (js "https:") then js "443"
      else []
  end.

Definition matchesAllowlistHostPort (targetHost targetPort entry : jstr) : bool :=
  let e := parseAllowlistEntry entry in
  let normalizedTargetHost := normalizeHostname targetHost in
  match e_port e with
  | Some entryPort => jstr_eqb entryPort targetPort
  | None => true
  end &&
  (if starts_with (e_host e) (js "*.") then
     let suffix := slice_from 2 (e_host e) in
     ends_with normalizedTargetHost (js "." ++ suffix) && (length suffix + 1 <? length normalizedTargetHost)%nat
   else jstr_eqb normalizedTargetHost (e_host e)).

Definition matchesAllowlistEntry (targetUrl : TargetUrl) (entry : jstr) : bool :=
  matchesAllowlistHostPort (url_hostname targetUrl) (getEffectivePort targetUrl) entry.

(** ** Framing *)

(** The position of [\r\n\r\n] *)
Fixpoint findHeaderEnd (buf : list Z) : option nat :=
  match buf with
  | a :: (b :: c :: d :: _) as rest =>
      if (a =? 13) && (b =? 10) && (c =? 13) && (d =? 10) then Some O else S <$> findHeaderEnd rest
  | _ => None
  end.

(** The reads of the socket, in order; the end of the list is the end of the
    stream.  The result is the header bytes, the bytes read after them, and the
    reads to come. *)
Fixpoint readHttpHeaders (combined : list Z) (reads : list (list Z)) : option (list Z * list Z * list (list Z)) :=
  if Z.of_nat (length combined) <? MAX_HEADER_BUFFER_SIZE then
    match reads with
    | [] => None
    | chunk :: reads =>
        let combined := combined ++ chunk in
        match findHeaderEnd combined with
        | Some headerEndIndex => Some (take headerEndIndex combined, drop (headerEndIndex + 4) combined, reads)
        | None => readHttpHeaders combined reads
        end
    end
  else None.

(** [s.split("\r\n")] *)
Fixpoint split_crlf (s : jstr) : list jstr :=
  match s with
  | [] => [[]]
  | a :: s1 =>
      match s1 with
      | b :: s2 =>
          if (a =? 13) && (b =? 10) then [] :: split_crlf s2
          else match split_crlf s1 with p :: ps => (a :: p) :: ps | [] => [[a]] end
      | [] => [[a]]
      end
  end.

(** [headers.append(name, value)], which refuses what is not a header *)
Definition is_token_char (c : Z) : bool :=
  is_digit c || is_upper c || is_lower c ||
  bool_decide (c ∈ [33; 35; 36; 37; 38; 39; 42; 43; 45; 46; 94; 95; 96; 124; 126]).
Definition is_value_char (c : Z) : bool := (c <=? 255) && negb (bool_decide (c ∈ [0; 10; 13])).

Definition headers_append (headers : Headers) (name value : jstr) : result exn Headers :=
  throw_if (negb (all_in is_token_char name) || negb (forallb is_value_char value)) TypeError ≫= λ _,
  let name := to_lower name in
  Ok match map_get headers name with
     | Some old => map_set headers name (old ++ js ", " ++ value)
     | None => map_set headers name value
     end.

Fixpoint parse_headers (lines : list jstr) (headers : Headers) : result exn Headers :=
  match lines with
  | [] => Ok headers
  | line :: lines =>
      match split_first (chr ":") line with
      | None => parse_headers lines headers
      | Some (name, value) => headers_append headers (trim name) (trim value) ≫= parse_headers lines
      end
  end.

(** [new URLSearchParams(query).get(name)] *)
Fixpoint percent_decode (bs : list Z) : list Z :=
  match bs with
  | [] => []
  | c :: rest =>
      match rest with
      | a :: b :: rest' =>
          if c =? chr "%" then
            match hex_digit_value a, hex_digit_value b with
            | Some x, Some y => (16 * x + y) :: percent_decode rest'
            | _, _ => c :: percent_decode rest
            end
          else c :: percent_decode rest
      | _ => c :: percent_decode rest
      end
  end.
Definition form_decode (bs : list Z) : jstr :=
  flat_map units (decode_bytes idle (percent_decode ((λ c, if c =? chr "+" then 32 else c) <$> bs))).
Definition form_pair (piece : list Z) : jstr * jstr :=
  match split_first (chr "=") piece with
  | Some (name, value) => (form_decode name, form_decode value)
  | None => (form_decode piece, [])
  end.
Definition search_params (query : jstr) : jsmap jstr jstr :=
  let query := match query with c :: rest => if c =? chr "?" then rest else query | [] => [] end in
  form_pair <$> filter (λ p, p ≠ []) (split_on (chr "&") (text_encode query)).

Definition extractInvocationFromTarget (target : jstr) : option jstr :=
  match index_of target (js "?") with
  | None => None
  | Some queryIndex => map_get (search_params (drop queryIndex target)) (js "invocationId")
  end.

(** The head of a request on the socket *)
Record RequestHead := { rh_method : jstr; rh_target : jstr; rh_headers : Headers; rh_invocationId : jstr }.

(** [None]: the connection is closed without an answer. *)
Definition parse_request_head (headerText : jstr) : result exn (option RequestHead) :=
  match split_crlf headerText with
  | [] => Ok None
  | requestLine :: lines =>
      match split_on 32 requestLine with
      | ((_ :: _) as method) :: ((_ :: _) as target) :: _ =>
          parse_headers lines [] ≫= λ headers,
          Ok (Some {| rh_method := method; rh_target := target; rh_headers := headers;
                      rh_invocationId :=
                        default (default [] (extractInvocationFromTarget target))
                          (map_get headers INVOCATION_ID_HEADER) |})
      | _ => Ok None
      end
  end.

(** [method.toUpperCase() === "CONNECT"] *)
Definition is_connect (method : jstr) : bool :=
  jstr_eqb ((λ c, if is_lower c then c - 32 else c) <$> method) (js "CONNECT").

(** ** The body of a forwarded request

    [parseInt] of the length: [None] stands for no header and for [NaN], which
    every comparison treats alike. *)

(** [bs.subarray(0, n)] *)
Definition subarray_to (n : Z) (bs : list Z) : list Z :=
  take (Z.to_nat (if n <? 0 then Z.of_nat (length bs) + n else n)) bs.

Definition reached (contentLength : option Z) (bytesRead : Z) : bool :=
  match contentLength with Some n => n <=? bytesRead | None => false end.

(** What is enqueued of the bytes at hand *)
Definition clamp (contentLength : option Z) (bytesRead : Z) (bs : list Z) : list Z :=
  match contentLength with
  | Some n => if n <? bytesRead + Z.of_nat (length bs) then subarray_to (n - bytesRead) bs else bs
  | None => bs
  end.

(** The chunks enqueued from the socket, until the stream closes *)
Fixpoint pull_socket (contentLength : option Z) (bytesRead : Z) (reads : list (list Z)) : list (list Z) :=
  if reached contentLength bytesRead then []
  else match reads with
       | [] => []
       | value :: reads =>
           let toEnqueue := clamp contentLength bytesRead value in
           toEnqueue :: pull_socket contentLength (bytesRead + Z.of_nat (length toEnqueue)) reads
       end.

(** The bytes left over from the headers go first. *)
Definition body_chunks (contentLength : option Z) (leftoverBytes : list Z) (reads : list (list Z)) : list (list Z) :=
  match leftoverBytes with
  | [] => pull_socket contentLength 0 reads
  | _ =>
      let toSend := clamp contentLength 0 leftoverBytes in
      toSend :: pull_socket contentLength (Z.of_nat (length toSend)) reads
  end.

(** A [Request] of the Fetch API *)
Record OutRequest := {
  q_method : jstr;
  q_url : jstr;
  q_headers : Headers;
  q_body : option (list (list Z))
}.

Definition to_upper (s : jstr) : jstr := (λ c, if is_lower c then c - 32 else c) <$> s.

(** [new Request(url, { method, headers, body })]: a method is a token, the
    tunnelling and tracing ones are refused, the common ones are in upper case;
    GET and HEAD have no body. *)
Definition new_Request (parse_url : jstr → result exn TargetUrl) (url method : jstr) (headers : Headers)
    (body : option (list (list Z))) : result exn OutRequest :=
  parse_url url ≫= λ _,
  throw_if (negb (all_in is_token_char method) ||
            bool_decide (to_upper method ∈ [js "CONNECT"; js "TRACE"; js "TRACK"])) TypeError ≫= λ _,
  let method :=
    if bool_decide (to_upper method ∈ [js "DELETE"; js "GET"; js "HEAD"; js "OPTIONS"; js "POST"; js "PUT"])
    then to_upper method else method in
  throw_if (bool_decide (method ∈ [js "GET"; js "HEAD"]) && match body with Some _ => true | None => false end)
    TypeError ≫= λ _,
  Ok {| q_method := method; q_url := url; q_headers := headers; q_body := body |}.

(** [handleHttpForward], up to [handleRequest] *)
Definition forward_url (rh : RequestHead) : jstr :=
  if starts_with (rh_target rh) (js "http://") || starts_with (rh_target rh) (js "https://") then rh_target rh
  else js "http://" ++ default (js "127.0.0.1") (map_get (rh_headers rh) (js "host")) ++ rh_target rh.

Definition content_length (headers : Headers) : option Z :=
  match map_get headers (js "content-length") with
  | Some ((_ :: _) as s) => parse_int10 s
  | _ => None
  end.

Definition forward_body (rh : RequestHead) (leftoverBytes : list Z) (reads : list (list Z)) : option (list (list Z)) :=
  if jstr_eqb (rh_method rh) (js "GET") || jstr_eqb (rh_method rh) (js "HEAD") then None
  else
    let contentLength := content_length (rh_headers rh) in
    if bool_decide (contentLength = Some 0) then None else Some (body_chunks contentLength leftoverBytes reads).

Definition forward_request (parse_url : jstr → result exn TargetUrl) (rh : RequestHead) (leftoverBytes : list Z)
    (reads : list (list Z)) : result exn OutRequest :=
  new_Request parse_url (forward_url rh) (rh_method rh) (rh_headers rh) (forward_body rh leftoverBytes reads).

(** [handleConnection]: what a connection asks for; [None] closes it, an
    exception is answered with 502. *)
Inductive Incoming :=
| Tunnelled (target invocationId : jstr) (leftoverBytes : list Z) (reads : list (list Z))
| Forwarded (req : OutRequest) (invocationId : jstr).

Definition handleConnection (parse_url : jstr → result exn TargetUrl) (reads : list (list Z))
    : result exn (option Incoming) :=
  match readHttpHeaders [] reads with
  | None => Ok None
  | Some (headerBytes, leftoverBytes, reads) =>
      parse_request_head (text_decode headerBytes) ≫= λ head,
      match head with
      | None => Ok None
      | Some rh =>
          if is_connect (rh_method rh) then Ok (Some (Tunnelled (rh_target rh) (rh_invocationId rh) leftoverBytes reads))
          else forward_request parse_url rh leftoverBytes reads ≫= λ req, Ok (Some (Forwarded req (rh_invocationId rh)))
      end
  end.

(** ** Upstream requests *)

(** Headers that concern one hop only, or the proxy *)
Definition HOP_BY_HOP : list jstr := Eval vm_compute in
  [js "host"; js "connection"; js "keep-alive"; js "proxy-authenticate"; js "proxy-authorization"; js "te";
   js "trailer"; js "transfer-encoding"; js "upgrade"].

Definition sanitizeForwardHeaders (sourceHeaders : Headers) : Headers :=
  filter (λ e, to_lower e.1 ≠ INVOCATION_ID_HEADER ∧ to_lower e.1 ∉ HOP_BY_HOP) sourceHeaders.

(** The options of [client.request] *)
Record UpstreamRequest := {
  up_host : jstr;
  up_port : Z;
  up_method : jstr;
  up_path : jstr;
  up_headers : Headers;
  up_servername : option jstr
}.

Definition upstream_options (req : OutRequest) (validatedIp : jstr) (targetUrl : TargetUrl) : UpstreamRequest :=
  let isHttps := jstr_eqb (url_protocol targetUrl) (js "https:") in
  {| up_host := validatedIp;
     up_port := match url_port targetUrl with
                | [] => if isHttps then 443 else 80
                | port => num_of_digits port
                end;
     up_method := q_method req;
     up_path := url_pathname targetUrl ++ url_search targetUrl;
     up_headers := map_set (sanitizeForwardHeaders (q_headers req)) (js "host") (url_host targetUrl);
     up_servername := if isHttps then Some (url_hostname targetUrl) else None |}.

(** ** Refusals *)

Record Refusal := { r_status : Z; r_code : RailFogErrorCode; r_message : jstr; r_retryAfter : option jstr }.

Definition denied (message : jstr) : Refusal :=
  {| r_status := HTTP_STATUS_FORBIDDEN; r_code := PERMISSION_DENIED; r_message := message; r_retryAfter := None |}.
Definition limit_exceeded : Refusal :=
  {| r_status := HTTP_STATUS_TOO_MANY_REQUESTS; r_code := RATE_LIMITED;
     r_message := js "Outbound connection limit exceeded"; r_retryAfter := Some RETRY_AFTER_SECONDS |}.
Definition upstream_failed : Refusal :=
  {| r_status := HTTP_STATUS_BAD_GATEWAY; r_code := UNAVAILABLE;
     r_message := js "Bad Gateway: Upstream connection failed"; r_retryAfter := None |}.

Definition refusal_content (r : Refusal) : Content :=
  let e := toErrorResponseBody {| err_code := r_code r; err_message := r_message r; err_requestId := None |} in
  JsonOf (JObj [(js "error", JObj [(js "code", JStr (body_code e)); (js "message", JStr (body_message e))])]).

Definition createErrorResponse (r : Refusal) : HttpResponse :=
  {| p_status := r_status r;
     p_headers := (js "content-type", js "application/json") ::
                  match r_retryAfter r with Some s => [(js "retry-after", s)] | None => [] end;
     p_content := refusal_content r |}.

(** The same on the socket *)
Definition CRLF : jstr := [13; 10].
Definition writeRawHttpResponse `{ContentCodec} (r : Refusal) (statusText : jstr) : list Z :=
  let bodyBytes := read_bytes (refusal_content r) in
  text_encode (js "HTTP/1.1 " ++ string_of_nat (r_status r) ++ js " " ++ statusText ++ CRLF ++
               js "content-type: application/json" ++ CRLF ++
               js "content-length: " ++ string_of_nat (Z.of_nat (length bodyBytes)) ++ CRLF ++
               js "connection: close" ++ CRLF ++
               match r_retryAfter r with Some s => js "retry-after: " ++ s ++ CRLF | None => [] end ++ CRLF)
  ++ bodyBytes.

(** ** The state of the proxy *)

Record EgressProxy := {
  invocations : jsmap jstr InvocationNetworkContext;
  activeConnections : jsmap jstr Z
}.

Definition empty_proxy : EgressProxy := {| invocations := []; activeConnections := [] |}.

Definition with_connections (p : EgressProxy) (m : jsmap jstr Z) : EgressProxy :=
  {| invocations := invocations p; activeConnections := m |}.

Definition registerInvocation (p : EgressProxy) (ctx : InvocationNetworkContext) : EgressProxy :=
  {| invocations := map_set (invocations p) (n_invocationId ctx) ctx;
     activeConnections :=
       if map_has (activeConnections p) (n_invocationId ctx) then activeConnections p
       else map_set (activeConnections p) (n_invocationId ctx) 0 |}.

Definition unregisterInvocation (p : EgressProxy) (invocationId : jstr) : EgressProxy :=
  {| invocations := map_delete (invocations p) invocationId;
     activeConnections := map_delete (activeConnections p) invocationId |}.

Definition getActiveConnectionCount (p : EgressProxy) (invocationId : jstr) : Z :=
  default 0 (map_get (activeConnections p) invocationId).

Definition incrementActiveConnections (p : EgressProxy) (invocationId : jstr) : EgressProxy :=
  with_connections p
    (map_set (activeConnections p) invocationId (getActiveConnectionCount p invocationId + 1)).

Definition decrementActiveConnections (p : EgressProxy) (invocationId : jstr) : EgressProxy :=
  match map_get (activeConnections p) invocationId with
  | None => p
  | Some current =>
      with_connections p
        (if current <=? 1 then map_delete (activeConnections p) invocationId
         else map_set (activeConnections p) invocationId (current - 1))
  end.

(** ** Requests

    A request that passed the first checks waits for the validation of its
    destination; [w_ctx] is the context it read. *)

Inductive Destination :=
| ToUrl (req : OutRequest) (targetUrl : TargetUrl)
| ToTunnel (entryHost : jstr) (destPort : Z) (leftoverBytes : list Z).

Record Waiting := { w_id : jstr; w_ctx : InvocationNetworkContext; w_dest : Destination }.

Definition max_connections (ctx : InvocationNetworkContext) : Z :=
  default DEFAULT_MAX_CONCURRENT_CONNECTIONS (n_maxConcurrentConnections ctx).

(** The host given to the blocker, and the host and port the allowlist is asked
    about *)
Definition blocker_host (d : Destination) : jstr :=
  match d with ToUrl _ url => normalizeHostname (url_hostname url) | ToTunnel host _ _ => host end.
Definition target_host (d : Destination) : jstr :=
  match d with ToUrl _ url => url_hostname url | ToTunnel host _ _ => host end.
Definition target_port (d : Destination) : jstr :=
  match d with ToUrl _ url => getEffectivePort url | ToTunnel _ port _ => string_of_nat port end.

Definition permitted (ctx : InvocationNetworkContext) (d : Destination) : bool :=
  existsb (matchesAllowlistHostPort (target_host d) (target_port d)) (n_allowlist ctx).

(** The checks on the invocation *)
Definition check_invocation (p : EgressProxy) (invocationId : jstr) : Refusal + InvocationNetworkContext :=
  match map_get (invocations p) invocationId with
  | None => inl (denied (js "Invocation not registered or context missing"))
  | Some ctx =>
      if max_connections ctx <=? getActiveConnectionCount p invocationId then inl limit_exceeded
      else match n_allowlist ctx with
           | [] => inl (denied (js "Network access not permitted: allowlist is empty"))
           | _ => inr ctx
           end
  end.

Definition check_allowlist (invocationId : jstr) (ctx : InvocationNetworkContext) (d : Destination) : Refusal + Waiting :=
  if permitted ctx d then inr {| w_id := invocationId; w_ctx := ctx; w_dest := d |}
  else inl (denied (js "Destination " ++ target_host d ++ js " is not permitted by network allowlist")).

(** [handleRequest], up to the validation of the destination *)
Definition start_request (parse_url : jstr → result exn TargetUrl) (p : EgressProxy) (req : OutRequest)
    (invocationId : jstr) : Refusal + Waiting :=
  match check_invocation p invocationId with
  | inl r => inl r
  | inr ctx =>
      match parse_url (q_url req) with
      | Err _ => inl (denied (js "Invalid outbound destination URL: " ++ q_url req))
      | Ok targetUrl =>
          if negb (jstr_eqb (url_protocol targetUrl) (js "http:")) &&
             negb (jstr_eqb (url_protocol targetUrl) (js "https:")) &&
             negb (jstr_eqb (q_method req) (js "CONNECT"))
          then inl (denied (js "Unsupported protocol scheme: " ++ url_protocol targetUrl))
          else check_allowlist invocationId ctx (ToUrl req targetUrl)
      end
  end.

(** [handleConnectTunnel], up to the same point *)
Definition tunnel_port (e : ParsedAllowlistEntry) : Z :=
  match e_port e with Some ((_ :: _) as port) => num_of_digits port | _ => 443 end.

Definition start_tunnel (p : EgressProxy) (target invocationId : jstr) (leftoverBytes : list Z) : Refusal + Waiting :=
  match check_invocation p invocationId with
  | inl r => inl r
  | inr ctx =>
      let e := parseAllowlistEntry target in
      check_allowlist invocationId ctx (ToTunnel (e_host e) (tunnel_port e) leftoverBytes)
  end.

(** A request that the proxy works on *)
Inductive Task :=
| Validating (w : Waiting)
| Connected (w : Waiting) (address : jstr)
| Refused (r : Refusal)
| Established
| Ended.

Definition task_of (r : Refusal + Waiting) : Task :=
  match r with inl r => Refused r | inr w => Validating w end.

Section settle.
(** The text of an exception *)
Context (error_text : exn → jstr).

(** After the validation: the second look at the limit, and the slot *)
Definition validated (p : EgressProxy) (w : Waiting) (blockResult : result exn IpBlockResult) : EgressProxy * Task :=
  match blockResult with
  | Err dnsErr =>
      (p, Refused (denied (js "DNS resolution failed for destination " ++ blocker_host (w_dest w) ++ js ": " ++
                           error_text dnsErr)))
  | Ok blockResult =>
      if blocked blockResult then
        (p, Refused (denied (default (js "Destination " ++ blocker_host (w_dest w) ++ js " is blocked by network policy")
                               (reason blockResult))))
      else if max_connections (w_ctx w) <=? getActiveConnectionCount p (w_id w) then (p, Refused limit_exceeded)
      else
        match w_dest w with
        | ToUrl req _ =>
            if jstr_eqb (q_method req) (js "CONNECT") then (p, Established)
            else (incrementActiveConnections p (w_id w), Connected w (ip blockResult))
        | ToTunnel _ _ _ => (incrementActiveConnections p (w_id w), Connected w (ip blockResult))
        end
  end.

(** The upstream answered or failed: the slot is given back either way. *)
Definition finished (p : EgressProxy) (w : Waiting) (ok : bool) : EgressProxy * Task :=
  (decrementActiveConnections p (w_id w), if ok then Ended else Refused upstream_failed).

(** [handleRequest] from end to end, when nothing comes between: with the answer
    of the blocker and what the upstream answers *)
Definition handleRequest (parse_url : jstr → result exn TargetUrl)
    (validate : jstr → result exn IpBlockResult) (dispatchUpstream : UpstreamRequest → result exn HttpResponse)
    (p : EgressProxy) (req : OutRequest) (invocationId : jstr) : EgressProxy * HttpResponse :=
  match start_request parse_url p req invocationId with
  | inl r => (p, createErrorResponse r)
  | inr w =>
      match validated p w (validate (blocker_host (w_dest w))) with
      | (p, Connected w address) =>
          match w_dest w with
          | ToUrl req targetUrl =>
              match dispatchUpstream (upstream_options req address targetUrl) with
              | Ok response => ((finished p w true).1, response)
              | Err _ => ((finished p w false).1, createErrorResponse upstream_failed)
              end
          | ToTunnel _ _ _ => (p, createErrorResponse upstream_failed)
          end
      | (p, Refused r) => (p, createErrorResponse r)
      | (p, _) => (p, {| p_status := 200; p_headers := []; p_content := NoContent |})
      end
  end.
End settle.

(** ** The proxy at work *)

Record System := { proxy : EgressProxy; tasks : list Task }.

Inductive Event :=
| Register (ctx : InvocationNetworkContext)
| Unregister (invocationId : jstr)
| Connection (reads : list (list Z))
| Direct (req : OutRequest) (invocationId : jstr)
| Resolved (i : nat) (dnsResolver : jstr → result exn (list jstr))
| Settled (i : nat) (ok : bool).

Section system.
Context (parse_url : jstr → result exn TargetUrl) (error_text : exn → jstr) (blocker : EgressIpBlocker).

Definition with_proxy (s : System) (p : EgressProxy) : System := {| proxy := p; tasks := tasks s |}.
Definition add_task (s : System) (t : Task) : System := {| proxy := proxy s; tasks := tasks s ++ [t] |}.
Definition set_task (s : System) (i : nat) (r : EgressProxy * Task) : System :=
  {| proxy := r.1; tasks := <[i := r.2]> (tasks s) |}.

(** A connection: closed, answered with 502, or a task *)
Definition accept (s : System) (reads : list (list Z)) : System :=
  match handleConnection parse_url reads with
  | Ok (Some (Tunnelled target id leftoverBytes _)) => add_task s (task_of (start_tunnel (proxy s) target id leftoverBytes))
  | Ok (Some (Forwarded req id)) => add_task s (task_of (start_request parse_url (proxy s) req id))
  | Ok None => add_task s Ended
  | Err _ => add_task s (Refused {| r_status := HTTP_STATUS_BAD_GATEWAY; r_code := UNAVAILABLE;
                                    r_message := js "Bad Gateway: Internal proxy error"; r_retryAfter := None |})
  end.

Inductive egress_step : Event → System → System → Prop :=
| step_register ctx s : egress_step (Register ctx) s (with_proxy s (registerInvocation (proxy s) ctx))
| step_unregister id s : egress_step (Unregister id) s (with_proxy s (unregisterInvocation (proxy s) id))
| step_connection reads s : egress_step (Connection reads) s (accept s reads)
| step_direct req id s :
    egress_step (Direct req id) s (add_task s (task_of (start_request parse_url (proxy s) req id)))
| step_resolved i dnsResolver w s :
    tasks s !! i = Some (Validating w) →
    egress_step (Resolved i dnsResolver) s
      (set_task s i (validated error_text (proxy s) w (validateDestination dnsResolver blocker (blocker_host (w_dest w)))))
| step_settled i ok w address s :
    tasks s !! i = Some (Connected w address) →
    egress_step (Settled i ok) s (set_task s i (finished (proxy s) w ok)).

(** A run: the events, in order *)
Inductive egress_run : list Event → System → System → Prop :=
| run_nil s : egress_run [] s s
| run_snoc evs ev s s1 s2 : egress_run evs s s1 → egress_step ev s1 s2 → egress_run (evs ++ [ev]) s s2.
End system.

(** ** Framing does not depend on how the bytes arrive *)

Definition is_header_end (s : list Z) : bool :=
  match s with a :: b :: c :: d :: _ => (a =? 13) && (b =? 10) && (c =? 13) && (d =? 10) | _ => false end.

Lemma findHeaderEnd_cons x s :
  findHeaderEnd (x :: s) = if is_header_end (x :: s) then Some O else S <$> findHeaderEnd s.
Proof. by destruct s as [|b [|c [|d s]]]. Qed.

Lemma is_header_end_app s t : is_header_end s = true → is_header_end (s ++ t) = true.
Proof. by destruct s as [|a [|b [|c [|d s]]]]. Qed.

Lemma is_header_end_prefix s t : is_header_end (s ++ t) = true → (4 <= length s)%nat → is_header_end s = true.
Proof. destruct s as [|a [|b [|c [|d s]]]]; cbn [length]; try lia. done. Qed.

Lemma findHeaderEnd_bound s i : findHeaderEnd s = Some i → (i + 4 <= length s)%nat.
Proof.
  revert i. induction s as [|x s IH]; intros i; [done|]. rewrite findHeaderEnd_cons.
  destruct (is_header_end (x :: s)) eqn:E.
  - intros [= <-]. destruct s as [|b [|c [|d s]]]; cbn in *; try done. lia.
  - intros (j & Hj%IH & ->)%fmap_Some. cbn. lia.
Qed.

Lemma findHeaderEnd_app s t i : findHeaderEnd s = Some i → findHeaderEnd (s ++ t) = Some i.
Proof.
  revert i. induction s as [|x s IH]; intros i; [done|]. cbn [app]. rewrite !findHeaderEnd_cons.
  destruct (is_header_end (x :: s)) eqn:E.
  - intros [= <-]. apply (is_header_end_app _ t) in E. by rewrite app_comm_cons, E.
  - intros (j & Hj & ->)%fmap_Some. rewrite app_comm_cons.
    destruct (is_header_end ((x :: s) ++ t)) eqn:E'; [|by rewrite (IH j)].
    apply is_header_end_prefix in E'; [congruence|]. apply findHeaderEnd_bound in Hj. cbn. lia.
Qed.

Lemma findHeaderEnd_prefix s t i :
  findHeaderEnd (s ++ t) = Some i → (i + 4 <= length s)%nat → findHeaderEnd s = Some i.
Proof.
  revert i. induction s as [|x s IH]; intros i; [cbn; lia|]. cbn [app length]. rewrite !findHeaderEnd_cons, app_comm_cons.
  destruct (is_header_end ((x :: s) ++ t)) eqn:E.
  - intros [= <-] Hl. by rewrite (is_header_end_prefix _ t) by (done || cbn; lia).
  - intros (j & Hj & ->)%fmap_Some Hl. destruct (is_header_end (x :: s)) eqn:E'.
    { apply (is_header_end_app _ t) in E'. congruence. }
    by rewrite (IH j) by (done || lia).
Qed.

Lemma readHttpHeaders_complete reads : ∀ acc i,
  findHeaderEnd acc = None → findHeaderEnd (acc ++ concat reads) = Some i → Z.of_nat (i + 4) <= MAX_HEADER_BUFFER_SIZE →
  ∃ l rest, readHttpHeaders acc reads = Some (take i (acc ++ concat reads), l, rest) ∧
    l ++ concat rest = drop (i + 4) (acc ++ concat reads).
Proof.
  induction reads as [|chunk reads IH]; intros acc i Hn Hi Hm; [cbn in Hi; rewrite app_nil_r in Hi; congruence|].
  cbn [readHttpHeaders]. destruct (Z.ltb_spec (Z.of_nat (length acc)) MAX_HEADER_BUFFER_SIZE) as [Hl|Hl].
  2: { apply findHeaderEnd_prefix in Hi; [congruence|lia]. }
  cbn [concat] in Hi |- *. rewrite app_assoc in Hi |- *.
  destruct (findHeaderEnd (acc ++ chunk)) as [j|] eqn:Ej; [|by apply IH].
  pose proof (findHeaderEnd_app _ (concat reads) _ Ej) as Ej'. assert (j = i) as -> by congruence.
  apply findHeaderEnd_bound in Ej. do 2 eexists. split.
  - rewrite (take_app_le (acc ++ chunk)) by lia. done.
  - by rewrite (drop_app_le (acc ++ chunk)) by lia.
Qed.

(** What is enqueued in one go, and what remains to be sent *)
Lemma clamp_step n bytesRead bs rest : 0 <= bytesRead < n →
  let sent := clamp (Some n) bytesRead bs in
  take (Z.to_nat (n - bytesRead)) (bs ++ rest) =
  sent ++ take (Z.to_nat (n - (bytesRead + Z.of_nat (length sent)))) rest ∧
  bytesRead + Z.of_nat (length sent) <= n.
Proof.
  intros H. unfold clamp, subarray_to. destruct (Z.ltb_spec n (bytesRead + Z.of_nat (length bs))) as [Hc|Hc].
  - rewrite (proj2 (Z.ltb_ge _ _)) by lia. rewrite length_take, Nat.min_l by lia. split; [|lia].
    rewrite take_app_le by lia.
    replace (Z.to_nat (n - (bytesRead + Z.of_nat (Z.to_nat (n - bytesRead))))) with O by lia.
    cbn. by rewrite app_nil_r.
  - split; [|lia]. rewrite take_app, (take_ge bs) by lia. f_equal. f_equal. lia.
Qed.

Lemma pull_socket_bytes n reads : ∀ bytesRead, 0 <= bytesRead <= n →
  concat (pull_socket (Some n) bytesRead reads) = take (Z.to_nat (n - bytesRead)) (concat reads).
Proof.
  induction reads as [|chunk reads IH]; intros bytesRead H; cbn [pull_socket reached];
    destruct (Z.leb_spec n bytesRead) as [Hr|Hr];
    try (replace (Z.to_nat (n - bytesRead)) with O by lia; done); [by destruct (Z.to_nat _)|].
  cbn [concat]. pose proof (clamp_step n bytesRead chunk (concat reads) ltac:(lia)) as [-> Hb].
  rewrite IH by (cbn zeta in Hb |- *; lia). done.
Qed.

Lemma pull_socket_all reads : ∀ bytesRead, concat (pull_socket None bytesRead reads) = concat reads.
Proof. induction reads as [|chunk reads IH]; intros bytesRead; [done|]. cbn. by rewrite IH. Qed.

Definition body_of (contentLength : option Z) (bytes : list Z) : list Z :=
  match contentLength with Some n => take (Z.to_nat n) bytes | None => bytes end.

Lemma body_chunks_bytes contentLength leftover reads :
  match contentLength with Some n => 0 < n | None => True end →
  concat (body_chunks contentLength leftover reads) = body_of contentLength (leftover ++ concat reads).
Proof.
  intros Hn. destruct contentLength as [n|].
  - unfold body_chunks, body_of. destruct leftover as [|b bs].
    + rewrite pull_socket_bytes by lia. by rewrite Z.sub_0_r.
    + cbn [concat]. pose proof (clamp_step n 0 (b :: bs) (concat reads) ltac:(lia)) as [E Hb].
      rewrite Z.sub_0_r in E. rewrite E, Z.add_0_l, pull_socket_bytes by (cbn zeta in Hb |- *; lia). done.
  - unfold body_chunks, body_of. destruct leftover as [|b bs]; [by rewrite pull_socket_all|].
    cbn [concat clamp]. by rewrite pull_socket_all.
Qed.

(** ** The allowlist *)

(** What an entry allows: its host, or for [*.suffix] every host below the
    suffix but not the suffix itself; on its port, when it names one *)
Definition allows (entry host port : jstr) : Prop :=
  let e := parseAllowlistEntry entry in
  (e_port e = None ∨ e_port e = Some port) ∧
  ((∃ suffix sub, e_host e = js "*." ++ suffix ∧ sub ≠ [] ∧ host = sub ++ js "." ++ suffix) ∨
   (starts_with (e_host e) (js "*.") = false ∧ host = e_host e)).

Lemma matches_allows host port entry :
  matchesAllowlistHostPort host port entry = true ↔ allows entry (normalizeHostname host) port.
Proof.
  unfold matchesAllowlistHostPort, allows. rewrite andb_true_iff. apply Morphisms_Prop.and_iff_morphism.
  - destruct (e_port _) as [q|]; [rewrite jstr_eqb_eq|]; naive_solver.
  - destruct (starts_with _ _) eqn:E.
    + apply starts_with_spec in E as [suffix E]. rewrite E. unfold slice_from.
      change (drop 2 (js "*." ++ suffix)) with suffix.
      rewrite andb_true_iff, ends_with_spec, Nat.ltb_lt. split.
      * intros [[sub ->] Hl]. left. exists suffix, sub. split_and!; [done| |done].
        intros ->. rewrite !length_app in Hl. cbn in Hl. lia.
      * intros [(suffix' & sub & Es%(inj (app (js "*."))) & Hsub & ->)|[? _]]; [|done]. subst suffix'. split; [by exists sub|].
        destruct sub; [done|]. rewrite !length_app. cbn. lia.
    + rewrite jstr_eqb_eq. split; [by right|]. intros [(suffix & sub & Es & _)|[_ ?]]; [|done].
      by rewrite Es, starts_with_app in E.
Qed.


(** ** The tasks of a run *)

Lemma filter_insert_length {A} (P : A → Prop) `{!∀ x, Decision (P x)} (l : list A) i t t' :
  l !! i = Some t →
  (length (filter P (<[i := t']> l)) + (if decide (P t) then 1 else 0) =
   length (filter P l) + (if decide (P t') then 1 else 0))%nat.
Proof.
  revert i. induction l as [|x l IH]; intros [|i] Hi; cbn in Hi; [done..| |].
  - injection Hi as ->. change (<[0%nat := t']> (t :: l)) with (t' :: l). rewrite !filter_cons.
    repeat case_decide; cbn; lia.
  - change (<[S i := t']> (x :: l)) with (x :: <[i := t']> l). specialize (IH i Hi). rewrite !filter_cons. destruct (decide (P x)); cbn [length]; lia.
Qed.

(** The task holds a connection of the invocation. *)
Definition connected (id : jstr) (t : Task) : Prop :=
  match t with Connected w _ => w_id w = id | _ => False end.
#[export] Instance connected_dec id t : Decision (connected id t).
Proof. destruct t; cbn; apply _. Defined.

Definition open_connections (s : System) (id : jstr) : Z := Z.of_nat (length (filter (connected id) (tasks s))).

Lemma count_with p m id : getActiveConnectionCount (with_connections p m) id = default 0 (map_get m id).
Proof. done. Qed.

Lemma count_register p ctx id :
  getActiveConnectionCount (registerInvocation p ctx) id = getActiveConnectionCount p id.
Proof.
  unfold getActiveConnectionCount, registerInvocation, map_has. cbn.
  destruct (map_get (activeConnections p) (n_invocationId ctx)) eqn:E; [done|].
  rewrite map_get_set. case_decide as Hd; [|done]. by rewrite <-Hd, E.
Qed.

Lemma count_unregister p id' id :
  getActiveConnectionCount (unregisterInvocation p id') id =
  if decide (id' = id) then 0 else getActiveConnectionCount p id.
Proof.
  unfold getActiveConnectionCount, unregisterInvocation. cbn. case_decide as Hd.
  - by rewrite Hd, map_get_delete_eq.
  - by rewrite map_get_delete_ne.
Qed.

Lemma count_increment p id' id :
  getActiveConnectionCount (incrementActiveConnections p id') id =
  getActiveConnectionCount p id + (if decide (id' = id) then 1 else 0).
Proof.
  unfold incrementActiveConnections. rewrite count_with, map_get_set. case_decide as Hd; cbn; [by rewrite Hd|].
  unfold getActiveConnectionCount. lia.
Qed.

Lemma count_decrement p id' id :
  0 <= getActiveConnectionCount p id →
  getActiveConnectionCount (decrementActiveConnections p id') id =
  if decide (id' = id) then Z.max 0 (getActiveConnectionCount p id - 1) else getActiveConnectionCount p id.
Proof.
  unfold decrementActiveConnections. destruct (map_get (activeConnections p) id') as [n|] eqn:E.
  - destruct (Z.leb_spec n 1); rewrite count_with; unfold getActiveConnectionCount; case_decide as Hd.
    + subst id'. rewrite map_get_delete_eq, E. cbn. lia.
    + by rewrite map_get_delete_ne.
    + subst id'. rewrite map_get_set_eq, E. cbn. lia.
    + by rewrite map_get_set_ne.
  - case_decide as Hd; [|done]. subst id'. unfold getActiveConnectionCount. by rewrite E.
Qed.

(** How a step changes the tasks and the counters *)
Section steps.
Context (parse_url : jstr → result exn TargetUrl) (error_text : exn → jstr) (blocker : EgressIpBlocker).

Definition initial : System := {| proxy := empty_proxy; tasks := [] |}.
Definition runs (evs : list Event) (s : System) : Prop :=
  egress_run parse_url error_text blocker evs initial s.

Lemma start_request_waiting p req id w :
  start_request parse_url p req id = inr w →
  map_get (invocations p) id = Some (w_ctx w) ∧ w_id w = id ∧ permitted (w_ctx w) (w_dest w) = true ∧
  ∃ url, w_dest w = ToUrl req url ∧ parse_url (q_url req) = Ok url ∧
    (url_protocol url = js "http:" ∨ url_protocol url = js "https:" ∨ q_method req = js "CONNECT").
Proof.
  unfold start_request, check_invocation, check_allowlist.
  destruct (map_get _ _) as [ctx|] eqn:Ec; [|done]. destruct (_ <=? _); [done|].
  destruct (n_allowlist ctx) as [|e es] eqn:Ea; [done|]. destruct (parse_url _) as [url|] eqn:Eu; [|done].
  destruct (_ && _) eqn:Ep; [done|]. destruct (permitted _ _) eqn:Em; [|done]. intros [= <-]; cbn.
  split_and!; [done..|]. exists url. split_and!; [done..|].
  rewrite !andb_false_iff, !negb_false_iff, !jstr_eqb_eq in Ep. tauto.
Qed.

Lemma start_tunnel_waiting p target id left w :
  start_tunnel p target id left = inr w →
  map_get (invocations p) id = Some (w_ctx w) ∧ w_id w = id ∧ permitted (w_ctx w) (w_dest w) = true ∧
  ∃ host port, w_dest w = ToTunnel host port left.
Proof.
  unfold start_tunnel, check_invocation, check_allowlist.
  destruct (map_get _ _) as [ctx|] eqn:Ec; [|done]. destruct (_ <=? _); [done|].
  destruct (n_allowlist ctx) as [|e es] eqn:Ea; [done|]. destruct (permitted _ _) eqn:Em; [|done].
  intros [= <-]; cbn. eauto 10.
Qed.

(** A task that holds no connection yet *)
Definition fresh_task (p : EgressProxy) (t : Task) : Prop :=
  match t with
  | Validating w =>
      map_get (invocations p) (w_id w) = Some (w_ctx w) ∧ permitted (w_ctx w) (w_dest w) = true ∧
      match w_dest w with
      | ToUrl req url =>
          url_protocol url = js "http:" ∨ url_protocol url = js "https:" ∨ q_method req = js "CONNECT"
      | ToTunnel _ _ _ => True
      end
  | Connected _ _ => False
  | _ => True
  end.

Lemma fresh_request p req id : fresh_task p (task_of (start_request parse_url p req id)).
Proof.
  destruct (start_request parse_url p req id) as [r|w] eqn:E; [done|].
  apply start_request_waiting in E as (? & <- & ? & url & E & _ & ?). cbn. by rewrite E in *.
Qed.
Lemma fresh_tunnel p target id left : fresh_task p (task_of (start_tunnel p target id left)).
Proof.
  destruct (start_tunnel p target id left) as [r|w] eqn:E; [done|].
  apply start_tunnel_waiting in E as (? & <- & ? & h & port & E). cbn. by rewrite E in *.
Qed.

Lemma accept_fresh s reads : ∃ t, accept parse_url s reads = add_task s t ∧ fresh_task (proxy s) t.
Proof.
  unfold accept. destruct (handleConnection parse_url reads) as [[[]|]|];
    (eexists; split; [reflexivity|]); first [apply fresh_tunnel | apply fresh_request | done].
Qed.

(** The validation either leaves the counters and opens nothing, or takes a slot
    under the limit for an address that the blocker let through. *)
Lemma validated_cases p w r :
  (∃ t, validated error_text p w r = (p, t) ∧ match t with Validating _ | Connected _ _ => False | _ => True end) ∨
  (∃ br, r = Ok br ∧ blocked br = false ∧ getActiveConnectionCount p (w_id w) < max_connections (w_ctx w) ∧
     match w_dest w with ToUrl req _ => q_method req ≠ js "CONNECT" | ToTunnel _ _ _ => True end ∧
     validated error_text p w r = (incrementActiveConnections p (w_id w), Connected w (ip br))).
Proof.
  unfold validated. destruct r as [br|e]; [|by left; eexists]. destruct (blocked br) eqn:Eb; [by left; eexists|].
  destruct (Z.leb_spec (max_connections (w_ctx w)) (getActiveConnectionCount p (w_id w))); [by left; eexists|].
  destruct (w_dest w) as [req url|]; [destruct (jstr_eqb _ _) eqn:Ec; [by left; eexists|apply jstr_eqb_neq in Ec]|];
    right; by exists br.
Qed.

(** *** The accounting of connections *)

Lemma open_add s t id : fresh_task (proxy s) t → open_connections (add_task s t) id = open_connections s id.
Proof.
  intros Ht. unfold open_connections. cbn. rewrite filter_app, length_app, filter_cons.
  rewrite decide_False; [cbn; lia|]. destruct t; cbn in *; tauto.
Qed.

Lemma open_set s i t r id : tasks s !! i = Some t →
  open_connections (set_task s i r) id =
  open_connections s id - (if decide (connected id t) then 1 else 0) + (if decide (connected id r.2) then 1 else 0).
Proof.
  intros Hi. unfold open_connections. cbn.
  pose proof (filter_insert_length (connected id) (tasks s) i t r.2 Hi). repeat case_decide; lia.
Qed.

(** Slots taken are never more than the open connections, and exactly as many
    unless the invocation was unregistered in between. *)
Definition accounted (evs : list Event) (s : System) : Prop := ∀ id,
  0 <= getActiveConnectionCount (proxy s) id <= open_connections s id ∧
  (Unregister id ∉ evs → getActiveConnectionCount (proxy s) id = open_connections s id).

Lemma accounted_step evs ev s s' :
  accounted evs s → egress_step parse_url error_text blocker ev s s' → accounted (evs ++ [ev]) s'.
Proof.
  intros Ha Hs id. destruct (Ha id) as [Hr He]. rewrite elem_of_app, list_elem_of_singleton.
  assert (¬ (Unregister id ∈ evs ∨ Unregister id = ev) → getActiveConnectionCount (proxy s) id = open_connections s id)
    as He' by (intros Hn; apply He; tauto).
  clear Ha He. destruct Hs as [ctx s|id' s|reads s|req id' s|i dns w s Hi|i ok w address s Hi].
  - cbn [with_proxy proxy]. rewrite count_register. done.
  - cbn [with_proxy proxy]. rewrite count_unregister. case_decide as Hd; [|done]. subst id'.
    change (open_connections (with_proxy s _) id) with (open_connections s id).
    split; [lia|]. intros H. exfalso. apply H. by right.
  - destruct (accept_fresh s reads) as (t & -> & Ht). rewrite open_add by done. done.
  - rewrite open_add by apply fresh_request. done.
  - rewrite (open_set _ _ _ _ _ Hi). rewrite (decide_False (P := connected id (Validating w))) by (cbn; tauto).
    destruct (validated_cases (proxy s) w (validateDestination dns blocker (blocker_host (w_dest w))))
      as [(t & -> & Ht)|(br & _ & _ & _ & _ & ->)]; cbn [set_task proxy fst snd].
    + rewrite decide_False by (destruct t; cbn in *; tauto). rewrite Z.sub_0_r, Z.add_0_r. done.
    + rewrite count_increment. cbn [connected]. repeat case_decide; try done; (split; [lia|]); intros Hn;
        specialize (He' Hn); lia.
  - assert (0 <= open_connections (set_task s i (finished (proxy s) w ok)) id) as Ho by apply Nat2Z.is_nonneg.
    rewrite (open_set _ _ _ _ _ Hi) in Ho |- *. cbn [finished set_task proxy fst snd] in Ho |- *.
    rewrite (decide_False (P := connected id (if ok then Ended else _))) in Ho |- * by (destruct ok; cbn; tauto).
    rewrite count_decrement by lia. cbn [connected] in Ho |- *.
    repeat case_decide; try done; (split; [lia|]); intros Hn; specialize (He' Hn); lia.
Qed.

Lemma runs_accounted evs s : runs evs s → accounted evs s.
Proof.
  unfold runs. remember initial as s0 eqn:E0. induction 1 as [|evs ev s s1 s2 _ IH Hs].
  - subst. intros id. done.
  - by apply (accounted_step evs ev s1); [apply IH|].
Qed.

(** *** Where connections go *)

Definition registered (evs : list Event) (p : EgressProxy) : Prop :=
  ∀ id ctx, map_get (invocations p) id = Some ctx → n_invocationId ctx = id ∧ Register ctx ∈ evs.

(** A request that a registered invocation makes and its allowlist permits *)
Definition warranted (evs : list Event) (w : Waiting) : Prop :=
  Register (w_ctx w) ∈ evs ∧ n_invocationId (w_ctx w) = w_id w ∧ permitted (w_ctx w) (w_dest w) = true ∧
  match w_dest w with
  | ToUrl req url => url_protocol url = js "http:" ∨ url_protocol url = js "https:" ∨ q_method req = js "CONNECT"
  | ToTunnel _ _ _ => True
  end.

Definition task_ok (evs : list Event) (t : Task) : Prop :=
  match t with
  | Validating w => warranted evs w
  | Connected w address =>
      warranted evs w ∧ (∃ ip, tryParseIp address = Ok (Some ip) ∧ public ip) ∧
      match w_dest w with ToUrl req _ => q_method req ≠ js "CONNECT" | ToTunnel _ _ _ => True end
  | _ => True
  end.

Definition confined (evs : list Event) (s : System) : Prop :=
  registered evs (proxy s) ∧ Forall (task_ok evs) (tasks s).

Lemma task_ok_mono evs ev t : task_ok evs t → task_ok (evs ++ [ev]) t.
Proof. unfold task_ok, warranted. destruct t; rewrite ?elem_of_app; tauto. Qed.

Lemma registered_mono evs ev p : registered evs p → registered (evs ++ [ev]) p.
Proof. intros H id ctx Hc%H. rewrite elem_of_app. tauto. Qed.

Lemma fresh_task_ok evs p t : registered evs p → fresh_task p t → task_ok evs t.
Proof.
  intros Hr. destruct t as [w| | | |]; cbn; try tauto. intros ([Hid Hreg]%Hr & Hp & Hd). by split_and!.
Qed.

Lemma registered_same evs p p' : invocations p' = invocations p → registered evs p → registered evs p'.
Proof. intros E H id ctx. rewrite E. apply H. Qed.

Lemma decrement_invocations p id : invocations (decrementActiveConnections p id) = invocations p.
Proof. unfold decrementActiveConnections. by destruct (map_get _ _). Qed.

Lemma confined_step extra evs ev s s' : new_blocker extra = Ok blocker →
  confined evs s → egress_step parse_url error_text blocker ev s s' → confined (evs ++ [ev]) s'.
Proof.
  intros Hb [Hr Ht] Hs. assert (Forall (task_ok (evs ++ [ev])) (tasks s)) as Ht'
    by (eapply Forall_impl; [exact Ht|]; intros t; apply task_ok_mono).
  apply (registered_mono _ ev) in Hr. clear Ht. destruct Hs as [ctx s|id s|reads s|req id s|i dns w s Hi|i ok w address s Hi].
  - split; [|done]. intros id ctx'. cbn. rewrite map_get_set. case_decide as Hd; [|apply Hr].
    intros [= <-]. rewrite elem_of_app, list_elem_of_singleton. tauto.
  - split; [|done]. intros id' ctx' Hc. apply Hr. cbn in Hc. destruct (decide (id = id')) as [<-|Hd].
    + by rewrite map_get_delete_eq in Hc.
    + by rewrite map_get_delete_ne in Hc.
  - destruct (accept_fresh s reads) as (t & -> & Hf). split; [done|]. apply Forall_app. split; [done|].
    apply Forall_singleton. by apply (fresh_task_ok _ (proxy s)).
  - split; [done|]. apply Forall_app. split; [done|]. apply Forall_singleton. apply (fresh_task_ok _ (proxy s)); [done|].
    apply fresh_request.
  - pose proof (Forall_lookup_1 _ _ _ _ Ht' Hi) as Hw. cbn in Hw.
    destruct (validated_cases (proxy s) w (validateDestination dns blocker (blocker_host (w_dest w))))
      as [(t & -> & Hc)|(br & Hv & Hbl & _ & Hm & ->)]; split; cbn [set_task proxy tasks fst snd];
      try (apply Forall_insert; [done|]); try done; [by destruct t|].
    cbn. split_and!; [done| |done]. by apply (validated_public dns extra blocker (blocker_host (w_dest w))).
  - split; cbn [set_task proxy tasks fst snd finished].
    + apply (registered_same _ (proxy s)); [apply decrement_invocations|done].
    + apply Forall_insert; [done|]. by destruct ok.
Qed.

Lemma runs_confined extra evs s : new_blocker extra = Ok blocker → runs evs s → confined evs s.
Proof.
  intros Hb. unfold runs. remember initial as s0 eqn:E0. induction 1 as [|evs ev s s1 s2 _ IH Hs].
  - subst. split; [done|constructor].
  - by apply (confined_step extra evs ev s1); [|apply IH|].
Qed.

(** *** The limit *)

Lemma open_pos s i w address : tasks s !! i = Some (Connected w address) → 1 <= open_connections s (w_id w).
Proof.
  intros Hi. pose proof (open_set s i _ (proxy s, Ended) (w_id w) Hi) as E.
  pose proof (Nat2Z.is_nonneg (length (filter (connected (w_id w)) (tasks (set_task s i (proxy s, Ended)))))) as H.
  unfold open_connections at 1 in E. cbn [connected] in E. repeat case_decide; cbn in *; try done; lia.
Qed.

Definition within_limit (id : jstr) (limit : Z) (evs : list Event) : Prop :=
  Unregister id ∉ evs ∧ ∀ ctx, Register ctx ∈ evs → n_invocationId ctx = id → max_connections ctx <= limit.

Lemma within_limit_snoc id limit evs ev : within_limit id limit (evs ++ [ev]) → within_limit id limit evs.
Proof.
  intros [Hu Hm]. rewrite elem_of_app in Hu. split; [tauto|]. intros ctx Hc. apply Hm. rewrite elem_of_app. tauto.
Qed.

Lemma limit_step extra evs ev s s' id limit : new_blocker extra = Ok blocker →
  runs evs s → egress_step parse_url error_text blocker ev s s' → within_limit id limit evs →
  open_connections s id <= Z.max 0 limit → open_connections s' id <= Z.max 0 limit.
Proof.
  intros Hb Hrun Hs [Hu Hm] Hl. destruct (runs_confined _ _ _ Hb Hrun) as [_ Ht].
  destruct (runs_accounted _ _ Hrun id) as [_ He]. specialize (He Hu).
  destruct Hs as [ctx s|id' s|reads s|req id' s|i dns w s Hi|i ok w address s Hi]; try done.
  - destruct (accept_fresh s reads) as (t & -> & Hf). by rewrite open_add.
  - by rewrite open_add by apply fresh_request.
  - rewrite (open_set _ _ _ _ _ Hi), (decide_False (P := connected id (Validating w))) by (cbn; tauto).
    pose proof (Forall_lookup_1 _ _ _ _ Ht Hi) as (Hreg & Hid & _).
    destruct (validated_cases (proxy s) w (validateDestination dns blocker (blocker_host (w_dest w))))
      as [(t & -> & Hc)|(br & Hv & Hbl & Hlt & Hd & ->)]; cbn [fst snd].
    + rewrite decide_False by (destruct t; cbn in *; tauto). lia.
    + cbn [connected]. case_decide as Hd'; [|lia]. subst id. specialize (Hm _ Hreg Hid). lia.
  - rewrite (open_set _ _ _ _ _ Hi). rewrite (decide_False (P := connected id (finished _ _ _).2)) by (destruct ok; cbn; tauto).
    case_decide; lia.
Qed.

Lemma runs_limit extra evs s id limit : new_blocker extra = Ok blocker →
  runs evs s → within_limit id limit evs → open_connections s id <= Z.max 0 limit.
Proof.
  intros Hb. unfold runs at 1. remember initial as s0 eqn:E0. induction 1 as [|evs ev s s1 s2 Hrun IH Hs]; intros Hw.
  - subst. unfold open_connections. cbn. lia.
  - subst s. apply within_limit_snoc in Hw. apply (limit_step extra evs ev s1 s2 id limit Hb Hrun Hs Hw). by apply IH.
Qed.
End steps.

(** ** Theorems *)

Lemma sanitized_headers headers k : map_get (sanitizeForwardHeaders headers) k = None ∨
  to_lower k ≠ INVOCATION_ID_HEADER ∧ to_lower k ∉ HOP_BY_HOP.
Proof.
  unfold sanitizeForwardHeaders. destruct (map_get _ k) as [v|] eqn:E; [|by left].
  apply map_get_elem, list_elem_of_filter in E. right. apply E.
Qed.

Lemma upstream_headers req address url k :
  map_get (up_headers (upstream_options req address url)) k =
  if decide (js "host" = k) then Some (url_host url) else map_get (sanitizeForwardHeaders (q_headers req)) k.
Proof. cbn. apply map_get_set. Qed.

Lemma upstream_hides_invocation req address url :
  map_get (up_headers (upstream_options req address url)) INVOCATION_ID_HEADER = None.
Proof.
  rewrite upstream_headers. case_decide as Hd; [by vm_compute in Hd|].
  destruct (sanitized_headers (q_headers req) INVOCATION_ID_HEADER) as [?|[H _]]; [done|]. by destruct H.
Qed.

(** The identifier in a query goes upstream: a request on the socket may name its
    invocation there, and the query is forwarded as it is. *)
Lemma query_identifier_forwarded :
  let head := parse_request_head (js "GET http://www.good.example/?invocationId=inv-1 HTTP/1.1") in
  let url := {| url_protocol := js "http:"; url_hostname := js "www.good.example"; url_port := [];
                url_host := js "www.good.example"; url_pathname := js "/"; url_search := js "?invocationId=inv-1" |} in
  let req := {| q_method := js "GET"; q_url := js "http://www.good.example/?invocationId=inv-1"; q_headers := [];
                q_body := None |} in
  (rh_invocationId <$> default None (match head with Ok h => Some h | Err _ => None end)) = Some (js "inv-1") ∧
  up_path (upstream_options req (js "93.184.216.34") url) = js "/?invocationId=inv-1".
Proof. vm_compute. split; reflexivity. Qed.

(** C34: Egress is confined (PLAT-5): in every run of the proxy, whatever arrives
    on its socket, however requests, registrations and DNS answers interleave
    and whatever the DNS answers each time, an open upstream connection leads to
    a public address, and was asked for under an invocation that was registered
    with an allowlist that names the host and the port; a forwarded request goes
    to that address, with the URL's host and without the header that holds the
    invocation's identifier.  (Its path and query are those of the URL, also
    when the query names the invocation: [query_identifier_forwarded].) *)
Theorem egress_confined parse_url error_text extra blocker evs s i w address :
  new_blocker extra = Ok blocker → runs parse_url error_text blocker evs s →
  tasks s !! i = Some (Connected w address) →
  (∃ ip, tryParseIp address = Ok (Some ip) ∧ public ip) ∧
  Register (w_ctx w) ∈ evs ∧ n_invocationId (w_ctx w) = w_id w ∧
  (∃ entry, entry ∈ n_allowlist (w_ctx w) ∧
     allows entry (normalizeHostname (target_host (w_dest w))) (target_port (w_dest w))) ∧
  match w_dest w with
  | ToUrl req url =>
      (url_protocol url = js "http:" ∨ url_protocol url = js "https:") ∧
      up_host (upstream_options req address url) = address ∧
      map_get (up_headers (upstream_options req address url)) (js "host") = Some (url_host url) ∧
      map_get (up_headers (upstream_options req address url)) INVOCATION_ID_HEADER = None ∧
      up_path (upstream_options req address url) = url_pathname url ++ url_search url
  | ToTunnel _ _ _ => True
  end.
Proof.
  intros Hb Hrun Hi. destruct (runs_confined _ _ _ _ _ _ Hb Hrun) as [_ Ht].
  destruct (Forall_lookup_1 _ _ _ _ Ht Hi) as ((Hreg & Hid & Hp & Hd) & Haddr & Hm).
  split_and!; [done..| |].
  - apply existsb_true_iff in Hp as (entry & He & Hp). exists entry. by apply matches_allows in Hp.
  - destruct (w_dest w) as [req url|]; [|done]. split_and!; [tauto|done| |apply upstream_hides_invocation|done].
    by rewrite upstream_headers, decide_True.
Qed.

(** Outbound concurrency (FN-5): the counter of an invocation never exceeds its
    open connections, so no slot leaks; unless the invocation is unregistered in
    between, the counter is exact, and the open connections never exceed the
    largest limit the invocation was registered with, however the requests
    interleave: the limit is looked at again after the wait for the DNS. *)
Theorem egress_concurrency parse_url error_text extra blocker evs s id :
  new_blocker extra = Ok blocker → runs parse_url error_text blocker evs s →
  0 <= getActiveConnectionCount (proxy s) id <= open_connections s id ∧
  (Unregister id ∉ evs →
     getActiveConnectionCount (proxy s) id = open_connections s id ∧
     ∀ limit, 0 <= limit →
       (∀ ctx, Register ctx ∈ evs → n_invocationId ctx = id → max_connections ctx <= limit) →
       open_connections s id <= limit).
Proof.
  intros Hb Hrun. destruct (runs_accounted _ _ _ _ _ Hrun id) as [Hr He]. split; [done|]. intros Hu.
  split; [by apply He|]. intros limit Hl Hm.
  pose proof (runs_limit _ _ _ _ _ _ id limit Hb Hrun (conj Hu Hm)). lia.
Qed.

(** Framing: however the bytes of a request are cut into reads, if the headers
    end within the buffer, the header text is what precedes the first empty line,
    and the forwarded body is what follows it, up to the declared length and not
    a byte further; without a length, everything. *)
Theorem request_framing reads i contentLength :
  findHeaderEnd (concat reads) = Some i → Z.of_nat (i + 4) <= MAX_HEADER_BUFFER_SIZE →
  match contentLength with Some n => 0 < n | None => True end →
  ∃ leftoverBytes rest,
    readHttpHeaders [] reads = Some (take i (concat reads), leftoverBytes, rest) ∧
    concat (body_chunks contentLength leftoverBytes rest) = body_of contentLength (drop (i + 4) (concat reads)).
Proof.
  intros Hi Hm Hn. destruct (readHttpHeaders_complete reads [] i) as (l & rest & Hr & Hl); [done..|].
  exists l, rest. split; [done|]. rewrite body_chunks_bytes by done. by rewrite Hl.
Qed.

(** *** A run: a tunnel and a second request over the limit *)

Definition demo_url (s : jstr) : result exn TargetUrl :=
  if jstr_eqb s (js "http://www.good.example/") then
    Ok {| url_protocol := js "http:"; url_hostname := js "www.good.example"; url_port := [];
          url_host := js "www.good.example"; url_pathname := js "/"; url_search := [] |}
  else Err TypeError.
Definition demo_ctx : InvocationNetworkContext :=
  {| n_invocationId := js "inv-1"; n_allowlist := [js "*.good.example:80"; js "good.example:443"];
     n_maxConcurrentConnections := Some 1 |}.
Definition demo_dns (host : jstr) : result exn (list jstr) := Ok [js "93.184.216.34"].
Definition demo_reads : list (list Z) :=
  [js "CONNECT good.example:443 HTTP/1.1" ++ CRLF ++ js "X-RailFog-"; js "Invocation-Id: inv-1" ++ CRLF ++ [13];
   [10] ++ js "hello"].
Definition demo_request : OutRequest :=
  {| q_method := js "GET"; q_url := js "http://www.good.example/"; q_headers := []; q_body := None |}.
Definition demo_text (e : exn) : jstr := [].
Definition demo_s1 : System := with_proxy initial (registerInvocation empty_proxy demo_ctx).
Definition demo_s2 : System := accept demo_url demo_s1 demo_reads.
Definition demo_s3 : System := add_task demo_s2 (task_of (start_request demo_url (proxy demo_s2) demo_request (js "inv-1"))).
Definition demo_w : Waiting :=
  {| w_id := js "inv-1"; w_ctx := demo_ctx; w_dest := ToTunnel (js "good.example") 443 (js "hello") |}.
Definition demo_w' : Waiting :=
  {| w_id := js "inv-1"; w_ctx := demo_ctx; w_dest := ToUrl demo_request
       {| url_protocol := js "http:"; url_hostname := js "www.good.example"; url_port := [];
          url_host := js "www.good.example"; url_pathname := js "/"; url_search := [] |} |}.
Definition demo_s4 : System :=
  set_task demo_s3 0 (validated demo_text (proxy demo_s3) demo_w
    (validateDestination demo_dns default_ranges (blocker_host (w_dest demo_w)))).
Definition demo_s5 : System :=
  set_task demo_s4 1 (validated demo_text (proxy demo_s4) demo_w'
    (validateDestination demo_dns default_ranges (blocker_host (w_dest demo_w')))).
Definition demo_events : list Event :=
  [Register demo_ctx; Connection demo_reads; Direct demo_request (js "inv-1"); Resolved 0 demo_dns; Resolved 1 demo_dns].

Lemma demo_run : runs demo_url demo_text default_ranges demo_events demo_s5.
Proof.
  unfold runs. eapply (run_snoc _ _ _ [_; _; _; _] _ _ demo_s4); [|apply step_resolved; vm_compute; reflexivity].
  eapply (run_snoc _ _ _ [_; _; _] _ _ demo_s3); [|apply step_resolved; vm_compute; reflexivity].
  eapply (run_snoc _ _ _ [_; _] _ _ demo_s2); [|apply step_direct].
  eapply (run_snoc _ _ _ [_] _ _ demo_s1); [|apply step_connection].
  eapply (run_snoc _ _ _ [] _ _ initial); [constructor|apply step_register].
Qed.

Theorem egress_confined_witness :
  (∃ ip, tryParseIp (js "93.184.216.34") = Ok (Some ip) ∧ public ip) ∧
  tasks demo_s5 !! 1%nat = Some (Refused limit_exceeded).
Proof.
  split; [|vm_compute; reflexivity].
  assert (new_blocker None = Ok default_ranges) as Hb by (vm_compute; reflexivity).
  assert (tasks demo_s5 !! 0%nat = Some (Connected demo_w (js "93.184.216.34"))) as Hi by (vm_compute; reflexivity).
  apply (egress_confined demo_url demo_text None default_ranges demo_events demo_s5 0 demo_w _ Hb demo_run Hi).
Defined.

Theorem egress_concurrency_witness :
  open_connections demo_s5 (js "inv-1") <= 1 ∧ getActiveConnectionCount (proxy demo_s5) (js "inv-1") = 1.
Proof.
  assert (new_blocker None = Ok default_ranges) as Hb by (vm_compute; reflexivity).
  destruct (egress_concurrency demo_url demo_text None default_ranges demo_events demo_s5 (js "inv-1") Hb demo_run)
    as [_ H].
  destruct H as [He Hl].
  { intros Hu. unfold demo_events in Hu. repeat (apply elem_of_cons in Hu as [Hu|Hu]; [discriminate Hu|]).
    apply elem_of_nil in Hu. destruct Hu. }
  split; [|vm_compute; reflexivity]. apply Hl; [lia|]. intros ctx Hc _.
  unfold demo_events in Hc.
  repeat (apply elem_of_cons in Hc as [Hc|Hc];
          [first [discriminate Hc | injection Hc as ->; vm_compute; discriminate]|]).
  apply elem_of_nil in Hc. destruct Hc.
Defined.

Theorem request_framing_witness :
  (∃ leftoverBytes rest, readHttpHeaders [] demo_reads = Some (take 65 (concat demo_reads), leftoverBytes, rest) ∧
     concat (body_chunks (Some 3) leftoverBytes rest) = js "hel").
Proof.
  destruct (request_framing demo_reads 65 (Some 3)) as (l & rest & Hr & Hb);
    [vm_compute; reflexivity|vm_compute; discriminate|lia|].
  exists l, rest. split; [exact Hr|]. rewrite Hb. vm_compute. reflexivity.
Defined.

(** *** What unregistering forgets

    An invocation that is unregistered while it holds a connection, and
    registered again, may hold one more than its limit. *)

Definition again_s3 : System :=
  set_task demo_s2 0 (validated demo_text (proxy demo_s2) demo_w
    (validateDestination demo_dns default_ranges (blocker_host (w_dest demo_w)))).
Definition again_s5 : System :=
  let s := with_proxy again_s3 (unregisterInvocation (proxy again_s3) (js "inv-1")) in
  with_proxy s (registerInvocation (proxy s) demo_ctx).
Definition again_s6 : System :=
  add_task again_s5 (task_of (start_request demo_url (proxy again_s5) demo_request (js "inv-1"))).
Definition again_s7 : System :=
  set_task again_s6 1 (validated demo_text (proxy again_s6) demo_w'
    (validateDestination demo_dns default_ranges (blocker_host (w_dest demo_w')))).

Lemma unregistering_forgets :
  (∃ evs, runs demo_url demo_text default_ranges evs again_s7 ∧ ∀ ctx, Register ctx ∈ evs → max_connections ctx = 1) ∧
  open_connections again_s7 (js "inv-1") = 2.
Proof.
  split; [|vm_compute; reflexivity].
  exists [Register demo_ctx; Connection demo_reads; Resolved 0 demo_dns; Unregister (js "inv-1"); Register demo_ctx;
          Direct demo_request (js "inv-1"); Resolved 1 demo_dns]. split.
  - unfold runs. eapply (run_snoc _ _ _ [_; _; _; _; _; _] _ _ again_s6); [|apply step_resolved; vm_compute; reflexivity].
    eapply (run_snoc _ _ _ [_; _; _; _; _] _ _ again_s5); [|apply step_direct].
    eapply (run_snoc _ _ _ [_; _; _; _] _ _ _); [|apply step_register].
    eapply (run_snoc _ _ _ [_; _; _] _ _ again_s3); [|apply step_unregister].
    eapply (run_snoc _ _ _ [_; _] _ _ demo_s2); [|apply step_resolved; vm_compute; reflexivity].
    eapply (run_snoc _ _ _ [_] _ _ demo_s1); [|apply step_connection].
    eapply (run_snoc _ _ _ [] _ _ initial); [constructor|apply step_register].
  - intros ctx Hc.
    repeat (apply elem_of_cons in Hc as [Hc|Hc]; [first [discriminate Hc | injection Hc as ->; reflexivity]|]).
    apply elem_of_nil in Hc. destruct Hc.
Qed.
