(* ===== verification/Secrets.v ===== *)
(** * Secrets ([packages/policy/secret-store.ts], [runtime/loader/secret-injector.ts], PLAT-15, PLAT-7)

    The encrypted record, the store over its two backends, memory and files, and
    the binding through which a function reads its secrets.  The ciphers are the
    class [Crypto], the joining of paths the class [PathJoin]; the random salt and
    nonce are arguments.  A file is its path and its content; the errors of the
    file system other than a missing file are not modelled. *)

From S2P Require Import Prelude JsString JsMap Errors Utf8 Uri TextDecoder.

Open Scope Z_scope.
Open Scope railfog_scope.

(** ** Interfaces *)

(** PBKDF2 and AES-GCM of the platform: a key from the master key and a salt, and
    the ciphertext with its tag for a key and a nonce *)
Class Crypto := {
  crypto_key : Type;
  deriveKey : list Z → list Z → crypto_key;
  gcm_encrypt : crypto_key → list Z → list Z → list Z;
  gcm_decrypt : crypto_key → list Z → list Z → result exn (list Z)
}.

(** [join] of [@std/path] *)
Class PathJoin := join : list jstr → jstr.

(** ** Identifiers *)

Definition FORBIDDEN_IDENTIFIER_CHARS : list Z := Eval vm_compute in [60; 62; 58; 34; 47; 92; 124; 63; 42].

Definition hasControlChar (str : jstr) : bool := existsb (λ code, ((0 <=? code) && (code <=? 0x1f)) || (code =? 0x7f)) str.

Definition assertValidIdentifier (value : jstr) : result exn unit :=
  throw_if (bool_decide (value = [])) ValidationFailedError ≫= λ _,
  throw_if (negb (jstr_eqb value (trim value)) || jstr_eqb value (js ".") || jstr_eqb value (js "..") ||
            includes value (js "..") || ends_with value (js ".") ||
            existsb (λ c, bool_decide (c ∈ FORBIDDEN_IDENTIFIER_CHARS)) value || hasControlChar value)
    ValidationFailedError.

(** ** Records *)

Definition RECORD_MAGIC : list Z := [0x52; 0x46; 0x53; 0x31].
Definition MAGIC_LENGTH : nat := 4.
Definition SALT_LENGTH_BYTES : nat := 16.
Definition IV_LENGTH_BYTES : nat := 12.
Definition TAG_LENGTH_BYTES : nat := 16.
Definition MIN_RECORD_LENGTH_BYTES : nat := MAGIC_LENGTH + SALT_LENGTH_BYTES + IV_LENGTH_BYTES + TAG_LENGTH_BYTES.
Definition FILE_EXTENSION : jstr := js ".enc".

Inductive MasterKey := KeyText (s : jstr) | KeyBytes (bs : list Z).

Definition raw_key (k : MasterKey) : list Z := match k with KeyText s => text_encode s | KeyBytes bs => bs end.

(** The random bytes of one encryption *)
Record Nonce := { salt : list Z; iv : list Z }.

Section record.
Context `{Crypto} (masterKey : MasterKey).

Definition encrypt (r : Nonce) (plaintext : jstr) : list Z :=
  RECORD_MAGIC ++ salt r ++ iv r ++ gcm_encrypt (deriveKey (raw_key masterKey) (salt r)) (iv r) (text_encode plaintext).

Definition slice (i j : nat) (bs : list Z) : list Z := take (j - i) (drop i bs).

Definition decrypt (record : list Z) : result exn jstr :=
  throw_if (bool_decide (length record < MIN_RECORD_LENGTH_BYTES)%nat) ValidationFailedError ≫= λ _,
  throw_if (negb (bool_decide (take MAGIC_LENGTH record = RECORD_MAGIC))) ValidationFailedError ≫= λ _,
  let salt := slice MAGIC_LENGTH (MAGIC_LENGTH + SALT_LENGTH_BYTES) record in
  let iv := slice (MAGIC_LENGTH + SALT_LENGTH_BYTES) (MAGIC_LENGTH + SALT_LENGTH_BYTES + IV_LENGTH_BYTES) record in
  let ciphertextAndTag := drop (MAGIC_LENGTH + SALT_LENGTH_BYTES + IV_LENGTH_BYTES) record in
  match gcm_decrypt (deriveKey (raw_key masterKey) salt) iv ciphertextAndTag with
  | Ok plaintext => Ok (text_decode plaintext)
  | Err _ => Err ValidationFailedError
  end.
End record.

(** ** The store *)

Record SecretStore := {
  memoryStore : jsmap jstr (jsmap jstr (jsmap jstr (list Z)));
  disk : jsmap jstr (list Z)
}.

Definition with_memory (s : SecretStore) m : SecretStore := {| memoryStore := m; disk := disk s |}.
Definition with_files (s : SecretStore) d : SecretStore := {| memoryStore := memoryStore s; disk := d |}.

(** [new LocalEncryptedSecretStore({ masterKey })] *)
Definition new_secret_store (masterKey : MasterKey) : result exn SecretStore :=
  throw_if (match masterKey with KeyText [] | KeyBytes [] => true | _ => false end) ValidationFailedError ≫= λ _,
  Ok {| memoryStore := []; disk := [] |}.

Section store.
Context `{Crypto, PathJoin} (masterKey : MasterKey) (storagePath : option jstr).

Definition getProjectDir (path orgId projectId : jstr) : jstr := join [path; orgId; projectId].
Definition getRecordPath (path orgId projectId name : jstr) : result exn jstr :=
  encodeURIComponent name ≫= λ encoded, Ok (join [path; orgId; projectId; encoded ++ FILE_EXTENSION]).

Definition memory_get (s : SecretStore) (orgId projectId name : jstr) : option (list Z) :=
  map_get (memoryStore s) orgId ≫= λ orgMap, map_get orgMap projectId ≫= λ projMap, map_get projMap name.

Definition checked_ids (orgId projectId name : jstr) : result exn unit :=
  assertValidIdentifier orgId ≫= λ _, assertValidIdentifier projectId ≫= λ _, assertValidIdentifier name.

(** The record of a secret *)
Definition find_record (s : SecretStore) (orgId projectId name : jstr) : result exn (option (list Z)) :=
  match storagePath with
  | Some path => getRecordPath path orgId projectId name ≫= λ filePath, Ok (map_get (disk s) filePath)
  | None => Ok (memory_get s orgId projectId name)
  end.

Definition get (orgId projectId name : jstr) : stm SecretStore exn (option jstr) :=
  _ <~ st_lift (checked_ids orgId projectId name) ;;
  s <~ st_get ;;
  record <~ st_lift (find_record s orgId projectId name) ;;
  match record with
  | None => st_ret None
  | Some record => v <~ st_lift (decrypt masterKey record) ;; st_ret (Some v)
  end.

Definition memory_set (s : SecretStore) (orgId projectId name : jstr) (record : list Z) : SecretStore :=
  let orgMap := default [] (map_get (memoryStore s) orgId) in
  let projMap := default [] (map_get orgMap projectId) in
  with_memory s (map_set (memoryStore s) orgId (map_set orgMap projectId (map_set projMap name record))).

Definition set (r : Nonce) (orgId projectId name value : jstr) : stm SecretStore exn unit :=
  _ <~ st_lift (checked_ids orgId projectId name) ;;
  let record := encrypt masterKey r value in
  match storagePath with
  | Some path =>
      filePath <~ st_lift (getRecordPath path orgId projectId name) ;;
      st_modify (λ s, with_files s (map_set (disk s) filePath record))
  | None => st_modify (λ s, memory_set s orgId projectId name record)
  end.

Definition memory_delete (s : SecretStore) (orgId projectId name : jstr) : SecretStore :=
  match map_get (memoryStore s) orgId with
  | None => s
  | Some orgMap =>
      match map_get orgMap projectId with
      | None => s
      | Some projMap =>
          with_memory s
            match map_delete projMap name with
            | [] =>
                match map_delete orgMap projectId with
                | [] => map_delete (memoryStore s) orgId
                | orgMap => map_set (memoryStore s) orgId orgMap
                end
            | projMap => map_set (memoryStore s) orgId (map_set orgMap projectId projMap)
            end
      end
  end.

Definition delete (orgId projectId name : jstr) : stm SecretStore exn unit :=
  _ <~ st_lift (checked_ids orgId projectId name) ;;
  match storagePath with
  | Some path =>
      filePath <~ st_lift (getRecordPath path orgId projectId name) ;;
      st_modify (λ s, with_files s (map_delete (disk s) filePath))
  | None => st_modify (λ s, memory_delete s orgId projectId name)
  end.

(** The names of the files of a directory: what follows the directory, without a
    further slash *)
Definition entry_name (dir path : jstr) : option jstr :=
  if starts_with path (dir ++ js "/") then
    let name := drop (length dir + 1) path in
    if includes name (js "/") then None else Some name
  else None.

(** The name of the secret that a file holds *)
Definition secret_name (file : jstr) : option jstr :=
  if ends_with file FILE_EXTENSION then
    match decodeURIComponent (take (length file - length FILE_EXTENSION) file) with Ok n => Some n | Err _ => None end
  else None.

Definition listNames (orgId projectId : jstr) : stm SecretStore exn (list jstr) :=
  _ <~ st_lift (assertValidIdentifier orgId) ;;
  _ <~ st_lift (assertValidIdentifier projectId) ;;
  s <~ st_get ;;
  st_ret
    match storagePath with
    | Some path =>
        omap (λ file, entry_name (getProjectDir path orgId projectId) file ≫= secret_name) (map_keys (disk s))
    | None =>
        match map_get (memoryStore s) orgId ≫= λ orgMap, map_get orgMap projectId with
        | Some projMap => map_keys projMap
        | None => []
        end
    end.
End store.

(** ** Injection *)

(** [SecretInjector.resolveEnvBinding] over the [get] of a store: the resolved
    secrets, which the binding's [get] reads *)
Section injector.
Context {S : Type} (store_get : jstr → jstr → jstr → stm S exn (option jstr)).

Fixpoint resolve_all (orgId projectId : jstr) (names : list jstr) : stm S exn (list (jstr * option jstr)) :=
  match names with
  | [] => st_ret []
  | name :: names =>
      val <~ store_get orgId projectId name ;;
      entries <~ resolve_all orgId projectId names ;;
      st_ret ((name, val) :: entries)
  end.

Definition resolved_env (entries : list (jstr * option jstr)) : jsmap jstr jstr :=
  fold_left (λ resolved e, match e.2 with Some v => map_set resolved e.1 v | None => resolved end) entries [].

Definition resolveEnvBinding (orgId projectId : jstr) (allowedSecrets : list jstr) : stm S exn (jsmap jstr jstr) :=
  _ <~ st_lift (assertValidIdentifier orgId) ;;
  _ <~ st_lift (assertValidIdentifier projectId) ;;
  entries <~ resolve_all orgId projectId (set_of_list allowedSecrets) ;;
  st_ret (resolved_env entries).

Definition env_get (env : jsmap jstr jstr) (key : jstr) : option jstr := map_get env key.
End injector.

(** ** Paths *)

Lemma slash_app_inj (a a' r r' : jstr) :
  47 ∉ a → 47 ∉ a' → a ++ 47 :: r = a' ++ 47 :: r' → a = a' ∧ r = r'.
Proof.
  revert a'. induction a as [|x a IH]; intros [|x' a'] Ha Ha'; cbn; intros; simplify_eq.
  - done.
  - set_solver.
  - set_solver.
  - edestruct (IH a') as [-> ->]; [set_solver|set_solver|done|done].
Qed.

(** A part of a path *)
Definition segment (s : jstr) : Prop := s ≠ [] ∧ 47 ∉ s ∧ s ≠ js "." ∧ s ≠ js "..".

Lemma valid_segment v u : assertValidIdentifier v = Ok u → segment v.
Proof.
  unfold assertValidIdentifier. intros H. apply bind_Ok in H as ([] & H1%throw_if_Ok & H2%throw_if_Ok).
  rewrite !orb_false_iff in H2. destruct H2 as [[[[[[_ Hd] Hdd] _] _] Hf] _].
  apply bool_decide_eq_false in H1. apply jstr_eqb_neq in Hd, Hdd. rewrite existsb_false_iff, Forall_forall in Hf.
  split_and!; [done| |done|done]. intros Hin. specialize (Hf _ Hin). by vm_compute in Hf.
Qed.

Lemma encoded_segment n e : jstr_wf n → encodeURIComponent n = Ok e → segment (e ++ FILE_EXTENSION).
Proof.
  intros Hwf He. pose proof (encodeURIComponent_chars n e Hwf He) as Hc. rewrite Forall_forall in Hc.
  assert (4 <= length (e ++ FILE_EXTENSION))%nat as Hl by (rewrite length_app; cbn; lia).
  split_and!; try (intros E; rewrite E in Hl; cbn in Hl; lia).
  intros [[_ [Hin _]]%Hc|Hin]%elem_of_app; [done|]. vm_compute in Hin. set_solver.
Qed.

(** What [join] does with a fixed directory and further parts *)
Definition joins_under `{PathJoin} (path root : jstr) : Prop := ∀ segs,
  segs ≠ [] → Forall segment segs → join (path :: segs) = root ++ flat_map (cons 47) segs.

(** ** The ciphers *)

(** Decryption undoes encryption; the tag is 16 bytes. *)
Class CryptoLaws `{Crypto} := {
  gcm_roundtrip k n p : gcm_decrypt k n (gcm_encrypt k n p) = Ok p;
  gcm_length k n p : length (gcm_encrypt k n p) = (length p + TAG_LENGTH_BYTES)%nat
}.

Definition nonce_ok (r : Nonce) : Prop := length (salt r) = SALT_LENGTH_BYTES ∧ length (iv r) = IV_LENGTH_BYTES.

Section secrets.
Context `{CryptoLaws, PathJoin} (masterKey : MasterKey) (storagePath : option jstr).

Lemma decrypt_encrypt r v : nonce_ok r → jstr_wf v → utf8_safe v → decrypt masterKey (encrypt masterKey r v) = Ok v.
Proof.
  intros [Hs Hi] Hwf Hv. unfold decrypt, encrypt.
  set (c := gcm_encrypt _ _ _). assert (TAG_LENGTH_BYTES <= length c)%nat as Hc by (subst c; rewrite gcm_length; lia).
  rewrite (bool_decide_false (_ < _)%nat)
    by (rewrite !length_app, Hs, Hi; unfold MIN_RECORD_LENGTH_BYTES, MAGIC_LENGTH; cbn [length RECORD_MAGIC]; lia).
  cbn [throw_if mbind result_bind]. change MAGIC_LENGTH with (length RECORD_MAGIC).
  rewrite take_app_length, bool_decide_true by done. cbn [negb throw_if mbind result_bind].
  unfold slice. rewrite <-Hs, <-Hi.
  replace (length RECORD_MAGIC + length (salt r) - length RECORD_MAGIC)%nat with (length (salt r)) by lia.
  replace (length RECORD_MAGIC + length (salt r) + length (iv r) - (length RECORD_MAGIC + length (salt r)))%nat
    with (length (iv r)) by lia.
  rewrite <-(Nat.add_assoc _ (length (salt r)) (length (iv r))), !drop_app_add, !drop_app_length, !take_app_length.
  subst c.
  rewrite gcm_roundtrip. f_equal. by apply text_roundtrip.
Qed.

(** A secret that can be stored: its identifiers are valid and its name can be
    the name of a file *)
Definition addressable (orgId projectId name : jstr) : Prop :=
  checked_ids orgId projectId name = Ok tt ∧ jstr_wf name ∧ ∃ e, encodeURIComponent name = Ok e.

Definition storage_ok : Prop := match storagePath with Some path => ∃ root, joins_under path root | None => True end.

Lemma checked_segments o p n : checked_ids o p n = Ok tt → segment o ∧ segment p ∧ segment n.
Proof.
  unfold checked_ids. intros Hc. inv_ok Hc. split_and!; by eapply valid_segment.
Qed.

Lemma record_path path root o p n : joins_under path root → addressable o p n →
  ∃ e, encodeURIComponent n = Ok e ∧ 47 ∉ e ++ FILE_EXTENSION ∧
    getRecordPath path o p n = Ok (root ++ 47 :: o ++ 47 :: p ++ 47 :: e ++ FILE_EXTENSION).
Proof.
  intros Hj (Hc & Hwf & e & He). exists e. pose proof (encoded_segment n e Hwf He) as Hs.
  destruct (checked_segments _ _ _ Hc) as (Ho & Hp & _). split_and!; [done|apply Hs|].
  unfold getRecordPath. rewrite He. cbn [mbind result_bind]. rewrite Hj; [|done|by do 3 (apply Forall_cons_2; [done|])].
  cbn. by rewrite app_nil_r.
Qed.

Lemma record_path_inj path root o p n o' p' n' f f' : joins_under path root →
  addressable o p n → addressable o' p' n' →
  getRecordPath path o p n = Ok f → getRecordPath path o' p' n' = Ok f' → f = f' → (o, p, n) = (o', p', n').
Proof.
  intros Hj Ha Ha' Hf Hf' ->. pose proof Ha as (Hc & Hwf & _). pose proof Ha' as (Hc' & Hwf' & _).
  destruct (record_path path root o p n Hj Ha) as (e & He & Hn & E).
  destruct (record_path path root o' p' n' Hj Ha') as (e' & He' & Hn' & E').
  destruct (checked_segments _ _ _ Hc) as ((_ & Ho & _) & (_ & Hp & _) & _).
  destruct (checked_segments _ _ _ Hc') as ((_ & Ho' & _) & (_ & Hp' & _) & _).
  assert (root ++ 47 :: o ++ 47 :: p ++ 47 :: e ++ FILE_EXTENSION =
          root ++ 47 :: o' ++ 47 :: p' ++ 47 :: e' ++ FILE_EXTENSION) as Er by congruence.
  apply (inj (app root)) in Er. injection Er as Er.
  apply slash_app_inj in Er as [-> Er]; [|done..]. apply slash_app_inj in Er as [-> Er]; [|done..].
  apply (inj (λ x, x ++ FILE_EXTENSION)) in Er. subst e'. by rewrite (encodeURIComponent_inj n n' e).
Qed.

(** *** What a set and a delete do to the records *)

Lemma memory_get_set s o p n rec o' p' n' :
  memory_get (memory_set s o p n rec) o' p' n' =
  if decide ((o, p, n) = (o', p', n')) then Some rec else memory_get s o' p' n'.
Proof.
  unfold memory_get, memory_set. cbn [memoryStore with_memory]. rewrite map_get_set.
  destruct (decide (o = o')) as [<-|Ho]; [|by rewrite decide_False by congruence].
  cbn [mbind option_bind]. rewrite map_get_set.
  destruct (decide (p = p')) as [<-|Hp]; cbn [mbind option_bind].
  - rewrite map_get_set. destruct (decide (n = n')) as [<-|Hn]; [by rewrite decide_True|].
    rewrite decide_False by congruence. destruct (map_get (memoryStore s) o) as [om|]; [|done]. cbn.
    by destruct (map_get om p).
  - rewrite decide_False by congruence. by destruct (map_get (memoryStore s) o).
Qed.

(** Pruning of empty maps is invisible. *)
Lemma pruned_get {V} (m : jsmap jstr (jsmap jstr V)) k inner k1 k2 :
  (map_get match inner with [] => map_delete m k | _ => map_set m k inner end k1 ≫= λ i, map_get i k2) =
  if decide (k = k1) then map_get inner k2 else map_get m k1 ≫= λ i, map_get i k2.
Proof.
  destruct inner as [|e inner]; case_decide as Hd; try subst k1.
  - by rewrite map_get_delete_eq.
  - by rewrite map_get_delete_ne.
  - by rewrite map_get_set_eq.
  - by rewrite map_get_set_ne.
Qed.

Lemma memory_get_delete s o p n o' p' n' :
  memory_get (memory_delete s o p n) o' p' n' =
  if decide ((o, p, n) = (o', p', n')) then None else memory_get s o' p' n'.
Proof.
  unfold memory_delete. destruct (map_get (memoryStore s) o) as [om|] eqn:Eo.
  2: { case_decide; [|done]. simplify_eq. unfold memory_get. by rewrite Eo. }
  destruct (map_get om p) as [pm|] eqn:Ep.
  2: { case_decide; [|done]. simplify_eq. unfold memory_get. rewrite Eo. cbn. by rewrite Ep. }
  set (om' := match map_delete pm n with [] => map_delete om p | pm' => map_set om p pm' end).
  assert (∀ n', (map_get om' p' ≫= λ i, map_get i n') =
    if decide (p = p') then map_get (map_delete pm n) n' else map_get om p' ≫= λ i, map_get i n') as Hom
    by (intros x; rewrite <-(pruned_get om p (map_delete pm n)); unfold om'; by destruct (map_delete pm n)).
  assert (memory_get (with_memory s match map_delete pm n with
            | [] => match map_delete om p with [] => map_delete (memoryStore s) o | om => map_set (memoryStore s) o om end
            | pm => map_set (memoryStore s) o (map_set om p pm) end) o' p' n' =
          if decide (o = o') then map_get om' p' ≫= λ i, map_get i n' else memory_get s o' p' n') as ->.
  - unfold memory_get, om'. cbn [memoryStore with_memory].
    destruct (map_delete pm n) as [|e pm'].
    + destruct (map_delete om p) as [|e om'']; destruct (decide (o = o')) as [<-|Hd];
        [by rewrite map_get_delete_eq|by rewrite map_get_delete_ne|by rewrite map_get_set_eq|by rewrite map_get_set_ne].
    + rewrite map_get_set. by destruct (decide (o = o')).
  - rewrite Hom. destruct (decide (o = o')) as [<-|]; [|by rewrite decide_False by congruence].
    destruct (decide (p = p')) as [<-|].
    + destruct (decide (n = n')) as [<-|]; [rewrite decide_True by done; apply map_get_delete_eq|].
      rewrite decide_False by congruence. rewrite map_get_delete_ne by done. unfold memory_get. rewrite Eo. cbn. by rewrite Ep.
    + rewrite decide_False by congruence. unfold memory_get. by rewrite Eo.
Qed.

Lemma find_set r o p n v s : storage_ok → addressable o p n → ∃ s',
  set masterKey storagePath r o p n v s = (s', Ok tt) ∧
  ∀ o' p' n', addressable o' p' n' →
    find_record storagePath s' o' p' n' =
    if decide ((o, p, n) = (o', p', n')) then Ok (Some (encrypt masterKey r v)) else find_record storagePath s o' p' n'.
Proof.
  intros Hst Ha. pose proof Ha as [Hc _]. unfold set, st_bind, st_lift. rewrite Hc. unfold storage_ok, find_record in *.
  destruct storagePath as [path|].
  - destruct Hst as [root Hj]. destruct (record_path path root o p n Hj Ha) as (e & _ & _ & Ef). rewrite Ef.
    eexists. split; [reflexivity|]. intros o' p' n' Ha'.
    destruct (record_path path root o' p' n' Hj Ha') as (e' & _ & _ & Ef'). rewrite Ef'.
    cbn [mbind result_bind disk with_files]. rewrite map_get_set. case_decide as Hd; case_decide as Ht; try done.
    + destruct Ht. by eapply record_path_inj; try eassumption.
    + destruct Hd. simplify_eq. congruence.
  - eexists. split; [reflexivity|]. intros o' p' n' _. rewrite memory_get_set. by case_decide.
Qed.

Lemma find_delete o p n s : storage_ok → addressable o p n → ∃ s',
  delete storagePath o p n s = (s', Ok tt) ∧
  ∀ o' p' n', addressable o' p' n' →
    find_record storagePath s' o' p' n' =
    if decide ((o, p, n) = (o', p', n')) then Ok None else find_record storagePath s o' p' n'.
Proof.
  intros Hst Ha. pose proof Ha as [Hc _]. unfold delete, st_bind, st_lift. rewrite Hc. unfold storage_ok, find_record in *.
  destruct storagePath as [path|].
  - destruct Hst as [root Hj]. destruct (record_path path root o p n Hj Ha) as (e & _ & _ & Ef). rewrite Ef.
    eexists. split; [reflexivity|]. intros o' p' n' Ha'.
    destruct (record_path path root o' p' n' Hj Ha') as (e' & _ & _ & Ef'). rewrite Ef'.
    cbn [mbind result_bind disk with_files]. case_decide as Ht.
    + injection Ht as <- <- <-. rewrite Ef in Ef'. apply Ok_inj in Ef'. by rewrite <-Ef', map_get_delete_eq.
    + rewrite map_get_delete_ne; [done|]. intros E. apply Ht. by eapply record_path_inj; try eassumption.
  - eexists. split; [reflexivity|]. intros o' p' n' _. rewrite memory_get_delete. by case_decide.
Qed.

Lemma get_of_record o p n s : addressable o p n →
  get masterKey storagePath o p n s =
  (s, find_record storagePath s o p n ≫= λ r,
      match r with None => Ok None | Some r => decrypt masterKey r ≫= λ v, Ok (Some v) end).
Proof.
  intros [Hc _]. unfold get, st_bind, st_lift, st_get, st_ret. rewrite Hc.
  destruct (find_record _ _ _ _ _) as [[r|]|]; [|done|done]. cbn. by destruct (decrypt _ _).
Qed.

(** *** Listing *)

(** The files are those that the store writes. *)
Definition own_files (s : SecretStore) : Prop :=
  match storagePath with
  | Some path => ∀ f, f ∈ map_keys (disk s) → ∃ o p n, addressable o p n ∧ getRecordPath path o p n = Ok f
  | None => True
  end.

Lemma own_set r o p n v s s' : addressable o p n → own_files s →
  set masterKey storagePath r o p n v s = (s', Ok tt) → own_files s'.
Proof.
  intros Ha Ho. pose proof Ha as [Hc _]. unfold set, st_bind, st_lift. rewrite Hc. unfold own_files in *.
  destruct storagePath as [path|]; [|done]. destruct (getRecordPath path o p n) as [f0|] eqn:Ef; [|done].
  intros [= <-] f ([f1 rec] & -> & He)%list_elem_of_fmap. cbn in He |- *.
  apply elem_map_set in He as [[-> _]|He]; [eauto 6|]. apply Ho. by apply (list_elem_of_fmap_2 fst _ (f1, rec)).
Qed.

Lemma own_delete o p n s s' : addressable o p n → own_files s →
  delete storagePath o p n s = (s', Ok tt) → own_files s'.
Proof.
  intros Ha Ho. pose proof Ha as [Hc _]. unfold delete, st_bind, st_lift. rewrite Hc. unfold own_files in *.
  destruct storagePath as [path|]; [|done]. destruct (getRecordPath path o p n) as [f0|] eqn:Ef; [|done].
  intros [= <-] f (e & -> & He)%list_elem_of_fmap. cbn in He. apply elem_map_delete in He as [He _].
  apply Ho. by apply list_elem_of_fmap_2.
Qed.

Lemma map_get_keys {V} (m : jsmap jstr V) k : map_get m k ≠ None ↔ k ∈ map_keys m.
Proof.
  rewrite map_get_None. split; [|tauto]. intros Hn. destruct (decide (k ∈ map_keys m)); [done|tauto].
Qed.

Lemma secret_name_encoded n e : jstr_wf n → encodeURIComponent n = Ok e → secret_name (e ++ FILE_EXTENSION) = Some n.
Proof.
  intros Hwf He. unfold secret_name. rewrite (proj2 (ends_with_spec _ _)) by eauto.
  rewrite length_app. replace (length e + length FILE_EXTENSION - length FILE_EXTENSION)%nat with (length e) by lia.
  by rewrite take_app_length, (decodeURIComponent_encode n e).
Qed.

Lemma entry_name_child dir f : 47 ∉ f → entry_name dir (dir ++ 47 :: f) = Some f.
Proof.
  intros Hf. unfold entry_name. change (dir ++ 47 :: f) with (dir ++ js "/" ++ f). rewrite app_assoc, starts_with_app.
  replace (length dir + 1)%nat with (length (dir ++ js "/")) by (rewrite length_app; done).
  rewrite drop_app_length. by rewrite (proj2 (includes_singleton_false f 47) Hf : includes f (js "/") = false).
Qed.

Lemma entry_name_inv dir path f : entry_name dir path = Some f → path = dir ++ 47 :: f ∧ 47 ∉ f.
Proof.
  unfold entry_name. destruct (starts_with _ _) eqn:E; [|done]. apply starts_with_spec in E as [r ->].
  replace (length dir + 1)%nat with (length (dir ++ js "/")) by (rewrite length_app; done).
  rewrite drop_app_length. destruct (includes r _) eqn:Ei; [done|]. intros [= ->].
  rewrite <-app_assoc. split; [done|by apply includes_singleton_false].
Qed.

Lemma listNames_exact o p n s : storage_ok → own_files s → addressable o p n → ∃ names,
  listNames storagePath o p s = (s, Ok names) ∧ (n ∈ names ↔ find_record storagePath s o p n ≠ Ok None).
Proof.
  intros Hst Hown Ha. pose proof Ha as (Hc & Hwf & e0 & He0). pose proof Hc as Hc'. unfold checked_ids in Hc'.
  apply bind_Ok in Hc' as ([] & Ho & Hc'). apply bind_Ok in Hc' as ([] & Hp & _).
  unfold listNames, st_bind, st_lift, st_get, st_ret. rewrite Ho, Hp. eexists. split; [reflexivity|].
  unfold storage_ok, own_files, find_record in *. destruct storagePath as [path|].
  - destruct Hst as [root Hj]. destruct (record_path path root o p n Hj Ha) as (e & He & Hne & Ef). rewrite Ef.
    assert (getProjectDir path o p = root ++ 47 :: o ++ 47 :: p) as Hd.
    { unfold getProjectDir. destruct (checked_segments _ _ _ Hc) as (Hso & Hsp & _).
      rewrite Hj; [|done|by do 2 (apply Forall_cons_2; [done|])]. cbn. by rewrite app_nil_r. }
    assert (root ++ 47 :: o ++ 47 :: p ++ 47 :: e ++ FILE_EXTENSION = getProjectDir path o p ++ 47 :: e ++ FILE_EXTENSION)
      as Er by (rewrite Hd; by rewrite <-!app_assoc, <-!app_comm_cons, <-!app_assoc).
    cbn [mbind result_bind]. rewrite list_elem_of_omap. split.
    + intros (f & Hf & Hn). apply bind_Some in Hn as (nm & Hnm & Hn). destruct (Hown f Hf) as (o' & p' & n' & Ha' & Ef').
      destruct (record_path path root o' p' n' Hj Ha') as (e' & He' & Hne' & Ef''). rewrite Ef' in Ef''. injection Ef'' as ->.
      apply entry_name_inv in Hnm as [Hnm Hs]. rewrite Hd, <-!app_assoc, <-!app_comm_cons, <-!app_assoc in Hnm.
      apply (inj (app root)) in Hnm. injection Hnm as Hnm.
      pose proof Ha as ((_ & Hso & _) & (_ & Hsp & _) & _)%proj1%checked_segments.
      pose proof Ha' as ((_ & Hso' & _) & (_ & Hsp' & _) & _)%proj1%checked_segments.
      apply slash_app_inj in Hnm as [-> Hnm]; [|done..]. apply slash_app_inj in Hnm as [-> <-]; [|done..].
      rewrite (secret_name_encoded n' e') in Hn by (done || apply Ha'). injection Hn as ->.
      assert (e' = e) as -> by congruence. intros [= Hnone]. by apply map_get_keys in Hf.
    + intros Hn. exists (root ++ 47 :: o ++ 47 :: p ++ 47 :: e ++ FILE_EXTENSION). split.
      * apply map_get_keys. congruence.
      * rewrite Er, entry_name_child by done. cbn. by apply secret_name_encoded.
  - unfold memory_get. destruct (map_get (memoryStore s) o) as [om|]; cbn; [|set_solver].
    destruct (map_get om p) as [pm|]; cbn; [|set_solver]. rewrite <-map_get_keys.
    destruct (map_get pm n); naive_solver.
Qed.

(** ** The store as a map *)

Inductive secret_call :=
| CSet (r : Nonce) (orgId projectId name value : jstr)
| CDelete (orgId projectId name : jstr).

(** A name without a lone surrogate *)
Definition text_name (n : jstr) : Prop := jstr_wf n ∧ ∃ e, encodeURIComponent n = Ok e.

(** The texts of a call survive UTF-8; its identifiers may be invalid. *)
Definition call_ok (c : secret_call) : Prop :=
  match c with
  | CSet r o p n v => text_name n ∧ nonce_ok r ∧ jstr_wf v ∧ utf8_safe v
  | CDelete o p n => text_name n
  end.

Definition call_ids (c : secret_call) : result exn unit :=
  match c with CSet _ o p n _ | CDelete o p n => checked_ids o p n end.

Definition run_call (c : secret_call) : stm SecretStore exn unit :=
  match c with
  | CSet r o p n v => set masterKey storagePath r o p n v
  | CDelete o p n => delete storagePath o p n
  end.

(** Calls one after the other, with their replies *)
Fixpoint run_calls (calls : list secret_call) (s : SecretStore) : SecretStore * list (result exn unit) :=
  match calls with
  | [] => (s, [])
  | c :: calls => let '(s, r) := run_call c s in let '(s, rs) := run_calls calls s in (s, r :: rs)
  end.

(** What a tenant's secrets should be after the calls: one with an invalid
    identifier changes nothing. *)
Definition spec_step (m : jstr * jstr * jstr → option jstr) (c : secret_call) : jstr * jstr * jstr → option jstr :=
  if is_ok (call_ids c) then
    match c with
    | CSet _ o p n v => λ k, if decide ((o, p, n) = k) then Some v else m k
    | CDelete o p n => λ k, if decide ((o, p, n) = k) then None else m k
    end
  else m.
Definition spec_calls (calls : list secret_call) : jstr * jstr * jstr → option jstr :=
  fold_left spec_step calls (λ _, None).

(** Every record holds the value it should. *)
Definition represents (s : SecretStore) (m : jstr * jstr * jstr → option jstr) : Prop :=
  own_files s ∧ ∀ o p n, addressable o p n →
    match find_record storagePath s o p n with
    | Ok None => m (o, p, n) = None
    | Ok (Some record) => ∃ v, m (o, p, n) = Some v ∧ decrypt masterKey record = Ok v
    | Err _ => False
    end.

Lemma represents_empty : storage_ok → represents {| memoryStore := []; disk := [] |} (λ _, None).
Proof.
  intros Hst. split; [unfold own_files; destruct storagePath; [intros f Hf; by apply elem_of_nil in Hf|done]|].
  intros o p n Ha. unfold find_record, storage_ok in *. destruct storagePath as [path|]; [|done].
  destruct Hst as [root Hj]. by destruct (record_path path root o p n Hj Ha) as (e & _ & _ & ->).
Qed.

Lemma addressable_name o p n : checked_ids o p n = Ok tt → text_name n → addressable o p n.
Proof. by intros Hc [Hwf He]. Qed.

Lemma represents_step s m c : storage_ok → represents s m → call_ok c → ∃ s',
  run_call c s = (s', call_ids c) ∧ represents s' (spec_step m c).
Proof.
  intros Hst Hrep Hc. pose proof Hrep as [Hown Hr]. unfold spec_step.
  destruct c as [r o p n v|o p n]; cbn [run_call call_ids call_ok] in Hc |- *;
    (destruct (checked_ids o p n) as [[]|e] eqn:Ei; cbn [is_ok];
     [|exists s; unfold set, delete, st_bind, st_lift; by rewrite Ei]).
  - destruct Hc as (Ha & Hn & Hwf & Hv). pose proof (addressable_name o p n Ei Ha) as Haddr.
    destruct (find_set r o p n v s Hst Haddr) as (s' & Hs & Hf). exists s'.
    split; [done|]. split; [by apply (own_set r o p n v s)|]. intros o' p' n' Ha'. rewrite Hf by done.
    case_decide; [exists v; split; [done|by apply decrypt_encrypt]|by apply Hr].
  - pose proof (addressable_name o p n Ei Hc) as Haddr.
    destruct (find_delete o p n s Hst Haddr) as (s' & Hs & Hf). exists s'.
    split; [done|]. split; [by apply (own_delete o p n s)|]. intros o' p' n' Ha'. rewrite Hf by done.
    case_decide; [done|by apply Hr].
Qed.

Lemma represents_calls calls s m : storage_ok → represents s m → Forall call_ok calls → ∃ s',
  run_calls calls s = (s', call_ids <$> calls) ∧ represents s' (fold_left spec_step calls m).
Proof.
  intros Hst. revert s m. induction calls as [|c calls IH]; intros s m Hr Hc; [by exists s|].
  apply Forall_cons in Hc as [Hc Hcs]. destruct (represents_step s m c Hst Hr Hc) as (s1 & Hs & Hr1).
  destruct (IH s1 _ Hr1 Hcs) as (s' & Hs' & Hr'). exists s'. split; [|done]. cbn [run_calls].
  by rewrite Hs, Hs'.
Qed.

Lemma represents_get s m o p n : represents s m → addressable o p n →
  get masterKey storagePath o p n s = (s, Ok (m (o, p, n))).
Proof.
  intros [_ Hr] Ha. rewrite get_of_record by done. specialize (Hr o p n Ha).
  destruct (find_record _ _ _ _ _) as [[r|]|]; [|by rewrite Hr|done]. destruct Hr as (v & -> & Hd). cbn. by rewrite Hd.
Qed.

Lemma represents_names s m o p n : storage_ok → represents s m → addressable o p n → ∃ names,
  listNames storagePath o p s = (s, Ok names) ∧ (n ∈ names ↔ m (o, p, n) ≠ None).
Proof.
  intros Hst [Hown Hr] Ha. destruct (listNames_exact o p n s Hst Hown Ha) as (names & Hn & Hin).
  exists names. split; [done|]. rewrite Hin. specialize (Hr o p n Ha).
  destruct (find_record _ _ _ _ _) as [[r|]|]; [|by rewrite Hr|done]. destruct Hr as (v & -> & _). naive_solver.
Qed.
End secrets.

(** ** Theorems *)

Lemma resolve_all_reads {S} (store_get : jstr → jstr → jstr → stm S exn (option jstr)) o p (m : jstr → option jstr) s names :
  (∀ n, n ∈ names → store_get o p n s = (s, Ok (m n))) →
  resolve_all store_get o p names s = (s, Ok ((λ n, (n, m n)) <$> names)).
Proof.
  induction names as [|n names IH]; intros H; [done|]. cbn [resolve_all]. unfold st_bind.
  rewrite H by left. rewrite IH by (intros n' Hn'; apply H; by right). done.
Qed.

Lemma resolved_env_get (m : jstr → option jstr) names key : ∀ acc,
  map_get (fold_left (λ resolved e, match e.2 with Some v => map_set resolved e.1 v | None => resolved end)
             ((λ n, (n, m n)) <$> names) acc) key =
  match (if decide (key ∈ names) then m key else None) with Some v => Some v | None => map_get acc key end.
Proof.
  induction names as [|n names IH]; intros acc; [done|]. cbn [fmap list_fmap fold_left fst snd]. rewrite IH.
  destruct (decide (key ∈ names)) as [Hin|Hin].
  - rewrite (decide_True (P := key ∈ n :: names)) by (by right). destruct (m key) as [v|] eqn:Ek; [done|].
    destruct (m n) as [v|] eqn:En; [|done]. rewrite map_get_set. case_decide; congruence.
  - destruct (decide (key = n)) as [->|Hne].
    + rewrite (decide_True (P := n ∈ n :: names)) by left. destruct (m n); [by rewrite map_get_set_eq|done].
    + rewrite (decide_False (P := key ∈ n :: names)) by (rewrite elem_of_cons; tauto).
      destruct (m n); [by rewrite map_get_set_ne|done].
Qed.

Lemma checked_ids_error o p n e : checked_ids o p n = Err e → e = ValidationFailedError.
Proof.
  assert (∀ v e, assertValidIdentifier v = Err e → e = ValidationFailedError) as Hv.
  { intros v e'. unfold assertValidIdentifier. unfold throw_if.
    repeat (case_match; cbn; try done; try by intros [= <-]). }
  unfold checked_ids. intros [H|([] & _ & [H|([] & _ & H)]%bind_Err)]%bind_Err; by apply Hv in H.
Qed.

(** C35: The secret store implements a map (PLAT-15, PLAT-7), over either backend and
    for any sequence of [set]s and [delete]s of any tenants, invalid ones included.
    A call with an invalid organisation, project or name fails with
    ValidationFailedError and changes nothing, and no other call fails; after the
    calls, [get] returns exactly the value last set for that organisation, project
    and name, decrypted from its record, and [listNames] exactly the names that
    have one ([get] with invalid identifiers fails too).  Names and values are text
    that survives UTF-8 (no lone surrogate; no byte-order mark in front of a
    value). *)
Theorem secrets_refine `{CryptoLaws, PathJoin} masterKey storagePath calls :
  storage_ok storagePath → Forall call_ok calls →
  ∃ s, run_calls masterKey storagePath calls {| memoryStore := []; disk := [] |} = (s, call_ids <$> calls) ∧
    Forall (λ c, ∀ e, call_ids c = Err e → e = ValidationFailedError) calls ∧
    ∀ o p n, text_name n →
      get masterKey storagePath o p n s = (s, checked_ids o p n ≫= λ _, Ok (spec_calls calls (o, p, n))) ∧
      (checked_ids o p n = Ok tt → ∃ names, listNames storagePath o p s = (s, Ok names) ∧
        (n ∈ names ↔ spec_calls calls (o, p, n) ≠ None)).
Proof.
  intros Hst Hc.
  destruct (represents_calls masterKey storagePath calls _ _ Hst (represents_empty masterKey storagePath Hst) Hc)
    as (s & Hs & Hr).
  exists s. split; [done|]. split.
  { apply Forall_forall. intros [r o p n v|o p n] _ e He; by apply checked_ids_error in He. }
  intros o p n Hn. split.
  - destruct (checked_ids o p n) as [[]|e] eqn:Ei.
    + cbn. by apply represents_get, addressable_name.
    + unfold get, st_bind, st_lift. by rewrite Ei.
  - intros Hi. by apply (represents_names masterKey storagePath), addressable_name.
Qed.

(** Secret injection is scoped (PLAT-6, FN-4): the binding that an invocation
    receives answers with the stored value for the secrets of its own project
    that its manifest declares, and with [undefined] for every other name, as the
    store stands when the binding is made. *)
Theorem env_scoped `{CryptoLaws, PathJoin} masterKey storagePath calls s orgId projectId allowedSecrets :
  storage_ok storagePath → Forall call_ok calls →
  (run_calls masterKey storagePath calls {| memoryStore := []; disk := [] |}).1 = s →
  (∀ n, n ∈ allowedSecrets → addressable orgId projectId n) →
  assertValidIdentifier orgId = Ok tt → assertValidIdentifier projectId = Ok tt →
  ∃ env, resolveEnvBinding (get masterKey storagePath) orgId projectId allowedSecrets s = (s, Ok env) ∧
    ∀ key, env_get env key =
      if decide (key ∈ allowedSecrets) then spec_calls calls (orgId, projectId, key) else None.
Proof.
  intros Hst Hc Hs Ha Ho Hp.
  destruct (represents_calls masterKey storagePath calls _ _ Hst (represents_empty masterKey storagePath Hst) Hc)
    as (s' & Hs' & Hr).
  rewrite Hs' in Hs. cbn in Hs. subst s'.
  unfold resolveEnvBinding, st_bind, st_lift. rewrite Ho, Hp.
  rewrite (resolve_all_reads _ _ _ (λ n, spec_calls calls (orgId, projectId, n))).
  2: { intros n Hn. rewrite elem_set_of_list in Hn. apply (represents_get masterKey storagePath s _ _ _ _ Hr). by apply Ha. }
  eexists. split; [reflexivity|]. intros key. unfold env_get, resolved_env. rewrite resolved_env_get.
  rewrite (decide_ext (key ∈ set_of_list allowedSecrets) (key ∈ allowedSecrets) _ _ (elem_set_of_list _ _)).
  case_decide; [by destruct (spec_calls _ _)|done].
Qed.

(** *** A store on a disk *)

(** A cipher that only appends a tag *)
#[local] Instance demo_crypto : Crypto :=
  {| crypto_key := list Z; deriveKey k s := k ++ s; gcm_encrypt k n p := p ++ replicate 16 0;
     gcm_decrypt k n c := Ok (take (length c - 16) c) |}.
#[local] Instance demo_crypto_laws : CryptoLaws.
Proof.
  split; intros k n p; cbn [gcm_decrypt gcm_encrypt demo_crypto].
  - rewrite length_app, length_replicate. replace (length p + 16 - 16)%nat with (length p) by lia.
    by rewrite take_app_length.
  - by rewrite length_app, length_replicate.
Qed.
#[local] Instance demo_join : PathJoin := str_join (js "/").

Definition SECRETS_DIR : jstr := js "/var/lib/railfog".

Lemma demo_joins path : joins_under path path.
Proof.
  intros segs _ _. unfold join, demo_join. revert path. induction segs as [|x segs IH]; intros path.
  - cbn. by rewrite app_nil_r.
  - change (str_join (js "/") (path :: x :: segs)) with (path ++ js "/" ++ str_join (js "/") (x :: segs)).
    rewrite IH. by cbn.
Qed.

Definition zeros : Nonce := {| salt := replicate 16 0; iv := replicate 12 0 |}.
Definition demo_calls : list secret_call :=
  [CSet zeros (js "acme") (js "shop") (js "API_KEY") (js "s3cret");
   CSet zeros (js "acme") (js "blog") (js "API_KEY") (js "other");
   CSet zeros (js "acme") (js "shop") (js "OLD") (js "x");
   CSet zeros (js "acme/shop") (js "x") (js "API_KEY") (js "evil");
   CDelete (js "acme") (js "shop") (js "OLD")].

Lemma demo_addressable o p n e :
  checked_ids o p n = Ok tt → forallb (λ c, (0 <=? c) && (c <? 65536)) n = true → encodeURIComponent n = Ok e →
  addressable o p n.
Proof.
  intros Hc Hn He. split; [done|]. split; [|by exists e]. unfold jstr_wf. rewrite Forall_forall. intros c Hin.
  rewrite forallb_true_iff in Hn. specialize (Hn c Hin). zbool. lia.
Qed.

Lemma demo_text_ok s :
  forallb (λ c, (0 <=? c) && (c <? 128)) s = true → code_points s = s → jstr_wf s ∧ utf8_safe s.
Proof.
  intros Hs Hc. rewrite forallb_true_iff in Hs.
  assert (∀ c, c ∈ s → 0 <= c < 128) as Hr by (intros c Hin; specialize (Hs c Hin); zbool; lia).
  split; [unfold jstr_wf; rewrite Forall_forall; intros c Hin; specialize (Hr c Hin); lia|]. split; rewrite Hc.
  - rewrite Forall_forall. intros c Hin. specialize (Hr c Hin). unfold scalar, is_surrogate. split; [lia|].
    apply andb_false_iff. left. apply Z.leb_gt. lia.
  - destruct s as [|c s]; [done|]. cbn. intros [= ->]. specialize (Hr BOM ltac:(left)). unfold BOM in Hr. lia.
Qed.

Lemma demo_name n e : forallb (λ c, (0 <=? c) && (c <? 65536)) n = true → encodeURIComponent n = Ok e → text_name n.
Proof.
  intros Hn He. split; [|by exists e]. unfold jstr_wf. rewrite Forall_forall. intros c Hin.
  rewrite forallb_true_iff in Hn. specialize (Hn c Hin). zbool. lia.
Qed.

Lemma demo_calls_ok : Forall call_ok demo_calls.
Proof.
  repeat apply Forall_cons_2; try apply Forall_nil_2; cbn [call_ok];
    try (eapply demo_name; vm_compute; reflexivity);
    (split; [eapply demo_name; vm_compute; reflexivity|]; split; [done|]; apply demo_text_ok; vm_compute; reflexivity).
Qed.

Theorem secrets_refine_witness : ∃ s,
  run_calls (KeyText (js "k")) (Some SECRETS_DIR) demo_calls {| memoryStore := []; disk := [] |} =
    (s, [Ok tt; Ok tt; Ok tt; Err ValidationFailedError; Ok tt]) ∧
  get (KeyText (js "k")) (Some SECRETS_DIR) (js "acme") (js "shop") (js "API_KEY") s = (s, Ok (Some (js "s3cret"))).
Proof.
  destruct (secrets_refine (KeyText (js "k")) (Some SECRETS_DIR) demo_calls
    (ex_intro _ SECRETS_DIR (demo_joins SECRETS_DIR)) demo_calls_ok) as (s & Hs & _ & Hg).
  exists s. split; [rewrite Hs; f_equal; vm_compute; reflexivity|].
  destruct (Hg (js "acme") (js "shop") (js "API_KEY")) as [Hget _].
  - eapply demo_name; vm_compute; reflexivity.
  - rewrite Hget. vm_compute. reflexivity.
Defined.

Definition demo_secrets : SecretStore :=
  (run_calls (KeyText (js "k")) (Some SECRETS_DIR) demo_calls {| memoryStore := []; disk := [] |}).1.

Theorem env_scoped_witness : ∃ env,
  resolveEnvBinding (get (KeyText (js "k")) (Some SECRETS_DIR)) (js "acme") (js "shop") [js "API_KEY"; js "OLD"]
    demo_secrets = (demo_secrets, Ok env) ∧
  env_get env (js "API_KEY") = Some (js "s3cret") ∧ env_get env (js "OLD") = None ∧ env_get env (js "HOME") = None.
Proof.
  destruct (env_scoped (KeyText (js "k")) (Some SECRETS_DIR) demo_calls demo_secrets (js "acme") (js "shop")
    [js "API_KEY"; js "OLD"] (ex_intro _ SECRETS_DIR (demo_joins SECRETS_DIR)) demo_calls_ok) as (env & He & Hk).
  - vm_compute. reflexivity.
  - intros n Hn. rewrite !elem_of_cons, elem_of_nil in Hn. destruct Hn as [->|[->|[]]];
      eapply demo_addressable; vm_compute; reflexivity.
  - vm_compute. reflexivity.
  - vm_compute. reflexivity.
  - exists env. split; [exact He|]. rewrite !Hk. split_and!; vm_compute; reflexivity.
Defined.

(** A byte-order mark in front of a secret is lost. *)
Lemma bom_is_lost : decrypt (KeyText (js "k")) (encrypt (KeyText (js "k")) zeros [BOM; 97]) = Ok (js "a").
Proof. vm_compute. reflexivity. Qed.
