(* ===== verification/Redactor.v ===== *)
(** * Redaction of secrets ([packages/logging/secret-redactor.ts], PLAT-15, PLAT-13)

    Literal replacement of the secret values in texts and in JSON data.  The
    other objects that [redactJson] copies (dates, regular expressions, errors,
    cyclic data) are not modelled. *)

From S2P Require Import Prelude JsString JsMap JsValue.
From Stdlib Require Import Sorted.

Open Scope Z_scope.

Definition REDACTED_MARKER : jstr := js "[REDACTED]".
Definition MIN_SECRET_REDACTION_LENGTH : nat := 4.

(** [xs.sort((a, b) => b.length - a.length)], which is stable *)
Fixpoint insert_by_length (x : jstr) (xs : list jstr) : list jstr :=
  match xs with
  | [] => [x]
  | y :: ys => if (length y <=? length x)%nat then x :: xs else y :: insert_by_length x ys
  end.
Definition sort_by_length (xs : list jstr) : list jstr := foldr insert_by_length [] xs.

Definition filterAndSortSecrets (secretValues : list jstr) : list jstr :=
  sort_by_length (set_of_list (filter (λ s, (MIN_SECRET_REDACTION_LENGTH <= length s)%nat) secretValues)).

Definition redactWithCandidates (text : jstr) (candidates : list jstr) : jstr :=
  fold_left (λ result secret, replace_all result secret REDACTED_MARKER) candidates text.

Definition redact (text : jstr) (secretValues : list jstr) : jstr :=
  redactWithCandidates text (filterAndSortSecrets secretValues).

Fixpoint redactJsonInternal (candidates : list jstr) (obj : jsval) : jsval :=
  match obj with
  | JStr s => JStr (redactWithCandidates s candidates)
  | JArr xs => JArr (redactJsonInternal candidates <$> xs)
  | JObj entries =>
      JObj (obj_build ((λ e, (redactWithCandidates e.1 candidates, redactJsonInternal candidates e.2)) <$> entries))
  | _ => obj
  end.

Definition redactJson (obj : jsval) (secretValues : list jstr) : jsval :=
  redactJsonInternal (filterAndSortSecrets secretValues) obj.

(** ** What is left between the markers *)

Fixpoint split_str (pat : jstr) (skip : nat) (s : jstr) : list jstr :=
  match s with
  | [] => [[]]
  | c :: s' =>
      match skip with
      | S skip => split_str pat skip s'
      | O =>
          if starts_with s pat then [] :: split_str pat (length pat - 1) s'
          else match split_str pat O s' with p :: ps => (c :: p) :: ps | [] => [[c]] end
      end
  end.

Lemma split_str_not_nil pat skip s : split_str pat skip s ≠ [].
Proof.
  revert skip. induction s as [|c s IH]; intros [|k]; cbn [split_str]; [done..| |by apply IH].
  destruct (starts_with _ _); [done|]. by destruct (split_str pat 0 s).
Qed.

Lemma str_join_cons_nonempty sep p ps : ps ≠ [] → str_join sep (p :: ps) = p ++ sep ++ str_join sep ps.
Proof. by destruct ps. Qed.

Lemma replace_split pat rep skip s : replace_from pat rep skip s = str_join rep (split_str pat skip s).
Proof.
  revert skip. induction s as [|c s IH]; intros [|k]; cbn [replace_from split_str]; [done..| |apply IH].
  destruct (starts_with _ _).
  - rewrite str_join_cons_nonempty by apply split_str_not_nil. by rewrite IH.
  - rewrite IH. pose proof (split_str_not_nil pat 0 s). destruct (split_str pat 0 s) as [|p [|q ps]]; done.
Qed.

Lemma includes_cons c s t : includes (c :: s) t = starts_with (c :: s) t || includes s t.
Proof. done. Qed.
Lemma includes_nil t : t ≠ [] → includes [] t = false.
Proof. by destruct t. Qed.

Lemma split_str_prefix pat s : ∃ r, s = default [] (head (split_str pat O s)) ++ r.
Proof.
  induction s as [|c s [r IH]]; [by exists []|]. cbn [split_str]. destruct (starts_with _ _); [by exists (c :: s)|].
  pose proof (split_str_not_nil pat 0 s). destruct (split_str pat 0 s) as [|p ps]; [done|]. exists r. cbn in *. by rewrite IH at 1.
Qed.

(** A piece contains no match. *)
Lemma split_str_lacks pat s : pat ≠ [] → ∀ skip, Forall (λ p, includes p pat = false) (split_str pat skip s).
Proof.
  intros Hpat. induction s as [|c s IH]; intros skip.
  - destruct skip; (apply Forall_cons; split; [by apply includes_nil|apply Forall_nil_2]).
  - destruct skip as [|k]; cbn [split_str]; [|apply IH]. destruct (starts_with (c :: s) pat) eqn:E.
    + apply Forall_cons; split; [by apply includes_nil|apply IH].
    + destruct (split_str_prefix pat s) as [r Hr]. specialize (IH O).
      destruct (split_str pat 0 s) as [|p ps] eqn:Es; [by apply split_str_not_nil in Es|]. cbn in Hr.
      apply Forall_cons in IH as [Hl Hps]. apply Forall_cons; split; [|done]. rewrite includes_cons, Hl, orb_false_r.
      destruct (starts_with (c :: p) pat) eqn:E'; [|done]. apply starts_with_spec in E' as [r' E'].
      rewrite <-E, Hr, app_comm_cons, E', <-app_assoc. symmetry. apply starts_with_app.
Qed.

(** A piece is a part of the text. *)
Lemma split_str_part pat s : ∀ skip p, p ∈ split_str pat skip s → includes s p = true.
Proof.
  induction s as [|c s IH]; intros skip p.
  - destruct skip; intros ->%list_elem_of_singleton; done.
  - assert (∀ k, p ∈ split_str pat k s → includes (c :: s) p = true) as Hk.
    { intros k Hin%IH. rewrite includes_cons, Hin. apply orb_true_r. }
    destruct skip as [|k]; cbn [split_str]; [|apply Hk].
    destruct (starts_with (c :: s) pat) eqn:E; [intros [->|Hin]%elem_of_cons; [done|by eapply Hk]|].
    destruct (split_str_prefix pat s) as [r Hr].
    destruct (split_str pat 0 s) as [|q ps] eqn:Es; [by apply split_str_not_nil in Es|]. cbn in Hr.
    intros [->|Hin]%elem_of_cons; [|apply (Hk O); rewrite Es; by right].
    rewrite includes_cons, Hr, app_comm_cons, starts_with_app. done.
Qed.

(** ** Secrets that cannot overlap a marker *)

Definition OPEN : Z := 91.
Definition CLOSE : Z := 93.

(** No bracket, and no part of the word between the brackets *)
Definition apart (secret : jstr) : Prop :=
  secret ≠ [] ∧ OPEN ∉ secret ∧ CLOSE ∉ secret ∧ includes (js "REDACTED") secret = false.

Lemma starts_with_barrier u b rest pat : b ∉ pat → starts_with (u ++ b :: rest) pat = starts_with u pat.
Proof.
  revert u. induction pat as [|c pat IH]; intros u Hb; [by destruct u|]. destruct u as [|d u]; cbn.
  - assert (c =? b = false) as -> by (apply Z.eqb_neq; set_solver). done.
  - rewrite IH by set_solver. done.
Qed.

Lemma starts_at_barrier b rest pat : pat ≠ [] → b ∉ pat → starts_with (b :: rest) pat = false.
Proof.
  intros Hp Hb. change (b :: rest) with ([] ++ b :: rest). rewrite starts_with_barrier by done. by destruct pat.
Qed.

Lemma includes_barrier u b rest pat : pat ≠ [] → b ∉ pat →
  includes (u ++ b :: rest) pat = includes u pat || includes rest pat.
Proof.
  intros Hp Hb. induction u as [|c u IH].
  - cbn [app]. by rewrite includes_cons, starts_at_barrier, includes_nil.
  - cbn [app]. rewrite !includes_cons, IH, app_comm_cons, starts_with_barrier by done. apply orb_assoc.
Qed.

Lemma replace_skip pat rep k u s : length u = k → replace_from pat rep k (u ++ s) = replace_from pat rep O s.
Proof. intros <-. by induction u as [|c u IH]. Qed.

Lemma replace_barrier pat rep b rest u : pat ≠ [] → b ∉ pat →
  replace_all (u ++ b :: rest) pat rep = replace_all u pat rep ++ b :: replace_all rest pat rep.
Proof.
  intros Hp Hb. unfold replace_all. remember (length u) as n eqn:Hn. assert (length u <= n)%nat as Hle by lia. clear Hn.
  revert u Hle. induction n as [|n IH]; intros u Hle.
  - destruct u; [|cbn in Hle; lia]. cbn [app replace_from]. by rewrite starts_at_barrier.
  - destruct u as [|c u].
    { cbn [app replace_from]. by rewrite starts_at_barrier. }
    cbn [app]. cbn [replace_from]. rewrite app_comm_cons, starts_with_barrier by done.
    destruct (starts_with (c :: u) pat) eqn:E.
    + apply starts_with_spec in E as [r E]. destruct pat as [|d pat]; [done|]. injection E as -> ->. cbn [length].
      rewrite Nat.sub_succ, Nat.sub_0_r, <-!app_assoc, !(replace_skip _ rep (length pat) pat) by done. rewrite IH; [done|].
      cbn in Hle. rewrite length_app in Hle. lia.
    + rewrite IH by (cbn in Hle; lia). done.
Qed.

Lemma replace_none pat rep s : pat ≠ [] → includes s pat = false → replace_all s pat rep = s.
Proof.
  intros Hp. unfold replace_all. induction s as [|c s IH]; [done|]. rewrite includes_cons. intros [E H]%orb_false_iff.
  cbn [replace_from]. by rewrite E, IH.
Qed.

Lemma marker_spine seg rest : seg ++ REDACTED_MARKER ++ rest = seg ++ OPEN :: js "REDACTED" ++ CLOSE :: rest.
Proof. done. Qed.

Lemma replace_marker pat seg rest : apart pat →
  replace_all (seg ++ REDACTED_MARKER ++ rest) pat REDACTED_MARKER =
  replace_all seg pat REDACTED_MARKER ++ REDACTED_MARKER ++ replace_all rest pat REDACTED_MARKER.
Proof.
  intros (Hn & Ho & Hc & Hw). rewrite !marker_spine, replace_barrier by done. f_equal. f_equal.
  rewrite replace_barrier by done. by rewrite (replace_none pat REDACTED_MARKER (js "REDACTED")).
Qed.

Lemma includes_marker pat seg rest : apart pat →
  includes (seg ++ REDACTED_MARKER ++ rest) pat = includes seg pat || includes rest pat.
Proof.
  intros (Hn & Ho & Hc & Hw). rewrite marker_spine, includes_barrier by done. f_equal.
  rewrite includes_barrier by done. by rewrite Hw.
Qed.

(** Replacing in a text that is pieces with markers between them splits the
    pieces. *)
Lemma replace_join pat segs : apart pat → segs ≠ [] →
  replace_all (str_join REDACTED_MARKER segs) pat REDACTED_MARKER =
  str_join REDACTED_MARKER (flat_map (split_str pat O) segs).
Proof.
  intros Ha. induction segs as [|p [|q segs] IH]; intros Hs; [done| |].
  - cbn [str_join flat_map]. rewrite app_nil_r. apply replace_split.
  - rewrite str_join_cons_nonempty by done. rewrite replace_marker, IH by done. cbn [flat_map].
    unfold replace_all at 1. rewrite replace_split.
    assert (∀ xs ys, xs ≠ [] → ys ≠ [] → str_join REDACTED_MARKER (xs ++ ys) =
      str_join REDACTED_MARKER xs ++ REDACTED_MARKER ++ str_join REDACTED_MARKER ys) as Hj.
    { intros xs ys Hx Hy. induction xs as [|x [|x' xs] IHx]; [done| |].
      - cbn [app]. by rewrite str_join_cons_nonempty.
      - cbn [app] in *. rewrite !(str_join_cons_nonempty _ x) by done. rewrite IHx by done. by rewrite !app_assoc. }
    rewrite (Hj (split_str pat 0 p)); [done|apply split_str_not_nil|].
    pose proof (split_str_not_nil pat 0 q). by destruct (split_str pat 0 q).
Qed.

Lemma includes_join pat segs : apart pat → Forall (λ p, includes p pat = false) segs →
  includes (str_join REDACTED_MARKER segs) pat = false.
Proof.
  intros Ha. induction 1 as [|p [|q segs] Hp Hs IH]; [by apply includes_nil, Ha|done|].
  rewrite str_join_cons_nonempty, includes_marker, Hp, IH by done. done.
Qed.

Lemma includes_trans s t u : includes s t = true → includes t u = true → includes s u = true.
Proof.
  rewrite !includes_spec. intros (a & b & ->) (a' & b' & ->). exists (a ++ a'), (b' ++ b).
  by rewrite !app_assoc.
Qed.

(** The text is made of pieces, with markers between them, that none of the
    secrets occurs in. *)
Definition cleaned (secrets : list jstr) (text : jstr) : Prop := ∃ segs,
  segs ≠ [] ∧ text = str_join REDACTED_MARKER segs ∧ Forall (λ p, ∀ s, s ∈ secrets → includes p s = false) segs.

Lemma cleaned_step secrets secret text : apart secret → cleaned secrets text →
  cleaned (secret :: secrets) (replace_all text secret REDACTED_MARKER).
Proof.
  intros Ha (segs & Hs & -> & Hf). exists (flat_map (split_str secret O) segs). split_and!.
  - destruct segs as [|p segs]; [done|]. cbn. pose proof (split_str_not_nil secret 0 p). by destruct (split_str secret 0 p).
  - by apply replace_join.
  - rewrite Forall_forall in Hf |- *. intros q Hq s. apply list_elem_of_In, in_flat_map in Hq.
    destruct Hq as (p & Hp & Hq). apply list_elem_of_In in Hp, Hq. intros [->|Hin]%elem_of_cons.
    + pose proof (split_str_lacks secret p (proj1 Ha) O) as Hl. rewrite Forall_forall in Hl. by apply Hl.
    + destruct (includes q s) eqn:E; [|done]. rewrite <-(Hf p Hp s Hin). symmetry.
      apply (includes_trans p q s); [by apply (split_str_part secret p O)|done].
Qed.

Lemma cleaned_all candidates text : ∀ secrets, Forall apart candidates → cleaned secrets text →
  cleaned (rev candidates ++ secrets) (redactWithCandidates text candidates).
Proof.
  unfold redactWithCandidates. revert text. induction candidates as [|c cs IH]; intros text secrets Ha Hc; [done|].
  apply Forall_cons in Ha as [Hc0 Ha]. cbn [fold_left rev]. rewrite <-app_assoc. apply (IH _ (c :: secrets)); [done|].
  by apply cleaned_step.
Qed.

Lemma redacted_candidates text candidates secret : Forall apart candidates → secret ∈ candidates →
  includes (redactWithCandidates text candidates) secret = false.
Proof.
  intros Ha Hin. destruct (cleaned_all candidates text [] Ha) as (segs & _ & -> & Hf).
  { exists [text]. split_and!; [done|done|]. apply Forall_singleton. intros s Hs. by apply elem_of_nil in Hs. }
  apply includes_join; [by rewrite Forall_forall in Ha; apply Ha|]. rewrite app_nil_r in Hf.
  eapply Forall_impl; [exact Hf|]. intros p Hp. apply Hp.
  by apply list_elem_of_In, in_rev, list_elem_of_In; rewrite rev_involutive.
Qed.

(** ** Candidates *)

Lemma elem_insert_by_length x y xs : y ∈ insert_by_length x xs ↔ y = x ∨ y ∈ xs.
Proof. induction xs as [|z xs IH]; cbn; [set_solver|]. destruct (_ <=? _)%nat; set_solver. Qed.

Lemma elem_sort_by_length xs y : y ∈ sort_by_length xs ↔ y ∈ xs.
Proof. induction xs as [|x xs IH]; cbn; [set_solver|]. rewrite elem_insert_by_length, IH. set_solver. Qed.

Lemma elem_candidates secretValues s :
  s ∈ filterAndSortSecrets secretValues ↔ s ∈ secretValues ∧ (MIN_SECRET_REDACTION_LENGTH <= length s)%nat.
Proof.
  unfold filterAndSortSecrets. rewrite elem_sort_by_length, elem_set_of_list, list_elem_of_filter. tauto.
Qed.

(** Longer candidates come first. *)
Lemma insert_by_length_sorted x xs :
  StronglySorted (λ a b, length b <= length a)%nat xs → StronglySorted (λ a b, length b <= length a)%nat (insert_by_length x xs).
Proof.
  induction 1 as [|y ys Hs IH Hy]; cbn; [repeat constructor|]. destruct (Nat.leb_spec (length y) (length x)).
  - constructor; [by constructor|]. constructor; [done|]. eapply Forall_impl; [exact Hy|]. cbn. lia.
  - constructor; [done|]. rewrite Forall_forall in Hy |- *. intros z [->|Hz]%elem_insert_by_length; [lia|by apply Hy].
Qed.

Lemma candidates_sorted secretValues :
  StronglySorted (λ a b, length b <= length a)%nat (filterAndSortSecrets secretValues).
Proof.
  unfold filterAndSortSecrets. generalize (set_of_list (filter (λ s, (MIN_SECRET_REDACTION_LENGTH <= length s)%nat) secretValues)).
  intros xs. induction xs as [|x xs IH]; [constructor|]. by apply insert_by_length_sorted.
Qed.

(** ** JSON data *)

(** The secret occurs in a key or in a string. *)
Fixpoint mentions (secret : jstr) (v : jsval) : bool :=
  match v with
  | JStr s => includes s secret
  | JArr xs => existsb (mentions secret) xs
  | JObj entries => existsb (λ e, includes e.1 secret || mentions secret e.2) entries
  | _ => false
  end.

Lemma redacted_json candidates secret : Forall apart candidates → secret ∈ candidates →
  ∀ obj, mentions secret (redactJsonInternal candidates obj) = false.
Proof.
  intros Ha Hin. fix IH 1. intros [| | | |s|xs|es]; [reflexivity..|clear IH| |].
  - by apply redacted_candidates.
  - cbn. induction xs as [|x xs IHxs]; [reflexivity|]. cbn. rewrite IH, IHxs. reflexivity.
  - cbn [redactJsonInternal mentions]. apply existsb_false_iff, Forall_forall. intros e He%elem_obj_build.
    assert (Forall (λ e, includes e.1 secret || mentions secret e.2 = false)
      ((λ e, (redactWithCandidates e.1 candidates, redactJsonInternal candidates e.2)) <$> es)) as Hf.
    { clear He. induction es as [|[k v] es IHes]; constructor; [|exact IHes]. cbn.
      rewrite IH, redacted_candidates by assumption. reflexivity. }
    rewrite Forall_forall in Hf. exact (Hf e He).
Qed.

(** C36: Redaction is complete (PLAT-15): when no secret of at least four units
    contains a bracket or is a part of the marker's own word, then none of them
    occurs any more in a redacted text, nor in a key or string of redacted JSON
    data, at whatever depth and however the secrets overlap; they are tried from
    the longest to the shortest. *)
Theorem redaction_complete secretValues secret text obj :
  (∀ s, s ∈ secretValues → (MIN_SECRET_REDACTION_LENGTH <= length s)%nat → apart s) →
  secret ∈ secretValues → (MIN_SECRET_REDACTION_LENGTH <= length secret)%nat →
  includes (redact text secretValues) secret = false ∧
  mentions secret (redactJson obj secretValues) = false ∧
  StronglySorted (λ a b, length b <= length a)%nat (filterAndSortSecrets secretValues).
Proof.
  intros Hs Hin Hl. assert (Forall apart (filterAndSortSecrets secretValues)) as Ha.
  { rewrite Forall_forall. intros s [? ?]%elem_candidates. by apply Hs. }
  assert (secret ∈ filterAndSortSecrets secretValues) as Hc by (by apply elem_candidates).
  split_and!; [by apply redacted_candidates|by apply redacted_json|apply candidates_sorted].
Qed.

Definition demo_secrets_text : jstr := js "key=abcdef tok=defghi abcdefghi".
Definition demo_secret_values : list jstr := [js "defghi"; js "abcdef"; js "abcdefghi"; js "x"].

Theorem redaction_complete_witness :
  includes (redact demo_secrets_text demo_secret_values) (js "defghi") = false ∧
  redact demo_secrets_text demo_secret_values = js "key=[REDACTED] tok=[REDACTED] [REDACTED]".
Proof.
  split; [|vm_compute; reflexivity].
  apply (redaction_complete demo_secret_values (js "defghi") demo_secrets_text JNull).
  - intros s Hs Hl. unfold demo_secret_values in Hs. rewrite !elem_of_cons, elem_of_nil in Hs.
    destruct Hs as [->|[->|[->|[->|[]]]]]; [..|vm_compute in Hl; lia];
      (split_and!; [done|vm_compute; set_solver|vm_compute; set_solver|vm_compute; reflexivity]).
  - left.
  - vm_compute. lia.
Defined.

(** Secrets that overlap a marker survive. *)
Lemma marker_word_survives : includes (redact (js "REDACTED") [js "REDACTED"]) (js "REDACTED") = true.
Proof. vm_compute. reflexivity. Qed.
Lemma bracket_survives : includes (redact (js "x abcd") [js "x [RED"; js "abcd"]) (js "x [RED") = true.
Proof. vm_compute. reflexivity. Qed.
