(* ===== verification/WorkerSupervisor.v ===== *)
(** * The worker supervisor ([apps/worker/worker-supervisor.ts], PLAT-10, Q-3, Q-5)

    The queue workers of [WorkerSupervisorImpl] as tasks that wait, each for one
    operation at a time: a call of a provider, or a sleep.  [supervisor_step]
    interleaves the settling of these operations, in any order and with any
    outcome, with [start], [stop] and the abort signal; what the code does
    between two waits is one step.  The log keeps the calls and their outcomes
    in order.  The providers are the outcomes of the events. *)

From S2P Require Import Prelude JsString JsMap JsValue Errors SqliteQueue Http.

Open Scope Z_scope.

(** ** Options *)

Definition MAX_RECEIVES_BEFORE_DLQ : Z := 5.

(** [concurrency] and [batchSize] (which nothing reads) are optional. *)
Record QueueWorkerTarget := {
  queueName : jstr;
  targetFunction : jstr;
  concurrency : option Z
}.

Record WorkerSupervisorOptions := {
  projectId : jstr;
  orgId : option jstr;
  queues : list QueueWorkerTarget;
  has_dlqProvider : bool
}.

Abbreviation Message := (QueueMessage jsval).

(** ** The invocation of a message *)

Record Invocation := {
  v_requestId : jstr;
  v_method : jstr;
  v_url : jstr;
  v_headers : Headers;
  v_body : Content
}.

(** [...(s ? { name: s } : {})] *)
Definition header_unless_empty (name s : jstr) : Headers := match s with [] => [] | _ => [(name, s)] end.

Definition worker_invocation (options : WorkerSupervisorOptions) (target : QueueWorkerTarget) (requestId : jstr)
    (message : Message) : Invocation :=
  {| v_requestId := requestId;
     v_method := js "POST";
     v_url := js "http://railfog.internal/" ++ targetFunction target;
     v_headers :=
       [(js "content-type", js "application/json"); (js "x-request-id", requestId); (js "request-id", requestId);
        (js "x-queue-name", queueName target)] ++
       header_unless_empty (js "x-project-id") (projectId options) ++
       header_unless_empty (js "x-org-id") (default [] (orgId options));
     v_body := JsonOf match msg_body message with JUndef => JNull | body => body end |}.

(** [Artifact] and [Limits] of the run *)
Definition worker_artifact (target : QueueWorkerTarget) : jstr * jstr * jstr :=
  (js "fn:" ++ targetFunction target, js "sha256-queue-trigger", targetFunction target).
Definition worker_limits : Z * Z * Z := (200, 30000, 128).

(** ** Workers *)

(** What a worker waits for *)
Inductive Stage :=
| Receiving
| Running (message : Message)
| Acking (message : Message)
| DeadLettering (message : Message)
| AckingPoison (message : Message)
| Napping
| BackingOff (ms : Z)
| Exited.

Record Worker := { w_target : QueueWorkerTarget; w_stage : Stage; consecutiveErrors : Z }.

(** Calls and outcomes, of the worker with the given number *)
Inductive Entry :=
| CallReceive (i : nat)
| Received (i : nat) (message : Message)
| CallRun (i : nat) (message : Message)
| RunOk (i : nat) (message : Message)
| RunFailed (i : nat) (message : Message)
| CallAck (i : nat) (message : Message)
| AckFailed (i : nat) (message : Message)
| CallDlqSend (i : nat) (message : Message)
| DlqSent (i : nat) (message : Message)
| DlqFailed (i : nat) (message : Message).

(** [interruptibleSleep] of the backoff after an error *)
Definition backoff_ms (consecutiveErrors : Z) : Z := Z.min 5000 (50 * 2 ^ Z.min (consecutiveErrors - 1) 6).

Section worker.
Context (options : WorkerSupervisorOptions).

Definition at_stage (w : Worker) (s : Stage) : Worker :=
  {| w_target := w_target w; w_stage := s; consecutiveErrors := consecutiveErrors w |}.

(** The head of the loop [while (this.running)] and the beginning of a cycle *)
Definition loop_head (running : bool) (i : nat) (w : Worker) : Worker * list Entry :=
  if running then (at_stage w Receiving, [CallReceive i]) else (at_stage w Exited, []).

(** A cycle that returned *)
Definition cycle_done (running : bool) (i : nat) (w : Worker) : Worker * list Entry :=
  loop_head running i {| w_target := w_target w; w_stage := w_stage w; consecutiveErrors := 0 |}.

(** A cycle that threw *)
Definition cycle_failed (running : bool) (w : Worker) : Worker * list Entry :=
  if running then
    let consecutiveErrors := consecutiveErrors w + 1 in
    ({| w_target := w_target w; w_stage := BackingOff (backoff_ms consecutiveErrors);
        consecutiveErrors := consecutiveErrors |}, [])
  else (at_stage w Exited, []).

(** The handler of a failed run or a failed acknowledgement *)
Definition compute_error (running : bool) (i : nat) (w : Worker) (message : Message) : Worker * list Entry :=
  if MAX_RECEIVES_BEFORE_DLQ <=? msg_attempts message then
    if has_dlqProvider options then (at_stage w (DeadLettering message), [CallDlqSend i message])
    else (at_stage w (AckingPoison message), [CallAck i message])
  else cycle_done running i w.

(** The outcome of the operation that a worker waits for; a sleep only ends. *)
Inductive Outcome :=
| Returned (message : option Message)
| Threw.

Definition resume (running : bool) (i : nat) (w : Worker) (o : Outcome) : Worker * list Entry :=
  match w_stage w, o with
  | Receiving, Threw => cycle_failed running w
  | Receiving, Returned received =>
      if running then
        match received with
        | None => (at_stage w Napping, [])
        | Some message => (at_stage w (Running message), [Received i message; CallRun i message])
        end
      else cycle_done running i w
  | Running message, Returned _ => (at_stage w (Acking message), [RunOk i message; CallAck i message])
  | Running message, Threw =>
      let '(w, es) := compute_error running i w message in (w, RunFailed i message :: es)
  | Acking message, Returned _ => cycle_done running i w
  | Acking message, Threw =>
      let '(w, es) := compute_error running i w message in (w, AckFailed i message :: es)
  | DeadLettering message, Returned _ => (at_stage w (AckingPoison message), [DlqSent i message; CallAck i message])
  | DeadLettering message, Threw => (at_stage w (AckingPoison message), [DlqFailed i message; CallAck i message])
  | AckingPoison message, _ => cycle_done running i w
  | Napping, _ => cycle_done running i w
  | BackingOff _, _ => loop_head running i w
  | Exited, _ => (w, [])
  end.
End worker.

(** ** The supervisor *)

(** [sv_stopping]: a stop is under way ([stopPromise]); [sv_starts]: calls of
    [start] that wait for it *)
Record Supervisor := {
  sv_running : bool;
  sv_workers : list Worker;
  sv_stopping : bool;
  sv_starts : nat;
  sv_aborted : bool;
  sv_log : list Entry
}.

Definition new_supervisor : Supervisor :=
  {| sv_running := false; sv_workers := []; sv_stopping := false; sv_starts := 0; sv_aborted := false; sv_log := [] |}.

(** Resumes the workers that a condition selects, in order. *)
Fixpoint resume_where (options : WorkerSupervisorOptions) (running : bool) (select : Stage → bool) (i : nat)
    (ws : list Worker) : list Worker * list Entry :=
  match ws with
  | [] => ([], [])
  | w :: ws =>
      let '(w, es) := if select (w_stage w) then resume options running i w (Returned None) else (w, []) in
      let '(ws, es') := resume_where options running select (S i) ws in
      (w :: ws, es ++ es')
  end.

Definition is_sleeping (s : Stage) : bool := match s with Napping | BackingOff _ => true | _ => false end.
Definition is_exited (s : Stage) : bool := match s with Exited => true | _ => false end.

Section supervisor.
Context (options : WorkerSupervisorOptions).

(** The loops of [start]: each worker runs up to its first wait. *)
Definition spawned : list Worker :=
  flat_map (λ target,
    replicate (Z.to_nat (match concurrency target with Some c => Z.max 0 c | None => 1 end))
      {| w_target := target; w_stage := Receiving; consecutiveErrors := 0 |}) (queues options).

Definition spawn (s : Supervisor) : Supervisor :=
  if sv_aborted s then s
  else {| sv_running := true; sv_workers := spawned; sv_stopping := sv_stopping s; sv_starts := sv_starts s;
          sv_aborted := sv_aborted s; sv_log := sv_log s ++ imap (λ i _, CallReceive i) spawned |}.

Definition start (s : Supervisor) : Supervisor :=
  if sv_running s then s
  else if sv_stopping s then
    {| sv_running := sv_running s; sv_workers := sv_workers s; sv_stopping := sv_stopping s;
       sv_starts := S (sv_starts s); sv_aborted := sv_aborted s; sv_log := sv_log s |}
  else spawn s.

(** [stop], up to the wait for the workers *)
Definition stop (s : Supervisor) : Supervisor :=
  if sv_stopping s then s
  else if negb (sv_running s) && bool_decide (sv_workers s = []) then s
  else
    let '(ws, es) := resume_where options false is_sleeping 0 (sv_workers s) in
    {| sv_running := false; sv_workers := ws; sv_stopping := true; sv_starts := sv_starts s;
       sv_aborted := sv_aborted s; sv_log := sv_log s ++ es |}.

(** The workers have exited: the stop ends, and one waiting [start] goes on; the
    others find the supervisor running. *)
Definition stopped (s : Supervisor) : Supervisor :=
  let s' := {| sv_running := sv_running s; sv_workers := []; sv_stopping := false; sv_starts := 0;
               sv_aborted := sv_aborted s; sv_log := sv_log s |} in
  match sv_starts s with O => s' | S _ => if sv_running s then s' else spawn s' end.

(** The signal is aborted; the listener is there while the supervisor runs. *)
Definition abort_signal (s : Supervisor) : Supervisor :=
  let s' := {| sv_running := sv_running s; sv_workers := sv_workers s; sv_stopping := sv_stopping s;
               sv_starts := sv_starts s; sv_aborted := true; sv_log := sv_log s |} in
  if sv_running s && negb (sv_aborted s) then stop s' else s'.

Definition settle (s : Supervisor) (i : nat) (w : Worker) (o : Outcome) : Supervisor :=
  let '(w, es) := resume options (sv_running s) i w o in
  {| sv_running := sv_running s; sv_workers := <[i := w]> (sv_workers s); sv_stopping := sv_stopping s;
     sv_starts := sv_starts s; sv_aborted := sv_aborted s; sv_log := sv_log s ++ es |}.

Definition getActiveWorkerCount (s : Supervisor) : nat :=
  length (filter (λ w, is_exited (w_stage w) = false) (sv_workers s)).

Inductive SupervisorEvent :=
| Start
| Stop
| Abort
| Settle (i : nat) (o : Outcome)
| Stopped.

Inductive supervisor_step : SupervisorEvent → Supervisor → Supervisor → Prop :=
| step_start s : supervisor_step Start s (start s)
| step_stop s : supervisor_step Stop s (stop s)
| step_abort s : supervisor_step Abort s (abort_signal s)
| step_settle s i w o :
    sv_workers s !! i = Some w → is_exited (w_stage w) = false →
    supervisor_step (Settle i o) s (settle s i w o)
| step_stopped s :
    sv_stopping s = true → Forall (λ w, is_exited (w_stage w) = true) (sv_workers s) →
    supervisor_step Stopped s (stopped s).

Definition any_step (s s' : Supervisor) : Prop := ∃ ev, supervisor_step ev s s'.
Definition supervised (s : Supervisor) : Prop := rtc any_step new_supervisor s.
End supervisor.

(** ** Facts about the log *)

Section facts.
Context (options : WorkerSupervisorOptions).

(** What must come before an entry *)
Definition entry_ok (pre : list Entry) (e : Entry) : Prop :=
  match e with
  | CallAck i message =>
      RunOk i message ∈ pre ∨
      (MAX_RECEIVES_BEFORE_DLQ <= msg_attempts message ∧ RunFailed i message ∈ pre ∧
       (has_dlqProvider options = true → DlqSent i message ∈ pre ∨ DlqFailed i message ∈ pre))
  | CallDlqSend i message =>
      has_dlqProvider options = true ∧ MAX_RECEIVES_BEFORE_DLQ <= msg_attempts message ∧
      (RunFailed i message ∈ pre ∨ (RunOk i message ∈ pre ∧ AckFailed i message ∈ pre))
  | DlqSent i message | DlqFailed i message => CallDlqSend i message ∈ pre
  | AckFailed i message => CallAck i message ∈ pre
  | RunOk i message | RunFailed i message => CallRun i message ∈ pre
  | CallRun i message => Received i message ∈ pre
  | Received i _ => CallReceive i ∈ pre
  | CallReceive _ => True
  end.

Definition log_ok (log : list Entry) : Prop := ∀ pre e post, log = pre ++ e :: post → entry_ok pre e.

Lemma log_ok_nil : log_ok [].
Proof. by intros [|] ? ?. Qed.

Lemma log_ok_snoc log e : log_ok log → entry_ok log e → log_ok (log ++ [e]).
Proof.
  intros Hl He pre e' post. induction post as [|x post _] using rev_ind.
  - intros [-> [= ->]]%app_inj_tail. done.
  - rewrite app_comm_cons, app_assoc. intros [Hp _]%app_inj_tail. by apply (Hl pre e' post).
Qed.

Lemma log_ok_receives log i : ∀ ws : list Worker,
  log_ok log → log_ok (log ++ imap (λ j _, CallReceive (i + j)) ws).
Proof.
  intros ws. revert i log. induction ws as [|w ws IH]; intros i log Hl; [by rewrite app_nil_r|].
  cbn [imap]. rewrite Nat.add_0_r, cons_middle, app_assoc.
  rewrite (imap_ext _ (λ j _, CallReceive (S i + j))) by (intros j x _; cbn; by rewrite Nat.add_succ_r).
  apply IH. by apply log_ok_snoc.
Qed.

(** What the log says of what a worker waits for *)
Definition stage_ok (log : list Entry) (i : nat) (s : Stage) : Prop :=
  match s with
  | Receiving => CallReceive i ∈ log
  | Running message => CallRun i message ∈ log
  | Acking message => RunOk i message ∈ log ∧ CallAck i message ∈ log
  | DeadLettering message =>
      MAX_RECEIVES_BEFORE_DLQ <= msg_attempts message ∧ CallDlqSend i message ∈ log ∧
      (RunFailed i message ∈ log ∨ RunOk i message ∈ log)
  | BackingOff ms => 50 <= ms <= 3200
  | _ => True
  end.

Definition worker_ok (log : list Entry) (i : nat) (w : Worker) : Prop :=
  stage_ok log i (w_stage w) ∧ 0 <= consecutiveErrors w.

Lemma worker_ok_app log es i w : worker_ok log i w → worker_ok (log ++ es) i w.
Proof. intros [Hs Hc]. split; [|done]. destruct (w_stage w); cbn in *; rewrite ?elem_of_app; tauto. Qed.

Lemma backoff_bounds n : 1 <= n → 50 <= backoff_ms n <= 3200.
Proof.
  intros H. unfold backoff_ms.
  assert (2 ^ 0 <= 2 ^ Z.min (n - 1) 6 <= 2 ^ 6) as Hp by (split; apply Z.pow_le_mono_r; lia).
  change (2 ^ 0) with 1 in Hp. change (2 ^ 6) with 64 in Hp. lia.
Qed.

(** A worker and the entries it adds *)
Definition resumed_ok (log : list Entry) (i : nat) (r : Worker * list Entry) : Prop :=
  log_ok (log ++ r.2) ∧ worker_ok (log ++ r.2) i r.1.

Lemma loop_head_ok log running i w : log_ok log → 0 <= consecutiveErrors w → resumed_ok log i (loop_head running i w).
Proof.
  intros Hl Hc. unfold resumed_ok, loop_head. destruct running; cbn [fst snd].
  - split; [by apply log_ok_snoc|]. split; [cbn; set_solver|done].
  - rewrite app_nil_r. by split.
Qed.

Lemma cycle_done_ok log running i w : log_ok log → resumed_ok log i (cycle_done running i w).
Proof. intros Hl. by apply loop_head_ok. Qed.

Lemma resumed_ok_snoc log i e r : entry_ok log e → log_ok log →
  (log_ok (log ++ [e]) → resumed_ok (log ++ [e]) i r) → resumed_ok log i (r.1, e :: r.2).
Proof.
  intros He Hl Hr. unfold resumed_ok in *. cbn [fst snd]. rewrite cons_middle, app_assoc.
  by apply Hr, log_ok_snoc.
Qed.

Lemma compute_error_ok log running i w message : log_ok log →
  RunFailed i message ∈ log ∨ (RunOk i message ∈ log ∧ AckFailed i message ∈ log) →
  0 <= consecutiveErrors w → resumed_ok log i (compute_error options running i w message).
Proof.
  intros Hl Hm Hc. unfold compute_error. destruct (Z.leb_spec MAX_RECEIVES_BEFORE_DLQ (msg_attempts message)) as [Ha|_];
    [|by apply cycle_done_ok].
  destruct (has_dlqProvider options) eqn:Ed; unfold resumed_ok; cbn [fst snd].
  - split; [by apply log_ok_snoc|]. split; [|done]. cbn. rewrite !elem_of_app. set_solver.
  - split; [|by split]. apply log_ok_snoc; [done|]. cbn. rewrite Ed. naive_solver.
Qed.

Lemma resume_ok log running i w o :
  log_ok log → worker_ok log i w → resumed_ok log i (resume options running i w o).
Proof.
  intros Hl [Hs Hc]. unfold resume. destruct (w_stage w) as [|m|m|m|m| |ms|] eqn:Es.
  - destruct o as [received|].
    + destruct running; [|by apply cycle_done_ok].
      destruct received as [m|]; unfold resumed_ok; cbn [fst snd]; rewrite ?app_nil_r; [|by split].
      split; [|split; [|done]; cbn; set_solver]. rewrite cons_middle, app_assoc.
      apply log_ok_snoc; [by apply log_ok_snoc|]. cbn. set_solver.
    + unfold cycle_failed. destruct running; unfold resumed_ok; cbn [fst snd]; rewrite app_nil_r; split; try done.
      split; cbn; [apply backoff_bounds|]; lia.
  - destruct o as [received|].
    + unfold resumed_ok. cbn [fst snd]. rewrite cons_middle, app_assoc. split.
      * apply log_ok_snoc; [by apply log_ok_snoc|]. cbn. left. set_solver.
      * split; [|done]. cbn. set_solver.
    + rewrite (surjective_pairing (compute_error _ _ _ _ _)). apply resumed_ok_snoc; [done|done|].
      intros Hl'. apply compute_error_ok; [done|set_solver|done].
  - destruct o as [received|]; [by apply cycle_done_ok|]. destruct Hs as [Hs Hca].
    rewrite (surjective_pairing (compute_error _ _ _ _ _)). apply resumed_ok_snoc; [done|done|].
    intros Hl'. apply compute_error_ok; [done|set_solver|done].
  - destruct Hs as (Ha & Hd & Hm). destruct o as [received|]; unfold resumed_ok; cbn [fst snd]; (split; [|by split]);
      rewrite cons_middle, app_assoc; (apply log_ok_snoc; [by apply log_ok_snoc|]); cbn; rewrite !elem_of_app; set_solver.
  - by apply cycle_done_ok.
  - by apply cycle_done_ok.
  - by apply loop_head_ok.
  - unfold resumed_ok. cbn [fst snd]. rewrite app_nil_r. split; [done|]. split; [by rewrite Es|done].
Qed.

(** *** The invariant of the supervisor *)

Definition stopping_shape (s : Supervisor) : Prop :=
  (sv_running s = true → sv_stopping s = false) ∧
  (sv_running s = false → sv_stopping s = false → sv_workers s = []) ∧
  (sv_running s = false → Forall (λ w, is_sleeping (w_stage w) = false) (sv_workers s)) ∧
  (sv_running s = true → Forall (λ w, is_exited (w_stage w) = false) (sv_workers s)).

Definition supervisor_ok (s : Supervisor) : Prop :=
  log_ok (sv_log s) ∧ (∀ i w, sv_workers s !! i = Some w → worker_ok (sv_log s) i w) ∧ stopping_shape s.

Lemma resume_where_ok running select log ws : ∀ i,
  log_ok log → (∀ j w, ws !! j = Some w → worker_ok log (i + j) w) →
  let r := resume_where options running select i ws in
  log_ok (log ++ r.2) ∧ ∀ j w, r.1 !! j = Some w → worker_ok (log ++ r.2) (i + j) w.
Proof.
  revert log. induction ws as [|w ws IH]; intros log i Hl Hw.
  { cbn. rewrite app_nil_r. split; [done|]. intros j w. by rewrite lookup_nil. }
  cbn [resume_where].
  assert (resumed_ok log i (if select (w_stage w) then resume options running i w (Returned None) else (w, [])))
    as [Hl1 Hw1].
  { pose proof (Hw O w eq_refl) as H0. rewrite Nat.add_0_r in H0. destruct (select (w_stage w)); [by apply resume_ok|].
    unfold resumed_ok. cbn. by rewrite app_nil_r. }
  destruct (if select (w_stage w) then _ else _) as [w1 es]. cbn [fst snd] in Hl1, Hw1.
  destruct (IH (log ++ es) (S i) Hl1) as [Hl2 Hw2].
  { intros j w' Hj. replace (S i + j)%nat with (i + S j)%nat by lia. apply worker_ok_app. by apply Hw. }
  destruct (resume_where options running select (S i) ws) as [ws1 es1]. cbn [fst snd] in *.
  rewrite app_assoc. split; [done|]. intros [|j] w' Hj.
  - injection Hj as <-. rewrite Nat.add_0_r. by apply worker_ok_app.
  - replace (i + S j)%nat with (S i + j)%nat by lia. by apply Hw2.
Qed.
End facts.

Section lifecycle.
Context (options : WorkerSupervisorOptions).

(** ** Draining *)

(** The operations a worker may still wait for once the supervisor stops *)
Definition weight (s : Stage) : nat :=
  match s with
  | Exited => 0
  | Running _ => 4
  | Acking _ => 3
  | DeadLettering _ => 2
  | _ => 1
  end.
Definition drain_measure (s : Supervisor) : nat := sum_list ((λ w, weight (w_stage w)) <$> sv_workers s).

(** The entry takes on new work. *)
Definition takes_work (e : Entry) : bool := match e with CallReceive _ | CallRun _ _ => true | _ => false end.

Lemma resume_alive i w o : is_exited (w_stage w) = false → is_exited (w_stage (resume options true i w o).1) = false.
Proof.
  unfold resume, compute_error. destruct (w_stage w), o as [[|]|]; try done; intros _; cbn;
    destruct (_ <=? _); try done; by destruct (has_dlqProvider options).
Qed.

Lemma resume_drains i w o : is_exited (w_stage w) = false → is_sleeping (w_stage w) = false →
  let r := resume options false i w o in
  (weight (w_stage r.1) < weight (w_stage w))%nat ∧ is_sleeping (w_stage r.1) = false ∧
  forallb (λ e, negb (takes_work e)) r.2 = true.
Proof.
  unfold resume, compute_error. destruct (w_stage w), o as [[|]|]; try done; intros _ _; cbn; try (split_and!; done || lia);
    destruct (_ <=? _); cbn; try (split_and!; done || lia); destruct (has_dlqProvider options); cbn; split_and!; done || lia.
Qed.

Lemma wake_all_exits ws : ∀ i,
  let r := resume_where options false is_sleeping i ws in
  Forall (λ w, is_sleeping (w_stage w) = false) r.1 ∧ r.2 = [].
Proof.
  induction ws as [|w ws IH]; intros i; [done|]. cbn [resume_where].
  destruct (IH (S i)) as [Hs He]. destruct (resume_where options false is_sleeping (S i) ws) as [ws1 es1].
  cbn [fst snd] in Hs, He. subst es1. destruct (is_sleeping (w_stage w)) eqn:E.
  - unfold resume. destruct (w_stage w); try done; cbn; (split; [by constructor|done]).
  - cbn. split; [by constructor|done].
Qed.

Lemma spawned_receiving : Forall (λ w, w_stage w = Receiving ∧ consecutiveErrors w = 0) (spawned options).
Proof.
  unfold spawned. apply Forall_forall. intros w Hw. apply list_elem_of_In, in_flat_map in Hw as (t & _ & Hw).
  apply list_elem_of_In, elem_of_replicate in Hw as [-> _]. done.
Qed.

Lemma elem_imap_receive (ws : list Worker) i : (i < length ws)%nat → CallReceive i ∈ imap (λ j _, CallReceive j) ws.
Proof.
  intros [w Hw]%lookup_lt_is_Some. apply list_elem_of_lookup. exists i. by rewrite list_lookup_imap, Hw.
Qed.

Lemma spawned_ok s : supervisor_ok options s → sv_running s = false → sv_stopping s = false →
  supervisor_ok options (spawn options s).
Proof.
  intros (Hl & Hw & Hsh) Hr Hst. unfold spawn. destruct (sv_aborted s); [by split_and!|].
  pose proof spawned_receiving as Hsp. split_and!; cbn.
  - apply (log_ok_receives options (sv_log s) 0 (spawned options) Hl).
  - intros i w Hi. pose proof (Forall_lookup_1 _ _ _ _ Hsp Hi) as [Hs Hc]. split; [|lia]. rewrite Hs. cbn.
    apply elem_of_app. right. apply elem_imap_receive. by eapply lookup_lt_Some.
  - unfold stopping_shape. cbn. split_and!; [done|done|done|]. intros _. eapply Forall_impl; [exact Hsp|].
    by intros w [-> _].
Qed.

Lemma stop_ok s : supervisor_ok options s → supervisor_ok options (stop options s).
Proof.
  intros (Hl & Hw & Hsh). unfold stop. destruct (sv_stopping s) eqn:Es; [by split_and!|].
  destruct (_ && _); [by split_and!|].
  destruct (resume_where_ok options false is_sleeping (sv_log s) (sv_workers s) 0 Hl Hw) as [Hl1 Hw1].
  destruct (wake_all_exits (sv_workers s) 0) as [Hsl He].
  destruct (resume_where options false is_sleeping 0 (sv_workers s)) as [ws es]. cbn [fst snd] in *.
  split_and!; [done|exact Hw1|]. unfold stopping_shape. cbn. by split_and!.
Qed.

Lemma settled_ok s i w o : supervisor_ok options s → sv_workers s !! i = Some w → is_exited (w_stage w) = false →
  supervisor_ok options (settle options s i w o).
Proof.
  intros (Hl & Hw & Hsh1 & Hsh2 & Hsh3 & Hsh4) Hi Hx. unfold settle.
  pose proof (resume_ok options (sv_log s) (sv_running s) i w o Hl (Hw i w Hi)) as [Hl1 Hw1].
  pose proof (resume_alive i w o Hx) as Ha. pose proof (resume_drains i w o Hx) as Hd.
  assert (sv_running s = true → is_exited (w_stage (resume options (sv_running s) i w o).1) = false) as Ha' by (by intros ->).
  assert (sv_running s = false → is_sleeping (w_stage (resume options (sv_running s) i w o).1) = false) as Hd'.
  { intros E. pose proof (Forall_lookup_1 _ _ _ _ (Hsh3 E) Hi) as Hn. rewrite E. by apply Hd. }
  clear Ha Hd. destruct (resume options (sv_running s) i w o) as [w1 es]. cbn [fst snd] in *. split_and!; cbn.
  - done.
  - intros j w' Hj. destruct (decide (j = i)) as [->|Hne].
    + rewrite list_lookup_insert_eq in Hj by (by eapply lookup_lt_Some). by injection Hj as <-.
    + rewrite list_lookup_insert_ne in Hj by done. by apply worker_ok_app, Hw.
  - unfold stopping_shape. cbn. split_and!; [done| |intros E; apply Forall_insert; auto|intros E; apply Forall_insert; auto].
    intros E1 E2. rewrite (Hsh2 E1 E2) in Hi. by rewrite lookup_nil in Hi.
Qed.

Lemma stopped_ok s : supervisor_ok options s → sv_stopping s = true → supervisor_ok options (stopped options s).
Proof.
  intros (Hl & Hw & Hsh1 & Hsh) Hst. assert (sv_running s = false) as Hr by (destruct (sv_running s); naive_solver).
  assert (supervisor_ok options {| sv_running := sv_running s; sv_workers := []; sv_stopping := false; sv_starts := 0;
    sv_aborted := sv_aborted s; sv_log := sv_log s |}) as Hok.
  { split_and!; [done|intros i w Hi; cbn in Hi; by rewrite lookup_nil in Hi|]. unfold stopping_shape. cbn. rewrite Hr. by split_and!. }
  unfold stopped. destruct (sv_starts s); [done|]. rewrite Hr in *. by apply spawned_ok.
Qed.

Lemma abort_ok s : supervisor_ok options s → supervisor_ok options (abort_signal options s).
Proof. intros Hok. unfold abort_signal. destruct (_ && _); [by apply stop_ok|done]. Qed.

Lemma start_ok s : supervisor_ok options s → supervisor_ok options (start options s).
Proof.
  intros Hok. unfold start. destruct (sv_running s) eqn:Er; [done|]. destruct (sv_stopping s) eqn:Es; [|by apply spawned_ok].
  destruct Hok as (Hl & Hw & Hsh). split_and!; [done|done|]. unfold stopping_shape in *. cbn. by rewrite Er, Es in *.
Qed.

Lemma supervised_ok s : supervised options s → supervisor_ok options s.
Proof.
  apply invariant_rtc.
  - intros s1 s2 Hok (ev & Hs). destruct Hs; [by apply start_ok|by apply stop_ok|by apply abort_ok|by apply settled_ok|by apply stopped_ok].
  - split_and!; [apply log_ok_nil|intros i w Hi; cbn in Hi; by rewrite lookup_nil in Hi|]. unfold stopping_shape. cbn. by split_and!.
Qed.

Lemma sum_list_insert (f : Worker → nat) ws i w w' : ws !! i = Some w →
  (sum_list (f <$> <[i := w']> ws) + f w = sum_list (f <$> ws) + f w')%nat.
Proof.
  revert i. induction ws as [|x ws IH]; intros [|i] Hi; cbn in Hi; [done..| |].
  - injection Hi as ->. change (<[0%nat := w']> (w :: ws)) with (w' :: ws). cbn. lia.
  - change (<[S i := w']> (x :: ws)) with (x :: <[i := w']> ws). specialize (IH i Hi). cbn. lia.
Qed.

Lemma measure_bound s : (drain_measure s <= 4 * length (sv_workers s))%nat.
Proof.
  unfold drain_measure. induction (sv_workers s) as [|w ws IH]; cbn; [lia|]. destruct (w_stage w); cbn; lia.
Qed.

Lemma measure_zero s : drain_measure s = O ↔ Forall (λ w, is_exited (w_stage w) = true) (sv_workers s).
Proof.
  unfold drain_measure. induction (sv_workers s) as [|w ws IH]; cbn; [by split|]. rewrite Forall_cons, <-IH.
  destruct (w_stage w); cbn; split; try lia; naive_solver.
Qed.

Lemma waiting_worker s : (0 < drain_measure s)%nat → ∃ i w, sv_workers s !! i = Some w ∧ is_exited (w_stage w) = false.
Proof.
  unfold drain_measure. induction (sv_workers s) as [|w ws IH]; cbn; [lia|]. intros H.
  destruct (is_exited (w_stage w)) eqn:E; [|by exists O, w].
  destruct IH as (i & w' & Hi & Hx); [destruct (w_stage w); cbn in *; try done; lia|]. by exists (S i), w'.
Qed.
End lifecycle.

(** ** Theorems *)


(** C24: Clean shutdown (PLAT-10): once a stop is under way, whatever the pending
    operations answer, no worker asks for a message or invokes a Function any
    more; every answer brings the supervisor nearer to its end, which comes after
    at most four answers per worker; until then some operation is pending, and
    then the stop completes. *)
Theorem supervisor_drains options s :
  supervised options s → sv_stopping s = true →
  (drain_measure s <= 4 * length (sv_workers s))%nat ∧
  (∀ i o s', supervisor_step options (Settle i o) s s' →
     (drain_measure s' < drain_measure s)%nat ∧ sv_stopping s' = true ∧
     ∃ es, sv_log s' = sv_log s ++ es ∧ ∀ e, e ∈ es → takes_work e = false) ∧
  ((0 < drain_measure s)%nat → ∃ i, ∀ o, ∃ s', supervisor_step options (Settle i o) s s') ∧
  (drain_measure s = O → supervisor_step options Stopped s (stopped options s)).
Proof.
  intros (_ & _ & Hsh1 & _ & Hsh3 & _)%supervised_ok Hst.
  assert (sv_running s = false) as Hr by (destruct (sv_running s); naive_solver).
  split_and!; [apply measure_bound| | |intros Hz; constructor; [done|by apply measure_zero]].
  - intros i o s' Hs. inversion Hs as [| | |? ? w ? Hi Hx|]; subst.
    destruct (resume_drains options i w o Hx (Forall_lookup_1 _ _ _ _ (Hsh3 Hr) Hi)) as (Hm & _ & Hn).
    unfold settle. rewrite Hr. destruct (resume options false i w o) as [w1 es]. cbn [fst snd] in *.
    split_and!; [|done|].
    + pose proof (sum_list_insert (λ w, weight (w_stage w)) (sv_workers s) i w w1 Hi) as E. unfold drain_measure. cbn in *. lia.
    + exists es. split; [done|]. intros e He. rewrite forallb_true_iff in Hn. by apply negb_true_iff, Hn.
  - intros (i & w & Hi & Hx)%waiting_worker. exists i. intros o. eexists. by apply (step_settle options s i w o).
Qed.

(** *** Runs *)

Definition mail_options : WorkerSupervisorOptions :=
  {| projectId := js "shop"; orgId := None;
     queues := [{| queueName := js "mail"; targetFunction := js "send"; concurrency := None |}];
     has_dlqProvider := true |}.
Definition fifth_receipt : Message := {| msg_id := js "m1"; msg_body := JNull; msg_attempts := 5 |}.

(** Settles the operation of the first worker. *)
Definition settle_first (s : Supervisor) (o : Outcome) : Supervisor :=
  match sv_workers s with w :: _ => settle mail_options s 0 w o | [] => s end.

Lemma settle_first_step s o w ws : sv_workers s = w :: ws → is_exited (w_stage w) = false →
  any_step mail_options s (settle_first s o).
Proof.
  intros E Hx. exists (Settle 0 o). unfold settle_first. rewrite E. constructor; [by rewrite E|done].
Qed.

Lemma supervised_snoc s s' : supervised mail_options s → any_step mail_options s s' → supervised mail_options s'.
Proof. intros Hs Hstep. eapply rtc_r; eassumption. Qed.

Definition mail_started : Supervisor := start mail_options new_supervisor.
Definition mail_running : Supervisor := settle_first mail_started (Returned (Some fifth_receipt)).

Lemma mail_running_supervised : supervised mail_options mail_running.
Proof.
  eapply supervised_snoc; [|eapply settle_first_step; vm_compute; reflexivity].
  eapply supervised_snoc; [apply rtc_refl|]. exists Start. constructor.
Qed.

(** The Function fails on the fifth receipt: the message goes to the dead letter
    queue and is acknowledged. *)
Definition mail_poison : Supervisor := settle_first (settle_first mail_running Threw) (Returned None).


(** The dead letter queue refuses the message: it is acknowledged all the same,
    and is in neither queue. *)
Lemma dlq_failure_loses :
  sv_log (settle_first (settle_first mail_running Threw) Threw) =
    [CallReceive 0; Received 0 fifth_receipt; CallRun 0 fifth_receipt; RunFailed 0 fifth_receipt;
     CallDlqSend 0 fifth_receipt; DlqFailed 0 fifth_receipt; CallAck 0 fifth_receipt].
Proof. vm_compute. reflexivity. Qed.

Definition mail_stopping : Supervisor := stop mail_options mail_running.

Lemma mail_stopping_supervised : supervised mail_options mail_stopping.
Proof. eapply supervised_snoc; [apply mail_running_supervised|]. exists Stop. constructor. Qed.

Theorem supervisor_drains_witness :
  drain_measure mail_stopping = 4%nat ∧ (4 <= 4 * length (sv_workers mail_stopping))%nat ∧
  ∃ i, ∀ o, ∃ s', supervisor_step mail_options (Settle i o) mail_stopping s'.
Proof.
  split; [vm_compute; reflexivity|].
  destruct (supervisor_drains mail_options mail_stopping mail_stopping_supervised) as (Hb & _ & Hw & _);
    [vm_compute; reflexivity|].
  split; [exact Hb|]. apply Hw. vm_compute. lia.
Defined.

(** A stop that comes while a start waits for an earlier stop is forgotten: the
    supervisor runs although [stop] was called last. *)
Definition stop_start_stop : Supervisor :=
  stopped mail_options
    (settle_first (stop mail_options (start mail_options (stop mail_options mail_started))) (Returned None)).

Lemma last_stop_forgotten : supervised mail_options stop_start_stop ∧ sv_running stop_start_stop = true.
Proof.
  split; [|vm_compute; reflexivity]. unfold stop_start_stop.
  eapply supervised_snoc; [|exists Stopped; constructor; [vm_compute; reflexivity|by repeat constructor]].
  eapply supervised_snoc; [|eapply settle_first_step; vm_compute; reflexivity].
  eapply supervised_snoc; [|exists Stop; constructor].
  eapply supervised_snoc; [|exists Start; constructor].
  eapply supervised_snoc; [|exists Stop; constructor].
  eapply supervised_snoc; [apply rtc_refl|exists Start; constructor].
Qed.

(** A message that was processed, but whose acknowledgement failed on the fifth
    receipt, is sent to the dead letter queue as well. *)
Lemma processed_and_dead_lettered :
  sv_log (settle_first (settle_first mail_running (Returned None)) Threw) =
    [CallReceive 0; Received 0 fifth_receipt; CallRun 0 fifth_receipt; RunOk 0 fifth_receipt; CallAck 0 fifth_receipt; AckFailed 0 fifth_receipt;
     CallDlqSend 0 fifth_receipt].
Proof. vm_compute. reflexivity. Qed.
