(* ===== verification/Shutdown.v ===== *)
(** * The shutdown coordinator ([runtime/lifecycle/shutdown-coordinator.ts], PLAT-1, PLAT-10)

    [ShutdownCoordinator] as a machine whose events are the registration of
    targets, the calls of [shutdown], the settling of the targets' promises and
    the firing of the timer.  What the targets do is in the events; the operating
    system's signals only call [shutdown]. *)

From S2P Require Import Prelude JsString.

Open Scope Z_scope.

Definition DEFAULT_DRAIN_TIMEOUT_MS : Z := 15000.

(** Where [#executeShutdown] waits: for the targets to stop accepting (those that
    have not settled yet), or for the race between the drains (their results)
    and the timer *)
Inductive Phase :=
| Open
| StoppingAccept (pending : list nat)
| Draining (drains : list (option bool)) (timer : Z)
| Finished (clean : bool).

(** [targets]: how many are registered; [asked]: those that were told to stop
    accepting; [starts] and [completions] count the callbacks. *)
Record Coordinator := {
  targets : nat;
  phase : Phase;
  asked : list nat;
  starts : nat;
  completions : nat
}.

Definition new_coordinator : Coordinator :=
  {| targets := 0; phase := Open; asked := []; starts := 0; completions := 0 |}.

Section coordinator.
Context (drainTimeoutMs : option Z).

Definition register (c : Coordinator) : Coordinator :=
  {| targets := S (targets c); phase := phase c; asked := asked c; starts := starts c; completions := completions c |}.

Definition isShuttingDown (c : Coordinator) : bool := match phase c with Open => false | _ => true end.

Definition at_phase (c : Coordinator) (p : Phase) : Coordinator :=
  {| targets := targets c; phase := p; asked := asked c; starts := starts c; completions := completions c |}.

(** The end of [#executeShutdown], with its callback *)
Definition complete (c : Coordinator) (clean : bool) : Coordinator :=
  {| targets := targets c; phase := Finished clean; asked := asked c; starts := starts c; completions := S (completions c) |}.

(** [shutdown()]: later calls return the same promise. *)
Definition shutdown (c : Coordinator) : Coordinator :=
  match phase c with
  | Open =>
      let c := {| targets := targets c; phase := StoppingAccept (seq 0 (targets c)); asked := seq 0 (targets c);
                  starts := S (starts c); completions := completions c |} in
      match targets c with O => complete c true | S _ => c end
  | _ => c
  end.

(** A [stopAccepting] returned or threw; after the last one, the timer starts and
    every target is drained. *)
Definition stop_settled (c : Coordinator) (i : nat) : Coordinator :=
  match phase c with
  | StoppingAccept pending =>
      match filter (λ j, j ≠ i) pending with
      | [] => at_phase c (Draining (replicate (targets c) None) (default DEFAULT_DRAIN_TIMEOUT_MS drainTimeoutMs))
      | pending => at_phase c (StoppingAccept pending)
      end
  | _ => c
  end.

(** A [drain] returned, with the active count after it, or threw. *)
Definition drain_result (outcome : option Z) : bool :=
  match outcome with Some activeCount => activeCount =? 0 | None => false end.

Definition all_settled (drains : list (option bool)) : bool := forallb (λ d, match d with Some _ => true | None => false end) drains.
Definition every_clean (drains : list (option bool)) : bool := forallb (λ d, default false d) drains.

Definition drain_settled (c : Coordinator) (i : nat) (outcome : option Z) : Coordinator :=
  match phase c with
  | Draining drains timer =>
      let drains := <[i := Some (drain_result outcome)]> drains in
      if all_settled drains then complete (at_phase c (Draining drains timer)) (every_clean drains)
      else at_phase c (Draining drains timer)
  | _ => c
  end.

Definition timer_fired (c : Coordinator) : Coordinator :=
  match phase c with Draining _ _ => complete c false | _ => c end.

Inductive ShutdownEvent :=
| Register
| Shutdown
| StopSettled (i : nat)
| DrainSettled (i : nat) (outcome : option Z)
| TimerFired.

Definition shutdown_exec (c : Coordinator) (ev : ShutdownEvent) : Coordinator :=
  match ev with
  | Register => register c
  | Shutdown => shutdown c
  | StopSettled i => stop_settled c i
  | DrainSettled i outcome => drain_settled c i outcome
  | TimerFired => timer_fired c
  end.
Definition shutdown_run (evs : list ShutdownEvent) : Coordinator := fold_left shutdown_exec evs new_coordinator.

(** ** Invariants *)

(** The target drained, with no active work left. *)
Definition drained (evs : list ShutdownEvent) (i : nat) : Prop := DrainSettled i (Some 0) ∈ evs.

Definition coordinator_ok (evs : list ShutdownEvent) (c : Coordinator) : Prop :=
  (starts c = if isShuttingDown c then 1%nat else O) ∧
  (completions c = match phase c with Finished _ => 1%nat | _ => O end) ∧
  match phase c with
  | Draining drains timer =>
      timer = default DEFAULT_DRAIN_TIMEOUT_MS drainTimeoutMs ∧
      (∀ i, drains !! i = Some (Some true) → drained evs i) ∧ (length (asked c) <= length drains)%nat
  | Finished true => ∀ i, i ∈ asked c → drained evs i
  | _ => True
  end ∧
  asked c = seq 0 (length (asked c)) ∧ (length (asked c) <= targets c)%nat ∧
  (∀ pending, phase c = StoppingAccept pending → pending ≠ []).

Lemma every_clean_lookup drains i : every_clean drains = true → (i < length drains)%nat → drains !! i = Some (Some true).
Proof.
  intros H [d Hd]%lookup_lt_is_Some. rewrite Hd. unfold every_clean in H. rewrite forallb_true_iff in H.
  specialize (H d (list_elem_of_lookup_2 _ _ _ Hd)). by destruct d as [[]|].
Qed.

Lemma drained_mono evs ev i : drained evs i → drained (evs ++ [ev]) i.
Proof. unfold drained. rewrite elem_of_app. tauto. Qed.

Lemma seq_seq n : seq 0 (length (seq 0 n)) = seq 0 n.
Proof. by rewrite length_seq. Qed.

Lemma coordinator_step evs c ev : coordinator_ok evs c → coordinator_ok (evs ++ [ev]) (shutdown_exec c ev).
Proof.
  intros (Hs & Hc & Hp & Ha & Ht & Hn).
  assert (coordinator_ok (evs ++ [ev]) c) as Hok.
  { split_and!; try done. destruct (phase c) as [|pending|drains timer|[]]; try done.
    - destruct Hp as (? & Hd & ?). split_and!; [done| |done]. intros i Hi. by apply drained_mono, Hd.
    - intros i Hi. by apply drained_mono, Hp. }
  unfold isShuttingDown in Hs. destruct ev as [| |i|i outcome|]; cbn [shutdown_exec].
  - destruct Hok as (? & ? & ? & ? & ? & ?). unfold register. split_and!; try done. cbn. lia.
  - unfold shutdown. destruct (phase c) eqn:E; [|exact Hok..].
    destruct (targets c) as [|n] eqn:En.
    + split_and!; cbn; rewrite ?Hs, ?Hc; try done. intros i Hi. by apply elem_of_nil in Hi.
    + split_and!; cbn; rewrite ?length_seq, ?Hs, ?Hc; try done; try lia. by intros pending [= <-].
  - unfold stop_settled. destruct (phase c) as [|pending|drains timer|clean] eqn:E; [exact Hok| |exact Hok..].
    destruct (filter _ pending) as [|j pending'] eqn:Ef.
    + split_and!; cbn; try done. split_and!; [done| |by rewrite length_replicate]. intros i' Hi'. apply lookup_replicate in Hi' as [[=] _].
    + split_and!; cbn; try done. by intros p [= <-].
  - unfold drain_settled. destruct (phase c) as [|pending|drains timer|clean] eqn:E; [exact Hok..| |exact Hok].
    set (drains' := <[i := Some (drain_result outcome)]> drains).
    assert (∀ j, drains' !! j = Some (Some true) → drained (evs ++ [DrainSettled i outcome]) j) as Hd'.
    { intros j Hj. destruct (decide (j = i)) as [->|Hne].
      - subst drains'. destruct Hp as (_ & Hd & _). destruct (decide (i < length drains)%nat) as [Hlt|Hge].
        + rewrite list_lookup_insert_eq in Hj by done. injection Hj as Hj. unfold drained. apply elem_of_app. right.
          destruct outcome as [n|]; [|done]. apply Z.eqb_eq in Hj. subst n. left.
        + rewrite list_insert_ge in Hj by lia. by apply drained_mono, Hd.
      - subst drains'. rewrite list_lookup_insert_ne in Hj by done. apply drained_mono. by apply Hp. }
    assert (length drains' = length drains) as Hl by apply length_insert. destruct Hp as (Htm & _ & Hal).
    destruct (all_settled drains') eqn:Eall.
    + split_and!; cbn; try done; [by rewrite Hc|]. destruct (every_clean drains') eqn:Ec; [|done].
      intros j Hj. apply Hd'. apply every_clean_lookup; [done|]. rewrite Ha, elem_of_seq in Hj. lia.
    + split_and!; cbn; try done. by rewrite Hl.
  - unfold timer_fired. destruct (phase c) eqn:E; [exact Hok..| |exact Hok]. split_and!; cbn; try done. by rewrite Hc.
Qed.

Lemma coordinator_run evs : coordinator_ok evs (shutdown_run evs).
Proof.
  induction evs as [|ev evs IH] using rev_ind.
  - by split_and!.
  - unfold shutdown_run. rewrite fold_left_app. by apply coordinator_step.
Qed.

Lemma shutting_down_monotone c ev : isShuttingDown c = true → isShuttingDown (shutdown_exec c ev) = true.
Proof.
  unfold isShuttingDown, shutdown_exec, shutdown, stop_settled, drain_settled, timer_fired.
  destruct ev, (phase c) eqn:E; cbn; rewrite ?E; try done.
  - by destruct (filter _ _).
  - by destruct (all_settled _).
Qed.

Lemma shutting_down evs : isShuttingDown (shutdown_run evs) = true ↔ Shutdown ∈ evs.
Proof.
  induction evs as [|ev evs IH] using rev_ind.
  - split; [done|]. intros H. by apply elem_of_nil in H.
  - unfold shutdown_run in *. rewrite fold_left_app, elem_of_app, list_elem_of_singleton. cbn.
    set (c := fold_left shutdown_exec evs new_coordinator) in *. split.
    + intros H. destruct (isShuttingDown c) eqn:E; [left; by apply IH|]. right.
      unfold isShuttingDown in E, H. destruct (phase c) eqn:Ep; try done.
      destruct ev; try done; cbn in H; unfold stop_settled, drain_settled, timer_fired in H; rewrite ?Ep in H; cbn in H;
        rewrite ?Ep in H; done.
    + intros [Hin%IH|<-]; [by apply shutting_down_monotone|].
      unfold isShuttingDown, shutdown_exec, shutdown. destruct (phase c) eqn:Ep; rewrite ?Ep; try done. by destruct (targets c).
Qed.

Lemma stop_settled_draining evs : ∀ c drains timer, phase c = Draining drains timer →
  phase (fold_left shutdown_exec (StopSettled <$> evs) c) = Draining drains timer.
Proof.
  induction evs as [|i evs IH]; intros c drains timer E; [done|]. cbn. apply IH. unfold stop_settled. by rewrite E.
Qed.

Lemma stops_settle evs : ∀ c pending, phase c = StoppingAccept pending → pending ≠ [] → (∀ i, i ∈ pending → i ∈ evs) →
  ∃ drains timer, phase (fold_left shutdown_exec (StopSettled <$> evs) c) = Draining drains timer.
Proof.
  induction evs as [|i evs IH]; intros c pending E Hne Hall.
  - destruct pending as [|j pending]; [done|]. specialize (Hall j ltac:(left)). by apply elem_of_nil in Hall.
  - cbn [fmap list_fmap fold_left shutdown_exec]. unfold stop_settled. rewrite E.
    destruct (filter (λ j, j ≠ i) pending) as [|j pending'] eqn:Ef.
    + do 2 eexists. by apply stop_settled_draining.
    + eapply IH; [reflexivity|done|]. intros k Hk. rewrite <-Ef in Hk. apply list_elem_of_filter in Hk as [Hki Hk].
      specialize (Hall k Hk). apply elem_of_cons in Hall as [->|?]; done.
Qed.

(** C25: The shutdown is orderly and bounded (PLAT-10): for every sequence of
    events, the coordinator is shutting down exactly when [shutdown] was called,
    each callback has run at most once, and a clean result means that every
    target that was told to stop accepting drained in time with no active work;
    once the targets have stopped accepting, the timer alone, set to the drain
    timeout, ends the shutdown, whatever the targets do. *)
Theorem shutdown_coordinated evs :
  let c := shutdown_run evs in
  (isShuttingDown c = true ↔ Shutdown ∈ evs) ∧ (starts c <= 1)%nat ∧ (completions c <= 1)%nat ∧
  (phase c = Finished true → ∀ i, i ∈ asked c → drained evs i) ∧
  (∀ drains timer, phase c = Draining drains timer →
     timer = default DEFAULT_DRAIN_TIMEOUT_MS drainTimeoutMs ∧ phase (timer_fired c) = Finished false) ∧
  (∀ pending, phase c = StoppingAccept pending →
     phase (timer_fired (fold_left shutdown_exec (StopSettled <$> pending) c)) = Finished false).
Proof.
  intros c. destruct (coordinator_run evs) as (Hs & Hc & Hp & _ & _ & Hn). fold c in Hs, Hc, Hp, Hn.
  split_and!.
  - apply shutting_down.
  - rewrite Hs. destruct (isShuttingDown c); lia.
  - rewrite Hc. destruct (phase c); lia.
  - intros E. by rewrite E in Hp.
  - intros drains timer E. rewrite E in Hp. split; [apply Hp|]. unfold timer_fired. by rewrite E.
  - intros pending E. destruct (stops_settle pending c pending E (Hn pending E)) as (drains & timer & Ed); [done|].
    unfold timer_fired. by rewrite Ed.
Qed.
End coordinator.

Definition two_targets : list ShutdownEvent :=
  [Register; Register; Shutdown; StopSettled 1; StopSettled 0; DrainSettled 0 (Some 0); Shutdown; DrainSettled 1 (Some 0)].

Theorem shutdown_coordinated_witness :
  phase (shutdown_run None two_targets) = Finished true ∧ drained two_targets 1.
Proof.
  assert (phase (shutdown_run None two_targets) = Finished true) as Hf by (vm_compute; reflexivity).
  split; [exact Hf|].
  destruct (shutdown_coordinated None two_targets) as (_ & _ & _ & H & _). apply (H Hf 1%nat). vm_compute. set_solver.
Defined.

(** A target whose [stopAccepting] does not settle holds the shutdown up for
    ever: no timer is running yet. *)
Lemma stop_accepting_unbounded n :
  phase (shutdown_run None ([Register; Shutdown] ++ replicate n TimerFired)) = StoppingAccept [0%nat].
Proof.
  unfold shutdown_run. rewrite fold_left_app. cbn. induction n as [|n IH]; [done|]. cbn [replicate fold_left]. exact IH.
Qed.

(** A target that is registered while the others stop accepting is drained but
    was never told to stop accepting. *)
Lemma late_target_not_asked :
  let c := shutdown_run None [Register; Shutdown; Register; StopSettled 0; DrainSettled 0 (Some 0); DrainSettled 1 (Some 0)] in
  phase c = Finished true ∧ asked c = [0%nat] ∧ targets c = 2%nat.
Proof. vm_compute. done. Qed.
