(* ===== verification/ResilientProvider.v ===== *)
(** * The resilient provider adapters ([providers/resilient/resilient-provider.ts])

    The classification of arbitrary thrown values into the error codes of
    PLAT-12, and the two ways in which the adapters run an operation of the
    provider they wrap: with retries under the circuit breaker, or once.  The
    texts of the errors thrown are not modelled (their redaction works by regular
    expressions and stack traces); the code and the request id are. *)

From S2P Require Import Prelude JsString JsNumber Errors Retry KvInterface SqliteKv CircuitBreaker.
From Stdlib Require Import QArith Lqa.

Open Scope Z_scope.

(** ** Thrown values *)

(** A numeric property: [None] is a number that is not an integer. *)
Definition status_number : Type := option Z.

(** The properties [extractStatusCode] looks at, where they are numbers;
    [meta_httpStatusCode] is [$metadata.httpStatusCode]. *)
Record status_fields := {
  f_status : option status_number;
  f_statusCode : option status_number;
  f_httpStatus : option status_number;
  meta_httpStatusCode : option status_number
}.

(** [unknown], as a [catch] finds it: a falsy value, a string that is not empty,
    another primitive or a function, or an object with its [message] and [name]
    (where they are strings), the class and request id of a [RailFogError], and
    its [cause] ([Falsy] when it has none). *)
Inductive thrown_value :=
| Falsy
| ThrownString (s : jstr)
| Primitive
| ErrorObject (status : status_fields) (message name : option jstr)
    (railfog : option (RailFogErrorCode * option jstr)) (cause : thrown_value).

(** [obj.status ?? obj.statusCode ?? ...], each if it is a number *)
Definition own_status (f : status_fields) : option status_number :=
  match f_status f, f_statusCode f, f_httpStatus f with
  | Some n, _, _ => Some n
  | None, Some n, _ => Some n
  | None, None, Some n => Some n
  | None, None, None => meta_httpStatusCode f
  end.

Fixpoint extractStatusCode (error : thrown_value) : option status_number :=
  match error with
  | ErrorObject status _ _ _ cause =>
      match own_status status with Some n => Some n | None => extractStatusCode cause end
  | _ => None
  end.

Definition maxCauseDepth : nat := 10.

(** [" " + s] for a property that is a string *)
Definition spaced (s : option jstr) : jstr := match s with Some s => js " " ++ s | None => [] end.

(** The loop of [extractAllMessages] with [fuel] causes to go *)
Fixpoint collect_messages (fuel : nat) (combined : jstr) (current : thrown_value) : jstr :=
  match fuel with
  | O => combined
  | S fuel =>
      match current with
      | Falsy | Primitive => combined
      | ThrownString s => combined ++ js " " ++ s
      | ErrorObject _ message name _ cause =>
          collect_messages fuel (combined ++ spaced message ++ spaced name) cause
      end
  end.

Definition extractAllMessages (error : thrown_value) : jstr := collect_messages maxCauseDepth [] error.

(** [/(?:p1|p2|...)/i.test(s)]: without the [u] flag no character outside ASCII
    matches an ASCII letter. *)
Definition ascii_fold (s : jstr) : jstr := (λ c, if is_upper c then c + 32 else c) <$> s.
Definition mentions (patterns : list jstr) (s : jstr) : bool :=
  existsb (λ p, includes (ascii_fold s) (ascii_fold p)) patterns.

Definition unavailable_texts : list jstr :=
  [js "ECONNRESET"; js "ECONNREFUSED"; js "fetch failed"; js "socket hang up"; js "SlowDown";
   js "Service Unavailable"].
Definition not_found_texts : list jstr := [js "NoSuchKey"; js "Not Found"; js "Key not found"].
Definition timeout_texts : list jstr :=
  [js "ETIMEDOUT"; js "Request Timeout"; js "Socket timeout"; js "deadline exceeded"].
Definition rate_limited_texts : list jstr :=
  [js "Too Many Requests"; js "ThrottlingException"; js "Rate limit"].
Definition conflict_texts : list jstr := [js "CAS mismatch"; js "version conflict"].

(** [status === n] *)
Definition status_is (status : option status_number) (n : Z) : bool :=
  bool_decide (status = Some (Some n)).

(** The class, request id of the [RailFogError] that is thrown *)
Record normalized := { n_code : RailFogErrorCode; n_requestId : option jstr }.

Definition railfog_class (error : thrown_value) : option (RailFogErrorCode * option jstr) :=
  match error with ErrorObject _ _ _ r _ => r | _ => None end.

(** [TargetClass] *)
Definition target_class (status : option status_number) (combined : jstr)
    (own_class : option RailFogErrorCode) : RailFogErrorCode :=
  if status_is status 503 || status_is status 502 || status_is status 504 ||
     mentions unavailable_texts combined then UNAVAILABLE
  else if status_is status 404 || mentions not_found_texts combined then RESOURCE_NOT_FOUND
  else if status_is status 408 || mentions timeout_texts combined then TIMEOUT
  else if status_is status 429 || mentions rate_limited_texts combined then RATE_LIMITED
  else if status_is status 409 || mentions conflict_texts combined then CONFLICT
  else match own_class with Some c => c | None => INTERNAL end.

Definition normalizeProviderError (error : thrown_value) : normalized :=
  {| n_code := target_class (extractStatusCode error) (extractAllMessages error)
                 (fst <$> railfog_class error);
     n_requestId := railfog_class error ≫= snd |}.

(** ** Running an operation *)

(** [instanceof UnavailableError || instanceof TimeoutError] after normalization *)
Definition isTransient (err : thrown_value) : bool :=
  match n_code (normalizeProviderError err) with UNAVAILABLE | TIMEOUT => true | _ => false end.

(** [retryOpts.shouldRetry] *)
Definition transient_only (retryPolicy : RetryPolicyOptions thrown_value) (err : thrown_value)
    (attempt : Z) : bool :=
  if negb (isTransient err) then false
  else match shouldRetry retryPolicy with Some f => f err attempt | None => true end.

Definition retryOpts (retryPolicy : RetryPolicyOptions thrown_value) : RetryPolicyOptions thrown_value :=
  {| baseMs := baseMs retryPolicy; capMs := capMs retryPolicy;
     maxAttempts := maxAttempts retryPolicy; randomUniform := randomUniform retryPolicy;
     shouldRetry := Some (transient_only retryPolicy) |}.

(** The state in which the [n]-th run of an operation finds the provider *)
Definition after_runs {P E A} (op : stm P E A) (n : nat) (p : P) : P :=
  Nat.iter n (λ p, (op p).1) p.

(** [runner]: [withRetry] on an operation of the provider.  The fuel is the
    number of attempts the policy allows ([retried_spec]). *)
Definition runner {P A} `{FromExn thrown_value} (retryPolicy : RetryPolicyOptions thrown_value)
    (op : stm P thrown_value A) : stm P thrown_value A :=
  λ p,
    match withRetry (Z.to_nat (Z.max 1 (maxAttempts retryPolicy)))
            (λ n, (op (after_runs op (Z.to_nat n) p)).2) (retryOpts retryPolicy) with
    | Some (r, sleeps) => (after_runs op (S (length sleeps)) p, r)
    | None => (p, Err (from_exn InternalError))
    end.

(** [catch (err) { throw normalizeProviderError(err) }] *)
Definition rethrow_normalized {S A} (m : stm S (run_error thrown_value) A)
    : stm S (run_error normalized) A :=
  λ s, match m s with
       | (s, Ok a) => (s, Ok a)
       | (s, Err (Thrown e)) => (s, Err (Thrown (normalizeProviderError e)))
       | (s, Err OutOfFuel) => (s, Err OutOfFuel)
       end.

(** The state an adapter runs on: the store of the breaker and the provider. *)
Record rstate (S P : Type) := { breaker : S; inner : P }.
Arguments breaker {S P}.
Arguments inner {S P}.
Arguments Build_rstate {S P}.

Definition on_breaker {S P E A} (m : stm S E A) : stm (rstate S P) E A :=
  λ s, let '(b, r) := m (breaker s) in ({| breaker := b; inner := inner s |}, r).
Definition on_inner {S P E A} (m : stm P E A) : stm (rstate S P) E A :=
  λ s, let '(p, r) := m (inner s) in ({| breaker := breaker s; inner := p |}, r).

(** The breaker works on its own store. *)
#[export] Instance rstate_kv_store {S P V} `{KvStore S V} : KvStore (rstate S P) V := {
  kv_get k := on_breaker (kv_get k);
  kv_set k v ttl := on_breaker (kv_set k v ttl);
  kv_delete k := on_breaker (kv_delete k);
  kv_commit cs mus := on_breaker (kv_commit cs mus)
}.

(** [options.circuitBreaker] with the fuel of its loops and the readings of its
    clock around the call *)
Record breaker_call := {
  circuit_key : key;
  circuit_cfg : BreakerConfig;
  circuit_fuel : nat;
  clock0 : Z;
  clock1 : Z
}.

Section adapters.
Context {S P : Type} `{KvStore S stored_value} `{FromExn thrown_value}.

(** [options.circuitBreaker ? options.circuitBreaker.execute(run) : run()] *)
Definition protected {A} (circuitBreaker : option breaker_call) (run : stm P thrown_value A)
    : stm (rstate S P) (run_error thrown_value) A :=
  match circuitBreaker with
  | Some cb =>
      execute (circuit_key cb) (circuit_cfg cb) (circuit_fuel cb) (clock0 cb) (clock1 cb) (on_inner run)
  | None => thrown (on_inner run)
  end.

Definition executeIdempotent {A} (retryPolicy : RetryPolicyOptions thrown_value)
    (circuitBreaker : option breaker_call) (operation : stm P thrown_value A)
    : stm (rstate S P) (run_error normalized) A :=
  rethrow_normalized (protected circuitBreaker (runner retryPolicy operation)).

Definition executeNonIdempotent {A} (circuitBreaker : option breaker_call)
    (operation : stm P thrown_value A) : stm (rstate S P) (run_error normalized) A :=
  rethrow_normalized (protected circuitBreaker operation).
End adapters.

(** ** The adapters

    The interfaces of [primitives/kv], [primitives/objects] and
    [primitives/queues], for a provider with state [P] whose operations throw
    values of a type [E]; the objects the interfaces only pass on are arbitrary
    types. *)
Record KVProvider (P E V L : Type) := {
  kvp_get : key → stm P E (option V);
  kvp_set : key → V → option Z → stm P E unit;
  kvp_delete : key → stm P E unit;
  kvp_list : key → option Z → option jstr → stm P E L;
  kvp_commit : list kv_check → list (kv_mutation V) → stm P E CommitResult
}.
Arguments kvp_get {P E V L}.
Arguments kvp_set {P E V L}.
Arguments kvp_delete {P E V L}.
Arguments kvp_list {P E V L}.
Arguments kvp_commit {P E V L}.

(** [D] is the data of a [put], [St] a stream, [Hd], [L], [U] what [head], [list]
    and [presign] give. *)
Record ObjectProvider (P E D St Hd L U : Type) := {
  obp_put : jstr → D → stm P E jstr;
  obp_get : jstr → stm P E (option St);
  obp_delete : jstr → stm P E unit;
  obp_head : jstr → stm P E (option Hd);
  obp_list : jstr → option Z → option jstr → stm P E L;
  obp_presign : jstr → bool → option Z → option Z → stm P E U;
  obp_createMultipartUpload : jstr → stm P E jstr
}.
Arguments obp_put {P E D St Hd L U}.
Arguments obp_get {P E D St Hd L U}.
Arguments obp_delete {P E D St Hd L U}.
Arguments obp_head {P E D St Hd L U}.
Arguments obp_list {P E D St Hd L U}.
Arguments obp_presign {P E D St Hd L U}.
Arguments obp_createMultipartUpload {P E D St Hd L U}.

Record QueueProvider (P E B M : Type) := {
  qup_send : B → option Z → stm P E jstr;
  qup_sendBatch : list B → stm P E (list jstr);
  qup_receive : option Z → stm P E (option M);
  qup_ack : jstr → stm P E unit
}.
Arguments qup_send {P E B M}.
Arguments qup_sendBatch {P E B M}.
Arguments qup_receive {P E B M}.
Arguments qup_ack {P E B M}.

Section wrap.
Context {S P : Type} `{KvStore S stored_value} `{FromExn thrown_value}
  (retryPolicy : RetryPolicyOptions thrown_value) (circuitBreaker : option breaker_call).

Definition idempotent {A} (op : stm P thrown_value A) : stm (rstate S P) (run_error normalized) A :=
  executeIdempotent retryPolicy circuitBreaker op.
Definition nonIdempotent {A} (op : stm P thrown_value A) : stm (rstate S P) (run_error normalized) A :=
  executeNonIdempotent circuitBreaker op.

(** [ResilientKVProvider] and [ResilientKVAtomicBuilder], whose [check], [set]
    and [delete] only tell the builder beneath what [commit] is to do *)
Definition wrapResilientKv {V L} (provider : KVProvider P thrown_value V L)
    : KVProvider (rstate S P) (run_error normalized) V L :=
  {| kvp_get key := idempotent (kvp_get provider key);
     kvp_set key value ttl := nonIdempotent (kvp_set provider key value ttl);
     kvp_delete key := nonIdempotent (kvp_delete provider key);
     kvp_list prefix limit cursor := idempotent (kvp_list provider prefix limit cursor);
     kvp_commit checks mutations := nonIdempotent (kvp_commit provider checks mutations) |}.

Definition wrapResilientObjects {D St Hd L U} (provider : ObjectProvider P thrown_value D St Hd L U)
    : ObjectProvider (rstate S P) (run_error normalized) D St Hd L U :=
  {| obp_put key data := nonIdempotent (obp_put provider key data);
     obp_get key := idempotent (obp_get provider key);
     obp_delete key := nonIdempotent (obp_delete provider key);
     obp_head key := idempotent (obp_head provider key);
     obp_list prefix limit cursor := idempotent (obp_list provider prefix limit cursor);
     obp_presign key put expiresIn maxExpiresIn :=
       nonIdempotent (obp_presign provider key put expiresIn maxExpiresIn);
     obp_createMultipartUpload key := nonIdempotent (obp_createMultipartUpload provider key) |}.

Definition wrapResilientQueues {B M} (provider : QueueProvider P thrown_value B M)
    : QueueProvider (rstate S P) (run_error normalized) B M :=
  {| qup_send body delay := nonIdempotent (qup_send provider body delay);
     qup_sendBatch bodies := nonIdempotent (qup_sendBatch provider bodies);
     qup_receive visibilityTimeoutMs := idempotent (qup_receive provider visibilityTimeoutMs);
     qup_ack id := nonIdempotent (qup_ack provider id) |}.
End wrap.

(** ** What the breaker does to the provider: nothing but run the operation *)

Lemma on_breaker_inner {S P E A} (m : stm S E A) (s : rstate S P) :
  inner (on_breaker m s).1 = inner s.
Proof. unfold on_breaker. by destruct (m (breaker s)). Qed.

Section inner_runs.
Context {S P : Type} `{KvStore S stored_value} `{FromExn thrown_value}.
Implicit Types (s : rstate S P).

Lemma getState_inner k s : inner (getState k s).1 = inner s.
Proof.
  unfold getState, st_bind, thrown. cbn [kv_get rstate_kv_store].
  pose proof (on_breaker_inner (kv_get k) s) as Hi.
  destruct (on_breaker _ s) as [s' [a|e]]; exact Hi.
Qed.

Lemma commit_next_inner k r m s : inner (commit_next k r m s).1 = inner s.
Proof.
  unfold commit_next, thrown. cbn [kv_commit rstate_kv_store].
  match goal with |- context [on_breaker ?m s] => pose proof (on_breaker_inner m s) as Hi end.
  destruct (on_breaker _ s) as [s' [a|e]]; exact Hi.
Qed.

Lemma mutateState_inner k fuel f s : inner (mutateState k no_interference fuel f s).1 = inner s.
Proof.
  revert s. induction fuel as [|fuel IH]; intros s; [done|]. cbn [mutateState].
  unfold st_bind at 1. pose proof (getState_inner k s) as Hg.
  destruct (getState k s) as [s1 [cur|e]]; cbn in Hg; [|exact Hg].
  destruct (f cur) as [m|]; [|exact Hg]. unfold st_bind, st_modify, no_interference.
  pose proof (commit_next_inner k cur m s1) as Hc.
  destruct (commit_next k cur m s1) as [s2 [r|e]]; cbn in Hc |- *; [|congruence].
  destruct (cr_ok r); [cbn; congruence|]. rewrite IH. congruence.
Qed.

Lemma own_inner {A} (m : stm (rstate S P) (run_error exn) A) s :
  inner (m s).1 = inner s → inner (own (E:=thrown_value) m s).1 = inner s.
Proof. unfold own. by destruct (m s) as [? [|[]]]. Qed.

(** The operation runs at most once, and a result is that run's. *)
Definition ran_once {E A} (op : stm P thrown_value A) (s : rstate S P)
    (out : rstate S P * result E A) : Prop :=
  (inner out.1 = inner s ∨ inner out.1 = (op (inner s)).1) ∧
  ∀ a, out.2 = Ok a → inner out.1 = (op (inner s)).1 ∧ (op (inner s)).2 = Ok a.

Lemma protected_runs {A} circuitBreaker (op : stm P thrown_value A) s :
  ran_once op s (protected circuitBreaker op s).
Proof.
  unfold protected. destruct circuitBreaker as [cb|].
  2: { unfold ran_once, thrown, on_inner. destruct (op (inner s)) as [p [a|e]]; cbn; naive_solver. }
  unfold execute, st_bind.
  pose proof (own_inner (getState (circuit_key cb)) s (getState_inner _ s)) as Hg.
  destruct (own _ s) as [s1 [cur|e]]; cbn in Hg; unfold ran_once; rewrite <-Hg; [|cbn; naive_solver].
  destruct (fails_fast _ _ _); [cbn; naive_solver|]. unfold thrown, on_inner.
  destruct (op (inner s1)) as [p [a|e]]; cbn [fst snd].
  all: match goal with |- context [own (mutateState ?k no_interference ?n ?f) ?s2] =>
    pose proof (own_inner _ s2 (mutateState_inner k n f s2)) as Hm;
    destruct (own (mutateState k no_interference n f) s2) as [s3 [r|[e'|]]] end;
    cbn in Hm |- *; try naive_solver.
  match goal with |- context [own (mutateState ?k no_interference ?n ?f) ?s2] =>
    pose proof (own_inner _ s2 (mutateState_inner k n f s2)) as Hm';
    destruct (own (mutateState k no_interference n f) s2) as [s4 [r|[e''|]]] end;
    cbn in Hm' |- *; rewrite Hm in Hm'; naive_solver.
Qed.

Lemma rethrow_runs {A} (op : stm P thrown_value A) (m : stm (rstate S P) (run_error thrown_value) A) s :
  ran_once op s (m s) → ran_once op s (rethrow_normalized m s).
Proof. unfold rethrow_normalized, ran_once. destruct (m s) as [s' [a|[e|]]]; cbn; naive_solver. Qed.
End inner_runs.

(** Automatic retries are banned for operations that are not idempotent (Q-5):
    however the operation fails, whatever the circuit breaker's store holds,
    returns or throws, and in every state of the circuit, [executeNonIdempotent]
    runs the operation at most once; when it returns a result the operation ran
    exactly once and that is what it returned. *)
Theorem non_idempotent_once {S P A} `{KvStore S stored_value} `{FromExn thrown_value}
    circuitBreaker (operation : stm P thrown_value A) (s : rstate S P) :
  ran_once operation s (executeNonIdempotent circuitBreaker operation s).
Proof. apply rethrow_runs, protected_runs. Qed.

(** ** Retries *)

Section retried.
Context {P A : Type} `{FromExn thrown_value} (retryPolicy : RetryPolicyOptions thrown_value)
  (Huniform : uniform_ok retryPolicy) (Hbase : (baseMs retryPolicy <= capMs retryPolicy)%Q).
Implicit Types (op : stm P thrown_value A) (p : P).

(** The outcome of the [k]-th attempt *)
Definition outcome op (k : nat) p : result thrown_value A := (op (after_runs op k p)).2.

(** An error after which an attempt may follow: transient, and accepted by the
    caller's own [shouldRetry] if there is one *)
Definition may_retry (e : thrown_value) (attempt : Z) : Prop :=
  (n_code (normalizeProviderError e) = UNAVAILABLE ∨ n_code (normalizeProviderError e) = TIMEOUT) ∧
  (∀ f, shouldRetry retryPolicy = Some f → f e attempt = true).

Lemma transient_only_spec e n : transient_only retryPolicy e n = true ↔ may_retry e n.
Proof.
  unfold transient_only, isTransient, may_retry.
  destruct (n_code _), (shouldRetry retryPolicy); cbn; naive_solver.
Qed.

(** Attempt [k] ends the call: it is the first that succeeds, that fails with an
    error that is not transient (or that the caller's own [shouldRetry]
    rejects), or that is the last one allowed. *)
Definition last_attempt op p (k : nat) : Prop :=
  (∀ i, (i < k)%nat → ∃ e, outcome op i p = Err e ∧ may_retry e (Z.of_nat i)) ∧
  match outcome op k p with
  | Ok _ => True
  | Err e => ¬ may_retry e (Z.of_nat k) ∨ maxAttempts retryPolicy ≤ Z.of_nat k + 1
  end.

Lemma runner_spec op p :
  ∃ k, Z.of_nat k < Z.max 1 (maxAttempts retryPolicy) ∧ last_attempt op p k ∧
    runner retryPolicy op p = (after_runs op (Datatypes.S k) p, outcome op k p).
Proof.
  destruct (withRetry_loop_spec (Z.to_nat (Z.max 1 (maxAttempts retryPolicy)))
    (λ n, (op (after_runs op (Z.to_nat n) p)).2) (retryOpts retryPolicy) 0 0 Huniform Hbase)
    as (k & r & sleeps & Hw & Hk & Hr & Hlen & Hi & He & _); [cbn; lia|].
  rewrite Z.sub_0_r in Hk. cbn [maxAttempts retryOpts] in Hk. rewrite Z.add_0_l in *.
  exists (Z.to_nat k). split; [lia|]. split.
  - split.
    + intros i Hlt. destruct (Hi (Z.of_nat i)) as (e & He1 & He2); [lia|].
      rewrite Z.add_0_l, Nat2Z.id in He1. exists e. split; [exact He1|].
      apply transient_only_spec. unfold goes_on in He2. cbn in He2.
      apply andb_true_iff in He2 as [He2 _]. exact He2.
    + unfold outcome. rewrite <-Hr. destruct r as [a|e]; [done|].
      specialize (He e eq_refl). unfold goes_on in He. cbn in He. rewrite <-transient_only_spec.
      rewrite Z2Nat.id by lia. apply andb_false_iff in He as [He|He]; [left; by rewrite He|right; zbool; lia].
  - unfold runner, withRetry. rewrite Hw. unfold outcome. rewrite <-Hr.
    by replace (length sleeps) with (Z.to_nat k) by lia.
Qed.
End retried.

(** ** A call under the breaker *)

(** The laws of the breaker's store hold of it beside the provider. *)
#[export] Instance rstate_kv_laws {S P V} `{KvLaws S V} : KvLaws (rstate S P) V.
Proof.
  refine {| kv_inv s := kv_inv (breaker s); kv_entry s := kv_entry (breaker s);
            kv_wf := kv_wf (S:=S); kv_valid := kv_valid (S:=S) |}.
  - exact kv_valid_wf.
  - intros s. apply kv_version_pos.
  - intros s k Hi Hk. destruct (kv_get_spec (breaker s) k Hi Hk) as (b & Hg & Hb & He).
    exists {| breaker := b; inner := inner s |}. cbn. unfold on_breaker. by rewrite Hg.
  - intros s cs mus Hi Hc Hm. destruct (kv_commit_spec (breaker s) cs mus Hi Hc Hm) as (b & Hb & Hx).
    exists {| breaker := b; inner := inner s |}. split; [exact Hb|]. cbn. unfold on_breaker.
    destruct (checks_hold _ _); destruct Hx as [-> He]; by split.
  - intros s k' Hi Hk. destruct (kv_frame (breaker s) k' Hi Hk) as (H1 & H2 & H3 & H4).
    cbn. unfold on_breaker. split_and!.
    + intros k Hwf. specialize (H1 k Hwf). by destruct (kv_get k (breaker s)).
    + intros k v ttl Hwf Hne. specialize (H2 k v ttl Hwf Hne). by destruct (kv_set k v ttl (breaker s)).
    + intros k Hwf Hne. specialize (H3 k Hwf Hne). by destruct (kv_delete k (breaker s)).
    + intros cs mus Hall. specialize (H4 cs mus Hall). by destruct (kv_commit cs mus (breaker s)).
Defined.

Section under_breaker.
Context {S P A : Type} `{KvLaws S stored_value} `{FromExn thrown_value} (cb : breaker_call)
  (Hkey : kv_valid (S:=S) (circuit_key cb)) (Hfuel : (1 <= circuit_fuel cb)%nat).
Implicit Types (s : rstate S P) (op : stm P thrown_value A).

Abbreviation rec s := (breaker_record (circuit_key cb) (breaker s)).

(** What the breaker remembers of a call that ran and ended with [r] *)
Definition remembers s (r : result thrown_value A) : StateRecord :=
  apply_mutator (rec s)
    match r with
    | Ok _ => success_mutator (circuit_cfg cb) (clock1 cb) (state (rec s))
    | Err _ => failure_mutator (circuit_cfg cb) (clock1 cb) (state (rec s))
    end.

Lemma on_inner_leaves op : leaves_record (circuit_key cb) (on_inner (S:=S) op).
Proof. intros s Hs. unfold on_inner. by destruct (op (inner s)). Qed.

Lemma protected_spec op s :
  synced (circuit_key cb) (breaker s) →
  ∃ s', synced (circuit_key cb) (breaker s') ∧
    if fails_fast (circuit_cfg cb) (clock0 cb) (rec s) then
      protected (Some cb) op s = (s', Err (Thrown (from_exn UnavailableError))) ∧
      inner s' = inner s ∧ rec s' = rec s
    else
      protected (Some cb) op s =
        (s', match (op (inner s)).2 with Ok a => Ok a | Err e => Err (Thrown e) end) ∧
      inner s' = (op (inner s)).1 ∧ rec s' = remembers s (op (inner s)).2.
Proof.
  intros Hs. cbn [protected]. destruct (circuit_fuel cb) as [|fuel] eqn:Ef; [lia|].
  assert (kv_valid (S:=rstate S P) (V:=stored_value) (circuit_key cb)) as Hk by exact Hkey.
  destruct (execute_runs (S:=rstate S P) (circuit_key cb) Hk (circuit_cfg cb) fuel (clock0 cb) (clock1 cb)
    (on_inner (S:=S) op) s Hs (on_inner_leaves op)) as (s1 & s2 & Hg & Hs2 & Hx).
  pose proof (getState_inner (circuit_key cb) s) as Hi1. rewrite Hg in Hi1. cbn [fst] in Hi1.
  change (breaker_record (circuit_key cb) s) with (rec s) in *.
  change (breaker_record (circuit_key cb) s2) with (rec s2) in *. exists s2. split; [exact Hs2|].
  destruct (fails_fast _ _ _); [naive_solver congruence|].
  assert (inner (on_inner (S:=S) op s1).1 = (op (inner s)).1 ∧
    (on_inner (S:=S) op s1).2 = (op (inner s)).2) as [Ho1 Ho2].
  { unfold on_inner. rewrite Hi1. by destruct (op (inner s)). }
  rewrite Ho2 in Hx. destruct Hx as (-> & [r Hm] & Hr). split; [done|]. split; [|exact Hr].
  rewrite <-Ho1. match type of Hm with mutateState ?k _ ?n ?f ?s3 = _ =>
    pose proof (mutateState_inner k n f s3) as Hi2 end.
  by rewrite Hm in Hi2.
Qed.
End under_breaker.

(** C30: A retried call under the circuit breaker.  When the circuit is open and
    still cooling, the provider is not called at all and the caller gets the
    normalized [UnavailableError].  Otherwise the operation is attempted [k + 1]
    times for some [k] below [maxAttempts] (one attempt at least): each attempt
    before the last failed with a transient error ([UNAVAILABLE] or [TIMEOUT]),
    the last one succeeded, failed otherwise, or was the last allowed; the caller
    gets its result, or its error normalized; and the breaker remembers the whole
    call as one success or one failure, however many attempts it took. *)
Theorem idempotent_call {S P A} `{KvLaws S stored_value} `{FromExn thrown_value} retryPolicy cb
    (operation : stm P thrown_value A) (s : rstate S P) :
  uniform_ok retryPolicy → (baseMs retryPolicy <= capMs retryPolicy)%Q →
  kv_valid (S:=S) (circuit_key cb) → (1 <= circuit_fuel cb)%nat →
  synced (circuit_key cb) (breaker s) →
  let rec s := breaker_record (circuit_key cb) (breaker s) in
  ∃ s', synced (circuit_key cb) (breaker s') ∧
    if fails_fast (circuit_cfg cb) (clock0 cb) (rec s) then
      executeIdempotent retryPolicy (Some cb) operation s =
        (s', Err (Thrown (normalizeProviderError (from_exn UnavailableError)))) ∧
      inner s' = inner s ∧ rec s' = rec s
    else
      ∃ k, Z.of_nat k < Z.max 1 (maxAttempts retryPolicy) ∧
        last_attempt retryPolicy operation (inner s) k ∧
        executeIdempotent retryPolicy (Some cb) operation s =
          (s', match outcome operation k (inner s) with
               | Ok a => Ok a
               | Err e => Err (Thrown (normalizeProviderError e))
               end) ∧
        inner s' = after_runs operation (Datatypes.S k) (inner s) ∧
        rec s' = remembers cb s (outcome operation k (inner s)).
Proof.
  intros Hu Hb Hkey Hfuel Hs. cbv zeta.
  destruct (protected_spec cb Hkey Hfuel (runner retryPolicy operation) s Hs) as (s' & Hs' & Hx).
  exists s'. split; [exact Hs'|]. unfold executeIdempotent, rethrow_normalized.
  destruct (fails_fast _ _ _); [destruct Hx as (-> & Hx); by split|].
  destruct (runner_spec retryPolicy Hu Hb operation (inner s)) as (k & Hk & Hl & Hr).
  rewrite Hr in Hx. cbn [fst snd] in Hx. destruct Hx as (-> & Hi & Hrec). exists k.
  split_and!; try done. by destruct (outcome operation k (inner s)).
Qed.

(** ** The classification *)

(** An error of RailFog's own that carries no status and whose messages mention
    none of the texts keeps its class and its request id. *)
Lemma own_class_kept message name c requestId :
  let error := ErrorObject {| f_status := None; f_statusCode := None; f_httpStatus := None;
                              meta_httpStatusCode := None |} message name (Some (c, requestId)) Falsy in
  mentions (unavailable_texts ++ not_found_texts ++ timeout_texts ++ rate_limited_texts ++ conflict_texts)
    (extractAllMessages error) = false →
  normalizeProviderError error = {| n_code := c; n_requestId := requestId |}.
Proof.
  cbv zeta. unfold mentions. rewrite !existsb_app, !orb_false_iff. intros (Hu & Hn & Ht & Hr & Hc).
  unfold normalizeProviderError, target_class, mentions. by rewrite Hu, Hn, Ht, Hr, Hc.
Qed.

(** The names of the error classes mention none of the texts, so that only the
    message of an error can give it another class ... *)
Definition class_name (c : RailFogErrorCode) : jstr :=
  match c with
  | RESOURCE_NOT_FOUND => js "ResourceNotFoundError"
  | PERMISSION_DENIED => js "PermissionDeniedError"
  | VALIDATION_FAILED => js "ValidationFailedError"
  | RATE_LIMITED => js "RateLimitedError"
  | CALL_DEPTH_EXCEEDED => js "CallDepthExceededError"
  | TIMEOUT => js "TimeoutError"
  | PAYLOAD_TOO_LARGE => js "PayloadTooLargeError"
  | CONFLICT => js "ConflictError"
  | UNAVAILABLE => js "UnavailableError"
  | INTERNAL => js "InternalError"
  end.

Definition no_status : status_fields :=
  {| f_status := None; f_statusCode := None; f_httpStatus := None; meta_httpStatusCode := None |}.
Definition railfog_error (c : RailFogErrorCode) (message : jstr) : thrown_value :=
  ErrorObject no_status (Some message) (Some (class_name c)) (Some (c, None)) Falsy.

Lemma class_names_silent c : n_code (normalizeProviderError (railfog_error c [])) = c.
Proof. destruct c; vm_compute; reflexivity. Qed.

(** ... and it does: a rejected argument that quotes one of the texts is reported
    under another code, and with a transient text it is retried. *)
Theorem own_class_overridden :
  n_code (normalizeProviderError (railfog_error VALIDATION_FAILED (js "invalid name: rate limit"))) =
    RATE_LIMITED ∧
  isTransient (railfog_error PERMISSION_DENIED (js "fetch failed: origin not allowed")) = true.
Proof. split; vm_compute; reflexivity. Qed.

(** ** A concrete call

    A read that is reset twice and then succeeds, under a fresh circuit: three
    attempts, and the breaker has nothing to record. *)
#[local] Instance demo_from_exn : FromExn thrown_value :=
  λ e, match e with RF c => railfog_error c [] | _ => ErrorObject no_status None None None Falsy end.

Definition demo_policy : RetryPolicyOptions thrown_value :=
  {| baseMs := 100; capMs := 20000; maxAttempts := 5; randomUniform := λ _ _ hi, hi;
     shouldRetry := None |}.
Definition demo_call : breaker_call :=
  {| circuit_key := demo_key; circuit_cfg := demo_cfg; circuit_fuel := 1; clock0 := 5; clock1 := 9 |}.
Definition flaky_get : stm nat thrown_value jstr :=
  λ n, (S n, if (n <? 2)%nat then Err (ErrorObject no_status (Some (js "read ECONNRESET")) (Some (js "Error")) None Falsy)
             else Ok (js "value")).
Definition demo_rstate : rstate (kv_db stored_value) nat := {| breaker := demo_store; inner := O |}.

Theorem idempotent_call_witness :
  executeIdempotent demo_policy (Some demo_call) flaky_get demo_rstate =
    ({| breaker := breaker (executeIdempotent demo_policy (Some demo_call) flaky_get demo_rstate).1;
        inner := 3%nat |}, Ok (js "value")) ∧
  ∃ k, last_attempt demo_policy flaky_get O k ∧
    inner (executeIdempotent demo_policy (Some demo_call) flaky_get demo_rstate).1 = S k.
Proof.
  split; [vm_compute; reflexivity|].
  destruct (idempotent_call demo_policy demo_call flaky_get demo_rstate) as (s' & _ & Hx).
  - intros n lo hi H. split; [exact H|apply Qle_refl].
  - vm_compute. discriminate.
  - exact demo_key_valid.
  - apply le_n.
  - exact demo_synced.
  - cbv zeta in Hx.
    replace (fails_fast _ _ _) with false in Hx by (vm_compute; reflexivity).
    destruct Hx as (k & _ & Hl & He & Hi & _). exists k. split; [exact Hl|].
    rewrite He. cbn [fst]. rewrite Hi. clear. unfold demo_rstate. cbn [inner].
    assert (forall j, after_runs flaky_get j O = j) as Ha.
    { induction j as [|j IH]; [reflexivity|]. change (S (after_runs flaky_get j O) = S j). rewrite IH. reflexivity. }
    apply Ha.
Defined.
