(* ===== verification/LocalBindings.v ===== *)
(** * The bindings of a locally run Function ([runtime/sandbox/local-isolation.ts], FN-4, FN-5)

    The key-value, object and queue bindings that [LocalIsolationProvider] puts
    into the context of an invocation.  Each counts its calls on the invocation's
    tracker.  The key-value binding works on the store of the tenant, which all
    invocations of the tenant share, with versions of its own; an optional replica
    (a [KVProvider]) receives the writes.  JSON texts of arrays of strings are the
    class [JsonArray]. *)

From S2P Require Import Prelude JsString JsMap JsNumber JsValue Errors Utf8 KvInterface OperationCounter.
From Stdlib Require Import QArith.

Open Scope Z_scope.
Open Scope railfog_scope.

(** [JSON.stringify] and [JSON.parse] on arrays of strings; [None] is a text that
    does not parse or is something else. *)
Class JsonArray := { array_text : list jstr → jstr; text_array : jstr → option (list jstr) }.
Class JsonArrayLaws `{JsonArray} := text_array_text segs : text_array (array_text segs) = Some segs.

#[export] Instance array_text_inj `{JsonArrayLaws} : Inj (=) (=) array_text.
Proof. intros a b Heq. apply (f_equal text_array) in Heq. rewrite !text_array_text in Heq. by injection Heq. Qed.

(** ** The state of an invocation's bindings *)

(** [key: string[] | string] *)
Inductive binding_key := KeyArray (segs : list jstr) | KeyString (s : jstr).

Inductive pending_mutation := PSet (normKey : jstr) (value : jsval) | PDelete (normKey : jstr).
Definition pm_key (m : pending_mutation) : jstr := match m with PSet k _ => k | PDelete k => k end.

(** The arrays [pendingChecks] and [pendingMutations] of an atomic builder *)
Record Builder := { pendingChecks : list (jstr * Z); pendingMutations : list pending_mutation }.

(** A call of [queueDispatcher] that the binding schedules, [delay] seconds from now *)
Record Dispatch := { d_queue : jstr; d_body : jsval; d_projectId : jstr; d_id : jstr; d_delay : Q }.

(** [store] belongs to the tenant, [replica] and [fs] to the providers behind the
    bindings; the rest is the invocation's. *)
Record Bindings (R O : Type) := {
  tracker : InvocationTracker;
  store : jsmap jstr jsval;
  versions : jsmap jstr Z;
  builders : list Builder;
  replica : R;
  fs : O;
  dispatches : list Dispatch
}.
Arguments tracker {R O}.
Arguments store {R O}.
Arguments versions {R O}.
Arguments builders {R O}.
Arguments replica {R O}.
Arguments fs {R O}.
Arguments dispatches {R O}.
Arguments Build_Bindings {R O}.

Definition MAX_QUEUE_DELAY_SECONDS : Q := 900.

(** A KV entry of [list] *)
Record ListedEntry := { le_key : list jstr; le_value : jsval; le_version : Z }.

(** [fsProvider], if it could be created: the operations of an [ObjectProvider];
    a payload is a buffer or a stream of a type [St]. *)
Inductive payload (St : Type) := Buffer (bs : list Z) | Stream (s : St).
Arguments Buffer {St} bs.
Arguments Stream {St} s.
Record FsProvider (O St Hd : Type) := {
  fs_put : jstr → payload St → stm O exn jstr;
  fs_get : jstr → stm O exn (option St);
  fs_delete : jstr → stm O exn unit;
  fs_head : jstr → stm O exn (option Hd);
  fs_list : jstr → stm O exn (list jstr);
  fs_presign : jstr → jsval → jsval → stm O exn (jstr * Q)
}.
Arguments fs_put {O St Hd}.
Arguments fs_get {O St Hd}.
Arguments fs_delete {O St Hd}.
Arguments fs_head {O St Hd}.
Arguments fs_list {O St Hd}.
Arguments fs_presign {O St Hd}.

(** The data of a [put] *)
Inductive put_data (St : Type) :=
| DataBytes (bs : list Z)
| DataText (s : jstr)
| DataStream (s : St)
| DataJson (v : jsval).
Arguments DataBytes {St} bs.
Arguments DataText {St} s.
Arguments DataStream {St} s.
Arguments DataJson {St} v.

Section bindings.
Context `{JsonArray} {R O St Hd : Type} `{KvStore R jsval, !KvLister R jsval}.
Context (hasReplica : bool) (tenantOrgId tenantProjectId : jstr).
Implicit Types (b : Bindings R O).

Abbreviation B := (Bindings R O).

(** ** Parts of the state *)

Definition on_tracker (m : stm InvocationTracker exn unit) : stm B exn unit := λ b,
  let '(t, r) := m (tracker b) in
  (Build_Bindings t (store b) (versions b) (builders b) (replica b) (fs b) (dispatches b), r).
Definition set_store (s : jsmap jstr jsval) b : B :=
  Build_Bindings (tracker b) s (versions b) (builders b) (replica b) (fs b) (dispatches b).
Definition set_versions (v : jsmap jstr Z) b : B :=
  Build_Bindings (tracker b) (store b) v (builders b) (replica b) (fs b) (dispatches b).
Definition set_builders (bs : list Builder) b : B :=
  Build_Bindings (tracker b) (store b) (versions b) bs (replica b) (fs b) (dispatches b).
Definition on_replica {A} (m : stm R exn A) : stm B exn A := λ b,
  let '(r, x) := m (replica b) in
  (Build_Bindings (tracker b) (store b) (versions b) (builders b) r (fs b) (dispatches b), x).
Definition on_fs {A} (m : stm O exn A) : stm B exn A := λ b,
  let '(o, x) := m (fs b) in
  (Build_Bindings (tracker b) (store b) (versions b) (builders b) (replica b) o (dispatches b), x).
Definition schedule (d : Dispatch) b : B :=
  Build_Bindings (tracker b) (store b) (versions b) (builders b) (replica b) (fs b) (dispatches b ++ [d]).

(** ** [createMockKvBinding] *)

Definition normalizeKey (key : binding_key) : jstr :=
  match key with KeyArray segs => array_text segs | KeyString s => array_text [s] end.

Definition rawSegs (key : binding_key) : list jstr :=
  match key with KeyArray segs => segs | KeyString s => [s] end.
Definition toRedisKey (key : binding_key) : list jstr := tenantOrgId :: tenantProjectId :: rawSegs key.

Definition versionOf b (normKey : jstr) : Z := default 0 (map_get (versions b) normKey).
Definition bump (normKey : jstr) b : B := set_versions (map_set (versions b) normKey (versionOf b normKey + 1)) b.

(** A call of the replica whose outcome the binding ignores: awaited in a
    [try { } catch { }], or not awaited with [.catch(() => {})] *)
Definition mirrored {A} (m : stm R exn A) : stm B exn unit :=
  if hasReplica then st_try (on_replica m) ;;~ st_ret tt else st_ret tt.

Definition local_get (key : binding_key) : stm B exn jsval :=
  on_tracker recordKvOp ;;~
  b <~ st_get ;;
  match map_get (store b) (normalizeKey key),
        match key with KeyString s => map_get (store b) s | KeyArray _ => None end with
  | Some v, _ | None, Some v => st_ret (if is_undefined v then JNull else v)
  | None, None =>
      if hasReplica then
        val <~ st_try (on_replica (kv_get (toRedisKey key))) ;;
        st_ret match val with Ok (Some v) => if is_undefined v then JNull else v | _ => JNull end
      else st_ret JNull
  end.

Definition local_set (key : binding_key) (value : jsval) (ttl : option Z) : stm B exn unit :=
  on_tracker recordKvOp ;;~
  st_modify (λ b, bump (normalizeKey key) (set_store (map_set (store b) (normalizeKey key) value) b)) ;;~
  mirrored (kv_set (toRedisKey key) value ttl).

Definition local_delete (key : binding_key) : stm B exn unit :=
  on_tracker recordKvOp ;;~
  st_modify (λ b, set_versions (map_set (versions b) (normalizeKey key) 0)
                    (set_store (map_delete (store b) (normalizeKey key)) b)) ;;~
  mirrored (kv_delete (toRedisKey key)).

(** [prefixArr.every((seg, idx) => parsed[idx] === seg)] *)
Fixpoint every_segment (prefixArr parsed : list jstr) : bool :=
  match prefixArr, parsed with
  | [], _ => true
  | seg :: prefixArr, p :: parsed => jstr_eqb p seg && every_segment prefixArr parsed
  | _ :: _, [] => false
  end.

Definition listed b (prefixArr : list jstr) : list ListedEntry :=
  omap (λ e, match text_array e.1 with
             | Some parsed =>
                 if every_segment prefixArr parsed
                 then Some {| le_key := parsed; le_value := e.2; le_version := versionOf b e.1 |} else None
             | None => None
             end) (store b).

(** A page of a [KVProvider] has no property [entries], so that the replica's
    answer is never used. *)
Definition local_list (prefix : binding_key) : stm B exn (list ListedEntry) :=
  on_tracker recordKvOp ;;~
  b <~ st_get ;;
  let keys := listed b (rawSegs prefix) in
  match keys with
  | [] => mirrored (kv_list (toRedisKey prefix) None None) ;;~ st_ret []
  | _ :: _ => st_ret keys
  end.

(** [atomic()], which gives the builder's position in [builders] *)
Definition local_atomic : stm B exn nat :=
  b <~ st_get ;;
  st_modify (set_builders (builders b ++ [{| pendingChecks := []; pendingMutations := [] |}])) ;;~
  st_ret (length (builders b)).

(** The methods of the [i]-th builder *)
Definition builder_at (i : nat) (f : Builder → Builder) : stm B exn unit :=
  st_modify (λ b, set_builders (alter f i (builders b)) b).
Definition add_check (normKey : jstr) (n : Z) (p : Builder) : Builder :=
  {| pendingChecks := pendingChecks p ++ [(normKey, n)]; pendingMutations := pendingMutations p |}.
Definition add_mutation (m : pending_mutation) (p : Builder) : Builder :=
  {| pendingChecks := pendingChecks p; pendingMutations := pendingMutations p ++ [m] |}.

Definition builder_check (i : nat) (key : binding_key) (expectedVersion : Z) : stm B exn unit :=
  on_tracker recordKvOp ;;~ builder_at i (add_check (normalizeKey key) expectedVersion).
Definition builder_set (i : nat) (key : binding_key) (value : jsval) (ttl : option Z) : stm B exn unit :=
  on_tracker recordKvOp ;;~ builder_at i (add_mutation (PSet (normalizeKey key) value)) ;;~
  mirrored (kv_set (toRedisKey key) value ttl).
Definition builder_delete (i : nat) (key : binding_key) : stm B exn unit :=
  on_tracker recordKvOp ;;~ builder_at i (add_mutation (PDelete (normalizeKey key))) ;;~
  mirrored (kv_delete (toRedisKey key)).

Definition apply_pending b (m : pending_mutation) : B :=
  bump (pm_key m)
    match m with
    | PSet k v => set_store (map_set (store b) k v) b
    | PDelete k => set_store (map_delete (store b) k) b
    end.

Definition builder_commit (i : nat) : stm B exn CommitResult :=
  b <~ st_get ;;
  let p := default {| pendingChecks := []; pendingMutations := [] |} (builders b !! i) in
  if forallb (λ c, versionOf b c.1 =? c.2) (pendingChecks p) then
    let b' := fold_left apply_pending (pendingMutations p) b in
    st_modify (λ _, b') ;;~
    st_ret {| cr_ok := true; cr_version := versionOf b' ∘ pm_key <$> last (pendingMutations p) |}
  else st_ret {| cr_ok := false; cr_version := None |}.

(** ** [createMockObjectBinding] *)

Context (fsProvider : option (FsProvider O St Hd)) (encode_json : jsval → list Z).

Definition to_payload (data : put_data St) : payload St :=
  match data with
  | DataBytes bs => Buffer bs
  | DataText s => Buffer (text_encode s)
  | DataStream s => Stream s
  | DataJson v => Buffer (encode_json v)
  end.

(** [if (fsProvider) { try { return await fsProvider.op() } catch { ... } }], then
    what follows *)
Definition with_fs {A} (op : FsProvider O St Hd → stm O exn A) (otherwise : A) : stm B exn A :=
  match fsProvider with
  | Some p =>
      r <~ st_try (on_fs (op p)) ;;
      st_ret match r with Ok a => a | Err _ => otherwise end
  | None => st_ret otherwise
  end.

(** [ulid] is the identifier generated on the way. *)
Definition object_put (ulid key : jstr) (data : put_data St) : stm B exn jstr :=
  on_tracker recordObjectOp ;;~ with_fs (λ p, fs_put p key (to_payload data)) (js "etag-" ++ ulid).
Definition object_get (key : jstr) : stm B exn (option St) :=
  on_tracker recordObjectOp ;;~ with_fs (λ p, fs_get p key) None.
Definition object_delete (key : jstr) : stm B exn unit :=
  on_tracker recordObjectOp ;;~ with_fs (λ p, fs_delete p key) tt.
Definition object_head (key : jstr) : stm B exn (option Hd) :=
  on_tracker recordObjectOp ;;~ with_fs (λ p, fs_head p key) None.
Definition object_list (prefix : jstr) : stm B exn (list jstr) :=
  on_tracker recordObjectOp ;;~ with_fs (λ p, fs_list p prefix) [].

(** [v ?? dflt] *)
Definition nullish_or (v dflt : jsval) : jsval := match v with JUndef | JNull => dflt | _ => v end.

Definition object_presign (now : Q) (key : jstr) (method expiresIn : jsval) : stm B exn (jstr * Q) :=
  on_tracker recordObjectOp ;;~
  with_fs (λ p, fs_presign p key (nullish_or method (JStr (js "GET"))) (nullish_or expiresIn (JNum (Fin 3600))))
    (js "https://mock.storage/" ++ key, fadd now 3600000).
Definition object_createMultipartUpload (ulid : jstr) : stm B exn jstr :=
  on_tracker recordObjectOp ;;~ st_ret (js "mp-" ++ ulid).

(** ** [createMockQueueBinding] *)

Context (projectId : jstr) (hasDispatcher : bool).

Definition defaultQueueName : jstr := js "default".

(** [opts && typeof opts === "object" && "delay" in opts], and then [opts.delay ?? 0] *)
Definition delay_option (opts : jsval) : jsval := nullish_or (prop opts (js "delay")) (JNum (Fin 0)).

(** The queue, the body and the delay from [send]'s arguments *)
Definition send_arguments (arg1 arg2 arg3 : jsval) : jstr * jsval * jsval :=
  match arg1 with
  | JStr queue =>
      if is_undefined arg2 then (defaultQueueName, arg1, JNum (Fin 0)) else (queue, arg2, delay_option arg3)
  | _ => (defaultQueueName, arg1, delay_option arg2)
  end.

Definition valid_delay (delay : jsval) : option Q :=
  match delay with
  | JNum (Fin q) => if q_ltb q 0 || q_ltb MAX_QUEUE_DELAY_SECONDS q then None else Some q
  | _ => None
  end.

(** [queueDispatcher && projectId] *)
Definition dispatching : bool := hasDispatcher && negb (jstr_eqb projectId []).

Definition queue_send (ulid : jstr) (arg1 arg2 arg3 : jsval) : stm B exn jstr :=
  on_tracker recordQueueOp ;;~
  let id := js "msg-" ++ ulid in
  let '(queue, body, delay) := send_arguments arg1 arg2 arg3 in
  match valid_delay delay with
  | None => st_throw ValidationFailedError
  | Some q =>
      st_modify (λ b, if dispatching
                      then schedule {| d_queue := queue; d_body := body; d_projectId := projectId;
                                       d_id := id; d_delay := q |} b
                      else b) ;;~
      st_ret id
  end.

(** [ulids i] is the identifier generated for the [i]-th body. *)
Definition queue_sendBatch (ulids : nat → jstr) (bodies : list jsval) : stm B exn (list jstr) :=
  on_tracker recordQueueOp ;;~
  let results := imap (λ i _, js "msg-" ++ ulids i) bodies in
  st_modify (λ b, if dispatching
                  then fold_left (λ b e, schedule {| d_queue := defaultQueueName; d_body := e.1;
                                                     d_projectId := projectId; d_id := e.2; d_delay := 0 |} b)
                         (zip bodies results) b
                  else b) ;;~
  st_ret results.

(** ** The calls a Function can make on its bindings *)

Inductive binding_call :=
| KvGet (key : binding_key)
| KvSet (key : binding_key) (value : jsval) (ttl : option Z)
| KvDelete (key : binding_key)
| KvList (prefix : binding_key)
| KvAtomic
| AtomicCheck (i : nat) (key : binding_key) (expectedVersion : Z)
| AtomicSet (i : nat) (key : binding_key) (value : jsval) (ttl : option Z)
| AtomicDelete (i : nat) (key : binding_key)
| AtomicCommit (i : nat)
| ObjectPut (key : jstr) (data : put_data St)
| ObjectGet (key : jstr)
| ObjectDelete (key : jstr)
| ObjectHead (key : jstr)
| ObjectList (prefix : jstr)
| ObjectPresign (key : jstr) (method expiresIn : jsval)
| ObjectMultipart (key : jstr)
| QueueSend (arg1 arg2 arg3 : jsval)
| QueueSendBatch (bodies : list jsval).

Inductive answer :=
| Nothing
| AValue (v : jsval)
| AEntries (keys : list ListedEntry)
| ABuilder (i : nat)
| ACommitted (r : CommitResult)
| AEtag (etag : jstr)
| AStream (s : option St)
| AHead (h : option Hd)
| AKeys (keys : list jstr)
| AUrl (url : jstr) (expiresAt : Q)
| AUpload (uploadId : jstr)
| AIds (ids : list jstr).

Definition answered {A} (f : A → answer) (m : stm B exn A) : stm B exn answer := a <~ m ;; st_ret (f a).

(** [ulids] are the identifiers generated during the call, [now] its clock. *)
Definition perform (ulids : nat → jstr) (now : Q) (c : binding_call) : stm B exn answer :=
  match c with
  | KvGet key => answered AValue (local_get key)
  | KvSet key value ttl => answered (λ _, Nothing) (local_set key value ttl)
  | KvDelete key => answered (λ _, Nothing) (local_delete key)
  | KvList prefix => answered AEntries (local_list prefix)
  | KvAtomic => answered ABuilder local_atomic
  | AtomicCheck i key n => answered (λ _, Nothing) (builder_check i key n)
  | AtomicSet i key value ttl => answered (λ _, Nothing) (builder_set i key value ttl)
  | AtomicDelete i key => answered (λ _, Nothing) (builder_delete i key)
  | AtomicCommit i => answered ACommitted (builder_commit i)
  | ObjectPut key data => answered AEtag (object_put (ulids 0%nat) key data)
  | ObjectGet key => answered AStream (object_get key)
  | ObjectDelete key => answered (λ _, Nothing) (object_delete key)
  | ObjectHead key => answered AHead (object_head key)
  | ObjectList prefix => answered AKeys (object_list prefix)
  | ObjectPresign key method expiresIn =>
      answered (λ r, AUrl r.1 r.2) (object_presign now key method expiresIn)
  | ObjectMultipart key => answered AUpload (object_createMultipartUpload (ulids 0%nat))
  | QueueSend arg1 arg2 arg3 => answered (λ id, AIds [id]) (queue_send (ulids 0%nat) arg1 arg2 arg3)
  | QueueSendBatch bodies => answered AIds (queue_sendBatch ulids bodies)
  end.
End bindings.

(** ** What every call preserves *)

Ltac keeps_step :=
  first [ apply keeps_bind; [|intros ?] | apply keeps_try | apply keeps_ret | apply keeps_throw | apply keeps_get ].

Section preservation.
Context `{JsonArray} {R O St Hd : Type} `{KvStore R jsval, !KvLister R jsval}.
Context (hasReplica : bool) (org project : jstr) (fsProvider : option (FsProvider O St Hd))
  (encode_json : jsval → list Z) (projectId : jstr) (hasDispatcher : bool).
Implicit Types (b : Bindings R O).

Abbreviation rkey key := (toRedisKey org project key).

(** The keys that a call names *)
Definition call_keys (c : binding_call (St := St)) : list binding_key :=
  match c with
  | KvGet k | KvSet k _ _ | KvDelete k | KvList k | AtomicCheck _ k _ | AtomicSet _ k _ _ | AtomicDelete _ k => [k]
  | _ => []
  end.

Section invariant.
Context (I : Bindings R O → Prop)
  (Hkv : st_keeps I (on_tracker recordKvOp))
  (Hobj : st_keeps I (on_tracker recordObjectOp))
  (Hqueue : st_keeps I (on_tracker recordQueueOp))
  (Hstore : ∀ s b, I b → I (set_store s b))
  (Hversions : ∀ v b, I b → I (set_versions v b))
  (Hbuilders : ∀ bs b, I b → I (set_builders bs b))
  (Hschedule : ∀ d b, I b → I (schedule d b))
  (Hfs : ∀ A (m : stm O exn A), st_keeps I (on_fs m)).

(** The calls of the replica that the key of a call leads to *)
Definition replica_keeps (key : binding_key) : Prop :=
  st_keeps I (on_replica (kv_get (rkey key))) ∧
  (∀ v ttl, st_keeps I (on_replica (kv_set (rkey key) v ttl))) ∧
  st_keeps I (on_replica (kv_delete (rkey key))) ∧
  st_keeps I (on_replica (kv_list (rkey key) None None)).

Lemma mirrored_keeps {A} (m : stm R exn A) : st_keeps I (on_replica m) → st_keeps I (mirrored hasReplica m).
Proof. intros Hm. unfold mirrored. destruct hasReplica; [|apply keeps_ret]. repeat keeps_step. exact Hm. Qed.

Lemma with_fs_keeps {A} (op : FsProvider O St Hd → stm O exn A) a : st_keeps I (with_fs fsProvider op a).
Proof. unfold with_fs. destruct fsProvider; repeat keeps_step. apply Hfs. Qed.

Lemma bump_keeps k b : I b → I (bump k b).
Proof. unfold bump. apply Hversions. Qed.

Lemma apply_pending_keeps m b : I b → I (apply_pending b m).
Proof. intros Hb. unfold apply_pending. apply bump_keeps. destruct m; by apply Hstore. Qed.

Lemma commit_keeps i : st_keeps I (builder_commit i).
Proof.
  intros b Hb. unfold builder_commit, st_bind, st_get. destruct (forallb _ _); [|done]. cbn.
  generalize (pendingMutations (default {| pendingChecks := []; pendingMutations := [] |} (builders b !! i))).
  intros ms. revert b Hb. induction ms as [|m ms IH]; intros b Hb; [done|]. apply IH. by apply apply_pending_keeps.
Qed.

Lemma send_keeps ulid a1 a2 a3 : st_keeps I (queue_send projectId hasDispatcher ulid a1 a2 a3).
Proof.
  unfold queue_send. keeps_step; [exact Hqueue|]. destruct (send_arguments a1 a2 a3) as [[q body] delay].
  destruct (valid_delay delay); repeat keeps_step. apply keeps_modify. intros b Hb.
  destruct (dispatching _ _); [by apply Hschedule|done].
Qed.

Lemma sendBatch_keeps ulids bodies : st_keeps I (queue_sendBatch projectId hasDispatcher ulids bodies).
Proof.
  unfold queue_sendBatch. repeat keeps_step; [exact Hqueue|]. apply keeps_modify. intros b Hb.
  destruct (dispatching _ _); [|done]. generalize (zip bodies (imap (λ i _, js "msg-" ++ ulids i) bodies)).
  intros es. revert b Hb. induction es as [|e es IH]; intros b Hb; [done|]. apply IH. by apply Hschedule.
Qed.

Lemma perform_keeps ulids now c :
  Forall replica_keeps (call_keys c) →
  st_keeps I (perform hasReplica org project fsProvider encode_json projectId hasDispatcher ulids now c).
Proof.
  intros Hc. unfold perform, answered.
  destruct c; cbn [call_keys] in Hc; try (apply Forall_singleton in Hc as (Hget & Hset & Hdel & Hlist));
    keeps_step; try apply keeps_ret.
  - unfold local_get. repeat keeps_step; [exact Hkv|].
    repeat case_match; try apply keeps_ret; subst; repeat keeps_step; exact Hget.
  - unfold local_set. repeat keeps_step; [exact Hkv| |by apply mirrored_keeps].
    apply keeps_modify. intros b Hb. by apply bump_keeps, Hstore.
  - unfold local_delete. repeat keeps_step; [exact Hkv| |by apply mirrored_keeps].
    apply keeps_modify. intros b Hb. by apply Hversions, Hstore.
  - unfold local_list. repeat keeps_step; [exact Hkv|]. destruct (listed _ _); repeat keeps_step.
    by apply mirrored_keeps.
  - unfold local_atomic. repeat keeps_step. apply keeps_modify. intros b. apply Hbuilders.
  - unfold builder_check, builder_at. repeat keeps_step; [exact Hkv|]. apply keeps_modify. intros b. apply Hbuilders.
  - unfold builder_set, builder_at. repeat keeps_step; [exact Hkv| |by apply mirrored_keeps].
    apply keeps_modify. intros b. apply Hbuilders.
  - unfold builder_delete, builder_at. repeat keeps_step; [exact Hkv| |by apply mirrored_keeps].
    apply keeps_modify. intros b. apply Hbuilders.
  - apply commit_keeps.
  - unfold object_put. keeps_step; [exact Hobj|apply with_fs_keeps].
  - unfold object_get. keeps_step; [exact Hobj|apply with_fs_keeps].
  - unfold object_delete. keeps_step; [exact Hobj|apply with_fs_keeps].
  - unfold object_head. keeps_step; [exact Hobj|apply with_fs_keeps].
  - unfold object_list. keeps_step; [exact Hobj|apply with_fs_keeps].
  - unfold object_presign. keeps_step; [exact Hobj|apply with_fs_keeps].
  - unfold object_createMultipartUpload. repeat keeps_step. exact Hobj.
  - apply send_keeps.
  - apply sendBatch_keeps.
Qed.
End invariant.

(** *** Budgets *)

(** The counters of an invocation stay within the limits of FN-5. *)
Definition tracker_ok (t : InvocationTracker) : Prop :=
  maxKvOps t = DEFAULT_MAX_KV_OPS ∧ maxObjectOps t = DEFAULT_MAX_OBJECT_OPS ∧
  maxQueueOps t = DEFAULT_MAX_QUEUE_OPS ∧
  0 <= kvOps t <= DEFAULT_MAX_KV_OPS ∧ 0 <= objectOps t <= DEFAULT_MAX_OBJECT_OPS ∧
  0 <= queueOps t <= DEFAULT_MAX_QUEUE_OPS.

Lemma fresh_tracker_ok : tracker_ok (createInvocationTracker None).
Proof. vm_compute. repeat split; discriminate. Qed.

Lemma perform_tracker ulids now c :
  st_keeps (λ b, tracker_ok (tracker b))
    (perform hasReplica org project fsProvider encode_json projectId hasDispatcher ulids now c).
Proof.
  apply perform_keeps; try done.
  1-3: intros b (H1 & H2 & H3 & H4 & H5 & H6); unfold on_tracker, recordKvOp, recordObjectOp, recordQueueOp, tracker_ok in *;
    destruct (_ <=? _) eqn:E; cbn; zbool; lia.
  - intros A m b Hb. unfold on_fs. by destruct (m (fs b)).
  - apply Forall_forall. intros key _. unfold replica_keeps, st_keeps, on_replica.
    split_and!; intros;
      match goal with |- context [let '(_, _) := ?m in _] => by destruct m end.
Qed.
End preservation.

(** ** Tenants *)

Section confinement.
Context `{JsonArray} {R O St Hd : Type} `{KvLaws R jsval, !KvLister R jsval}.
Context (Hlist : ∀ prefix limit cursor (r : R), (kv_list (V := jsval) prefix limit cursor r).1 = r).
Context (hasReplica : bool) (org project : jstr) (fsProvider : option (FsProvider O St Hd))
  (encode_json : jsval → list Z) (projectId : jstr) (hasDispatcher : bool).
Implicit Types (b : Bindings R O).

(** The keys of a call are made of JavaScript strings. *)
Definition call_wf (c : binding_call (St := St)) : Prop :=
  Forall (λ key, kv_wf (S := R) (V := jsval) (toRedisKey org project key)) (call_keys c).

(** Nothing that an invocation asks of its bindings changes an entry of the
    replica under another tenant: every key it reaches begins with its own org
    and project (PLAT-7).  Listing is assumed to change nothing. *)
Lemma replica_confined ulids now c k' b :
  kv_inv (replica b) → kv_wf k' → call_wf c → (∀ rest, k' ≠ org :: project :: rest) →
  let b' := (perform hasReplica org project fsProvider encode_json projectId hasDispatcher ulids now c b).1 in
  kv_inv (replica b') ∧ kv_entry (replica b') k' = kv_entry (replica b) k'.
Proof.
  intros Hi Hk' Hc Hother. cbv zeta.
  apply (perform_keeps hasReplica org project fsProvider encode_json projectId hasDispatcher
    (λ b', kv_inv (replica b') ∧ kv_entry (replica b') k' = kv_entry (replica b) k')); try done.
  1-3: intros b' Hb'; unfold on_tracker; by destruct (_ (tracker b')).
  - intros A m b' Hb'. unfold on_fs. by destruct (m (fs b')).
  - eapply Forall_impl; [exact Hc|]. intros key Hwf. cbn in Hwf.
    assert (k' ≠ toRedisKey org project key) as Hne by apply Hother.
    unfold replica_keeps, st_keeps, on_replica.
    split_and!; intros; (destruct (kv_frame (replica s) k' ltac:(tauto) Hk') as (Hget & Hset & Hdel & _)).
    + specialize (Hget _ Hwf). destruct (kv_get _ _). cbn in *. destruct Hget as [? ->]. tauto.
    + specialize (Hset _ v ttl Hwf Hne). destruct (kv_set _ _ _ _). cbn in *. destruct Hset as [? ->]. tauto.
    + specialize (Hdel _ Hwf Hne). destruct (kv_delete _ _). cbn in *. destruct Hdel as [? ->]. tauto.
    + pose proof (Hlist (toRedisKey org project key) None None (replica s)) as Hl.
      destruct (kv_list _ _ _ _). cbn in *. by subst.
Qed.
End confinement.

(** ** Optimistic concurrency *)

Section transactions.
Context `{JsonArrayLaws} {R O : Type} `{KvStore R jsval, !KvLister R jsval}.
Implicit Types (b : Bindings R O).

Lemma apply_pending_version b m k :
  versionOf (apply_pending b m) k = versionOf b k + (if decide (pm_key m = k) then 1 else 0).
Proof.
  assert (∀ s, versionOf (set_store s b) (pm_key m) = versionOf b (pm_key m)) as Hs by done.
  unfold apply_pending, bump. unfold versionOf at 1. cbn [versions set_versions].
  destruct m as [k0 v|k0]; cbn [pm_key versions set_store] in *; rewrite Hs, map_get_set;
    destruct (decide (k0 = k)) as [->|]; cbn; unfold versionOf; lia.
Qed.

(** The value of a key after the mutations, in order *)
Fixpoint mutated (ms : list pending_mutation) (k : jstr) (v : option jsval) : option jsval :=
  match ms with
  | [] => v
  | PSet k0 x :: ms => mutated ms k (if decide (k0 = k) then Some x else v)
  | PDelete k0 :: ms => mutated ms k (if decide (k0 = k) then None else v)
  end.

Lemma apply_pending_all ms : ∀ b k,
  map_get (store (fold_left apply_pending ms b)) k = mutated ms k (map_get (store b) k) ∧
  versionOf (fold_left apply_pending ms b) k =
    versionOf b k + Z.of_nat (length (filter (λ m, pm_key m = k) ms)).
Proof.
  induction ms as [|m ms IH]; intros b k; [cbn; split; [done|lia]|]. cbn [fold_left].
  destruct (IH (apply_pending b m) k) as [-> ->]. rewrite apply_pending_version. split.
  - destruct m as [k0 v|k0]; cbn; [by rewrite map_get_set|].
    destruct (decide (k0 = k)) as [->|Hne]; [by rewrite map_get_delete_eq|by rewrite map_get_delete_ne].
  - rewrite filter_cons. destruct (decide (pm_key m = k)); cbn; lia.
Qed.

(** Within one invocation [commit] is an atomic transaction: it succeeds iff every
    checked version is the current one, and then all mutations take effect in
    order, each adding one to the version of its key; otherwise nothing changes. *)
Theorem commit_atomic i b b' r p :
  builders b !! i = Some p → builder_commit i b = (b', Ok r) →
  cr_ok r = forallb (λ c, versionOf b c.1 =? c.2) (pendingChecks p) ∧
  if cr_ok r then
    ∀ k, map_get (store b') k = mutated (pendingMutations p) k (map_get (store b) k) ∧
         versionOf b' k = versionOf b k + Z.of_nat (length (filter (λ m, pm_key m = k) (pendingMutations p)))
  else b' = b.
Proof.
  intros Hp. unfold builder_commit, st_bind, st_get. rewrite Hp. cbn [default].
  destruct (forallb _ _) eqn:E; cbn; intros [= <- <-]; (split; [done|]); [|done].
  intros k. apply apply_pending_all.
Qed.

(** ... but the versions are the invocation's own: in a new invocation every key
    has version 0 again, whatever value the store holds for it and however often
    it was written, so that [check(key, 0)], the claim that the key does not
    exist, passes, and an update made in between is lost. *)
Theorem stale_check_passes (org project : jstr) key value (s : jsmap jstr jsval) (r : R) (o : O) ds :
  let b := Build_Bindings (createInvocationTracker None) s [] [] r o ds in
  let run := (builder <~ local_atomic ;;
              builder_check builder key 0 ;;~
              builder_set false org project builder key value None ;;~
              builder_commit builder)%rf in
  ∃ b', run b = (b', Ok {| cr_ok := true; cr_version := Some 1 |}) ∧
        map_get (store b') (normalizeKey key) = Some value.
Proof.
  eexists. split.
  - unfold builder_check, builder_set, builder_commit, mirrored, builder_at, on_tracker, st_bind.
    cbn. unfold recordKvOp, with_counts, apply_pending, bump, versionOf. cbn.
    change (DEFAULT_MAX_KV_OPS <=? 0 + 1) with false. cbn. rewrite decide_True by done. reflexivity.
  - cbn. by rewrite map_get_set_eq.
Qed.

(** A [put] that the file system provider refuses is acknowledged. *)
Theorem failed_put_acknowledged {St Hd} (p : FsProvider O St Hd) encode ulid key data e b :
  objectOps (tracker b) < maxObjectOps (tracker b) → (fs_put p key (to_payload encode data) (fs b)).2 = Err e →
  (object_put (R := R) (Some p) encode ulid key data b).2 = Ok (js "etag-" ++ ulid).
Proof.
  intros Hops He. unfold object_put, st_bind, on_tracker, recordObjectOp.
  rewrite (proj2 (Z.leb_gt _ _)) by done. unfold with_fs, st_bind, st_try, on_fs. cbn [fs].
  destruct (fs_put _ _ _ _) as [o' x]. cbn in He. by rewrite He.
Qed.
End transactions.
