(* ===== verification/LocalIsolation.v ===== *)
(** * The local isolation provider ([runtime/sandbox/local-isolation.ts], PLAT-4, PLAT-7, PLAT-15, FN-4 to FN-7)

    [LocalIsolationProvider] runs Functions in the process of the runtime.  A
    module is written to a file of its own and imported; its default export, the
    handler, is kept as a warm instance.  An invocation is a task: it waits while
    its module is loaded (the code, the file, the import), while its secrets are
    resolved, whenever its handler calls a binding, and while the body of its
    response is read.  A handler is a program whose calls are answered one at a
    time, and so is the body of a response; [step] interleaves the tasks.  What
    evaluating the bytes of a module gives is the parameter [evaluate]. *)

From S2P Require Import Prelude JsString JsMap JsNumber JsValue Errors Utf8 KvInterface OperationCounter KillEnforcer Http LocalBindings.
From Stdlib Require Import QArith.

Open Scope Z_scope.
Open Scope railfog_scope.

(** ** Handlers *)

(** What a promise rejects with: a [RailFogError] or anything else, with its text *)
Inductive raised := RailFogRaised (e : RailFogError) | OtherRaised (text : jstr).

Section programs.
Context {St Hd : Type}.

(** A call of a binding, a read of [ctx.env], or a property that the handler adds
    to [globalThis] or to [Object.prototype] *)
Inductive ctx_call :=
| OnBinding (c : binding_call (St := St))
| EnvGet (key : jstr)
| SetGlobal (key : jstr)
| SetProto (key : jstr).

Inductive reply :=
| FromBinding (r : result exn (answer (St := St) (Hd := Hd)))
| FromEnv (value : option jstr)
| Assigned.

(** A promise of an [A]: it resolves, rejects, or waits for the answer of a call.
    One that is never answered is a promise that stays pending. *)
Inductive program {A : Type} :=
| Return (v : A)
| Raise (e : raised)
| Perform (c : ctx_call) (k : reply → program).
Arguments program : clear implicits.

(** What a handler's promise resolves to: a [Response], whose body is read by a
    promise of its own (the stream may call bindings and read [ctx.env]),
    [undefined] or [null], or another value *)
Inductive handler_value :=
| AResponse (status : Z) (headers : Headers) (body : program (list Z))
| ANullish
| AnyValue (v : jsval).
End programs.
Arguments ctx_call : clear implicits.
Arguments reply : clear implicits.
Arguments program : clear implicits.
Arguments handler_value : clear implicits.

(** What the handler is called with: a [Request], or the message object of a
    queue trigger.  [in_body] is the body of the request; [in_payload] is the
    parsed payload. *)
Inductive handler_input :=
| OfRequest (method url : jstr) (headers : Headers) (in_body : option (list Z))
| OfMessage (id : jstr) (in_payload : jsval) (method url : jstr) (headers : Headers).

(** The fields of the context that are data *)
Record context_data := {
  ctx_requestId : jstr; ctx_project : jstr; ctx_function : jstr; ctx_revision : jstr; ctx_deadline : jsnum
}.

Section isolation.
Context `{JsonArray, ContentCodec} {R O St Hd : Type} `{KvStore R jsval, !KvLister R jsval}.

Definition HandlerProgram : Type := program St Hd (handler_value St Hd).
Definition Handler : Type := handler_input → context_data → HandlerProgram.

(** The outcome of importing a module: it throws, has no default export that is
    a function, or has a handler.  Evaluation may add properties to
    [globalThis]. *)
Inductive module_outcome :=
| ImportFails (errMsg : jstr)
| NoHandler (globals : list jstr)
| HasHandler (h : Handler) (globals : list jstr).

(** ** Artifacts and requests *)

Inductive artifact_code :=
| CodeBytes (bs : list Z)
| CodeStream (events : list read_event)
| NoCode.

(** The artifact with the properties that the runtime may have attached;
    [a_permissions] is [permissions]. *)
Record LocalArtifact := {
  a_id : option jstr;
  a_entrypoint : jstr;
  a_code : artifact_code;
  a_permissions : jsval;
  a_project : option jstr; a_projectName : option jstr;
  a_function : option jstr; a_functionName : option jstr;
  a_orgId : option jstr; a_org : option jstr;
  a_revision : option jstr; a_revisionId : option jstr
}.

Record LocalLimits := { lim_cpuMs : jsval; lim_timeoutMs : jsval }.

Record Invocation := {
  inv_requestId : option jstr;
  inv_method : option jstr;
  inv_url : option jstr;
  inv_headers : option (jsmap jstr jstr);
  inv_body : option (list Z)
}.

Record FunctionRevisionTuple := {
  m_orgId : option jstr; m_project : jstr; m_functionName : jstr; m_revision : jstr
}.

(** [a ?? b] *)
Definition coalesce {A} (a b : option A) : option A := match a with Some _ => a | None => b end.

(** [getHeader(headers, name)]: the first entry whose name is [name] in lower case *)
Definition getHeader (headers : option (jsmap jstr jstr)) (name : jstr) : option jstr :=
  headers ≫= λ hs, snd <$> (snd <$> list_find (λ e, to_lower e.1 = to_lower name) hs).

(** [s.replace(/\.[^/.]+$/, "")]: what follows the last dot goes, if it is not
    empty and holds no slash. *)
Fixpoint last_dot (s : jstr) (i : nat) (found : option nat) : option nat :=
  match s with [] => found | c :: s => last_dot s (S i) (if c =? 46 then Some i else found) end.
Definition strip_extension (s : jstr) : jstr :=
  match last_dot s 0 None with
  | Some i =>
      let ext := drop (S i) s in
      if bool_decide (ext ≠ []) && negb (existsb (Z.eqb 47) ext) then take i s else s
  | None => s
  end.

(** The options of the constructor, [@std/path]'s [basename] and [join], the
    temporary directory, the file system provider of a directory, the JSON of a
    value, and what imports and requests give *)
Record Environment := {
  maxWarmInstances : option Z;
  configuredOrgId : option jstr;
  hasReplica : bool;
  hasDispatcher : bool;
  tempDir : jstr;
  path_basename : jstr → jstr;
  path_join : list jstr → jstr;
  fs_of : jstr → option (FsProvider O St Hd);
  encode_json : jsval → list Z;
  evaluate : list Z → module_outcome;
  request_ok : jstr → jstr → Headers → bool;
  parse_payload : list Z → option jsval
}.

Context (env : Environment).

Definition extractMetadata (artifact : LocalArtifact) (invocation : option Invocation) : FunctionRevisionTuple :=
  let header name := getHeader (invocation ≫= inv_headers) (js name) in
  {| m_project := default (js "default")
       (coalesce (a_project artifact) (coalesce (a_projectName artifact) (header "x-railfog-project"%string)));
     m_functionName := default
       (match a_entrypoint artifact with
        | [] => js "default"
        | _ :: _ => strip_extension (path_basename env (a_entrypoint artifact))
        end)
       (coalesce (a_function artifact) (coalesce (a_functionName artifact) (header "x-railfog-function"%string)));
     m_orgId := coalesce (a_orgId artifact) (coalesce (a_org artifact) (coalesce (header "x-railfog-org"%string)
       (coalesce (header "x-railfog-org-id"%string) (configuredOrgId env))));
     m_revision := default (js "latest")
       (coalesce (a_revision artifact) (coalesce (a_revisionId artifact)
          (coalesce (header "x-railfog-revision"%string) (a_id artifact)))) |}.

(** [JSON.stringify([orgId ?? "", project, functionName, revision])] *)
Definition cacheKey (meta : FunctionRevisionTuple) : jstr :=
  array_text [default [] (m_orgId meta); m_project meta; m_functionName meta; m_revision meta].

(** [s.replace(/[^a-zA-Z0-9_-]/g, "_")] *)
Definition safe_unit (c : Z) : bool := is_lower c || is_upper c || is_digit c || (c =? 95) || (c =? 45).
Definition sanitize (s : jstr) : jstr := (λ c, if safe_unit c then c else 95) <$> s.

Definition file_name (meta : FunctionRevisionTuple) (generation : Z) : jstr :=
  sanitize (default [] (m_orgId meta)) ++ js "_" ++ sanitize (m_project meta) ++ js "_" ++
  sanitize (m_functionName meta) ++ js "_" ++ sanitize (m_revision meta) ++ js "_gen" ++
  string_of_nat generation ++ js ".ts".
Definition file_path (meta : FunctionRevisionTuple) (generation : Z) : jstr :=
  path_join env [tempDir env; file_name meta generation].

(** The chunks of a stream up to its end *)
Fixpoint read_chunks (events : list read_event) : result exn (list Z) :=
  match events with
  | [] => Ok []
  | RChunk bytes :: events => read_chunks events ≫= λ rest, Ok (bytes ++ rest)
  | RNoValue :: events => read_chunks events
  | RError e :: _ => Err e
  end.

(** [getArtifactCodeBytes(artifact)]; [file] is the content of the file that the
    entry point names, if it can be read. *)
Definition getArtifactCodeBytes (artifact : LocalArtifact) (file : option (list Z)) : result exn (list Z) :=
  match a_code artifact with
  | CodeBytes ((_ :: _) as bs) => Ok bs
  | CodeBytes [] =>
      match a_entrypoint artifact with [] => Ok [] | _ :: _ => Ok (default [] file) end
  | CodeStream events => read_chunks events
  | NoCode => Ok []
  end.

(** ** Results *)

Record LocalResult := {
  r_statusCode : Z; r_headers : Headers; r_body : list Z; r_cpuTimeMs : Z; r_wallClockMs : Z
}.

Definition error_json (b : ErrorBody) : jsval :=
  JObj [(js "error", JObj ([(js "code", JStr (body_code b)); (js "message", JStr (body_message b))] ++
    match body_request_id b with Some i => [(js "request_id", JStr i)] | None => [] end))].

Definition formatErrorResult (err : RailFogError) : LocalResult :=
  {| r_statusCode := statusFromErrorCode (err_code err);
     r_headers := [(js "content-type", js "application/json")];
     r_body := json_bytes (error_json (toErrorResponseBody err));
     r_cpuTimeMs := 0; r_wallClockMs := 0 |}.

Definition new_error (c : RailFogErrorCode) (message : jstr) : RailFogError :=
  {| err_code := c; err_message := message; err_requestId := None |}.

Definition deadline_exceeded : RailFogError := new_error TIMEOUT (js "Invocation deadline exceeded").

(** [catch (err)] around the handler, once the signal is not aborted *)
Definition error_of (e : raised) : RailFogError :=
  match e with RailFogRaised e => e | OtherRaised text => new_error INTERNAL text end.

(** [Response.json(v)] *)
Definition json_headers : Headers := [(js "content-type", js "application/json")].

(** How [run] (or [prewarm]) settles *)
Inductive settled := Returned (r : LocalResult) | Prewarmed | Rejected (e : exn).

(** ** The state *)

Record WarmInstance := {
  handler : Handler; lastUsed : Q; invocationCount : Z; filePath : jstr
}.

(** Where a task is.  [ReadingBody] is the wait for [response.arrayBuffer()], after
    the race with the deadline; [Settled] may leave a handler running: a timeout
    does not stop it. *)
Inductive phase :=
| ReadingCode
| WritingFile (path : jstr) (bytes : list Z)
| Importing (path : jstr)
| ResolvingSecrets (h : Handler)
| Running (p : HandlerProgram)
| ReadingBody (status : Z) (headers : Headers) (wallClockMs : Z) (p : program St Hd (list Z))
| Settled (o : settled) (rest : option HandlerProgram).

(** What [run] or [prewarm] was called with, and what it computes at once *)
Record TaskCall := {
  t_prewarm : bool;
  t_artifact : LocalArtifact;
  t_invocation : option Invocation;
  t_meta : FunctionRevisionTuple;
  t_timeoutMs : jsnum;
  t_nextHop : Z
}.

(** The local variables of [run]: [t_secrets] and [t_activeEnv] are [secretsMap]
    and [activeEnv], [t_versions] and [t_builders] those of the key-value
    binding, [t_realm] the keys of the global objects before the handler. *)
Record Realm := { globals : list jstr; protos : list jstr }.
Record Task := {
  t_call : TaskCall;
  t_timer : abort_state;
  t_tracker : InvocationTracker;
  t_versions : jsmap jstr Z;
  t_builders : list Builder;
  t_secrets : jsmap jstr jstr;
  t_activeEnv : bool;
  t_realm : Realm;
  t_start : Q;
  t_phase : phase
}.

(** [files] is the temporary directory, [modules] the registry of imported
    modules by path. *)
Record CodeCache := {
  warmInstances : jsmap jstr WarmInstance;
  fileGeneration : Z;
  files : jsmap jstr (list Z);
  modules : jsmap jstr module_outcome
}.

(** What the bindings share *)
Record Shared := {
  projectKvStores : jsmap jstr (jsmap jstr jsval);
  i_replica : R;
  i_fs : O;
  dispatched : list Dispatch
}.

Record Isolation := { code : CodeCache; shared : Shared; realm : Realm; tasks : list Task }.

(** ** Warm instances *)

Definition with_warm (c : CodeCache) (w : jsmap jstr WarmInstance) : CodeCache :=
  {| warmInstances := w; fileGeneration := fileGeneration c; files := files c; modules := modules c |}.
Definition next_generation (c : CodeCache) : CodeCache :=
  {| warmInstances := warmInstances c; fileGeneration := fileGeneration c + 1; files := files c;
     modules := modules c |}.

Definition getWarmCount (c : CodeCache) : nat := length (warmInstances c).
Definition clearWarm (c : CodeCache) : CodeCache := next_generation (with_warm c []).

(** The key of the least recently used instance, the first of several *)
Fixpoint oldest (best : option (jstr * Q)) (w : jsmap jstr WarmInstance) : option (jstr * Q) :=
  match w with
  | [] => best
  | (key, inst) :: w =>
      oldest match best with
             | Some (_, t) => if q_ltb (lastUsed inst) t then Some (key, lastUsed inst) else best
             | None => Some (key, lastUsed inst)
             end w
  end.

Definition evict_if_full (c : CodeCache) : CodeCache :=
  match maxWarmInstances env with
  | Some max =>
      if max <=? Z.of_nat (length (warmInstances c)) then
        match oldest None (warmInstances c) with
        | Some (key, _) => with_warm c (map_delete (warmInstances c) key)
        | None => c
        end
      else c
  | None => c
  end.

(** [getOrCreateWarmInstance] up to its first wait: a warm instance, or the
    generation of the file to write *)
Definition acquire (meta : FunctionRevisionTuple) (now : Q) (c : CodeCache) : CodeCache * option Handler :=
  match map_get (warmInstances c) (cacheKey meta) with
  | Some inst =>
      (with_warm c (map_set (warmInstances c) (cacheKey meta)
         {| handler := handler inst; lastUsed := now; invocationCount := invocationCount inst + 1;
            filePath := filePath inst |}),
       Some (handler inst))
  | None => (next_generation (evict_if_full c), None)
  end.

(** [Deno.writeFile(filePath, codeBytes)] *)
Definition write_file (path : jstr) (bytes : list Z) (c : CodeCache) : CodeCache :=
  {| warmInstances := warmInstances c; fileGeneration := fileGeneration c;
     files := map_set (files c) path bytes; modules := modules c |}.

(** [import(fileUrl)]: a module that was imported before is not evaluated again;
    the new globals are those its evaluation adds. *)
Definition outcome_globals (m : module_outcome) : list jstr :=
  match m with ImportFails _ => [] | NoHandler gs | HasHandler _ gs => gs end.
Definition import_module (path : jstr) (c : CodeCache) : CodeCache * module_outcome * list jstr :=
  match map_get (modules c) path with
  | Some m => (c, m, [])
  | None =>
      match map_get (files c) path with
      | Some bytes =>
          let m := evaluate env bytes in
          ({| warmInstances := warmInstances c; fileGeneration := fileGeneration c; files := files c;
              modules := map_set (modules c) path m |}, m, outcome_globals m)
      | None => (c, ImportFails (js "Module not found"), [])
      end
  end.

Definition keep_warm (meta : FunctionRevisionTuple) (path : jstr) (h : Handler) (now : Q) (count : Z)
    (c : CodeCache) : CodeCache :=
  with_warm c (map_set (warmInstances c) (cacheKey meta)
    {| handler := h; lastUsed := now; invocationCount := count; filePath := path |}).

(** ** Tasks *)

Definition at_phase (t : Task) (p : phase) : Task :=
  {| t_call := t_call t; t_timer := t_timer t; t_tracker := t_tracker t; t_versions := t_versions t;
     t_builders := t_builders t; t_secrets := t_secrets t; t_activeEnv := t_activeEnv t;
     t_realm := t_realm t; t_start := t_start t; t_phase := p |}.
Definition with_timer (t : Task) (a : abort_state) : Task :=
  {| t_call := t_call t; t_timer := a; t_tracker := t_tracker t; t_versions := t_versions t;
     t_builders := t_builders t; t_secrets := t_secrets t; t_activeEnv := t_activeEnv t;
     t_realm := t_realm t; t_start := t_start t; t_phase := t_phase t |}.
Definition without_env (t : Task) : Task :=
  {| t_call := t_call t; t_timer := t_timer t; t_tracker := t_tracker t; t_versions := t_versions t;
     t_builders := t_builders t; t_secrets := []; t_activeEnv := false;
     t_realm := t_realm t; t_start := t_start t; t_phase := t_phase t |}.
Definition handler_begins (t : Task) (secrets : jsmap jstr jstr) (g : Realm) (now : Q) : Task :=
  {| t_call := t_call t; t_timer := t_timer t; t_tracker := t_tracker t; t_versions := [];
     t_builders := []; t_secrets := secrets; t_activeEnv := true; t_realm := g; t_start := now;
     t_phase := t_phase t |}.

Abbreviation meta_of t := (t_meta (t_call t)).

(** [const { signal, cleanup } = killEnforcer.createAbortController()] *)
Definition start_timer (t : Task) : Task := with_timer t armed.

Definition new_task (call : TaskCall) (p : phase) : Task :=
  {| t_call := call; t_timer := {| timer_pending := false; aborted := None |};
     t_tracker := createInvocationTracker None; t_versions := []; t_builders := []; t_secrets := [];
     t_activeEnv := true; t_realm := {| globals := []; protos := [] |}; t_start := 0; t_phase := p |}.

(** An error on the way to the handler: [cleanup()], then the result of a
    [RailFogError]; [prewarm] lets it through. *)
Definition load_failed (t : Task) (e : raised) (unknown : exn) : Task :=
  let t := with_timer t (cleanup (t_timer t)) in
  at_phase t (Settled
    match t_prewarm (t_call t), e with
    | false, RailFogRaised err => Returned (formatErrorResult err)
    | true, RailFogRaised err => Rejected (RF (err_code err))
    | _, OtherRaised _ => Rejected unknown
    end None).

(** The same for an exception whose message the model does not keep *)
Definition load_error (t : Task) (e : exn) : Task :=
  match e with
  | RF c => load_failed t (RailFogRaised (new_error c [])) e
  | _ => load_failed t (OtherRaised []) e
  end.

(** The instance is there. *)
Definition loaded_handler (t : Task) (h : Handler) : Task :=
  at_phase t (if t_prewarm (t_call t) then Settled Prewarmed None else ResolvingSecrets h).

(** [run(artifact, limits, invocation)] up to its first wait; [depth_message] is
    the text of the call depth guard's error. *)
Definition CALL_DEPTH_HEADER : jstr := js "X-RailFog-Call-Depth".

Definition run_options (limits : LocalLimits) : ResourceKillOptions :=
  {| o_timeoutMs := lim_timeoutMs limits; o_cpuMs := lim_cpuMs limits; o_maxRequestBodyBytes := JUndef;
     o_maxResponseBodyBytes := JUndef; o_maxStreamedBytes := JUndef |}.

Definition run_start (depth_message : jstr) (artifact : LocalArtifact) (limits : LocalLimits)
    (invocation : option Invocation) (now : Q) (c : CodeCache) : CodeCache * Task :=
  let meta := extractMetadata artifact invocation in
  let call timeout hop :=
    {| t_prewarm := false; t_artifact := artifact; t_invocation := invocation; t_meta := meta;
       t_timeoutMs := timeout; t_nextHop := hop |} in
  match checkCallDepth (getHeader (invocation ≫= inv_headers) CALL_DEPTH_HEADER)
          (createInvocationTracker None) with
  | Err (RF code) =>
      (c, new_task (call NaN 1) (Settled (Returned (formatErrorResult (new_error code depth_message))) None))
  | Err e => (c, new_task (call NaN 1) (Settled (Rejected e) None))
  | Ok hop =>
      match createKillEnforcer (run_options limits) with
      | Err e => (c, new_task (call NaN hop) (Settled (Rejected e) None))
      | Ok killEnforcer =>
          let t := start_timer (new_task (call (KillEnforcer.timeoutMs killEnforcer) hop) ReadingCode) in
          match acquire meta now c with
          | (c, Some h) => (c, loaded_handler t h)
          | (c, None) => (c, t)
          end
      end
  end.

(** [prewarm(artifact)] up to its first wait *)
Definition prewarm_start (artifact : LocalArtifact) (now : Q) (c : CodeCache) : CodeCache * Task :=
  let meta := extractMetadata artifact None in
  let t := new_task {| t_prewarm := true; t_artifact := artifact; t_invocation := None; t_meta := meta;
                       t_timeoutMs := NaN; t_nextHop := 1 |} ReadingCode in
  if map_has (warmInstances c) (cacheKey meta) then (c, at_phase t (Settled Prewarmed None))
  else match acquire meta now c with
       | (c, Some h) => (c, loaded_handler t h)
       | (c, None) => (c, t)
       end.

(** The waits of [getOrCreateWarmInstance] *)
Definition code_read (file : option (list Z)) (t : Task) (c : CodeCache) : CodeCache * Task :=
  match getArtifactCodeBytes (t_artifact (t_call t)) file with
  | Ok bytes =>
      (c, at_phase t (WritingFile (file_path (meta_of t) (fileGeneration c)) bytes))
  | Err e => (c, load_error t e)
  end.

Definition file_written (ok : bool) (path : jstr) (bytes : list Z) (t : Task) (c : CodeCache)
    : CodeCache * Task :=
  if ok then (write_file path bytes c, at_phase t (Importing path)) else (c, load_error t PlainError).

Definition imported (path : jstr) (now : Q) (t : Task) (c : CodeCache) : CodeCache * Task * list jstr :=
  let invalid c t gs message :=
    (c, load_failed t (RailFogRaised (new_error VALIDATION_FAILED message)) ValidationFailedError, gs) in
  match import_module path c with
  | (c, ImportFails errMsg, gs) => invalid c t gs (js "Failed to load function module: " ++ errMsg)
  | (c, NoHandler _, gs) => invalid c t gs (js "Function module must export a default handler function")
  | (c, HasHandler h _, gs) =>
      (keep_warm (meta_of t) path h now (if t_prewarm (t_call t) then 0 else 1) c, loaded_handler t h, gs)
  end.

(** ** Secrets *)

(** The answers of the secret store while they are resolved *)
Record SecretView := {
  sv_listNames : jstr → jstr → result exn (list jstr);
  sv_get : jstr → jstr → jstr → result exn (option jstr)
}.

Fixpoint resolve_names (view : SecretView) (orgId projectId : jstr) (allowed : option (list jstr))
    (names : list jstr) (secrets : jsmap jstr jstr) : jsmap jstr jstr :=
  match names with
  | [] => secrets
  | name :: names =>
      if match allowed with Some l => negb (bool_decide (name ∈ l)) | None => false end
      then resolve_names view orgId projectId allowed names secrets
      else match sv_get view orgId projectId name with
           | Ok (Some val) => resolve_names view orgId projectId allowed names (map_set secrets name val)
           | Ok None => resolve_names view orgId projectId allowed names secrets
           | Err _ => secrets
           end
  end.

Definition resolveSecrets (secretStore : option SecretView) (orgId : option jstr) (projectId : jstr)
    (allowed : option (list jstr)) : jsmap jstr jstr :=
  match secretStore, orgId with
  | Some view, Some ((_ :: _) as org) =>
      match sv_listNames view org projectId with
      | Ok names => resolve_names view org projectId allowed names []
      | Err _ => []
      end
  | _, _ => []
  end.

(** The names in [artifact.permissions.secrets], if that is an array *)
Definition allowedSecretNames (artifact : LocalArtifact) : option (list jstr) :=
  match prop (a_permissions artifact) (js "secrets") with
  | JArr xs => Some (omap as_str xs)
  | _ => None
  end.

(** ** The handler *)

(** [meta.orgId ?? this.configuredOrgId ?? "default-org"] *)
Definition tenantOrg (meta : FunctionRevisionTuple) : jstr :=
  default (js "default-org") (coalesce (m_orgId meta) (configuredOrgId env)).
Definition tenantKey (meta : FunctionRevisionTuple) : jstr := tenantOrg meta ++ js "/" ++ m_project meta.
Definition tenantObjectsDir (meta : FunctionRevisionTuple) : jstr :=
  path_join env [tempDir env; js "objects"; tenantOrg meta; m_project meta].

(** [ctx.requestId], with the identifier generated if the invocation has none *)
Definition request_id (t : Task) (ulid : jstr) : jstr :=
  default ulid (t_invocation (t_call t) ≫= inv_requestId).

(** [new Headers(invocation?.headers)]: names in lower case, values of one name
    joined *)
Definition append_header (hs : Headers) (name value : jstr) : Headers :=
  match map_get hs (to_lower name) with
  | Some v => map_set hs (to_lower name) (v ++ js ", " ++ value)
  | None => map_set hs (to_lower name) value
  end.
Definition new_Headers (init : option (jsmap jstr jstr)) : Headers :=
  fold_left (λ hs e, append_header hs e.1 e.2) (default [] init) [].

Definition requestHeaders (t : Task) (ulid : jstr) : Headers :=
  map_set (map_set (new_Headers (t_invocation (t_call t) ≫= inv_headers))
             (to_lower CALL_DEPTH_HEADER) (string_of_nat (t_nextHop (t_call t))))
    (js "x-railfog-request-id") (request_id t ulid).

Definition requestMethod (t : Task) : jstr := default (js "GET") (t_invocation (t_call t) ≫= inv_method).
Definition requestUrl (t : Task) : jstr :=
  default (js "https://example.com/api") (t_invocation (t_call t) ≫= inv_url).
Definition requestBody (t : Task) : option (list Z) :=
  match t_invocation (t_call t) ≫= inv_body with
  | Some ((_ :: _) as body) =>
      if jstr_eqb (requestMethod t) (js "GET") || jstr_eqb (requestMethod t) (js "HEAD")
      then None else Some body
  | _ => None
  end.

(** The parsed payload; a body that is no JSON is passed as its bytes. *)
Definition payload_of (t : Task) : jsval :=
  match t_invocation (t_call t) ≫= inv_body with
  | Some ((_ :: _) as body) =>
      match parse_payload env body with
      | Some v => v
      | None => JArr ((λ b, JNum (Fin (inject_Z b))) <$> body)
      end
  | _ => JUndef
  end.

Definition input_of (t : Task) (ulid : jstr) : handler_input :=
  let headers := requestHeaders t ulid in
  match map_get headers (js "x-railfog-trigger") with
  | Some trigger =>
      if jstr_eqb trigger (js "queue")
      then OfMessage
             (default (request_id t ulid)
                (coalesce (map_get headers (js "x-railfog-message-id"))
                   (t_invocation (t_call t) ≫= inv_requestId)))
             (payload_of t) (requestMethod t) (requestUrl t) headers
      else OfRequest (requestMethod t) (requestUrl t) headers (requestBody t)
  | None => OfRequest (requestMethod t) (requestUrl t) headers (requestBody t)
  end.

Definition deadline_of (t : Task) (now : Q) : jsnum :=
  match t_timeoutMs (t_call t) with Fin q => Fin (fadd now q) | n => n end.
Definition context_of (t : Task) (ulid : jstr) (now : Q) : context_data :=
  {| ctx_requestId := request_id t ulid; ctx_project := m_project (meta_of t);
     ctx_function := m_functionName (meta_of t); ctx_revision := m_revision (meta_of t);
     ctx_deadline := deadline_of t now |}.

(** [finally]: the timer, the secrets, and the keys that were not there before *)
Definition kept_keys (before now : list jstr) : list jstr := filter (λ k, k ∈ before) now.
Definition finally (t : Task) (g : Realm) : Task * Realm :=
  (without_env (with_timer t (cleanup (t_timer t))),
   {| globals := kept_keys (globals (t_realm t)) (globals g);
      protos := kept_keys (protos (t_realm t)) (protos g) |}).

Definition wall_clock (t : Task) (now : Q) : Z := Z.max 0 (math_round (fsub now (t_start t))).

(** The result is there: [finally] runs, and [run] returns it. *)
Definition finish (t : Task) (r : LocalResult) (rest : option HandlerProgram) (g : Realm) : Task * Realm :=
  let '(t, g) := finally t g in (at_phase t (Settled (Returned r) rest), g).

Definition is_aborted (t : Task) : bool := bool_decide (aborted (t_timer t) ≠ None).

(** The race is won by a value: its response and the wall clock time (which stands
    for the CPU time too) are there, its body is not. *)
Definition read_response (v : handler_value St Hd) (ms : Z) : phase :=
  match v with
  | AResponse status headers body => ReadingBody status headers ms body
  | ANullish => ReadingBody 200 json_headers ms (Return (json_bytes (JObj [(js "ok", JBool true)])))
  | AnyValue v => ReadingBody 200 json_headers ms (Return (json_bytes v))
  end.

(** [catch (err)] *)
Definition caught (t : Task) (e : raised) : LocalResult :=
  formatErrorResult (if is_aborted t then deadline_exceeded else error_of e).

(** The handler has come to [p], its signal not having been aborted before. *)
Definition advance (t : Task) (p : HandlerProgram) (now : Q) (g : Realm) : Task * Realm :=
  match p with
  | Return v => (at_phase t (read_response v (wall_clock t now)), g)
  | Raise e => finish t (caught t e) None g
  | Perform _ _ => (at_phase t (Running p), g)
  end.

(** The handler's first steps.  If the signal is aborted already, only a response
    given without a wait wins the race. *)
Definition begin_handler (t : Task) (p : HandlerProgram) (now : Q) (g : Realm) : Task * Realm :=
  if is_aborted t then
    match p with
    | Return v => (at_phase t (read_response v (wall_clock t now)), g)
    | Raise e => finish t (caught t e) None g
    | Perform _ _ => finish t (formatErrorResult deadline_exceeded) (Some p) g
    end
  else advance t p now g.

(** [projectKvStores.get(tenantKey)], created when it is missing *)
Definition ensure_store (meta : FunctionRevisionTuple) (s : Shared) : Shared :=
  match map_get (projectKvStores s) (tenantKey meta) with
  | Some _ => s
  | None => {| projectKvStores := map_set (projectKvStores s) (tenantKey meta) []; i_replica := i_replica s;
               i_fs := i_fs s; dispatched := dispatched s |}
  end.

(** The secrets are there: the context, the request and the start of the handler.
    An invalid request is thrown past the [try]. *)
Definition secrets_resolved (secretStore : option SecretView) (ulid : jstr) (now : Q) (h : Handler) (t : Task)
    (s : Shared) (g : Realm) : Task * Shared * Realm :=
  let meta := meta_of t in
  let secrets := resolveSecrets secretStore (m_orgId meta) (m_project meta)
                   (allowedSecretNames (t_artifact (t_call t))) in
  let s := ensure_store meta s in
  if negb (request_ok env (requestMethod t) (requestUrl t) (requestHeaders t ulid))
  then (at_phase t (Settled (Rejected TypeError) None), s, g)
  else
    let t := handler_begins t secrets g now in
    let '(t, g) := begin_handler t (h (input_of t ulid) (context_of t ulid now)) now g in
    (t, s, g).

(** *** Calls *)

Definition set_add_key (k : jstr) (ks : list jstr) : list jstr := if bool_decide (k ∈ ks) then ks else ks ++ [k].

Definition bindings_of (t : Task) (s : Shared) : Bindings R O :=
  Build_Bindings (t_tracker t) (default [] (map_get (projectKvStores s) (tenantKey (meta_of t))))
    (t_versions t) (t_builders t) (i_replica s) (i_fs s) (dispatched s).

Definition after_call (t : Task) (s : Shared) (b : Bindings R O) : Task * Shared :=
  ({| t_call := t_call t; t_timer := t_timer t; t_tracker := tracker b; t_versions := versions b;
      t_builders := builders b; t_secrets := t_secrets t; t_activeEnv := t_activeEnv t;
      t_realm := t_realm t; t_start := t_start t; t_phase := t_phase t |},
   {| projectKvStores := map_set (projectKvStores s) (tenantKey (meta_of t)) (store b);
      i_replica := replica b; i_fs := fs b; dispatched := dispatches b |}).

Definition env_value (t : Task) (key : jstr) : option jstr :=
  if t_activeEnv t then map_get (t_secrets t) key else None.

(** A call of a binding by the handler of [t] *)
Definition call_binding (ulids : nat → jstr) (now : Q) (c : binding_call (St:=St)) (t : Task) (s : Shared)
    : Bindings R O * result exn (answer (St:=St) (Hd:=Hd)) :=
  perform (hasReplica env) (tenantOrg (meta_of t)) (m_project (meta_of t))
    (fs_of env (tenantObjectsDir (meta_of t))) (encode_json env)
    (m_project (meta_of t)) (hasDispatcher env) ulids now c (bindings_of t s).

(** One call of the handler of [t], with the identifiers and the clock it uses *)
Definition answer_call (ulids : nat → jstr) (now : Q) (c : ctx_call St) (t : Task) (s : Shared) (g : Realm)
    : Task * Shared * Realm * reply St Hd :=
  match c with
  | OnBinding c =>
      let '(b, r) := call_binding ulids now c t s in
      let '(t, s) := after_call t s b in (t, s, g, FromBinding r)
  | EnvGet key => (t, s, g, FromEnv (env_value t key))
  | SetGlobal key => (t, s, {| globals := set_add_key key (globals g); protos := protos g |}, Assigned)
  | SetProto key => (t, s, {| globals := globals g; protos := set_add_key key (protos g) |}, Assigned)
  end.

(** The next step of the handler, or of the body of its response; a handler that
    goes on after the timeout cannot settle the invocation again. *)
Definition handler_step (ulids : nat → jstr) (now : Q) (t : Task) (s : Shared) (g : Realm)
    : Task * Shared * Realm :=
  match t_phase t with
  | Running (Perform c k) =>
      let '(t, s, g, r) := answer_call ulids now c t s g in
      let '(t, g) := advance t (k r) now g in (t, s, g)
  | ReadingBody status headers ms (Return bytes) =>
      let '(t, g) := finish t {| r_statusCode := status; r_headers := headers; r_body := bytes;
                                 r_cpuTimeMs := ms; r_wallClockMs := ms |} None g in (t, s, g)
  | ReadingBody _ _ _ (Raise e) => let '(t, g) := finish t (caught t e) None g in (t, s, g)
  | ReadingBody status headers ms (Perform c k) =>
      let '(t, s, g, r) := answer_call ulids now c t s g in
      (at_phase t (ReadingBody status headers ms (k r)), s, g)
  | Settled o (Some (Perform c k)) =>
      let '(t, s, g, r) := answer_call ulids now c t s g in
      (at_phase t (Settled o match k r with Perform _ _ as p => Some p | _ => None end), s, g)
  | _ => (t, s, g)
  end.

(** The timer's callback: the signal is aborted, and the race lost if it is on.
    The wait for the body of a response is not a race. *)
Definition timer_fired (t : Task) (g : Realm) : Task * Realm :=
  if timer_pending (t_timer t) then
    let t := with_timer t (timer_fires (t_timer t)) in
    match t_phase t with
    | Running p => finish t (formatErrorResult deadline_exceeded) (Some p) g
    | _ => (t, g)
    end
  else (t, g).

(** ** Steps *)

Inductive event :=
| Run (depth_message : jstr) (artifact : LocalArtifact) (limits : LocalLimits)
    (invocation : option Invocation) (now : Q)
| PrewarmCall (artifact : LocalArtifact) (now : Q)
| ClearWarm
| CodeRead (i : nat) (file : option (list Z))
| FileWritten (i : nat) (ok : bool)
| Imported (i : nat) (now : Q)
| SecretsResolved (i : nat) (secretStore : option SecretView) (ulid : jstr) (now : Q)
| HandlerStep (i : nat) (ulids : nat → jstr) (now : Q)
| TimerFired (i : nat).

Definition with_task (w : Isolation) (i : nat) (t : Task) (c : CodeCache) (s : Shared) (g : Realm) : Isolation :=
  {| code := c; shared := s; realm := g; tasks := <[i := t]> (tasks w) |}.
Definition add_task (w : Isolation) (c : CodeCache) (t : Task) : Isolation :=
  {| code := c; shared := shared w; realm := realm w; tasks := tasks w ++ [t] |}.

Definition add_globals (gs : list jstr) (g : Realm) : Realm :=
  {| globals := fold_left (λ ks k, set_add_key k ks) gs (globals g); protos := protos g |}.

Definition step (ev : event) (w : Isolation) : Isolation :=
  let c := code w in
  match ev with
  | Run message artifact limits invocation now =>
      let '(c, t) := run_start message artifact limits invocation now c in add_task w c t
  | PrewarmCall artifact now => let '(c, t) := prewarm_start artifact now c in add_task w c t
  | ClearWarm => {| code := clearWarm c; shared := shared w; realm := realm w; tasks := tasks w |}
  | CodeRead i file =>
      match tasks w !! i with
      | Some t =>
          match t_phase t with
          | ReadingCode => let '(c, t) := code_read file t c in with_task w i t c (shared w) (realm w)
          | _ => w
          end
      | None => w
      end
  | FileWritten i ok =>
      match tasks w !! i with
      | Some t =>
          match t_phase t with
          | WritingFile path bytes =>
              let '(c, t) := file_written ok path bytes t c in with_task w i t c (shared w) (realm w)
          | _ => w
          end
      | None => w
      end
  | Imported i now =>
      match tasks w !! i with
      | Some t =>
          match t_phase t with
          | Importing path =>
              let '(c, t, gs) := imported path now t c in
              with_task w i t c (shared w) (add_globals gs (realm w))
          | _ => w
          end
      | None => w
      end
  | SecretsResolved i secretStore ulid now =>
      match tasks w !! i with
      | Some t =>
          match t_phase t with
          | ResolvingSecrets h =>
              let '(t, s, g) := secrets_resolved secretStore ulid now h t (shared w) (realm w) in
              with_task w i t c s g
          | _ => w
          end
      | None => w
      end
  | HandlerStep i ulids now =>
      match tasks w !! i with
      | Some t => let '(t, s, g) := handler_step ulids now t (shared w) (realm w) in with_task w i t c s g
      | None => w
      end
  | TimerFired i =>
      match tasks w !! i with
      | Some t => let '(t, g) := timer_fired t (realm w) in with_task w i t c (shared w) g
      | None => w
      end
  end.

Definition steps (evs : list event) (w : Isolation) : Isolation := fold_left (λ w ev, step ev w) evs w.

(** [new LocalIsolationProvider(options)] *)
Definition new_provider (r : R) (o : O) (g : Realm) : Isolation :=
  {| code := {| warmInstances := []; fileGeneration := 0; files := []; modules := [] |};
     shared := {| projectKvStores := []; i_replica := r; i_fs := o; dispatched := [] |};
     realm := g; tasks := [] |}.
End isolation.
