(* ===== verification/LocalSafety.v ===== *)
(** * Properties of the local isolation provider ([runtime/sandbox/local-isolation.ts])

    Which code runs for an invocation ([warm_reuse]), what becomes of an invocation
    ([invocation_lifecycle]) and who can change a tenant's store
    ([stores_confined]), over every interleaving of the tasks; and what the races
    of the code allow. *)

From S2P Require Import Prelude JsString JsMap JsNumber JsValue Errors Utf8 KvInterface SqliteKv OperationCounter KillEnforcer Http LocalBindings LocalIsolation Cron.
From Stdlib Require Import QArith.

Open Scope Z_scope.
Open Scope railfog_scope.

(** ** Tuples and file names *)

(** A name whose file name is itself and holds no separator *)
Definition plain (s : jstr) : Prop := forallb (λ c, safe_unit c && negb (c =? 95)) s = true.

Lemma plain_no_underscore s : plain s → 95 ∉ s.
Proof.
  unfold plain. rewrite forallb_forall. intros Hs Hin%list_elem_of_In. specialize (Hs _ Hin).
  vm_compute in Hs. discriminate.
Qed.

Lemma split_at_sep (sep : Z) (a a' r r' : jstr) :
  sep ∉ a → sep ∉ a' → a ++ sep :: r = a' ++ sep :: r' → a = a' ∧ r = r'.
Proof.
  revert a'. induction a as [|c a IH]; intros [|c' a'] Ha Ha' Heq; cbn in *.
  - by injection Heq.
  - injection Heq as -> _. destruct Ha'. by left.
  - injection Heq as -> _. destruct Ha. by left.
  - injection Heq as -> Heq. destruct (IH a') as [-> ->]; [set_solver..|done|done].
Qed.

(** A name whose file name is itself *)
Definition safe_name (s : jstr) : Prop := forallb safe_unit s = true.

Lemma safe_sanitize s : safe_name s → sanitize s = s.
Proof.
  unfold safe_name, sanitize. induction s as [|c s IH]; [done|]. cbn. rewrite andb_true_iff.
  intros [Hc Hs]. by rewrite Hc, IH.
Qed.

(** A revision may hold the separator, as [rev_01J...] does. *)
Lemma plain_safe s : plain s → safe_name s.
Proof.
  unfold plain, safe_name. rewrite !forallb_forall. intros Hs c Hc.
  specialize (Hs c Hc). by apply andb_true_iff in Hs as [Hs _].
Qed.

Lemma split_at_last_sep (sep : Z) (a a' r r' : jstr) :
  sep ∉ r → sep ∉ r' → a ++ sep :: r = a' ++ sep :: r' → a = a' ∧ r = r'.
Proof.
  intros Hr Hr' Heq%(f_equal (@rev Z)). rewrite !rev_app_distr in Heq. cbn in Heq. rewrite <-!app_assoc in Heq.
  apply split_at_sep in Heq as [H1 H2]; [|by rewrite list_elem_of_In, <-in_rev, <-list_elem_of_In..].
  apply (f_equal (@rev Z)) in H1, H2. by rewrite !rev_involutive in H1, H2.
Qed.

Definition plain_tuple (m : FunctionRevisionTuple) : Prop :=
  plain (default [] (m_orgId m)) ∧ plain (m_project m) ∧ plain (m_functionName m) ∧ safe_name (m_revision m).

(** The same org, project, function and revision; no org is the empty one. *)
Definition same_tuple (m m' : FunctionRevisionTuple) : Prop :=
  default [] (m_orgId m) = default [] (m_orgId m') ∧ m_project m = m_project m' ∧
  m_functionName m = m_functionName m' ∧ m_revision m = m_revision m'.

#[export] Instance same_tuple_equiv : Equivalence same_tuple.
Proof. split; unfold same_tuple; [intros m|intros m m'|intros m1 m2 m3]; naive_solver congruence. Qed.

Lemma file_name_inj m m' g g' :
  0 <= g → 0 <= g' → plain_tuple m → plain_tuple m' → file_name m g = file_name m' g' → same_tuple m m'.
Proof.
  intros Hg Hg' (Ho & Hp & Hf & Hr) (Ho' & Hp' & Hf' & Hr'). unfold file_name.
  rewrite !safe_sanitize by (done || by apply plain_safe).
  change (js "_") with [95]. change (js "_gen") with (95 :: js "gen"). cbn [app].
  intros (H1 & Heq)%split_at_sep; [|by apply plain_no_underscore..].
  apply split_at_sep in Heq as (H2 & Heq); [|by apply plain_no_underscore..].
  apply split_at_sep in Heq as (H3 & Heq); [|by apply plain_no_underscore..].
  assert (∀ n, 0 <= n → 95 ∉ js "gen" ++ string_of_nat n ++ js ".ts") as Htail.
  { intros n Hn. rewrite !not_elem_of_app. split_and!; try (apply (bool_decide_unpack _); vm_compute; exact I).
    by apply string_of_nat_avoid. }
  apply split_at_last_sep in Heq as (H4 & _); [|by apply Htail..].
  by repeat split.
Qed.

Lemma cacheKey_tuple `{JsonArrayLaws} m m' : cacheKey m = cacheKey m' → same_tuple m m'.
Proof. intros Heq. apply (inj array_text) in Heq. injection Heq. by repeat split. Qed.

(** A file name is the last component of its path. *)
Definition joins_files {O St Hd} `{JsonArray} (env : Environment (O:=O) (St:=St) (Hd:=Hd)) : Prop := ∀ a b,
  47 ∉ a → 47 ∉ b → path_join env [tempDir env; a] = path_join env [tempDir env; b] → a = b.

Lemma file_name_slash m g : 0 <= g → 47 ∉ file_name m g.
Proof.
  intros Hg.
  assert (∀ s, 47 ∉ sanitize s) as Hs.
  { intros s Hin. unfold sanitize in Hin. apply list_elem_of_fmap in Hin as (c & Hc & _).
    destruct (safe_unit c) eqn:E; [subst c|]; discriminate. }
  assert (∀ s, forallb (λ c, negb (c =? 47)) s = true → 47 ∉ s) as Hlit.
  { intros s Hall Hin%list_elem_of_In. rewrite forallb_forall in Hall. by specialize (Hall _ Hin). }
  unfold file_name. rewrite !not_elem_of_app. repeat split; try apply Hs; try (by apply Hlit).
  by apply string_of_nat_avoid.
Qed.

Section safety.
Context `{JsonArrayLaws, ContentCodec} {R O St Hd : Type} `{KvStore R jsval, !KvLister R jsval}
  (env : Environment (O:=O) (St:=St) (Hd:=Hd)) (Hjoin : joins_files env).

Abbreviation W := (Isolation (R:=R) (O:=O) (St:=St) (Hd:=Hd)).
Implicit Types (w : W) (c : CodeCache (St:=St) (Hd:=Hd)) (t : Task (St:=St) (Hd:=Hd))
  (s : Shared (R:=R) (O:=O)).

Abbreviation meta_of t := (t_meta (t_call t)).

(** ** Where a module comes from *)

(** [b] is the code of an artifact that was presented under the tuple [m]. *)
Definition presented (cs : list TaskCall) (m : FunctionRevisionTuple) (b : list Z) : Prop :=
  ∃ call file, call ∈ cs ∧ t_meta call = m ∧ getArtifactCodeBytes (t_artifact call) file = Ok b.

(** A path that a tuple was given, and the code it was given for *)
Definition given (cs : list TaskCall) (path : jstr) (b : list Z) : Prop :=
  ∃ m g, 0 <= g ∧ path = file_path env m g ∧ presented cs m b.

Definition own_path (m : FunctionRevisionTuple) (path : jstr) : Prop :=
  ∃ g, 0 <= g ∧ path = file_path env m g.

Definition from_path (cs : list TaskCall) (path : jstr) (h : Handler (St:=St) (Hd:=Hd)) : Prop :=
  ∃ b gs, given cs path b ∧ evaluate env b = HasHandler h gs.

Definition tuples (cs : list TaskCall) : list FunctionRevisionTuple := t_meta <$> cs.

(** A handler that may run for [m] *)
Definition handler_for (cs : list TaskCall) (m : FunctionRevisionTuple) (h : Handler (St:=St) (Hd:=Hd)) : Prop :=
  ∃ m' path, same_tuple m m' ∧ m' ∈ tuples cs ∧ own_path m' path ∧ from_path cs path h.

Definition code_ok (cs : list TaskCall) c : Prop :=
  0 <= fileGeneration c ∧
  (∀ path b, map_get (files c) path = Some b → given cs path b) ∧
  (∀ path o, map_get (modules c) path = Some o → ∃ b, given cs path b ∧ o = evaluate env b) ∧
  (∀ k inst, map_get (warmInstances c) k = Some inst →
     ∃ m, k = cacheKey m ∧ m ∈ tuples cs ∧ own_path m (filePath inst) ∧
       from_path cs (filePath inst) (handler inst)).

Definition task_code_ok (cs : list TaskCall) t : Prop :=
  match t_phase t with
  | WritingFile path b => own_path (meta_of t) path ∧ presented cs (meta_of t) b
  | Importing path => own_path (meta_of t) path
  | ResolvingSecrets h => handler_for cs (meta_of t) h
  | _ => True
  end.

Definition calls w : list TaskCall := t_call <$> tasks w.

Definition world_code_ok w : Prop :=
  code_ok (calls w) (code w) ∧ Forall (task_code_ok (calls w)) (tasks w).

(** More calls only allow more. *)
Lemma given_mono cs cs' path b : cs ⊆ cs' → given cs path b → given cs' path b.
Proof.
  intros Hsub (m & g & Hg & Hp & call & file & Hin & Hm & Hb). exists m, g. split_and!; [done..|].
  exists call, file. split_and!; [by apply Hsub|done..].
Qed.

Lemma meta_mono cs cs' m : cs ⊆ cs' → m ∈ tuples cs → m ∈ tuples cs'.
Proof. intros Hsub (x & -> & Hin)%list_elem_of_fmap. apply list_elem_of_fmap. exists x. set_solver. Qed.

Lemma from_path_mono cs cs' path h : cs ⊆ cs' → from_path cs path h → from_path cs' path h.
Proof. intros Hsub (b & gs & Hg & He). exists b, gs. eauto using given_mono. Qed.

Lemma code_ok_mono cs cs' c : cs ⊆ cs' → code_ok cs c → code_ok cs' c.
Proof.
  intros Hsub (Hg & Hf & Hm & Hw). split_and!; [done|eauto using given_mono|..].
  - intros path o Ho. destruct (Hm path o Ho) as (b & ? & ?). eauto using given_mono.
  - intros k inst Hk. destruct (Hw k inst Hk) as (m & ? & ? & ? & ?).
    exists m. split_and!; eauto using meta_mono, from_path_mono.
Qed.

Lemma task_code_ok_mono cs cs' t : cs ⊆ cs' → task_code_ok cs t → task_code_ok cs' t.
Proof.
  intros Hsub. unfold task_code_ok. destruct (t_phase t); try done.
  - intros [Ho (call & file & Hin & Hm & Hb)]. split; [done|]. exists call, file. set_solver.
  - intros (m & p & ? & ? & ? & ?). exists m, p. split_and!; eauto using meta_mono, from_path_mono.
Qed.

(** *** The operations *)

Lemma warm_delete_ok cs c k : code_ok cs c → code_ok cs (with_warm c (map_delete (warmInstances c) k)).
Proof.
  intros (Hg & Hf & Hm & Hw). split_and!; [done..|].
  intros k' inst Hk. cbn [warmInstances with_warm] in Hk. destruct (decide (k = k')) as [<-|Hne].
  - by rewrite map_get_delete_eq in Hk.
  - rewrite map_get_delete_ne in Hk by done. by apply Hw.
Qed.

Lemma code_ok_evict cs c : code_ok cs c → code_ok cs (evict_if_full env c).
Proof.
  intros Hc. unfold evict_if_full. destruct (maxWarmInstances env); [|done].
  destruct (_ <=? _); [|done]. destruct (oldest None _) as [[k q]|]; [by apply warm_delete_ok|done].
Qed.

Lemma code_ok_next cs c : code_ok cs c → code_ok cs (next_generation c).
Proof. intros (Hg & Hf & Hm & Hw). split_and!; [cbn; lia|done..]. Qed.

Lemma code_ok_clear cs c : code_ok cs c → code_ok cs (clearWarm c).
Proof. intros (Hg & Hf & Hm & Hw). split_and!; [cbn; lia|done|done|]. by intros k inst. Qed.

Lemma warm_set_ok cs c m path h now n :
  code_ok cs c → m ∈ tuples cs → own_path m path → from_path cs path h →
  code_ok cs (keep_warm m path h now n c).
Proof.
  intros (Hg & Hf & Hm & Hw) Hin Hp Hh. split_and!; [done..|].
  intros k inst Hk. cbn [warmInstances with_warm keep_warm] in Hk. rewrite map_get_set in Hk.
  case_decide; [injection Hk as <-|by apply Hw]. subst k. by exists m.
Qed.

Lemma acquire_ok cs c meta now :
  code_ok cs c → meta ∈ tuples cs →
  code_ok cs (acquire env meta now c).1 ∧
  ∀ h, (acquire env meta now c).2 = Some h → handler_for cs meta h.
Proof.
  intros Hc Hin. unfold acquire. destruct (map_get (warmInstances c) (cacheKey meta)) as [inst|] eqn:Ek.
  - pose proof Hc as (_ & _ & _ & Hw). destruct (Hw _ _ Ek) as (m & Hk & Hm & Hp & Hh).
    cbn [fst snd]. split.
    + destruct Hc as (Hg & Hf & Hmod & _). split_and!; [done..|]. intros k i Hki.
      cbn [warmInstances with_warm] in Hki. rewrite map_get_set in Hki.
      case_decide; [injection Hki as <-|by apply Hw]. subst k. by exists m.
    + intros h [= <-]. exists m, (filePath inst). split_and!; [by apply cacheKey_tuple|done..].
  - split; [by apply code_ok_next, code_ok_evict|done].
Qed.

Lemma import_ok cs c path :
  code_ok cs c → ∀ c' o gs, import_module env path c = (c', o, gs) →
  code_ok cs c' ∧ ∀ h gs', o = HasHandler h gs' → from_path cs path h.
Proof.
  intros Hc c' o gs. unfold import_module. pose proof Hc as (Hg & Hf & Hm & Hw).
  destruct (map_get (modules c) path) as [o'|] eqn:Em; [|destruct (map_get (files c) path) as [b|] eqn:Ef].
  - intros [= <- <- <-]. split; [done|]. intros h gs' ->. destruct (Hm _ _ Em) as (b & Hb & He).
    by exists b, gs'.
  - intros [= <- <- <-]. split.
    + split_and!; [done..| |done]. intros p o Hp. cbn [modules] in Hp. rewrite map_get_set in Hp.
      case_decide; [injection Hp as <-; subst; eauto|eauto].
    + intros h gs' He. exists b, gs'. eauto.
  - intros [= <- <- <-]. by split.
Qed.

Lemma write_file_ok cs c path b : code_ok cs c → given cs path b → code_ok cs (write_file path b c).
Proof.
  intros (Hg & Hf & Hm & Hw) Hb. split_and!; [done| |done..].
  intros p b' Hp. cbn [files write_file] in Hp. rewrite map_get_set in Hp.
  case_decide; [injection Hp as <-; by subst|eauto].
Qed.

(** *** The steps of a task *)

(** A phase that says nothing about code *)
Definition neutral (p : phase (St:=St) (Hd:=Hd)) : bool :=
  match p with WritingFile _ _ | Importing _ | ResolvingSecrets _ => false | _ => true end.

Lemma neutral_ok cs t : neutral (t_phase t) = true → task_code_ok cs t.
Proof. unfold task_code_ok. by destruct (t_phase t). Qed.

Lemma loaded_handler_ok cs t h : handler_for cs (meta_of t) h → task_code_ok cs (loaded_handler t h).
Proof. unfold loaded_handler, task_code_ok. by destruct (t_prewarm (t_call t)). Qed.

Lemma tuples_last cs call : t_meta call ∈ tuples (cs ++ [call]).
Proof. unfold tuples. rewrite fmap_app. set_solver. Qed.

Lemma run_start_ok cs message artifact limits invocation now c c' t :
  code_ok cs c → run_start env message artifact limits invocation now c = (c', t) →
  code_ok (cs ++ [t_call t]) c' ∧ task_code_ok (cs ++ [t_call t]) t.
Proof.
  intros Hc. apply (code_ok_mono _ (cs ++ [t_call t])) in Hc; [|set_solver]. unfold run_start.
  destruct (checkCallDepth _ _) as [hop|[code| | | |]];
    try (intros [= <- <-]; split; [exact Hc|by apply neutral_ok]).
  destruct (createKillEnforcer _) as [ke|e]; [|intros [= <- <-]; split; [exact Hc|by apply neutral_ok]].
  set (meta := extractMetadata env artifact invocation) in *.
  set (t0 := start_timer _). destruct (acquire env meta now c) as [c1 [h|]] eqn:Ea;
    intros [= <- Ht]; assert (t_call t = t_call t0) as Hcall by (by rewrite <-Ht);
    (assert (meta ∈ tuples (cs ++ [t_call t])) as Hin by (rewrite Hcall; apply (tuples_last cs (t_call t0))));
    destruct (acquire_ok _ c meta now Hc Hin) as [Hc1 Hh]; rewrite Ea in Hc1, Hh; (split; [exact Hc1|]).
  - rewrite <-Ht at 2. apply loaded_handler_ok. by apply Hh.
  - rewrite <-Ht at 2. by apply neutral_ok.
Qed.

Lemma prewarm_start_ok cs artifact now c c' t :
  code_ok cs c → prewarm_start env artifact now c = (c', t) →
  code_ok (cs ++ [t_call t]) c' ∧ task_code_ok (cs ++ [t_call t]) t.
Proof.
  intros Hc. apply (code_ok_mono _ (cs ++ [t_call t])) in Hc; [|set_solver]. unfold prewarm_start.
  set (meta := extractMetadata env artifact None) in *. set (t0 := new_task _ _).
  destruct (map_has _ _); [intros [= <- <-]; split; [exact Hc|by apply neutral_ok]|].
  destruct (acquire env meta now c) as [c1 [h|]] eqn:Ea;
    intros [= <- Ht]; assert (t_call t = t_call t0) as Hcall by (by rewrite <-Ht);
    (assert (meta ∈ tuples (cs ++ [t_call t])) as Hin by (rewrite Hcall; apply (tuples_last cs (t_call t0))));
    destruct (acquire_ok _ c meta now Hc Hin) as [Hc1 Hh]; rewrite Ea in Hc1, Hh; (split; [exact Hc1|]).
  - rewrite <-Ht at 2. apply loaded_handler_ok. by apply Hh.
  - rewrite <-Ht at 2. by apply neutral_ok.
Qed.

Lemma load_failed_ok cs t e u : task_code_ok cs (load_failed t e u).
Proof. by apply neutral_ok. Qed.

Lemma load_error_ok cs t e : task_code_ok cs (load_error t e).
Proof. by destruct e. Qed.

Lemma code_read_ok cs file t c :
  code_ok cs c → t_call t ∈ cs →
  code_ok cs (code_read env file t c).1 ∧ task_code_ok cs (code_read env file t c).2.
Proof.
  intros Hc Hin. unfold code_read. destruct (getArtifactCodeBytes _ _) as [b|e] eqn:Eb; cbn [fst snd].
  - split; [done|]. cbn. split.
    + exists (fileGeneration c). split; [apply Hc|done].
    + by exists (t_call t), file.
  - split; [done|apply load_error_ok].
Qed.

Lemma file_written_ok cs ok path b t c :
  code_ok cs c → task_code_ok cs t → t_phase t = WritingFile path b →
  code_ok cs (file_written ok path b t c).1 ∧ task_code_ok cs (file_written ok path b t c).2.
Proof.
  intros Hc Ht Hp. unfold task_code_ok in Ht. rewrite Hp in Ht. destruct Ht as [Hown Hpres].
  unfold file_written. destruct ok; cbn [fst snd]; [|split; [done|apply load_error_ok]].
  split; [|done]. apply write_file_ok; [done|]. destruct Hown as (g & Hg & ->).
  by exists (meta_of t), g.
Qed.

Lemma imported_ok cs path now t c c' t' gs :
  code_ok cs c → task_code_ok cs t → t_phase t = Importing path → t_call t ∈ cs →
  imported env path now t c = (c', t', gs) → code_ok cs c' ∧ task_code_ok cs t'.
Proof.
  intros Hc Ht Hp Hin. unfold task_code_ok in Ht. rewrite Hp in Ht. unfold imported.
  destruct (import_module env path c) as [[c1 o] gs1] eqn:Ei.
  destruct (import_ok cs c path Hc _ _ _ Ei) as [Hc1 Hh].
  destruct o as [e|gl|h gl]; intros [= <- <- <-]; try (split; [done|apply load_failed_ok]).
  assert (meta_of t ∈ tuples cs) as Hm by (apply list_elem_of_fmap; by exists (t_call t)).
  specialize (Hh h gl eq_refl). split; [by apply warm_set_ok|].
  apply loaded_handler_ok. exists (meta_of t), path. by split_and!.
Qed.

(** After the handler has begun no phase says anything about code. *)
Lemma finish_call t r rest g : t_call (finish t r rest g).1 = t_call t ∧ neutral (t_phase (finish t r rest g).1) = true.
Proof. done. Qed.

Lemma read_response_neutral (v : handler_value St Hd) ms : neutral (read_response v ms) = true.
Proof. by destruct v. Qed.

Lemma advance_call t p now g : t_call (advance t p now g).1 = t_call t ∧ neutral (t_phase (advance t p now g).1) = true.
Proof. destruct p; [split; [done|apply read_response_neutral]|done..]. Qed.

Lemma begin_call t p now g :
  t_call (begin_handler t p now g).1 = t_call t ∧ neutral (t_phase (begin_handler t p now g).1) = true.
Proof. unfold begin_handler. destruct (is_aborted t); [|apply advance_call].
  destruct p; [split; [done|apply read_response_neutral]|done..]. Qed.

Lemma secrets_call view ulid now h t s g :
  t_call (secrets_resolved env view ulid now h t s g).1.1 = t_call t ∧
  neutral (t_phase (secrets_resolved env view ulid now h t s g).1.1) = true.
Proof.
  unfold secrets_resolved. destruct (negb _); [done|].
  match goal with |- context [begin_handler ?t ?p ?n ?g] => pose proof (begin_call t p n g) as Hb;
    destruct (begin_handler t p n g) as [t' g'] end. exact Hb.
Qed.

Lemma answer_call_task ulids now x t s g :
  t_call (answer_call env ulids now x t s g).1.1.1 = t_call t ∧
  t_phase (answer_call env ulids now x t s g).1.1.1 = t_phase t.
Proof.
  destruct x; cbn [answer_call]; [|done..].
  destruct (call_binding _ _ _ _ _ _) as [b r]. done.
Qed.

Lemma handler_step_call ulids now t s g :
  t_call (handler_step env ulids now t s g).1.1 = t_call t ∧
  (neutral (t_phase t) = true → neutral (t_phase (handler_step env ulids now t s g).1.1) = true) ∧
  (neutral (t_phase t) = false → (handler_step env ulids now t s g).1.1 = t).
Proof.
  unfold handler_step. destruct (t_phase t) as [|path b|path|h|p|st hd ms p|o [p|]] eqn:Ep;
    try (cbn; rewrite ?Ep; done).
  - destruct p as [v|e|x k]; [by cbn; rewrite ?Ep..|]. pose proof (answer_call_task ulids now x t s g) as [Hc _].
    destruct (answer_call _ _ _ _ _ _ _) as [[[t1 s1] g1] r]. pose proof (advance_call t1 (k r) now g1) as [Ha Hn].
    destruct (advance _ _ _ _) as [t2 g2]. cbn in *. split_and!; [congruence|done|done].
  - destruct p as [v|e|x k]; [done..|]. pose proof (answer_call_task ulids now x t s g) as [Hc _].
    destruct (answer_call _ _ _ _ _ _ _) as [[[t1 s1] g1] r]. done.
  - destruct p as [v|e|x k]; [by cbn; rewrite ?Ep..|]. pose proof (answer_call_task ulids now x t s g) as [Hc _].
    destruct (answer_call _ _ _ _ _ _ _) as [[[t1 s1] g1] r]. done.
Qed.

Lemma timer_call t g :
  t_call (timer_fired t g).1 = t_call t ∧
  ((t_phase (timer_fired t g).1 = t_phase t) ∨ neutral (t_phase (timer_fired t g).1) = true).
Proof.
  unfold timer_fired. destruct (timer_pending _); [|by split; [|left]].
  destruct (t_phase t) eqn:E; cbn; rewrite ?E; (split; [done|]); tauto.
Qed.

(** *** All steps *)

Lemma Forall_alter_task w i t :
  Forall (task_code_ok (calls w)) (tasks w) → task_code_ok (calls w) t →
  Forall (task_code_ok (calls w)) (<[i := t]> (tasks w)).
Proof. intros. by apply Forall_insert. Qed.

Lemma with_task_ok w i t0 t c s g :
  tasks w !! i = Some t0 → t_call t = t_call t0 → Forall (task_code_ok (calls w)) (tasks w) →
  code_ok (calls w) c → task_code_ok (calls w) t → world_code_ok (with_task w i t c s g).
Proof.
  intros Hi Hcall Hall Hc Ht.
  assert (calls (with_task w i t c s g) = calls w) as Hcs.
  { unfold calls, with_task. cbn [tasks]. rewrite list_fmap_insert, Hcall. apply list_insert_id.
    by rewrite list_lookup_fmap, Hi. }
  unfold world_code_ok. rewrite Hcs. split; [done|]. by apply Forall_insert.
Qed.

Lemma add_task_ok w c t :
  Forall (task_code_ok (calls w)) (tasks w) → code_ok (calls w ++ [t_call t]) c →
  task_code_ok (calls w ++ [t_call t]) t → world_code_ok (add_task w c t).
Proof.
  intros Hall Hc Ht. unfold world_code_ok, calls, add_task. cbn [tasks code]. rewrite fmap_app.
  split; [done|]. apply Forall_app. split; [|by apply Forall_singleton].
  eapply Forall_impl; [exact Hall|]. intros t'. apply task_code_ok_mono. set_solver.
Qed.

Lemma step_code_ok ev w : world_code_ok w → world_code_ok (step env ev w).
Proof.
  intros [Hc Hall].
  assert (∀ i t, tasks w !! i = Some t → task_code_ok (calls w) t ∧ t_call t ∈ calls w) as Hat.
  { intros i t Hi. split; [by eapply Forall_lookup_1|].
    apply list_elem_of_fmap. exists t. split; [done|by eapply list_elem_of_lookup_2]. }
  destruct ev as [message artifact limits invocation now|artifact now| |i file|i ok|i now|i view ulid now|i ulids now|i];
    cbn [step].
  - destruct (run_start _ _ _ _ _ _ _) as [c t] eqn:E. destruct (run_start_ok _ _ _ _ _ _ _ _ _ Hc E).
    by apply add_task_ok.
  - destruct (prewarm_start _ _ _ _) as [c t] eqn:E. destruct (prewarm_start_ok _ _ _ _ _ _ Hc E).
    by apply add_task_ok.
  - split; [by apply code_ok_clear|done].
  - destruct (tasks w !! i) as [t|] eqn:Ei; [|done]. destruct (Hat i t Ei) as [Ht Hin].
    destruct (t_phase t); try done. pose proof (code_read_ok _ file t _ Hc Hin) as [Hc' Ht'].
    assert (t_call (code_read env file t (code w)).2 = t_call t) as Hcall.
    { unfold code_read. destruct (getArtifactCodeBytes _ _) as [|[]]; done. }
    destruct (code_read _ _ _ _) as [c t']. by eapply with_task_ok.
  - destruct (tasks w !! i) as [t|] eqn:Ei; [|done]. destruct (Hat i t Ei) as [Ht Hin].
    destruct (t_phase t) as [|path b| | | | |] eqn:Ep; try done.
    pose proof (file_written_ok _ ok path b t _ Hc Ht Ep) as [Hc' Ht'].
    assert (t_call (file_written ok path b t (code w)).2 = t_call t) as Hcall by (by destruct ok).
    destruct (file_written _ _ _ _ _) as [c t']. by eapply with_task_ok.
  - destruct (tasks w !! i) as [t|] eqn:Ei; [|done]. destruct (Hat i t Ei) as [Ht Hin].
    destruct (t_phase t) as [| |path| | | |] eqn:Ep; try done.
    destruct (imported env path now t (code w)) as [[c t'] gs] eqn:E.
    destruct (imported_ok _ _ _ _ _ _ _ _ Hc Ht Ep Hin E) as [Hc' Ht'].
    assert (t_call t' = t_call t) as Hcall.
    { unfold imported in E. destruct (import_module _ _ _) as [[c1 []] gs1]; by injection E as _ <- _. }
    by eapply with_task_ok.
  - destruct (tasks w !! i) as [t|] eqn:Ei; [|done]. destruct (t_phase t) as [| | |h| | |] eqn:Ep; try done.
    pose proof (secrets_call view ulid now h t (shared w) (realm w)) as [Hcall Hn].
    destruct (secrets_resolved _ _ _ _ _ _ _ _) as [[t' s] g]. cbn in Hcall, Hn.
    eapply with_task_ok; [done..|by apply neutral_ok].
  - destruct (tasks w !! i) as [t|] eqn:Ei; [|done]. destruct (Hat i t Ei) as [Ht _].
    pose proof (handler_step_call ulids now t (shared w) (realm w)) as (Hcall & Hn & Hsame).
    destruct (handler_step _ _ _ _ _ _) as [[t' s] g]. cbn in *.
    eapply with_task_ok; [done..|]. destruct (neutral (t_phase t)).
    + apply neutral_ok. by apply Hn.
    + by rewrite Hsame.
  - destruct (tasks w !! i) as [t|] eqn:Ei; [|done]. destruct (Hat i t Ei) as [Ht _].
    pose proof (timer_call t (realm w)) as [Hcall Hph]. destruct (timer_fired _ _) as [t' g]. cbn in *.
    eapply with_task_ok; [done..|]. destruct Hph as [Hp|Hn]; [|by apply neutral_ok].
    unfold task_code_ok in *. rewrite Hp, Hcall. done.
Qed.

Lemma steps_code_ok evs w : world_code_ok w → world_code_ok (steps env evs w).
Proof. unfold steps. revert w. induction evs as [|ev evs IH]; intros w Hw; [done|]. apply IH. by apply step_code_ok. Qed.

Lemma new_provider_code_ok r o g : world_code_ok (new_provider r o g).
Proof. split; [|done]. split_and!; [cbn; lia|done..]. Qed.


(** ** What becomes of an invocation *)

(** The deadline is armed, or has passed. *)
Definition armed_or_aborted t : Prop := timer_pending (t_timer t) = true ∨ is_aborted t = true.

Definition task_ok t : Prop :=
  tracker_ok (t_tracker t) ∧ 1 <= t_nextHop (t_call t) <= DEFAULT_MAX_CALL_DEPTH ∧
  match t_phase t with
  | Running _ => timer_pending (t_timer t) = true
  | ReadingBody _ _ _ _ => True
  | p =>
      t_secrets t = [] ∧
      match p with
      | ResolvingSecrets _ => armed_or_aborted t
      | Settled _ _ => True
      | _ => t_prewarm (t_call t) = true ∨ armed_or_aborted t
      end
  end.

Lemma env_nothing t : t_secrets t = [] → ∀ k, env_value t k = None.
Proof. unfold env_value. intros -> k. by destruct (t_activeEnv t). Qed.

(** A task as it is before its handler begins *)
Definition early t : Prop :=
  tracker_ok (t_tracker t) ∧ 1 <= t_nextHop (t_call t) <= DEFAULT_MAX_CALL_DEPTH ∧ t_secrets t = [].

Lemma early_ok t :
  early t →
  match t_phase t with
  | Running _ | ReadingBody _ _ _ _ => False
  | ResolvingSecrets _ => armed_or_aborted t
  | Settled _ _ => True
  | _ => t_prewarm (t_call t) = true ∨ armed_or_aborted t
  end → task_ok t.
Proof.
  intros (Ht & Hh & Hs) Hp. split; [done|]. split; [done|]. by destruct (t_phase t).
Qed.

Lemma num_of_digits_nonneg ds : forallb is_digit ds = true → 0 <= num_of_digits ds.
Proof.
  induction ds as [|c ds IH] using rev_ind; [done|]. rewrite forallb_app, num_of_digits_app. cbn.
  rewrite andb_true_r, andb_true_iff. intros [Hds Hc]. specialize (IH Hds).
  unfold is_digit in Hc. zbool. lia.
Qed.

Lemma hop_range h n : checkCallDepth h (createInvocationTracker None) = Ok n → 1 <= n <= DEFAULT_MAX_CALL_DEPTH.
Proof.
  unfold checkCallDepth. destruct h as [[|c header]|]; try (intros [= <-]; vm_compute; split; discriminate).
  intros Hn. apply bind_Ok in Hn as (_ & Hdig%throw_if_Ok & Hn).
  apply bind_Ok in Hn as (_ & Hm%throw_if_Ok & [= <-]).
  apply Z.ltb_ge in Hm.
  change (maxCallDepth (createInvocationTracker None)) with DEFAULT_MAX_CALL_DEPTH in Hm.
  apply negb_false_iff, andb_true_iff in Hdig as [_ Hdig]. apply num_of_digits_nonneg in Hdig.
  lia.
Qed.

Lemma new_task_early call p : 1 <= t_nextHop call <= DEFAULT_MAX_CALL_DEPTH → early (new_task call p).
Proof. intros Hh. split; [apply fresh_tracker_ok|done]. Qed.

Lemma first_hop : 1 <= 1 <= DEFAULT_MAX_CALL_DEPTH.
Proof. vm_compute. split; discriminate. Qed.

Lemma run_start_task message artifact limits invocation now c c' t :
  run_start env message artifact limits invocation now c = (c', t) → task_ok t.
Proof.
  unfold run_start.
  destruct (checkCallDepth _ _) as [hop|e] eqn:Eh.
  - apply hop_range in Eh. destruct (createKillEnforcer _) as [ke|e].
    2: { intros [= <- <-]. apply early_ok; [by apply new_task_early|done]. }
    destruct (acquire _ _ _ _) as [c1 [h|]]; intros [= <- <-];
      (apply early_ok; [by apply new_task_early|]); [|by right; left]. by left.
  - destruct e; intros [= <- <-]; (apply early_ok; [apply new_task_early, first_hop|done]).
Qed.

Lemma prewarm_start_task artifact now c c' t : prewarm_start env artifact now c = (c', t) → task_ok t.
Proof.
  unfold prewarm_start.
  destruct (map_has _ _); [|destruct (acquire _ _ _ _) as [c1 [h|]]]; intros [= <- <-];
    (apply early_ok; [apply new_task_early, first_hop|]); try done. by left.
Qed.

(** The tasks that are still being loaded have no secrets yet. *)
Definition loading (p : phase (St:=St) (Hd:=Hd)) : bool :=
  match p with ReadingCode | WritingFile _ _ | Importing _ => true | _ => false end.

Lemma load_failed_task t e u : early t → task_ok (load_failed t e u).
Proof. intros He. by apply early_ok. Qed.

Lemma load_error_task t e : early t → task_ok (load_error t e).
Proof. intros He. destruct e; by apply load_failed_task. Qed.

Lemma loaded_handler_task t h :
  early t → t_prewarm (t_call t) = true ∨ armed_or_aborted t → task_ok (loaded_handler t h).
Proof.
  intros He Ha. apply early_ok; [done|]. unfold loaded_handler. cbn.
  destruct (t_prewarm (t_call t)); [done|]. by destruct Ha.
Qed.

Lemma imported_task path now t :
  early t → t_prewarm (t_call t) = true ∨ armed_or_aborted t → ∀ c c' t' gs,
  imported env path now t c = (c', t', gs) → task_ok t'.
Proof.
  intros He Ha c c' t' gs. unfold imported. destruct (import_module _ _ _) as [[c1 [|gl|h gl]] gs1];
    intros [= <- <- <-]; [by apply load_failed_task..|by apply loaded_handler_task].
Qed.

(** *** The handler *)

(** What a task keeps while its handler runs *)
Definition budget_ok t : Prop :=
  tracker_ok (t_tracker t) ∧ 1 <= t_nextHop (t_call t) <= DEFAULT_MAX_CALL_DEPTH.

Lemma finish_task t r rest g : budget_ok t → task_ok (finish t r rest g).1.
Proof. intros [Ht Hh]. split; [done|]. split; [done|]. cbn. by split. Qed.

Lemma reading_task t (v : handler_value St Hd) ms : budget_ok t → task_ok (at_phase t (read_response v ms)).
Proof. intros [Ht Hh]. split; [done|]. split; [done|]. by destruct v. Qed.

Lemma advance_task t p now g :
  budget_ok t → timer_pending (t_timer t) = true → task_ok (advance t p now g).1.
Proof.
  intros Hb Hp. destruct p; [by apply reading_task|by apply finish_task|]. destruct Hb as [Ht Hh]. by split; [|split].
Qed.

Lemma begin_task t p now g : budget_ok t → armed_or_aborted t → task_ok (begin_handler t p now g).1.
Proof.
  intros Hb Ha. unfold begin_handler. destruct (is_aborted t) eqn:E.
  - destruct p; [by apply reading_task|by apply finish_task..].
  - apply advance_task; [done|]. destruct Ha as [Ha|Ha]; [done|congruence].
Qed.

Lemma secrets_task view ulid now h t s g :
  task_ok t → t_phase t = ResolvingSecrets h →
  task_ok (secrets_resolved env view ulid now h t s g).1.1.
Proof.
  intros (Ht & Hh & Hp) Hph. rewrite Hph in Hp. destruct Hp as [Henv Ha]. unfold secrets_resolved.
  destruct (negb _); [split; [done|]; split; [done|]; by split|].
  match goal with |- context [begin_handler ?t ?p ?n ?g] => pose proof (begin_task t p n g) as Hb;
    destruct (begin_handler t p n g) as [t' g'] end. by apply Hb.
Qed.

Lemma answer_call_env ulids now x t s g :
  let t' := (answer_call env ulids now x t s g).1.1.1 in
  (budget_ok t → budget_ok t') ∧ t_timer t' = t_timer t ∧ t_secrets t' = t_secrets t.
Proof.
  destruct x; cbn [answer_call]; [|by split_and!..].
  pose proof (perform_tracker (hasReplica env) (tenantOrg env (meta_of t)) (m_project (meta_of t))
    (fs_of env (tenantObjectsDir env (meta_of t))) (encode_json env) (m_project (meta_of t))
    (hasDispatcher env) ulids now c (bindings_of env t s)) as Htr.
  fold (call_binding env ulids now c t s) in Htr.
  destruct (call_binding _ _ _ _ _ _) as [b r]. cbn in *. split_and!; [|done..].
  intros [Ht Hh]. split; [by apply Htr|done].
Qed.

Lemma handler_step_task ulids now t s g :
  task_ok t → task_ok (handler_step env ulids now t s g).1.1.
Proof.
  intros Hok. pose proof Hok as (Ht & Hh & Hp). unfold handler_step.
  destruct (t_phase t) as [|path b|path|h|[v|e|x k]|st hd ms [v|e|x k]|o [[v|e|x k]|]] eqn:Ep; try exact Hok.
  - destruct (answer_call_env ulids now x t s g) as (Hb & Htm & _).
    destruct (answer_call _ _ _ _ _ _ _) as [[[t1 s1] g1] r]. cbn in *.
    pose proof (advance_task t1 (k r) now g1 (Hb (conj Ht Hh)) ltac:(by rewrite Htm)) as Ha.
    by destruct (advance _ _ _ _).
  - by apply (finish_task t _ None g).
  - by apply (finish_task t _ None g).
  - destruct (answer_call_env ulids now x t s g) as (Hb & _ & _).
    destruct (answer_call _ _ _ _ _ _ _) as [[[t1 s1] g1] r]. by destruct (Hb (conj Ht Hh)).
  - destruct (answer_call_env ulids now x t s g) as (Hb & Htm & He).
    destruct (answer_call _ _ _ _ _ _ _) as [[[t1 s1] g1] r]. cbn in *.
    destruct (Hb (conj Ht Hh)) as [Ht1 Hh1]. split; [done|]. split; [done|]. cbn. split; [|done].
    rewrite He. by apply Hp.
Qed.

Lemma timer_task t g : task_ok t → task_ok (timer_fired t g).1.
Proof.
  intros Hok. pose proof Hok as (Ht & Hh & Hp). unfold timer_fired.
  destruct (timer_pending (t_timer t)) eqn:Et; [|done].
  assert (is_aborted (with_timer t (timer_fires (t_timer t))) = true) as Hab.
  { unfold is_aborted, timer_fires. cbn. by rewrite Et. }
  change (t_phase (with_timer t (timer_fires (t_timer t)))) with (t_phase t).
  destruct (t_phase t) as [| | | |p|st hd ms p|o rest] eqn:Ep; cbn [fst].
  5: by apply finish_task.
  5: by (split; [done|]; split; [done|]; cbn; rewrite Ep).
  all: split; [done|]; split; [done|]; cbn; rewrite Ep; destruct Hp as [Henv Hp]; split; try done;
    try (right; by right). by right.
Qed.

(** *** All steps *)

Lemma loading_early t :
  task_ok t → loading (t_phase t) = true → early t ∧ (t_prewarm (t_call t) = true ∨ armed_or_aborted t).
Proof. intros (Ht & Hh & Hp) Hl. unfold early. destruct (t_phase t); try done; destruct Hp; tauto. Qed.

Lemma step_tasks_ok ev w : Forall task_ok (tasks w) → Forall task_ok (tasks (step env ev w)).
Proof.
  intros Hall.
  assert (∀ i t, tasks w !! i = Some t → task_ok t) as Hat by (intros i t Hi; by eapply Forall_lookup_1).
  destruct ev as [message artifact limits invocation now|artifact now| |i file|i ok|i now|i view ulid now|i ulids now|i];
    cbn [step]; [..|done|idtac|idtac|idtac|idtac|idtac|idtac];
    try (destruct (tasks w !! i) as [t|] eqn:Ei; [specialize (Hat i t Ei)|done]).
  - destruct (run_start _ _ _ _ _ _ _) as [c t] eqn:E. apply run_start_task in E.
    cbn. apply Forall_app. split; [done|by apply Forall_singleton].
  - destruct (prewarm_start _ _ _ _) as [c t] eqn:E. apply prewarm_start_task in E.
    cbn. apply Forall_app. split; [done|by apply Forall_singleton].
  - destruct (t_phase t) eqn:Ep; try done. destruct (loading_early t Hat) as [He Ha]; [by rewrite Ep|].
    unfold code_read. destruct (getArtifactCodeBytes _ _); apply Forall_insert; try done;
      [apply early_ok; [exact He|exact Ha]|by apply load_error_task].
  - destruct (t_phase t) eqn:Ep; try done. destruct (loading_early t Hat) as [He Ha]; [by rewrite Ep|].
    unfold file_written. destruct ok; apply Forall_insert; try done;
      [apply early_ok; [exact He|exact Ha]|by apply load_error_task].
  - destruct (t_phase t) eqn:Ep; try done. destruct (loading_early t Hat) as [He Ha]; [by rewrite Ep|].
    destruct (imported _ _ _ _ _) as [[c t'] gs] eqn:E. apply Forall_insert; [done|]. by eapply imported_task.
  - destruct (t_phase t) as [| | |h| | |] eqn:Ep; try done.
    pose proof (secrets_task view ulid now h t (shared w) (realm w) Hat Ep) as Hs.
    destruct (secrets_resolved _ _ _ _ _ _ _ _) as [[t' s] g]. by apply Forall_insert.
  - pose proof (handler_step_task ulids now t (shared w) (realm w) Hat) as Hs.
    destruct (handler_step _ _ _ _ _ _) as [[t' s] g]. by apply Forall_insert.
  - pose proof (timer_task t (realm w) Hat) as Hs. destruct (timer_fired _ _) as [t' g]. by apply Forall_insert.
Qed.

Lemma steps_tasks_ok evs w : Forall task_ok (tasks w) → Forall task_ok (tasks (steps env evs w)).
Proof. unfold steps. revert w. induction evs as [|ev evs IH]; intros w Hw; [done|]. apply IH. by apply step_tasks_ok. Qed.

(** A settled invocation stays settled as it is. *)
Lemma step_settled ev w i t o rest :
  tasks w !! i = Some t → t_phase t = Settled o rest →
  ∃ t' rest', tasks (step env ev w) !! i = Some t' ∧ t_phase t' = Settled o rest'.
Proof.
  intros Hi Hp.
  assert (∀ c s g j t', (j = i → ∃ rest', t_phase t' = Settled o rest') →
    ∃ t'' rest', tasks (with_task w j t' c s g) !! i = Some t'' ∧ t_phase t'' = Settled o rest') as Hset.
  { intros c s g j t' Ht'. cbn. destruct (decide (j = i)) as [->|Hne].
    - destruct (Ht' eq_refl) as [rest' Hr]. exists t', rest'. split; [|done].
      apply list_lookup_insert_eq. by eapply lookup_lt_Some.
    - rewrite list_lookup_insert_ne by done. by exists t, rest. }
  assert (∀ j t0, tasks w !! j = Some t0 → j = i → t0 = t) as Heq by (intros j t0 Hj ->; congruence).
  assert (∃ t' rest', tasks w !! i = Some t' ∧ t_phase t' = Settled o rest') as Hsame by (by exists t, rest).
  assert (∀ c t', ∃ t'' rest', tasks (add_task w c t') !! i = Some t'' ∧ t_phase t'' = Settled o rest') as Hadd.
  { intros c t'. exists t, rest. split; [|done]. cbn. by apply lookup_app_l_Some. }
  destruct ev as [message artifact limits invocation now|artifact now| |j file|j ok|j now|j view ulid now|j ulids now|j];
    cbn [step]; [..|exact Hsame|idtac|idtac|idtac|idtac|idtac|idtac];
    try (destruct (tasks w !! j) as [t0|] eqn:Ej; [specialize (Heq j t0 Ej)|exact Hsame]).
  - by destruct (run_start _ _ _ _ _ _ _).
  - by destruct (prewarm_start _ _ _ _).
  - destruct (t_phase t0) eqn:Ep; try exact Hsame. destruct (code_read _ _ _ _) as [c t'].
    apply Hset. intros Hji. rewrite (Heq Hji) in Ep. congruence.
  - destruct (t_phase t0) eqn:Ep; try exact Hsame. destruct (file_written _ _ _ _ _) as [c t'].
    apply Hset. intros Hji. rewrite (Heq Hji) in Ep. congruence.
  - destruct (t_phase t0) eqn:Ep; try exact Hsame. destruct (imported _ _ _ _ _) as [[c t'] gs].
    apply Hset. intros Hji. rewrite (Heq Hji) in Ep. congruence.
  - destruct (t_phase t0) eqn:Ep; try exact Hsame. destruct (secrets_resolved _ _ _ _ _ _ _ _) as [[t' s] g].
    apply Hset. intros Hji. rewrite (Heq Hji) in Ep. congruence.
  - destruct (handler_step env ulids now t0 (shared w) (realm w)) as [[t' s] g] eqn:E. apply Hset.
    intros Hji. rewrite (Heq Hji) in E. unfold handler_step in E. rewrite Hp in E.
    destruct rest as [[v|e|x k]|]; try (injection E as <- _ _; eauto).
    destruct (answer_call _ _ _ _ _ _ _) as [[[t1 s1] g1] r]. injection E as <- _ _. cbn. eauto.
  - destruct (timer_fired t0 (realm w)) as [t' g] eqn:E. apply Hset. intros Hji. rewrite (Heq Hji) in E.
    unfold timer_fired in E. destruct (timer_pending _); [|injection E as <- _; eauto].
    cbn in E. rewrite Hp in E. injection E as <- _. cbn. eauto.
Qed.

Lemma steps_settled evs : ∀ w i t o rest,
  tasks w !! i = Some t → t_phase t = Settled o rest →
  ∃ t' rest', tasks (steps env evs w) !! i = Some t' ∧ t_phase t' = Settled o rest'.
Proof.
  induction evs as [|ev evs IH]; intros w i t o rest Hi Hp; [by exists t, rest|].
  destruct (step_settled ev w i t o rest Hi Hp) as (t' & rest' & Hi' & Hp'). by eapply IH.
Qed.

(** The wait for the body of a response *)
Lemma body_step ulids now t s g st hd ms p :
  t_phase t = ReadingBody st hd ms p →
  t_phase (handler_step env ulids now t s g).1.1 =
    match p with
    | Return bytes =>
        Settled (Returned {| r_statusCode := st; r_headers := hd; r_body := bytes; r_cpuTimeMs := ms; r_wallClockMs := ms |})
          None
    | Raise e => Settled (Returned (formatErrorResult (if is_aborted t then deadline_exceeded else error_of e))) None
    | Perform c k => ReadingBody st hd ms (k (answer_call env ulids now c t s g).2)
    end.
Proof.
  intros Hp. unfold handler_step. rewrite Hp. destruct p as [v|e|x k]; [done..|].
  by destruct (answer_call _ _ _ _ _ _ _) as [[[t1 s1] g1] r].
Qed.

(** C28: The life of an invocation (FN-5, FN-7, PLAT-12, PLAT-15), over every
    interleaving of invocations, prewarming and evictions, and for arbitrary
    handlers.  At every moment it has been granted at most 1,000 key-value, 100
    object and 100 queue operations, and its handler sees a call depth between 1
    and 8.  Unless its handler is running or the body of its response is being
    read it holds no secret, so that a handler that goes on after the deadline
    reads nothing from [ctx.env] any more.  While the handler has not come to a
    response the deadline is armed, and when it passes the invocation settles at
    once with [TIMEOUT] (504), whatever the handler does.  The deadline does not
    cut off the body of a response: the invocation goes on reading it, settles
    with the response's status when it ends, and with the error, or [TIMEOUT]
    after the deadline, when it fails.  Once the invocation has settled, its
    result never changes. *)
Theorem invocation_lifecycle evs r o g i t :
  let w := steps env evs (new_provider r o g) in
  tasks w !! i = Some t →
  tracker_ok (t_tracker t) ∧ 1 <= t_nextHop (t_call t) <= DEFAULT_MAX_CALL_DEPTH ∧
  match t_phase t with
  | Running p =>
      timer_pending (t_timer t) = true ∧
      ∃ t', tasks (step env (TimerFired i) w) !! i = Some t' ∧
        t_phase t' = Settled (Returned (formatErrorResult deadline_exceeded)) (Some p)
  | ReadingBody st hd ms p =>
      (∃ t', tasks (step env (TimerFired i) w) !! i = Some t' ∧ t_phase t' = ReadingBody st hd ms p) ∧
      ∀ ulids now, ∃ t', tasks (step env (HandlerStep i ulids now) w) !! i = Some t' ∧
        match p with
        | Return bytes => ∃ r, t_phase t' = Settled (Returned r) None ∧
            r_statusCode r = st ∧ r_headers r = hd ∧ r_body r = bytes
        | Raise e => t_phase t' =
            Settled (Returned (formatErrorResult (if is_aborted t then deadline_exceeded else error_of e))) None
        | Perform _ _ => ∃ p', t_phase t' = ReadingBody st hd ms p'
        end
  | _ => t_secrets t = [] ∧ ∀ k, env_value t k = None
  end ∧
  (∀ out rest evs', t_phase t = Settled out rest →
     ∃ t' rest', tasks (steps env evs' w) !! i = Some t' ∧ t_phase t' = Settled out rest').
Proof.
  cbv zeta. intros Hi. set (w := steps env evs _) in *.
  assert (Forall task_ok (tasks w)) as Hall by (apply steps_tasks_ok; constructor).
  assert (task_ok t) as (Ht & Hh & Hp) by by eapply Forall_lookup_1.
  assert (∀ t' : Task, <[i := t']> (tasks w) !! i = Some t') as Hset.
  { intros t'. apply list_lookup_insert_eq. by eapply lookup_lt_Some. }
  split; [exact Ht|]. split; [exact Hh|]. split; [|by intros; eapply steps_settled].
  destruct (t_phase t) as [| | | |p|st hd ms p|] eqn:Ep;
    try (destruct Hp as [Hs _]; split; [exact Hs|by apply env_nothing]).
  - split; [exact Hp|]. cbn [step]. rewrite Hi. unfold timer_fired. rewrite Hp. cbn [t_phase with_timer]. rewrite Ep.
    eexists. split; [apply Hset|reflexivity].
  - split.
    + cbn [step]. rewrite Hi. unfold timer_fired. destruct (timer_pending (t_timer t)); cbn [t_phase with_timer];
        rewrite ?Ep; (eexists; split; [apply Hset|]); done.
    + intros ulids now. cbn [step]. rewrite Hi. pose proof (body_step ulids now t (shared w) (realm w) _ _ _ _ Ep) as Hb.
      destruct (handler_step _ _ _ _ _ _) as [[t' s] g']. exists t'. split; [apply Hset|]. cbn [fst] in Hb. rewrite Hb.
      destruct p; eauto.
Qed.

(** ** Tenants *)

(** The task that a step belongs to *)
Definition event_task (ev : event) : option nat :=
  match ev with
  | Run _ _ _ _ _ | PrewarmCall _ _ | ClearWarm => None
  | CodeRead i _ | FileWritten i _ | Imported i _ | SecretsResolved i _ _ _ | HandlerStep i _ _ | TimerFired i =>
      Some i
  end.

Definition tenant_of t : jstr * jstr := (tenantOrg env (meta_of t), m_project (meta_of t)).

(** The call of a binding that the handler of [t], or the body of its response,
    has come to *)
Definition pending_call t : option (binding_call (St:=St)) :=
  match t_phase t with
  | Running (Perform (OnBinding c) _) | ReadingBody _ _ _ (Perform (OnBinding c) _)
  | Settled _ (Some (Perform (OnBinding c) _)) => Some c
  | _ => None
  end.

Definition resolving t : bool := match t_phase t with ResolvingSecrets _ => true | _ => false end.

Lemma tenant_key_eq t org project :
  47 ∉ org → 47 ∉ tenantOrg env (meta_of t) →
  bool_decide (tenant_of t = (org, project)) = bool_decide (tenantKey env (meta_of t) = org ++ js "/" ++ project).
Proof.
  intros Ho Ht. apply bool_decide_ext. unfold tenant_of, tenantKey. change (js "/") with [47]. cbn [app].
  split; [by intros [= -> ->]|]. intros [-> ->]%split_at_sep; done.
Qed.

Lemma answer_call_stores ulids now x t s g k :
  map_get (projectKvStores (answer_call env ulids now x t s g).1.1.2) k =
  match x with
  | OnBinding c =>
      if bool_decide (tenantKey env (meta_of t) = k) then Some (store (call_binding env ulids now c t s).1)
      else map_get (projectKvStores s) k
  | _ => map_get (projectKvStores s) k
  end.
Proof.
  destruct x; cbn [answer_call]; [|done..].
  destruct (call_binding _ _ _ _ _ _) as [b r]. cbn. rewrite map_get_set. case_bool_decide; case_decide; done.
Qed.

Lemma handler_step_stores ulids now t s g k :
  map_get (projectKvStores (handler_step env ulids now t s g).1.2) k =
  match pending_call t with
  | Some c =>
      if bool_decide (tenantKey env (meta_of t) = k) then Some (store (call_binding env ulids now c t s).1)
      else map_get (projectKvStores s) k
  | None => map_get (projectKvStores s) k
  end.
Proof.
  unfold handler_step, pending_call.
  destruct (t_phase t) as [|path b|path|h|[v|e|x c]|st hd ms [v|e|x c]|o [[v|e|x c]|]]; try done;
    pose proof (answer_call_stores ulids now x t s g k) as Hs;
    destruct (answer_call _ _ _ _ _ _ _) as [[[t1 s1] g1] r]; cbn [fst snd] in Hs;
    [destruct (advance _ _ _ _)| |]; cbn [fst snd]; rewrite Hs; by destruct x.
Qed.

Lemma secrets_stores view ulid now h t s g k :
  map_get (projectKvStores (secrets_resolved env view ulid now h t s g).1.2) k =
  if bool_decide (tenantKey env (meta_of t) = k) then Some (default [] (map_get (projectKvStores s) k))
  else map_get (projectKvStores s) k.
Proof.
  transitivity (map_get (projectKvStores (ensure_store env (meta_of t) s)) k).
  - unfold secrets_resolved. destruct (negb _); [done|]. by destruct (begin_handler _ _ _ _).
  - unfold ensure_store. case_bool_decide as Hk.
    + rewrite Hk. destruct (map_get (projectKvStores s) k) eqn:E; [done|]. cbn. by rewrite map_get_set_eq.
    + destruct (map_get (projectKvStores s) (tenantKey env (meta_of t))); [done|]. cbn. by rewrite map_get_set_ne.
Qed.

(** C29: What every step of the provider does to the key-value store of an org and
    project (PLAT-7), whatever the handlers do and however they interleave, for
    org identifiers without a slash.  The end of the resolution of secrets of an
    invocation of that tenant creates the store, empty, when there is none; a
    step of a handler (or of the body of its response) of that tenant that calls
    a binding leaves what the binding makes of that store; and no other step
    changes it: none of another tenant's invocations, no load, eviction or clear,
    no timeout and no end of an invocation, not even of the tenant's own. *)
Theorem stores_confined ev w org project :
  47 ∉ org →
  (∀ i t, event_task ev = Some i → tasks w !! i = Some t → 47 ∉ tenantOrg env (meta_of t)) →
  let before := map_get (projectKvStores (shared w)) (org ++ js "/" ++ project) in
  map_get (projectKvStores (shared (step env ev w))) (org ++ js "/" ++ project) =
  match ev with
  | SecretsResolved i _ _ _ =>
      match tasks w !! i with
      | Some t => if resolving t && bool_decide (tenant_of t = (org, project)) then Some (default [] before) else before
      | None => before
      end
  | HandlerStep i ulids now =>
      match tasks w !! i with
      | Some t =>
          match pending_call t with
          | Some c =>
              if bool_decide (tenant_of t = (org, project))
              then Some (store (call_binding env ulids now c t (shared w)).1) else before
          | None => before
          end
      | None => before
      end
  | _ => before
  end.
Proof.
  cbv zeta. intros Horg Hev.
  destruct ev as [message artifact limits invocation now|artifact now| |i file|i ok|i now|i view ulid now|i ulids now|i];
    cbn [step]; try (destruct (tasks w !! i) as [t|] eqn:Ei; [specialize (Hev i t eq_refl Ei)|done]).
  - by destruct (run_start _ _ _ _ _ _ _).
  - by destruct (prewarm_start _ _ _ _).
  - done.
  - destruct (t_phase t); try done. by destruct (code_read _ _ _ _).
  - destruct (t_phase t); try done. by destruct (file_written _ _ _ _ _).
  - destruct (t_phase t); try done. by destruct (imported _ _ _ _ _) as [[c t'] gs].
  - unfold resolving. destruct (t_phase t) as [| | |h| | |]; try done. rewrite tenant_key_eq by done. cbn [andb].
    pose proof (secrets_stores view ulid now h t (shared w) (realm w) (org ++ js "/" ++ project)) as Hs.
    destruct (secrets_resolved _ _ _ _ _ _ _ _) as [[t' s] g]. exact Hs.
  - rewrite tenant_key_eq by done.
    pose proof (handler_step_stores ulids now t (shared w) (realm w) (org ++ js "/" ++ project)) as Hs.
    destruct (handler_step _ _ _ _ _ _) as [[t' s] g]. exact Hs.
  - by destruct (timer_fired _ _) as [t' g].
Qed.
End safety.

(** ** Concrete runs *)

(** A codec for arrays of strings: each unit after a 1, each string before a 0 *)
Fixpoint demo_parse (acc : jstr) (text : jstr) : option (list jstr) :=
  match text with
  | [] => match acc with [] => Some [] | _ => None end
  | 0 :: text => cons (rev acc) <$> demo_parse [] text
  | 1 :: c :: text => demo_parse (c :: acc) text
  | _ => None
  end.
#[local] Instance demo_json : JsonArray :=
  {| array_text segs := flat_map (λ s, flat_map (λ c, [1; c]) s ++ [0]) segs; text_array := demo_parse [] |}.

Lemma demo_parse_string s : ∀ acc rest,
  demo_parse acc (flat_map (λ c, [1; c]) s ++ 0 :: rest) = cons (rev acc ++ s) <$> demo_parse [] rest.
Proof.
  induction s as [|c s IH]; intros acc rest; cbn; [by rewrite app_nil_r|]. rewrite IH. cbn.
  by rewrite <-app_assoc.
Qed.

#[local] Instance demo_json_laws : JsonArrayLaws.
Proof.
  intros segs. cbn. induction segs as [|s segs IH]; [reflexivity|]. cbn [flat_map]. rewrite <-app_assoc.
  cbn [app]. rewrite demo_parse_string, IH. reflexivity.
Defined.

#[local] Instance demo_codec : ContentCodec :=
  {| bytes_json bs := Ok JNull; json_bytes v := match v with JStr s => s | _ => [] end |}.

(** No replica *)
#[local] Instance no_replica : KvStore unit jsval :=
  {| kv_get _ := st_ret None; kv_set _ _ _ := st_ret tt; kv_delete _ := st_ret tt;
     kv_commit _ _ := st_ret {| cr_ok := false; cr_version := None |} |}.
#[local] Instance no_replica_lister : KvLister unit jsval :=
  {| kv_list _ _ _ := st_ret {| page_keys := []; page_cursor := None |} |}.

(** A module's bytes are what its handler responds with; the module [0] calls
    [ctx.kv.get] and [ctx.env.get] first, and the body of the response of the
    module [1] reads [ctx.env]. *)
Definition demo_evaluate (bytes : list Z) : module_outcome (St:=unit) (Hd:=unit) :=
  HasHandler (λ _ _,
    if bool_decide (bytes = [0])
    then Perform (OnBinding (KvGet (KeyString (js "k"))))
           (λ _, Perform (EnvGet (js "API_KEY")) (λ _, Return (AnyValue (JStr bytes))))
    else if bool_decide (bytes = [1])
    then Return (AResponse 200 [] (Perform (EnvGet (js "API_KEY"))
           (λ r, Return match r with FromEnv (Some v) => v | _ => [] end)))
    else Return (AnyValue (JStr bytes))) [].

Definition demo_env (max : option Z) : Environment (O:=unit) (St:=unit) (Hd:=unit) :=
  {| maxWarmInstances := max; configuredOrgId := None; hasReplica := false; hasDispatcher := false;
     tempDir := js "/tmp/railfog_local_iso_1"; path_basename := λ p, p; path_join := str_join (js "/");
     fs_of := λ _, None; encode_json := λ _, []; evaluate := demo_evaluate;
     request_ok := λ _ _ _, true; parse_payload := λ _, None |}.

Lemma demo_joins_files max : joins_files (demo_env max).
Proof.
  intros a b _ _ Heq. unfold demo_env in Heq. cbn [path_join tempDir str_join] in Heq. apply app_inv_head in Heq.
  injection Heq as Heq. exact Heq.
Defined.

Definition demo_artifact (org project : jstr) (code : list Z) : LocalArtifact :=
  {| a_id := Some (js "sha256-x"); a_entrypoint := js "index.ts"; a_code := CodeBytes code;
     a_permissions := JUndef; a_project := Some project; a_projectName := None;
     a_function := Some (js "api"); a_functionName := None; a_orgId := Some org; a_org := None;
     a_revision := Some (js "rev_01J"); a_revisionId := None |}.
Definition demo_limits : LocalLimits := {| lim_cpuMs := JNum (Fin 50); lim_timeoutMs := JNum (Fin 1000) |}.
Definition demo_run (org project : jstr) (code : list Z) : event :=
  Run [] (demo_artifact org project code) demo_limits None 0.
Definition demo_start : Isolation (R:=unit) (O:=unit) (St:=unit) (Hd:=unit) :=
  new_provider tt tt {| globals := []; protos := [] |}.

(** The tasks' responses, once they have settled *)
Definition responses (w : Isolation (R:=unit) (O:=unit) (St:=unit) (Hd:=unit)) : list (option (list Z)) :=
  (λ t, match t_phase t with Settled (Returned r) _ => Some (r_body r) | _ => None end) <$> tasks w.


(** An invocation whose handler waits for a binding when the deadline passes *)
Definition waiting_run_of (code : list Z) : list event :=
  [demo_run (js "acme") (js "shop") code; CodeRead 0 None; FileWritten 0 true; Imported 0 1;
   SecretsResolved 0 (Some {| sv_listNames _ _ := Ok [js "API_KEY"]; sv_get _ _ _ := Ok (Some (js "s3cret")) |})
     (js "01J") 2].
Definition waiting_run : list event := waiting_run_of [0].
Definition demo_next (i : nat) : event := HandlerStep i (λ _, []) 3.

Theorem invocation_lifecycle_witness :
  let w := steps (demo_env None) waiting_run demo_start in
  ∃ t p, tasks w !! 0%nat = Some t ∧ t_phase t = Running p ∧ env_value t (js "API_KEY") = Some (js "s3cret") ∧
    ∃ t', tasks (step (demo_env None) (TimerFired 0) w) !! 0%nat = Some t' ∧
      t_phase t' = Settled (Returned (formatErrorResult deadline_exceeded)) (Some p) ∧
      env_value t' (js "API_KEY") = None.
Proof.
  cbv zeta. eexists _, _. split; [vm_compute; reflexivity|]. split; [reflexivity|].
  split; [vm_compute; reflexivity|].
  destruct (invocation_lifecycle (demo_env None) waiting_run tt tt {| globals := []; protos := [] |} 0 _
    ltac:(vm_compute; reflexivity)) as (_ & _ & Hrun & _).
  cbn [t_phase] in Hrun. destruct Hrun as (_ & t' & Hi & Hp). exists t'. split; [exact Hi|]. split; [exact Hp|].
  destruct (invocation_lifecycle (demo_env None) (waiting_run ++ [TimerFired 0]) tt tt {| globals := []; protos := [] |} 0 t')
    as (_ & _ & Hsettled & _).
  { unfold steps. rewrite fold_left_app. exact Hi. }
  rewrite Hp in Hsettled. destruct Hsettled as [_ Henv]. apply Henv.
Defined.

Theorem stores_confined_witness :
  let w := steps (demo_env None) waiting_run demo_start in
  map_get (projectKvStores (shared (step (demo_env None) (HandlerStep 0 (λ _, []) 3) w))) (js "acme/blog") =
    map_get (projectKvStores (shared w)) (js "acme/blog") ∧
  map_get (projectKvStores (shared (step (demo_env None) (TimerFired 0) w))) (js "acme/shop") =
    map_get (projectKvStores (shared w)) (js "acme/shop").
Proof.
  cbv zeta. assert (∀ t, tasks (steps (demo_env None) waiting_run demo_start) !! 0%nat = Some t →
    tenant_of (demo_env None) t = (js "acme", js "shop")) as Htenant.
  { set (w := steps (demo_env None) waiting_run demo_start). intros t Ht.
    assert (t_call t = t_call (default t (tasks w !! 0%nat))) as Hc by (rewrite Ht; reflexivity).
    unfold tenant_of. rewrite Hc. vm_compute. reflexivity. }
  assert (∀ t, tasks (steps (demo_env None) waiting_run demo_start) !! 0%nat = Some t →
    47 ∉ tenantOrg (demo_env None) (t_meta (t_call t))) as Hslash.
  { intros t Ht. specialize (Htenant t Ht). injection Htenant as Horg _. rewrite Horg.
    apply (bool_decide_unpack _). vm_compute. exact I. }
  split.
  - pose proof (stores_confined (demo_env None) (HandlerStep 0 (λ _, []) 3)
      (steps (demo_env None) waiting_run demo_start) (js "acme") (js "blog")) as Hs.
    cbv zeta in Hs. etransitivity; [apply Hs|].
    + apply (bool_decide_unpack _). vm_compute. exact I.
    + intros i t Hi Ht. injection Hi as <-. by apply Hslash.
    + destruct (tasks _ !! 0%nat) as [t|] eqn:Et; [|reflexivity]. destruct (pending_call t); [|reflexivity].
      rewrite (Htenant t eq_refl). reflexivity.
  - pose proof (stores_confined (demo_env None) (TimerFired 0)
      (steps (demo_env None) waiting_run demo_start) (js "acme") (js "shop")) as Hs.
    cbv zeta in Hs. apply Hs.
    + apply (bool_decide_unpack _). vm_compute. exact I.
    + intros i t Hi Ht. injection Hi as <-. by apply Hslash.
Defined.

(** *** What the races allow

    The deadline does not reach the body of a response: the stream of a handler
    that has responded still reads the secrets after it, and decides when the
    invocation settles. *)
Theorem body_outlives_deadline :
  responses (steps (demo_env None) (waiting_run_of [1] ++ [TimerFired 0; demo_next 0; demo_next 0]) demo_start) =
  [Some (js "s3cret")].
Proof. vm_compute. reflexivity. Qed.

(** [_] both separates the names in a file name and stands for the characters that
    are replaced, and the generation in the file name is read only after the wait
    for the code.  So two loads that overlap can be given one file: here the org
    [a_b] with the project [c], and the org [a] with the project [b_c], which both
    run the code of the second, in a warm instance that stays. *)
Theorem overlapping_loads_mix_tenants :
  responses (steps (demo_env None)
    [demo_run (js "a_b") (js "c") [7]; demo_run (js "a") (js "b_c") [9]; CodeRead 0 None; CodeRead 1 None;
     FileWritten 0 true; FileWritten 1 true; Imported 0 1; Imported 1 1;
     SecretsResolved 0 None [] 2; SecretsResolved 1 None [] 2; demo_next 0; demo_next 1;
     demo_run (js "a_b") (js "c") [7]; SecretsResolved 2 None [] 3; demo_next 2] demo_start) =
  [Some [9]; Some [9]; Some [9]].
Proof. vm_compute. reflexivity. Qed.

(** Room for an instance is made before the wait for its code: loads that overlap
    exceed [maxWarmInstances], for as long as instances are only replaced. *)
Theorem warm_limit_exceeded :
  let load i := [CodeRead i None; FileWritten i true; Imported i 1] in
  let two := [demo_run (js "acme") (js "a") [1]; demo_run (js "acme") (js "b") [2]] ++ load 0%nat ++ load 1%nat in
  getWarmCount (code (steps (demo_env (Some 1)) two demo_start)) = 2%nat ∧
  getWarmCount (code (steps (demo_env (Some 1)) (two ++ [demo_run (js "acme") (js "c") [3]] ++ load 2%nat) demo_start))
    = 2%nat.
Proof. vm_compute. split; reflexivity. Qed.
