(* ===== verification/DenoKv.v ===== *)
(** * The Deno KV provider ([providers/kv/deno-deploy-provider.ts])

    The remote key-value tier: versions and expiry times are kept in envelopes,
    a value larger than a Deno KV entry is split into chunk entries beside its
    envelope, and writes are guarded by the versionstamps of what was read.

    A method of the provider is a [kvprog], a program over the operations of
    Deno KV; [run] executes it alone, [DenoKvSafety] interleaves many of them.
    Deno KV itself is the class [DenoKv] with the documented behaviour
    [DenoKvLaws]; [JSON.stringify] and [JSON.parse] are the class [JsonText].
    Between two awaits the clock is read once.  The reads of chunks, which the
    code issues together, are made in the order of their indices. *)

From S2P Require Import Prelude JsString JsMap Errors Utf8 TextDecoder JsNumber JsValue KvInterface.

Open Scope Z_scope.
Open Scope railfog_scope.

(** ** Values and entries *)

(** A value of the interface: a JavaScript value or a [Uint8Array] *)
Inductive kv_value := VData (v : jsval) | VBytes (bs : list Z).

(** ["string" | "uint8array" | "json"] *)
Inductive data_type := TString | TUint8array | TJson.

(** What an entry holds: [KVDirectEnvelope], [KVChunkedEnvelope], the bytes of a
    chunk, or a value that is neither (written by another program). *)
Inductive stored_value :=
| Direct (value : kv_value) (version : Z) (expiresAt : option Z)
| Chunked (version : Z) (expiresAt : option Z) (dataType : data_type) (totalChunks : nat)
| RawBytes (bs : list Z)
| Foreign (v : jsval).

(** A key of Deno KV: strings and numbers *)
Definition part : Type := (jstr + Z)%type.
Definition dkey : Type := list part.
#[export] Instance dkey_eq_dec : EqDecision dkey := _.
#[export] Instance dkey_countable : Countable dkey := _.

Definition user_key (k : key) : dkey := inl <$> k.

(** [["\0rf_chunks", ...key, i]] *)
Definition chunk_key (q : dkey) (i : nat) : dkey :=
  inl (0 :: js "rf_chunks") :: q ++ [inr (Z.of_nat i)].

(** [Deno.KvEntryMaybe]: an absent entry has no value and no versionstamp. *)
Record entry := { e_key : dkey; e_value : option stored_value; e_stamp : option Z }.

(** The mutations of [kv.atomic()] *)
Inductive native :=
| NSet (q : dkey) (v : stored_value) (expireIn : option Z)
| NDelete (q : dkey).

(** ** Programs over Deno KV *)

Inductive kvprog (A : Type) : Type :=
| Done (a : A)
| Throw (e : exn)
| Now (f : Z → kvprog A)
| Sleep (f : kvprog A)
| Read (q : dkey) (f : entry → kvprog A)
| Atomic (checks : list entry) (muts : list native) (f : bool → kvprog A)
| Remove (q : dkey) (f : kvprog A)
| Entries (prefix : dkey) (cursor : option jstr) (f : list (dkey * stored_value * jstr) → kvprog A).
Arguments Done {A} a.
Arguments Throw {A} e.
Arguments Now {A} f.
Arguments Sleep {A} f.
Arguments Read {A} q f.
Arguments Atomic {A} checks muts f.
Arguments Remove {A} q f.
Arguments Entries {A} prefix cursor f.

Fixpoint kvprog_bind {A B} (f : A → kvprog B) (p : kvprog A) : kvprog B :=
  match p with
  | Done a => f a
  | Throw e => Throw e
  | Now g => Now (λ t, kvprog_bind f (g t))
  | Sleep g => Sleep (kvprog_bind f g)
  | Read q g => Read q (λ e, kvprog_bind f (g e))
  | Atomic cs ms g => Atomic cs ms (λ b, kvprog_bind f (g b))
  | Remove q g => Remove q (kvprog_bind f g)
  | Entries q c g => Entries q c (λ es, kvprog_bind f (g es))
  end.
#[export] Instance kvprog_mret : MRet kvprog := @Done.
#[export] Instance kvprog_mbind : MBind kvprog := @kvprog_bind.

Definition of_result {A} (r : result exn A) : kvprog A :=
  match r with Ok a => Done a | Err e => Throw e end.

(** [JSON.stringify] ([None] is [undefined]) and [JSON.parse] *)
Class JsonText := { json_stringify : jsval → option jstr; json_parse : jstr → result exn jsval }.

Section provider.
Context `{JsonText}.

(** ** Validation *)

Definition MAX_KEY_SEGMENTS : nat := 32.
Definition MAX_KEY_BYTES : Z := 512.
Definition MAX_PAYLOAD_BYTES : Z := 256 * 1024.
Definition CHUNK_SIZE : Z := 60000.

(** The loop over the segments; [totalBytes] counts their UTF-8 bytes. *)
Fixpoint check_segments (segs : key) (totalBytes : Z) : result exn Z :=
  match segs with
  | [] => Ok totalBytes
  | seg :: segs =>
      if bool_decide (seg = []) then Err ValidationFailedError
      else if includes seg [0] then Err ValidationFailedError
      else if jstr_eqb seg (js ".") || jstr_eqb seg (js "..") then Err ValidationFailedError
      else if includes seg (js "/") || includes seg (js "\") then Err ValidationFailedError
      else check_segments segs (totalBytes + utf8_length seg)
  end.

Definition validateKey (k : key) : result exn unit :=
  throw_if (bool_decide (k = [])) ValidationFailedError ≫= λ _,
  throw_if (MAX_KEY_SEGMENTS <? length k)%nat ValidationFailedError ≫= λ _,
  check_segments k 0 ≫= λ totalBytes,
  throw_if (MAX_KEY_BYTES <? totalBytes) ValidationFailedError.

(** The bytes of a value and how to read them back *)
Definition getPayloadDetails (value : kv_value) : data_type * list Z :=
  match value with
  | VData (JStr s) => (TString, text_encode s)
  | VBytes bs => (TUint8array, bs)
  | VData v => (TJson, text_encode (default (js "null") (json_stringify v)))
  end.

Definition payload_size (value : kv_value) : Z := Z.of_nat (length (getPayloadDetails value).2).

Definition validatePayload (value : kv_value) : result exn unit :=
  throw_if (MAX_PAYLOAD_BYTES <? payload_size value) PayloadTooLargeError.

(** A time to live is a whole number of seconds. *)
Definition validateTTL (ttl : option Z) : result exn unit :=
  throw_if match ttl with Some t => t <=? 0 | None => false end ValidationFailedError.

Definition isLargePayload (value : kv_value) : bool := CHUNK_SIZE <? payload_size value.

(** The loop that cuts [bytes] at the offsets 0, [CHUNK_SIZE], ...; [fuel] is at
    least the number of bytes. *)
Fixpoint chunk_loop (fuel : nat) (bytes : list Z) : list (list Z) :=
  match fuel, bytes with
  | S fuel, _ :: _ =>
      take (Z.to_nat CHUNK_SIZE) bytes :: chunk_loop fuel (drop (Z.to_nat CHUNK_SIZE) bytes)
  | _, _ => []
  end.

Definition chunkPayload (value : kv_value) : data_type * list (list Z) :=
  let '(dataType, bytes) := getPayloadDetails value in (dataType, chunk_loop (length bytes) bytes).

(** ** Reading *)

(** [expiresAt !== undefined && expiresAt <= Date.now()]: the clock is only read
    when there is an expiry time. *)
Definition if_expired {A} (expiresAt : option Z) (f : bool → kvprog A) : kvprog A :=
  match expiresAt with None => f false | Some t => Now (λ now, f (t <=? now)) end.

(** The bytes of the chunk entries; an entry without a value adds none. *)
Fixpoint read_chunks (q : dkey) (indices : list nat) (combined : list Z) : kvprog (list Z) :=
  match indices with
  | [] => Done combined
  | i :: indices =>
      Read (chunk_key q i) (λ c,
        read_chunks q indices (combined ++ match e_value c with Some (RawBytes bs) => bs | _ => [] end))
  end.

Definition decode_payload (dataType : data_type) (combined : list Z) : result exn kv_value :=
  match dataType with
  | TString => Ok (VData (JStr (text_decode combined)))
  | TUint8array => Ok (VBytes combined)
  | TJson => VData <$> json_parse (text_decode combined)
  end.

(** [{ value, version, expired }]; [None] is the [null] of an absent value. *)
Record resolved := { rs_value : option kv_value; rs_version : Z; rs_expired : bool }.
Definition nothing (is_expired : bool) : resolved :=
  {| rs_value := None; rs_version := 0; rs_expired := is_expired |}.

Definition resolveValue (q : dkey) (entryValue : option stored_value) : kvprog resolved :=
  match entryValue with
  | None | Some (Foreign JNull) | Some (Foreign JUndef) => Done (nothing false)
  | Some (Chunked version expiresAt dataType totalChunks) =>
      if_expired expiresAt (λ gone,
        if gone then Done (nothing true)
        else
          combined ← read_chunks q (seq 0 totalChunks) [];
          val ← of_result (decode_payload dataType combined);
          Done {| rs_value := Some val; rs_version := version; rs_expired := false |})
  | Some (Direct value version expiresAt) =>
      if_expired expiresAt (λ gone,
        if gone then Done (nothing true)
        else Done {| rs_value := Some value; rs_version := version; rs_expired := false |})
  | Some (RawBytes bs) => Done {| rs_value := Some (VBytes bs); rs_version := 1; rs_expired := false |}
  | Some (Foreign v) => Done {| rs_value := Some (VData v); rs_version := 1; rs_expired := false |}
  end.

(** [get(key)] *)
Definition deno_get (k : key) : kvprog (option kv_value) :=
  _ ← of_result (validateKey k);
  Read (user_key k) (λ e,
    res ← resolveValue (user_key k) (e_value e);
    Done (rs_value res)).

(** ** Writing *)

Definition MAX_CAS_RETRIES : nat := 5.

(** The version and the chunks of what was read *)
Definition envelope_version (v : option stored_value) : Z :=
  match v with Some (Chunked n _ _ _) | Some (Direct _ n _) => n | _ => 0 end.
Definition envelope_chunks (v : option stored_value) : nat :=
  match v with Some (Chunked _ _ _ n) => n | _ => O end.

Definition delete_chunks (k : key) (n : nat) : list native :=
  (λ i, NDelete (chunk_key (user_key k) i)) <$> seq 0 n.

(** The entries of a value: its chunks and the envelope *)
Definition write_value (k : key) (value : kv_value) (version : Z) (expiresAt expireIn : option Z)
    : list native :=
  if isLargePayload value then
    let '(dataType, chunks) := chunkPayload value in
    imap (λ i c, NSet (chunk_key (user_key k) i) (RawBytes c) expireIn) chunks ++
    [NSet (user_key k) (Chunked version expiresAt dataType (length chunks)) expireIn]
  else [NSet (user_key k) (Direct value version expiresAt) expireIn].

(** The compare-and-swap loop; [left] is [MAX_CAS_RETRIES - attempt]. *)
Fixpoint cas_loop (k : key) (value : kv_value) (expiresAt expireIn : option Z) (left : nat)
    : kvprog unit :=
  match left with
  | O => Throw ConflictError
  | S rest =>
      let attempt :=
        Read (user_key k) (λ e,
          let currentVersion := envelope_version (e_value e) in
          let prevTotalChunks := envelope_chunks (e_value e) in
          let nextVersion := currentVersion + 1 in
          Atomic [e]
            (delete_chunks k prevTotalChunks ++ write_value k value nextVersion expiresAt expireIn)
            (λ ok, if ok then Done tt else cas_loop k value expiresAt expireIn rest)) in
      if (left <? MAX_CAS_RETRIES)%nat then Sleep attempt else attempt
  end.

(** [set(key, value, { ttl })] *)
Definition deno_set (k : key) (value : kv_value) (ttl : option Z) : kvprog unit :=
  _ ← of_result (validateKey k);
  _ ← of_result (validatePayload value);
  _ ← of_result (validateTTL ttl);
  match ttl with
  | None => cas_loop k value None None MAX_CAS_RETRIES
  | Some t => Now (λ now, cas_loop k value (Some (now + t * 1000)) (Some (t * 1000)) MAX_CAS_RETRIES)
  end.

(** [delete(key)] *)
Definition deno_delete (k : key) : kvprog unit :=
  _ ← of_result (validateKey k);
  Read (user_key k) (λ e,
    match e_value e with
    | Some (Chunked _ _ _ totalChunks) =>
        Atomic [] (delete_chunks k totalChunks ++ [NDelete (user_key k)]) (λ _, Done tt)
    | _ => Remove (user_key k) (Done tt)
    end).

(** ** [DenoDeployKVAtomicBuilder.commit()] *)

Definition validate_commit (cs : list kv_check) (mus : list (kv_mutation kv_value)) : result exn unit :=
  for_each (λ c, validateKey (ck_key c)) cs ≫= λ _,
  for_each (λ m, validateKey (mutation_key m) ≫= λ _,
                 match m with MSet _ v => validatePayload v | MDelete _ => Ok tt end) mus.

(** The distinct keys, in the order the [Map] keeps them *)
Definition distinct_keys (cs : list kv_check) (mus : list (kv_mutation kv_value)) : list key :=
  set_of_list ((ck_key <$> cs) ++ (mutation_key <$> mus)).

Fixpoint fetch_entries (ks : list key) (entries : jsmap key entry) : kvprog (jsmap key entry) :=
  match ks with
  | [] => Done entries
  | k :: ks => Read (user_key k) (λ e, fetch_entries ks (map_set entries k e))
  end.

(** The version of an entry, 0 when it has expired *)
Definition live_version (now : Z) (v : option stored_value) : Z :=
  match v with
  | Some (Chunked n expiresAt _ _) | Some (Direct _ n expiresAt) =>
      match expiresAt with Some t => if now <? t then n else 0 | None => n end
  | _ => 0
  end.

Definition fetched (entries : jsmap key entry) (k : key) : option stored_value :=
  map_get entries k ≫= e_value.

(** The loop over [this.checks]: [true] when every version is as expected *)
Definition verify_checks (now : Z) (entries : jsmap key entry) (cs : list kv_check) : bool :=
  forallb (λ c, live_version now (fetched entries (ck_key c)) =? ck_expectedVersion c) cs.

(** The loop over [this.mutations]: the native mutations and [highestNewVersion] *)
Fixpoint build_mutations (entries : jsmap key entry) (currentVersions : jsmap key Z)
    (mus : list (kv_mutation kv_value)) (highestNewVersion : Z) : list native * Z :=
  match mus with
  | [] => ([], highestNewVersion)
  | mu :: mus =>
      let k := mutation_key mu in
      let cleanup := delete_chunks k (envelope_chunks (fetched entries k)) in
      match mu with
      | MSet _ v =>
          let newVersion := default 0 (map_get currentVersions k) + 1 in
          let '(ms, h) := build_mutations entries (map_set currentVersions k newVersion) mus
                            (Z.max highestNewVersion newVersion) in
          (cleanup ++ write_value k v newVersion None None ++ ms, h)
      | MDelete _ =>
          let '(ms, h) := build_mutations entries (map_set currentVersions k 0) mus highestNewVersion in
          (cleanup ++ NDelete (user_key k) :: ms, h)
      end
  end.

Definition deno_commit (cs : list kv_check) (mus : list (kv_mutation kv_value)) : kvprog CommitResult :=
  _ ← of_result (validate_commit cs mus);
  entries ← fetch_entries (distinct_keys cs mus) [];
  Now (λ now,
    if verify_checks now entries cs then
      let currentVersions := on_values (λ e, live_version now (e_value e)) entries in
      let '(muts, highestNewVersion) := build_mutations entries currentVersions mus 0 in
      Atomic (map_values entries) muts (λ ok,
        if ok then
          Done {| cr_ok := true;
                  cr_version := if 0 <? highestNewVersion then Some highestNewVersion else None |}
        else Done {| cr_ok := false; cr_version := None |})
    else Done {| cr_ok := false; cr_version := None |}).

(** ** [list(prefix, { limit, cursor })] *)

Record page := { pg_keys : list (dkey * option kv_value); pg_cursor : option jstr }.

Definition list_limit (limit : option Z) : Z :=
  match limit with
  | Some n => if 0 <? n then Z.min n 1000 else 100
  | None => 100
  end.

(** The [for await] loop; an entry comes with [iter.cursor] after it. *)
Fixpoint page_loop (limit : Z) (es : list (dkey * stored_value * jstr))
    (keys : list (dkey * option kv_value)) (lastCursor : option jstr) : kvprog page :=
  match es with
  | [] => Done {| pg_keys := keys; pg_cursor := None |}
  | (q, v, cursor) :: es =>
      res ← resolveValue q (Some v);
      if rs_expired res then page_loop limit es keys lastCursor
      else if Z.of_nat (length keys) <? limit
      then page_loop limit es (keys ++ [(q, rs_value res)]) (Some cursor)
      else Done {| pg_keys := keys; pg_cursor := lastCursor |}
  end.

Definition deno_list (prefix : key) (limit : option Z) (cursor : option jstr) : kvprog page :=
  _ ← of_result (validateKey prefix);
  Entries (user_key prefix) match cursor with Some ((_ :: _) as c) => Some c | _ => None end (λ es,
    page_loop (list_limit limit) es [] None).
End provider.

(** ** Deno KV *)

Record row := { r_value : stored_value; r_stamp : Z; r_expires : option Z }.

(** One mutation of a commit that gets the versionstamp [stamp] at time [now] *)
Definition native_step (now stamp : Z) (m : dkey → option row) (n : native) : dkey → option row :=
  match n with
  | NSet q v expireIn => λ q',
      if decide (q' = q)
      then Some {| r_value := v; r_stamp := stamp; r_expires := Z.add now <$> expireIn |}
      else m q'
  | NDelete q => λ q', if decide (q' = q) then None else m q'
  end.
Definition native_steps (now stamp : Z) (m : dkey → option row) (ns : list native) : dkey → option row :=
  fold_left (native_step now stamp) ns m.

(** [atomic.check(entry)]: the entry still has the versionstamp that was read. *)
Definition check_holds (m : dkey → option row) (e : entry) : bool :=
  bool_decide (r_stamp <$> m (e_key e) = e_stamp e).

(** The operations: what a read returns, the commit of an atomic operation, the
    unconditional delete, and the entries below a prefix with the cursor after
    each.  An [Err] of a commit is the refusal of an operation beyond the limits
    of the platform. *)
Class DenoKv (D : Type) := {
  dk_row : D → dkey → option row;
  dk_commit : Z → list entry → list native → D → D * result exn bool;
  dk_remove : dkey → D → D;
  dk_entries : D → dkey → option jstr → list (dkey * stored_value * jstr)
}.

(** The documented behaviour: commits are atomic, apply only when every check
    holds, and get a versionstamp greater than all before. *)
Class DenoKvLaws (D : Type) `{DenoKv D} := {
  dk_clock : D → Z;
  dk_accepts : list entry → list native → bool;
  dk_stamps d q r : dk_row d q = Some r → r_stamp r ≤ dk_clock d;
  dk_commit_refused d now cs ms :
    dk_accepts cs ms = false → ∃ e, dk_commit now cs ms d = (d, Err e);
  dk_commit_fails d now cs ms :
    dk_accepts cs ms = true → forallb (check_holds (dk_row d)) cs = false →
    dk_commit now cs ms d = (d, Ok false);
  dk_commit_applies d now cs ms :
    dk_accepts cs ms = true → forallb (check_holds (dk_row d)) cs = true →
    ∃ d', dk_commit now cs ms d = (d', Ok true) ∧ dk_clock d < dk_clock d' ∧
          ∀ q, dk_row d' q = native_steps now (dk_clock d') (dk_row d) ms q;
  dk_remove_clock d q : dk_clock d ≤ dk_clock (dk_remove q d);
  dk_remove_row d q q' : dk_row (dk_remove q d) q' = if decide (q' = q) then None else dk_row d q'
}.

(** [JSON.stringify] is [undefined] only for [undefined]; its text is well-formed
    Unicode without a byte-order mark, and [JSON.parse] reads the value back. *)
Class JsonTextLaws `{JsonText} := {
  json_stringify_some v : v ≠ JUndef → ∃ t, json_stringify v = Some t;
  json_stringify_undef : json_stringify JUndef = None;
  json_text_safe v t : json_stringify v = Some t → jstr_wf t ∧ utf8_safe t;
  json_text_read v t : val_wf v → json_stringify v = Some t → json_parse t = Ok (json_value v)
}.

(** *** A program that runs alone *)
Section run.
Context {D : Type} `{DenoKv D}.

Definition entry_at (d : D) (q : dkey) : entry :=
  {| e_key := q; e_value := r_value <$> dk_row d q; e_stamp := r_stamp <$> dk_row d q |}.

Fixpoint run {A} (now : Z) (p : kvprog A) (d : D) : D * result exn A :=
  match p with
  | Done a => (d, Ok a)
  | Throw e => (d, Err e)
  | Now f => run now (f now) d
  | Sleep f => run now f d
  | Read q f => run now (f (entry_at d q)) d
  | Atomic cs ms f =>
      match dk_commit now cs ms d with
      | (d', Ok b) => run now (f b) d'
      | (d', Err e) => (d', Err e)
      end
  | Remove q f => run now f (dk_remove q d)
  | Entries q c f => run now (f (dk_entries d q c)) d
  end.

Lemma run_bind {A B} now (p : kvprog A) (f : A → kvprog B) d :
  run now (p ≫= f) d =
  match run now p d with (d', Ok a) => run now (f a) d' | (d', Err e) => (d', Err e) end.
Proof.
  change (p ≫= f) with (kvprog_bind f p). revert d.
  induction p as [a|e|g IH|g IH|q g IH|cs ms g IH|q g IH|q c g IH]; intros d; cbn; auto.
  destruct (dk_commit now cs ms d) as [d' [b|e]]; auto.
Qed.
End run.

(** ** The entries of a key *)

#[export] Instance user_key_inj : Inj (=) (=) user_key.
Proof. intros k1 k2 E. by apply (inj (fmap inl)) in E. Qed.

Lemma user_chunk k q i : user_key k ≠ chunk_key q i.
Proof.
  intros E. assert (inr (Z.of_nat i) ∈ user_key k) as Hin by (rewrite E; unfold chunk_key; set_solver).
  by apply list_elem_of_fmap in Hin as (s & ? & _).
Qed.

Lemma chunk_key_inj q1 q2 i j : chunk_key q1 i = chunk_key q2 j → q1 = q2 ∧ i = j.
Proof. unfold chunk_key. intros [= E]. apply app_inj_tail in E as [-> [= E]]. split; [done|lia]. Qed.

Definition native_key (n : native) : dkey := match n with NSet q _ _ | NDelete q => q end.

(** The entries that belong to a key: its envelope and its chunks *)
Definition belongs (k : key) (q : dkey) : Prop := q = user_key k ∨ ∃ i, q = chunk_key (user_key k) i.

Lemma belongs_disjoint k k' q : belongs k q → belongs k' q → k = k'.
Proof.
  intros [->|[i ->]] [Hq|[j Hq]].
  - by apply user_key_inj.
  - by apply user_chunk in Hq.
  - symmetry in Hq. by apply user_chunk in Hq.
  - apply chunk_key_inj in Hq as [Hq _]. by apply user_key_inj.
Qed.

Section entries.
Implicit Types (m : dkey → option row) (k : key).

Definition same_at k m m' : Prop := ∀ q, belongs k q → m' q = m q.

Lemma native_steps_other now s ms m q :
  Forall (λ n, native_key n ≠ q) ms → native_steps now s m ms q = m q.
Proof.
  unfold native_steps. intros Hms. revert m. induction Hms as [|n ms Hn _ IH]; intros m; [done|].
  cbn. rewrite IH. destruct n; cbn in *; by rewrite decide_False.
Qed.

Lemma native_steps_frame now s ms m k k' :
  Forall (λ n, belongs k (native_key n)) ms → k' ≠ k → same_at k' m (native_steps now s m ms).
Proof.
  intros Hms Hne q Hq. apply native_steps_other. eapply Forall_impl; [exact Hms|].
  intros n Hn <-. destruct Hne. by eapply belongs_disjoint.
Qed.

Lemma native_steps_app now s ms1 ms2 m :
  native_steps now s m (ms1 ++ ms2) = native_steps now s (native_steps now s m ms1) ms2.
Proof. apply fold_left_app. Qed.

Lemma delete_chunks_belong k n : Forall (λ n, belongs k (native_key n)) (delete_chunks k n).
Proof. unfold delete_chunks. apply Forall_fmap, Forall_forall. intros i _. right. by exists i. Qed.

Lemma write_chunks_at now s u x (cs : list (list Z)) m j :
  native_steps now s m (imap (λ i c, NSet (chunk_key u i) (RawBytes c) x) cs) (chunk_key u j) =
  match cs !! j with
  | Some c => Some {| r_value := RawBytes c; r_stamp := s; r_expires := Z.add now <$> x |}
  | None => m (chunk_key u j)
  end.
Proof.
  induction cs as [|c cs IH] using rev_ind; [done|].
  rewrite imap_app, native_steps_app. cbn. rewrite Nat.add_0_r.
  destruct (decide (chunk_key u j = chunk_key u (length cs))) as [[_ ->]%chunk_key_inj|Hne].
  - by rewrite list_lookup_middle.
  - rewrite IH. assert (j ≠ length cs) by congruence.
    destruct (decide (j < length cs)%nat); [by rewrite lookup_app_l|].
    rewrite !lookup_ge_None_2; [done|rewrite length_app; cbn; lia|lia].
Qed.

(** *** What the entries of a key mean *)

Definition gone (now : Z) (expiresAt : option Z) : bool :=
  match expiresAt with Some t => t <=? now | None => false end.

Definition chunk_bytes m (q : dkey) (i : nat) : list Z :=
  match m (chunk_key q i) with Some r => match r_value r with RawBytes bs => bs | _ => [] end | None => [] end.
Definition assembled m (q : dkey) (n : nat) : list Z := flat_map (chunk_bytes m q) (seq 0 n).

Context `{JsonText}.

(** The value and the version of a key, unless it is absent or has expired *)
Definition live_entry (now : Z) m k : option (kv_value * Z) :=
  match r_value <$> m (user_key k) with
  | Some (Direct v n e) => if gone now e then None else Some (v, n)
  | Some (Chunked n e ty c) =>
      if gone now e then None
      else match decode_payload ty (assembled m (user_key k) c) with Ok v => Some (v, n) | Err _ => None end
  | _ => None
  end.

(** Deno KV does not drop the entry before the time in its envelope. *)
Definition kept (r : row) (e : option Z) : Prop :=
  match r_expires r with None => True | Some x => ∃ t, e = Some t ∧ t ≤ x end.

(** The entries of a key are an envelope with, unless it has expired, all its
    chunks, which decode to a value. *)
Definition envelope_ok (now : Z) m k : Prop :=
  ∀ r, m (user_key k) = Some r →
  match r_value r with
  | Direct _ n e => 1 ≤ n ∧ kept r e
  | Chunked n e ty c =>
      1 ≤ n ∧ kept r e ∧
      (gone now e = false →
       is_ok (decode_payload ty (assembled m (user_key k) c)) = true ∧
       ∀ i, (i < c)%nat → ∃ r' bs, m (chunk_key (user_key k) i) = Some r' ∧ r_value r' = RawBytes bs ∧ kept r' e)
  | _ => False
  end.

Definition deno_inv (now : Z) m : Prop := ∀ k, envelope_ok now m k.

Lemma assembled_ext m m' q n :
  (∀ i, m' (chunk_key q i) = m (chunk_key q i)) → assembled m' q n = assembled m q n.
Proof. intros E. unfold assembled. apply flat_map_ext. intros i. unfold chunk_bytes. by rewrite E. Qed.

Lemma same_at_assembled m m' k n : same_at k m m' → assembled m' (user_key k) n = assembled m (user_key k) n.
Proof. intros E. apply assembled_ext. intros i. apply E. right. by exists i. Qed.

Lemma live_entry_ext now m m' k : same_at k m m' → live_entry now m' k = live_entry now m k.
Proof.
  intros E. unfold live_entry. rewrite (E (user_key k)) by by left.
  destruct (m (user_key k)) as [r|]; [|done]. cbn. destruct (r_value r); try done.
  by rewrite (same_at_assembled m m').
Qed.

Lemma envelope_ok_ext now m m' k : same_at k m m' → envelope_ok now m k → envelope_ok now m' k.
Proof.
  intros E Hok r. rewrite (E (user_key k)) by by left. intros Hr. specialize (Hok r Hr).
  destruct (r_value r); try done. destruct Hok as (? & ? & Hc). split_and!; [done..|].
  rewrite (same_at_assembled m m') by done. intros Hg. destruct (Hc Hg) as [? Hcs]. split; [done|].
  intros i Hi. rewrite (E (chunk_key _ _)) by (right; by exists i). by apply Hcs.
Qed.

Lemma live_entry_version now m k v n : envelope_ok now m k → live_entry now m k = Some (v, n) → 1 ≤ n.
Proof.
  unfold live_entry, envelope_ok. intros Hok. destruct (m (user_key k)) as [r|]; [|done].
  specialize (Hok r eq_refl). cbn. destruct (r_value r); try done.
  - destruct (gone _ _); [done|]. intros [= _ <-]. by destruct Hok.
  - destruct (gone _ _); [done|]. destruct (decode_payload _ _); [|done]. intros [= _ <-]. by destruct Hok.
Qed.
End entries.

(** ** Chunks and the values they stand for *)

Lemma concat_chunk_loop fuel bs : (length bs <= fuel)%nat → concat (chunk_loop fuel bs) = bs.
Proof.
  assert (0 < Z.to_nat CHUNK_SIZE)%nat as Hn by (unfold CHUNK_SIZE; lia).
  revert Hn bs. unfold chunk_loop. generalize (Z.to_nat CHUNK_SIZE) as n. intros n Hn.
  induction fuel as [|fuel IH]; intros [|b bs] Hl; try done; cbn in Hl; [lia|].
  cbn [concat]. rewrite IH by (rewrite length_drop; cbn; lia). apply take_drop.
Qed.

Section values.
Context `{JsonText} {JTL : JsonTextLaws}.

(** What a large value is read back as: lone surrogates and a leading byte-order
    mark of a string are lost, and JSON data become what JSON keeps of them. *)
Definition reread (v : kv_value) : kv_value :=
  match v with
  | VData (JStr s) => VData (JStr (text_decode (text_encode s)))
  | VData v => VData (json_value v)
  | VBytes bs => VBytes bs
  end.
Definition stored (v : kv_value) : kv_value := if isLargePayload v then reread v else v.

(** The objects of a value have distinct keys. *)
Definition value_wf (v : kv_value) : Prop := match v with VData v => val_wf v | VBytes _ => True end.

(** The values that are read back as they are *)
Definition portable (v : kv_value) : Prop :=
  match v with
  | VData (JStr s) => jstr_wf s ∧ utf8_safe s
  | VData v => json_value v = v
  | VBytes _ => True
  end.

Lemma portable_stored v : portable v → stored v = v.
Proof.
  unfold stored. destruct (isLargePayload v); [|done].
  destruct v as [[| | |s| | |]|]; cbn; intros Hp; try done; try by rewrite ?Hp.
  destruct Hp. by rewrite text_roundtrip.
Qed.

Lemma decode_details v :
  value_wf v → isLargePayload v = true →
  decode_payload (getPayloadDetails v).1 (getPayloadDetails v).2 = Ok (reread v).
Proof.
  intros Hwf Hl.
  assert (∀ j, val_wf j → j ≠ JUndef →
    VData <$> json_parse (text_decode (text_encode (default (js "null") (json_stringify j)))) =
    Ok (VData (json_value j))) as Hj.
  { intros j Hj Hu. destruct (json_stringify_some j Hu) as [t Ht]. rewrite Ht. cbn [from_option id].
    destruct (json_text_safe j t Ht). rewrite text_roundtrip by done.
    by rewrite (json_text_read j t Hj Ht). }
  destruct v as [[| | |s| | |]|bs]; cbn [getPayloadDetails fst snd decode_payload reread] in *;
    try (by apply Hj); try done.
  unfold isLargePayload, payload_size in Hl. cbn [getPayloadDetails snd] in Hl.
  rewrite json_stringify_undef in Hl. by vm_compute in Hl.
Qed.

Lemma assembled_chunks now s u x (cs : list (list Z)) m m' :
  (∀ j, (j < length cs)%nat → m' (chunk_key u j) =
     native_steps now s m (imap (λ i c, NSet (chunk_key u i) (RawBytes c) x) cs) (chunk_key u j)) →
  assembled m' u (length cs) = concat cs.
Proof.
  intros E. assert (∀ j c, cs !! j = Some c → chunk_bytes m' u j = c) as Hc.
  { intros j c Hj. unfold chunk_bytes. rewrite E by by eapply lookup_lt_Some.
    by rewrite write_chunks_at, Hj. }
  clear E. unfold assembled. revert Hc. induction cs as [|c cs IH] using rev_ind; intros Hc; [done|].
  rewrite length_app, Nat.add_1_r, seq_S, flat_map_app, concat_app. cbn. rewrite !app_nil_r.
  rewrite (Hc (length cs) c) by by rewrite list_lookup_middle. f_equal. apply IH.
  intros j c' Hj. apply Hc. by apply lookup_app_l_Some.
Qed.

(** After the entries of a value have been written, the key holds the value. *)
Lemma write_value_at now cl s m k v ver e x :
  1 ≤ ver → value_wf v →
  match x with Some t => ∃ t0, e = Some t0 ∧ t0 ≤ cl + t | None => True end →
  let m' := native_steps cl s m (write_value k v ver e x) in
  envelope_ok now m' k ∧ live_entry now m' k = if gone now e then None else Some (stored v, ver).
Proof.
  intros Hver Hwf Hx. unfold write_value, stored. destruct (isLargePayload v) eqn:El; cbn zeta.
  - unfold chunkPayload. pose proof (decode_details v Hwf El) as Hd.
    destruct (getPayloadDetails v) as [ty bs]. cbn [fst snd] in Hd.
    rewrite native_steps_app. set (cs := chunk_loop (length bs) bs).
    set (m' := native_steps _ _ _ [_]).
    assert (m' (user_key k) = Some {| r_value := Chunked ver e ty (length cs); r_stamp := s;
                                      r_expires := Z.add cl <$> x |}) as Hu.
    { unfold m'. cbn. by rewrite decide_True. }
    assert (∀ j, m' (chunk_key (user_key k) j) =
      native_steps cl s m (imap (λ i c, NSet (chunk_key (user_key k) i) (RawBytes c) x) cs) (chunk_key (user_key k) j)) as Hc.
    { intros j. unfold m'. cbn. rewrite decide_False; [done|]. intros E. symmetry in E. by apply user_chunk in E. }
    assert (kept {| r_value := RawBytes []; r_stamp := s; r_expires := Z.add cl <$> x |} e) as Hk.
    { unfold kept. cbn. destruct x as [t|]; [|done]. cbn. destruct Hx as (t0 & -> & ?). by exists t0. }
    assert (decode_payload ty (assembled m' (user_key k) (length cs)) = Ok (reread v)) as Hdec.
    { rewrite (assembled_chunks cl s (user_key k) x cs m m') by auto. unfold cs.
      by rewrite concat_chunk_loop. }
    split.
    + intros r. rewrite Hu. intros [= <-]. cbn [r_value]. split_and!; [done|exact Hk|]. intros _.
      rewrite Hdec. split; [done|]. intros i Hi. rewrite Hc, write_chunks_at.
      destruct (lookup_lt_is_Some_2 cs i Hi) as [c ->]. do 2 eexists. split_and!; [done..|exact Hk].
    + unfold live_entry. rewrite Hu. cbn [fmap option_fmap option_map r_value]. by rewrite Hdec.
  - set (m' := native_steps _ _ _ _).
    assert (m' (user_key k) = Some {| r_value := Direct v ver e; r_stamp := s; r_expires := Z.add cl <$> x |}) as Hu.
    { unfold m'. cbn. by rewrite decide_True. }
    split.
    + intros r. rewrite Hu. intros [= <-]. cbn. split; [done|]. unfold kept. cbn.
      destruct x as [t|]; [|done]. cbn. destruct Hx as (t0 & -> & ?). by exists t0.
    + unfold live_entry. by rewrite Hu.
Qed.

Lemma write_value_belongs k v ver e x : Forall (λ n, belongs k (native_key n)) (write_value k v ver e x).
Proof.
  unfold write_value. destruct (isLargePayload v).
  - destruct (chunkPayload v) as [ty cs]. apply Forall_app. split.
    + apply Forall_lookup. intros i n. rewrite list_lookup_imap.
      destruct (cs !! i); cbn; [|done]. intros [= <-]. right. by exists i.
    + repeat constructor.
  - repeat constructor.
Qed.
End values.

(** ** The operations on their own *)

Section operations.
Context `{JsonText} {JTL : JsonTextLaws} {D : Type} `{DenoKv D}.
Implicit Types (d : D) (m : dkey → option row).

Lemma run_of_result {A} now (r : result exn A) d : run now (of_result r) d = (d, r).
Proof. by destruct r. Qed.

Lemma run_read_chunks now d q indices acc :
  run now (read_chunks q indices acc) d = (d, Ok (acc ++ flat_map (chunk_bytes (dk_row d) q) indices)).
Proof.
  revert acc. induction indices as [|i indices IH]; intros acc; cbn; [by rewrite app_nil_r|].
  rewrite IH, <-app_assoc. do 2 f_equal. unfold chunk_bytes at 2. by destruct (dk_row d (chunk_key q i)).
Qed.

Lemma run_if_expired {A} now (e : option Z) (f : bool → kvprog A) d :
  run now (if_expired e f) d = run now (f (gone now e)) d.
Proof. by destruct e. Qed.

Lemma run_resolve now d k :
  envelope_ok now (dk_row d) k →
  ∃ res, run now (resolveValue (user_key k) (r_value <$> dk_row d (user_key k))) d = (d, Ok res) ∧
         rs_value res = fst <$> live_entry now (dk_row d) k ∧
         rs_version res = version_of (live_entry now (dk_row d) k) ∧
         (dk_row d (user_key k) ≠ None →
          rs_expired res = match live_entry now (dk_row d) k with Some _ => false | None => true end).
Proof.
  unfold envelope_ok, live_entry. intros Hok. destruct (dk_row d (user_key k)) as [r|]; [|by eexists].
  specialize (Hok r eq_refl). cbn. destruct (r_value r) as [v n e|n e ty c| |]; try done.
  - cbn. rewrite run_if_expired. destruct (gone now e); by eexists.
  - cbn. rewrite run_if_expired. destruct (gone now e) eqn:Eg; [by eexists|].
    destruct Hok as (_ & _ & Hc). destruct (Hc eq_refl) as [Hd _].
    rewrite run_bind, run_read_chunks. cbn [app]. fold (assembled (dk_row d) (user_key k) c).
    rewrite run_bind, run_of_result. destruct (decode_payload ty _); [by eexists|done].
Qed.

(** [get] returns the value of the key, [null] when it is absent or expired. *)
Lemma deno_get_spec now d k :
  validateKey k = Ok tt → envelope_ok now (dk_row d) k →
  run now (deno_get k) d = (d, Ok (fst <$> live_entry now (dk_row d) k)).
Proof.
  intros Hk Hok. unfold deno_get. rewrite Hk. cbn [of_result mbind kvprog_mbind kvprog_bind].
  cbn [run entry_at e_value]. change (kvprog_bind ?f ?p) with (p ≫= f). rewrite run_bind.
  destruct (run_resolve now d k Hok) as (res & -> & -> & _). done.
Qed.

(** The version that an entry of the invariant counts as *)
Lemma live_version_entry now m k :
  envelope_ok now m k →
  live_version now (r_value <$> m (user_key k)) = version_of (live_entry now m k).
Proof.
  unfold envelope_ok, live_entry. intros Hok. destruct (m (user_key k)) as [r|]; [|done].
  specialize (Hok r eq_refl). cbn.
  assert (∀ t, (now <? t) = negb (t <=? now)) as Hneg by (intros; by rewrite Z.leb_antisym, negb_involutive).
  destruct (r_value r) as [v n [t|]|n [t|] ty c| |]; try done; cbn -[Z.leb Z.ltb]; rewrite ?Hneg.
  - by destruct (t <=? now).
  - destruct Hok as (_ & _ & Hc). cbn [gone] in Hc. destruct (t <=? now); [done|].
    destruct (Hc eq_refl) as [Hd _]. by destruct (decode_payload ty _).
  - destruct Hok as (_ & _ & Hc). destruct (Hc eq_refl) as [Hd _]. by destruct (decode_payload ty _).
Qed.

(** One block of mutations that belong to a key leaves the other keys alone; [cl]
    is the clock of Deno KV. *)
Lemma block_others now cl s m k ms :
  Forall (λ n, belongs k (native_key n)) ms →
  (∀ k', k' ≠ k → live_entry now (native_steps cl s m ms) k' = live_entry now m k') ∧
  (deno_inv now m → envelope_ok now (native_steps cl s m ms) k → deno_inv now (native_steps cl s m ms)).
Proof.
  intros Hms. split.
  - intros k' Hne. apply live_entry_ext. by eapply native_steps_frame.
  - intros Hi Hk k'. destruct (decide (k' = k)) as [->|Hne]; [done|].
    eapply envelope_ok_ext; [|apply Hi]. by eapply native_steps_frame.
Qed.

(** The block of a set, whatever chunks it deletes first *)
Lemma set_block now cl s m k v n ver e x :
  1 ≤ ver → value_wf v →
  match x with Some t => ∃ t0, e = Some t0 ∧ t0 ≤ cl + t | None => True end → gone now e = false →
  deno_inv now m →
  let m' := native_steps cl s m (delete_chunks k n ++ write_value k v ver e x) in
  deno_inv now m' ∧
  ∀ k', live_entry now m' k' = if decide (k' = k) then Some (stored v, ver) else live_entry now m k'.
Proof.
  intros Hver Hwf Hx Hg Hi m'.
  destruct (write_value_at now cl s (native_steps cl s m (delete_chunks k n)) k v ver e x Hver Hwf Hx) as [Hok Hlive].
  rewrite <-native_steps_app in Hok, Hlive. fold m' in Hok, Hlive. rewrite Hg in Hlive.
  destruct (block_others now cl s m k (delete_chunks k n ++ write_value k v ver e x)) as [Ho Hinv].
  { apply Forall_app. split; [apply delete_chunks_belong|apply write_value_belongs]. }
  split; [by apply Hinv|]. intros k'. case_decide as Hk; [by rewrite Hk|]. by apply Ho.
Qed.

(** The block of a delete *)
Lemma delete_block now cl s m k n :
  deno_inv now m →
  let m' := native_steps cl s m (delete_chunks k n ++ [NDelete (user_key k)]) in
  deno_inv now m' ∧ ∀ k', live_entry now m' k' = if decide (k' = k) then None else live_entry now m k'.
Proof.
  intros Hi m'. assert (m' (user_key k) = None) as Hu.
  { unfold m'. rewrite native_steps_app. cbn. by rewrite decide_True. }
  destruct (block_others now cl s m k (delete_chunks k n ++ [NDelete (user_key k)])) as [Ho Hinv].
  { apply Forall_app. split; [apply delete_chunks_belong|repeat constructor]. }
  split; [apply Hinv; [done|]; intros r Hr; fold m' in Hr; by rewrite Hu in Hr|].
  intros k'. case_decide as Hk; [|by apply Ho]. subst. unfold live_entry. by rewrite Hu.
Qed.

(** *** Commits *)

Definition stored_mutation (mu : kv_mutation kv_value) : kv_mutation kv_value :=
  match mu with MSet k v => MSet k (stored v) | MDelete k => MDelete k end.
Definition mutation_wf (mu : kv_mutation kv_value) : Prop :=
  match mu with MSet _ v => value_wf v | MDelete _ => True end.

Lemma stored_mutation_key mu : mutation_key (stored_mutation mu) = mutation_key mu.
Proof. by destruct mu. Qed.

(** The mutations of a commit do to the entries what the abstract mutations do to
    the map, and count the versions as it does. *)
Lemma build_mutations_spec now cl s m entries cur mus h :
  deno_inv now m → Forall mutation_wf mus →
  (∀ k, k ∈ mutation_key <$> mus → default 0 (map_get cur k) = version_of (live_entry now m k)) →
  let '(ms, h') := build_mutations entries cur mus h in
  let m' := native_steps cl s m ms in
  deno_inv now m' ∧ h' = highest_version (live_entry now m) (stored_mutation <$> mus) h ∧
  ∀ k, live_entry now m' k = apply_mutations (live_entry now m) (stored_mutation <$> mus) k.
Proof.
  intros Hi Hwf. revert m cur h Hi. induction Hwf as [|mu mus Hmu Hwf IH]; intros m cur h Hi Hcur; [done|].
  assert (∀ ms1 new h1, let m1 := native_steps cl s m ms1 in
    deno_inv now m1 →
    (∀ k, live_entry now m1 k = apply_mutation (live_entry now m) (stored_mutation mu) k) →
    new = version_of (live_entry now m1 (mutation_key mu)) →
    let '(ms, h') := build_mutations entries (map_set cur (mutation_key mu) new) mus h1 in
    let m' := native_steps cl s m (ms1 ++ ms) in
    deno_inv now m' ∧
    h' = highest_version (apply_mutation (live_entry now m) (stored_mutation mu)) (stored_mutation <$> mus) h1 ∧
    ∀ k, live_entry now m' k =
         apply_mutations (apply_mutation (live_entry now m) (stored_mutation mu)) (stored_mutation <$> mus) k) as Hstep.
  { intros ms1 new h1 m1 Hi1 Hl1 Hnew. specialize (IH m1 (map_set cur (mutation_key mu) new) h1 Hi1).
    destruct (build_mutations _ _ mus h1) as [ms h'].
    destruct IH as (Hi' & -> & Hl').
    { intros k Hk. destruct (decide (k = mutation_key mu)) as [->|Hne].
      - by rewrite map_get_set_eq.
      - rewrite map_get_set_ne by done. rewrite Hcur by (cbn; by right). rewrite Hl1.
        destruct mu; cbn in *; by rewrite decide_False. }
    rewrite native_steps_app. fold m1. split_and!; [done|by apply highest_version_ext; intros; apply Hl1|].
    intros k. rewrite Hl'. by apply apply_mutations_ext. }
  assert (default 0 (map_get cur (mutation_key mu)) = version_of (live_entry now m (mutation_key mu))) as Hv
    by (apply Hcur; left).
  destruct mu as [k v|k]; cbn [mutation_key build_mutations] in *.
  - assert (0 ≤ version_of (live_entry now m k)) as Hpos.
    { destruct (live_entry now m k) as [[v0 n0]|] eqn:E; cbn; [|done].
      pose proof (live_entry_version now m k v0 n0 (Hi k) E). lia. }
    rewrite Hv. set (ver := version_of (live_entry now m k) + 1).
    destruct (set_block now cl s m k v (envelope_chunks (fetched entries k)) ver None None) as [Hi1 Hl1];
      [unfold ver; lia|done..|].
    specialize (Hstep _ ver (Z.max h ver) Hi1). cbn zeta in Hstep.
    destruct (build_mutations _ _ mus _) as [ms h']. rewrite app_assoc.
    cbn [fmap list_fmap stored_mutation highest_version apply_mutation]. rewrite decide_True by done.
    cbn [version_of]. fold ver. apply Hstep; [done|]. rewrite Hl1. by rewrite decide_True.
  - destruct (delete_block now cl s m k (envelope_chunks (fetched entries k)) Hi) as [Hi1 Hl1].
    specialize (Hstep _ 0 h Hi1). cbn zeta in Hstep.
    destruct (build_mutations _ _ mus _) as [ms h']. rewrite cons_middle, app_assoc.
    apply Hstep; [done|]. rewrite Hl1. by rewrite decide_True.
Qed.

(** Entries that are as the store holds them *)
Definition current m (entries : jsmap key entry) (ks : list key) : Prop :=
  ∀ k, k ∈ ks → ∃ e, map_get entries k = Some e ∧ e_value e = r_value <$> m (user_key k).

Lemma verify_checks_spec now m entries cs ks :
  deno_inv now m → current m entries ks → (∀ c, c ∈ cs → ck_key c ∈ ks) →
  verify_checks now entries cs = checks_hold (live_entry now m) cs.
Proof.
  intros Hi Hc Hks. unfold verify_checks, checks_hold. induction cs as [|c cs IH]; [done|]. cbn.
  rewrite IH by (intros; apply Hks; by right). f_equal.
  destruct (Hc (ck_key c)) as (e & He & Hv); [apply Hks; left|].
  unfold fetched. rewrite He. cbn. rewrite Hv. by rewrite live_version_entry.
Qed.

Lemma commit_core now cl s m entries cs mus :
  deno_inv now m → Forall mutation_wf mus → current m entries (distinct_keys cs mus) →
  verify_checks now entries cs = checks_hold (live_entry now m) cs ∧
  let '(ms, h) := build_mutations entries (on_values (λ e, live_version now (e_value e)) entries) mus 0 in
  let m' := native_steps cl s m ms in
  deno_inv now m' ∧ h = highest_version (live_entry now m) (stored_mutation <$> mus) 0 ∧
  ∀ k, live_entry now m' k = apply_mutations (live_entry now m) (stored_mutation <$> mus) k.
Proof.
  intros Hi Hwf Hc. split.
  - eapply verify_checks_spec; [done..|]. intros c Hin. apply elem_set_of_list, elem_of_app. left.
    apply list_elem_of_fmap. by exists c.
  - apply build_mutations_spec; [done..|]. intros k Hk. rewrite map_get_on_values.
    destruct (Hc k) as (e & -> & Hv); [by apply elem_set_of_list, elem_of_app; right|].
    cbn. rewrite Hv. by apply live_version_entry.
Qed.

(** *** Without interference *)
Context {DL : DenoKvLaws D}.

Lemma inv_rows now m m' :
  (∀ q, m' q = m q) → deno_inv now m → deno_inv now m' ∧ ∀ k, live_entry now m' k = live_entry now m k.
Proof.
  intros E Hi. split; intros k; [eapply envelope_ok_ext; [|apply Hi]|apply live_entry_ext];
    intros q _; apply E.
Qed.

Lemma entry_holds d q : check_holds (dk_row d) (entry_at d q) = true.
Proof. unfold check_holds. by apply bool_decide_eq_true. Qed.

(** An operation that Deno KV refuses throws and changes nothing. *)
Definition refused : Prop := ∃ cs ms, dk_accepts (D := D) cs ms = false.

(** A commit whose entries are as they were read *)
Lemma commit_unchanged d now cs ms :
  forallb (check_holds (dk_row d)) cs = true →
  (refused ∧ ∃ e, dk_commit now cs ms d = (d, Err e)) ∨
  ∃ d', dk_commit now cs ms d = (d', Ok true) ∧
        ∀ q, dk_row d' q = native_steps now (dk_clock d') (dk_row d) ms q.
Proof.
  intros Hc. destruct (dk_accepts cs ms) eqn:Ea.
  - right. destruct (dk_commit_applies d now cs ms Ea Hc) as (d' & ? & _ & ?). by exists d'.
  - left. split; [by exists cs, ms|]. by apply dk_commit_refused.
Qed.

(** One attempt of the compare-and-swap loop *)
Lemma run_cas now d k v e x left :
  let r := r_value <$> dk_row d (user_key k) in
  run now (cas_loop k v e x (S left)) d =
  match dk_commit now [entry_at d (user_key k)]
          (delete_chunks k (envelope_chunks r) ++ write_value k v (envelope_version r + 1) e x) d with
  | (d', Ok true) => (d', Ok tt)
  | (d', Ok false) => run now (cas_loop k v e x left) d'
  | (d', Err er) => (d', Err er)
  end.
Proof.
  cbn [cas_loop]. destruct (S left <? MAX_CAS_RETRIES)%nat; cbn [run];
    by destruct (dk_commit _ _ _ _) as [d' [[]|er]].
Qed.

(** [set]: the key gets the value with the next version, for the time to live. *)
Lemma deno_set_spec now d k v ttl :
  deno_inv now (dk_row d) → value_wf v → validateKey k = Ok tt → validatePayload v = Ok tt →
  validateTTL ttl = Ok tt →
  (refused ∧ ∃ e, run now (deno_set k v ttl) d = (d, Err e)) ∨
  ∃ d', run now (deno_set k v ttl) d = (d', Ok tt) ∧ deno_inv now (dk_row d') ∧
    (∀ q, dk_row d' q = native_steps now (dk_clock d') (dk_row d)
       (delete_chunks k (envelope_chunks (r_value <$> dk_row d (user_key k))) ++
        write_value k v (envelope_version (r_value <$> dk_row d (user_key k)) + 1)
          ((λ t, now + t * 1000) <$> ttl) ((λ t, t * 1000) <$> ttl)) q) ∧
    ∀ k', live_entry now (dk_row d') k' =
      if decide (k' = k) then Some (stored v, envelope_version (r_value <$> dk_row d (user_key k)) + 1)
      else live_entry now (dk_row d) k'.
Proof.
  intros Hi Hwf Hk Hv Ht. unfold deno_set. rewrite Hk, Hv, Ht. cbn [of_result mbind kvprog_mbind kvprog_bind].
  set (e := (λ t, now + t * 1000) <$> ttl). set (x := (λ t, t * 1000) <$> ttl).
  assert (run now match ttl with None => cas_loop k v None None MAX_CAS_RETRIES
    | Some t => Now (λ now, cas_loop k v (Some (now + t * 1000)) (Some (t * 1000)) MAX_CAS_RETRIES) end d =
    run now (cas_loop k v e x MAX_CAS_RETRIES) d) as -> by by destruct ttl.
  unfold MAX_CAS_RETRIES. rewrite run_cas. set (ms := delete_chunks _ _ ++ _).
  assert (forallb (check_holds (dk_row d)) [entry_at d (user_key k)] = true) as Hc
    by (cbn; by rewrite entry_holds).
  destruct (commit_unchanged d now _ ms Hc) as [[Hr [er Hd]]|(d' & Hd & Hrows)]; rewrite Hd.
  - left. split; [done|]. by exists er.
  - right. exists d'. split; [done|].
    destruct (set_block now now (dk_clock d') (dk_row d) k v (envelope_chunks (r_value <$> dk_row d (user_key k)))
      (envelope_version (r_value <$> dk_row d (user_key k)) + 1) e x) as [Hi' Hl]; [|done|..|done|].
    + specialize (Hi k). unfold envelope_ok in Hi. destruct (dk_row d (user_key k)) as [r|]; [|done].
      specialize (Hi r eq_refl). cbn. destruct (r_value r); cbn; try done; lia.
    + unfold x, e. destruct ttl as [t|]; [|done]. cbn. eexists. split; [done|]. lia.
    + unfold e, validateTTL in *. destruct ttl as [t|]; [|done]. apply throw_if_Ok in Ht. cbn. zbool. lia.
    + destruct (inv_rows now _ (dk_row d') Hrows Hi') as [Hi'' Hl']. split_and!; [done..|].
      intros k'. by rewrite Hl', Hl.
Qed.

(** [delete]: the key is absent. *)
Lemma deno_delete_spec now d k :
  deno_inv now (dk_row d) → validateKey k = Ok tt →
  (refused ∧ ∃ e, run now (deno_delete k) d = (d, Err e)) ∨
  ∃ d' s n, run now (deno_delete k) d = (d', Ok tt) ∧ deno_inv now (dk_row d') ∧
    (∀ q, dk_row d' q = native_steps now s (dk_row d) (delete_chunks k n ++ [NDelete (user_key k)]) q) ∧
    ∀ k', live_entry now (dk_row d') k' =
      if decide (k' = k) then None else live_entry now (dk_row d) k'.
Proof.
  intros Hi Hk. unfold deno_delete. rewrite Hk. cbn [of_result mbind kvprog_mbind kvprog_bind run entry_at e_value].
  assert (∀ d' s n, (∀ q, dk_row d' q = native_steps now s (dk_row d) (delete_chunks k n ++ [NDelete (user_key k)]) q) →
    deno_inv now (dk_row d') ∧
    ∀ k', live_entry now (dk_row d') k' = if decide (k' = k) then None else live_entry now (dk_row d) k') as Hdel.
  { intros d' s n Hrows. destruct (delete_block now now s (dk_row d) k n Hi) as [Hi' Hl].
    destruct (inv_rows now _ (dk_row d') Hrows Hi') as [? Hl']. split; [done|]. intros k'. by rewrite Hl', Hl. }
  assert (run now (Remove (user_key k) (Done tt)) d = (dk_remove (user_key k) d, Ok tt)) as Hrem by done.
  assert (∀ q, dk_row (dk_remove (user_key k) d) q =
               native_steps now 0 (dk_row d) (delete_chunks k 0 ++ [NDelete (user_key k)]) q) as Hrows0.
  { intros q. rewrite dk_remove_row. done. }
  destruct (r_value <$> dk_row d (user_key k)) as [[| n e ty c| |]|];
    [|destruct (commit_unchanged d now [] (delete_chunks k c ++ [NDelete (user_key k)]) eq_refl)
       as [[Hr [er Hd]]|(d' & Hd & Hrows)]; cbn [run]; rewrite Hd; [left; eauto|right]| | |];
    [right; rewrite Hrem; do 3 eexists; split; [done|]; destruct (Hdel _ _ _ Hrows0); eauto|
     do 3 eexists; split; [done|]; destruct (Hdel _ _ _ Hrows); eauto|
     right; rewrite Hrem; do 3 eexists; split; [done|]; destruct (Hdel _ _ _ Hrows0); eauto..].
Qed.

Lemma run_fetch now d ks entries :
  run now (fetch_entries ks entries) d =
  (d, Ok (fold_left (λ es k, map_set es k (entry_at d (user_key k))) ks entries)).
Proof. revert entries. induction ks as [|k ks IH]; intros entries; [done|]. apply IH. Qed.

Lemma fetched_all d ks :
  let entries := fold_left (λ es k, map_set es k (entry_at d (user_key k))) ks [] in
  current (dk_row d) entries ks ∧ forallb (check_holds (dk_row d)) (map_values entries) = true.
Proof.
  assert (∀ ks entries, let entries' := fold_left (λ es k, map_set es k (entry_at d (user_key k))) ks entries in
    (∀ k, k ∈ ks → map_get entries' k = Some (entry_at d (user_key k))) ∧
    (∀ k, k ∉ ks → map_get entries' k = map_get entries k) ∧
    (Forall (λ e, ∃ q, e.2 = entry_at d q) entries → Forall (λ e, ∃ q, e.2 = entry_at d q) entries')) as H1.
  { clear ks. induction ks as [|k ks IH] using rev_ind; intros entries; cbn zeta; [split_and!; [set_solver|done..]|].
    rewrite fold_left_app. cbn. destruct (IH entries) as (Hin & Hout & Hf). split_and!.
    - intros k' Hk'. destruct (decide (k' = k)) as [->|Hne]; [by rewrite map_get_set_eq|].
      rewrite map_get_set_ne by done. apply Hin. set_solver.
    - intros k' Hk'. rewrite map_get_set_ne by set_solver. apply Hout. set_solver.
    - intros Ha. apply Forall_map_set; [by apply Hf|]. by eexists. }
  destruct (H1 ks []) as (Hin & _ & Hf). split.
  - intros k Hk. exists (entry_at d (user_key k)). split; [by apply Hin|done].
  - apply forallb_true_iff. intros e He. apply list_elem_of_fmap in He as (p & -> & Hp).
    specialize (Hf ltac:(constructor)). eapply Forall_forall in Hf as [q ->]; [|done]. apply entry_holds.
Qed.

(** *** Sequences of calls *)

(** A call of the interface; no time to live. *)
Definition deno_call (c : kv_call kv_value) : kvprog (kv_reply kv_value) :=
  match c with
  | CGet k => v ← deno_get k; Done (RValue v)
  | CSet k v => _ ← deno_set k v None; Done RDone
  | CDelete k => _ ← deno_delete k; Done RDone
  | CCommit cs mus => r ← deno_commit cs mus; Done (RCommit r)
  end.

(** Keys and values that the provider accepts *)
Definition deno_valid (c : kv_call kv_value) : Prop :=
  match c with
  | CGet k | CDelete k => validateKey k = Ok tt
  | CSet k v => validateKey k = Ok tt ∧ validatePayload v = Ok tt ∧ value_wf v
  | CCommit cs mus => validate_commit cs mus = Ok tt ∧ Forall mutation_wf mus
  end.

(** The call with the values as they will be read back *)
Definition stored_call (c : kv_call kv_value) : kv_call kv_value :=
  match c with
  | CSet k v => CSet k (stored v)
  | CCommit cs mus => CCommit cs (stored_mutation <$> mus)
  | c => c
  end.

(** A property of every stored value, and of every value a list of mutations stores *)
Definition all_values (P : dkey → stored_value → Prop) m : Prop := ∀ q r, m q = Some r → P q (r_value r).
Definition all_written (P : dkey → stored_value → Prop) (ms : list native) : Prop :=
  Forall (λ n, match n with NSet q v _ => P q v | NDelete _ => True end) ms.

Lemma all_values_steps P now s ms m :
  all_written P ms → all_values P m → all_values P (native_steps now s m ms).
Proof.
  unfold native_steps. intros Hms. revert m. induction Hms as [|n ms Hn _ IH]; intros m Hm; [done|].
  cbn. apply IH. intros q r. destruct n; cbn in *; case_decide; subst; try done; try apply Hm. by intros [= <-].
Qed.

Lemma delete_chunks_written P k n : all_written P (delete_chunks k n).
Proof. unfold delete_chunks. apply Forall_fmap, Forall_forall. done. Qed.

Lemma write_value_written (P : dkey → stored_value → Prop) k v ver e x :
  (∀ q bs, P q (RawBytes bs)) →
  (if isLargePayload v then ∀ ty n, P (user_key k) (Chunked ver e ty n) else P (user_key k) (Direct v ver e)) →
  all_written P (write_value k v ver e x).
Proof.
  intros Hb He. unfold write_value. destruct (isLargePayload v); [|apply Forall_singleton; apply He].
  destruct (chunkPayload v) as [ty cs]. apply Forall_app. split; [|apply Forall_singleton; apply He].
  apply Forall_lookup. intros i n. rewrite list_lookup_imap. destruct (cs !! i); cbn; [|done]. by intros [= <-].
Qed.

Lemma build_mutations_written P entries cur mus h :
  Forall (λ mu, match mu with MSet k v => ∀ ver, all_written P (write_value k v ver None None)
                            | MDelete _ => True end) mus →
  all_written P (build_mutations entries cur mus h).1.
Proof.
  intros Hmus. revert cur h. induction Hmus as [|[k v|k] mus Hmu _ IH]; intros cur h; [constructor|..];
    cbn [build_mutations mutation_key].
  - specialize (IH (map_set cur k (default 0 (map_get cur k) + 1)) (Z.max h (default 0 (map_get cur k) + 1))).
    destruct (build_mutations _ _ mus _). cbn [fst] in *.
    apply Forall_app. split; [apply delete_chunks_written|]. apply Forall_app. split; [apply Hmu|exact IH].
  - specialize (IH (map_set cur k 0) h). destruct (build_mutations _ _ mus _). cbn [fst] in *.
    apply Forall_app. split; [apply delete_chunks_written|]. by constructor.
Qed.

(** No envelope has an expiry time. *)
Definition lasting (q : dkey) (v : stored_value) : Prop :=
  match v with Direct _ _ (Some _) | Chunked _ (Some _) _ _ => False | _ => True end.
Abbreviation permanent := (all_values lasting).

Lemma write_value_lasting k v ver x : all_written lasting (write_value k v ver None x).
Proof. apply write_value_written; [done|]. by destruct (isLargePayload v). Qed.

Lemma all_values_rows P m m' : (∀ q, m' q = m q) → all_values P m → all_values P m'.
Proof. intros E Hm q r. rewrite E. apply Hm. Qed.

(** Without expiry times the clock does not matter. *)
Lemma lasting_clock now now' m k :
  permanent m → live_entry now m k = live_entry now' m k ∧ (envelope_ok now m k → envelope_ok now' m k).
Proof.
  intros Hp. unfold live_entry, envelope_ok. destruct (m (user_key k)) as [r|] eqn:E; [|split; [done|intros _ r; congruence]].
  specialize (Hp _ _ E). cbn. destruct (r_value r) as [? ? []|? [] ? ?| |] eqn:Er; cbn in Hp; try done;
    (split; [done|]); intros H1 r'; specialize (H1 r eq_refl); intros [= <-]; rewrite Er in *; done.
Qed.

Lemma permanent_version now m k :
  deno_inv now m → permanent m →
  envelope_version (r_value <$> m (user_key k)) = version_of (live_entry now m k).
Proof.
  intros Hi Hp. rewrite <-live_version_entry by apply Hi. destruct (m (user_key k)) as [r|] eqn:E; [|done].
  specialize (Hp _ _ E). cbn. by destruct (r_value r) as [? ? []|? [] ? ?| |].
Qed.
End operations.
