(* ===== verification/DenoKvList.v ===== *)
(** * Listing and expiry in the Deno KV provider

    Following the cursors of [list] to the end yields every live entry below the
    prefix exactly once; entries that Deno KV drops after their time to live were
    not live any more. *)

From S2P Require Import Prelude JsString JsMap Errors Utf8 TextDecoder JsNumber JsValue KvInterface DenoKv.

Open Scope Z_scope.
Open Scope railfog_scope.

(** ** Expiry *)

(** Deno KV has dropped some entries whose time has come. *)
Definition collected (now : Z) (m m' : dkey → option row) : Prop :=
  ∀ q, m' q = m q ∨ m' q = None ∧ ∃ r x, m q = Some r ∧ r_expires r = Some x ∧ x ≤ now.

Lemma kept_gone now r x e : kept r e → r_expires r = Some x → x ≤ now → gone now e = true.
Proof. unfold kept. intros Hk E Hx. rewrite E in Hk. destruct Hk as (t & -> & Ht). cbn. apply Z.leb_le. lia. Qed.

(** Dropping them is not observable, and keeps the invariant. *)
Lemma collected_live `{JsonText} now m m' :
  deno_inv now m → collected now m m' →
  deno_inv now m' ∧ ∀ k, live_entry now m' k = live_entry now m k.
Proof.
  intros Hi Hc.
  assert (∀ k ty n e c r, m (user_key k) = Some r → r_value r = Chunked n e ty c → gone now e = false →
    assembled m' (user_key k) c = assembled m (user_key k) c ∧
    ∀ i, (i < c)%nat → m' (chunk_key (user_key k) i) = m (chunk_key (user_key k) i)) as Hch.
  { intros k ty n e c r Hr Hv Hg. pose proof (Hi k r Hr) as Hok. rewrite Hv in Hok.
    destruct Hok as (_ & _ & Hok). destruct (Hok Hg) as [_ Hcs].
    assert (∀ i, (i < c)%nat → m' (chunk_key (user_key k) i) = m (chunk_key (user_key k) i)) as E.
    { intros i Hlt. destruct (Hc (chunk_key (user_key k) i)) as [?|(_ & r1 & x & Hr1 & Hx & Hle)]; [done|].
      destruct (Hcs i Hlt) as (r' & bs & Hr' & _ & Hk). rewrite Hr1 in Hr'. injection Hr' as ->.
      rewrite (kept_gone now r' x e) in Hg by done. done. }
    split; [|done]. unfold assembled. rewrite !flat_map_concat_map. f_equal. apply map_ext_in.
    intros i Hin%in_seq. unfold chunk_bytes. by rewrite E by lia. }
  assert (∀ k, m' (user_key k) = m (user_key k) ∨ m' (user_key k) = None ∧ live_entry now m k = None) as Hu.
  { intros k. destruct (Hc (user_key k)) as [?|(Hn & r & x & Hr & Hx & Hle)]; [by left|]. right. split; [done|].
    pose proof (Hi k r Hr) as Hok. unfold live_entry. rewrite Hr. cbn.
    destruct (r_value r) as [v n e|n e ty c| |]; try done; destruct Hok as (? & Hk); [|destruct Hk as [Hk _]];
      by rewrite (kept_gone now r x e). }
  split.
  - intros k r Hr. destruct (Hu k) as [E|[E _]]; [|congruence]. rewrite E in Hr. pose proof (Hi k r Hr) as Hok.
    destruct (r_value r) as [v n e|n e ty c| |] eqn:Ev; try done. destruct Hok as (? & ? & Hok).
    split_and!; [done..|]. intros Hg. destruct (Hch k ty n e c r Hr Ev Hg) as [-> Ec].
    destruct (Hok Hg) as [? Hcs]. split; [done|]. intros i Hlt. rewrite Ec by done. by apply Hcs.
  - intros k. destruct (Hu k) as [E|[E Hn]]; [|by rewrite Hn; unfold live_entry; rewrite E].
    unfold live_entry. rewrite E. destruct (m (user_key k)) as [r|] eqn:Er; [|done]. cbn.
    destruct (r_value r) as [v n e|n e ty c| |] eqn:Ev; try done. destruct (gone now e) eqn:Hg; [done|].
    by destruct (Hch k ty n e c r Er Ev Hg) as [-> _].
Qed.

(** Time only takes entries away. *)
Lemma inv_later `{JsonText} now now' m : now ≤ now' → deno_inv now m → deno_inv now' m.
Proof.
  intros Hle Hi k r Hr. specialize (Hi k r Hr). destruct (r_value r) as [v n e|n e ty c| |]; try done.
  destruct Hi as (? & ? & Hok). split_and!; [done..|]. intros Hg. apply Hok.
  destruct e as [t|]; [|done]. cbn in *. zbool. apply Z.leb_gt. lia.
Qed.

(** ** Pages *)

(** The documented behaviour of [kv.list]: the entries strictly below the prefix,
    each once; a cursor resumes after its entry. *)
Class DenoKvListing (D : Type) `{DenoKv D} := {
  entries_rows d p q v :
    (q, v) ∈ (dk_entries d p None).*1 ↔
    ∃ rest r, rest ≠ [] ∧ q = p ++ rest ∧ dk_row d q = Some r ∧ v = r_value r;
  entries_NoDup d p : NoDup (dk_entries d p None).*1.*1;
  entries_after d p i q v c :
    dk_entries d p None !! i = Some (q, v, c) →
    c ≠ [] ∧ dk_entries d p (Some c) = drop (S i) (dk_entries d p None)
}.

Section listing.
Context `{JsonText} {D : Type} `{DenoKv D} {DLs : DenoKvListing D}.

(** A client that follows the cursors *)
Fixpoint list_all (fuel : nat) (prefix : key) (limit : option Z) (cursor : option jstr)
    : kvprog (list (dkey * option kv_value)) :=
  match fuel with
  | O => Throw PlainError
  | S fuel =>
      pg ← deno_list prefix limit cursor;
      match pg_cursor pg with
      | Some ((_ :: _) as c) => rest ← list_all fuel prefix limit (Some c); Done (pg_keys pg ++ rest)
      | _ => Done (pg_keys pg)
      end
  end.

(** What the loop makes of an entry: nothing when it has expired *)
Definition shown (now : Z) (d : D) (e : dkey * stored_value * jstr) : option (dkey * option kv_value) :=
  match run now (resolveValue e.1.1 (Some e.1.2)) d with
  | (_, Ok res) => if rs_expired res then None else Some (e.1.1, rs_value res)
  | (_, Err _) => None
  end.

(** The entries that [resolveValue] reads without an error *)
Definition readable (now : Z) (d : D) (e : dkey * stored_value * jstr) : Prop :=
  ∃ res, run now (resolveValue e.1.1 (Some e.1.2)) d = (d, Ok res).

Lemma page_loop_spec now d limit es keys lastCursor :
  Forall (readable now d) es →
  ∃ pg, run now (page_loop limit es keys lastCursor) d = (d, Ok pg) ∧
  (pg_cursor pg = None ∧ pg_keys pg = keys ++ omap (shown now d) es ∨
   limit ≤ Z.of_nat (length keys) ∧ pg_keys pg = keys ∧ pg_cursor pg = lastCursor ∨
   ∃ es1 e es2, es = es1 ++ e :: es2 ∧ pg_cursor pg = Some e.2 ∧
     pg_keys pg = keys ++ omap (shown now d) (es1 ++ [e])).
Proof.
  intros Hes. revert keys lastCursor. induction Hes as [|[[q v] c] es [res Hres] _ IH]; intros keys lastCursor.
  - eexists. split; [done|]. left. by rewrite app_nil_r.
  - cbn [page_loop]. rewrite run_bind. cbn [fst snd] in Hres. rewrite Hres.
    assert (shown now d (q, v, c) = if rs_expired res then None else Some (q, rs_value res)) as Hsh
      by (unfold shown; cbn [fst snd]; by rewrite Hres).
    destruct (rs_expired res) eqn:Ex.
    + destruct (IH keys lastCursor) as (pg & Hrun & Hpg). exists pg. split; [done|]. cbn [omap list_omap].
      rewrite Hsh. destruct Hpg as [?|[?|(es1 & e & es2 & -> & Hc & Hk)]]; [by left|by right; left|].
      right; right. exists ((q, v, c) :: es1), e, es2. split_and!; [done..|]. cbn [app omap list_omap]. by rewrite Hsh.
    + destruct (Z.ltb_spec (Z.of_nat (length keys)) limit).
      * destruct (IH (keys ++ [(q, rs_value res)]) (Some c)) as (pg & Hrun & Hpg). exists pg. split; [done|].
        destruct Hpg as [[Hc Hk]|[(_ & Hk & Hc)|(es1 & e & es2 & -> & Hc & Hk)]].
        -- left. split; [done|]. cbn [omap list_omap]. by rewrite Hsh, Hk, <-app_assoc.
        -- right; right. exists [], (q, v, c), es. split_and!; [done..|]. cbn. by rewrite Hsh.
        -- right; right. exists ((q, v, c) :: es1), e, es2. split_and!; [done..|].
           cbn [app omap list_omap]. by rewrite Hsh, Hk, <-app_assoc.
      * eexists. split; [done|]. right; left. split; [done|]. done.
Qed.

Lemma page_limit_pos limit : 1 ≤ list_limit limit.
Proof. unfold list_limit. destruct limit as [n|]; [|done]. destruct (Z.ltb_spec 0 n); lia. Qed.

Lemma list_pages_from now d prefix limit (all := dk_entries d (user_key prefix) None) n cursor fuel :
  validateKey prefix = Ok tt → Forall (readable now d) all →
  match cursor with
  | None => n = 0%nat
  | Some c => c ≠ [] ∧ dk_entries d (user_key prefix) (Some c) = drop n all
  end →
  (length all < n + fuel)%nat → (n ≤ length all)%nat →
  run now (list_all fuel prefix limit cursor) d = (d, Ok (omap (shown now d) (drop n all))).
Proof.
  intros Hk Hall. revert n cursor. induction fuel as [|fuel IH]; intros n cursor Hcur Hf Hn; [lia|].
  cbn [list_all]. rewrite run_bind. unfold deno_list. rewrite Hk.
  cbn [of_result mbind kvprog_mbind kvprog_bind run].
  assert (dk_entries d (user_key prefix) match cursor with Some ((_ :: _) as c) => Some c | _ => None end = drop n all) as ->.
  { destruct cursor as [[|x c]|]; [by destruct Hcur|by destruct Hcur|by subst n]. }
  destruct (page_loop_spec now d (list_limit limit) (drop n all) [] None) as (pg & -> & Hpg); [by apply Forall_drop|].
  pose proof (page_limit_pos limit). destruct Hpg as [[-> ->]|[[? _]|(es1 & e & es2 & Hes & -> & ->)]]; [done|cbn in *; lia|].
  assert (all !! (n + length es1)%nat = Some e) as He by (rewrite <-lookup_drop, Hes; by apply list_lookup_middle).
  destruct e as [[q v] c]. destruct (entries_after d (user_key prefix) _ q v c He) as [Hc0 Hc].
  pose proof (lookup_lt_Some _ _ _ He) as Hlt. cbn [snd]. destruct c as [|x c]; [done|]. rewrite run_bind.
  assert (drop (S (n + length es1)) all = es2) as Hd.
  { replace (S (n + length es1))%nat with (n + (length es1 + 1))%nat by lia. rewrite <-drop_drop, Hes.
    rewrite cons_middle, app_assoc. apply drop_app_length'. rewrite length_app. cbn. lia. }
  rewrite (IH (S (n + length es1))) by (done || lia). cbn [run app]. do 2 f_equal.
  rewrite Hd, Hes, (cons_middle _ es1 es2), (app_assoc es1), (omap_app _ (es1 ++ _)). done.
Qed.

Lemma user_key_app a b : user_key (a ++ b) = user_key a ++ user_key b.
Proof. apply fmap_app. Qed.

(** A valid prefix does not reach the chunk entries. *)
Lemma valid_prefix_user prefix rest k :
  validateKey prefix = Ok tt → belongs k (user_key prefix ++ rest) →
  ∃ krest, rest = user_key krest ∧ k = prefix ++ krest.
Proof.
  unfold validateKey. intros Hk. destruct prefix as [|seg prefix]; [done|].
  intros [Hq|[i Hq]].
  - symmetry in Hq. apply fmap_app_inv in Hq as (k1 & k2 & H1 & -> & ->).
    apply (inj user_key) in H1 as <-. by exists k2.
  - unfold chunk_key in Hq. injection Hq as Hseg _. exfalso. inv_ok Hk. subst seg. cbn in Hok1. done.
Qed.

Lemma shown_live now d k v c :
  envelope_ok now (dk_row d) k → r_value <$> dk_row d (user_key k) = Some v →
  readable now d (user_key k, v, c) ∧
  shown now d (user_key k, v, c) = (λ e, (user_key k, Some e.1)) <$> live_entry now (dk_row d) k.
Proof.
  intros Hok Hv. destruct (run_resolve now d k Hok) as (res & Hrun & Hval & _ & Hexp). rewrite Hv in Hrun.
  split; [by exists res|]. unfold shown. cbn [fst snd]. rewrite Hrun, Hexp by (by destruct (dk_row d (user_key k))).
  rewrite Hval. by destruct (live_entry now (dk_row d) k) as [[]|].
Qed.

(** Following the cursors of [list] with any page size yields each live entry
    strictly below the prefix once, and nothing else. *)
Theorem deno_list_complete now d prefix limit fuel :
  validateKey prefix = Ok tt → deno_inv now (dk_row d) →
  (∀ q r, dk_row d q = Some r → ∃ k, belongs k q) →
  (length (dk_entries d (user_key prefix) None) < fuel)%nat →
  ∃ es, run now (list_all fuel prefix limit None) d = (d, Ok es) ∧ NoDup es.*1 ∧
        ∀ q v, (q, v) ∈ es ↔
          ∃ rest x n, rest ≠ [] ∧ q = user_key (prefix ++ rest) ∧ v = Some x ∧
                      live_entry now (dk_row d) (prefix ++ rest) = Some (x, n).
Proof.
  intros Hk Hi Hkeys Hf. set (all := dk_entries d (user_key prefix) None) in *.
  assert (∀ e, e ∈ all → ∃ rest, rest ≠ [] ∧ e.1.1 = user_key (prefix ++ rest) ∧
    r_value <$> dk_row d (user_key (prefix ++ rest)) = Some e.1.2) as Hall.
  { intros [[q v] c] He. assert ((q, v) ∈ all.*1) as (rest & r & Hne & -> & Hr & ->)%entries_rows
      by (apply list_elem_of_fmap; by exists (q, v, c)).
    destruct (Hkeys _ _ Hr) as [k Hb]. destruct (valid_prefix_user prefix rest k Hk Hb) as (krest & -> & ->).
    exists krest. rewrite user_key_app, Hr. split; [by intros ->|done]. }
  assert (∀ e, e ∈ all → readable now d e ∧ ∃ rest, rest ≠ [] ∧ e.1.1 = user_key (prefix ++ rest) ∧
    shown now d e = (λ x, (user_key (prefix ++ rest), Some x.1)) <$> live_entry now (dk_row d) (prefix ++ rest)) as Hshow.
  { intros [[q v] c] He. destruct (Hall _ He) as (rest & Hne & Hq & Hv). cbn in Hq, Hv. subst q.
    destruct (shown_live now d (prefix ++ rest) v c (Hi _) Hv). split; [done|]. by exists rest. }
  exists (omap (shown now d) all). split; [|split].
  - rewrite (list_pages_from now d prefix limit 0 None fuel); [done|done| |done|cbn; fold all; lia|lia].
    apply Forall_forall. intros e He. by apply Hshow.
  - pose proof (entries_NoDup d (user_key prefix)) as Hnd. fold all in Hnd. clear Hf Hall.
    induction all as [|e all IH]; [constructor|]. cbn [omap list_omap fmap list_fmap] in *.
    apply NoDup_cons in Hnd as [Hnin Hnd].
    specialize (IH ltac:(intros; apply Hshow; by right) Hnd).
    destruct (Hshow e ltac:(left)) as (_ & rest & _ & Hq & Hs). rewrite Hs.
    destruct (live_entry now (dk_row d) (prefix ++ rest)); cbn; [|done]. constructor; [|done].
    intros ([q' v'] & Hq' & (e' & He' & Hs')%list_elem_of_omap)%list_elem_of_fmap. apply Hnin.
    destruct (Hshow e' ltac:(by right)) as (_ & rest' & _ & Hqe & Hse). rewrite Hse in Hs'.
    destruct (live_entry now (dk_row d) (prefix ++ rest')) as [x|]; [|done]. cbn in Hs', Hq'. injection Hs' as <- _.
    apply list_elem_of_fmap. exists e'.1. split; [by rewrite Hq, Hqe, Hq'|]. apply list_elem_of_fmap. by exists e'.
  - intros q v. rewrite list_elem_of_omap. split.
    + intros (e & He & Hs). destruct (Hshow e He) as (_ & rest & Hne & _ & Hse). rewrite Hse in Hs.
      destruct (live_entry now (dk_row d) (prefix ++ rest)) as [[x n]|] eqn:El; [|done]. injection Hs as <- <-.
      by exists rest, x, n.
    + intros (rest & x & n & Hne & -> & -> & El).
      destruct (dk_row d (user_key (prefix ++ rest))) as [r|] eqn:Er; [|unfold live_entry in El; by rewrite Er in El].
      assert ((user_key (prefix ++ rest), r_value r) ∈ all.*1) as ([[q1 v1] c] & [= <- <-] & He)%list_elem_of_fmap.
      { apply entries_rows. exists (user_key rest), r. rewrite user_key_app in Er |- *.
        split_and!; try done. by destruct rest. }
      eexists. split; [exact He|]. destruct (shown_live now d (prefix ++ rest) (r_value r) c (Hi _)) as [_ ->];
        [by rewrite Er|]. by rewrite El.
Qed.
End listing.
