(* ===== verification/DenoTtl.v ===== *)
(** * Times to live on Deno KV

    The Deno KV provider ([providers/kv/deno-deploy-provider.ts]) against the
    timed map of [KvInterface], which the SQLite provider implements: as long as
    the keys that are set with a time to live take no part in commits, whose
    checks and answers show versions, the answers are the same.  An expired
    envelope stays in Deno KV and its version goes on, where the SQLite provider
    may have removed the row: [DenoKvSafety.ttl_versions_differ].  The native
    [expireIn] is an upper bound of what Deno KV keeps: here it drops nothing by
    itself, and an entry it drops later has expired already. *)

From S2P Require Import Prelude JsString JsMap Errors Utf8 TextDecoder JsNumber JsValue KvInterface DenoKv.

Open Scope Z_scope.
Open Scope railfog_scope.

(** The expiry time in the envelope of a key *)
Definition row_expiry (m : dkey → option row) (k : key) : option (option Z) :=
  match r_value <$> m (user_key k) with
  | Some (Direct _ _ e) | Some (Chunked _ e _ _) => Some e
  | _ => None
  end.

Section rows.
Context `{JsonText}.
Implicit Types (m : dkey → option row).

Lemma live_has_expiry now m k x : live_entry now m k = Some x → ∃ e, row_expiry m k = Some e ∧ gone now e = false.
Proof.
  unfold live_entry, row_expiry. destruct (r_value <$> m (user_key k)) as [[v n e|n e ty c| |]|]; try done;
    destruct (gone now e) eqn:E; try done; intros _; by exists e.
Qed.

Lemma gone_later now now' e : now ≤ now' → gone now e = true → gone now' e = true.
Proof. unfold gone. destruct e as [t|]; [|done]. intros ? ?%Z.leb_le. apply Z.leb_le. lia. Qed.

(** What can be read later *)
Lemma live_entry_later now now' m k : now ≤ now' →
  live_entry now' m k =
  match row_expiry m k with Some e => if gone now' e then None else live_entry now m k | None => None end.
Proof.
  intros Hn. unfold live_entry, row_expiry. destruct (r_value <$> m (user_key k)) as [[v n e|n e ty c| |]|]; try done;
    destruct (gone now' e) eqn:E'; try done; destruct (gone now e) eqn:E; try done;
    by rewrite (gone_later now now' e Hn E) in E'.
Qed.

Lemma deno_inv_later now now' m : now ≤ now' → deno_inv now m → deno_inv now' m.
Proof.
  intros Hn Hi k r Hr. specialize (Hi k r Hr). destruct (r_value r) as [v n e|n e ty c| |]; try done.
  destruct Hi as (? & ? & Hc). split_and!; [done..|]. intros Hg. apply Hc.
  destruct (gone now e) eqn:E; [|done]. by rewrite (gone_later now now' e Hn E) in Hg.
Qed.

(** The expiry time after a write, and after a delete *)
Lemma row_expiry_write now s m ms k v ver e x :
  row_expiry (native_steps now s m (ms ++ write_value k v ver e x)) k = Some e.
Proof.
  unfold write_value. destruct (isLargePayload v).
  - destruct (chunkPayload v) as [ty cs]. rewrite app_assoc, native_steps_app. unfold row_expiry. cbn.
    by rewrite decide_True.
  - rewrite native_steps_app. unfold row_expiry. cbn. by rewrite decide_True.
Qed.

Lemma row_expiry_delete now s m ms k :
  row_expiry (native_steps now s m (ms ++ [NDelete (user_key k)])) k = None.
Proof. rewrite native_steps_app. unfold row_expiry. cbn. by rewrite decide_True. Qed.

Lemma row_expiry_same m m' k : same_at k m m' → row_expiry m' k = row_expiry m k.
Proof. intros E. unfold row_expiry. by rewrite (E (user_key k)) by by left. Qed.

Lemma row_expiry_rows m m' k : (∀ q, m' q = m q) → row_expiry m' k = row_expiry m k.
Proof. intros E. apply row_expiry_same. intros q _. apply E. Qed.

(** The entries that a commit writes or deletes belong to the keys it names. *)
Lemma build_mutations_keys entries cur mus h :
  Forall (λ n, ∃ k, k ∈ mutation_key <$> mus ∧ belongs k (native_key n)) (build_mutations entries cur mus h).1.
Proof.
  revert cur h. induction mus as [|mu mus IH]; intros cur h; [constructor|].
  assert (∀ ms : list native, Forall (λ n, belongs (mutation_key mu) (native_key n)) ms →
    Forall (λ n, ∃ k, k ∈ mutation_key <$> mu :: mus ∧ belongs k (native_key n)) ms) as Hhere.
  { intros ms Hms. eapply Forall_impl; [exact Hms|]. intros n Hn. exists (mutation_key mu). split; [left|done]. }
  assert (∀ ms : list native, Forall (λ n, ∃ k, k ∈ mutation_key <$> mus ∧ belongs k (native_key n)) ms →
    Forall (λ n, ∃ k, k ∈ mutation_key <$> mu :: mus ∧ belongs k (native_key n)) ms) as Hrest.
  { intros ms Hms. eapply Forall_impl; [exact Hms|]. intros n (k & Hk & Hn). exists k. split; [by right|done]. }
  destruct mu as [k v|k]; cbn [build_mutations mutation_key] in *.
  - specialize (IH (map_set cur k (default 0 (map_get cur k) + 1)) (Z.max h (default 0 (map_get cur k) + 1))).
    destruct (build_mutations _ _ mus _). cbn [fst] in *.
    apply Forall_app. split; [apply Hhere, delete_chunks_belong|].
    apply Forall_app. split; [apply Hhere, write_value_belongs|by apply Hrest].
  - specialize (IH (map_set cur k 0) h). destruct (build_mutations _ _ mus _). cbn [fst] in *.
    apply Forall_app. split; [apply Hhere, delete_chunks_belong|].
    constructor; [exists k; split; [left|by left]|by apply Hrest].
Qed.
End rows.

(** ** Calls with times to live *)
Section timed.
Context `{JsonText} {JTL : JsonTextLaws} {D : Type} `{DenoKv D} {DL : DenoKvLaws D}.
Implicit Types (d : D) (tm : key → option (cell kv_value)).

Definition deno_timed_call (c : timed_call kv_value) : kvprog (kv_reply kv_value) :=
  match c with
  | Plain c => deno_call c
  | SetTtl k v ttl => _ ← deno_set k v (Some ttl); Done RDone
  end.
Definition deno_timed_valid (c : timed_call kv_value) : Prop :=
  match c with
  | Plain c => deno_valid c
  | SetTtl k v ttl => validateKey k = Ok tt ∧ validatePayload v = Ok tt ∧ value_wf v ∧ validateTTL (Some ttl) = Ok tt
  end.
Definition stored_timed (c : timed_call kv_value) : timed_call kv_value :=
  match c with Plain c => Plain (stored_call c) | SetTtl k v ttl => SetTtl k (stored v) ttl end.

(** Calls one after the other, up to the first that throws *)
Fixpoint run_deno_timed d (cs : list (Z * timed_call kv_value)) : list (result exn (kv_reply kv_value)) :=
  match cs with
  | [] => []
  | (now, c) :: cs =>
      let '(d, r) := run now (deno_timed_call c) d in
      r :: match r with Ok _ => run_deno_timed d cs | Err _ => [] end
  end.

(** The keys that are set with a time to live *)
Context (volatile : key → Prop).

Definition versions_hidden (c : timed_call kv_value) : Prop :=
  match c with
  | SetTtl k _ _ => volatile k
  | Plain (CCommit cs mus) => Forall (λ c, ¬ volatile (ck_key c)) cs ∧
                              Forall (λ mu, ¬ volatile (mutation_key mu)) mus
  | Plain _ => True
  end.

(** A key in the rows of Deno KV and in the timed map: the same value until the
    same time, and the same version where it may be seen *)
Definition key_agrees (now : Z) (m : dkey → option row) tm (k : key) : Prop :=
  fst <$> live_entry now m k = fst <$> live now tm k ∧
  (∀ c, tm k = Some c → dead now c = false → row_expiry m k = Some (c_expires c)) ∧
  (¬ volatile k →
    live_entry now m k = live now tm k ∧ (∀ e, row_expiry m k = Some e → e = None) ∧
    ∀ c, tm k = Some c → c_expires c = None).

Definition agrees (now : Z) d tm : Prop := deno_inv now (dk_row d) ∧ ∀ k, key_agrees now (dk_row d) tm k.

Lemma live_later now now' tm k : now ≤ now' →
  live now' tm k = match tm k with Some c => if dead now' c then None else live now tm k | None => None end.
Proof.
  intros Hn. unfold live. destruct (tm k) as [c|]; [|done]. destruct (dead now' c) eqn:E'; [done|].
  destruct (dead now c) eqn:E; [|done]. unfold dead in *. destruct (c_expires c); [|done]. zbool. lia.
Qed.

Lemma agrees_later now now' d tm : now ≤ now' → agrees now d tm → agrees now' d tm.
Proof.
  intros Hn [Hi Hk]. split; [by eapply deno_inv_later|]. intros k. destruct (Hk k) as (Hv & He & Hs).
  unfold key_agrees. split; [|split].
  - rewrite (live_entry_later now), (live_later now) by done.
    destruct (tm k) as [c|] eqn:Ec.
    + destruct (dead now c) eqn:Ed.
      * assert (dead now' c = true) as -> by (by apply (gone_later now now' (c_expires c))).
        unfold live in Hv. rewrite Ec, Ed in Hv. destruct (live_entry now (dk_row d) k); [done|].
        by destruct (row_expiry _ _) as [e|]; [destruct (gone now' e)|].
      * rewrite (He c eq_refl Ed). change (gone now' (c_expires c)) with (dead now' c). by destruct (dead now' c).
    + unfold live in Hv. rewrite Ec in Hv. destruct (live_entry now (dk_row d) k); [done|].
      by destruct (row_expiry _ _) as [e|]; [destruct (gone now' e)|].
  - intros c Hc Hd. apply He; [done|]. destruct (dead now c) eqn:E; [|done].
    change (gone now (c_expires c) = true) in E. apply (gone_later now now') in E; [|done].
    change (dead now' c = true) in E. congruence.
  - intros Hnv. destruct (Hs Hnv) as (Hl & Hr & Hc). split_and!; [|done..].
    rewrite (live_entry_later now), (live_later now), Hl by done. unfold live.
    destruct (tm k) as [c|] eqn:Ec; [|by destruct (row_expiry _ _) as [e|]; [destruct (gone now' e)|]].
    assert (∀ t, dead t c = false) as Hd by (intros t; unfold dead; by rewrite (Hc c)).
    assert (row_expiry (dk_row d) k = Some (c_expires c)) as -> by (by apply He).
    rewrite !Hd. rewrite (Hc c) by done. done.
Qed.

(** A key that is left alone *)
Lemma key_agrees_frame now m m' tm tm' k :
  key_agrees now m tm k → live_entry now m' k = live_entry now m k → row_expiry m' k = row_expiry m k →
  live now tm' k = live now tm k → (∀ c, tm' k = Some c → tm k = Some c) → key_agrees now m' tm' k.
Proof.
  intros (Hv & He & Hs) El Er Et Ec. unfold key_agrees. rewrite El, Er, Et. split_and!; [done| |].
  - intros c Hc. by apply He, Ec.
  - intros Hnv. destruct (Hs Hnv) as (? & ? & Hc'). split_and!; [done..|]. intros c Hc. by apply Hc', Ec.
Qed.

Lemma put_live now tm k v e k' : gone now e = false →
  live now (put tm k v e) k' =
  if decide (k' = k) then Some (v, match tm k with Some c => c_version c + 1 | None => 1 end) else live now tm k'.
Proof.
  intros Hg. unfold live at 1, put. case_decide; [|done].
  match goal with |- context [dead now ?c] => change (dead now c) with (gone now e) end. by rewrite Hg.
Qed.

(** [set], with or without a time to live *)
Lemma set_simulates now d tm k v ttl :
  agrees now d tm → validateKey k = Ok tt → validatePayload v = Ok tt → value_wf v → validateTTL ttl = Ok tt →
  (¬ volatile k → ttl = None) →
  (refused (D := D) ∧ ∃ e, run now (deno_set k v ttl) d = (d, Err e)) ∨
  ∃ d', run now (deno_set k v ttl) d = (d', Ok tt) ∧
        agrees now d' (put tm k (stored v) ((λ t, now + t * 1000) <$> ttl)).
Proof.
  intros [Hi Hk] Hvk Hvp Hwf Ht Hnv. destruct (deno_set_spec now d k v ttl Hi Hwf Hvk Hvp Ht)
    as [?|(d' & Hrun & Hi' & Hrows & Hl)]; [by left|right].
  exists d'. split; [done|]. split; [done|]. intros k'.
  set (e := (λ t, now + t * 1000) <$> ttl) in *.
  assert (gone now e = false) as Hg.
  { unfold e, validateTTL in *. destruct ttl as [t|]; [|done]. apply throw_if_Ok in Ht. cbn. zbool. lia. }
  destruct (decide (k' = k)) as [->|Hne].
  - assert (row_expiry (dk_row d') k = Some e) as Hr
      by (rewrite (row_expiry_rows _ _ k Hrows); apply row_expiry_write).
    unfold key_agrees. rewrite Hr, Hl, put_live, !decide_True by done. unfold put. rewrite decide_True by done.
    split_and!; [done|by intros c [= <-]|]. intros Hk0. destruct (Hk k) as (_ & _ & Hs).
    destruct (Hs Hk0) as (Hle & Hre & Hce). split_and!.
    + f_equal. f_equal. assert (∀ a b : Z, a = b → a + 1 = b + 1) as Hp by lia.
      transitivity (version_of (live_entry now (dk_row d) k) + 1).
      * apply Hp. rewrite <-live_version_entry by apply Hi. unfold row_expiry in Hre.
        destruct (r_value <$> dk_row d (user_key k)) as [[v0 n e0|n e0 ty c| |]|]; try done;
          cbn; by rewrite (Hre e0).
      * rewrite Hle, live_everlasting by done. by destruct (tm k).
    + intros e0 [= <-]. unfold e. by rewrite (Hnv Hk0).
    + intros c [= <-]. unfold e. by rewrite (Hnv Hk0).
  - eapply key_agrees_frame; [apply Hk|by rewrite Hl, decide_False| |by rewrite put_live, decide_False|].
    + rewrite (row_expiry_rows _ _ k' Hrows). apply row_expiry_same.
      apply native_steps_frame with (k := k); [|done]. apply Forall_app.
      split; [apply delete_chunks_belong|apply write_value_belongs].
    + intros c. unfold put. by rewrite decide_False.
Qed.

Lemma delete_simulates now d tm k :
  agrees now d tm → validateKey k = Ok tt →
  (refused (D := D) ∧ ∃ e, run now (deno_delete k) d = (d, Err e)) ∨
  ∃ d', run now (deno_delete k) d = (d', Ok tt) ∧ agrees now d' (drop_key tm k).
Proof.
  intros [Hi Hk] Hvk. destruct (deno_delete_spec now d k Hi Hvk)
    as [?|(d' & s & n & Hrun & Hi' & Hrows & Hl)]; [by left|right].
  exists d'. split; [done|]. split; [done|]. intros k'.
  destruct (decide (k' = k)) as [->|Hne].
  - assert (row_expiry (dk_row d') k = None) as Hr
      by (rewrite (row_expiry_rows _ _ k Hrows); apply row_expiry_delete).
    unfold key_agrees. rewrite Hr, Hl, decide_True by done. unfold live, drop_key. by rewrite decide_True.
  - eapply key_agrees_frame; [apply Hk|by rewrite Hl, decide_False| | |].
    + rewrite (row_expiry_rows _ _ k' Hrows). apply row_expiry_same.
      apply native_steps_frame with (k := k); [|done]. apply Forall_app.
      split; [apply delete_chunks_belong|repeat constructor].
    + unfold live, drop_key. by rewrite decide_False.
    + intros c. unfold drop_key. by rewrite decide_False.
Qed.

Lemma put_mutations_expiry tm mus k :
  (∀ c, tm k = Some c → c_expires c = None) →
  ∀ c, put_mutations (V := kv_value) tm mus k = Some c → c_expires c = None.
Proof.
  unfold put_mutations. revert tm. induction mus as [|mu mus IH]; intros tm Ht; [done|]. cbn. apply IH.
  intros c. destruct mu; cbn; unfold put, drop_key; case_decide; first [done|apply Ht|by intros [= <-]].
Qed.

(** The keys of a commit *)
Lemma checks_agree now m tm cs :
  (∀ k, key_agrees now m tm k) → Forall (λ c, ¬ volatile (ck_key c)) cs →
  checks_hold (live_entry now m) cs = checks_hold (live now tm) cs.
Proof.
  intros Hk Hcs. unfold checks_hold. induction Hcs as [|c cs Hc _ IH]; [done|]. cbn.
  destruct (Hk (ck_key c)) as (_ & _ & Hs). destruct (Hs Hc) as [-> _]. by rewrite IH.
Qed.

Lemma apply_mutations_at (m1 m2 : key → option (kv_value * Z)) mus :
  Forall (λ mu, m1 (mutation_key mu) = m2 (mutation_key mu)) mus →
  ∀ k, m1 k = m2 k → apply_mutations m1 mus k = apply_mutations m2 mus k.
Proof.
  unfold apply_mutations. revert m1 m2. induction mus as [|mu mus IH]; intros m1 m2 Hm k Hk; [done|].
  apply Forall_cons in Hm as [Hmu Hm]. cbn. apply IH.
  - eapply Forall_impl; [exact Hm|]. intros mu' E. destruct mu; cbn in *; case_decide; by rewrite ?Hmu.
  - destruct mu; cbn in *; case_decide; by rewrite ?Hmu.
Qed.

(** After the mutations of a commit the keys still agree. *)
Lemma commit_agrees now m m' tm entries cur mus h s :
  (∀ k, key_agrees now m tm k) → Forall (λ mu, ¬ volatile (mutation_key mu)) mus →
  let ms := (build_mutations entries cur mus h).1 in
  (∀ q, m' q = native_steps now s m ms q) →
  (∀ k, live_entry now m' k = apply_mutations (live_entry now m) (stored_mutation <$> mus) k) →
  ∀ k, key_agrees now m' (put_mutations (purge now tm) (stored_mutation <$> mus)) k.
Proof.
  intros Hk Hmus ms Hrows Hl k.
  assert (mutation_key <$> (stored_mutation <$> mus) = mutation_key <$> mus) as Hkeys.
  { rewrite <-list_fmap_compose. apply list_fmap_ext. intros i mu _. apply stored_mutation_key. }
  assert (∀ k', k' ∈ mutation_key <$> mus → ¬ volatile k') as Hnv.
  { intros k' (mu & -> & Hmu)%list_elem_of_fmap. eapply Forall_forall in Hmus; [|exact Hmu]. done. }
  destruct (decide (k ∈ mutation_key <$> mus)) as [Hin|Hout].
  - pose proof (Hnv k Hin) as Hk0. destruct (Hk k) as (_ & _ & Hs). destruct (Hs Hk0) as (Hle & Hre & Hce).
    assert (live_entry now m' k = live now (put_mutations (purge now tm) (stored_mutation <$> mus)) k) as E.
    { rewrite Hl, live_put_mutations by apply purged_live. apply apply_mutations_at.
      - apply Forall_forall. intros mu Hmu. rewrite live_purge.
        assert (mutation_key mu ∈ mutation_key <$> mus) as Hmu'
          by (rewrite <-Hkeys; by apply list_elem_of_fmap_2).
        destruct (Hk (mutation_key mu)) as (_ & _ & Hs'). by apply Hs', Hnv.
      - by rewrite live_purge. }
    assert (∀ e, row_expiry m' k = Some e → e = None) as Hre'.
    { assert (all_values (λ q v, q = user_key k → lasting q v) m') as Hall.
      { apply (all_values_rows _ (native_steps now s m ms)); [done|]. apply all_values_steps.
        - apply build_mutations_written, Forall_forall. intros [k0 v0|k0] _; [|done]. intros ver.
          eapply Forall_impl; [apply write_value_lasting|]. intros []; [by intros ? _|done].
        - intros q r Hr ->. unfold row_expiry in Hre. rewrite Hr in Hre. cbn in Hre.
          destruct (r_value r) as [? ? e|? e ? ?| |]; cbn; try done; by rewrite (Hre e). }
      intros e. unfold row_expiry. destruct (m' (user_key k)) as [r|] eqn:Er; [|done].
      specialize (Hall _ _ Er eq_refl). cbn. destruct (r_value r) as [? ? []|? [] ? ?| |]; try done; by intros [= <-]. }
    assert (∀ c, put_mutations (purge now tm) (stored_mutation <$> mus) k = Some c → c_expires c = None) as Hce'.
    { apply put_mutations_expiry. intros c. unfold purge. destruct (tm k) as [c'|] eqn:Ec; [|done].
      destruct (dead now c'); [done|]. intros [= <-]. by apply Hce. }
    split_and!; [by rewrite E| |done]. intros c Hc Hd.
    destruct (live_has_expiry now m' k (c_value c, c_version c)) as (e & He & _).
    { rewrite E. unfold live. by rewrite Hc, Hd. }
    rewrite He. by rewrite (Hre' e He), (Hce' c Hc).
  - assert (same_at k m m') as Hsame.
    { intros q Hq. rewrite Hrows. apply native_steps_other. eapply Forall_impl; [apply build_mutations_keys|].
      intros n (k' & Hk' & Hn) <-. apply Hout. assert (k' = k) as -> by by eapply belongs_disjoint. done. }
    assert (put_mutations (purge now tm) (stored_mutation <$> mus) k = purge now tm k) as Hput.
    { apply put_mutations_other. apply Forall_forall. intros mu Hmu ->. apply Hout. rewrite <-Hkeys.
      by apply list_elem_of_fmap_2. }
    eapply key_agrees_frame; [apply Hk|by apply live_entry_ext|by apply row_expiry_same| |].
    + transitivity (live now (purge now tm) k); [|apply live_purge]. unfold live. by rewrite Hput.
    + rewrite Hput. intros c. unfold purge. destruct (tm k) as [c'|]; [|done]. by destruct (dead now c').
Qed.

Lemma commit_simulates now d tm cs mus :
  agrees now d tm → deno_valid (CCommit cs mus) →
  Forall (λ c, ¬ volatile (ck_key c)) cs → Forall (λ mu, ¬ volatile (mutation_key mu)) mus →
  let spec := timed_step now tm (Plain (CCommit cs (stored_mutation <$> mus))) in
  (refused (D := D) ∧ ∃ e, run now (deno_call (CCommit cs mus)) d = (d, Err e)) ∨
  ∃ d', run now (deno_call (CCommit cs mus)) d = (d', Ok spec.2) ∧ agrees now d' spec.1.
Proof.
  intros [Hi Hk] [Hval Hwf] Hcs Hmus. cbn zeta. cbn [deno_call timed_step]. rewrite run_bind.
  unfold deno_commit. rewrite Hval. cbn [of_result mbind kvprog_mbind kvprog_bind].
  change (kvprog_bind ?f ?p) with (p ≫= f). rewrite run_bind, run_fetch.
  destruct (fetched_all d (distinct_keys cs mus)) as [Hcur Hall].
  set (entries := fold_left _ _ _) in *. cbn [run].
  destruct (commit_core now now 0 (dk_row d) entries cs mus Hi Hwf Hcur) as [-> _].
  rewrite (checks_agree now (dk_row d) tm cs Hk Hcs).
  destruct (checks_hold (live now tm) cs); cbn [fst snd]; [|by right; exists d].
  pose proof (λ s, proj2 (commit_core now now s (dk_row d) entries cs mus Hi Hwf Hcur)) as Hb.
  pose proof (λ m' s, commit_agrees now (dk_row d) m' tm entries
    (on_values (λ e, live_version now (e_value e)) entries) mus 0 s Hk Hmus) as Ha.
  destruct (build_mutations _ _ mus 0) as [ms h]. cbn [fst] in Ha. cbn [run].
  destruct (commit_unchanged d now _ ms Hall) as [[Hr [e ->]]|(d' & -> & Hrows)]; [left; eauto|right].
  destruct (Hb (dk_clock d')) as (Hi' & -> & Hl). destruct (inv_rows now _ (dk_row d') Hrows Hi') as [Hi'' Hl'].
  exists d'. cbn [run fst snd]. rewrite (highest_version_ext _ (live now tm)).
  - split; [done|]. split; [done|]. eapply Ha; [exact Hrows|]. intros k. by rewrite Hl', Hl.
  - intros k (mu & -> & (mu' & -> & Hmu)%list_elem_of_fmap)%list_elem_of_fmap. rewrite stored_mutation_key.
    eapply Forall_forall in Hmus; [|exact Hmu]. by apply Hk.
Qed.

Lemma timed_simulates now now' d tm c :
  agrees now d tm → now ≤ now' → deno_timed_valid c → versions_hidden c →
  (refused (D := D) ∧ ∃ e, run now' (deno_timed_call c) d = (d, Err e)) ∨
  ∃ d', run now' (deno_timed_call c) d = (d', Ok (timed_step now' tm (stored_timed c)).2) ∧
        agrees now' d' (timed_step now' tm (stored_timed c)).1.
Proof.
  intros Hag Hn Hc Hh. apply (agrees_later now now') in Hag; [|done]. clear Hn now. rename now' into now.
  destruct c as [[k|k v|k|cs mus]|k v ttl]; cbn [deno_timed_valid deno_valid versions_hidden] in Hc, Hh;
    cbn [deno_timed_call deno_call stored_timed stored_call]; rewrite ?run_bind.
  - right. exists d. destruct Hag as [Hi Hk]. rewrite deno_get_spec by (try apply Hi; done).
    destruct (Hk k) as (Hv & _). cbn [timed_step fst snd run]. rewrite Hv. split; [done|]. split; [done|].
    destruct (tm k) as [c|] eqn:Ec; [|done]. destruct (dead now c) eqn:Ed; [|done]. intros k'.
    destruct (Hk k') as (Hv' & He' & Hs'). destruct (decide (k' = k)) as [->|Hne].
    + unfold key_agrees, live, drop_key. rewrite decide_True by done. unfold live in Hv'. rewrite Ec, Ed in Hv'.
      split_and!; [done..|]. intros Hnv. destruct (Hs' Hnv) as (Hl & Hr & Hce). split_and!; [|done..].
      rewrite Hl. unfold live. by rewrite Ec, Ed.
    + eapply key_agrees_frame; [apply Hk|done..| |]; unfold live, drop_key; by rewrite decide_False.
  - destruct Hc as (Hvk & Hvp & Hwf).
    destruct (set_simulates now d tm k v None) as [[Hr [e ->]]|(d' & -> & Hag')]; [done..|left; eauto|right; eauto].
  - destruct (delete_simulates now d tm k Hag Hc) as [[Hr [e ->]]|(d' & -> & Hag')]; [left; eauto|right; eauto].
  - destruct Hh as [Hcs Hmus]. pose proof (commit_simulates now d tm cs mus Hag Hc Hcs Hmus) as Hsim.
    cbn [deno_call] in Hsim. by rewrite run_bind in Hsim.
  - destruct Hc as (Hvk & Hvp & Hwf & Ht).
    destruct (set_simulates now d tm k v (Some ttl)) as [[Hr [e ->]]|(d' & -> & Hag')]; [done..|left; eauto|right; eauto].
Qed.

(** Times do not go back. *)
Fixpoint from_time (now : Z) (ts : list Z) : Prop :=
  match ts with [] => True | t :: ts => now ≤ t ∧ from_time t ts end.

Lemma run_deno_timed_refines cs now d tm :
  agrees now d tm → from_time now (fst <$> cs) →
  Forall (λ c, deno_timed_valid c.2 ∧ versions_hidden c.2) cs →
  let spec := run_timed tm ((λ c, (c.1, stored_timed c.2)) <$> cs) in
  run_deno_timed d cs = spec ∨
  refused (D := D) ∧ ∃ n e, (n < length cs)%nat ∧ run_deno_timed d cs = take n spec ++ [Err e].
Proof.
  intros Ha Ht Hcs. revert now d tm Ha Ht. induction Hcs as [|[t c] cs [Hc Hh] _ IH]; intros now d tm Ha Ht; [by left|].
  destruct Ht as [Hn Ht]. cbn [run_deno_timed fmap list_fmap run_timed fst snd].
  destruct (timed_simulates now t d tm c Ha Hn Hc Hh) as [[Hr [e ->]]|(d' & -> & Ha')].
  - right. split; [done|]. exists 0%nat, e. cbn. split; [lia|done].
  - destruct (timed_step t tm (stored_timed c)) as [tm' r']. cbn [fst snd] in *.
    destruct (IH t d' tm' Ha' Ht) as [->|[Hr (n & e & Hlt & ->)]]; [by left|right].
    split; [done|]. exists (S n), e. cbn. split; [lia|done].
Qed.

Lemma empty_agrees now d : (∀ q, dk_row d q = None) → agrees now d (λ _, None).
Proof.
  intros He. split; [intros k r; by rewrite He|]. intros k.
  unfold key_agrees, live_entry, row_expiry, live. by rewrite He.
Qed.
End timed.
