(* ===== verification/SdkHelpers.v ===== *)
(** * The SDK's helpers over the key-value binding ([sdk/typescript/helpers.ts])

    [withIdempotency], [withCircuitBreaker], [mutate], [scopedKV], [withRetry] and
    the readers of object streams.  A helper is a [bprog], a program over the
    operations of a [KVBinding] (each of which may throw), its waits, and the
    user's action.  Its store is the versioned map of [KvInterface]; a listing is
    a parameter, as the bindings of the platform differ in it.  The user's
    [updater] does not touch the store itself. *)

From S2P Require Import Prelude Histories JsString JsMap JsNumber JsValue Errors TextDecoder KvInterface Retry.
From Stdlib Require Import QArith Qround.

Open Scope Z_scope.
Open Scope railfog_scope.

Definition DEFAULT_IDEMPOTENCY_TTL_SECONDS : Q := 14 * 24 * 3600.
Definition DEFAULT_RETRY_BASE_MS : Q := 100.
Definition DEFAULT_RETRY_CAP_MS : Q := 20000.
Definition DEFAULT_RETRY_MAX_ATTEMPTS : Z := 5.
Definition DEFAULT_CIRCUIT_BREAKER_FAILURE_THRESHOLD : Z := 5.
Definition DEFAULT_CIRCUIT_BREAKER_COOLDOWN_MS : Z := 30000.

(** [typeof x === "number" && Number.isFinite(x) && test(x) ? use(x) : dflt] *)
Definition finite_or {A} (x : option jsnum) (test : Q → bool) (use : Q → A) (dflt : A) : A :=
  match x with Some (Fin q) => if test q then use q else dflt | _ => dflt end.

(** ** Programs over a binding *)

(** An entry of [list]: its key, value and version, which may be missing *)
Record listed (V : Type) := { l_key : key; l_value : V; l_version : option Z }.
Arguments l_key {V}.
Arguments l_value {V}.
Arguments l_version {V}.

Inductive bprog (V R A : Type) : Type :=
| BDone (a : A)
| BThrow (e : exn)
| BGet (k : key) (f : result exn (option V) → bprog V R A)
| BSet (k : key) (v : V) (ttl : Q) (f : result exn unit → bprog V R A)
| BDelete (k : key) (f : result exn unit → bprog V R A)
| BList (prefix : key) (limit : Z) (f : result exn (list (listed V)) → bprog V R A)
| BCommit (cs : list kv_check) (mus : list (kv_mutation V)) (f : result exn bool → bprog V R A)
| BSleep (ms : Q) (f : bprog V R A)
| BAct (f : result exn R → bprog V R A).
Arguments BDone {V R A} a.
Arguments BThrow {V R A} e.
Arguments BGet {V R A} k f.
Arguments BSet {V R A} k v ttl f.
Arguments BDelete {V R A} k f.
Arguments BList {V R A} prefix limit f.
Arguments BCommit {V R A} cs mus f.
Arguments BSleep {V R A} ms f.
Arguments BAct {V R A} f.

(** [try { p } catch (e) { h(e) }] around the rest of a program, and [await] *)
Definition awaited {V R A B} (f : B → bprog V R A) (r : result exn B) : bprog V R A :=
  match r with Ok b => f b | Err e => BThrow e end.

Fixpoint catching {V R A} (h : exn → bprog V R A) (p : bprog V R A) : bprog V R A :=
  match p with
  | BDone a => BDone a
  | BThrow e => h e
  | BGet k f => BGet k (λ r, catching h (f r))
  | BSet k v ttl f => BSet k v ttl (λ r, catching h (f r))
  | BDelete k f => BDelete k (λ r, catching h (f r))
  | BList q l f => BList q l (λ r, catching h (f r))
  | BCommit cs mus f => BCommit cs mus (λ r, catching h (f r))
  | BSleep ms f => BSleep ms (catching h f)
  | BAct f => BAct (λ r, catching h (f r))
  end.

(** What follows a program that ends with a value *)
Fixpoint bprog_map {V R A B} (g : A → B) (p : bprog V R A) : bprog V R B :=
  match p with
  | BDone a => BDone (g a)
  | BThrow e => BThrow e
  | BGet k f => BGet k (λ r, bprog_map g (f r))
  | BSet k v ttl f => BSet k v ttl (λ r, bprog_map g (f r))
  | BDelete k f => BDelete k (λ r, bprog_map g (f r))
  | BList q l f => BList q l (λ r, bprog_map g (f r))
  | BCommit cs mus f => BCommit cs mus (λ r, bprog_map g (f r))
  | BSleep ms f => BSleep ms (bprog_map g f)
  | BAct f => BAct (λ r, bprog_map g (f r))
  end.

(** ** [withIdempotency] *)

(** [{ processed, result }] *)
Record IdempotencyResult (R : Type) := { processed : bool; ir_result : option R }.
Arguments Build_IdempotencyResult {R}.
Arguments processed {R}.
Arguments ir_result {R}.

Definition idempotency_ttl (ttlSeconds : option jsnum) : Q :=
  finite_or ttlSeconds (λ q, q_ltb 0 q) id DEFAULT_IDEMPOTENCY_TTL_SECONDS.

(** [js_true] is the value [true]. *)
Definition withIdempotency {V R} (js_true : V) (dedupeKey : key) (ttlSeconds : option jsnum)
    : bprog V R (IdempotencyResult R) :=
  BGet dedupeKey (awaited (λ existing,
    match existing with
    | Some _ => BDone {| processed := false; ir_result := None |}
    | None =>
        BAct (awaited (λ result,
          BSet dedupeKey js_true (idempotency_ttl ttlSeconds) (awaited (λ _,
            BDone {| processed := true; ir_result := Some result |}))))
    end)).

(** ** [withCircuitBreaker] *)

Record CircuitBreakerState := { failures : Z; openUntil : Z }.

Definition cb_threshold (failureThreshold : option jsnum) : Z :=
  finite_or failureThreshold (λ q, q_ltb 0 q) Qfloor DEFAULT_CIRCUIT_BREAKER_FAILURE_THRESHOLD.
Definition cb_cooldown (cooldownMs : option jsnum) : Z :=
  finite_or cooldownMs (λ q, q_ltb 0 q) Qfloor DEFAULT_CIRCUIT_BREAKER_COOLDOWN_MS.

(** [Math.max(60, Math.ceil((cooldownMs * 2) / 1000))] *)
Definition cb_ttl (cooldownMs : Z) : Z := Z.max 60 (- ((- (cooldownMs * 2)) / 1000)).

(** The record written after a failure at time [now] *)
Definition cb_failed (threshold cooldown now : Z) (state : option CircuitBreakerState) : CircuitBreakerState :=
  let currentFailures := match state with Some s => failures s | None => 0 end + 1 in
  {| failures := currentFailures;
     openUntil := if threshold <=? currentFailures then now + cooldown else 0 |}.

Definition withCircuitBreaker {R} (now : Z) (circuitKey : key) (failureThreshold cooldownMs : option jsnum)
    : bprog CircuitBreakerState R R :=
  let threshold := cb_threshold failureThreshold in
  let cooldown := cb_cooldown cooldownMs in
  BGet circuitKey (awaited (λ state,
    if match state with Some s => now <? openUntil s | None => false end then BThrow UnavailableError
    else
      catching (λ err,
          BSet circuitKey (cb_failed threshold cooldown now state) (inject_Z (cb_ttl cooldown))
            (awaited (λ _, BThrow err)))
        (BAct (awaited (λ result,
          if match state with Some s => (0 <? failures s) || (0 <? openUntil s) | None => false end
          then BDelete circuitKey (awaited (λ _, BDone result))
          else BDone result))))).

(** ** [mutate] *)

Record MutateOptions := {
  mo_maxRetries : option jsnum;
  mo_baseMs : option jsnum;
  mo_capMs : option jsnum
}.

Definition mutate_retries (o : MutateOptions) : nat :=
  finite_or (mo_maxRetries o) (λ q, Qle_bool 0 q) (λ q, Z.to_nat (Qfloor q)) 5%nat.
Definition mutate_base (o : MutateOptions) : Q :=
  finite_or (mo_baseMs o) (λ q, q_ltb 0 q) (λ q, inject_Z (Qfloor q)) DEFAULT_RETRY_BASE_MS.
Definition mutate_cap (o : MutateOptions) : Q :=
  finite_or (mo_capMs o) (λ q, q_ltb 0 q) (λ q, inject_Z (Qfloor q)) DEFAULT_RETRY_CAP_MS.

(** [Math.min(capMs, Math.max(baseMs, Math.floor(baseMs + Math.random() * (prevSleep * 3 - baseMs))))],
    [u] being [Math.random()] *)
Definition mutate_sleep (base cap u prevSleep : Q) : Q :=
  qmin cap (qmax base (inject_Z (Qfloor (fadd base (fmul u (fsub (fmul prevSleep 3) base)))))).

Section mutate.
Context {V R : Type}.

(** [listRes.entries.find((e) => e.key equals key)] *)
Definition find_exact (k : key) (entries : list (listed V)) : option (listed V) :=
  List.find (λ e, bool_decide (l_key e = k)) entries.

(** What the attempt starts from: the value and the version *)
Definition with_current {A} (k : key) (f : option V → Z → bprog V R A) : bprog V R A :=
  BList k 1 (awaited (λ entries,
    match find_exact k entries with
    | Some exact => f (Some (l_value exact)) (default 1 (l_version exact))
    | None => BGet k (awaited (λ currentVal,
                f currentVal match currentVal with None => 0 | Some _ => 1 end))
    end)).

(** The loop; [retries] retries are left, and [random] gives [Math.random()]. *)
Fixpoint mutate_loop (k : key) (updater : option V → result exn V) (base cap : Q) (random : nat → Q)
    (retries : nat) (prevSleep : Q) : bprog V R V :=
  with_current k (λ currentVal currentVersion,
    awaited (λ newVal,
      BCommit [{| ck_key := k; ck_expectedVersion := currentVersion |}] [MSet k newVal] (awaited (λ ok : bool,
        if ok then BDone newVal
        else
          match retries with
          | O => BThrow ConflictError
          | S rest =>
              let sleep := mutate_sleep base cap (random rest) prevSleep in
              BSleep sleep (mutate_loop k updater base cap random rest sleep)
          end))) (updater currentVal)).

(** [mutate(kv, key, updater, options)]; the platform's atomic builders ignore the
    time to live that the code passes to [set]. *)
Definition mutate (k : key) (updater : option V → result exn V) (o : MutateOptions) (random : nat → Q)
    : bprog V R V :=
  mutate_loop k updater (mutate_base o) (mutate_cap o) random (mutate_retries o) (mutate_base o).
End mutate.

(** ** [scopedKV] *)
Section scoped.
Context {V R : Type} (prefix : key).

Definition qualifyKey (k : key) : key := prefix ++ k.
Definition stripKey (fullKey : key) : key :=
  if bool_decide (prefix `prefix_of` fullKey) then drop (length prefix) fullKey else fullKey.

Definition scoped_mutation (mu : kv_mutation V) : kv_mutation V :=
  match mu with MSet k v => MSet (qualifyKey k) v | MDelete k => MDelete (qualifyKey k) end.
Definition scoped_check (c : kv_check) : kv_check :=
  {| ck_key := qualifyKey (ck_key c); ck_expectedVersion := ck_expectedVersion c |}.
Definition scoped_entry (e : listed V) : listed V :=
  {| l_key := stripKey (l_key e); l_value := l_value e; l_version := l_version e |}.

(** A program that is given the scoped binding instead of the binding itself *)
Fixpoint scopedKV {A} (p : bprog V R A) : bprog V R A :=
  match p with
  | BDone a => BDone a
  | BThrow e => BThrow e
  | BGet k f => BGet (qualifyKey k) (λ r, scopedKV (f r))
  | BSet k v ttl f => BSet (qualifyKey k) v ttl (λ r, scopedKV (f r))
  | BDelete k f => BDelete (qualifyKey k) (λ r, scopedKV (f r))
  | BList q l f => BList (qualifyKey q) l (λ r, scopedKV (f (result_fmap _ _ _ (map scoped_entry) r)))
  | BCommit cs mus f => BCommit (scoped_check <$> cs) (scoped_mutation <$> mus) (λ r, scopedKV (f r))
  | BSleep ms f => BSleep ms (scopedKV f)
  | BAct f => BAct (λ r, scopedKV (f r))
  end.
End scoped.

(** ** [withRetry] *)

(** The options handed to [packages/policy/retry.ts] *)
Definition retry_options {E} (baseMs capMs maxAttempts : option jsnum) (uniform : Z → Q → Q → Q)
    : RetryPolicyOptions E :=
  let base := finite_or baseMs (λ q, Qle_bool 0 q) id DEFAULT_RETRY_BASE_MS in
  {| Retry.baseMs := base;
     Retry.capMs := finite_or capMs (λ q, Qle_bool base q) id (qmax base DEFAULT_RETRY_CAP_MS);
     Retry.maxAttempts := finite_or maxAttempts (λ q, q_ltb 0 q) Qfloor DEFAULT_RETRY_MAX_ATTEMPTS;
     randomUniform := uniform;
     shouldRetry := None |}.

(** ** Object streams *)

(** What a reader gives: chunks, then the end or an error *)
Fixpoint read_chunks (reads : list (result exn (option (list Z)))) (acc : list (list Z))
    : result exn (list (list Z)) :=
  match reads with
  | [] | Ok None :: _ => Ok acc
  | Err e :: _ => Err e
  | Ok (Some chunk) :: reads => read_chunks reads (acc ++ [chunk])
  end.

Definition readBytes (stream : option (list (result exn (option (list Z))))) : result exn (list Z) :=
  match stream with
  | None => Err ResourceNotFoundError
  | Some reads => read_chunks reads [] ≫= λ chunks, Ok (concat chunks)
  end.

Definition readText (stream : option (list (result exn (option (list Z))))) : result exn jstr :=
  readBytes stream ≫= λ bytes, Ok (text_decode bytes).

(** [json_parse] is [JSON.parse]. *)
Definition readJson (json_parse : jstr → result exn jsval)
    (stream : option (list (result exn (option (list Z))))) : result exn jsval :=
  readText stream ≫= λ text,
  match json_parse text with Ok v => Ok v | Err _ => Err ValidationFailedError end.

(** ** One helper on its own

    The store's operations succeed; [outcome] is what the user's action gives.
    Besides the result, the operations are recorded in order. *)

Inductive operation (V : Type) :=
| OGet (k : key)
| OSet (k : key) (v : V) (ttl : Q)
| ODelete (k : key)
| OList (k : key)
| OCommit (cs : list kv_check) (mus : list (kv_mutation V))
| OAct.
Arguments OGet {V} k.
Arguments OSet {V} k v ttl.
Arguments ODelete {V} k.
Arguments OList {V} k.
Arguments OCommit {V} cs mus.
Arguments OAct {V}.

Section run.
Context {V R : Type} (listing : (key → option (V * Z)) → key → Z → list (listed V)).
Implicit Types (m : key → option (V * Z)).

Fixpoint run {A} (outcome : result exn R) (p : bprog V R A) m
    : (key → option (V * Z)) * list (operation V) * result exn A :=
  let step o m (p : bprog V R A) := let '(m, os, r) := run outcome p m in (m, o :: os, r) in
  match p with
  | BDone a => (m, [], Ok a)
  | BThrow e => (m, [], Err e)
  | BGet k f => step (OGet k) m (f (Ok (fst <$> m k)))
  | BSet k v ttl f => step (OSet k v ttl) (apply_mutation m (MSet k v)) (f (Ok tt))
  | BDelete k f => step (ODelete k) (apply_mutation m (MDelete k)) (f (Ok tt))
  | BList q l f => step (OList q) m (f (Ok (listing m q l)))
  | BCommit cs mus f =>
      if checks_hold m cs
      then step (OCommit cs mus) (apply_mutations m mus) (f (Ok true))
      else step (OCommit cs mus) m (f (Ok false))
  | BSleep _ f => run outcome f m
  | BAct f => step OAct m (f outcome)
  end.
End run.

(** ** Idempotency and the circuit breaker *)

Lemma idempotency_ttl_positive o : (0 < idempotency_ttl o)%Q.
Proof.
  unfold idempotency_ttl, finite_or. destruct o as [[| |q]|]; try done.
  destruct (q_ltb 0 q) eqn:E; [by apply q_ltb_lt|done].
Qed.

(** With a marker the action does not run; otherwise it runs once, and the marker
    is written, with a time to live, exactly when it succeeds. *)
Theorem withIdempotency_run {V R} listing (t : V) k ttl (outcome : result exn R) m :
  run listing outcome (withIdempotency t k ttl) m =
  match m k, outcome with
  | Some _, _ => (m, [OGet k], Ok {| processed := false; ir_result := None |})
  | None, Ok r =>
      (apply_mutation m (MSet k t), [OGet k; OAct; OSet k t (idempotency_ttl ttl)],
       Ok {| processed := true; ir_result := Some r |})
  | None, Err e => (m, [OGet k; OAct], Err e)
  end.
Proof. cbn -[apply_mutation]. destruct (m k) as [[v n]|]; [done|]. by destruct outcome. Qed.

(** Two deliveries that both look before either writes both run the action: the
    helper is a check and a later write, not a compare-and-swap. *)
Lemma idempotency_race {V R} (t : V) k ttl :
  ∃ f, withIdempotency (R := R) t k ttl = BGet k f ∧
  ∃ g, f (Ok None) = BAct g ∧ ∀ r, ∃ h, g (Ok r) = BSet k t (idempotency_ttl ttl) h ∧
  h (Ok tt) = BDone {| processed := true; ir_result := Some r |}.
Proof. do 2 (eexists; split; [done|]). intros r. by eexists. Qed.

(** One call of [withCircuitBreaker]: fail fast while open, clear the record after a
    success, count a failure and open at the threshold. *)
Theorem withCircuitBreaker_run {R} listing now k ft cd (outcome : result exn R) m :
  let state := fst <$> m k in
  run listing outcome (withCircuitBreaker now k ft cd) m =
  if match state with Some s => now <? openUntil s | None => false end
  then (m, [OGet k], Err UnavailableError)
  else
    match outcome with
    | Ok r =>
        if match state with Some s => (0 <? failures s) || (0 <? openUntil s) | None => false end
        then (apply_mutation m (MDelete k), [OGet k; OAct; ODelete k], Ok r)
        else (m, [OGet k; OAct], Ok r)
    | Err e =>
        let s := cb_failed (cb_threshold ft) (cb_cooldown cd) now state in
        (apply_mutation m (MSet k s), [OGet k; OAct; OSet k s (inject_Z (cb_ttl (cb_cooldown cd)))], Err e)
    end.
Proof.
  cbn -[apply_mutation]. destruct (m k) as [[s n]|]; cbn -[apply_mutation].
  - destruct (now <? openUntil s); [done|]. cbn -[apply_mutation]. destruct outcome as [r|e]; [|done]. cbn -[apply_mutation].
    by destruct ((0 <? failures s) || (0 <? openUntil s)).
  - by destruct outcome.
Qed.

(** ** A scoped binding

    [part m s]: [s] is the part of the store under the prefix. *)
Section scoped_run.
Context {V : Type} (prefix : key).
Implicit Types (m s : key → option (V * Z)).

Definition part m s : Prop := ∀ k, s k = m (prefix ++ k).
Definition outside m m' : Prop := ∀ k, ¬ prefix `prefix_of` k → m' k = m k.

Lemma scoped_mutation_part (mu : kv_mutation V) m s :
  part m s → part (apply_mutation m (scoped_mutation prefix mu)) (apply_mutation s mu) ∧
             outside m (apply_mutation m (scoped_mutation prefix mu)).
Proof.
  intros Hs. split; intros k; [|intros Hk]; destruct mu as [k' v|k']; cbn; unfold qualifyKey.
  1, 2: rewrite <-?Hs; destruct (decide (k = k')) as [->|]; [by rewrite decide_True|].
  1, 2: rewrite decide_False; [done|by intros ?%(inj (app prefix))].
  all: rewrite decide_False; [done|]; intros ->; destruct Hk; by apply prefix_app_r.
Qed.

Lemma scoped_mutations_part (mus : list (kv_mutation V)) m s :
  part m s → part (apply_mutations m (scoped_mutation prefix <$> mus)) (apply_mutations s mus) ∧
             outside m (apply_mutations m (scoped_mutation prefix <$> mus)).
Proof.
  revert m s. unfold apply_mutations. induction mus as [|mu mus IH]; intros m s Hs; [done|].
  destruct (scoped_mutation_part mu m s Hs) as [H1 H2]. destruct (IH _ _ H1) as [H3 H4].
  split; [done|]. intros k Hk. cbn. by rewrite H4, H2.
Qed.

(** Where the listings of the whole store under the prefix are those of the part,
    a program that is given the scoped binding behaves as it does on the part alone,
    and nothing outside the prefix changes. *)
Theorem scoped_run {R A} listing (p : bprog V R A) (outcome : result exn R) m s :
  (∀ m s q l, part m s → scoped_entry prefix <$> listing m (prefix ++ q) l = listing s q l) →
  part m s →
  let '(m', _, r) := run listing outcome (scopedKV prefix p) m in
  let '(s', _, r') := run listing outcome p s in
  r = r' ∧ part m' s' ∧ outside m m'.
Proof.
  intros Hl. revert m s.
  assert (∀ (q : bprog V R A) m1 m s, outside m m1 →
    (∀ m s, part m s → let '(m', _, r) := run listing outcome (scopedKV prefix q) m in
       let '(s', _, r') := run listing outcome q s in r = r' ∧ part m' s' ∧ outside m m') → part m1 s →
    let '(m', _, r) := run listing outcome (scopedKV prefix q) m1 in
    let '(s', _, r') := run listing outcome q s in r = r' ∧ part m' s' ∧ outside m m') as Hstep.
  { intros q m1 m s Ho IH Hs. specialize (IH m1 s Hs).
    destruct (run _ _ (scopedKV _ _) _) as [[??]?], (run _ _ q _) as [[??]?].
    destruct IH as (-> & ? & H3). split_and!; [done..|]. intros k Hk. by rewrite H3, Ho. }
  induction p as [a|e|k f IH|k v t f IH|k f IH|q l f IH|cs mus f IH|t f IH|f IH]; intros m s Hs; cbn [scopedKV run];
    try done.
  - pose proof (Hstep _ m m s (λ _ _, eq_refl) (IH (Ok (fst <$> s k))) Hs) as H. unfold qualifyKey. rewrite <-Hs.
    by destruct (run _ _ (scopedKV _ _) m) as [[??]?], (run _ _ (f _) s) as [[??]?].
  - destruct (scoped_mutation_part (MSet k v) m s Hs) as [H1 H2].
    pose proof (Hstep _ _ m _ H2 (IH (Ok tt)) H1) as H. cbn [scoped_mutation] in H.
    by destruct (run _ _ (scopedKV _ _) _) as [[??]?], (run _ _ (f _) _) as [[??]?].
  - destruct (scoped_mutation_part (MDelete k) m s Hs) as [H1 H2].
    pose proof (Hstep _ _ m _ H2 (IH (Ok tt)) H1) as H. cbn [scoped_mutation] in H.
    by destruct (run _ _ (scopedKV _ _) _) as [[??]?], (run _ _ (f _) _) as [[??]?].
  - pose proof (Hstep _ m m s (λ _ _, eq_refl) (IH (Ok (listing s q l))) Hs) as H.
    cbn [result_fmap]. unfold qualifyKey. rewrite (Hl m s) by done.
    by destruct (run _ _ (scopedKV _ _) m) as [[??]?], (run _ _ (f _) s) as [[??]?].
  - assert (checks_hold m (scoped_check prefix <$> cs) = checks_hold s cs) as ->.
    { unfold checks_hold. induction cs as [|c cs IHc]; [done|]. cbn. by rewrite IHc, Hs. }
    destruct (scoped_mutations_part mus m s Hs) as [H1 H2]. destruct (checks_hold s cs).
    + pose proof (Hstep _ _ m _ H2 (IH (Ok true)) H1) as H.
      by destruct (run _ _ (scopedKV _ _) _) as [[??]?], (run _ _ (f _) _) as [[??]?].
    + pose proof (Hstep _ m m s (λ _ _, eq_refl) (IH (Ok false)) Hs) as H.
      by destruct (run _ _ (scopedKV _ _) _) as [[??]?], (run _ _ (f _) _) as [[??]?].
  - by apply IH.
  - pose proof (Hstep _ m m s (λ _ _, eq_refl) (IH outcome) Hs) as H.
    by destruct (run _ _ (scopedKV _ _) m) as [[??]?], (run _ _ (f _) s) as [[??]?].
Qed.
End scoped_run.

(** ** A sequence of failures opens the circuit *)

(** A sequence of calls, each at a time and with an outcome of its action *)
Fixpoint cb_calls {R} listing k ft cd (cs : list (Z * result exn R)) m
    : (key → option (CircuitBreakerState * Z)) * list (result exn R) :=
  match cs with
  | [] => (m, [])
  | (now, outcome) :: cs =>
      let '(m, _, r) := run listing outcome (withCircuitBreaker now k ft cd) m in
      let '(m, rs) := cb_calls listing k ft cd cs m in (m, r :: rs)
  end.

Lemma cb_failures {R} listing k ft cd (fs : list (Z * exn)) m :
  let threshold := cb_threshold ft in
  match fst <$> m k with Some s => failures s = 0 ∧ openUntil s = 0 | None => True end →
  Forall (λ f, 0 ≤ f.1) fs → fs ≠ [] → Z.of_nat (length fs) ≤ threshold →
  let '(m', rs) := cb_calls (R := R) listing k ft cd ((λ f, (f.1, Err f.2)) <$> fs) m in
  rs = (λ f, Err f.2) <$> fs ∧
  fst <$> m' k = Some {| failures := Z.of_nat (length fs);
                         openUntil := if threshold <=? Z.of_nat (length fs) then (List.last fs (0, PlainError)).1 + cb_cooldown cd else 0 |}.
Proof.
  intros threshold Hm Hpos Hne0 Hle0.
  assert (∀ n m, 0 ≤ n → fst <$> m k = Some {| failures := n; openUntil := 0 |} ∨ n = 0 ∧ fst <$> m k = None →
    fs ≠ [] → n + Z.of_nat (length fs) ≤ threshold →
    let '(m', rs) := cb_calls (R := R) listing k ft cd ((λ f, (f.1, Err f.2)) <$> fs) m in
    rs = (λ f, Err f.2) <$> fs ∧
    fst <$> m' k = Some {| failures := n + Z.of_nat (length fs);
      openUntil := if threshold <=? n + Z.of_nat (length fs)
                   then (List.last fs (0, PlainError)).1 + cb_cooldown cd else 0 |}) as Hgen.
  { clear Hm m Hne0 Hle0. induction Hpos as [|[now e] fs Hnow Hpos IH]; intros n m Hn Hst Hne Hle; [done|].
    cbn [fmap list_fmap cb_calls fst snd]. rewrite withCircuitBreaker_run. cbn zeta.
    set (s := cb_failed (cb_threshold ft) (cb_cooldown cd) now (fst <$> m k)).
    assert (match fst <$> m k with Some s => now <? openUntil s | None => false end = false) as ->.
    { destruct Hst as [-> | [_ ->]]; [|done]. cbn in *. by apply Z.ltb_ge. }
    assert (failures s = n + 1 ∧ openUntil s = if threshold <=? n + 1 then now + cb_cooldown cd else 0) as [Hf Ho].
    { unfold s, cb_failed. destruct Hst as [-> | [-> ->]]; by cbn. }
    assert (s = {| failures := n + 1; openUntil := if threshold <=? n + 1 then now + cb_cooldown cd else 0 |}) as Hs.
    { destruct s. cbn in *. by subst. }
    set (m1 := apply_mutation m (MSet k s)).
    assert (fst <$> m1 k = Some s) as Hm1 by (unfold m1; cbn; by rewrite decide_True).
    destruct fs as [|f fs].
    - change (cb_calls listing k ft cd ((λ f : Z * exn, (f.1, Err f.2)) <$> []) m1) with (m1, @nil (result exn R)).
      cbn beta iota. rewrite Hm1, Hs. split; done.
    - cbn [length] in Hle. specialize (IH (n + 1) m1 ltac:(lia)).
      destruct (cb_calls _ _ _ _ _ m1) as [m' rs]. destruct IH as [-> Hm'].
      + left. rewrite Hm1, Hs. rewrite (proj2 (Z.leb_gt _ _)) by lia. done.
      + done.
      + cbn [length]. lia.
      + split; [done|]. rewrite Hm'. cbn [length].
        replace (n + 1 + Z.of_nat (S (length fs))) with (n + Z.of_nat (S (S (length fs)))) by lia. done. }
  destruct (fst <$> m k) as [[f o]|] eqn:E.
  - cbn in Hm. destruct Hm as [-> ->]. apply (Hgen 0 m); [lia|by left|done|lia].
  - apply (Hgen 0 m); [lia|by right|done|lia].
Qed.

(** [threshold] failures in a row open the circuit: in the cooldown after the last
    of them a call fails fast, without running its action. *)
Theorem circuit_trips {R} listing k ft cd (fs : list (Z * exn)) m now (outcome : result exn R) :
  fst <$> m k = None → Forall (λ f, 0 ≤ f.1) fs → fs ≠ [] → Z.of_nat (length fs) = cb_threshold ft →
  now < (List.last fs (0, PlainError)).1 + cb_cooldown cd →
  let '(m', _) := cb_calls (R := R) listing k ft cd ((λ f, (f.1, Err f.2)) <$> fs) m in
  run listing outcome (withCircuitBreaker now k ft cd) m' = (m', [OGet k], Err UnavailableError).
Proof.
  intros Hm Hpos Hne Hlen Hnow.
  pose proof (cb_failures (R := R) listing k ft cd fs m) as H. cbn zeta in H. rewrite Hm in H.
  specialize (H I Hpos Hne ltac:(lia)). destruct (cb_calls _ _ _ _ _ m) as [m' rs]. destruct H as [_ H].
  rewrite withCircuitBreaker_run. cbn zeta. rewrite H. cbn [openUntil].
  rewrite (proj2 (Z.leb_le _ _)) by lia. by rewrite (proj2 (Z.ltb_lt _ _)) by lia.
Qed.
