(* ===== verification/MutateSafety.v ===== *)
(** * Concurrent read-modify-write with [mutate]

    Any number of calls of [mutate] ([sdk/typescript/helpers.ts]) run at once, with
    other writers between their operations.  [mutate_atomic] shows that no update
    is lost: every history is one of a machine in which a call applies its updater
    to the current value in one step.  [mutate_alone] and [mutate_stuck] show when a
    call on its own succeeds and when it cannot; [mutate_aba] what a deletion by
    another writer does. *)

From S2P Require Import Prelude Histories JsString JsNumber Errors KvInterface SdkHelpers.
From Stdlib Require Import QArith.

Open Scope Z_scope.
Open Scope railfog_scope.

(** A call of [mutate]: its arguments, and the random numbers it draws *)
Record request (V : Type) := {
  rq_key : key;
  rq_updater : option V → result exn V;
  rq_options : MutateOptions;
  rq_random : nat → Q
}.
Arguments rq_key {V}.
Arguments rq_updater {V}.
Arguments rq_options {V}.
Arguments rq_random {V}.

Inductive mutate_event (V : Type) :=
| Begins (id : nat) (rq : request V)
| Returns (id : nat) (r : result exn V).
Arguments Begins {V} id rq.
Arguments Returns {V} id r.

Section concurrency.
Context {V : Type}.
Notation store := (key → option (V * Z)).
Notation prog := (bprog V Empty_set V).
Context (listing : store → key → Z → list (listed V)).
(** The errors of the binding's operations, and the writes of other clients *)
Context (fault : exn → Prop) (others : kv_mutation V → Prop).

Definition start (rq : request V) : prog :=
  mutate (rq_key rq) (rq_updater rq) (rq_options rq) (rq_random rq).

(** ** Calls interleaved operation by operation *)

Record mworld := { mw_store : store; mw_calls : gmap nat prog }.

(** An operation of a call takes effect in one step, or throws and has none. *)
Inductive op_step (m : store) : prog → store → prog → Prop :=
| op_get k f : op_step m (BGet k f) m (f (Ok (fst <$> m k)))
| op_get_fault k f e : fault e → op_step m (BGet k f) m (f (Err e))
| op_list k l f : op_step m (BList k l f) m (f (Ok (listing m k l)))
| op_list_fault k l f e : fault e → op_step m (BList k l f) m (f (Err e))
| op_commit cs mus f : checks_hold m cs = true →
    op_step m (BCommit cs mus f) (apply_mutations m mus) (f (Ok true))
| op_conflict cs mus f : checks_hold m cs = false → op_step m (BCommit cs mus f) m (f (Ok false))
| op_commit_fault cs mus f e : fault e → op_step m (BCommit cs mus f) m (f (Err e))
| op_sleep ms f : op_step m (BSleep ms f) m f.

Inductive mutate_step (w : mworld) : option (mutate_event V) → mworld → Prop :=
| m_begins id rq : mw_calls w !! id = None →
    mutate_step w (Some (Begins id rq)) {| mw_store := mw_store w; mw_calls := <[id := start rq]> (mw_calls w) |}
| m_moves id p m' p' : mw_calls w !! id = Some p → op_step (mw_store w) p m' p' →
    mutate_step w None {| mw_store := m'; mw_calls := <[id := p']> (mw_calls w) |}
| m_others mu : others mu →
    mutate_step w None {| mw_store := apply_mutation (mw_store w) mu; mw_calls := mw_calls w |}
| m_returns id v : mw_calls w !! id = Some (BDone v) →
    mutate_step w (Some (Returns id (Ok v))) {| mw_store := mw_store w; mw_calls := delete id (mw_calls w) |}
| m_throws id e : mw_calls w !! id = Some (BThrow e) →
    mutate_step w (Some (Returns id (Err e))) {| mw_store := mw_store w; mw_calls := delete id (mw_calls w) |}.

(** ** The specification: one step per call *)

Inductive mstatus :=
| Waiting (rq : request V)
| Settled (r : result exn V).

Record mspec := { ms_store : store; ms_calls : gmap nat mstatus }.

(** The errors of a call: retries exhausted, a failing operation, or what its
    updater threw *)
Definition may_fail (rq : request V) (e : exn) : Prop :=
  e = ConflictError ∨ fault e ∨ ∃ cur, rq_updater rq cur = Err e.

Inductive settles (m : store) (rq : request V) : store → result exn V → Prop :=
| settles_update v : rq_updater rq (fst <$> m (rq_key rq)) = Ok v →
    settles m rq (apply_mutation m (MSet (rq_key rq) v)) (Ok v)
| settles_failed e : may_fail rq e → settles m rq m (Err e).

Inductive mspec_step (a : mspec) : option (mutate_event V) → mspec → Prop :=
| ms_begins id rq : ms_calls a !! id = None →
    mspec_step a (Some (Begins id rq)) {| ms_store := ms_store a; ms_calls := <[id := Waiting rq]> (ms_calls a) |}
| ms_settles id rq m' r : ms_calls a !! id = Some (Waiting rq) → settles (ms_store a) rq m' r →
    mspec_step a None {| ms_store := m'; ms_calls := <[id := Settled r]> (ms_calls a) |}
| ms_others mu : others mu →
    mspec_step a None {| ms_store := apply_mutation (ms_store a) mu; ms_calls := ms_calls a |}
| ms_returns id r : ms_calls a !! id = Some (Settled r) →
    mspec_step a (Some (Returns id r)) {| ms_store := ms_store a; ms_calls := delete id (ms_calls a) |}.

(** ** The invariant *)

(** What [mutate] needs of a listing: an entry it reports under the very key has
    the current value, and a version (1 if it has none) that is not too new. *)
Definition listing_sound : Prop :=
  ∀ m k l e, find_exact k (listing m k l) = Some e →
  ∃ n, m k = Some (l_value e, n) ∧ default 1 (l_version e) ≤ n.

Definition only_sets (mu : kv_mutation V) : Prop := match mu with MSet _ _ => True | MDelete _ => False end.

Definition versions_ok (m : store) : Prop := ∀ k v n, m k = Some (v, n) → 1 ≤ n.

(** Versions grow, and an entry with an old version is an old entry. *)
Definition newer (m m' : store) : Prop :=
  ∀ k, version_of (m k) ≤ version_of (m' k) ∧ (version_of (m k) = version_of (m' k) → m' k = m k).

#[export] Instance newer_po : PreOrder newer.
Proof.
  split; [done|]. intros m1 m2 m3 H12 H23 k. destruct (H12 k) as [? E12], (H23 k) as [? E23].
  split; [lia|]. intros E. rewrite E23, E12; [done|lia|lia].
Qed.

Lemma newer_set m k v : newer m (apply_mutation m (MSet k v)).
Proof. intros k'. cbn. case_decide as E; [subst; cbn; lia|done]. Qed.

Lemma versions_ok_version m k : versions_ok m → 0 ≤ version_of (m k) ∧ (version_of (m k) = 0 → m k = None).
Proof. intros Hm. specialize (Hm k). destruct (m k) as [[v n]|]; cbn; [specialize (Hm v n eq_refl)|]; split; (lia || done). Qed.

Lemma versions_ok_set m k v : versions_ok m → versions_ok (apply_mutation m (MSet k v)).
Proof.
  intros Hm k' v' n'. cbn. case_decide; [|by apply Hm]. intros [= <- <-].
  destruct (versions_ok_version m k Hm). lia.
Qed.

(** [p], a call for [rq], has had no effect when the store was [m0]: it writes the
    updater's result at one operation, on the store as it is then, or throws. *)
Fixpoint waiting (rq : request V) (m0 : store) (p : prog) : Prop :=
  match p with
  | BThrow e => may_fail rq e
  | BGet k f =>
      (∀ m, newer m0 m → versions_ok m → waiting rq m (f (Ok (fst <$> m k)))) ∧
      ∀ e, fault e → waiting rq m0 (f (Err e))
  | BList k l f =>
      (∀ m, newer m0 m → versions_ok m → waiting rq m (f (Ok (listing m k l)))) ∧
      ∀ e, fault e → waiting rq m0 (f (Err e))
  | BCommit cs mus f =>
      (∀ m, newer m0 m → versions_ok m →
         if checks_hold m cs
         then ∃ v, rq_updater rq (fst <$> m (rq_key rq)) = Ok v ∧ mus = [MSet (rq_key rq) v] ∧ f (Ok true) = BDone v
         else waiting rq m (f (Ok false))) ∧
      ∀ e, fault e → waiting rq m0 (f (Err e))
  | BSleep _ f => waiting rq m0 f
  | BDone _ | BSet _ _ _ _ | BDelete _ _ | BAct _ => False
  end.

Lemma waiting_newer rq m m' p : newer m m' → waiting rq m p → waiting rq m' p.
Proof.
  intros Hn. induction p as [a|e|k f IH|k v t f IH|k f IH|k l f IH|cs mus f IH|t f IH|f IH];
    cbn [waiting]; try done; try (intros [Hp He]; split; [intros m2 H2; apply Hp; by transitivity m'|eauto]).
Qed.

Lemma waiting_step rq m p m' p' :
  versions_ok m → waiting rq m p → op_step m p m' p' →
  (m' = m ∧ waiting rq m p') ∨
  ∃ v, rq_updater rq (fst <$> m (rq_key rq)) = Ok v ∧ m' = apply_mutation m (MSet (rq_key rq) v) ∧ p' = BDone v.
Proof.
  intros Hm Hw Hs. destruct Hs as [k f|k f e He|k l f|k l f e He|cs mus f Hc|cs mus f Hc|cs mus f e He|ms f];
    cbn [waiting] in Hw; try (destruct Hw as [Hw Hf]); auto; specialize (Hw m ltac:(reflexivity) Hm); auto;
    rewrite Hc in Hw; [|by left].
  right. destruct Hw as (v & Hv & -> & ->). by exists v.
Qed.

(** The value and the version that an attempt starts from belong together. *)
Lemma waiting_current rq m f : listing_sound →
  (∀ m cur ver, versions_ok m →
     (∀ m', newer m m' → versions_ok m' → version_of (m' (rq_key rq)) = ver → fst <$> m' (rq_key rq) = cur) →
     waiting rq m (f cur ver)) →
  waiting rq m (with_current (rq_key rq) f).
Proof.
  intros Hl Hf. unfold with_current. cbn [waiting]. split; [|by intros e He; right; left].
  intros m1 _ Hm1. cbn [awaited]. destruct (find_exact (rq_key rq) _) as [e|] eqn:E.
  - apply Hl in E as (n' & Hk & Hv). apply Hf; [done|]. intros m2 H2 Hm2 Hver.
    destruct (H2 (rq_key rq)) as [Hle Heq]. rewrite Hk in Hle, Heq. cbn in Hle, Heq. by rewrite Heq by lia.
  - cbn [waiting]. split; [|by intros e He; right; left].
    intros m2 H2 Hm2. cbn [awaited]. apply Hf; [done|]. intros m3 H3 Hm3 Hver.
    destruct (H3 (rq_key rq)) as [Hle Heq]. destruct (m2 (rq_key rq)) as [[v' n']|] eqn:E2; cbn in *.
    + rewrite Heq; [done|]. specialize (Hm2 _ _ _ E2). lia.
    + by rewrite (proj2 (versions_ok_version m3 (rq_key rq) Hm3)).
Qed.

Lemma start_waiting rq m : listing_sound → waiting rq m (start rq).
Proof.
  intros Hl. unfold start, mutate. generalize (mutate_base (rq_options rq)) at 2 as prev.
  revert m. induction (mutate_retries (rq_options rq)) as [|n IH]; intros m prev; cbn [mutate_loop];
    (apply waiting_current; [done|]; intros m1 cur ver Hm1 Hcur);
    (destruct (rq_updater rq cur) as [v|e] eqn:Ev; cbn [awaited waiting]; [|by right; right; exists cur]);
    (split; [|by intros e He; right; left]); intros m2 H2 Hm2; unfold checks_hold;
    cbn [forallb ck_key ck_expectedVersion]; rewrite andb_true_r;
    (destruct (version_of (m2 (rq_key rq)) =? ver) eqn:E;
      [apply Z.eqb_eq in E; exists v; split_and!; [by rewrite (Hcur m2)|done|done]
      |cbn [awaited waiting]; first [by left|apply IH]]).
Qed.

(** ** The simulation *)

Definition mcall_related (m : store) (p : option prog) (s : option mstatus) : Prop :=
  match p, s with
  | None, None => True
  | Some p, Some (Waiting rq) => waiting rq m p
  | Some p, Some (Settled (Ok v)) => p = BDone v
  | _, _ => False
  end.

Definition mrelated (w : mworld) (a : mspec) : Prop :=
  versions_ok (mw_store w) ∧ ms_store a = mw_store w ∧
  ∀ id, mcall_related (mw_store w) (mw_calls w !! id) (ms_calls a !! id).

Lemma mcall_newer m m' p s : newer m m' → mcall_related m p s → mcall_related m' p s.
Proof. intros Hn. destruct p, s as [[]|]; try done. by apply waiting_newer. Qed.

Lemma mcalls_insert m m' (ps : gmap nat prog) (ss : gmap nat mstatus) id p s :
  newer m m' → (∀ id, mcall_related m (ps !! id) (ss !! id)) → mcall_related m' (Some p) (Some s) →
  ∀ id', mcall_related m' (<[id := p]> ps !! id') (<[id := s]> ss !! id').
Proof.
  intros Hn Hr Hp id'. destruct (decide (id = id')) as [->|Hne]; [by rewrite !lookup_insert_eq|].
  rewrite !lookup_insert_ne by done. by eapply mcall_newer.
Qed.

Lemma mreturn_related w a id r s :
  mrelated w a → ms_calls a !! id = Some s →
  (s = Settled r ∨ ∃ rq, s = Waiting rq ∧ settles (ms_store a) rq (ms_store a) r) →
  ∃ a', history mspec_step a [Returns id r] a' ∧
        mrelated {| mw_store := mw_store w; mw_calls := delete id (mw_calls w) |} a'.
Proof.
  intros (Hok & Hst & Hcalls) Hs Hd.
  exists {| ms_store := ms_store a; ms_calls := delete id (ms_calls a) |}. split.
  - destruct Hd as [-> | (rq & -> & Hd)].
    + eapply history_visible; [by apply ms_returns|constructor].
    + eapply history_silent; [by eapply ms_settles|].
      rewrite <-(delete_insert_eq (ms_calls a) id (Settled r)).
      eapply history_visible; [eapply (ms_returns {| ms_store := _; ms_calls := _ |})|constructor].
      cbn. by rewrite lookup_insert_eq.
  - split_and!; cbn; [done..|]. intros id'.
    destruct (decide (id = id')) as [<-|Hne]; [by rewrite !lookup_delete_eq|by rewrite !lookup_delete_ne].
Qed.

Lemma mutate_step_simulated w o w' a :
  listing_sound → (∀ mu, others mu → only_sets mu) →
  mutate_step w o w' → mrelated w a → ∃ a', history mspec_step a (option_list o) a' ∧ mrelated w' a'.
Proof.
  intros Hl Hos Hs HR. pose proof HR as (Hok & Hst & Hcalls).
  destruct Hs as [id rq Hid|id p m' p' Hp Hop|mu Hmu|id v Hp|id e Hp]; cbn [option_list].
  - eexists. split.
    + eapply history_visible; [apply (ms_begins a id rq)|constructor].
      specialize (Hcalls id). rewrite Hid in Hcalls. by destruct (ms_calls a !! id).
    + split_and!; cbn; [done..|]. eapply mcalls_insert; [reflexivity|done|]. by apply start_waiting.
  - pose proof (Hcalls id) as H1. rewrite Hp in H1.
    destruct (ms_calls a !! id) as [[rq|[v|e]]|] eqn:Ea; cbn in H1; [| |done..].
    + destruct (waiting_step _ _ _ _ _ Hok H1 Hop) as [[-> Hw]|(v & Hv & -> & ->)].
      * exists a. split; [constructor|]. split_and!; cbn; [done..|].
        rewrite <-(insert_id (ms_calls a) id (Waiting rq)) by done. by eapply mcalls_insert.
      * eexists. split.
        { eapply history_silent; [eapply ms_settles; [exact Ea|by apply settles_update; rewrite Hst]|constructor]. }
        split_and!; cbn -[apply_mutation]; [by apply versions_ok_set|by rewrite Hst|].
        eapply mcalls_insert; [apply newer_set|done..].
    + subst p. inversion Hop.
  - eexists. split; [eapply history_silent; [by apply (ms_others a mu)|constructor]|].
    specialize (Hos mu Hmu). destruct mu as [k v|]; [|done].
    split_and!; cbn -[apply_mutation]; [by apply versions_ok_set|by rewrite Hst|].
    intros id. eapply mcall_newer; [apply newer_set|apply Hcalls].
  - pose proof (Hcalls id) as H1. rewrite Hp in H1. destruct (ms_calls a !! id) as [[rq|[v'|e]]|] eqn:Ea; try done.
    eapply mreturn_related; [done..|]. left. cbn in H1. by injection H1 as <-.
  - pose proof (Hcalls id) as H1. rewrite Hp in H1. destruct (ms_calls a !! id) as [[rq|[v'|e']]|] eqn:Ea; try done.
    eapply mreturn_related; [done..|]. right. exists rq. split; [done|]. by apply settles_failed.
Qed.
End concurrency.

(** C11: No update of [mutate] is lost.  Let any number of calls run with their
    operations interleaved in any order, with other clients that set keys in
    between and operations that fail.  Whatever values the listings report, as
    long as an entry has the current value and a version that is not too new
    (also a binding that reports no versions), there is a run of the
    specification with the same calls and answers in the same order that leaves
    the same store: a call that returns [v] has applied its updater, in one
    indivisible step between its invocation and its answer, to the value current
    at that step, and written [v] with the next version, exactly once; a call that
    throws has written nothing, and it throws CONFLICT, an error of an operation,
    or one of its updater. *)
Theorem mutate_atomic {V} (listing : (key → option (V * Z)) → key → Z → list (listed V))
    (fault : exn → Prop) (others : kv_mutation V → Prop) (m : key → option (V * Z)) es w :
  listing_sound listing → (∀ mu, others mu → only_sets mu) → versions_ok m →
  history (mutate_step listing fault others) {| mw_store := m; mw_calls := ∅ |} es w →
  ∃ a, history (mspec_step fault others) {| ms_store := m; ms_calls := ∅ |} es a ∧ ms_store a = mw_store w.
Proof.
  intros Hl Hos Hm Hh.
  destruct (history_simulation _ (mspec_step fault others) (mrelated listing fault) (λ _, True)
    (λ s o s' t Hs HR _, mutate_step_simulated listing fault others s o s' t Hl Hos Hs HR)
    _ _ _ {| ms_store := m; ms_calls := ∅ |} Hh) as (a & Ha & _ & Hst & _); [|by apply Forall_true|by exists a].
  split_and!; cbn; [done..|]. intros id. by rewrite !lookup_empty.
Qed.

(** The listing of a binding that reports versions *)
Definition truthful {V} (m : key → option (V * Z)) (k : key) (limit : Z) : list (listed V) :=
  match m k with
  | Some (v, n) => [{| l_key := k; l_value := v; l_version := Some n |}]
  | None => []
  end.

Lemma truthful_sound {V} : listing_sound (@truthful V).
Proof.
  intros m k l e. unfold truthful. destruct (m k) as [[v n]|]; [|done]. cbn.
  rewrite bool_decide_true by done. intros [= <-]. by exists n.
Qed.

(** ** Running a schedule *)

Section schedule.
Context {V : Type}.
Notation prog := (bprog V Empty_set V).

(** What happens next: a call begins, does its next operation, or returns; or
    another client sets a key. *)
Inductive turn := Start (id : nat) (rq : request V) | Operate (id : nat) | Write (k : key) (v : V) | Finish (id : nat).

Definition operate (m : key → option (V * Z)) (p : prog) : option ((key → option (V * Z)) * prog) :=
  match p with
  | BGet k f => Some (m, f (Ok (fst <$> m k)))
  | BList k l f => Some (m, f (Ok (truthful m k l)))
  | BCommit cs mus f =>
      if checks_hold m cs then Some (apply_mutations m mus, f (Ok true)) else Some (m, f (Ok false))
  | BSleep _ f => Some (m, f)
  | _ => None
  end.

Fixpoint turns (w : mworld) (ts : list turn) : option (list (mutate_event V) * mworld) :=
  match ts with
  | [] => Some ([], w)
  | Start id rq :: ts =>
      match mw_calls w !! id with
      | Some _ => None
      | None =>
          '(es, w') ← turns {| mw_store := mw_store w; mw_calls := <[id := start rq]> (mw_calls w) |} ts;
          Some (Begins id rq :: es, w')
      end
  | Operate id :: ts =>
      p ← mw_calls w !! id;
      '(m, p') ← operate (mw_store w) p;
      turns {| mw_store := m; mw_calls := <[id := p']> (mw_calls w) |} ts
  | Write k v :: ts =>
      turns {| mw_store := apply_mutation (mw_store w) (MSet k v); mw_calls := mw_calls w |} ts
  | Finish id :: ts =>
      p ← mw_calls w !! id;
      r ← match p with BDone v => Some (Ok v) | BThrow e => Some (Err e) | _ => None end;
      '(es, w') ← turns {| mw_store := mw_store w; mw_calls := delete id (mw_calls w) |} ts;
      Some (Returns id r :: es, w')
  end.

Lemma turns_history w ts es w' :
  turns w ts = Some (es, w') → history (mutate_step truthful (λ _, False) only_sets) w es w'.
Proof.
  revert w es. induction ts as [|[id rq|id|k v|id] ts IH]; intros w es; cbn [turns].
  - intros [= <- <-]. constructor.
  - destruct (mw_calls w !! id) eqn:E; [done|]. intros ([es' w1] & Hs & [= <- <-])%bind_Some.
    eapply history_visible; [by apply m_begins|by apply IH].
  - intros (p & E & ([m p'] & Hm & Hs)%bind_Some)%bind_Some.
    eapply history_silent; [eapply m_moves; [exact E|]|by apply IH].
    destruct p; cbn -[truthful] in Hm; try done; try (injection Hm as <- <-; constructor).
    destruct (checks_hold _ _) eqn:Ec; injection Hm as <- <-; by constructor.
  - intros Hs. eapply history_silent; [by apply (m_others _ _ _ w (MSet k v))|by apply IH].
  - intros (p & E & (r & Hr & ([es' w1] & Hs & [= <- <-])%bind_Some)%bind_Some)%bind_Some.
    eapply history_visible; [|by apply IH].
    destruct p; cbn in Hr; try done; injection Hr as <-; [by eapply m_returns|by eapply m_throws].
Qed.
End schedule.
Arguments turn : clear implicits.

(** A counter that two calls increment while a third client sets it: the first
    attempts of both fail, and then one of them is first. *)
Definition counter_key : key := [js "n"].
Definition increment : request Z :=
  {| rq_key := counter_key;
     rq_updater := λ cur, Ok (match cur with Some n => n | None => 0 end + 1);
     rq_options := {| mo_maxRetries := None; mo_baseMs := None; mo_capMs := None |};
     rq_random := λ _, 0%Q |}.
Definition counter_turns : list (turn Z) :=
  [Start 1 increment; Start 2 increment; Operate 1; Operate 1; Operate 2; Operate 2; Write counter_key 10;
   Operate 1; Operate 2; Operate 1; Operate 2; Operate 1; Operate 2; Operate 1; Operate 2; Finish 1;
   Operate 2; Operate 2; Operate 2; Finish 2].
Definition counter_events : list (mutate_event Z) :=
  [Begins 1 increment; Begins 2 increment; Returns 1 (Ok 11); Returns 2 (Ok 12)].
Definition no_entries : mworld (V := Z) := {| mw_store := λ _, None; mw_calls := ∅ |}.

Theorem mutate_atomic_witness :
  ∃ w, history (mutate_step truthful (λ _, False) only_sets) no_entries counter_events w ∧
       mw_store w counter_key = Some (12, 3) ∧
  ∃ a, history (mspec_step (λ _, False) only_sets) {| ms_store := λ _, None; ms_calls := ∅ |} counter_events a ∧
       ms_store a = mw_store w.
Proof.
  assert ((λ r, (r.1, mw_store r.2 counter_key)) <$> turns no_entries counter_turns
          = Some (counter_events, Some (12, 3))) as Hrun by (vm_compute; reflexivity).
  destruct (turns no_entries counter_turns) as [[es w]|] eqn:E; [|discriminate Hrun].
  cbn [fmap option_fmap option_map fst snd] in Hrun.
  apply (inj Some) in Hrun. apply pair_equal_spec in Hrun as [Hes Hw]. subst es.
  apply turns_history in E. exists w. split; [exact E|]. split; [exact Hw|].
  apply (mutate_atomic truthful (λ _, False) only_sets (λ _, None)).
  - apply truthful_sound.
  - intros mu Hmu. exact Hmu.
  - intros k v n [=].
  - exact E.
Defined.

(** ** One call on its own, and where it goes wrong *)

(** What [mutate] takes the entry to be *)
Definition seen {V} (listing : (key → option (V * Z)) → key → Z → list (listed V)) m (k : key) : option V * Z :=
  match find_exact k (listing m k 1) with
  | Some e => (Some (l_value e), default 1 (l_version e))
  | None => (fst <$> m k, match m k with None => 0 | Some _ => 1 end)
  end.

(** A call on its own succeeds at its first attempt if it sees the version of the
    entry, and ends with CONFLICT, after all of its retries, if it does not. *)
Theorem mutate_run {V R} listing (k : key) (f : option V → result exn V) o rnd (outcome : result exn R) m :
  let '(m', _, r) := run listing outcome (mutate k f o rnd) m in
  let '(cur, ver) := seen listing m k in
  match f cur with
  | Err e => (m', r) = (m, Err e)
  | Ok v => (m', r) = if version_of (m k) =? ver then (apply_mutation m (MSet k v), Ok v) else (m, Err ConflictError)
  end.
Proof.
  unfold mutate. generalize (mutate_base o) at 2 as prev.
  assert (∀ (g : option V → Z → bprog V R V) m, let '(m', _, r) := run listing outcome (with_current k g) m in
    let '(cur, ver) := seen listing m k in let '(m'', _, r') := run listing outcome (g cur ver) m in
    (m', r) = (m'', r')) as Hcur.
  { intros g m1. unfold with_current, seen. cbn [run awaited]. destruct (find_exact k _) as [e|].
    - by destruct (run _ _ _ m1) as [[??]?].
    - cbn [run awaited]. destruct (m1 k) as [[v n]|]; cbn [fmap option_fmap option_map fst];
        by destruct (run _ _ _ m1) as [[??]?]. }
  induction (mutate_retries o) as [|n IH]; intros prev; cbn [mutate_loop];
    match goal with |- context [with_current k ?g] => specialize (Hcur g m) as Hg end;
    destruct (run listing outcome (with_current k _) m) as [[m' os] r]; destruct (seen listing m k) as [cur ver];
    (destruct (f cur) as [v|e]; cbn [awaited run] in Hg; [|done]);
    unfold checks_hold in Hg; cbn [forallb ck_key ck_expectedVersion] in Hg; rewrite andb_true_r in Hg;
    (destruct (version_of (m k) =? ver); cbn [awaited run] in Hg; [done|]); [done|].
  specialize (IH (mutate_sleep (mutate_base o) (mutate_cap o) (rnd n) prev)).
  destruct (run listing outcome (mutate_loop _ _ _ _ _ _ _) m) as [[m2 os2] r2]. by rewrite Hg.
Qed.

(** With a binding whose listings carry no versions, a call on a key written more
    than once gives CONFLICT, whatever the number of retries. *)
Corollary mutate_stuck {V R} listing (k : key) (f : option V → result exn V) o rnd (outcome : result exn R) m v n :
  (∀ e, e ∈ listing m k 1 → l_version e = None) → m k = Some (v, n) → 2 ≤ n → (∀ cur, ∃ v, f cur = Ok v) →
  let '(m', _, r) := run listing outcome (mutate k f o rnd) m in m' = m ∧ r = Err ConflictError.
Proof.
  intros Hl Hk Hn Hf. pose proof (mutate_run listing k f o rnd outcome m) as H.
  destruct (run _ _ _ m) as [[m' os] r]. assert ((seen listing m k).2 = 1) as Hs.
  { unfold seen. destruct (find_exact k (listing m k 1)) as [e|] eqn:E; [|by rewrite Hk].
    apply find_some in E as [Hin _]. cbn. rewrite (Hl e); [done|]. by apply list_elem_of_In. }
  destruct (seen listing m k) as [cur ver]. cbn in Hs. subst ver. destruct (Hf cur) as [v' Hv]. rewrite Hv, Hk in H.
  cbn [version_of] in H. rewrite (proj2 (Z.eqb_neq n 1)) in H by lia. by injection H as -> ->.
Qed.

(** Versions start again at 1 when a deleted key is set: a call that has read 5 does
    not notice that another client has deleted the key and set it to 100. *)
Lemma mutate_aba m :
  m counter_key = Some (5, 1) →
  let m' := apply_mutations m [MDelete counter_key; MSet counter_key 100] in
  m' counter_key = Some (100, 1) ∧
  ∃ p, op_step truthful (λ _, False) m (start increment) m p ∧
       op_step truthful (λ _, False) m' p (apply_mutation m' (MSet counter_key 6)) (BDone 6).
Proof.
  intros Hm m'. assert (m' counter_key = Some (100, 1)) as Hm' by (subst m'; cbn; by rewrite !decide_True).
  split; [done|]. eexists. split; [apply op_list|]. unfold truthful. cbn -[apply_mutation]. rewrite Hm. cbn -[apply_mutation].
  eapply (op_commit _ _ m' _ [MSet counter_key 6] (awaited (λ ok : bool, if ok then BDone 6 else _))).
  unfold checks_hold. cbn [forallb ck_key ck_expectedVersion]. by rewrite Hm'.
Qed.
