(* ===== verification/SdkClient.v ===== *)
(** * The SDK's clients ([sdk/typescript/client.ts])

    The normalisation of errors to the taxonomy of PLAT-12, the wrapped bindings, and
    the RPC client over [fetch].  JSON texts are the class [JsonText] of [DenoKv];
    [String(v)] of a value that is not a string and the encoding of a query are
    parameters. *)

From S2P Require Import Prelude JsString JsMap JsNumber JsValue Errors Utf8 TextDecoder Http DenoKv.

Open Scope Z_scope.
Open Scope railfog_scope.

(** ** Errors *)

(** What is caught: a [RailFogError], another [Error] with its message and its other
    own properties, or any other value *)
Inductive caught :=
| CRailFog (e : RailFogError)
| CError (message : jstr) (own : list (jstr * jsval))
| CValue (v : jsval).

(** The class for a code, and [InternalError] for any other text *)
Definition CODES : list RailFogErrorCode :=
  [RESOURCE_NOT_FOUND; PERMISSION_DENIED; VALIDATION_FAILED; RATE_LIMITED; CALL_DEPTH_EXCEEDED;
   TIMEOUT; PAYLOAD_TOO_LARGE; CONFLICT; UNAVAILABLE; INTERNAL].
Definition class_of (code : option jstr) : RailFogErrorCode :=
  match code with
  | Some s => default INTERNAL (List.find (λ c, jstr_eqb (code_string c) s) CODES)
  | None => INTERNAL
  end.

Definition some_text (v w : jsval) : option jstr :=
  match as_str v with Some s => Some s | None => as_str w end.

Section errors.
Context (to_text : jsval → jstr).

(** The object that an error is, if it is one *)
Definition error_object (err : caught) : option jsval :=
  match err with
  | CRailFog _ => None
  | CError message own => Some (JObj ((js "message", JStr message) :: own))
  | CValue v => if is_object v then Some v else None
  end.

Definition normalizeError (err : caught) (fallbackRequestId : option jstr) : RailFogError :=
  match err with
  | CRailFog e => e
  | _ =>
      let target := match error_object err with
        | Some errObj => if is_object (prop errObj (js "error")) then prop errObj (js "error") else errObj
        | None => JUndef
        end in
      let finalMessage := match as_str (prop target (js "message")), err with
        | Some message, _ => message
        | None, CError message _ => message
        | None, CValue (JStr s) => s
        | None, CValue (JUndef | JNull) => js "Internal error"
        | None, CValue v => to_text v
        | None, CRailFog e => err_message e
        end in
      let finalRequestId := match some_text (prop target (js "request_id")) (prop target (js "requestId")) with
        | Some requestId => Some requestId
        | None => fallbackRequestId
        end in
      {| err_code := class_of (as_str (prop target (js "code")));
         err_message := finalMessage;
         err_requestId := finalRequestId |}
  end.

(** ** Wrapped bindings

    The methods of the bindings that a function gets, over a state [S] and with the
    errors [E]; what the wrappers only pass on has a type of its own.  The errors of
    [atomic()] and of the steps of a transaction are not normalised. *)
Section bindings.
Context {S : Type} {Options KvPage Info ObjPage PresignOptions Presigned : Type}.

Record KVAtomicOperation (E : Type) := {
  op_check : list jstr → Z → stm S caught unit;
  op_set : list jstr → jsval → option jsnum → stm S caught unit;
  op_delete : list jstr → stm S caught unit;
  op_commit : stm S E (bool * option Z)
}.
Record KVBinding (E : Type) := {
  kv_get : list jstr → stm S E (option jsval);
  kv_set : list jstr → jsval → option jsnum → stm S E unit;
  kv_delete : list jstr → stm S E unit;
  kv_list : list jstr → option Options → stm S E KvPage;
  kv_atomic : stm S caught (KVAtomicOperation E)
}.
Record ObjectBinding (E : Type) := {
  ob_put : jstr → list Z → stm S E unit;
  ob_get : jstr → stm S E (option (list Z));
  ob_delete : jstr → stm S E unit;
  ob_head : jstr → stm S E (option Info);
  ob_list : jstr → option Options → stm S E ObjPage;
  ob_createMultipartUpload : jstr → stm S E jstr;
  ob_presign : jstr → PresignOptions → stm S E Presigned
}.
Record QueueBinding (E : Type) := {
  qu_send : jsval → option jsnum → stm S E jstr;
  qu_sendBatch : list jsval → stm S E (list jstr)
}.

(** [try { return await ...; } catch (err) { throw normalizeError(err); }] *)
Definition wrapped {A} (r : result caught A) : result RailFogError A :=
  match r with Ok a => Ok a | Err err => Err (normalizeError err None) end.
Definition wrapped_call {A} (m : stm S caught A) : stm S RailFogError A := λ s,
  let '(s, r) := m s in (s, wrapped r).

Definition wrap_atomic (op : KVAtomicOperation caught) : KVAtomicOperation RailFogError :=
  {| op_check := op_check _ op; op_set := op_set _ op; op_delete := op_delete _ op;
     op_commit := wrapped_call (op_commit _ op) |}.
Definition wrapKVBinding (kv : KVBinding caught) : KVBinding RailFogError :=
  {| kv_get key := wrapped_call (kv_get _ kv key);
     kv_set key value ttl := wrapped_call (kv_set _ kv key value ttl);
     kv_delete key := wrapped_call (kv_delete _ kv key);
     kv_list prefix options := wrapped_call (kv_list _ kv prefix options);
     kv_atomic := st_bind (kv_atomic _ kv) (λ op, st_ret (wrap_atomic op)) |}.
Definition wrapObjectBinding (objects : ObjectBinding caught) : ObjectBinding RailFogError :=
  {| ob_put key data := wrapped_call (ob_put _ objects key data);
     ob_get key := wrapped_call (ob_get _ objects key);
     ob_delete key := wrapped_call (ob_delete _ objects key);
     ob_head key := wrapped_call (ob_head _ objects key);
     ob_list prefix options := wrapped_call (ob_list _ objects prefix options);
     ob_createMultipartUpload key := wrapped_call (ob_createMultipartUpload _ objects key);
     ob_presign key options := wrapped_call (ob_presign _ objects key options) |}.
Definition wrapQueueBinding (queues : QueueBinding caught) : QueueBinding RailFogError :=
  {| qu_send message delay := wrapped_call (qu_send _ queues message delay);
     qu_sendBatch messages := wrapped_call (qu_sendBatch _ queues messages) |}.

(** A wrapper leaves states and values alone: it changes errors only, and those that
    are of the taxonomy not at all. *)
Lemma wrapped_call_spec {A} (m : stm S caught A) s :
  (wrapped_call m s).1 = (m s).1 ∧
  match (m s).2, (wrapped_call m s).2 with
  | Ok a, Ok b => a = b
  | Err (CRailFog e), Err e' => e' = e
  | Err err, Err e' => e' = normalizeError err None
  | _, _ => False
  end.
Proof. unfold wrapped_call. destruct (m s) as [s' [a|[e|msg own|v]]]; done. Qed.
End bindings.

(** [env.require], for a binding that has it or not *)
Definition wrapEnv_require (require : option (jstr → result caught jstr)) (get : jstr → result caught (option jstr))
    (key : jstr) : result RailFogError jstr :=
  wrapped match require with
    | Some require => require key
    | None => get key ≫= λ val,
        match val with
        | Some val => Ok val
        | None => Err (CRailFog {| err_code := VALIDATION_FAILED;
                                   err_message := js "Missing required environment secret: " ++ key;
                                   err_requestId := None |})
        end
    end.
End errors.

(** ** The RPC client *)

(** A request body that is a string, bytes, or any other value *)
Inductive rpc_body := BText (s : jstr) | BBytes (bs : list Z) | BValue (v : jsval).

Record rpc_request := {
  rr_method : jstr;
  rr_url : jstr;
  rr_headers : Headers;
  rr_body : option (list Z)
}.

Record rpc_response := {
  rs_status : Z;
  rs_statusText : jstr;
  rs_headers : Headers;
  rs_content : Content
}.

(** What a call of the client throws *)
Inductive rpc_error := Normalized (e : RailFogError) | Raw (e : exn).

Definition clean_path (path : jstr) : jstr := if starts_with path (js "/") then path else js "/" ++ path.

Definition set_headers (more : jsmap jstr jstr) (hs : Headers) : Headers :=
  fold_left (λ hs e, map_set hs (to_lower e.1) e.2) more hs.

Section client.
Context `{JsonText} (to_text : jsval → jstr) (form_encode : jsmap jstr jstr → jstr).
Context {C : Type} (fetch : rpc_request → stm C exn rpc_response).
Context (baseUrl : jstr) (options : Headers).

(** [await res.text()] *)
Definition content_text (c : Content) : jstr :=
  match c with
  | NoContent => []
  | Bytes bs => text_decode bs
  | JsonOf v => default [] (json_stringify v)
  end.

Definition target_url (path : jstr) (query : jsmap jstr jstr) : jstr :=
  strip_slashes baseUrl ++ clean_path path ++
  match query with [] => [] | _ => js "?" ++ form_encode query end.

Definition rpc_headers (body : option rpc_body) (extraHeaders : jsmap jstr jstr) : Headers :=
  let headers := set_headers extraHeaders options in
  match body with
  | Some (BValue _) =>
      if map_has headers (js "content-type") then headers
      else map_set headers (js "content-type") (js "application/json")
  | _ => headers
  end.

Definition body_payload (body : rpc_body) : option (list Z) :=
  match body with
  | BText s => Some (text_encode s)
  | BBytes bs => Some bs
  | BValue v => text_encode <$> json_stringify v
  end.

Definition success (status : Z) : bool := (200 <=? status) && (status <=? 299).

(** The error of a response that is not [ok] *)
Definition response_error (res : rpc_response) : RailFogError :=
  let bodyText := content_text (rs_content res) in
  let requestId := map_get (rs_headers res) (js "x-request-id") in
  match json_parse bodyText with
  | Ok parsed => normalizeError to_text (CValue parsed) requestId
  | Err _ =>
      {| err_code := INTERNAL;
         err_message := match bodyText with [] => rs_statusText res | _ => bodyText end;
         err_requestId := requestId |}
  end.

(** The value of a response that is: [undefined], JSON or the text *)
Definition response_value (res : rpc_response) : result rpc_error jsval :=
  if (rs_status res =? 204) || (rs_status res =? 205) then Ok JUndef
  else
    let text := content_text (rs_content res) in
    if includes (default [] (map_get (rs_headers res) (js "content-type"))) (js "application/json") then
      if jstr_eqb (trim text) [] then Ok JUndef
      else match json_parse text with Ok v => Ok v | Err e => Err (Raw e) end
    else Ok (JStr text).

Definition request (method path : jstr) (body : option rpc_body) (extraHeaders query : jsmap jstr jstr)
    : stm C rpc_error jsval := λ c,
  match fetch {| rr_method := method; rr_url := target_url path query;
                 rr_headers := rpc_headers body extraHeaders; rr_body := body ≫= body_payload |} c with
  | (c, Err e) => (c, Err (Raw e))
  | (c, Ok res) =>
      (c, if success (rs_status res) then response_value res else Err (Normalized (response_error res)))
  end.

(** The methods of the client *)
Definition rpc_get (path : jstr) (headers query : jsmap jstr jstr) := request (js "GET") path None headers query.
Definition rpc_post (path : jstr) (body : option rpc_body) (headers : jsmap jstr jstr) :=
  request (js "POST") path body headers [].
Definition rpc_put (path : jstr) (body : option rpc_body) (headers : jsmap jstr jstr) :=
  request (js "PUT") path body headers [].
Definition rpc_patch (path : jstr) (body : option rpc_body) (headers : jsmap jstr jstr) :=
  request (js "PATCH") path body headers [].
Definition rpc_delete (path : jstr) (headers : jsmap jstr jstr) := request (js "DELETE") path None headers [].

Definition head_code (status : Z) : RailFogErrorCode :=
  if status =? 404 then RESOURCE_NOT_FOUND
  else if status =? 403 then PERMISSION_DENIED
  else if status =? 400 then VALIDATION_FAILED
  else if status =? 409 then CONFLICT
  else if status =? 429 then RATE_LIMITED
  else if status =? 503 then UNAVAILABLE
  else if status =? 504 then TIMEOUT
  else INTERNAL.

Definition rpc_head (path : jstr) (headers : jsmap jstr jstr) : stm C rpc_error Headers := λ c,
  match fetch {| rr_method := js "HEAD"; rr_url := strip_slashes baseUrl ++ clean_path path;
                 rr_headers := set_headers headers options; rr_body := None |} c with
  | (c, Err e) => (c, Err (Raw e))
  | (c, Ok res) =>
      (c, if success (rs_status res) then Ok (rs_headers res)
          else Err (Normalized {|
            err_code := head_code (rs_status res);
            err_message := match rs_statusText res with
                           | [] => js "HTTP " ++ string_of_nat (rs_status res) | t => t end;
            err_requestId := map_get (rs_headers res) (js "x-request-id") |}))
  end.
End client.

(** ** Errors across the wire *)

(** The body of an error response, as a value *)
Definition body_value (b : ErrorBody) : jsval :=
  JObj [(js "error", JObj ([(js "code", JStr (body_code b)); (js "message", JStr (body_message b))] ++
    match body_request_id b with Some r => [(js "request_id", JStr r)] | None => [] end))].

Lemma class_of_code c : class_of (Some (code_string c)) = c.
Proof. by destruct c; vm_compute. Qed.

(** The status decides the class of a HEAD error: all codes of one status but the
    first, and the statuses that the table leaves out, lose their code. *)
Lemma head_code_of_status c :
  head_code (statusFromErrorCode c) = match c with CALL_DEPTH_EXCEEDED => RATE_LIMITED | PAYLOAD_TOO_LARGE => INTERNAL | c => c end.
Proof. by destruct c. Qed.

(** What the errors module prints, [normalizeError] reads back. *)
Theorem normalize_error_body to_text e fallback :
  normalizeError to_text (CValue (body_value (toErrorResponseBody e))) fallback =
  {| err_code := err_code e; err_message := err_message e;
     err_requestId := match err_requestId e with Some r => Some r | None => fallback end |}.
Proof.
  destruct e as [c m rid]. unfold normalizeError. cbn [error_object is_object body_value].
  set (b := toErrorResponseBody _). fold (body_value b).
  assert (∃ inner, prop (body_value b) (js "error") = JObj inner ∧
    prop (JObj inner) (js "code") = JStr (code_string c) ∧ prop (JObj inner) (js "message") = JStr m ∧
    prop (JObj inner) (js "requestId") = JUndef ∧
    prop (JObj inner) (js "request_id") = match rid with Some r => JStr r | None => JUndef end)
    as (inner & -> & Hc & Hm & Hi & Hr).
  { eexists. split; [reflexivity|]. by destruct rid. }
  cbn [is_object]. rewrite Hc, Hm, Hi, Hr. cbn [as_str some_text]. rewrite class_of_code. by destruct rid.
Qed.

(** Normalising twice is normalising once. *)
Lemma normalize_idem to_text err f f' :
  normalizeError to_text (CRailFog (normalizeError to_text err f)) f' = normalizeError to_text err f.
Proof. done. Qed.
