(* ===== verification/SdkWrapper.v ===== *)
(** * The SDK's handler wrappers ([sdk/typescript/wrapper.ts])

    [handle], the micro-router [api], the fluent [router] with middleware, [consumer],
    cookies and server-sent events.  A handler is a function from its context to an
    [hprog], a program that reads the body, sets cookies, calls [next] and ends with
    a result or an error; what it does with the bindings is not visible here.
    [URLPattern], [String(v)] of a value that is not a string, the messages of
    built-in errors and [JSON.parse] of a body are parameters. *)

From S2P Require Import Prelude JsString JsMap JsNumber JsValue Errors Utf8 TextDecoder Uri Http Router KvInterface SdkHelpers DenoKv SdkClient.
From Stdlib Require Import QArith Qround.

Open Scope Z_scope.
Open Scope railfog_scope.

(** ** Responses *)

(** [re_fixed]: the headers cannot be changed, as those of [Response.redirect] *)
Record Response := {
  re_status : Z;
  re_headers : list (jstr * jstr);
  re_content : Content;
  re_fixed : bool
}.

(** What a handler returns: a [Response], or a value ([JUndef] for none) *)
Inductive HandlerResult := RResponse (r : Response) | RValue (v : jsval).

(** A header value without NUL and line breaks, in Latin-1 *)
Definition header_value_ok (s : jstr) : bool :=
  forallb (λ c, (0 <? c) && (c <=? 0xFF) && negb (c =? 10) && negb (c =? 13)) s.

Record CookieOptions := {
  co_domain : option jstr;
  co_expires : option jstr;
  co_httpOnly : bool;
  co_maxAge : option Q;
  co_path : option jstr;
  co_sameSite : option jstr;
  co_secure : bool
}.

Record StandardIssue := { issue_message : jstr; issue_path : option (list jstr) }.

(** A validator: a schema object with [~standard], an object with [safeParse] or
    [safeParseAsync], a function, or another object.  The path segments of an issue
    and the error of [safeParse] are given as text. *)
Inductive Validator :=
| StandardSchema (validate : jsval → result caught (result (list StandardIssue) jsval))
| SafeParse (safeParse : jsval → result caught (result jstr jsval))
| Predicate (f : jsval → result caught jsval)
| OtherObject.

(** What a handler sees of a request *)
Record HandlerContext := {
  c_req : HttpRequest;
  c_query : list (jstr * jstr);
  c_params : list (jstr * jstr);
  c_cookies : list (jstr * jstr);
  c_requestId : jstr
}.

Inductive hprog :=
| HReturn (r : HandlerResult)
| HThrow (err : caught)
| HBody (validator : option Validator) (f : result caught jsval → hprog)
| HSetCookie (name value : jstr) (options : option CookieOptions) (f : result caught unit → hprog)
| HNext (f : result caught HandlerResult → hprog).

Definition HandlerFn := HandlerContext → hprog.

(** ** Cookies *)

(** [s.indexOf("=")] and the parts around it *)
Definition cookie_part (decode : jstr → result exn jstr) (part : jstr) : option (jstr * jstr) :=
  match index_of part (js "=") with
  | None => None
  | Some eqIdx =>
      let name := trim (take eqIdx part) in
      let val := trim (drop (eqIdx + 1) part) in
      match name with
      | [] => None
      | _ => Some (name, match decode val with Ok v => v | Err _ => val end)
      end
  end.

(** The cookies of a request; one that is called [__proto__] is dropped. *)
Definition parsedCookies (cookieHeader : option jstr) : list (jstr * jstr) :=
  match cookieHeader with
  | Some ((_ :: _) as h) => obj_build (omap (cookie_part decodeURIComponent) (split_on (chr ";") h))
  | _ => []
  end.

Definition string_of_int (z : Z) : jstr := if z <? 0 then js "-" ++ string_of_nat (- z) else string_of_nat z.

Definition attribute (name : jstr) (value : option jstr) : jstr :=
  match value with Some v => js "; " ++ name ++ js "=" ++ v | None => [] end.
(** [if (s)] *)
Definition nonempty_text (s : option jstr) : option jstr := match s with Some [] => None | s => s end.

Definition no_cookie_options : CookieOptions :=
  {| co_domain := None; co_expires := None; co_httpOnly := false; co_maxAge := None; co_path := None;
     co_sameSite := None; co_secure := false |}.

Definition cookie_text (name value : jstr) (options : option CookieOptions) : result exn jstr :=
  let o := default no_cookie_options options in
  encodeURIComponent name ≫= λ n,
  encodeURIComponent value ≫= λ v,
  Ok (n ++ js "=" ++ v ++
      attribute (js "Max-Age") ((λ q, string_of_int (Qfloor q)) <$> co_maxAge o) ++
      attribute (js "Expires") (co_expires o) ++
      attribute (js "Domain") (nonempty_text (co_domain o)) ++
      attribute (js "Path") (Some (default (js "/") (co_path o))) ++
      (if co_secure o then js "; Secure" else []) ++
      (if co_httpOnly o then js "; HttpOnly" else []) ++
      attribute (js "SameSite") ((λ s, to_upper (take 1 s) ++ to_lower (drop 1 s)) <$> nonempty_text (co_sameSite o))).

(** The options that [clearCookie] passes on *)
Definition clear_options (options : option CookieOptions) : CookieOptions :=
  let o := default no_cookie_options options in
  {| co_domain := co_domain o; co_expires := Some (js "Thu, 01 Jan 1970 00:00:00 GMT"); co_httpOnly := co_httpOnly o;
     co_maxAge := Some 0%Q; co_path := co_path o; co_sameSite := co_sameSite o; co_secure := co_secure o |}.

(** ** Server-sent events *)

Record SseEvent := {
  se_data : jsval;
  se_event : option jstr;
  se_id : option jstr;
  se_retry : option jstr
}.

(** [s.split(/\r?\n/)] *)
Fixpoint split_lines (s : jstr) : list jstr :=
  match s with
  | [] => [[]]
  | c :: s =>
      let ls := split_lines s in
      if c =? 10 then [] :: ls
      else if (c =? 13) && starts_with s [10] then ls
      else match ls with l :: ls => (c :: l) :: ls | [] => [[c]] end
  end.

Definition sse_field (name : jstr) (value : option jstr) : jstr :=
  match value with Some v => name ++ js ": " ++ v ++ [10] | None => [] end.

(** The text that [send] writes; a number is given as text. *)
Definition sse_payload (json_stringify : jsval → option jstr) (event : SseEvent) : jstr :=
  let dataStr := match se_data event with
    | JUndef => []
    | JStr s => s
    | v => default [] (json_stringify v)
    end in
  sse_field (js "id") (se_id event) ++ sse_field (js "event") (se_event event) ++
  sse_field (js "retry") (se_retry event) ++
  flat_map (λ line, sse_field (js "data") (Some line)) (split_lines dataStr) ++ [10].

(** ** [handle] *)

(** The body of the request, which can be read once; and the state of one [handle]:
    the parsed body and the cookies to set.  [w_index] is that of the router. *)
Inductive req_body := Unread (bytes : option (list Z)) | Consumed.

Record World := {
  w_body : req_body;
  w_index : nat;
  w_parsed : option jsval;
  w_cookies : list jstr
}.
Definition with_body b w := {| w_body := b; w_index := w_index w; w_parsed := w_parsed w; w_cookies := w_cookies w |}.
Definition with_index n w := {| w_body := w_body w; w_index := n; w_parsed := w_parsed w; w_cookies := w_cookies w |}.
Definition with_parsed v w := {| w_body := w_body w; w_index := w_index w; w_parsed := v; w_cookies := w_cookies w |}.
Definition with_cookies cs w := {| w_body := w_body w; w_index := w_index w; w_parsed := w_parsed w; w_cookies := cs |}.

Section wrapper.
Context `{ContentCodec} (to_text : jsval → jstr) (error_message : exn → jstr).

Definition builtin (e : exn) : caught := CError (error_message e) [].
Definition railfog (code : RailFogErrorCode) (message requestId : jstr) : caught :=
  CRailFog {| err_code := code; err_message := message; err_requestId := Some requestId |}.

(** [err instanceof Error ? err.message : String(err)] *)
Definition caught_message (err : caught) : jstr :=
  match err with
  | CRailFog e => err_message e
  | CError message _ => message
  | CValue (JStr s) => s
  | CValue v => to_text v
  end.

Definition header_ok (value : jstr) : result caught unit :=
  throw_if (negb (header_value_ok value)) (builtin TypeError).

(** [Response.json(v, { status, headers })] *)
Definition response_json (v : jsval) (status : Z) (headers : list (jstr * jstr)) : result caught Response :=
  throw_if (is_undefined v) (builtin TypeError) ≫= λ _,
  throw_if (negb ((200 <=? status) && (status <=? 599))) (builtin RangeError) ≫= λ _,
  throw_if (existsb (Z.eqb status) [204; 205; 304]) (builtin TypeError) ≫= λ _,
  for_each (λ h, header_ok h.2) headers ≫= λ _,
  Ok {| re_status := status; re_headers := headers; re_content := JsonOf v; re_fixed := false |}.

Definition normalizeToErrorResponse (err : caught) (defaultRequestId : jstr) : result caught Response :=
  let railFogError := normalizeError to_text err (Some defaultRequestId) in
  let requestId := default defaultRequestId (err_requestId railFogError) in
  let status := statusFromErrorCode (err_code railFogError) in
  let body := toErrorResponseBody railFogError in
  let body := match body_request_id body, requestId with
    | None, (_ :: _) | Some [], (_ :: _) =>
        {| body_code := body_code body; body_message := body_message body; body_request_id := Some requestId |}
    | _, _ => body
    end in
  response_json (body_value body) status (json_headers requestId).

(** *** The builders of the context *)

Definition text_response (mime : jstr) (str : jstr) (status : Z) : result caught Response :=
  throw_if (negb ((200 <=? status) && (status <=? 599))) (builtin RangeError) ≫= λ _,
  throw_if (existsb (Z.eqb status) [204; 205; 304]) (builtin TypeError) ≫= λ _,
  Ok {| re_status := status; re_headers := [(js "content-type", mime)]; re_content := Bytes (text_encode str);
        re_fixed := false |}.

Definition c_json (data : jsval) (status : Z) : result caught Response :=
  response_json data status [(js "content-type", js "application/json")].
Definition c_text := text_response (js "text/plain; charset=utf-8").
Definition c_html := text_response (js "text/html; charset=utf-8").
Definition c_redirect (location : jstr) (status : Z) : result caught Response :=
  throw_if (negb ((200 <=? status) && (status <=? 599))) (builtin RangeError) ≫= λ _,
  header_ok location ≫= λ _,
  Ok {| re_status := status; re_headers := [(js "location", location)]; re_content := NoContent; re_fixed := false |}.
Definition c_notFound (c : HandlerContext) (message : option jstr) : hprog :=
  HThrow (railfog RESOURCE_NOT_FOUND (default (js "Resource not found") message) (c_requestId c)).
Definition c_badRequest (c : HandlerContext) (message : option jstr) : hprog :=
  HThrow (railfog VALIDATION_FAILED (default (js "Validation failed") message) (c_requestId c)).
Definition c_fail (c : HandlerContext) (err : caught) : hprog :=
  HThrow (CRailFog (normalizeError to_text err (Some (c_requestId c)))).

(** *** The operations of the context *)

(** [await req.json()] *)
Definition req_json : stm World caught jsval := λ w,
  match w_body w with
  | Consumed => (w, Err (builtin TypeError))
  | Unread bytes =>
      (with_body Consumed w,
       match bytes_json (default [] bytes) with Ok v => Ok v | Err e => Err (builtin e) end)
  end.

Definition issue_text (issue : StandardIssue) : jstr :=
  match str_join (js ".") (default [] (issue_path issue)) with
  | [] => issue_message issue
  | pathStr => pathStr ++ js ": " ++ issue_message issue
  end.

Definition validate (requestId : jstr) (validator : option Validator) (v : jsval) : result caught jsval :=
  let failed message := Err (railfog VALIDATION_FAILED (js "Validation failed: " ++ message) requestId) in
  match validator with
  | None | Some OtherObject => Ok v
  | Some (StandardSchema check) =>
      check v ≫= λ r, match r with Ok v => Ok v | Err issues => failed (str_join (js "; ") (issue_text <$> issues)) end
  | Some (SafeParse safeParse) => safeParse v ≫= λ r, match r with Ok v => Ok v | Err message => failed message end
  | Some (Predicate f) => match f v with Ok v => Ok v | Err err => failed (caught_message err) end
  end.

Definition read_body (requestId : jstr) (validator : option Validator) : stm World caught jsval := λ w,
  match w_parsed w with
  | Some v => (w, validate requestId validator v)
  | None =>
      match req_json w with
      | (w, Ok v) => (with_parsed (Some v) w, validate requestId validator v)
      | (w, Err err) =>
          (w, Err (railfog VALIDATION_FAILED (js "Malformed JSON request body: " ++ caught_message err) requestId))
      end
  end.

Definition setCookie (name value : jstr) (options : option CookieOptions) : stm World caught unit := λ w,
  match cookie_text name value options with
  | Ok cookieStr => (with_cookies (w_cookies w ++ [cookieStr]) w, Ok tt)
  | Err e => (w, Err (builtin e))
  end.

(** The program of a handler; [next] is what [next()] does. *)
Fixpoint run_handler (requestId : jstr) (next : stm World caught HandlerResult) (p : hprog)
    : stm World caught HandlerResult := λ w,
  match p with
  | HReturn r => (w, Ok r)
  | HThrow err => (w, Err err)
  | HBody validator f => let '(w, r) := read_body requestId validator w in run_handler requestId next (f r) w
  | HSetCookie name value options f => let '(w, r) := setCookie name value options w in run_handler requestId next (f r) w
  | HNext f => let '(w, r) := next w in run_handler requestId next (f r) w
  end.

(** From the result of the handler to the response, with the cookies *)
Definition add_cookies (cookies : list jstr) (r : Response) : result caught Response :=
  match cookies with
  | [] => Ok r
  | _ =>
      throw_if (re_fixed r) (builtin TypeError) ≫= λ _,
      for_each header_ok cookies ≫= λ _,
      Ok {| re_status := re_status r; re_headers := re_headers r ++ ((λ c, (js "set-cookie", c)) <$> cookies);
            re_content := re_content r; re_fixed := re_fixed r |}
  end.

Definition final_response (res : HandlerResult) : result caught Response :=
  match res with
  | RResponse r => Ok r
  | RValue JUndef => Ok {| re_status := 204; re_headers := []; re_content := NoContent; re_fixed := false |}
  | RValue v => response_json v 200 [(js "content-type", js "application/json")]
  end.

(** [handle(fn)(req, ctx)], on a request whose body may have been read already;
    [index] is the router's. *)
Definition handler_context (requestId : jstr) (req : HttpRequest) : HandlerContext :=
  {| c_req := req; c_query := obj_build (h_query req); c_params := [];
     c_cookies := parsedCookies (get_header req (js "cookie")); c_requestId := requestId |}.

Definition handle (next : HandlerContext → stm World caught HandlerResult) (fn : HandlerFn)
    (req : HttpRequest) (requestId : jstr) (body : req_body) : req_body * result caught Response :=
  let c := handler_context requestId req in
  let '(w, r) := run_handler requestId (next c) (fn c)
                   {| w_body := body; w_index := 0; w_parsed := None; w_cookies := [] |} in
  let answer := r ≫= λ result, final_response result ≫= λ finalResponse, add_cookies (w_cookies w) finalResponse in
  (w_body w, match answer with Ok r => Ok r | Err err => normalizeToErrorResponse err requestId end).

(** ** [api] *)

(** [trimmed.match(/^([A-Za-z*]+)\s+(.+)$/)]: the letters, and what follows the space *)
Definition is_method_char (c : Z) : bool := is_upper c || is_lower c || (c =? chr "*").
Fixpoint take_method (s : jstr) : jstr * jstr :=
  match s with
  | c :: s' => if is_method_char c then let '(m, rest) := take_method s' in (c :: m, rest) else ([], s)
  | [] => ([], [])
  end.
Definition is_line_end (c : Z) : bool := (c =? 10) || (c =? 13) || (c =? 0x2028) || (c =? 0x2029).
Definition match_route_key (trimmed : jstr) : option (jstr * jstr) :=
  match take_method trimmed with
  | ((_ :: _) as m, (sp :: _) as rest) =>
      match trim_start rest with
      | [] => None
      | pattern => if is_space sp && negb (existsb is_line_end pattern) then Some (m, pattern) else None
      end
  | _ => None
  end.

Definition parseRouteKey (routeKey : jstr) : jstr * jstr :=
  let trimmed := trim routeKey in
  let '(method, rawPattern) := match match_route_key trimmed with
    | Some (m, pattern) => (to_upper m, trim pattern)
    | None => if starts_with trimmed (js "/") then (js "*", trimmed) else (to_upper trimmed, js "/*")
    end in
  (method, if starts_with rawPattern (js "/") then rawPattern else js "/" ++ rawPattern).

Section api.
Context {P : Type} (new_URLPattern : jstr → result exn P) (test : P → jstr → bool) (groups : P → jstr → list (jstr * jstr)).

Record CompiledRoute := {
  cr_method : jstr;
  cr_pattern : jstr;
  cr_urlPattern : P;
  cr_score : Z;
  cr_handler : HandlerFn
}.

Definition compile_route (e : jstr * HandlerFn) : result exn CompiledRoute :=
  let '(method, pattern) := parseRouteKey e.1 in
  new_URLPattern pattern ≫= λ urlPattern,
  Ok {| cr_method := method; cr_pattern := pattern; cr_urlPattern := urlPattern;
        cr_score := specificityScore pattern; cr_handler := e.2 |}.

Fixpoint select_route (routes : list CompiledRoute) (reqMethod pathname : jstr)
    (winningRoute : option CompiledRoute) (highestScore : Z) : option CompiledRoute :=
  match routes with
  | [] => winningRoute
  | route :: routes =>
      if negb (jstr_eqb (cr_method route) (js "*")) && negb (jstr_eqb (cr_method route) reqMethod) then
        select_route routes reqMethod pathname winningRoute highestScore
      else if test (cr_urlPattern route) pathname && (highestScore <? cr_score route)
      then select_route routes reqMethod pathname (Some route) (cr_score route)
      else select_route routes reqMethod pathname winningRoute highestScore
  end.

Definition with_params (params : list (jstr * jstr)) (c : HandlerContext) : HandlerContext :=
  {| c_req := c_req c; c_query := c_query c; c_params := params; c_cookies := c_cookies c; c_requestId := c_requestId c |}.

(** The handler that [api] wraps *)
Definition api_handler (compiledRoutes : list CompiledRoute) : HandlerFn := λ c,
  let pathname := h_pathname (c_req c) in
  match select_route compiledRoutes (to_upper (h_method (c_req c))) pathname None (-1) with
  | None =>
      HThrow (railfog RESOURCE_NOT_FOUND
                (js "No route matched " ++ h_method (c_req c) ++ js " " ++ pathname) (c_requestId c))
  | Some route => cr_handler route (with_params (groups (cr_urlPattern route) pathname) c)
  end.

(** Outside a router there is no [next]. *)
Definition no_next (c : HandlerContext) : stm World caught HandlerResult := st_throw (builtin TypeError).

Definition api (routes : list (jstr * HandlerFn)) :
    result exn (HttpRequest → jstr → req_body → req_body * result caught Response) :=
  map_result compile_route routes ≫= λ compiledRoutes, Ok (handle no_next (api_handler compiledRoutes)).

(** ** [router] *)

Record RouterInstance := { routeMap : list (jstr * HandlerFn); middlewares : list HandlerFn }.

Definition new_router : RouterInstance := {| routeMap := []; middlewares := [] |}.
Definition router_use (mw : HandlerFn) (r : RouterInstance) : RouterInstance :=
  {| routeMap := routeMap r; middlewares := middlewares r ++ [mw] |}.
(** [get], [post], ..., by the method's name; [all] by an asterisk *)
Definition router_route (method pattern : jstr) (handler : HandlerFn) (r : RouterInstance) : RouterInstance :=
  {| routeMap := map_set (routeMap r) (method ++ js " " ++ pattern) handler; middlewares := middlewares r |}.

(** [next], which may be nested [fuel] times: the middleware at the index, or the
    routes, which get the request itself and a context of their own *)
Fixpoint router_next (fuel : nat) (middlewares : list HandlerFn) (compiledRoutes : list CompiledRoute)
    (c : HandlerContext) : stm World caught HandlerResult := λ w,
  match fuel, middlewares !! w_index w with
  | S fuel, Some currentMw =>
      run_handler (c_requestId c) (router_next fuel middlewares compiledRoutes c) (currentMw c) (with_index (S (w_index w)) w)
  | _, _ =>
      let '(body, r) := handle no_next (api_handler compiledRoutes) (c_req c) (c_requestId c) (w_body w) in
      (with_body body w, r ≫= λ response, Ok (RResponse response))
  end.

Definition run_next : HandlerFn := λ c, HNext (λ r, match r with Ok result => HReturn result | Err err => HThrow err end).

Definition router (r : RouterInstance) :
    result exn (HttpRequest → jstr → req_body → req_body * result caught Response) :=
  map_result compile_route (routeMap r) ≫= λ compiledRoutes,
  Ok match middlewares r with
     | [] => handle no_next (api_handler compiledRoutes)
     | mws => handle (router_next (length mws) mws compiledRoutes) run_next
     end.
End api.
End wrapper.

(** ** [consumer] *)

(** [dedupe_key] is the default key, and [action] what the function does. *)
Record ConsumerOptions := { idempotent : bool; ttlSeconds : option jsnum; dedupeKey : option (jstr → key) }.

Definition consumer {V R} (js_true : V) (messageId : jstr) (options : option ConsumerOptions)
    : bprog V R (option R) :=
  match options with
  | Some o =>
      if idempotent o then
        let key := match dedupeKey o with Some f => f messageId | None => [js "railfog_dedupe"; messageId] end in
        bprog_map ir_result (withIdempotency js_true key (ttlSeconds o))
      else BAct (awaited (λ r, BDone (Some r)))
  | None => BAct (awaited (λ r, BDone (Some r)))
  end.
