(* ===== verification/LocalFs.v ===== *)
(** * The local file system object provider ([providers/objects/local-fs-provider.ts])

    The file system is a tree of directories; [@std/path] and the hash are
    parameters.  The operations run one after the other, no link leads out of a
    directory, and the file system never refuses for lack of space or rights.
    [PathLaws] states what [resolve], [relative] and [dirname] are documented to do
    on POSIX paths, for a provider whose root directory is the path [root]. *)

From S2P Require Import Prelude JsString JsMap JsNumber JsValue Errors Utf8 TextDecoder Uri Ulid Packager StateBackup EgressProxy.
From Stdlib Require Import QArith.

Open Scope Z_scope.
Open Scope railfog_scope.

(** ** The file system *)

Inductive node := File (bytes : list Z) | Dir (entries : list (jstr * node)).

(** [Deno.errors.NotFound], and the others: a file where a directory is expected, a
    directory where a file is, a directory that is not empty, a path with a NUL *)
Inductive fs_error := NotFound | Refused.

(** What is at the end of a path; a file is not searched. *)
Fixpoint look (n : option node) (p : list jstr) : result fs_error node :=
  match p, n with
  | _, None => Err NotFound
  | [], Some n => Ok n
  | _ :: _, Some (File _) => Err Refused
  | x :: p, Some (Dir es) => look (map_get es x) p
  end.

(** A change at the end of a path whose directory exists *)
Fixpoint change (f : option node → result fs_error (option node)) (n : option node) (p : list jstr)
    : result fs_error (option node) :=
  match p, n with
  | [], _ => f n
  | _ :: _, None => Err NotFound
  | _ :: _, Some (File _) => Err Refused
  | x :: p, Some (Dir es) =>
      change f (map_get es x) p ≫= λ r,
      Ok (Some (Dir match r with Some n' => map_set es x n' | None => map_delete es x end))
  end.

Definition written (bytes : list Z) (n : option node) : result fs_error (option node) :=
  match n with Some (Dir _) => Err Refused | _ => Ok (Some (File bytes)) end.
Definition removed (n : option node) : result fs_error (option node) :=
  match n with None => Err NotFound | Some (Dir (_ :: _)) => Err Refused | _ => Ok None end.

(** [mkdir] with [recursive] *)
Fixpoint make_dirs (n : option node) (p : list jstr) : result fs_error node :=
  match p, n with
  | _, Some (File _) => Err Refused
  | [], Some (Dir es) => Ok (Dir es)
  | [], None => Ok (Dir [])
  | x :: p, _ =>
      let es := match n with Some (Dir es) => es | _ => [] end in
      make_dirs (map_get es x) p ≫= λ n', Ok (Dir (map_set es x n'))
  end.

(** ** Paths *)

Class PathOps := {
  resolve : list jstr → jstr;
  relative : jstr → jstr → jstr;
  isAbsolute : jstr → bool;
  dirname : jstr → jstr;
  (** the names that the operating system finds in a path *)
  os_path : jstr → list jstr
}.

(** A provider's state: the file system from [/] on *)
Definition fs_of (r : result fs_error (option node)) : result fs_error node :=
  r ≫= λ o, match o with Some n => Ok n | None => Err Refused end.

Section deno.
Context `{PathOps}.

Definition deno_find (fs : node) (path : jstr) : result fs_error node :=
  if includes path [0] then Err Refused else look (Some fs) (os_path path).
Definition deno_mkdir (path : jstr) (fs : node) : result fs_error node :=
  if includes path [0] then Err Refused else make_dirs (Some fs) (os_path path).
Definition deno_writeFile (path : jstr) (bytes : list Z) (fs : node) : result fs_error node :=
  if includes path [0] then Err Refused else fs_of (change (written bytes) (Some fs) (os_path path)).
Definition deno_remove (path : jstr) (fs : node) : result fs_error node :=
  if includes path [0] then Err Refused else fs_of (change removed (Some fs) (os_path path)).
Definition deno_readFile (fs : node) (path : jstr) : result fs_error (list Z) :=
  deno_find fs path ≫= λ n, match n with File bytes => Ok bytes | Dir _ => Err Refused end.
End deno.

(** An error of the file system that is not caught *)
Definition fs_try {A} (r : result fs_error A) : result exn A := match r with Ok a => Ok a | Err _ => Err PlainError end.
Definition fs_step (f : node → result fs_error node) : stm node exn unit :=
  λ fs, match f fs with Ok fs => (fs, Ok tt) | Err _ => (fs, Err PlainError) end.

(** ** The provider *)

(** [data: ArrayBuffer | ReadableStream] *)
Inductive put_data := ABuffer (bytes : list Z) | AStream (s : stream).

Record PresignOptions := { po_method : jstr; po_expiresIn : option Q; po_maxExpiresIn : option Q }.

Section provider.
Context `{PathOps, Hashing} (rootDir : jstr).

Definition rootAbs : jstr := resolve [rootDir].

(** [seg.replace(/:/g, "%3A")] *)
Definition encode_name (seg : jstr) : jstr := flat_map (λ c, if c =? chr ":" then js "%3A" else [c]) seg.
Definition decode_name (name : jstr) : jstr := replace_all name (js "%3A") (js ":").

Definition fsKey (key : jstr) : jstr := str_join (js "/") (encode_name <$> split_on (chr "/") key).

Definition getPath (key : jstr) : result exn jstr :=
  let absPath := resolve [rootDir; fsKey key] in
  let rel := relative rootAbs absPath in
  throw_if (starts_with rel (js "..") || isAbsolute rel) ValidationFailedError ≫= λ _, Ok absPath.

Definition put_bytes (data : put_data) : result exn (list Z) :=
  match data with AStream s => streamToBytes s | ABuffer bytes => Ok bytes end.

Definition fs_put (key : jstr) (data : put_data) : stm node exn jstr :=
  filePath <~ st_lift (getPath key) ;;
  fs_step (deno_mkdir (dirname filePath)) ;;~
  buffer <~ st_lift (put_bytes data) ;;
  fs_step (deno_writeFile filePath buffer) ;;~
  st_ret (encodeHex (sha256 buffer)).

(** An open directory is a stream that cannot be read. *)
Definition fs_get (key : jstr) (fs : node) : result exn (option stream) :=
  getPath key ≫= λ filePath,
  match deno_find fs filePath with
  | Ok (File bytes) => Ok (Some {| reads := [Some bytes]; failure := None |})
  | Ok (Dir _) => Ok (Some {| reads := []; failure := Some PlainError |})
  | Err NotFound => Ok None
  | Err Refused => Err PlainError
  end.

Definition fs_delete (key : jstr) : stm node exn unit :=
  filePath <~ st_lift (getPath key) ;;
  λ fs, match deno_remove filePath fs with
        | Ok fs => (fs, Ok tt)
        | Err NotFound => (fs, Ok tt)
        | Err Refused => (fs, Err PlainError)
        end.

Definition fs_head (key : jstr) (fs : node) : result exn (option (Z * jstr)) :=
  getPath key ≫= λ filePath,
  match deno_find fs filePath with
  | Ok (Dir _) => Ok None
  | Ok (File stat) =>
      match deno_readFile fs filePath with
      | Ok data => Ok (Some (Z.of_nat (length stat), encodeHex (sha256 data)))
      | Err NotFound => Ok None
      | Err Refused => Err PlainError
      end
  | Err NotFound => Ok None
  | Err Refused => Err PlainError
  end.

(** The files below a directory, in the order in which it is read *)
Definition entry_key (base name : jstr) : jstr :=
  match base with [] => decode_name name | _ => base ++ js "/" ++ decode_name name end.
Fixpoint walk (n : node) (base : jstr) : list jstr :=
  match n with
  | File _ => []
  | Dir entries =>
      flat_map (λ e, match e with (name, n) =>
        match n with
        | Dir _ => walk n (entry_key base name)
        | File _ => [entry_key base name]
        end end) entries
  end.

(** [keys.slice(0, limit)] *)
Definition slice_to (limit : Z) (keys : list jstr) : list jstr :=
  take (Z.to_nat (if limit <? 0 then Z.of_nat (length keys) + limit else limit)) keys.

Fixpoint position (k : jstr) (keys : list jstr) : option nat :=
  match keys with
  | [] => None
  | k' :: keys => if bool_decide (k' = k) then Some 0%nat else S <$> position k keys
  end.

(** The keys after a cursor; one that is the empty string is no cursor. *)
Definition after_cursor (cursor : option jstr) (keys : list jstr) : list jstr :=
  match cursor with
  | Some ((_ :: _) as c) =>
      match position c keys with
      | Some idx => drop (idx + 1) keys
      | None => filter (λ k, str_ltb c k = true) keys
      end
  | _ => keys
  end.

(** The page of a listing, from all the keys *)
Definition page (prefix : jstr) (limit : option Z) (cursor : option jstr) (allKeys : list jstr)
    : list jstr * option jstr :=
  let limit := default 100 limit in
  let filtered := after_cursor cursor (sort_strings (filter (λ k, starts_with k prefix = true) allKeys)) in
  let keys := slice_to limit filtered in
  let hasMore := limit <? Z.of_nat (length filtered) in
  (keys, if hasMore then last keys else None).

Definition fs_list (prefix : jstr) (limit : option Z) (cursor : option jstr) (fs : node)
    : result exn (list jstr * option jstr) :=
  let walked := match deno_find fs rootDir with
    | Ok (Dir entries) => Ok (walk (Dir entries) [])
    | Err NotFound => Ok []
    | Ok (File _) | Err Refused => Err PlainError
    end in
  walked ≫= λ allKeys, Ok (page prefix limit cursor allKeys).

(** ** Signed URLs

    [json_stringify], [decodeBase64] and the URL parser, which gives the path and
    the query, are parameters; a thrown error makes a verification fail. *)
Section presign.
Context (hmacSecret : jstr) (json_stringify : jsval → jstr) (json_parse : jstr → result exn jsval).
Context (decodeBase64 : jstr → result exn (list Z)) (parse_URL : jstr → result exn (jstr * jstr)).

Definition signature (token : jstr) : jstr := encodeHex (sha256 (text_encode (token ++ js ":" ++ hmacSecret))).

Definition presign_payload (key method : jstr) (expiresAt : Q) : jsval :=
  JObj [(js "key", JStr key); (js "method", JStr method); (js "expiresAt", JNum (Fin expiresAt))].

(** [env.get(name) || ...] *)
Definition truthy_env (env : jstr → option jstr) (name : jstr) : option jstr :=
  match env name with Some [] => None | v => v end.
Definition public_origin (env : jstr → option jstr) : jstr :=
  match truthy_env env (js "RAILFOG_PUBLIC_URL"), truthy_env env (js "RAILFOG_RUNTIME_URL"),
        truthy_env env (js "RAILWAY_PUBLIC_DOMAIN") with
  | Some url, _, _ | None, Some url, _ => url
  | None, None, Some domain => js "https://" ++ domain
  | None, None, None => js "http://localhost"
  end.
Definition presign (env : jstr → option jstr) (now : Z) (key : jstr) (opts : PresignOptions) : result exn (jstr * Q) :=
  let max := default 86400%Q (po_maxExpiresIn opts) in
  let expiresIn := default 900%Q (po_expiresIn opts) in
  throw_if (q_ltb max expiresIn) ValidationFailedError ≫= λ _,
  let expiresAt := fadd (inject_Z now) (fmul expiresIn 1000) in
  let token := encodeBase64 (text_encode (json_stringify (presign_payload key (po_method opts) expiresAt))) in
  Ok (strip_slashes (public_origin env) ++ js "/local-fs/" ++ key ++ js "?token=" ++ token ++ js "&sig=" ++ signature token,
      expiresAt).

Definition is_text (v : jsval) (s : jstr) : bool := match v with JStr t => jstr_eqb t s | _ => false end.

Definition verifyPresignedUrl (now : Z) (url : jstr) (expectedMethod : option jstr) : bool :=
  let verified :=
    parse_URL url ≫= λ '(pathname, search),
    match map_get (search_params search) (js "token"), map_get (search_params search) (js "sig") with
    | Some ((_ :: _) as token), Some ((_ :: _) as sig) =>
        if negb (jstr_eqb sig (signature token)) then Ok false
        else
          decodeBase64 token ≫= λ bytes,
          json_parse (text_decode bytes) ≫= λ payload,
          throw_if (match payload with JUndef | JNull => true | _ => false end) PlainError ≫= λ _,
          match prop payload (js "expiresAt") with
          | JNum expiresAt =>
              if num_ltb expiresAt (inject_Z now) then Ok false
              else
                let rawKey := if starts_with pathname (js "/local-fs/") then drop 10 pathname else pathname in
                decodeURIComponent rawKey ≫= λ requestedKey,
                if negb (is_text (prop payload (js "key")) requestedKey) then Ok false
                else
                  match expectedMethod with
                  | Some ((_ :: _) as m) => Ok (is_text (prop payload (js "method")) m)
                  | _ => Ok true
                  end
          | _ => Ok false
          end
    | _, _ => Ok false
    end in
  match verified with Ok b => b | Err _ => false end.
End presign.

Definition createMultipartUpload (now : Z) (random : list Z) : jstr := generateUlid now random.
End provider.
