(* ===== verification/LocalFsSafety.v ===== *)
(** * Confinement of the local file system provider

    What a change of the tree does and leaves, the laws of POSIX paths, and
    [local_fs_confined]: no key leads out of the root directory. *)

From S2P Require Import Prelude JsString JsMap JsNumber JsValue Errors Utf8 TextDecoder Packager StateBackup BackupRestore EgressProxy LocalFs.
From Stdlib Require Import Sorted.

Open Scope Z_scope.
Open Scope railfog_scope.

(** ** The tree *)

Lemma look_app n p r m : look n p = Ok m → look n (p ++ r) = look (Some m) r.
Proof.
  revert n. induction p as [|x p IH]; intros n; cbn.
  - destruct n as [n|]; [|done]. intros [= ->]. done.
  - destruct n as [[b|es]|]; [done|apply IH|done].
Qed.

Lemma change_app f n p r : change f n (p ++ r) = change (λ o, change f o r) n p.
Proof.
  revert n. induction p as [|x p IH]; intros n; cbn; [done|].
  destruct n as [[b|es]|]; [done| |done]. by rewrite IH.
Qed.

(** The effect of a change: at its path, above it, and elsewhere *)
Lemma change_spec f n p n' : change f n p = Ok n' →
  ∃ o o', f o = Ok o' ∧ (∀ r, look n (p ++ r) = look o r) ∧ (∀ r, look n' (p ++ r) = look o' r) ∧
    (∀ q, q `prefix_of` p → q ≠ p → ∃ es es', look n q = Ok (Dir es) ∧ look n' q = Ok (Dir es')) ∧
    (∀ q, ¬ p `prefix_of` q → ¬ q `prefix_of` p → look n' q = look n q).
Proof.
  revert n n'. induction p as [|x p IH]; intros n n'; cbn [change].
  - intros Hf. exists n, n'. split_and!; [done..| |].
    + intros q ->%prefix_nil_inv. done.
    + intros q []. apply prefix_nil.
  - destruct n as [[b|es]|]; [done| |done]. intros (r & Hr & [= <-])%bind_Ok.
    destruct (IH _ _ Hr) as (o & o' & Hf & H1 & H2 & H3 & H4). exists o, o'.
    set (es' := match r with Some n' => map_set es x n' | None => map_delete es x end).
    assert (map_get es' x = r) as Hx.
    { unfold es'. destruct r; [apply map_get_set_eq|apply map_get_delete_eq]. }
    assert (∀ y, y ≠ x → map_get es' y = map_get es y) as Hy.
    { intros y Hne. unfold es'. destruct r; [by apply map_get_set_ne|by apply map_get_delete_ne]. }
    split_and!; [done|done| | |].
    + intros r'. cbn [app look]. by rewrite Hx.
    + intros [|y q] Hq Hne; [by exists es, es'|]. pose proof (prefix_cons_inv_1 _ _ _ _ Hq) as ->.
      apply prefix_cons_inv_2 in Hq. cbn [look]. rewrite Hx. apply H3; [done|congruence].
    + intros [|y q] H5 H6; [by destruct H6; apply prefix_nil|]. cbn [look].
      destruct (decide (y = x)) as [->|Hne]; [|by rewrite Hy].
      rewrite Hx. apply H4; intros H7; [destruct H5|destruct H6]; by apply prefix_cons.
Qed.

Lemma change_at f n p m : look n p = Ok m →
  match f (Some m) with Ok o => ∃ n', change f n p = Ok n' | Err e => change f n p = Err e end.
Proof.
  revert n. induction p as [|x p IH]; intros n; cbn.
  - destruct n as [n|]; [|done]. intros [= ->]. destruct (f (Some m)); eauto.
  - destruct n as [[b|es]|]; [done| |done]. intros Hl%IH. destruct (f (Some m)).
    + destruct Hl as [n' ->]. cbn. eauto.
    + by rewrite Hl.
Qed.

Lemma map_set_id {V} (es : list (jstr * V)) x v : map_get es x = Some v → map_set es x v = es.
Proof.
  induction es as [|[y w] es IH]; cbn; [done|]. case_decide; [by intros [= ->]; subst|]. intros H1. by rewrite IH.
Qed.

Lemma make_dirs_existing n p es : look (Some n) p = Ok (Dir es) → make_dirs (Some n) p = Ok n.
Proof.
  revert n. induction p as [|x p IH]; intros n; cbn.
  - by intros [= ->].
  - destruct n as [b|es']; [done|]. destruct (map_get es' x) as [m|] eqn:E; [|by destruct p].
    intros Hl%IH. rewrite Hl. cbn. by rewrite map_set_id.
Qed.

Lemma make_dirs_app n p r es : look (Some n) p = Ok (Dir es) →
  make_dirs (Some n) (p ++ r) = fs_of (change (λ o, make_dirs o r ≫= λ m, Ok (Some m)) (Some n) p).
Proof.
  revert n. induction p as [|x p IH]; intros n; cbn [app change].
  - intros _. unfold fs_of. by destruct (make_dirs (Some n) r).
  - cbn [look make_dirs]. destruct n as [b|es']; [done|].
    destruct (map_get es' x) as [m|] eqn:E; [|by destruct p]. intros Hl%IH. rewrite Hl.
    unfold fs_of. destruct (change _ (Some m) p) as [[m'|]|] eqn:Ec; cbn; try done.
    exfalso. apply change_spec in Ec as (o & o' & Ho & _ & H2 & H3 & _).
    destruct p as [|y p]; [specialize (H2 []); cbn in H2; by destruct o'; [|apply bind_Ok in Ho as (? & ? & ?)]|].
    destruct (H3 [] ltac:(apply prefix_nil) ltac:(done)) as (? & ? & _ & ?). done.
Qed.

(** The effect of [mkdir] *)
Lemma make_dirs_spec n p n' : make_dirs n p = Ok n' →
  (∀ q, q `prefix_of` p → ∃ es, look (Some n') q = Ok (Dir es)) ∧
  (∀ q, ¬ q `prefix_of` p → look (Some n') q = look n q).
Proof.
  revert n n'. induction p as [|x p IH]; intros n n'; cbn [make_dirs].
  - intros Hm. assert (∃ es, n' = Dir es ∧ (n = Some (Dir es) ∨ n = None ∧ es = [])) as (es & -> & Hn)
      by (destruct n as [[b|es]|]; [done|..]; injection Hm as <-; eauto).
    split; [intros q ->%prefix_nil_inv; by exists es|]. intros [|y q] Hq; [by destruct Hq|].
    destruct Hn as [-> | [-> ->]]; [done|by destruct q].
  - assert (∀ es, (n = Some (Dir es) ∨ n = None ∧ es = []) →
      make_dirs (map_get es x) p ≫= (λ n', Ok (Dir (map_set es x n'))) = Ok n' →
      (∀ q, q `prefix_of` x :: p → ∃ es, look (Some n') q = Ok (Dir es)) ∧
      (∀ q, ¬ q `prefix_of` x :: p → look (Some n') q = look n q)) as Hgen.
    { intros es Hn (m & Hm & [= <-])%bind_Ok. apply IH in Hm as [H1 H2]. split.
      - intros [|y q] Hq; [by eexists|]. pose proof (prefix_cons_inv_1 _ _ _ _ Hq) as ->.
        apply prefix_cons_inv_2 in Hq. cbn [look]. rewrite map_get_set_eq. by apply H1.
      - intros [|y q] Hq; [by destruct Hq; apply prefix_nil|].
        assert (look n (y :: q) = look (map_get es y) q) as ->.
        { destruct Hn as [-> | [-> ->]]; [done|]. cbn. by destruct q. }
        cbn [look].
        destruct (decide (x = y)) as [->|Hne]; [|by rewrite map_get_set_ne].
        rewrite map_get_set_eq. apply H2. intros H3. destruct Hq. by apply prefix_cons. }
    destruct n as [[b|es]|]; [done|apply Hgen; by left|apply (Hgen []); by right].
Qed.

Lemma make_dirs_ok n p : (∀ q b, q `prefix_of` p → look n q ≠ Ok (File b)) → ∃ n', make_dirs n p = Ok n'.
Proof.
  revert n. induction p as [|x p IH]; intros n Hn; cbn [make_dirs].
  - destruct n as [[b|es]|]; [|by eexists..]. by destruct (Hn [] b).
  - destruct n as [[b|es]|]; [by destruct (Hn [] b ltac:(apply prefix_nil))| |].
    + destruct (IH (map_get es x)) as [n' ->]; [|by eexists]. intros q b Hq. apply (Hn (x :: q)). by apply prefix_cons.
    + destruct (IH None) as [n' Hn']; [by intros []|]. cbn. rewrite Hn'. by eexists.
Qed.

Lemma change_removed_missing n p : look n p = Err NotFound → change removed n p = Err NotFound.
Proof.
  revert n. induction p as [|x p IH]; intros n; cbn.
  - by destruct n.
  - destruct n as [[b|es]|]; [done| |done]. intros ->%IH. done.
Qed.

(** A code unit that a literal does not have *)
Ltac absent := apply (bool_decide_unpack _); vm_compute; exact I.

(** ** Paths *)

(** The names a normalized path is made of *)
Definition name_ok (s : jstr) : Prop := s ≠ [] ∧ chr "/" ∉ s ∧ s ≠ js "." ∧ s ≠ js "..".

Definition abs_path (p : list jstr) : jstr := js "/" ++ str_join (js "/") p.

(** The effect of the segments of a path, one after the other *)
Definition enter (p : list jstr) (seg : jstr) : list jstr :=
  if jstr_eqb seg [] || jstr_eqb seg (js ".") then p
  else if jstr_eqb seg (js "..") then removelast p else p ++ [seg].
Definition normalize (root : list jstr) (k : jstr) : list jstr :=
  fold_left enter (split_on (chr "/") k) (if starts_with k (js "/") then [] else root).

(** What two paths do not have in common *)
Fixpoint apart (a b : list jstr) : list jstr * list jstr :=
  match a, b with
  | x :: a', y :: b' => if bool_decide (x = y) then apart a' b' else (a, b)
  | _, _ => (a, b)
  end.
Definition rel_path (r p : list jstr) : jstr :=
  let '(up, down) := apart r p in str_join (js "/") (((λ _, js "..") <$> up) ++ down).

Class PathLaws `{PathOps} (rootDir : jstr) (root : list jstr) := {
  root_names : Forall name_ok root;
  root_no_nul : Forall (λ s, 0 ∉ s) root;
  resolve_root : resolve [rootDir] = abs_path root;
  resolve_key k : resolve [rootDir; k] = abs_path (normalize root k);
  relative_names r p : Forall name_ok r → Forall name_ok p → relative (abs_path r) (abs_path p) = rel_path r p;
  isAbsolute_spec s : isAbsolute s = starts_with s (js "/");
  dirname_names p : Forall name_ok p → dirname (abs_path p) = abs_path (removelast p);
  os_path_names p : Forall name_ok p → os_path (abs_path p) = p;
  os_path_root : os_path rootDir = root;
  rootDir_no_nul : includes rootDir [0] = false
}.

Lemma removelast_names p : Forall name_ok p → Forall name_ok (removelast p).
Proof. induction 1 as [|x [|y p] Hx _ IH]; cbn; [constructor..|by constructor]. Qed.

Lemma normalize_names root k : Forall name_ok root → Forall name_ok (normalize root k).
Proof.
  intros Hr. unfold normalize.
  assert (Forall name_ok (if starts_with k (js "/") then [] else root)) as Hp by (by case_match).
  revert Hp. generalize (if starts_with k (js "/") then [] else root) as p.
  induction (split_on_no_sep (chr "/") k) as [|s segs Hs _ IH]; intros p Hp; cbn [fold_left]; [done|].
  apply IH. unfold enter. destruct (jstr_eqb s []) eqn:E1; [done|]. destruct (jstr_eqb s (js ".")) eqn:E2; [done|].
  destruct (jstr_eqb s (js "..")) eqn:E3; cbn [orb]; [by apply removelast_names|].
  rewrite !jstr_eqb_neq in *. apply Forall_app. split; [done|]. by repeat constructor.
Qed.

Lemma apart_spec a b : let '(up, down) := apart a b in ∃ c, a = c ++ up ∧ b = c ++ down.
Proof.
  revert b. induction a as [|x a IH]; intros [|y b]; cbn; try by exists [].
  case_bool_decide as E; [|by exists []]. subst y. specialize (IH b). destruct (apart a b) as [up down].
  destruct IH as (c & -> & ->). by exists (x :: c).
Qed.

Lemma str_join_starts s segs : ∃ r, str_join (js "/") (s :: segs) = s ++ r.
Proof. destruct segs; cbn; [exists []; by rewrite app_nil_r|by eexists]. Qed.

Section paths.
Context `{PathLaws}.

Lemma getPath_spec key :
  match getPath rootDir key with
  | Ok path => ∃ rest, path = abs_path (root ++ rest) ∧ Forall name_ok rest ∧ normalize root (fsKey key) = root ++ rest
  | Err e => e = ValidationFailedError
  end.
Proof.
  unfold getPath, rootAbs. rewrite resolve_root, resolve_key. pose proof root_names as Hr.
  pose proof (normalize_names root (fsKey key) Hr) as Hp. rewrite relative_names, isAbsolute_spec by done.
  unfold throw_if. destruct (starts_with _ (js "..") || _) eqn:E; cbn; [done|].
  apply orb_false_iff in E as [E _]. unfold rel_path in E.
  pose proof (apart_spec root (normalize root (fsKey key))) as Ha.
  destruct (apart root (normalize root (fsKey key))) as [[|u up] down]; destruct Ha as (c & Hc & Hn).
  - rewrite app_nil_r in Hc. subst c. exists down. rewrite Hn in *. apply Forall_app in Hp as [_ Hp]. done.
  - cbn [fmap list_fmap app] in E. destruct (str_join_starts (js "..") (((λ _, js "..") <$> up) ++ down)) as [r Hj].
    rewrite Hj in E.
    by rewrite starts_with_app in E.
Qed.
End paths.

(** ** Confinement *)

Inductive fs_operation :=
| OpPut (key : jstr) (data : put_data)
| OpGet (key : jstr)
| OpDelete (key : jstr)
| OpHead (key : jstr)
| OpList (prefix : jstr) (limit : option Z) (cursor : option jstr).

Inductive fs_reply :=
| REtag (etag : jstr)
| RStream (s : option stream)
| RDeleted
| RHead (h : option (Z * jstr))
| RKeys (keys : list jstr) (cursor : option jstr).

Section operations.
Context `{PathOps, Hashing} (rootDir : jstr).

Definition fs_perform (op : fs_operation) (fs : node) : node * result exn fs_reply :=
  let answer {A} (f : A → fs_reply) (r : result exn A) := r ≫= λ a, Ok (f a) in
  match op with
  | OpPut key data => let '(fs, r) := fs_put rootDir key data fs in (fs, answer REtag r)
  | OpGet key => (fs, answer RStream (fs_get rootDir key fs))
  | OpDelete key => let '(fs, r) := fs_delete rootDir key fs in (fs, answer (λ _, RDeleted) r)
  | OpHead key => (fs, answer RHead (fs_head rootDir key fs))
  | OpList prefix limit cursor => (fs, answer (λ p, RKeys p.1 p.2) (fs_list rootDir prefix limit cursor fs))
  end.
End operations.

(** Only what is below [root] has changed: directories above it are still
    directories, and everything else is as it was. *)
Definition same_outside (root : list jstr) (fs fs' : node) : Prop := ∀ q, ¬ root `prefix_of` q →
  if decide (q `prefix_of` root) then ∃ es es', look (Some fs) q = Ok (Dir es) ∧ look (Some fs') q = Ok (Dir es')
  else look (Some fs') q = look (Some fs) q.

Lemma same_outside_refl root fs es : look (Some fs) root = Ok (Dir es) → same_outside root fs fs.
Proof.
  intros Hr q Hq. case_decide as Hp; [|done]. destruct Hp as [r ->].
  assert (∃ m, look (Some fs) q = Ok m) as [m Hm].
  { destruct (look (Some fs) q) as [m|e] eqn:E; [by exists m|]. exfalso. clear Hq.
    revert Hr E. generalize (Some fs) as n. induction q as [|x q IH]; intros n; cbn [app look].
    - destruct n; [done|]. by destruct r.
    - destruct n as [[b|es']|]; [done|apply IH|done]. }
  rewrite (look_app _ _ _ _ Hm) in Hr. destruct r as [|x r]; [by rewrite app_nil_r in Hq|].
  destruct m as [b|es']; [done|]. by exists es', es'.
Qed.

Lemma same_outside_trans root fs1 fs2 fs3 :
  same_outside root fs1 fs2 → same_outside root fs2 fs3 → same_outside root fs1 fs3.
Proof.
  intros H1 H2 q Hq. specialize (H1 q Hq). specialize (H2 q Hq). case_decide; [|congruence].
  destruct H1 as (es & _ & H1 & _), H2 as (_ & es' & _ & H2). eauto.
Qed.

(** Two file systems with the same directory at [root] *)
Definition twins (root : list jstr) (fs1 fs2 : node) : Prop :=
  ∃ es, look (Some fs1) root = Ok (Dir es) ∧ look (Some fs2) root = Ok (Dir es).

(** The results of a step on twins: the same error, or trees that look the same at
    [root] and have changed only there *)
Definition same_steps (root : list jstr) (fs1 fs2 : node) (r1 r2 : result fs_error node) : Prop :=
  match r1, r2 with
  | Ok a, Ok b => look (Some a) root = look (Some b) root ∧ same_outside root fs1 a ∧ same_outside root fs2 b
  | Err e1, Err e2 => e1 = e2
  | _, _ => False
  end.

Lemma change_twins root g fs1 fs2 : twins root fs1 fs2 →
  same_steps root fs1 fs2 (fs_of (change g (Some fs1) root)) (fs_of (change g (Some fs2) root)).
Proof.
  intros (es & H1 & H2). pose proof (change_at g _ _ _ H1) as C1. pose proof (change_at g _ _ _ H2) as C2.
  destruct (g (Some (Dir es))) as [o|e] eqn:Eg; [|by rewrite C1, C2].
  destruct C1 as [n1 C1], C2 as [n2 C2]. rewrite C1, C2.
  pose proof (change_spec _ _ _ _ C1) as (o1 & o1' & G1 & A1 & B1 & U1 & O1).
  pose proof (change_spec _ _ _ _ C2) as (o2 & o2' & G2 & A2 & B2 & U2 & O2).
  specialize (A1 []) as A1'. specialize (A2 []) as A2'. rewrite app_nil_r in A1', A2'.
  assert (o1 = Some (Dir es)) as ->.
  { rewrite H1 in A1'. destruct o1; [by injection A1' as ->|done]. }
  assert (o2 = Some (Dir es)) as ->.
  { rewrite H2 in A2'. destruct o2; [by injection A2' as ->|done]. }
  rewrite Eg in G1, G2. injection G1 as <-. injection G2 as <-.
  assert (n1 = None ↔ n2 = None) as Hnone.
  { destruct root as [|x root].
    - specialize (B1 []). specialize (B2 []). cbn in B1, B2.
      destruct n1, n2, o; naive_solver.
    - destruct (U1 [] ltac:(apply prefix_nil) ltac:(done)) as (? & ? & _ & E1).
      destruct (U2 [] ltac:(apply prefix_nil) ltac:(done)) as (? & ? & _ & E2).
      destruct n1, n2; naive_solver. }
  assert (∀ n n', (∀ q, q `prefix_of` root → q ≠ root → ∃ es es', look (Some n) q = Ok (Dir es) ∧ look (Some n') q = Ok (Dir es')) →
    (∀ q, ¬ root `prefix_of` q → ¬ q `prefix_of` root → look (Some n') q = look (Some n) q) → same_outside root n n') as Hout.
  { intros n n' HU HO q Hq. case_decide; [|by apply HO]. apply HU; [done|]. intros ->. by destruct Hq. }
  destruct n1 as [n1|], n2 as [n2|]; cbn; [|naive_solver..]. split_and!; [|by apply Hout..].
  specialize (B1 []). specialize (B2 []). rewrite app_nil_r in B1, B2. by rewrite B1, B2.
Qed.

Lemma same_steps_twins root fs1 fs2 a b es :
  same_steps root fs1 fs2 (Ok a) (Ok b) → look (Some a) root = Ok (Dir es) → twins root a b.
Proof. intros (E & _ & _) Ha. exists es. split; [done|]. by rewrite <-E. Qed.

Section confinement.
Context `{PathLaws, Hashing}.

Lemma find_twins fs1 fs2 rest : twins root fs1 fs2 → Forall name_ok rest →
  deno_find fs1 (abs_path (root ++ rest)) = deno_find fs2 (abs_path (root ++ rest)).
Proof.
  intros (es & H1' & H2') Hr. unfold deno_find. case_match; [done|].
  rewrite os_path_names by (apply Forall_app; split; [apply root_names|done]).
  by rewrite (look_app _ _ _ _ H1'), (look_app _ _ _ _ H2').
Qed.

(** A change at a path below the root *)
Lemma change_twins_below g fs1 fs2 rest : twins root fs1 fs2 → Forall name_ok rest →
  same_steps root fs1 fs2
    (fs_of (change g (Some fs1) (os_path (abs_path (root ++ rest)))))
    (fs_of (change g (Some fs2) (os_path (abs_path (root ++ rest))))).
Proof.
  intros Ht Hr. rewrite os_path_names by (apply Forall_app; split; [apply root_names|done]).
  rewrite !change_app. by apply change_twins.
Qed.

Lemma mkdir_twins fs1 fs2 rest : twins root fs1 fs2 → Forall name_ok rest →
  let r1 := deno_mkdir (dirname (abs_path (root ++ rest))) fs1 in
  let r2 := deno_mkdir (dirname (abs_path (root ++ rest))) fs2 in
  same_steps root fs1 fs2 r1 r2 ∧ ∀ a, r1 = Ok a → ∃ es, look (Some a) root = Ok (Dir es).
Proof.
  intros Ht Hr. pose proof root_names as Hroot. pose proof Ht as (es & H1' & H2').
  assert (Forall name_ok (root ++ rest)) as Hp by by apply Forall_app.
  unfold deno_mkdir. rewrite dirname_names by done. pose proof (removelast_names _ Hp) as Hp'.
  destruct (includes _ [0]); [done|]. rewrite os_path_names by done.
  assert (∀ fs, look (Some fs) root = Ok (Dir es) → same_outside root fs fs) as Hrefl
    by (intros; by eapply same_outside_refl).
  destruct (decide (rest = [])) as [->|Hne].
  - rewrite app_nil_r in *.
    assert (∀ fs, look (Some fs) root = Ok (Dir es) → make_dirs (Some fs) (removelast root) = Ok fs) as Hmk.
    { intros fs Hfs. destruct (decide (root = [])) as [E|Hn].
      - rewrite E in Hfs |- *. by eapply make_dirs_existing.
      - pose proof (same_outside_refl _ _ _ Hfs (removelast root)) as Ho.
        rewrite (app_removelast_last [] Hn) in Ho at 1.
        rewrite decide_True in Ho by (rewrite (app_removelast_last [] Hn) at 2; by apply prefix_app_r).
        destruct Ho as (es' & _ & Hes & _); [|by eapply make_dirs_existing].
        intros Hpre%prefix_length. rewrite length_app in Hpre. cbn in Hpre. lia. }
    rewrite (Hmk fs1), (Hmk fs2) by done. split; [|intros a [= <-]; by exists es].
    split_and!; [by rewrite H1', H2'|by apply Hrefl..].
  - rewrite removelast_app by done. rewrite !(make_dirs_app _ root _ es) by done. split.
    + by apply change_twins.
    + intros a Ha. rewrite <-(make_dirs_app _ root _ es) in Ha by done.
      apply make_dirs_spec in Ha as [Ha _]. apply Ha. by apply prefix_app_r.
Qed.
End confinement.

(** C12: No key leads out of the root directory.  For every operation and every key or
    prefix (with any number of [..], a leading slash, a NUL), the reply, and the
    contents of the root directory afterwards, depend only on the contents of
    the root directory before, so that nothing outside is read; and nothing outside
    is changed. *)
Theorem local_fs_confined `{PathLaws} `{Hashing} op fs1 fs2 :
  twins root fs1 fs2 →
  let '(fs1', r1) := fs_perform rootDir op fs1 in
  let '(fs2', r2) := fs_perform rootDir op fs2 in
  r1 = r2 ∧ look (Some fs1') root = look (Some fs2') root ∧ same_outside root fs1 fs1'.
Proof.
  intros Ht. pose proof Ht as (es & H1' & H2').
  assert (look (Some fs1) root = look (Some fs2) root ∧ same_outside root fs1 fs1) as Hsame
    by (split; [by rewrite H1', H2'|by eapply same_outside_refl]).
  destruct op as [key data|key|key|key|prefix limit cursor]; cbn [fs_perform];
    try (pose proof (getPath_spec key) as Hpath; unfold fs_put, fs_get, fs_delete, fs_head, st_bind, st_lift;
         destruct (getPath rootDir key) as [path|e]; [destruct Hpath as (rest & -> & Hr & _)|done]).
  - pose proof (mkdir_twins fs1 fs2 rest Ht Hr) as [Hm Hdir]. unfold fs_step.
    destruct (deno_mkdir _ fs1) as [a|e1], (deno_mkdir _ fs2) as [b|e2]; [|done..]. pose proof Hm as (Hab & Ho1 & _).
    destruct (Hdir a eq_refl) as [es' Ha].
    destruct (put_bytes data) as [bytes|]; [|done].
    pose proof (change_twins_below (written bytes) a b rest (same_steps_twins _ _ _ _ _ _ Hm Ha) Hr) as Hw.
    unfold deno_writeFile. destruct (includes _ [0]); [done|].
    destruct (fs_of (change _ (Some a) _)) as [a'|], (fs_of (change _ (Some b) _)) as [b'|]; [|done..].
    destruct Hw as (Hab' & Ho1' & _). cbn. split_and!; [done|done|]. by eapply same_outside_trans.
  - cbn [mbind result_bind]. by rewrite (find_twins fs1 fs2 rest).
  - pose proof (change_twins_below removed fs1 fs2 rest Ht Hr) as Hw. unfold deno_remove.
    destruct (includes _ [0]); [done|].
    destruct (fs_of (change _ (Some fs1) _)) as [a'|[]], (fs_of (change _ (Some fs2) _)) as [b'|[]]; try done.
    by destruct Hw as (? & ? & _).
  - cbn [mbind result_bind]. unfold deno_readFile. by rewrite (find_twins fs1 fs2 rest).
  - split; [|done]. unfold fs_list, deno_find. destruct (includes _ [0]); [done|]. by rewrite os_path_root, H1', H2'.
Qed.

(** ** POSIX paths *)

Definition path_segments (p : jstr) : list jstr := filter (λ s, s ≠ []) (split_on (chr "/") p).
Definition DATA : jstr := Eval vm_compute in js "/data".
Definition data_root : list jstr := Eval vm_compute in [js "data"].

#[export] Instance posix_paths : PathOps := {|
  resolve ps := abs_path (fold_left normalize ps []);
  relative a b := rel_path (path_segments a) (path_segments b);
  isAbsolute s := starts_with s (js "/");
  dirname s := abs_path (removelast (path_segments s));
  os_path := path_segments
|}.

Lemma path_segments_abs p : Forall name_ok p → path_segments (abs_path p) = p.
Proof.
  intros Hp. unfold path_segments, abs_path. change (js "/") with [chr "/"] at 1.
  change ([chr "/"] ++ str_join (js "/") p) with (chr "/" :: str_join [chr "/"] p). cbn [split_on].
  rewrite Z.eqb_refl. cbn [filter list_filter]. rewrite decide_False by tauto.
  fold (filter (λ s : jstr, s ≠ []) (split_on (chr "/") (str_join [chr "/"] p))).
  destruct p as [|s p]; [done|]. rewrite split_on_str_join; [|done|by eapply Forall_impl; [exact Hp|]; intros ? (_ & ? & _)].
  apply filter_all. eapply Forall_impl; [exact Hp|]. by intros ? (? & _).
Qed.

#[export] Instance posix_laws : PathLaws DATA data_root.
Proof.
  assert (Forall name_ok data_root) as Hn.
  { constructor; [|constructor]. split_and!; [done|absent|done|done]. }
  split; cbn [resolve relative isAbsolute dirname os_path posix_paths].
  - exact Hn.
  - constructor; [absent|constructor].
  - vm_compute. done.
  - intros k. done.
  - intros r p Hr Hp. by rewrite !path_segments_abs.
  - done.
  - intros p Hp. by rewrite path_segments_abs.
  - apply path_segments_abs.
  - vm_compute. done.
  - vm_compute. done.
Qed.

(** A file of [/] that is not the provider's, and its root directory *)
Definition data_fs (secret : list Z) (es : list (jstr * node)) : node :=
  Dir [(js "etc", Dir [(js "secret", File secret)]); (js "data", Dir es)].
Theorem local_fs_confined_witness :
  let '(fs1, r1) := fs_perform (H0 := plain_hashing) DATA (OpGet (js "../etc/secret")) (data_fs [7] []) in
  let '(fs2, r2) := fs_perform (H0 := plain_hashing) DATA (OpGet (js "../etc/secret")) (data_fs [8] []) in
  r1 = Err ValidationFailedError ∧ r1 = r2.
Proof.
  pose proof (local_fs_confined (H1 := plain_hashing) (OpGet (js "../etc/secret")) (data_fs [7] []) (data_fs [8] [])) as Hc.
  assert (twins data_root (data_fs [7] []) (data_fs [8] [])) as Ht by (exists []; split; vm_compute; reflexivity).
  specialize (Hc Ht). assert ((fs_perform (H0 := plain_hashing) DATA (OpGet (js "../etc/secret")) (data_fs [7] [])).2 = Err ValidationFailedError)
    as Hr by (vm_compute; reflexivity).
  destruct (fs_perform DATA (OpGet (js "../etc/secret")) (data_fs [7] [])) as [fs1 r1].
  destruct (fs_perform DATA (OpGet (js "../etc/secret")) (data_fs [8] [])) as [fs2 r2].
  destruct Hc as [Hc _]. split; [exact Hr|exact Hc].
Defined.
