(* ===== verification/LocalFsRefinement.v ===== *)
(** * The local file system provider as a map from keys to bytes

    On keys that are plain file names, none of which is another one's directory, the
    provider of [LocalFs] does what a map does: put, get, delete, head and list
    ([local_fs_refines]).  [fs_pages_complete]: the pages of a listing, while others
    write. *)

From S2P Require Import Prelude JsString JsMap Errors Packager StateBackup BackupRestore LocalFs LocalFsSafety.
From Stdlib Require Import Sorted.
From stdpp Require Import sorting.

Open Scope Z_scope.
Open Scope railfog_scope.

(** ** Names and paths of keys *)

(** A segment of a key that is a file name: also without a NUL, and without the
    text that stands for a colon *)
Definition segment_ok (s : jstr) : Prop := name_ok s ∧ 0 ∉ s ∧ includes s (js "%3A") = false.
Definition key_ok (k : jstr) : Prop :=
  Forall segment_ok (split_on (chr "/") k) ∧ starts_with k (js "..") = false.

Definition path_of (k : jstr) : list jstr := encode_name <$> split_on (chr "/") k.

Lemma encode_cons c s :
  encode_name (c :: s) = if c =? chr ":" then js "%3A" ++ encode_name s else c :: encode_name s.
Proof. unfold encode_name. cbn [flat_map]. by destruct (c =? chr ":"). Qed.

Lemma encode_elem s c : c ∈ encode_name s → c ∈ s ∨ c ∈ js "%3A".
Proof.
  unfold encode_name. rewrite list_elem_of_In, in_flat_map. intros (d & Hd & Hc).
  destruct (d =? chr ":"); [by right; apply list_elem_of_In|]. left. apply list_elem_of_In in Hd.
  destruct Hc as [<-|[]]. done.
Qed.

(** A text without a percent sign is the name of itself only. *)
Lemma encode_plain s t : chr "%" ∉ t → encode_name s = t → s = t.
Proof.
  revert t. induction s as [|c s IH]; intros t Ht; [done|]. rewrite encode_cons.
  destruct (c =? chr ":"); intros <-; [by destruct Ht; left|]. f_equal. apply IH; [|done].
  intros ?. destruct Ht. by right.
Qed.

Lemma encode_starts s t : chr "%" ∉ t → starts_with (encode_name s) t = true → starts_with s t = true.
Proof.
  revert s. induction t as [|d t IH]; intros s Ht; [by destruct s|].
  apply not_elem_of_cons in Ht as [Hd Ht]. destruct s as [|c s]; [done|]. rewrite encode_cons.
  destruct (c =? chr ":"); cbn [app js map starts_with]; intros [Hc H]%andb_true_iff.
  - apply Z.eqb_eq in Hc. by destruct Hd.
  - apply andb_true_iff. split; [done|]. by apply IH.
Qed.

Lemma decode_encode s : includes s (js "%3A") = false → decode_name (encode_name s) = s.
Proof.
  unfold decode_name, replace_all. induction s as [|c s IH]; [done|]. intros Hi.
  assert (includes s (js "%3A") = false) as Hi'.
  { apply not_true_iff_false. intros H. apply not_true_iff_false in Hi. destruct Hi.
    change (c :: s) with ([c] ++ s). by apply includes_app_r. }
  rewrite encode_cons.
  destruct (c =? chr ":") eqn:E.
  - apply Z.eqb_eq in E as ->. cbn. f_equal. by apply IH.
  - cbn [app replace_from]. destruct (starts_with (c :: encode_name s) (js "%3A")) eqn:Es.
    + exfalso. apply not_true_iff_false in Hi. destruct Hi.
      cbn in Es. apply andb_true_iff in Es as [Hc Es].
      apply (encode_starts s (js "3A")) in Es; [|absent].
      cbn [includes]. apply orb_true_iff. left. by apply andb_true_iff.
    + f_equal. by apply IH.
Qed.

Lemma encode_segment s : segment_ok s → name_ok (encode_name s) ∧ 0 ∉ encode_name s.
Proof.
  intros ((Hne & Hs & Hd & Hdd) & H0 & _). split; [split_and!|].
  - destruct s as [|c s]; [done|]. rewrite encode_cons. by destruct (c =? chr ":").
  - intros [?|Hc]%encode_elem; [done|]. revert Hc. absent.
  - intros E. apply Hd. apply encode_plain in E; [done|absent].
  - intros E. apply Hdd. apply encode_plain in E; [done|absent].
  - intros [?|Hc]%encode_elem; [done|]. revert Hc. absent.
Qed.

Lemma path_names k : key_ok k → Forall name_ok (path_of k) ∧ Forall (λ s, 0 ∉ s) (path_of k).
Proof.
  intros [Hs _]. unfold path_of. split; apply Forall_fmap; (eapply Forall_impl; [exact Hs|]);
    intros s Hok; apply (encode_segment s Hok).
Qed.

Lemma path_nonempty k : path_of k ≠ [].
Proof. unfold path_of. pose proof (split_on_not_nil (chr "/") k). by destruct (split_on _ k). Qed.

(** The key that [walk] makes of a path *)
Definition key_at (base : jstr) (p : list jstr) : jstr := fold_left entry_key p base.

Lemma key_at_join base p : base ≠ [] → key_at base p = str_join (js "/") (base :: (decode_name <$> p)).
Proof.
  unfold key_at. revert base. induction p as [|x p IH]; intros base Hb; [done|]. cbn [fold_left].
  assert (entry_key base x = base ++ js "/" ++ decode_name x) as -> by by destruct base.
  rewrite IH by by destruct base. cbn [fmap list_fmap].
  destruct (decode_name <$> p) as [|y ys]; cbn; by rewrite <-?app_assoc.
Qed.

Lemma key_at_path k : key_ok k → key_at [] (path_of k) = k.
Proof.
  intros [Hs _]. rewrite <-(split_on_join (chr "/") k) at 2. unfold path_of. pose proof (split_on_not_nil (chr "/") k).
  assert (decode_name <$> (encode_name <$> split_on (chr "/") k) = split_on (chr "/") k) as Hd.
  { rewrite <-list_fmap_compose. rewrite <-(list_fmap_id (split_on (chr "/") k)) at 2. apply list_fmap_ext.
    intros i s Hi. apply (Forall_lookup_1 _ _ _ _ Hs) in Hi as (_ & _ & Hi). by apply decode_encode. }
  destruct (split_on (chr "/") k) as [|s segs]; [done|]. cbn in Hd. injection Hd as Hd1 Hd2.
  cbn [fmap list_fmap key_at fold_left]. change (entry_key [] (encode_name s)) with (decode_name (encode_name s)).
  rewrite Hd1. fold (key_at s (encode_name <$> segs)). apply Forall_cons in Hs as [((Hne & _) & _) _].
  rewrite key_at_join by done. by rewrite Hd2.
Qed.

Lemma path_of_inj k k' : key_ok k → key_ok k' → path_of k = path_of k' → k = k'.
Proof. intros Hk Hk' E. rewrite <-(key_at_path k), <-(key_at_path k') by done. by rewrite E. Qed.

Lemma enter_names p segs : Forall name_ok segs → fold_left enter segs p = p ++ segs.
Proof.
  intros Hs. revert p. induction Hs as [|s segs (Hne & _ & Hd & Hdd) _ IH]; intros p; cbn [fold_left]; [by rewrite app_nil_r|].
  unfold enter at 2. rewrite (proj2 (jstr_eqb_neq s [])), (proj2 (jstr_eqb_neq s (js "."))), (proj2 (jstr_eqb_neq s (js ".."))) by done.
  cbn [orb]. by rewrite IH, <-app_assoc.
Qed.

Lemma apart_app c d : apart c (c ++ d) = ([], d).
Proof. induction c as [|x c IH]; cbn; [done|]. by rewrite bool_decide_true. Qed.

Lemma getPath_key `{PathLaws} k : key_ok k → getPath rootDir k = Ok (abs_path (root ++ path_of k)).
Proof.
  intros Hk. pose proof (path_names k Hk) as [Hn _]. pose proof root_names as Hr.
  assert (split_on (chr "/") (fsKey k) = path_of k) as Hsplit.
  { unfold fsKey. apply split_on_str_join; [apply path_nonempty|]. eapply Forall_impl; [exact Hn|]. by intros s (_ & ? & _). }
  assert (∃ c s, fsKey k = c :: s ∧ c ≠ chr "/") as (c & s & Hc & Hcs).
  { unfold fsKey. fold (path_of k). pose proof (path_nonempty k). destruct (path_of k) as [|e es]; [done|].
    apply Forall_cons in Hn as [(Hne & Hsl & _) _]. destruct e as [|c e]; [done|].
    destruct (str_join_starts (c :: e) es) as [r ->]. exists c, (e ++ r). split; [done|]. intros ->. destruct Hsl. by left. }
  assert (normalize root (fsKey k) = root ++ path_of k) as Hnorm.
  { unfold normalize. rewrite Hsplit. assert (starts_with (fsKey k) (js "/") = false) as ->.
    { rewrite Hc. cbn. rewrite andb_true_r. apply Z.eqb_neq. by intros <-; destruct Hcs. }
    by apply enter_names. }
  unfold getPath, rootAbs. rewrite resolve_root, resolve_key, Hnorm, isAbsolute_spec.
  rewrite relative_names by (done || by apply Forall_app). unfold rel_path. rewrite apart_app. cbn [fmap list_fmap app].
  assert (starts_with (str_join (js "/") (path_of k)) (js "/") = false ∧
          starts_with (str_join (js "/") (path_of k)) (js "..") = false) as [-> ->]; [|done].
  change (str_join (js "/") (path_of k)) with (fsKey k). split.
  - rewrite Hc. cbn. rewrite andb_true_r. apply Z.eqb_neq. by intros <-; destruct Hcs.
  - destruct Hk as [Hs Hdd]. apply not_true_iff_false. intros H'. apply not_true_iff_false in Hdd. destruct Hdd.
    rewrite <-(split_on_join (chr "/") k). change [chr "/"] with (js "/"). unfold fsKey in H'.
    destruct (split_on (chr "/") k) as [|s0 segs]; [done|]. apply Forall_cons in Hs as [((Hne & Hsl & Hd & _) & _) _].
    destruct s0 as [|c0 [|c1 s1]]; [done| |].
    + exfalso. cbn [fmap list_fmap] in H'. rewrite encode_cons in H'.
      destruct (c0 =? chr ":"), (encode_name <$> segs); cbn in H'; try done; by apply andb_true_iff in H' as [H1 H2].
    + destruct (str_join_starts (c0 :: c1 :: s1) segs) as [r ->]. 
      apply starts_with_spec. cbn [fmap list_fmap] in H'. destruct (str_join_starts (encode_name (c0 :: c1 :: s1)) (encode_name <$> segs)) as [r' Hr'].
      rewrite Hr' in H'. assert (starts_with (c0 :: c1 :: s1) (js "..") = true) as [r2 Hr2]%starts_with_spec.
      { apply encode_starts; [absent|]. revert H'. rewrite !encode_cons. by destruct (c0 =? chr ":"), (c1 =? chr ":"). }
      exists (r2 ++ r). by rewrite Hr2, <-app_assoc.
Qed.

(** ** Well-formed trees and their files *)

Lemma node_nested_ind (P : node → Prop) :
  (∀ bytes, P (File bytes)) → (∀ es, Forall (λ e, P e.2) es → P (Dir es)) → ∀ n, P n.
Proof.
  intros HF HD. fix IH 1. intros [bytes|es]; [apply HF|]. apply HD.
  induction es as [|[x n] es IHes]; constructor; [apply IH|done].
Qed.

(** A directory has one entry per name. *)
Fixpoint tree_wf (n : node) : Prop :=
  match n with
  | File _ => True
  | Dir es => map_wf es ∧ foldr (λ e acc, match e with (_, n) => tree_wf n end ∧ acc) True es
  end.

Lemma tree_wf_dir es : tree_wf (Dir es) ↔ map_wf es ∧ Forall (λ e, tree_wf e.2) es.
Proof.
  cbn [tree_wf]. assert (foldr (λ e acc, match e with (_, n) => tree_wf n end ∧ acc) True es ↔ Forall (λ e, tree_wf e.2) es) as ->; [|done].
  induction es as [|[x n] es IH]; cbn; [done|]. rewrite IH, Forall_cons. done.
Qed.

Lemma tree_wf_empty : tree_wf (Dir []).
Proof. apply tree_wf_dir. split; [apply map_empty_wf|constructor]. Qed.

Definition otree_wf (n : option node) : Prop := match n with Some n => tree_wf n | None => True end.

Lemma tree_wf_get es x : tree_wf (Dir es) → otree_wf (map_get es x).
Proof.
  rewrite tree_wf_dir. intros [_ Hes]. destruct (map_get es x) as [n|] eqn:E; [|done].
  apply map_get_elem in E. rewrite Forall_forall in Hes. exact (Hes _ E).
Qed.

Lemma tree_wf_set es x n : tree_wf (Dir es) → tree_wf n → tree_wf (Dir (map_set es x n)).
Proof. rewrite !tree_wf_dir. intros [Hw Hes] Hn. split; [by apply map_set_wf|by apply Forall_map_set]. Qed.

Lemma tree_wf_delete es x : tree_wf (Dir es) → tree_wf (Dir (map_delete es x)).
Proof.
  rewrite !tree_wf_dir. intros [Hw Hes]. split; [by apply map_delete_wf|].
  unfold map_delete. apply Forall_forall. intros e [_ He]%list_elem_of_filter. rewrite Forall_forall in Hes. by apply Hes.
Qed.

Lemma change_wf f n p n' :
  (∀ o o', f o = Ok o' → otree_wf o → otree_wf o') → change f n p = Ok n' → otree_wf n → otree_wf n'.
Proof.
  intros Hf. revert n n'. induction p as [|x p IH]; intros n n'; cbn [change]; [by eauto|].
  destruct n as [[b|es]|]; [done| |done]. intros (r & Hr & [= <-])%bind_Ok Hn.
  pose proof (IH _ _ Hr (tree_wf_get es x Hn)) as Hwf.
  destruct r as [m|]; [by apply tree_wf_set|by apply tree_wf_delete].
Qed.

Lemma make_dirs_wf n p n' : make_dirs n p = Ok n' → otree_wf n → tree_wf n'.
Proof.
  revert n n'. induction p as [|x p IH]; intros n n'; cbn [make_dirs].
  - destruct n as [[b|es]|]; [done|by intros [= <-]|]. intros [= <-] _. apply tree_wf_empty.
  - pose proof tree_wf_empty as Hemp.
    destruct n as [[b|es]|]; [done|..]; intros (m & Hm & [= <-])%bind_Ok Hn.
    + apply tree_wf_set; [done|]. eapply IH; [exact Hm|]. by apply tree_wf_get.
    + apply (tree_wf_set [] x m Hemp). by eapply IH.
Qed.

(** The paths of the files, in the order of [walk] *)
Fixpoint file_paths (n : node) : list (list jstr) :=
  match n with
  | File _ => []
  | Dir es => flat_map (λ e, match e with (x, n) =>
      match n with Dir _ => cons x <$> file_paths n | File _ => [[x]] end end) es
  end.

Lemma walk_paths n base : walk n base = key_at base <$> file_paths n.
Proof.
  revert base. induction n as [bytes|es IH] using node_nested_ind; intros base; [done|]. cbn [walk file_paths].
  induction IH as [|[x n] es Hn _ IHes]; [done|]. cbn [flat_map]. rewrite fmap_app, IHes. f_equal.
  cbn in Hn. destruct n as [b|es']; [done|]. rewrite Hn, <-list_fmap_compose. done.
Qed.

Lemma elem_file_paths n p : tree_wf n →
  p ∈ file_paths n ↔ p ≠ [] ∧ ∃ b, look (Some n) p = Ok (File b).
Proof.
  revert p. induction n as [bytes|es IH] using node_nested_ind; intros p Hwf.
  - split; [by intros ?%elem_of_nil|]. destruct p; [by intros [? _]|by intros [_ [? ?]]].
  - apply tree_wf_dir in Hwf as [Hw Hes]. cbn [file_paths]. rewrite list_elem_of_In, in_flat_map. split.
    + intros ([x n] & Hin%list_elem_of_In & Hp%list_elem_of_In). pose proof (elem_map_get es x n Hw Hin) as Hx.
      rewrite Forall_forall in IH, Hes. specialize (IH _ Hin). specialize (Hes _ Hin). cbn in IH, Hes.
      destruct n as [b|es'].
      * apply list_elem_of_singleton in Hp as ->. split; [done|]. exists b. cbn. by rewrite Hx.
      * apply list_elem_of_fmap in Hp as (q & -> & Hq). apply IH in Hq as [_ [b Hb]]; [|done].
        split; [done|]. exists b. cbn [look]. by rewrite Hx.
    + destruct p as [|x p]; [by intros [? _]|]. intros [_ [b Hb]]. cbn [look] in Hb.
      destruct (map_get es x) as [n|] eqn:Hx; [|by destruct p]. apply map_get_elem in Hx as Hin.
      rewrite Forall_forall in IH, Hes. specialize (IH _ Hin). specialize (Hes _ Hin). cbn in IH, Hes.
      exists (x, n). split; [by apply list_elem_of_In|]. apply list_elem_of_In. destruct n as [b'|es'].
      * destruct p; [by left|done].
      * apply list_elem_of_fmap. exists p. split; [done|]. apply IH; [done|]. split; [by intros ->|by exists b].
Qed.

Lemma file_paths_NoDup n : tree_wf n → NoDup (file_paths n).
Proof.
  induction n as [bytes|es IH] using node_nested_ind; [constructor|]. intros [Hw Hes]%tree_wf_dir. cbn [file_paths].
  unfold map_wf, map_keys in Hw. induction IH as [|[x n] es Hn _ IHes]; [constructor|].
  cbn [fmap list_fmap fst] in Hw. apply NoDup_cons in Hw as [Hx Hw]. apply Forall_cons in Hes as [Hn' Hes].
  cbn [flat_map]. apply NoDup_app. split_and!.
  - cbn in Hn, Hn'. destruct n as [b|es']; [apply NoDup_singleton|]. apply NoDup_fmap; [apply _|by apply Hn].
  - intros p Hp Hq. rewrite list_elem_of_In, in_flat_map in Hq. destruct Hq as ([y m] & Hin & Hq).
    assert (∃ q, p = x :: q) as [q ->].
    { destruct n; [by apply list_elem_of_singleton in Hp; eexists|].
      apply list_elem_of_fmap in Hp as (q & -> & _). by exists q. }
    apply list_elem_of_In in Hq. assert (x = y) as ->.
    { destruct m; [by apply list_elem_of_singleton in Hq as [= -> _]|].
      apply list_elem_of_fmap in Hq as (q' & [= -> _] & _). done. }
    destruct Hx. apply list_elem_of_fmap. exists (y, m). split; [done|]. by apply list_elem_of_In.
  - by apply IHes.
Qed.

(** Sorting depends on the elements only. *)
Lemma sort_strings_ext l1 l2 : NoDup l1 → l1 ≡ₚ l2 → sort_strings l1 = sort_strings l2.
Proof.
  intros Hn Hp. apply (StronglySorted_unique_strong (λ a b, str_ltb a b = true)).
  - intros a b _ _ Hab Hba. pose proof (str_ltb_trans _ _ _ Hab Hba) as Hi. by rewrite str_ltb_irrefl in Hi.
  - apply sort_strings_ascending, Hn.
  - apply sort_strings_ascending. by rewrite <-Hp.
  - by rewrite !sort_strings_perm.
Qed.

(** ** The specification *)

Definition spec_perform `{Hashing} (op : fs_operation) (m : jsmap jstr (list Z))
    : jsmap jstr (list Z) * result exn fs_reply :=
  match op with
  | OpPut key data =>
      match put_bytes data with
      | Ok bytes => (map_set m key bytes, Ok (REtag (encodeHex (sha256 bytes))))
      | Err e => (m, Err e)
      end
  | OpGet key => (m, Ok (RStream ((λ b, {| reads := [Some b]; failure := None |}) <$> map_get m key)))
  | OpDelete key => (map_delete m key, Ok RDeleted)
  | OpHead key =>
      (m, Ok (RHead ((λ b, (Z.of_nat (length b), encodeHex (sha256 b))) <$> map_get m key)))
  | OpList prefix limit cursor =>
      let '(keys, next) := page prefix limit cursor (map_keys m) in (m, Ok (RKeys keys next))
  end.

(** A sequence of operations, and its replies *)
Fixpoint replies {S} (step : fs_operation → S → S * result exn fs_reply) (ops : list fs_operation) (s : S)
    : list (result exn fs_reply) :=
  match ops with
  | [] => []
  | op :: ops => let '(s, r) := step op s in r :: replies step ops s
  end.

Section refinement.
Context `{PathLaws, Hashing}.

(** The keys in use: file names, none of which is the directory of another *)
Context (used : jstr → Prop).
Context (used_ok : ∀ k, used k → key_ok k).
Context (used_apart : ∀ k k', used k → used k' → path_of k `prefix_of` path_of k' → k = k').

Definition uses (op : fs_operation) : Prop :=
  match op with OpPut k _ | OpGet k | OpDelete k | OpHead k => used k | OpList _ _ _ => True end.

(** The tree below the root holds the files of [m], and directories on their way. *)
Record tree_holds (m : jsmap jstr (list Z)) (n : node) : Prop := {
  th_files k b : used k → map_get m k = Some b ↔ look (Some n) (path_of k) = Ok (File b);
  th_used p b : look (Some n) p = Ok (File b) → ∃ k, used k ∧ p = path_of k;
  th_dirs p es : p ≠ [] → look (Some n) p = Ok (Dir es) → ∃ k, used k ∧ p `prefix_of` path_of k ∧ p ≠ path_of k;
  th_wf : tree_wf n
}.

Lemma look_refused n p : look n p = Err Refused → ∃ q b, q `prefix_of` p ∧ q ≠ p ∧ look n q = Ok (File b).
Proof.
  revert n. induction p as [|x p IH]; intros n; cbn; [by destruct n|].
  destruct n as [[b|es]|]; [|intros (q & b & Hq & Hne & Hl)%IH|done].
  - intros _. exists [], b. split_and!; [apply prefix_nil|done..].
  - exists (x :: q), b. split_and!; [by apply prefix_cons|congruence|done].
Qed.

Lemma look_key m n k : tree_holds m n → used k →
  look (Some n) (path_of k) = match map_get m k with Some b => Ok (File b) | None => Err NotFound end.
Proof.
  intros Hm Hk. destruct (map_get m k) as [b|] eqn:E; [by apply (th_files _ _ Hm)|].
  destruct (look (Some n) (path_of k)) as [[b|es]|[]] eqn:El; [| |done|].
  - apply (th_files _ _ Hm k b Hk) in El. congruence.
  - apply (th_dirs _ _ Hm) in El as (k' & Hk' & Hp & Hne); [|apply path_nonempty].
    by rewrite (used_apart k k') in Hne.
  - apply look_refused in El as (q & b & Hq & Hne & Hl). apply (th_used _ _ Hm) in Hl as (k' & Hk' & ->).
    by rewrite (used_apart k' k) in Hne.
Qed.

Lemma path_split k : ∃ x, path_of k = removelast (path_of k) ++ [x].
Proof. exists (List.last (path_of k) []). apply app_removelast_last, path_nonempty. Qed.

Lemma removelast_shorter k : ¬ path_of k `prefix_of` removelast (path_of k).
Proof. destruct (path_split k) as [x Hx]. rewrite Hx at 1. intros Hp%prefix_length. rewrite length_app in Hp. cbn in Hp. lia. Qed.

Lemma tree_mkdir m n k : tree_holds m n → used k →
  ∃ n1 es, make_dirs (Some n) (removelast (path_of k)) = Ok n1 ∧ tree_holds m n1 ∧
           look (Some n1) (removelast (path_of k)) = Ok (Dir es).
Proof.
  intros Hm Hk. destruct (path_split k) as [x Hx].
  assert (∀ q, q `prefix_of` removelast (path_of k) → q `prefix_of` path_of k ∧ q ≠ path_of k) as Hpre.
  { intros q Hq. split; [rewrite Hx; by apply prefix_app_r|]. intros ->. by apply (removelast_shorter k). }
  destruct (make_dirs_ok (Some n) (removelast (path_of k))) as [n1 Hn1].
  { intros q b Hq Hl. apply (th_used _ _ Hm) in Hl as (k' & Hk' & ->). destruct (Hpre _ Hq) as [Hq' Hne].
    by rewrite (used_apart k' k) in Hne. }
  destruct (make_dirs_spec _ _ _ Hn1) as [Hdir Hsame]. destruct (Hdir _ (reflexivity _)) as [es Hes].
  exists n1, es. split_and!; [done| |done]. split.
  - intros k' b Hk'. rewrite Hsame; [by apply (th_files _ _ Hm)|]. intros Hq. destruct (Hpre _ Hq) as [Hq' Hne].
    by rewrite (used_apart k' k) in Hne.
  - intros p b Hl. destruct (decide (p `prefix_of` removelast (path_of k))) as [Hp|Hp].
    + destruct (Hdir p Hp) as [es' He]. congruence.
    + rewrite Hsame in Hl by done. by apply (th_used _ _ Hm) in Hl.
  - intros p es' Hp Hl. destruct (decide (p `prefix_of` removelast (path_of k))) as [Hq|Hq].
    + destruct (Hpre p Hq). by exists k.
    + rewrite Hsame in Hl by done. by apply (th_dirs _ _ Hm) in Hl.
  - eapply make_dirs_wf; [done|apply Hm].
Qed.

(** A change at the path of a key to a file or to nothing *)
Lemma tree_change m m' n n' k f :
  tree_holds m n → used k → change f (Some n) (path_of k) = Ok n' →
  (∀ o o', f o = Ok o' → o' = Some (File (default [] (map_get m' k))) ∧ map_get m' k ≠ None ∨ o' = None ∧ map_get m' k = None) →
  (∀ k', k' ≠ k → map_get m' k' = map_get m k') →
  ∃ n2, n' = Some n2 ∧ tree_holds m' n2.
Proof.
  intros Hm Hk Hc Hf0 Hother. pose proof (change_spec _ _ _ _ Hc) as (o & o2 & Ho & _ & Hin & Hup & Hout).
  destruct (Hup [] ltac:(apply prefix_nil)) as (_ & es2 & _ & Hes2); [intros E; by apply (path_nonempty k)|].
  destruct n' as [n2|]; [|done]. exists n2. split; [done|].
  assert (∀ k', used k' → k' ≠ k → look (Some n2) (path_of k') = look (Some n) (path_of k')) as Hkeys.
  { intros k' Hk' Hne. apply Hout; intros Hp; apply Hne; [symmetry|]; by apply used_apart. }
  pose proof (Hf0 o o2 Ho) as Hf.
  assert (∀ r x, look (Some n2) (path_of k ++ r) = Ok x → r = [] ∧ map_get m' k ≠ None ∧ x = File (default [] (map_get m' k))) as Hsub.
  { intros r x. rewrite Hin. destruct Hf as [[-> Hn] | [-> Hn]]; destruct r; try done. by intros [= <-]. }
  split.
  - intros k' b Hk'. destruct (decide (k' = k)) as [->|Hne].
    + specialize (Hin []). rewrite app_nil_r in Hin. rewrite Hin.
      destruct Hf as [[-> Hn] | [-> Hn]]; [|by rewrite Hn]. destruct (map_get m' k); [|done]. cbn. naive_solver.
    + rewrite Hkeys, Hother by done. by apply (th_files _ _ Hm).
  - intros p b Hl. destruct (decide (path_of k `prefix_of` p)) as [[r ->]|Hp].
    + destruct (Hsub _ _ Hl) as [-> _]. exists k. by rewrite app_nil_r.
    + destruct (decide (p `prefix_of` path_of k)) as [Hq|Hq].
      * destruct (Hup p Hq) as (_ & es' & _ & He); [by intros ->; destruct Hp|]. congruence.
      * rewrite Hout in Hl by done. by apply (th_used _ _ Hm) in Hl.
  - intros p es' Hp0 Hl. destruct (decide (path_of k `prefix_of` p)) as [[r ->]|Hp].
    + by destruct (Hsub _ _ Hl) as (_ & _ & ?).
    + destruct (decide (p `prefix_of` path_of k)) as [Hq|Hq].
      * exists k. split_and!; [done|done|]. intros ->. by destruct Hp.
      * rewrite Hout in Hl by done. by apply (th_dirs _ _ Hm) in Hl.
  - apply (change_wf f (Some n) (path_of k) (Some n2)); [|done|apply Hm].
    intros o1 o1' Ho1 _. by destruct (Hf0 o1 o1' Ho1) as [[-> _] | [-> _]].
Qed.

Lemma tree_write m n k b es : tree_holds m n → used k → look (Some n) (removelast (path_of k)) = Ok (Dir es) →
  ∃ n2, change (written b) (Some n) (path_of k) = Ok (Some n2) ∧ tree_holds (map_set m k b) n2.
Proof.
  intros Hm Hk Hes. destruct (path_split k) as [x Hx]. pose proof (look_key m n k Hm Hk) as Hl.
  assert (∃ n', change (written b) (Some n) (path_of k) = Ok n') as [n' Hn'].
  { rewrite Hx, change_app. pose proof (change_at (λ o, change (written b) o [x]) _ _ _ Hes) as Hc.
    rewrite Hx, (look_app _ _ _ _ Hes) in Hl. cbn in Hl, Hc. unfold written in Hc.
    destruct (map_get es x) as [[b'|es']|]; [exact Hc|by destruct (map_get m k)|exact Hc]. }
  destruct (tree_change m (map_set m k b) n n' k (written b) Hm Hk Hn') as (n2 & -> & Hm2).
  - intros o o'. rewrite map_get_set_eq. unfold written. destruct o as [[b'|es']|]; [|done|]; intros [= <-]; by left.
  - intros k' Hne. by rewrite map_get_set_ne.
  - by exists n2.
Qed.

Lemma tree_remove m n k b : tree_holds m n → used k → map_get m k = Some b →
  ∃ n2, change removed (Some n) (path_of k) = Ok (Some n2) ∧ tree_holds (map_delete m k) n2.
Proof.
  intros Hm Hk Hb. pose proof (look_key m n k Hm Hk) as Hl. rewrite Hb in Hl.
  destruct (change_at removed _ _ _ Hl) as [n' Hn'].
  destruct (tree_change m (map_delete m k) n n' k removed Hm Hk Hn') as (n2 & -> & Hm2).
  - intros o o'. rewrite map_get_delete_eq. unfold removed. destruct o as [[b'|[|e es]]|]; try done; intros [= <-]; by right.
  - intros k' Hne. by rewrite map_get_delete_ne.
  - by exists n2.
Qed.

(** *** The listing *)

Lemma tree_walk m n : tree_holds m n → map_wf m → (∀ k, k ∈ map_keys m → used k) →
  walk n [] ≡ₚ map_keys m.
Proof.
  intros Hm Hwf Hused. rewrite walk_paths. pose proof (th_wf _ _ Hm) as Htw.
  assert (∀ p, p ∈ file_paths n → ∃ k, used k ∧ p = path_of k) as Hp.
  { intros p [_ [b Hb]]%elem_file_paths; [|done]. by eapply th_used. }
  apply NoDup_Permutation.
  - apply NoDup_fmap_2_strong; [|by apply file_paths_NoDup].
    intros p q (k & Hk & ->)%Hp (k' & Hk' & ->)%Hp. rewrite !key_at_path by auto. by intros ->.
  - exact Hwf.
  - intros k. rewrite list_elem_of_fmap. split.
    + intros (p & -> & Hin). pose proof Hin as (k' & Hk' & ->)%Hp. rewrite key_at_path by auto.
      apply elem_file_paths in Hin as [_ [b Hb]]; [|done]. apply (th_files _ _ Hm) in Hb; [|done].
      apply dec_stable. intros Hn%map_get_None. congruence.
    + intros Hk. exists (path_of k). rewrite key_at_path by auto. split; [done|]. apply elem_file_paths; [done|].
      split; [apply path_nonempty|]. destruct (map_get m k) as [b|] eqn:E; [|by apply map_get_None in E].
      exists b. apply (th_files _ _ Hm); [by apply Hused|done].
Qed.

Lemma page_perm prefix limit cursor l1 l2 : NoDup l2 → l1 ≡ₚ l2 → page prefix limit cursor l1 = page prefix limit cursor l2.
Proof.
  intros Hn Hp. unfold page. set (P := λ k : jstr, starts_with k prefix = true).
  rewrite (sort_strings_ext (filter P l1) (filter P l2)); [done| |by rewrite Hp].
  apply NoDup_filter. by rewrite Hp.
Qed.

(** *** The simulation *)

Record represents (m : jsmap jstr (list Z)) (fs : node) : Prop := {
  rp_wf : map_wf m;
  rp_used k : k ∈ map_keys m → used k;
  rp_tree : ∃ es, look (Some fs) root = Ok (Dir es) ∧ tree_holds m (Dir es)
}.

(** A change below the root *)
Lemma change_root fs es g n : look (Some fs) root = Ok (Dir es) → g (Some (Dir es)) = Ok (Some n) →
  ∃ fs', fs_of (change g (Some fs) root) = Ok fs' ∧ look (Some fs') root = Ok n.
Proof.
  intros Hr Hg. pose proof (change_at g _ _ _ Hr) as Hc. rewrite Hg in Hc. destruct Hc as [n' Hc].
  pose proof (change_spec _ _ _ _ Hc) as (o & o' & Ho & H1' & H2' & Hup & _).
  specialize (H1' []). specialize (H2' []). rewrite app_nil_r in H1', H2'. rewrite Hr in H1'.
  destruct o as [o|]; [|done]. injection H1' as <-. rewrite Hg in Ho. injection Ho as <-. rewrite Hc.
  destruct n' as [n'|]; [by exists n'|by destruct root].
Qed.

Lemma key_path k : used k →
  getPath rootDir k = Ok (abs_path (root ++ path_of k)) ∧
  dirname (abs_path (root ++ path_of k)) = abs_path (root ++ removelast (path_of k)) ∧
  (∀ p, p = path_of k ∨ p = removelast (path_of k) →
     includes (abs_path (root ++ p)) [0] = false ∧ os_path (abs_path (root ++ p)) = root ++ p).
Proof.
  intros Hk%used_ok. pose proof (path_names k Hk) as [Hn Hz]. pose proof root_names as Hr. pose proof root_no_nul as Hrz.
  split; [by apply getPath_key|]. split.
  - rewrite dirname_names by by apply Forall_app. by rewrite removelast_app by apply path_nonempty.
  - intros p Hp. assert (Forall name_ok p ∧ Forall (λ s, 0 ∉ s) p) as [Hpn Hpz].
    { destruct Hp as [-> | ->]; [done|]. destruct (path_split k) as [x Hx]. rewrite Hx in Hn, Hz. by apply Forall_app in Hn as [? _], Hz as [? _]. }
    split; [|apply os_path_names; by apply Forall_app]. apply includes_singleton_false.
    assert (Forall (λ s, 0 ∉ s) (root ++ p)) as Hall by by apply Forall_app. unfold abs_path.
    intros [Hin|Hin]%elem_of_app; [revert Hin; absent|]. induction Hall as [|s [|s' l] Hs _ IH]; cbn in Hin; [by apply elem_of_nil in Hin|done|].
    apply elem_of_app in Hin as [?|Hin]; [done|]. apply elem_of_cons in Hin as [?|Hin]; [done|]. by apply IH.
Qed.

Lemma perform_refines op m fs : uses op → represents m fs →
  let '(fs', r) := fs_perform rootDir op fs in let '(m', r') := spec_perform op m in
  r = r' ∧ represents m' fs'.
Proof.
  intros Hop Hrep. pose proof Hrep as [Hwf Hused (es & Hroot & Hm)].
  destruct op as [k data|k|k|k|prefix limit cursor]; cbn [fs_perform spec_perform uses] in *;
    try (destruct (key_path k Hop) as (Hpath & Hdir & Hos); destruct (Hos _ (or_introl eq_refl)) as [Hz Hosp];
         destruct (Hos _ (or_intror eq_refl)) as [Hz' Hosd]; pose proof (look_key m _ k Hm Hop) as Hl;
         unfold fs_put, fs_get, fs_delete, fs_head, st_bind, st_lift; rewrite Hpath; cbn [mbind result_bind];
         unfold deno_readFile, deno_find, deno_remove; rewrite ?Hz, ?Hosp, ?(look_app _ _ _ _ Hroot)).
  - rewrite Hdir. unfold fs_step, deno_mkdir. rewrite Hz', Hosd, (make_dirs_app _ _ _ es) by done.
    destruct (tree_mkdir m _ k Hm Hop) as (n1 & es1 & Hn1 & Hm1 & Hes1).
    destruct (change_root fs es (λ o, make_dirs o (removelast (path_of k)) ≫= λ m, Ok (Some m)) n1 Hroot)
      as (fs1 & -> & Hroot1); [by rewrite Hn1|].
    assert (∃ es1', n1 = Dir es1') as [es1' ->].
    { destruct n1 as [b|?]; [|by eexists]. by destruct (removelast (path_of k)). }
    destruct (put_bytes data) as [bytes|e]; [|split; [done|]; split; eauto].
    unfold deno_writeFile. rewrite Hz, Hosp, change_app.
    destruct (tree_write m _ k bytes es1 Hm1 Hop Hes1) as (n2 & Hn2 & Hm2).
    destruct (change_root fs1 es1' (λ o, change (written bytes) o (path_of k)) n2 Hroot1 Hn2) as (fs2 & -> & Hroot2).
    split; [done|]. split; [by apply map_set_wf| |].
    + intros k'. rewrite map_keys_set. case_decide; [by apply Hused|]. intros [?|Hk']%elem_of_app; [by apply Hused|].
      by apply list_elem_of_singleton in Hk' as ->.
    + destruct n2 as [b|es2]; [|by exists es2]. pose proof (path_nonempty k). apply change_spec in Hn2 as (_ & _ & _ & _ & _ & Hup & _).
      destruct (Hup [] (prefix_nil _)) as (_ & ? & _ & ?); [congruence|done].
  - rewrite Hl. split; [|done]. by destruct (map_get m k).
  - rewrite change_app. destruct (map_get m k) as [b|] eqn:E.
    + destruct (tree_remove m _ k b Hm Hop E) as (n2 & Hn2 & Hm2).
      destruct (change_root fs es (λ o, change removed o (path_of k)) n2 Hroot Hn2) as (fs2 & -> & Hroot2).
      split; [done|]. split; [by apply map_delete_wf| |].
      * intros k'. rewrite map_delete_keys. intros [_ ?]%list_elem_of_filter. by apply Hused.
      * destruct n2 as [b'|es2]; [|by exists es2]. pose proof (path_nonempty k). apply change_spec in Hn2 as (_ & _ & _ & _ & _ & Hup & _).
        destruct (Hup [] (prefix_nil _)) as (_ & ? & _ & ?); [congruence|done].
    + rewrite <-change_app, (change_removed_missing (Some fs) (root ++ path_of k)) by (by rewrite (look_app _ _ _ _ Hroot)).
      cbn. split; [done|]. by rewrite map_delete_None.
  - rewrite Hl. split; [|done]. by destruct (map_get m k).
  - unfold fs_list, deno_find. rewrite rootDir_no_nul, os_path_root, Hroot. cbn [mbind result_bind].
    rewrite (page_perm prefix limit cursor (walk (Dir es) []) (map_keys m)); [|done|by apply tree_walk].
    by destruct (page _ _ _ _).
Qed.
End refinement.

(** C13: Put, get, delete, head and list behave as those of a map from keys to bytes.
    Start from an empty root directory and use keys that are file names (no empty,
    [.] or [..] segment, no NUL, not the text "%3A", not starting with "..") none
    of which is the directory of another.  Then any sequence of operations,
    whatever the data, the prefixes, limits and cursors of listings, gives the
    replies of the map: [get] and [head] the bytes, the size and the hash last put
    and not deleted, [list] the page of the sorted keys, and an error only for data
    that cannot be read. *)
Theorem local_fs_refines `{PathLaws} `{Hashing} (used : jstr → Prop) (ops : list fs_operation) (fs : node) :
  (∀ k, used k → key_ok k) →
  (∀ k k', used k → used k' → path_of k `prefix_of` path_of k' → k = k') →
  Forall (uses used) ops → look (Some fs) root = Ok (Dir []) →
  replies (fs_perform rootDir) ops fs = replies spec_perform ops [].
Proof.
  intros Hok Hapart Hops Hroot.
  assert (represents used (root := root) [] fs) as Hrep.
  { split; [constructor|by intros k ?%elem_of_nil|]. exists []. split; [done|]. split.
    - intros k b Hk. pose proof (path_nonempty k). destruct (path_of k) as [|x p]; [done|]. cbn. by destruct p.
    - intros [|x p] b; [done|]. cbn. by destruct p.
    - intros [|x p] es Hp; [done|]. cbn. by destruct p.
    - apply tree_wf_empty. }
  clear Hroot. revert fs Hrep. generalize (@nil (jstr * list Z)) as m.
  induction Hops as [|op ops Hop _ IH]; intros m fs Hrep; [done|]. cbn [replies].
  pose proof (perform_refines used Hok Hapart op m fs Hop Hrep) as Hstep.
  destruct (fs_perform rootDir op fs) as [fs' r], (spec_perform op m) as [m' r'].
  destruct Hstep as [-> Hrep']. by rewrite (IH m' fs').
Qed.

(** A sequence with all operations, on two keys *)
Definition cat_key : jstr := js "cats/tom:1".
Definition dog_key : jstr := js "dogs/rex".
Definition pet_ops : list fs_operation :=
  [OpPut cat_key (ABuffer [1; 2]); OpPut dog_key (AStream {| reads := [Some [3]; None; Some [4]]; failure := None |});
   OpPut cat_key (AStream {| reads := [Some [9]]; failure := Some UnavailableError |});
   OpHead cat_key; OpList [] (Some 1) None; OpList [] (Some 1) (Some cat_key); OpDelete cat_key; OpGet cat_key;
   OpGet dog_key; OpList (js "dogs/") None None].

Theorem local_fs_refines_witness :
  replies (fs_perform (H0 := plain_hashing) DATA) pet_ops (data_fs [7] []) = replies (spec_perform (H := plain_hashing)) pet_ops [] ∧
  nth 5 (replies (spec_perform (H := plain_hashing)) pet_ops []) (Err PlainError) = Ok (RKeys [dog_key] None).
Proof.
  split; [|vm_compute; reflexivity].
  apply (local_fs_refines (H1 := plain_hashing) (λ k, k = cat_key ∨ k = dog_key)).
  - assert (∀ s, (s ≠ [] ∧ s ≠ js "." ∧ s ≠ js "..") → chr "/" ∉ s → 0 ∉ s → includes s (js "%3A") = false → segment_ok s)
      as Hseg by (intros s (? & ? & ?) ? ? ?; repeat split; assumption).
    intros k [-> | ->]; (split; [|vm_compute; reflexivity]).
    + apply Forall_cons_2; [|apply Forall_cons_2; [|constructor]];
        (apply Hseg; [repeat split; vm_compute; discriminate|absent|absent|vm_compute; reflexivity]).
    + apply Forall_cons_2; [|apply Forall_cons_2; [|constructor]];
        (apply Hseg; [repeat split; vm_compute; discriminate|absent|absent|vm_compute; reflexivity]).
  - intros k k' [-> | ->] [-> | ->] Hp; first [reflexivity | exfalso; revert Hp; apply (bool_decide_unpack _); vm_compute; exact I].
  - repeat first [apply Forall_cons_2 | apply Forall_nil_2]; first [left; reflexivity | right; reflexivity | exact I].
  - vm_compute. reflexivity.
Defined.

(** ** Following the cursors of a listing, while others write

    [alls] are the keys of the store at the time of each page. *)
Fixpoint follow (prefix : jstr) (limit : Z) (cursor : option jstr) (alls : list (list jstr))
    : option (list (list jstr)) :=
  match alls with
  | [] => None
  | all :: alls =>
      let '(keys, next) := page prefix (Some limit) cursor all in
      match next with
      | None => Some [keys]
      | Some c => cons keys <$> follow prefix limit (Some c) alls
      end
  end.

(** Both branches of the cursor give the keys after it. *)
Lemma after_cursor_ascending c l : c ≠ [] → ascending l →
  after_cursor (Some c) l = filter (λ k, str_ltb c k = true) l.
Proof.
  intros Hc Hl. cbn. destruct c as [|d c]; [done|]. generalize dependent (d :: c). clear d c. intros c _.
  induction Hl as [|k l Hl IH Hk]; [done|]. cbn [position]. case_bool_decide as E.
  - subst k. cbn [option_fmap drop Nat.add]. rewrite filter_cons_False by (by rewrite str_ltb_irrefl).
    rewrite drop_0. symmetry. by apply filter_all.
  - destruct (position c l) as [i|] eqn:Ep; cbn [fmap option_fmap option_map Nat.add drop]; [|done].
    rewrite IH. rewrite filter_cons_False; [done|]. intros Hck.
    assert (c ∈ l) as Hin.
    { clear -Ep. revert i Ep. induction l as [|x l IHl]; intros i; cbn; [done|]. case_bool_decide; [subst; by left|].
      destruct (position c l) as [j|] eqn:E; [|done]. intros _. right. by eapply IHl. }
    rewrite Forall_forall in Hk. pose proof (str_ltb_trans _ _ _ Hck (Hk _ Hin)) as Hi. by rewrite str_ltb_irrefl in Hi.
Qed.

Lemma ascending_filter (P : jstr → Prop) `{!∀ k, Decision (P k)} l : ascending l → ascending (filter P l).
Proof.
  intros Hl. induction Hl as [|k l Hl IH Hk]; [constructor|]. rewrite filter_cons. case_decide; [|done].
  constructor; [done|]. apply Forall_forall. intros x [_ Hx]%list_elem_of_filter. rewrite Forall_forall in Hk. by apply Hk.
Qed.

Lemma ascending_app l1 l2 :
  ascending (l1 ++ l2) ↔ ascending l1 ∧ ascending l2 ∧ ∀ a b, a ∈ l1 → b ∈ l2 → str_ltb a b = true.
Proof.
  unfold ascending. induction l1 as [|k l1 IH]; cbn.
  - split; [intros H; split_and!; [constructor|done|by intros ? ? ?%elem_of_nil]|tauto].
  - split.
    + intros [H Hk]%StronglySorted_inv. apply IH in H as (H1 & H2 & H12). apply Forall_app in Hk as [Hk1 Hk2].
      split_and!; [by constructor|done|]. intros a b [->|Ha]%elem_of_cons Hb; [|by apply H12].
      rewrite Forall_forall in Hk2. by apply Hk2.
    + intros ([H1 Hk]%StronglySorted_inv & H2 & H12). constructor.
      * apply IH. split_and!; [done|done|]. intros a b Ha. apply H12. by right.
      * apply Forall_app. split; [done|]. apply Forall_forall. intros b Hb. apply H12; [by left|done].
Qed.

(** The keys after a cursor *)
Definition beyond (cursor : option jstr) (k : jstr) : Prop := ∀ c, cursor = Some c → str_ltb c k = true.

Lemma page_spec prefix limit cursor all keys next : 1 ≤ limit → NoDup all → cursor ≠ Some [] →
  page prefix (Some limit) cursor all = (keys, next) →
  ascending keys ∧
  (∀ k, k ∈ keys → k ∈ all ∧ starts_with k prefix = true ∧ beyond cursor k) ∧
  (∀ c', next = Some c' → c' ∈ keys ∧ ∀ k, k ∈ keys → k = c' ∨ str_ltb k c' = true) ∧
  ∀ k, k ∈ all → starts_with k prefix = true → beyond cursor k → k ∈ keys ∨ ∃ c', next = Some c' ∧ str_ltb c' k = true.
Proof.
  intros Hlim Hnd Hne. unfold page. cbn [default from_option id].
  set (sorted := sort_strings _). set (F := after_cursor cursor sorted).
  assert (ascending sorted) as Hs by by apply sort_strings_ascending, NoDup_filter.
  assert (ascending F ∧ ∀ k, k ∈ F ↔ k ∈ all ∧ starts_with k prefix = true ∧ beyond cursor k) as [HF Hin].
  { assert (∀ k, k ∈ sorted ↔ k ∈ all ∧ starts_with k prefix = true) as Hsorted.
    { intros k. unfold sorted. rewrite sort_strings_perm, list_elem_of_filter. tauto. }
    unfold F, beyond. destruct cursor as [c|].
    - rewrite after_cursor_ascending by (done || congruence). split; [by apply ascending_filter|].
      intros k. rewrite list_elem_of_filter, Hsorted. naive_solver.
    - cbn. split; [done|]. intros k. rewrite Hsorted. naive_solver. }
  clearbody F. clear sorted Hs. unfold slice_to. rewrite (proj2 (Z.ltb_ge limit 0)) by lia. intros [= <- <-].
  rewrite <-(take_drop (Z.to_nat limit) F) in HF, Hin. pose proof (length_take F (Z.to_nat limit)) as Hlen.
  pose proof (length_drop F (Z.to_nat limit)) as Hlen'.
  set (t := take (Z.to_nat limit) F) in *. set (d := drop (Z.to_nat limit) F) in *. clearbody t d.
  apply ascending_app in HF as (Ht & Hd & Htd). split_and!; [done| | |].
  - intros k Hk. apply Hin, elem_of_app. by left.
  - intros c'. destruct (limit <? Z.of_nat (length F)); [|done]. intros [t' ->]%last_Some.
    split; [apply elem_of_app; right; by left|]. apply ascending_app in Ht as (_ & _ & Ht).
    intros k [Hk|Hk%list_elem_of_singleton]%elem_of_app; [right|by left]. apply Ht; [done|by left].
  - intros k Hk Hp Hc. assert (k ∈ t ++ d) as [?|Hkd]%elem_of_app by by apply Hin. { by left. }
    right. destruct (Z.ltb_spec limit (Z.of_nat (length F))) as [Hl|Hl].
    + destruct (last t) as [c'|] eqn:E; [|apply last_None in E; subst t; cbn in Hlen; lia].
      exists c'. split; [done|]. apply Htd; [|done]. apply last_Some in E as [t' ->]. apply elem_of_app. right. by left.
    + destruct d; [by apply elem_of_nil in Hkd|]. cbn in Hlen'. lia.
Qed.

(** However the store changes between the pages, following the cursors gives keys in
    ascending order, each at most once, each present at one of the pages, and every
    key with the prefix that is present at all of them. *)
Theorem fs_pages_complete prefix limit alls pages : 1 ≤ limit →
  Forall (λ all, NoDup all ∧ [] ∉ all) alls → follow prefix limit None alls = Some pages →
  ascending (concat pages) ∧
  (∀ k, k ∈ concat pages → starts_with k prefix = true ∧ ∃ all, all ∈ alls ∧ k ∈ all) ∧
  (∀ k, starts_with k prefix = true → (∀ all, all ∈ alls → k ∈ all) → k ∈ concat pages).
Proof.
  intros Hlim Halls.
  assert (∀ cursor, cursor ≠ Some [] → follow prefix limit cursor alls = Some pages →
    ascending (concat pages) ∧
    (∀ k, k ∈ concat pages → starts_with k prefix = true ∧ beyond cursor k ∧ ∃ all, all ∈ alls ∧ k ∈ all) ∧
    (∀ k, starts_with k prefix = true → beyond cursor k → (∀ all, all ∈ alls → k ∈ all) → k ∈ concat pages)) as Hgen.
  { revert pages. induction Halls as [|all alls [Hnd Hne] _ IH]; intros pages cursor Hc; [done|]. cbn [follow].
    destruct (page prefix (Some limit) cursor all) as [keys next] eqn:E.
    apply page_spec in E as (Hasc & Hkeys & Hnext & Hall); [|done..]. destruct next as [c|].
    - destruct (Hnext c eq_refl) as [Hck Hmax]. destruct (follow prefix limit (Some c) alls) as [ps|] eqn:Ef; [|done].
      intros [= <-]. assert (c ∈ all) as Hca by by apply Hkeys.
      destruct (IH ps (Some c)) as (Hasc' & Hkeys' & Hall'); [by intros [= ->]|done|]. cbn [concat]. split_and!.
      + apply ascending_app. split_and!; [done|done|]. intros a b Ha (_ & Hb & _)%Hkeys'. specialize (Hb c eq_refl).
        destruct (Hmax a Ha) as [->|Hac]; [done|]. by eapply str_ltb_trans.
      + intros k [Hk|Hk]%elem_of_app.
        * destruct (Hkeys k Hk) as (? & ? & ?). split_and!; [done|done|]. exists all. split; [by left|done].
        * destruct (Hkeys' k Hk) as (? & Hb & all' & ? & ?). split_and!; [done| |exists all'; split; [by right|done]].
          intros c0 Hc0. destruct (Hkeys c Hck) as (_ & _ & Hbc). eapply str_ltb_trans; [by apply Hbc|by apply Hb].
      + intros k Hp Hb Hin. apply elem_of_app. destruct (Hall k (Hin all ltac:(by left)) Hp Hb) as [?|(c' & [= <-] & Hlt)]; [by left|].
        right. apply Hall'; [done|by intros ? [= <-]|]. intros all' Ha'. apply Hin. by right.
    - intros [= <-]. cbn [concat]. rewrite app_nil_r. split_and!; [done| |].
      + intros k Hk. destruct (Hkeys k Hk) as (? & ? & ?). split_and!; [done|done|]. exists all. split; [by left|done].
      + intros k Hp Hb Hin. destruct (Hall k (Hin all ltac:(by left)) Hp Hb) as [?|(c' & ? & _)]; done. }
  intros Hf. destruct (Hgen None) as (H1 & H2 & H3); [done|done|]. split_and!; [done| |].
  - intros k Hk. destruct (H2 k Hk) as (? & _ & ?). done.
  - intros k Hp Hin. apply H3; [done|by intros ? [=]|done].
Qed.
