(* ===== verification/LocalFsObjects.v ===== *)
(** * The local file system provider as the object provider of a restore

    Several keys denote one file ([a/b], [./a/b], [a//b]; a colon and the text
    "%3A"), so that the provider does not tell different keys apart; but it does
    keep a put where [ObjectFrame] wants it. *)

From S2P Require Import Prelude JsString JsMap JsNumber JsValue Errors Utf8 KvInterface SqliteKv Packager Deployment ArchiveSchema StateBackup BackupRestore LocalFs LocalFsSafety LocalFsRefinement.

Open Scope Z_scope.
Open Scope railfog_scope.

(** ** Files in a tree *)

Definition file_at (n : option node) (p : list jstr) : option (list Z) :=
  match look n p with Ok (File b) => Some b | _ => None end.

Lemma file_at_mkdir n p n' q : make_dirs n p = Ok n' → file_at (Some n') q = file_at n q.
Proof.
  unfold file_at. revert n n' q. induction p as [|x p IH]; intros n n' q; cbn [make_dirs].
  - destruct n as [[b|es]|]; [done|by intros [= <-]|]. intros [= <-]. destruct q as [|y q]; [done|]. by destruct q.
  - assert (∀ es, make_dirs (map_get es x) p ≫= (λ n', Ok (Dir (map_set es x n'))) = Ok n' → ∀ y q,
      file_at (Some n') (y :: q) = file_at (map_get es y) q) as Hgen.
    { intros es (m & Hm & [= <-])%bind_Ok y q'. unfold file_at. cbn [look].
      destruct (decide (y = x)) as [->|Hne]; [rewrite map_get_set_eq|by rewrite map_get_set_ne]. by apply IH. }
    unfold file_at in Hgen. destruct n as [[b|es]|]; [done|..]; intros Hm; pose proof Hm as (m & _ & [= <-])%bind_Ok;
      (destruct q as [|y q]; [done|]); rewrite (Hgen _ Hm); cbn [look]; [done|]. by destruct q.
Qed.

Lemma file_at_write bytes n p n' q : change (written bytes) n p = Ok n' → q ≠ p → file_at n' q = file_at n q.
Proof.
  intros (o & o' & Hw & Hb & Ha & Hup & Hout)%change_spec Hne. unfold file_at.
  destruct (decide (p `prefix_of` q)) as [[r ->]|Hpq].
  - rewrite Hb, Ha. destruct r as [|x r]; [by rewrite app_nil_r in Hne|].
    by destruct o as [[b|es]|]; [..|]; cbn in Hw; simplify_eq.
  - destruct (decide (q `prefix_of` p)) as [Hqp|Hqp]; [|by rewrite Hout].
    destruct (Hup q Hqp) as (es & es' & -> & ->); [done|]. done.
Qed.

(** ** Keys without two dots in a row *)

Lemma elem_of_join (seg : jstr) segs : seg ∈ segs → ∃ x y, str_join (js "/") segs = x ++ seg ++ y.
Proof.
  induction segs as [|s segs IH]; [set_solver|]. intros [->|Hin]%elem_of_cons.
  - destruct segs; cbn; [exists [], []; by rewrite app_nil_r|]. by eexists [], _.
  - destruct (IH Hin) as (x & y & Hxy). destruct segs as [|s' segs]; [set_solver|].
    exists (s ++ js "/" ++ x), y. cbn [str_join] in *. rewrite Hxy. by rewrite <-!app_assoc.
Qed.

Lemma segment_dots a seg : includes a (js "..") = false → seg ∈ split_on (chr "/") a → includes seg (js "..") = false.
Proof.
  intros Ha Hin. apply not_true_iff_false. intros (x & y & Hseg)%includes_spec.
  destruct (elem_of_join _ _ Hin) as (x' & y' & Hj). change (js "/") with [chr "/"] in Hj.
  rewrite split_on_join in Hj. apply not_true_iff_false in Ha. apply Ha, includes_spec.
  exists (x' ++ x), (y ++ y'). by rewrite Hj, Hseg, <-!app_assoc.
Qed.

(** No segment is [..]. *)
Definition level (segs : list jstr) : Prop := Forall (λ s, s ≠ js "..") segs.

Lemma enter_level segs p : level segs → ∃ r, fold_left enter segs p = p ++ r ∧ r ⊆ segs.
Proof.
  intros Hs. revert p. induction Hs as [|s segs Hne _ IH]; intros p; cbn [fold_left].
  { exists []. by rewrite app_nil_r. }
  destruct (IH (enter p s)) as (r & Hr & Hsub). rewrite Hr. unfold enter.
  rewrite (proj2 (jstr_eqb_neq s (js ".."))) by done.
  destruct (_ || _); [exists r; split; [done|set_solver]|]. exists ([s] ++ r). rewrite app_assoc. split; [done|set_solver].
Qed.

Lemma encoded_level a : includes a (js "..") = false → level (path_of a).
Proof.
  intros Ha. apply Forall_fmap, Forall_forall. intros s Hin Heq. pose proof (segment_dots _ _ Ha Hin) as Hs.
  apply encode_plain in Heq; [|absent]. by rewrite Heq in Hs.
Qed.

Section provider.
Context `{PathLaws, Hashing}.

#[export] Instance fs_objects : ObjectStore node := {
  obj_put key data := λ fs, let '(fs, r) := fs_put rootDir key (ABuffer data) fs in (fs, r ≫= λ _, Ok tt);
  obj_get key := λ fs, (fs, fs_get rootDir key fs);
  obj_list prefix limit cursor := λ fs, (fs, fs_list rootDir prefix (Some limit) cursor fs)
}.

(** The path of a key's file *)
Definition fs_names (key : jstr) : option (list jstr) :=
  match getPath rootDir key with Ok path => Some (os_path path) | Err _ => None end.

Definition fs_content (fs : node) (key : jstr) : option (list Z) :=
  match getPath rootDir key with
  | Ok path => match deno_readFile fs path with Ok b => Some b | Err _ => None end
  | Err _ => None
  end.

Lemma readFile_at fs path :
  match deno_readFile fs path with Ok b => Some b | Err _ => None end =
  if includes path [0] then None else file_at (Some fs) (os_path path).
Proof.
  unfold deno_readFile, deno_find, file_at. destruct (includes path [0]); [done|].
  by destruct (look _ _) as [[b|es]|e].
Qed.

Lemma fs_put_other fs k b k' : fs_names k' ≠ fs_names k →
  fs_content (obj_put k b fs).1 k' = fs_content fs k'.
Proof.
  unfold fs_content, fs_names. cbn [obj_put fs_objects]. unfold fs_put, st_bind, st_lift.
  destruct (getPath rootDir k) as [path|]; [|done]. cbn [put_bytes].
  destruct (getPath rootDir k') as [path'|]; [|by repeat case_match]. intros Hne. unfold fs_step.
  destruct (deno_mkdir _ fs) as [fs1|] eqn:E1; [|done]. destruct (deno_writeFile _ _ fs1) as [fs2|] eqn:E2; cbn [fst];
    rewrite !readFile_at; (destruct (includes path' [0]); [done|]).
  - transitivity (file_at (Some fs1) (os_path path')).
    + unfold deno_writeFile in E2. destruct (includes path [0]); [done|].
      apply bind_Ok in E2 as ([n|] & Hw & [= <-]). apply (file_at_write _ _ _ _ _ Hw). congruence.
    + unfold deno_mkdir in E1. destruct (includes (dirname path) [0]); [done|]. exact (file_at_mkdir _ _ _ _ E1).
  - unfold deno_mkdir in E1. destruct (includes (dirname path) [0]); [done|]. exact (file_at_mkdir _ _ _ _ E1).
Qed.

Lemma fsKey_split a : split_on (chr "/") (fsKey a) = path_of a.
Proof.
  unfold fsKey, path_of. apply split_on_str_join.
  - pose proof (split_on_not_nil (chr "/") a). by destruct (split_on _ a).
  - apply Forall_fmap. eapply Forall_impl; [apply split_on_no_sep|]. intros s Hs [?|Hin]%encode_elem; [done|].
    revert Hin. absent.
Qed.

Lemma fsKey_relative c a : c ≠ chr "/" → starts_with (fsKey (c :: a)) (js "/") = false.
Proof.
  intros Hc. unfold fsKey. cbn [split_on]. rewrite (proj2 (Z.eqb_neq c (chr "/"))) by done.
  assert (∃ s segs, match split_on (chr "/") a with p :: ps => (c :: p) :: ps | [] => [[c]] end = (c :: s) :: segs)
    as (s & segs & ->) by (destruct (split_on (chr "/") a); eauto).
  cbn [fmap list_fmap]. destruct (str_join_starts (encode_name (c :: s)) (encode_name <$> segs)) as [r ->].
  rewrite encode_cons. destruct (c =? chr ":"); cbn; [done|]. rewrite andb_true_r. apply Z.eqb_neq. by intros <-.
Qed.

Lemma fs_names_level a : a ≠ [] → starts_with a (js "/") = false → includes a (js "..") = false →
  fs_names a = Some (fold_left enter (path_of a) root).
Proof.
  intros Hne Hsl Hdots. destruct a as [|c a]; [done|].
  assert (c ≠ chr "/") as Hc by (intros ->; done). pose proof (fsKey_relative c a Hc) as Hrel.
  pose proof (enter_level _ root (encoded_level _ Hdots)) as (r & Hr & Hsub). pose proof root_names as Hroot.
  assert (normalize root (fsKey (c :: a)) = root ++ r) as Hnorm.
  { unfold normalize. by rewrite Hrel, fsKey_split. }
  pose proof (normalize_names root (fsKey (c :: a)) Hroot) as Hn. rewrite Hnorm in Hn. pose proof Hn as [_ Hrn]%Forall_app.
  unfold fs_names, getPath, rootAbs. rewrite resolve_root, resolve_key, Hnorm, isAbsolute_spec, relative_names by done.
  unfold rel_path. rewrite apart_app. cbn [fmap list_fmap app].
  assert (starts_with (str_join (js "/") r) (js "..") = false ∧ starts_with (str_join (js "/") r) (js "/") = false)
    as [-> ->].
  { destruct r as [|s r]; [done|]. apply Forall_cons in Hrn as [(Hs0 & Hss & Hsd & _) _].
    assert (s ∈ path_of (c :: a)) as (seg & -> & Hin)%list_elem_of_fmap by set_solver.
    pose proof (segment_dots _ _ Hdots Hin) as Hd.
    split; apply not_true_iff_false.
    - intros Hst. apply not_true_iff_false in Hd. apply Hd. apply includes_spec.
      enough (starts_with (encode_name seg) (js "..") = true) as He.
      { apply encode_starts in He; [|absent]. apply starts_with_spec in He as [y Hy]. by exists [], y. }
      clear Hin.
      destruct (encode_name seg) as [|d0 [|d1 s1]]; [done| |].
      + exfalso. destruct r; cbn in Hst; [by rewrite andb_false_r in Hst|]. apply andb_true_iff in Hst as [_ Hst]. done.
      + destruct (str_join_starts (d0 :: d1 :: s1) r) as [r' Hr']. rewrite Hr' in Hst. cbn in Hst |- *. done.
    - destruct (encode_name seg) as [|d0 s1]; [done|]. destruct (str_join_starts (d0 :: s1) r) as [r' ->].
      cbn. rewrite andb_true_r. intros <-%Z.eqb_eq. apply Hss. by left. }
  cbn [orb throw_if mbind result_bind]. rewrite os_path_names by done. by rewrite Hr.
Qed.

Lemma path_of_below a b : path_of (a ++ js "/" ++ b) = path_of a ++ path_of b.
Proof. unfold path_of. change (js "/" ++ b) with (chr "/" :: b). by rewrite split_on_sep, fmap_app. Qed.

#[export] Instance fs_frame : ObjectFrame node.
Proof.
  refine {| obj_content := fs_content; obj_names := fs_names |}.
  - done.
  - apply fs_put_other.
  - intros a b Hne Hsl Ha Hb. rewrite fs_names_level by done. eexists. split; [done|]. intros q.
    assert (includes (a ++ js "/" ++ b) (js "..") = false) as Hab.
    { change (js "/" ++ b) with (chr "/" :: b). by rewrite dots_sep, Ha, Hb. }
    rewrite fs_names_level; [|by destruct a|by destruct a|done]. rewrite path_of_below, fold_left_app.
    destruct (enter_level (path_of b) (fold_left enter (path_of a) root) (encoded_level _ Hb)) as (r & -> & _).
    intros [= <-]. by exists r.
Qed.
End provider.

(** ** The project [.]

    Identifiers may be [.], and the objects of that project are those of the other
    projects of the org: an archive restored into [acme/.] overwrites an object of
    [acme/files]. *)
Definition docs_object : BackupObjectRecord :=
  {| bo_store := js "files"; bo_key := js "docs/readme"; bo_sizeBytes := 3;
     bo_sha256 := encodeHex (Hashing := plain_hashing) (sha256 (Hashing := plain_hashing) (js "new"));
     bo_integrity := js "sha256-new"; bo_dataBase64 := Some (js "new") |}.

Definition docs_import : ImportProjectOptions :=
  let a := archive shop_import in
  {| targetOrgId := js "acme"; targetProjectId := js ".";
     archive := {| backupId := backupId a; createdAt := createdAt a; a_orgId := a_orgId a; a_projectId := a_projectId a;
                   a_name := a_name a; a_functions := a_functions a; a_kv := a_kv a; a_objects := [docs_object];
                   a_queues := [] |};
     overwriteKv := true |}.

Lemma dot_project_overwrites :
  let w := Build_backup_state (new_service None) {| clock := 9; kv_entries := ∅ |}
             (data_fs [] [(js "acme", Dir [(js "files", Dir [(js "docs", Dir [(js "readme", File (js "old"))])])])]) in
  let '(w', r) := importProject (H := plain_hashing) (K := kv_db jsval) (Ob := node)
                    (H1 := fs_objects (rootDir := DATA) (H1 := plain_hashing)) Ok docs_import w in
  is_ok r = true ∧
  fs_content (rootDir := DATA) (bw_obj w) (js "acme/files/docs/readme") = Some (js "old") ∧
  fs_content (rootDir := DATA) (bw_obj w') (js "acme/files/docs/readme") = Some (js "new").
Proof. vm_compute. split_and!; reflexivity. Qed.
