(* ===== verification/PresignedUrls.v ===== *)
(** * Signed URLs of the local file system provider

    What [verifyPresignedUrl] makes of a URL that [presign] has made, for a URL parser
    that leaves the path and the query of such a URL as they are. *)

From S2P Require Import Prelude JsString JsMap JsNumber JsValue Errors Utf8 TextDecoder Uri Packager IpBlocker EgressProxy LocalFs.
From Stdlib Require Import QArith.

Open Scope Z_scope.
Open Scope railfog_scope.

(** Text that a query carries: ASCII, without the separator and the percent sign *)
Definition query_char (c : Z) : Prop := 0 ≤ c < 0x80 ∧ c ≠ chr "&" ∧ c ≠ chr "%".

Definition spaced (s : jstr) : jstr := (λ c, if c =? chr "+" then 32 else c) <$> s.

Lemma flat_units_ascii s : Forall (λ c, 0 ≤ c < 0x80) s → flat_map units s = s.
Proof.
  induction 1 as [|c s Hc _ IH]; [done|]. cbn [flat_map]. rewrite IH. unfold units.
  by rewrite (proj2 (Z.ltb_lt c 0x10000)) by lia.
Qed.

Lemma percent_decode_plain s : Forall (λ c, c ≠ chr "%") s → percent_decode s = s.
Proof.
  induction 1 as [|c s Hc _ IH]; [done|]. cbn [percent_decode].
  destruct s as [|a [|b s]]; [by rewrite IH|by rewrite IH|].
  by rewrite (proj2 (Z.eqb_neq c (chr "%"))), IH.
Qed.

Lemma form_decode_query s : Forall query_char s → form_decode s = spaced s.
Proof.
  intros Hs. unfold form_decode. fold (spaced s).
  assert (Forall (λ c, 0 ≤ c < 0x80 ∧ c ≠ chr "%") (spaced s)) as Hsp.
  { apply Forall_fmap. eapply Forall_impl; [exact Hs|]. intros c (Hc & _ & Hp). unfold compose. cbv beta.
    destruct (c =? chr "+"); [|done]. split; [lia|done]. }
  rewrite percent_decode_plain by (eapply Forall_impl; [exact Hsp|]; by intros c []).
  rewrite decode_ascii by (eapply Forall_impl; [exact Hsp|]; by intros c []).
  apply flat_units_ascii. eapply Forall_impl; [exact Hsp|]; by intros c [].
Qed.

Lemma text_encode_ascii s : Forall (λ c, 0 ≤ c < 0x80) s → text_encode s = s.
Proof.
  intros Hs. unfold text_encode. rewrite code_points_ascii by done. induction Hs as [|c s Hc _ IH]; [done|].
  cbn [flat_map]. rewrite IH. assert (is_surrogate c = false) as -> by (unfold is_surrogate; lia).
  unfold utf8. by rewrite (proj2 (Z.ltb_lt c 0x80)) by lia.
Qed.

Lemma query_params token sig : Forall query_char token → Forall query_char sig →
  search_params (js "?token=" ++ token ++ js "&sig=" ++ sig) = [(js "token", spaced token); (js "sig", spaced sig)].
Proof.
  intros Ht Hs. unfold search_params.
  change (js "?token=" ++ token ++ js "&sig=" ++ sig)
    with (chr "?" :: (js "token=" ++ token) ++ chr "&" :: js "sig=" ++ sig).
  cbv beta iota zeta. rewrite Z.eqb_refl. assert (Forall query_char (js "token=") ∧ Forall query_char (js "sig=")) as [Hta Hsa].
  { split; repeat constructor; vm_compute; discriminate. }
  assert (∀ s, Forall query_char s → Forall (λ c, 0 ≤ c < 0x80) s ∧ chr "&" ∉ s) as Hq.
  { intros s Hsq. split; [eapply Forall_impl; [exact Hsq|]; by intros c []|].
    intros Hin. rewrite Forall_forall in Hsq. by destruct (Hsq _ Hin) as (_ & ? & _). }
  pose proof (Hq (js "token=" ++ token) ltac:(by apply Forall_app)) as [Ht' Hamp].
  pose proof (Hq (js "sig=" ++ sig) ltac:(by apply Forall_app)) as [Hs' Hamp'].
  rewrite text_encode_ascii.
  - rewrite split_on_app by done. rewrite split_on_none by done.
    rewrite !filter_cons_True by done. cbn [filter list_filter fmap list_fmap]. unfold form_pair.
    change (js "token=" ++ token) with (js "token" ++ chr "=" :: token).
    change (js "sig=" ++ sig) with (js "sig" ++ chr "=" :: sig).
    rewrite !split_first_app by (apply (bool_decide_unpack _); vm_compute; exact I).
    by rewrite !(form_decode_query token), !(form_decode_query sig).
  - apply Forall_app. split; [done|]. constructor; [vm_compute; split; congruence|done].
Qed.

Lemma spaced_id s : chr "+" ∉ s → spaced s = s.
Proof.
  induction s as [|c s IH]; [done|]. intros [Hc Hs]%not_elem_of_cons. unfold spaced in *. rewrite fmap_cons, IH by done.
  by rewrite (proj2 (Z.eqb_neq c (chr "+"))).
Qed.

Lemma spaced_plus s : chr "+" ∈ s → spaced s ≠ s.
Proof.
  induction s as [|c s IH]; [by intros ?%elem_of_nil|]. unfold spaced in *. rewrite fmap_cons.
  intros [<-|Hs]%elem_of_cons E; injection E as Hc Hr; [vm_compute in Hc; discriminate|by apply IH].
Qed.

Section urls.
Context `{Hashing} (hmacSecret : jstr) (json_stringify : jsval → jstr) (json_parse : jstr → result exn jsval).
Context (decodeBase64 : jstr → result exn (list Z)) (parse_URL : jstr → result exn (jstr * jstr)).
(** The documented behaviour of hexadecimal and base64 text *)
Context (hex_chars : ∀ data, Forall query_char (encodeHex data) ∧ chr "+" ∉ encodeHex data ∧ encodeHex (sha256 data) ≠ []).
Context (base64_chars : ∀ data, Forall query_char (encodeBase64 data)).
Context (base64_read : ∀ data, decodeBase64 (encodeBase64 data) = Ok data).

Notation verify := (verifyPresignedUrl hmacSecret json_parse decodeBase64 parse_URL).
Notation token_of key method expiresAt :=
  (encodeBase64 (text_encode (json_stringify (presign_payload key method expiresAt)))).

(** [url] is the one that [presign] has made: the parser finds its query, and a path
    that decodes to the key. *)
Definition parsed_as (url key rawKey token : jstr) : Prop :=
  parse_URL url = Ok (js "/local-fs/" ++ rawKey, js "?token=" ++ token ++ js "&sig=" ++ signature hmacSecret token) ∧
  decodeURIComponent rawKey = Ok key.

Lemma verify_reads now url key rawKey token expected :
  parsed_as url key rawKey token → Forall query_char token → token ≠ [] →
  verify now url expected =
  if negb (jstr_eqb (signature hmacSecret token) (signature hmacSecret (spaced token))) then false
  else match (decodeBase64 (spaced token) ≫= λ bytes, json_parse (text_decode bytes)) with
       | Err _ | Ok (JUndef | JNull) => false
       | Ok payload =>
           match prop payload (js "expiresAt") with
           | JNum expiresAt =>
               negb (num_ltb expiresAt (inject_Z now)) && is_text (prop payload (js "key")) key &&
               match expected with Some ((_ :: _) as m) => is_text (prop payload (js "method")) m | _ => true end
           | _ => false
           end
       end.
Proof.
  intros [Hp Hd] Ht Hne. unfold verifyPresignedUrl. rewrite Hp. cbn [mbind result_bind].
  destruct (hex_chars (sha256 (text_encode (token ++ js ":" ++ hmacSecret)))) as (Hsq & Hsp & _).
  destruct (hex_chars (text_encode (token ++ js ":" ++ hmacSecret))) as (_ & _ & Hsn).
  change (encodeHex (sha256 (text_encode (token ++ js ":" ++ hmacSecret)))) with (signature hmacSecret token) in Hsq, Hsp, Hsn.
  rewrite query_params by done. rewrite (spaced_id (signature hmacSecret token)) by done.
  cbn [map_get]. rewrite decide_True by done. rewrite decide_False by (vm_compute; congruence). rewrite decide_True by done.
  assert (spaced token ≠ []) as Hsne by by destruct token.
  destruct (spaced token) as [|c0 tok] eqn:Etok; [done|]. rewrite <-Etok.
  destruct (signature hmacSecret token) as [|d0 sg] eqn:Esig; [done|]. rewrite <-Esig.
  destruct (negb _); [done|].
  destruct (decodeBase64 (spaced token)) as [bytes|]; cbn [mbind result_bind]; [|done].
  destruct (json_parse (text_decode bytes)) as [payload|]; cbn [mbind result_bind]; [|done].
  assert (starts_with (js "/local-fs/" ++ rawKey) (js "/local-fs/") = true) as -> by apply starts_with_app.
  assert (drop 10 (js "/local-fs/" ++ rawKey) = rawKey) as -> by done.
  destruct payload; cbn [throw_if mbind result_bind]; try done;
    (destruct (prop _ (js "expiresAt")); try done; destruct (num_ltb _ _); cbn [negb andb]; [done|]; rewrite Hd;
     cbn [mbind result_bind]; destruct (is_text (prop _ (js "key")) key); cbn [negb andb]; [|done];
     destruct expected as [[|? ?]|]; done).
Qed.

(** A signed URL is accepted up to its expiry, for its method. *)
Theorem presigned_accepted now url key rawKey method expiresAt :
  let token := token_of key method expiresAt in
  parsed_as url key rawKey token → token ≠ [] → chr "+" ∉ token →
  json_parse (text_decode (text_encode (json_stringify (presign_payload key method expiresAt)))) =
    Ok (presign_payload key method expiresAt) →
  verify now url None = negb (q_ltb expiresAt (inject_Z now)) ∧
  ∀ m, m ≠ [] → verify now url (Some m) = negb (q_ltb expiresAt (inject_Z now)) && jstr_eqb method m.
Proof.
  intros token Hp Hne Hplus Hj.
  assert (∀ expected, verify now url expected = negb (q_ltb expiresAt (inject_Z now)) &&
    match expected with Some ((_ :: _) as m) => jstr_eqb method m | _ => true end) as Hall.
  { intros expected. rewrite (verify_reads now url key rawKey token expected Hp) by (done || apply base64_chars).
    rewrite (spaced_id token) by done. rewrite jstr_eqb_refl. cbn [negb]. unfold token. rewrite base64_read. cbn [mbind result_bind].
    rewrite Hj. cbn [presign_payload prop]. 
    change (map_get _ (js "expiresAt")) with (Some (JNum (Fin expiresAt))).
    change (map_get _ (js "key")) with (Some (JStr key)). change (map_get _ (js "method")) with (Some (JStr method)).
    cbn [num_ltb is_text]. rewrite jstr_eqb_refl, andb_true_r. destruct expected as [[|? ?]|]; done. }
  split; [by rewrite Hall, andb_true_r|]. intros m Hm. rewrite Hall. by destruct m.
Qed.

(** A plus sign of the token is read as a space: the URL is accepted only if the hash
    collides. *)
Theorem presigned_plus now url key rawKey token expected :
  parsed_as url key rawKey token → Forall query_char token → chr "+" ∈ token →
  verify now url expected = true →
  spaced token ≠ token ∧ signature hmacSecret (spaced token) = signature hmacSecret token.
Proof.
  intros Hp Ht Hplus. rewrite (verify_reads now url key rawKey token expected Hp Ht) by (by intros ->; apply elem_of_nil in Hplus).
  destruct (jstr_eqb _ _) eqn:E; cbn [negb]; [|done]. intros _. apply jstr_eqb_eq in E.
  split; [by apply spaced_plus|done].
Qed.
End urls.
