(* ===== verification/DeployAnalyzer.v ===== *)
(** * The pre-deploy analyzer ([packages/core/diagnostics/deploy-analyzer.ts])

    The lexer that counts braces, the check of hosts against the mandatory blocks, the
    collection of source files, the scans for secrets and URLs, the digest, and the
    report on a failed health check.  The regular expressions are those of the source,
    run by [JsRegex].  [relative] of the path library, [localeCompare] and the host
    name that [new URL] finds are parameters; reading a directory may fail. *)

From S2P Require Import Prelude JsString JsMap JsNumber JsValue Errors Utf8 TextDecoder JsRegex Packager Snapshot.
From Stdlib Require Import QArith.

Open Scope Z_scope.
Open Scope railfog_scope.

(** ** The lexer *)

Inductive LexerState := Code | SingleComment | MultiComment | SingleQuote | DoubleQuote | Template.
Record Lexer := { lx_state : LexerState; templateStack : list Z; openBraces : Z }.
Definition in_state (st : LexerState) (lx : Lexer) : Lexer :=
  {| lx_state := st; templateStack := templateStack lx; openBraces := openBraces lx |}.

Definition SQUOTE : Z := 39.
Definition DQUOTE : Z := 34.
Definition BACKTICK : Z := 96.
Definition BACKSLASH : Z := 92.
Definition next_is (next : option Z) (c : Z) : bool := match next with Some d => d =? c | None => false end.

(** One turn of the loop at [c]: the new state, and whether the next character is
    passed over ([i++]) *)
Definition lex_step (lx : Lexer) (c : Z) (next : option Z) : Lexer * bool :=
  match lx_state lx with
  | Code =>
      if (c =? chr "/") && next_is next (chr "/") then (in_state SingleComment lx, true)
      else if (c =? chr "/") && next_is next (chr "*") then (in_state MultiComment lx, true)
      else if c =? SQUOTE then (in_state SingleQuote lx, false)
      else if c =? DQUOTE then (in_state DoubleQuote lx, false)
      else if c =? BACKTICK then (in_state Template lx, false)
      else if c =? chr "{" then
        ({| lx_state := Code; templateStack := templateStack lx; openBraces := openBraces lx + 1 |}, false)
      else if c =? chr "}" then
        let open := openBraces lx - 1 in
        (match templateStack lx with
         | top :: stack =>
             if open =? top then {| lx_state := Template; templateStack := stack; openBraces := open |}
             else {| lx_state := Code; templateStack := templateStack lx; openBraces := open |}
         | [] => {| lx_state := Code; templateStack := []; openBraces := open |}
         end, false)
      else (lx, false)
  | SingleComment => ((if (c =? 10) || (c =? 13) then in_state Code lx else lx), false)
  | MultiComment => if (c =? chr "*") && next_is next (chr "/") then (in_state Code lx, true) else (lx, false)
  | SingleQuote => if c =? BACKSLASH then (lx, true) else ((if c =? SQUOTE then in_state Code lx else lx), false)
  | DoubleQuote => if c =? BACKSLASH then (lx, true) else ((if c =? DQUOTE then in_state Code lx else lx), false)
  | Template =>
      if c =? BACKSLASH then (lx, true)
      else if c =? BACKTICK then (in_state Code lx, false)
      else if (c =? chr "$") && next_is next (chr "{") then
        ({| lx_state := Code; templateStack := openBraces lx :: templateStack lx; openBraces := openBraces lx + 1 |}, true)
      else (lx, false)
  end.

Fixpoint scan (lx : Lexer) (code : jstr) : Lexer :=
  match code with
  | [] => lx
  | c :: t =>
      let '(lx, skip) := lex_step lx c (head t) in
      match skip, t with
      | true, _ :: t' => scan lx t'
      | true, [] => lx
      | false, t => scan lx t
      end
  end.

Definition countUnbalancedCurlyBraces (code : jstr) : Z :=
  openBraces (scan {| lx_state := Code; templateStack := []; openBraces := 0 |} code).

(** ** Hosts that are always blocked *)

Definition hex_digits_value (ds : jstr) : Z :=
  fold_left (λ acc c, acc * 16 + (if is_digit c then c - 48 else if is_upper c then c - 55 else c - 87)) ds 0.
Definition is_hex_digit (c : Z) : bool := is_digit c || ((65 <=? c) && (c <=? 70)) || ((97 <=? c) && (c <=? 102)).
Fixpoint hex_prefix (s : jstr) : jstr :=
  match s with c :: s => if is_hex_digit c then c :: hex_prefix s else [] | [] => [] end.
(** [parseInt(s, 16)]; [None] is NaN. *)
Definition parse_int16 (s : jstr) : option Z :=
  let s := trim_start s in
  let '(sign, s) := match s with
    | c :: s' => if c =? chr "-" then (-1, s') else if c =? chr "+" then (1, s') else (1, s)
    | [] => (1, [])
    end in
  let s := if starts_with s (js "0x") || starts_with s (js "0X") then drop 2 s else s in
  match hex_prefix s with [] => None | ds => Some (sign * hex_digits_value ds) end.

Definition RDigits : regex := RPlus (RChar is_digit).
(** [/^\d+\.\d+\.\d+\.\d+$/] *)
Definition DOTTED_REGEX : regex :=
  RSeq RStart (RSeq RDigits (RSeq (RText false (js ".")) (RSeq RDigits (RSeq (RText false (js "."))
    (RSeq RDigits (RSeq (RText false (js ".")) (RSeq RDigits REnd))))))).

Definition tryConvertIpv4Mapped (host : jstr) : option jstr :=
  if negb (starts_with host (js "::ffff:")) then None
  else
    let rest := drop 7 host in
    if regex_test DOTTED_REGEX rest then Some rest
    else match split_on (chr ":") rest with
      | [h1; h2] =>
          match parse_int16 h1, parse_int16 h2 with
          | Some w1, Some w2 =>
              if (0 <=? w1) && (w1 <=? 0xffff) && (0 <=? w2) && (w2 <=? 0xffff) then
                let b1 := Z.land (Z.shiftr w1 8) 0xff in
                let b2 := Z.land w1 0xff in
                let b3 := Z.land (Z.shiftr w2 8) 0xff in
                let b4 := Z.land w2 0xff in
                Some (str_join (js ".") (string_of_nat <$> [b1; b2; b3; b4]))
              else None
          | _, _ => None
          end
      | _ => None
      end.

(** [s.replace(/^\[|\]$/g, "")] *)
Definition strip_brackets (s : jstr) : jstr :=
  let s := if starts_with s (js "[") then drop 1 s else s in
  if ends_with s (js "]") then take (length s - 1) s else s.

(** [host.match(/^172\.(\d+)\./)] and its first group, for any first octet *)
Definition second_octet (first host : jstr) : option jstr :=
  match exec (RSeq RStart (RSeq (RText false (first ++ js ".")) (RSeq (RGroup 1 RDigits) (RText false (js "."))))) None host with
  | Some (_, e) => Some (group_text 1 e)
  | None => None
  end.
Definition octet_within (lo hi : Z) (octet : option jstr) : bool :=
  match octet with
  | Some ds => match parse_int10 ds with Some n => (lo <=? n) && (n <=? hi) | None => false end
  | None => false
  end.

(** The reason, if the host is blocked *)
Definition checkSsrfBlock (rawHost : jstr) : option jstr :=
  let host := to_lower (strip_brackets rawHost) in
  let host := match tryConvertIpv4Mapped host with Some ((_ :: _) as ipv4Mapped) => ipv4Mapped | _ => host end in
  if jstr_eqb host (js "localhost") || jstr_eqb host (js "127.0.0.1") || jstr_eqb host (js "0.0.0.0") ||
     starts_with host (js "127.") || starts_with host (js "0.") || jstr_eqb host (js "::1") || jstr_eqb host (js "::")
  then Some (js "loopback address (127.0.0.0/8, ::1)")
  else if starts_with host (js "169.254.") || starts_with host (js "fd00:ec2") || starts_with host (js "fd00:") ||
          starts_with host (js "fe80:")
  then Some (js "cloud metadata / link-local address (169.254.0.0/16, fd00:ec2::/8)")
  else if starts_with host (js "10.") then Some (js "RFC1918 private range (10.0.0.0/8)")
  else if starts_with host (js "192.168.") then Some (js "RFC1918 private range (192.168.0.0/16)")
  else if octet_within 16 31 (second_octet (js "172") host) then Some (js "RFC1918 private range (172.16.0.0/12)")
  else if octet_within 64 127 (second_octet (js "100") host) then
    Some (js "RFC6598 Carrier-Grade NAT / internal VPC (100.64.0.0/10)")
  else if starts_with host (js "fc") || starts_with host (js "fd") then Some (js "RFC4193 Unique Local Address (fc00::/7)")
  else if ends_with host (js ".internal") || ends_with host (js ".local") || includes host (js "railfog.internal")
  then Some (js "internal service address")
  else None.

(** ** The source files *)

(** What a directory holds; reading one, or a file, may fail. *)
Inductive entry :=
| EFile (bytes : result exn (list Z))
| EDir (items : option (list (jstr * entry)))
| EOther.

Record SourceFileEntry := { sf_relPath : jstr; sf_bytes : list Z }.

(** [/\.(ts|js|mjs|cjs|jsx|tsx)$/i] *)
Definition CODE_FILE_REGEX : regex :=
  RSeq (RText true (js "."))
    (RSeq (RGroup 1 (RAlt (RText true (js "ts")) (RAlt (RText true (js "js")) (RAlt (RText true (js "mjs"))
      (RAlt (RText true (js "cjs")) (RAlt (RText true (js "jsx")) (RText true (js "tsx")))))))) REnd).

Definition excluded (name : jstr) : bool :=
  existsb (jstr_eqb name)
    [js ".git"; js "node_modules"; js ".railfog"; js "dist"; js "build"; js "coverage"].
Definition ambient_file (name : jstr) : bool :=
  starts_with name (js ".") || ends_with name (js ".key") || ends_with name (js ".pem").

(** [xs.sort(...)] by a comparison whose result is not positive for [le]; the sort
    is stable. *)
Fixpoint insert_by {A} (le : A → A → bool) (x : A) (l : list A) : list A :=
  match l with
  | [] => [x]
  | y :: l' => if le x y then x :: l else y :: insert_by le x l'
  end.
Definition sort_by {A} (le : A → A → bool) (l : list A) : list A := foldr (insert_by le) [] l.

Section files.
Context (relative : list jstr → jstr) (locale_le : jstr → jstr → bool).

(** The files below an entry at [path], the names from the root of the project *)
Fixpoint collectSourceFiles (path : list jstr) (e : entry) : result exn (list SourceFileEntry) :=
  match e with
  | EDir None => Ok []
  | EDir (Some items) =>
      (λ found, concat found) <$>
      map_result snd (sort_by (λ a b, locale_le a.1 b.1)
        (List.map (λ '(name, item), (name, if excluded name then Ok [] else collectSourceFiles (path ++ [name]) item)) items))
  | EFile bytes =>
      let name := default [] (last path) in
      if ambient_file name then Ok []
      else if regex_test CODE_FILE_REGEX name then
        bytes ≫= λ bytes, Ok [{| sf_relPath := replace_all (relative path) [BACKSLASH] (js "/"); sf_bytes := bytes |}]
      else Ok []
  | EOther => Ok []
  end.
End files.

(** ** The manifest's permissions *)

Definition strings_of (v : jsval) : list jstr := match v with JArr xs => omap as_str xs | _ => [] end.
Definition table_keys (v : jsval) : list jstr :=
  match v with
  | JObj es => fst <$> es
  | JArr xs => (λ i, string_of_nat (Z.of_nat i)) <$> seq 0 (length xs)
  | _ => []
  end.
(** [Object.values(v)] *)
Definition object_values (v : jsval) : list jsval :=
  match v with JObj es => snd <$> es | JArr xs => xs | _ => [] end.
Definition declared_permissions (name : jstr) (v : jsval) : list jstr :=
  let perms := prop v (js "permissions") in if is_object perms then strings_of (prop perms name) else [].
Definition capability_secret (cap : jstr) : option jstr :=
  let lower := trim (to_lower cap) in
  if starts_with lower (js "env:") || starts_with lower (js "secret:") || starts_with lower (js "secrets:") then
    match trim (match index_of cap (js ":") with Some i => drop (i + 1) cap | None => cap end) with [] => None | sec => Some sec end
  else None.
Definition function_objects (m : jsval) : list jsval :=
  let functions := prop m (js "functions") in
  filter (λ fn, is_object fn = true) (if is_object functions then object_values functions else []).

Definition declaredSecrets (m : jsval) : list jstr :=
  if is_object m then
    declared_permissions (js "secrets") m ++ table_keys (prop m (js "env")) ++ strings_of (prop m (js "secrets")) ++
    flat_map (λ fn, declared_permissions (js "secrets") fn ++ table_keys (prop fn (js "env")) ++
                    strings_of (prop fn (js "secrets")) ++ omap capability_secret (strings_of (prop fn (js "capabilities"))))
      (function_objects m)
  else [].
Definition declaredNetwork (m : jsval) : list jstr :=
  if is_object m then
    declared_permissions (js "network") m ++ flat_map (declared_permissions (js "network")) (function_objects m)
  else [].

(** ** The scans *)

Definition RSpaces : regex := RStar (RChar is_space).
Definition RDot : regex := RAlt (RText false (js "?.")) (RText false (js ".")).
Definition QUOTES : jstr := [DQUOTE; SQUOTE; BACKTICK].
Definition SECRET_NAME : regex :=
  RSeq (RGroup 1 (RChar (one_of QUOTES))) (RSeq (RGroup 2 (RPlus (RChar is_word)))
    (RSeq (RBackref 1) (RSeq RSpaces (RText false (js ")"))))).
Definition SECRET_OBJECT : regex :=
  RSeq (ROpt (RSeq RBoundary (RSeq (RAlt (RText false (js "ctx")) (RAlt (RText false (js "Deno")) (RText false (js "c"))))
    (RSeq RSpaces (RSeq RDot RSpaces)))))
  (RSeq RBoundary (RSeq (RAlt (RText false (js "env")) (RText false (js "secrets")))
    (RSeq RSpaces (RSeq RDot (RSeq RSpaces (RSeq (RAlt (RText false (js "get")) (RText false (js "require")))
      (RSeq RSpaces (RSeq (RText false (js "(")) RSpaces)))))))).
(** An optional [ctx.], [Deno.] or [c.], then [env] or [secrets], [.get] or [.require] and a
    name in quotes: the object and the method, then the name *)
Definition SECRET_ACCESS_REGEX : regex := RSeq SECRET_OBJECT SECRET_NAME.
(** [/https?:\/\/[^\s...<>]+/gi] *)
Definition url_char (c : Z) : bool := negb (is_space c || one_of (QUOTES ++ js "<>") c).
Definition URL_SCAN_REGEX : regex :=
  RSeq (RText true (js "http")) (RSeq (ROpt (RText true (js "s"))) (RSeq (RText true (js "://")) (RPlus (RChar url_char)))).
(** [/\bexport\s+default\b/] *)
Definition EXPORT_DEFAULT_REGEX : regex :=
  RSeq RBoundary (RSeq (RText false (js "export")) (RSeq (RPlus (RChar is_space)) (RSeq (RText false (js "default")) RBoundary))).

Inductive Category := CSecrets | CNetwork | CPermissions.
Inductive Severity := SError | SWarning.
Record DiagnosticIssue := { di_category : Category; di_severity : Severity; di_message : jstr; di_sourceFile : jstr }.

(** The issues and the keys of those that are reported once *)
Record Findings := { issues : list DiagnosticIssue; seenIssues : list jstr }.
Definition push_issue (i : DiagnosticIssue) (f : Findings) : Findings :=
  {| issues := issues f ++ [i]; seenIssues := seenIssues f |}.
Definition push_once (key : jstr) (i : DiagnosticIssue) (f : Findings) : Findings :=
  if existsb (jstr_eqb key) (seenIssues f) then f
  else {| issues := issues f ++ [i]; seenIssues := key :: seenIssues f |}.

Definition syntax_checks (relPath content : jstr) (f : Findings) : Findings :=
  if regex_test CODE_FILE_REGEX relPath then
    let open := countUnbalancedCurlyBraces content in
    let f := if open =? 0 then f else
      push_issue {| di_category := CPermissions; di_severity := SError;
        di_message := js "Syntax Error: Unbalanced curly braces detected (unclosed: " ++
          (if open <? 0 then js "-" ++ string_of_nat (- open) else string_of_nat open) ++
          js "). Ensure all functions and blocks in '" ++ relPath ++ js "' are properly closed.";
        di_sourceFile := relPath |} f in
    if regex_test EXPORT_DEFAULT_REGEX content then f else
      push_issue {| di_category := CPermissions; di_severity := SError;
        di_message := js "Function module '" ++ relPath ++ js "' must export a default handler function (FN-1).";
        di_sourceFile := relPath |} f
  else f.

(** The name that an access reads *)
Definition secret_name (m : spot * spot) : jstr := group_text 2 m.2.

Definition audit_secret (declared : list jstr) (relPath : jstr) (f : Findings) (m : spot * spot) : Findings :=
  let secretName := secret_name m in
  if existsb (jstr_eqb secretName) declared then f
  else push_once (js "secrets:error:" ++ secretName ++ js ":" ++ relPath)
    {| di_category := CSecrets; di_severity := SError;
       di_message := js "Undeclared secret access: '" ++ secretName ++
         js "' is accessed via env.get/require but not declared in permissions.secrets (PLAT-6, PLAT-15)";
       di_sourceFile := relPath |} f.

(** [s.replace(/[...]+$/, "")] *)
Fixpoint drop_class (p : Z → bool) (s : jstr) : jstr :=
  match s with c :: s' => if p c then drop_class p s' else s | [] => [] end.
Definition strip_end (p : Z → bool) (s : jstr) : jstr := rev (drop_class p (rev s)).
Fixpoint take_until (p : Z → bool) (s : jstr) : jstr :=
  match s with c :: s => if p c then [] else c :: take_until p s | [] => [] end.

Definition scheme_char (c : Z) : bool := is_digit c || is_upper c || is_lower c || one_of (js "+.-") c.
Definition SCHEME_REGEX : regex := RSeq RStart (RSeq (RPlus (RChar scheme_char)) (RText true (js "://"))).
(** [clean.slice(clean.lastIndexOf("@") + 1)] *)
Fixpoint after_last (c : Z) (s : jstr) : jstr :=
  match s with
  | [] => []
  | d :: t => if existsb (Z.eqb c) t then after_last c t else if d =? c then t else s
  end.
Definition fallback_host (rawUrl : jstr) : jstr :=
  let clean := match exec SCHEME_REGEX None rawUrl with Some (_, e) => rest e | None => rawUrl end in
  let clean := take_until (one_of (js "/?#")) clean in
  let clean := after_last (chr "@") clean in
  if starts_with clean (js "[") && includes clean (js "]") then take_until (Z.eqb (chr "]")) (drop 1 clean)
  else take_until (Z.eqb (chr ":")) clean.

Definition audit_host (declared : list jstr) (relPath rawHost : jstr) (f : Findings) : Findings :=
  let cleanHost := strip_brackets rawHost in
  match checkSsrfBlock rawHost with
  | Some reason =>
      push_once (js "network:error:" ++ cleanHost ++ js ":" ++ relPath)
        {| di_category := CNetwork; di_severity := SError;
           di_message := js "Mandatory SSRF blocked address: '" ++ cleanHost ++ js "' (" ++ reason ++
             js ") is forbidden by network security policy (PLAT-5)";
           di_sourceFile := relPath |} f
  | None =>
      if existsb (λ d, jstr_eqb d (js "*") || jstr_eqb d cleanHost || jstr_eqb d rawHost) declared then f
      else push_once (js "network:warning:" ++ cleanHost ++ js ":" ++ relPath)
        {| di_category := CNetwork; di_severity := SWarning;
           di_message := js "Outbound network host '" ++ cleanHost ++
             js "' is accessed but not declared in permissions.network (PLAT-5)";
           di_sourceFile := relPath |} f
  end.

Record PreDeployReport := { passed : bool; report_issues : list DiagnosticIssue; sha256Hex : jstr; integrity : jstr }.

Section analysis.
Context `{Hashing} (relative : list jstr → jstr) (locale_le : jstr → jstr → bool) (hostname : jstr → result exn jstr).

Definition url_host (m : spot * spot) : jstr :=
  let rawUrl := strip_end (one_of (js "),;.")) (between m.1 m.2) in
  match hostname rawUrl with Ok rawHost => rawHost | Err _ => fallback_host rawUrl end.

Definition audit_url (declared : list jstr) (relPath : jstr) (f : Findings) (m : spot * spot) : Findings :=
  match url_host m with [] => f | rawHost => audit_host declared relPath rawHost f end.

Definition audit_file (manifest : jsval) (f : Findings) (file : SourceFileEntry) : Findings :=
  let content := text_decode (sf_bytes file) in
  let f := syntax_checks (sf_relPath file) content f in
  let f := fold_left (audit_secret (declaredSecrets manifest) (sf_relPath file)) (exec_all SECRET_ACCESS_REGEX content) f in
  fold_left (audit_url (declaredNetwork manifest) (sf_relPath file)) (exec_all URL_SCAN_REGEX content) f.

Definition combinedBytes (files : list SourceFileEntry) : list Z :=
  flat_map (λ file, text_encode (sf_relPath file ++ [10]) ++ sf_bytes file) files.

(** The files of the project, in the order of their paths *)
Definition project_files (sourceDir : entry) : result exn (list SourceFileEntry) :=
  sort_by (λ a b, locale_le (sf_relPath a) (sf_relPath b)) <$> collectSourceFiles relative locale_le [] sourceDir.

Definition analyzeSource (sourceDir : entry) (manifest : jsval) : result exn PreDeployReport :=
  project_files sourceDir ≫= λ files,
  let f := fold_left (audit_file manifest) files {| issues := []; seenIssues := [] |} in
  let bytes := combinedBytes files in
  let data := {| buffer := bytes; byteOffset := 0; byteLength := length bytes |} in
  Ok {| passed := forallb (λ i, match di_severity i with SError => false | SWarning => true end) (issues f);
        report_issues := issues f; sha256Hex := computeArtifactId data; integrity := computeIntegrity data |}.
End analysis.

(** ** Failed health checks *)

Record HealthCheckAttempt := { at_status : Z; at_durationMs : jsnum; at_error : option jstr }.
Record HealthCheckDiagnosticReport := {
  healthy : bool; attemptsCount : nat; totalDurationMs : jsnum; failureReason : option jstr; diagnosticAdvice : list jstr
}.

Definition num_add (x y : jsnum) : jsnum :=
  match x, y with
  | Fin a, Fin b => Fin (fadd a b)
  | NaN, _ | _, NaN => NaN
  | Inf s, Inf t => if Bool.eqb s t then Inf s else NaN
  | Inf s, Fin _ | Fin _, Inf s => Inf s
  end.

Definition mentions_text (text : jstr) (a : HealthCheckAttempt) : bool :=
  match at_error a with Some e => includes (to_lower e) text | None => false end.

Definition formatHealthFailure (attempts : list HealthCheckAttempt) : HealthCheckDiagnosticReport :=
  let total := fold_left (λ sum a, num_add sum (match at_durationMs a with NaN => Fin 0 | d => d end)) attempts (Fin 0) in
  if (3 <=? length attempts)%nat && forallb (λ a, at_status a =? 200) attempts then
    {| healthy := true; attemptsCount := length attempts; totalDurationMs := total; failureReason := None; diagnosticAdvice := [] |}
  else
    let hasTimeout := existsb (λ a, (at_status a =? 504) || num_geb (at_durationMs a) 5000 || mentions_text (js "timeout") a) attempts in
    let has500 := existsb (λ a, (at_status a =? 500) || mentions_text (js "internal server error") a) attempts in
    let '(reason, advice) :=
      if hasTimeout then
        (js "Health check probe timed out (HTTP 504 or probe latency exceeded limit per PLAT-3, FN-5)",
         [js "Check function limits.timeout_ms in railfog.toml (default: 30000ms per FN-5).";
          js "Verify cold start initialization duration does not exceed the probe deadline.";
          js "Inspect runtime logs using 'rail logs' to identify blocking startup operations."])
      else if has500 then
        (js "Health check failed with HTTP 500 Internal Server Error (PLAT-3)",
         [js "Inspect runtime logs using 'rail logs' to identify unhandled exceptions or crash traces.";
          js "Verify environment variables and secrets using 'rail secrets' (PLAT-15)."])
      else
        (match last attempts with
         | Some a => js "Health check probe failed with status " ++ string_of_nat (at_status a) ++
             match at_error a with Some ((_ :: _) as e) => js ": " ++ e | _ => [] end ++ js " (PLAT-3)"
         | None => js "Health check probe failed: no probe attempts recorded (PLAT-3)"
         end,
         [js "Inspect runtime logs using 'rail logs' to diagnose function startup failures."]) in
    {| healthy := false; attemptsCount := length attempts; totalDurationMs := total; failureReason := Some reason;
       diagnosticAdvice := advice |}.
