(* ===== verification/AnalyzerSafety.v ===== *)
(** * What the pre-deploy analyzer guarantees

    [analyzer_gate]: the report passes exactly if every file is balanced and has a
    default export, every secret that is accessed is declared, and no URL that is
    found leads to a blocked host.  [braces_counted]: the lexer counts the braces of
    code and of nothing else.  [ssrf_dotted]: which IPv4 addresses the check blocks. *)

From S2P Require Import Prelude JsString JsMap JsNumber JsValue Errors Utf8 TextDecoder JsRegex Packager IpBlocker DeployAnalyzer.

Open Scope Z_scope.
Open Scope railfog_scope.

(** ** What expressions consume *)

(** Every character that a match of [r] consumes satisfies [P], and [r] has no groups. *)
Fixpoint only (P : Z → Prop) (r : regex) : Prop :=
  match r with
  | RChar p => ∀ c, p c = true → P c
  | RSeq r1 r2 | RAlt r1 r2 => only P r1 ∧ only P r2
  | RStar r => only P r
  | RGroup _ _ | RBackref _ => False
  | REmpty | RBoundary | RStart | REnd => True
  end.

Lemma only_span P r s s' : matches r s s' → only P r →
  (∃ w, rest s = w ++ rest s' ∧ Forall P w) ∧ captured s' = captured s.
Proof.
  induction 1 as [p s c t E Ep|s|r1 r2 s s1 s2 _ IH1 _ IH2|r1 r2 s s' _ IH|r1 r2 s s' _ IH|r s|r s s1 s2 _ IH1 Hlt _ IH2|n r s s' _ IH
                 |n s E|s E|s E|s E]; cbn [only]; intros Ho; try (split; [by exists []|done]); try done.
  - split; [|done]. exists [c]. cbn [advance rest]. rewrite E. cbn. rewrite drop_0. auto.
  - destruct Ho as [O1 O2]. destruct (IH1 O1) as [(w1 & E1 & F1) C1], (IH2 O2) as [(w2 & E2 & F2) C2].
    split; [|congruence]. exists (w1 ++ w2). split; [by rewrite E1, E2, app_assoc|by apply Forall_app].
  - destruct Ho as [Ho _]. auto.
  - destruct Ho as [_ Ho]. auto.
  - destruct (IH1 Ho) as [(w1 & E1 & F1) C1], (IH2 Ho) as [(w2 & E2 & F2) C2].
    split; [|congruence]. exists (w1 ++ w2). split; [by rewrite E1, E2, app_assoc|by apply Forall_app].
Qed.

Lemma only_text P i s : (∀ c d, c ∈ s → same_char i c d = true → P d) → only P (RText i s).
Proof.
  induction s as [|c s IH]; intros Hs; [done|]. split; [|apply IH; set_solver].
  intros d Hd. eapply Hs; [by left|done].
Qed.

Lemma matches_text s e e' : matches (RText false s) e e' → rest e = s ++ rest e' ∧ captured e' = captured e.
Proof.
  revert e. induction s as [|c s IH]; intros e H; cbn [RText foldr] in H.
  - by inversion H; subst.
  - inversion H as [| |r1 r2 a b d H1 H2| | | | | | | | |]; subst. inversion H1 as [p a c' t E Ep| | | | | | | | | | |]; subst.
    apply Z.eqb_eq in Ep as <-. destruct (IH _ H2) as [E2 C2]. cbn [advance rest captured] in *.
    rewrite E in *. cbn [drop] in E2. rewrite drop_0 in E2. by rewrite E2.
Qed.

(** ** Accesses to secrets *)

Lemma group_text_hit n t s : group_text n (capture n t s) = t.
Proof. unfold group_text. cbn [capture captured List.find]. by rewrite Nat.eqb_refl. Qed.

Lemma one_of_In s c : one_of s c = true ↔ c ∈ s.
Proof. unfold one_of. rewrite existsb_true_iff. split; [intros (d & Hd & ->%Z.eqb_eq); done|intros H; exists c; by rewrite Z.eqb_refl]. Qed.

Lemma seq_inv r1 r2 s s' : matches (RSeq r1 r2) s s' → ∃ m, matches r1 s m ∧ matches r2 m s'.
Proof. inversion 1; eauto. Qed.
Lemma char_inv p s s' : matches (RChar p) s s' → ∃ c, rest s = c :: rest s' ∧ p c = true ∧ captured s' = captured s ∧ s' = advance 1 s.
Proof. inversion 1 as [p' s0 c t E Ep| | | | | | | | | | |]; subst. exists c. cbn [advance rest captured]. rewrite E. cbn. by rewrite drop_0. Qed.
Lemma group_inv n r s s' : matches (RGroup n r) s s' → ∃ m, matches r s m ∧ s' = capture n (between s m) m.
Proof. inversion 1; eauto. Qed.

Lemma only_object : only (λ c, c ≠ chr ")") SECRET_OBJECT.
Proof.
  assert (∀ s, chr ")" ∉ s → only (λ c, c ≠ chr ")") (RText false s)) as Ht.
  { intros s Hs. apply only_text. intros c d Hc ->%Z.eqb_eq. by intros ->. }
  assert (only (λ c, c ≠ chr ")") RSpaces) as Hsp by (intros c Hc ->; vm_compute in Hc; done).
  unfold SECRET_OBJECT, ROpt, RDot. cbn [only].
  repeat match goal with |- _ ∧ _ => split | |- True => exact I | |- only _ RSpaces => exact Hsp end;
    apply Ht; apply (bool_decide_unpack _); vm_compute; exact I.
Qed.

(** The shape of an access: up to the opening quote, the name between quotes, blanks
    and the closing parenthesis *)
Lemma access_shape s e : matches SECRET_ACCESS_REGEX s e →
  ∃ A q N W, rest s = A ++ q :: N ++ q :: W ++ chr ")" :: rest e ∧ chr ")" ∉ A ∧ q ∈ QUOTES ∧
    Forall (λ c, is_word c = true) N ∧ Forall (λ c, is_space c = true) W ∧ group_text 2 e = N.
Proof.
  intros (m & Hobj & Hname)%seq_inv. destruct (only_span _ _ _ _ Hobj only_object) as [(A & EA & FA) _].
  apply seq_inv in Hname as (m1 & H1 & Hname). apply seq_inv in Hname as (m2 & H2 & Hname).
  apply seq_inv in Hname as (m3 & H3 & Hname). apply seq_inv in Hname as (m4 & H4 & H5).
  apply group_inv in H1 as (m1' & H1 & ->). apply char_inv in H1 as (q & Eq & Hq & Cq & _).
  rewrite (between_span m m1' [q]) in * by done.
  apply group_inv in H2 as (m2' & H2 & ->).
  assert (only (λ c, is_word c = true) (RPlus (RChar is_word))) as Hw by (split; intros c Hc; exact Hc).
  destruct (only_span _ _ _ _ H2 Hw) as [(N & EN & FN) CN]. cbn [capture rest captured] in EN, CN.
  rewrite (between_span _ m2' N) in * by done.
  inversion H3 as [| | | | | | | |n m0 Eb| | |]; subst. cbn [capture rest captured group_text] in *.
  assert (group_text 1 (capture 2 N m2') = [q]) as Eg.
  { unfold group_text. cbn [capture captured List.find Nat.eqb fst]. rewrite CN. done. }
  rewrite Eg in *. apply starts_with_spec in Eb as [t Et].
  assert (only (λ c, is_space c = true) RSpaces) as Hsp by (intros c Hc; exact Hc).
  destruct (only_span _ _ _ _ H4 Hsp) as [(W & EW & FW) CW].
  apply matches_text in H5 as [E5 C5]. cbn [advance rest captured length] in EW, CW. cbn [capture rest] in *.
  rewrite Et in EW. cbn in EW. rewrite ?drop_0 in EW. subst t.
  exists A, q, N, W. split_and!; [|intros Hin; rewrite Forall_forall in FA; by apply FA in Hin
    |by apply one_of_In|done|done|].
  - rewrite EA, Eq, EN, Et, E5. done.
  - unfold group_text. rewrite C5, CW. cbn [capture captured List.find Nat.eqb fst]. done.
Qed.

Lemma split_suffix (P : Z → bool) (u u' : jstr) c c' w w' :
  u ++ c :: w = u' ++ c' :: w' → Forall (λ d, P d = true) w → Forall (λ d, P d = true) w' → P c = false → P c' = false →
  u = u' ∧ c = c' ∧ w = w'.
Proof.
  intros E Hw Hw' Hc Hc'. apply app_eq_inv in E as [([|d k] & E1 & E2)|([|d k] & E1 & E2)]; cbn in E2.
  - injection E2 as <- <-. by rewrite E1, app_nil_r.
  - injection E2 as <- ->. rewrite Forall_app, Forall_cons in Hw'. destruct Hw' as (_ & Hd & _). congruence.
  - injection E2 as <- <-. by rewrite E1, app_nil_r.
  - injection E2 as <- ->. rewrite Forall_app, Forall_cons in Hw. destruct Hw as (_ & Hd & _). congruence.
Qed.

(** Where a text has its first [)] behind two places, it is the same one. *)
Lemma same_close (pre pre' M M' t t' : jstr) c :
  pre ++ M ++ c :: t = pre' ++ M' ++ c :: t' → c ∉ M → c ∉ M' →
  (length pre <= length pre' + length M')%nat → (length pre' <= length pre + length M)%nat → pre ++ M = pre' ++ M' ∧ t = t'.
Proof.
  intros E HM HM' H1 H2. rewrite !app_assoc in E.
  apply app_eq_inv in E as [([|d k] & E1 & E2)|([|d k] & E1 & E2)]; cbn in E2.
  - injection E2 as ->. by rewrite E1, app_nil_r.
  - injection E2 as <- ->. exfalso. apply HM. apply app_eq_inv in E1 as [(k2 & F1 & F2)|(k2 & F1 & F2)].
    + destruct k2 as [|x k2]; [cbn in F2; rewrite <-F2; set_solver|].
      apply (f_equal length) in F1 as L. rewrite !length_app in L. cbn in L. lia.
    + rewrite F2. set_solver.
  - injection E2 as ->. by rewrite E1, app_nil_r.
  - injection E2 as <- ->. exfalso. apply HM'. apply app_eq_inv in E1 as [(k2 & F1 & F2)|(k2 & F1 & F2)].
    + destruct k2 as [|x k2]; [cbn in F2; rewrite <-F2; set_solver|].
      apply (f_equal length) in F1 as L. rewrite !length_app in L. cbn in L. lia.
    + rewrite F2. set_solver.
Qed.

(** Two accesses that overlap read the same name. *)
Lemma overlapping_accesses p q e pre post e' : p ++ q = pre ++ post →
  matches SECRET_ACCESS_REGEX (spot_at None p q) e → matches SECRET_ACCESS_REGEX (spot_at None pre post) e' →
  (length p <= length pre)%nat → (length (rest e) < length post)%nat → group_text 2 e = group_text 2 e'.
Proof.
  intros Heq (A & c & N & W & E & HA & Hc & HN & HW & ->)%access_shape (A' & c' & N' & W' & E' & HA' & Hc' & HN' & HW' & ->)%access_shape H1 H2.
  cbn [spot_at rest] in E, E'.
  assert (∀ q N W, q ∈ QUOTES → Forall (λ c, is_word c = true) N → Forall (λ c, is_space c = true) W → chr ")" ∉ q :: N ++ q :: W) as Hno.
  { intros q0 N0 W0 Hq Hn Hw. rewrite not_elem_of_cons, not_elem_of_app, not_elem_of_cons. rewrite Forall_forall in Hn, Hw.
    assert (chr ")" ≠ q0) by (intros <-; by apply one_of_In in Hq; vm_compute in Hq).
    split_and!; [done|intros Hx%Hn; by vm_compute in Hx|done|intros Hx%Hw; by vm_compute in Hx]. }
  pose proof (f_equal length Heq) as HL. rewrite !length_app in HL.
  assert (q = (A ++ c :: N ++ c :: W) ++ chr ")" :: rest e) as Hq by (rewrite E, <-!app_assoc; cbn [app]; by rewrite <-!app_assoc).
  rewrite E, E' in Heq. set (M := A ++ c :: N ++ c :: W) in *. set (M' := A' ++ c' :: N' ++ c' :: W').
  assert (p ++ M ++ chr ")" :: rest e = pre ++ M' ++ chr ")" :: rest e') as Heq2.
  { unfold M, M'. rewrite <-!app_assoc. cbn [app]. rewrite <-!app_assoc. cbn [app]. exact Heq. }
  destruct (same_close p pre M M' (rest e) (rest e') (chr ")")) as [Hx _]; try done.
  - unfold M. rewrite not_elem_of_app. auto.
  - unfold M'. rewrite not_elem_of_app. auto.
  - lia.
  - rewrite Hq, length_app in HL. cbn [length] in HL. lia.
  - assert ((p ++ A ++ c :: N) ++ c :: W = (pre ++ A' ++ c' :: N') ++ c' :: W') as Hy.
    { unfold M, M' in Hx. rewrite <-!app_assoc. cbn [app]. exact Hx. }
    assert (∀ q, q ∈ QUOTES → is_space q = false ∧ is_word q = false) as Hquote.
    { intros q0 Hq0. change QUOTES with [34; 39; 96] in Hq0.
      apply elem_of_cons in Hq0 as [->|[->|[->|[]%elem_of_nil]%elem_of_cons]%elem_of_cons]; done. }
    apply (split_suffix is_space) in Hy as (Hz & <- & _); [|done|done|by apply Hquote|by apply Hquote].
    rewrite !app_assoc in Hz. apply (split_suffix is_word) in Hz as (_ & _ & Hn); [done|done|done|by apply Hquote|by apply Hquote].
Qed.

(** The secrets that a text reads, and the names that the scan finds: every access,
    wherever it stands, is found. *)
Definition accesses (content name : jstr) : Prop :=
  ∃ pre post e, content = pre ++ post ∧ matches SECRET_ACCESS_REGEX (spot_at None pre post) e ∧ group_text 2 e = name.

Theorem scan_complete content name :
  accesses content name ↔ ∃ m, m ∈ exec_all SECRET_ACCESS_REGEX content ∧ secret_name m = name.
Proof.
  split.
  - intros (pre & post & e & Hc & He & <-).
    destruct (exec_all_covers SECRET_ACCESS_REGEX content pre post e eq_refl Hc He) as (p & q & s' & H1 & H2 & H3 & H4 & H5).
    exists (spot_at None p q, s'). split; [done|]. unfold secret_name. cbn [snd].
    apply (overlapping_accesses p q s' pre post e); [congruence|done..].
  - intros ([s s'] & Hin & <-). apply exec_loop_sound in Hin as (Hm & p & q & H1 & ->). by exists p, q, s'.
Qed.

(** ** The report *)

Definition is_error (i : DiagnosticIssue) : bool := match di_severity i with SError => true | SWarning => false end.
Definition clean (f : Findings) : Prop := Forall (λ i, is_error i = false) (issues f).

(** A key of an error that has been seen stands for an error in the list. *)
Definition error_key (k : jstr) : bool := starts_with k (js "secrets:error:") || starts_with k (js "network:error:").
Definition keys_ok (f : Findings) : Prop := ∀ k, k ∈ seenIssues f → error_key k = true → ¬ clean f.

Lemma push_issue_ok i f : keys_ok f → keys_ok (push_issue i f) ∧ (clean (push_issue i f) ↔ clean f ∧ is_error i = false).
Proof.
  intros Hk. assert (clean (push_issue i f) ↔ clean f ∧ is_error i = false) as Hc.
  { unfold clean, push_issue. cbn [issues]. by rewrite Forall_app, Forall_singleton. }
  split; [|done]. intros k Hin He [H _]%Hc. by apply (Hk k).
Qed.

Lemma push_once_ok key i f : error_key key = is_error i → keys_ok f →
  keys_ok (push_once key i f) ∧ (clean (push_once key i f) ↔ clean f ∧ is_error i = false).
Proof.
  intros He Hk. unfold push_once. destruct (existsb (jstr_eqb key) (seenIssues f)) eqn:E.
  - apply existsb_true_iff in E as (k & Hin & ->%jstr_eqb_eq). split; [done|].
    split; [|by intros [? _]]. intros Hc. split; [done|]. destruct (is_error i) eqn:Ei; [|done]. by destruct (Hk k Hin He).
  - assert (clean {| issues := issues f ++ [i]; seenIssues := key :: seenIssues f |} ↔ clean f ∧ is_error i = false) as Hc.
    { unfold clean. cbn [issues]. by rewrite Forall_app, Forall_singleton. }
    split; [|done]. intros k Hin Hek [Hcl Hi]%Hc. cbn [seenIssues] in Hin.
    apply elem_of_cons in Hin as [->|Hin]; [congruence|by apply (Hk k)].
Qed.

(** A step that reports an error exactly if [ok] does not hold *)
Definition reports (step : Findings → Findings) (ok : Prop) : Prop :=
  ∀ f, keys_ok f → keys_ok (step f) ∧ (clean (step f) ↔ clean f ∧ ok).

Lemma reports_fold {A} (step : A → Findings → Findings) (ok : A → Prop) xs :
  (∀ x, x ∈ xs → reports (step x) (ok x)) → reports (λ f, fold_left (λ f x, step x f) xs f) (∀ x, x ∈ xs → ok x).
Proof.
  induction xs as [|x xs IH]; intros Hs f Hf; cbn [fold_left].
  - split; [done|]. split; [|by intros [? _]]. intros Hc. split; [done|]. intros x Hx. by apply elem_of_nil in Hx.
  - destruct (Hs x ltac:(by left) f Hf) as [H1 H2]. destruct (IH (λ y Hy, Hs y ltac:(by right)) (step x f) H1) as [H3 H4].
    split; [done|]. rewrite H4, H2. split.
    + intros [[Hc Hx] Hxs]. split; [done|]. intros y [->|Hy]%elem_of_cons; auto.
    + intros [Hc Hall]. split_and!; [done|apply Hall; by left|]. intros y Hy. apply Hall. by right.
Qed.

Lemma reports_ext step step' ok ok' : (∀ f, step f = step' f) → (ok ↔ ok') → reports step ok → reports step' ok'.
Proof. intros Hs Ho H f Hf. rewrite <-Hs, <-Ho. by apply H. Qed.

Lemma reports_skip : reports (λ f, f) True.
Proof. intros f Hf. tauto. Qed.
Lemma reports_seq s1 s2 ok1 ok2 : reports s1 ok1 → reports s2 ok2 → reports (λ f, s2 (s1 f)) (ok1 ∧ ok2).
Proof. intros H1 H2 f Hf. destruct (H1 f Hf) as [K1 C1], (H2 _ K1) as [K2 C2]. split; [done|]. rewrite C2, C1. tauto. Qed.
Lemma reports_error i : is_error i = true → reports (push_issue i) False.
Proof. intros Hi f Hf. destruct (push_issue_ok i f Hf) as [H1 H2]. split; [done|]. rewrite H2, Hi. by split; intros [??]. Qed.
Lemma reports_if (b : bool) s1 s2 ok1 ok2 : (b = true → reports s1 ok1) → (b = false → reports s2 ok2) →
  reports (λ f, if b then s1 f else s2 f) (if b then ok1 else ok2).
Proof. destruct b; auto. Qed.

Definition syntax_ok (relPath content : jstr) : Prop :=
  regex_test CODE_FILE_REGEX relPath = true →
  countUnbalancedCurlyBraces content = 0 ∧ regex_test EXPORT_DEFAULT_REGEX content = true.

Lemma syntax_reports relPath content : reports (syntax_checks relPath content) (syntax_ok relPath content).
Proof.
  unfold syntax_checks, syntax_ok. destruct (regex_test CODE_FILE_REGEX relPath).
  - cbv zeta. eapply (reports_ext _ _ (countUnbalancedCurlyBraces content = 0 ∧ regex_test EXPORT_DEFAULT_REGEX content = true)); [reflexivity|tauto|].
    eapply (reports_seq _ (λ f, if regex_test EXPORT_DEFAULT_REGEX content then f else push_issue _ f)).
    + destruct (Z.eqb_spec (countUnbalancedCurlyBraces content) 0) as [E|E].
      * eapply reports_ext; [reflexivity| |apply reports_skip]. tauto.
      * eapply reports_ext; [reflexivity| |by apply reports_error]. tauto.
    + destruct (regex_test EXPORT_DEFAULT_REGEX content).
      * eapply reports_ext; [reflexivity| |apply reports_skip]. tauto.
      * eapply reports_ext; [reflexivity| |by apply reports_error]. by split.
  - eapply reports_ext; [reflexivity| |apply reports_skip]. by split.
Qed.

Lemma reports_once key i : error_key key = is_error i → reports (push_once key i) (is_error i = false).
Proof. intros Hk f. by apply push_once_ok. Qed.

Lemma mem_jstr s l : existsb (jstr_eqb s) l = true ↔ s ∈ l.
Proof. rewrite existsb_true_iff. split; [by intros (x & Hx & ->%jstr_eqb_eq)|intros H; exists s; by rewrite jstr_eqb_refl]. Qed.

Lemma secret_reports declared relPath m : reports (λ f, audit_secret declared relPath f m) (secret_name m ∈ declared).
Proof.
  unfold audit_secret. cbv zeta. destruct (existsb _ _) eqn:E.
  - eapply reports_ext; [reflexivity| |apply reports_skip]. apply mem_jstr in E. tauto.
  - eapply reports_ext; [reflexivity| |apply reports_once]; [|by vm_compute].
    split; [discriminate|]. intros Hin%mem_jstr. congruence.
Qed.

Lemma host_reports declared relPath h : reports (audit_host declared relPath h) (checkSsrfBlock h = None).
Proof.
  unfold audit_host. cbv zeta. destruct (checkSsrfBlock h) as [reason|].
  - eapply reports_ext; [reflexivity| |apply reports_once]; [|by vm_compute]. by split.
  - destruct (existsb _ _).
    + eapply reports_ext; [reflexivity| |apply reports_skip]. by split.
    + eapply reports_ext; [reflexivity| |apply reports_once]; [|by vm_compute]. by split.
Qed.

Section gate.
Context (hostname : jstr → result exn jstr).

(** What the analyzer asks of a file *)
Definition file_ok (manifest : jsval) (file : SourceFileEntry) : Prop :=
  let content := text_decode (sf_bytes file) in
  syntax_ok (sf_relPath file) content ∧
  (∀ name, accesses content name → name ∈ declaredSecrets manifest) ∧
  (∀ m, m ∈ exec_all URL_SCAN_REGEX content → url_host hostname m = [] ∨ checkSsrfBlock (url_host hostname m) = None).

Lemma file_reports manifest file : reports (λ f, audit_file hostname manifest f file) (file_ok manifest file).
Proof.
  unfold audit_file, file_ok. cbv zeta. set (content := text_decode (sf_bytes file)).
  assert (reports (λ f, fold_left (λ f m, audit_url hostname (declaredNetwork manifest) (sf_relPath file) f m) (exec_all URL_SCAN_REGEX content)
    (fold_left (λ f m, audit_secret (declaredSecrets manifest) (sf_relPath file) f m) (exec_all SECRET_ACCESS_REGEX content)
      (syntax_checks (sf_relPath file) content f)))
    ((syntax_ok (sf_relPath file) content ∧
      (∀ m, m ∈ exec_all SECRET_ACCESS_REGEX content → secret_name m ∈ declaredSecrets manifest)) ∧
     (∀ m, m ∈ exec_all URL_SCAN_REGEX content → url_host hostname m = [] ∨ checkSsrfBlock (url_host hostname m) = None))) as Hall.
  { apply (reports_seq (λ f, fold_left _ _ (syntax_checks _ _ f)) (λ f, fold_left _ _ f)); [apply (reports_seq _ (λ f, fold_left _ _ f)); [apply syntax_reports|]|].
    - apply (reports_fold (λ m f, audit_secret (declaredSecrets manifest) (sf_relPath file) f m)). intros m _. apply secret_reports.
    - apply (reports_fold (λ m f, audit_url hostname (declaredNetwork manifest) (sf_relPath file) f m)). intros m _.
      unfold audit_url. destruct (url_host hostname m) as [|c h].
      + eapply reports_ext; [reflexivity| |apply reports_skip]. tauto.
      + eapply reports_ext; [reflexivity| |apply host_reports]. split; [by right|by intros [?|?]]. }
  eapply reports_ext; [reflexivity| |exact Hall].
  assert ((∀ m, m ∈ exec_all SECRET_ACCESS_REGEX content → secret_name m ∈ declaredSecrets manifest) ↔
    (∀ name, accesses content name → name ∈ declaredSecrets manifest)) as Hsec; [|tauto]. clear Hall. split.
  - intros Hm name (m & Hin & <-)%scan_complete. by apply Hm.
  - intros Hn m Hin. apply Hn, scan_complete. by exists m.
Qed.
End gate.

(** The analyzer lets a project pass exactly if it should.  For every directory and
    manifest, the report passes if and only if each source file has balanced braces
    and a default export, reads no secret that the manifest does not declare,
    wherever in the text the access stands, and no URL that the scan finds in it
    leads to a blocked host. *)
Theorem analyzer_gate `{Hashing} relative locale_le hostname sourceDir manifest files report :
  project_files relative locale_le sourceDir = Ok files →
  analyzeSource relative locale_le hostname sourceDir manifest = Ok report →
  passed report = true ↔ ∀ file, file ∈ files → file_ok hostname manifest file.
Proof.
  unfold analyzeSource. intros ->. cbn [mbind result_bind]. intros [= <-]. cbn [passed].
  destruct (reports_fold (λ file f, audit_file hostname manifest f file) (file_ok hostname manifest) files
    (λ file _, file_reports hostname manifest file) {| issues := []; seenIssues := [] |}) as [_ Hc].
  { intros k Hk. by apply elem_of_nil in Hk. }
  transitivity (clean (fold_left (audit_file hostname manifest) files {| issues := []; seenIssues := [] |})).
  - unfold clean. rewrite Forall_forall, forallb_true_iff. unfold is_error.
    split; intros Hi i Hin; specialize (Hi i Hin); by destruct (di_severity i).
  - rewrite Hc. split; [by intros [_ ?]|]. intros H'. split; [by constructor|done].
Qed.

(** A project whose function reads a declared secret, and a manifest without it *)
#[local] Instance no_hashing : Hashing := {| sha256 _ := []; encodeHex _ := []; encodeBase64 _ := [] |}.
Definition demo_code : jstr := js "export default (c) => { return fetch('https://x.dev/' + c.env.get('TOKEN')); }".
Definition demo_dir : entry := EDir (Some [(js "dist", EOther); (js "main.ts", EFile (Ok (text_encode demo_code)))]).
Definition demo_manifest (secrets : list jsval) : jsval := JObj [(js "permissions", JObj [(js "secrets", JArr secrets)])].
Definition demo_report (secrets : list jsval) : result exn PreDeployReport :=
  analyzeSource (str_join (js "/")) str_leb (λ _, Ok (js "x.dev")) demo_dir (demo_manifest secrets).


Lemma demo_accesses : accesses demo_code (js "TOKEN").
Proof.
  apply scan_complete. assert (secret_name <$> exec_all SECRET_ACCESS_REGEX demo_code = [js "TOKEN"]) as E by (vm_compute; reflexivity).
  assert (js "TOKEN" ∈ secret_name <$> exec_all SECRET_ACCESS_REGEX demo_code) as Hin by (rewrite E; by left).
  apply list_elem_of_fmap in Hin as (m & -> & Hm). by exists m.
Qed.

Definition demo_file : SourceFileEntry := {| sf_relPath := js "main.ts"; sf_bytes := text_encode demo_code |}.
Lemma demo_files : project_files (str_join (js "/")) str_leb demo_dir = Ok [demo_file].
Proof. vm_compute. reflexivity. Qed.
Lemma demo_decoded : text_decode (sf_bytes demo_file) = demo_code.
Proof. vm_compute. reflexivity. Qed.

Theorem analyzer_gate_witness :
  passed <$> demo_report [JStr (js "TOKEN")] = Ok true ∧ (∀ report, demo_report [] = Ok report → passed report = false).
Proof.
  split; [vm_compute; reflexivity|]. unfold demo_report. intros report E.
  pose proof (analyzer_gate _ _ _ _ _ _ report demo_files E) as [Hp _].
  destruct (passed report); [|reflexivity]. exfalso.
  destruct (Hp eq_refl demo_file (proj2 (list_elem_of_singleton _ _) eq_refl)) as (_ & Hs & _).
  rewrite demo_decoded in Hs. assert (declaredSecrets (demo_manifest []) = []) as Hd by (vm_compute; reflexivity).
  rewrite Hd in Hs. exact (proj1 (elem_of_nil _) (Hs _ demo_accesses)).
Defined.

(** ** The lexer *)

(** Code as the lexer should read it: characters, blocks, comments, quoted strings,
    and templates with code in them *)
Inductive code :=
| CEnd
| CChar (c : Z) (k : code)
| CSlash (c : Z) (k : code)
| CBlock (body k : code)
| CLine (text : jstr) (newline : Z) (k : code)
| CComment (text : jstr) (k : code)
| CQuoted (quote : Z) (text : list (bool * Z)) (k : code)
| CTemplate (parts : template) (k : code)
with template :=
| TEnd
| TChar (escaped : bool) (c : Z) (t : template)
| TSub (body : code) (t : template).

Definition quoted_text (text : list (bool * Z)) : jstr :=
  flat_map (λ e : bool * Z, if e.1 then [BACKSLASH; e.2] else [e.2]) text.

Fixpoint print (p : code) : jstr :=
  match p with
  | CEnd => []
  | CChar c k => c :: print k
  | CSlash c k => chr "/" :: c :: print k
  | CBlock body k => chr "{" :: print body ++ chr "}" :: print k
  | CLine text newline k => js "//" ++ text ++ newline :: print k
  | CComment text k => js "/*" ++ text ++ js "*/" ++ print k
  | CQuoted quote text k => quote :: quoted_text text ++ quote :: print k
  | CTemplate parts k => BACKTICK :: print_template parts ++ BACKTICK :: print k
  end
with print_template (t : template) : jstr :=
  match t with
  | TEnd => []
  | TChar escaped c t => (if escaped then [BACKSLASH; c] else [c]) ++ print_template t
  | TSub body t => js "${" ++ print body ++ chr "}" :: print_template t
  end.

(** Plain characters are none of those that the lexer knows; a slash stands before one. *)
Definition plain (c : Z) : Prop := c ∉ [SQUOTE; DQUOTE; BACKTICK; chr "{"; chr "}"; chr "/"].
Fixpoint code_ok (p : code) : Prop :=
  match p with
  | CEnd => True
  | CChar c k => plain c ∧ code_ok k
  | CSlash c k => plain c ∧ c ≠ chr "*" ∧ code_ok k
  | CBlock body k => code_ok body ∧ code_ok k
  | CLine text newline k => 10 ∉ text ∧ 13 ∉ text ∧ (newline = 10 ∨ newline = 13) ∧ code_ok k
  | CComment text k => includes (text ++ js "*") (js "*/") = false ∧ code_ok k
  | CQuoted quote text k =>
      (quote = SQUOTE ∨ quote = DQUOTE) ∧ Forall (λ e, e.1 = true ∨ e.2 ≠ quote ∧ e.2 ≠ BACKSLASH) text ∧ code_ok k
  | CTemplate parts k => template_ok parts ∧ code_ok k
  end
with template_ok (t : template) : Prop :=
  match t with
  | TEnd => True
  | TChar escaped c t =>
      (escaped = true ∨ (c ≠ BACKTICK ∧ c ≠ BACKSLASH ∧ (c = chr "$" → head (print_template t) ≠ Some (chr "{")))) ∧ template_ok t
  | TSub body t => code_ok body ∧ template_ok t
  end.

Definition at_code (stack : list Z) (n : Z) : Lexer := {| lx_state := Code; templateStack := stack; openBraces := n |}.
Definition inside (st : LexerState) (stack : list Z) (n : Z) : Lexer := {| lx_state := st; templateStack := stack; openBraces := n |}.

Lemma scan_step lx c t :
  scan lx (c :: t) = let '(lx, skip) := lex_step lx c (head t) in
    match skip, t with true, _ :: t' => scan lx t' | true, [] => lx | false, t => scan lx t end.
Proof. done. Qed.

Lemma scan_plain stack n c t : plain c → scan (at_code stack n) (c :: t) = scan (at_code stack n) t.
Proof.
  unfold plain. rewrite !not_elem_of_cons. intros (H1 & H2 & H3 & H4 & H5 & H6 & _). rewrite scan_step. unfold lex_step, at_code.
  cbn [lx_state]. by rewrite !(proj2 (Z.eqb_neq _ _)) by done.
Qed.

Lemma scan_line stack n text newline t : 10 ∉ text → 13 ∉ text → newline = 10 ∨ newline = 13 →
  scan (inside SingleComment stack n) (text ++ newline :: t) = scan (at_code stack n) t.
Proof.
  intros H1 H2 Hn. induction text as [|c text IH]; cbn [app]; rewrite scan_step; unfold lex_step; cbn [lx_state inside].
  - by destruct Hn as [-> | ->].
  - apply not_elem_of_cons in H1 as [? H1]. apply not_elem_of_cons in H2 as [? H2].
    rewrite !(proj2 (Z.eqb_neq _ _)) by done. cbn [orb]. by apply IH.
Qed.

Lemma scan_comment stack n text t : includes (text ++ js "*") (js "*/") = false →
  scan (inside MultiComment stack n) (text ++ js "*/" ++ t) = scan (at_code stack n) t.
Proof.
  change (js "*") with [42]. change (js "*/") with [42; 47].
  induction text as [|c text IH]; [done|]. cbn [app includes]. intros [Hs Hi]%orb_false_iff.
  rewrite scan_step. unfold lex_step. cbn [lx_state inside]. rewrite <-IH by done.
  assert ((c =? chr "*") && next_is (head (text ++ 42 :: 47 :: t)) (chr "/") = false) as ->; [|done].
  destruct (Z.eqb_spec c (chr "*")) as [->|]; [|done]. cbn [andb]. destruct text as [|d text]; [done|].
  cbn [app head next_is]. cbn [app starts_with] in Hs. change (chr "/") with 47. rewrite andb_true_r in Hs.
  change (chr "*") with 42 in Hs. cbn [Z.eqb Pos.eqb andb] in Hs. by rewrite Z.eqb_sym.
Qed.

Lemma scan_quoted stack n quote text t : quote = SQUOTE ∨ quote = DQUOTE →
  Forall (λ e : bool * Z, e.1 = true ∨ e.2 ≠ quote ∧ e.2 ≠ BACKSLASH) text →
  scan (inside (if quote =? SQUOTE then SingleQuote else DoubleQuote) stack n) (quoted_text text ++ quote :: t) = scan (at_code stack n) t.
Proof.
  intros Hq. induction 1 as [|[esc c] text Hc _ IH]; cbn [quoted_text flat_map app fst snd].
  - by destruct Hq as [-> | ->].
  - rewrite <-app_assoc. fold (quoted_text text). cbn [fst snd] in Hc. destruct esc; cbn [app].
    + rewrite scan_step. destruct Hq as [-> | ->]; cbn [Z.eqb Pos.eqb SQUOTE DQUOTE] in *; exact IH.
    + destruct Hc as [|[H1 H2]]; [done|]. rewrite scan_step. unfold lex_step.
      destruct Hq as [-> | ->]; cbn [Z.eqb Pos.eqb SQUOTE DQUOTE lx_state inside] in *;
        rewrite !(proj2 (Z.eqb_neq _ _)) by done; exact IH.
Qed.

Scheme code_mut := Induction for code Sort Prop
with template_mut := Induction for template Sort Prop.
Combined Scheme code_template_ind from code_mut, template_mut.

Definition below (stack : list Z) (n : Z) : Prop := match stack with top :: _ => top < n | [] => True end.

Lemma scan_print :
  (∀ p, code_ok p → ∀ stack n rest, below stack n → scan (at_code stack n) (print p ++ rest) = scan (at_code stack n) rest) ∧
  (∀ t, template_ok t → ∀ stack n rest,
     scan (inside Template stack n) (print_template t ++ BACKTICK :: rest) = scan (at_code stack n) rest).
Proof.
  apply code_template_ind; cbn [code_ok template_ok print print_template].
  - done.
  - intros c k IH [Hc Hk] stack n rest Hb. cbn [app]. by rewrite scan_plain, IH.
  - intros c k IH (Hc & Hs & Hk) stack n rest Hb. cbn [app]. rewrite scan_step. unfold lex_step. cbn [lx_state at_code head next_is].
    assert (c ≠ chr "/") by (unfold plain in Hc; rewrite !not_elem_of_cons in Hc; tauto).
    rewrite !(proj2 (Z.eqb_neq c _)) by done. rewrite !andb_false_r. change (scan (at_code stack n) (c :: print k ++ rest) = scan (at_code stack n) rest).
    by rewrite scan_plain, IH.
  - intros body IHb k IHk [Hb Hk] stack n rest Hn. cbn [app]. rewrite scan_step. rewrite <-app_assoc.
    change (scan (at_code stack (n + 1)) (print body ++ chr "}" :: print k ++ rest) = scan (at_code stack n) rest).
    rewrite IHb by (done || (destruct stack; cbn in *; [done|lia])). rewrite scan_step. unfold lex_step, at_code. cbn [lx_state templateStack openBraces].
    change (chr "}" =? chr "/") with false. change (chr "}" =? SQUOTE) with false. change (chr "}" =? DQUOTE) with false.
    change (chr "}" =? BACKTICK) with false. change (chr "}" =? chr "{") with false. change (chr "}" =? chr "}") with true. cbn [andb].
    replace (n + 1 - 1) with n by lia. destruct stack as [|top stack]; [by apply IHk|].
    cbn in Hn. rewrite (proj2 (Z.eqb_neq n top)) by lia. by apply IHk.
  - intros text newline k IH (H1 & H2 & Hn & Hk) stack n rest Hb. rewrite <-!app_assoc. cbn [app].
    change (scan (inside SingleComment stack n) (text ++ newline :: print k ++ rest) = scan (at_code stack n) rest).
    by rewrite scan_line, IH.
  - intros text k IH (Hi & Hk) stack n rest Hb. rewrite <-!app_assoc.
    change (scan (inside MultiComment stack n) (text ++ js "*/" ++ print k ++ rest) = scan (at_code stack n) rest).
    by rewrite scan_comment, IH.
  - intros quote text k IH (Hq & Ht & Hk) stack n rest Hb. cbn [app]. rewrite <-app_assoc. cbn [app].
    transitivity (scan (inside (if quote =? SQUOTE then SingleQuote else DoubleQuote) stack n) (quoted_text text ++ quote :: print k ++ rest)).
    + by destruct Hq as [-> | ->].
    + by rewrite scan_quoted, IH.
  - intros parts IHp k IHk [Hp Hk] stack n rest Hb. cbn [app]. rewrite <-app_assoc. cbn [app].
    change (scan (inside Template stack n) (print_template parts ++ BACKTICK :: print k ++ rest) = scan (at_code stack n) rest).
    by rewrite IHp, IHk.
  - done.
  - intros escaped c t IH [Hc Ht] stack n rest. rewrite <-app_assoc. destruct escaped; cbn [app]; [apply (IH Ht)|].
    destruct Hc as [|(H1 & H2 & H3)]; [done|]. rewrite scan_step. unfold lex_step. cbn [lx_state inside].
    rewrite !(proj2 (Z.eqb_neq _ _)) by done.
    assert ((c =? chr "$") && next_is (head (print_template t ++ BACKTICK :: rest)) (chr "{") = false) as ->; [|apply (IH Ht)].
    destruct (Z.eqb_spec c (chr "$")) as [E|]; [|done]. specialize (H3 E). cbn [andb].
    destruct (print_template t) as [|d l]; [done|]. cbn [app head next_is] in *. apply Z.eqb_neq. congruence.
  - intros body IHb t IHt [Hb Ht] stack n rest. rewrite <-!app_assoc. cbn [app].
    change (scan (at_code (n :: stack) (n + 1)) (print body ++ chr "}" :: print_template t ++ BACKTICK :: rest) = scan (at_code stack n) rest).
    rewrite IHb by (done || (cbn; lia)). rewrite scan_step. unfold lex_step, at_code. cbn [lx_state templateStack openBraces].
    change (chr "}" =? chr "/") with false. change (chr "}" =? SQUOTE) with false. change (chr "}" =? DQUOTE) with false.
    change (chr "}" =? BACKTICK) with false. change (chr "}" =? chr "{") with false. change (chr "}" =? chr "}") with true. cbn [andb].
    replace (n + 1 - 1) with n by lia. rewrite Z.eqb_refl. by apply IHt.
Qed.

(** Pieces of code, each before a brace that is left open or closed without need *)
Definition brace (opening : bool) : Z := if opening then chr "{" else chr "}".
Definition print_pieces (pieces : list (bool * code)) (lastPiece : code) : jstr :=
  flat_map (λ e, print e.2 ++ [brace e.1]) pieces ++ print lastPiece.
Definition balance (pieces : list (bool * code)) : Z := fold_right (λ (e : bool * code) n, (if e.1 then 1 else -1) + n) 0 pieces.

(** The lexer counts the braces of code and of nothing else: those in comments,
    strings and templates, and those that pair up, make no difference. *)
Theorem braces_counted pieces lastPiece : Forall (λ e, code_ok e.2) pieces → code_ok lastPiece →
  countUnbalancedCurlyBraces (print_pieces pieces lastPiece) = balance pieces.
Proof.
  intros Hp Hl. unfold countUnbalancedCurlyBraces. change {| lx_state := Code; templateStack := []; openBraces := 0 |} with (at_code [] 0).
  assert (∀ n, openBraces (scan (at_code [] n) (print_pieces pieces lastPiece)) = n + balance pieces) as H; [|apply H].
  unfold print_pieces. induction Hp as [|[b p] pieces Hp _ IH]; intros n; cbn [flat_map app balance fold_right fst snd].
  - rewrite <-(app_nil_r (print lastPiece)). rewrite (proj1 scan_print) by done. cbn. lia.
  - fold (balance pieces). rewrite <-!app_assoc, (proj1 scan_print) by done. cbn [app]. rewrite scan_step.
    transitivity (openBraces (scan (at_code [] (n + if b then 1 else -1)) (flat_map (λ e, print e.2 ++ [brace e.1]) pieces ++ print lastPiece))).
    + by destruct b.
    + rewrite IH. lia.
Qed.

(** Regular expressions are not known to the lexer: a brace or a quote in one counts. *)
Lemma braces_in_regex :
  countUnbalancedCurlyBraces (js "const r = /{/;") = 1 ∧ countUnbalancedCurlyBraces (js "const r = /'/; { ") = 0.
Proof. by vm_compute. Qed.

(** ** Blocked hosts *)

Definition dotted (a b c d : Z) : jstr := str_join (js ".") (string_of_nat <$> [a; b; c; d]).
Definition dotted_char (c : Z) : Prop := is_digit c = true ∨ c = chr ".".

Lemma dot_prefix ds k r k2 : chr "." ∉ ds → chr "." ∉ k →
  starts_with (ds ++ chr "." :: r) (k ++ chr "." :: k2) = jstr_eqb ds k && starts_with r k2.
Proof.
  revert k. induction ds as [|x ds IH]; intros [|y k] H1 H2; cbn [app starts_with].
  - by rewrite Z.eqb_refl.
  - apply not_elem_of_cons in H2 as [H2 _]. rewrite (proj2 (Z.eqb_neq y (chr "."))) by done. by rewrite (proj2 (jstr_eqb_neq _ _)) by done.
  - apply not_elem_of_cons in H1 as [H1 _]. rewrite (proj2 (Z.eqb_neq (chr ".") x)) by done. by rewrite (proj2 (jstr_eqb_neq _ _)) by done.
  - apply not_elem_of_cons in H1 as [_ H1]. apply not_elem_of_cons in H2 as [_ H2]. rewrite IH by done.
    destruct (Z.eqb_spec y x) as [->|Hn]; cbn [andb].
    + f_equal. destruct (decide (ds = k)) as [->|Hn]; [by rewrite !jstr_eqb_refl|].
      rewrite !(proj2 (jstr_eqb_neq _ _)) by congruence. done.
    + by rewrite (proj2 (jstr_eqb_neq _ _)) by congruence.
Qed.

Lemma first_dot l l' r r' : chr "." ∉ l → chr "." ∉ l' → l ++ chr "." :: r = l' ++ chr "." :: r' → l = l' ∧ r = r'.
Proof.
  intros H1 H2 E. apply (f_equal (split_first (chr "."))) in E. rewrite !split_first_app in E by done. by injection E.
Qed.

Lemma digits_no_dot ds : forallb is_digit ds = true → chr "." ∉ ds.
Proof. intros H Hin. rewrite forallb_true_iff in H. apply H in Hin. by vm_compute in Hin. Qed.

Definition mk (prev : option Z) (text : jstr) (caps : list (nat * jstr)) : spot := {| before := prev; rest := text; captured := caps |}.

Lemma advance_one prev c text caps : advance 1 (mk prev (c :: text) caps) = mk (Some c) text caps.
Proof. unfold advance, mk. cbn. by rewrite drop_0. Qed.

Lemma behind_cons c ds prev : behind (c :: ds) prev = behind ds (Some c).
Proof. exact (behind_app [c] ds prev). Qed.

Lemma star_matches p ds prev text caps : Forall (λ c, p c = true) ds →
  matches (RStar (RChar p)) (mk prev (ds ++ text) caps) (mk (behind ds prev) text caps).
Proof.
  intros H. revert prev. induction H as [|c ds Hc _ IH]; intros prev; cbn [app]; [constructor|].
  apply (m_star_cons _ _ (mk (Some c) (ds ++ text) caps)).
  - rewrite <-(advance_one prev). by eapply m_char.
  - cbn. lia.
  - rewrite behind_cons. apply IH.
Qed.

Lemma text_matches s prev text caps : matches (RText false s) (mk prev (s ++ text) caps) (mk (behind s prev) text caps).
Proof.
  revert prev. induction s as [|c s IH]; intros prev; [constructor|]. cbn [RText foldr app].
  apply (m_seq _ _ _ (mk (Some c) (s ++ text) caps)).
  - rewrite <-(advance_one prev). eapply m_char; [done|apply Z.eqb_refl].
  - rewrite behind_cons. apply IH.
Qed.

Lemma second_octet_dotted k a b text : chr "." ∉ k → forallb is_digit a = true → forallb is_digit b = true → b ≠ [] →
  second_octet k (a ++ chr "." :: b ++ chr "." :: text) = if jstr_eqb a k then Some b else None.
Proof.
  intros Hk Ha Hb Hne. unfold second_octet. set (host := a ++ _). set (r := RSeq RStart _).
  destruct (exec r None host) as [[s e]|] eqn:E.
  - destruct (exec_Some _ _ _ _ _ E) as (Hm & pre & post & Hhost & -> & _).
    apply seq_inv in Hm as (m0 & H0 & Hm). apply seq_inv in Hm as (m1 & H1 & Hm). apply seq_inv in Hm as (m2 & H2 & H3).
    inversion H0 as [| | | | | | | | | |s0 Hs|]; subst s0 m0. cbn [spot_at before] in Hs.
    assert (pre = []) as ->. { destruct pre as [|x pre] using rev_ind; [done|]. unfold behind in Hs. by rewrite last_snoc in Hs. }
    cbn [app] in Hhost. subst post. apply matches_text in H1 as [E1 C1]. cbn [spot_at rest captured] in E1, C1.
    apply group_inv in H2 as (m2' & H2 & ->). assert (only (λ c, is_digit c = true) RDigits) as Ho by (split; intros c Hc; exact Hc).
    destruct (only_span _ _ _ _ H2 Ho) as [(w & E2 & F2) C2]. rewrite (between_span _ _ w) in * by done.
    apply matches_text in H3 as [E3 C3]. cbn [capture rest captured] in E3, C3. rewrite E2, E3 in E1.
    rewrite <-app_assoc in E1. apply first_dot in E1 as [-> E1]; [|by apply digits_no_dot|done].
    apply first_dot in E1 as [-> _]; [|by apply digits_no_dot|].
    + rewrite jstr_eqb_refl. unfold group_text. by rewrite C3.
    + intros Hin. rewrite Forall_forall in F2. apply F2 in Hin. by vm_compute in Hin.
  - destruct (jstr_eqb a k) eqn:Ek; [|done]. apply jstr_eqb_eq in Ek as ->. exfalso.
    destruct b as [|d b]; [done|]. cbn [forallb] in Hb. apply andb_true_iff in Hb as [Hd Hb].
    eapply (exec_None r None host [] host _ E eq_refl).
    apply (m_seq _ _ _ (mk None host [])); [by constructor|].
    eapply (m_seq _ _ _ (mk (behind (k ++ js ".") None) ((d :: b) ++ chr "." :: text) [])).
    { assert (host = (k ++ js ".") ++ (d :: b) ++ chr "." :: text) as -> by by unfold host; rewrite <-app_assoc. apply text_matches. }
    eapply m_seq; [apply m_group|].
    + eapply (m_seq _ _ _ (mk (Some d) (b ++ chr "." :: text) [])).
      * rewrite <-(advance_one (behind (k ++ js ".") None)). by eapply m_char.
      * apply star_matches. apply Forall_forall. by rewrite forallb_true_iff in Hb.
    + cbn [capture before rest captured mk]. apply (text_matches (js ".")).
Qed.

Lemma numeral_eqb a k : 0 <= a → 0 <= k → jstr_eqb (string_of_nat a) (string_of_nat k) = (a =? k).
Proof.
  intros Ha Hk. destruct (Z.eqb_spec a k) as [->|Hn]; [apply jstr_eqb_refl|]. apply jstr_eqb_neq. intros E. apply Hn.
  destruct (string_of_nat_spec a Ha) as (_ & _ & <-), (string_of_nat_spec k Hk) as (_ & _ & <-). by rewrite E.
Qed.

Section dotted_hosts.
Context (a b c d : Z) (Ha : 0 <= a <= 255) (Hb : 0 <= b <= 255) (Hc : 0 <= c <= 255) (Hd : 0 <= d <= 255).

Let tail : jstr := string_of_nat c ++ chr "." :: string_of_nat d.
Lemma dotted_shape : dotted a b c d = string_of_nat a ++ chr "." :: string_of_nat b ++ chr "." :: tail.
Proof. done. Qed.

Lemma numeral_digits n : 0 <= n → forallb is_digit (string_of_nat n) = true.
Proof. apply string_of_nat_spec. Qed.
Lemma numeral_no_dot n : 0 <= n → chr "." ∉ string_of_nat n.
Proof. intros Hn. by apply digits_no_dot, numeral_digits. Qed.

(** A prefix of one octet, and one of two *)
Lemma octet_prefix k : 0 <= k → starts_with (dotted a b c d) (string_of_nat k ++ js ".") = (a =? k).
Proof.
  intros Hk. rewrite dotted_shape. change (js ".") with [chr "."]. rewrite dot_prefix by (apply numeral_no_dot; lia).
  rewrite numeral_eqb by lia. apply andb_true_r.
Qed.
Lemma octets_prefix k l : 0 <= k → 0 <= l →
  starts_with (dotted a b c d) (string_of_nat k ++ chr "." :: string_of_nat l ++ js ".") = (a =? k) && (b =? l).
Proof.
  intros Hk Hl. rewrite dotted_shape, dot_prefix by (apply numeral_no_dot; lia). rewrite numeral_eqb by lia. f_equal.
  change (js ".") with [chr "."]. rewrite dot_prefix by (apply numeral_no_dot; lia). rewrite numeral_eqb by lia. apply andb_true_r.
Qed.

Lemma dotted_chars : Forall dotted_char (dotted a b c d).
Proof.
  assert (∀ n, 0 <= n → Forall dotted_char (string_of_nat n)) as Hn.
  { intros n Hn. apply Forall_forall. intros x Hx. left. pose proof (numeral_digits n Hn) as Hds. rewrite forallb_true_iff in Hds. auto. }
  rewrite dotted_shape. unfold tail. rewrite Forall_app, Forall_cons, Forall_app, Forall_cons, Forall_app, Forall_cons.
  split_and!; try (by right); apply Hn; lia.
Qed.

(** Texts with a character that is neither a digit nor a dot *)
Lemma not_prefix x p : ¬ dotted_char x → starts_with (dotted a b c d) (x :: p) = false.
Proof.
  intros Hx. pose proof dotted_chars as H. destruct (dotted a b c d) as [|y h]; [done|]. apply Forall_cons in H as [Hy _].
  cbn [starts_with]. destruct (Z.eqb_spec x y) as [->|]; done.
Qed.
Lemma not_equal x s : x ∈ s → ¬ dotted_char x → jstr_eqb (dotted a b c d) s = false.
Proof. intros Hin Hx. apply jstr_eqb_neq. intros <-. pose proof dotted_chars as H. rewrite Forall_forall in H. auto. Qed.
Lemma not_suffix x s : x ∈ s → ¬ dotted_char x → ends_with (dotted a b c d) s = false.
Proof.
  intros Hin Hx. destruct (ends_with _ s) eqn:E; [|done]. apply ends_with_spec in E as [r E].
  pose proof dotted_chars as H. rewrite E, Forall_app, !Forall_forall in H. by destruct (Hx (proj2 H x Hin)).
Qed.
Lemma not_included x s p : Forall dotted_char s → ¬ dotted_char x → includes s (x :: p) = false.
Proof.
  intros H Hx. induction H as [|y s Hy _ IH]; [done|]. cbn [includes starts_with]. rewrite IH.
  destruct (Z.eqb_spec x y) as [->|]; done.
Qed.

Lemma dotted_lower : to_lower (strip_brackets (dotted a b c d)) = dotted a b c d.
Proof.
  unfold strip_brackets. change (js "[") with [91]. rewrite not_prefix by (intros [H|H]; done). cbv zeta.
  rewrite (not_suffix 93) by (first [by left|intros [H|H]; done]).
  pose proof dotted_chars as H. induction H as [|x s Hx _ IH]; [done|]. change (x :: s) with ([x] ++ s).
  rewrite to_lower_app, IH. f_equal. destruct Hx as [Hx| ->]; [|done]. apply to_lower_digits. cbn. by rewrite Hx.
Qed.

Definition blocked_octets : Prop :=
  a = 127 ∨ a = 0 ∨ (a = 169 ∧ b = 254) ∨ a = 10 ∨ (a = 192 ∧ b = 168) ∨ (a = 172 ∧ 16 <= b <= 31) ∨ (a = 100 ∧ 64 <= b <= 127).

Lemma checkSsrfBlock_dotted : checkSsrfBlock (dotted a b c d) ≠ None ↔ blocked_octets.
Proof.
  unfold checkSsrfBlock. cbv zeta. rewrite dotted_lower.
  assert (tryConvertIpv4Mapped (dotted a b c d) = None) as ->.
  { unfold tryConvertIpv4Mapped. change (js "::ffff:") with (58 :: js ":ffff:"). by rewrite not_prefix by (intros [H|H]; done). }
  change (js "127.") with (string_of_nat 127 ++ js "."). change (js "0.") with (string_of_nat 0 ++ js ".").
  change (js "10.") with (string_of_nat 10 ++ js "."). change (js "169.254.") with (string_of_nat 169 ++ chr "." :: string_of_nat 254 ++ js ".").
  change (js "192.168.") with (string_of_nat 192 ++ chr "." :: string_of_nat 168 ++ js ".").
  rewrite !octet_prefix, !octets_prefix by lia.
  rewrite (not_equal 108 (js "localhost")), (not_equal 58 (js "::1")), (not_equal 58 (js "::"))
    by (first [apply (bool_decide_unpack _); vm_compute; exact I|intros [H|H]; done]).
  change (js "fd00:ec2") with (102 :: js "d00:ec2"). change (js "fd00:") with (102 :: js "d00:"). change (js "fe80:") with (102 :: js "e80:").
  change (js "fc") with (102 :: js "c"). change (js "fd") with (102 :: js "d"). rewrite !not_prefix by (intros [H|H]; done).
  rewrite (not_suffix 105 (js ".internal")), (not_suffix 108 (js ".local"))
    by (first [apply (bool_decide_unpack _); vm_compute; exact I|intros [H|H]; done]).
  change (js "railfog.internal") with (114 :: js "ailfog.internal"). rewrite not_included by (apply dotted_chars || (intros [H|H]; done)).
  assert (∀ k, 0 <= k → second_octet (string_of_nat k) (dotted a b c d) = if a =? k then Some (string_of_nat b) else None) as Hsec.
  { intros k Hk. rewrite dotted_shape, second_octet_dotted by (try apply numeral_no_dot; try apply numeral_digits; try apply string_of_nat_spec; lia).
    by rewrite numeral_eqb by lia. }
  change (js "172") with (string_of_nat 172). change (js "100") with (string_of_nat 100). rewrite !Hsec by lia.
  assert (∀ lo hi (x : bool), octet_within lo hi (if x then Some (string_of_nat b) else None) = x && (lo <=? b) && (b <=? hi)) as Hoct.
  { intros lo hi [|]; [|done]. cbn [octet_within]. by rewrite parse_int10_string_of_nat by lia. }
  rewrite !Hoct. unfold blocked_octets.
  assert (∀ k s, s = string_of_nat k ++ js ".0.0." ++ string_of_nat (if k =? 127 then 1 else 0) → (k = 127 ∨ k = 0) →
    jstr_eqb (dotted a b c d) s = true → a = k) as Hfull.
  { intros k s -> Hk E%jstr_eqb_eq. assert (0 <= k) as Hk0 by lia.
    pose proof (octet_prefix k Hk0) as Hp. rewrite E in Hp. symmetry in Hp. rewrite <-Z.eqb_eq, Hp. rewrite starts_with_spec.
    change (js ".0.0.") with (js "." ++ js "0.0."). eexists. by rewrite <-!app_assoc. }
  destruct (jstr_eqb (dotted a b c d) (js "127.0.0.1")) eqn:E1; [apply (Hfull 127) in E1; [|by vm_compute|by left]; split; [by left|done]|].
  destruct (jstr_eqb (dotted a b c d) (js "0.0.0.0")) eqn:E2; [apply (Hfull 0) in E2; [|by vm_compute|by right]; split; [by right; left|done]|].
  clear. cbn [orb].
  repeat match goal with |- context [?x =? ?y] => destruct (Z.eqb_spec x y) end; cbn [orb andb];
    repeat match goal with |- context [?x <=? ?y] => destruct (Z.leb_spec x y) end; cbn [andb];
    (split; [try (by intros []); intros _; lia|intros Hx; first [discriminate|exfalso; lia]]).
Qed.
End dotted_hosts.

(** Of the IPv4 addresses that the runtime refuses to connect to, the analyzer blocks
    those below 224.0.0.0, and no other: multicast and reserved addresses pass. *)
Theorem ssrf_dotted a b c d : 0 <= a <= 255 → 0 <= b <= 255 → 0 <= c <= 255 → 0 <= d <= 255 →
  checkSsrfBlock (dotted a b c d) ≠ None ↔ private4 (ip4 a b c d) ∧ a < 224.
Proof.
  intros Ha Hb Hc Hd. rewrite checkSsrfBlock_dotted by done. unfold blocked_octets, private4, within, ip4. lia.
Qed.

(** Names are blocked that merely begin like an address. *)
Lemma names_blocked : checkSsrfBlock (js "fdic.gov") ≠ None ∧ checkSsrfBlock (js "10.example.com") ≠ None ∧
  checkSsrfBlock (js "fe90::1") = None.
Proof. by vm_compute. Qed.
