(* ===== verification/DenoMemory.v ===== *)
(** * A Deno KV in memory

    An implementation of [DenoKv] by a finite map and of [JsonText] by a coding of
    values in digits: the parameters of [DenoKv] can be instantiated, and the
    examples of [DenoKvSafety] run on it. *)

From Stdlib Require Import QArith.
From S2P Require Import Prelude JsString JsMap Errors Utf8 TextDecoder JsNumber JsValue KvInterface DenoKv.

Open Scope Z_scope.

(** ** The store *)

Record memory := { mem_rows : gmap dkey row; mem_clock : Z }.

Definition mem_stamp (d : memory) : Z := map_fold (λ _ r n, Z.max (r_stamp r) n) (mem_clock d) (mem_rows d).

Definition mem_native (now stamp : Z) (m : gmap dkey row) (n : native) : gmap dkey row :=
  match n with
  | NSet q v expireIn => <[q := {| r_value := v; r_stamp := stamp; r_expires := Z.add now <$> expireIn |}]> m
  | NDelete q => delete q m
  end.

(** At most a thousand mutations in a commit *)
Definition mem_accepts (cs : list entry) (ms : list native) : bool := (length ms <=? 1000)%nat.

Definition mem_commit (now : Z) (cs : list entry) (ms : list native) (d : memory) : memory * result exn bool :=
  if negb (mem_accepts cs ms) then (d, Err TypeError)
  else if forallb (check_holds (λ q, mem_rows d !! q)) cs
  then ({| mem_rows := fold_left (mem_native now (mem_stamp d + 1)) ms (mem_rows d);
           mem_clock := mem_stamp d + 1 |}, Ok true)
  else (d, Ok false).

Definition mem_remove (q : dkey) (d : memory) : memory :=
  {| mem_rows := delete q (mem_rows d); mem_clock := mem_stamp d |}.

(** The entries below a prefix; this store has no cursors. *)
Definition mem_entries (d : memory) (prefix : dkey) (cursor : option jstr)
    : list (dkey * stored_value * jstr) :=
  omap (λ e, if bool_decide (prefix `prefix_of` e.1 ∧ e.1 ≠ prefix) then Some (e.1, r_value e.2, [])
             else None) (map_to_list (mem_rows d)).

#[export] Instance memory_kv : DenoKv memory := {
  dk_row d q := mem_rows d !! q;
  dk_commit := mem_commit;
  dk_remove := mem_remove;
  dk_entries := mem_entries
}.

Lemma mem_stamp_spec d :
  mem_clock d ≤ mem_stamp d ∧ ∀ q r, mem_rows d !! q = Some r → r_stamp r ≤ mem_stamp d.
Proof.
  unfold mem_stamp. generalize (mem_clock d). intros c.
  apply (map_fold_weak_ind (λ n m, c ≤ n ∧ ∀ q r, m !! q = Some r → r_stamp r ≤ n)).
  - split; [done|]. intros q r. by rewrite lookup_empty.
  - intros q r m n _ [Hc IH]. split; [lia|]. intros q' r'. rewrite lookup_insert_Some.
    intros [[<- <-]|[_ Hr]]; [lia|]. specialize (IH _ _ Hr). lia.
Qed.

Lemma mem_stamp_least d b :
  mem_clock d ≤ b → (∀ q r, mem_rows d !! q = Some r → r_stamp r ≤ b) → mem_stamp d ≤ b.
Proof.
  unfold mem_stamp. generalize (mem_clock d). intros c Hc.
  apply (map_fold_weak_ind (λ n m, (∀ q r, m !! q = Some r → r_stamp r ≤ b) → n ≤ b)); [done|].
  intros q r m n Hq IH Hm. apply Z.max_lub.
  - apply (Hm q). by rewrite lookup_insert_eq.
  - apply IH. intros q' r' Hr. apply (Hm q'). rewrite lookup_insert_ne; [done|congruence].
Qed.

Lemma mem_native_rows now s ms m q :
  fold_left (mem_native now s) ms m !! q = native_steps now s (λ q, m !! q) ms q.
Proof.
  unfold native_steps.
  assert (∀ m (f : dkey → option row), (∀ q, m !! q = f q) →
    ∀ q, fold_left (mem_native now s) ms m !! q = fold_left (native_step now s) ms f q) as H; [|by apply H].
  clear m q. induction ms as [|n ms IH]; intros m f E q; [apply E|]. cbn. apply IH. intros q'.
  destruct n as [q0 v x|q0]; cbn; case_decide; subst.
  - by rewrite lookup_insert_eq.
  - rewrite lookup_insert_ne by congruence. apply E.
  - by rewrite lookup_delete_eq.
  - rewrite lookup_delete_ne by congruence. apply E.
Qed.

#[export] Instance memory_kv_laws : DenoKvLaws memory.
Proof.
  refine {| dk_clock := mem_stamp; dk_accepts := mem_accepts |}.
  - intros d q r Hr. by apply (proj2 (mem_stamp_spec d) q).
  - intros d now cs ms Ha. exists TypeError. cbn. unfold mem_commit. by rewrite Ha.
  - intros d now cs ms Ha Hc. cbn in *. unfold mem_commit. by rewrite Ha, Hc.
  - intros d now cs ms Ha Hc. cbn in *. unfold mem_commit. rewrite Ha, Hc. cbn [negb].
    eexists. split; [done|]. set (d' := {| mem_rows := _; mem_clock := _ |}).
    assert (mem_stamp d' = mem_stamp d + 1) as Hs.
    { apply Z.le_antisymm.
      - apply mem_stamp_least; [done|]. intros q r Hr. cbn in Hr. rewrite mem_native_rows in Hr.
        assert (∀ m, native_steps now (mem_stamp d + 1) m ms q = Some r →
          (∀ q r, m q = Some r → r_stamp r ≤ mem_stamp d + 1) → r_stamp r ≤ mem_stamp d + 1) as H1.
        { clear. unfold native_steps. induction ms as [|n ms IH]; intros m Hr Hm; [by eapply Hm|].
          eapply IH; [exact Hr|]. intros q' r'. destruct n; cbn; case_decide; try done; try apply Hm.
          by intros [= <-]. }
        eapply H1; [exact Hr|]. intros q' r' Hr'. pose proof (proj2 (mem_stamp_spec d) _ _ Hr'). lia.
      - exact (proj1 (mem_stamp_spec d')). }
    rewrite Hs. split; [lia|]. intros q. apply mem_native_rows.
  - intros d q. cbn. exact (proj1 (mem_stamp_spec (mem_remove q d))).
  - intros d q q'. cbn. case_decide; subst; [by rewrite lookup_delete_eq|by rewrite lookup_delete_ne by congruence].
Qed.

(** ** JSON texts *)

Definition leaf : Type := bool + (bool + Z * positive) + list Z.
#[export] Instance leaf_eq_dec : EqDecision leaf := _.
#[export] Instance leaf_countable : Countable leaf := _.

Definition num_leaf (n : jsnum) : gen_tree leaf :=
  match n with
  | NaN => GenNode 3 []
  | Inf b => GenLeaf (inl (inr (inl b)))
  | Fin (Qmake a b) => GenLeaf (inl (inr (inr (a, b))))
  end.

Fixpoint tree_of (v : jsval) : gen_tree leaf :=
  match v with
  | JUndef => GenNode 0 []
  | JNull => GenNode 1 []
  | JBool b => GenLeaf (inl (inl b))
  | JNum n => GenNode 2 [num_leaf n]
  | JStr s => GenLeaf (inr s)
  | JArr xs => GenNode 4 (map tree_of xs)
  | JObj es => GenNode 5 (map (λ e, match e with (k, x) => GenNode 6 [GenLeaf (inr k); tree_of x] end) es)
  end.

Fixpoint of_tree (t : gen_tree leaf) : jsval :=
  match t with
  | GenNode 1 [] => JNull
  | GenLeaf (inl (inl b)) => JBool b
  | GenNode 2 [GenNode 3 []] => JNum NaN
  | GenNode 2 [GenLeaf (inl (inr (inl b)))] => JNum (Inf b)
  | GenNode 2 [GenLeaf (inl (inr (inr (a, b))))] => JNum (Fin (Qmake a b))
  | GenLeaf (inr s) => JStr s
  | GenNode 4 ts => JArr (map of_tree ts)
  | GenNode 5 ts => JObj (map (λ t, match t with
                                    | GenNode 6 [GenLeaf (inr k); x] => (k, of_tree x)
                                    | _ => ([], JUndef)
                                    end) ts)
  | _ => JUndef
  end.

Fixpoint of_tree_of (v : jsval) : of_tree (tree_of v) = v.
Proof.
  destruct v as [| | |[| |[]]| |xs|es]; try reflexivity; cbn.
  - f_equal. induction xs as [|x xs IHxs]; [reflexivity|]. cbn. by rewrite of_tree_of, IHxs.
  - f_equal. induction es as [|[k x] es IHes]; [reflexivity|]. cbn. by rewrite of_tree_of, IHes.
Qed.

(** The digits [0] and [1] of a number, ended by [2] *)
Fixpoint bits (p : positive) : jstr :=
  match p with xH => [50] | xO p => 48 :: bits p | xI p => 49 :: bits p end.
Fixpoint of_bits (s : jstr) : positive :=
  match s with [] => xH | c :: s => if c =? 50 then xH else if c =? 48 then xO (of_bits s) else xI (of_bits s) end.

Lemma of_bits_bits p : of_bits (bits p) = p.
Proof. induction p; cbn; congruence. Qed.

Lemma bits_ascii p : Forall (λ c, 48 ≤ c ≤ 50) (bits p).
Proof. induction p as [p IH|p IH|]; cbn; apply Forall_cons_2; try lia; [exact IH..|apply Forall_nil_2]. Qed.

Lemma ascii_safe s : Forall (λ c, 48 ≤ c ≤ 50) s → jstr_wf s ∧ utf8_safe s.
Proof.
  intros Hs. split; [eapply Forall_impl; [exact Hs|]; cbn; lia|].
  assert (code_points s = s) as E.
  { induction Hs as [|c s Hc Hs IH]; [done|]. destruct s as [|d s]; [done|].
    rewrite code_points_cons2. unfold is_high. rewrite (proj2 (Z.leb_gt _ _)) by lia. cbn [andb]. by rewrite IH. }
  unfold utf8_safe. rewrite E. split.
  - eapply Forall_impl; [exact Hs|]. intros c Hc. cbn in Hc. split; [lia|]. unfold is_surrogate.
    by rewrite (proj2 (Z.leb_gt _ _)) by lia.
  - destruct Hs as [|c s Hc]; [done|]. cbn. intros [= ->]. unfold BOM in Hc. lia.
Qed.

#[export] Instance memory_json : JsonText := {
  json_stringify v := if is_undefined v then None else Some (bits (encode (tree_of (json_value v))));
  json_parse s := match decode (A := gen_tree leaf) (of_bits s) with Some t => Ok (of_tree t) | None => Err PlainError end
}.

#[export] Instance memory_json_laws : JsonTextLaws.
Proof.
  split.
  - intros v Hv. cbn. destruct v; try done; by eexists.
  - done.
  - intros v t. cbn. destruct (is_undefined v); [done|]. intros [= <-]. apply ascii_safe, bits_ascii.
  - intros v t _. cbn. destruct (is_undefined v); [done|]. intros [= <-].
    by rewrite of_bits_bits, decode_encode, of_tree_of.
Qed.
