(* ===== verification/SdkSafety.v ===== *)
(** * The SDK end to end

    [rpc_through_handle]: the RPC client returns what a handler returns and throws
    what it throws.  [sdk_route_parity]: [api] and the platform's route matcher choose
    the same route.  [router_onion]: middleware that calls [next] at most once runs
    as nested functions; [next_exhausted] and [body_read_once] show the limits.
    [cookie_roundtrip] and [sse_roundtrip]: cookies and events are read as written. *)

From Stdlib Require Import QArith.
From stdpp Require Import countable.
From S2P Require Import Prelude JsString JsMap JsNumber JsValue Errors Utf8 TextDecoder Uri Http Router IpBlocker KvInterface SdkHelpers DenoKv SdkClient SdkWrapper DenoMemory.

Open Scope Z_scope.
Open Scope railfog_scope.

(** ** From a handler to the client that calls it *)

Section end_to_end.
Context `{ContentCodec} `{JsonText} {JTL : JsonTextLaws} (to_text : jsval → jstr) (error_message : exn → jstr).
(** JSON texts are not blank. *)
Context (json_visible : ∀ v t, json_stringify v = Some t → trim t ≠ []).
Implicit Types (fn : HandlerFn).

(** What the function answers to a request of the client, whose URL a parser has
    turned into the parts of a [Request] *)
Definition as_rpc_response (r : Response) : rpc_response :=
  {| SdkClient.rs_status := re_status r; SdkClient.rs_statusText := [];
     SdkClient.rs_headers := fold_left (λ hs e, map_set hs e.1 e.2) (re_headers r) [];
     SdkClient.rs_content := re_content r |}.

Definition served (parse : rpc_request → HttpRequest) fn (requestId : jstr) (q : rpc_request) : result exn rpc_response :=
  match (handle to_text error_message (no_next error_message) fn (parse q) requestId (Unread (rr_body q))).2 with
  | Ok r => Ok (as_rpc_response r)
  | Err _ => Err PlainError
  end.

(** The outcome of the handler itself, before [handle] makes a response of it *)
Definition outcome fn (req : HttpRequest) (requestId : jstr) (bytes : option (list Z)) : World * result caught HandlerResult :=
  let c := handler_context requestId req in
  run_handler to_text error_message requestId (no_next error_message c) (fn c)
    {| w_body := Unread bytes; w_index := 0; w_parsed := None; w_cookies := [] |}.

(** The error that arrives: with the request id of the response, if it has none *)
Definition delivered (e : RailFogError) (requestId : jstr) : RailFogError :=
  {| err_code := err_code e; err_message := err_message e; err_requestId := Some (default requestId (err_requestId e)) |}.

Lemma normalizeToErrorResponse_spec err requestId :
  let e := normalizeError to_text err (Some requestId) in
  header_value_ok (default requestId (err_requestId e)) = true → requestId ≠ [] →
  ∃ b, normalizeToErrorResponse to_text error_message err requestId =
    Ok {| re_status := statusFromErrorCode (err_code e);
          re_headers := json_headers (default requestId (err_requestId e)); re_content := JsonOf (body_value b); re_fixed := false |} ∧
    normalizeError to_text (CValue (body_value b)) (Some (default requestId (err_requestId e))) = delivered e requestId.
Proof.
  intros e Hok Hne. unfold normalizeToErrorResponse. fold e. cbv zeta.
  match goal with |- context [response_json _ (body_value ?b) _ _] => set (body := b) end.
  exists body. unfold response_json, header_ok, json_headers. cbn [is_undefined body_value throw_if mbind result_bind].
  assert (∃ st, statusFromErrorCode (err_code e) = st ∧ (200 <=? st) && (st <=? 599) = true ∧ existsb (Z.eqb st) [204; 205; 304] = false)
    as (st & -> & -> & ->) by (eexists; split; [done|]; by destruct (err_code e)).
  split.
  - cbn [negb throw_if mbind result_bind for_each fst snd]. rewrite Hok.
    assert (header_value_ok (js "application/json") = true) as -> by (vm_compute; reflexivity).
    cbn [negb throw_if mbind result_bind]. reflexivity.
  - assert (body = toErrorResponseBody (delivered e requestId) ∨ err_requestId e = Some [] ∧ default requestId (err_requestId e) = [] ∧ body = toErrorResponseBody e)
      as [-> | (E & Hd & ->)].
    { subst body. unfold toErrorResponseBody, delivered. cbn [body_request_id err_code err_message err_requestId].
      destruct (err_requestId e) as [[|c r]|]; [right; split_and!; reflexivity|left; reflexivity|].
      left. cbn [default from_option id]. by destruct requestId. }
    + by rewrite normalize_error_body.
    + rewrite normalize_error_body, E. unfold delivered. by rewrite E.
Qed.

Lemma body_value_wf b : val_wf (body_value b) ∧ json_value (body_value b) = body_value b.
Proof.
  unfold body_value. destruct (body_request_id b); (split; [|reflexivity]); cbn [val_wf fold_right app];
    repeat split; unfold map_wf; apply (bool_decide_unpack _); vm_compute; exact I.
Qed.

Lemma add_cookies_spec cookies resp : forallb header_value_ok cookies = true → re_fixed resp = false →
  add_cookies error_message cookies resp =
    Ok {| re_status := re_status resp; re_headers := re_headers resp ++ ((λ c, (js "set-cookie", c)) <$> cookies);
          re_content := re_content resp; re_fixed := false |}.
Proof.
  intros Hck Hf. unfold add_cookies. destruct cookies as [|c0 cs] eqn:Ec.
  - cbn [fmap list_fmap]. rewrite app_nil_r. destruct resp; cbn in *. by subst.
  - rewrite Hf. cbn [throw_if mbind result_bind].
    assert (for_each (header_ok error_message) (c0 :: cs) = Ok tt) as ->; [|done].
    apply for_each_Ok, Forall_forall. intros x Hx. rewrite forallb_true_iff in Hck. unfold header_ok. by rewrite Hck.
Qed.

Lemma content_type_kept (hs : list (jstr * jstr)) (cs : list jstr) :
  map_get (fold_left (λ hs e, map_set hs e.1 e.2) (hs ++ ((λ c, (js "set-cookie", c)) <$> cs)) []) (js "content-type") =
  map_get (fold_left (λ hs e, map_set hs e.1 e.2) hs []) (js "content-type").
Proof.
  rewrite fold_left_app. generalize (fold_left (λ hs (e : jstr * jstr), map_set hs e.1 e.2) hs []) as h0.
  induction cs as [|x cs IH]; intros h0; [done|]. cbn [fmap list_fmap fold_left fst snd]. rewrite IH.
  apply map_get_set_ne. vm_compute. discriminate.
Qed.

(** The response for a value, as the client reads it *)
Lemma value_response cookies v : forallb header_value_ok cookies = true → val_wf v →
  ∃ resp, (final_response error_message (RValue v) ≫= λ finalResponse, add_cookies error_message cookies finalResponse) = Ok resp ∧
    success (re_status resp) = true ∧ response_value (as_rpc_response resp) = Ok (json_value v).
Proof.
  intros Hck Hwf. assert (v = JUndef ∨ v ≠ JUndef) as [->|Hv] by (destruct v; auto).
  - cbn [final_response mbind result_bind]. eexists. split; [by apply add_cookies_spec|]. done.
  - assert (final_response error_message (RValue v) =
      Ok {| re_status := 200; re_headers := [(js "content-type", js "application/json")]; re_content := JsonOf v; re_fixed := false |}) as ->.
    { transitivity (response_json error_message v 200 [(js "content-type", js "application/json")]); [by destruct v|].
      unfold response_json, header_ok. assert (is_undefined v = false) as -> by by destruct v. reflexivity. }
    cbn [mbind result_bind]. rewrite add_cookies_spec by done. eexists. split; [done|]. split; [done|].
    unfold response_value, as_rpc_response.
    cbn [SdkClient.rs_status SdkClient.rs_content SdkClient.rs_headers re_status re_content re_headers content_text].
    change ((200 =? 204) || (200 =? 205)) with false. cbv iota. rewrite content_type_kept.
    assert (includes (default [] (map_get (fold_left (λ hs (e : jstr * jstr), map_set hs e.1 e.2)
      [(js "content-type", js "application/json")] []) (js "content-type"))) (js "application/json") = true) as -> by (vm_compute; reflexivity).
    destruct (json_stringify_some v Hv) as [t Ht]. rewrite Ht. cbn [default from_option id].
    rewrite (proj2 (jstr_eqb_neq (trim t) [])) by (by eapply json_visible). by rewrite (json_text_read v t).
Qed.

(** ... and for an error *)
Lemma error_response err requestId :
  let e := normalizeError to_text err (Some requestId) in
  header_value_ok (default requestId (err_requestId e)) = true → requestId ≠ [] →
  ∃ resp, normalizeToErrorResponse to_text error_message err requestId = Ok resp ∧
    success (re_status resp) = false ∧ response_error to_text (as_rpc_response resp) = delivered e requestId.
Proof.
  intros e Hh Hrid. destruct (normalizeToErrorResponse_spec err requestId Hh Hrid) as (b & Hn & Hd).
  eexists. split; [exact Hn|]. split; [cbn [re_status]; by destruct (err_code _)|].
  unfold response_error, as_rpc_response. cbn [SdkClient.rs_content SdkClient.rs_headers re_content re_headers content_text].
  destruct (body_value_wf b) as [Hbw Hbj]. destruct (json_stringify_some (body_value b)) as [t Ht]; [done|].
  rewrite Ht. cbn [default from_option id]. rewrite (json_text_read _ t Hbw Ht), Hbj.
  change (map_get _ (js "x-request-id")) with (Some (default requestId (err_requestId e))). exact Hd.
Qed.

Context {C : Type} (parse : rpc_request → HttpRequest) (form_encode : jsmap jstr jstr → jstr).

Definition sdk_fetch fn (requestId : jstr) : rpc_request → stm C exn rpc_response := λ q, st_lift (served parse fn requestId q).
End end_to_end.

(** C14: The RPC client gives the caller what the handler gives [handle].  Whatever the
    handler does with its body, cookies and context: a value arrives as JSON carries
    it, no value as [undefined], and an error, thrown by the handler or by its
    parsing of the body, as the error of the taxonomy with its code, its message and
    a request id.  A handler that returns a [Response] of its own is left out;
    cookies and request ids must be header values. *)
Theorem rpc_through_handle `{ContentCodec} `{JsonText} `{!JsonTextLaws} (to_text : jsval → jstr) (error_message : exn → jstr)
    {C} (parse : rpc_request → HttpRequest) (form_encode : jsmap jstr jstr → jstr) (baseUrl : jstr) (options : Headers)
    (fn : HandlerFn) (requestId method path : jstr) (body : option rpc_body) (headers query : jsmap jstr jstr) (c : C) :
  (∀ v t, json_stringify v = Some t → trim t ≠ []) → requestId ≠ [] →
  let req := {| rr_method := method; rr_url := target_url form_encode baseUrl path query;
                rr_headers := rpc_headers options body headers; rr_body := body ≫= body_payload |} in
  let '(w, r) := outcome to_text error_message fn (parse req) requestId (rr_body req) in
  let call := request to_text form_encode (sdk_fetch to_text error_message (C := C) parse fn requestId) baseUrl options
                method path body headers query c in
  match r with
  | Ok (RResponse _) => True
  | Ok (RValue v) =>
      forallb header_value_ok (w_cookies w) = true → val_wf v → call = (c, Ok (json_value v))
  | Err err =>
      let e := normalizeError to_text err (Some requestId) in
      header_value_ok (default requestId (err_requestId e)) = true →
      call = (c, Err (Normalized (delivered e requestId)))
  end.
Proof.
  intros Hvis Hrid req. pose proof (eq_refl (outcome to_text error_message fn (parse req) requestId (rr_body req))) as E.
  unfold outcome at 1 in E. cbv zeta in E.
  destruct (outcome to_text error_message fn (parse req) requestId (rr_body req)) as [w r].
  assert (∀ resp, (handle to_text error_message (no_next error_message) fn (parse req) requestId (Unread (rr_body req))).2 = Ok resp →
    request to_text form_encode (sdk_fetch to_text error_message (C := C) parse fn requestId) baseUrl options method path body headers query c =
    (c, if success (re_status resp) then response_value (as_rpc_response resp)
        else Err (Normalized (response_error to_text (as_rpc_response resp))))) as Hcall.
  { intros resp Hresp. unfold request. fold req. unfold sdk_fetch, st_lift, served. by rewrite Hresp. }
  unfold handle in Hcall. cbv zeta in Hcall. rewrite E in Hcall. clear E. cbn [snd] in Hcall.
  destruct r as [[resp|v]|err]; [done|..].
  - intros call Hck Hwf. subst call. destruct (value_response error_message Hvis (w_cookies w) v Hck Hwf) as (resp & Hr & Hs & Hv).
    cbn [mbind result_bind] in Hcall. cbn [mbind result_bind] in Hr. rewrite Hr in Hcall. by rewrite (Hcall _ eq_refl), Hs, Hv.
  - intros call e Hh. subst call. destruct (error_response to_text error_message err requestId Hh Hrid) as (resp & Hr & Hs & Hv).
    cbn [mbind result_bind] in Hcall. by rewrite (Hcall _ Hr), Hs, Hv.
Qed.

(** A handler that reads and checks a number, and one that fails *)
#[local] Instance text_codec : ContentCodec :=
  {| bytes_json bs := json_parse (text_decode bs); json_bytes v := text_encode (default [] (json_stringify v)) |}.
Definition double_handler : HandlerFn := λ c,
  HBody (Some (Predicate (λ v, match v with JNum (Fin _) => Ok v | _ => Err (CError (js "not a number") []) end))) (λ r,
    match r with
    | Ok (JNum (Fin q)) => HSetCookie (js "seen") (js "1") None (λ _, HReturn (RValue (JObj [(js "sum", JNum (Fin (q + q)))])))
    | Ok v => HReturn (RValue v)
    | Err err => HThrow err
    end).
Definition ULID_TEXT : jstr := js "01ARZ3NDEKTSV4RRFFQ69G5FAV".
Definition demo_request (q : rpc_request) : HttpRequest :=
  {| h_method := rr_method q; h_origin := []; h_host := []; h_pathname := rr_url q; h_search := []; h_query := [];
     h_headers := rr_headers q; h_body := rr_body q |}.
Definition demo_call (v : jsval) : unit * result rpc_error jsval :=
  request (λ _, []) (λ _, []) (sdk_fetch (λ _, []) (λ _, js "?") (C := unit) demo_request double_handler ULID_TEXT)
    (js "https://shop") [] (js "POST") (js "sum") (Some (BValue v)) [] [] tt.

Theorem rpc_through_handle_witness :
  demo_call (JNum (Fin 21)) = (tt, Ok (JObj [(js "sum", JNum (Fin (21 + 21)))])) ∧
  demo_call (JStr (js "x")) =
    (tt, Err (Normalized {| err_code := VALIDATION_FAILED; err_message := js "Validation failed: not a number";
                            err_requestId := Some ULID_TEXT |})).
Proof.
  assert (∀ v t, json_stringify v = Some t → trim t ≠ []) as Hvis.
  { intros v t Ht Hn. apply trim_nil_iff in Hn. cbn in Ht. destruct (is_undefined v); [discriminate Ht|].
    injection Ht as <-. pose proof (bits_ascii (encode (tree_of (json_value v)))) as Hb. revert Hn Hb.
    generalize (encode (tree_of (json_value v))) as p. intros [p|p|] Hn; inversion Hn; discriminate. }
  assert (ULID_TEXT ≠ []) as Hid by discriminate.
  split; unfold demo_call.
  - pose proof (rpc_through_handle (λ _, []) (λ _, js "?") demo_request (λ _, []) (js "https://shop") [] double_handler ULID_TEXT
      (js "POST") (js "sum") (Some (BValue (JNum (Fin 21)))) [] [] tt Hvis Hid) as H.
    cbv beta zeta in H. destruct (outcome _ _ _ _ _ _) as [w r] eqn:E in H. vm_compute in E. injection E as <- <-.
    etransitivity; [apply H|]; vm_compute; try reflexivity.
    repeat split. apply (bool_decide_unpack _). vm_compute. exact I.
  - pose proof (rpc_through_handle (λ _, []) (λ _, js "?") demo_request (λ _, []) (js "https://shop") [] double_handler ULID_TEXT
      (js "POST") (js "sum") (Some (BValue (JStr (js "x")))) [] [] tt Hvis Hid) as H.
    cbv beta zeta in H. destruct (outcome _ _ _ _ _ _) as [w r] eqn:E in H. vm_compute in E. injection E as <- <-.
    etransitivity; [apply H|]; vm_compute; reflexivity.
Defined.

(** ** Routing *)

Section routing.
Context `{ContentCodec} (to_text : jsval → jstr) (error_message : exn → jstr).
Context {P : Type} (new_URLPattern : jstr → result exn P) (test : P → jstr → bool).

Definition eligible (reqMethod : jstr) (r : CompiledRoute (P := P)) : bool :=
  jstr_eqb (cr_method r) (js "*") || jstr_eqb (cr_method r) reqMethod.

(** A compiled route as one of the platform's, under any name *)
Definition as_config (name : CompiledRoute → jstr) (r : CompiledRoute (P := P)) : RouteConfig :=
  {| route_pattern := cr_pattern r; route_function := name r |}.

Lemma compile_route_spec e r : compile_route new_URLPattern e = Ok r →
  starts_with (cr_pattern r) (js "/") = true ∧ new_URLPattern (cr_pattern r) = Ok (cr_urlPattern r) ∧
  cr_score r = specificityScore (cr_pattern r).
Proof.
  unfold compile_route. destruct (parseRouteKey e.1) as [m pattern] eqn:E. intros (p & Hp & [= <-])%bind_Ok.
  split; [|done]. unfold parseRouteKey in E. destruct (match match_route_key (trim e.1) with Some (m', pattern') => _ | None => _ end) as [m' raw].
  injection E as <- <-.
  change (starts_with (if starts_with raw (js "/") then raw else js "/" ++ raw) (js "/") = true).
  destruct (starts_with raw (js "/")) eqn:Es; [exact Es|apply starts_with_app].
Qed.

(** [api] chooses, among the routes for the request's method, the one that the
    platform's matcher chooses. *)
Theorem sdk_route_parity routes compiled reqMethod path name cache :
  map_result (compile_route new_URLPattern) routes = Ok compiled → cache_ok new_URLPattern cache →
  (matchRoute new_URLPattern test (as_config name <$> filter (λ r, eligible reqMethod r = true) compiled) path cache).2 =
  Ok (as_config name <$> select_route test compiled reqMethod path None (-1)).
Proof.
  intros Hc%map_result_Ok. unfold matchRoute.
  change (@None RouteConfig) with (as_config name <$> @None (CompiledRoute (P := P))).
  generalize (@None (CompiledRoute (P := P))) as w. generalize (-1) as h. revert cache.
  induction Hc as [|e r routes compiled Hr _ IH]; intros cache h w Hcache; [done|].
  apply compile_route_spec in Hr as (Hslash & Hnew & Hscore). rewrite filter_cons. cbn [select_route].
  rewrite <-negb_orb. change (jstr_eqb (cr_method r) (js "*") || jstr_eqb (cr_method r) reqMethod) with (eligible reqMethod r).
  destruct (eligible reqMethod r) eqn:Em; cbn [negb]; [rewrite decide_True by done|rewrite decide_False by done; by apply IH].
  cbn [fmap list_fmap match_loop]. unfold st_bind.
  destruct (getCompiledPattern_spec new_URLPattern (normalizedPattern (as_config name r)) cache Hcache) as [Hcache' Hp].
  destruct (getCompiledPattern _ _ _) as [cache' rp]. cbn [fst snd] in Hcache', Hp. subst rp.
  unfold normalizedPattern. cbn [as_config route_pattern]. rewrite Hslash, Hnew, <-Hscore.
  destruct (test (cr_urlPattern r) path && (h <? cr_score r)); [|by apply IH].
  change (Some (as_config name r)) with (as_config name <$> Some r). by apply IH.
Qed.
End routing.

(** ** Middleware *)

(** The programs that never call [next], and those that call it at most once *)
Fixpoint quiet (p : hprog) : Prop :=
  match p with
  | HReturn _ | HThrow _ => True
  | HBody _ f => ∀ r, quiet (f r)
  | HSetCookie _ _ _ f => ∀ r, quiet (f r)
  | HNext _ => False
  end.
Fixpoint at_most_once (p : hprog) : Prop :=
  match p with
  | HReturn _ | HThrow _ => True
  | HBody _ f => ∀ r, at_most_once (f r)
  | HSetCookie _ _ _ f => ∀ r, at_most_once (f r)
  | HNext f => ∀ r, quiet (f r)
  end.

Section middleware.
Context `{ContentCodec} (to_text : jsval → jstr) (error_message : exn → jstr).
Context {P : Type} (test : P → jstr → bool) (groups : P → jstr → list (jstr * jstr)).

Notation run := (run_handler to_text error_message).
Notation next_of := (router_next to_text error_message test groups).

(** The routes, after all the middleware *)
Definition routes_next (routes : list (CompiledRoute (P := P))) (c : HandlerContext) : stm World caught HandlerResult := λ w,
  let '(body, r) := handle to_text error_message (no_next error_message) (api_handler test groups routes) (c_req c) (c_requestId c) (w_body w) in
  (with_body body w, r ≫= λ response, Ok (RResponse response)).

(** Middleware as nested functions: each one's [next] is the rest *)
Fixpoint onion (mws : list HandlerFn) (routes : list CompiledRoute) (c : HandlerContext) : stm World caught HandlerResult :=
  match mws with
  | [] => routes_next routes c
  | mw :: mws => run (c_requestId c) (onion mws routes c) (mw c)
  end.

(** Equality but for the router's index *)
Definition same_but_index {A} (x y : World * A) : Prop := with_index 0 x.1 = with_index 0 y.1 ∧ x.2 = y.2.

Lemma read_body_index rid v i w :
  read_body to_text error_message rid v (with_index i w) =
  (with_index i (read_body to_text error_message rid v w).1, (read_body to_text error_message rid v w).2).
Proof.
  unfold read_body, req_json. destruct w as [[b|] j [p|] cs]; cbn; try done. by destruct (bytes_json _).
Qed.

Lemma setCookie_index n v o i w :
  setCookie error_message n v o (with_index i w) =
  (with_index i (setCookie error_message n v o w).1, (setCookie error_message n v o w).2).
Proof. unfold setCookie. by destruct (cookie_text n v o). Qed.

Lemma with_index_idem i j w : with_index i (with_index j w) = with_index i w.
Proof. done. Qed.

Lemma index_split w w' : with_index 0 w = with_index 0 w' → ∃ u j j', w = with_index j u ∧ w' = with_index j' u.
Proof.
  intros Hw. exists (with_index 0 w), (w_index w), (w_index w'). split; [by destruct w|]. rewrite Hw. by destruct w'.
Qed.

(** Programs that read worlds which differ in the index only *)
Lemma run_index rid next next' p :
  ∀ w w', with_index 0 w = with_index 0 w' →
  (quiet p ∨ at_most_once p ∧ ∀ w1 w1', w_index w1 = w_index w → w_index w1' = w_index w' → with_index 0 w1 = with_index 0 w1' →
     same_but_index (next w1) (next' w1')) →
  same_but_index (run rid next p w) (run rid next' p w').
Proof.
  induction p as [r|err|v f IH|n v o f IH|f IH]; intros w w' Hw Hp; cbn [run_handler].
  - done.
  - done.
  - destruct (index_split w w' Hw) as (u & j & j' & -> & ->). clear Hw.
    rewrite !(read_body_index rid v). generalize (read_body to_text error_message rid v u) as q. intros [q r].
    cbn [fst snd]. apply IH; [done|]. destruct Hp as [Hq|[Ho Hn]]; [by left|right; split; [apply Ho|]].
    intros w1 w1' H1 H2 H3. by apply Hn.
  - destruct (index_split w w' Hw) as (u & j & j' & -> & ->). clear Hw.
    rewrite !(setCookie_index n v o). generalize (setCookie error_message n v o u) as q. intros [q r].
    cbn [fst snd]. apply IH; [done|]. destruct Hp as [Hq|[Ho Hn]]; [by left|right; split; [apply Ho|]].
    intros w1 w1' H1 H2 H3. by apply Hn.
  - destruct Hp as [[]|[Ho Hn]]. specialize (Hn w w' eq_refl eq_refl Hw).
    destruct (next w) as [w1 r1], (next' w') as [w1' r1']. destruct Hn as [H1 H2]. cbn in H1, H2. subst r1'.
    apply IH; [done|]. left. apply Ho.
Qed.

(** Once every middleware has been entered, [next] goes to the routes: a second call
    of [next] by an outer middleware passes over the inner ones. *)
Lemma next_exhausted fuel mws routes c w : (length mws ≤ w_index w)%nat →
  next_of fuel mws routes c w = routes_next routes c w.
Proof.
  intros Hi. destruct fuel; [done|]. cbn [router_next].
  destruct (_ !! _) eqn:E; [|done]. apply lookup_lt_Some in E. unfold HandlerFn in *. lia.
Qed.

Lemma router_next_onion c routes mws : (∀ mw, mw ∈ mws → at_most_once (mw c)) →
  ∀ pre ms fuel w w', mws = pre ++ ms → (length ms ≤ fuel)%nat → w_index w = length pre → with_index 0 w = with_index 0 w' →
  same_but_index (next_of fuel mws routes c w) (onion ms routes c w').
Proof.
  intros Honce pre ms. revert pre. induction ms as [|m ms IH]; intros pre fuel w w' -> Hfuel Hi Hw.
  - assert (next_of fuel (pre ++ []) routes c w = routes_next routes c w) as ->.
    { apply next_exhausted. rewrite app_nil_r. lia. }
    cbn [onion]. unfold routes_next. assert (w_body w = w_body w') as ->.
    { by apply (f_equal w_body) in Hw. }
    destruct (handle _ _ _ _ _ _ _) as [b r]. split; [|done]. cbn [fst].
    destruct w, w'; cbn in *. injection Hw as -> -> ->. done.
  - destruct fuel as [|fuel]; [cbn in Hfuel; lia|]. cbn [router_next onion].
    rewrite Hi, lookup_app_r, Nat.sub_diag by done. cbn [lookup list_lookup].
    apply run_index; [done|]. right. split; [apply Honce, elem_of_app; right; by left|].
    intros w1 w1' H1 _ Hw1. apply (IH (pre ++ [m])).
    + by rewrite <-app_assoc.
    + cbn in Hfuel. lia.
    + rewrite H1, length_app. cbn. lia.
    + done.
Qed.

(** A body that middleware has read is not there for the routes, whose [handle] has
    no parsed body of its own: reading it is an error. *)
Lemma body_read_once rid v w : w_body w = Consumed → w_parsed w = None →
  read_body to_text error_message rid v w =
  (w, Err (railfog VALIDATION_FAILED (js "Malformed JSON request body: " ++ error_message TypeError) rid)).
Proof. intros Hb Hp. unfold read_body, req_json. by rewrite Hp, Hb. Qed.
End middleware.

(** C15: A router runs its middleware as nested functions.  If no middleware calls
    [next] more than once, then for every request the response, or the error, and
    the state of the body are those of the middleware applied around each other in
    the order of [use], around the routes: each one runs at most once, sees the
    result of the rest where it calls [next], and can answer without it. *)
Theorem router_onion `{ContentCodec} (to_text : jsval → jstr) (error_message : exn → jstr) {P}
    (new_URLPattern : jstr → result exn P) (test : P → jstr → bool) (groups : P → jstr → list (jstr * jstr))
    (r : RouterInstance) (compiled : list CompiledRoute) req requestId body :
  map_result (compile_route new_URLPattern) (routeMap r) = Ok compiled → middlewares r ≠ [] →
  (∀ mw, mw ∈ middlewares r → at_most_once (mw (handler_context requestId req))) →
  (λ run, run req requestId body) <$> router to_text error_message new_URLPattern test groups r =
  Ok (handle to_text error_message (onion to_text error_message test groups (middlewares r) compiled) run_next req requestId body).
Proof.
  intros Hc Hne Honce. unfold router. rewrite Hc. cbn [mbind result_bind fmap result_fmap].
  destruct (middlewares r) as [|m ms] eqn:Em; [done|]. rewrite <-Em in *. f_equal. unfold handle. cbn [run_next run_handler].
  set (w := {| w_body := body; w_index := 0; w_parsed := None; w_cookies := [] |}).
  pose proof (router_next_onion to_text error_message test groups (handler_context requestId req) compiled
    (middlewares r) Honce [] (middlewares r) (length (middlewares r)) w w eq_refl (le_n _) eq_refl eq_refl) as [H1 H2].
  destruct (router_next _ _ _ _ _ _ _ _ w) as [w1 r1], (onion _ _ _ _ _ _ _ w) as [w2 r2]. cbn [fst snd] in H1, H2. subst r2.
  assert (w_body w1 = w_body w2 ∧ w_cookies w1 = w_cookies w2) as [Hb Hck].
  { split; [by apply (f_equal w_body) in H1|by apply (f_equal w_cookies) in H1]. }
  destruct r1; cbn [run_handler]; by rewrite Hb, Hck.
Qed.

(** A middleware that admits requests with a key only, one that marks the answers,
    and a route *)
Definition need_key : HandlerFn := λ c,
  match get_header (c_req c) (js "x-key") with
  | Some _ => HNext (λ r, match r with Ok v => HReturn v | Err err => HThrow err end)
  | None => HThrow (CRailFog {| err_code := PERMISSION_DENIED; err_message := js "no key"; err_requestId := None |})
  end.
Definition mark : HandlerFn := λ _,
  HNext (λ r, HSetCookie (js "seen") (js "a b") None (λ _, match r with Ok v => HReturn v | Err err => HThrow err end)).
Definition demo_router : RouterInstance :=
  router_route (js "GET") (js "items") (λ _, HReturn (RValue (JStr (js "all"))))
    (router_use mark (router_use need_key new_router)).
Definition get_items (hs : Headers) : HttpRequest :=
  {| h_method := js "GET"; h_origin := []; h_host := []; h_pathname := js "/items"; h_search := []; h_query := [];
     h_headers := hs; h_body := None |}.

Theorem router_onion_witness :
  (λ run, run (get_items [(js "x-key", js "1")]) ULID_TEXT (Unread None)) <$>
    router (λ _, []) (λ _, js "?") (@Ok exn jstr) jstr_eqb (λ _ _, []) demo_router =
  Ok (Unread None, Ok {| re_status := 200;
    re_headers := [(js "content-type", js "application/json"); (js "set-cookie", js "seen=a%20b; Path=/")];
    re_content := JsonOf (JStr (js "all")); re_fixed := false |}).
Proof.
  etransitivity; [eapply (router_onion (λ _, []) (λ _, js "?") (@Ok exn jstr) jstr_eqb (λ _ _, []) demo_router)|].
  - vm_compute. reflexivity.
  - discriminate.
  - intros mw Hmw. change (middlewares demo_router) with [need_key; mark] in Hmw.
    apply elem_of_cons in Hmw as [->|[->|[]%elem_of_nil]%elem_of_cons].
    + unfold need_key. destruct (get_header _ _); [|exact I]. intros [v|e]; exact I.
    + intros r x. by destruct r.
  - vm_compute. reflexivity.
Defined.

(** ** Cookies *)

(** What a browser sends back of a [Set-Cookie] header: the part before the first
    semicolon *)
Definition cookie_pair (setCookie : jstr) : jstr := default [] (head (split_on (chr ";") setCookie)).

Lemma uri_char_not c e : Forall uri_char e → c = 59 ∨ c = 61 → c ∉ e.
Proof. intros H Hc Hin. rewrite Forall_forall in H. apply H in Hin as (_ & _ & H1 & H2). lia. Qed.

Lemma uri_no_space e : Forall uri_char e → no_space e.
Proof.
  intros He. eapply Forall_impl; [exact He|]. intros c (H & _). unfold is_space.
  destruct (_ || _) eqn:E; [|done]. repeat (apply orb_true_iff in E as [E|E]); zbool; lia.
Qed.

Lemma attributes_start o : ∃ rest,
  attribute (js "Max-Age") ((λ q, string_of_int (Qround.Qfloor q)) <$> co_maxAge o) ++
  attribute (js "Expires") (co_expires o) ++ attribute (js "Domain") (nonempty_text (co_domain o)) ++
  attribute (js "Path") (Some (default (js "/") (co_path o))) ++
  (if co_secure o then js "; Secure" else []) ++ (if co_httpOnly o then js "; HttpOnly" else []) ++
  attribute (js "SameSite") ((λ s, to_upper (take 1 s) ++ to_lower (drop 1 s)) <$> nonempty_text (co_sameSite o)) = chr ";" :: rest.
Proof.
  destruct o as [dom ex ho ma pa sa se]; cbn [co_maxAge co_expires co_domain co_path co_secure co_httpOnly co_sameSite].
  destruct ma; [by eexists|]. destruct ex; [by eexists|]. destruct dom as [[|]|]; by eexists.
Qed.

Lemma cookie_pair_text n v o t : jstr_wf n → jstr_wf v → cookie_text n v o = Ok t →
  ∃ en ev, encodeURIComponent n = Ok en ∧ encodeURIComponent v = Ok ev ∧ cookie_pair t = en ++ js "=" ++ ev.
Proof.
  intros Hn Hv. unfold cookie_text. cbv zeta. intros (en & Hen & (ev & Hev & Ht)%bind_Ok)%bind_Ok.
  exists en, ev. split; [done|]. split; [done|]. destruct (attributes_start (default no_cookie_options o)) as [rest Hrest].
  assert (t = en ++ js "=" ++ ev ++ chr ";" :: rest) as -> by (rewrite Hrest in Ht; by injection Ht). unfold cookie_pair.
  rewrite (app_assoc (js "=")), (app_assoc en). rewrite split_on_app; [done|]. pose proof (encodeURIComponent_chars n en Hn Hen). pose proof (encodeURIComponent_chars v ev Hv Hev).
  rewrite !not_elem_of_app. split_and!; [by apply uri_char_not; [|left]| |by apply uri_char_not; [|left]].
  apply (bool_decide_unpack _). vm_compute. exact I.
Qed.

Lemma cookie_part_pair pad n v en ev : pad = [] ∨ pad = js " " → jstr_wf n → jstr_wf v → n ≠ [] →
  encodeURIComponent n = Ok en → encodeURIComponent v = Ok ev →
  cookie_part decodeURIComponent (pad ++ en ++ js "=" ++ ev) = Some (en, v).
Proof.
  intros Hpad Hn Hv Hne Hen Hev. pose proof (encodeURIComponent_chars n en Hn Hen) as Hcn.
  pose proof (encodeURIComponent_chars v ev Hv Hev) as Hcv.
  assert (chr "=" ∉ pad ++ en) as Hno.
  { rewrite not_elem_of_app. split; [|by apply uri_char_not; [|right]].
    destruct Hpad as [->| ->]; apply (bool_decide_unpack _); vm_compute; exact I. }
  assert (en ≠ []) as Hene.
  { intros ->. pose proof (decodeURIComponent_encode n [] Hn Hen) as Hd. cbn in Hd. by injection Hd as <-. }
  assert (trim (pad ++ en) = en) as Htrim.
  { transitivity (trim en); [|by apply trim_no_space, uri_no_space]. by destruct Hpad as [->| ->]. }
  unfold cookie_part. change (js "=") with [chr "="]. rewrite app_assoc. cbn [app].
  rewrite index_of_char by done. rewrite take_app_length. rewrite Htrim.
  rewrite (drop_app_ge _ _ _) by lia. replace (length (pad ++ en) + 1 - length (pad ++ en))%nat with 1%nat by lia.
  change (drop 1 (_ :: ev)) with ev. rewrite (trim_no_space ev) by by apply uri_no_space. rewrite (decodeURIComponent_encode v ev) by done.
  by destruct en.
Qed.

Lemma cookie_parts_joined (ps : list (jstr * jstr)) (es : list jstr) :
  Forall2 (λ p e, ∀ pad, pad = [] ∨ pad = js " " → cookie_part decodeURIComponent (pad ++ e) = Some p ∧ chr ";" ∉ pad ++ e) ps es →
  omap (cookie_part decodeURIComponent) (split_on (chr ";") (str_join (js "; ") es)) = ps.
Proof.
  intros H. assert (∀ pad, pad = [] ∨ pad = js " " → es ≠ [] →
    omap (cookie_part decodeURIComponent) (split_on (chr ";") (pad ++ str_join (js "; ") es)) = ps) as Hall.
  - induction H as [|p e ps es Hp Hps IH]; intros pad Hpad Hne; [done|]. destruct (Hp pad Hpad) as [H1 H2].
    destruct es as [|e' es]; cbn [str_join].
    + inversion_clear Hps. rewrite split_on_none by done. cbn [omap list_omap]. by rewrite H1.
    + change (js "; ") with (chr ";" :: js " ") at 1. cbn [app].
      rewrite app_assoc, split_on_app by done. cbn [omap list_omap]. rewrite H1. f_equal.
      by apply (IH (js " ")); [right|].
  - destruct es; [inversion H; vm_compute; reflexivity|]. by apply (Hall []); [left|].
Qed.

(** Cookies that [setCookie] has written are read as they were: after a browser has
    sent back the pairs of the [Set-Cookie] headers, each value is found under the
    encoding of its name, that is, under the name itself if it needs no encoding. *)
Theorem cookie_roundtrip (cs : list (jstr * jstr * option CookieOptions)) texts :
  Forall (λ c, jstr_wf c.1.1 ∧ jstr_wf c.1.2 ∧ c.1.1 ≠ []) cs → NoDup (fst ∘ fst <$> cs) →
  map_result (λ c, cookie_text c.1.1 c.1.2 c.2) cs = Ok texts →
  ∀ n v o en, (n, v, o) ∈ cs → encodeURIComponent n = Ok en → en ≠ PROTO →
  map_get (parsedCookies (Some (str_join (js "; ") (cookie_pair <$> texts)))) en = Some v.
Proof.
  intros Hwf Hnd Ht n v o en Hin Hen Hproto. apply map_result_Ok in Ht.
  assert (∃ ps, Forall2 (λ c p, encodeURIComponent c.1.1 = Ok p.1 ∧ c.1.2 = p.2) cs ps ∧
    Forall2 (λ p e, ∀ pad, pad = [] ∨ pad = js " " → cookie_part decodeURIComponent (pad ++ e) = Some p ∧ chr ";" ∉ pad ++ e)
      ps (cookie_pair <$> texts)) as (ps & Hps & Hparts).
  { clear Hnd Hin. induction Ht as [|[[n' v'] o'] t cs ts Hc _ IH]; [by exists []|].
    apply Forall_cons in Hwf as [(Hn & Hv & Hne) Hwf]. destruct (IH Hwf) as (ps & H1 & H2).
    cbn [fst snd] in *. destruct (cookie_pair_text n' v' o' t Hn Hv Hc) as (en' & ev & He1 & He2 & Hpair).
    exists ((en', v') :: ps). split; [by constructor|]. cbn [fmap list_fmap]. constructor; [|done].
    intros pad Hpad. rewrite Hpair. split; [by apply (cookie_part_pair pad n' v')|].
    pose proof (encodeURIComponent_chars _ _ Hn He1). pose proof (encodeURIComponent_chars _ _ Hv He2).
    rewrite !not_elem_of_app. split_and!; [|by apply uri_char_not; [|left]| |by apply uri_char_not; [|left]].
    - destruct Hpad as [->| ->]; apply (bool_decide_unpack _); vm_compute; exact I.
    - apply (bool_decide_unpack _); vm_compute; exact I. }
  assert ((en, v) ∈ ps) as Hp.
  { apply list_elem_of_lookup in Hin as [i Hi]. destruct (Forall2_lookup_l _ _ _ _ _ Hps Hi) as ([en' v'] & Hp & E1 & E2).
    cbn [fst snd] in E1, E2. rewrite Hen in E1. injection E1 as <-. subst v'. by eapply list_elem_of_lookup_2. }
  assert (map_wf ps) as Hpwf.
  { clear Hin Hp Hparts Ht. unfold map_wf, map_keys. induction Hps as [|[[n' v'] o'] [en' v''] cs ps [E1 E2] Hps IH]; [constructor|].
    cbn [fst snd] in *. apply Forall_cons in Hwf as [(Hn & Hv & Hne) Hwf]. cbn [fmap list_fmap] in *.
    apply NoDup_cons in Hnd as [Hni Hnd]. constructor; [|by apply IH]. intros (p & E & Hp)%list_elem_of_fmap.
    apply list_elem_of_lookup in Hp as [i Hi]. destruct (Forall2_lookup_r _ _ _ _ _ Hps Hi) as (c & Hc & F1 & F2).
    apply Hni, list_elem_of_fmap. exists c. split; [|by eapply list_elem_of_lookup_2].
    rewrite Forall_forall in Hwf. destruct (Hwf c) as (Hcn & _); [by eapply list_elem_of_lookup_2|]. cbn in E. subst en'.
    by eapply encodeURIComponent_inj. }
  unfold parsedCookies. destruct (str_join _ _) as [|x xs] eqn:Ej.
  - exfalso. apply cookie_parts_joined in Hparts. rewrite Ej in Hparts. cbn in Hparts. subst ps. by apply elem_of_nil in Hp.
  - rewrite <-Ej, (cookie_parts_joined ps _ Hparts). rewrite map_get_obj_build by done. by apply elem_map_get.
Qed.

(** ** Server-sent events *)

(** A reference reader of an event stream, as the standard of [EventSource] gives it
    (without [retry], which makes no event): the complete lines of the stream, and
    what each of them does to the buffers and the events that were dispatched. *)
Fixpoint stream_lines (line s : jstr) : list jstr :=
  match s with
  | [] => []
  | c :: s' =>
      if c =? 10 then line :: stream_lines [] s'
      else if c =? 13 then (if starts_with s' [10] then stream_lines line s' else line :: stream_lines [] s')
      else stream_lines (line ++ [c]) s'
  end.

Record Buffers := { b_data : option jstr; b_type : jstr; b_lastId : jstr; b_events : list (jstr * jstr * jstr) }.
Definition empty_buffers (lastId : jstr) : Buffers := {| b_data := None; b_type := []; b_lastId := lastId; b_events := [] |}.

Definition read_line (b : Buffers) (line : jstr) : Buffers :=
  match line with
  | [] =>
      {| b_data := None; b_type := []; b_lastId := b_lastId b;
         b_events := b_events b ++
           match b_data b with
           | Some d => [(match b_type b with [] => js "message" | t => t end, d, b_lastId b)]
           | None => []
           end |}
  | _ =>
      let '(field, value) := match index_of line (js ":") with
        | None => (line, [])
        | Some i => (take i line, match drop (i + 1) line with 32 :: v => v | v => v end)
        end in
      if jstr_eqb field (js "event") then {| b_data := b_data b; b_type := value; b_lastId := b_lastId b; b_events := b_events b |}
      else if jstr_eqb field (js "data") then
        {| b_data := Some match b_data b with Some d => d ++ [10] ++ value | None => value end; b_type := b_type b;
           b_lastId := b_lastId b; b_events := b_events b |}
      else if jstr_eqb field (js "id") && negb (existsb (Z.eqb 0) value) then
        {| b_data := b_data b; b_type := b_type b; b_lastId := value; b_events := b_events b |}
      else b
  end.

Definition read_events (stream : jstr) : list (jstr * jstr * jstr) :=
  b_events (fold_left read_line (stream_lines [] stream) (empty_buffers [])).

(** Text that cannot break a line *)
Definition plain_line (s : jstr) : Prop := 10 ∉ s ∧ 13 ∉ s.

Section sse.
Context (json_stringify : jsval → option jstr).

Definition event_text (e : SseEvent) : jstr :=
  match se_data e with JUndef => [] | JStr s => s | v => default [] (json_stringify v) end.
Definition event_plain (e : SseEvent) : Prop :=
  13 ∉ event_text e ∧ (∀ s, se_event e = Some s → plain_line s) ∧ (∀ s, se_id e = Some s → plain_line s ∧ 0 ∉ s) ∧
  (∀ s, se_retry e = Some s → plain_line s).

(** The events as they should arrive: an event without an id has the last one *)
Fixpoint arriving (lastId : jstr) (es : list SseEvent) : list (jstr * jstr * jstr) :=
  match es with
  | [] => []
  | e :: es =>
      let i := default lastId (se_id e) in
      (match se_event e with None | Some [] => js "message" | Some t => t end, event_text e, i) :: arriving i es
  end.

Lemma stream_lines_app l line s : plain_line l → stream_lines line (l ++ 10 :: s) = (line ++ l) :: stream_lines [] s.
Proof.
  intros [H1 H2]. revert line. induction l as [|c l IH]; intros line; cbn [app stream_lines].
  - by rewrite app_nil_r.
  - apply not_elem_of_cons in H1 as [Hc1 H1]. apply not_elem_of_cons in H2 as [Hc2 H2].
    rewrite (proj2 (Z.eqb_neq c 10)), (proj2 (Z.eqb_neq c 13)) by done. rewrite IH by done. by rewrite <-app_assoc.
Qed.

Lemma split_lines_plain s : 13 ∉ s → Forall plain_line (split_lines s) ∧ str_join [10] (split_lines s) = s ∧ split_lines s ≠ [].
Proof.
  induction s as [|c s IH]; intros Hs.
  - split; [|done]. constructor; [|constructor]. split; by apply not_elem_of_nil.
  - apply not_elem_of_cons in Hs as [Hc Hs]. destruct (IH Hs) as (H1 & H2 & H3). cbn [split_lines].
    rewrite (proj2 (Z.eqb_neq c 13)) by done. cbn [andb]. destruct (Z.eqb_spec c 10) as [->|Hn].
    + split_and!; [|by destruct (split_lines s); [done|]; cbn [str_join app] in *; rewrite H2|done].
      constructor; [split; apply not_elem_of_nil|done].
    + destruct (split_lines s) as [|l ls]; [done|]. split_and!; [| |done].
      * apply Forall_cons in H1 as [[Hl1 Hl2] H1]. constructor; [|done].
        split; rewrite not_elem_of_cons; done.
      * rewrite <-H2. by destruct ls.
Qed.

(** A field of the payload as lines of the stream *)
Lemma sse_field_lines name value s : plain_line name → (∀ v, value = Some v → plain_line v) →
  stream_lines [] (sse_field name value ++ s) =
  (match value with Some v => [name ++ js ": " ++ v] | None => [] end) ++ stream_lines [] s.
Proof.
  intros Hn Hv. destruct value as [v|]; [|done]. destruct (Hv v eq_refl) as [H1 H2]. cbn [sse_field].
  transitivity (stream_lines [] ((name ++ js ": " ++ v) ++ 10 :: s)); [by rewrite <-!app_assoc|].
  apply stream_lines_app. destruct Hn as [Hn1 Hn2].
  split; rewrite !not_elem_of_app; (split_and!; [done| |done]); apply (bool_decide_unpack _); vm_compute; exact I.
Qed.

Lemma data_lines ls s : Forall plain_line ls →
  stream_lines [] (flat_map (λ line, sse_field (js "data") (Some line)) ls ++ s) =
  ((λ l, js "data: " ++ l) <$> ls) ++ stream_lines [] s.
Proof.
  induction 1 as [|l ls Hl _ IH]; [done|]. cbn [flat_map]. rewrite <-app_assoc, sse_field_lines.
  - rewrite IH. done.
  - split; apply (bool_decide_unpack _); vm_compute; exact I.
  - by intros v [= <-].
Qed.

Lemma read_field b name v : chr ":" ∉ name → name ≠ [] →
  read_line b (name ++ js ": " ++ v) =
  if jstr_eqb name (js "event") then {| b_data := b_data b; b_type := v; b_lastId := b_lastId b; b_events := b_events b |}
  else if jstr_eqb name (js "data") then
    {| b_data := Some match b_data b with Some d => d ++ [10] ++ v | None => v end; b_type := b_type b;
       b_lastId := b_lastId b; b_events := b_events b |}
  else if jstr_eqb name (js "id") && negb (existsb (Z.eqb 0) v) then
    {| b_data := b_data b; b_type := b_type b; b_lastId := v; b_events := b_events b |}
  else b.
Proof.
  intros Hc Hn. change (js ": " ++ v) with (chr ":" :: 32 :: v). unfold read_line. change (js ":") with [chr ":"].
  rewrite index_of_char by done. rewrite take_app_length, drop_app_ge by lia.
  replace (length name + 1 - length name)%nat with 1%nat by lia. cbn [drop]. by destruct name.
Qed.

Lemma read_event b v : read_line b (js "event" ++ js ": " ++ v) =
  {| b_data := b_data b; b_type := v; b_lastId := b_lastId b; b_events := b_events b |}.
Proof. rewrite read_field; [done| |done]. apply (bool_decide_unpack _); vm_compute; exact I. Qed.

Lemma read_retry b v : read_line b (js "retry" ++ js ": " ++ v) = b.
Proof. rewrite read_field; [done| |done]. apply (bool_decide_unpack _); vm_compute; exact I. Qed.

Lemma read_id b v : 0 ∉ v → read_line b (js "id" ++ js ": " ++ v) =
  {| b_data := b_data b; b_type := b_type b; b_lastId := v; b_events := b_events b |}.
Proof.
  intros Hv. rewrite read_field; [|apply (bool_decide_unpack _); vm_compute; exact I|done].
  assert (existsb (Z.eqb 0) v = false) as ->; [|done].
  apply existsb_false_iff, Forall_forall. intros z Hz. apply Z.eqb_neq. by intros <-.
Qed.

Lemma read_data ls b : ls ≠ [] →
  fold_left read_line ((λ l, js "data: " ++ l) <$> ls) b =
  {| b_data := Some match b_data b with Some d => d ++ [10] ++ str_join [10] ls | None => str_join [10] ls end;
     b_type := b_type b; b_lastId := b_lastId b; b_events := b_events b |}.
Proof.
  assert (∀ l b, read_line b (js "data: " ++ l) =
    {| b_data := Some match b_data b with Some d => d ++ [10] ++ l | None => l end; b_type := b_type b;
       b_lastId := b_lastId b; b_events := b_events b |}) as Hone.
  { intros l b'. change (js "data: " ++ l) with (js "data" ++ js ": " ++ l). rewrite read_field; [done| |done].
    apply (bool_decide_unpack _); vm_compute; exact I. }
  revert b. induction ls as [|l ls IH]; intros b Hne; [done|]. cbn [fmap list_fmap fold_left]. rewrite Hone.
  destruct ls as [|l' ls]; [done|]. rewrite IH by done. cbn [b_data b_type b_lastId b_events str_join].
  f_equal. f_equal. by destruct (b_data b); rewrite <-?app_assoc.
Qed.

Lemma read_field_opt name value b : chr ":" ∉ name → name ≠ [] →
  fold_left read_line (match value with Some v => [name ++ js ": " ++ v] | None => [] end) b =
  match value with Some v => read_line b (name ++ js ": " ++ v) | None => b end.
Proof. by destruct value. Qed.

Lemma read_payload e b rest : event_plain e → b_data b = None → b_type b = [] →
  fold_left read_line (stream_lines [] (sse_payload json_stringify e ++ rest)) b =
  fold_left read_line (stream_lines [] rest)
    {| b_data := None; b_type := []; b_lastId := default (b_lastId b) (se_id e);
       b_events := b_events b ++ [(match se_event e with None | Some [] => js "message" | Some t => t end, event_text e,
                                   default (b_lastId b) (se_id e))] |}.
Proof.
  intros (Hd & He & Hi & Hr) Hb Ht. destruct (split_lines_plain (event_text e) Hd) as (Hp & Hj & Hne).
  unfold sse_payload. fold (event_text e). rewrite <-!app_assoc.
  assert (∀ n, n = js "id" ∨ n = js "event" ∨ n = js "retry" → plain_line n ∧ chr ":" ∉ n ∧ n ≠ []) as Hn.
  { intros n [->|[->| ->]]; (split; [split|split; [|done]]); apply (bool_decide_unpack _); vm_compute; exact I. }
  destruct (Hn (js "id")) as (I1 & I2 & I3); [by auto|]. destruct (Hn (js "event")) as (E1 & E2 & E3); [by auto|].
  destruct (Hn (js "retry")) as (R1 & R2 & R3); [by auto|].
  rewrite !sse_field_lines, data_lines by (try done; intros v Hv; by apply Hi). cbn [app]. cbn [stream_lines].
  change (10 =? 10) with true. cbv iota. rewrite !fold_left_app, !read_field_opt by done. cbn [fold_left].
  assert (match se_id e with Some v => read_line b (js "id" ++ js ": " ++ v) | None => b end =
    {| b_data := None; b_type := []; b_lastId := default (b_lastId b) (se_id e); b_events := b_events b |}) as ->.
  { destruct (se_id e); [rewrite read_id by by apply Hi|]; destruct b; cbn in *; by subst. }
  assert (∀ b', match se_retry e with Some v => read_line b' (js "retry" ++ js ": " ++ v) | None => b' end = b') as ->.
  { intros b'. destruct (se_retry e); [apply read_retry|done]. }
  destruct (se_event e) as [t|]; rewrite ?read_event, read_data, Hj by done; [|done]. by destruct t.
Qed.

(** A reader of the stream gets the events that were sent, in order, with their type,
    their text line for line and their id, if no carriage return is in them and no
    line break in a type or an id. *)
Theorem sse_roundtrip es : Forall event_plain es →
  read_events (flat_map (sse_payload json_stringify) es) = arriving [] es.
Proof.
  intros Hes. unfold read_events. assert (∀ i evs,
    b_events (fold_left read_line (stream_lines [] (flat_map (sse_payload json_stringify) es))
      {| b_data := None; b_type := []; b_lastId := i; b_events := evs |}) = evs ++ arriving i es) as H; [|apply H].
  induction Hes as [|e es He _ IH]; intros i evs; [by rewrite app_nil_r|].
  cbn [flat_map arriving]. rewrite read_payload by done. cbn [b_data b_type b_lastId b_events].
  by rewrite IH, <-app_assoc.
Qed.
End sse.
