(* ===== verification/DenoKvSafety.v ===== *)
(** * Concurrent clients of the Deno KV provider

    Many calls of [providers/kv/deno-deploy-provider.ts] run at once: every
    operation on Deno KV is a step of its own, and between two steps of a call
    the other calls go on.  [deno_history_atomic] shows that the versionstamp
    checks make writes atomic all the same: every history of calls and answers
    is a history of the versioned map of [KvInterface], in which a call takes
    effect in one step.  [provider_parity] compares the provider with the SQLite
    one, and [torn_read] shows the limit of the first result: a value in chunks
    is not read in one step. *)

From S2P Require Import Prelude Histories JsString JsMap Errors Utf8 TextDecoder JsNumber JsValue KvInterface SqliteKv DenoKv DenoTtl DenoMemory.

Open Scope Z_scope.
Open Scope railfog_scope.

(** A call is made, an answer is given. *)
Inductive event :=
| Invoke (id : nat) (c : kv_call kv_value)
| Answer (id : nat) (r : result exn (kv_reply kv_value)).

Section concurrency.
Context `{JsonText} {JTL : JsonTextLaws} {D : Type} `{DenoKv D} {DL : DenoKvLaws D}.

(** ** The provider's calls, interleaved *)

Record world := { w_db : D; w_calls : gmap nat (kvprog (kv_reply kv_value)) }.

(** One operation of a program; the clock may show any time. *)
Inductive prog_step (d : D) : kvprog (kv_reply kv_value) → D → kvprog (kv_reply kv_value) → Prop :=
| step_now f t : prog_step d (Now f) d (f t)
| step_sleep f : prog_step d (Sleep f) d f
| step_read q f : prog_step d (Read q f) d (f (entry_at d q))
| step_atomic now cs ms f d' b :
    dk_commit now cs ms d = (d', Ok b) → prog_step d (Atomic cs ms f) d' (f b)
| step_refused now cs ms f d' e :
    dk_commit now cs ms d = (d', Err e) → prog_step d (Atomic cs ms f) d' (Throw e)
| step_remove q f : prog_step d (Remove q f) (dk_remove q d) f
| step_entries q c f : prog_step d (Entries q c f) d (f (dk_entries d q c)).

Inductive kv_step (w : world) : option event → world → Prop :=
| kv_invoke id c :
    w_calls w !! id = None →
    kv_step w (Some (Invoke id c)) {| w_db := w_db w; w_calls := <[id := deno_call c]> (w_calls w) |}
| kv_move id p d' p' :
    w_calls w !! id = Some p → prog_step (w_db w) p d' p' →
    kv_step w None {| w_db := d'; w_calls := <[id := p']> (w_calls w) |}
| kv_done id r :
    w_calls w !! id = Some (Done r) →
    kv_step w (Some (Answer id (Ok r))) {| w_db := w_db w; w_calls := delete id (w_calls w) |}
| kv_thrown id e :
    w_calls w !! id = Some (Throw e) →
    kv_step w (Some (Answer id (Err e))) {| w_db := w_db w; w_calls := delete id (w_calls w) |}.

(** ** The specification: calls that take effect in one step *)

Inductive status :=
| Pending (c : kv_call kv_value)
| Decided (r : result exn (kv_reply kv_value)).

Record atomic_world := { a_store : key → option (kv_value * Z); a_calls : gmap nat status }.

(** The provider's checks of the arguments of a call *)
Definition validate_call (c : kv_call kv_value) : result exn unit :=
  match c with
  | CGet k | CDelete k => validateKey k
  | CSet k v => validateKey k ≫= λ _, validatePayload v
  | CCommit cs mus => validate_commit cs mus
  end.

(** The errors of a call: its arguments, a refusal by Deno KV, and for [set] the
    end of the compare-and-swap attempts *)
Definition may_throw (c : kv_call kv_value) (e : exn) : Prop :=
  validate_call c = Err e ∨
  match c with
  | CGet _ => False
  | CSet _ _ => e = ConflictError ∨ refused (D := D)
  | CDelete _ | CCommit _ _ => refused (D := D)
  end.

(** What a call may do to the map in one step: its effect with the answer of the
    specification, or nothing with an error or, for a commit, a conflict *)
Inductive decides (m : key → option (kv_value * Z)) (c : kv_call kv_value) :
    (key → option (kv_value * Z)) → result exn (kv_reply kv_value) → Prop :=
| decides_effect : decides m c (spec_call m (stored_call c)).1 (Ok (spec_call m (stored_call c)).2)
| decides_error e : may_throw c e → decides m c m (Err e)
| decides_conflict cs mus :
    c = CCommit cs mus → decides m c m (Ok (RCommit {| cr_ok := false; cr_version := None |})).

Inductive atomic_step (a : atomic_world) : option event → atomic_world → Prop :=
| atomic_invoke id c :
    a_calls a !! id = None →
    atomic_step a (Some (Invoke id c)) {| a_store := a_store a; a_calls := <[id := Pending c]> (a_calls a) |}
| atomic_decide id c m' r :
    a_calls a !! id = Some (Pending c) → decides (a_store a) c m' r →
    atomic_step a None {| a_store := m'; a_calls := <[id := Decided r]> (a_calls a) |}
| atomic_answer id r :
    a_calls a !! id = Some (Decided r) →
    atomic_step a (Some (Answer id r)) {| a_store := a_store a; a_calls := delete id (a_calls a) |}.

(** ** The invariant *)

(** The keys whose values are never split: the only ones that may be read while
    others write. *)
Context (small : key → Prop).

Definition unsplit (q : dkey) (v : stored_value) : Prop :=
  match v with Chunked _ _ _ _ => ∀ k, q = user_key k → ¬ small k | _ => True end.
Definition tidy (q : dkey) (v : stored_value) : Prop := lasting q v ∧ unsplit q v.

Definition store_ok (d : D) : Prop := deno_inv 0 (dk_row d) ∧ all_values tidy (dk_row d).
Definition abs (d : D) : key → option (kv_value * Z) := live_entry 0 (dk_row d).

(** The calls considered *)
Definition call_ok (c : kv_call kv_value) : Prop :=
  match c with
  | CGet k => small k
  | CSet k v => value_wf v ∧ (small k → isLargePayload v = false)
  | CDelete _ => True
  | CCommit _ mus =>
      Forall (λ mu, match mu with MSet k v => value_wf v ∧ (small k → isLargePayload v = false)
                                | MDelete _ => True end) mus
  end.
Definition event_ok (e : event) : Prop := match e with Invoke _ c => call_ok c | Answer _ _ => True end.

(** [d'] is a later state: what it holds with an old versionstamp is old. *)
Definition later (d d' : D) : Prop :=
  dk_clock d ≤ dk_clock d' ∧
  ∀ q r, dk_row d' q = Some r → r_stamp r ≤ dk_clock d → dk_row d q = Some r.

#[export] Instance later_po : PreOrder later.
Proof.
  split.
  - intros d. split; [done|]. auto.
  - intros d1 d2 d3 [H12 Hr12] [H23 Hr23]. split; [lia|]. intros q r Hq Hs.
    apply Hr12; [apply Hr23; [done|lia]|done].
Qed.

Lemma later_remove d q : later d (dk_remove q d).
Proof.
  split; [apply dk_remove_clock|]. intros q' r. rewrite dk_remove_row. by case_decide.
Qed.

Lemma native_steps_new now s ms m q r :
  native_steps now s m ms q = Some r → r_stamp r = s ∨ m q = Some r.
Proof.
  unfold native_steps. revert m. induction ms as [|n ms IH]; intros m; cbn; [by right|].
  intros [?|Hm]%IH; [by left|]. destruct n; cbn in Hm; case_decide; try done; [|by right..].
  injection Hm as <-. by left.
Qed.

Lemma later_commit d now cs ms d' r : dk_commit now cs ms d = (d', r) → later d d'.
Proof.
  intros Hd. destruct (dk_accepts cs ms) eqn:Ea.
  - destruct (forallb (check_holds (dk_row d)) cs) eqn:Ec.
    + destruct (dk_commit_applies d now cs ms Ea Ec) as (d1 & Hd1 & Hlt & Hrows).
      rewrite Hd in Hd1. injection Hd1 as -> _. split; [lia|]. intros q r1. rewrite Hrows.
      intros [Hs|?]%native_steps_new; [lia|done].
    + rewrite (dk_commit_fails d now cs ms Ea Ec) in Hd. by injection Hd as -> _.
  - destruct (dk_commit_refused d now cs ms Ea) as [e He]. rewrite He in Hd. by injection Hd as -> _.
Qed.

Lemma later_step d p d' p' : prog_step d p d' p' → later d d'.
Proof. intros Hp. inversion Hp; subst; [done|done|done|by eapply later_commit..|apply later_remove|done]. Qed.

(** A check that holds means that the entry is as it was read. *)
Lemma check_current d d' q :
  later d d' → check_holds (dk_row d') (entry_at d q) = true → dk_row d' q = dk_row d q.
Proof.
  unfold check_holds. intros [_ Hl] Hc%bool_decide_eq_true. cbn in Hc.
  destruct (dk_row d' q) as [r|] eqn:E; cbn in Hc.
  - destruct (dk_row d q) as [r0|] eqn:E0; [|done]. injection Hc as Hs. rewrite <-E0. symmetry.
    apply Hl; [done|]. rewrite Hs. by eapply dk_stamps.
  - by destruct (dk_row d q).
Qed.

(** *** Where a call stands

    [decided r p]: [p] only has to answer [r].  [pend d c p]: the call [c] has had
    no effect when the store was [d], and whatever the others do it will have the
    effect of the specification at one of its operations, or none. *)
Fixpoint decided (r : result exn (kv_reply kv_value)) (p : kvprog (kv_reply kv_value)) : Prop :=
  match p with
  | Done a => r = Ok a
  | Throw e => r = Err e
  | Now f => ∀ t, decided r (f t)
  | Sleep f => decided r f
  | _ => False
  end.

(** The operation that took the store from [d] to [d'] is the effect of [c]. *)
Definition effect (d : D) (c : kv_call kv_value) (d' : D) (p : kvprog (kv_reply kv_value)) : Prop :=
  store_ok d' ∧ (∀ k, abs d' k = (spec_call (abs d) (stored_call c)).1 k) ∧
  decided (Ok (spec_call (abs d) (stored_call c)).2) p.

Fixpoint pend (d0 : D) (c : kv_call kv_value) (p : kvprog (kv_reply kv_value)) : Prop :=
  match p with
  | Done r => (∃ cs mus, c = CCommit cs mus) ∧ r = RCommit {| cr_ok := false; cr_version := None |}
  | Throw e => may_throw c e
  | Now f => ∀ t, pend d0 c (f t)
  | Sleep f => pend d0 c f
  | Read q f => ∀ d, later d0 d → store_ok d →
      pend d c (f (entry_at d q)) ∨ effect d c d (f (entry_at d q))
  | Atomic cs ms f =>
      (∀ e, refused (D := D) → may_throw c e) ∧
      ∀ d now, later d0 d → store_ok d →
      if forallb (check_holds (dk_row d)) cs
      then ∀ d', (∀ q, dk_row d' q = native_steps now (dk_clock d') (dk_row d) ms q) → effect d c d' (f true)
      else pend d c (f false)
  | Remove q f => ∀ d d', later d0 d → store_ok d →
      (∀ q', dk_row d' q' = if decide (q' = q) then None else dk_row d q') → effect d c d' f
  | Entries _ _ _ => False
  end.

Lemma pend_later d0 d1 c p : later d0 d1 → pend d0 c p → pend d1 c p.
Proof.
  intros Hl. induction p as [a|e|f IH|f IH|q f IH|cs ms f IH|q f IH|q cu f IH]; cbn; auto.
  - intros Hp d Hd. apply Hp. by transitivity d1.
  - intros [He Hp]. split; [done|]. intros d now Hd. apply Hp. by transitivity d1.
  - intros Hp d d' Hd. apply Hp. by transitivity d1.
Qed.

(** The operations of a pending or decided call *)
Lemma decided_step r d p d' p' : prog_step d p d' p' → decided r p → d' = d ∧ decided r p'.
Proof. intros Hs. inversion Hs; subst; cbn; naive_solver. Qed.

Lemma pend_step d c p d' p' :
  store_ok d → pend d c p → prog_step d p d' p' →
  (d' = d ∧ pend d c p') ∨ effect d c d' p'.
Proof.
  intros Hok Hp Hs. destruct Hs as [f t|f|q f|now cs ms f d' b Hd|now cs ms f d' e Hd|q f|q cu f]; cbn in Hp.
  - left. auto.
  - left. auto.
  - destruct (Hp d) as [?|?]; [done..|by left|by right].
  - destruct Hp as [_ Hp]. specialize (Hp d now (reflexivity d) Hok).
    destruct (dk_accepts cs ms) eqn:Ea.
    + destruct (forallb (check_holds (dk_row d)) cs) eqn:Ec.
      * destruct (dk_commit_applies d now cs ms Ea Ec) as (d1 & Hd1 & _ & Hrows).
        rewrite Hd in Hd1. injection Hd1 as -> ->. right. by apply Hp.
      * rewrite (dk_commit_fails d now cs ms Ea Ec) in Hd. injection Hd as <- <-. by left.
    + destruct (dk_commit_refused d now cs ms Ea) as [e He]. by rewrite He in Hd.
  - destruct Hp as [He _]. destruct (dk_accepts cs ms) eqn:Ea.
    + destruct (forallb (check_holds (dk_row d)) cs) eqn:Ec.
      * destruct (dk_commit_applies d now cs ms Ea Ec) as (d1 & Hd1 & _). by rewrite Hd in Hd1.
      * by rewrite (dk_commit_fails d now cs ms Ea Ec) in Hd.
    + destruct (dk_commit_refused d now cs ms Ea) as [e' He']. rewrite He' in Hd. injection Hd as <- <-.
      left. split; [done|]. cbn. apply He. by exists cs, ms.
  - right. eapply Hp; [done..|]. intros. apply dk_remove_row.
  - done.
Qed.

(** *** The calls *)

Lemma store_ok_rows d' m :
  (∀ q, dk_row d' q = m q) → deno_inv 0 m → all_values tidy m →
  store_ok d' ∧ ∀ k, abs d' k = live_entry 0 m k.
Proof.
  intros E Hi Ht. destruct (inv_rows 0 m (dk_row d') E Hi) as [Hi' Hl].
  split; [split; [done|by eapply all_values_rows]|done].
Qed.

Lemma tidy_permanent m : all_values tidy m → all_values lasting m.
Proof. intros Ht q r Hr. by destruct (Ht q r Hr). Qed.

Lemma write_value_tidy k v ver x :
  (small k → isLargePayload v = false) → all_written tidy (write_value k v ver None x).
Proof.
  intros Hs. apply write_value_written; [done|]. destruct (isLargePayload v) eqn:E; [|done].
  intros ty n. split; [done|]. intros k' <-%(inj user_key) Hk. by specialize (Hs Hk).
Qed.

Lemma pend_get d0 k : small k → pend d0 (CGet k) (deno_call (CGet k)).
Proof.
  intros Hk. cbn [deno_call]. unfold deno_get.
  destruct (validateKey k) as [[]|e] eqn:Ev; cbn; [|by left].
  intros d _ [Hi Ht]. right. unfold effect, abs, live_entry. cbn [spec_call stored_call fst snd].
  split; [done|]. split; [done|]. specialize (Hi k). unfold envelope_ok in Hi.
  destruct (dk_row d (user_key k)) as [r|] eqn:Er; [|done].
  specialize (Hi r eq_refl). destruct (Ht _ _ Er) as [Hl Hu]. cbn.
  destruct (r_value r) as [v n [t|]|n e ty c| |]; try done. by apply (Hu k) in Hk.
Qed.

Lemma pend_cas d0 k v left :
  value_wf v → (small k → isLargePayload v = false) →
  pend d0 (CSet k v) (kvprog_bind (λ _, Done RDone) (cas_loop k v None None left)).
Proof.
  intros Hwf Hs. revert d0. induction left as [|left IH]; intros d0; [by right; left|].
  assert (∀ P : Prop, P → P) as Hid by done.
  assert (pend d0 (CSet k v) (kvprog_bind (λ _, Done RDone) (Read (user_key k) (λ e,
    Atomic [e] (delete_chunks k (envelope_chunks (e_value e)) ++
                write_value k v (envelope_version (e_value e) + 1) None None)
      (λ ok, if ok then Done tt else cas_loop k v None None left))))) as Hr;
    [|cbn [cas_loop]; by destruct (S left <? MAX_CAS_RETRIES)%nat].
  cbn. intros d1 _ Hok1. left. split; [by right; right|]. intros d now Hl [Hi Ht].
  destruct (check_holds (dk_row d) (entry_at d1 (user_key k))) eqn:Hc; cbn; [|apply IH].
  intros d' Hrows. pose proof (check_current _ _ _ Hl Hc) as Hcur. rewrite <-Hcur in Hrows.
  rewrite (permanent_version 0) in Hrows by (done || by apply tidy_permanent).
  destruct (set_block 0 now (dk_clock d') (dk_row d) k v (envelope_chunks (r_value <$> dk_row d (user_key k)))
    (version_of (live_entry 0 (dk_row d) k) + 1) None None) as [Hi' Hl']; [|done..|].
  { destruct (live_entry 0 (dk_row d) k) as [[v0 n0]|] eqn:E; cbn; [|done].
    pose proof (live_entry_version 0 (dk_row d) k v0 n0 (Hi k) E). lia. }
  eapply store_ok_rows in Hi' as [Hok' Habs]; [|exact Hrows|].
  - split_and!; [done| |done]. intros k'. rewrite Habs, Hl'. cbn. done.
  - apply all_values_steps; [|done]. apply Forall_app. split; [apply delete_chunks_written|by apply write_value_tidy].
Qed.

Lemma pend_set d0 k v :
  call_ok (CSet k v) → pend d0 (CSet k v) (deno_call (CSet k v)).
Proof.
  intros [Hwf Hs]. cbn [deno_call]. unfold deno_set.
  assert (∀ e, (validateKey k ≫= λ _, validatePayload v) = Err e → may_throw (CSet k v) e) as He
    by (intros; by left).
  destruct (validateKey k) as [[]|e]; cbn in *; [|by apply He].
  destruct (validatePayload v) as [[]|e]; cbn in *; [|by apply He].
  by apply (pend_cas d0 k v MAX_CAS_RETRIES).
Qed.

Lemma delete_effect d d' s k n now p :
  store_ok d → decided (Ok RDone) p →
  (∀ q, dk_row d' q = native_steps now s (dk_row d) (delete_chunks k n ++ [NDelete (user_key k)]) q) →
  effect d (CDelete k) d' p.
Proof.
  intros [Hi Ht] Hp Hrows. destruct (delete_block 0 now s (dk_row d) k n Hi) as [Hi' Hl].
  eapply store_ok_rows in Hi' as [Hok' Habs]; [|exact Hrows|].
  - split_and!; [done| |done]. intros k'. by rewrite Habs, Hl.
  - apply all_values_steps; [|done]. apply Forall_app. split; [apply delete_chunks_written|by repeat constructor].
Qed.

Lemma pend_delete d0 k : pend d0 (CDelete k) (deno_call (CDelete k)).
Proof.
  cbn [deno_call]. unfold deno_delete.
  destruct (validateKey k) as [[]|e] eqn:Ev; cbn; [|by left].
  assert (∀ d1, pend d1 (CDelete k) (Remove (user_key k) (Done RDone))) as Hrem.
  { intros d1 d d' _ Hok Hrows. by apply (delete_effect d d' 0 k 0 0). }
  intros d1 _ _. left. destruct (r_value <$> dk_row d1 (user_key k)) as [[v n e|n e ty c| |]|];
    cbn [kvprog_bind]; try apply Hrem.
  split; [by right|]. intros d now Hl Hok. cbn. intros d' Hrows. by eapply delete_effect.
Qed.

(** The entries a commit has fetched so far, each as it was at some time before *)
Definition snapshots (d0 : D) (entries : jsmap key entry) : Prop :=
  Forall (λ p, ∃ d, later d d0 ∧ p.2 = entry_at d (user_key p.1)) entries.

Lemma snapshots_current d0 d entries ks :
  later d0 d → snapshots d0 entries → forallb (check_holds (dk_row d)) (map_values entries) = true →
  (∀ k, k ∈ ks → map_has entries k = true) → current (dk_row d) entries ks.
Proof.
  intros Hl Hs Hc Hks k Hk. specialize (Hks k Hk). unfold map_has in Hks.
  destruct (map_get entries k) as [e|] eqn:E; [|done]. exists e. split; [done|].
  apply map_get_elem in E. eapply Forall_forall in Hs as (d1 & Hl1 & He); [|exact E]. cbn in He. subst e.
  rewrite (check_current d1 d); [done|by transitivity d0|].
  rewrite forallb_true_iff in Hc. apply Hc. apply list_elem_of_fmap. by exists (k, entry_at d1 (user_key k)).
Qed.

(** The effect of the native mutations of a commit whose entries are current *)
Lemma commit_effect d d' t now entries cs mus :
  store_ok d → call_ok (CCommit cs mus) → current (dk_row d) entries (distinct_keys cs mus) →
  verify_checks t entries cs = true →
  let '(ms, h) := build_mutations entries (on_values (λ e, live_version t (e_value e)) entries) mus 0 in
  (∀ q, dk_row d' q = native_steps now (dk_clock d') (dk_row d) ms q) →
  effect d (CCommit cs mus) d'
    (Done (RCommit {| cr_ok := true; cr_version := if 0 <? h then Some h else None |})).
Proof.
  intros [Hi Ht] Hc Hcur Hver. pose proof (tidy_permanent _ Ht) as Hp.
  assert (deno_inv t (dk_row d)) as Hit by (intros k; eapply lasting_clock; [done|apply Hi]).
  assert (∀ k, live_entry t (dk_row d) k = abs d k) as Hlt by (intros k; by apply lasting_clock).
  assert (Forall mutation_wf mus) as Hwf.
  { eapply Forall_impl; [exact Hc|]. intros []; cbn; tauto. }
  destruct (commit_core t now (dk_clock d') (dk_row d) entries cs mus Hit Hwf Hcur) as [Hv Hb].
  assert (all_written tidy (build_mutations entries
    (on_values (λ e, live_version t (e_value e)) entries) mus 0).1) as Hw.
  { apply build_mutations_written. eapply Forall_impl; [exact Hc|].
    intros []; cbn; [|done]. intros [_ Hs] ver. by apply write_value_tidy. }
  destruct (build_mutations _ _ mus 0) as [ms h]. intros Hrows.
  destruct Hb as (Hi' & -> & Hl').
  assert (deno_inv 0 (native_steps now (dk_clock d') (dk_row d) ms) ∧
          all_values tidy (native_steps now (dk_clock d') (dk_row d) ms)) as [Hi0 Ht0].
  { assert (all_values tidy (native_steps now (dk_clock d') (dk_row d) ms)) as Ht0 by by apply all_values_steps.
    split; [|done]. intros k. eapply lasting_clock; [by apply tidy_permanent|apply Hi']. }
  destruct (store_ok_rows d' _ Hrows Hi0 Ht0) as [Hok' Habs].
  unfold effect. cbn [stored_call spec_call]. rewrite Hver in Hv.
  rewrite <-(checks_hold_ext (live_entry t (dk_row d))), <-Hv by done. cbn [fst snd].
  split; [done|]. split.
  - intros k. rewrite Habs. rewrite (proj1 (lasting_clock 0 t _ k (tidy_permanent _ Ht0))), Hl'.
    by apply apply_mutations_ext.
  - cbn. by rewrite (highest_version_ext (live_entry t (dk_row d)) (abs d)) by auto.
Qed.

Lemma pend_fetch d0 cs mus ks entries :
  call_ok (CCommit cs mus) → snapshots d0 entries →
  (∀ k, k ∈ distinct_keys cs mus → k ∈ ks ∨ map_has entries k = true) →
  pend d0 (CCommit cs mus)
    (kvprog_bind (λ r, Done (RCommit r))
      (kvprog_bind (λ entries, Now (λ now,
         if verify_checks now entries cs then
           let currentVersions := on_values (λ e, live_version now (e_value e)) entries in
           let '(muts, highestNewVersion) := build_mutations entries currentVersions mus 0 in
           Atomic (map_values entries) muts (λ ok,
             if ok then
               Done {| cr_ok := true;
                       cr_version := if 0 <? highestNewVersion then Some highestNewVersion else None |}
             else Done {| cr_ok := false; cr_version := None |})
         else Done {| cr_ok := false; cr_version := None |})) (fetch_entries ks entries))).
Proof.
  intros Hc. revert d0 entries. induction ks as [|k ks IH]; intros d0 entries Hs Hks.
  - cbn. intros t. destruct (verify_checks t entries cs) eqn:Hv; [|cbn; eauto].
    pose proof (λ d d' now Hok Hcur, commit_effect d d' t now entries cs mus Hok Hc Hcur Hv) as Heff.
    destruct (build_mutations _ _ mus 0) as [ms h]. cbn.
    split; [by right|]. intros d now Hl Hok.
    destruct (forallb (check_holds (dk_row d)) (map_values entries)) eqn:Hall; [|eauto].
    intros d' Hrows. eapply Heff; [done| |exact Hrows].
    eapply snapshots_current; [done..|]. intros k Hk. by destruct (Hks k Hk) as [?%elem_of_nil|].
  - cbn [fetch_entries kvprog_bind pend]. intros d Hl Hok. left. apply IH.
    + apply Forall_map_set; [|exists d; split; [reflexivity|done]].
      eapply Forall_impl; [exact Hs|]. intros p (d1 & Hl1 & He). exists d1. split; [by transitivity d0|done].
    + intros k' Hk'. unfold map_has. destruct (decide (k' = k)) as [->|Hne]; [right; by rewrite map_get_set_eq|].
      rewrite map_get_set_ne by done. destruct (Hks k' Hk') as [Hin|?]; [|by right].
      apply elem_of_cons in Hin as [?|?]; [done|by left].
Qed.

Lemma pend_call d0 c : call_ok c → pend d0 c (deno_call c).
Proof.
  intros Hc. destruct c as [k|k v|k|cs mus].
  - by apply pend_get.
  - by apply pend_set.
  - by apply pend_delete.
  - cbn [deno_call]. unfold deno_commit.
    destruct (validate_commit cs mus) as [[]|e] eqn:Ev; [|by left].
    apply (pend_fetch d0 cs mus (distinct_keys cs mus) []); [done|constructor|]. intros. by left.
Qed.

(** ** The simulation *)

Definition call_related (d : D) (p : option (kvprog (kv_reply kv_value))) (s : option status) : Prop :=
  match p, s with
  | None, None => True
  | Some p, Some (Pending c) => pend d c p
  | Some p, Some (Decided r) => decided r p
  | _, _ => False
  end.

Definition related (w : world) (a : atomic_world) : Prop :=
  store_ok (w_db w) ∧ (∀ k, a_store a k = abs (w_db w) k) ∧
  ∀ id, call_related (w_db w) (w_calls w !! id) (a_calls a !! id).

Lemma call_related_later d d' p s : later d d' → call_related d p s → call_related d' p s.
Proof. intros Hl. destruct p, s as [[]|]; try done. by apply pend_later. Qed.

Lemma calls_related_insert d d' (ps : gmap nat (kvprog (kv_reply kv_value))) (ss : gmap nat status) id p s :
  later d d' → (∀ id, call_related d (ps !! id) (ss !! id)) → call_related d' (Some p) (Some s) →
  ∀ id', call_related d' (<[id := p]> ps !! id') (<[id := s]> ss !! id').
Proof.
  intros Hl Hr Hp id'. destruct (decide (id = id')) as [->|Hne]; [by rewrite !lookup_insert_eq|].
  rewrite !lookup_insert_ne by done. by eapply call_related_later.
Qed.

Lemma calls_related_delete d (ps : gmap nat (kvprog (kv_reply kv_value))) (ss : gmap nat status) id :
  (∀ id, call_related d (ps !! id) (ss !! id)) →
  ∀ id', call_related d (delete id ps !! id') (delete id ss !! id').
Proof.
  intros Hr id'. destruct (decide (id = id')) as [->|Hne]; [by rewrite !lookup_delete_eq|].
  by rewrite !lookup_delete_ne.
Qed.

(** A call that has come to its end answers in the specification as well. *)
Lemma answer_related w a id p r :
  related w a → w_calls w !! id = Some p → (p = match r with Ok x => Done x | Err e => Throw e end) →
  ∃ a', history atomic_step a [Answer id r] a' ∧
        related {| w_db := w_db w; w_calls := delete id (w_calls w) |} a'.
Proof.
  intros (Hok & Hst & Hcalls) Hp ->. pose proof (Hcalls id) as Hid. rewrite Hp in Hid.
  assert (∀ a1, a_calls a1 !! id = Some (Decided r) → a_store a1 = a_store a →
    (∀ id', id' ≠ id → a_calls a1 !! id' = a_calls a !! id') →
    ∃ a', history atomic_step a1 [Answer id r] a' ∧
          related {| w_db := w_db w; w_calls := delete id (w_calls w) |} a') as Hans.
  { intros a1 Ha1 Hs1 Hother. eexists. split.
    - eapply history_visible; [by eapply atomic_answer|constructor].
    - split_and!; cbn; [done|by rewrite Hs1|]. intros id'.
      destruct (decide (id = id')) as [<-|Hne]; [by rewrite !lookup_delete_eq|].
      rewrite !lookup_delete_ne, Hother by done. apply Hcalls. }
  unfold call_related in Hid. destruct (a_calls a !! id) as [[c|r']|] eqn:Ea; [| |done].
  - assert (decides (a_store a) c (a_store a) r) as Hd.
    { destruct r as [x|e]; cbn in Hid; [|by apply decides_error].
      destruct Hid as [(cs & mus & ->) ->]. by eapply decides_conflict. }
    destruct (Hans {| a_store := a_store a; a_calls := <[id := Decided r]> (a_calls a) |}) as (a' & Hh & HR).
    + cbn. by rewrite lookup_insert_eq.
    + done.
    + intros id' Hne. cbn. by rewrite lookup_insert_ne.
    + exists a'. split; [|done]. by eapply history_silent; [eapply atomic_decide|].
  - assert (r' = r) as -> by by destruct r. by apply (Hans a).
Qed.

Lemma kv_step_simulated w o w' a :
  kv_step w o w' → related w a → (∀ e, o = Some e → event_ok e) →
  ∃ a', history atomic_step a (option_list o) a' ∧ related w' a'.
Proof.
  intros Hs HR Hev. pose proof HR as (Hok & Hst & Hcalls).
  destruct Hs as [id c Hid|id p d' p' Hp Hstep|id r Hp|id e Hp]; cbn [option_list];
    [|..|by eapply answer_related|by eapply answer_related].
  - eexists. split.
    + eapply history_visible; [apply (atomic_invoke a id c)|constructor].
      pose proof (Hcalls id) as H1. rewrite Hid in H1. by destruct (a_calls a !! id).
    + split_and!; cbn; [done..|]. eapply calls_related_insert; [reflexivity|done|].
      apply pend_call. apply (Hev (Invoke id c) eq_refl).
  - pose proof (Hcalls id) as H1. rewrite Hp in H1. pose proof (later_step _ _ _ _ Hstep) as Hl.
    destruct (a_calls a !! id) as [[c|r]|] eqn:Ea; cbn in H1; [| |done].
    + destruct (pend_step _ _ _ _ _ Hok H1 Hstep) as [[-> Hp']|(Hok' & Habs & Hdec)].
      * exists a. split; [constructor|]. split_and!; cbn; [done..|].
        rewrite <-(insert_id (a_calls a) id (Pending c)) by done.
        by eapply calls_related_insert.
      * eexists. split.
        { eapply history_silent; [eapply atomic_decide; [exact Ea|apply decides_effect]|constructor]. }
        destruct (spec_call_ext (a_store a) (abs (w_db w)) (stored_call c) Hst) as [Hr Hm].
        split_and!; cbn; [done| |].
        -- intros k. by rewrite Habs, Hm.
        -- eapply calls_related_insert; [done..|]. cbn. by rewrite Hr.
    + destruct (decided_step _ _ _ _ _ Hstep H1) as [-> Hd]. exists a. split; [constructor|].
      split_and!; cbn; [done..|]. rewrite <-(insert_id (a_calls a) id (Decided r)) by done.
      by eapply calls_related_insert.
Qed.
End concurrency.

(** C9: Writes of concurrent clients are atomic.  Start from an empty store and let
    any number of calls ([get], [set], [delete], atomic commits with any checks)
    run with their operations on Deno KV interleaved in any order, any of which
    Deno KV may refuse for its limits.  Then there is a run of the specification
    with the same calls and answers in the same order, in which each call changes
    the versioned map in one indivisible step between its invocation and its
    answer: a [set] or commit that reports success has had its effect exactly
    once on the versions current at that step (no lost update), a commit reports
    a new version only if its checks held there, a call that throws or a
    conflicting commit has had none, and [set] gives up only with CONFLICT.  At
    every point the store holds the map of the specification.  Keys that are read
    meanwhile must not hold values that are split into chunks (see [torn_read]);
    expiry times are not used. *)
Theorem deno_history_atomic `{JsonText} `{!JsonTextLaws} {D} `{DenoKv D} `{!DenoKvLaws D}
    (small : key → Prop) (d0 : D) es w :
  (∀ q, dk_row d0 q = None) → Forall (event_ok small) es →
  history kv_step {| w_db := d0; w_calls := ∅ |} es w →
  ∃ a, history (atomic_step (D := D)) {| a_store := λ _, None; a_calls := ∅ |} es a ∧
       ∀ k, a_store a k = abs (w_db w) k.
Proof.
  intros Hempty Hes Hh.
  destruct (history_simulation kv_step (atomic_step (D := D)) (related small) (event_ok small)
    (kv_step_simulated small) _ _ _ {| a_store := λ _, None; a_calls := ∅ |} Hh) as (a & Ha & _ & Hst & _); [|done|].
  - split_and!; cbn.
    + split; [intros k r|intros q r]; by rewrite Hempty.
    + intros k. unfold abs, live_entry. by rewrite Hempty.
    + intros id. by rewrite !lookup_empty.
  - by exists a.
Qed.

(** ** Running a schedule *)

Section schedule.
Context `{JsonText} {D : Type} `{DenoKv D}.

(** What happens next: a call is made, a call does its next operation at a time,
    a call answers. *)
Inductive action := Call (id : nat) (c : kv_call kv_value) | Move (id : nat) (now : Z) | Reply (id : nat).

Definition move (now : Z) (p : kvprog (kv_reply kv_value)) (d : D) : option (D * kvprog (kv_reply kv_value)) :=
  match p with
  | Done _ | Throw _ => None
  | Now f => Some (d, f now)
  | Sleep f => Some (d, f)
  | Read q f => Some (d, f (entry_at d q))
  | Atomic cs ms f =>
      match dk_commit now cs ms d with (d', Ok b) => Some (d', f b) | (d', Err e) => Some (d', Throw e) end
  | Remove q f => Some (dk_remove q d, f)
  | Entries q c f => Some (d, f (dk_entries d q c))
  end.

Fixpoint schedule (w : world) (acts : list action) : option (list event * world (D := D)) :=
  match acts with
  | [] => Some ([], w)
  | Call id c :: acts =>
      match w_calls w !! id with
      | Some _ => None
      | None =>
          '(es, w') ← schedule {| w_db := w_db w; w_calls := <[id := deno_call c]> (w_calls w) |} acts;
          Some (Invoke id c :: es, w')
      end
  | Move id now :: acts =>
      p ← w_calls w !! id;
      '(d', p') ← move now p (w_db w);
      schedule {| w_db := d'; w_calls := <[id := p']> (w_calls w) |} acts
  | Reply id :: acts =>
      p ← w_calls w !! id;
      r ← match p with Done x => Some (Ok x) | Throw e => Some (Err e) | _ => None end;
      '(es, w') ← schedule {| w_db := w_db w; w_calls := delete id (w_calls w) |} acts;
      Some (Answer id r :: es, w')
  end.

Lemma move_step now p d d' p' : move now p d = Some (d', p') → prog_step d p d' p'.
Proof.
  destruct p; cbn; try done; try (intros [= <- <-]; constructor).
  destruct (dk_commit now checks muts d) as [d1 [b|e]] eqn:E; intros [= <- <-]; by econstructor.
Qed.

Lemma schedule_history w acts es w' : schedule w acts = Some (es, w') → history kv_step w es w'.
Proof.
  revert w es. induction acts as [|[id c|id now|id] acts IH]; intros w es; cbn [schedule].
  - intros [= <- <-]. constructor.
  - destruct (w_calls w !! id) eqn:E; [done|]. intros ([es' w1] & Hs & [= <- <-])%bind_Some.
    eapply history_visible; [by apply kv_invoke|by apply IH].
  - intros (p & E & ([d' p'] & Hm%move_step & Hs)%bind_Some)%bind_Some.
    eapply history_silent; [by eapply kv_move|by apply IH].
  - intros (p & E & (r & Hr & ([es' w1] & Hs & [= <- <-])%bind_Some)%bind_Some)%bind_Some.
    eapply history_visible; [|by apply IH].
    destruct p; cbn in Hr; try done; injection Hr as <-; [by eapply kv_done|by eapply kv_thrown].
Qed.
End schedule.

(** Two clients set the same key; a third commits on the version it expects.  The
    second client's first attempt fails, as the entry it read has changed. *)
Definition race_key : key := [js "app"; js "n"].
Definition race_text (s : jstr) : kv_value := VData (JStr s).
Definition race_schedule : list action :=
  [Call 1 (CSet race_key (race_text (js "a"))); Call 2 (CSet race_key (race_text (js "b")));
   Move 1 0; Move 2 0; Move 1 0; Move 2 0; Move 2 0; Move 2 0; Move 2 0; Reply 2; Reply 1;
   Call 3 (CCommit [{| ck_key := race_key; ck_expectedVersion := 2 |}] [MSet race_key (race_text (js "c"))]);
   Call 4 (CDelete race_key); Call 5 (CGet race_key);
   Move 3 5; Move 5 5; Move 3 5; Move 3 5; Move 4 6; Move 4 6; Reply 5; Reply 3; Reply 4].
Definition race_events : list event :=
  [Invoke 1 (CSet race_key (race_text (js "a"))); Invoke 2 (CSet race_key (race_text (js "b")));
   Answer 2 (Ok RDone); Answer 1 (Ok RDone);
   Invoke 3 (CCommit [{| ck_key := race_key; ck_expectedVersion := 2 |}] [MSet race_key (race_text (js "c"))]);
   Invoke 4 (CDelete race_key); Invoke 5 (CGet race_key);
   Answer 5 (Ok (RValue (Some (race_text (js "b")))));
   Answer 3 (Ok (RCommit {| cr_ok := true; cr_version := Some 3 |})); Answer 4 (Ok RDone)].
Definition no_memory : memory := {| mem_rows := ∅; mem_clock := 0 |}.

Theorem deno_history_atomic_witness :
  ∃ w, history kv_step {| w_db := no_memory; w_calls := ∅ |} race_events w ∧
  ∃ a, history (atomic_step (D := memory)) {| a_store := λ _, None; a_calls := ∅ |} race_events a ∧
       ∀ k, a_store a k = abs (w_db w) k.
Proof.
  destruct (schedule (D := memory) {| w_db := no_memory; w_calls := ∅ |} race_schedule) as [[es w]|] eqn:E;
    [|vm_compute in E; discriminate].
  assert (es = race_events) as ->.
  { assert (Some es = Some race_events) as [= ->]; [|reflexivity].
    transitivity (fst <$> schedule (D := memory) {| w_db := no_memory; w_calls := ∅ |} race_schedule).
    - rewrite E. reflexivity.
    - vm_compute. reflexivity. }
  apply schedule_history in E. exists w. split; [exact E|].
  apply (deno_history_atomic (λ _, True) no_memory race_events w).
  - intros q. apply lookup_empty.
  - repeat constructor.
  - exact E.
Defined.

(** A value in two chunks is read entry by entry: when another value of two chunks
    replaces it between the reads of the chunks, [get] returns the first half of
    one and the second half of the other, a value that was never written. *)
Lemma torn_read `{JsonText} {D} `{DenoKv D} (d d' : D) k u r0 r1 a b n :
  u = user_key k → validateKey k = Ok tt →
  dk_row d u = Some r0 → r_value r0 = Chunked n None TUint8array 2 →
  (r_value <$> dk_row d (chunk_key u 0)) = Some (RawBytes a) →
  dk_row d' (chunk_key u 1) = Some r1 → r_value r1 = RawBytes b →
  ∃ p1 p2, prog_step d (deno_call (CGet k)) d p1 ∧ prog_step d p1 d p2 ∧
           prog_step d' p2 d' (Done (RValue (Some (VBytes (a ++ b))))).
Proof.
  intros -> Hk Hrow0 Hr0 Ha Hrow1 Hr1. cbn [deno_call]. unfold deno_get. rewrite Hk.
  cbn [of_result mbind kvprog_mbind kvprog_bind]. do 2 eexists. split; [|split].
  - eapply step_read.
  - cbn [e_value entry_at]. rewrite Hrow0. cbn -[chunk_key]. rewrite Hr0. cbn -[chunk_key]. eapply step_read.
  - cbn -[chunk_key]. rewrite Ha. cbn -[chunk_key].
    match goal with |- prog_step _ (Read ?q ?f) _ _ => pose proof (step_read d' q f) as Hs end.
    cbn -[chunk_key] in Hs. rewrite Hrow1 in Hs. cbn -[chunk_key] in Hs. by rewrite Hr1 in Hs.
Qed.

(** ** Local and remote tier *)

(** JSON values that are read back as they are *)
Definition plain (v : kv_value) : Prop :=
  match v with VData j => j ≠ JUndef ∧ portable v | VBytes _ => False end.
Definition plain_call (c : kv_call kv_value) : Prop :=
  match c with
  | CSet _ v => plain v
  | CCommit _ mus => Forall (λ mu, match mu with MSet _ v => plain v | MDelete _ => True end) mus
  | _ => True
  end.

Lemma plain_stored `{JsonText} c : plain_call c → stored_call c = c.
Proof.
  assert (∀ v, plain v → stored v = v) as Hv.
  { intros [j|bs]; [|done]. intros [_ Hp]. by apply portable_stored. }
  destruct c as [|k v| |cs mus]; cbn; intros Hc; try done; [by rewrite Hv|]. f_equal.
  induction Hc as [|[k v|k] mus Hmu _ IH]; cbn; [done|by rewrite Hv, IH|by rewrite IH].
Qed.

(** The calls for which both tiers give the same answers: the keys that some call
    sets with a time to live are in no check and no mutation of a commit *)
Definition plain_timed (c : timed_call kv_value) : Prop :=
  match c with Plain c => plain_call c | SetTtl _ v _ => plain v end.
Definition set_with_ttl (cs : list (Z * timed_call kv_value)) (k : key) : Prop :=
  ∃ t v ttl, (t, SetTtl k v ttl) ∈ cs.

Lemma plain_stored_timed `{JsonText} c : plain_timed c → stored_timed c = c.
Proof.
  destruct c as [c|k v ttl]; cbn; [intros Hc; by rewrite plain_stored|]. destruct v as [j|bs]; [|done].
  intros [_ Hp]. by rewrite portable_stored.
Qed.

(** C10: The remote tier behaves as the local one: for any sequence of [get], [set],
    [set] with a positive time to live, [delete] and commits, at times that do not
    go back, on keys and values that both accept and that survive JSON, the Deno
    KV provider and the SQLite provider, both empty at first, give the same
    answers - values, expiry, versions and conflicts - up to the end or up to the
    first operation that Deno KV refuses for its limits.  The keys that some call
    sets with a time to live must not occur in commits, which would show their
    versions: those may differ once such a key has expired ([ttl_versions_differ]).
    Deno KV is assumed not to drop entries by itself before the provider sees
    that they have expired. *)
Theorem provider_parity `{JsonText} `{!JsonTextLaws} {D} `{DenoKv D} `{!DenoKvLaws D}
    (cs : list (Z * timed_call kv_value)) (d0 : D) t0 :
  (∀ q, dk_row d0 q = None) → from_time t0 (fst <$> cs) →
  Forall (λ c, deno_timed_valid c.2 ∧ timed_valid c.2 ∧ plain_timed c.2 ∧ versions_hidden (set_with_ttl cs) c.2) cs →
  let local := run_sqlite_timed {| clock := t0; kv_entries := ∅ |} cs in
  run_deno_timed d0 cs = local ∨
  refused (D := D) ∧ ∃ n e, (n < length cs)%nat ∧ run_deno_timed d0 cs = take n local ++ [Err e].
Proof.
  intros Hempty Htimes Hcs. cbn zeta.
  rewrite (run_sqlite_stores cs {| clock := t0; kv_entries := ∅ |} _ empty_stores)
    by (eapply Forall_impl; [exact Hcs|]; by intros c (_ & ? & _)).
  assert ((λ c, (c.1, stored_timed c.2)) <$> cs = cs) as Hst.
  { assert (Forall (λ c, plain_timed c.2) cs) as Hpl by (eapply Forall_impl; [exact Hcs|]; by intros c (_ & _ & ? & _)).
    clear Htimes Hcs. induction Hpl as [|[t c] cs Hc _ IH]; [done|]. cbn. by rewrite IH, plain_stored_timed. }
  pose proof (run_deno_timed_refines (set_with_ttl cs) cs t0 d0 (λ _, None)) as Href. rewrite Hst in Href.
  apply Href; [by apply empty_agrees|done|]. eapply Forall_impl; [exact Hcs|]. by intros c (? & _ & _ & ?).
Qed.

(** A client on both tiers: a race for a version, a conflict, a delete, and a key
    that expires after two seconds *)
Definition session_key : key := [js "app"; js "session"].
Definition parity_calls : list (Z * timed_call kv_value) :=
  [(1, Plain (CSet race_key (race_text (js "a")))); (1, SetTtl session_key (race_text (js "b")) 2);
   (3, Plain (CCommit [{| ck_key := race_key; ck_expectedVersion := 1 |}] [MSet race_key (race_text (js "b"))]));
   (3, Plain (CCommit [{| ck_key := race_key; ck_expectedVersion := 1 |}] [MDelete race_key]));
   (4, Plain (CGet race_key)); (5, Plain (CDelete race_key)); (6, Plain (CGet race_key));
   (2000, Plain (CGet session_key)); (2001, Plain (CGet session_key))].
Definition parity_answers : list (result exn (kv_reply kv_value)) :=
  [Ok RDone; Ok RDone; Ok (RCommit {| cr_ok := true; cr_version := Some 2 |});
   Ok (RCommit {| cr_ok := false; cr_version := None |});
   Ok (RValue (Some (race_text (js "b")))); Ok RDone; Ok (RValue None);
   Ok (RValue (Some (race_text (js "b")))); Ok (RValue None)].

Theorem provider_parity_witness :
  run_deno_timed no_memory parity_calls = run_sqlite_timed {| clock := 0; kv_entries := ∅ |} parity_calls ∧
  run_deno_timed no_memory parity_calls = parity_answers.
Proof.
  assert (run_deno_timed no_memory parity_calls = parity_answers) as Hrun by (vm_compute; reflexivity).
  split; [|exact Hrun].
  destruct (provider_parity parity_calls no_memory 0) as [H|(_ & n & e & _ & H)].
  - intros q. apply lookup_empty.
  - vm_compute. repeat split; discriminate.
  - assert (∀ k, k = race_key ∨ k = session_key → sqlite_valid k) as Hk.
    { intros k [-> | ->]; (split; [|split; [vm_compute; reflexivity|eexists; vm_compute; reflexivity]]);
        repeat constructor; vm_compute; discriminate. }
    assert (∀ s, s = js "a" ∨ s = js "b" → plain (race_text s)) as Hp.
    { intros s Hs. split; [discriminate|]. cbn.
      destruct Hs as [-> | ->]; (split; [repeat constructor; vm_compute; discriminate|]);
        (split; [repeat constructor; vm_compute; intros; discriminate|vm_compute; discriminate]). }
    assert (¬ set_with_ttl parity_calls race_key) as Hnv.
    { intros (t & v & ttl & Hin). unfold parity_calls in Hin.
      repeat (apply elem_of_cons in Hin as [Hin|Hin]; [discriminate Hin|]). by apply not_elem_of_nil in Hin. }
    assert (set_with_ttl parity_calls session_key) as Hv by (exists 1, (race_text (js "b")), 2; right; left).
    unfold parity_calls at 1.
    repeat first [exact Hnv | exact Hv | apply Hk; auto | apply Forall_nil_2 | apply Forall_cons_2 | apply Hp; auto
                 | split | vm_compute; reflexivity | exact I].
  - exact H.
  - exfalso. rewrite Hrun in H. apply (f_equal last) in H. rewrite last_snoc in H. discriminate H.
Defined.

(** After a key has expired the versions part: the [get] that finds it expired
    removes the row of the SQLite provider, whose versions start again, while on
    Deno KV the expired envelope stays and its version goes on. *)
Lemma ttl_versions_differ :
  let calls := [(0, SetTtl race_key (race_text (js "a")) 1); (1000, Plain (CGet race_key));
                (1001, Plain (CSet race_key (race_text (js "b"))));
                (1002, Plain (CCommit [{| ck_key := race_key; ck_expectedVersion := 1 |}] [MDelete race_key]))] in
  run_sqlite_timed {| clock := 0; kv_entries := ∅ |} calls =
    [Ok RDone; Ok (RValue None); Ok RDone; Ok (RCommit {| cr_ok := true; cr_version := None |})] ∧
  run_deno_timed no_memory calls =
    [Ok RDone; Ok (RValue None); Ok RDone; Ok (RCommit {| cr_ok := false; cr_version := None |})].
Proof. split; vm_compute; reflexivity. Qed.
